(* ===== verification/_CoqProject ===== *)
-Q . S2P
Prelude.v
Interfaces.v
Ordered.v
Varint.v
IntSet.v
ListPack.v
QuickList.v
Sds.v
SdsNumeric.v
Bitmap.v
Expire.v
Dict.v
SmartHash.v
SkipList.v
Hll.v
ZdbFormat.v
ZdbReader.v
ZdbValue.v
ZdbStored.v
ZdbDump.v
ZdbFiles.v
Numbers.v
Zsp.v
ZspCodec.v
Storage.v
Memory.v
Commands.v
CommandSpec.v
CommandRefinement.v
Crc32.v
Aof.v
AofReplay.v
Sharding.v
ShardingLaws.v
Persistent.v
PersistentLaws.v
Compaction.v
CompactionLaws.v
Text.v
Protocol.v
Connections.v
ConnectionsLaws.v
Server.v
ServerLaws.v
Slots.v
SlotsLaws.v
Cluster.v
ClusterLaws.v
Messages.v
MessageLaws.v
PubSub.v
PubSubLaws.v
Access.v
AccessLaws.v
Sessions.v
SessionsLaws.v
Floats.v
Geography.v
Geohash.v
RTree.v
RTreeLaws.v
GeoSet.v
GeoSetLaws.v
Administration.v
ConcurrentList.v
ShardedList.v
ShardedListLaws.v
Backup.v
