(* ===== verification/Prelude.v ===== *)
(** * Verification of the zumic key-value store

    zumic is a server of keys and values in Rust.  A client sends commands over
    a binary protocol or as lines of text; a handler per connection decodes and
    executes them on an engine, which keeps the keyspace in memory, in memory with
    an append-only log, or in shards that are engines themselves.  The values are
    containers of the program's own (strings, lists, hashes, sorted sets, bit
    arrays, cardinality sketches), and a dump format stores them.  Beside the
    keyspace there are channels, users with their sessions, and geographic sets.

    This development is a shallow embedding: a method of the source is a function
    of the state that it reads and writes, under the name of the source where that
    is free, and a [Result] is [result].  A [None] of type [option] is a panic (or
    a call that never returns) unless the source itself returns an [Option].  Code
    that is not in the repository is a parameter: a type class of operations, with
    its documented behaviour as a class of laws that only the theorems that need
    it assume.

    ** Parts and files

    A file [FooLaws.v] holds the theorems of a large [Foo.v].  Paths are below
    [src/src].

    - Shared: [Prelude] (words, results, list lemmas, tactics), [Interfaces] (maps
      and iteration orders as classes), [Ordered] (ordered maps), [Numbers] and
      [Floats] ([f64] on its bits), [Text] ([str]).
    - Containers of [database/]: [Varint], [IntSet], [ListPack], [QuickList], [Sds]
      and [SdsNumeric], [Bitmap], [Expire], [Dict], [SmartHash], [SkipList], [Hll];
      and [ConcurrentList] and [ShardedList], skip lists under locks.  Each theorem
      says that the container, through any sequence of calls, answers as a set, a
      list, a map, a sorted list or a row of bits does.
    - Dumps, [engine/zdb/]: [ZdbFormat] (versions), [ZdbReader] (the reading monad),
      [ZdbValue] and [ZdbStored] (values), [ZdbDump] and [ZdbFiles] (files and
      streams), and [Backup] (a store to a file and back,
      [engine/zdb_protocol.rs]).  The theorems are round trips of what the format
      can carry, and the inputs on which they fail.
    - The storage interface: [Storage] is the trait of [engine/storage.rs] as a
      class [StorageOps], and its contract [StorageLaws] over a finite map.  Three
      instances: [Memory] ([engine/memory.rs]), [Persistent] ([engine/persistent.rs])
      and [Cluster] ([engine/cluster.rs], with [engine/store.rs] that picks one).
    - Commands, [command/]: [Commands] over any [StorageOps]; [CommandSpec] says what
      they mean on a map of abstract values, and [CommandRefinement] proves it for
      every engine that keeps [StorageLaws].  [Administration] has those of the
      server, of places and of users, and the dispatch over all of them.
    - Durability: [Crc32] and [Aof] ([engine/aof.rs], [aof_integrity.rs]) with
      [AofReplay], [Sharding] ([engine/sharding.rs]), [Persistent], and [Compaction]
      ([engine/compaction.rs], [recovery.rs]).  What is appended is replayed, a
      crash leaves a prefix, and a reopened store is the store; a recovery from a
      snapshot is not one of the snapshot ([CompactionLaws]).
    - Distribution: [Slots] ([engine/slot_manager.rs], [rebalancer.rs]) and [Cluster].
    - The wire, [network/zsp/] and [client/]: [Zsp] and [ZspCodec] (frames),
      [Protocol] (commands and responses), [Connections] (limits and the registry),
      [Server] (the handler and the client).  A call of the client means on the
      keyspace what the command means.
    - Channels, [pubsub/]: [Messages] and [PubSub].
    - Users, [auth/]: [Access] (rules, passwords, authentication) and [Sessions]
      (tokens and sessions).
    - Places, [database/geo/]: [Geography], [Geohash], [RTree] and [GeoSet], with the
      geographic operations of the store.

    ** How they fit together

    The containers of a value are behind [MapOps] and [SortedOps], so that the dump
    format is proved once and holds for [Dict], [SmartHash] and [SkipList].  The
    engines are behind [StorageOps], so that the commands, the connection handler
    and the cluster are proved once: [ClusterLaws] shows that a cluster of lawful
    engines is a lawful engine, and [ServerLaws] composes the client, the codec, the
    handler and the commands into one theorem.  [Persistent] is built from the
    sharded index, the log and the value codec, and its theorems use theirs.

    ** Concurrency

    A method that holds a lock, or works on one entry of a concurrent map, is one
    step; where a method releases its locks in between, its parts are definitions
    of their own and the theorems speak of interleavings of steps: the counters of
    connections, of handlers that panic too ([ConnectionsLaws]), attempts to log in ([AccessLaws]), creations of
    sessions ([SessionsLaws]), channels ([PubSubLaws]), a clear of shards
    ([ShardedListLaws]) and two calls of [set] on a
    persistent store ([PersistentLaws]).

    ** Integers, fuel and bounds

    Integers are [Z] with their wrap-around written out ([wrapu], [wraps]); sizes
    and indices of containers are [nat], taken below 2^63.  A recursion that is not
    structural has a fuel: the number of bytes left for a scan, of nodes for a walk
    of the skip list, of entries for a rehash, of the levels of nesting for a
    decoder of values (whose exhaustion is the overflow of the stack, [Deep]), of
    the nodes and entries of a tree for its search.  The theorems on results prove
    that a result is given with the fuel that the definitions use, or state how much
    is enough; Vincenty's formula has the 100 iterations of the source.

    ** What is left open or out

    Open, as parameters: hashes, compression, JSON and the other codecs of crates,
    patterns, signatures and password hashes, channels of tokio, random numbers, the
    text of floating-point numbers, sine and the like, clocks, and the order of
    iteration of hash maps.  Out: sockets and timers, the file system's failures,
    settings, logging, metrics, plugins and scripts, the texts of messages, and the
    commands whose body is not written in the source; the headers of the files say
    what else a file leaves out.  Some theorems are about behaviour that the code
    does not seem to intend, and say so. *)
From Stdlib Require Export ZArith Lia Sorted.
From stdpp Require Export base option gmap sets strings numbers sorting.
From stdpp Require Export list.

#[global] Arguments Nat.div : simpl never.
#[global] Arguments Nat.modulo : simpl never.

Declare Scope zumic_scope.
Delimit Scope zumic_scope with zumic.

(** ** Bytes and machine words *)

(** A [u8] is a [Z] in [0, 256); a byte string ([Vec<u8>], [Sds]) is a list. *)
Abbreviation bytes := (list Z).

Definition is_u (w n : Z) : Prop := (0 <= n < 2 ^ w)%Z.
Definition is_byte (b : Z) : Prop := (0 <= b < 256)%Z.

(** Conversion of an integer to an unsigned word of width [w] ([as u32], and
    the bits that a left shift keeps). *)
Definition wrapu (w n : Z) : Z := (n mod 2 ^ w)%Z.

(** Conversion to a two's complement signed word of width [w] ([as i16]). *)
Definition wraps (w n : Z) : Z := ((n + 2 ^ (w - 1)) mod 2 ^ w - 2 ^ (w - 1))%Z.

Definition is_s (w n : Z) : Prop := (- 2 ^ (w - 1) <= n < 2 ^ (w - 1))%Z.

Lemma wrapu_small w n : is_u w n -> wrapu w n = n.
Proof. intros H. apply Z.mod_small. exact H. Qed.

Lemma wrapu_is_u w n : (0 <= w)%Z -> is_u w (wrapu w n).
Proof. intros H. apply Z.mod_pos_bound. by apply Z.pow_pos_nonneg. Qed.

Lemma wraps_small w n : (0 < w)%Z -> is_s w n -> wraps w n = n.
Proof.
  unfold wraps, is_s. intros Hw H.
  assert (2 ^ w = 2 * 2 ^ (w - 1))%Z as Hp.
  { rewrite <- Z.pow_succ_r by lia. f_equal. lia. }
  rewrite Z.mod_small; lia.
Qed.

Lemma wraps_is_s w n : (0 < w)%Z -> is_s w (wraps w n).
Proof.
  unfold wraps, is_s. intros Hw.
  assert (2 ^ w = 2 * 2 ^ (w - 1))%Z as Hp.
  { rewrite <- Z.pow_succ_r by lia. f_equal. lia. }
  pose proof (Z.mod_pos_bound (n + 2 ^ (w - 1)) (2 ^ w)) as B.
  assert (0 < 2 ^ w)%Z by (apply Z.pow_pos_nonneg; lia). lia.
Qed.

(** ** Results

    [Result<A, E>] of the source. *)
Inductive result (E A : Type) : Type :=
| Ok (a : A)
| Err (e : E).
Arguments Ok {E A} a.
Arguments Err {E A} e.

Definition rbind {E A B} (m : result E A) (f : A -> result E B) : result E B :=
  match m with
  | Ok a => f a
  | Err e => Err e
  end.

Definition is_ok {E A} (m : result E A) : bool :=
  match m with Ok _ => true | Err _ => false end.

(** [ensure!(cond, err)] *)
Definition ensure {E} (cond : bool) (e : E) : result E unit :=
  if cond then Ok tt else Err e.

Notation "'let?' x ':=' m 'in' k" := (rbind m (fun x => k))
  (at level 10, x pattern, m at level 100, k at level 200) : zumic_scope.

Open Scope zumic_scope.

Lemma rbind_Ok {E A B} (m : result E A) (f : A -> result E B) (b : B) :
  rbind m f = Ok b <-> exists a, m = Ok a /\ f a = Ok b.
Proof.
  destruct m as [a|e]; simpl; split.
  - intros Hf. by exists a.
  - by intros (? & [= ->] & ?).
  - done.
  - by intros (? & ? & ?).
Qed.

(** ** Tactics *)

(** Case analysis on the scrutinee of a [match] or [if] of the goal. *)
Ltac step_match :=
  match goal with
  | |- context [match ?x with _ => _ end] => destruct x eqn:?
  | H : context [match ?x with _ => _ end] |- _ => destruct x eqn:?
  end.

(** Boolean comparisons of the code to propositions. *)
Ltac bool_to_prop :=
  repeat match goal with
  | H : (_ =? _)%Z = true |- _ => apply Z.eqb_eq in H
  | H : (_ =? _)%Z = false |- _ => apply Z.eqb_neq in H
  | H : (_ <? _)%Z = true |- _ => apply Z.ltb_lt in H
  | H : (_ <? _)%Z = false |- _ => apply Z.ltb_ge in H
  | H : (_ <=? _)%Z = true |- _ => apply Z.leb_le in H
  | H : (_ <=? _)%Z = false |- _ => apply Z.leb_gt in H
  | H : (_ =? _)%nat = true |- _ => apply Nat.eqb_eq in H
  | H : (_ =? _)%nat = false |- _ => apply Nat.eqb_neq in H
  | H : (_ <? _)%nat = true |- _ => apply Nat.ltb_lt in H
  | H : (_ <? _)%nat = false |- _ => apply Nat.ltb_ge in H
  | H : (_ <=? _)%nat = true |- _ => apply Nat.leb_le in H
  | H : (_ <=? _)%nat = false |- _ => apply Nat.leb_gt in H
  | H : _ && _ = true |- _ => apply andb_true_iff in H as [? ?]
  | H : _ && _ = false |- _ => apply andb_false_iff in H
  | H : _ || _ = true |- _ => apply orb_true_iff in H
  | H : _ || _ = false |- _ => apply orb_false_iff in H as [? ?]
  | H : negb _ = true |- _ => apply negb_true_iff in H
  | H : negb _ = false |- _ => apply negb_false_iff in H
  end.

(** ** Bits *)

Lemma land_7F v : Z.land v 0x7F = (v mod 128)%Z.
Proof. exact (Z.land_ones v 7 ltac:(lia)). Qed.

Lemma shiftr_7 v : Z.shiftr v 7 = (v / 128)%Z.
Proof. by rewrite Z.shiftr_div_pow2. Qed.

(** Bits of disjoint positions: [|] is [+]. *)
Lemma land_shiftl_0 r b s :
  (0 <= s)%Z -> (0 <= r < 2 ^ s)%Z -> Z.land r (Z.shiftl b s) = 0%Z.
Proof.
  intros Hs Hr. apply Z.bits_inj'. intros i Hi.
  rewrite Z.land_spec, Z.shiftl_spec, Z.bits_0 by lia.
  destruct (decide (i < s)%Z) as [Hlt|Hge].
  - rewrite (Z.testbit_neg_r b) by lia. apply andb_false_r.
  - rewrite <- (Z.mod_small r (2 ^ s)) by lia.
    rewrite Z.mod_pow2_bits_high by lia. done.
Qed.

Lemma lor_shiftl_add r b s :
  (0 <= s)%Z -> (0 <= r < 2 ^ s)%Z ->
  Z.lor r (Z.shiftl b s) = (r + b * 2 ^ s)%Z.
Proof.
  intros Hs Hr. rewrite <- (Z.shiftl_mul_pow2 b s) by lia.
  rewrite <- Z.add_lor_land, land_shiftl_0 by lia. lia.
Qed.

Lemma lor_is_u w a b : (0 <= w)%Z -> is_u w a -> is_u w b -> is_u w (Z.lor a b).
Proof.
  unfold is_u. intros Hw Ha Hb.
  replace (Z.lor a b) with (Z.lor a b mod 2 ^ w)%Z; [apply Z.mod_pos_bound; lia|].
  rewrite <- Z.land_ones, Z.land_lor_distr_l, !Z.land_ones, !Z.mod_small by lia. done.
Qed.

Lemma lor_80 v : (0 <= v < 128)%Z -> Z.lor v 0x80 = (v + 128)%Z.
Proof. intros H. exact (lor_shiftl_add v 1 7 ltac:(lia) H). Qed.

Lemma land_80 b : is_byte b -> (Z.land b 0x80 =? 0)%Z = (b <? 128)%Z.
Proof.
  intros Hb. unfold is_byte in Hb.
  destruct (Z.ltb_spec b 128); change 0x80%Z with (Z.shiftl 1 7).
  - rewrite land_shiftl_0 by lia. done.
  - assert (exists c, b = Z.lor c (Z.shiftl 1 7) /\ 0 <= c < 128)%Z as (c & -> & Hc).
    { exists (b - 128)%Z. rewrite lor_shiftl_add by lia. lia. }
    rewrite Z.land_lor_distr_l, land_shiftl_0 by lia. done.
Qed.

(** ** LEB128

    The reference form of the variable length integers that the dump format
    and the listpack both write: seven bits a byte, least significant group
    first, bit 7 set on every byte but the last. *)
Fixpoint leb (fuel : nat) (v : Z) : bytes :=
  match fuel with
  | O => []
  | S fuel => if (v <? 128)%Z then [v] else (v mod 128 + 128)%Z :: leb fuel (v / 128)
  end.

(** The value of a group sequence and what follows it. *)
Fixpoint unleb (l : bytes) : option (Z * bytes) :=
  match l with
  | [] => None
  | b :: l => if (b <? 128)%Z then Some (b, l)
              else '(v, r) ← unleb l; Some ((b - 128) + 128 * v, r)%Z
  end.

Lemma div_128_bound v n : (0 <= v < 128 ^ (n + 1))%Z -> (0 <= n)%Z -> (0 <= v / 128 < 128 ^ n)%Z.
Proof.
  intros H Hn. rewrite Z.pow_add_r, Z.pow_1_r in H by lia.
  split; [apply Z.div_pos|apply Z.div_lt_upper_bound]; lia.
Qed.

Lemma leb_bytes fuel v : (0 <= v)%Z -> Forall is_byte (leb fuel v).
Proof.
  revert v. induction fuel as [|fuel IH]; intros v Hv; simpl; [constructor|].
  destruct (Z.ltb_spec v 128).
  - repeat constructor; lia.
  - pose proof (Z.mod_pos_bound v 128). constructor; [unfold is_byte; lia|].
    apply IH, Z.div_pos; lia.
Qed.

Lemma leb_length fuel v :
  (0 < fuel)%nat -> (1 <= length (leb fuel v) <= fuel)%nat.
Proof.
  intros H. destruct fuel as [|fuel]; [lia|]. clear H.
  revert v. induction fuel as [|fuel IH]; intros v; simpl.
  - destruct (v <? 128)%Z; simpl; lia.
  - destruct (v <? 128)%Z; simpl; [lia|]. specialize (IH (v / 128)%Z). simpl in IH. lia.
Qed.

Lemma leb_S fuel v :
  leb (S fuel) v = if (v <? 128)%Z then [v] else (v mod 128 + 128)%Z :: leb fuel (v / 128).
Proof. done. Qed.

Lemma unleb_leb fuel v rest :
  (0 < fuel)%nat -> (0 <= v < 128 ^ Z.of_nat fuel)%Z ->
  unleb (leb fuel v ++ rest) = Some (v, rest).
Proof.
  intros Hf. destruct fuel as [|fuel]; [lia|]. clear Hf.
  revert v. induction fuel as [|fuel IH]; intros v Hv;
    rewrite leb_S; destruct (Z.ltb_spec v 128) as [Hlt|Hge]; cbn [app unleb].
  - by rewrite (proj2 (Z.ltb_lt v 128) Hlt).
  - simpl in Hv. lia.
  - by rewrite (proj2 (Z.ltb_lt v 128) Hlt).
  - pose proof (Z.mod_pos_bound v 128 ltac:(lia)).
    rewrite (proj2 (Z.ltb_ge (v mod 128 + 128) 128)) by lia.
    rewrite IH by (apply div_128_bound; [by rewrite Nat2Z.inj_succ in Hv|lia]).
    simpl. do 2 f_equal. pose proof (Z.div_mod v 128). lia.
Qed.

(** Any fuel that covers the value gives the same bytes. *)
Lemma leb_fuel n m v :
  (0 < n)%nat -> (n <= m)%nat -> (0 <= v < 128 ^ Z.of_nat n)%Z -> leb m v = leb n v.
Proof.
  intros Hn. destruct n as [|n]; [lia|]. clear Hn.
  revert m v. induction n as [|n IH]; intros m v Hm Hv;
    (destruct m as [|m]; [lia|]); rewrite !leb_S;
    destruct (Z.ltb_spec v 128) as [Hlt|Hge]; try done.
  - simpl in Hv. lia.
  - f_equal. apply IH; [lia|]. apply div_128_bound; [|lia].
    by rewrite Nat2Z.inj_succ in Hv.
Qed.

(** ** Slices

    [slice::binary_search_by] of the standard library, [f x] being
    [x.cmp(&target)], and [Vec::insert] / [Vec::remove] at an index in
    range.  The loop halves [right - left], so the length is enough fuel. *)
Fixpoint binary_search_loop {A} (fuel : nat) (f : A -> comparison) (l : list A)
    (left right : nat) : result nat nat :=
  match fuel with
  | O => Err left
  | S fuel =>
      if (left <? right)%nat then
        let mid := (left + (right - left) / 2)%nat in
        match l !! mid with
        | None => Err left
        | Some x =>
            match f x with
            | Lt => binary_search_loop fuel f l (mid + 1) right
            | Gt => binary_search_loop fuel f l left mid
            | Eq => Ok mid
            end
        end
      else Err left
  end.

Definition binary_search_by {A} (f : A -> comparison) (l : list A) : result nat nat :=
  binary_search_loop (S (length l)) f l 0 (length l).

Definition vec_insert {A} (pos : nat) (x : A) (l : list A) : list A :=
  take pos l ++ x :: drop pos l.

Definition vec_remove {A} (pos : nat) (l : list A) : list A :=
  take pos l ++ drop (S pos) l.

Section BinarySearch.
Context {A : Type} (f : A -> comparison) (l : list A).

(** The list is partitioned by the comparison: what the search needs. *)
Definition partitioned : Prop :=
  forall i j x y, (i <= j)%nat -> l !! i = Some x -> l !! j = Some y ->
    (f y = Lt -> f x = Lt) /\ (f x = Gt -> f y = Gt).

Lemma binary_search_loop_spec fuel left right :
  partitioned ->
  (right <= length l)%nat -> (left <= right)%nat -> (right - left < fuel)%nat ->
  (forall j x, (j < left)%nat -> l !! j = Some x -> f x = Lt) ->
  (forall j x, (right <= j)%nat -> l !! j = Some x -> f x = Gt) ->
  match binary_search_loop fuel f l left right with
  | Ok i => exists x, l !! i = Some x /\ f x = Eq
  | Err i => (i <= length l)%nat /\
      (forall j x, (j < i)%nat -> l !! j = Some x -> f x = Lt) /\
      (forall j x, (i <= j)%nat -> l !! j = Some x -> f x = Gt)
  end.
Proof.
  intros Hp. revert left right.
  induction fuel as [|fuel IH]; intros left right Hr Hlr Hf HL HG; [lia|].
  cbn [binary_search_loop]. destruct (Nat.ltb_spec left right) as [Hlt|Hge].
  2: { replace right with left in * by lia. split; [lia|]. by split. }
  set (mid := (left + (right - left) / 2)%nat).
  assert (left <= mid < right)%nat as Hmid.
  { pose proof (Nat.div_lt (right - left) 2 ltac:(lia) ltac:(lia)). unfold mid. lia. }
  destruct (l !! mid) as [x|] eqn:Hx; [|apply lookup_ge_None in Hx; lia].
  destruct (f x) eqn:Hfx.
  - by exists x.
  - apply IH; [lia|lia|lia| |done]. intros j y Hj Hy.
    by apply (proj1 (Hp j mid y x ltac:(lia) Hy Hx)).
  - apply IH; [lia|lia|lia|done|]. intros j y Hj Hy.
    by apply (proj2 (Hp mid j x y ltac:(lia) Hx Hy)).
Qed.

Lemma binary_search_by_spec :
  partitioned ->
  match binary_search_by f l with
  | Ok i => exists x, l !! i = Some x /\ f x = Eq
  | Err i => (i <= length l)%nat /\
      (forall j x, (j < i)%nat -> l !! j = Some x -> f x = Lt) /\
      (forall j x, (i <= j)%nat -> l !! j = Some x -> f x = Gt)
  end.
Proof.
  intros Hp. apply binary_search_loop_spec; [done|lia..| |].
  - intros j x Hj. lia.
  - intros j x Hj Hx. apply lookup_lt_Some in Hx. lia.
Qed.
End BinarySearch.

(** ** Strictly sorted lists of integers *)

Abbreviation sorted_lt := (StronglySorted Z.lt).

Lemma StronglySorted_app_iff {A} (R : relation A) l1 l2 :
  StronglySorted R (l1 ++ l2) <->
  StronglySorted R l1 /\ StronglySorted R l2 /\ forall x y, x ∈ l1 -> y ∈ l2 -> R x y.
Proof.
  induction l1 as [|a l1 IH]; simpl.
  - split; [intros H; split_and!; [constructor|done|set_solver]|by intros (_ & H & _)].
  - split.
    + intros [H HF]%StronglySorted_inv. apply IH in H as (H1 & H2 & H3).
      apply Forall_app in HF as [HF1 HF2]. split_and!; [by constructor|done|].
      intros x y [->|Hx]%elem_of_cons Hy; [|by apply H3].
      rewrite Forall_forall in HF2. by apply HF2.
    + intros ([H1 HF]%StronglySorted_inv & H2 & H3).
      rewrite Forall_forall in HF. constructor.
      * apply IH. split_and!; [done..|]. intros x y Hx Hy. apply H3; [by right|done].
      * rewrite Forall_forall. intros y [Hy|Hy]%elem_of_app; [by apply HF|].
        apply H3; [by left|done].
Qed.

Lemma sorted_lt_lookup l i j x y :
  sorted_lt l -> l !! i = Some x -> l !! j = Some y -> (i < j)%nat -> (x < y)%Z.
Proof.
  intros Hs Hi Hj Hij. rewrite <- (take_drop j l) in Hs.
  apply StronglySorted_app_iff in Hs as (_ & _ & H). apply H.
  - apply list_elem_of_lookup. exists i. by rewrite lookup_take_lt by lia.
  - apply list_elem_of_lookup. exists 0%nat. by rewrite lookup_drop, Nat.add_0_r.
Qed.

Lemma sorted_lt_partitioned l v :
  sorted_lt l -> partitioned (fun x => Z.compare x v) l.
Proof.
  intros Hs i j x y Hij Hx Hy. destruct (decide (i = j)) as [->|Hne].
  - by simplify_eq.
  - pose proof (sorted_lt_lookup l i j x y Hs Hx Hy ltac:(lia)).
    rewrite !Z.compare_lt_iff, !Z.compare_gt_iff. lia.
Qed.

Lemma sorted_lt_NoDup l : sorted_lt l -> NoDup l.
Proof.
  induction 1 as [|a l _ IH HF]; constructor; [|done].
  rewrite Forall_forall in HF. intros Hin%HF. lia.
Qed.

(** What a search in a sorted list of integers finds. *)
Definition search_Z (l : list Z) (v : Z) : result nat nat :=
  binary_search_by (fun x => Z.compare x v) l.

Lemma search_Z_spec l v :
  sorted_lt l ->
  match search_Z l v with
  | Ok i => l !! i = Some v
  | Err i => v ∉ l /\ (i <= length l)%nat /\
      Forall (fun x => x < v)%Z (take i l) /\ Forall (fun x => v < x)%Z (drop i l)
  end.
Proof.
  intros Hs. unfold search_Z.
  pose proof (binary_search_by_spec _ _ (sorted_lt_partitioned l v Hs)) as H.
  destruct (binary_search_by _ l) as [i|i].
  - destruct H as (x & Hx & Heq). apply Z.compare_eq_iff in Heq. by subst.
  - destruct H as (Hi & HL & HG). split_and!; [|done| |].
    + intros [j Hj]%list_elem_of_lookup. destruct (decide (j < i)%nat).
      * specialize (HL j v ltac:(lia) Hj). rewrite Z.compare_refl in HL. done.
      * specialize (HG j v ltac:(lia) Hj). rewrite Z.compare_refl in HG. done.
    + apply Forall_lookup_2. intros j x Hx. apply lookup_take_Some in Hx as [Hx ?].
      by apply Z.compare_lt_iff, (HL j).
    + apply Forall_lookup_2. intros j x Hx. rewrite lookup_drop in Hx.
      apply Z.compare_gt_iff, (HG (i + j)%nat); [lia|done].
Qed.

Lemma sorted_lt_insert l i v :
  sorted_lt l -> Forall (fun x => x < v)%Z (take i l) -> Forall (fun x => v < x)%Z (drop i l) ->
  sorted_lt (vec_insert i v l).
Proof.
  intros Hs HL HG. rewrite <- (take_drop i l) in Hs.
  apply StronglySorted_app_iff in Hs as (H1 & H2 & H3).
  rewrite Forall_forall in HL, HG.
  apply StronglySorted_app_iff. split_and!; [done| |].
  - constructor; [done|]. by rewrite Forall_forall.
  - intros x y Hx [->|Hy]%elem_of_cons; [by apply HL|by apply H3].
Qed.

Lemma drop_S_tail {A} (l : list A) i : drop (S i) l = tail (drop i l).
Proof. revert i. induction l as [|x l IH]; intros [|i]; simpl; [done..|apply IH]. Qed.

Lemma sorted_lt_remove l i : sorted_lt l -> sorted_lt (vec_remove i l).
Proof.
  intros Hs. rewrite <- (take_drop i l) in Hs.
  apply StronglySorted_app_iff in Hs as (H1 & H2 & H3).
  unfold vec_remove. rewrite drop_S_tail.
  apply StronglySorted_app_iff. destruct (drop i l) as [|x l2]; simpl; [done|].
  apply StronglySorted_inv in H2 as [H2 _]. split_and!; [done|done|].
  intros a b Ha Hb. apply H3; [done|by right].
Qed.

Lemma elem_of_vec_insert {A} i (v x : A) l : x ∈ vec_insert i v l <-> x = v \/ x ∈ l.
Proof.
  unfold vec_insert. rewrite <- (take_drop i l) at 3. set_solver.
Qed.

Lemma vec_insert_length {A} i (v : A) l : length (vec_insert i v l) = S (length l).
Proof.
  unfold vec_insert. rewrite length_app. simpl.
  rewrite <- (take_drop i l) at 3. rewrite length_app. lia.
Qed.

Lemma vec_remove_middle {A} i (v : A) l :
  l !! i = Some v -> l = take i l ++ v :: drop (S i) l.
Proof. intros H. symmetry. by apply take_drop_middle. Qed.

Lemma elem_of_vec_remove i v x l :
  sorted_lt l -> l !! i = Some v -> x ∈ vec_remove i l <-> x <> v /\ x ∈ l.
Proof.
  intros Hs Hv. pose proof (vec_remove_middle i v l Hv) as E.
  pose proof (sorted_lt_NoDup l Hs) as Hnd.
  rewrite E in Hnd. apply NoDup_app in Hnd as (_ & Hd & [Hn _]%NoDup_cons).
  unfold vec_remove. rewrite E at 3. set_solver.
Qed.

Lemma vec_remove_length {A} i (l : list A) :
  (i < length l)%nat -> S (length (vec_remove i l)) = length l.
Proof.
  intros H. unfold vec_remove. rewrite length_app, length_take, length_drop. lia.
Qed.

(** ** Panicking operations

    An index, slice or subtraction that Rust checks returns [None] when the
    source would panic; [usize] is [nat]. *)
Definition usize_sub (a b : nat) : option nat :=
  if (b <=? a)%nat then Some (a - b)%nat else None.

(** [&d[a..b]] *)
Definition slice_get {A} (d : list A) (a b : nat) : option (list A) :=
  if (a <=? b)%nat && (b <=? length d)%nat then Some (take (b - a) (drop a d)) else None.

(** [d[a..a + bs.len()].copy_from_slice(bs)] *)
Definition slice_put {A} (d : list A) (a : nat) (bs : list A) : option (list A) :=
  if (a + length bs <=? length d)%nat
  then Some (take a d ++ bs ++ drop (a + length bs) d) else None.

(** [d[i] = x] *)
Definition vec_set {A} (d : list A) (i : nat) (x : A) : option (list A) :=
  slice_put d i [x].

(** [d.copy_within(a..b, dst)]: a move, overlap allowed. *)
Definition copy_within {A} (d : list A) (a b dst : nat) : option (list A) :=
  bs ← slice_get d a b; slice_put d dst bs.

Lemma slice_get_app {A} (l1 m l2 : list A) :
  slice_get (l1 ++ m ++ l2) (length l1) (length l1 + length m) = Some m.
Proof.
  unfold slice_get. rewrite !length_app.
  rewrite (proj2 (Nat.leb_le _ _)), (proj2 (Nat.leb_le _ _)) by lia. simpl.
  rewrite drop_app_length, Nat.add_comm, Nat.add_sub, take_app_length. done.
Qed.

Lemma slice_put_app {A} (l1 m m' l2 : list A) :
  length m = length m' -> slice_put (l1 ++ m ++ l2) (length l1) m' = Some (l1 ++ m' ++ l2).
Proof.
  intros Hm. unfold slice_put. rewrite !length_app.
  rewrite (proj2 (Nat.leb_le _ _)) by lia.
  rewrite take_app_length, <- Hm, drop_app_add', drop_app_length by done. done.
Qed.

Lemma slice_put_length {A} (d d' : list A) a bs :
  slice_put d a bs = Some d' -> length d' = length d.
Proof.
  unfold slice_put. case_match eqn:E; [|done]. apply Nat.leb_le in E. intros [= <-].
  rewrite !length_app, length_take, length_drop. lia.
Qed.

Lemma vec_set_insert {A} (d : list A) i x :
  (i < length d)%nat -> vec_set d i x = Some (<[i:=x]> d).
Proof.
  intros H. unfold vec_set, slice_put. simpl length. rewrite (proj2 (Nat.leb_le _ _)) by lia.
  by rewrite insert_take_drop, Nat.add_1_r.
Qed.

Lemma vec_set_app {A} (l1 l2 : list A) x y :
  vec_set (l1 ++ x :: l2) (length l1) y = Some (l1 ++ y :: l2).
Proof. exact (slice_put_app l1 [x] [y] l2 eq_refl). Qed.

(** ** Filters that keep everything or nothing *)

Lemma filter_all {A} (P : A -> Prop) `{forall x, Decision (P x)} l : Forall P l -> filter P l = l.
Proof. induction 1 as [|x l Hx _ IH]; [done|]. by rewrite filter_cons, decide_True, IH. Qed.

Lemma filter_none {A} (P : A -> Prop) `{forall x, Decision (P x)} l :
  Forall (fun x => ~ P x) l -> filter P l = [].
Proof. induction 1 as [|x l Hx _ IH]; [done|]. by rewrite filter_cons, decide_False. Qed.

(** ** The order of byte strings *)

(** The order of byte slices. *)
Fixpoint slice_cmp (a b : bytes) : comparison :=
  match a, b with
  | [], [] => Datatypes.Eq
  | [], _ :: _ => Lt
  | _ :: _, [] => Gt
  | x :: a, y :: b => match Z.compare x y with Datatypes.Eq => slice_cmp a b | c => c end
  end.

Lemma slice_cmp_eq a b : slice_cmp a b = Datatypes.Eq <-> a = b.
Proof.
  revert b. induction a as [|x a IH]; intros [|y b]; simpl; try done.
  destruct (Z.compare_spec x y) as [->|Hlt|Hlt]; [rewrite IH|..].
  - split; [by intros ->|by intros [= ->]].
  - split; [done|]. intros [= -> _]. lia.
  - split; [done|]. intros [= -> _]. lia.
Qed.

Lemma slice_cmp_antisym a b : slice_cmp b a = CompOpp (slice_cmp a b).
Proof.
  revert b. induction a as [|x a IH]; intros [|y b]; simpl; try done.
  rewrite (Z.compare_antisym x y). destruct (x ?= y)%Z; simpl; [apply IH|done|done].
Qed.

Lemma slice_cmp_le_trans a b c : slice_cmp a b <> Gt -> slice_cmp b c <> Gt -> slice_cmp a c <> Gt.
Proof.
  revert b c. induction a as [|x a IH]; intros [|y b] [|z c]; simpl; try done.
  destruct (Z.compare_spec x y), (Z.compare_spec y z), (Z.compare_spec x z); subst; try done; try lia. by apply IH.
Qed.
