(* ===== verification/Interfaces.v ===== *)
(** * Interfaces between the components

    What a component promises to the ones that use it: [MapOps] and [MapLaws]
    for the containers that hold a finite map ([Dict], [SmartHash]), which the
    dump format stores and loads without knowing how they are built; and
    [HashOrder] for the one thing that the standard [HashMap] and [HashSet]
    leave open, the order of their iteration. *)
From S2P Require Import Prelude.

(** ** Containers that hold a finite map *)

Class MapOps (M K V : Type) := {
  map_new : M;
  map_insert : M -> K -> V -> option (bool * M);
  map_entries : M -> option (list (K * V));
  map_len : M -> nat;
}.

Class MapLaws (M K V : Type) `{Countable K} {ops : MapOps M K V} := {
  map_repr : M -> gmap K V -> Prop;
  map_repr_new : map_repr map_new ∅;
  map_repr_insert (x : M) (m : gmap K V) (k : K) (v : V) :
    map_repr x m ->
    exists x', map_insert x k v = Some (bool_decide (m !! k = None), x') /\
      map_repr x' (<[k := v]> m);
  map_repr_entries (x : M) (m : gmap K V) :
    map_repr x m -> exists l, map_entries x = Some l /\ l ≡ₚ map_to_list m;
  map_repr_len (x : M) (m : gmap K V) : map_repr x m -> map_len x = size m;
}.

(** Pairs inserted in turn, as every reader of a stored map does. *)
Fixpoint map_insert_all {M K V} {ops : MapOps M K V} (x : M) (kvs : list (K * V)) : option M :=
  match kvs with
  | [] => Some x
  | kv :: kvs => '(_, x) ← map_insert x kv.1 kv.2; map_insert_all x kvs
  end.

Section MapClient.
Context {M K V : Type} `{Countable K} {ops : MapOps M K V} {laws : MapLaws M K V}.
Implicit Types (x : M) (m : gmap K V) (kvs : list (K * V)).

Definition insert_pairs m kvs : gmap K V := foldl (fun m kv => <[kv.1 := kv.2]> m) m kvs.

Lemma insert_pairs_cons m k v kvs : insert_pairs m ((k, v) :: kvs) = insert_pairs (<[k := v]> m) kvs.
Proof. done. Qed.

Lemma insert_pairs_union m kvs :
  NoDup kvs.*1 -> insert_pairs m kvs = list_to_map kvs ∪ m.
Proof.
  unfold insert_pairs. revert m.
  induction kvs as [|[k v] kvs IH]; intros m Hnd; simpl; [by rewrite map_empty_union|].
  apply NoDup_cons in Hnd as [Hn Hnd]. rewrite IH by done.
  rewrite <- insert_union_r; [by rewrite insert_union_l|]. by apply not_elem_of_list_to_map_1.
Qed.

(** The pairs of a map in any order give the map back. *)
Lemma insert_pairs_entries m kvs : kvs ≡ₚ map_to_list m -> insert_pairs ∅ kvs = m.
Proof.
  intros Hp. assert (NoDup kvs.*1) as Hnd by (rewrite Hp; apply NoDup_fst_map_to_list).
  rewrite insert_pairs_union by done. rewrite map_union_empty, <- (list_to_map_to_list m).
  by apply list_to_map_proper.
Qed.

Lemma map_insert_all_spec x m kvs :
  map_repr x m ->
  exists x', map_insert_all x kvs = Some x' /\ map_repr x' (insert_pairs m kvs).
Proof.
  revert x m. induction kvs as [|[k v] kvs IH]; intros x m Hx; simpl; [by exists x|].
  destruct (map_repr_insert x m k v Hx) as (x1 & -> & Hx1). cbn [mbind option_bind].
  destruct (IH x1 _ Hx1) as (x2 & -> & Hx2). by exists x2.
Qed.
End MapClient.

(** ** The standard hash containers

    A [HashMap] is the list of its pairs in the order of its iteration, with no
    key twice.  An insertion of a new key may change that order in any way; an
    update or a removal does not. *)
Class HashOrder (A : Type) := {
  shuffle : list A -> list A;
  shuffle_perm (l : list A) : shuffle l ≡ₚ l;
}.

(** The order of insertion is a possible one. *)
#[export] Instance insertion_order (A : Type) : HashOrder A | 100 :=
  {| shuffle := fun l => l; shuffle_perm := fun l => Permutation_refl l |}.

Section HashMap.
Context {K V : Type} `{EqDecision K} {ord : HashOrder (K * V)}.

Fixpoint hm_get (k : K) (m : list (K * V)) : option V :=
  match m with
  | [] => None
  | (k', v) :: m => if decide (k' = k) then Some v else hm_get k m
  end.

Fixpoint hm_set (k : K) (v : V) (m : list (K * V)) : list (K * V) :=
  match m with
  | [] => []
  | (k', v') :: m => if decide (k' = k) then (k', v) :: m else (k', v') :: hm_set k v m
  end.

Fixpoint hm_delete (k : K) (m : list (K * V)) : list (K * V) :=
  match m with
  | [] => []
  | (k', v') :: m => if decide (k' = k) then m else (k', v') :: hm_delete k m
  end.

(** [HashMap::insert] returns the value it replaces. *)
Definition hm_insert (k : K) (v : V) (m : list (K * V)) : option V * list (K * V) :=
  match hm_get k m with
  | Some old => (Some old, hm_set k v m)
  | None => (None, shuffle (m ++ [(k, v)]))
  end.

(** [HashMap::remove] returns the value it removes. *)
Definition hm_remove (k : K) (m : list (K * V)) : option V * list (K * V) :=
  (hm_get k m, hm_delete k m).
End HashMap.

Section HashMapLaws.
Context {K V : Type} `{Countable K} {ord : HashOrder (K * V)}.
Implicit Types (l : list (K * V)) (m : gmap K V).

(** The pairs of a map, each once, in some order. *)
Definition hm_repr l m : Prop := l ≡ₚ map_to_list m.

Lemma hm_repr_NoDup l m : hm_repr l m -> NoDup l.*1.
Proof. intros Hr. rewrite Hr. apply NoDup_fst_map_to_list. Qed.

Lemma hm_repr_nil : hm_repr [] ∅.
Proof. unfold hm_repr. by rewrite map_to_list_empty. Qed.

Lemma hm_repr_length l m : hm_repr l m -> length l = size m.
Proof. intros ->. apply length_map_to_list. Qed.

Lemma hm_repr_lookup l m k : hm_repr l m -> hm_get k l = m !! k.
Proof.
  intros Hr. pose proof (hm_repr_NoDup l m Hr) as Hnd.
  assert (hm_get k l = list_to_map (M := gmap K V) l !! k) as ->.
  { clear. induction l as [|[k' v'] l IH]; simpl; [by rewrite lookup_empty|].
    destruct (decide (k' = k)) as [->|Hne]; [by rewrite lookup_insert_eq|].
    by rewrite lookup_insert_ne. }
  by rewrite (list_to_map_proper l (map_to_list m)), list_to_map_to_list.
Qed.

(** A key of the list cut out. *)
Lemma hm_split l k v :
  hm_get k l = Some v ->
  exists r, l ≡ₚ (k, v) :: r /\ hm_delete k l = r /\ forall v', hm_set k v' l ≡ₚ (k, v') :: r.
Proof.
  induction l as [|[k' v0] l IH]; simpl; [done|].
  destruct (decide (k' = k)) as [->|Hne].
  - intros [= ->]. by exists l.
  - intros (r & Hp & <- & Hs)%IH. exists ((k', v0) :: hm_delete k l). split_and!.
    + rewrite Hp at 1. apply Permutation_swap.
    + done.
    + intros v'. rewrite Hs. apply Permutation_swap.
Qed.

Lemma perm_delete_key m k v (r : list (K * V)) :
  map_to_list m ≡ₚ (k, v) :: r ->
  r ≡ₚ map_to_list (delete k m) /\ forall v', (k, v') :: r ≡ₚ map_to_list (<[k := v']> m).
Proof.
  intros Hp. assert (m !! k = Some v) as Hm.
  { apply elem_of_map_to_list. rewrite Hp. by left. }
  assert (r ≡ₚ map_to_list (delete k m)) as Hr.
  { apply (Permutation_cons_inv (a := (k, v))). rewrite <- Hp.
    rewrite <- (insert_delete_id m k v Hm) at 1. apply map_to_list_insert, lookup_delete_eq. }
  split; [done|]. intros v'. rewrite Hr, <- insert_delete_eq.
  symmetry. apply map_to_list_insert, lookup_delete_eq.
Qed.

Lemma hm_insert_spec l m k v :
  hm_repr l m -> (hm_insert k v l).1 = m !! k /\ hm_repr (hm_insert k v l).2 (<[k := v]> m).
Proof.
  intros Hr. unfold hm_insert. pose proof (hm_repr_lookup l m k Hr) as Hk.
  destruct (hm_get k l) as [v0|] eqn:Hg; simpl; (split; [done|]); unfold hm_repr in *.
  - destruct (hm_split l k v0 Hg) as (r & Hp & _ & Hs). rewrite Hs.
    rewrite Hp in Hr. symmetry in Hr. by apply (perm_delete_key m k v0 r Hr).
  - rewrite shuffle_perm, map_to_list_insert by done. rewrite Hr.
    symmetry. apply Permutation_cons_append.
Qed.

Lemma hm_remove_spec l m k :
  hm_repr l m -> (hm_remove k l).1 = m !! k /\ hm_repr (hm_remove k l).2 (delete k m).
Proof.
  intros Hr. unfold hm_remove. pose proof (hm_repr_lookup l m k Hr) as Hk. simpl.
  split; [done|]. unfold hm_repr in *. destruct (hm_get k l) as [v0|] eqn:Hg.
  - destruct (hm_split l k v0 Hg) as (r & Hp & -> & _).
    rewrite Hp in Hr. symmetry in Hr. by apply (perm_delete_key m k v0 r Hr).
  - rewrite delete_id by done. rewrite <- Hr. assert (hm_delete k l = l) as ->; [|done]. clear - Hg.
    induction l as [|[k' v'] l IH]; simpl in *; [done|].
    destruct (decide (k' = k)); [done|]. by rewrite IH.
Qed.
End HashMapLaws.

(** ** The [Ord] trait

    What the comparisons of a key type promise: a total order, up to the
    equivalence that [==] decides (two keys may be equal and still differ, as
    0.0 and -0.0 do). *)
Class Ord (K : Type) := {
  key_lt : K -> K -> bool;
  key_eq : K -> K -> bool;
  key_lt_irrefl (x : K) : key_lt x x = false;
  key_lt_trans (x y z : K) : key_lt x y = true -> key_lt y z = true -> key_lt x z = true;
  key_lt_total (x y : K) : key_lt x y = false -> key_lt y x = false -> key_eq x y = true;
  key_eq_lt (x y z : K) : key_eq x y = true -> key_lt x z = key_lt y z /\ key_lt z x = key_lt z y;
}.

Section OrdFacts.
Context {K : Type} {ord : Ord K}.

Lemma key_eq_not_lt (x y : K) : key_eq x y = true -> key_lt x y = false /\ key_lt y x = false.
Proof.
  intros E. destruct (key_eq_lt x y y E) as [H1 H2]. rewrite key_lt_irrefl in *. done.
Qed.

Lemma key_lt_not_eq (x y : K) : key_lt x y = true -> key_eq x y = false /\ key_eq y x = false.
Proof.
  intros H. split; apply not_true_iff_false; intros E%key_eq_not_lt; destruct E; congruence.
Qed.

Lemma key_lt_asym (x y : K) : key_lt x y = true -> key_lt y x = false.
Proof.
  intros H. apply not_true_iff_false. intros H'.
  pose proof (key_lt_trans x y x H H'). by rewrite key_lt_irrefl in *.
Qed.

Lemma key_eq_iff (x y : K) : key_eq x y = true <-> key_lt x y = false /\ key_lt y x = false.
Proof. split; [apply key_eq_not_lt|]. intros [H1 H2]. by apply key_lt_total. Qed.

(** Equal keys are equal to the same keys. *)
Lemma key_eq_same (x y z : K) : key_eq x y = true -> key_eq x z = key_eq y z.
Proof.
  intros E. destruct (key_eq_lt x y z E) as [H1 H2].
  apply eq_true_iff_eq. rewrite !key_eq_iff, H1, H2. done.
Qed.

Lemma key_eq_trans_sym (x y z : K) : key_eq x z = true -> key_eq y z = true -> key_eq x y = true.
Proof.
  intros Hx Hy. rewrite key_eq_iff in *. destruct (key_eq_lt y z x) as [H1 H2]; [by apply key_eq_iff|].
  by rewrite H1, H2.
Qed.
End OrdFacts.

#[export] Instance Z_ord : Ord Z.
Proof.
  refine {| key_lt := Z.ltb; key_eq := Z.eqb |}; intros *.
  - apply Z.ltb_irrefl.
  - rewrite !Z.ltb_lt. lia.
  - rewrite !Z.ltb_ge, Z.eqb_eq. lia.
  - intros ->%Z.eqb_eq. done.
Defined.
