(* ===== verification/Ordered.v ===== *)
(** * Ordered maps: lists of pairs in the order of their keys

    The specification that [SkipList] refines, which is also the model of the
    standard [BTreeMap] (the list of its pairs, in the order of its iteration),
    the laws that make it a map, and the interface of a sorted container
    ([SortedOps], [SortedLaws]) that the dump format stores and loads. *)
From S2P Require Import Prelude Interfaces.
Local Open Scope nat_scope.

(** ** Specification: a list of pairs in the order of its keys *)

Section Spec.
Context {K V : Type} `{ord : Ord K}.
Implicit Types (kvs : list (K * V)).

(** The pairs below a key, and the others. *)
Fixpoint below (key : K) kvs : list (K * V) :=
  match kvs with
  | [] => []
  | e :: kvs => if key_lt e.1 key then e :: below key kvs else []
  end.

Fixpoint not_below (key : K) kvs : list (K * V) :=
  match kvs with
  | [] => []
  | e :: kvs => if key_lt e.1 key then not_below key kvs else e :: kvs
  end.

(** The pair with a key equal to [key] at the head of a list. *)
Definition at_head (key : K) kvs : option (K * V) :=
  match kvs with
  | e :: _ => if key_eq e.1 key then Some e else None
  | [] => None
  end.

Definition spec_search kvs (key : K) : option V := snd <$> at_head key (not_below key kvs).

(** An equal key keeps its first form and takes the new value. *)
Definition spec_insert kvs (key : K) (value : V) : list (K * V) :=
  match at_head key (not_below key kvs) with
  | Some e => below key kvs ++ (e.1, value) :: tl (not_below key kvs)
  | None => below key kvs ++ (key, value) :: not_below key kvs
  end.

Definition spec_remove kvs (key : K) : list (K * V) :=
  match at_head key (not_below key kvs) with
  | Some _ => below key kvs ++ tl (not_below key kvs)
  | None => kvs
  end.

Definition spec_range kvs (start end_key : K) : list (K * V) := below end_key (not_below start kvs).

Definition sorted kvs : Prop := StronglySorted (fun a b => key_lt a.1 b.1 = true) kvs.

Lemma below_app key kvs : below key kvs ++ not_below key kvs = kvs.
Proof. induction kvs as [|e kvs IH]; simpl; [done|]. destruct (key_lt e.1 key); simpl; by rewrite ?IH. Qed.

Lemma below_lt key kvs : Forall (fun e => key_lt e.1 key = true) (below key kvs).
Proof. induction kvs as [|e kvs IH]; simpl; [done|]. destruct (key_lt e.1 key) eqn:E; by constructor. Qed.

Lemma not_below_head key kvs e kvs' : not_below key kvs = e :: kvs' -> key_lt e.1 key = false.
Proof.
  induction kvs as [|e' kvs IH]; simpl; [done|]. destruct (key_lt e'.1 key) eqn:E; [done|].
  by intros [= <- _].
Qed.

Lemma sorted_not_below key kvs : sorted kvs -> Forall (fun e => key_lt e.1 key = false) (not_below key kvs).
Proof.
  induction kvs as [|e kvs IH]; simpl; [done|]. intros [Hs Hf]%StronglySorted_inv.
  destruct (key_lt e.1 key) eqn:E; [by apply IH|]. constructor; [done|].
  eapply Forall_impl; [exact Hf|]. intros e' Hlt. simpl in Hlt. apply not_true_iff_false. intros Hlt'.
  pose proof (key_lt_trans _ _ _ Hlt Hlt'). congruence.
Qed.

Lemma sorted_app l1 l2 :
  sorted (l1 ++ l2) <-> sorted l1 /\ sorted l2 /\
    forall x y, x ∈ l1 -> y ∈ l2 -> key_lt x.1 y.1 = true.
Proof. apply StronglySorted_app_iff. Qed.

Lemma sorted_same_key l1 k v v' l2 : sorted (l1 ++ (k, v) :: l2) -> sorted (l1 ++ (k, v') :: l2).
Proof.
  intros (H1 & [H2 Hf]%StronglySorted_inv & H3)%sorted_app. apply sorted_app. split_and!; [done| |].
  - by constructor.
  - intros x y Hx [->|Hy]%elem_of_cons; [by apply (H3 x (k, v) Hx); left|apply H3; [done|by right]].
Qed.

Lemma sorted_insert_new key value kvs :
  sorted kvs -> at_head key (not_below key kvs) = None ->
  sorted (below key kvs ++ (key, value) :: not_below key kvs).
Proof.
  intros Hs Hh. pose proof (sorted_not_below key kvs Hs) as Hnb. pose proof (below_lt key kvs) as Hb.
  rewrite <- (below_app key kvs) in Hs. apply sorted_app in Hs as (H1 & H2 & H3).
  apply sorted_app. split_and!; [done| |].
  - constructor; [done|]. destruct (not_below key kvs) as [|e r]; [done|]. simpl in Hh.
    apply StronglySorted_inv in H2 as [_ Hf]. apply Forall_cons in Hnb as [He _].
    assert (key_lt key e.1 = true) as Hlt.
    { apply not_false_iff_true. intros E. rewrite (key_lt_total e.1 key He E) in Hh. done. }
    constructor; [done|]. eapply Forall_impl; [exact Hf|]. intros e' He'. simpl in *.
    by apply (key_lt_trans _ e.1).
  - intros x y Hx [->|Hy]%elem_of_cons; [|by apply H3]. rewrite Forall_forall in Hb. by apply Hb.
Qed.

Lemma spec_insert_sorted kvs key value : sorted kvs -> sorted (spec_insert kvs key value).
Proof.
  intros Hs. unfold spec_insert. destruct (at_head key (not_below key kvs)) as [e|] eqn:Hh;
    [|by apply sorted_insert_new].
  rewrite <- (below_app key kvs) in Hs. destruct (not_below key kvs) as [|[k v] r]; [done|].
  simpl in Hh |- *. destruct (key_eq k key); [|done]. injection Hh as <-. simpl.
  by apply (sorted_same_key _ _ v).
Qed.

Lemma spec_remove_sorted kvs key : sorted kvs -> sorted (spec_remove kvs key).
Proof.
  intros Hs. unfold spec_remove. destruct (at_head key (not_below key kvs)) as [e|]; [|done].
  rewrite <- (below_app key kvs) in Hs. apply sorted_app in Hs as (H1 & H2 & H3).
  apply sorted_app. destruct (not_below key kvs) as [|e' r]; [done|].
  apply StronglySorted_inv in H2 as [H2 _]. split_and!; [done|done|].
  intros x y Hx Hy. apply H3; [done|by right].
Qed.

Definition spec_insert_all kvs (l : list (K * V)) : list (K * V) :=
  foldl (fun kvs e => spec_insert kvs e.1 e.2) kvs l.

(** Sorted pairs inserted one after the other give themselves. *)
Lemma spec_insert_last kvs e : sorted (kvs ++ [e]) -> spec_insert kvs e.1 e.2 = kvs ++ [e].
Proof.
  intros (_ & _ & Hlt)%sorted_app. unfold spec_insert.
  assert (below e.1 kvs = kvs /\ not_below e.1 kvs = []) as [-> ->].
  { induction kvs as [|x kvs IH]; simpl; [done|]. rewrite (Hlt x e) by set_solver.
    destruct IH as [-> ->]; [|done]. intros y z Hy Hz. apply Hlt; set_solver. }
  simpl. by destruct e.
Qed.

Lemma spec_insert_sorted_all l kvs :
  sorted (kvs ++ l) -> spec_insert_all kvs l = kvs ++ l.
Proof.
  revert kvs. induction l as [|e l IH]; intros kvs Hs; simpl; [by rewrite app_nil_r|].
  assert (kvs ++ e :: l = (kvs ++ [e]) ++ l) as E by by rewrite <- app_assoc.
  rewrite E in Hs |- *. rewrite spec_insert_last by by apply sorted_app in Hs as [? _]. by apply IH.
Qed.

(** On sorted pairs the two cuts are filters. *)
Lemma below_filter key kvs : sorted kvs -> below key kvs = filter (fun e => key_lt e.1 key = true) kvs.
Proof.
  induction 1 as [|e kvs Hs IH Hfa]; [done|]. rewrite filter_cons. cbn [below].
  destruct (key_lt e.1 key) eqn:E; [rewrite decide_True by done; by f_equal|].
  rewrite decide_False by congruence. symmetry. apply filter_none.
  rewrite Forall_forall in Hfa |- *. intros x Hx Hlt. specialize (Hfa x Hx).
  pose proof (key_lt_trans _ _ _ Hfa Hlt). congruence.
Qed.

Lemma not_below_filter key kvs :
  sorted kvs -> not_below key kvs = filter (fun e => key_lt e.1 key = false) kvs.
Proof.
  induction 1 as [|e kvs Hs IH Hfa]; [done|]. rewrite filter_cons. cbn [not_below].
  destruct (key_lt e.1 key) eqn:E; [by rewrite decide_False by congruence|].
  rewrite decide_True by done. f_equal. symmetry. apply filter_all.
  rewrite Forall_forall in Hfa |- *. intros x Hx. specialize (Hfa x Hx).
  apply not_true_iff_false. intros Hlt. pose proof (key_lt_trans _ _ _ Hfa Hlt). congruence.
Qed.

Lemma spec_range_filter kvs start end_key :
  sorted kvs ->
  spec_range kvs start end_key =
    filter (fun e => key_lt e.1 start = false /\ key_lt e.1 end_key = true) kvs.
Proof.
  intros Hs. unfold spec_range. rewrite below_filter, not_below_filter; [|done|].
  - rewrite list_filter_filter. apply list_filter_iff. tauto.
  - rewrite <- (below_app start kvs) in Hs. by apply sorted_app in Hs as (_ & ? & _).
Qed.

(** ** Laws of a map

    [lookup_eq] is the reference: the value of the first equal key. *)
Fixpoint lookup_eq kvs (key : K) : option V :=
  match kvs with
  | [] => None
  | e :: kvs => if key_eq e.1 key then Some e.2 else lookup_eq kvs key
  end.

Lemma spec_search_cons e kvs key :
  sorted (e :: kvs) ->
  spec_search (e :: kvs) key = if key_eq e.1 key then Some e.2 else spec_search kvs key.
Proof.
  intros [Hs Hf]%StronglySorted_inv. unfold spec_search. cbn [not_below].
  destruct (key_lt e.1 key) eqn:Hlt.
  - by rewrite (proj1 (key_lt_not_eq _ _ Hlt)).
  - simpl. destruct (key_eq e.1 key) eqn:He; [done|].
    destruct (not_below key kvs) as [|x r] eqn:Hn; [done|]. simpl.
    assert (key_lt key x.1 = true) as Hkx.
    { destruct (key_lt key e.1) eqn:Hke; [|by rewrite (key_lt_total _ _ Hlt Hke) in He].
      rewrite Forall_forall in Hf. apply (key_lt_trans _ e.1); [done|]. apply Hf.
      rewrite <- (below_app key kvs), Hn. set_solver. }
    by rewrite (proj2 (key_lt_not_eq _ _ Hkx)).
Qed.

Lemma spec_search_lookup kvs key : sorted kvs -> spec_search kvs key = lookup_eq kvs key.
Proof.
  induction kvs as [|e kvs IH]; intros Hs; [done|]. rewrite (spec_search_cons e kvs key Hs).
  cbn [lookup_eq]. apply StronglySorted_inv in Hs as [Hs _]. by rewrite IH.
Qed.

Lemma spec_insert_cons e kvs key value :
  spec_insert (e :: kvs) key value =
    if key_lt e.1 key then e :: spec_insert kvs key value
    else if key_eq e.1 key then (e.1, value) :: kvs else (key, value) :: e :: kvs.
Proof.
  unfold spec_insert. cbn [not_below below]. destruct (key_lt e.1 key).
  - by destruct (at_head key (not_below key kvs)).
  - simpl. by destruct (key_eq e.1 key).
Qed.

Lemma spec_remove_cons e kvs key :
  spec_remove (e :: kvs) key =
    if key_lt e.1 key then e :: spec_remove kvs key
    else if key_eq e.1 key then kvs else e :: kvs.
Proof.
  unfold spec_remove. cbn [not_below below]. destruct (key_lt e.1 key).
  - by destruct (at_head key (not_below key kvs)).
  - simpl. by destruct (key_eq e.1 key).
Qed.

Lemma lookup_eq_insert kvs key value k :
  lookup_eq (spec_insert kvs key value) k =
    if key_eq key k then Some value else lookup_eq kvs k.
Proof.
  induction kvs as [|e kvs IH]; [by unfold spec_insert; simpl|].
  rewrite spec_insert_cons. destruct (key_lt e.1 key) eqn:Hlt; cbn [lookup_eq].
  - rewrite IH. destruct (key_eq e.1 k) eqn:He; [|done]. destruct (key_eq key k) eqn:Hk; [|done].
    pose proof (key_eq_trans_sym _ _ _ He Hk) as E. by rewrite (proj1 (key_lt_not_eq _ _ Hlt)) in E.
  - destruct (key_eq e.1 key) eqn:He; cbn [lookup_eq fst snd]; [|done].
    by rewrite (key_eq_same _ _ k He); destruct (key_eq key k).
Qed.

Lemma spec_insert_lookup kvs key value k :
  sorted kvs ->
  spec_search (spec_insert kvs key value) k = if key_eq key k then Some value else spec_search kvs k.
Proof.
  intros Hs. rewrite !spec_search_lookup by (done || by apply spec_insert_sorted).
  apply lookup_eq_insert.
Qed.
End Spec.

#[export] Instance nat_ord : Ord nat.
Proof.
  refine {| key_lt := Nat.ltb; key_eq := Nat.eqb |}; intros *.
  - apply Nat.ltb_irrefl.
  - rewrite !Nat.ltb_lt. lia.
  - rewrite !Nat.ltb_ge, Nat.eqb_eq. lia.
  - intros ->%Nat.eqb_eq. done.
Defined.

(** ** Sorted containers *)

Class SortedOps (S K V : Type) := {
  sorted_new : S;
  sorted_insert : S -> K -> V -> option S;
  sorted_entries : S -> option (list (K * V));
}.

Class SortedLaws (S K V : Type) {ord : Ord K} {ops : SortedOps S K V} := {
  sorted_repr : S -> list (K * V) -> Prop;
  sorted_repr_new : sorted_repr sorted_new [];
  sorted_repr_insert (x : S) (kvs : list (K * V)) (k : K) (v : V) :
    sorted_repr x kvs ->
    exists x', sorted_insert x k v = Some x' /\ sorted_repr x' (spec_insert kvs k v);
  sorted_repr_entries (x : S) (kvs : list (K * V)) :
    sorted_repr x kvs -> sorted_entries x = Some kvs /\ sorted kvs;
}.
