(* ===== verification/Varint.v ===== *)
(** * Varint: the length encoding of the dump format

    Models [src/src/engine/zdb/varint.rs]: LEB128 for [u32] lengths, at most
    five bytes, with the reader's protection against longer sequences.  A
    reader ([R: Read]) is the list of the bytes left in it; a writer appends
    to a byte vector and does not fail. *)
From S2P Require Import Prelude.
Local Open Scope Z_scope.

(** The failures of the dump reader, with the data that identifies them
    ([ZdbError]; the diagnostic offset, key and text are not kept).  [IoEof]
    is the [io::Error] of a [read_exact] that runs out of input. *)
Inductive ZdbError : Type :=
| IoEof
| UnexpectedEof
| InvalidMagic (got : bytes)
| UnsupportedVersion (found : Z)
| IncompatibleVersion (reader dump : Z)
| SizeLimit (what : string) (size limit : Z)
| InvalidTag (tag : Z)
| ParseError (structure : string)
| CompressionError (compressed_size : Z)
| CrcMismatch (computed recorded : Z)
| FileTooSmall (size minimum : Z)
| Unreachable.

Abbreviation zresult := (result ZdbError).

Definition MAX_VARINT_LEN : nat := 5.

(** The [loop] of [write_varint]: the bytes written, oldest first.  Every
    pass shifts a [u32] by seven bits, so [MAX_VARINT_LEN] passes are enough
    ([write_varint_fuel]). *)
Fixpoint write_varint_loop (fuel : nat) (value : Z) : bytes :=
  match fuel with
  | O => []
  | S fuel =>
      let byte := Z.land value 0x7F in
      let value := Z.shiftr value 7 in
      let byte := if negb (value =? 0) then Z.lor byte 0x80 else byte in
      byte :: (if value =? 0 then [] else write_varint_loop fuel value)
  end.

(** The bytes written; their number is what [write_varint] returns. *)
Definition write_varint (value : Z) : bytes :=
  write_varint_loop MAX_VARINT_LEN value.

(** The [for i in 0..MAX_VARINT_LEN] of [read_varint], [n] passes left. *)
Fixpoint read_varint_loop (n : nat) (i result shift : Z) (r : bytes) : zresult (Z * bytes) :=
  match n with
  | O => Err Unreachable
  | S n =>
      match r with
      | [] => Err IoEof
      | byte :: r =>
          let result := Z.lor result (wrapu 32 (Z.shiftl (Z.land byte 0x7F) shift)) in
          if Z.land byte 0x80 =? 0 then Ok (result, r)
          else
            let shift := shift + 7 in
            if i =? Z.of_nat MAX_VARINT_LEN - 1 then Err (ParseError "varint")
            else read_varint_loop n (i + 1) result shift r
      end
  end.

Definition read_varint (r : bytes) : zresult (Z * bytes) :=
  read_varint_loop MAX_VARINT_LEN 0 0 0 r.

Fixpoint varint_size_loop (fuel : nat) (value size : Z) : Z :=
  match fuel with
  | O => size
  | S fuel =>
      if value =? 0 then size else varint_size_loop fuel (Z.shiftr value 7) (size + 1)
  end.

Definition varint_size (value : Z) : Z :=
  if value =? 0 then 1 else varint_size_loop MAX_VARINT_LEN value 0.

Definition varint_is_efficient (value : Z) : bool := varint_size value <? 4.

(** ** The writer is LEB128 *)

Lemma write_varint_loop_leb fuel v :
  0 <= v -> write_varint_loop fuel v = leb fuel v.
Proof.
  revert v. induction fuel as [|fuel IH]; intros v Hv; [done|].
  cbn [write_varint_loop leb]. rewrite shiftr_7, land_7F.
  pose proof (Z.mod_pos_bound v 128 ltac:(lia)).
  destruct (Z.ltb_spec v 128) as [Hlt|Hge].
  - rewrite Z.div_small by lia. simpl. by rewrite Z.mod_small by lia.
  - assert (0 < v / 128) by (apply Z.div_str_pos; lia).
    destruct (Z.eqb_spec (v / 128) 0); [lia|]. simpl.
    rewrite lor_80, IH by (lia || apply Z.div_pos; lia). done.
Qed.

Lemma write_varint_leb v : 0 <= v -> write_varint v = leb 5 v.
Proof. apply write_varint_loop_leb. Qed.

Lemma write_varint_bytes v : 0 <= v -> Forall is_byte (write_varint v).
Proof. intros. rewrite write_varint_leb by done. by apply leb_bytes. Qed.

Lemma write_varint_fuel n v :
  (5 <= n)%nat -> is_u 32 v -> write_varint_loop n v = write_varint v.
Proof.
  intros Hn [? ?]. rewrite write_varint_leb, write_varint_loop_leb by done.
  apply leb_fuel; lia.
Qed.

(** ** The reader *)

Lemma wrapu_shiftl_group b s :
  0 <= b -> 0 <= s -> b * 2 ^ s < 2 ^ 32 ->
  wrapu 32 (Z.shiftl b s) = Z.shiftl b s.
Proof.
  intros Hb Hs Hlt. apply wrapu_small. rewrite Z.shiftl_mul_pow2 by lia.
  unfold is_u. split; [|lia]. apply Z.mul_nonneg_nonneg; lia.
Qed.

(** One pass of the reader on a group it can place without losing bits. *)
Lemma read_group n i result b rest :
  0 <= i -> 0 <= result < 2 ^ (7 * i) -> is_byte b ->
  b mod 128 * 2 ^ (7 * i) < 2 ^ 32 ->
  read_varint_loop (S n) i result (7 * i) (b :: rest) =
    let result := result + b mod 128 * 2 ^ (7 * i) in
    if b <? 128 then Ok (result, rest)
    else if i =? 4 then Err (ParseError "varint")
    else read_varint_loop n (i + 1) result (7 * (i + 1)) rest.
Proof.
  intros Hi Hres Hb Hfit. cbn [read_varint_loop].
  pose proof (Z.mod_pos_bound b 128 ltac:(lia)).
  rewrite land_80, land_7F, wrapu_shiftl_group, lor_shiftl_add by (done || lia).
  by replace (7 * (i + 1)) with (7 * i + 7) by lia.
Qed.

Lemma read_varint_loop_leb n i result v rest :
  (0 < n)%nat -> i = 5 - Z.of_nat n -> 0 <= i -> 0 <= result < 2 ^ (7 * i) ->
  0 <= v < 128 ^ Z.of_nat n -> result + v * 2 ^ (7 * i) < 2 ^ 32 ->
  read_varint_loop n i result (7 * i) (leb n v ++ rest) =
    Ok (result + v * 2 ^ (7 * i), rest).
Proof.
  revert i result v. induction n as [|n IH]; intros i result v Hn Hi Hi0 Hres Hv Hfit; [lia|].
  pose proof (Z.mod_pos_bound v 128 ltac:(lia)) as Hm.
  assert (0 < 2 ^ (7 * i)) by (apply Z.pow_pos_nonneg; lia).
  rewrite leb_S. destruct (Z.ltb_spec v 128) as [Hlt|Hge].
  - cbn [app]. rewrite read_group; try (unfold is_byte; rewrite ?Z.mod_small; lia).
    rewrite Z.mod_small by lia. by rewrite (proj2 (Z.ltb_lt v 128) Hlt).
  - assert (Hd : v = 128 * (v / 128) + v mod 128) by (apply Z.div_mod; lia).
    assert (0 < v / 128) by (apply Z.div_str_pos; lia).
    assert (Hp : 2 ^ (7 * (i + 1)) = 128 * 2 ^ (7 * i)).
    { replace (7 * (i + 1)) with (7 + 7 * i) by lia. by rewrite Z.pow_add_r by lia. }
    assert ((v mod 128 + 128) mod 128 = v mod 128) as Hmm.
    { rewrite Z.add_mod, Z.mod_mod, Z_mod_same_full, Z.add_0_r, Z.mod_mod by lia. done. }
    cbn [app]. rewrite read_group by (unfold is_byte; rewrite ?Hmm; nia).
    rewrite Hmm, (proj2 (Z.ltb_ge (v mod 128 + 128) 128)) by lia.
    destruct n as [|n]; [simpl in Hv; lia|].
    destruct (Z.eqb_spec i 4); [lia|]. cbv zeta.
    rewrite IH; [do 2 f_equal; rewrite Hp; nia|lia|lia|lia|rewrite Hp; nia| |rewrite Hp; nia].
    apply div_128_bound; [|lia]. by rewrite (Nat2Z.inj_succ (S n)) in Hv.
Qed.

Lemma read_write_varint v rest :
  is_u 32 v -> read_varint (write_varint v ++ rest) = Ok (v, rest).
Proof.
  intros [Hv Hlt]. rewrite write_varint_leb by done. unfold read_varint.
  change 0 with (7 * 0) at 3.
  rewrite read_varint_loop_leb; [|lia|done|lia|lia| |lia].
  - by rewrite Z.mul_1_r.
  - split; [done|]. etrans; [exact Hlt|done].
Qed.

(** Whatever the input, the loop returns through its own exits, yields a
    [u32], and consumes one to [n] bytes. *)
Lemma read_varint_loop_sound n i result shift r :
  (0 < n)%nat -> i = 5 - Z.of_nat n -> is_u 32 result ->
  match read_varint_loop n i result shift r with
  | Ok (v, r') => is_u 32 v /\ exists pre, r = pre ++ r' /\ (1 <= length pre <= n)%nat
  | Err e => e = IoEof /\ (length r < n)%nat \/ e = ParseError "varint" /\ (n <= length r)%nat
  end.
Proof.
  revert i result shift r. induction n as [|n IH]; intros i result shift r Hn Hi Hres; [lia|].
  destruct r as [|byte r]; cbn [read_varint_loop]; [left; simpl; split; [done|lia]|].
  set (result' := Z.lor result _).
  assert (is_u 32 result') as Hres'.
  { apply lor_is_u; [lia|done|]. apply wrapu_is_u. lia. }
  destruct (_ =? 0).
  - split; [done|]. exists [byte]. simpl. split; [done|lia].
  - destruct (Z.eqb_spec i (Z.of_nat MAX_VARINT_LEN - 1)).
    + right. unfold MAX_VARINT_LEN in *. simpl. split; [done|lia].
    + destruct n as [|n]; [unfold MAX_VARINT_LEN in *; lia|].
      specialize (IH (i + 1) result' (shift + 7) r ltac:(lia) ltac:(lia) Hres').
      destruct (read_varint_loop _ _ _ _ _) as [[v r']|e]; simpl.
      * destruct IH as (? & pre & -> & ?). split; [done|]. exists (byte :: pre). simpl. split; [done|lia].
      * destruct IH as [[-> ?]|[-> ?]]; [left|right]; (split; [done|lia]).
Qed.

Lemma read_varint_loop_cons n i result shift byte r :
  read_varint_loop (S n) i result shift (byte :: r) =
    let result := Z.lor result (wrapu 32 (Z.shiftl (Z.land byte 0x7F) shift)) in
    if Z.land byte 0x80 =? 0 then Ok (result, r)
    else if i =? Z.of_nat MAX_VARINT_LEN - 1 then Err (ParseError "varint")
    else read_varint_loop n (i + 1) result (shift + 7) r.
Proof. done. Qed.

Lemma read_varint_loop_length n i result shift r :
  match read_varint_loop n i result shift r with
  | Ok (_, rest) => (length rest < length r)%nat
  | Err _ => True
  end.
Proof.
  revert i result shift r. induction n as [|n IH]; intros i result shift r; [done|].
  destruct r as [|byte r]; [done|]. cbn [read_varint_loop].
  destruct (Z.land byte 0x80 =? 0); [simpl; lia|]. destruct (i =? _); [done|].
  specialize (IH (i + 1) (Z.lor result (wrapu 32 (Z.shiftl (Z.land byte 127) shift))) (shift + 7) r).
  destruct (read_varint_loop n _ _ _ r) as [[v rest]|]; [simpl; lia|done].
Qed.

Lemma read_varint_sound r :
  match read_varint r with
  | Ok (v, r') => is_u 32 v /\ exists pre, r = pre ++ r' /\ (1 <= length pre <= 5)%nat
  | Err e => e = IoEof /\ (length r < 5)%nat \/ e = ParseError "varint" /\ (5 <= length r)%nat
  end.
Proof. apply read_varint_loop_sound; [lia|done|]. by vm_compute. Qed.

(** ** Properties *)

Lemma varint_size_loop_leb fuel v size :
  0 <= v -> varint_size_loop fuel v size =
    if v =? 0 then size else size + Z.of_nat (length (leb fuel v)).
Proof.
  revert v size. induction fuel as [|fuel IH]; intros v size Hv; cbn [varint_size_loop].
  { by destruct (v =? 0); simpl; lia. }
  destruct (Z.eqb_spec v 0) as [->|Hne]; [done|].
  rewrite shiftr_7, IH by (apply Z.div_pos; lia). rewrite leb_S.
  destruct (Z.ltb_spec v 128) as [Hlt|Hge].
  - rewrite Z.div_small by lia. done.
  - assert (0 < v / 128) by (apply Z.div_str_pos; lia).
    destruct (Z.eqb_spec (v / 128) 0); [lia|]. simpl length. lia.
Qed.

Lemma varint_size_length v : 0 <= v -> varint_size v = Z.of_nat (length (write_varint v)).
Proof.
  intros Hv. unfold varint_size. rewrite write_varint_leb, varint_size_loop_leb by done.
  by destruct (Z.eqb_spec v 0) as [->|].
Qed.

(** Round trip: every [u32] written by [write_varint] in front of any
    bytes is read back by [read_varint], which leaves exactly those bytes; the
    encoding has the one to five bytes that [varint_size] announces. *)
Theorem varint_roundtrip (v : Z) (rest : bytes) :
  is_u 32 v ->
  read_varint (write_varint v ++ rest) = Ok (v, rest) /\
  varint_size v = Z.of_nat (length (write_varint v)) /\
  1 <= varint_size v <= 5.
Proof.
  intros Hv. destruct (Hv) as [Hv0 _]. rewrite (varint_size_length v Hv0).
  split_and!; [by apply read_write_varint|done|..];
    rewrite (write_varint_leb v Hv0); pose proof (leb_length 5 v); lia.
Qed.

Lemma varint_roundtrip_witness :
  read_varint (write_varint 4294967295 ++ [7]) = Ok (4294967295, [7]) /\
  varint_size 4294967295 = Z.of_nat (length (write_varint 4294967295)) /\
  1 <= varint_size 4294967295 <= 5.
Proof. apply varint_roundtrip. vm_compute. intuition discriminate. Defined.

(** The reader is total on arbitrary input: it never reaches its
    [unreachable!()], a success is a [u32] that consumed one to five bytes, it
    fails with end of input only when fewer than five bytes were there, and
    with the length protection only when five bytes were. *)
Theorem read_varint_total (r : bytes) :
  match read_varint r with
  | Ok (v, r') => is_u 32 v /\ exists pre, r = pre ++ r' /\ (1 <= length pre <= 5)%nat
  | Err e => e = IoEof /\ (length r < 5)%nat \/ e = ParseError "varint" /\ (5 <= length r)%nat
  end.
Proof. apply read_varint_sound. Qed.

(** The fifth byte carries bits 28 to 34, of which a [u32] keeps four: the
    others are dropped without an error. *)
Theorem read_varint_fifth_byte (b : Z) (rest : bytes) :
  0 <= b < 128 ->
  read_varint ([0x80; 0x80; 0x80; 0x80; b] ++ rest) = Ok (b mod 16 * 2 ^ 28, rest).
Proof.
  intros Hb. transitivity (read_varint_loop 1 4 0 28 (b :: rest)); [done|].
  cbn [read_varint_loop]. rewrite land_80 by (unfold is_byte; lia).
  rewrite (proj2 (Z.ltb_lt b 128)) by lia. do 2 f_equal.
  unfold wrapu. rewrite land_7F, (Z.mod_small b 128), Z.shiftl_mul_pow2 by lia.
  change (2 ^ 32) with (16 * 2 ^ 28). rewrite Z.mul_mod_distr_r by lia.
  apply Z.lor_0_l.
Qed.
