(* ===== verification/IntSet.v ===== *)
(** * IntSet: the adaptive set of integers

    Models [src/src/database/intset/intset_base.rs]: a sorted vector of
    integers whose element width grows (16, 32, 64 bits) with the values
    inserted, and its iterators.  [slice::Iter] is the list of the elements it
    has left. *)
From S2P Require Import Prelude.
Local Open Scope Z_scope.

Inductive Encoding : Type := Int16 | Int32 | Int64.

#[export] Instance Encoding_eq_dec : EqDecision Encoding.
Proof. solve_decision. Defined.

(** [enc as u8] *)
Definition enc_u8 (e : Encoding) : Z :=
  match e with Int16 => 0 | Int32 => 1 | Int64 => 2 end.

Definition enc_bits (e : Encoding) : Z :=
  match e with Int16 => 16 | Int32 => 32 | Int64 => 64 end.

Definition i16_MIN : Z := - 2 ^ 15.
Definition i16_MAX : Z := 2 ^ 15 - 1.
Definition i32_MIN : Z := - 2 ^ 31.
Definition i32_MAX : Z := 2 ^ 31 - 1.

Record IntSet : Type := mkIntSet {
  enc : Encoding;
  data16 : list Z;
  data32 : list Z;
  data64 : list Z;
}.

Definition new : IntSet := mkIntSet Int16 [] [] [].

Definition len (s : IntSet) : nat :=
  match enc s with
  | Int16 => length (data16 s)
  | Int32 => length (data32 s)
  | Int64 => length (data64 s)
  end.

Definition is_empty (s : IntSet) : bool := (len s =? 0)%nat.

Definition contains (s : IntSet) (v : Z) : bool :=
  match enc s with
  | Int16 =>
      if (v <? i16_MIN) || (i16_MAX <? v) then false
      else is_ok (search_Z (data16 s) (wraps 16 v))
  | Int32 =>
      if (v <? i32_MIN) || (i32_MAX <? v) then false
      else is_ok (search_Z (data32 s) (wraps 32 v))
  | Int64 => is_ok (search_Z (data64 s) v)
  end.

(** [upgrade]; the widening casts [x as i32] keep the value. *)
Definition upgrade (s : IntSet) (new_enc : Encoding) : IntSet :=
  match enc s, new_enc with
  | Int16, Int32 => mkIntSet new_enc [] (map (wraps 32) (data16 s)) (data64 s)
  | Int16, Int64 => mkIntSet new_enc [] (data32 s) (map (wraps 64) (data16 s))
  | Int32, Int64 => mkIntSet new_enc (data16 s) [] (map (wraps 64) (data32 s))
  | _, _ => mkIntSet new_enc (data16 s) (data32 s) (data64 s)
  end.

Definition needed_encoding (v : Z) : Encoding :=
  if (i16_MIN <=? v) && (v <=? i16_MAX) then Int16
  else if (i32_MIN <=? v) && (v <=? i32_MAX) then Int32
  else Int64.

(** The search and [Vec::insert] of one vector. *)
Definition vec_set_insert (l : list Z) (x : Z) : bool * list Z :=
  match search_Z l x with
  | Ok _ => (false, l)
  | Err pos => (true, vec_insert pos x l)
  end.

Definition insert (s : IntSet) (v : Z) : bool * IntSet :=
  let need := needed_encoding v in
  let s := if enc_u8 (enc s) <? enc_u8 need then upgrade s need else s in
  match enc s with
  | Int16 =>
      let '(b, l) := vec_set_insert (data16 s) (wraps 16 v) in
      (b, mkIntSet (enc s) l (data32 s) (data64 s))
  | Int32 =>
      let '(b, l) := vec_set_insert (data32 s) (wraps 32 v) in
      (b, mkIntSet (enc s) (data16 s) l (data64 s))
  | Int64 =>
      let '(b, l) := vec_set_insert (data64 s) v in
      (b, mkIntSet (enc s) (data16 s) (data32 s) l)
  end.

Definition vec_set_remove (l : list Z) (x : Z) : bool * list Z :=
  match search_Z l x with
  | Ok pos => (true, vec_remove pos l)
  | Err _ => (false, l)
  end.

Definition remove (s : IntSet) (v : Z) : bool * IntSet :=
  match enc s with
  | Int16 =>
      if (v <? i16_MIN) || (i16_MAX <? v) then (false, s)
      else
        let '(b, l) := vec_set_remove (data16 s) (wraps 16 v) in
        (b, mkIntSet (enc s) l (data32 s) (data64 s))
  | Int32 =>
      if (v <? i32_MIN) || (i32_MAX <? v) then (false, s)
      else
        let '(b, l) := vec_set_remove (data32 s) (wraps 32 v) in
        (b, mkIntSet (enc s) (data16 s) l (data64 s))
  | Int64 =>
      let '(b, l) := vec_set_remove (data64 s) v in
      (b, mkIntSet (enc s) (data16 s) (data32 s) l)
  end.

(** ** Iterators *)

Inductive IntSetIter : Type :=
| IterInt16 (rest : list Z)
| IterInt32 (rest : list Z)
| IterInt64 (rest : list Z).

Inductive IntSetRangeIter : Type :=
| RangeInt16 (rest : list Z)
| RangeInt32 (rest : list Z)
| RangeInt64 (rest : list Z)
| RangeEmpty.

Definition iter (s : IntSet) : IntSetIter :=
  match enc s with
  | Int16 => IterInt16 (data16 s)
  | Int32 => IterInt32 (data32 s)
  | Int64 => IterInt64 (data64 s)
  end.

(** [slice::Iter::next] and [next_back]. *)
Definition slice_next (l : list Z) : option (Z * list Z) :=
  match l with [] => None | x :: l => Some (x, l) end.

Fixpoint slice_next_back (l : list Z) : option (Z * list Z) :=
  match l with
  | [] => None
  | x :: l =>
      match slice_next_back l with
      | None => Some (x, [])
      | Some (y, l) => Some (y, x :: l)
      end
  end.

Definition iter_next (it : IntSetIter) : option (Z * IntSetIter) :=
  match it with
  | IterInt16 l => '(x, l) ← slice_next l; Some (wraps 64 x, IterInt16 l)
  | IterInt32 l => '(x, l) ← slice_next l; Some (wraps 64 x, IterInt32 l)
  | IterInt64 l => '(x, l) ← slice_next l; Some (x, IterInt64 l)
  end.

Definition iter_next_back (it : IntSetIter) : option (Z * IntSetIter) :=
  match it with
  | IterInt16 l => '(x, l) ← slice_next_back l; Some (wraps 64 x, IterInt16 l)
  | IterInt32 l => '(x, l) ← slice_next_back l; Some (wraps 64 x, IterInt32 l)
  | IterInt64 l => '(x, l) ← slice_next_back l; Some (x, IterInt64 l)
  end.

Definition iter_len (it : IntSetIter) : nat :=
  match it with IterInt16 l | IterInt32 l | IterInt64 l => length l end.

Definition range_next (it : IntSetRangeIter) : option (Z * IntSetRangeIter) :=
  match it with
  | RangeInt16 l => '(x, l) ← slice_next l; Some (wraps 64 x, RangeInt16 l)
  | RangeInt32 l => '(x, l) ← slice_next l; Some (wraps 64 x, RangeInt32 l)
  | RangeInt64 l => '(x, l) ← slice_next l; Some (x, RangeInt64 l)
  | RangeEmpty => None
  end.

Definition range_len (it : IntSetRangeIter) : nat :=
  match it with RangeInt16 l | RangeInt32 l | RangeInt64 l => length l | RangeEmpty => 0 end.

(** [Ok(idx) => idx, Err(idx) => idx] and its inclusive variant. *)
Definition search_start (l : list Z) (x : Z) : nat :=
  match search_Z l x with Ok idx => idx | Err idx => idx end.

Definition search_end (l : list Z) (x : Z) : nat :=
  match search_Z l x with Ok idx => idx + 1 | Err idx => idx end.

Definition find_range_start_i16 (s : IntSet) (start : Z) : nat :=
  if start <? i16_MIN then 0%nat
  else if i16_MAX <? start then length (data16 s)
  else search_start (data16 s) (wraps 16 start).

Definition find_range_end_i16 (s : IntSet) (end_ : Z) : nat :=
  if end_ <? i16_MIN then 0%nat
  else if i16_MAX <? end_ then length (data16 s)
  else search_end (data16 s) (wraps 16 end_).

Definition find_range_start_i32 (s : IntSet) (start : Z) : nat :=
  if start <? i32_MIN then 0%nat
  else if i32_MAX <? start then length (data32 s)
  else search_start (data32 s) (wraps 32 start).

Definition find_range_end_i32 (s : IntSet) (end_ : Z) : nat :=
  if end_ <? i32_MIN then 0%nat
  else if i32_MAX <? end_ then length (data32 s)
  else search_end (data32 s) (wraps 32 end_).

Definition find_range_start_i64 (s : IntSet) (start : Z) : nat :=
  search_start (data64 s) start.

Definition find_range_end_i64 (s : IntSet) (end_ : Z) : nat :=
  search_end (data64 s) end_.

(** [&data[a..b]] for [a < b <= len]. *)
Definition slice (l : list Z) (a b : nat) : list Z := take (b - a) (drop a l).

Definition iter_range (s : IntSet) (start end_ : Z) : IntSetRangeIter :=
  if end_ <? start then RangeEmpty
  else
    match enc s with
    | Int16 =>
        let a := find_range_start_i16 s start in
        let b := find_range_end_i16 s end_ in
        if (b <=? a)%nat then RangeEmpty else RangeInt16 (slice (data16 s) a b)
    | Int32 =>
        let a := find_range_start_i32 s start in
        let b := find_range_end_i32 s end_ in
        if (b <=? a)%nat then RangeEmpty else RangeInt32 (slice (data32 s) a b)
    | Int64 =>
        let a := find_range_start_i64 s start in
        let b := find_range_end_i64 s end_ in
        if (b <=? a)%nat then RangeEmpty else RangeInt64 (slice (data64 s) a b)
    end.

(** ** Invariant

    Only the vector of the current encoding holds elements: a set is that
    vector, strictly sorted and within the width. *)
Definition pack (e : Encoding) (l : list Z) : IntSet :=
  match e with
  | Int16 => mkIntSet Int16 l [] []
  | Int32 => mkIntSet Int32 [] l []
  | Int64 => mkIntSet Int64 [] [] l
  end.

Definition elems (s : IntSet) : list Z :=
  match enc s with Int16 => data16 s | Int32 => data32 s | Int64 => data64 s end.

Definition to_set (s : IntSet) : gset Z := list_to_set (elems s).

Record Inv (s : IntSet) : Prop := {
  inv_pack : s = pack (enc s) (elems s);
  inv_sorted : sorted_lt (elems s);
  inv_width : Forall (is_s (enc_bits (enc s))) (elems s);
}.

Definition enc_max (e1 e2 : Encoding) : Encoding :=
  if enc_u8 e1 <? enc_u8 e2 then e2 else e1.

Lemma enc_pack e l : enc (pack e l) = e.
Proof. by destruct e. Qed.

Lemma elems_pack e l : elems (pack e l) = l.
Proof. by destruct e. Qed.

Lemma len_elems s : len s = length (elems s).
Proof. unfold len, elems. by destruct (enc s). Qed.

Lemma Inv_pack e l : sorted_lt l -> Forall (is_s (enc_bits e)) l -> Inv (pack e l).
Proof. intros Hs Hw. constructor; rewrite ?enc_pack, ?elems_pack; done. Qed.

Lemma Inv_new : Inv new.
Proof. apply (Inv_pack Int16 []); constructor. Qed.

Lemma is_s_mono w1 w2 v : 0 < w1 <= w2 -> is_s w1 v -> is_s w2 v.
Proof.
  unfold is_s. intros Hw Hv.
  assert (2 ^ (w1 - 1) <= 2 ^ (w2 - 1)) by (apply Z.pow_le_mono_r; lia). lia.
Qed.

Lemma map_wraps_id w l : 0 < w -> Forall (is_s w) l -> map (wraps w) l = l.
Proof.
  intros Hw. induction 1 as [|x l Hx _ IH]; simpl; [done|].
  by rewrite wraps_small, IH by done.
Qed.

Lemma Forall_is_s_mono w1 w2 l :
  0 < w1 <= w2 -> Forall (is_s w1) l -> Forall (is_s w2) l.
Proof. intros Hw Hl. eapply Forall_impl; [exact Hl|]. intros v. by apply is_s_mono. Qed.

Lemma upgrade_pack e e' l :
  Forall (is_s (enc_bits e)) l -> enc_u8 e < enc_u8 e' -> upgrade (pack e l) e' = pack e' l.
Proof.
  intros Hw Hlt.
  assert (Forall (is_s (enc_bits e')) l) as Hw'.
  { eapply Forall_is_s_mono, Hw. destruct e, e'; simpl in *; lia. }
  destruct e, e'; simpl in *; try lia; unfold upgrade; simpl; by rewrite map_wraps_id.
Qed.

Lemma needed_encoding_fits v : is_s 64 v -> is_s (enc_bits (needed_encoding v)) v.
Proof.
  unfold needed_encoding, is_s, i16_MIN, i16_MAX, i32_MIN, i32_MAX. intros Hv.
  repeat case_match; bool_to_prop; simpl; lia.
Qed.

Lemma enc_bits_max e1 e2 :
  0 < enc_bits e1 <= enc_bits (enc_max e1 e2) /\ 0 < enc_bits e2 <= enc_bits (enc_max e1 e2).
Proof. by destruct e1, e2. Qed.

Lemma insert_pack e l v :
  Forall (is_s (enc_bits e)) l -> is_s 64 v ->
  insert (pack e l) v =
    ((vec_set_insert l v).1, pack (enc_max e (needed_encoding v)) (vec_set_insert l v).2).
Proof.
  intros Hw Hv. unfold insert.
  assert ((if enc_u8 (enc (pack e l)) <? enc_u8 (needed_encoding v)
           then upgrade (pack e l) (needed_encoding v) else pack e l)
          = pack (enc_max e (needed_encoding v)) l) as ->.
  { unfold enc_max. rewrite enc_pack. case_match; bool_to_prop; [|done].
    by apply upgrade_pack. }
  assert (is_s (enc_bits (enc_max e (needed_encoding v))) v) as Hfit.
  { eapply is_s_mono, needed_encoding_fits, Hv. apply enc_bits_max. }
  rewrite enc_pack. destruct (enc_max _ _); simpl in *;
    rewrite ?wraps_small by done; by destruct (vec_set_insert l v).
Qed.

Lemma vec_set_insert_spec l v :
  sorted_lt l ->
  let '(b, l') := vec_set_insert l v in
  b = bool_decide (v ∉ l) /\ sorted_lt l' /\ forall x, x ∈ l' <-> x = v \/ x ∈ l.
Proof.
  intros Hs. unfold vec_set_insert. pose proof (search_Z_spec l v Hs) as H.
  destruct (search_Z l v) as [i|i].
  - apply list_elem_of_lookup_2 in H. rewrite bool_decide_eq_false_2 by (intros E; by apply E).
    split_and!; [done|done|]. intros x. split; [by right|by intros [->|]].
  - destruct H as (Hn & Hi & HL & HG). rewrite bool_decide_eq_true_2 by done.
    split_and!; [done|by apply sorted_lt_insert|]. intros x. apply elem_of_vec_insert.
Qed.

Lemma out_of_width e l v :
  Forall (is_s (enc_bits e)) l -> ~ is_s (enc_bits e) v -> v ∉ l.
Proof. rewrite Forall_forall. intros Hw Hv Hin. by apply Hv, Hw. Qed.

Lemma search_mem l v : sorted_lt l -> is_ok (search_Z l v) = bool_decide (v ∈ l).
Proof.
  intros Hs. pose proof (search_Z_spec l v Hs) as H. destruct (search_Z l v) as [i|i]; simpl.
  - symmetry. eapply bool_decide_eq_true_2, list_elem_of_lookup_2, H.
  - symmetry. by apply bool_decide_eq_false_2, H.
Qed.

Lemma contains_pack e l v :
  sorted_lt l -> Forall (is_s (enc_bits e)) l -> is_s 64 v ->
  contains (pack e l) v = bool_decide (v ∈ l).
Proof.
  intros Hs Hw Hv. unfold contains. rewrite enc_pack.
  pose proof (out_of_width e l v Hw) as Ho.
  destruct e; simpl in *; unfold is_s, i16_MIN, i16_MAX, i32_MIN, i32_MAX in *;
    try (case_match; bool_to_prop; [symmetry; apply bool_decide_eq_false_2, Ho; lia|]);
    rewrite ?wraps_small by (unfold is_s; lia); by apply search_mem.
Qed.

Lemma vec_set_remove_spec l v :
  sorted_lt l ->
  let '(b, l') := vec_set_remove l v in
  b = bool_decide (v ∈ l) /\ sorted_lt l' /\ forall x, x ∈ l' <-> x <> v /\ x ∈ l.
Proof.
  intros Hs. unfold vec_set_remove. pose proof (search_Z_spec l v Hs) as H.
  destruct (search_Z l v) as [i|i].
  - rewrite bool_decide_eq_true_2 by (eapply list_elem_of_lookup_2, H).
    split_and!; [done|by apply sorted_lt_remove|]. intros x. by apply elem_of_vec_remove.
  - destruct H as (Hn & _). rewrite bool_decide_eq_false_2 by done.
    split_and!; [done|done|]. intros x. split; [|by intros []]. intros Hx. split; [|done].
    by intros ->.
Qed.

Lemma remove_pack e l v :
  sorted_lt l -> Forall (is_s (enc_bits e)) l -> is_s 64 v ->
  remove (pack e l) v = ((vec_set_remove l v).1, pack e (vec_set_remove l v).2).
Proof.
  intros Hs Hw Hv. unfold remove. rewrite enc_pack.
  pose proof (out_of_width e l v Hw) as Ho.
  assert (~ is_s (enc_bits e) v -> vec_set_remove l v = (false, l)) as Hout.
  { intros Hno%Ho. unfold vec_set_remove. pose proof (search_Z_spec l v Hs) as H.
    destruct (search_Z l v); [|done]. by apply list_elem_of_lookup_2 in H. }
  destruct e; simpl in *; unfold is_s, i16_MIN, i16_MAX, i32_MIN, i32_MAX in *;
    try (case_match; bool_to_prop; [rewrite Hout by lia; done|]);
    rewrite ?wraps_small by (unfold is_s; lia); by destruct (vec_set_remove l v).
Qed.

Lemma vec_set_insert_width w l v :
  Forall (is_s w) l -> is_s w v -> Forall (is_s w) (vec_set_insert l v).2.
Proof.
  intros Hw Hv. unfold vec_set_insert. destruct (search_Z l v); simpl; [done|].
  unfold vec_insert. apply Forall_app; split; [by apply Forall_take|].
  constructor; [done|by apply Forall_drop].
Qed.

Lemma vec_set_remove_width w l v :
  Forall (is_s w) l -> Forall (is_s w) (vec_set_remove l v).2.
Proof.
  intros Hw. unfold vec_set_remove. destruct (search_Z l v); simpl; [|done].
  apply Forall_app; split; [by apply Forall_take|by apply Forall_drop].
Qed.

(** ** Ranges *)

(** [i] splits [l] between the elements that satisfy [P] and the others. *)
Definition splits (P : Z -> Prop) (l : list Z) (i : nat) : Prop :=
  Forall P (take i l) /\ Forall (fun x => ~ P x) (drop i l).

Lemma splits_lookup P l i j x : splits P l i -> l !! j = Some x -> ((j < i)%nat <-> P x).
Proof.
  intros [HL HG] Hx. rewrite Forall_lookup in HL, HG. split.
  - intros Hj. apply (HL j). by rewrite lookup_take_lt by lia.
  - intros HP. destruct (decide (j < i)%nat) as [|Hge]; [done|].
    exfalso. apply (HG (j - i)%nat x); [|done]. rewrite lookup_drop. rewrite <- Hx. f_equal. lia.
Qed.

Lemma splits_0 (P : Z -> Prop) l : Forall (fun x => ~ P x) l -> splits P l 0.
Proof. intros H. split; [constructor|done]. Qed.

Lemma splits_len (P : Z -> Prop) l : Forall P l -> splits P l (length l).
Proof. intros H. split; [by rewrite firstn_all|by rewrite drop_all]. Qed.

Lemma search_start_splits l v : sorted_lt l -> splits (fun x => x < v) l (search_start l v).
Proof.
  intros Hs. unfold search_start, splits. pose proof (search_Z_spec l v Hs) as H.
  destruct (search_Z l v) as [i|i].
  - rewrite !Forall_lookup. split; intros j x Hx.
    + apply lookup_take_Some in Hx as [Hx Hj]. by eapply sorted_lt_lookup.
    + rewrite lookup_drop in Hx. destruct (decide (j = 0)%nat) as [->|].
      * rewrite Nat.add_0_r in Hx. simplify_eq. lia.
      * pose proof (sorted_lt_lookup l i (i + j) v x Hs H Hx ltac:(lia)). lia.
  - destruct H as (_ & _ & HL & HG). split; [done|].
    eapply Forall_impl; [exact HG|]. simpl. lia.
Qed.

Lemma search_end_splits l v : sorted_lt l -> splits (fun x => x <= v) l (search_end l v).
Proof.
  intros Hs. unfold search_end, splits. pose proof (search_Z_spec l v Hs) as H.
  destruct (search_Z l v) as [i|i].
  - rewrite !Forall_lookup. split; intros j x Hx.
    + apply lookup_take_Some in Hx as [Hx Hj]. destruct (decide (j = i)) as [->|].
      * simplify_eq. lia.
      * pose proof (sorted_lt_lookup l j i x v Hs Hx H ltac:(lia)). lia.
    + rewrite lookup_drop in Hx.
      pose proof (sorted_lt_lookup l i (i + 1 + j) v x Hs H Hx ltac:(lia)). lia.
  - destruct H as (_ & _ & HL & HG). split.
    + eapply Forall_impl; [exact HL|]. simpl. lia.
    + eapply Forall_impl; [exact HG|]. simpl. lia.
Qed.

Definition find_range_start (e : Encoding) : IntSet -> Z -> nat :=
  match e with
  | Int16 => find_range_start_i16
  | Int32 => find_range_start_i32
  | Int64 => find_range_start_i64
  end.

Definition find_range_end (e : Encoding) : IntSet -> Z -> nat :=
  match e with
  | Int16 => find_range_end_i16
  | Int32 => find_range_end_i32
  | Int64 => find_range_end_i64
  end.

(** The saturation of the bounds of a narrow vector changes no answer. *)
Lemma find_range_splits e l v :
  sorted_lt l -> Forall (is_s (enc_bits e)) l ->
  splits (fun x => x < v) l (find_range_start e (pack e l) v) /\
  splits (fun x => x <= v) l (find_range_end e (pack e l) v).
Proof.
  intros Hs Hw.
  destruct e; cbn [find_range_start find_range_end];
    unfold find_range_start_i16, find_range_end_i16, find_range_start_i32, find_range_end_i32,
      find_range_start_i64, find_range_end_i64; cbn [pack data16 data32 data64];
    try (split; [by apply search_start_splits|by apply search_end_splits]);
    unfold i16_MIN, i16_MAX, i32_MIN, i32_MAX;
    repeat (case_match; bool_to_prop);
    rewrite ?wraps_small by (unfold is_s; lia);
    (split; [(by apply search_start_splits)|(by apply search_end_splits)]) ||
    (split; first [apply splits_0|apply splits_len];
     (eapply Forall_impl; [exact Hw|]; unfold is_s; simpl; intros; lia)).
Qed.

Lemma slice_sorted l a b : sorted_lt l -> sorted_lt (slice l a b).
Proof.
  intros Hs. unfold slice. rewrite <- (take_drop a l) in Hs.
  apply StronglySorted_app_iff in Hs as (_ & Hs & _).
  rewrite <- (take_drop (b - a) (drop a l)) in Hs.
  by apply StronglySorted_app_iff in Hs as (Hs & _ & _).
Qed.

Lemma elem_of_slice l a b x :
  x ∈ slice l a b <-> exists j, (a <= j < b)%nat /\ l !! j = Some x.
Proof.
  unfold slice. rewrite list_elem_of_lookup. split.
  - intros [j [Hj Hlt]%lookup_take_Some]. rewrite lookup_drop in Hj.
    exists (a + j)%nat. split; [lia|done].
  - intros (j & Hj & Hx). exists (j - a)%nat.
    rewrite lookup_take_lt, lookup_drop by lia. rewrite <- Hx. f_equal. lia.
Qed.

(** The elements an iterator has left, and what draining it yields. *)
Definition range_rest (it : IntSetRangeIter) : list Z :=
  match it with RangeInt16 l | RangeInt32 l | RangeInt64 l => l | RangeEmpty => [] end.

Definition iter_rest (it : IntSetIter) : list Z :=
  match it with IterInt16 l | IterInt32 l | IterInt64 l => l end.

Fixpoint drain {I} (next : I -> option (Z * I)) (fuel : nat) (it : I) : list Z :=
  match fuel with
  | O => []
  | S fuel => match next it with None => [] | Some (x, it) => x :: drain next fuel it end
  end.

Lemma drain_list {I} (next : I -> option (Z * I)) (mk : list Z -> I) l n :
  (forall x l, is_s 64 x -> next (mk (x :: l)) = Some (x, mk l)) -> next (mk []) = None ->
  Forall (is_s 64) l -> (length l <= n)%nat -> drain next n (mk l) = l.
Proof.
  intros Hc Hn Hl. revert n. induction Hl as [|x l Hx _ IH]; intros n Hlen.
  - destruct n; simpl; [done|]. by rewrite Hn.
  - destruct n; simpl in *; [lia|]. rewrite Hc by done. f_equal. apply IH. lia.
Qed.

Lemma drain_range it :
  Forall (is_s 64) (range_rest it) -> drain range_next (range_len it) it = range_rest it.
Proof.
  intros Hw. destruct it; simpl in *;
    [eapply (drain_list _ RangeInt16)|eapply (drain_list _ RangeInt32)
    |eapply (drain_list _ RangeInt64)|done]; try done;
    intros x l Hx; simpl; by rewrite ?wraps_small.
Qed.

Lemma drain_iter it :
  Forall (is_s 64) (iter_rest it) -> drain iter_next (iter_len it) it = iter_rest it.
Proof.
  intros Hw. destruct it; simpl in *;
    [eapply (drain_list _ IterInt16)|eapply (drain_list _ IterInt32)
    |eapply (drain_list _ IterInt64)]; try done;
    intros x l Hx; simpl; by rewrite ?wraps_small.
Qed.

Lemma iter_range_pack e l start end_ :
  iter_range (pack e l) start end_ =
    let a := find_range_start e (pack e l) start in
    let b := find_range_end e (pack e l) end_ in
    if (end_ <? start) || (b <=? a)%nat then RangeEmpty
    else match e with
         | Int16 => RangeInt16 (slice l a b)
         | Int32 => RangeInt32 (slice l a b)
         | Int64 => RangeInt64 (slice l a b)
         end.
Proof. unfold iter_range. rewrite enc_pack. by destruct e, (end_ <? start). Qed.

Lemma slice_empty l a b : (b <= a)%nat -> slice l a b = [].
Proof. intros H. unfold slice. by replace (b - a)%nat with 0%nat by lia. Qed.

Lemma range_rest_slice e l start end_ :
  start <= end_ ->
  range_rest (iter_range (pack e l) start end_) =
    slice l (find_range_start e (pack e l) start) (find_range_end e (pack e l) end_).
Proof.
  intros Hle. rewrite iter_range_pack. cbv zeta.
  rewrite (proj2 (Z.ltb_ge end_ start)) by lia. simpl.
  destruct (Nat.leb_spec (find_range_end e (pack e l) end_) (find_range_start e (pack e l) start)).
  - by rewrite slice_empty.
  - by destruct e.
Qed.

Lemma iter_range_spec e l start end_ :
  sorted_lt l -> Forall (is_s (enc_bits e)) l ->
  let r := range_rest (iter_range (pack e l) start end_) in
  sorted_lt r /\ forall x, x ∈ r <-> x ∈ l /\ start <= x <= end_.
Proof.
  intros Hs Hw. cbv zeta. destruct (decide (start <= end_)) as [Hle|Hgt].
  - rewrite range_rest_slice by done.
    destruct (find_range_splits e l start Hs Hw) as [Ha _].
    destruct (find_range_splits e l end_ Hs Hw) as [_ Hb].
    split; [by apply slice_sorted|]. intros x. rewrite elem_of_slice. split.
    + intros (j & Hj & Hx). split; [by eapply list_elem_of_lookup_2|].
      pose proof (splits_lookup _ _ _ _ _ Ha Hx). pose proof (splits_lookup _ _ _ _ _ Hb Hx). lia.
    + intros [[j Hx]%list_elem_of_lookup Hr]. exists j. split; [|done].
      pose proof (splits_lookup _ _ _ _ _ Ha Hx). pose proof (splits_lookup _ _ _ _ _ Hb Hx). lia.
  - rewrite iter_range_pack. cbv zeta. rewrite (proj2 (Z.ltb_lt end_ start)) by lia. simpl.
    split; [constructor|]. intros x. split; [by intros ?%elem_of_nil|lia].
Qed.

Lemma range_rest_width e l start end_ :
  Forall (is_s (enc_bits e)) l -> Forall (is_s 64) (range_rest (iter_range (pack e l) start end_)).
Proof.
  intros Hw. rewrite iter_range_pack. cbv zeta.
  assert (Forall (is_s 64) l) as Hl by (eapply Forall_is_s_mono, Hw; by destruct e).
  destruct (_ || _); [constructor|].
  assert (forall a b, Forall (is_s 64) (slice l a b)) as H.
  { intros a b. by apply Forall_take, Forall_drop. }
  by destruct e; simpl.
Qed.

(** ** The set of integers it implements *)

Inductive Op : Type :=
| OInsert (v : Z)
| ORemove (v : Z)
| OContains (v : Z)
| OLen
| OIter
| ORange (start end_ : Z).

Inductive Out : Type :=
| OutBool (b : bool)
| OutNat (n : nat)
| OutList (l : list Z).

Definition op_ok (o : Op) : Prop :=
  match o with
  | OInsert v | ORemove v | OContains v => is_s 64 v
  | _ => True
  end.

Definition exec (s : IntSet) (o : Op) : Out * IntSet :=
  match o with
  | OInsert v => let '(b, s) := insert s v in (OutBool b, s)
  | ORemove v => let '(b, s) := remove s v in (OutBool b, s)
  | OContains v => (OutBool (contains s v), s)
  | OLen => (OutNat (len s), s)
  | OIter => (OutList (drain iter_next (iter_len (iter s)) (iter s)), s)
  | ORange a b =>
      let it := iter_range s a b in (OutList (drain range_next (range_len it) it), s)
  end.

Fixpoint exec_all (s : IntSet) (os : list Op) : list Out * IntSet :=
  match os with
  | [] => ([], s)
  | o :: os =>
      let '(r, s) := exec s o in
      let '(rs, s) := exec_all s os in (r :: rs, s)
  end.

(** A mathematical set and the answers it gives; the two iterators are the
    increasing enumerations. *)
Inductive set_step : gset Z -> Op -> Out -> gset Z -> Prop :=
| step_insert X v : set_step X (OInsert v) (OutBool (bool_decide (v ∉ X))) ({[v]} ∪ X)
| step_remove X v : set_step X (ORemove v) (OutBool (bool_decide (v ∈ X))) (X ∖ {[v]})
| step_contains X v : set_step X (OContains v) (OutBool (bool_decide (v ∈ X))) X
| step_len X : set_step X OLen (OutNat (size X)) X
| step_iter X l :
    sorted_lt l -> (forall x, x ∈ l <-> x ∈ X) -> set_step X OIter (OutList l) X
| step_range X a b l :
    sorted_lt l -> (forall x, x ∈ l <-> x ∈ X /\ a <= x <= b) ->
    set_step X (ORange a b) (OutList l) X.

Inductive set_steps : gset Z -> list Op -> list Out -> gset Z -> Prop :=
| steps_nil X : set_steps X [] [] X
| steps_cons X o r X' os rs X'' :
    set_step X o r X' -> set_steps X' os rs X'' -> set_steps X (o :: os) (r :: rs) X''.

Lemma size_to_set l : sorted_lt l -> size (list_to_set l : gset Z) = length l.
Proof. intros Hs. by apply size_list_to_set, sorted_lt_NoDup. Qed.

Lemma exec_refines s o :
  Inv s -> op_ok o ->
  Inv (exec s o).2 /\ set_step (to_set s) o (exec s o).1 (to_set (exec s o).2).
Proof.
  intros [Hp Hs Hw] Ho. revert Hp Hs Hw. unfold to_set.
  generalize (enc s) (elems s). intros e l -> Hs Hw.
  destruct o as [v|v|v| | |a b]; cbn [exec op_ok] in *.
  - rewrite insert_pack by done. cbn [fst snd]. rewrite elems_pack.
    pose proof (vec_set_insert_spec l v Hs) as H.
    pose proof (vec_set_insert_width (enc_bits (enc_max e (needed_encoding v))) l v) as Hw'.
    destruct (vec_set_insert l v) as [b l']. destruct H as (-> & Hs' & Hm). simpl in *. split.
    + apply Inv_pack; [done|]. apply Hw'.
      * eapply Forall_is_s_mono, Hw. apply enc_bits_max.
      * eapply is_s_mono, needed_encoding_fits, Ho. apply enc_bits_max.
    + replace (list_to_set l' : gset Z) with ({[v]} ∪ list_to_set l : gset Z) by set_solver.
      rewrite (bool_decide_ext (v ∉ l) (v ∉ (list_to_set l : gset Z))) by set_solver. constructor.
  - rewrite remove_pack by done. cbn [fst snd]. rewrite elems_pack.
    pose proof (vec_set_remove_spec l v Hs) as H.
    pose proof (vec_set_remove_width (enc_bits e) l v Hw) as Hw'.
    destruct (vec_set_remove l v) as [b l']. destruct H as (-> & Hs' & Hm). simpl in *. split.
    + by apply Inv_pack.
    + replace (list_to_set l' : gset Z) with (list_to_set l ∖ {[v]} : gset Z) by set_solver.
      rewrite (bool_decide_ext (v ∈ l) (v ∈ (list_to_set l : gset Z))) by set_solver. constructor.
  - cbn [fst snd]. rewrite elems_pack, contains_pack by done. split; [by apply Inv_pack|].
    rewrite (bool_decide_ext (v ∈ l) (v ∈ (list_to_set l : gset Z))) by set_solver. constructor.
  - cbn [fst snd]. rewrite elems_pack, len_elems, elems_pack. split; [by apply Inv_pack|].
    rewrite <- size_to_set by done. constructor.
  - cbn [fst snd]. rewrite elems_pack. split; [by apply Inv_pack|].
    rewrite drain_iter.
    + constructor; destruct e; simpl; set_solver.
    + eapply Forall_is_s_mono; [|by destruct e]. by destruct e.
  - cbn [fst snd]. rewrite elems_pack. split; [by apply Inv_pack|].
    rewrite drain_range by by apply (range_rest_width e l).
    destruct (iter_range_spec e l a b Hs Hw) as [H1 H2]. constructor; [done|].
    intros x. rewrite H2. set_solver.
Qed.

(** ** Properties *)

Lemma exec_all_refines s os :
  Inv s -> Forall op_ok os ->
  Inv (exec_all s os).2 /\ set_steps (to_set s) os (exec_all s os).1 (to_set (exec_all s os).2).
Proof.
  intros Hi Ho. revert s Hi. induction Ho as [|o os Ho _ IH]; intros s Hi; [split; [done|constructor]|].
  simpl. destruct (exec_refines s o Hi Ho) as [Hi' Hst].
  destruct (exec s o) as [r s']. simpl in *.
  destruct (IH s' Hi') as [Hi'' Hsts]. destruct (exec_all s' os) as [rs s'']. simpl in *.
  split; [done|]. by econstructor.
Qed.

(** C36. Refinement: any sequence of [insert], [remove], [contains], [len],
    [iter] and [iter_range] calls on a new [IntSet], with [i64] arguments,
    returns exactly what a mathematical set of integers returns (booleans of
    change and membership, cardinality, increasing enumerations of the whole
    set and of the inclusive range), whatever width changes happen inside, and
    leaves the invariant of the packed representation true. *)
Theorem intset_refines_set (os : list Op) :
  Forall op_ok os ->
  Inv (exec_all new os).2 /\
  set_steps ∅ os (exec_all new os).1 (to_set (exec_all new os).2).
Proof. intros Ho. exact (exec_all_refines new os Inv_new Ho). Qed.

Lemma intset_refines_set_witness :
  let os := [OInsert 5; OInsert 70000; OInsert 5; OContains 70000; ORange (-1) 10; ORemove 5; OLen] in
  (exec_all new os).1 =
    [OutBool true; OutBool true; OutBool false; OutBool true; OutList [5]; OutBool true; OutNat 1]
  /\ set_steps ∅ os (exec_all new os).1 (to_set (exec_all new os).2).
Proof.
  split; [reflexivity|]. apply intset_refines_set.
  repeat constructor; vm_compute; intuition discriminate.
Defined.

(** The representation is as narrow as its history allows: an insertion
    widens the encoding to the one its value needs when that is larger and
    otherwise keeps it, and a removal never changes it. *)
Theorem intset_encoding (s : IntSet) (v : Z) :
  Inv s -> is_s 64 v ->
  enc (insert s v).2 = enc_max (enc s) (needed_encoding v) /\ enc (remove s v).2 = enc s.
Proof.
  intros [Hp Hs Hw] Hv. rewrite Hp. rewrite insert_pack, remove_pack by done.
  simpl. by rewrite !enc_pack.
Qed.

Lemma intset_encoding_witness :
  enc (insert (pack Int16 [1; 2]) 40000).2 = Int32 /\ enc (remove (pack Int16 [1; 2]) 40000).2 = Int16.
Proof.
  refine (intset_encoding (pack Int16 [1; 2]) 40000 _ _).
  - apply Inv_pack; repeat constructor; vm_compute; intuition discriminate.
  - vm_compute; intuition discriminate.
Defined.
