(* ===== verification/ListPack.v ===== *)
(** * ListPack: the packed list of byte strings

    Models [src/src/database/listpack/listpack_base.rs]: one byte buffer in
    which every element is its varint length and its bytes, from [head] up to
    the terminator 0xFF at [tail - 1], with free space on both sides.

    An operation returns [None] where the source would panic (an index or a
    subtraction out of range).  The scans of the buffer take the buffer length
    as fuel: every pass advances by one byte at least. *)
From S2P Require Import Prelude.
Local Open Scope nat_scope.

Definition TERM : Z := 0xFF.

Record ListPack : Type := mkListPack {
  data : bytes;
  head : nat;
  tail : nat;
  num_entries : nat;
}.

Definition with_capacity (cap : nat) : option ListPack :=
  let data := replicate cap 0%Z in
  let head := cap / 2 in
  data ← vec_set data head TERM;
  Some (mkListPack data head (head + 1) 0).

Definition new : option ListPack := with_capacity 1024.

(** The loop of [encode_varint]; a [usize] has ten groups at most. *)
Fixpoint encode_varint_loop (fuel : nat) (value : Z) : bytes :=
  match fuel with
  | O => []
  | S fuel =>
      let byte := Z.land value 0x7F in
      let value := Z.shiftr value 7 in
      if (value =? 0)%Z then [byte]
      else Z.lor byte 0x80 :: encode_varint_loop fuel value
  end.

Definition encode_varint (value : nat) : bytes := encode_varint_loop 10 (Z.of_nat value).

(** The loop of [decode_varint]: [i] bytes read so far. *)
Fixpoint decode_varint_loop (data : bytes) (i : nat) (result shift : Z) : option (nat * nat) :=
  match data with
  | [] => None
  | byte :: data =>
      let result := Z.lor result (wrapu 64 (Z.shiftl (Z.land byte 0x7F) shift)) in
      if (Z.land byte 0x80 =? 0)%Z then Some (Z.to_nat result, i + 1)
      else
        let shift := (shift + 7)%Z in
        if (64 <? shift)%Z then None else decode_varint_loop data (i + 1) result shift
  end.

Definition decode_varint (data : bytes) : option (nat * nat) := decode_varint_loop data 0 0 0.

Definition len (lp : ListPack) : nat := num_entries lp.
Definition is_empty (lp : ListPack) : bool := num_entries lp =? 0.
Definition capacity (lp : ListPack) : nat := length (data lp).
Definition used_bytes (lp : ListPack) : option nat := usize_sub (tail lp) (head lp).

(** The source subtracts from [self.len()], the number of entries. *)
Definition free_bytes (lp : ListPack) : option nat :=
  used ← used_bytes lp; usize_sub (len lp) used.

Definition grow_and_center (lp : ListPack) (extra : nat) : option ListPack :=
  used ← usize_sub (tail lp) (head lp);
  let need := used + extra in
  let space_before := head lp in
  space_after ← usize_sub (length (data lp)) (tail lp);
  if (extra <=? space_before) && (extra <=? space_after) then Some lp
  else
    let new_cap := Nat.max (Nat.max (length (data lp)) 1 * 3 / 2) (need * 2) in
    let new_data := replicate new_cap 0%Z in
    let new_head := (new_cap - used) / 2 in
    content ← slice_get (data lp) (head lp) (tail lp);
    new_data ← slice_put new_data new_head content;
    Some (mkListPack new_data new_head (new_head + used) (num_entries lp)).

Definition push_front (lp : ListPack) (value : bytes) : option ListPack :=
  let len_bytes := encode_varint (length value) in
  let extra := length len_bytes + length value in
  lp ← grow_and_center lp extra;
  h ← usize_sub (head lp) extra;
  data ← slice_put (data lp) h len_bytes;
  data ← slice_put data (h + length len_bytes) value;
  Some (mkListPack data h (tail lp) (num_entries lp + 1)).

Definition push_back (lp : ListPack) (value : bytes) : option ListPack :=
  let len_bytes := encode_varint (length value) in
  let extra := length len_bytes + length value in
  lp ← grow_and_center lp extra;
  term_pos ← usize_sub (tail lp) 1;
  data ← slice_put (data lp) term_pos len_bytes;
  let vstart := term_pos + length len_bytes in
  data ← slice_put data vstart value;
  let new_term := vstart + length value in
  data ← vec_set data new_term TERM;
  Some (mkListPack data (head lp) (new_term + 1) (num_entries lp + 1)).

(** The reset of an emptied list. *)
Definition reset (data : bytes) : option ListPack :=
  let head := length data / 2 in
  data ← vec_set data head TERM;
  Some (mkListPack data head (head + 1) 0).

(** [for i in (0..used).rev() { data[new_head + i] = data[head + i]; }] *)
Fixpoint copy_right (data : bytes) (head new_head : nat) (i : nat) : option bytes :=
  match i with
  | O => Some data
  | S i =>
      b ← data !! (head + i);
      data ← vec_set data (new_head + i) b;
      copy_right data head new_head i
  end.

Definition recenter (lp : ListPack) : option ListPack :=
  used ← usize_sub (tail lp) (head lp);
  if used =? 0 then
    data' ← vec_set (data lp) (length (data lp) / 2) TERM;
    Some (mkListPack data' (length (data lp) / 2) (length (data lp) / 2 + 1) (num_entries lp))
  else
    free ← usize_sub (length (data lp)) used;
    let new_head := free / 2 in
    if new_head =? head lp then Some lp
    else
      data ← (if new_head <? head lp
              then copy_within (data lp) (head lp) (tail lp) new_head
              else copy_right (data lp) (head lp) new_head used);
      Some (mkListPack data new_head (new_head + used) (num_entries lp)).

(** [pop_front] and [pop_back] return the popped element and the list; a
    varint that cannot be decoded ends them with [None] and no change. *)
Definition pop_front (lp : ListPack) : option (option bytes * ListPack) :=
  if num_entries lp =? 0 then Some (None, lp)
  else
    suffix ← slice_get (data lp) (head lp) (length (data lp));
    match decode_varint suffix with
    | None => Some (None, lp)
    | Some (len, consumed) =>
        let start := head lp + consumed in
        element ← slice_get (data lp) start (start + len);
        let lp := mkListPack (data lp) (start + len) (tail lp) (num_entries lp - 1) in
        if num_entries lp =? 0 then
          lp ← reset (data lp); Some (Some element, lp)
        else if length (data lp) / 2 <? head lp then
          lp ← recenter lp; Some (Some element, lp)
        else Some (Some element, lp)
    end.

(** The scan of [pop_back] for the last element: its start, length and the
    size of its varint. *)
Inductive scan (A : Type) : Type :=
| ScanDone (a : A)
| ScanBadVarint
| ScanPanic.
Arguments ScanDone {A} a.
Arguments ScanBadVarint {A}.
Arguments ScanPanic {A}.

Fixpoint scan_last (fuel : nat) (data : bytes) (tail pos last_start last_len last_consumed : nat)
  : scan (nat * nat * nat) :=
  match fuel with
  | O => ScanPanic
  | S fuel =>
      if pos <? tail then
        match data !! pos with
        | None => ScanPanic
        | Some b =>
            if (b =? TERM)%Z then ScanDone (last_start, last_len, last_consumed)
            else
              match decode_varint (drop pos data) with
              | None => ScanBadVarint
              | Some (len, consumed) =>
                  scan_last fuel data tail (pos + consumed + len) pos len consumed
              end
        end
      else ScanDone (last_start, last_len, last_consumed)
  end.

Definition pop_back (lp : ListPack) : option (option bytes * ListPack) :=
  if num_entries lp =? 0 then Some (None, lp)
  else
    match scan_last (S (length (data lp))) (data lp) (tail lp) (head lp) (head lp) 0 0 with
    | ScanPanic => None
    | ScanBadVarint => Some (None, lp)
    | ScanDone (last_start, last_len, last_consumed) =>
        let data_start := last_start + last_consumed in
        element ← slice_get (data lp) data_start (data_start + last_len);
        let n := num_entries lp - 1 in
        if n =? 0 then
          lp ← reset (data lp); Some (Some element, lp)
        else
          data ← vec_set (data lp) last_start TERM;
          let lp := mkListPack data (head lp) (last_start + 1) n in
          if length data * 3 / 4 <? tail lp then
            lp ← recenter lp; Some (Some element, lp)
          else Some (Some element, lp)
    end.

Definition clear (lp : ListPack) : option ListPack := reset (data lp).

Fixpoint truncate_loop (fuel : nat) (lp : ListPack) (len : nat) : option ListPack :=
  if len <? num_entries lp then
    match fuel with
    | O => None
    | S fuel => '(_, lp) ← pop_back lp; truncate_loop fuel lp len
    end
  else Some lp.

Definition truncate (lp : ListPack) (len : nat) : option ListPack :=
  if num_entries lp <=? len then Some lp
  else truncate_loop (num_entries lp) lp len.

Fixpoint push_back_n (n : nat) (lp : ListPack) (fill : bytes) : option ListPack :=
  match n with
  | O => Some lp
  | S n => lp ← push_back lp fill; push_back_n n lp fill
  end.

Definition resize (lp : ListPack) (new_len : nat) (fill : bytes) : option ListPack :=
  match Nat.compare new_len (num_entries lp) with
  | Gt => push_back_n (new_len - num_entries lp) lp fill
  | Lt => truncate lp new_len
  | Eq => Some lp
  end.

(** [find_element_pos], and [get] which returns the bytes at that position. *)
Fixpoint find_loop (fuel : nat) (data : bytes) (tail pos curr index : nat)
  : scan (option (nat * nat * nat)) :=
  match fuel with
  | O => ScanPanic
  | S fuel =>
      if pos <? tail then
        match data !! pos with
        | None => ScanPanic
        | Some b =>
            if (b =? TERM)%Z then ScanDone None
            else
              match decode_varint (drop pos data) with
              | None => ScanBadVarint
              | Some (len, consumed) =>
                  if curr =? index then ScanDone (Some (pos, len, consumed))
                  else find_loop fuel data tail (pos + consumed + len) (curr + 1) index
              end
        end
      else ScanDone None
  end.

Definition find_element_pos (lp : ListPack) (index : nat) : option (option (nat * nat * nat)) :=
  if num_entries lp <=? index then Some None
  else
    match find_loop (S (length (data lp))) (data lp) (tail lp) (head lp) 0 index with
    | ScanPanic => None
    | ScanBadVarint => Some None
    | ScanDone r => Some r
    end.

Definition get (lp : ListPack) (index : nat) : option (option bytes) :=
  if num_entries lp <=? index then Some None
  else
    match find_loop (S (length (data lp))) (data lp) (tail lp) (head lp) 0 index with
    | ScanPanic => None
    | ScanBadVarint => Some None
    | ScanDone None => Some None
    | ScanDone (Some (i, len, consumed)) =>
        e ← slice_get (data lp) (i + consumed) (i + consumed + len); Some (Some e)
    end.

Definition remove (lp : ListPack) (index : nat) : option (bool * ListPack) :=
  if num_entries lp <=? index then Some (false, lp)
  else if index =? 0 then
    '(_, lp) ← pop_front lp; Some (true, lp)
  else
    pos ← find_element_pos lp index;
    match pos with
    | None => Some (false, lp)
    | Some (elem_start, elem_len, consumed) =>
        let elem_end := elem_start + consumed + elem_len in
        if index =? num_entries lp - 1 then
          data ← vec_set (data lp) elem_start TERM;
          Some (true, mkListPack data (head lp) (elem_start + 1) (num_entries lp - 1))
        else
          left_bytes ← usize_sub elem_start (head lp);
          right_bytes ← usize_sub (tail lp) elem_end;
          if left_bytes <? right_bytes then
            data ← copy_within (data lp) (head lp) elem_start elem_end;
            Some (true, mkListPack data (head lp + (elem_end - elem_start)) (tail lp)
                          (num_entries lp - 1))
          else
            data ← copy_within (data lp) elem_end (tail lp) elem_start;
            Some (true, mkListPack data (head lp) (tail lp - (elem_end - elem_start))
                          (num_entries lp - 1))
    end.

(** [iter], drained. *)
Fixpoint iter_loop (fuel : nat) (data : bytes) (end_ pos : nat) : option (list bytes) :=
  match fuel with
  | O => None
  | S fuel =>
      if end_ <=? pos then Some []
      else
        b ← data !! pos;
        if (b =? TERM)%Z then Some []
        else
          match decode_varint (drop pos data) with
          | None => Some []
          | Some (len, consumed) =>
              let start := pos + consumed in
              e ← slice_get data start (start + len);
              es ← iter_loop fuel data end_ (start + len);
              Some (e :: es)
          end
  end.

Definition iter (lp : ListPack) : option (list bytes) :=
  iter_loop (S (length (data lp))) (data lp) (tail lp) (head lp).

Fixpoint collect_positions_loop (fuel : nat) (data : bytes) (tail pos : nat)
  : option (list (nat * nat)) :=
  match fuel with
  | O => None
  | S fuel =>
      if pos <? tail then
        b ← data !! pos;
        if (b =? TERM)%Z then Some []
        else
          match decode_varint (drop pos data) with
          | None => Some []
          | Some (len, consumed) =>
              let start := pos + consumed in
              ps ← collect_positions_loop fuel data tail (start + len);
              Some ((start, len) :: ps)
          end
      else Some []
  end.

Definition collect_element_positions (lp : ListPack) : option (list (nat * nat)) :=
  collect_positions_loop (S (length (data lp))) (data lp) (tail lp) (head lp).

(** [iter_rev]; its [from_raw_parts] is in bounds when this is not [None]. *)
Definition iter_rev (lp : ListPack) : option (list bytes) :=
  ps ← collect_element_positions lp;
  mapM (fun '(start, len) => slice_get (data lp) start (start + len)) (reverse ps).

(** ** The varint of a length *)

Lemma encode_varint_loop_leb fuel v :
  (0 <= v)%Z -> encode_varint_loop fuel v = leb fuel v.
Proof.
  revert v. induction fuel as [|fuel IH]; intros v Hv; [done|].
  cbn [encode_varint_loop]. rewrite leb_S, shiftr_7, land_7F.
  pose proof (Z.mod_pos_bound v 128 ltac:(lia)).
  destruct (Z.ltb_spec v 128) as [Hlt|Hge].
  - by rewrite Z.div_small, Z.mod_small by lia.
  - assert (0 < v / 128)%Z by (apply Z.div_str_pos; lia).
    destruct (Z.eqb_spec (v / 128) 0); [lia|].
    rewrite lor_80, IH by (lia || apply Z.div_pos; lia). done.
Qed.

Lemma encode_varint_leb n : encode_varint n = leb 10 (Z.of_nat n).
Proof. apply encode_varint_loop_leb. lia. Qed.

Lemma wrapu64_group b k :
  (0 <= b)%Z -> (0 <= k)%Z -> (b * 2 ^ k < 2 ^ 64)%Z ->
  wrapu 64 (Z.shiftl b k) = Z.shiftl b k.
Proof.
  intros Hb Hk Hlt. apply wrapu_small. rewrite Z.shiftl_mul_pow2 by lia.
  unfold is_u. split; [apply Z.mul_nonneg_nonneg; lia|done].
Qed.

Lemma decode_group data i k result b :
  (0 <= k)%Z -> (0 <= result < 2 ^ (7 * k))%Z -> is_byte b ->
  (b mod 128 * 2 ^ (7 * k) < 2 ^ 64)%Z ->
  decode_varint_loop (b :: data) i result (7 * k) =
    let result := (result + b mod 128 * 2 ^ (7 * k))%Z in
    if (b <? 128)%Z then Some (Z.to_nat result, i + 1)
    else if (64 <? 7 * (k + 1))%Z then None
    else decode_varint_loop data (i + 1) result (7 * (k + 1)).
Proof.
  intros Hk Hres Hb Hfit. cbn [decode_varint_loop].
  pose proof (Z.mod_pos_bound b 128 ltac:(lia)).
  rewrite land_80, land_7F, wrapu64_group, lor_shiftl_add by (done || lia).
  by replace (7 * (k + 1))%Z with (7 * k + 7)%Z by lia.
Qed.

Lemma decode_varint_loop_leb n i k result v rest :
  0 < n -> (0 <= k)%Z -> (0 <= result < 2 ^ (7 * k))%Z ->
  (0 <= v < 128 ^ Z.of_nat n)%Z -> (result + v * 2 ^ (7 * k) < 2 ^ 64)%Z ->
  decode_varint_loop (leb n v ++ rest) i result (7 * k) =
    Some (Z.to_nat (result + v * 2 ^ (7 * k)), i + length (leb n v)).
Proof.
  revert i k result v. induction n as [|n IH]; intros i k result v Hn Hk Hres Hv Hfit; [lia|].
  pose proof (Z.mod_pos_bound v 128 ltac:(lia)) as Hm.
  assert (0 < 2 ^ (7 * k))%Z as Hpos by (apply Z.pow_pos_nonneg; lia).
  rewrite leb_S. destruct (Z.ltb_spec v 128) as [Hlt|Hge].
  - cbn [app]. rewrite decode_group; try (unfold is_byte; rewrite ?Z.mod_small; lia).
    rewrite Z.mod_small by lia. by rewrite (proj2 (Z.ltb_lt v 128) Hlt).
  - assert (Hd : (v = 128 * (v / 128) + v mod 128)%Z) by (apply Z.div_mod; lia).
    assert (0 < v / 128)%Z by (apply Z.div_str_pos; lia).
    assert (Hp : (2 ^ (7 * (k + 1)) = 128 * 2 ^ (7 * k))%Z).
    { replace (7 * (k + 1))%Z with (7 + 7 * k)%Z by lia. by rewrite Z.pow_add_r by lia. }
    assert (Hmm : ((v mod 128 + 128) mod 128 = v mod 128)%Z).
    { rewrite Z.add_mod, Z.mod_mod, Z_mod_same_full, Z.add_0_r, Z.mod_mod by lia. done. }
    cbn [app]. rewrite decode_group by (unfold is_byte; rewrite ?Hmm; nia).
    rewrite Hmm, (proj2 (Z.ltb_ge (v mod 128 + 128) 128)) by lia.
    assert (7 * (k + 1) < 64)%Z as Hk'.
    { apply (Z.pow_lt_mono_r_iff 2); [lia..|]. rewrite Hp. nia. }
    rewrite (proj2 (Z.ltb_ge 64 _)) by lia.
    destruct n as [|n]; [simpl in Hv; lia|]. cbv zeta.
    rewrite IH; [|lia|lia|rewrite Hp; nia| |rewrite Hp; nia].
    + simpl length. f_equal. f_equal; [f_equal; rewrite Hp; nia|lia].
    + apply div_128_bound; [|lia]. by rewrite (Nat2Z.inj_succ (S n)) in Hv.
Qed.

Lemma decode_encode_varint n rest :
  (Z.of_nat n < 2 ^ 64)%Z ->
  decode_varint (encode_varint n ++ rest) = Some (n, length (encode_varint n)).
Proof.
  intros Hn. rewrite encode_varint_leb. unfold decode_varint.
  change 0%Z with (7 * 0)%Z at 2.
  rewrite decode_varint_loop_leb; [|lia|lia|lia| |lia].
  - rewrite Z.mul_1_r, Z.add_0_l, Nat2Z.id. done.
  - split; [lia|]. etrans; [exact Hn|done].
Qed.

(** ** Representation

    An element is usable when its length fits a [usize] and the first byte of
    its varint is not the terminator; that byte is 0xFF exactly when the
    length is at least 128 and ends in seven one bits. *)
Definition good (e : bytes) : Prop :=
  (Z.of_nat (length e) < 2 ^ 63)%Z /\
  (length e < 128 \/ length e mod 128 <> 127).

Definition entry (e : bytes) : bytes := encode_varint (length e) ++ e.

Definition content (els : list bytes) : bytes := concat (map entry els) ++ [TERM].

Record Rep (lp : ListPack) (els : list bytes) : Prop := {
  rep_data : exists pre post, data lp = pre ++ content els ++ post /\ head lp = length pre;
  rep_tail : tail lp = head lp + length (content els);
  rep_num : num_entries lp = length els;
  rep_good : Forall good els;
}.

Lemma entry_cons e : good e -> exists b bs, entry e = b :: bs /\ b <> TERM.
Proof.
  intros [_ Hg]. unfold entry. rewrite encode_varint_leb, leb_S.
  case_match; bool_to_prop; simpl; eexists _, _; (split; [done|]); unfold TERM; [lia|].
  destruct Hg as [|Hg]; [lia|]. intros E. apply Hg.
  apply Nat2Z.inj. rewrite Nat2Z.inj_mod. lia.
Qed.

Lemma entry_length e : length (entry e) = length (encode_varint (length e)) + length e.
Proof. apply length_app. Qed.

Lemma content_cons e els : content (e :: els) = entry e ++ content els.
Proof. unfold content. simpl. by rewrite app_assoc. Qed.

Lemma content_app l1 l2 : content (l1 ++ l2) = concat (map entry l1) ++ content l2.
Proof. unfold content. by rewrite map_app, concat_app, app_assoc. Qed.

Lemma content_length els : length (content els) = length (concat (map entry els)) + 1.
Proof. unfold content. by rewrite length_app. Qed.

Lemma content_pos els : 0 < length (content els).
Proof. unfold content. rewrite length_app. simpl. lia. Qed.

Lemma content_length_ge els : Forall good els -> length els < length (content els).
Proof.
  induction 1 as [|e els He _ IH]; [apply content_pos|].
  rewrite content_cons, length_app. destruct (entry_cons e He) as (b & bs & -> & _). simpl. lia.
Qed.

Lemma decode_entry e rest :
  good e -> decode_varint (entry e ++ rest) = Some (length e, length (encode_varint (length e))).
Proof.
  intros [Hl _]. unfold entry. rewrite <- app_assoc. apply decode_encode_varint. lia.
Qed.

(** The common step of the scans: an element at position [length pre]. *)
Lemma at_entry pre e rest :
  good e ->
  let d := pre ++ entry e ++ rest in
  let c := length (encode_varint (length e)) in
  (exists b, d !! length pre = Some b /\ b <> TERM) /\
  decode_varint (drop (length pre) d) = Some (length e, c) /\
  slice_get d (length pre + c) (length pre + c + length e) = Some e /\
  length pre + c + length e = length (pre ++ entry e).
Proof.
  intros He d c. subst d c. split_and!.
  - destruct (entry_cons e He) as (b & bs & E & Hb). exists b. rewrite E.
    split; [|done]. by apply list_lookup_middle.
  - rewrite drop_app_length. by apply decode_entry.
  - unfold entry. rewrite <- app_assoc, (app_assoc pre).
    rewrite <- length_app. apply slice_get_app.
  - rewrite length_app, entry_length. lia.
Qed.

Lemma at_term pre rest : (pre ++ [TERM] ++ rest) !! length pre = Some TERM.
Proof. by apply list_lookup_middle. Qed.

Lemma split_at {A} (l : list A) n : n <= length l -> exists a b, l = a ++ b /\ length a = n.
Proof. intros H. exists (take n l), (drop n l). rewrite take_drop, length_take. split; [done|lia]. Qed.

Lemma split_at2 {A} (l : list A) n m :
  n + m <= length l -> exists a b c, l = a ++ b ++ c /\ length a = n /\ length b = m.
Proof.
  intros H. destruct (split_at l n) as (a & l' & -> & Ha); [lia|].
  rewrite length_app in H. destruct (split_at l' m) as (b & c & -> & Hb); [lia|].
  by exists a, b, c.
Qed.

(** [slice_put] replaces the bytes at its position. *)
Lemma slice_put_spec {A} (d : list A) a bs :
  a + length bs <= length d ->
  exists pre old post, d = pre ++ old ++ post /\ length pre = a /\ length old = length bs /\
    slice_put d a bs = Some (pre ++ bs ++ post).
Proof.
  intros H. destruct (split_at2 d a (length bs)) as (x & y & z & -> & <- & Hy); [lia|].
  exists x, y, z. split_and!; [done..|]. by apply slice_put_app.
Qed.

Definition pack (pre : bytes) (els : list bytes) (post : bytes) : ListPack :=
  mkListPack (pre ++ content els ++ post) (length pre) (length pre + length (content els))
    (length els).

Lemma Rep_pack pre els post : Forall good els -> Rep (pack pre els post) els.
Proof. intros Hg. constructor; try done. by exists pre, post. Qed.

Lemma Rep_inv lp els :
  Rep lp els -> Forall good els /\ exists pre post, lp = pack pre els post.
Proof.
  intros [(pre & post & Hd & Hh) Ht Hn Hg]. split; [done|]. exists pre, post.
  destruct lp. simpl in *. by subst.
Qed.

(** A successful operation that yields a list representing [els]. *)
Definition yields (m : option ListPack) (els : list bytes) : Prop :=
  exists lp, m = Some lp /\ Rep lp els.

Lemma yields_pack pre els post : Forall good els -> yields (Some (pack pre els post)) els.
Proof. intros H. eexists. split; [done|by apply Rep_pack]. Qed.

Lemma reset_spec d : 0 < length d -> yields (reset d) [].
Proof.
  intros Hd. unfold reset, vec_set.
  pose proof (Nat.div_lt (length d) 2 ltac:(lia) ltac:(lia)).
  destruct (slice_put_spec d (length d / 2) [TERM]) as (pre & old & post & E & Hp & _ & ->);
    [simpl; lia|].
  simpl. rewrite <- Hp. apply (yields_pack pre [] post). constructor.
Qed.

Lemma with_capacity_spec cap : 0 < cap -> yields (with_capacity cap) [].
Proof.
  intros Hc. replace (with_capacity cap) with (reset (replicate cap 0%Z)).
  - apply reset_spec. by rewrite length_replicate.
  - unfold reset, with_capacity. by rewrite length_replicate.
Qed.

(** Moving the content to position [h] of a buffer keeps the list. *)
Lemma put_content (d : bytes) els h n :
  h + length (content els) <= length d -> n = length els -> Forall good els ->
  exists pre post,
    slice_put d h (content els) = Some (pre ++ content els ++ post) /\
    length pre = h /\ length (pre ++ content els ++ post) = length d /\
    mkListPack (pre ++ content els ++ post) h (h + length (content els)) n = pack pre els post.
Proof.
  intros H -> Hg. destruct (slice_put_spec d h (content els) H)
    as (pre & old & post & E & Hp & Ho & Hs).
  exists pre, post. rewrite Hs. split_and!; [done|done| |].
  - rewrite E, !length_app. lia.
  - unfold pack. by rewrite Hp.
Qed.

Lemma pack_content pre els post :
  slice_get (data (pack pre els post)) (head (pack pre els post)) (tail (pack pre els post))
    = Some (content els).
Proof. apply slice_get_app. Qed.

Lemma pack_used pre els post :
  usize_sub (tail (pack pre els post)) (head (pack pre els post)) = Some (length (content els)).
Proof.
  unfold usize_sub. simpl. rewrite (proj2 (Nat.leb_le _ _)) by lia. f_equal. lia.
Qed.

Lemma usize_sub_Some a b : b <= a -> usize_sub a b = Some (a - b).
Proof. intros H. unfold usize_sub. by rewrite (proj2 (Nat.leb_le _ _)). Qed.

Lemma grow_and_center_spec pre els post extra :
  Forall good els ->
  exists pre' post', grow_and_center (pack pre els post) extra = Some (pack pre' els post') /\
    extra <= length pre' /\ extra <= length post'.
Proof.
  intros Hg. unfold grow_and_center. rewrite pack_used. cbn [mbind option_bind].
  rewrite pack_content. set (used := length (content els)).
  assert (length (data (pack pre els post)) = length pre + used + length post) as Hlen.
  { simpl. rewrite !length_app. subst used. lia. }
  rewrite usize_sub_Some by (rewrite Hlen; simpl; lia).
  rewrite Hlen. cbn [mbind option_bind].
  destruct (_ && _) eqn:Hb.
  - exists pre, post. split; [done|]. bool_to_prop. simpl in *. lia.
  - set (cap := Nat.max _ _).
    assert (2 * (used + extra) <= cap) as Hcap by lia.
    assert (used + 2 * ((cap - used) / 2) <= cap) as Hhalf.
    { pose proof (Nat.Div0.mul_div_le (cap - used) 2). lia. }
    assert (extra <= (cap - used) / 2) as Hroom by (apply Nat.div_le_lower_bound; lia).
    destruct (put_content (replicate cap 0%Z) els ((cap - used) / 2) (length els))
      as (pre' & post' & -> & Hp & Hl & Hpack); [|done|done|].
    { rewrite length_replicate. fold used. lia. }
    exists pre', post'. split; [by rewrite <- Hpack|].
    rewrite length_replicate, !length_app in Hl. fold used in Hl. lia.
Qed.

Lemma push_front_spec lp els e :
  Rep lp els -> good e -> yields (push_front lp e) (e :: els).
Proof.
  intros [Hg (pre & post & ->)]%Rep_inv He. unfold push_front.
  set (lb := encode_varint (length e)).
  destruct (grow_and_center_spec pre els post (length lb + length e) Hg)
    as (pre' & post' & -> & Hpre & _).
  cbn [mbind option_bind]. rewrite usize_sub_Some by done. cbn [mbind option_bind].
  cbn [pack head data tail num_entries].
  remember (length pre' - (length lb + length e)) as h eqn:Hh.
  destruct (split_at2 pre' h (length lb)) as (p & q1 & q2 & -> & Hp & Hq); [lia|].
  rewrite !length_app in Hh, Hpre. rewrite <- Hp, !length_app, <- !app_assoc.
  rewrite slice_put_app by done. cbn [mbind option_bind].
  rewrite <- (length_app p lb), (app_assoc p). rewrite slice_put_app by lia. cbn [mbind option_bind].
  rewrite <- app_assoc, (app_assoc lb). change (lb ++ e) with (entry e).
  rewrite (app_assoc (entry e)), <- content_cons.
  match goal with |- yields (Some ?x) _ => replace x with (pack p (e :: els) post') end.
  - apply yields_pack. by constructor.
  - unfold pack. f_equal; simpl; [|lia].
    rewrite content_cons, length_app, entry_length. fold lb. lia.
Qed.

Lemma push_back_spec lp els e :
  Rep lp els -> good e -> yields (push_back lp e) (els ++ [e]).
Proof.
  intros [Hg (pre & post & ->)]%Rep_inv He. unfold push_back.
  set (lb := encode_varint (length e)).
  destruct (grow_and_center_spec pre els post (length lb + length e) Hg)
    as (pre' & post' & -> & _ & Hpost).
  set (A := pre' ++ concat (map entry els)).
  assert (data (pack pre' els post') = A ++ [TERM] ++ post') as Hdata.
  { subst A. simpl. unfold content. by rewrite <- !app_assoc. }
  assert (tail (pack pre' els post') = length A + 1) as Htail.
  { subst A. simpl. rewrite content_length, !length_app. lia. }
  cbn [mbind option_bind]. rewrite Htail, usize_sub_Some by lia. cbn [mbind option_bind].
  rewrite Nat.add_sub, Hdata.
  destruct (split_at2 post' (length lb - 1) (length e)) as (p1 & p2 & p3 & -> & H1 & H2); [lia|].
  assert (0 < length lb) as Hlb.
  { subst lb. rewrite encode_varint_leb. pose proof (leb_length 10 (Z.of_nat (length e))). lia. }
  rewrite (app_assoc [TERM]), slice_put_app by (simpl; lia). cbn [mbind option_bind].
  rewrite (app_assoc A), <- length_app, slice_put_app by done. cbn [mbind option_bind].
  destruct p3 as [|t p3].
  { exfalso. rewrite !length_app in Hpost. simpl in Hpost. lia. }
  rewrite (app_assoc (A ++ lb)), <- length_app. unfold vec_set.
  change (t :: p3) with ([t] ++ p3). rewrite slice_put_app by done. cbn [mbind option_bind].
  assert (((A ++ lb) ++ e) ++ [TERM] ++ p3 = pre' ++ content (els ++ [e]) ++ p3) as ->.
  { subst A. rewrite content_app, content_cons. unfold entry, content. simpl.
    by rewrite <- !app_assoc. }
  match goal with |- yields (Some ?x) _ => replace x with (pack pre' (els ++ [e]) p3) end.
  - apply yields_pack. apply Forall_app. split; [done|by constructor].
  - unfold pack. f_equal.
    + subst A. rewrite content_app, content_cons, !length_app, entry_length. fold lb.
      rewrite content_length. simpl. lia.
    + simpl. rewrite length_app. simpl. lia.
Qed.

(** ** Moving the content *)

(** The descending copy loop is an overlapping move to the right. *)
Lemma copy_right_spec d h nh i :
  h <= nh -> nh + i <= length d ->
  copy_right d h nh i = Some (take nh d ++ take i (drop h d) ++ drop (nh + i) d).
Proof.
  revert d. induction i as [|i IH]; intros d Hh Hl; cbn [copy_right].
  { rewrite take_0, Nat.add_0_r. cbn [app]. by rewrite take_drop. }
  destruct (lookup_lt_is_Some_2 d (h + i)) as [b Hb]; [lia|].
  rewrite Hb. cbn [mbind option_bind]. rewrite vec_set_insert by lia. cbn [mbind option_bind].
  rewrite IH by (rewrite ?length_insert; lia).
  rewrite take_insert_ge by lia.
  rewrite drop_insert_ge, take_insert_ge, drop_insert_ge by lia.
  rewrite Nat.sub_diag. f_equal. f_equal.
  rewrite (take_S_r (drop h d) i b) by (by rewrite lookup_drop).
  rewrite <- app_assoc. f_equal.
  replace (nh + S i) with (S (nh + i)) by lia.
  destruct (lookup_lt_is_Some_2 d (nh + i)) as [c Hc]; [lia|].
  by rewrite (drop_S d c (nh + i) Hc).
Qed.

Lemma copy_right_move d h nh used :
  h <= nh -> nh + used <= length d -> copy_right d h nh used = copy_within d h (h + used) nh.
Proof.
  intros Hh Hl. rewrite copy_right_spec by done. unfold copy_within, slice_get.
  rewrite (proj2 (Nat.leb_le _ _)), (proj2 (Nat.leb_le _ _)) by lia. simpl.
  replace (h + used - h) with used by lia. unfold slice_put.
  rewrite length_take, length_drop, Nat.min_l by lia.
  by rewrite (proj2 (Nat.leb_le _ _)) by lia.
Qed.

Lemma recenter_spec lp els : Rep lp els -> yields (recenter lp) els.
Proof.
  intros [Hg (pre & post & ->)]%Rep_inv. unfold recenter. rewrite pack_used.
  cbn [mbind option_bind]. set (used := length (content els)).
  pose proof (content_pos els) as Hpos. fold used in Hpos.
  destruct (Nat.eqb_spec used 0) as [|_]; [lia|].
  assert (length (data (pack pre els post)) = length pre + used + length post) as Hlen.
  { simpl. rewrite !length_app. subst used. lia. }
  rewrite usize_sub_Some by lia. cbn [mbind option_bind].
  set (nh := (length (data (pack pre els post)) - used) / 2).
  assert (nh + used <= length (data (pack pre els post))) as Hfit.
  { pose proof (Nat.Div0.mul_div_le (length (data (pack pre els post)) - used) 2). lia. }
  destruct (Nat.eqb_spec nh (head (pack pre els post))) as [|Hne]; [by apply yields_pack|].
  assert ((if nh <? head (pack pre els post)
           then copy_within (data (pack pre els post)) (head (pack pre els post))
                  (tail (pack pre els post)) nh
           else copy_right (data (pack pre els post)) (head (pack pre els post)) nh used)
          = slice_put (data (pack pre els post)) nh (content els)) as ->.
  { assert (copy_within (data (pack pre els post)) (head (pack pre els post))
              (tail (pack pre els post)) nh = slice_put (data (pack pre els post)) nh (content els)) as E.
    { unfold copy_within. by rewrite pack_content. }
    destruct (Nat.ltb_spec nh (head (pack pre els post))); [done|].
    rewrite copy_right_move by done. exact E. }
  destruct (put_content (data (pack pre els post)) els nh (length els) Hfit eq_refl Hg)
    as (pre' & post' & -> & _ & _ & Hpack).
  cbn [mbind option_bind]. fold used in Hpack. cbn [num_entries pack] in *.
  rewrite Hpack. by apply yields_pack.
Qed.

(** ** Popping *)

(** A pop that returns [r] and leaves a list representing [els]. *)
Definition pops (m : option (option bytes * ListPack)) (r : option bytes) (els : list bytes) : Prop :=
  exists lp, m = Some (r, lp) /\ Rep lp els.

Lemma yields_pops m r els : yields m els -> pops (lp ← m; Some (r, lp)) r els.
Proof. intros (lp & -> & HR). by exists lp. Qed.

Lemma pack_cons_data pre e els post :
  data (pack pre (e :: els) post) = pre ++ entry e ++ content els ++ post.
Proof. simpl. by rewrite content_cons, <- app_assoc. Qed.

Lemma slice_get_suffix {A} (l1 l2 : list A) :
  slice_get (l1 ++ l2) (length l1) (length (l1 ++ l2)) = Some l2.
Proof.
  pose proof (slice_get_app l1 l2 []) as H. by rewrite app_nil_r, <- length_app in H.
Qed.

(** Dropping the first entry only moves [head]. *)
Lemma advance_head pre e els post :
  mkListPack (pre ++ entry e ++ content els ++ post) (length (pre ++ entry e))
    (tail (pack pre (e :: els) post)) (length els) = pack (pre ++ entry e) els post.
Proof.
  unfold pack. rewrite <- !app_assoc. f_equal. simpl.
  rewrite content_cons, !length_app. lia.
Qed.

Lemma pop_front_spec lp els :
  Rep lp els -> pops (pop_front lp) (hd_error els) (tl els).
Proof.
  intros HR. destruct (Rep_inv _ _ HR) as [Hg (pre & post & ->)].
  destruct els as [|e els]; [by exists (pack pre [] post)|].
  inversion Hg as [|? ? He Hg']; subst.
  destruct (at_entry pre e (content els ++ post) He) as (_ & Hdec & Hget & Hlen).
  rewrite drop_app_length in Hdec.
  unfold pop_front. cbn [num_entries pack length]. fold (pack pre (e :: els) post).
  change (S (length els) =? 0) with false. cbv iota.
  rewrite pack_cons_data. cbn [head pack]. rewrite slice_get_suffix. cbn [mbind option_bind].
  rewrite Hdec, Hget. cbn [mbind option_bind data num_entries]. rewrite Hlen.
  replace (S (length els) - 1) with (length els) by lia.
  change (length pre + _) with (tail (pack pre (e :: els) post)). rewrite advance_head.
  destruct (Nat.eqb_spec (length els) 0) as [H0|_].
  - destruct els; [|done]. apply yields_pops, reset_spec.
    cbn [data]. rewrite !length_app. pose proof (content_pos []). lia.
  - case_match.
    + by apply yields_pops, recenter_spec, Rep_pack.
    + eexists. split; [done|by apply Rep_pack].
Qed.

(** ** Scanning

    Passing the first entry: same buffer, same [tail], [head] moved. *)
Lemma advance_data pre e els post :
  data (pack pre (e :: els) post) = data (pack (pre ++ entry e) els post).
Proof. rewrite pack_cons_data. simpl. by rewrite <- app_assoc. Qed.

Lemma advance_tail pre e els post :
  tail (pack pre (e :: els) post) = tail (pack (pre ++ entry e) els post).
Proof. simpl. rewrite content_cons, !length_app. lia. Qed.

Lemma pack_head_lt_tail pre els post :
  (head (pack pre els post) <? tail (pack pre els post)) = true.
Proof. simpl. apply Nat.ltb_lt. pose proof (content_pos els). lia. Qed.

Lemma pack_nil_term pre post :
  data (pack pre [] post) !! head (pack pre [] post) = Some TERM.
Proof. simpl. apply at_term. Qed.

(** What every scan sees at the [head] of a non-empty list. *)
Lemma pack_at_entry pre e els post :
  good e ->
  let lp := pack pre (e :: els) post in
  let c := length (encode_varint (length e)) in
  (exists b, data lp !! head lp = Some b /\ (b =? TERM)%Z = false) /\
  decode_varint (drop (head lp) (data lp)) = Some (length e, c) /\
  slice_get (data lp) (head lp + c) (head lp + c + length e) = Some e /\
  head lp + c + length e = head (pack (pre ++ entry e) els post).
Proof.
  intros He lp c. subst lp. rewrite pack_cons_data.
  destruct (at_entry pre e (content els ++ post) He) as ((b & Hb & Hne) & H2 & H3 & H4).
  split_and!; [|done..]. exists b. split; [done|]. by apply Z.eqb_neq.
Qed.

(** Enough fuel: the buffer is longer than the number of entries. *)
Lemma pack_fuel pre els post :
  Forall good els -> length els < S (length (data (pack pre els post))).
Proof.
  intros Hg. pose proof (content_length_ge els Hg). simpl. rewrite !length_app. lia.
Qed.

Fixpoint last_pos (pre : bytes) (els : list bytes) (d : nat * nat * nat) : nat * nat * nat :=
  match els with
  | [] => d
  | e :: els => last_pos (pre ++ entry e) els (length pre, length e, length (encode_varint (length e)))
  end.

Lemma last_pos_snoc pre els e d :
  last_pos pre (els ++ [e]) d =
    (length (pre ++ concat (map entry els)), length e, length (encode_varint (length e))).
Proof.
  revert pre d. induction els as [|e' els IH]; intros pre d; simpl; [by rewrite app_nil_r|].
  rewrite IH. by rewrite <- app_assoc.
Qed.

Lemma scan_last_spec fuel pre els post ls ll lc :
  Forall good els -> length els < fuel ->
  let lp := pack pre els post in
  scan_last fuel (data lp) (tail lp) (head lp) ls ll lc = ScanDone (last_pos pre els (ls, ll, lc)).
Proof.
  intros Hg. revert fuel pre ls ll lc.
  induction Hg as [|e els He Hg IH]; intros fuel pre ls ll lc Hf lp; subst lp;
    (destruct fuel as [|fuel]; [simpl in Hf; lia|]); cbn [scan_last];
    rewrite pack_head_lt_tail.
  - by rewrite pack_nil_term.
  - destruct (pack_at_entry pre e els post He) as ((b & -> & ->) & -> & _ & Hnext).
    rewrite <- Nat.add_assoc in *. rewrite Hnext, advance_data, advance_tail.
    rewrite IH by (simpl in Hf; lia). done.
Qed.

Lemma find_loop_spec fuel pre els post curr index :
  Forall good els -> length els < fuel -> curr <= index ->
  let lp := pack pre els post in
  find_loop fuel (data lp) (tail lp) (head lp) curr index =
    ScanDone (e ← els !! (index - curr);
      Some (length (pre ++ concat (map entry (take (index - curr) els))), length e,
            length (encode_varint (length e)))).
Proof.
  intros Hg. revert fuel pre curr.
  induction Hg as [|e els He Hg IH]; intros fuel pre curr Hf Hc lp; subst lp;
    (destruct fuel as [|fuel]; [simpl in Hf; lia|]); cbn [find_loop];
    rewrite pack_head_lt_tail.
  - by rewrite pack_nil_term.
  - destruct (pack_at_entry pre e els post He) as ((b & -> & ->) & -> & _ & Hnext).
    destruct (Nat.eqb_spec curr index) as [->|Hne].
    + rewrite Nat.sub_diag. simpl. by rewrite app_nil_r.
    + rewrite Hnext, advance_data, advance_tail, IH by (simpl in Hf; lia).
      replace (index - curr) with (S (index - (curr + 1))) by lia. simpl.
      destruct (els !! _); simpl; [|done]. by rewrite <- app_assoc.
Qed.

Lemma iter_loop_spec fuel pre els post :
  Forall good els -> length els < fuel ->
  let lp := pack pre els post in
  iter_loop fuel (data lp) (tail lp) (head lp) = Some els.
Proof.
  intros Hg. revert fuel pre.
  induction Hg as [|e els He Hg IH]; intros fuel pre Hf lp; subst lp;
    (destruct fuel as [|fuel]; [simpl in Hf; lia|]); cbn [iter_loop];
    rewrite Nat.leb_antisym, pack_head_lt_tail; cbn [negb].
  - by rewrite pack_nil_term.
  - destruct (pack_at_entry pre e els post He) as ((b & -> & Hb) & -> & -> & Hnext).
    cbn [mbind option_bind]. rewrite Hb. cbn [mbind option_bind].
    rewrite Hnext, advance_data, advance_tail, IH by (simpl in Hf; lia). done.
Qed.

Lemma collect_positions_spec fuel pre els post :
  Forall good els -> length els < fuel ->
  let lp := pack pre els post in
  exists ps, collect_positions_loop fuel (data lp) (tail lp) (head lp) = Some ps /\
    Forall2 (fun '(s, n) e => slice_get (data lp) s (s + n) = Some e) ps els.
Proof.
  intros Hg. revert fuel pre.
  induction Hg as [|e els He Hg IH]; intros fuel pre Hf lp; subst lp;
    (destruct fuel as [|fuel]; [simpl in Hf; lia|]); cbn [collect_positions_loop];
    rewrite pack_head_lt_tail.
  - rewrite pack_nil_term. exists []. split; [done|constructor].
  - destruct (pack_at_entry pre e els post He) as ((b & -> & Hb) & -> & Hget & Hnext).
    cbn [mbind option_bind]. rewrite Hb.
    destruct (IH fuel (pre ++ entry e) ltac:(simpl in Hf; lia)) as (ps & Hps & HF).
    exists ((head (pack pre (e :: els) post) + length (encode_varint (length e)), length e) :: ps).
    split.
    + by rewrite Hnext, advance_data, advance_tail, Hps.
    + rewrite advance_data in Hget |- *. by constructor.
Qed.

(** Cutting the list after a prefix: the terminator overwrites the first byte
    of the next entry. *)
Lemma cut_at pre es e els post :
  Forall good es -> good e ->
  exists d post', vec_set (data (pack pre (es ++ e :: els) post))
    (length (pre ++ concat (map entry es))) TERM = Some d /\
  length d = length (data (pack pre (es ++ e :: els) post)) /\
  mkListPack d (length pre) (length (pre ++ concat (map entry es)) + 1) (length es)
    = pack pre es post'.
Proof.
  intros Hes He. destruct (entry_cons e He) as (b & bs & E & _).
  assert (data (pack pre (es ++ e :: els) post) =
          (pre ++ concat (map entry es)) ++ b :: (bs ++ content els ++ post)) as ->.
  { simpl. rewrite content_app, content_cons, E. by rewrite <- !app_assoc. }
  rewrite vec_set_app. eexists _, (bs ++ content els ++ post). split_and!; [done|..].
  - by rewrite !length_app.
  - unfold pack. f_equal.
    + unfold content. by rewrite <- !app_assoc.
    + rewrite content_length, length_app. lia.
Qed.

Lemma pop_back_nil lp : Rep lp [] -> pops (pop_back lp) None [].
Proof.
  intros HR. destruct (Rep_inv _ _ HR) as [_ (pre & post & ->)]. by exists (pack pre [] post).
Qed.

Lemma pop_back_snoc lp es e :
  Rep lp (es ++ [e]) -> pops (pop_back lp) (Some e) es.
Proof.
  intros HR. destruct (Rep_inv _ _ HR) as [Hg (pre & post & ->)].
  pose proof (Hg) as [Hes [He _]%Forall_cons]%Forall_app.
  unfold pop_back.
  assert (num_entries (pack pre (es ++ [e]) post) = S (length es)) as ->.
  { simpl. rewrite length_app. simpl. lia. }
  change (S (length es) =? 0) with false. cbv iota.
  rewrite scan_last_spec by (try apply pack_fuel; done).
  rewrite last_pos_snoc. cbv zeta iota beta.
  destruct (at_entry (pre ++ concat (map entry es)) e (content [] ++ post) He)
    as (_ & _ & Hget & _).
  assert (data (pack pre (es ++ [e]) post) =
          (pre ++ concat (map entry es)) ++ entry e ++ content [] ++ post) as Hd.
  { simpl. rewrite content_app, content_cons. by rewrite <- !app_assoc. }
  rewrite Hd, Hget, <- Hd. cbn [mbind option_bind].
  replace (S (length es) - 1) with (length es) by lia.
  destruct (cut_at pre es e [] post Hes He) as (d & post' & Hset & Hlen & Hpack).
  destruct (Nat.eqb_spec (length es) 0) as [H0|_].
  - destruct es; [|done]. apply yields_pops, reset_spec.
    rewrite Hd, !length_app. pose proof (content_pos []). lia.
  - rewrite Hset. cbn [mbind option_bind head pack data tail num_entries].
    rewrite Hpack. case_match.
    + by apply yields_pops, recenter_spec, Rep_pack.
    + eexists. split; [done|by apply Rep_pack].
Qed.

Lemma pop_back_spec lp els :
  Rep lp els -> pops (pop_back lp) (last els) (removelast els).
Proof.
  destruct els as [|e es _] using rev_ind; intros HR; [by apply pop_back_nil|].
  rewrite last_snoc, removelast_last. by apply pop_back_snoc.
Qed.

(** ** Reading *)

Lemma get_spec lp els i : Rep lp els -> get lp i = Some (els !! i).
Proof.
  intros [Hg (pre & post & ->)]%Rep_inv. unfold get. cbn [num_entries pack].
  fold (pack pre els post).
  destruct (Nat.leb_spec (length els) i) as [Hge|Hlt].
  { by rewrite lookup_ge_None_2. }
  rewrite find_loop_spec by first [done|by apply pack_fuel|lia].
  rewrite Nat.sub_0_r. destruct (lookup_lt_is_Some_2 els i Hlt) as [e He]. rewrite He.
  cbn [mbind option_bind]. pose proof (take_drop_middle els i e He) as Hsplit.
  assert (good e) as Hge by (rewrite Forall_forall in Hg; by eapply Hg, list_elem_of_lookup_2).
  destruct (at_entry (pre ++ concat (map entry (take i els))) e
              (content (drop (S i) els) ++ post) Hge) as (_ & _ & Hget & _).
  assert (data (pack pre els post) = (pre ++ concat (map entry (take i els))) ++ entry e ++
            content (drop (S i) els) ++ post) as ->.
  { simpl. rewrite <- Hsplit at 1. rewrite content_app, content_cons. by rewrite <- !app_assoc. }
  by rewrite Hget.
Qed.

Lemma iter_spec lp els : Rep lp els -> iter lp = Some els.
Proof.
  intros [Hg (pre & post & ->)]%Rep_inv. by apply iter_loop_spec, pack_fuel.
Qed.

Lemma iter_rev_spec lp els : Rep lp els -> iter_rev lp = Some (reverse els).
Proof.
  intros [Hg (pre & post & ->)]%Rep_inv. unfold iter_rev, collect_element_positions.
  destruct (collect_positions_spec (S (length (data (pack pre els post)))) pre els post Hg)
    as (ps & -> & HF); [by apply pack_fuel|]. cbn [mbind option_bind].
  apply mapM_Some_2.
  apply Forall2_reverse. eapply Forall2_impl; [exact HF|]. by intros [s n] e.
Qed.

(** ** Truncating and resizing *)

Lemma truncate_loop_spec fuel lp els n :
  Rep lp els -> length els <= fuel -> n <= length els -> yields (truncate_loop fuel lp n) (take n els).
Proof.
  revert lp els. induction fuel as [|fuel IH]; intros lp els HR Hf Hn; cbn [truncate_loop];
    rewrite (rep_num _ _ HR).
  - destruct (Nat.ltb_spec n (length els)); [lia|]. rewrite take_ge by lia. by exists lp.
  - destruct (Nat.ltb_spec n (length els)); [|rewrite take_ge by lia; by exists lp].
    destruct (pop_back_spec lp els HR) as (lp' & -> & HR'). cbn [mbind option_bind].
    destruct els as [|e es _] using rev_ind; [simpl in *; lia|].
    rewrite removelast_last in HR'. rewrite length_app in *. simpl in *.
    rewrite take_app_le by lia. apply IH; [done|lia|lia].
Qed.

Lemma truncate_spec lp els n : Rep lp els -> yields (truncate lp n) (take n els).
Proof.
  intros HR. unfold truncate. rewrite (rep_num _ _ HR).
  destruct (Nat.leb_spec (length els) n) as [Hge|Hlt].
  - rewrite take_ge by done. by exists lp.
  - apply truncate_loop_spec; [done|lia|lia].
Qed.

Lemma push_back_n_spec n lp els e :
  Rep lp els -> good e -> yields (push_back_n n lp e) (els ++ replicate n e).
Proof.
  revert lp els. induction n as [|n IH]; intros lp els HR He; cbn [push_back_n].
  { rewrite app_nil_r. by exists lp. }
  destruct (push_back_spec lp els e HR He) as (lp' & -> & HR'). cbn [mbind option_bind].
  rewrite replicate_S, cons_middle, app_assoc. by apply IH.
Qed.

Lemma resize_spec lp els n fill :
  Rep lp els -> good fill ->
  yields (resize lp n fill) (take n els ++ replicate (n - length els) fill).
Proof.
  intros HR Hf. unfold resize. rewrite (rep_num _ _ HR).
  destruct (Nat.compare_spec n (length els)) as [->|Hlt|Hgt].
  - rewrite take_ge, Nat.sub_diag, app_nil_r by lia. by exists lp.
  - replace (n - length els) with 0 by lia. rewrite app_nil_r. by apply truncate_spec.
  - rewrite take_ge by lia. by apply push_back_n_spec.
Qed.

Lemma clear_spec lp els : Rep lp els -> yields (clear lp) [].
Proof.
  intros [Hg (pre & post & ->)]%Rep_inv. apply reset_spec.
  simpl. rewrite !length_app. pose proof (content_pos els). lia.
Qed.

(** ** Removing an element *)

(** Bytes on the left and on the right (terminator included) of element [i]. *)
Definition left_bytes (els : list bytes) (i : nat) : nat := length (concat (map entry (take i els))).
Definition right_bytes (els : list bytes) (i : nat) : nat := length (content (drop (S i) els)).

(** The cases in which [remove] moves the right part, or nothing at all. *)
Definition remove_safe (els : list bytes) (i : nat) : bool :=
  (length els <=? i) || (i =? 0) || (S i =? length els) || (right_bytes els i <=? left_bytes els i).

Definition removes (m : option (bool * ListPack)) (b : bool) (els : list bytes) : Prop :=
  exists lp, m = Some (b, lp) /\ Rep lp els.

Lemma find_element_pos_spec lp els i e :
  Rep lp els -> els !! i = Some e ->
  find_element_pos lp i =
    Some (Some (head lp + length (concat (map entry (take i els))), length e,
                length (encode_varint (length e)))).
Proof.
  intros HR He. pose proof (lookup_lt_Some _ _ _ He). unfold find_element_pos.
  rewrite (rep_num _ _ HR), (proj2 (Nat.leb_gt _ _)) by done.
  apply Rep_inv in HR as [Hg (pre & post & ->)].
  rewrite find_loop_spec by first [done|by apply pack_fuel|lia].
  rewrite Nat.sub_0_r, He. simpl. by rewrite length_app.
Qed.

(** Where the parts of the buffer around element [length l] are. *)
Lemma remove_layout lp l e r :
  Rep lp (l ++ e :: r) ->
  let A := concat (map entry l) in
  exists pre post,
    data lp = pre ++ A ++ entry e ++ content r ++ post /\ head lp = length pre /\
    tail lp = head lp + length A + length (entry e) + length (content r) /\
    num_entries lp = length l + S (length r) /\
    Forall good l /\ good e /\ Forall good r.
Proof.
  intros [Hg (pre & post & ->)]%Rep_inv A. exists pre, post.
  apply Forall_app in Hg as [Hl [He Hr]%Forall_cons]. split_and!; try done.
  - simpl. rewrite content_app, content_cons. by rewrite <- !app_assoc.
  - simpl. rewrite content_app, content_cons, !length_app. fold A. lia.
  - simpl. by rewrite length_app.
Qed.

(** The choice that [remove] makes in the middle of the list. *)
Lemma remove_middle lp l e r :
  Rep lp (l ++ e :: r) -> l <> [] -> r <> [] ->
  let A := concat (map entry l) in
  let elem_start := head lp + length A in
  let elem_end := elem_start + length (entry e) in
  remove lp (length l) =
    if length A <? length (content r) then
      d ← copy_within (data lp) (head lp) elem_start elem_end;
      Some (true, mkListPack d (head lp + length (entry e)) (tail lp) (length l + length r))
    else
      d ← copy_within (data lp) elem_end (tail lp) elem_start;
      Some (true, mkListPack d (head lp) (tail lp - length (entry e)) (length l + length r)).
Proof.
  intros HR Hl0 Hr0 A elem_start elem_end.
  destruct (remove_layout lp l e r HR) as (pre & post & _ & Hh & Ht & Hn & _ & He & _).
  unfold remove. rewrite Hn. rewrite (proj2 (Nat.leb_gt _ _)) by lia.
  destruct l as [|e0 l]; [done|]. destruct r as [|e1 r]; [done|].
  rewrite (proj2 (Nat.eqb_neq (length (e0 :: l)) 0)) by done.
  rewrite (find_element_pos_spec lp _ (length (e0 :: l)) e HR) by (by apply list_lookup_middle).
  rewrite take_app_length. cbn [mbind option_bind]. fold A.
  rewrite (proj2 (Nat.eqb_neq (length (e0 :: l)) _)) by (simpl; lia).
  fold elem_start. rewrite <- Nat.add_assoc, <- entry_length. fold elem_end.
  assert (head lp + length A + length (entry e) = elem_end) as Hend by done.
  rewrite (usize_sub_Some elem_start (head lp)) by (subst elem_start; lia). cbn [mbind option_bind].
  assert (tail lp - elem_end = length (content (e1 :: r))) as Hr by (subst A; lia).
  rewrite (usize_sub_Some (tail lp) elem_end) by (subst A; lia). cbn [mbind option_bind].
  rewrite Hr. replace (elem_start - head lp) with (length A) by (unfold elem_start; lia).
  replace (elem_end - elem_start) with (length (entry e)) by (unfold elem_end; lia).
  by replace (length (e0 :: l) + S (length (e1 :: r)) - 1)
    with (length (e0 :: l) + length (e1 :: r)) by lia.
Qed.

(** Moving the right part down removes the element. *)
Lemma remove_right_part lp l e r :
  Rep lp (l ++ e :: r) -> l <> [] -> r <> [] ->
  length (content r) <= length (concat (map entry l)) ->
  removes (remove lp (length l)) true (l ++ r).
Proof.
  intros HR Hl0 Hr0 Hle. rewrite (remove_middle lp l e r HR Hl0 Hr0).
  rewrite (proj2 (Nat.ltb_ge _ _)) by done.
  destruct (remove_layout lp l e r HR) as (pre & post & Hd & Hh & Ht & Hn & Hl & He & Hr).
  set (A := concat (map entry l)) in *. unfold copy_within.
  rewrite Hd, Ht, Hh. set (E := entry e) in *. set (R := content r) in *.
  pose proof (slice_get_app (pre ++ A ++ E) R post) as Hget.
  rewrite <- !app_assoc, !length_app, !Nat.add_assoc in Hget. rewrite Hget.
  cbn [mbind option_bind].
  destruct (split_at (E ++ R) (length R)) as (x & y & Hxy & Hx); [rewrite length_app; lia|].
  assert (pre ++ A ++ E ++ R ++ post = (pre ++ A) ++ x ++ (y ++ post)) as ->.
  { rewrite (app_assoc E), Hxy. by rewrite <- !app_assoc. }
  rewrite <- length_app, slice_put_app by done. cbn [mbind option_bind].
  eexists. split; [done|].
  replace (mkListPack _ _ _ _) with (pack pre (l ++ r) (y ++ post)).
  - apply Rep_pack, Forall_app. done.
  - unfold pack. rewrite content_app. fold A R. f_equal.
    + by rewrite <- !app_assoc.
    + rewrite !length_app. lia.
    + by rewrite length_app.
Qed.

Lemma remove_last lp l e :
  Rep lp (l ++ [e]) -> l <> [] -> removes (remove lp (length l)) true l.
Proof.
  intros HR Hl0. destruct (remove_layout lp l e [] HR) as (_ & _ & _ & _ & _ & Hn & _).
  unfold remove. rewrite Hn. simpl length.
  rewrite (proj2 (Nat.leb_gt _ _)) by lia.
  rewrite (proj2 (Nat.eqb_neq (length l) 0)) by (by destruct l).
  rewrite (find_element_pos_spec lp _ (length l) e HR) by (by apply list_lookup_middle).
  rewrite take_app_length. cbn [mbind option_bind].
  replace (length l + 1 - 1) with (length l) by lia. rewrite Nat.eqb_refl.
  destruct (Rep_inv _ _ HR) as [Hg (pre & post & ->)].
  apply Forall_app in Hg as [Hl [He _]%Forall_cons].
  destruct (cut_at pre l e [] post Hl He) as (d & post' & Hset & _ & Hpack).
  rewrite length_app in Hset, Hpack.
  change (head (pack pre (l ++ [e]) post)) with (length pre). rewrite Hset.
  cbn [mbind option_bind]. rewrite Hpack. eexists. split; [done|by apply Rep_pack].
Qed.

Lemma remove_spec lp els i :
  Rep lp els -> remove_safe els i = true ->
  removes (remove lp i) (i <? length els) (take i els ++ drop (S i) els).
Proof.
  intros HR Hs. destruct (Nat.ltb_spec i (length els)) as [Hlt|Hge].
  2: { unfold remove. rewrite (rep_num _ _ HR), (proj2 (Nat.leb_le _ _)) by done.
       rewrite take_ge, drop_ge, app_nil_r by lia. by exists lp. }
  destruct (lookup_lt_is_Some_2 els i Hlt) as [e He].
  pose proof (take_drop_middle els i e He) as Hsplit.
  assert (length (take i els) = i) as Hi by (rewrite length_take; lia).
  set (l := take i els) in *. set (r := drop (S i) els) in *.
  destruct (decide (i = 0)) as [->|Hne0].
  { destruct (pop_front_spec lp els HR) as (lp' & Hpop & HR').
    unfold remove. rewrite (rep_num _ _ HR), (proj2 (Nat.leb_gt _ _)), Hpop by done.
    exists lp'. split; [done|]. subst l r. by destruct els. }
  assert (l <> []) as Hl0 by (intros E; rewrite E in Hi; by simpl in Hi).
  rewrite <- Hsplit in HR. rewrite <- Hi. destruct (decide (r = [])) as [Hr|Hr].
  - rewrite Hr in *. rewrite app_nil_r. by apply (remove_last lp l e).
  - apply (remove_right_part lp l e r); [done..|].
    unfold remove_safe, left_bytes, right_bytes in Hs. fold l r in Hs.
    assert (length r <> 0) as Hlr by (by destruct r).
    assert (length els = i + S (length r)) as Hlen.
    { rewrite <- Hsplit, length_app. simpl. lia. }
    rewrite !orb_true_iff, !Nat.leb_le, !Nat.eqb_eq in Hs. lia.
Qed.

(** Moving the left part up: [copy_within] is given the end of the removed
    element as the destination of the copy, not the place where the copy has to
    end.  With elements of one size the second of three or more elements is
    thus not the one that disappears. *)
Lemma remove_left_part_moves lp a b c r :
  Rep lp (a :: b :: c :: r) -> length a = length b -> length a = length c ->
  removes (remove lp 1) true (b :: a :: r).
Proof.
  intros HR Hab Hac. change 1 with (length [a]). rewrite (remove_middle lp [a] b (c :: r) HR) by done.
  assert (forall x, length x = length a -> length (entry x) = length (entry a)) as Hlen.
  { intros x Hx. by rewrite !entry_length, Hx. }
  rewrite content_cons, length_app. simpl concat. rewrite app_nil_r.
  pose proof (Hlen b ltac:(done)) as HEb. pose proof (Hlen c ltac:(done)) as HEc.
  rewrite HEb, HEc.
  rewrite (proj2 (Nat.ltb_lt _ _)) by (pose proof (content_pos r); lia).
  destruct (remove_layout lp [a] b (c :: r) HR) as (pre & post & Hd & Hh & Ht & _ & Hga & Hgb & Hgr).
  rewrite content_cons, length_app in Ht. simpl concat in Hd, Ht. rewrite app_nil_r in Hd, Ht.
  unfold copy_within. rewrite Hd, Ht, Hh.
  rewrite slice_get_app. cbn [mbind option_bind].
  rewrite content_cons, <- app_assoc.
  assert (pre ++ entry a ++ entry b ++ entry c ++ content r ++ post =
          (pre ++ entry a ++ entry b) ++ entry c ++ (content r ++ post)) as ->.
  { by rewrite <- !app_assoc. }
  replace (length pre + length (entry a) + length (entry a))
    with (length (pre ++ entry a ++ entry b)) by (rewrite !length_app; lia).
  rewrite slice_put_app by lia. cbn [mbind option_bind]. eexists. split; [done|].
  replace (mkListPack _ _ _ _) with (pack (pre ++ entry a) (b :: a :: r) post).
  - apply Rep_pack. apply Forall_cons in Hgr as [_ ?]. apply Forall_cons in Hga as [? _].
    by do 2 (constructor; [done|]).
  - unfold pack. f_equal.
    + rewrite !content_cons. by rewrite <- !app_assoc.
    + by rewrite length_app.
    + rewrite !content_cons, !length_app, HEb, HEc. lia.
Qed.

(** ** The double-ended list it implements *)

Inductive Op : Type :=
| OPushFront (e : bytes)
| OPushBack (e : bytes)
| OPopFront
| OPopBack
| OGet (i : nat)
| ORemove (i : nat)
| OTruncate (n : nat)
| OResize (n : nat) (fill : bytes)
| OClear
| OLen
| OIter
| OIterRev.

Inductive Out : Type :=
| OutUnit
| OutElem (e : option bytes)
| OutBool (b : bool)
| OutNat (n : nat)
| OutElems (es : list bytes).

Definition exec (lp : ListPack) (o : Op) : option (Out * ListPack) :=
  match o with
  | OPushFront e => lp ← push_front lp e; Some (OutUnit, lp)
  | OPushBack e => lp ← push_back lp e; Some (OutUnit, lp)
  | OPopFront => '(r, lp) ← pop_front lp; Some (OutElem r, lp)
  | OPopBack => '(r, lp) ← pop_back lp; Some (OutElem r, lp)
  | OGet i => r ← get lp i; Some (OutElem r, lp)
  | ORemove i => '(b, lp) ← remove lp i; Some (OutBool b, lp)
  | OTruncate n => lp ← truncate lp n; Some (OutUnit, lp)
  | OResize n fill => lp ← resize lp n fill; Some (OutUnit, lp)
  | OClear => lp ← clear lp; Some (OutUnit, lp)
  | OLen => Some (OutNat (len lp), lp)
  | OIter => es ← iter lp; Some (OutElems es, lp)
  | OIterRev => es ← iter_rev lp; Some (OutElems es, lp)
  end.

(** The same operations on a list of byte strings. *)
Definition spec (els : list bytes) (o : Op) : Out * list bytes :=
  match o with
  | OPushFront e => (OutUnit, e :: els)
  | OPushBack e => (OutUnit, els ++ [e])
  | OPopFront => (OutElem (hd_error els), tl els)
  | OPopBack => (OutElem (last els), removelast els)
  | OGet i => (OutElem (els !! i), els)
  | ORemove i => (OutBool (i <? length els), take i els ++ drop (S i) els)
  | OTruncate n => (OutUnit, take n els)
  | OResize n fill => (OutUnit, take n els ++ replicate (n - length els) fill)
  | OClear => (OutUnit, [])
  | OLen => (OutNat (length els), els)
  | OIter => (OutElems els, els)
  | OIterRev => (OutElems (reverse els), els)
  end.

Definition op_ok (els : list bytes) (o : Op) : Prop :=
  match o with
  | OPushFront e | OPushBack e | OResize _ e => good e
  | ORemove i => remove_safe els i = true
  | _ => True
  end.

Fixpoint exec_all (lp : ListPack) (os : list Op) : option (list Out * ListPack) :=
  match os with
  | [] => Some ([], lp)
  | o :: os => '(r, lp) ← exec lp o; '(rs, lp) ← exec_all lp os; Some (r :: rs, lp)
  end.

Fixpoint spec_all (els : list bytes) (os : list Op) : list Out * list bytes :=
  match os with
  | [] => ([], els)
  | o :: os =>
      let '(r, els) := spec els o in
      let '(rs, els) := spec_all els os in (r :: rs, els)
  end.

Fixpoint ops_ok (els : list bytes) (os : list Op) : Prop :=
  match os with
  | [] => True
  | o :: os => op_ok els o /\ ops_ok (spec els o).2 os
  end.

Lemma lp_exec_spec lp els o :
  Rep lp els -> op_ok els o ->
  exists lp', exec lp o = Some ((spec els o).1, lp') /\ Rep lp' (spec els o).2.
Proof.
  intros HR Ho. destruct o as [e|e| | |i|i|n|n f| | | |]; cbn [exec spec op_ok fst snd] in *.
  - destruct (push_front_spec lp els e HR Ho) as (lp' & -> & ?). by exists lp'.
  - destruct (push_back_spec lp els e HR Ho) as (lp' & -> & ?). by exists lp'.
  - destruct (pop_front_spec lp els HR) as (lp' & -> & ?). by exists lp'.
  - destruct (pop_back_spec lp els HR) as (lp' & -> & ?). by exists lp'.
  - rewrite (get_spec lp els i HR). by exists lp.
  - destruct (remove_spec lp els i HR Ho) as (lp' & -> & ?). by exists lp'.
  - destruct (truncate_spec lp els n HR) as (lp' & -> & ?). by exists lp'.
  - destruct (resize_spec lp els n f HR Ho) as (lp' & -> & ?). by exists lp'.
  - destruct (clear_spec lp els HR) as (lp' & -> & ?). by exists lp'.
  - exists lp. by rewrite <- (rep_num _ _ HR).
  - rewrite (iter_spec lp els HR). by exists lp.
  - rewrite (iter_rev_spec lp els HR). by exists lp.
Qed.

Lemma exec_all_spec lp els os :
  Rep lp els -> ops_ok els os ->
  exists lp', exec_all lp os = Some ((spec_all els os).1, lp') /\ Rep lp' (spec_all els os).2.
Proof.
  revert lp els. induction os as [|o os IH]; intros lp els HR Ho; [by exists lp|].
  destruct Ho as [Ho Hos]. destruct (lp_exec_spec lp els o HR Ho) as (lp' & He & HR').
  simpl. rewrite He. destruct (spec els o) as [r els']. simpl in *.
  destruct (IH lp' els' HR' Hos) as (lp'' & -> & HR''). simpl.
  destruct (spec_all els' os) as [rs els'']. by exists lp''.
Qed.

(** C34. Refinement: from a new listpack, any sequence of operations whose
    elements have a length with a usable varint and whose removals move the
    right part returns, without a panic, exactly what the same operations on a
    list of byte strings return, through every growth, centring and reset of
    the buffer. *)
Theorem listpack_refines_deque (os : list Op) :
  ops_ok [] os ->
  exists lp, (lp ← new; exec_all lp os) = Some ((spec_all [] os).1, lp) /\
    Rep lp (spec_all [] os).2.
Proof.
  intros Ho. destruct (with_capacity_spec 1024 ltac:(lia)) as (lp & Hnew & HR).
  unfold new. rewrite Hnew. cbn [mbind option_bind]. by apply exec_all_spec.
Qed.

Definition demo_ops : list Op :=
  [OPushBack [1%Z]; OPushFront [2%Z; 2%Z]; OPushBack [3%Z]; ORemove 2; OIterRev; OPopBack; OLen].

Lemma listpack_refines_deque_witness :
  exists lp, (lp ← new; exec_all lp demo_ops) =
    Some ([OutUnit; OutUnit; OutUnit; OutBool true; OutElems [[1%Z]; [2%Z; 2%Z]];
           OutElem (Some [1%Z]); OutNat 1], lp) /\ Rep lp [[2%Z; 2%Z]].
Proof.
  apply (listpack_refines_deque demo_ops).
  cbn [ops_ok demo_ops op_ok spec snd]. unfold good. cbn [length].
  split_and!; try done; try (left; apply Nat.ltb_lt; reflexivity).
Defined.

(** An element of 255 bytes is lost: its varint starts with the byte
    0xFF, which every scan takes for the terminator.  The list counts it, but
    iteration stops before it, [get] does not find it, and [pop_back] returns an
    empty string. *)
Theorem listpack_terminator_clash (b : Z) :
  (lp ← new;
   lp ← push_back lp (replicate 255 b);
   es ← iter lp;
   e ← get lp 0;
   '(popped, lp') ← pop_back lp;
   Some (len lp, es, e, popped, len lp')) = Some (1, [], None, Some [], 0).
Proof. vm_compute. reflexivity. Qed.

(** [free_bytes] subtracts the bytes in use from the number of entries, so
    the subtraction underflows on every well-formed list, the empty one
    included. *)
Theorem listpack_free_bytes_underflow (lp : ListPack) (els : list bytes) :
  Rep lp els -> free_bytes lp = None.
Proof.
  intros [Hg (pre & post & ->)]%Rep_inv. unfold free_bytes, used_bytes. rewrite pack_used.
  cbn [mbind option_bind]. pose proof (content_length_ge els Hg). unfold usize_sub. simpl.
  by rewrite (proj2 (Nat.leb_gt _ _)).
Qed.

Lemma listpack_free_bytes_underflow_witness :
  free_bytes (pack [0%Z] [[7%Z]] []) = None.
Proof.
  apply (listpack_free_bytes_underflow _ [[7%Z]]). apply Rep_pack. constructor; [|constructor].
  split; [done|]. left. apply Nat.ltb_lt. reflexivity.
Defined.

(** Removing the second of three or more elements of one length keeps it,
    moves it to the front and drops the third: the left part is copied to the
    end of the removed element, where the third one starts, instead of being
    copied so that it ends there. *)
Theorem listpack_remove_drops_neighbour (lp : ListPack) (a b c : bytes) (r : list bytes) :
  Rep lp (a :: b :: c :: r) -> length a = length b -> length a = length c ->
  exists lp', remove lp 1 = Some (true, lp') /\ Rep lp' (b :: a :: r) /\
    iter lp' = Some (b :: a :: r).
Proof.
  intros HR Hab Hac. destruct (remove_left_part_moves lp a b c r HR Hab Hac) as (lp' & ? & HR').
  exists lp'. split_and!; [done..|]. by apply iter_spec.
Qed.

Lemma listpack_remove_drops_neighbour_witness :
  exists lp', remove (pack [] [[1%Z]; [2%Z]; [3%Z]] []) 1 = Some (true, lp') /\
    Rep lp' [[2%Z]; [1%Z]] /\ iter lp' = Some [[2%Z]; [1%Z]].
Proof.
  apply (listpack_remove_drops_neighbour _ [1%Z] [2%Z] [3%Z] []); [|reflexivity..].
  apply Rep_pack.
  repeat (constructor; [split; [done|left; apply Nat.ltb_lt; reflexivity]|]). constructor.
Defined.
