(* ===== verification/QuickList.v ===== *)
(** * QuickList: the segmented list

    Models [src/src/database/quicklist/quicklist_base.rs]: a list cut into
    segments of bounded size, with an index of the segment starts that is kept
    incrementally or rebuilt lazily, a cache of the last segment accessed and a
    periodic re-packing of the segments.  A [VecDeque] is the list of its
    elements.  The capacity of a segment is chosen by the allocation of
    [VecDeque] ([with_capacity] promises no upper bound), so [validate] takes the
    capacities at its call; the memory reports are not modelled.  [None] is a
    panic. *)
From S2P Require Import Prelude.
Local Open Scope nat_scope.

Section QuickList.
Context {T : Type}.

Record QuickList : Type := mkQuickList {
  segments : list (list T);
  segment_starts : list nat;
  max_segment_size : nat;
  len : nat;
  last_accessed : option (nat * nat);
  index_dirty : bool;
  ops_since_optimize : nat;
  optimize_threshold : nat;
}.

Definition with_optimize_threshold (max_segment_size threshold : nat) : QuickList :=
  mkQuickList [] [0] max_segment_size 0 None false 0 threshold.

Definition new (max_segment_size : nat) : QuickList :=
  with_optimize_threshold max_segment_size 1000.

Definition is_empty (q : QuickList) : bool := len q =? 0.

(** [Vec::resize(n, 0)] *)
Definition vec_resize (l : list nat) (n : nat) : list nat :=
  take n l ++ replicate (n - length l) 0.

Definition mark_index_dirty (q : QuickList) : QuickList :=
  let desired := length (segments q) + 1 in
  let starts :=
    if length (segment_starts q) =? desired then segment_starts q
    else vec_resize (segment_starts q) desired in
  mkQuickList (segments q) starts (max_segment_size q) (len q) None true
    (ops_since_optimize q) (optimize_threshold q).

Fixpoint rebuild_loop (cumulative : nat) (segs : list (list T)) : list nat :=
  match segs with
  | [] => []
  | s :: segs => let cumulative := cumulative + length s in cumulative :: rebuild_loop cumulative segs
  end.

Definition rebuild_segment_starts (q : QuickList) : QuickList :=
  mkQuickList (segments q) (0 :: rebuild_loop 0 (segments q)) (max_segment_size q) (len q) None
    false (ops_since_optimize q) (optimize_threshold q).

(** The loop of [update_segment_starts_from], [n] segments left from [i]. *)
Fixpoint update_starts_loop (n i : nat) (segs : list (list T)) (starts : list nat)
  : option (list nat) :=
  match n with
  | O => Some starts
  | S n =>
      prev_start ← (if i =? 0 then Some 0 else starts !! i);
      s ← segs !! i;
      let new_start := prev_start + length s in
      let starts := if i + 1 <? length starts then <[i + 1 := new_start]> starts else starts in
      update_starts_loop n (i + 1) segs starts
  end.

Definition update_segment_starts_from (q : QuickList) (start_seg : nat) : option QuickList :=
  if length (segments q) <=? start_seg then Some q
  else
    starts ← update_starts_loop (length (segments q) - start_seg) start_seg (segments q)
               (segment_starts q);
    Some (mkQuickList (segments q) starts (max_segment_size q) (len q) None false
            (ops_since_optimize q) (optimize_threshold q)).

(** The inner loops of [optimize]: the elements in order, a full current
    segment being closed before the next element. *)
Fixpoint repack (max : nat) (items current : list T) : list (list T) :=
  match items with
  | [] => match current with [] => [] | _ => [current] end
  | x :: items =>
      if max <=? length current then current :: repack max items [x]
      else repack max items (current ++ [x])
  end.

Definition set_segments (q : QuickList) (segs : list (list T)) (n : nat) : QuickList :=
  mkQuickList segs (segment_starts q) (max_segment_size q) n (last_accessed q) (index_dirty q)
    (ops_since_optimize q) (optimize_threshold q).

Definition set_ops (q : QuickList) (ops : nat) : QuickList :=
  mkQuickList (segments q) (segment_starts q) (max_segment_size q) (len q) (last_accessed q)
    (index_dirty q) ops (optimize_threshold q).

Definition optimize (q : QuickList) : QuickList :=
  let new_segments := repack (max_segment_size q) (concat (segments q)) [] in
  let q := mark_index_dirty (set_segments q new_segments (len q)) in
  set_ops (rebuild_segment_starts q) 0.

Definition auto_optimize (q : QuickList) : QuickList :=
  let q := set_ops q (ops_since_optimize q + 1) in
  if ops_since_optimize q <? optimize_threshold q then q
  else
    let q := set_ops q 0 in
    let should_optimize :=
      (5 <? length (segments q)) ||
      existsb (fun s => length s <? max_segment_size q / 4) (segments q) in
    if should_optimize then optimize q else q.

(** [if !self.index_dirty { self.update_segment_starts_from(i) }] *)
Definition update_if_clean (q : QuickList) (i : nat) : option QuickList :=
  if index_dirty q then Some q else update_segment_starts_from q i.

Definition push_front (q : QuickList) (item : T) : option QuickList :=
  let q :=
    match segments q with
    | s :: _ =>
        if max_segment_size q <=? length s
        then mark_index_dirty (set_segments q ([] :: segments q) (len q)) else q
    | [] => mark_index_dirty (set_segments q ([] :: segments q) (len q))
    end in
  match segments q with
  | [] => None
  | s :: segs =>
      let q := set_segments q ((item :: s) :: segs) (len q + 1) in
      q ← update_if_clean q 0;
      Some (auto_optimize q)
  end.

Definition push_back (q : QuickList) (item : T) : option QuickList :=
  let needed_new_segment :=
    match last (segments q) with
    | None => true
    | Some s => max_segment_size q <=? length s
    end in
  let q :=
    if needed_new_segment
    then mark_index_dirty (set_segments q (segments q ++ [[]]) (len q)) else q in
  last_idx ← usize_sub (length (segments q)) 1;
  s ← segments q !! last_idx;
  let q := set_segments q (<[last_idx := s ++ [item]]> (segments q)) (len q + 1) in
  q ← update_if_clean q last_idx;
  Some (auto_optimize q).

Definition pop_front (q : QuickList) : option (option T * QuickList) :=
  match segments q with
  | [] => Some (None, q)
  | [] :: _ => Some (None, q)
  | (item :: s) :: segs =>
      n ← usize_sub (len q) 1;
      q ← (match s with
           | [] => Some (mark_index_dirty (set_segments q segs n))
           | _ => update_if_clean (set_segments q (s :: segs) n) 0
           end);
      Some (Some item, auto_optimize q)
  end.

Definition pop_back (q : QuickList) : option (option T * QuickList) :=
  match last (segments q) with
  | None => Some (None, q)
  | Some s =>
      let last_idx := length (segments q) - 1 in
      match last s with
      | None => Some (None, q)
      | Some item =>
          n ← usize_sub (len q) 1;
          let s := removelast s in
          q ← (match s with
               | [] => Some (mark_index_dirty (set_segments q (removelast (segments q)) n))
               | _ => update_if_clean (set_segments q (<[last_idx := s]> (segments q)) n) last_idx
               end);
          Some (Some item, auto_optimize q)
      end
  end.

Definition set_cache (q : QuickList) (c : option (nat * nat)) : QuickList :=
  mkQuickList (segments q) (segment_starts q) (max_segment_size q) (len q) c (index_dirty q)
    (ops_since_optimize q) (optimize_threshold q).

(** The fast path of [find_segment]: the cached segment, when it covers the
    index.  The outer option is a panic. *)
Definition cached_segment (q : QuickList) (index : nat) : option (option (nat * nat)) :=
  match last_accessed q with
  | Some (cached_seg, _) =>
      if cached_seg <? length (segments q) then
        seg_start ← segment_starts q !! cached_seg;
        s ← segments q !! cached_seg;
        if (seg_start <=? index) && (index <? seg_start + length s)
        then Some (Some (cached_seg, index - seg_start)) else Some None
      else Some None
  | None => Some None
  end.

(** The binary search of [find_segment] and [find_segment_const]. *)
Definition search_segment (q : QuickList) (index : nat) : option (option (nat * nat)) :=
  match binary_search_by (fun x => Nat.compare x index) (segment_starts q) with
  | Ok seg_idx => Some (Some (seg_idx, 0))
  | Err seg_idx =>
      if (seg_idx =? 0) || (length (segments q) <? seg_idx) then Some None
      else
        let actual_seg := seg_idx - 1 in
        start ← segment_starts q !! actual_seg;
        offset ← usize_sub index start;
        Some (Some (actual_seg, offset))
  end.

Definition find_segment (q : QuickList) (index : nat) : option (option (nat * nat) * QuickList) :=
  if len q <=? index then Some (None, q)
  else
    let q :=
      if index_dirty q || negb (length (segment_starts q) =? length (segments q) + 1)
      then rebuild_segment_starts q else q in
    c ← cached_segment q index;
    match c with
    | Some (seg, off) => Some (Some (seg, off), set_cache q (Some (seg, index)))
    | None =>
        r ← search_segment q index;
        match r with
        | Some (seg, off) => Some (Some (seg, off), set_cache q (Some (seg, index)))
        | None => Some (None, q)
        end
    end.

Definition find_segment_const (q : QuickList) (index : nat) : option (option (nat * nat)) :=
  if len q <=? index then Some None else search_segment q index.

Definition get (q : QuickList) (index : nat) : option (option T * QuickList) :=
  '(pos, q) ← find_segment q index;
  match pos with
  | None => Some (None, q)
  | Some (seg_idx, offset) => s ← segments q !! seg_idx; Some (s !! offset, q)
  end.

(** [*q.get_mut(index)? = x], as the callers use it. *)
Definition set_at (q : QuickList) (index : nat) (x : T) : option (bool * QuickList) :=
  '(pos, q) ← find_segment q index;
  match pos with
  | None => Some (false, q)
  | Some (seg_idx, offset) =>
      match segments q !! seg_idx with
      | None => Some (false, q)
      | Some s =>
          if offset <? length s
          then Some (true, set_segments q (<[seg_idx := <[offset := x]> s]> (segments q)) (len q))
          else Some (false, q)
      end
  end.

Definition iter (q : QuickList) : list T := concat (segments q).

Definition clear (q : QuickList) : QuickList :=
  mkQuickList [] [0] (max_segment_size q) 0 None false 0 (optimize_threshold q).

Fixpoint push_back_all (q : QuickList) (items : list T) : option QuickList :=
  match items with
  | [] => Some q
  | x :: items => q ← push_back q x; push_back_all q items
  end.

Definition from_vecdeque (items : list T) (max_segment_size : nat) : option QuickList :=
  push_back_all (new max_segment_size) items.

Definition from_iter (items : list T) (max_segment_size : nat) : option QuickList :=
  push_back_all (new max_segment_size) items.

Definition into_vecdeque (q : QuickList) : list T :=
  fold_left (fun result segment => result ++ segment) (segments q) [].

Definition set_optimize_threshold (q : QuickList) (threshold : nat) : QuickList :=
  mkQuickList (segments q) (segment_starts q) (max_segment_size q) (len q) (last_accessed q)
    (index_dirty q) (ops_since_optimize q) threshold.

Definition ensure_valid_state (q : QuickList) : QuickList :=
  let calculated_len := sum_list (map length (segments q)) in
  let q := set_segments q (segments q)
             (if len q =? calculated_len then len q else calculated_len) in
  let q := set_ops (rebuild_segment_starts (mark_index_dirty q)) 0 in
  if optimize_threshold q =? 0 then set_optimize_threshold q 1000 else q.

(** The fields that [Serialize] writes, and reading them back. *)
Definition deserialize (segs : list (list T)) (starts : list nat) (max_segment_size len : nat)
  : QuickList :=
  ensure_valid_state (mkQuickList segs starts max_segment_size len None false 0 1000).

(** [validate]; [capacity i] is the capacity that segment [i] has at the call. *)
Fixpoint validate_segments (capacity : nat -> nat) (max i total_len : nat) (segs : list (list T))
  : result string nat :=
  match segs with
  | [] => Ok total_len
  | segment :: segs =>
      if max * 2 <? capacity i then Err "Segment capacity exceeds limit"%string
      else validate_segments capacity max (i + 1) (total_len + length segment) segs
  end.

Fixpoint validate_starts (starts : list nat) (i expected : nat) (segs : list (list T))
  : option (result string nat) :=
  match segs with
  | [] => Some (Ok expected)
  | segment :: segs =>
      start ← starts !! i;
      if start =? expected
      then validate_starts starts (i + 1) (expected + length segment) segs
      else Some (Err "segment_starts value mismatch"%string)
  end.

Definition validate (capacity : nat -> nat) (q : QuickList) : option (result string unit) :=
  match validate_segments capacity (max_segment_size q) 0 0 (segments q) with
  | Err e => Some (Err e)
  | Ok total_len =>
      if negb (total_len =? len q) then Some (Err "Length mismatch"%string)
      else if negb (length (segment_starts q) =? length (segments q) + 1)
      then Some (Err "segment_starts length mismatch"%string)
      else if index_dirty q then Some (Ok tt)
      else
        r ← validate_starts (segment_starts q) 0 0 (segments q);
        match r with
        | Err e => Some (Err e)
        | Ok expected =>
            start ← segment_starts q !! length (segments q);
            if start =? expected then Some (Ok tt)
            else Some (Err "segment_starts final value mismatch"%string)
        end
  end.
End QuickList.
Arguments QuickList T : clear implicits.

(** ** Calls

    The public operations as commands, and what each answers. *)
Inductive op (T : Type) : Type :=
| PushFront (x : T) | PushBack (x : T) | PopFront | PopBack
| Get (i : nat) | GetMut (i : nat) (x : T) | Len | IsEmpty | Iter
| Clear | Optimize | SetOptimizeThreshold (n : nat) | Validate (capacity : nat -> nat)
| Reload.
Arguments PushFront {T} x.
Arguments PushBack {T} x.
Arguments PopFront {T}.
Arguments PopBack {T}.
Arguments Get {T} i.
Arguments GetMut {T} i x.
Arguments Len {T}.
Arguments IsEmpty {T}.
Arguments Iter {T}.
Arguments Clear {T}.
Arguments Optimize {T}.
Arguments SetOptimizeThreshold {T} n.
Arguments Validate {T} capacity.
Arguments Reload {T}.

Inductive answer (T : Type) : Type :=
| ADone | AElem (x : option T) | AFlag (b : bool) | ASize (n : nat) | AItems (l : list T)
| AValid (r : result string unit).
Arguments ADone {T}.
Arguments AElem {T} x.
Arguments AFlag {T} b.
Arguments ASize {T} n.
Arguments AItems {T} l.
Arguments AValid {T} r.

Definition exec {T} (q : QuickList T) (o : op T) : option (answer T * QuickList T) :=
  match o with
  | PushFront x => q ← push_front q x; Some (ADone, q)
  | PushBack x => q ← push_back q x; Some (ADone, q)
  | PopFront => '(x, q) ← pop_front q; Some (AElem x, q)
  | PopBack => '(x, q) ← pop_back q; Some (AElem x, q)
  | Get i => '(x, q) ← get q i; Some (AElem x, q)
  | GetMut i x => '(b, q) ← set_at q i x; Some (AFlag b, q)
  | Len => Some (ASize (len q), q)
  | IsEmpty => Some (AFlag (is_empty q), q)
  | Iter => Some (AItems (iter q), q)
  | Clear => Some (ADone, clear q)
  | Optimize => Some (ADone, optimize q)
  | SetOptimizeThreshold n => Some (ADone, set_optimize_threshold q n)
  | Validate capacity => r ← validate capacity q; Some (AValid r, q)
  | Reload => Some (ADone, deserialize (segments q) (segment_starts q) (max_segment_size q) (len q))
  end.

Fixpoint exec_all {T} (q : QuickList T) (os : list (op T)) : option (list (answer T) * QuickList T) :=
  match os with
  | [] => Some ([], q)
  | o :: os => '(a, q) ← exec q o; '(r, q) ← exec_all q os; Some (a :: r, q)
  end.

(** The specification: a plain list.  What a call leaves of the list... *)
Definition spec_next {T} (l : list T) (o : op T) : list T :=
  match o with
  | PushFront x => x :: l
  | PushBack x => l ++ [x]
  | PopFront => tl l
  | PopBack => removelast l
  | GetMut i x => <[i := x]> l
  | Clear => []
  | _ => l
  end.

(** ...and what it answers.  [validate] answers by the capacities alone, of the
    [n] segments that the list is cut into. *)
Definition spec_answer {T} (max : nat) (l : list T) (o : op T) (a : answer T) : Prop :=
  match o with
  | PopFront => a = AElem (hd_error l)
  | PopBack => a = AElem (last l)
  | Get i => a = AElem (l !! i)
  | GetMut i x => a = AFlag (i <? length l)
  | Len => a = ASize (length l)
  | IsEmpty => a = AFlag (length l =? 0)
  | Iter => a = AItems l
  | Validate capacity =>
      exists n, n <= length l <= n * max /\
        a = AValid (if forallb (fun i => capacity i <=? max * 2) (seq 0 n) then Ok tt
                    else Err "Segment capacity exceeds limit"%string)
  | PushFront _ | PushBack _ | Clear | Optimize | SetOptimizeThreshold _ | Reload => a = ADone
  end.

Fixpoint spec_all {T} (max : nat) (l : list T) (os : list (op T)) (r : list (answer T)) (l' : list T) : Prop :=
  match os, r with
  | [], [] => l' = l
  | o :: os, a :: r => spec_answer max l o a /\ spec_all max (spec_next l o) os r l'
  | _, _ => False
  end.

Section Correctness.
Context {T : Type}.
Implicit Types (q : QuickList T) (segs : list (list T)).

(** ** The index *)

Definition starts_of segs : list nat := 0 :: rebuild_loop 0 segs.

(** The number of elements before segment [i]. *)
Definition before segs (i : nat) : nat := length (concat (take i segs)).

Lemma rebuild_loop_length c segs : length (rebuild_loop c segs) = length segs.
Proof. revert c. induction segs as [|s segs IH]; intros c; simpl; [done|]. by rewrite IH. Qed.

Lemma rebuild_loop_lookup c segs i :
  i < length segs -> rebuild_loop c segs !! i = Some (c + before segs (S i)).
Proof.
  unfold before. revert c i. induction segs as [|s segs IH]; intros c i Hi; [simpl in Hi; lia|].
  destruct i as [|i].
  - simpl. by rewrite app_nil_r.
  - simpl. rewrite IH by (simpl in Hi; lia). simpl. rewrite length_app. f_equal. lia.
Qed.

Lemma starts_of_length segs : length (starts_of segs) = S (length segs).
Proof. simpl. by rewrite rebuild_loop_length. Qed.

Lemma starts_of_lookup segs i : i <= length segs -> starts_of segs !! i = Some (before segs i).
Proof.
  intros Hi. destruct i as [|i]; [done|]. simpl. by rewrite rebuild_loop_lookup.
Qed.

Lemma starts_of_unique segs starts :
  length starts = S (length segs) ->
  (forall j, j <= length segs -> starts !! j = Some (before segs j)) -> starts = starts_of segs.
Proof.
  intros Hl H. apply list_eq. intros j. destruct (decide (j <= length segs)) as [Hj|Hj].
  - by rewrite H, starts_of_lookup.
  - rewrite !lookup_ge_None_2; [done|rewrite starts_of_length; lia|lia].
Qed.

Lemma before_S segs i s : segs !! i = Some s -> before segs (S i) = before segs i + length s.
Proof.
  intros Hs. unfold before. rewrite (take_S_r segs i s Hs), concat_app, length_app. simpl.
  by rewrite app_nil_r.
Qed.

Lemma before_all segs : before segs (length segs) = length (concat segs).
Proof. unfold before. by rewrite firstn_all. Qed.

Lemma before_le segs i j : i <= j -> before segs i <= before segs j.
Proof.
  intros Hij. unfold before. replace j with (i + (j - i)) by lia.
  rewrite <- take_take_drop, concat_app, length_app. lia.
Qed.

Lemma update_starts_loop_spec n i segs starts :
  length starts = S (length segs) -> i + n = length segs ->
  (forall j, j <= i -> starts !! j = Some (before segs j)) ->
  update_starts_loop n i segs starts = Some (starts_of segs).
Proof.
  revert i starts. induction n as [|n IH]; intros i starts Hl Hi Hs; cbn [update_starts_loop].
  - f_equal. apply starts_of_unique; [done|]. intros j Hj. apply Hs. lia.
  - destruct (lookup_lt_is_Some_2 segs i) as [s Hseg]; [lia|].
    assert ((if i =? 0 then Some 0 else starts !! i) = Some (before segs i)) as ->.
    { destruct (Nat.eqb_spec i 0) as [->|]; [done|]. by apply Hs. }
    cbn [mbind option_bind]. rewrite Hseg. cbn [mbind option_bind].
    rewrite (proj2 (Nat.ltb_lt _ _)) by lia.
    apply IH; [by rewrite length_insert|lia|]. intros j Hj.
    destruct (decide (j = i + 1)) as [->|Hne].
    + rewrite list_lookup_insert_eq by lia. by rewrite Nat.add_1_r, (before_S segs i s).
    + rewrite list_lookup_insert_ne by done. apply Hs. lia.
Qed.

(** ** Invariant *)

(** A segment of the list: not empty, and within the limit. *)
Definition seg_ok (max : nat) (s : list T) : Prop := s <> [] /\ length s <= max.

Record Inv q : Prop := {
  inv_max : 0 < max_segment_size q;
  inv_seg : Forall (seg_ok (max_segment_size q)) (segments q);
  inv_len : len q = length (iter q);
  inv_starts_len : length (segment_starts q) = S (length (segments q));
  inv_starts : index_dirty q = false -> segment_starts q = starts_of (segments q);
}.

(** The invariant with an index that is right up to segment [i] only. *)
Record Stale q (i : nat) : Prop := {
  st_max : 0 < max_segment_size q;
  st_seg : Forall (seg_ok (max_segment_size q)) (segments q);
  st_len : len q = length (iter q);
  st_starts_len : length (segment_starts q) = S (length (segments q));
  st_starts : index_dirty q = false ->
    forall j, j <= i -> segment_starts q !! j = Some (before (segments q) j);
}.

(** [q] holds the elements [l]. *)
Definition Repr q (l : list T) : Prop := Inv q /\ iter q = l.

Lemma update_if_clean_spec q i :
  Stale q i -> i < length (segments q) ->
  exists q', update_if_clean q i = Some q' /\ Inv q' /\ segments q' = segments q.
Proof.
  intros [H1 H2 H3 H4 H5] Hi. unfold update_if_clean. destruct (index_dirty q) eqn:Hd.
  - exists q. split_and!; [done| |done]. constructor; try done. by rewrite Hd.
  - unfold update_segment_starts_from. rewrite (proj2 (Nat.leb_gt _ _)) by done.
    rewrite update_starts_loop_spec; [|done|lia|by apply H5].
    eexists. split_and!; [done| |done]. constructor; try done.
    simpl. by rewrite rebuild_loop_length.
Qed.

Lemma mark_dirty_Inv q :
  0 < max_segment_size q -> Forall (seg_ok (max_segment_size q)) (segments q) ->
  len q = length (iter q) -> Inv (mark_index_dirty q).
Proof.
  intros H1 H2 H3. constructor; try done. simpl. case_match eqn:E; bool_to_prop; [lia|].
  unfold vec_resize. rewrite length_app, length_take, length_replicate. lia.
Qed.

Lemma repack_concat max (items current : list T) :
  concat (repack max items current) = current ++ items.
Proof.
  revert current. induction items as [|x items IH]; intros current; simpl.
  - destruct current; simpl; [done|]. by rewrite !app_nil_r.
  - case_match; simpl; rewrite IH; [done|]. by rewrite <- app_assoc.
Qed.

Lemma repack_ok max (items current : list T) :
  0 < max -> length current <= max -> Forall (seg_ok max) (repack max items current).
Proof.
  intros Hm. revert current. induction items as [|x items IH]; intros current Hc; simpl.
  - destruct current; repeat constructor; done.
  - case_match; bool_to_prop.
    + constructor; [|apply IH; simpl; lia]. split; [|done]. intros ->. simpl in *. lia.
    + apply IH. rewrite length_app. simpl. lia.
Qed.

Lemma ql_optimize_spec q l : Repr q l -> Repr (optimize q) l.
Proof.
  intros [[H1 H2 H3 H4 H5] <-]. split; [constructor|]; try done; simpl.
  - apply repack_ok; simpl; lia.
  - unfold iter. simpl. by rewrite repack_concat.
  - by rewrite rebuild_loop_length.
  - unfold iter. simpl. by rewrite repack_concat.
Qed.

Lemma set_ops_spec q l n : Repr q l -> Repr (set_ops q n) l.
Proof. intros [[H1 H2 H3 H4 H5] <-]. by split; [constructor|]. Qed.

Lemma auto_optimize_spec q l : Repr q l -> Repr (auto_optimize q) l.
Proof.
  intros HR. unfold auto_optimize. cbv zeta.
  repeat case_match; try apply ql_optimize_spec; repeat apply set_ops_spec; done.
Qed.

Lemma new_spec max threshold :
  0 < max -> Repr (with_optimize_threshold max threshold) [].
Proof. intros Hm. by split; [constructor|]. Qed.

(** ** Pushing and popping *)

(** The end of every mutation: refresh the index, then maybe re-pack. *)
Lemma finish_spec q i l :
  Stale q i -> i < length (segments q) -> iter q = l ->
  exists q', (q ← update_if_clean q i; Some (auto_optimize q)) = Some q' /\ Repr q' l.
Proof.
  intros Hs Hi Hl. destruct (update_if_clean_spec q i Hs Hi) as (q' & -> & HI & Hseg).
  eexists. split; [done|]. apply auto_optimize_spec. split; [done|].
  unfold iter. by rewrite Hseg.
Qed.

Lemma mark_starts_len q : length (segment_starts (mark_index_dirty q)) = S (length (segments q)).
Proof.
  simpl. case_match eqn:E; bool_to_prop; [lia|].
  unfold vec_resize. rewrite length_app, length_take, length_replicate. lia.
Qed.

Lemma before_insert_ge segs i j s : j <= i -> before (<[i := s]> segs) j = before segs j.
Proof. intros H. unfold before. by rewrite take_insert_ge. Qed.

(** Replacing segment [i] leaves the index right up to [i]. *)
Lemma Stale_set q i s n :
  Inv q -> i < length (segments q) -> seg_ok (max_segment_size q) s ->
  n = length (concat (<[i := s]> (segments q))) ->
  Stale (set_segments q (<[i := s]> (segments q)) n) i.
Proof.
  intros [H1 H2 H3 H4 H5] Hi Hs ->. constructor; try done; simpl.
  - by apply Forall_insert.
  - by rewrite length_insert.
  - intros Hd j Hj. rewrite before_insert_ge, H5 by done. apply starts_of_lookup. lia.
Qed.

Lemma ql_push_front_spec q l x :
  Repr q l -> exists q', push_front q x = Some q' /\ Repr q' (x :: l).
Proof.
  intros [HI <-]. destruct (HI) as [H1 H2 H3 H4 H5]. unfold push_front.
  assert (forall segs, segments q = segs -> exists q',
    (let q := mark_index_dirty (set_segments q ([] :: segs) (len q)) in
     match segments q with
     | [] => None
     | s :: segs =>
         let q := set_segments q ((x :: s) :: segs) (len q + 1) in
         q ← update_if_clean q 0; Some (auto_optimize q)
     end) = Some q' /\ Repr q' (x :: iter q)) as Hnew.
  { intros segs Hsegs. apply finish_spec; [|simpl; lia|unfold iter; simpl; by rewrite Hsegs].
    constructor; try done; simpl.
    - constructor; [split; simpl; (done || lia)|by rewrite <- Hsegs].
    - rewrite H3. unfold iter. simpl. rewrite Hsegs. lia.
    - pose proof (mark_starts_len (set_segments q ([] :: segs) (len q))) as E. exact E. }
  destruct (segments q) as [|s segs] eqn:Hsegs; [by apply Hnew|].
  destruct (Nat.leb_spec (max_segment_size q) (length s)) as [|Hroom]; [by apply Hnew|]. rewrite Hsegs.
  apply finish_spec; [|simpl; lia|unfold iter; simpl; by rewrite Hsegs].
  pose proof (Stale_set q 0 (x :: s) (len q + 1) HI) as E. rewrite Hsegs in E.
  apply E; [simpl; lia|split; [done|simpl; lia]|]. rewrite H3. unfold iter. rewrite Hsegs. simpl. lia.
Qed.

Lemma insert_last segs (s s' : list T) :
  <[length segs := s']> (segs ++ [s]) = segs ++ [s'].
Proof. rewrite insert_app_r_alt by lia. by rewrite Nat.sub_diag. Qed.

Lemma concat_snoc segs (s : list T) : concat (segs ++ [s]) = concat segs ++ s.
Proof. rewrite concat_app. simpl. by rewrite app_nil_r. Qed.

(** Replacing the last segment, as both operations on the back do. *)
Lemma Stale_last q segs s s' n :
  segments q = segs ++ [s] -> 0 < max_segment_size q -> Forall (seg_ok (max_segment_size q)) segs ->
  seg_ok (max_segment_size q) s' -> n = length (concat segs ++ s') ->
  length (segment_starts q) = S (length (segments q)) ->
  (index_dirty q = false -> segment_starts q = starts_of (segments q)) ->
  Stale (set_segments q (<[length segs := s']> (segments q)) n) (length segs).
Proof.
  intros Hq Hm Hs Hs' -> Hl Hst. constructor; try done; simpl; rewrite Hq in *.
  - rewrite insert_last. apply Forall_app. split; [done|by constructor].
  - unfold iter. simpl. by rewrite insert_last, concat_snoc.
  - by rewrite length_insert.
  - intros Hd j Hj. rewrite before_insert_ge, Hst by done. apply starts_of_lookup.
    rewrite length_app. simpl. lia.
Qed.

Lemma push_back_finish q segs s x :
  segments q = segs ++ [s] -> 0 < max_segment_size q -> Forall (seg_ok (max_segment_size q)) segs ->
  length s < max_segment_size q -> len q = length (iter q) ->
  length (segment_starts q) = S (length (segments q)) ->
  (index_dirty q = false -> segment_starts q = starts_of (segments q)) ->
  exists q',
    (last_idx ← usize_sub (length (segments q)) 1;
     s ← segments q !! last_idx;
     let q := set_segments q (<[last_idx := s ++ [x]]> (segments q)) (len q + 1) in
     q ← update_if_clean q last_idx; Some (auto_optimize q)) = Some q' /\ Repr q' (iter q ++ [x]).
Proof.
  intros Hq Hm Hs Hroom Hlen Hl Hst.
  assert (length (segments q) = length segs + 1) as Hn by (rewrite Hq, length_app; done).
  unfold usize_sub. rewrite (proj2 (Nat.leb_le _ _)), Hn, Nat.add_sub by lia.
  cbn [mbind option_bind].
  assert (segments q !! length segs = Some s) as -> by (rewrite Hq; by apply list_lookup_middle).
  cbn [mbind option_bind]. apply finish_spec.
  - apply (Stale_last q segs s); try done; [split; [by destruct s|rewrite length_app; simpl; lia]|].
    rewrite Hlen. unfold iter. rewrite Hq, concat_snoc, !length_app. simpl. lia.
  - simpl. rewrite length_insert. lia.
  - unfold iter. simpl. by rewrite Hq, insert_last, !concat_snoc, app_assoc.
Qed.

Lemma ql_push_back_spec q l x :
  Repr q l -> exists q', push_back q x = Some q' /\ Repr q' (l ++ [x]).
Proof.
  intros [HI <-]. destruct (HI) as [H1 H2 H3 H4 H5]. unfold push_back.
  destruct (match last (segments q) with
            | Some s => max_segment_size q <=? length s | None => true end) eqn:Hneed.
  - pose proof (push_back_finish (mark_index_dirty (set_segments q (segments q ++ [[]]) (len q)))
      (segments q) [] x) as H.
    unfold iter in *. simpl segments in *. rewrite concat_snoc, app_nil_r in H.
    apply H; try done. apply mark_starts_len.
  - destruct (last (segments q)) as [s|] eqn:Hlast; [|done].
    apply last_Some in Hlast as [segs Hq].
    apply (push_back_finish q segs s); try done.
    + rewrite Hq in H2. by apply Forall_app in H2 as [? _].
    + by apply Nat.leb_gt.
Qed.

Lemma ql_pop_front_spec q l :
  Repr q l -> exists q', pop_front q = Some (hd_error l, q') /\ Repr q' (tl l).
Proof.
  intros [HI <-]. destruct (HI) as [H1 H2 H3 H4 H5]. unfold pop_front.
  destruct (segments q) as [|[|x s] segs] eqn:Hsegs.
  - exists q. unfold iter at 1 2. rewrite Hsegs. simpl. split; [done|]. split; [done|].
    unfold iter. by rewrite Hsegs.
  - by apply Forall_cons in H2 as [[? _] _].
  - assert (iter q = x :: s ++ concat segs) as Hit by (unfold iter; by rewrite Hsegs).
    rewrite Hit in *. simpl in H3. unfold usize_sub. rewrite H3.
    rewrite (proj2 (Nat.leb_le _ _)) by lia. cbn [mbind option_bind hd_error tl].
    rewrite Nat.sub_succ, Nat.sub_0_r. apply Forall_cons in H2 as [[_ Hx] H2].
    simpl in Hx. destruct s as [|y s].
    + eexists. split; [done|]. apply auto_optimize_spec. split; [|done].
      by apply mark_dirty_Inv.
    + pose proof (Stale_set q 0 (y :: s) (length ((y :: s) ++ concat segs)) HI) as E.
      rewrite Hsegs in E. simpl insert in E.
      destruct (update_if_clean_spec (set_segments q ((y :: s) :: segs)
        (length ((y :: s) ++ concat segs))) 0) as (q' & -> & HI' & Hq');
        [apply E; [simpl; lia|split; [done|lia]|done]|simpl; lia|].
      eexists. split; [done|]. apply auto_optimize_spec. split; [done|].
      unfold iter. by rewrite Hq'.
Qed.

Lemma ql_pop_back_spec q l :
  Repr q l -> exists q', pop_back q = Some (last l, q') /\ Repr q' (removelast l).
Proof.
  intros [HI <-]. destruct (HI) as [H1 H2 H3 H4 H5]. unfold pop_back.
  destruct (last (segments q)) as [s|] eqn:Hlast.
  2: { apply last_None in Hlast. exists q. unfold iter. rewrite Hlast.
       split; [done|]. split; [done|]. unfold iter. by rewrite Hlast. }
  apply last_Some in Hlast as [segs Hq].
  assert (Forall (seg_ok (max_segment_size q)) segs) as Hs.
  { rewrite Hq in H2. by apply Forall_app in H2 as [? _]. }
  destruct (last s) as [x|] eqn:Hx.
  2: { apply last_None in Hx. rewrite Hx, Hq in *. apply Forall_app in H2 as [_ H2].
       by apply Forall_cons in H2 as [[? _] _]. }
  apply last_Some in Hx as [s' ->].
  assert (iter q = (concat segs ++ s') ++ [x]) as Hit.
  { unfold iter. by rewrite Hq, concat_snoc, app_assoc. }
  rewrite Hit, last_snoc, !removelast_last. rewrite Hit, length_app in H3. simpl in H3.
  unfold usize_sub. rewrite H3, (proj2 (Nat.leb_le _ _)), Nat.add_sub by lia.
  cbn [mbind option_bind].
  assert (length (segments q) - 1 = length segs) as Hn by (rewrite Hq, length_app; simpl; lia).
  destruct s' as [|y s'].
  - eexists. split; [done|]. rewrite Hq, removelast_last, app_nil_r.
    apply auto_optimize_spec. split; [|done]. by apply mark_dirty_Inv.
  - rewrite Hn.
    destruct (update_if_clean_spec (set_segments q (<[length segs := y :: s']> (segments q))
      (length (concat segs ++ y :: s'))) (length segs)) as (q' & -> & HI' & Hq').
    + apply (Stale_last q segs ((y :: s') ++ [x])); try done. split; [done|].
      rewrite Hq in H2. apply Forall_app in H2 as [_ [[_ H2] _]%Forall_cons].
      rewrite length_app in H2. simpl in *. lia.
    + simpl. rewrite length_insert, Hq, length_app. simpl. lia.
    + eexists. split; [done|]. apply auto_optimize_spec. split; [done|].
      unfold iter. rewrite Hq'. simpl. by rewrite Hq, insert_last, concat_snoc.
Qed.
End Correctness.

Section Access.
Context {T : Type}.
Implicit Types (q : QuickList T) (segs : list (list T)).

Lemma concat_middle segs k s :
  segs !! k = Some s -> concat segs = concat (take k segs) ++ s ++ concat (drop (S k) segs).
Proof.
  intros Hk. transitivity (concat (take k segs ++ s :: drop (S k) segs)).
  - by rewrite (take_drop_middle segs k s Hk).
  - by rewrite concat_app.
Qed.

Lemma concat_lookup segs k s off :
  segs !! k = Some s -> off < length s -> concat segs !! (before segs k + off) = s !! off.
Proof.
  intros Hk Ho. rewrite (concat_middle segs k s Hk). unfold before.
  rewrite lookup_app_r by lia. replace (_ + off - _) with off by lia.
  by rewrite lookup_app_l.
Qed.

Lemma before_lt max segs i j :
  Forall (seg_ok max) segs -> i < j <= length segs -> before segs i < before segs j.
Proof.
  intros Hne Hij. destruct (lookup_lt_is_Some_2 segs i) as [s Hs]; [lia|].
  assert (s <> []) as Hs0.
  { rewrite Forall_forall in Hne. by eapply (Hne s), list_elem_of_lookup_2. }
  pose proof (before_le segs (S i) j ltac:(lia)) as Hle. rewrite (before_S segs i s Hs) in Hle.
  destruct s; [done|]. simpl in Hle. lia.
Qed.

Lemma starts_partitioned segs index :
  partitioned (fun x => Nat.compare x index) (starts_of segs).
Proof.
  intros i j x y Hij Hx Hy.
  pose proof (lookup_lt_Some _ _ _ Hx) as Hi. pose proof (lookup_lt_Some _ _ _ Hy) as Hj.
  rewrite starts_of_length in Hi, Hj. rewrite starts_of_lookup in Hx, Hy by lia.
  simplify_eq. pose proof (before_le segs i j Hij).
  rewrite !Nat.compare_lt_iff, !Nat.compare_gt_iff. lia.
Qed.

(** A position is right for an index: it lies in a segment, at the element
    that has that index. *)
Definition right_pos segs (index : nat) (p : nat * nat) : Prop :=
  exists s, segs !! p.1 = Some s /\ p.2 < length s /\ index = before segs p.1 + p.2.

Lemma right_pos_lookup segs index p :
  right_pos segs index p -> exists s, segs !! p.1 = Some s /\ s !! p.2 = concat segs !! index.
Proof.
  intros (s & Hs & Hlt & ->). exists s. split; [done|]. symmetry. by apply concat_lookup.
Qed.

Lemma search_segment_spec q index :
  Inv q -> index_dirty q = false -> index < len q ->
  exists p, search_segment q index = Some (Some p) /\ right_pos (segments q) index p.
Proof.
  intros [H1 H2 H3 H4 H5] Hd Hlt. unfold search_segment. rewrite (H5 Hd).
  rewrite H3 in Hlt. unfold iter in Hlt. rewrite <- before_all in Hlt.
  pose proof (binary_search_by_spec _ _ (starts_partitioned (segments q) index)) as Hbs.
  destruct (binary_search_by _ _) as [i|i].
  - destruct Hbs as (x & Hx & ->%Nat.compare_eq_iff).
    pose proof (lookup_lt_Some _ _ _ Hx) as Hi. rewrite starts_of_length in Hi.
    rewrite starts_of_lookup in Hx by lia. simplify_eq.
    assert (i <> length (segments q)) as Hne by (intros ->; lia).
    destruct (lookup_lt_is_Some_2 (segments q) i) as [s Hs]; [lia|].
    exists (i, 0). split; [done|]. exists s. split_and!; [done| |simpl; lia].
    assert (s <> []) by (rewrite Forall_forall in H2; by eapply (H2 s), list_elem_of_lookup_2).
    destruct s; [done|simpl; lia].
  - destruct Hbs as (Hi & HL & HG). rewrite starts_of_length in Hi.
    assert (0 < i) as Hi0.
    { destruct i; [|lia]. specialize (HG 0 0 ltac:(lia) eq_refl).
      apply Nat.compare_gt_iff in HG. lia. }
    assert (i <= length (segments q)) as Hi1.
    { destruct (decide (i = S (length (segments q)))) as [->|]; [|lia].
      specialize (HL (length (segments q)) _ ltac:(lia) (starts_of_lookup (segments q) (length (segments q)) ltac:(lia))).
      apply Nat.compare_lt_iff in HL. lia. }
    rewrite (proj2 (Nat.eqb_neq i 0)), (proj2 (Nat.ltb_ge _ i)) by lia. cbn [orb].
    specialize (HL (i - 1) _ ltac:(lia) (starts_of_lookup (segments q) (i - 1) ltac:(lia))).
    apply Nat.compare_lt_iff in HL.
    rewrite starts_of_lookup by lia. cbn [mbind option_bind].
    unfold usize_sub. rewrite (proj2 (Nat.leb_le _ _)) by lia. cbn [mbind option_bind].
    eexists. split; [done|].
    destruct (lookup_lt_is_Some_2 (segments q) (i - 1)) as [s Hs]; [lia|].
    exists s. simpl. split_and!; [done| |lia].
    destruct (decide (i = length (segments q))) as [->|Hne].
    + pose proof (before_S _ _ _ Hs) as E. replace (S (_ - 1)) with (length (segments q)) in E by lia. lia.
    + specialize (HG i _ ltac:(lia) (starts_of_lookup (segments q) i ltac:(lia))).
      apply Nat.compare_gt_iff in HG.
      pose proof (before_S _ _ _ Hs) as E. replace (S (i - 1)) with i in E by lia. lia.
Qed.

Lemma cached_segment_spec q index :
  Inv q -> index_dirty q = false ->
  exists c, cached_segment q index = Some c /\
    match c with Some p => right_pos (segments q) index p | None => True end.
Proof.
  intros [H1 H2 H3 H4 H5] Hd. unfold cached_segment. rewrite (H5 Hd).
  destruct (last_accessed q) as [[seg ?]|]; [|by exists None].
  destruct (Nat.ltb_spec seg (length (segments q))) as [Hlt|]; [|by exists None].
  rewrite starts_of_lookup by lia.
  destruct (lookup_lt_is_Some_2 (segments q) seg Hlt) as [s Hs]. rewrite Hs.
  cbn [mbind option_bind]. case_match eqn:Hb; [|by exists None].
  eexists. split; [done|]. bool_to_prop. exists s. simpl. split_and!; [done|lia|lia].
Qed.

Lemma rebuild_spec q l : Repr q l -> Repr (rebuild_segment_starts q) l.
Proof.
  intros [[H1 H2 H3 H4 H5] <-]. split; [constructor|]; try done. simpl.
  by rewrite rebuild_loop_length.
Qed.

Lemma set_cache_spec q l c : Repr q l -> Repr (set_cache q c) l.
Proof. intros [[H1 H2 H3 H4 H5] <-]. by split; [constructor|]. Qed.

Lemma ql_find_segment_spec q l index :
  Repr q l ->
  exists pos q', find_segment q index = Some (pos, q') /\ Repr q' l /\
    segments q' = segments q /\
    match pos with
    | Some p => right_pos (segments q) index p
    | None => l !! index = None
    end.
Proof.
  intros [HI Hl]. unfold find_segment.
  destruct (Nat.leb_spec (len q) index) as [Hge|Hlt].
  { exists None, q. split_and!; try done. rewrite (inv_len q HI), Hl in Hge.
    by apply lookup_ge_None_2. }
  set (q1 := if _ || _ then _ else q).
  assert (Repr q1 l /\ index_dirty q1 = false /\ segments q1 = segments q /\ len q1 = len q)
    as (HR1 & Hd & Hs & Hn).
  { subst q1. case_match eqn:E; [by split; [apply rebuild_spec|]|]. by bool_to_prop. }
  destruct HR1 as [HI1 Hl1].
  destruct (cached_segment_spec q1 index HI1 Hd) as (c & -> & Hc). cbn [mbind option_bind].
  destruct c as [[seg off]|].
  - exists (Some (seg, off)), (set_cache q1 (Some (seg, index))).
    split_and!; [done|by apply set_cache_spec|done|by rewrite <- Hs].
  - destruct (search_segment_spec q1 index HI1 Hd) as ([seg off] & -> & Hp); [lia|].
    cbn [mbind option_bind].
    exists (Some (seg, off)), (set_cache q1 (Some (seg, index))).
    split_and!; [done|by apply set_cache_spec|done|by rewrite <- Hs].
Qed.

Lemma ql_get_spec q l index :
  Repr q l -> exists q', get q index = Some (l !! index, q') /\ Repr q' l.
Proof.
  intros HR. destruct (ql_find_segment_spec q l index HR) as (pos & q' & Hf & HR' & Hs & Hp).
  unfold get. rewrite Hf. cbn [mbind option_bind]. exists q'. split; [|done].
  destruct pos as [[seg off]|]; [|by rewrite Hp].
  apply right_pos_lookup in Hp as (s & Hseg & Hoff). simpl in *.
  rewrite Hs, Hseg. cbn [mbind option_bind]. rewrite Hoff. by destruct HR as [_ <-].
Qed.

Lemma concat_insert segs k s off x :
  segs !! k = Some s -> off < length s ->
  concat (<[k := <[off := x]> s]> segs) = <[before segs k + off := x]> (concat segs).
Proof.
  intros Hk Ho. pose proof (lookup_lt_Some _ _ _ Hk) as Hlt.
  rewrite (concat_middle segs k s Hk), insert_take_drop by done.
  rewrite concat_app. simpl. unfold before.
  rewrite insert_app_r. f_equal. by rewrite insert_app_l.
Qed.

(** The index depends on the lengths of the segments only. *)
Lemma rebuild_loop_lengths c segs segs' :
  map length segs = map length segs' -> rebuild_loop c segs = rebuild_loop c segs'.
Proof.
  revert c segs'. induction segs as [|s segs IH]; intros c [|s' segs'] H; simpl in *; try done.
  injection H as -> H. f_equal. by apply IH.
Qed.

Lemma map_length_insert segs k s s' :
  segs !! k = Some s -> length s' = length s ->
  map length (<[k := s']> segs) = map length segs.
Proof.
  revert k. induction segs as [|t segs IH]; intros [|k] Hk Hl; simpl in *; simplify_eq; try done.
  - by rewrite Hl.
  - by rewrite IH.
Qed.

Lemma set_segment_spec q l k s s' :
  Repr q l -> segments q !! k = Some s -> length s' = length s ->
  Repr (set_segments q (<[k := s']> (segments q)) (len q)) (concat (<[k := s']> (segments q))).
Proof.
  intros [[H1 H2 H3 H4 H5] <-] Hk Hlen. split; [|done].
  assert (s <> []) by (rewrite Forall_forall in H2; by eapply (H2 s), list_elem_of_lookup_2).
  pose proof (map_length_insert _ _ _ _ Hk Hlen) as Hmap. constructor; simpl; try done.
  - apply Forall_insert; [done|]. rewrite Forall_forall in H2.
    destruct (H2 s) as [_ Hb]; [by eapply list_elem_of_lookup_2|].
    split; [intros ->; by destruct s|lia].
  - rewrite H3. unfold iter. simpl. by rewrite !length_concat, Hmap.
  - by rewrite length_insert.
  - intros Hd. rewrite (H5 Hd). unfold starts_of. f_equal. by apply rebuild_loop_lengths.
Qed.

Lemma ql_set_at_spec q l index x :
  Repr q l ->
  exists q', set_at q index x = Some (index <? length l, q') /\ Repr q' (<[index := x]> l).
Proof.
  intros HR. destruct (ql_find_segment_spec q l index HR) as (pos & q' & Hf & HR' & Hs & Hp).
  unfold set_at. rewrite Hf. cbn [mbind option_bind].
  destruct pos as [[seg off]|].
  - destruct Hp as (s & Hseg & Hoff & Hidx). simpl in *. rewrite <- Hs in *.
    rewrite Hseg, (proj2 (Nat.ltb_lt off _)) by done. eexists.
    assert (concat (segments q') = l) as Hl by apply HR'.
    rewrite (proj2 (Nat.ltb_lt index _)).
    2: { apply lookup_lt_is_Some. rewrite Hidx, <- Hl, (concat_lookup _ _ s) by done.
         by apply lookup_lt_is_Some. }
    split; [done|]. rewrite Hidx, <- Hl at 1.
    rewrite <- (concat_insert _ _ s) by done.
    apply (set_segment_spec q' l seg s); [done|done|]. by rewrite length_insert.
  - apply lookup_ge_None_1 in Hp. rewrite (proj2 (Nat.ltb_ge index _)) by done.
    exists q'. split; [done|]. by rewrite list_insert_ge.
Qed.

Lemma into_vecdeque_spec q : into_vecdeque q = iter q.
Proof.
  unfold into_vecdeque, iter. rewrite <- (app_nil_l (concat _)). generalize (@nil T).
  induction (segments q) as [|s segs IH]; intros acc; simpl; [by rewrite app_nil_r|].
  by rewrite IH, app_assoc.
Qed.

Lemma push_back_all_spec q l (items : list T) :
  Repr q l -> exists q', push_back_all q items = Some q' /\ Repr q' (l ++ items).
Proof.
  revert q l. induction items as [|x items IH]; intros q l HR; simpl.
  - exists q. by rewrite app_nil_r.
  - destruct (ql_push_back_spec q l x HR) as (q1 & -> & HR1). cbn [mbind option_bind].
    destruct (IH q1 _ HR1) as (q2 & -> & HR2). exists q2. split; [done|].
    by rewrite <- app_assoc in HR2.
Qed.

Lemma ql_clear_spec q l : Repr q l -> Repr (clear q) [].
Proof. intros [[H1 _ _ _ _] _]. by split; [constructor|]. Qed.

Lemma set_threshold_spec q l n : Repr q l -> Repr (set_optimize_threshold q n) l.
Proof. intros [[H1 H2 H3 H4 H5] <-]. by split; [constructor|]. Qed.

Lemma ensure_valid_state_spec q l : Repr q l -> Repr (ensure_valid_state q) l.
Proof.
  intros [[H1 H2 H3 H4 H5] <-].
  assert (Inv (ensure_valid_state q) /\ iter (ensure_valid_state q) = iter q); [|done].
  assert (sum_list (map length (segments q)) = len q) as E.
  { rewrite H3. unfold iter. by rewrite length_concat. }
  unfold ensure_valid_state. rewrite E, Nat.eqb_refl. simpl.
  destruct (optimize_threshold q =? 0); (split; [constructor; simpl; try done|done]);
    by rewrite rebuild_loop_length.
Qed.

Lemma ql_deserialize_spec q l :
  Repr q l ->
  Repr (deserialize (segments q) (segment_starts q) (max_segment_size q) (len q)) l.
Proof.
  intros HR. unfold deserialize, ensure_valid_state. simpl len. simpl segments.
  destruct HR as [[H1 H2 H3 H4 H5] <-].
  rewrite (proj2 (Nat.eqb_eq (len q) (sum_list (map length (segments q)))))
    by (rewrite H3; unfold iter; by rewrite length_concat).
  simpl. split; [constructor; simpl; try done|done]. by rewrite rebuild_loop_length.
Qed.

Lemma validate_starts_spec segs k (tail : list (list T)) :
  drop k segs = tail -> k <= length segs ->
  validate_starts (starts_of segs) k (before segs k) tail = Some (Ok (before segs (length segs))).
Proof.
  revert k. induction tail as [|s tail IH]; intros k Hd Hk; cbn [validate_starts].
  - assert (length (drop k segs) = 0) as E by by rewrite Hd.
    rewrite length_drop in E. by replace k with (length segs) by lia.
  - assert (segs !! k = Some s) as Hs.
    { rewrite <- (Nat.add_0_r k), <- lookup_drop, Hd. done. }
    pose proof (lookup_lt_Some _ _ _ Hs) as Hlt.
    rewrite starts_of_lookup by lia. cbn [mbind option_bind]. rewrite Nat.eqb_refl.
    rewrite <- (before_S segs k s Hs), Nat.add_1_r. apply IH; [|lia].
    by rewrite drop_S_tail, Hd.
Qed.

Lemma validate_segments_spec (capacity : nat -> nat) max i total segs :
  validate_segments capacity max i total segs =
  if forallb (fun i => capacity i <=? max * 2) (seq i (length segs)) then Ok (total + sum_list (map length segs))
  else Err "Segment capacity exceeds limit"%string.
Proof.
  revert i total. induction segs as [|s segs IH]; intros i total; cbn [validate_segments seq forallb map sum_list length].
  - by rewrite Nat.add_0_r.
  - destruct (Nat.ltb_spec (max * 2) (capacity i)) as [Hlt|Hge].
    + by rewrite (proj2 (Nat.leb_gt _ _)).
    + rewrite IH, Nat.add_1_r, (proj2 (Nat.leb_le _ _)) by done. cbn [andb].
      by destruct (forallb _ _); [rewrite Nat.add_assoc|].
Qed.

Lemma ql_validate_spec capacity q l : Repr q l ->
  validate capacity q = Some
    (if forallb (fun i => capacity i <=? max_segment_size q * 2) (seq 0 (length (segments q))) then Ok tt
     else Err "Segment capacity exceeds limit"%string).
Proof.
  intros [[H1 H2 H3 H4 H5] <-]. unfold validate. rewrite validate_segments_spec. destruct (forallb _ _); [|done].
  cbn [Nat.add]. rewrite (proj2 (Nat.eqb_eq (sum_list _) _)) by (rewrite H3; unfold iter; by rewrite length_concat).
  rewrite H4, Nat.add_1_r, Nat.eqb_refl. simpl negb. cbv iota.
  destruct (index_dirty q); [done|]. rewrite (H5 eq_refl).
  pose proof (validate_starts_spec (segments q) 0 (segments q) eq_refl ltac:(lia)) as E.
  change (before (segments q) 0) with 0 in E. rewrite E. cbn [mbind option_bind].
  rewrite starts_of_lookup by lia. cbn [mbind option_bind]. by rewrite Nat.eqb_refl.
Qed.

(** The segments are as many as their sizes allow. *)
Lemma segments_number q l : Repr q l ->
  length (segments q) <= length l <= length (segments q) * max_segment_size q.
Proof.
  intros [[_ H2 _ _ _] <-]. unfold iter. induction H2 as [|s segs [Hs Hm] _ IH]; [done|].
  cbn [concat length Nat.mul]. rewrite length_app. destruct s; cbn [length] in *; [done|lia].
Qed.

(** No call changes the segment size. *)
Lemma auto_optimize_max q : max_segment_size (auto_optimize q) = max_segment_size q.
Proof. unfold auto_optimize. cbv zeta. by repeat case_match. Qed.

Lemma update_if_clean_max q i q' : update_if_clean q i = Some q' -> max_segment_size q' = max_segment_size q.
Proof.
  unfold update_if_clean, update_segment_starts_from. repeat case_match; intros Hcall; simplify_option_eq; done.
Qed.

Lemma find_segment_max q i p q' : find_segment q i = Some (p, q') -> max_segment_size q' = max_segment_size q.
Proof.
  unfold find_segment. cbv zeta. intros Hcall. repeat (case_match || simplify_option_eq); done.
Qed.

(** Follows a call through its cases; an update of the index keeps the size. *)
Ltac same_max :=
  repeat (case_match || simplify_option_eq); rewrite ?auto_optimize_max;
  repeat match goal with H : update_if_clean _ _ = Some _ |- _ => apply update_if_clean_max in H end;
  simpl in *; congruence.

Lemma push_front_max q x q' : push_front q x = Some q' -> max_segment_size q' = max_segment_size q.
Proof. unfold push_front. intros Hcall. same_max. Qed.

Lemma push_back_max q x q' : push_back q x = Some q' -> max_segment_size q' = max_segment_size q.
Proof. unfold push_back. cbv zeta. intros Hcall. same_max. Qed.

Lemma pop_front_max q x q' : pop_front q = Some (x, q') -> max_segment_size q' = max_segment_size q.
Proof. unfold pop_front. intros Hcall. same_max. Qed.

Lemma pop_back_max q x q' : pop_back q = Some (x, q') -> max_segment_size q' = max_segment_size q.
Proof. unfold pop_back. cbv zeta. intros Hcall. same_max. Qed.

Lemma get_max q i x q' : get q i = Some (x, q') -> max_segment_size q' = max_segment_size q.
Proof.
  unfold get. destruct (find_segment q i) as [[pos q1]|] eqn:Hf; [|done]. apply find_segment_max in Hf.
  cbn [mbind option_bind]. intros Hcall. same_max.
Qed.

Lemma set_at_max q i x b q' : set_at q i x = Some (b, q') -> max_segment_size q' = max_segment_size q.
Proof.
  unfold set_at. destruct (find_segment q i) as [[pos q1]|] eqn:Hf; [|done]. apply find_segment_max in Hf.
  cbn [mbind option_bind]. intros Hcall. same_max.
Qed.

Lemma deserialize_max (segs : list (list T)) starts max n : max_segment_size (deserialize segs starts max n) = max.
Proof. unfold deserialize, ensure_valid_state. cbv zeta. by repeat case_match. Qed.

Lemma exec_max q o a q' : exec q o = Some (a, q') -> max_segment_size q' = max_segment_size q.
Proof.
  destruct o; cbn [exec]; intros Hcall; simplify_option_eq; repeat case_match; simplify_eq; try done;
    eauto using push_front_max, push_back_max, pop_front_max, pop_back_max, get_max, set_at_max, deserialize_max.
Qed.

(** One call: an answer of the specification, and the list it leaves. *)
Lemma ql_exec_spec q l o :
  Repr q l -> exists a q', exec q o = Some (a, q') /\ spec_answer (max_segment_size q) l o a /\ Repr q' (spec_next l o).
Proof.
  intros HR. destruct o; cbn [exec spec_answer spec_next].
  - destruct (ql_push_front_spec q l x HR) as (q' & -> & ?). by exists ADone, q'.
  - destruct (ql_push_back_spec q l x HR) as (q' & -> & ?). by exists ADone, q'.
  - destruct (ql_pop_front_spec q l HR) as (q' & -> & ?). by eexists _, q'.
  - destruct (ql_pop_back_spec q l HR) as (q' & -> & ?). by eexists _, q'.
  - destruct (ql_get_spec q l i HR) as (q' & -> & ?). by eexists _, q'.
  - destruct (ql_set_at_spec q l i x HR) as (q' & -> & ?). by eexists _, q'.
  - eexists _, q. by rewrite (inv_len q (proj1 HR)), (proj2 HR).
  - eexists _, q. unfold is_empty. by rewrite (inv_len q (proj1 HR)), (proj2 HR).
  - eexists _, q. by rewrite (proj2 HR).
  - eexists _, _. split_and!; [done|done|]. by apply (ql_clear_spec q l).
  - eexists _, _. split_and!; [done|done|]. by apply ql_optimize_spec.
  - eexists _, _. split_and!; [done|done|]. by apply set_threshold_spec.
  - rewrite (ql_validate_spec capacity q l HR). eexists _, q. split_and!; [done| |done].
    exists (length (segments q)). split; [by apply segments_number|done].
  - eexists _, _. split_and!; [done|done|]. by apply ql_deserialize_spec.
Qed.

Lemma ql_exec_all_spec q l (os : list (op T)) :
  Repr q l ->
  exists r q' l', exec_all q os = Some (r, q') /\ spec_all (max_segment_size q) l os r l' /\ Repr q' l' /\
    max_segment_size q' = max_segment_size q.
Proof.
  revert q l. induction os as [|o os IH]; intros q l HR; [by exists [], q, l|]. cbn [exec_all spec_all].
  destruct (ql_exec_spec q l o HR) as (a & q1 & He & Ha & HR1). rewrite He. cbn [mbind option_bind].
  destruct (IH q1 _ HR1) as (r & q2 & l2 & -> & Hs & HR2 & Hm).
  apply exec_max in He. exists (a :: r), q2, l2. split; [done|]. rewrite He in Hs, Hm. done.
Qed.
End Access.

(** C33. Any sequence of QuickList calls on a list with a positive segment size
    returns (no index is out of range, no length underflows) and answers as a
    plain list does: pushes and pops at both ends, indexed reads and writes
    through the segment index and its cache, [clear], the re-packing of
    [optimize] at any threshold and a serialization round trip.  [validate]
    finds no mismatch: it accepts exactly when the capacity of none of the
    segments, whatever the allocation made it, exceeds twice the segment size,
    and answers the capacity error otherwise.  At the end no segment is empty or
    longer than the segment size. *)
Theorem quicklist_refines_list {T} (max threshold : nat) (os : list (op T)) (Hmax : 0 < max) :
  exists r q, exec_all (with_optimize_threshold max threshold) os = Some (r, q) /\
    spec_all max [] os r (iter q) /\
    Forall (fun s => 0 < length s <= max) (segments q).
Proof.
  destruct (ql_exec_all_spec (with_optimize_threshold max threshold) [] os) as (r & q & l & Hq & Hs & [HI <-] & Hm).
  { by apply new_spec. }
  exists r, q. split_and!; [done|done|]. cbn in Hm.
  eapply Forall_impl; [apply (inv_seg q HI)|]. intros s [Hne Hb]. rewrite Hm in Hb. split; [|done].
  destruct s; simpl; [done|lia].
Qed.

Definition ex_ops : list (op nat) :=
  [PushBack 1; PushFront 0; PushBack 2; Get 2; PopFront; PushBack 3; GetMut 2 9;
   Validate (fun _ => 4); Validate (fun i => 2 * i + 3); Iter].

Lemma quicklist_refines_list_witness :
  exists q, exec_all (with_optimize_threshold 2 3) ex_ops =
    Some ([ADone; ADone; ADone; AElem (Some 2); AElem (Some 0); ADone; AFlag true; AValid (Ok tt);
           AValid (Err "Segment capacity exceeds limit"%string); AItems [1; 2; 9]], q) /\
    iter q = [1; 2; 9] /\ Forall (fun s => 0 < length s <= 2) (segments q).
Proof.
  destruct (quicklist_refines_list 2 3 ex_ops ltac:(lia)) as (r & q & He & _ & Hs).
  exists q. vm_compute in He. injection He as <- <-. split; [reflexivity|]. split; [reflexivity|exact Hs].
Defined.

Section ZeroSegmentSize.
Context {T : Type}.
Implicit Types (q : QuickList T).

Lemma auto_optimize_iter q :
  max_segment_size (auto_optimize q) = max_segment_size q /\
  iter (auto_optimize q) = iter q /\ len (auto_optimize q) = len q.
Proof.
  unfold auto_optimize. cbv zeta. repeat case_match; try done.
  unfold iter. simpl. by rewrite repack_concat.
Qed.

Lemma push_back_zero q x :
  max_segment_size q = 0 ->
  exists q', push_back q x = Some q' /\ max_segment_size q' = 0 /\
    iter q' = iter q ++ [x] /\ len q' = len q + 1.
Proof.
  intros Hm. unfold push_back. rewrite Hm. simpl (0 <=? _).
  replace (match last (segments q) with Some _ => true | None => true end) with true
    by (by destruct (last (segments q))).
  cbv zeta iota. simpl segments. rewrite length_app. simpl length.
  unfold usize_sub. rewrite (proj2 (Nat.leb_le _ _)), Nat.add_sub by lia.
  cbn [mbind option_bind].
  rewrite list_lookup_middle by done. cbn [mbind option_bind].
  unfold update_if_clean. simpl index_dirty. cbn [mbind option_bind].
  eexists. split; [done|].
  match goal with |- context [auto_optimize ?z] => pose proof (auto_optimize_iter z) as (-> & -> & ->) end.
  unfold iter. simpl. by rewrite insert_last, concat_snoc, Hm.
Qed.

Lemma push_back_all_zero q (xs : list T) :
  max_segment_size q = 0 ->
  exists q', push_back_all q xs = Some q' /\ max_segment_size q' = 0 /\
    iter q' = iter q ++ xs /\ len q' = len q + length xs.
Proof.
  revert q. induction xs as [|x xs IH]; intros q Hm; simpl.
  - exists q. by rewrite app_nil_r, Nat.add_0_r.
  - destruct (push_back_zero q x Hm) as (q1 & -> & Hm1 & Hi1 & Hl1). cbn [mbind option_bind].
    destruct (IH q1 Hm1) as (q2 & -> & Hm2 & Hi2 & Hl2). exists q2.
    split_and!; [done|done| |lia]. by rewrite Hi2, Hi1, <- app_assoc.
Qed.
End ZeroSegmentSize.

(** Nothing checks the segment size: with size 0 a list that was filled and
    re-packed starts with an empty segment, so [pop_front] answers that the
    list is empty while [len] counts its elements and [pop_back] still returns
    them. *)
Theorem quicklist_zero_segment_size {T} (xs : list T) (Hxs : xs <> []) :
  exists q, from_vecdeque xs 0 = Some q /\
    pop_front (optimize q) = Some (None, optimize q) /\
    len (optimize q) = length xs /\ iter (optimize q) = xs.
Proof.
  destruct (push_back_all_zero (new 0) xs eq_refl) as (q & Hq & Hm & Hi & Hl).
  simpl in Hi, Hl. exists q. unfold from_vecdeque. split; [done|]. rewrite <- Hi in *.
  split; [|split; [done|]].
  - unfold pop_front. simpl segments. rewrite Hm. unfold iter in Hxs.
    destruct (concat (segments q)); done.
  - unfold iter. simpl. by rewrite repack_concat.
Qed.

Lemma quicklist_zero_segment_size_witness :
  exists q, from_vecdeque [5] 0 = Some q /\ pop_front (optimize q) = Some (None, optimize q) /\
    len (optimize q) = 1 /\ iter (optimize q) = [5].
Proof. apply (quicklist_zero_segment_size [5]). discriminate. Defined.
