(* ===== verification/Sds.v ===== *)
(** * Strings with an inline buffer

    Models [src/src/database/sds/sds_base.rs]: a string of up to [INLINE_CAP] bytes lives in the value
    itself, a longer one in a [Vec].  How a [Vec] grows is left open by the
    standard library: [grow] is any growth that makes enough room.  [Display]
    is not modelled, and the conversions of numbers are in [SdsNumeric]. *)
From S2P Require Import Prelude.

(** [size_of::<usize>() * 3 - 1] on a 64-bit machine. *)
Definition INLINE_CAP : nat := 8 * 3 - 1.

(** A [Vec<u8>]: its items and its capacity. *)
Record Vec : Type := mkVec { items : bytes; cap : nat }.

Inductive Sds : Type :=
| Inline (len : nat) (buf : bytes)
| Heap (buf : Vec).

(** [n as u8] *)
Definition as_u8 (n : nat) : nat := (n mod 256)%nat.

Section Sds.
Context (grow : nat -> nat -> nat).

Definition vec_with_capacity (n : nat) : Vec := mkVec [] (grow 0 n).
Definition vec_reserve (v : Vec) (additional : nat) : Vec :=
  if (cap v - length (items v) <? additional)%nat
  then mkVec (items v) (grow (cap v) (length (items v) + additional)) else v.
Definition vec_extend (v : Vec) (bs : bytes) : Vec :=
  let v := vec_reserve v (length bs) in mkVec (items v ++ bs) (cap v).
Definition to_vec (bs : bytes) : Vec := vec_extend (vec_with_capacity (length bs)) bs.

(** ** Construction *)

Definition new_buf : bytes := replicate INLINE_CAP 0%Z.

Definition default_sds : Sds := Inline 0 new_buf.

Definition from_vec (vec : Vec) : option Sds :=
  let len := length (items vec) in
  if (len <=? INLINE_CAP)%nat then
    buf ← slice_put new_buf 0 (items vec);
    Some (Inline (as_u8 len) buf)
  else Some (Heap vec).

Definition from_bytes (slice : bytes) : option Sds :=
  if (length slice <=? INLINE_CAP)%nat then
    buf ← slice_put new_buf 0 slice;
    Some (Inline (as_u8 (length slice)) buf)
  else Some (Heap (to_vec slice)).

Definition from_string (vec : Vec) : option Sds :=
  if (length (items vec) <=? INLINE_CAP)%nat then from_vec vec else Some (Heap vec).

Definition with_capacity (n : nat) : Sds :=
  if (n <=? INLINE_CAP)%nat then default_sds else Heap (vec_with_capacity n).

Definition repeat_byte (byte : Z) (n : nat) : option Sds :=
  if (n =? 0)%nat then Some default_sds
  else if (n <=? INLINE_CAP)%nat then
    buf ← slice_put new_buf 0 (replicate n byte);
    Some (Inline (as_u8 n) buf)
  else Some (Heap (to_vec (replicate n byte))).

(** ** Observation *)

Definition as_slice (s : Sds) : option bytes :=
  match s with
  | Inline len buf => slice_get buf 0 len
  | Heap buf => Some (items buf)
  end.

Definition len (s : Sds) : nat :=
  match s with Inline len _ => len | Heap buf => length (items buf) end.

Definition is_empty (s : Sds) : bool := (len s =? 0)%nat.

Definition capacity (s : Sds) : nat :=
  match s with Inline _ _ => INLINE_CAP | Heap buf => cap buf end.

Definition is_inline (s : Sds) : bool := match s with Inline _ _ => true | Heap _ => false end.

(** [From<Sds> for Vec<u8>] *)
Definition into_vec (s : Sds) : option bytes :=
  match s with
  | Inline len buf => slice_get buf 0 len
  | Heap buf => Some (items buf)
  end.

Definition sds_eq (a b : Sds) : option bool :=
  x ← as_slice a; y ← as_slice b; Some (bool_decide (x = y)).

Definition cmp (a b : Sds) : option comparison :=
  x ← as_slice a; y ← as_slice b; Some (slice_cmp x y).

(** [debug_assert_invariants]: whether the assertions hold. *)
Definition invariants (s : Sds) : bool :=
  match s with
  | Inline len buf => (len <=? INLINE_CAP)%nat && (if slice_get buf 0 len then true else false)
  | Heap buf => (length (items buf) <=? cap buf)%nat
  end.

(** ** Modification *)

Definition reserve (s : Sds) (additional : nat) : option Sds :=
  match s with
  | Inline cur_len buf =>
      let required := (cur_len + additional)%nat in
      if (required <=? INLINE_CAP)%nat then Some s
      else
        cur ← slice_get buf 0 cur_len;
        Some (Heap (vec_extend (vec_with_capacity required) cur))
  | Heap buf => Some (Heap (vec_reserve buf additional))
  end.

Definition clear (s : Sds) : Sds :=
  match s with
  | Inline _ buf => Inline 0 buf
  | Heap buf => Heap (mkVec [] (cap buf))
  end.

Definition push (s : Sds) (byte : Z) : option Sds :=
  match s with
  | Inline cur_len buf =>
      if (cur_len <? INLINE_CAP)%nat then
        buf ← vec_set buf cur_len byte;
        Some (Inline (cur_len + 1) buf)
      else
        cur ← slice_get buf 0 cur_len;
        Some (Heap (vec_extend (vec_extend (vec_with_capacity (cur_len + 1)) cur) [byte]))
  | Heap buf => Some (Heap (vec_extend buf [byte]))
  end.

Definition append (s : Sds) (other : bytes) : option Sds :=
  match s with
  | Inline cur_len buf =>
      let total := (cur_len + length other)%nat in
      if (total <=? INLINE_CAP)%nat then
        buf ← slice_put buf cur_len other;
        Some (Inline (as_u8 total) buf)
      else
        cur ← slice_get buf 0 cur_len;
        Some (Heap (vec_extend (vec_extend (vec_with_capacity total) cur) other))
  | Heap buf =>
      let buf := if (cap buf - length (items buf) <? length other)%nat
                 then vec_reserve buf (length other) else buf in
      Some (Heap (vec_extend buf other))
  end.

Definition inline_downgrade (s : Sds) : option Sds :=
  match s with
  | Inline _ _ => Some s
  | Heap buf =>
      if (length (items buf) <=? INLINE_CAP)%nat then
        inline_buf ← slice_put new_buf 0 (items buf);
        Some (Inline (as_u8 (length (items buf))) inline_buf)
      else Some s
  end.

Definition truncate (s : Sds) (new_len : nat) : option Sds :=
  inline_downgrade
    match s with
    | Inline len buf => if (new_len <? len)%nat then Inline (as_u8 new_len) buf else s
    | Heap buf =>
        if (new_len <? length (items buf))%nat then Heap (mkVec (take new_len (items buf)) (cap buf)) else s
    end.

(** The [assert!] of the range is [None] when it fails. *)
Definition slice_range (s : Sds) (start end_ : nat) : option Sds :=
  if (start <=? end_)%nat && (end_ <=? len s)%nat then
    all ← as_slice s; part ← slice_get all start end_; from_bytes part
  else None.

(** [s[i] = byte] through [DerefMut]. *)
Definition set_at (s : Sds) (i : nat) (byte : Z) : option Sds :=
  match s with
  | Inline len buf => if (i <? len)%nat then buf ← vec_set buf i byte; Some (Inline len buf) else None
  | Heap buf => its ← vec_set (items buf) i byte; Some (Heap (mkVec its (cap buf)))
  end.

(** [Extend] and [FromIterator] *)
Fixpoint extend (s : Sds) (l : bytes) : option Sds :=
  match l with
  | [] => Some s
  | byte :: l => s ← push s byte; extend s l
  end.

Definition from_iter (l : bytes) : option Sds := extend default_sds l.

(** ** Sequences of calls *)

Inductive op : Type :=
| Push (byte : Z)
| Append (other : bytes)
| Truncate (new_len : nat)
| Clear
| Reserve (additional : nat)
| Extend (l : bytes)
| SetAt (i : nat) (byte : Z)
| SliceRange (start end_ : nat).

Definition exec (s : Sds) (o : op) : option Sds :=
  match o with
  | Push byte => push s byte
  | Append other => append s other
  | Truncate new_len => truncate s new_len
  | Clear => Some (clear s)
  | Reserve additional => reserve s additional
  | Extend l => extend s l
  | SetAt i byte => set_at s i byte
  | SliceRange start end_ => slice_range s start end_
  end.

(** What a call does to the bytes; [None] is a panic. *)
Definition spec (bs : bytes) (o : op) : option bytes :=
  match o with
  | Push byte => Some (bs ++ [byte])
  | Append other => Some (bs ++ other)
  | Truncate new_len => Some (take new_len bs)
  | Clear => Some []
  | Reserve _ => Some bs
  | Extend l => Some (bs ++ l)
  | SetAt i byte => if (i <? length bs)%nat then Some (<[i := byte]> bs) else None
  | SliceRange start end_ => slice_get bs start end_
  end.

Fixpoint run {St} (step : St -> op -> option St) (s : St) (os : list op) : option St :=
  match os with
  | [] => Some s
  | o :: os => s ← step s o; run step s os
  end.

(** The ways to make a string, and the bytes that it then has. *)
Inductive source : Type :=
| FromVec (v : Vec)
| FromBytes (bs : bytes)
| FromString (v : Vec)
| WithCapacity (n : nat)
| Repeat (byte : Z) (n : nat)
| FromIter (l : bytes)
| Default.

Definition make (c : source) : option Sds :=
  match c with
  | FromVec v => from_vec v
  | FromBytes bs => from_bytes bs
  | FromString v => from_string v
  | WithCapacity n => Some (with_capacity n)
  | Repeat byte n => repeat_byte byte n
  | FromIter l => from_iter l
  | Default => Some default_sds
  end.

Definition made (c : source) : bytes :=
  match c with
  | FromVec v | FromString v => items v
  | FromBytes bs => bs
  | Repeat byte n => replicate n byte
  | FromIter l => l
  | WithCapacity _ | Default => []
  end.

(** A [Vec] given to a constructor is one that can exist. *)
Definition source_ok (c : source) : Prop :=
  match c with FromVec v | FromString v => (length (items v) <= cap v)%nat | _ => True end.
End Sds.

(** ** Representation *)

(** What a string holds; an inline buffer may keep old bytes past the end. *)
Inductive Holds : Sds -> bytes -> Prop :=
| holds_inline bs pad : (length bs + length pad)%nat = INLINE_CAP -> Holds (Inline (length bs) (bs ++ pad)) bs
| holds_heap v : (length (items v) <= cap v)%nat -> Holds (Heap v) (items v).

Lemma as_u8_small n : (n <= INLINE_CAP)%nat -> as_u8 n = n.
Proof. unfold INLINE_CAP. intros. apply Nat.mod_small. lia. Qed.

Lemma slice_get_prefix {A} (bs pad : list A) : slice_get (bs ++ pad) 0 (length bs) = Some bs.
Proof. exact (slice_get_app [] bs pad). Qed.

Lemma holds_slice s bs : Holds s bs -> as_slice s = Some bs.
Proof. intros [bs' pad H|v H]; [apply slice_get_prefix|done]. Qed.

Lemma holds_len s bs : Holds s bs -> len s = length bs.
Proof. by intros [bs' pad H|v H]. Qed.

Lemma holds_invariants s bs : Holds s bs -> invariants s = true.
Proof.
  intros [bs' pad H|v H]; simpl; [|by apply Nat.leb_le].
  rewrite slice_get_prefix, (proj2 (Nat.leb_le _ _)) by lia. done.
Qed.

(** A copy into a buffer at the end of what it holds. *)
Lemma put_inline (bs other pad : bytes) n :
  n = (length bs + length other)%nat -> (length bs + length pad)%nat = INLINE_CAP -> (n <= INLINE_CAP)%nat ->
  exists buf, slice_put (bs ++ pad) (length bs) other = Some buf /\ Holds (Inline n buf) (bs ++ other).
Proof.
  intros -> Hp Hn. exists (bs ++ other ++ drop (length other) pad). split.
  - rewrite <- (take_drop (length other) pad) at 1. apply slice_put_app. rewrite length_take. lia.
  - rewrite app_assoc, <- length_app. apply holds_inline. rewrite length_app, length_drop. lia.
Qed.

Lemma put_new_buf (bs : bytes) :
  (length bs <= INLINE_CAP)%nat ->
  exists buf, slice_put new_buf 0 bs = Some buf /\ Holds (Inline (as_u8 (length bs)) buf) bs.
Proof.
  intros Hl. rewrite as_u8_small by done.
  apply (put_inline [] bs new_buf (length bs) eq_refl); [apply length_replicate|done].
Qed.

Lemma holds_default : Holds default_sds [].
Proof. apply (holds_inline [] new_buf). apply length_replicate. Qed.

#[export] Hint Resolve holds_default holds_heap : sds.

Section Proofs.
Context (grow : nat -> nat -> nat) (grow_enough : forall c n, (n <= grow c n)%nat).
Notation exec := (exec grow).

Lemma vec_extend_items v bs : items (vec_extend grow v bs) = items v ++ bs.
Proof. unfold vec_extend, vec_reserve. by case_match. Qed.

Lemma vec_reserve_room v n :
  (length (items v) <= cap v)%nat ->
  (length (items v) + n <= cap (vec_reserve grow v n))%nat /\ items (vec_reserve grow v n) = items v.
Proof.
  unfold vec_reserve. intros Hv. case_match eqn:E; simpl; [|apply Nat.ltb_ge in E; split; [lia|done]].
  split; [|done]. apply grow_enough.
Qed.

Lemma holds_extend v bs :
  (length (items v) <= cap v)%nat -> Holds (Heap (vec_extend grow v bs)) (items v ++ bs).
Proof.
  intros Hv. rewrite <- vec_extend_items. apply holds_heap.
  destruct (vec_reserve_room v (length bs) Hv) as [Hr Hi].
  unfold vec_extend. simpl. rewrite length_app, Hi. lia.
Qed.

Lemma vec_extend_ok v bs :
  (length (items v) <= cap v)%nat -> (length (items (vec_extend grow v bs)) <= cap (vec_extend grow v bs))%nat.
Proof. intros Hv. pose proof (holds_extend v bs Hv) as H. by inversion H. Qed.

Lemma holds_heap_new n bs : Holds (Heap (vec_extend grow (vec_with_capacity grow n) bs)) bs.
Proof. apply (holds_extend (vec_with_capacity grow n) bs). simpl. lia. Qed.

Lemma holds_heap_new2 n bs bs' :
  Holds (Heap (vec_extend grow (vec_extend grow (vec_with_capacity grow n) bs) bs')) (bs ++ bs').
Proof.
  replace bs with (items (vec_extend grow (vec_with_capacity grow n) bs)) at 2 by (by rewrite vec_extend_items).
  apply holds_extend, vec_extend_ok. simpl. lia.
Qed.

(** A constructor puts what fits in the value itself. *)
Definition canonical (s : Sds) : Prop := is_inline s = (len s <=? INLINE_CAP)%nat.

Lemma from_bytes_holds bs : exists s, from_bytes grow bs = Some s /\ Holds s bs /\ canonical s.
Proof.
  unfold from_bytes, canonical. case_match eqn:E.
  - apply Nat.leb_le in E. destruct (put_new_buf bs E) as (buf & -> & Hb). cbn [mbind option_bind].
    eexists. split_and!; [done|done|]. rewrite (holds_len _ _ Hb). by rewrite (proj2 (Nat.leb_le _ _)).
  - eexists. split_and!; [done|apply holds_heap_new|]. unfold to_vec. cbn [is_inline len]. rewrite vec_extend_items. cbn [items vec_with_capacity app]. by rewrite E.
Qed.

Lemma from_vec_holds v :
  (length (items v) <= cap v)%nat -> exists s, from_vec v = Some s /\ Holds s (items v) /\ canonical s.
Proof.
  intros Hv. unfold from_vec, canonical. case_match eqn:E.
  - apply Nat.leb_le in E. destruct (put_new_buf (items v) E) as (buf & -> & Hb). cbn [mbind option_bind].
    eexists. split_and!; [done|done|]. rewrite (holds_len _ _ Hb). by rewrite (proj2 (Nat.leb_le _ _)).
  - eexists. split_and!; [done|by apply holds_heap|]. exact (eq_sym E).
Qed.

Lemma push_holds s bs b : Holds s bs -> exists s', push grow s b = Some s' /\ Holds s' (bs ++ [b]).
Proof.
  intros [bs' pad H|v H]; simpl; [case_match eqn:E|].
  - apply Nat.ltb_lt in E. destruct (put_inline bs' [b] pad (length bs' + 1) eq_refl H ltac:(lia)) as (buf & Hb & Hh).
    unfold vec_set. rewrite Hb. by eexists.
  - rewrite slice_get_prefix. eexists. split; [done|]. apply holds_heap_new2.
  - eexists. split; [done|]. by apply holds_extend.
Qed.

Lemma append_holds s bs other : Holds s bs -> exists s', append grow s other = Some s' /\ Holds s' (bs ++ other).
Proof.
  intros [bs' pad H|v H]; simpl; [case_match eqn:E|].
  - apply Nat.leb_le in E. destruct (put_inline bs' other pad _ eq_refl H E) as (buf & -> & Hh).
    rewrite as_u8_small by done. by eexists.
  - rewrite slice_get_prefix. eexists. split; [done|]. apply holds_heap_new2.
  - destruct (vec_reserve_room v (length other) H) as [Hr Hi]. eexists. split; [done|].
    case_match; [|by apply holds_extend]. rewrite <- Hi. apply holds_extend. rewrite Hi. lia.
Qed.

Lemma extend_holds l s bs : Holds s bs -> exists s', extend grow s l = Some s' /\ Holds s' (bs ++ l).
Proof.
  revert s bs. induction l as [|b l IH]; intros s bs Hs; simpl.
  - exists s. by rewrite app_nil_r.
  - destruct (push_holds s bs b Hs) as (s1 & -> & H1). destruct (IH s1 _ H1) as (s2 & H2 & H3).
    exists s2. split; [done|]. by rewrite <- app_assoc in H3.
Qed.

Lemma reserve_holds s bs n : Holds s bs -> exists s', reserve grow s n = Some s' /\ Holds s' bs.
Proof.
  intros [bs' pad H|v H]; simpl; [case_match|].
  - eexists. split; [done|]. by apply holds_inline.
  - rewrite slice_get_prefix. eexists. split; [done|]. apply holds_heap_new.
  - destruct (vec_reserve_room v n H) as [Hr Hi]. eexists. split; [done|]. rewrite <- Hi. apply holds_heap. rewrite Hi. lia.
Qed.

Lemma inline_downgrade_holds s bs :
  Holds s bs -> exists s', inline_downgrade s = Some s' /\ Holds s' bs /\ canonical s'.
Proof.
  intros [bs' pad H|v H].
  - eexists. split_and!; [done|by apply holds_inline|]. unfold canonical. simpl. by rewrite (proj2 (Nat.leb_le _ _)) by lia.
  - exact (from_vec_holds v H).
Qed.

Lemma truncate_holds s bs n :
  Holds s bs -> exists s', truncate s n = Some s' /\ Holds s' (take n bs) /\ canonical s'.
Proof.
  intros Hs. apply inline_downgrade_holds. destruct Hs as [bs' pad H|v H]; case_match eqn:E.
  - apply Nat.ltb_lt in E. rewrite as_u8_small by lia.
    replace n with (length (take n bs')) at 1 by (rewrite length_take; lia).
    rewrite <- (take_drop n bs') at 2. rewrite <- app_assoc. apply holds_inline.
    rewrite length_app, length_drop, length_take. lia.
  - apply Nat.ltb_ge in E. rewrite take_ge by done. by apply holds_inline.
  - apply (holds_heap (mkVec (take n (items v)) (cap v))). simpl. rewrite length_take. lia.
  - apply Nat.ltb_ge in E. rewrite take_ge by done. by apply holds_heap.
Qed.

Lemma slice_range_holds s bs a b :
  Holds s bs ->
  match slice_get bs a b with
  | Some part => exists s', slice_range grow s a b = Some s' /\ Holds s' part
  | None => slice_range grow s a b = None
  end.
Proof.
  intros Hs. unfold slice_range. rewrite (holds_len s bs Hs), (holds_slice s bs Hs). unfold slice_get at 1.
  destruct ((a <=? b)%nat && (b <=? length bs)%nat) eqn:E; [|done].
  cbn [mbind option_bind]. unfold slice_get. rewrite E. cbn [mbind option_bind].
  destruct (from_bytes_holds (take (b - a) (drop a bs))) as (s' & Hs' & Hh & _). by exists s'.
Qed.

Lemma set_at_holds s bs i b :
  Holds s bs ->
  if (i <? length bs)%nat then exists s', set_at s i b = Some s' /\ Holds s' (<[i := b]> bs)
  else set_at s i b = None.
Proof.
  intros [bs' pad H|v H]; simpl; destruct (i <? _)%nat eqn:E; try done.
  - apply Nat.ltb_lt in E. rewrite vec_set_insert by (rewrite length_app; lia). eexists. split; [done|].
    rewrite insert_app_l by done. rewrite <- (length_insert bs' i b). apply holds_inline. by rewrite length_insert.
  - apply Nat.ltb_lt in E. rewrite vec_set_insert by done. eexists. split; [done|].
    apply (holds_heap (mkVec _ (cap v))). simpl. by rewrite length_insert.
  - apply Nat.ltb_ge in E. unfold vec_set, slice_put. simpl length. by rewrite (proj2 (Nat.leb_gt _ _)) by lia.
Qed.

(** Every call does to the bytes what its specification says. *)
Lemma exec_holds s bs o :
  Holds s bs ->
  match spec bs o with
  | Some bs' => exists s', exec s o = Some s' /\ Holds s' bs'
  | None => exec s o = None
  end.
Proof.
  intros Hs. destruct o as [b|other|n| |n|l|i b|a b]; simpl.
  - by apply push_holds.
  - by apply append_holds.
  - destruct (truncate_holds s bs n Hs) as (s' & ? & ? & _). by exists s'.
  - eexists. split; [done|]. destruct Hs as [bs pad H|v H]; simpl.
    + apply (holds_inline [] (bs ++ pad)). rewrite length_app. simpl. lia.
    + apply (holds_heap (mkVec [] (cap v))). simpl. lia.
  - by apply reserve_holds.
  - by apply extend_holds.
  - pose proof (set_at_holds s bs i b Hs) as H. by destruct (i <? _)%nat.
  - by apply slice_range_holds.
Qed.

Lemma make_holds c : source_ok c -> exists s, make grow c = Some s /\ Holds s (made c).
Proof.
  destruct c as [v|bs|v|n|b n|l|]; simpl; intros Hc.
  - destruct (from_vec_holds v Hc) as (s & ? & ? & _). by exists s.
  - destruct (from_bytes_holds bs) as (s & ? & ? & _). by exists s.
  - unfold from_string. case_match; [|eauto with sds].
    destruct (from_vec_holds v Hc) as (s & ? & ? & _). by exists s.
  - unfold with_capacity. case_match; [eauto with sds|]. eexists. split; [done|].
    apply (holds_heap (vec_with_capacity grow n)). simpl. lia.
  - unfold repeat_byte. destruct (Nat.eqb_spec n 0) as [->|Hn]; [eauto with sds|].
    case_match eqn:E; [|eexists; split; [done|apply holds_heap_new]].
    apply Nat.leb_le in E. destruct (put_new_buf (replicate n b)) as (buf & -> & Hb); [by rewrite length_replicate|].
    rewrite length_replicate in Hb. by eexists.
  - destruct (extend_holds l default_sds [] holds_default) as (s & ? & ?). by exists s.
  - eauto with sds.
Qed.

Lemma run_holds os s bs :
  Holds s bs ->
  match run spec bs os with
  | Some bs' => exists s', run exec s os = Some s' /\ Holds s' bs'
  | None => run exec s os = None
  end.
Proof.
  revert s bs. induction os as [|o os IH]; intros s bs Hs; simpl; [by exists s|].
  pose proof (exec_holds s bs o Hs) as Ho. destruct (spec bs o) as [bs'|]; simpl; [|by rewrite Ho].
  destruct Ho as (s' & -> & Hs'). simpl. by apply IH.
Qed.
End Proofs.

(** C30. A string behaves as its bytes: however it was made and whatever calls
    follow, its accessors and the assertions of [debug_assert_invariants] hold,
    its length fits its buffer, and the calls panic exactly where an index or a
    range is not one of the bytes; moreover two strings compare as their bytes,
    in whichever form they are. *)
Theorem sds_refines_bytes (grow : nat -> nat -> nat) (c c' : source) (os os' : list op) :
  (forall cap n, n <= grow cap n)%nat -> source_ok c -> source_ok c' ->
  match s ← make grow c; run (exec grow) s os, run spec (made c) os with
  | Some s, Some bs =>
      as_slice s = Some bs /\ into_vec s = Some bs /\ len s = length bs /\
      is_empty s = bool_decide (bs = []) /\ (length bs <= capacity s)%nat /\ invariants s = true /\
      match s' ← make grow c'; run (exec grow) s' os', run spec (made c') os' with
      | Some s', Some bs' =>
          sds_eq s s' = Some (bool_decide (bs = bs')) /\
          exists o, cmp s s' = Some o /\ (o = Datatypes.Eq <-> sds_eq s s' = Some true)
      | None, None => True
      | _, _ => False
      end
  | None, None => True
  | _, _ => False
  end.
Proof.
  intros Hg Hc Hc'.
  destruct (make_holds grow Hg c Hc) as (s0 & -> & H0), (make_holds grow Hg c' Hc') as (s0' & -> & H0').
  cbn [mbind option_bind].
  pose proof (run_holds grow Hg os s0 _ H0) as Hr. pose proof (run_holds grow Hg os' s0' _ H0') as Hr'.
  destruct (run spec (made c) os) as [bs|]; [destruct Hr as (s & -> & Hs)|by rewrite Hr].
  split_and!.
  - by apply holds_slice.
  - by apply holds_slice.
  - by apply holds_len.
  - unfold is_empty. rewrite (holds_len s bs Hs). by destruct bs.
  - destruct Hs as [bs pad H|v H]; simpl; lia.
  - by eapply holds_invariants.
  - destruct (run spec (made c') os') as [bs'|]; [destruct Hr' as (s' & -> & Hs')|by rewrite Hr'].
    unfold sds_eq, cmp. rewrite (holds_slice s bs Hs), (holds_slice s' bs' Hs'). cbn [mbind option_bind].
    split; [done|]. eexists. split; [done|]. rewrite slice_cmp_eq.
    split; [by intros ->; rewrite bool_decide_true|by intros [= H%bool_decide_eq_true]].
Qed.

(** A [Vec] that doubles. *)
Definition ex_grow (cap n : nat) : nat := Nat.max (2 * cap) n.

Lemma sds_refines_bytes_witness :
  match s ← make ex_grow (FromIter (replicate 22 65%Z));
        run (exec ex_grow) s [Push 66%Z; Append [67%Z; 68%Z]; Reserve 100; Truncate 3; SetAt 1 90%Z],
      run spec (made (FromIter (replicate 22 65%Z))) [Push 66%Z; Append [67%Z; 68%Z]; Reserve 100; Truncate 3; SetAt 1 90%Z] with
  | Some s, Some bs => as_slice s = Some bs /\ bs = [65%Z; 90%Z; 65%Z]
  | _, _ => False
  end.
Proof.
  assert (forall cap n, n <= ex_grow cap n)%nat as Hg by (intros; unfold ex_grow; lia).
  pose proof (sds_refines_bytes ex_grow (FromIter (replicate 22 65%Z)) Default
    [Push 66%Z; Append [67%Z; 68%Z]; Reserve 100; Truncate 3; SetAt 1 90%Z] [] Hg I I) as H.
  destruct (s ← _; _) as [s|]; [|exact H].
  destruct (run spec _ _) as [bs|] eqn:E; [|exact H]. destruct H as [H _]. split; [exact H|].
  revert E. vm_compute. congruence.
Defined.
