(* ===== verification/SdsNumeric.v ===== *)
(** * Integers in strings

    Models the integer conversions of [src/src/database/sds/sds_numeric.rs]:
    the writers into a buffer of twenty bytes and the readers, [to_i64] and
    [to_u64] through [from_utf8] and [str::parse] of the standard library, and
    [parse_i64], the hand-written reader. *)
From S2P Require Import Prelude Sds.
Local Open Scope Z_scope.

Inductive SdsNumericError : Type :=
| Empty
| InvalidInteger
| InvalidFloat
| Overflow
| InvalidUtf8.

(** ** The standard library's part *)

Definition is_ascii_digit (b : Z) : bool := (48 <=? b) && (b <=? 57).

(** A continuation byte of UTF-8, at least [lo] and at most [hi]. *)
Definition tail_byte (lo hi b : Z) : bool := (lo <=? b) && (b <=? hi).

(** [from_utf8(bytes).is_ok()] *)
Fixpoint is_utf8 (l : bytes) : bool :=
  match l with
  | [] => true
  | b :: l =>
      if b <? 0x80 then is_utf8 l
      else if b <? 0xC2 then false
      else if b <? 0xE0 then
        match l with c1 :: l => tail_byte 0x80 0xBF c1 && is_utf8 l | _ => false end
      else if b <? 0xF0 then
        match l with
        | c1 :: c2 :: l =>
            tail_byte (if b =? 0xE0 then 0xA0 else 0x80) (if b =? 0xED then 0x9F else 0xBF) c1 &&
            tail_byte 0x80 0xBF c2 && is_utf8 l
        | _ => false
        end
      else if b <? 0xF5 then
        match l with
        | c1 :: c2 :: c3 :: l =>
            tail_byte (if b =? 0xF0 then 0x90 else 0x80) (if b =? 0xF4 then 0x8F else 0xBF) c1 &&
            tail_byte 0x80 0xBF c2 && tail_byte 0x80 0xBF c3 && is_utf8 l
        | _ => false
        end
      else false
  end.

Inductive IntErrorKind : Type := KEmpty | InvalidDigit | PosOverflow | NegOverflow.

(** The digits of [parse]: away from zero, in the range [lo, hi]. *)
Fixpoint parse_digits (negative : bool) (lo hi : Z) (r : Z) (l : bytes) : result IntErrorKind Z :=
  match l with
  | [] => Ok r
  | c :: l =>
      let overflow := if negative then NegOverflow else PosOverflow in
      if negb (is_ascii_digit c) then Err InvalidDigit
      else
        let m := r * 10 in
        if negb ((lo <=? m) && (m <=? hi)) then Err overflow
        else
          let r := if negative then m - (c - 48) else m + (c - 48) in
          if negb ((lo <=? r) && (r <=? hi)) then Err overflow
          else parse_digits negative lo hi r l
  end.

(** [str::parse] of an integer type with the range [lo, hi]. *)
Definition parse_int (lo hi : Z) (l : bytes) : result IntErrorKind Z :=
  match l with
  | [] => Err KEmpty
  | b :: digits =>
      if bool_decide (digits = []) && ((b =? 43) || (b =? 45)) then Err InvalidDigit
      else if b =? 43 then parse_digits false lo hi 0 digits
      else if (b =? 45) && (lo <? 0) then parse_digits true lo hi 0 digits
      else parse_digits false lo hi 0 l
  end.

(** ** Writing *)

(** The loop of the writers: digits from the end of the buffer. *)
Fixpoint write_loop (fuel : nat) (magnitude : Z) (pos : nat) (buf : bytes) : option (nat * bytes) :=
  match fuel with
  | O => None
  | S fuel =>
      if 0 <? magnitude then
        pos ← usize_sub pos 1;
        buf ← vec_set buf pos (48 + magnitude mod 10);
        write_loop fuel (magnitude / 10) pos buf
      else Some (pos, buf)
  end.

Definition write_i64 (n : Z) (buf : bytes) : option bytes :=
  if n =? 0 then
    buf ← vec_set buf 0 48; slice_get buf 0 1
  else
    let negative := n <? 0 in
    '(pos, buf) ← write_loop 21 (Z.abs n) 20 buf;
    '(pos, buf) ← if negative then
        pos ← usize_sub pos 1; buf ← vec_set buf pos 45; Some (pos, buf)
      else Some (pos, buf);
    slice_get buf pos 20.

Definition write_u64 (n : Z) (buf : bytes) : option bytes :=
  if n =? 0 then
    buf ← vec_set buf 0 48; slice_get buf 0 1
  else
    '(pos, buf) ← write_loop 21 n 20 buf;
    slice_get buf pos 20.

Definition from_i64 (grow : nat -> nat -> nat) (n : Z) : option Sds :=
  slice ← write_i64 n (replicate 20 0); from_bytes grow slice.

Definition from_u64 (grow : nat -> nat -> nat) (n : Z) : option Sds :=
  slice ← write_u64 n (replicate 20 0); from_bytes grow slice.

(** ** Reading *)

Definition i64_of_bytes (bs : bytes) : result SdsNumericError Z :=
  match bs with
  | [] => Err Empty
  | _ =>
      if negb (is_utf8 bs) then Err InvalidUtf8
      else
        match parse_int (- 2 ^ 63) (2 ^ 63 - 1) bs with
        | Ok n => Ok n
        | Err (PosOverflow | NegOverflow) => Err Overflow
        | Err KEmpty => Err Empty
        | Err InvalidDigit => Err InvalidInteger
        end
  end.

Definition to_i64 (s : Sds) : option (result SdsNumericError Z) :=
  bs ← as_slice s; Some (i64_of_bytes bs).

Definition u64_of_bytes (bs : bytes) : result SdsNumericError Z :=
  match bs with
  | [] => Err Empty
  | _ =>
      if negb (is_utf8 bs) then Err InvalidUtf8
      else
        match parse_int 0 (2 ^ 64 - 1) bs with
        | Ok n => Ok n
        | Err PosOverflow => Err Overflow
        | Err KEmpty => Err Empty
        | Err (InvalidDigit | NegOverflow) => Err InvalidInteger
        end
  end.

Definition to_u64 (s : Sds) : option (result SdsNumericError Z) :=
  bs ← as_slice s; Some (u64_of_bytes bs).

Definition integer_bytes (bs : bytes) : bool :=
  match bs with
  | [] => false
  | b :: rest =>
      let digits := if (b =? 45) || (b =? 43) then rest else bs in
      negb (bool_decide (digits = [])) && forallb is_ascii_digit digits
  end.

Definition is_integer (s : Sds) : option bool :=
  bs ← as_slice s; Some (integer_bytes bs).

(** The loop of [parse_i64] over a [u64] with checked arithmetic. *)
Fixpoint parse_i64_loop (result_ : Z) (digs : bytes) : result SdsNumericError Z :=
  match digs with
  | [] => Ok result_
  | b :: digs =>
      if negb (is_ascii_digit b) then Err InvalidInteger
      else if 2 ^ 64 <=? result_ * 10 then Err Overflow
      else if 2 ^ 64 <=? result_ * 10 + (b - 48) then Err Overflow
      else parse_i64_loop (result_ * 10 + (b - 48)) digs
  end.

Definition parse_i64 (bytes : bytes) : result SdsNumericError Z :=
  match bytes with
  | [] => Err Empty
  | b :: rest =>
      let '(neg, digs) := if b =? 45 then (true, rest) else if b =? 43 then (false, rest) else (false, bytes) in
      match digs with
      | [] => Err InvalidInteger
      | _ =>
          match parse_i64_loop 0 digs with
          | Err e => Err e
          | Ok r =>
              if neg then if 2 ^ 63 <? r then Err Overflow else Ok (wraps 64 (wrapu 64 (- r)))
              else if 2 ^ 63 - 1 <? r then Err Overflow else Ok (wraps 64 r)
          end
      end
  end.

(** ** Decimal notation *)

(** The digits of a number, most significant first. *)
Fixpoint digits_of (fuel : nat) (n : Z) : bytes :=
  match fuel with
  | O => []
  | S fuel => if 0 <? n then digits_of fuel (n / 10) ++ [48 + n mod 10] else []
  end.

Lemma digit_range n : 48 <= 48 + n mod 10 <= 57.
Proof. pose proof (Z.mod_pos_bound n 10). lia. Qed.

Lemma digits_of_ascii fuel n : Forall (fun b => 48 <= b <= 57) (digits_of fuel n).
Proof.
  revert n. induction fuel as [|fuel IH]; intros n; simpl; [constructor|]. case_match; [|constructor].
  apply Forall_app. split; [apply IH|]. constructor; [apply digit_range|constructor].
Qed.

Lemma digits_of_length fuel n : 0 <= n < 10 ^ Z.of_nat fuel -> (length (digits_of fuel n) <= fuel)%nat.
Proof.
  revert n. induction fuel as [|fuel IH]; intros n Hn; simpl; [lia|]. case_match; [|simpl; lia].
  rewrite length_app. simpl. rewrite Nat2Z.inj_succ, Z.pow_succ_r in Hn by lia.
  specialize (IH (n / 10)). assert (0 <= n / 10 < 10 ^ Z.of_nat fuel); [|lia].
  split; [apply Z.div_pos; lia|apply Z.div_lt_upper_bound; lia].
Qed.

Lemma digits_of_cons fuel n :
  0 < n < 10 ^ Z.of_nat fuel -> exists d ds, digits_of fuel n = d :: ds /\ 48 <= d <= 57.
Proof.
  intros Hn. pose proof (digits_of_ascii fuel n) as Ha.
  destruct (digits_of fuel n) as [|d ds] eqn:E; [|inversion Ha; eauto].
  exfalso. destruct fuel; simpl in *; [lia|]. rewrite (proj2 (Z.ltb_lt _ _)) in E by lia. by destruct (digits_of _ _).
Qed.

Lemma digits_of_zero fuel : digits_of fuel 0 = [].
Proof. by destruct fuel. Qed.

Lemma digits_of_pos fuel n : 0 < n -> digits_of (S fuel) n = digits_of fuel (n / 10) ++ [48 + n mod 10].
Proof. intros Hn. cbn [digits_of]. by rewrite (proj2 (Z.ltb_lt _ _)). Qed.

Lemma div_10_bound n k : 0 <= n < 10 ^ Z.of_nat (S k) -> 0 <= n / 10 < 10 ^ Z.of_nat k.
Proof.
  rewrite Nat2Z.inj_succ, Z.pow_succ_r by lia. intros Hn.
  split; [apply Z.div_pos; lia|apply Z.div_lt_upper_bound; lia].
Qed.

(** The loop fills the end of the buffer. *)
Lemma write_loop_digits k n (front back : bytes) :
  0 <= n < 10 ^ Z.of_nat k -> (k <= length front)%nat ->
  exists front', write_loop (S k) n (length front) (front ++ back) =
    Some (length front', front' ++ digits_of k n ++ back) /\
    (length front' + length (digits_of k n))%nat = length front.
Proof.
  revert n front back. induction k as [|k IH]; intros n front back Hn Hl.
  - exists front. cbn [write_loop]. simpl in Hn. by rewrite (proj2 (Z.ltb_ge _ _)) by lia.
  - destruct (Z.ltb_spec 0 n) as [Hp|Hz].
    + destruct (exists_last (l := front)) as (front0 & x & ->); [destruct front; [simpl in Hl; lia|done]|].
      rewrite length_app in Hl. simpl in Hl.
      destruct (IH (n / 10) front0 ((48 + n mod 10) :: back)) as (front' & Hw & Hlen);
        [by apply div_10_bound|lia|].
      exists front'. rewrite digits_of_pos by done. rewrite !length_app. simpl length. split; [|lia].
      change (write_loop (S (S k)) ?m ?p ?b) with
        (if 0 <? m then pos ← usize_sub p 1; buf ← vec_set b pos (48 + m mod 10);
                        write_loop (S k) (m / 10) pos buf else Some (p, b)).
      rewrite (proj2 (Z.ltb_lt _ _)) by done. unfold usize_sub. rewrite (proj2 (Nat.leb_le _ _)) by lia.
      cbn [mbind option_bind]. rewrite Nat.add_sub, <- app_assoc. cbn [app]. rewrite vec_set_app.
      cbn [mbind option_bind]. rewrite Hw. by rewrite <- !app_assoc.
    + assert (n = 0) as -> by lia. exists front. rewrite digits_of_zero. simpl. split; [done|lia].
Qed.

Definition decimal (n : Z) : bytes := if n =? 0 then [48] else digits_of 20 n.

(** What the writers write. *)
Lemma write_digits n : 0 < n < 10 ^ 20 -> 
  exists front, write_loop 21 n 20 (replicate 20 0) = Some (length front, front ++ digits_of 20 n) /\
    (length front + length (digits_of 20 n))%nat = 20%nat.
Proof.
  intros Hn. destruct (write_loop_digits 20 n (replicate 20 0) []) as (front & Hw & Hl); [simpl; lia|done|].
  exists front. rewrite !app_nil_r in Hw. done.
Qed.

Lemma slice_get_back {A} (l1 l2 : list A) n :
  (length l1 + length l2)%nat = n -> slice_get (l1 ++ l2) (length l1) n = Some l2.
Proof. intros <-. pose proof (slice_get_app l1 l2 []) as H. by rewrite app_nil_r in H. Qed.

Lemma write_u64_decimal n : 0 <= n < 2 ^ 64 -> write_u64 n (replicate 20 0) = Some (decimal n).
Proof.
  intros Hn. unfold write_u64, decimal. destruct (Z.eqb_spec n 0) as [->|Hz]; [done|].
  destruct (write_digits n ltac:(lia)) as (front & -> & Hl). cbn [mbind option_bind].
  by apply slice_get_back.
Qed.

Lemma digits_of_small k m n : 0 <= n < 10 ^ Z.of_nat k -> (k <= m)%nat -> digits_of m n = digits_of k n.
Proof.
  revert m n. induction k as [|k IH]; intros m n Hn Hm.
  - assert (n = 0) as -> by (simpl in Hn; lia). by rewrite !digits_of_zero.
  - destruct m as [|m]; [lia|]. simpl. case_match; [|done]. rewrite IH; [done|by apply div_10_bound|lia].
Qed.

Lemma write_i64_decimal n :
  is_s 64 n -> write_i64 n (replicate 20 0) = Some (if n <? 0 then 45 :: decimal (- n) else decimal n).
Proof.
  unfold is_s. change (2 ^ (64 - 1)) with (2 ^ 63). intros Hn. unfold write_i64, decimal. destruct (Z.eqb_spec n 0) as [->|Hz]; [done|].
  destruct (write_digits (Z.abs n) ltac:(lia)) as (front & -> & Hl). cbn [mbind option_bind].
  destruct (Z.ltb_spec n 0) as [Hneg|Hpos].
  - rewrite (proj2 (Z.eqb_neq _ _)) by lia. rewrite Z.abs_neq in * by lia.
    assert (length (digits_of 20 (- n)) <= 19)%nat as H19.
    { rewrite (digits_of_small 19) by (simpl; lia). apply digits_of_length. simpl. lia. }
    destruct (exists_last (l := front)) as (front0 & x & ->); [intros ->; cbn [length] in Hl; lia|].
    rewrite length_app in *. cbn [length] in *. unfold usize_sub. rewrite (proj2 (Nat.leb_le _ _)) by lia.
    cbn [mbind option_bind]. rewrite Nat.add_sub, <- app_assoc. cbn [app]. rewrite vec_set_app.
    cbn [mbind option_bind]. apply (slice_get_back front0 (45 :: _)). cbn [length]. lia.
  - cbn [mbind option_bind]. rewrite Z.abs_eq in * by lia. by apply slice_get_back.
Qed.

(** ** Round trips *)

Lemma is_utf8_ascii l : Forall (fun b => b < 128) l -> is_utf8 l = true.
Proof. induction 1 as [|b l Hb _ IH]; [done|]. simpl. by rewrite (proj2 (Z.ltb_lt _ _)). Qed.

Lemma decimal_ascii n : Forall (fun b => 48 <= b <= 57) (decimal n).
Proof. unfold decimal. case_match; [repeat constructor; lia|apply digits_of_ascii]. Qed.

Lemma parse_digits_app neg lo hi r l1 l2 :
  parse_digits neg lo hi r (l1 ++ l2) = rbind (parse_digits neg lo hi r l1) (fun r => parse_digits neg lo hi r l2).
Proof.
  revert r. induction l1 as [|c l1 IH]; intros r; [done|]. cbn [app parse_digits].
  by repeat (case_match; [done|]).
Qed.

(** [s] is the sign; the running value is [s] times what was read. *)
Lemma parse_digits_of (neg : bool) lo hi k n :
  let s := if neg then -1 else 1 in
  lo <= 0 <= hi -> 0 <= n < 10 ^ Z.of_nat k -> lo <= s * n <= hi ->
  parse_digits neg lo hi 0 (digits_of k n) = Ok (s * n).
Proof.
  intros s Hr. revert n. induction k as [|k IH]; intros n Hn Hb.
  - assert (n = 0) as -> by (simpl in Hn; lia). simpl. f_equal. lia.
  - destruct (Z.ltb_spec 0 n) as [Hp|Hz]; [|assert (n = 0) as -> by lia; rewrite digits_of_zero; simpl; f_equal; lia].
    pose proof (Z.div_mod n 10 ltac:(lia)) as Hd. pose proof (Z.mod_pos_bound n 10 ltac:(lia)) as Hm.
    rewrite digits_of_pos, parse_digits_app by done.
    assert (0 <= n / 10) by (apply Z.div_pos; lia).
    rewrite IH; [|by apply div_10_bound|subst s; destruct neg; nia]. cbn [rbind parse_digits].
    unfold is_ascii_digit. rewrite !(proj2 (Z.leb_le _ _)) by (subst s; destruct neg; lia). simpl andb. cbn [negb].
    f_equal. destruct neg; subst s; lia.
Qed.

Lemma parse_i64_loop_parse r l :
  0 <= r < 2 ^ 64 ->
  parse_i64_loop r l = match parse_digits false 0 (2 ^ 64 - 1) r l with
                       | Ok n => Ok n
                       | Err InvalidDigit => Err InvalidInteger
                       | Err _ => Err Overflow
                       end.
Proof.
  revert r. induction l as [|b l IH]; intros r Hr; [done|]. cbn [parse_i64_loop parse_digits].
  destruct (is_ascii_digit b) eqn:Eb; [|done]. cbn [negb].
  unfold is_ascii_digit in Eb. bool_to_prop.
  destruct (Z.leb_spec (2 ^ 64) (r * 10)).
  - rewrite (proj2 (Z.leb_gt (r * 10) _)), andb_false_r by lia. done.
  - rewrite (proj2 (Z.leb_le 0 _)), (proj2 (Z.leb_le (r * 10) _)) by lia. cbn [andb negb].
    destruct (Z.leb_spec (2 ^ 64) (r * 10 + (b - 48))).
    + rewrite (proj2 (Z.leb_gt (r * 10 + (b - 48)) _)), andb_false_r by lia. done.
    + rewrite (proj2 (Z.leb_le 0 _)), (proj2 (Z.leb_le (r * 10 + (b - 48)) _)) by lia. cbn [andb negb].
      apply IH; lia.
Qed.

(** The readers on what the writers write. *)
Lemma decimal_cons n : 0 <= n < 10 ^ 20 -> exists d ds, decimal n = d :: ds /\ 48 <= d <= 57.
Proof.
  intros Hn. unfold decimal. case_match eqn:E; [by exists 48, []; split; [|lia]|].
  bool_to_prop. apply digits_of_cons. simpl. lia.
Qed.

Lemma decimal_length n : 0 <= n < 10 ^ 20 -> (length (decimal n) <= 20)%nat.
Proof. intros Hn. unfold decimal. case_match; [simpl; lia|]. apply digits_of_length. simpl. lia. Qed.

Lemma parse_decimal (neg : bool) lo hi n :
  lo <= 0 -> 9 <= hi -> 0 <= n < 10 ^ 20 -> lo <= (if neg then - n else n) <= hi ->
  parse_digits neg lo hi 0 (decimal n) = Ok (if neg then - n else n).
Proof.
  intros Hlo Hhi Hn Hb. unfold decimal. destruct (Z.eqb_spec n 0) as [->|Hz].
  - cbn [parse_digits is_ascii_digit Z.leb Z.compare Pos.compare Pos.compare_cont andb negb].
    destruct neg; simpl; by rewrite !(proj2 (Z.leb_le _ _)) by lia.
  - rewrite (parse_digits_of neg lo hi 20 n) by (destruct neg; simpl Z.of_nat; lia). by destruct neg; f_equal; lia.
Qed.

(** A sign in front of, or not in front of, a number. *)
Lemma parse_int_decimal lo hi n :
  lo <= 0 -> 9 <= hi -> 0 <= n < 10 ^ 20 -> n <= hi -> parse_int lo hi (decimal n) = Ok n.
Proof.
  intros Hlo Hhi Hn Hb. pose proof (parse_decimal false lo hi n Hlo Hhi Hn ltac:(cbv iota; lia)) as Hp.
  destruct (decimal_cons n Hn) as (d & ds & Hd & Hr). rewrite Hd in *.
  unfold parse_int. rewrite (proj2 (Z.eqb_neq d 43)), (proj2 (Z.eqb_neq d 45)) by lia. cbn [orb andb].
  by rewrite andb_false_r.
Qed.

Lemma decimal_not_nil n : 0 <= n < 10 ^ 20 -> decimal n <> [].
Proof. intros Hn. by destruct (decimal_cons n Hn) as (d & ds & -> & _). Qed.

Lemma parse_int_negative lo hi n :
  9 <= hi -> 0 < n < 10 ^ 20 -> lo <= - n -> parse_int lo hi (45 :: decimal n) = Ok (- n).
Proof.
  intros Hhi Hn Hb. pose proof (parse_decimal true lo hi n ltac:(lia) Hhi ltac:(lia) ltac:(cbv iota; lia)) as Hp.
  pose proof (decimal_not_nil n ltac:(lia)) as Hne.
  unfold parse_int. rewrite bool_decide_false, (proj2 (Z.ltb_lt lo 0)) by (done || lia).
  cbn [andb Z.eqb Pos.eqb]. exact Hp.
Qed.

(** The loop of [parse_i64]. *)
Lemma parse_i64_decimal n :
  0 <= n < 2 ^ 64 -> parse_i64_loop 0 (decimal n) = Ok n.
Proof.
  intros Hn. rewrite parse_i64_loop_parse by lia.
  by rewrite (parse_decimal false) by (cbv iota; lia).
Qed.

Lemma digits_ascii n : forallb is_ascii_digit (decimal n) = true.
Proof.
  apply forallb_forall. intros b Hb. pose proof (decimal_ascii n) as Ha.
  rewrite Forall_forall in Ha. specialize (Ha b (proj2 (list_elem_of_In _ _) Hb)). unfold is_ascii_digit.
  by rewrite !(proj2 (Z.leb_le _ _)) by lia.
Qed.

(** A short result is kept inline. *)
Lemma from_bytes_inline grow bs :
  (forall cap n, n <= grow cap n)%nat -> (length bs <= 20)%nat ->
  exists s, from_bytes grow bs = Some s /\ as_slice s = Some bs /\ is_inline s = true.
Proof.
  intros Hg Hl. destruct (from_bytes_holds grow Hg bs) as (s & Hs & Hh & Hc). exists s.
  split_and!; [done|by apply holds_slice|]. rewrite Hc, (holds_len s bs Hh). apply Nat.leb_le. unfold INLINE_CAP. lia.
Qed.

(** A number with the sign [-] or without one, as all readers see it. *)
Lemma negative_reads n :
  0 < n <= 2 ^ 63 ->
  (length (45%Z :: decimal n) <= 20)%nat /\ i64_of_bytes (45 :: decimal n) = Ok (- n) /\
  parse_i64 (45 :: decimal n) = Ok (- n) /\ integer_bytes (45 :: decimal n) = true.
Proof.
  intros Hn. pose proof (decimal_not_nil n ltac:(lia)) as Hne. split_and!.
  - assert (0 <= n < 10 ^ Z.of_nat 19) as H19 by (change (10 ^ Z.of_nat 19) with 10000000000000000000; lia).
    unfold decimal. rewrite (proj2 (Z.eqb_neq _ _)), (digits_of_small 19) by (done || lia).
    pose proof (digits_of_length 19 n H19). cbn [length]. lia.
  - unfold i64_of_bytes. rewrite is_utf8_ascii, parse_int_negative; [done|lia..|].
    constructor; [lia|]. eapply Forall_impl; [apply decimal_ascii|simpl; lia].
  - unfold parse_i64. cbn [Z.eqb Pos.eqb]. rewrite parse_i64_decimal by lia.
    destruct (decimal n) as [|d ds]; [done|]. rewrite (proj2 (Z.ltb_ge _ _)) by lia.
    f_equal. unfold wraps, wrapu. rewrite Zplus_mod_idemp_l, Z.mod_small; lia.
  - unfold integer_bytes. cbn [Z.eqb Pos.eqb orb]. by rewrite bool_decide_false, digits_ascii.
Qed.

Lemma unsigned_reads n :
  0 <= n < 2 ^ 64 ->
  (length (decimal n) <= 20)%nat /\ u64_of_bytes (decimal n) = Ok n /\ integer_bytes (decimal n) = true /\
  (n < 2 ^ 63 -> i64_of_bytes (decimal n) = Ok n /\ parse_i64 (decimal n) = Ok n).
Proof.
  intros Hn. destruct (decimal_cons n ltac:(lia)) as (d & ds & Hd & Hr).
  assert (is_utf8 (decimal n) = true) as Hu.
  { apply is_utf8_ascii. eapply Forall_impl; [apply decimal_ascii|simpl; lia]. }
  pose proof (parse_int_decimal (- 2 ^ 63) (2 ^ 63 - 1) n ltac:(lia) ltac:(lia) ltac:(lia)) as Hi.
  pose proof (parse_int_decimal 0 (2 ^ 64 - 1) n ltac:(lia) ltac:(lia) ltac:(lia) ltac:(lia)) as Hv.
  pose proof (parse_i64_decimal n Hn) as Hp. pose proof (digits_ascii n) as Ha.
  pose proof (decimal_length n ltac:(lia)) as Hl.
  unfold u64_of_bytes, i64_of_bytes, parse_i64, integer_bytes. rewrite Hd in *.
  rewrite (proj2 (Z.eqb_neq d 45)), (proj2 (Z.eqb_neq d 43)), Hu, Hv by lia. cbn [orb negb].
  rewrite Ha, Hp. split_and!; [done|done|done|]. intros H63. rewrite Hi by lia. split; [done|].
  rewrite (proj2 (Z.ltb_ge _ _)) by lia. f_equal. apply wraps_small; [lia|unfold is_s; lia].
Qed.

(** Integers survive being written into a string: an [i64] is written
    without overrunning the buffer of twenty bytes, into a string that needs no
    allocation and looks like an integer, and both readers give it back; a
    [u64] likewise. *)
Theorem sds_integer_roundtrip (grow : nat -> nat -> nat) :
  (forall cap n, n <= grow cap n)%nat ->
  (forall n, is_s 64 n -> exists s bs,
     from_i64 grow n = Some s /\ as_slice s = Some bs /\ is_inline s = true /\ (length bs <= 20)%nat /\
     to_i64 s = Some (Ok n) /\ parse_i64 bs = Ok n /\ is_integer s = Some true) /\
  (forall n, is_u 64 n -> exists s bs,
     from_u64 grow n = Some s /\ as_slice s = Some bs /\ is_inline s = true /\ (length bs <= 20)%nat /\
     to_u64 s = Some (Ok n) /\ is_integer s = Some true).
Proof.
  intros Hg. split; intros n Hn.
  - pose proof (write_i64_decimal n Hn) as Hw. unfold from_i64. rewrite Hw. unfold is_s in Hn.
    destruct (Z.ltb_spec n 0) as [Hneg|Hpos]; cbn [mbind option_bind].
    + destruct (negative_reads (- n)) as (Hl & H1 & H2 & H3); [lia|].
      destruct (from_bytes_inline grow _ Hg Hl) as (s & Hs & Hb & Hi). exists s, (45 :: decimal (- n)).
      unfold to_i64, is_integer. rewrite Hb. rewrite Z.opp_involutive in *. cbn [mbind option_bind].
      by rewrite H1, H3.
    + destruct (unsigned_reads n) as (Hl & _ & H3 & H2); [lia|]. destruct H2 as [H1 H2]; [lia|].
      destruct (from_bytes_inline grow _ Hg Hl) as (s & Hs & Hb & Hi). exists s, (decimal n).
      unfold to_i64, is_integer. rewrite Hb. cbn [mbind option_bind]. by rewrite H1, H3.
  - unfold from_u64. rewrite (write_u64_decimal n Hn). cbn [mbind option_bind].
    destruct (unsigned_reads n Hn) as (Hl & H1 & H3 & _).
    destruct (from_bytes_inline grow _ Hg Hl) as (s & Hs & Hb & Hi). exists s, (decimal n).
    unfold to_u64, is_integer. rewrite Hb. cbn [mbind option_bind]. by rewrite H1, H3.
Qed.

Lemma sds_integer_roundtrip_witness :
  exists s bs, from_i64 ex_grow (- 2 ^ 63) = Some s /\ as_slice s = Some bs /\ is_inline s = true /\
    (length bs <= 20)%nat /\ to_i64 s = Some (Ok (- 2 ^ 63)) /\ parse_i64 bs = Ok (- 2 ^ 63) /\
    is_integer s = Some true.
Proof.
  apply (proj1 (sds_integer_roundtrip ex_grow ltac:(intros; unfold ex_grow; lia))). unfold is_s. lia.
Defined.
