(* ===== verification/Bitmap.v ===== *)
(** * Bit arrays

    Models [src/src/database/bitmap]: [Bitmap] of [bitmap_base.rs], the table of
    [bitmap_common.rs] and the three ways to count bits of [bitmap_simd.rs], the
    vector one down to what its instructions do to the bytes of a block.  The
    features of the processor are an argument. *)
From S2P Require Import Prelude.
Local Open Scope Z_scope.

(** ** Counting the bits of bytes *)

Definition BIT_COUNT_TABLE : list Z := [
    0; 1; 1; 2; 1; 2; 2; 3; 1; 2; 2; 3; 2; 3; 3; 4; 1; 2; 2; 3; 2; 3; 3; 4; 2; 3; 3; 4; 3; 4; 4; 5;
    1; 2; 2; 3; 2; 3; 3; 4; 2; 3; 3; 4; 3; 4; 4; 5; 2; 3; 3; 4; 3; 4; 4; 5; 3; 4; 4; 5; 4; 5; 5; 6;
    1; 2; 2; 3; 2; 3; 3; 4; 2; 3; 3; 4; 3; 4; 4; 5; 2; 3; 3; 4; 3; 4; 4; 5; 3; 4; 4; 5; 4; 5; 5; 6;
    2; 3; 3; 4; 3; 4; 4; 5; 3; 4; 4; 5; 4; 5; 5; 6; 3; 4; 4; 5; 4; 5; 5; 6; 4; 5; 5; 6; 5; 6; 6; 7;
    1; 2; 2; 3; 2; 3; 3; 4; 2; 3; 3; 4; 3; 4; 4; 5; 2; 3; 3; 4; 3; 4; 4; 5; 3; 4; 4; 5; 4; 5; 5; 6;
    2; 3; 3; 4; 3; 4; 4; 5; 3; 4; 4; 5; 4; 5; 5; 6; 3; 4; 4; 5; 4; 5; 5; 6; 4; 5; 5; 6; 5; 6; 6; 7;
    2; 3; 3; 4; 3; 4; 4; 5; 3; 4; 4; 5; 4; 5; 5; 6; 3; 4; 4; 5; 4; 5; 5; 6; 4; 5; 5; 6; 5; 6; 6; 7;
    3; 4; 4; 5; 4; 5; 5; 6; 4; 5; 5; 6; 5; 6; 6; 7; 4; 5; 5; 6; 5; 6; 6; 7; 5; 6; 6; 7; 6; 7; 7; 8].

(** [BIT_COUNT_TABLE[b as usize] as usize] of a [u8], which is always in range. *)
Definition table (b : Z) : Z := BIT_COUNT_TABLE !!! Z.to_nat b.

Inductive BitcountStrategy : Type := LookupTable | Popcnt | Avx2.

Record CpuFeatures : Type := mkCpu { has_popcnt : bool; has_avx2 : bool }.

Definition best_strategy (f : CpuFeatures) : BitcountStrategy :=
  if has_avx2 f then Avx2 else if has_popcnt f then Popcnt else LookupTable.

Definition bitcount_lookup_table (bytes : bytes) : Z := foldr (fun b n => table b + n) 0 bytes.

(** [count_ones] of a word of [w] bits. *)
Fixpoint count_ones (w : nat) (v : Z) : Z :=
  match w with
  | O => 0
  | S w => Z.b2z (Z.testbit v 0) + count_ones w (v / 2)
  end.

(** [u64::from_le_bytes] *)
Definition from_le_bytes (l : bytes) : Z := foldr (fun b v => b + 256 * v) 0 l.

(** The two loops of [bitcount_popcnt_impl] on what is left of the slice. *)
Fixpoint bitcount_popcnt_loop (fuel : nat) (bytes : bytes) : Z :=
  match fuel with
  | O => 0
  | S fuel =>
      if (8 <=? length bytes)%nat then
        count_ones 64 (from_le_bytes (take 8 bytes)) + bitcount_popcnt_loop fuel (drop 8 bytes)
      else bitcount_lookup_table bytes
  end.

Definition bitcount_popcnt_impl (bytes : bytes) : Z := bitcount_popcnt_loop (S (length bytes)) bytes.

(** [_mm256_and_si256], byte by byte. *)
Definition vec_and (a : bytes) (mask : Z) : bytes := (fun b => Z.land b mask) <$> a.

(** [_mm256_srli_epi16(vec, 4)]: a shift of the 16-bit lanes. *)
Fixpoint srli_epi16_4 (vec : bytes) : bytes :=
  match vec with
  | a :: b :: vec =>
      let w := Z.shiftr (a + 256 * b) 4 in
      w mod 256 :: w / 256 :: srli_epi16_4 vec
  | _ => vec
  end.

(** [_mm256_shuffle_epi8(lookup, v)] for nibbles: both halves of [lookup] are
    the counts of the sixteen nibbles. *)
Definition lookup : list Z := [0; 1; 1; 2; 1; 2; 2; 3; 1; 2; 2; 3; 2; 3; 3; 4].
Definition shuffle_epi8 (v : bytes) : bytes := (fun b => lookup !!! Z.to_nat (Z.land b 0x0F)) <$> v.

(** [_mm256_add_epi8] *)
Definition add_epi8 (a b : bytes) : bytes := zip_with (fun x y => (x + y) mod 256) a b.

(** [_mm256_sad_epu8(sum, 0)] and its four words. *)
Definition sad_epu8 (l : bytes) : list Z :=
  (fun i => foldr Z.add 0 (take 8 (drop (8 * i) l))) <$> [0; 1; 2; 3]%nat.

(** One pass of the first loop of [bitcount_avx2_impl]. *)
Definition avx2_block (vec : bytes) : Z :=
  let lo := vec_and vec 0x0F in
  let hi := vec_and (srli_epi16_4 vec) 0x0F in
  let sum := add_epi8 (shuffle_epi8 lo) (shuffle_epi8 hi) in
  foldr Z.add 0 (sad_epu8 sum).

Fixpoint bitcount_avx2_loop (fuel : nat) (bytes : bytes) : Z :=
  match fuel with
  | O => 0
  | S fuel =>
      if (32 <=? length bytes)%nat then avx2_block (take 32 bytes) + bitcount_avx2_loop fuel (drop 32 bytes)
      else bitcount_popcnt_loop (S (length bytes)) bytes
  end.

Definition bitcount_avx2_impl (bytes : bytes) : Z := bitcount_avx2_loop (S (length bytes)) bytes.

Definition bitcount_popcnt (f : CpuFeatures) (bytes : bytes) : Z :=
  if has_popcnt f then bitcount_popcnt_impl bytes else bitcount_lookup_table bytes.

Definition bitcount_avx2 (f : CpuFeatures) (bytes : bytes) : Z :=
  if has_avx2 f then bitcount_avx2_impl bytes else bitcount_popcnt f bytes.

Definition bitcount_auto (f : CpuFeatures) (bytes : bytes) : Z :=
  if has_avx2 f then bitcount_avx2 f bytes
  else if has_popcnt f then bitcount_popcnt f bytes
  else bitcount_lookup_table bytes.

(** The function [bitcount_with_strategy] of [bitmap_simd.rs]. *)
Definition bitcount_by_strategy (f : CpuFeatures) (bytes : bytes) (strategy : BitcountStrategy) : Z :=
  match strategy with
  | LookupTable => bitcount_lookup_table bytes
  | Popcnt => bitcount_popcnt f bytes
  | Avx2 => bitcount_avx2 f bytes
  end.

(** ** [Bitmap]

    The cached strategy is never read. *)
Record Bitmap : Type := mkBitmap { bm_bytes : bytes }.

Definition new : Bitmap := mkBitmap [].

Definition with_capacity (bits : nat) : Bitmap := mkBitmap (replicate ((bits + 7) / 8) 0).

(** [Vec::resize] to a larger size. *)
Definition resize (n : nat) (l : bytes) : bytes := l ++ replicate (n - length l) 0.

Definition set_bit (bm : Bitmap) (bit_offset : nat) (value : bool) : option (bool * Bitmap) :=
  let byte_index := (bit_offset / 8)%nat in
  let bit_index := (bit_offset mod 8)%nat in
  let bs := if (length (bm_bytes bm) <=? byte_index)%nat then resize (byte_index + 1) (bm_bytes bm)
            else bm_bytes bm in
  byte ← bs !! byte_index;
  let mask := wrapu 8 (Z.shiftl 1 (7 - Z.of_nat bit_index)) in
  let old := negb (Z.land byte mask =? 0) in
  let byte := if value then Z.lor byte mask else Z.land byte (255 - mask) in
  bs ← vec_set bs byte_index byte;
  Some (old, mkBitmap bs).

Definition get_bit (bm : Bitmap) (bit_offset : nat) : option bool :=
  let byte_index := (bit_offset / 8)%nat in
  let bit_index := (bit_offset mod 8)%nat in
  if (length (bm_bytes bm) <=? byte_index)%nat then Some false
  else
    byte ← bm_bytes bm !! byte_index;
    Some (Z.land (Z.shiftr byte (7 - Z.of_nat bit_index)) 1 =? 1).

Definition bit_len (bm : Bitmap) : nat := (length (bm_bytes bm) * 8)%nat.

Definition first_mask (sb : nat) : Z := Z.shiftr 0xFF (Z.of_nat sb).
Definition last_mask (eb : nat) : Z :=
  if (eb =? 0)%nat then 0xFF else wrapu 8 (Z.shiftl 0xFF (8 - Z.of_nat eb)).

(** [bitcount] and [bitcount_with_strategy] of [Bitmap], which differ in how
    the bytes in the middle are counted. *)
Definition bitcount_in (count_middle : bytes -> Z) (bm : Bitmap) (start end_ : nat) : option Z :=
  let end_ := Nat.min end_ (bit_len bm) in
  let start := Nat.min start end_ in
  if (end_ <=? start)%nat then Some 0
  else
    let start_byte := (start / 8)%nat in
    let end_byte := ((end_ - 1) / 8)%nat in
    let sb := (start mod 8)%nat in
    let eb := (end_ mod 8)%nat in
    if (start_byte =? end_byte)%nat then
      byte ← bm_bytes bm !! start_byte;
      let mask := if (eb =? 0)%nat then first_mask sb else Z.land (first_mask sb) (last_mask eb) in
      Some (table (Z.land byte mask))
    else
      byte ← bm_bytes bm !! start_byte;
      let count := table (Z.land byte (first_mask sb)) in
      count ← if (start_byte + 1 <? end_byte)%nat then
                middle_bytes ← slice_get (bm_bytes bm) (start_byte + 1) end_byte;
                Some (count + count_middle middle_bytes)
              else Some count;
      byte ← bm_bytes bm !! end_byte;
      Some (count + table (Z.land byte (last_mask eb))).

Definition bitcount (f : CpuFeatures) (bm : Bitmap) (start end_ : nat) : option Z :=
  bitcount_in (bitcount_auto f) bm start end_.

Definition bitcount_with_strategy (f : CpuFeatures) (bm : Bitmap) (start end_ : nat)
    (strategy : BitcountStrategy) : option Z :=
  bitcount_in (fun l => bitcount_by_strategy f l strategy) bm start end_.

Definition bitcount_all (f : CpuFeatures) (bm : Bitmap) : Z := bitcount_auto f (bm_bytes bm).

Definition bitand (a b : Bitmap) : Bitmap := mkBitmap (zip_with Z.land (bm_bytes a) (bm_bytes b)).

(** The loops of [bitor] and [bitxor]. *)
Definition combine_bytes (f : Z -> Z -> Z) (a b : bytes) : bytes :=
  (fun i => f (default 0 (a !! i)) (default 0 (b !! i))) <$> seq 0 (Nat.max (length a) (length b)).

Definition bitor (a b : Bitmap) : Bitmap := mkBitmap (combine_bytes Z.lor (bm_bytes a) (bm_bytes b)).
Definition bitxor (a b : Bitmap) : Bitmap := mkBitmap (combine_bytes Z.lxor (bm_bytes a) (bm_bytes b)).

Definition bitnot (a : Bitmap) : Bitmap := mkBitmap ((fun b => 255 - b) <$> bm_bytes a).

(** ** The bits

    Bit [i] of the array, the most significant bit of a byte first; the array
    goes on with zeros. *)
Definition bit (l : bytes) (i : nat) : bool :=
  Z.testbit (default 0 (l !! (i / 8)%nat)) (7 - Z.of_nat (i mod 8)).

(** The number of [true] among the bits [start], ..., [start + n - 1]. *)
Fixpoint count_bits (l : bytes) (start n : nat) : Z :=
  match n with
  | O => 0
  | S n => Z.b2z (bit l start) + count_bits l (S start) n
  end.

(** A bitmap stores bytes. *)
Definition wf (bm : Bitmap) : Prop := Forall is_byte (bm_bytes bm).

(** ** Facts of single bytes, by all cases *)

Definition for_bytes (P : Z -> bool) : bool := forallb P (seqZ 0 256).
Definition for_bits (P : nat -> bool) : bool := forallb P (seq 0 8).

Lemma by_bytes P b : for_bytes P = true -> is_byte b -> P b = true.
Proof.
  intros H Hb. apply (proj1 (forallb_forall P _) H). apply list_elem_of_In, elem_of_seqZ. exact Hb.
Qed.

Lemma by_bits P k : for_bits P = true -> (k < 8)%nat -> P k = true.
Proof.
  intros H Hk. apply (proj1 (forallb_forall P _) H). apply in_seq. lia.
Qed.

Lemma table_bits b : is_byte b -> table b = count_bits [b] 0 8.
Proof.
  intros Hb. apply Z.eqb_eq. revert b Hb. intros b. apply (by_bytes (fun b => table b =? count_bits [b] 0 8)).
  by vm_compute.
Qed.

Lemma count_ones_byte b : is_byte b -> count_ones 8 b = table b.
Proof.
  intros Hb. apply Z.eqb_eq. revert b Hb. intros b. apply (by_bytes (fun b => count_ones 8 b =? table b)).
  by vm_compute.
Qed.

Lemma nibbles b :
  is_byte b -> lookup !!! Z.to_nat (b mod 16) + lookup !!! Z.to_nat (b / 16) = table b /\ 0 <= table b <= 8.
Proof.
  intros Hb. pose proof (by_bytes (fun b => (lookup !!! Z.to_nat (b mod 16) + lookup !!! Z.to_nat (b / 16) =? table b) &&
    (0 <=? table b) && (table b <=? 8)) b ltac:(by vm_compute) Hb) as H.
  cbv beta in H. bool_to_prop. lia.
Qed.

(** The bits of a byte kept by a mask. *)
Definition last_bit (eb : nat) : nat := if (eb =? 0)%nat then 8%nat else eb.

Lemma masked_bits b sb eb :
  is_byte b -> (sb < last_bit eb)%nat -> (eb < 8)%nat ->
  table (Z.land b (Z.land (first_mask sb) (last_mask eb))) = count_bits [b] sb (last_bit eb - sb).
Proof.
  intros Hb Hs He. apply Z.eqb_eq.
  pose proof (by_bytes (fun b => for_bits (fun sb => for_bits (fun eb =>
    negb (sb <? last_bit eb)%nat ||
    (table (Z.land b (Z.land (first_mask sb) (last_mask eb))) =? count_bits [b] sb (last_bit eb - sb))))) b
    ltac:(by vm_compute) Hb) as H. cbv beta in H.
  assert (sb < 8)%nat as Hs8 by (unfold last_bit in Hs; case_match; lia).
  pose proof (by_bits _ sb H Hs8) as H1. cbv beta in H1. pose proof (by_bits _ eb H1 He) as H2. cbv beta in H2.
  by rewrite (proj2 (Nat.ltb_lt _ _) Hs) in H2.
Qed.

Lemma first_mask_0 : first_mask 0 = 0xFF. Proof. done. Qed.
Lemma last_mask_0 : last_mask 0 = 0xFF. Proof. done. Qed.

Lemma mask_pair sb eb :
  (sb < 8)%nat -> (eb < 8)%nat ->
  Z.land (first_mask sb) 0xFF = first_mask sb /\ Z.land 0xFF (last_mask eb) = last_mask eb.
Proof.
  intros Hs He.
  pose proof (by_bits (fun sb => Z.land (first_mask sb) 0xFF =? first_mask sb) sb ltac:(by vm_compute) Hs) as H1.
  pose proof (by_bits (fun eb => Z.land 0xFF (last_mask eb) =? last_mask eb) eb ltac:(by vm_compute) He) as H2.
  cbv beta in *. by bool_to_prop.
Qed.

(** A bit of a byte set or cleared. *)
Definition bit_mask (k : nat) : Z := wrapu 8 (Z.shiftl 1 (7 - Z.of_nat k)).
Definition put_bit (b : Z) (k : nat) (value : bool) : Z :=
  if value then Z.lor b (bit_mask k) else Z.land b (255 - bit_mask k).

Lemma put_bit_spec b k value :
  is_byte b -> (k < 8)%nat ->
  is_byte (put_bit b k value) /\
  negb (Z.land b (bit_mask k) =? 0) = Z.testbit b (7 - Z.of_nat k) /\
  forall j, (j < 8)%nat ->
    Z.testbit (put_bit b k value) (7 - Z.of_nat j) = if (j =? k)%nat then value else Z.testbit b (7 - Z.of_nat j).
Proof.
  intros Hb Hk.
  assert (for_bytes (fun b => for_bits (fun k => forallb (fun value : bool =>
    (0 <=? put_bit b k value) && (put_bit b k value <? 256) &&
    eqb (negb (Z.land b (bit_mask k) =? 0)) (Z.testbit b (7 - Z.of_nat k)) &&
    for_bits (fun j => eqb (Z.testbit (put_bit b k value) (7 - Z.of_nat j))
      (if (j =? k)%nat then value else Z.testbit b (7 - Z.of_nat j)))) [true; false])) = true) as H by (by vm_compute).
  apply (by_bytes _ b) in H; [|done]. apply (by_bits _ k) in H; [|done]. cbv beta in H.
  rewrite forallb_forall in H. specialize (H value ltac:(destruct value; simpl; auto)).
  apply andb_true_iff in H as [H Hj]. apply andb_true_iff in H as [H Ho]. bool_to_prop.
  split; [split; lia|]. split; [by apply eqb_prop|]. intros j Hj8. apply eqb_prop.
  exact (by_bits _ j Hj Hj8).
Qed.

Lemma get_bit_byte b k :
  is_byte b -> (k < 8)%nat -> (Z.land (Z.shiftr b (7 - Z.of_nat k)) 1 =? 1) = Z.testbit b (7 - Z.of_nat k).
Proof.
  intros Hb Hk. apply eqb_prop.
  pose proof (by_bytes (fun b => for_bits (fun k =>
    eqb (Z.land (Z.shiftr b (7 - Z.of_nat k)) 1 =? 1) (Z.testbit b (7 - Z.of_nat k)))) b ltac:(by vm_compute) Hb) as H.
  exact (by_bits _ k H Hk).
Qed.

(** ** Counting *)

Lemma count_bits_add l s m n : count_bits l s (m + n) = count_bits l s m + count_bits l (s + m) n.
Proof.
  revert s. induction m as [|m IH]; intros s; simpl; [by rewrite Nat.add_0_r|].
  rewrite IH. rewrite Nat.add_succ_r. simpl. lia.
Qed.

Lemma bit_drop l k i : bit l (8 * k + i) = bit (drop k l) i.
Proof.
  unfold bit. rewrite lookup_drop. replace (8 * k + i)%nat with (i + k * 8)%nat by lia.
  rewrite Nat.div_add, Nat.Div0.mod_add by lia. by rewrite Nat.add_comm.
Qed.

Lemma bit_app_l l1 l2 i : (i < 8 * length l1)%nat -> bit (l1 ++ l2) i = bit l1 i.
Proof.
  intros Hi. unfold bit. rewrite lookup_app_l; [done|]. apply Nat.Div0.div_lt_upper_bound. lia.
Qed.

Lemma count_bits_drop l k s n : count_bits l (8 * k + s) n = count_bits (drop k l) s n.
Proof.
  revert s. induction n as [|n IH]; intros s; [done|]. cbn [count_bits]. rewrite bit_drop. f_equal.
  rewrite <- IH. f_equal. lia.
Qed.

Lemma count_bits_app_l l1 l2 s n : (s + n <= 8 * length l1)%nat -> count_bits (l1 ++ l2) s n = count_bits l1 s n.
Proof.
  revert s. induction n as [|n IH]; intros s Hn; [done|]. cbn [count_bits]. rewrite bit_app_l, IH by lia. done.
Qed.

(** The bits of one byte of an array. *)
Lemma count_bits_byte l i b s n :
  l !! i = Some b -> (s + n <= 8)%nat -> count_bits l (8 * i + s) n = count_bits [b] s n.
Proof.
  intros Hi Hn. rewrite count_bits_drop, (drop_S l b i Hi). apply (count_bits_app_l [b]). simpl. lia.
Qed.

Lemma lookup_table_bits l :
  Forall is_byte l -> bitcount_lookup_table l = count_bits l 0 (8 * length l).
Proof.
  induction 1 as [|b l Hb _ IH]; [done|]. cbn [bitcount_lookup_table foldr]. fold (bitcount_lookup_table l).
  rewrite IH, (table_bits b Hb). cbn [length]. rewrite Nat.mul_succ_r, Nat.add_comm, count_bits_add.
  rewrite (count_bits_app_l [b] l) by (simpl; lia). f_equal.
  symmetry. exact (count_bits_drop (b :: l) 1 0 _).
Qed.

Lemma lookup_table_app l1 l2 :
  bitcount_lookup_table (l1 ++ l2) = bitcount_lookup_table l1 + bitcount_lookup_table l2.
Proof. induction l1 as [|b l1 IH]; [done|]. simpl. rewrite IH. lia. Qed.

Lemma table_app_split n l :
  bitcount_lookup_table (take n l) + bitcount_lookup_table (drop n l) = bitcount_lookup_table l.
Proof. by rewrite <- lookup_table_app, take_drop. Qed.

Lemma count_ones_words w b v :
  is_byte b -> 0 <= v -> count_ones (8 + w) (b + 256 * v) = table b + count_ones w v.
Proof.
  intros Hb Hv. rewrite <- count_ones_byte by done.
  assert (forall k w b' v', 0 <= b' < 2 ^ Z.of_nat k -> 0 <= v' ->
    count_ones (k + w) (b' + 2 ^ Z.of_nat k * v') = count_ones k b' + count_ones w v') as Hgen.
  { clear. induction k as [|k IH]; intros w b v Hb Hv.
    - change (2 ^ Z.of_nat 0) with 1 in *. assert (b = 0) as -> by lia. by rewrite Z.mul_1_l.
    - rewrite Nat2Z.inj_succ, Z.pow_succ_r in * by lia. cbn [Nat.add count_ones].
      assert ((b + 2 * 2 ^ Z.of_nat k * v) / 2 = b / 2 + 2 ^ Z.of_nat k * v) as ->.
      { replace (b + 2 * 2 ^ Z.of_nat k * v) with (b + (2 ^ Z.of_nat k * v) * 2) by lia. apply Z.div_add. lia. }
      rewrite IH by first [done|split; [apply Z.div_pos; lia|apply Z.div_lt_upper_bound; lia]].
      rewrite !Z.bit0_odd. replace (2 * 2 ^ Z.of_nat k * v) with (2 * (2 ^ Z.of_nat k * v)) by lia.
      rewrite Z.odd_add_mul_2. lia. }
  apply (Hgen 8%nat w b v); [exact Hb|done].
Qed.

Lemma count_ones_le l :
  Forall is_byte l -> count_ones (8 * length l) (from_le_bytes l) = bitcount_lookup_table l /\ 0 <= from_le_bytes l.
Proof.
  induction 1 as [|b l Hb _ [IH IHp]]; [done|]. cbn [from_le_bytes foldr bitcount_lookup_table length].
  fold (from_le_bytes l) (bitcount_lookup_table l). split.
  - replace (8 * S (length l))%nat with (8 + 8 * length l)%nat by lia. by rewrite count_ones_words, IH.
  - unfold is_byte in Hb. lia.
Qed.

Lemma popcnt_loop_table fuel l :
  Forall is_byte l -> (length l < fuel)%nat -> bitcount_popcnt_loop fuel l = bitcount_lookup_table l.
Proof.
  revert l. induction fuel as [|fuel IH]; intros l Hl Hf; [lia|]. cbn [bitcount_popcnt_loop].
  case_match eqn:E; [|done]. apply Nat.leb_le in E.
  destruct (count_ones_le (take 8 l)) as [H8 _]; [by apply Forall_take|].
  rewrite length_take, Nat.min_l in H8 by done. change (8 * 8)%nat with 64%nat in H8. rewrite H8.
  rewrite IH, table_app_split; [done|by apply Forall_drop|rewrite length_drop; lia].
Qed.

(** *** The vector block *)

Lemma hi_nibbles a b :
  is_byte a -> is_byte b ->
  Z.land (Z.shiftr (a + 256 * b) 4 mod 256) 0x0F = a / 16 /\ Z.land (Z.shiftr (a + 256 * b) 4 / 256) 0x0F = b / 16.
Proof.
  unfold is_byte. intros Ha Hb. change 0x0F with (Z.ones 4). rewrite !Z.land_ones, Z.shiftr_div_pow2 by lia.
  change (2 ^ 4) with 16. split; Z.to_euclidean_division_equations; lia.
Qed.

Lemma lo_nibble b : Z.land b 0x0F = b mod 16.
Proof. change 0x0F with (Z.ones 4). by rewrite Z.land_ones by lia. Qed.

Lemma nibble_again n : 0 <= n < 16 -> Z.land n 0x0F = n.
Proof. intros H. rewrite lo_nibble. by apply Z.mod_small. Qed.

Lemma block_counts l :
  Forall is_byte l -> Nat.Even (length l) ->
  add_epi8 (shuffle_epi8 (vec_and l 0x0F)) (shuffle_epi8 (vec_and (srli_epi16_4 l) 0x0F)) = table <$> l.
Proof.
  intros Hl [k Hk]. revert l Hl Hk. induction k as [|k IH]; intros l Hl Hk; [by destruct l|].
  destruct l as [|a [|b l]]; simpl in Hk; [lia|lia|].
  apply Forall_cons in Hl as [Ha Hl]. apply Forall_cons in Hl as [Hb Hl].
  specialize (IH l Hl ltac:(lia)). destruct (hi_nibbles a b Ha Hb) as [H1 H2].
  destruct (nibbles a Ha) as [Ta Ra], (nibbles b Hb) as [Tb Rb]. unfold is_byte in *.
  unfold add_epi8, shuffle_epi8, vec_and in *. cbn [srli_epi16_4 fmap list_fmap zip_with].
  rewrite H1, H2, !lo_nibble.
  rewrite (Z.mod_small (a mod 16)), (Z.mod_small (a / 16)), (Z.mod_small (b mod 16)), (Z.mod_small (b / 16))
    by (Z.to_euclidean_division_equations; lia).
  rewrite Ta, Tb, !Z.mod_small by lia. do 2 f_equal. exact IH.
Qed.

Lemma sad_sum l : length l = 32%nat -> foldr Z.add 0 (sad_epu8 l) = foldr Z.add 0 l.
Proof. intros Hl. do 32 (destruct l as [|? l]; [done|]). destruct l; [|done]. simpl. lia. Qed.

Lemma avx2_block_table l : Forall is_byte l -> length l = 32%nat -> avx2_block l = bitcount_lookup_table l.
Proof.
  intros Hl H32. unfold avx2_block. rewrite block_counts by (done || by exists 16%nat).
  rewrite sad_sum by (by rewrite length_fmap). clear. induction l as [|b l IH]; [done|]. simpl. f_equal. exact IH.
Qed.

Lemma avx2_loop_table fuel l :
  Forall is_byte l -> (length l < fuel)%nat -> bitcount_avx2_loop fuel l = bitcount_lookup_table l.
Proof.
  revert l. induction fuel as [|fuel IH]; intros l Hl Hf; [lia|]. cbn [bitcount_avx2_loop].
  case_match eqn:E; [|apply popcnt_loop_table; [done|lia]]. apply Nat.leb_le in E.
  rewrite avx2_block_table by first [by apply Forall_take|rewrite length_take; lia].
  rewrite IH, table_app_split; [done|by apply Forall_drop|rewrite length_drop; lia].
Qed.

(** All ways to count agree. *)
Lemma strategies_agree f l strategy :
  Forall is_byte l ->
  bitcount_by_strategy f l strategy = bitcount_lookup_table l /\ bitcount_auto f l = bitcount_lookup_table l.
Proof.
  intros Hl. unfold bitcount_by_strategy, bitcount_auto, bitcount_avx2, bitcount_popcnt, bitcount_avx2_impl, bitcount_popcnt_impl.
  rewrite popcnt_loop_table, avx2_loop_table by (done || lia).
  by destruct f as [[] []], strategy.
Qed.

(** ** Operations *)

Lemma wf_lookup bm i b : wf bm -> bm_bytes bm !! i = Some b -> is_byte b.
Proof. intros Hw Hi. exact (Forall_lookup_1 _ _ _ _ Hw Hi). Qed.

Lemma bit_past l i : (8 * length l <= i)%nat -> bit l i = false.
Proof.
  intros Hi. unfold bit. rewrite lookup_ge_None_2; [apply Z.testbit_0_l|].
  apply Nat.div_le_lower_bound; lia.
Qed.

Lemma default_resize n l i : (length l <= n)%nat -> default 0 (resize n l !! i) = default 0 (l !! i).
Proof.
  intros Hn. unfold resize. destruct (Nat.lt_ge_cases i (length l)) as [Hi|Hi].
  - by rewrite lookup_app_l.
  - rewrite lookup_app_r, (lookup_ge_None_2 l) by done. simpl.
    destruct (replicate _ _ !! _) as [x|] eqn:E; [|done]. by apply lookup_replicate in E as [-> _].
Qed.

Lemma get_bit_spec bm i : wf bm -> get_bit bm i = Some (bit (bm_bytes bm) i).
Proof.
  intros Hw. unfold get_bit. pose proof (Nat.mod_upper_bound i 8 ltac:(lia)) as Hm.
  destruct (Nat.leb_spec (length (bm_bytes bm)) (i / 8)) as [Hl|Hl].
  - rewrite bit_past; [done|]. pose proof (Nat.div_mod i 8). lia.
  - destruct (lookup_lt_is_Some_2 _ _ Hl) as [b Hb]. unfold bit. rewrite Hb. simpl.
    by rewrite get_bit_byte by (done || by eapply wf_lookup).
Qed.

(** The array that [set_bit] works on. *)
Lemma grown_bytes l i :
  Forall is_byte l ->
  let bs := if (length l <=? i)%nat then resize (i + 1) l else l in
  Forall is_byte bs /\ length bs = Nat.max (length l) (i + 1) /\
  forall j, default 0 (bs !! j) = default 0 (l !! j).
Proof.
  intros Hl bs. subst bs. destruct (Nat.leb_spec (length l) i); [|split_and!; [done|lia|done]].
  split_and!; [|unfold resize; rewrite length_app, length_replicate; lia|intros j; apply default_resize; lia].
  apply Forall_app. split; [done|]. apply Forall_replicate. unfold is_byte. lia.
Qed.

Lemma set_bit_spec bm i value :
  wf bm ->
  exists bm', set_bit bm i value = Some (bit (bm_bytes bm) i, bm') /\ wf bm' /\
    bit_len bm' = Nat.max (bit_len bm) (8 * (i / 8 + 1)) /\
    forall j, bit (bm_bytes bm') j = if (j =? i)%nat then value else bit (bm_bytes bm) j.
Proof.
  intros Hw. unfold set_bit. destruct (grown_bytes _ (i / 8) Hw) as (Hbs & Hlen & Hdef).
  set (bs := if (length (bm_bytes bm) <=? i / 8)%nat then _ else _) in *. clearbody bs.
  destruct (lookup_lt_is_Some_2 bs (i / 8) ltac:(lia)) as [b Hb]. rewrite Hb. cbn [mbind option_bind].
  pose proof (Forall_lookup_1 _ _ _ _ Hbs Hb) as Hbb.
  pose proof (Nat.mod_upper_bound i 8 ltac:(lia)) as Hm.
  destruct (put_bit_spec b (i mod 8) value Hbb Hm) as (Hpb & Hold & Hput).
  rewrite vec_set_insert by (apply lookup_lt_Some in Hb; done). cbn [mbind option_bind].
  assert (Z.testbit b (7 - Z.of_nat (i mod 8)) = bit (bm_bytes bm) i) as Hbit.
  { unfold bit. by rewrite <- Hdef, Hb. }
  exists (mkBitmap (<[(i / 8)%nat := put_bit b (i mod 8) value]> bs)).
  split; [by rewrite <- Hbit, <- Hold|]. cbn [bm_bytes]. split_and!.
  - by apply Forall_insert.
  - unfold bit_len. cbn [bm_bytes]. rewrite length_insert. lia.
  - intros j. pose proof (Nat.div_mod i 8 ltac:(lia)) as Hi. pose proof (Nat.div_mod j 8 ltac:(lia)) as Hj.
    pose proof (Nat.mod_upper_bound j 8 ltac:(lia)) as Hmj. unfold bit at 1.
    destruct (Nat.eq_dec (j / 8)%nat (i / 8)%nat) as [He|He].
    + rewrite He, list_lookup_insert_eq by lia. simpl. rewrite Hput by done.
      destruct (Nat.eqb_spec (j mod 8) (i mod 8)), (Nat.eqb_spec j i); try lia; [done|].
      unfold bit. by rewrite He, <- Hdef, Hb.
    + rewrite list_lookup_insert_ne, Hdef by done. by destruct (Nat.eqb_spec j i) as [->|].
Qed.

(** The bits of a stretch of whole bytes. *)
Lemma middle_bits l a b :
  Forall is_byte l -> (a <= b)%nat -> (b <= length l)%nat ->
  exists m, slice_get l a b = Some m /\ Forall is_byte m /\
    bitcount_lookup_table m = count_bits l (8 * a) (8 * (b - a)).
Proof.
  intros Hl Hab Hb. unfold slice_get. rewrite !(proj2 (Nat.leb_le _ _)) by done. cbn [andb].
  eexists. split; [done|]. assert (Forall is_byte (take (b - a) (drop a l))) as Hm by (by apply Forall_take, Forall_drop).
  split; [done|]. rewrite lookup_table_bits by done.
  rewrite length_take, length_drop, Nat.min_l by lia.
  rewrite <- (Nat.add_0_r (8 * a)), count_bits_drop. rewrite <- (take_drop (b - a) (drop a l)) at 2.
  rewrite count_bits_app_l; [done|]. rewrite length_take, length_drop. lia.
Qed.

Lemma bitcount_in_spec count_middle bm start end_ :
  wf bm -> (forall l, Forall is_byte l -> count_middle l = bitcount_lookup_table l) ->
  bitcount_in count_middle bm start end_ =
    Some (count_bits (bm_bytes bm) start (Nat.min end_ (bit_len bm) - start)).
Proof.
  intros Hw Hc. unfold bitcount_in.
  assert (Nat.min end_ (bit_len bm) <= 8 * length (bm_bytes bm))%nat as He by (unfold bit_len; lia).
  set (end' := Nat.min end_ (bit_len bm)) in *. clearbody end'. set (start' := Nat.min start end').
  destruct (Nat.leb_spec end' start') as [Hle|Hlt].
  { by replace (end' - start)%nat with 0%nat by lia. }
  assert (start' = start) as -> by lia.
  pose proof (Nat.div_mod start 8 ltac:(lia)) as Hs. pose proof (Nat.mod_upper_bound start 8 ltac:(lia)) as Hsm.
  pose proof (Nat.div_mod (end' - 1) 8 ltac:(lia)) as Hd. pose proof (Nat.mod_upper_bound (end' - 1) 8 ltac:(lia)) as Hdm.
  pose proof (Nat.div_mod end' 8 ltac:(lia)) as Hee. pose proof (Nat.mod_upper_bound end' 8 ltac:(lia)) as Hem.
  assert (last_bit (end' mod 8) = end' - 8 * ((end' - 1) / 8))%nat as Hlast.
  { unfold last_bit. destruct (Nat.eqb_spec (end' mod 8) 0); lia. }
  set (sbyte := (start / 8)%nat) in *. set (ebyte := ((end' - 1) / 8)%nat) in *.
  set (sb := (start mod 8)%nat) in *. set (eb := (end' mod 8)%nat) in *.
  destruct (mask_pair sb eb Hsm Hem) as [Hm1 Hm2].
  destruct (lookup_lt_is_Some_2 (bm_bytes bm) sbyte ltac:(lia)) as [b1 Hb1].
  destruct (lookup_lt_is_Some_2 (bm_bytes bm) ebyte ltac:(lia)) as [b2 Hb2].
  pose proof (wf_lookup bm _ _ Hw Hb1) as Hw1. pose proof (wf_lookup bm _ _ Hw Hb2) as Hw2.
  destruct (Nat.eqb_spec sbyte ebyte) as [Heq|Hne].
  - rewrite Hb1. cbn [mbind option_bind].
    assert ((if (eb =? 0)%nat then first_mask sb else Z.land (first_mask sb) (last_mask eb)) =
      Z.land (first_mask sb) (last_mask eb)) as ->.
    { destruct (Nat.eqb_spec eb 0) as [E|]; [|done]. by rewrite E, last_mask_0, Hm1. }
    rewrite masked_bits by (done || lia). f_equal. rewrite Hs.
    rewrite (count_bits_byte _ sbyte b1) by (done || lia). f_equal. lia.
  - rewrite Hb1. cbn [mbind option_bind]. rewrite <- Hm1, <- (last_mask_0).
    rewrite (masked_bits b1 sb 0) by (done || unfold last_bit; simpl; lia).
    assert (exists k, k = (ebyte - sbyte - 1)%nat /\
      (count ← (if (sbyte + 1 <? ebyte)%nat then
                  middle_bytes ← slice_get (bm_bytes bm) (sbyte + 1) ebyte;
                  Some (count_bits [b1] sb (last_bit 0 - sb) + count_middle middle_bytes)
                else Some (count_bits [b1] sb (last_bit 0 - sb))) ;
       byte ← bm_bytes bm !! ebyte;
       Some (count + table (Z.land byte (last_mask eb)))) =
      Some (count_bits [b1] sb (last_bit 0 - sb) + count_bits (bm_bytes bm) (8 * (sbyte + 1)) (8 * k) +
            count_bits [b2] 0 (last_bit eb))) as (k & Hk & ->).
    { eexists. split; [done|]. rewrite Hb2, <- Hm2, <- first_mask_0.
      destruct (Nat.ltb_spec (sbyte + 1) ebyte) as [Hlt1|Hge].
      - destruct (middle_bits (bm_bytes bm) (sbyte + 1) ebyte Hw ltac:(lia) ltac:(lia)) as (m & -> & Hm & Hcm).
        cbn [mbind option_bind]. rewrite Hc, Hcm, masked_bits by (done || lia). do 2 f_equal; [f_equal; f_equal; lia|f_equal; lia].
      - cbn [mbind option_bind]. rewrite masked_bits by (done || lia).
        replace (ebyte - sbyte - 1)%nat with 0%nat by lia. f_equal. simpl. rewrite Z.add_0_r. do 2 f_equal. lia. }
    f_equal. rewrite <- (count_bits_byte _ sbyte b1 sb _ Hb1) by (unfold last_bit; simpl; lia).
    rewrite <- (count_bits_byte _ ebyte b2 0 _ Hb2) by lia.
    replace (8 * ebyte + 0)%nat with (8 * (sbyte + 1) + 8 * k)%nat by lia. rewrite <- Z.add_assoc, <- count_bits_add.
    replace (8 * (sbyte + 1))%nat with (8 * sbyte + sb + (last_bit 0 - sb))%nat by (unfold last_bit; simpl; lia).
    rewrite <- count_bits_add, <- Hs. f_equal. unfold last_bit at 1. simpl. lia.
Qed.

Lemma lookup_combine f a b i :
  f 0 0 = 0 -> default 0 (combine_bytes f a b !! i) = f (default 0 (a !! i)) (default 0 (b !! i)).
Proof.
  intros Hf. unfold combine_bytes. rewrite list_lookup_fmap.
  destruct (Nat.lt_ge_cases i (Nat.max (length a) (length b))) as [Hi|Hi].
  - by rewrite lookup_seq_lt.
  - rewrite lookup_seq_ge by lia. simpl. by rewrite !lookup_ge_None_2 by lia.
Qed.

Lemma byte_op_range f :
  (forall x y, is_u 8 x -> is_u 8 y -> is_u 8 (f x y)) -> forall a b, Forall is_byte a -> Forall is_byte b ->
  Forall is_byte (combine_bytes f a b) /\ Forall is_byte (zip_with f a b).
Proof.
  intros Hf a b Ha Hb. assert (forall l i, Forall is_byte l -> is_byte (default 0 (l !! i))) as Hd.
  { intros l i Hl. destruct (l !! i) eqn:E; [by eapply Forall_lookup_1|]. simpl. unfold is_byte. lia. }
  split.
  - apply Forall_fmap, Forall_forall. intros i _. simpl. apply Hf; by apply Hd.
  - revert b Hb. induction Ha as [|x a Hx Ha IH]; intros b Hb; [constructor|]. destruct Hb as [|y b Hy Hb]; [constructor|].
    simpl. constructor; [by apply Hf|by apply IH].
Qed.

Lemma land_u8 x y : is_u 8 x -> is_u 8 y -> is_u 8 (Z.land x y).
Proof.
  intros Hx Hy. assert (Z.land x y = Z.land x y mod 2 ^ 8) as ->; [|by apply wrapu_is_u].
  rewrite <- Z.land_ones, <- Z.land_assoc, (Z.land_ones y) by lia. f_equal. symmetry. by apply Z.mod_small.
Qed.

Lemma lxor_u8 x y : is_u 8 x -> is_u 8 y -> is_u 8 (Z.lxor x y).
Proof.
  intros Hx Hy. assert (Z.lxor x y = Z.lxor x y mod 2 ^ 8) as ->; [|by apply wrapu_is_u].
  rewrite <- Z.land_ones by lia. apply Z.bits_inj'. intros n Hn. rewrite Z.land_spec, !Z.lxor_spec.
  destruct (Z.ltb_spec n 8).
  - by rewrite Z.ones_spec_low, andb_true_r by lia.
  - rewrite Z.ones_spec_high, andb_false_r by lia.
    rewrite <- (wrapu_small 8 x Hx), <- (wrapu_small 8 y Hy). unfold wrapu.
    by rewrite !Z.mod_pow2_bits_high by lia.
Qed.

Lemma bit_not bm i :
  wf bm -> (i < bit_len bm)%nat -> bit (bm_bytes (bitnot bm)) i = negb (bit (bm_bytes bm) i).
Proof.
  intros Hw Hi. unfold bit, bitnot, bit_len in *. cbn [bm_bytes]. rewrite list_lookup_fmap.
  destruct (lookup_lt_is_Some_2 (bm_bytes bm) (i / 8)) as [b Hb]; [apply Nat.Div0.div_lt_upper_bound; lia|].
  rewrite Hb. simpl. pose proof (wf_lookup bm _ _ Hw Hb) as Hbb.
  pose proof (by_bytes (fun b => for_bits (fun k =>
    eqb (Z.testbit (255 - b) (7 - Z.of_nat k)) (negb (Z.testbit b (7 - Z.of_nat k))))) b ltac:(by vm_compute) Hbb) as H.
  apply eqb_prop. exact (by_bits _ _ H (Nat.mod_upper_bound i 8 ltac:(lia))).
Qed.

Lemma bitand_spec a b :
  wf a -> wf b ->
  wf (bitand a b) /\ forall i, bit (bm_bytes (bitand a b)) i = bit (bm_bytes a) i && bit (bm_bytes b) i.
Proof.
  intros Ha Hb. split; [exact (proj2 (byte_op_range Z.land land_u8 _ _ Ha Hb))|].
  intros i. unfold bit, bitand. cbn [bm_bytes]. rewrite lookup_zip_with, <- Z.land_spec. f_equal.
  destruct (bm_bytes a !! _) as [x|], (bm_bytes b !! _) as [y|]; simpl; rewrite ?Z.land_0_r; done.
Qed.

Lemma bitor_spec a b :
  wf a -> wf b ->
  wf (bitor a b) /\ forall i, bit (bm_bytes (bitor a b)) i = bit (bm_bytes a) i || bit (bm_bytes b) i.
Proof.
  intros Ha Hb. split.
  - apply byte_op_range; [|done|done]. intros x y Hx Hy. by apply lor_is_u.
  - intros i. unfold bit, bitor. cbn [bm_bytes]. by rewrite lookup_combine, Z.lor_spec.
Qed.

Lemma bitxor_spec a b :
  wf a -> wf b ->
  wf (bitxor a b) /\ forall i, bit (bm_bytes (bitxor a b)) i = xorb (bit (bm_bytes a) i) (bit (bm_bytes b) i).
Proof.
  intros Ha Hb. split; [exact (proj1 (byte_op_range Z.lxor lxor_u8 _ _ Ha Hb))|].
  intros i. unfold bit, bitxor. cbn [bm_bytes]. by rewrite lookup_combine, Z.lxor_spec.
Qed.

Lemma bitnot_spec a :
  wf a ->
  wf (bitnot a) /\ bit_len (bitnot a) = bit_len a /\
  forall i, (i < bit_len a)%nat -> bit (bm_bytes (bitnot a)) i = negb (bit (bm_bytes a) i).
Proof.
  intros Ha. split_and!.
  - apply Forall_fmap. eapply Forall_impl; [exact Ha|]. unfold is_byte. simpl. intros x. lia.
  - unfold bit_len, bitnot. cbn [bm_bytes]. by rewrite length_fmap.
  - intros i. by apply bit_not.
Qed.

(** C31. A bitmap is an endless row of bits: reading gives a bit, writing
    changes that bit alone, reports what it was and grows the array by whole
    bytes as needed; counting a range counts its bits up to the end of the array,
    whatever instructions the processor has and whichever way is asked for; the
    logical operations act bit by bit ([NOT] within the array); and no index is
    ever out of range. *)
Theorem bitmap_is_bits (f : CpuFeatures) (a b : Bitmap) :
  wf a -> wf b ->
  (forall i, get_bit a i = Some (bit (bm_bytes a) i)) /\
  (forall i value, exists a', set_bit a i value = Some (bit (bm_bytes a) i, a') /\ wf a' /\
     bit_len a' = Nat.max (bit_len a) (8 * (i / 8 + 1)) /\
     forall j, bit (bm_bytes a') j = if (j =? i)%nat then value else bit (bm_bytes a) j) /\
  (forall start end_ strategy,
     let n := count_bits (bm_bytes a) start (Nat.min end_ (bit_len a) - start) in
     bitcount f a start end_ = Some n /\ bitcount_with_strategy f a start end_ strategy = Some n) /\
  bitcount_all f a = count_bits (bm_bytes a) 0 (bit_len a) /\
  (wf (bitand a b) /\ forall i, bit (bm_bytes (bitand a b)) i = bit (bm_bytes a) i && bit (bm_bytes b) i) /\
  (wf (bitor a b) /\ forall i, bit (bm_bytes (bitor a b)) i = bit (bm_bytes a) i || bit (bm_bytes b) i) /\
  (wf (bitxor a b) /\ forall i, bit (bm_bytes (bitxor a b)) i = xorb (bit (bm_bytes a) i) (bit (bm_bytes b) i)) /\
  (wf (bitnot a) /\ bit_len (bitnot a) = bit_len a /\
   forall i, (i < bit_len a)%nat -> bit (bm_bytes (bitnot a)) i = negb (bit (bm_bytes a) i)).
Proof.
  intros Ha Hb. refine (conj _ (conj _ (conj _ (conj _ (conj _ (conj _ (conj _ _))))))).
  - intros i. by apply get_bit_spec.
  - intros i value. by apply set_bit_spec.
  - intros start end_ strategy n. split; apply bitcount_in_spec; try done; intros l Hl; by apply (strategies_agree f l strategy).
  - unfold bitcount_all, bit_len. rewrite (proj2 (strategies_agree f _ LookupTable Ha)), lookup_table_bits by done.
    f_equal. lia.
  - by apply bitand_spec.
  - by apply bitor_spec.
  - by apply bitxor_spec.
  - by apply bitnot_spec.
Qed.

Lemma bitmap_is_bits_witness :
  bitcount (mkCpu true true) (mkBitmap (replicate 41 0xA5)) 3 300 =
    Some (count_bits (replicate 41 0xA5) 3 297) /\ count_bits (replicate 41 0xA5) 3 297 = 148.
Proof.
  split; [|by vm_compute].
  destruct (bitmap_is_bits (mkCpu true true) (mkBitmap (replicate 41 0xA5)) new) as (_ & _ & H & _).
  - apply Forall_replicate. split; by vm_compute.
  - apply Forall_nil_2.
  - exact (proj1 (H 3%nat 300%nat Popcnt)).
Defined.
