(* ===== verification/Expire.v ===== *)
(** * Keys with a time to live

    Models [ExpireMap] of [src/src/database/expire/expire_base.rs].  The clock
    is an argument of the calls that read it.  The [HashMap] is a finite map, of
    which no iteration order is observed; the [BinaryHeap] is the list of its
    pairs in the order in which it would give them out. *)
From S2P Require Import Prelude.
Local Open Scope Z_scope.

Record ExpireMap : Type := mkExpire {
  deadlines : gmap bytes Z;
  queue : list (Z * bytes);
}.

Definition new : ExpireMap := mkExpire ∅ [].

(** The order of the pairs of the heap. *)
Definition pair_le (x y : Z * bytes) : bool :=
  (x.1 <? y.1) || ((x.1 =? y.1) && match slice_cmp x.2 y.2 with Gt => false | _ => true end).

(** [BinaryHeap::push] *)
Fixpoint heap_push (x : Z * bytes) (q : list (Z * bytes)) : list (Z * bytes) :=
  match q with
  | [] => [x]
  | y :: q' => if pair_le x y then x :: q else y :: heap_push x q'
  end.

Definition set (now : Z) (em : ExpireMap) (key : bytes) (ttl : Z) : ExpireMap :=
  let deadline := now + ttl in
  mkExpire (<[key := deadline]> (deadlines em)) (heap_push (deadline, key) (queue em)).

(** The loop of [purge]. *)
Fixpoint purge_loop (now : Z) (ds : gmap bytes Z) (q : list (Z * bytes)) (expired : list bytes)
  : list bytes * ExpireMap :=
  match q with
  | [] => (expired, mkExpire ds [])
  | (deadline, key) :: q' =>
      if now <? deadline then (expired, mkExpire ds q)
      else
        match ds !! key with
        | Some sorted_deadline =>
            if sorted_deadline <=? now then purge_loop now (delete key ds) q' (expired ++ [key])
            else purge_loop now ds q' expired
        | None => purge_loop now ds q' expired
        end
  end.

Definition purge (now : Z) (em : ExpireMap) : list bytes * ExpireMap :=
  purge_loop now (deadlines em) (queue em) [].

Definition get (now : Z) (em : ExpireMap) (key : bytes) : bool * ExpireMap :=
  let em := (purge now em).2 in
  (bool_decide (is_Some (deadlines em !! key)), em).

Definition remove (em : ExpireMap) (key : bytes) : ExpireMap :=
  mkExpire (delete key (deadlines em)) (queue em).

(** ** Sequences of calls, each with the time of its clock *)

Inductive op : Type :=
| Set_ (key : bytes) (ttl : Z)
| Get (key : bytes)
| Remove (key : bytes)
| Purge.

Inductive answer : Type := ADone | ABool (b : bool) | AKeys (l : list bytes).

Definition exec (now : Z) (em : ExpireMap) (o : op) : answer * ExpireMap :=
  match o with
  | Set_ key ttl => (ADone, set now em key ttl)
  | Get key => let '(b, em) := get now em key in (ABool b, em)
  | Remove key => (ADone, remove em key)
  | Purge => let '(l, em) := purge now em in (AKeys l, em)
  end.

Fixpoint exec_all (em : ExpireMap) (l : list (Z * op)) : list answer * ExpireMap :=
  match l with
  | [] => ([], em)
  | (now, o) :: l =>
      let '(a, em) := exec now em o in
      let '(answers, em) := exec_all em l in (a :: answers, em)
  end.

(** ** Specification

    A map from keys to deadlines, without those that have passed. *)
Definition alive (now : Z) (m : gmap bytes Z) : gmap bytes Z := filter (fun kd => now < kd.2) m.

Definition spec_map (now : Z) (m : gmap bytes Z) (o : op) : gmap bytes Z :=
  match o with
  | Set_ key ttl => <[key := now + ttl]> m
  | Get _ | Purge => alive now m
  | Remove key => delete key m
  end.

Definition spec_answer (now : Z) (m : gmap bytes Z) (o : op) (a : answer) : Prop :=
  match o with
  | Set_ _ _ | Remove _ => a = ADone
  | Get key => a = ABool (bool_decide (is_Some (alive now m !! key)))
  | Purge => exists l, a = AKeys l /\ NoDup l /\ forall k, k ∈ l <-> exists d, m !! k = Some d /\ d <= now
  end.

Fixpoint spec_all (m : gmap bytes Z) (l : list (Z * op)) (answers : list answer) : Prop :=
  match l, answers with
  | [], [] => True
  | (now, o) :: l, a :: answers => spec_answer now m o a /\ spec_all (spec_map now m o) l answers
  | _, _ => False
  end.

(** ** The invariant *)

(** The heap is in order and has an entry for every deadline. *)
Definition inv (em : ExpireMap) : Prop :=
  StronglySorted (fun x y => x.1 <= y.1) (queue em) /\
  forall k d, deadlines em !! k = Some d -> (d, k) ∈ queue em.

Lemma elem_of_heap_push x y q : y ∈ heap_push x q <-> y = x \/ y ∈ q.
Proof.
  induction q as [|z q IH]; simpl; [set_solver|]. case_match; [set_solver|].
  rewrite elem_of_cons, IH. set_solver.
Qed.

Lemma pair_le_fst x y : if pair_le x y then x.1 <= y.1 else y.1 <= x.1.
Proof.
  unfold pair_le. destruct (Z.ltb_spec x.1 y.1); simpl; [lia|]. destruct (Z.eqb_spec x.1 y.1); simpl; [|lia].
  case_match; lia.
Qed.

Lemma heap_push_sorted x q :
  StronglySorted (fun x y => x.1 <= y.1) q -> StronglySorted (fun x y => x.1 <= y.1) (heap_push x q).
Proof.
  induction 1 as [|y q Hs IH Hy]; simpl; [repeat constructor|].
  pose proof (pair_le_fst x y) as Hle. destruct (pair_le x y); constructor.
  - by constructor.
  - constructor; [done|]. eapply Forall_impl; [exact Hy|]. simpl. lia.
  - done.
  - apply Forall_forall. intros z Hz%elem_of_heap_push. rewrite Forall_forall in Hy.
    destruct Hz as [->|Hz]; [done|by apply Hy].
Qed.

Lemma alive_lookup now m k d : alive now m !! k = Some d <-> m !! k = Some d /\ now < d.
Proof. unfold alive. by rewrite map_lookup_filter_Some. Qed.

(** [purge] drops exactly what has expired. *)
Lemma purge_loop_spec now ds q expired :
  StronglySorted (fun x y => x.1 <= y.1) q -> (forall k d, ds !! k = Some d -> (d, k) ∈ q) ->
  NoDup expired -> (forall k, k ∈ expired -> ds !! k = None) ->
  exists l em, purge_loop now ds q expired = (l, em) /\ inv em /\ deadlines em = alive now ds /\
    NoDup l /\ forall k, k ∈ l <-> k ∈ expired \/ exists d, ds !! k = Some d /\ d <= now.
Proof.
  revert ds expired. induction q as [|[d k] q IH]; intros ds expired Hs Hin Hnd Hex; simpl.
  - assert (ds = ∅) as ->. { apply map_eq. intros k. rewrite lookup_empty. destruct (ds !! k) eqn:E; [|done]. by apply Hin, elem_of_nil in E. }
    eexists _, _. split_and!; [done|by split; [constructor|]|by unfold alive; rewrite map_filter_empty|done|].
    intros k. rewrite lookup_empty. naive_solver.
  - destruct (Z.ltb_spec now d) as [Hlt|Hge].
    + assert (forall k' d', ds !! k' = Some d' -> now < d') as Hall.
      { intros k' d' Hk. apply Hin in Hk. inversion Hs as [|? ? _ Hd]; subst. rewrite Forall_forall in Hd.
        apply elem_of_cons in Hk as [[= -> ->]|Hk]; [done|]. specialize (Hd _ Hk). simpl in Hd. lia. }
      eexists _, _. split_and!; [done|by split|simpl; symmetry|done|].
      * apply map_filter_id. intros k' d' Hk. by apply (Hall k').
      * intros k'. split; [by left|]. intros [Hk|(d' & Hk & Hd)]; [done|]. apply Hall in Hk. lia.
    + apply StronglySorted_inv in Hs as [Hs _].
      assert (forall k' d', ds !! k' = Some d' -> now < d' \/ k' <> k -> (d', k') ∈ q) as Hin'.
      { intros k' d' Hk Hne. apply Hin, elem_of_cons in Hk as [[= -> ->]|Hk]; [|done]. destruct Hne; [lia|done]. }
      destruct (ds !! k) as [sd|] eqn:Ek; [destruct (Z.leb_spec sd now) as [Hsd|Hsd]|].
      * destruct (IH (delete k ds) (expired ++ [k])) as (l & em & -> & Hinv & Hd & Hnd' & Hl); [done| | | |].
        -- intros k' d' [Hne Hk]%lookup_delete_Some. apply Hin'; [done|]. by right.
        -- apply NoDup_app. split_and!; [done| |apply NoDup_singleton].
           intros k' Hk' ->%list_elem_of_singleton. apply Hex in Hk'. congruence.
        -- intros k' [Hk'| ->%list_elem_of_singleton]%elem_of_app; [|by rewrite lookup_delete_eq].
           rewrite lookup_delete_None. right. by apply Hex.
        -- eexists _, _. split_and!; [done|done| |done|].
           ++ rewrite Hd. apply map_eq. intros k'. apply option_eq. intros d'. rewrite !alive_lookup, lookup_delete_Some.
              split; [naive_solver|]. intros [Hk Hlt]. split_and!; [|done|done]. intros ->. simplify_eq. lia.
           ++ intros k'. rewrite Hl, elem_of_app, list_elem_of_singleton. setoid_rewrite lookup_delete_Some.
              split; [naive_solver|]. intros [Hk'|(d' & Hk & Hle)]; [by left; left|].
              destruct (decide (k' = k)) as [->|]; [by left; right|right; naive_solver].
      * apply IH; [done| |done|done]. intros k' d' Hk. apply Hin'; [done|].
        destruct (decide (k' = k)) as [->|]; [left; congruence|by right].
      * apply IH; [done| |done|done]. intros k' d' Hk. apply Hin'; [done|]. right. congruence.
Qed.

Lemma purge_spec now em :
  inv em ->
  exists l em', purge now em = (l, em') /\ inv em' /\ deadlines em' = alive now (deadlines em) /\
    NoDup l /\ forall k, k ∈ l <-> exists d, deadlines em !! k = Some d /\ d <= now.
Proof.
  intros [Hs Hin]. destruct (purge_loop_spec now (deadlines em) (queue em) [] Hs Hin) as (l & em' & H1 & H2 & H3 & H4 & H5).
  - constructor.
  - by intros k ?%elem_of_nil.
  - exists l, em'. split_and!; try done. intros k. rewrite H5, elem_of_nil. naive_solver.
Qed.

Lemma expire_exec_spec now em o :
  inv em ->
  let '(a, em') := exec now em o in
  spec_answer now (deadlines em) o a /\ inv em' /\ deadlines em' = spec_map now (deadlines em) o.
Proof.
  intros Hi. destruct o as [k ttl|k|k|]; simpl.
  - split_and!; [done| |done]. destruct Hi as [Hs Hin]. split; simpl; [by apply heap_push_sorted|].
    intros k' d. rewrite elem_of_heap_push. intros [[-> ->]|[_ Hk]]%lookup_insert_Some; [by left|right; by apply Hin].
  - unfold get. destruct (purge_spec now em Hi) as (l & em' & -> & Hi' & Hd & _). simpl. by rewrite Hd.
  - split_and!; [done| |done]. destruct Hi as [Hs Hin]. split; simpl; [done|].
    intros k' d [_ Hk]%lookup_delete_Some. by apply Hin.
  - destruct (purge_spec now em Hi) as (l & em' & -> & Hi' & Hd & Hn & Hl). split_and!; [by eexists|done|done].
Qed.

(** C32. The map of deadlines forgets a key at its deadline and not before:
    whatever the sequence of calls and their times, [get] answers whether the
    deadline set last is still ahead, [purge] returns each key that has expired
    once, no deadline is ever without an entry of the heap, and stale entries of
    the heap, of keys removed or set again, have no effect. *)
Theorem expire_refines_deadlines (calls : list (Z * op)) :
  let '(answers, em) := exec_all new calls in
  spec_all ∅ calls answers /\ inv em /\
  deadlines em = foldl (fun m c => spec_map c.1 m c.2) ∅ calls.
Proof.
  assert (inv new) as Hi. { split; [constructor|]. intros k d. simpl. by rewrite lookup_empty. }
  change ∅ with (deadlines new). revert Hi. generalize new as em.
  induction calls as [|[now o] calls IH]; intros em Hi; [done|].
  cbn [exec_all]. pose proof (expire_exec_spec now em o Hi) as Ho. destruct (exec now em o) as [a em1].
  destruct Ho as (Ha & Hi1 & Hd1). specialize (IH em1 Hi1). destruct (exec_all em1 calls) as [answers em2].
  destruct IH as (Has & Hi2 & Hd2). rewrite Hd1 in *. simpl. auto.
Qed.
