(* ===== verification/Dict.v ===== *)
(** * Dict: the hash table with incremental rehashing

    Models [src/src/database/dict/dict_base.rs] and [entry.rs]: two tables of
    chained buckets, [rehash_idx] (-1 when no rehash is under way) and a hasher,
    which is a parameter ([ahash] is not part of the repository): any function
    from keys to integers.  A chain of boxed nodes is a list of pairs, the
    bucket index and the capacities are [nat], [None] is a panic or a loop that
    runs out of fuel. *)
From S2P Require Import Prelude Interfaces.
Local Open Scope nat_scope.

Definition INITIAL_SIZE : nat := 4.
Definition REHASH_MIN_ENTRIES : nat := 8.
Definition REHASH_MAX_EMPTY_VISITS : nat := 64.

(** [usize::next_power_of_two], far from the overflow. *)
Definition next_power_of_two (n : nat) : nat := 2 ^ Nat.log2_up n.

Section Dict.
Context {K V : Type} `{EqDecision K} (hash : K -> Z).

Record HashTable : Type := mkTable {
  buckets : list (list (K * V));
  size_mask : nat;
  used : nat;
}.

Record Dict : Type := mkDict {
  ht0 : HashTable;
  ht1 : HashTable;
  rehash_idx : Z;
}.

Definition table_with_capacity (cap : nat) : HashTable :=
  if cap =? 0 then mkTable [] 0 0
  else
    let sz := Nat.max (next_power_of_two cap) INITIAL_SIZE in
    mkTable (replicate sz []) (sz - 1) 0.

Definition table_clear (t : HashTable) : HashTable := mkTable [] 0 0.

Definition capacity_of (t : HashTable) : nat := length (buckets t).

Definition is_empty_table (t : HashTable) : bool := capacity_of t =? 0.

Definition with_hasher : Dict := mkDict (table_with_capacity 0) (table_with_capacity 0) (-1).

Definition with_capacity_and_hasher (cap : nat) : Dict :=
  mkDict (table_with_capacity (if cap =? 0 then 0 else cap)) (table_with_capacity 0) (-1).

(** [self.ht[i]], [i] being 0 or 1. *)
Definition table (d : Dict) (i : nat) : HashTable := if i =? 0 then ht0 d else ht1 d.

Definition set_table (d : Dict) (i : nat) (t : HashTable) : Dict :=
  if i =? 0 then mkDict t (ht1 d) (rehash_idx d) else mkDict (ht0 d) t (rehash_idx d).

Definition is_rehashing (d : Dict) : bool := negb (rehash_idx d =? -1)%Z.

(** [(hash as usize) & size_mask] *)
Definition slot_of (t : HashTable) (key : K) : nat :=
  Z.to_nat (Z.land (hash key) (Z.of_nat (size_mask t))).

Definition set_bucket (t : HashTable) (slot : nat) (c : list (K * V)) : HashTable :=
  mkTable (<[slot := c]> (buckets t)) (size_mask t) (used t).

Definition add_used (t : HashTable) : HashTable := mkTable (buckets t) (size_mask t) (used t + 1).

Definition sub_used (t : HashTable) : option HashTable :=
  n ← usize_sub (used t) 1; Some (mkTable (buckets t) (size_mask t) n).

(** A node put at the head of its bucket. *)
Definition push_node (t : HashTable) (e : K * V) : option HashTable :=
  let slot := slot_of t e.1 in
  next ← buckets t !! slot;
  Some (add_used (set_bucket t slot (e :: next))).

(** ** Rehashing *)

(** The inner loop of [rehash_step] and [finish_rehash]: the nodes of a bucket
    of [ht[0]] move to [ht[1]]. *)
Fixpoint move_chain (c : list (K * V)) (t0 t1 : HashTable) (entries_moved : nat)
  : option (HashTable * HashTable * nat) :=
  match c with
  | [] => Some (t0, t1, entries_moved)
  | e :: c =>
      t1 ← push_node t1 e;
      t0 ← sub_used t0;
      move_chain c t0 t1 (entries_moved + 1)
  end.

Fixpoint rehash_loop (fuel : nat) (d : Dict) (entries_moved empty_visits : nat) : option Dict :=
  if (entries_moved <? REHASH_MIN_ENTRIES) || (empty_visits <? REHASH_MAX_EMPTY_VISITS) then
    match fuel with
    | O => None
    | S fuel =>
        let idx := Z.to_nat (rehash_idx d) in
        if capacity_of (ht0 d) <=? idx
        then Some (mkDict (ht1 d) (table_with_capacity 0) (-1))
        else
          c ← buckets (ht0 d) !! idx;
          match c with
          | [] =>
              let empty_visits := empty_visits + 1 in
              let d := mkDict (ht0 d) (ht1 d) (rehash_idx d + 1) in
              if (REHASH_MAX_EMPTY_VISITS <=? empty_visits) && (0 <? entries_moved)
              then Some d else rehash_loop fuel d entries_moved empty_visits
          | _ =>
              '(t0, t1, entries_moved) ← move_chain c (set_bucket (ht0 d) idx []) (ht1 d) entries_moved;
              rehash_loop fuel (mkDict t0 t1 (rehash_idx d + 1)) entries_moved 0
          end
    end
  else Some d.

Definition rehash_step (d : Dict) : option Dict :=
  if negb (is_rehashing d) then Some d else rehash_loop (S (capacity_of (ht0 d))) d 0 0.

Definition expand_if_needed (d : Dict) : Dict :=
  if is_rehashing d then d
  else
    let size := capacity_of (ht0 d) in
    let used := used (ht0 d) in
    if size =? 0 then mkDict (table_with_capacity INITIAL_SIZE) (ht1 d) (rehash_idx d)
    else if size <=? used then mkDict (ht0 d) (table_with_capacity (size * 2)) 0
    else d.

(** [(size as f64 * SHRINK_RATIO) as usize] is [size / 4] for sizes that a
    double represents. *)
Definition shrink_if_needed (d : Dict) : Dict :=
  if is_rehashing d then d
  else
    let size := capacity_of (ht0 d) in
    let used := used (ht0 d) in
    if size <=? INITIAL_SIZE then d
    else
      let shrink_threshold := size / 4 in
      if used <? shrink_threshold
      then mkDict (ht0 d) (table_with_capacity (Nat.max (size / 2) INITIAL_SIZE)) 0
      else d.

(** [for idx in rehash_idx..len] of [finish_rehash], [n] buckets left. *)
Fixpoint finish_loop (n idx : nat) (t0 t1 : HashTable) : option (HashTable * HashTable) :=
  match n with
  | O => Some (t0, t1)
  | S n =>
      c ← buckets t0 !! idx;
      '(t0, t1, _) ← move_chain c (set_bucket t0 idx []) t1 0;
      finish_loop n (idx + 1) t0 t1
  end.

Definition finish_rehash (d : Dict) : option Dict :=
  if negb (is_rehashing d) then Some d
  else
    let len := capacity_of (ht0 d) in
    let idx := Z.to_nat (rehash_idx d) in
    '(_, t1) ← finish_loop (len - idx) idx (ht0 d) (ht1 d);
    Some (mkDict t1 (table_with_capacity 0) (-1)).

Fixpoint force_chain (new_cap : nat) (c : list (K * V)) (new_table : HashTable) : option HashTable :=
  match c with
  | [] => Some new_table
  | e :: c =>
      if new_cap =? 0 then force_chain new_cap c new_table
      else new_table ← push_node new_table e; force_chain new_cap c new_table
  end.

Fixpoint force_buckets (new_cap : nat) (cs : list (list (K * V))) (new_table : HashTable)
  : option HashTable :=
  match cs with
  | [] => Some new_table
  | c :: cs => new_table ← force_chain new_cap c new_table; force_buckets new_cap cs new_table
  end.

Definition force_rehash_to (d : Dict) (target_cap : nat) : option Dict :=
  d ← (if is_rehashing d then finish_rehash d else Some d);
  let new_cap :=
    if target_cap =? 0 then 0 else Nat.max (next_power_of_two target_cap) INITIAL_SIZE in
  if capacity_of (ht0 d) =? new_cap then Some d
  else
    new_table ← force_buckets new_cap (buckets (ht0 d)) (table_with_capacity new_cap);
    Some (mkDict new_table (table_clear (ht1 d)) (-1)).

(** ** Operations *)

Definition len (d : Dict) : nat := used (ht0 d) + used (ht1 d).
Definition is_empty (d : Dict) : bool := len d =? 0.
Definition capacity (d : Dict) : nat := capacity_of (ht0 d).

Definition clear (d : Dict) : Dict := mkDict (table_clear (ht0 d)) (table_clear (ht1 d)) (-1).

Definition reserve (d : Dict) (additional : nat) : option Dict :=
  let needed := len d + additional in
  if needed <=? capacity_of (ht0 d) then Some d else force_rehash_to d needed.

Definition shrink_to_fit (d : Dict) : option Dict :=
  let used := len d in
  let target := if used =? 0 then 0 else Nat.max (next_power_of_two used) INITIAL_SIZE in
  if (capacity_of (ht0 d) <=? target) && negb (is_rehashing d) then Some d
  else force_rehash_to d target.

(** The walks along a chain: the value of a key, its position
    ([find_entry_slot]), its value replaced, its node unlinked. *)
Fixpoint chain_find (key : K) (c : list (K * V)) : option V :=
  match c with
  | [] => None
  | e :: c => if decide (e.1 = key) then Some e.2 else chain_find key c
  end.

Fixpoint chain_pos (key : K) (c : list (K * V)) : option nat :=
  match c with
  | [] => None
  | e :: c => if decide (e.1 = key) then Some 0 else n ← chain_pos key c; Some (S n)
  end.

Fixpoint chain_set (key : K) (val : V) (c : list (K * V)) : option (list (K * V)) :=
  match c with
  | [] => None
  | e :: c =>
      if decide (e.1 = key) then Some ((e.1, val) :: c)
      else c ← chain_set key val c; Some (e :: c)
  end.

Fixpoint chain_remove (key : K) (c : list (K * V)) : option (list (K * V)) :=
  match c with
  | [] => None
  | e :: c => if decide (e.1 = key) then Some c else c ← chain_remove key c; Some (e :: c)
  end.

(** [for table_idx in 0..=1] of [insert]: [Some (Some d)] when the key was
    there and its value was replaced. *)
Fixpoint insert_loop (d : Dict) (key : K) (val : V) (idxs : list nat) : option (option Dict) :=
  match idxs with
  | [] => Some None
  | i :: idxs =>
      if is_empty_table (table d i) then
        if negb (is_rehashing d) then Some None else insert_loop d key val idxs
      else
        let slot := slot_of (table d i) key in
        c ← buckets (table d i) !! slot;
        match chain_set key val c with
        | Some c => Some (Some (set_table d i (set_bucket (table d i) slot c)))
        | None => if negb (is_rehashing d) then Some None else insert_loop d key val idxs
        end
  end.

Definition insert (d : Dict) (key : K) (val : V) : option (bool * Dict) :=
  let d := expand_if_needed d in
  d ← rehash_step d;
  r ← insert_loop d key val [0; 1];
  match r with
  | Some d => Some (false, d)
  | None =>
      let table_idx := if is_rehashing d then 1 else 0 in
      t ← push_node (table d table_idx) (key, val);
      Some (true, set_table d table_idx t)
  end.

Fixpoint get_loop (d : Dict) (key : K) (idxs : list nat) : option (option V) :=
  match idxs with
  | [] => Some None
  | i :: idxs =>
      if is_empty_table (table d i) then
        if negb (is_rehashing d) then Some None else get_loop d key idxs
      else
        c ← buckets (table d i) !! slot_of (table d i) key;
        match chain_find key c with
        | Some v => Some (Some v)
        | None => if negb (is_rehashing d) then Some None else get_loop d key idxs
        end
  end.

Definition get (d : Dict) (key : K) : option (option V) := get_loop d key [0; 1].

(** A reference into a table: the link of bucket [ref_slot] after [ref_depth]
    nodes ([&mut Option<Box<DictNode>>], or the value of its node). *)
Record slot_ref : Type := mkRef {
  ref_table : nat;
  ref_slot : nat;
  ref_depth : nat;
}.

(** What the link holds: the node it points to and the nodes after it. *)
Definition read_slot (d : Dict) (r : slot_ref) : option (list (K * V)) :=
  c ← buckets (table d (ref_table r)) !! ref_slot r; Some (drop (ref_depth r) c).

Definition write_slot (d : Dict) (r : slot_ref) (nodes : list (K * V)) : option Dict :=
  let t := table d (ref_table r) in
  c ← buckets t !! ref_slot r;
  Some (set_table d (ref_table r) (set_bucket t (ref_slot r) (take (ref_depth r) c ++ nodes))).

(** [find_val_mut] or [find_entry_slot] in the bucket of the key. *)
Definition find_slot (d : Dict) (i : nat) (key : K) : option (option slot_ref) :=
  if is_empty_table (table d i) then Some None
  else
    let slot := slot_of (table d i) key in
    c ← buckets (table d i) !! slot;
    Some (option_map (mkRef i slot) (chain_pos key c)).

(** The two tables in turn, as [get_mut] and [entry] search them. *)
Definition find_slots (d : Dict) (key : K) : option (option slot_ref) :=
  r ← find_slot d 0 key;
  match r with
  | Some r => Some (Some r)
  | None => if is_rehashing d then find_slot d 1 key else Some None
  end.

Definition get_mut (d : Dict) (key : K) : option (option slot_ref * Dict) :=
  d ← (if is_rehashing d then rehash_step d else Some d);
  r ← find_slots d key;
  Some (r, d).

(** The value behind a reference, read and assigned. *)
Definition deref (d : Dict) (r : slot_ref) : option V :=
  nodes ← read_slot d r;
  match nodes with [] => None | e :: _ => Some e.2 end.

Definition assign (d : Dict) (r : slot_ref) (val : V) : option Dict :=
  nodes ← read_slot d r;
  match nodes with [] => None | e :: nodes => write_slot d r ((e.1, val) :: nodes) end.

Fixpoint remove_loop (d : Dict) (key : K) (idxs : list nat) : option (bool * Dict) :=
  match idxs with
  | [] => Some (false, d)
  | i :: idxs =>
      let t := table d i in
      if is_empty_table t then
        if negb (is_rehashing d) then Some (false, d) else remove_loop d key idxs
      else
        let slot := slot_of t key in
        c ← buckets t !! slot;
        match chain_remove key c with
        | Some c =>
            t ← sub_used (set_bucket t slot c);
            let d := set_table d i t in
            Some (true, if i =? 0 then shrink_if_needed d else d)
        | None => if negb (is_rehashing d) then Some (false, d) else remove_loop d key idxs
        end
  end.

Definition remove (d : Dict) (key : K) : option (bool * Dict) :=
  d ← (if is_rehashing d then rehash_step d else Some d);
  remove_loop d key [0; 1].

(** ** Entries ([entry.rs]) *)

Inductive Entry : Type :=
| Occupied (r : slot_ref)
| Vacant (key : K) (r : slot_ref).

Definition entry (d : Dict) (key : K) : option (Entry * Dict) :=
  let d := expand_if_needed d in
  d ← rehash_step d;
  r ← find_slots d key;
  match r with
  | Some r => Some (Occupied r, d)
  | None =>
      let target := if is_rehashing d then 1 else 0 in
      let slot_idx := slot_of (table d target) key in
      _ ← buckets (table d target) !! slot_idx;
      Some (Vacant key (mkRef target slot_idx 0), d)
  end.

(** [OccupiedEntry::key], [insert] and [remove]; [get], [get_mut] and
    [into_mut] are [deref] and [assign]. *)
Definition occupied_key (d : Dict) (r : slot_ref) : option K :=
  nodes ← read_slot d r;
  match nodes with [] => None | e :: _ => Some e.1 end.

Definition occupied_insert (d : Dict) (r : slot_ref) (val : V) : option (V * Dict) :=
  old ← deref d r; d ← assign d r val; Some (old, d).

Definition occupied_remove (d : Dict) (r : slot_ref) : option (V * Dict) :=
  nodes ← read_slot d r;
  match nodes with
  | [] => None
  | e :: nodes =>
      d ← write_slot d r nodes;
      t ← sub_used (table d (ref_table r));
      Some (e.2, set_table d (ref_table r) t)
  end.

(** [VacantEntry::insert]; the reference it returns is the one it has. *)
Definition vacant_insert (d : Dict) (key : K) (r : slot_ref) (val : V) : option (slot_ref * Dict) :=
  old_head ← read_slot d r;
  d ← write_slot d r ((key, val) :: old_head);
  Some (r, set_table d (ref_table r) (add_used (table d (ref_table r)))).

Definition or_insert_with_key (d : Dict) (e : Entry) (f : K -> V) : option (slot_ref * Dict) :=
  match e with
  | Occupied r => Some (r, d)
  | Vacant key r => vacant_insert d key r (f key)
  end.

Definition or_insert_with (d : Dict) (e : Entry) (f : unit -> V) : option (slot_ref * Dict) :=
  match e with
  | Occupied r => Some (r, d)
  | Vacant key r => vacant_insert d key r (f tt)
  end.

Definition or_insert (d : Dict) (e : Entry) (default : V) : option (slot_ref * Dict) :=
  match e with
  | Occupied r => Some (r, d)
  | Vacant key r => vacant_insert d key r default
  end.

Definition and_modify (d : Dict) (e : Entry) (f : V -> V) : option (Entry * Dict) :=
  match e with
  | Occupied r => v ← deref d r; d ← assign d r (f v); Some (Occupied r, d)
  | Vacant key r => Some (Vacant key r, d)
  end.

Definition entry_key (d : Dict) (e : Entry) : option K :=
  match e with
  | Occupied r => occupied_key d r
  | Vacant key _ => Some key
  end.

(** ** Iteration, equality, serialization *)

Record DictIter : Type := mkIter {
  table_idx : nat;
  bucket_idx : nat;
  current_entry : list (K * V);
}.

Definition iter : DictIter := mkIter 0 0 [].

(** [DictIter::next] on the tables of [d]; a pass without an element advances
    the bucket or the table. *)
Fixpoint iter_next (fuel : nat) (d : Dict) (it : DictIter) : option (option (K * V) * DictIter) :=
  match fuel with
  | O => None
  | S fuel =>
      match current_entry it with
      | e :: next => Some (Some e, mkIter (table_idx it) (bucket_idx it) next)
      | [] =>
          if capacity_of (table d (table_idx it)) <=? bucket_idx it then
            if (table_idx it =? 0) && negb (is_empty_table (ht1 d))
            then iter_next fuel d (mkIter 1 0 [])
            else Some (None, it)
          else
            c ← buckets (table d (table_idx it)) !! bucket_idx it;
            iter_next fuel d (mkIter (table_idx it) (bucket_idx it + 1) c)
      end
  end.

Definition next (d : Dict) (it : DictIter) : option (option (K * V) * DictIter) :=
  iter_next (capacity_of (ht0 d) + capacity_of (ht1 d) + 3) d it.

(** The iterator drained, [fuel] elements at most. *)
Fixpoint drain (fuel : nat) (d : Dict) (it : DictIter) : option (list (K * V)) :=
  match fuel with
  | O => None
  | S fuel =>
      '(e, it) ← next d it;
      match e with
      | None => Some []
      | Some e => es ← drain fuel d it; Some (e :: es)
      end
  end.

Definition items (d : Dict) : option (list (K * V)) := drain (S (len d)) d iter.

(** [visit_seq]: the pairs of a serialized dictionary inserted in turn. *)
Fixpoint insert_all (d : Dict) (kvs : list (K * V)) : option Dict :=
  match kvs with
  | [] => Some d
  | (k, v) :: kvs => '(_, d) ← insert d k v; insert_all d kvs
  end.

Definition deserialize (kvs : list (K * V)) : option Dict := insert_all with_hasher kvs.

End Dict.
Arguments HashTable : clear implicits.
Arguments Dict : clear implicits.
Arguments Entry : clear implicits.

(** [Serialize]: the pairs in the order of the iterator. *)
Definition serialize {K V} (d : Dict K V) : option (list (K * V)) := items d.

(** [PartialEq]: the other dictionary may have another hasher. *)
Section Equality.
Context {K V : Type} `{EqDecision K, EqDecision V} (hash' : K -> Z).

Fixpoint all_equal (other : Dict K V) (kvs : list (K * V)) : option bool :=
  match kvs with
  | [] => Some true
  | (k, v) :: kvs =>
      r ← get hash' other k;
      if bool_decide (r = Some v) then all_equal other kvs else Some false
  end.

Definition eq (d other : Dict K V) : option bool :=
  if negb (len d =? len other) then Some false
  else kvs ← items d; all_equal other kvs.
End Equality.

(** ** Chains and tables *)

Section Tables.
Context {K V : Type} `{EqDecision K} (hash : K -> Z).
Implicit Types (t : HashTable K V) (c l r : list (K * V)) (d : Dict K V).

Definition elems t : list (K * V) := concat (buckets t).

(** A walk along a chain finds the key or does not, whatever it is for. *)
Lemma chain_split key c :
  (key ∉ c.*1 /\ chain_find key c = None /\ chain_pos key c = None /\
   chain_remove key c = None /\ forall v, chain_set key v c = None) \/
  exists c1 v0 c2, c = c1 ++ (key, v0) :: c2 /\ chain_find key c = Some v0 /\
    chain_pos key c = Some (length c1) /\ chain_remove key c = Some (c1 ++ c2) /\
    forall v, chain_set key v c = Some (c1 ++ (key, v) :: c2).
Proof.
  induction c as [|[k' v'] c IH]; simpl.
  - left. split_and!; try done. by apply not_elem_of_nil.
  - destruct (decide (k' = key)) as [->|Hne].
    + right. by exists [], v', c.
    + destruct IH as [(Hn & -> & -> & -> & Hs)|(c1 & v0 & c2 & -> & -> & -> & -> & Hs)].
      * left. split_and!; try done; [by apply not_elem_of_cons|]. intros v. by rewrite Hs.
      * right. exists ((k', v') :: c1), v0, c2. split_and!; try done. intros v. by rewrite Hs.
Qed.

(** A bucket vector of a legal size with every node in the bucket of its key. *)
Record placed t : Prop := {
  pl_shape : (buckets t = [] /\ size_mask t = 0) \/
    exists n, 2 <= n /\ capacity_of t = 2 ^ n /\ size_mask t = 2 ^ n - 1;
  pl_slot : forall i c e, buckets t !! i = Some c -> e ∈ c -> slot_of hash t e.1 = i;
}.

Record table_ok t : Prop := {
  tk_placed : placed t;
  tk_used : used t = length (elems t);
}.

(** The count of a table plays no part in where its nodes are. *)
Lemma placed_used t n : placed t -> placed (mkTable (buckets t) (size_mask t) n).
Proof. intros [H1 H2]. by constructor. Qed.

Lemma slot_of_lt t key : placed t -> buckets t <> [] -> slot_of hash t key < capacity_of t.
Proof.
  intros [[[? _]|(n & _ & -> & Hm)] _] Hne; [done|]. unfold slot_of. rewrite Hm.
  pose proof (Nat.pow_nonzero 2 n ltac:(lia)).
  rewrite Nat2Z.inj_sub, Nat2Z.inj_pow by lia. change (Z.of_nat 2) with 2%Z.
  rewrite Z.sub_1_r, <- Z.ones_equiv, Z.land_ones by lia.
  pose proof (Z.mod_pos_bound (hash key) (2 ^ Z.of_nat n) ltac:(lia)).
  apply Nat2Z.inj_lt. rewrite Z2Nat.id, Nat2Z.inj_pow by lia. simpl. lia.
Qed.

Lemma bucket_split (bs : list (list (K * V))) s c :
  bs !! s = Some c ->
  exists r, concat bs ≡ₚ c ++ r /\ (forall c', concat (<[s := c']> bs) ≡ₚ c' ++ r) /\
    forall e, e ∈ r -> exists i c2, i <> s /\ bs !! i = Some c2 /\ e ∈ c2.
Proof.
  intros Hs. exists (concat (take s bs) ++ concat (drop (S s) bs)). split_and!.
  - rewrite <- (take_drop_middle bs s c Hs) at 1. rewrite concat_app. simpl.
    rewrite !app_assoc. f_equiv. apply Permutation_app_comm.
  - intros c'. rewrite insert_take_drop by by eapply lookup_lt_Some.
    rewrite concat_app. simpl. rewrite !app_assoc. f_equiv. apply Permutation_app_comm.
  - intros e [He|He]%elem_of_app; apply list_elem_of_In, in_concat in He as (c2 & Hc & He);
      apply list_elem_of_In in Hc, He; apply list_elem_of_lookup in Hc as [i Hi].
    + apply lookup_take_Some in Hi as [Hi Hlt]. exists i, c2. split_and!; [lia|done|done].
    + rewrite lookup_drop in Hi. exists (S s + i), c2. split_and!; [lia|done|done].
Qed.

Lemma placed_set_bucket t s c :
  placed t -> (forall e, e ∈ c -> slot_of hash t e.1 = s) -> placed (set_bucket t s c).
Proof.
  intros [Hsh Hsl] Hc. constructor.
  - destruct Hsh as [[Hb Hm]|(n & Hn & Hl & Hm)].
    + left. simpl. by rewrite Hb.
    + right. exists n. unfold capacity_of in *. simpl. by rewrite length_insert.
  - intros i c' e Hi He. simpl in Hi. change (slot_of hash t e.1 = i).
    apply list_lookup_insert_Some in Hi as [(<- & <- & _)|(_ & Hi)]; [by apply Hc|].
    by apply (Hsl i c').
Qed.

Lemma set_bucket_capacity t s c : capacity_of (set_bucket t s c) = capacity_of t.
Proof. unfold capacity_of. simpl. by rewrite length_insert. Qed.

Lemma bucket_get t key :
  placed t -> buckets t <> [] -> exists c, buckets t !! slot_of hash t key = Some c.
Proof. intros Hp Hne. by apply lookup_lt_is_Some_2, slot_of_lt. Qed.

(** The bucket of a key holds it or nothing in the table does; replacing its
    value and unlinking its node do that to the elements of the table. *)
Lemma table_split t key :
  table_ok t -> buckets t <> [] ->
  exists c, buckets t !! slot_of hash t key = Some c /\
    ((key ∉ (elems t).*1 /\ key ∉ c.*1) \/
     exists c1 v0 c2 r, c = c1 ++ (key, v0) :: c2 /\ elems t ≡ₚ (key, v0) :: r /\
       (forall v, let t' := set_bucket t (slot_of hash t key) (c1 ++ (key, v) :: c2) in
          table_ok t' /\ elems t' ≡ₚ (key, v) :: r) /\
       exists t', sub_used (set_bucket t (slot_of hash t key) (c1 ++ c2)) = Some t' /\
         table_ok t' /\ elems t' ≡ₚ r /\
         buckets t' = <[slot_of hash t key := c1 ++ c2]> (buckets t)).
Proof.
  intros [Hp Hu] Hne. set (s := slot_of hash t key).
  destruct (bucket_get t key Hp Hne) as [c Hc]. fold s in Hc. exists c. split; [done|].
  destruct (bucket_split _ _ _ Hc) as (r0 & Hel & Hset & Hr0).
  assert (forall e, e ∈ c -> slot_of hash t e.1 = s) as Hcs by (intros e; by apply (pl_slot t Hp)).
  destruct (chain_split key c) as [(Hn & _)|(c1 & v0 & c2 & Hceq & _)].
  - left. split; [|done]. unfold elems. rewrite Hel, fmap_app, not_elem_of_app. split; [done|].
    intros (e & Hk & (i & c' & Hi & Hl & He)%Hr0)%list_elem_of_fmap.
    apply Hi. rewrite <- (pl_slot t Hp i c' e Hl He), <- Hk. done.
  - right. exists c1, v0, c2, (c1 ++ c2 ++ r0).
    assert (elems t ≡ₚ (key, v0) :: c1 ++ c2 ++ r0) as Hperm.
    { unfold elems. rewrite Hel, Hceq, <- app_assoc. simpl. by rewrite <- Permutation_middle. }
    split_and!; [done|done| |].
    + intros v. cbv zeta.
      assert (elems (set_bucket t s (c1 ++ (key, v) :: c2)) ≡ₚ (key, v) :: c1 ++ c2 ++ r0) as E.
      { unfold elems. simpl. rewrite Hset, <- app_assoc. simpl. by rewrite <- Permutation_middle. }
      split; [|done]. constructor.
      * apply placed_set_bucket; [done|]. intros e He. rewrite Hceq in Hcs.
        apply elem_of_app in He as [He|[->|He]%elem_of_cons];
          [apply Hcs; set_solver|done|apply Hcs; set_solver].
      * rewrite E. simpl. by rewrite Hu, Hperm.
    + assert (elems (set_bucket t s (c1 ++ c2)) ≡ₚ c1 ++ c2 ++ r0) as E.
      { unfold elems. simpl. by rewrite Hset, <- app_assoc. }
      assert (used t = S (length (c1 ++ c2 ++ r0))) as Hut by by rewrite Hu, Hperm.
      unfold sub_used, usize_sub. simpl used. rewrite Hut. cbn [Nat.leb mbind option_bind].
      rewrite Nat.sub_succ, Nat.sub_0_r.
      eexists. split; [done|]. split_and!; [|done|done].
      constructor; [|by rewrite <- E].
      apply placed_used, placed_set_bucket; [done|]. intros e He. apply Hcs. rewrite Hceq. set_solver.
Qed.

Lemma push_node_spec t e :
  placed t -> buckets t <> [] ->
  exists t', push_node hash t e = Some t' /\ placed t' /\ elems t' ≡ₚ e :: elems t /\
    used t' = S (used t) /\ capacity_of t' = capacity_of t.
Proof.
  intros Hp Hne. unfold push_node. destruct (bucket_get t e.1 Hp Hne) as [c Hc]. rewrite Hc.
  cbn [mbind option_bind]. eexists. split; [done|].
  destruct (bucket_split _ _ _ Hc) as (r0 & Hel & Hset & _). split_and!.
  - pose proof (placed_set_bucket t (slot_of hash t e.1) (e :: c) Hp) as H.
    apply (placed_used _ (used t + 1)) in H; [done|].
    intros e' [->|He]%elem_of_cons; [done|]. by apply (pl_slot t Hp _ c).
  - unfold elems. simpl. by rewrite Hset, Hel.
  - simpl. lia.
  - apply (set_bucket_capacity t).
Qed.

Lemma push_node_ok t e :
  table_ok t -> buckets t <> [] ->
  exists t', push_node hash t e = Some t' /\ table_ok t' /\ elems t' ≡ₚ e :: elems t /\
    capacity_of t' = capacity_of t.
Proof.
  intros [Hp Hu] Hne. destruct (push_node_spec t e Hp Hne) as (t' & ? & ? & He & Hu' & ?).
  exists t'. split_and!; try done. constructor; [done|]. by rewrite Hu', Hu, He.
Qed.

Lemma with_capacity_ok cap :
  let t : HashTable K V := table_with_capacity cap in
  table_ok t /\ elems t = [] /\ (buckets t = [] <-> cap = 0).
Proof.
  cbv zeta. unfold table_with_capacity. destruct (Nat.eqb_spec cap 0) as [->|Hne].
  { split_and!; [|done|done]. constructor; [|done]. constructor; [by left|]. simpl. intros i c e.
    by rewrite lookup_nil. }
  assert (forall sz, concat (replicate sz ([] : list (K * V))) = []) as Hc by (by induction sz).
  unfold elems. simpl. rewrite Hc. split_and!; [|done|].
  - constructor; [|unfold elems; simpl; by rewrite Hc]. constructor.
    + right. unfold capacity_of, next_power_of_two, INITIAL_SIZE. simpl.
      rewrite length_replicate. destruct (Nat.max_spec (2 ^ Nat.log2_up cap) 4) as [[H ->]|[H ->]].
      * by exists 2.
      * exists (Nat.log2_up cap). split; [|done]. change 4 with (2 ^ 2) in H.
        by apply Nat.pow_le_mono_r_iff in H; [|lia].
    + simpl. intros i c e Hi He. apply lookup_replicate in Hi as [-> _]. by apply elem_of_nil in He.
  - split; [|done]. intros H. apply (f_equal length) in H. rewrite length_replicate in H.
    unfold INITIAL_SIZE in H. simpl in H. lia.
Qed.
End Tables.

(** ** Rehashing moves the elements and loses none *)

Section Rehash.
Context {K V : Type} `{EqDecision K} (hash : K -> Z).
Implicit Types (t : HashTable K V) (c l r : list (K * V)) (d : Dict K V).
Notation table_ok := (table_ok hash).
Notation placed := (placed hash).

Definition dict_elems d : list (K * V) := elems (ht0 d) ++ elems (ht1 d).

(** Idle, with the second table empty; or rehashing, with the buckets of the
    first table below [rehash_idx] empty. *)
Inductive phase d : Prop :=
| Idle : rehash_idx d = (-1)%Z -> buckets (ht1 d) = [] -> phase d
| Rehashing : (0 <= rehash_idx d)%Z -> buckets (ht0 d) <> [] -> buckets (ht1 d) <> [] ->
    (forall j c, (Z.of_nat j < rehash_idx d)%Z -> buckets (ht0 d) !! j = Some c -> c = []) ->
    phase d.

Record DInv d : Prop := {
  di_t0 : table_ok (ht0 d);
  di_t1 : table_ok (ht1 d);
  di_keys : NoDup (dict_elems d).*1;
  di_phase : phase d;
}.

(** [d] is well formed and holds the pairs [l], in some order. *)
Definition Holds d l : Prop := DInv d /\ dict_elems d ≡ₚ l.

(** The order of the pairs does not matter. *)
#[global] Instance Holds_Proper d : Proper (Permutation ==> iff) (Holds d).
Proof. intros l1 l2 Hp. unfold Holds. by rewrite Hp. Qed.

Lemma move_chain_spec c t0 t1 m :
  placed t0 -> used t0 = length c + length (elems t0) -> table_ok t1 -> buckets t1 <> [] ->
  exists t0' t1', move_chain hash c t0 t1 m = Some (t0', t1', m + length c) /\
    table_ok t0' /\ buckets t0' = buckets t0 /\ table_ok t1' /\
    elems t1' ≡ₚ c ++ elems t1 /\ capacity_of t1' = capacity_of t1.
Proof.
  revert t0 t1 m. induction c as [|e c IH]; intros t0 t1 m Hp Hu Ht1 Hne; cbn [move_chain].
  - exists t0, t1. rewrite Nat.add_0_r. by split_and!.
  - destruct (push_node_ok hash t1 e Ht1 Hne) as (t1' & -> & Ht1' & He & Hc).
    cbn [mbind option_bind]. unfold sub_used, usize_sub. rewrite Hu. simpl length.
    cbn [Nat.add Nat.leb mbind option_bind]. rewrite Nat.sub_succ, Nat.sub_0_r.
    destruct (IH (mkTable (buckets t0) (size_mask t0) (length c + length (elems t0))) t1' (m + 1))
      as (t0'' & t1'' & -> & H0 & Hb & H1 & He' & Hc'); [by apply placed_used|done|done| |].
    { unfold capacity_of in Hc. intros E. rewrite E in Hc. by destruct (buckets t1). }
    exists t0'', t1''. split_and!; try done.
    + do 2 f_equal. lia.
    + rewrite He', He. simpl. by rewrite Permutation_middle.
    + by rewrite Hc'.
Qed.

(** Moving bucket [idx]. *)
Lemma move_bucket_spec t0 t1 idx c m :
  table_ok t0 -> buckets t0 !! idx = Some c -> table_ok t1 -> buckets t1 <> [] ->
  exists t0' t1', move_chain hash c (set_bucket t0 idx []) t1 m = Some (t0', t1', m + length c) /\
    table_ok t0' /\ buckets t0' = <[idx := []]> (buckets t0) /\ table_ok t1' /\
    elems t0' ++ elems t1' ≡ₚ elems t0 ++ elems t1 /\ capacity_of t1' = capacity_of t1.
Proof.
  intros [Hp Hu] Hc Ht1 Hne. destruct (bucket_split _ _ _ Hc) as (r & Hel & Hset & _).
  destruct (move_chain_spec c (set_bucket t0 idx []) t1 m) as (t0' & t1' & Hm & H0 & Hb & H1 & He & Hcap);
    [apply placed_set_bucket; [done|set_solver]| |done|done|].
  { simpl. unfold elems. simpl. rewrite Hset, Hu. unfold elems. rewrite Hel, length_app. done. }
  exists t0', t1'. split_and!; try done. rewrite He.
  unfold elems at 1. rewrite Hb. simpl. rewrite Hset. unfold elems at 2. rewrite Hel. simpl.
  rewrite app_assoc. f_equiv. apply Permutation_app_comm.
Qed.

Lemma elems_nil t : (forall j c, buckets t !! j = Some c -> c = []) -> elems t = [].
Proof.
  unfold elems. generalize (buckets t). intros bs. induction bs as [|c bs IH]; intros H; [done|].
  simpl. rewrite (H 0 c eq_refl). simpl. apply IH. intros j. apply (H (S j)).
Qed.

Lemma is_rehashing_true d : DInv d -> is_rehashing d = true -> (0 <= rehash_idx d)%Z.
Proof.
  intros [_ _ _ [E|]]; [|done]. unfold is_rehashing. rewrite E. done.
Qed.

Lemma is_rehashing_phase d : DInv d -> is_rehashing d = true ->
  buckets (ht0 d) <> [] /\ buckets (ht1 d) <> [] /\
  forall j c, (Z.of_nat j < rehash_idx d)%Z -> buckets (ht0 d) !! j = Some c -> c = [].
Proof. intros [_ _ _ [E|]]; [|done]. unfold is_rehashing. by rewrite E. Qed.

Lemma is_rehashing_false d : DInv d -> is_rehashing d = false ->
  rehash_idx d = (-1)%Z /\ buckets (ht1 d) = [].
Proof.
  intros [_ _ _ [? ?|H]] E; [done|]. unfold is_rehashing in E.
  apply negb_false_iff, Z.eqb_eq in E. lia.
Qed.

(** The end of a rehash: the second table replaces the first, which is empty. *)
Lemma finish_Holds t0 t1 l :
  table_ok t1 -> NoDup l.*1 -> elems t0 ++ elems t1 ≡ₚ l ->
  (forall j c, buckets t0 !! j = Some c -> c = []) ->
  Holds (mkDict t1 (table_with_capacity 0) (-1)) l.
Proof.
  intros H1 Hk He Hall. rewrite (elems_nil _ Hall) in He. simpl in He.
  destruct (with_capacity_ok (V := V) hash 0) as (Hok & Hz & _).
  assert (dict_elems (mkDict t1 (table_with_capacity 0) (-1)) ≡ₚ l) as E.
  { unfold dict_elems. simpl. unfold elems at 2. simpl. by rewrite app_nil_r. }
  split; [|done]. constructor; simpl; [done|done|by rewrite E|by apply Idle].
Qed.

(** The rehash advances past a bucket it has emptied. *)
Lemma advance_DInv d t0' t1' c :
  DInv d -> (0 <= rehash_idx d)%Z ->
  table_ok t0' -> buckets t0' = <[Z.to_nat (rehash_idx d) := []]> (buckets (ht0 d)) ->
  table_ok t1' -> elems t0' ++ elems t1' ≡ₚ dict_elems d ->
  capacity_of t1' = capacity_of (ht1 d) -> buckets (ht0 d) !! Z.to_nat (rehash_idx d) = Some c ->
  DInv (mkDict t0' t1' (rehash_idx d + 1)).
Proof.
  intros [H0 H1 Hk Hp] Hi Ht0 Hb Ht1 He Hcap Hc.
  destruct Hp as [Hp _|_ Hne0 Hne1 Hpre]; [lia|].
  constructor; simpl; [done|done| |].
  - unfold dict_elems. simpl. by rewrite He.
  - apply Rehashing; simpl; [lia| | |].
    + intros E. rewrite Hb in E. apply (f_equal length) in E. rewrite length_insert in E.
      by destruct (buckets (ht0 d)).
    + intros E. unfold capacity_of in Hcap. rewrite E in Hcap. by destruct (buckets (ht1 d)).
    + intros j c' Hj Hl. rewrite Hb in Hl.
      apply list_lookup_insert_Some in Hl as [(_ & <- & _)|[Hne Hl]]; [done|].
      apply (Hpre j); [lia|done].
Qed.

Lemma Holds_trans d d' l : Holds d l -> Holds d' (dict_elems d) -> Holds d' l.
Proof. intros [_ H] [H1 H2]. split; [done|]. by rewrite H2. Qed.

Lemma rehash_loop_spec fuel d m n :
  DInv d -> is_rehashing d = true ->
  capacity_of (ht0 d) - Z.to_nat (rehash_idx d) < fuel ->
  exists d', rehash_loop hash fuel d m n = Some d' /\ Holds d' (dict_elems d) /\
    buckets (ht0 d') <> [].
Proof.
  revert d m n. induction fuel as [|fuel IH]; intros d m n HI Hr Hf; [lia|].
  pose proof (is_rehashing_true d HI Hr) as Hi. cbn [rehash_loop].
  destruct (is_rehashing_phase d HI Hr) as (Hne0 & Hne1 & Hpre).
  destruct (_ || _); [|by exists d]. cbv zeta.
  destruct (Nat.leb_spec (capacity_of (ht0 d)) (Z.to_nat (rehash_idx d))) as [Hge|Hlt].
  { eexists. split_and!; [done| |done].
    apply (finish_Holds (ht0 d)); [apply HI|apply HI|done|]. intros j c Hj.
    apply (Hpre j); [|done].
    apply lookup_lt_Some in Hj. unfold capacity_of in Hge. lia. }
  destruct (lookup_lt_is_Some_2 (buckets (ht0 d)) (Z.to_nat (rehash_idx d))) as [c Hc]; [done|].
  rewrite Hc. cbn [mbind option_bind].
  assert (forall t0 t1, is_rehashing (mkDict t0 t1 (rehash_idx d + 1)) = true) as Hr'.
  { intros t0 t1. unfold is_rehashing. simpl. apply negb_true_iff, Z.eqb_neq. lia. }
  destruct c as [|e c].
  - assert (DInv (mkDict (ht0 d) (ht1 d) (rehash_idx d + 1))) as HI'.
    { apply (advance_DInv d (ht0 d) (ht1 d) []); try done; [apply HI| |apply HI].
      by rewrite list_insert_id. }
    destruct (_ && _); [by eexists|].
    apply (IH (mkDict (ht0 d) (ht1 d) (rehash_idx d + 1))); [done|apply Hr'|]. simpl. lia.
  - destruct (move_bucket_spec (ht0 d) (ht1 d) (Z.to_nat (rehash_idx d)) (e :: c) m)
      as (t0' & t1' & -> & H0 & Hb & H1 & He & Hcap); [apply HI|done|apply HI| |].
    { apply (is_rehashing_phase d HI Hr). }
    cbn [mbind option_bind].
    assert (DInv (mkDict t0' t1' (rehash_idx d + 1))) as HI'.
    { by apply (advance_DInv d t0' t1' (e :: c)). }
    destruct (IH (mkDict t0' t1' (rehash_idx d + 1)) (m + length (e :: c)) 0 HI' (Hr' _ _))
      as (d' & -> & Hd' & Hb'); [simpl; unfold capacity_of in *; rewrite Hb, length_insert; lia|].
    exists d'. split_and!; [done| |done].
    apply (Holds_trans (mkDict t0' t1' (rehash_idx d + 1))); [|done].
    split; [done|]. unfold dict_elems. simpl. done.
Qed.

Lemma rehash_step_spec d l :
  Holds d l -> exists d', rehash_step hash d = Some d' /\ Holds d' l /\
    (buckets (ht0 d) <> [] -> buckets (ht0 d') <> []).
Proof.
  intros [HI Hl]. unfold rehash_step. destruct (is_rehashing d) eqn:Hr; [|by exists d].
  destruct (rehash_loop_spec (S (capacity_of (ht0 d))) d 0 0 HI Hr ltac:(lia)) as (d' & -> & H & Hne).
  exists d'. split_and!; [done|by apply (Holds_trans d)|done].
Qed.

Lemma maybe_rehash_step d l :
  Holds d l ->
  exists d', (if is_rehashing d then rehash_step hash d else Some d) = Some d' /\ Holds d' l.
Proof.
  intros H. destruct (is_rehashing d); [|by exists d].
  destruct (rehash_step_spec d l H) as (d' & ? & ? & _). by exists d'.
Qed.

Lemma finish_loop_spec n idx t0 t1 :
  table_ok t0 -> table_ok t1 -> buckets t1 <> [] -> n = capacity_of t0 - idx ->
  exists t0' t1', finish_loop hash n idx t0 t1 = Some (t0', t1') /\
    table_ok t0' /\ table_ok t1' /\ capacity_of t1' = capacity_of t1 /\
    elems t0' ++ elems t1' ≡ₚ elems t0 ++ elems t1 /\
    forall j c, buckets t0' !! j = Some c ->
      (j < idx /\ buckets t0 !! j = Some c) \/ c = [].
Proof.
  revert idx t0 t1. induction n as [|n IH]; intros idx t0 t1 H0 H1 Hne Hn; cbn [finish_loop].
  - exists t0, t1. split_and!; try done. intros j c Hj. left. split; [|done].
    apply lookup_lt_Some in Hj. unfold capacity_of in Hn. lia.
  - destruct (lookup_lt_is_Some_2 (buckets t0) idx) as [c Hc]; [unfold capacity_of in Hn; lia|].
    rewrite Hc. cbn [mbind option_bind].
    destruct (move_bucket_spec t0 t1 idx c 0 H0 Hc H1 Hne) as (t0' & t1' & -> & H0' & Hb & H1' & He & Hcap).
    cbn [mbind option_bind]. cbv zeta.
    destruct (IH (idx + 1) t0' t1' H0' H1') as (t0'' & t1'' & -> & H0'' & H1'' & Hcap' & He' & Hall).
    { intros E. unfold capacity_of in Hcap. rewrite E in Hcap. by destruct (buckets t1). }
    { unfold capacity_of in *. rewrite Hb, length_insert. lia. }
    exists t0'', t1''. split_and!; try done; [by rewrite Hcap'|by rewrite He'|].
    intros j c' [[Hj Hl]|?]%Hall; [|by right]. rewrite Hb in Hl.
    apply list_lookup_insert_Some in Hl as [(_ & <- & _)|[Hne' Hl]]; [by right|].
    left. split; [lia|done].
Qed.

Lemma finish_rehash_spec d :
  DInv d -> exists d', finish_rehash hash d = Some d' /\ Holds d' (dict_elems d) /\
    is_rehashing d' = false.
Proof.
  intros HI. unfold finish_rehash. destruct (is_rehashing d) eqn:Hr; [|by exists d].
  simpl negb. cbv zeta iota. pose proof (is_rehashing_true d HI Hr) as Hi.
  destruct (is_rehashing_phase d HI Hr) as (Hne0 & Hne1 & Hpre). destruct HI as [H0 H1 Hk Hp].
  destruct (finish_loop_spec (capacity_of (ht0 d) - Z.to_nat (rehash_idx d))
    (Z.to_nat (rehash_idx d)) (ht0 d) (ht1 d)) as (t0' & t1' & -> & H0' & H1' & Hcap & He & Hall);
    [done..|].
  cbn [mbind option_bind]. eexists. split; [done|]. split; [|done].
  apply (finish_Holds t0'); [done|done|done|].
  intros j c [[Hj Hl]|?]%Hall; [|done]. apply (Hpre j); [lia|done].
Qed.
End Rehash.

(** ** Sizes *)

Section Sizes.
Context {K V : Type} `{EqDecision K} (hash : K -> Z).
Implicit Types (t : HashTable K V) (c l r : list (K * V)) (d : Dict K V).

Lemma with_capacity_buckets cap :
  cap <> 0 -> buckets (table_with_capacity (K := K) (V := V) cap) <> [].
Proof. intros Hc. by rewrite (proj2 (proj2 (with_capacity_ok hash cap))). Qed.

Lemma is_empty_table_true t : is_empty_table t = true <-> buckets t = [].
Proof.
  unfold is_empty_table, capacity_of. rewrite Nat.eqb_eq. split; [apply nil_length_inv|by intros ->].
Qed.

Lemma is_empty_table_false t : is_empty_table t = false <-> buckets t <> [].
Proof. rewrite <- is_empty_table_true. by destruct (is_empty_table t). Qed.

(** A rehash that starts with an empty second table. *)
Lemma start_rehash_Holds d l cap :
  Holds hash d l -> is_rehashing d = false -> buckets (ht0 d) <> [] -> cap <> 0 ->
  Holds hash (mkDict (ht0 d) (table_with_capacity cap) 0) l.
Proof.
  intros [HI Hl] Hr Hne Hc. destruct (is_rehashing_false hash d HI Hr) as [_ Hb1].
  destruct (with_capacity_ok (V := V) hash cap) as (Hok & Hz & Hne').
  assert (dict_elems (mkDict (ht0 d) (table_with_capacity cap) 0) ≡ₚ l) as E.
  { rewrite <- Hl. unfold dict_elems. simpl. rewrite Hz. unfold elems at 3. by rewrite Hb1. }
  split; [|done]. destruct HI as [H0 H1 Hk _].
  constructor; simpl; [done|done|rewrite E, <- Hl; done|].
  apply Rehashing; simpl; [lia|done|by apply with_capacity_buckets|lia].
Qed.

Lemma expand_spec d l :
  Holds hash d l -> Holds hash (expand_if_needed d) l /\ buckets (ht0 (expand_if_needed d)) <> [].
Proof.
  intros HH. pose proof HH as [HI Hl]. unfold expand_if_needed. destruct (is_rehashing d) eqn:Hr.
  { split; [done|]. by apply (is_rehashing_phase hash d HI Hr). }
  cbv zeta. destruct (Nat.eqb_spec (capacity_of (ht0 d)) 0) as [Hz|Hnz].
  - assert (buckets (ht0 d) = []) as Hb by by apply nil_length_inv.
    destruct (is_rehashing_false hash d HI Hr) as [Hi Hb1].
    split; [|by apply with_capacity_buckets].
    destruct (with_capacity_ok (V := V) hash INITIAL_SIZE) as (Hok & Hz' & _).
    assert (dict_elems (mkDict (table_with_capacity INITIAL_SIZE) (ht1 d) (rehash_idx d)) ≡ₚ l) as E.
    { rewrite <- Hl. unfold dict_elems. simpl ht0. rewrite Hz'. unfold elems at 2. by rewrite Hb. }
    destruct HI as [H0 H1 Hk _]. split; [|done].
    constructor; simpl; [done|done|rewrite E, <- Hl; done|by apply Idle].
  - assert (buckets (ht0 d) <> []) as Hne by (intros E; unfold capacity_of in Hnz; by rewrite E in Hnz).
    destruct (_ <=? _); [|done]. split; [|done]. apply start_rehash_Holds; [done|done|done|lia].
Qed.

Lemma shrink_if_needed_spec d l : Holds hash d l -> Holds hash (shrink_if_needed d) l.
Proof.
  intros HH. unfold shrink_if_needed. destruct (is_rehashing d) eqn:Hr; [done|]. cbv zeta.
  destruct (Nat.leb_spec (capacity_of (ht0 d)) INITIAL_SIZE); [done|].
  destruct (_ <? _); [|done]. apply start_rehash_Holds; [done|done| |unfold INITIAL_SIZE; lia].
  intros E. unfold capacity_of in *. rewrite E in *. simpl in *. lia.
Qed.

Lemma force_chain_spec cap c t :
  cap <> 0 -> table_ok hash t -> buckets t <> [] ->
  exists t', force_chain hash cap c t = Some t' /\ table_ok hash t' /\ elems t' ≡ₚ c ++ elems t /\
    buckets t' <> [].
Proof.
  intros Hcap. revert t. induction c as [|e c IH]; intros t Ht Hne; cbn [force_chain].
  - by exists t.
  - rewrite (proj2 (Nat.eqb_neq _ _)) by done.
    destruct (push_node_ok hash t e Ht Hne) as (t1 & -> & Ht1 & He & Hc). cbn [mbind option_bind].
    destruct (IH t1 Ht1) as (t2 & -> & Ht2 & He2 & Hne2).
    { intros E. unfold capacity_of in Hc. rewrite E in Hc. by destruct (buckets t). }
    exists t2. split_and!; try done. rewrite He2, He. simpl. by rewrite Permutation_middle.
Qed.

Lemma force_buckets_spec cap cs t :
  cap <> 0 -> table_ok hash t -> buckets t <> [] ->
  exists t', force_buckets hash cap cs t = Some t' /\ table_ok hash t' /\
    elems t' ≡ₚ concat cs ++ elems t.
Proof.
  intros Hcap. revert t. induction cs as [|c cs IH]; intros t Ht Hne; cbn [force_buckets].
  - by exists t.
  - destruct (force_chain_spec cap c t Hcap Ht Hne) as (t1 & -> & Ht1 & He & Hne1).
    cbn [mbind option_bind]. destruct (IH t1 Ht1 Hne1) as (t2 & -> & Ht2 & He2).
    exists t2. split_and!; try done. rewrite He2, He. simpl.
    rewrite !app_assoc. f_equiv. apply Permutation_app_comm.
Qed.

Lemma force_buckets_empty cap (cs : list (list (K * V))) t :
  concat cs = [] -> force_buckets hash cap cs t = Some t.
Proof.
  revert t. induction cs as [|c cs IH]; intros t Hc; cbn [force_buckets]; [done|].
  simpl in Hc. apply app_eq_nil in Hc as [-> Hc]. simpl. by apply IH.
Qed.

(** The size 0 is asked for an empty dictionary only. *)
Lemma force_rehash_spec d l cap :
  Holds hash d l -> (cap = 0 -> l = []) ->
  exists d', force_rehash_to hash d cap = Some d' /\ Holds hash d' l.
Proof.
  intros HH Hcap. unfold force_rehash_to.
  assert (exists d', (if is_rehashing d then finish_rehash hash d else Some d) = Some d' /\
            Holds hash d' l /\ is_rehashing d' = false) as (d1 & -> & [HI1 Hl1] & Hr1).
  { destruct (is_rehashing d) eqn:Hr; [|by exists d].
    destruct (finish_rehash_spec hash d (proj1 HH)) as (d' & ? & ? & ?).
    exists d'. split_and!; [done| |done]. by apply (Holds_trans hash d). }
  cbn [mbind option_bind]. cbv zeta.
  set (new_cap := if cap =? 0 then 0 else Nat.max (next_power_of_two cap) INITIAL_SIZE).
  destruct (_ =? new_cap); [by exists d1|].
  destruct (is_rehashing_false hash d1 HI1 Hr1) as [_ Hb1].
  assert (elems (ht0 d1) ≡ₚ l) as Hl0.
  { rewrite <- Hl1. unfold dict_elems, elems at 3. rewrite Hb1. simpl. by rewrite app_nil_r. }
  assert (exists t, force_buckets hash new_cap (buckets (ht0 d1)) (table_with_capacity new_cap) = Some t /\
            table_ok hash t /\ elems t ≡ₚ l) as (t & -> & Ht & He).
  { destruct (with_capacity_ok (V := V) hash new_cap) as (Hok & Hz & Hne).
    destruct (Nat.eqb_spec cap 0) as [->|Hn].
    - rewrite (Hcap eq_refl) in *. apply Permutation_nil_r in Hl0.
      rewrite force_buckets_empty by done. eexists. by rewrite Hz.
    - destruct (force_buckets_spec new_cap (buckets (ht0 d1)) (table_with_capacity new_cap))
        as (t & -> & Ht & He); [unfold new_cap, INITIAL_SIZE; lia|done| |].
      { apply with_capacity_buckets. unfold new_cap, INITIAL_SIZE. lia. }
      exists t. split_and!; try done. rewrite He, Hz, app_nil_r. done. }
  cbn [mbind option_bind]. eexists. split; [done|].
  apply (finish_Holds hash (table_with_capacity 0)); [done| |done|done].
  rewrite <- Hl1. apply HI1.
Qed.

Lemma dict_len_spec d l : Holds hash d l -> len d = length l.
Proof.
  intros [[H0 H1 _ _] Hl]. unfold len. rewrite (tk_used hash _ H0), (tk_used hash _ H1).
  rewrite <- Hl. unfold dict_elems. by rewrite length_app.
Qed.

Lemma reserve_spec d l n :
  Holds hash d l -> exists d', reserve hash d n = Some d' /\ Holds hash d' l.
Proof.
  intros HH. unfold reserve. cbv zeta. destruct (Nat.leb_spec (len d + n) (capacity_of (ht0 d))); [by exists d|].
  apply force_rehash_spec; [done|]. intros E. lia.
Qed.

Lemma shrink_to_fit_spec d l :
  Holds hash d l -> exists d', shrink_to_fit hash d = Some d' /\ Holds hash d' l.
Proof.
  intros HH. unfold shrink_to_fit. cbv zeta. destruct (_ && _); [by exists d|].
  apply force_rehash_spec; [done|]. intros E. apply nil_length_inv.
  rewrite <- (dict_len_spec d l HH). destruct (Nat.eqb_spec (len d) 0); [done|].
  unfold INITIAL_SIZE in E. lia.
Qed.

Lemma clear_Holds d l : Holds hash d l -> Holds hash (clear d) [].
Proof.
  intros _. destruct (with_capacity_ok (V := V) hash 0) as (Hok & _ & _).
  split; [|done]. constructor; simpl; [done|done|by apply NoDup_nil_2|by apply Idle].
Qed.

Lemma new_Holds cap : Holds hash (with_capacity_and_hasher cap : Dict K V) [].
Proof.
  unfold with_capacity_and_hasher.
  assert (forall n, Holds hash (mkDict (table_with_capacity n) (table_with_capacity 0) (-1) : Dict K V) []) as H.
  { intros n. destruct (with_capacity_ok (V := V) hash n) as (Hok & Hz & _).
    apply (finish_Holds hash (table_with_capacity 0)); [done|by apply NoDup_nil_2| |done].
    by rewrite Hz. }
  apply H.
Qed.
End Sizes.

(** ** Searching and updating *)

Section Search.
Context {K V : Type} `{EqDecision K} (hash : K -> Z).
Implicit Types (t : HashTable K V) (c l r : list (K * V)) (d : Dict K V).
Notation DInv := (DInv hash).
Notation Holds := (Holds hash).

(** Table [i] is searched: the first always, the second during a rehash. *)
Definition searched d (i : nat) : Prop := i = 0 \/ (i = 1 /\ is_rehashing d = true).

(** Where a key is. *)
Definition absent_in d key (i : nat) : Prop :=
  is_empty_table (table d i) = false /\
  exists c, buckets (table d i) !! slot_of hash (table d i) key = Some c /\ key ∉ c.*1.

Definition present_in d key (i : nat) : Prop :=
  is_empty_table (table d i) = false /\
  exists c1 v0 c2 r,
    buckets (table d i) !! slot_of hash (table d i) key = Some (c1 ++ (key, v0) :: c2) /\
    key ∉ c1.*1 /\ dict_elems d ≡ₚ (key, v0) :: r /\
    (forall v, Holds (set_table d i (set_bucket (table d i) (slot_of hash (table d i) key)
                 (c1 ++ (key, v) :: c2))) ((key, v) :: r)) /\
    exists t', sub_used (set_bucket (table d i) (slot_of hash (table d i) key) (c1 ++ c2)) = Some t' /\
      Holds (set_table d i t') r.

Lemma set_table_Holds d i t l :
  DInv d -> searched d i -> table_ok hash t -> capacity_of t = capacity_of (table d i) ->
  NoDup l.*1 -> dict_elems (set_table d i t) ≡ₚ l ->
  (i = 0 -> forall j c, (Z.of_nat j < rehash_idx d)%Z -> buckets t !! j = Some c -> c = []) ->
  Holds (set_table d i t) l.
Proof.
  intros [H0 H1 Hk Hp] Hi Ht Hcap Hnd He Hpre. split; [|done].
  assert (forall t', capacity_of t = capacity_of t' -> buckets t' <> [] -> buckets t <> []) as Hne.
  { unfold capacity_of. intros t' E Hne E'. rewrite E' in E. by destruct (buckets t'). }
  destruct Hi as [->|[-> Hr]]; (constructor; simpl; [done|done|by rewrite He|]); simpl in *.
  - destruct Hp as [? ?|? ? ? ?]; [by apply Idle|].
    apply Rehashing; simpl; [done|by eapply Hne|done|by apply Hpre].
  - destruct Hp as [E ?|? ? ? ?]; [unfold is_rehashing in Hr; by rewrite E in Hr|].
    apply Rehashing; simpl; [done|done|by eapply Hne|done].
Qed.

Lemma NoDup_fst_perm (l1 l2 : list (K * V)) : l1 ≡ₚ l2 -> NoDup l1.*1 -> NoDup l2.*1.
Proof. intros H. by rewrite H. Qed.

(** A key found in table [i] by [table_split]. *)
Lemma present_intro d key i c1 v0 c2 r0 rest :
  DInv d -> searched d i -> buckets (table d i) <> [] ->
  buckets (table d i) !! slot_of hash (table d i) key = Some (c1 ++ (key, v0) :: c2) ->
  elems (table d i) ≡ₚ (key, v0) :: r0 ->
  (forall t, dict_elems (set_table d i t) ≡ₚ elems t ++ rest) ->
  dict_elems d ≡ₚ elems (table d i) ++ rest ->
  (forall v, let t' := set_bucket (table d i) (slot_of hash (table d i) key) (c1 ++ (key, v) :: c2) in
     table_ok hash t' /\ elems t' ≡ₚ (key, v) :: r0) ->
  (exists t', sub_used (set_bucket (table d i) (slot_of hash (table d i) key) (c1 ++ c2)) = Some t' /\
     table_ok hash t' /\ elems t' ≡ₚ r0 /\
     buckets t' = <[slot_of hash (table d i) key := c1 ++ c2]> (buckets (table d i))) ->
  present_in d key i.
Proof.
  intros HI Hi Hne Hb He Hset Hd Hupd (t' & Ht' & Hok' & He' & Hb').
  split; [by apply is_empty_table_false|]. exists c1, v0, c2, (r0 ++ rest).
  set (s := slot_of hash (table d i) key) in *.
  assert (dict_elems d ≡ₚ (key, v0) :: r0 ++ rest) as Hde by by rewrite Hd, He.
  pose proof (NoDup_fst_perm _ _ Hde (di_keys hash d HI)) as Hnd. simpl in Hnd.
  pose proof Hnd as [Hk Hnd']%NoDup_cons.
  assert (forall t c, buckets t = <[s := c]> (buckets (table d i)) -> i = 0 -> forall j c', 
    (Z.of_nat j < rehash_idx d)%Z -> buckets t !! j = Some c' -> c' = []) as Hpre.
  { intros t c Ht -> j c' Hj Hl. rewrite Ht in Hl.
    destruct HI as [_ _ _ [E _|_ _ _ Hp]]; [lia|].
    apply list_lookup_insert_Some in Hl as [(-> & _ & _)|[_ Hl]]; [|by apply (Hp j)].
    specialize (Hp j _ Hj Hb). by destruct c1. }
  assert (key ∉ c1.*1) as Hc1.
  { destruct (bucket_split _ _ _ Hb) as (r1 & Hel & _ & _).
    pose proof (NoDup_fst_perm _ _ Hd (di_keys hash d HI)) as Hn.
    rewrite fmap_app in Hn. apply NoDup_app in Hn as [Hn _].
    apply (NoDup_fst_perm _ _ Hel) in Hn. rewrite <- app_assoc, fmap_app in Hn.
    apply NoDup_app in Hn as (_ & Hdis & _). intros Hin. apply (Hdis key Hin). by left. }
  split_and!; [done|done|done| |].
  - intros v. destruct (Hupd v) as [Hok Hel].
    apply set_table_Holds; [done|done|done|apply set_bucket_capacity|by constructor| |].
    + by rewrite Hset, Hel.
    + by apply (Hpre _ (c1 ++ (key, v) :: c2)).
  - exists t'. split; [done|].
    apply set_table_Holds; [done|done|done| |done| |].
    + unfold capacity_of. rewrite Hb'. by rewrite length_insert.
    + by rewrite Hset, He'.
    + by apply (Hpre _ (c1 ++ c2)).
Qed.

(** A key is in the first table, in the second during a rehash, or nowhere. *)
Inductive located d key : Prop :=
| LocNone : buckets (ht0 d) = [] -> is_rehashing d = false -> dict_elems d = [] -> located d key
| LocAbsent : absent_in d key 0 -> (is_rehashing d = true -> absent_in d key 1) ->
    key ∉ (dict_elems d).*1 -> located d key
| LocFirst : present_in d key 0 -> located d key
| LocSecond : is_rehashing d = true -> absent_in d key 0 -> present_in d key 1 -> located d key.

Lemma locate d key : DInv d -> located d key.
Proof.
  intros HI. destruct (decide (buckets (ht0 d) = [])) as [Hb0|Hne0].
  - destruct (is_rehashing d) eqn:Hr; [by destruct (is_rehashing_phase hash d HI Hr)|].
    destruct (is_rehashing_false hash d HI Hr) as [_ Hb1]. apply LocNone; [done|done|].
    unfold dict_elems, elems. by rewrite Hb0, Hb1.
  - destruct (table_split hash (ht0 d) key (di_t0 hash d HI) Hne0)
      as (c & Hc & [[Hn Hnc]|(c1 & v0 & c2 & r & -> & He & Hupd & Hrem)]).
    + assert (absent_in d key 0) as Ha.
      { split; [by apply is_empty_table_false|]. by exists c. }
      destruct (is_rehashing d) eqn:Hr.
      * destruct (is_rehashing_phase hash d HI Hr) as (_ & Hne1 & _).
        destruct (table_split hash (ht1 d) key (di_t1 hash d HI) Hne1)
          as (c' & Hc' & [[Hn' Hnc']|(c1 & v0 & c2 & r & -> & He & Hupd & Hrem)]).
        -- apply LocAbsent; [done| |].
           ++ intros _. split; [by apply is_empty_table_false|]. by exists c'.
           ++ unfold dict_elems. rewrite fmap_app, not_elem_of_app. done.
        -- apply LocSecond; [done|done|].
           apply (present_intro d key 1 c1 v0 c2 r (elems (ht0 d))); try done; [by right| |].
           ++ intros t. unfold dict_elems. simpl. apply Permutation_app_comm.
           ++ unfold dict_elems. simpl. apply Permutation_app_comm.
      * apply LocAbsent; [done|by rewrite Hr|]. destruct (is_rehashing_false hash d HI Hr) as [_ Hb1].
        unfold dict_elems. unfold elems at 2. by rewrite Hb1, app_nil_r.
    + apply LocFirst.
      apply (present_intro d key 0 c1 v0 c2 r (elems (ht1 d))); try done. by left.
Qed.

Lemma chain_absent key c :
  key ∉ c.*1 -> chain_find key c = None /\ chain_pos key c = None /\ chain_remove key c = None /\
    forall v, chain_set key v c = None.
Proof.
  clear hash. intros Hn. destruct (chain_split key c) as [(_ & H)|(c1 & v0 & c2 & -> & _)]; [done|].
  exfalso. apply Hn. rewrite fmap_app. set_solver.
Qed.

Lemma chain_present key c1 v0 c2 :
  key ∉ c1.*1 -> let c := c1 ++ (key, v0) :: c2 in
  chain_find key c = Some v0 /\ chain_pos key c = Some (length c1) /\
  chain_remove key c = Some (c1 ++ c2) /\ forall v, chain_set key v c = Some (c1 ++ (key, v) :: c2).
Proof.
  clear hash. intros Hn. induction c1 as [|[k' v'] c1 IH]; simpl.
  - split_and!; intros; by rewrite decide_True.
  - apply not_elem_of_cons in Hn as [Hne Hn]. simpl in Hne.
    destruct (IH Hn) as (E1 & E2 & E3 & Hs).
    split_and!; intros; rewrite decide_False by congruence; [done|by rewrite E2|by rewrite E3|].
    by rewrite Hs.
Qed.

End Search.

(** ** The operations on the finite map that a dictionary holds *)

Section Operations.
Context {K V : Type} `{Countable K} (hash : K -> Z).
Implicit Types (t : HashTable K V) (c l : list (K * V)) (d : Dict K V) (m : gmap K V).
Notation DInv := (DInv hash).
Notation Holds := (Holds hash).
Notation present_in := (present_in hash).
Notation absent_in := (absent_in hash).

(** [d] is well formed and holds the map [m]. *)
Definition Repr d m : Prop := Holds d (map_to_list m).

Lemma map_split m key v r :
  map_to_list m ≡ₚ (key, v) :: r ->
  m !! key = Some v /\ r ≡ₚ map_to_list (delete key m) /\
  forall v', (key, v') :: r ≡ₚ map_to_list (<[key := v']> m).
Proof.
  intros Hp. split; [|by apply (perm_delete_key m key v)].
  apply elem_of_map_to_list. rewrite Hp. by left.
Qed.

Lemma map_absent m key : key ∉ (map_to_list m).*1 -> m !! key = None.
Proof.
  intros Hn. apply eq_None_not_Some. intros [v Hv]. apply Hn.
  apply list_elem_of_fmap. exists (key, v). split; [done|]. by apply elem_of_map_to_list.
Qed.

(** A search that ends in a present key. *)
Lemma present_map d m key i :
  Repr d m -> present_in d key i ->
  is_empty_table (table d i) = false /\
  exists c1 v0 c2,
    buckets (table d i) !! slot_of hash (table d i) key = Some (c1 ++ (key, v0) :: c2) /\
    key ∉ c1.*1 /\ m !! key = Some v0 /\
    (forall v, Repr (set_table d i (set_bucket (table d i) (slot_of hash (table d i) key)
                 (c1 ++ (key, v) :: c2))) (<[key := v]> m)) /\
    exists t', sub_used (set_bucket (table d i) (slot_of hash (table d i) key) (c1 ++ c2)) = Some t' /\
      Repr (set_table d i t') (delete key m).
Proof.
  intros [HI Hm] [He (c1 & v0 & c2 & r & Hb & Hc1 & Hd & Hupd & t' & Ht' & Hrem)].
  split; [done|]. rewrite Hd in Hm. symmetry in Hm. destruct (map_split m key v0 r Hm) as (Hk & Hr & Hins).
  exists c1, v0, c2. split_and!; try done.
  - intros v. destruct (Hupd v) as [H1 H2]. split; [done|]. by rewrite H2, Hins.
  - exists t'. split; [done|]. destruct Hrem as [H1 H2]. split; [done|]. by rewrite H2, Hr.
Qed.

Lemma located_none d m key :
  Repr d m -> key ∉ (dict_elems d).*1 -> m !! key = None.
Proof. intros [_ Hm] Hn. apply map_absent. by rewrite <- Hm. Qed.

(** A search of the two tables by [search]: the value at a present key, [none]
    when the key is absent. *)
Lemma dict_get_spec d m key : Repr d m -> get hash d key = Some (m !! key).
Proof.
  intros HR. unfold get. cbn [get_loop].
  destruct (locate hash d key (proj1 HR)) as [Hb Hr He|[E (c & Hc & Hn)] H1 Hn'|Hp|Hr [E (c & Hc & Hn)] Hp].
  - rewrite (proj2 (is_empty_table_true (table d 0)) Hb), Hr. simpl. f_equal. symmetry.
    apply (located_none d m key HR). rewrite He. apply not_elem_of_nil.
  - rewrite E, Hc. cbn [mbind option_bind]. destruct (chain_absent key c Hn) as (-> & _).
    rewrite (located_none d m key HR Hn'). destruct (is_rehashing d) eqn:Hr; [|done].
    destruct (H1 eq_refl) as [E' (c' & Hc' & Hn'')]. simpl negb. cbv iota. rewrite E', Hc'.
    cbn [mbind option_bind]. by destruct (chain_absent key c' Hn'') as (-> & _).
  - destruct (present_map d m key 0 HR Hp) as (E & c1 & v0 & c2 & Hb & Hc1 & Hk & _).
    rewrite E, Hb. cbn [mbind option_bind].
    destruct (chain_present key c1 v0 c2 Hc1) as (-> & _). by rewrite Hk.
  - rewrite E, Hc. cbn [mbind option_bind]. destruct (chain_absent key c Hn) as (-> & _).
    destruct (present_map d m key 1 HR Hp) as (E' & c1 & v0 & c2 & Hb & Hc1 & Hk & _).
    rewrite Hr. simpl negb. cbv iota. rewrite E', Hb. cbn [mbind option_bind].
    destruct (chain_present key c1 v0 c2 Hc1) as (-> & _). by rewrite Hk.
Qed.

(** A fresh key goes to the table that grows. *)
Lemma push_fresh d m key v :
  Repr d m -> buckets (ht0 d) <> [] -> m !! key = None ->
  let i := if is_rehashing d then 1 else 0 in
  exists t, push_node hash (table d i) (key, v) = Some t /\
    Repr (set_table d i t) (<[key := v]> m).
Proof.
  intros HR Hne Hk. cbv zeta. set (i := if is_rehashing d then 1 else 0).
  pose proof HR as [HI Hm].
  assert (searched d i /\ buckets (table d i) <> [] /\ table_ok hash (table d i) /\
    (i = 0 -> (rehash_idx d = -1)%Z) /\
    forall t, dict_elems (set_table d i t) ++ elems (table d i) ≡ₚ elems t ++ dict_elems d)
    as (Hi & Hb & Hok & Hr0 & Hset).
  { subst i. destruct (is_rehashing d) eqn:Hr; simpl.
    - destruct (is_rehashing_phase hash d HI Hr) as (_ & Hne1 & _).
      split_and!; [by right|done|apply HI|done|]. intros t. unfold dict_elems. simpl.
      rewrite <- app_assoc. rewrite Permutation_app_comm, <- app_assoc. f_equiv.
      apply Permutation_app_comm.
    - split_and!; [by left|done|apply HI|by intros _; apply (is_rehashing_false hash d HI Hr)|].
      intros t. unfold dict_elems. simpl. rewrite <- app_assoc. f_equiv. apply Permutation_app_comm. }
  destruct (push_node_ok hash (table d i) (key, v) Hok Hb) as (t & Ht & Hokt & He & Hcap).
  exists t. split; [done|].
  assert (dict_elems (set_table d i t) ≡ₚ (key, v) :: dict_elems d) as Hde.
  { specialize (Hset t). rewrite He in Hset.
    apply (Permutation_app_inv_r (elems (table d i))). rewrite Hset. simpl.
    f_equiv. apply Permutation_app_comm. }
  unfold Repr. rewrite map_to_list_insert by done.
  apply set_table_Holds; [done|done|done|done| | |].
  - simpl. rewrite <- Hm. constructor; [|apply HI].
    rewrite Hm. intros (e & Hke & Hin)%list_elem_of_fmap. destruct e as [k' v'].
    simpl in Hke. subst k'. apply elem_of_map_to_list in Hin. by rewrite Hin in Hk.
  - by rewrite Hde, Hm.
  - intros E j c Hj. rewrite (Hr0 E) in Hj. lia.
Qed.

Lemma set_bucket_set t s c : buckets (set_bucket t s c) = <[s := c]> (buckets t).
Proof. done. Qed.

Lemma dict_insert_spec d m key v :
  Repr d m ->
  exists d', insert hash d key v = Some (bool_decide (m !! key = None), d') /\ Repr d' (<[key := v]> m).
Proof.
  intros HR. unfold insert. cbv zeta. destruct (expand_spec hash d _ HR) as [HR1 Hne1].
  destruct (rehash_step_spec hash _ _ HR1) as (d1 & -> & HR2 & Hne). specialize (Hne Hne1).
  clear d HR HR1 Hne1. rename d1 into d, HR2 into HR. cbn [mbind option_bind insert_loop].
  destruct (locate hash d key (proj1 HR)) as [Hb Hr He|[E (c & Hc & Hn)] H1 Hn'|Hp|Hr [E (c & Hc & Hn)] Hp].
  - done.
  - pose proof (located_none d m key HR Hn') as Hk. rewrite bool_decide_true by done.
    destruct (push_fresh d m key v HR Hne Hk) as (t & Ht & HR').
    rewrite E, Hc. cbn [mbind option_bind]. destruct (chain_absent key c Hn) as (_ & _ & _ & Hset).
    rewrite Hset. destruct (is_rehashing d) eqn:Hr; simpl negb; cbv iota.
    + destruct (H1 eq_refl) as [E' (c' & Hc' & Hn'')]. rewrite E', Hc'. cbn [mbind option_bind].
      destruct (chain_absent key c' Hn'') as (_ & _ & _ & ->). cbn [mbind option_bind].
      rewrite Ht. cbn [mbind option_bind]. by eexists.
    + cbn [mbind option_bind]. rewrite Ht. cbn [mbind option_bind]. by eexists.
  - destruct (present_map d m key 0 HR Hp) as (E & c1 & v0 & c2 & Hb & Hc1 & Hk & Hupd & _).
    rewrite E, Hb. cbn [mbind option_bind].
    destruct (chain_present key c1 v0 c2 Hc1) as (_ & _ & _ & ->). cbn [mbind option_bind].
    rewrite bool_decide_false by (by rewrite Hk). by eexists.
  - destruct (present_map d m key 1 HR Hp) as (E' & c1 & v0 & c2 & Hb & Hc1 & Hk & Hupd & _).
    rewrite E, Hc. cbn [mbind option_bind]. destruct (chain_absent key c Hn) as (_ & _ & _ & ->).
    rewrite Hr. simpl negb. cbv iota. rewrite E', Hb. cbn [mbind option_bind].
    destruct (chain_present key c1 v0 c2 Hc1) as (_ & _ & _ & ->). cbn [mbind option_bind].
    rewrite bool_decide_false by (by rewrite Hk). by eexists.
Qed.

Lemma dict_remove_spec d m key :
  Repr d m ->
  exists d', remove hash d key = Some (bool_decide (is_Some (m !! key)), d') /\
    Repr d' (delete key m).
Proof.
  intros HR. unfold remove.
  destruct (maybe_rehash_step hash d _ HR) as (d1 & -> & HR1).
  clear d HR. rename d1 into d, HR1 into HR. cbn [mbind option_bind remove_loop]. cbv zeta.
  destruct (locate hash d key (proj1 HR)) as [Hb Hr He|[E (c & Hc & Hn)] H1 Hn'|Hp|Hr [E (c & Hc & Hn)] Hp].
  - rewrite (proj2 (is_empty_table_true (table d 0)) Hb), Hr.
    assert (m !! key = None) as Hk.
    { apply (located_none d m key HR). rewrite He. apply not_elem_of_nil. }
    exists d. rewrite Hk, delete_id by done. split; [done|done].
  - pose proof (located_none d m key HR Hn') as Hk. rewrite Hk, delete_id by done.
    exists d. split; [|done].
    rewrite E, Hc. cbn [mbind option_bind]. destruct (chain_absent key c Hn) as (_ & _ & -> & _).
    destruct (is_rehashing d) eqn:Hr; [|done].
    destruct (H1 eq_refl) as [E' (c' & Hc' & Hn'')]. simpl negb. cbv iota. rewrite E', Hc'.
    cbn [mbind option_bind]. by destruct (chain_absent key c' Hn'') as (_ & _ & -> & _).
  - destruct (present_map d m key 0 HR Hp) as (E & c1 & v0 & c2 & Hb & Hc1 & Hk & _ & t' & Ht' & HR').
    rewrite E, Hb. cbn [mbind option_bind].
    destruct (chain_present key c1 v0 c2 Hc1) as (_ & _ & -> & _).
    rewrite Ht', Hk. cbn [mbind option_bind Nat.eqb]. eexists. split; [done|].
    by apply shrink_if_needed_spec.
  - destruct (present_map d m key 1 HR Hp) as (E' & c1 & v0 & c2 & Hb & Hc1 & Hk & _ & t' & Ht' & HR').
    rewrite E, Hc. cbn [mbind option_bind]. destruct (chain_absent key c Hn) as (_ & _ & -> & _).
    rewrite Hr. simpl negb. cbv iota. rewrite E', Hb. cbn [mbind option_bind].
    destruct (chain_present key c1 v0 c2 Hc1) as (_ & _ & -> & _).
    rewrite Ht', Hk. cbn [mbind option_bind Nat.eqb]. by eexists.
Qed.

(** ** References *)

(** A reference to the node of a key. *)
Definition ref_to d key (r : slot_ref) v : Prop :=
  exists c1 c2, buckets (table d (ref_table r)) !! ref_slot r = Some (c1 ++ (key, v) :: c2) /\
    ref_depth r = length c1.

Lemma read_ref d key r v : ref_to d key r v -> deref d r = Some v /\ occupied_key d r = Some key.
Proof.
  intros (c1 & c2 & Hb & Hd). unfold deref, occupied_key, read_slot.
  rewrite Hb, Hd. cbn [mbind option_bind]. by rewrite drop_app_length.
Qed.

Lemma write_ref d key r v nodes :
  ref_to d key r v ->
  exists c1 c2, buckets (table d (ref_table r)) !! ref_slot r = Some (c1 ++ (key, v) :: c2) /\
    ref_depth r = length c1 /\
    write_slot d r nodes = Some (set_table d (ref_table r)
      (set_bucket (table d (ref_table r)) (ref_slot r) (c1 ++ nodes))).
Proof.
  intros (c1 & c2 & Hb & Hd). exists c1, c2. split_and!; [done|done|].
  unfold write_slot. rewrite Hb, Hd. cbn [mbind option_bind]. by rewrite take_app_length.
Qed.

(** What [find_slots] finds: the node of the key, with what assigning through
    it and unlinking it do to the map. *)
Definition good_ref d m key (r : slot_ref) v : Prop :=
  ref_to d key r v /\ m !! key = Some v /\
  (forall v', exists d', assign d r v' = Some d' /\ Repr d' (<[key := v']> m) /\ ref_to d' key r v') /\
  exists d', occupied_remove d r = Some (v, d') /\ Repr d' (delete key m).

Lemma table_set_table d i t : searched d i -> table (set_table d i t) i = t.
Proof. by intros [->|[-> _]]. Qed.

Lemma present_ref d m key i :
  Repr d m -> searched d i -> present_in d key i ->
  exists r v, find_slot hash d i key = Some (Some r) /\ good_ref d m key r v.
Proof.
  intros HR Hi Hp.
  destruct (present_map d m key i HR Hp) as (E & c1 & v0 & c2 & Hb & Hc1 & Hk & Hupd & t' & Ht' & HR').
  unfold find_slot. rewrite E. cbv zeta. rewrite Hb. cbn [mbind option_bind].
  destruct (chain_present key c1 v0 c2 Hc1) as (_ & -> & _).
  set (s := slot_of hash (table d i) key) in *.
  assert (ref_to d key (mkRef i s (length c1)) v0) as Href by by exists c1, c2.
  exists (mkRef i s (length c1)), v0. split; [done|]. split_and!; [done|done| |].
  - intros v. eexists. split_and!; [|apply Hupd|].
    + unfold assign, read_slot, write_slot. simpl ref_table. simpl ref_slot. simpl ref_depth.
      rewrite Hb. cbn [mbind option_bind]. rewrite drop_app_length, take_app_length. done.
    + exists c1, c2. split; [|done]. simpl ref_table. simpl ref_slot.
      rewrite table_set_table by done. simpl. apply list_lookup_insert_eq.
      by eapply lookup_lt_Some.
  - eexists. split; [|apply HR'].
    unfold occupied_remove, read_slot, write_slot. simpl ref_table. simpl ref_slot. simpl ref_depth.
    rewrite Hb. cbn [mbind option_bind]. rewrite drop_app_length, take_app_length.
    rewrite table_set_table by done. rewrite Ht'. cbn [mbind option_bind].
    by destruct Hi as [->|[-> _]].
Qed.

Lemma absent_slot d key i : absent_in d key i -> find_slot hash d i key = Some None.
Proof.
  intros [E (c & Hc & Hn)]. unfold find_slot. rewrite E. cbv zeta. rewrite Hc.
  cbn [mbind option_bind]. by destruct (chain_absent key c Hn) as (_ & -> & _).
Qed.

Lemma find_slots_spec d m key :
  Repr d m ->
  exists o, find_slots hash d key = Some o /\
    match o with
    | Some r => exists v, good_ref d m key r v
    | None => m !! key = None
    end.
Proof.
  intros HR. unfold find_slots.
  destruct (locate hash d key (proj1 HR)) as [Hb Hr He|H0 H1 Hn|Hp|Hr H0 Hp].
  - unfold find_slot. rewrite (proj2 (is_empty_table_true (table d 0)) Hb), Hr.
    exists None. split; [done|]. apply (located_none d m key HR). rewrite He. apply not_elem_of_nil.
  - rewrite (absent_slot d key 0 H0). cbn [mbind option_bind].
    exists None. split; [|by apply (located_none d m key HR)].
    destruct (is_rehashing d); [|done]. apply absent_slot. by apply H1.
  - destruct (present_ref d m key 0 HR) as (r & v & -> & Hg); [by left|done|].
    exists (Some r). split; [done|]. by exists v.
  - rewrite (absent_slot d key 0 H0), Hr. cbn [mbind option_bind].
    destruct (present_ref d m key 1 HR) as (r & v & -> & Hg); [by right|done|].
    exists (Some r). split; [done|]. by exists v.
Qed.

Lemma get_mut_spec d m key :
  Repr d m ->
  exists o d', get_mut hash d key = Some (o, d') /\ Repr d' m /\
    match o with
    | Some r => exists v, good_ref d' m key r v
    | None => m !! key = None
    end.
Proof.
  intros HR. unfold get_mut. destruct (maybe_rehash_step hash d _ HR) as (d1 & -> & HR1).
  cbn [mbind option_bind]. destruct (find_slots_spec d1 m key HR1) as (o & -> & Ho).
  by exists o, d1.
Qed.

Lemma entry_spec d m key :
  Repr d m ->
  exists e d', entry hash d key = Some (e, d') /\ Repr d' m /\
    match e with
    | Occupied r => exists v, good_ref d' m key r v
    | Vacant key' r => key' = key /\ m !! key = None /\
        forall v, exists d'', vacant_insert d' key r v = Some (r, d'') /\
          Repr d'' (<[key := v]> m) /\ ref_to d'' key r v
    end.
Proof.
  intros HR. unfold entry. cbv zeta. destruct (expand_spec hash d _ HR) as [HR1 Hne1].
  destruct (rehash_step_spec hash _ _ HR1) as (d1 & -> & HR2 & Hne). specialize (Hne Hne1).
  clear d HR HR1 Hne1. rename d1 into d, HR2 into HR. cbn [mbind option_bind].
  destruct (find_slots_spec d m key HR) as ([r|] & -> & Ho); cbn [mbind option_bind].
  { by exists (Occupied r), d. }
  set (i := if is_rehashing d then 1 else 0).
  assert (searched d i /\ table_ok hash (table d i) /\ buckets (table d i) <> []) as (Hi & Hok & Hb).
  { subst i. destruct (is_rehashing d) eqn:Hr.
    - split_and!; [by right|apply (proj1 HR)|]. by apply (is_rehashing_phase hash d (proj1 HR) Hr).
    - split_and!; [by left|apply (proj1 HR)|done]. }
  destruct (bucket_get hash (table d i) key (tk_placed hash _ Hok) Hb) as [c Hc].
  rewrite Hc. cbn [mbind option_bind].
  exists (Vacant key (mkRef i (slot_of hash (table d i) key) 0)), d. split_and!; [done..|]. intros v.
  destruct (push_fresh d m key v HR Hne Ho) as (t & Ht & HR'). fold i in Ht, HR'.
  unfold push_node in Ht. simpl fst in Ht. rewrite Hc in Ht. cbn [mbind option_bind] in Ht.
  injection Ht as <-.
  unfold vacant_insert, read_slot, write_slot. simpl ref_table. simpl ref_slot. simpl ref_depth.
  rewrite Hc. cbn [mbind option_bind]. rewrite drop_0, take_0, table_set_table by done.
  eexists. split; [done|]. simpl app.
  assert (forall t t', set_table (set_table d i t) i t' = set_table d i t') as ->.
  { intros t t'. by destruct Hi as [->|[-> _]]. }
  split; [done|]. exists [], c. split; [|done]. simpl ref_table. simpl ref_slot.
  rewrite table_set_table by done. simpl. apply list_lookup_insert_eq. by eapply lookup_lt_Some.
Qed.
End Operations.

(** ** Iteration *)

Section Iteration.
Context {K V : Type} `{EqDecision K} (hash : K -> Z).
Implicit Types (d : Dict K V) (it : DictIter (K := K) (V := V)).

(** The pairs that an iterator has not returned yet. *)
Definition rest d it : list (K * V) :=
  current_entry it ++ concat (drop (bucket_idx it) (buckets (table d (table_idx it)))) ++
  (if table_idx it =? 0 then elems (ht1 d) else []).

Definition it_measure d it : nat :=
  (capacity_of (table d (table_idx it)) - bucket_idx it) +
  (if table_idx it =? 0 then capacity_of (ht1 d) + 1 else 0).

Lemma iter_next_spec fuel d it :
  table_idx it <= 1 -> it_measure d it < fuel ->
  exists it', iter_next fuel d it = Some (hd_error (rest d it), it') /\
    rest d it' = tl (rest d it) /\ table_idx it' <= 1.
Proof.
  revert it. induction fuel as [|fuel IH]; intros [ti bi cur] Hti Hf; [lia|].
  cbn [iter_next current_entry table_idx bucket_idx]. unfold rest at 1 3.
  cbn [current_entry table_idx bucket_idx] in *.
  destruct cur as [|e cur]; [|eexists; split_and!; [done|done|done]]. simpl app.
  destruct (Nat.leb_spec (capacity_of (table d ti)) bi) as [Hge|Hlt].
  - rewrite (drop_ge (buckets (table d ti))) by (unfold capacity_of in Hge; lia). simpl concat. simpl app.
    destruct (Nat.eqb_spec ti 0) as [->|Hne]; cbn [andb].
    + destruct (is_empty_table (ht1 d)) eqn:Hb; cbn [negb].
      * apply is_empty_table_true in Hb. eexists. split_and!; [unfold elems; by rewrite Hb| |simpl; lia].
        unfold rest. simpl. rewrite drop_ge by (unfold capacity_of in Hge; simpl in Hge; lia).
        unfold elems. by rewrite Hb.
      * destruct (IH (mkIter 1 0 [])) as (it' & -> & Hr & Hti').
        { simpl. lia. }
        { unfold it_measure, table in *. cbn [table_idx bucket_idx Nat.eqb] in *. lia. }
        exists it'. unfold rest in Hr |- *. simpl in Hr |- *. rewrite !app_nil_r in *. done.
    + eexists. split_and!; [done| |done]. unfold rest. simpl.
      rewrite (proj2 (Nat.eqb_neq ti 0)) by done.
      by rewrite drop_ge by (unfold capacity_of in Hge; lia).
  - destruct (lookup_lt_is_Some_2 (buckets (table d ti)) bi Hlt) as [c Hc]. rewrite Hc.
    cbn [mbind option_bind].
    destruct (IH (mkIter ti (bi + 1) c)) as (it' & -> & Hr & Hti'); [done| |].
    { unfold it_measure in *. cbn [table_idx bucket_idx] in *. lia. }
    exists it'. unfold rest in Hr |- *. simpl in Hr |- *.
    rewrite (drop_S _ c bi Hc), Nat.add_1_r in *. simpl. by rewrite <- app_assoc.
Qed.

Lemma drain_spec fuel d it :
  table_idx it <= 1 -> length (rest d it) < fuel -> drain fuel d it = Some (rest d it).
Proof.
  revert it. induction fuel as [|fuel IH]; intros it Hti Hf; [lia|]. cbn [drain].
  unfold next. destruct (iter_next_spec (capacity_of (ht0 d) + capacity_of (ht1 d) + 3) d it Hti)
    as (it' & -> & Hr & Hti').
  { unfold it_measure, table. destruct (table_idx it =? 0); lia. }
  cbn [mbind option_bind]. destruct (rest d it) as [|e es]; [done|]. simpl hd_error. simpl tl in Hr.
  rewrite IH; [by rewrite Hr|done|rewrite Hr; simpl in Hf; lia].
Qed.

Lemma items_spec d l : Holds hash d l -> items d = Some (dict_elems d).
Proof.
  intros HH. unfold items. rewrite (dict_len_spec hash d l HH).
  rewrite drain_spec; [done|simpl; lia|]. destruct HH as [_ Hl].
  change (rest d iter) with (dict_elems d). rewrite Hl. lia.
Qed.
End Iteration.

(** ** Calls *)

Section Machine.
Context {K V : Type} `{Countable K} (hash : K -> Z).
Implicit Types (d : Dict K V) (m : gmap K V).

(** The public operations as commands.  [GetMut] assigns through the reference
    it gets; [EntryOr] is [entry(k).or_insert(v)], [EntryModifyOr] is
    [entry(k).and_modify(f).or_insert(v)], [EntryRemove] removes an occupied
    entry; [Reload] serializes the dictionary and reads it back. *)
Inductive op : Type :=
| Insert (k : K) (v : V) | Get (k : K) | GetMut (k : K) (v : V) | Remove (k : K)
| EntryOr (k : K) (v : V) | EntryModifyOr (k : K) (f : V -> V) (v : V) | EntryRemove (k : K)
| Len | Iter | Clear | Reserve (n : nat) | ShrinkToFit | Reload.

Inductive answer : Type :=
| ADone | AFlag (b : bool) | AVal (v : option V) | ASize (n : nat) | AItems (l : list (K * V)).

Definition exec d (o : op) : option (answer * Dict K V) :=
  match o with
  | Insert k v => '(b, d) ← insert hash d k v; Some (AFlag b, d)
  | Get k => v ← get hash d k; Some (AVal v, d)
  | GetMut k v =>
      '(r, d) ← get_mut hash d k;
      match r with
      | None => Some (AFlag false, d)
      | Some r => d ← assign d r v; Some (AFlag true, d)
      end
  | Remove k => '(b, d) ← remove hash d k; Some (AFlag b, d)
  | EntryOr k v =>
      '(e, d) ← entry hash d k; '(r, d) ← or_insert d e v; v ← deref d r; Some (AVal (Some v), d)
  | EntryModifyOr k f v =>
      '(e, d) ← entry hash d k; '(e, d) ← and_modify d e f; '(r, d) ← or_insert d e v;
      v ← deref d r; Some (AVal (Some v), d)
  | EntryRemove k =>
      '(e, d) ← entry hash d k;
      match e with
      | Occupied r => '(v, d) ← occupied_remove d r; Some (AVal (Some v), d)
      | Vacant _ _ => Some (AVal None, d)
      end
  | Len => Some (ASize (len d), d)
  | Iter => l ← items d; Some (AItems l, d)
  | Clear => Some (ADone, clear d)
  | Reserve n => d ← reserve hash d n; Some (ADone, d)
  | ShrinkToFit => d ← shrink_to_fit hash d; Some (ADone, d)
  | Reload => l ← serialize d; d ← deserialize hash l; Some (ADone, d)
  end.

Fixpoint exec_all d (os : list op) : option (list answer * Dict K V) :=
  match os with
  | [] => Some ([], d)
  | o :: os => '(a, d) ← exec d o; '(r, d) ← exec_all d os; Some (a :: r, d)
  end.

(** The specification: the finite map after a call, and the answers allowed
    (the order of iteration is not specified). *)
Definition spec_map m (o : op) : gmap K V :=
  match o with
  | Insert k v => <[k := v]> m
  | GetMut k v => if m !! k then <[k := v]> m else m
  | Remove k | EntryRemove k => delete k m
  | EntryOr k v => if m !! k then m else <[k := v]> m
  | EntryModifyOr k f v => <[k := match m !! k with Some x => f x | None => v end]> m
  | Clear => ∅
  | Get _ | Len | Iter | Reserve _ | ShrinkToFit | Reload => m
  end.

Definition spec_answer m (o : op) (a : answer) : Prop :=
  match o with
  | Insert k v => a = AFlag (bool_decide (m !! k = None))
  | Get k => a = AVal (m !! k)
  | GetMut k _ | Remove k => a = AFlag (bool_decide (is_Some (m !! k)))
  | EntryOr k v => a = AVal (Some (default v (m !! k)))
  | EntryModifyOr k f v => a = AVal (Some (match m !! k with Some x => f x | None => v end))
  | EntryRemove k => a = AVal (m !! k)
  | Len => a = ASize (size m)
  | Iter => exists l, a = AItems l /\ l ≡ₚ map_to_list m
  | Clear | Reserve _ | ShrinkToFit | Reload => a = ADone
  end.

Fixpoint spec_all m (os : list op) (answers : list answer) : Prop :=
  match os, answers with
  | [], [] => True
  | o :: os, a :: answers => spec_answer m o a /\ spec_all (spec_map m o) os answers
  | _, _ => False
  end.
End Machine.

Section MachineSpec.
Context {K V : Type} `{Countable K} (hash : K -> Z).
Implicit Types (d : Dict K V) (m : gmap K V) (l : list (K * V)).
Notation Repr := (Repr hash).

Lemma Repr_perm d m : Repr d m -> dict_elems d ≡ₚ map_to_list m.
Proof. by intros [_ HR]. Qed.

Lemma insert_all_spec d m l :
  Repr d m ->
  exists d', insert_all hash d l = Some d' /\ Repr d' (insert_pairs m l).
Proof.
  revert d m. induction l as [|[k v] l IH]; intros d m HR; simpl; [by exists d|].
  destruct (dict_insert_spec hash d m k v HR) as (d1 & -> & HR1). cbn [mbind option_bind].
  by apply IH.
Qed.

Lemma reload_spec d m :
  Repr d m ->
  exists d', (l ← serialize d; deserialize hash l) = Some d' /\ Repr d' m.
Proof.
  intros HR. unfold serialize. rewrite (items_spec hash d _ HR). cbn [mbind option_bind].
  destruct (insert_all_spec with_hasher ∅ (dict_elems d)) as (d' & Hd' & HR').
  { unfold Repr. rewrite map_to_list_empty. apply (new_Holds hash 0). }
  exists d'. split; [done|]. by rewrite (insert_pairs_entries m) in HR' by apply HR.
Qed.

Lemma dict_exec_spec d m o :
  Repr d m ->
  exists a d', exec hash d o = Some (a, d') /\ spec_answer m o a /\ Repr d' (spec_map m o).
Proof.
  intros HR. destruct o as [k v|k|k v|k|k v|k f v|k| | | |n| |]; simpl.
  - destruct (dict_insert_spec hash d m k v HR) as (d' & -> & ?). by eexists _, d'.
  - rewrite (dict_get_spec hash d m k HR). by eexists _, d.
  - destruct (get_mut_spec hash d m k HR) as ([r|] & d1 & -> & HR1 & Ho); cbn [mbind option_bind].
    + destruct Ho as (v0 & _ & -> & Ha & _). destruct (Ha v) as (d2 & -> & HR2 & _).
      cbn [mbind option_bind]. by eexists _, d2.
    + rewrite Ho. by eexists _, d1.
  - destruct (dict_remove_spec hash d m k HR) as (d' & -> & ?). by eexists _, d'.
  - destruct (entry_spec hash d m k HR) as ([r|k' r] & d1 & -> & HR1 & He); cbn [mbind option_bind or_insert].
    + destruct He as (v0 & Hr & -> & _). rewrite (proj1 (read_ref d1 k r v0 Hr)). by eexists _, d1.
    + destruct He as (-> & -> & Hv). destruct (Hv v) as (d2 & -> & HR2 & Hr). cbn [mbind option_bind].
      rewrite (proj1 (read_ref d2 k r v Hr)). by eexists _, d2.
  - destruct (entry_spec hash d m k HR) as ([r|k' r] & d1 & -> & HR1 & He);
      cbn [mbind option_bind and_modify].
    + destruct He as (v0 & Hr & -> & Ha & _). rewrite (proj1 (read_ref d1 k r v0 Hr)).
      cbn [mbind option_bind]. destruct (Ha (f v0)) as (d2 & -> & HR2 & Hr2).
      cbn [mbind option_bind or_insert]. rewrite (proj1 (read_ref d2 k r (f v0) Hr2)).
      by eexists _, d2.
    + destruct He as (-> & -> & Hv). cbn [or_insert]. destruct (Hv v) as (d2 & -> & HR2 & Hr).
      cbn [mbind option_bind]. rewrite (proj1 (read_ref d2 k r v Hr)). by eexists _, d2.
  - destruct (entry_spec hash d m k HR) as ([r|k' r] & d1 & -> & HR1 & He); cbn [mbind option_bind].
    + destruct He as (v0 & _ & -> & _ & d2 & -> & HR2). cbn [mbind option_bind]. by eexists _, d2.
    + destruct He as (_ & Hk & _). rewrite Hk, delete_id by done. by eexists _, d1.
  - exists (ASize (len d)), d. split_and!; [done| |done].
    by rewrite (dict_len_spec hash d _ HR), length_map_to_list.
  - rewrite (items_spec hash d _ HR). cbn [mbind option_bind]. eexists _, d. split_and!; [done| |done].
    eexists. split; [done|]. by apply Repr_perm.
  - eexists _, _. split_and!; [done|done|]. unfold Repr. rewrite map_to_list_empty.
    by apply (clear_Holds hash d (map_to_list m)).
  - destruct (reserve_spec hash d _ n HR) as (d' & -> & ?). by eexists _, d'.
  - destruct (shrink_to_fit_spec hash d _ HR) as (d' & -> & ?). by eexists _, d'.
  - destruct (reload_spec d m HR) as (d' & Hd' & HR').
    unfold serialize in *. destruct (items d) as [l|]; [|done]. cbn [mbind option_bind] in *.
    rewrite Hd'. by eexists _, d'.
Qed.

Lemma dict_exec_all_spec d m os :
  Repr d m ->
  exists answers d', exec_all hash d os = Some (answers, d') /\ spec_all m os answers /\
    Repr d' (foldl spec_map m os).
Proof.
  revert d m. induction os as [|o os IH]; intros d m HR; simpl; [by eexists [], d|].
  destruct (dict_exec_spec d m o HR) as (a & d1 & -> & Ha & HR1). cbn [mbind option_bind].
  destruct (IH d1 _ HR1) as (r & d2 & -> & Hr & HR2). by eexists (a :: r), d2.
Qed.

Lemma new_Repr cap : Repr (with_capacity_and_hasher cap) (∅ : gmap K V).
Proof. unfold Repr. rewrite map_to_list_empty. apply new_Holds. Qed.
End MachineSpec.

(** A dictionary holds a finite map, for any hash function. *)
#[global] Instance dict_ops {K V} `{EqDecision K} (hash : K -> Z) : MapOps (Dict K V) K V | 50 := {|
  map_new := with_hasher;
  map_insert := insert hash;
  map_entries := items;
  map_len := len;
|}.

#[global] Instance dict_laws {K V} `{Countable K} (hash : K -> Z) :
  MapLaws (Dict K V) K V (ops := dict_ops hash).
Proof.
  refine {| map_repr := Repr hash : Dict K V -> gmap K V -> Prop |}.
  - unfold Repr. rewrite map_to_list_empty. apply (new_Holds hash 0).
  - apply dict_insert_spec.
  - intros d m HR. exists (dict_elems d). split; [by apply (items_spec hash d (map_to_list m))|apply HR].
  - intros d m HR. simpl. by rewrite (dict_len_spec hash d _ HR), length_map_to_list.
Defined.

(** C9. Any sequence of dictionary calls, whatever the hash function and the
    capacity asked for, returns (every loop ends, no bucket index is out of
    range, no count underflows) and answers as a finite map does, through the
    growths, shrinks and incremental rehashes between the calls: insertion,
    lookup, assignment through [get_mut], removal, the entry interface,
    iteration in some order, [reserve], [shrink_to_fit], [clear] and a
    serialization round trip. *)
Theorem dict_refines_map {K V} `{Countable K} (hash : K -> Z) (cap : nat)
    (os : list (op (K := K) (V := V))) :
  exists answers d, exec_all hash (with_capacity_and_hasher cap) os = Some (answers, d) /\
    spec_all ∅ os answers /\ Repr hash d (foldl spec_map ∅ os).
Proof. apply dict_exec_all_spec, new_Repr. Qed.

Section Equal.
Context {K V : Type} `{Countable K, EqDecision V} (hash hash' : K -> Z).
Implicit Types (m : gmap K V).

Lemma all_equal_spec other m' (kvs : list (K * V)) :
  Repr hash' other m' ->
  all_equal hash' other kvs = Some (bool_decide (Forall (fun kv => m' !! kv.1 = Some kv.2) kvs)).
Proof.
  intros HR. induction kvs as [|[k v] kvs IH]; cbn [all_equal]; [done|].
  rewrite (dict_get_spec hash' other m' k HR). cbn [mbind option_bind].
  destruct (decide (m' !! k = Some v)) as [Hk|Hk].
  - rewrite bool_decide_true, IH by done. f_equal. apply bool_decide_ext.
    rewrite Forall_cons. simpl. tauto.
  - rewrite bool_decide_false by done. f_equal. symmetry. apply bool_decide_false.
    by intros [? _]%Forall_cons.
Qed.

Lemma eq_spec d d' m m' :
  Repr hash d m -> Repr hash' d' m' -> eq hash' d d' = Some (bool_decide (m = m')).
Proof.
  intros HR HR'. unfold eq.
  rewrite (dict_len_spec hash d _ HR), (dict_len_spec hash' d' _ HR'), !length_map_to_list.
  destruct (Nat.eqb_spec (size m) (size m')) as [Hs|Hs]; cbn [negb].
  - rewrite (items_spec hash d _ HR). cbn [mbind option_bind].
    rewrite (all_equal_spec d' m' _ HR'). f_equal. apply bool_decide_ext.
    rewrite (Repr_perm hash d m HR). split.
    + intros Hf. apply map_subseteq_size_eq; [|lia]. apply map_subseteq_spec. intros k v Hk.
      rewrite Forall_forall in Hf. by apply (Hf (k, v)), elem_of_map_to_list.
    + intros ->. apply Forall_forall. intros [k v] Hin. by apply elem_of_map_to_list.
  - f_equal. symmetry. apply bool_decide_false. congruence.
Qed.
End Equal.

(** Equality of dictionaries is equality of the maps they hold: it does
    not depend on the hashers, on the capacities, on how far a rehash has got
    or on the order of the chains. *)
Theorem dict_eq_is_map_equality {K V} `{Countable K, EqDecision V} (hash hash' : K -> Z)
    (d d' : Dict K V) (m m' : gmap K V) (HR : Repr hash d m) (HR' : Repr hash' d' m') :
  eq hash' d d' = Some (bool_decide (m = m')).
Proof. by apply (eq_spec hash). Qed.

Lemma dict_eq_is_map_equality_witness :
  exists d d' : Dict nat nat,
    insert_all (fun _ => 0%Z) with_hasher [(1, 10); (2, 20)] = Some d /\
    insert_all Z.of_nat (with_capacity_and_hasher 40) [(2, 20); (1, 10)] = Some d' /\
    eq Z.of_nat d d' = Some true.
Proof.
  destruct (insert_all_spec (fun _ => 0%Z) with_hasher ∅ [(1, 10); (2, 20)]) as (d & Hd & HR).
  { unfold Repr. rewrite map_to_list_empty. apply (new_Holds (fun _ => 0%Z) 0). }
  destruct (insert_all_spec Z.of_nat (with_capacity_and_hasher 40) ∅ [(2, 20); (1, 10)])
    as (d' & Hd' & HR'); [apply new_Repr|].
  exists d, d'. split_and!; [done|done|].
  exact (dict_eq_is_map_equality (fun _ => 0%Z) Z.of_nat d d' _ _ HR HR').
Defined.

Section OneStep.
Context {K V : Type} `{EqDecision K} (hash : K -> Z).
Implicit Types (d : Dict K V).

(** The buckets hold no run of 64 empty ones, [e] of which have been seen. *)
Fixpoint no_long_run (e : nat) (bs : list (list (K * V))) : bool :=
  match bs with
  | [] => true
  | [] :: bs => (e + 1 <? REHASH_MAX_EMPTY_VISITS) && no_long_run (e + 1) bs
  | _ :: bs => no_long_run 0 bs
  end.

Lemma rehash_loop_to_end fuel d m e :
  DInv hash d -> is_rehashing d = true ->
  capacity_of (ht0 d) - Z.to_nat (rehash_idx d) < fuel -> e < REHASH_MAX_EMPTY_VISITS ->
  no_long_run e (drop (Z.to_nat (rehash_idx d)) (buckets (ht0 d))) = true ->
  exists d', rehash_loop hash fuel d m e = Some d' /\ is_rehashing d' = false.
Proof.
  revert d m e. induction fuel as [|fuel IH]; intros d m e HI Hr Hf He Hrun; [lia|].
  pose proof (is_rehashing_true hash d HI Hr) as Hi. cbn [rehash_loop].
  rewrite (proj2 (Nat.ltb_lt e _) He), orb_true_r. cbv zeta.
  destruct (Nat.leb_spec (capacity_of (ht0 d)) (Z.to_nat (rehash_idx d))) as [Hge|Hlt]; [by eexists|].
  destruct (lookup_lt_is_Some_2 (buckets (ht0 d)) (Z.to_nat (rehash_idx d))) as [c Hc]; [done|].
  rewrite Hc. cbn [mbind option_bind]. rewrite (drop_S _ c _ Hc) in Hrun.
  assert (forall t0 t1 : HashTable K V, is_rehashing (mkDict t0 t1 (rehash_idx d + 1)) = true) as Hr'.
  { intros t0 t1. unfold is_rehashing. simpl. apply negb_true_iff, Z.eqb_neq. lia. }
  assert (Z.to_nat (rehash_idx d + 1) = S (Z.to_nat (rehash_idx d))) as Hidx by lia.
  destruct c as [|x c].
  - cbn [no_long_run] in Hrun. apply andb_true_iff in Hrun as [He' Hrun]. apply Nat.ltb_lt in He'.
    rewrite (proj2 (Nat.leb_gt _ _)) by done. cbn [andb].
    apply (IH (mkDict (ht0 d) (ht1 d) (rehash_idx d + 1))); [|apply Hr'| |done|by simpl; rewrite Hidx].
    + apply (advance_DInv hash d (ht0 d) (ht1 d) []); try done; [apply HI| |apply HI].
      by rewrite list_insert_id.
    + simpl. lia.
  - destruct (move_bucket_spec hash (ht0 d) (ht1 d) (Z.to_nat (rehash_idx d)) (x :: c) m)
      as (t0' & t1' & -> & H0 & Hb & H1 & Hel & Hcap); [apply HI|done|apply HI| |].
    { apply (is_rehashing_phase hash d HI Hr). }
    cbn [mbind option_bind].
    apply (IH (mkDict t0' t1' (rehash_idx d + 1))); [|apply Hr'| |unfold REHASH_MAX_EMPTY_VISITS; lia|].
    + by apply (advance_DInv hash d t0' t1' (x :: c)).
    + simpl. unfold capacity_of in *. rewrite Hb, length_insert. lia.
    + simpl. rewrite Hidx, Hb, drop_insert_lt by lia. exact Hrun.
Qed.
End OneStep.

(** One step of the incremental rehash is not bounded: the counter of empty
    buckets starts again at every bucket that is not empty, so unless 64
    buckets in a row are empty the step called by one insertion, assignment or
    removal moves the whole table, however large it is. *)
Theorem dict_rehash_step_unbounded {K V} `{Countable K} (hash : K -> Z) (d : Dict K V) (m : gmap K V)
    (HR : Repr hash d m) (Hr : is_rehashing d = true)
    (Hrun : no_long_run 0 (drop (Z.to_nat (rehash_idx d)) (buckets (ht0 d))) = true) :
  exists d', rehash_step hash d = Some d' /\ is_rehashing d' = false.
Proof.
  unfold rehash_step. rewrite Hr. cbn [negb].
  apply rehash_loop_to_end; [apply HR|done|lia|unfold REHASH_MAX_EMPTY_VISITS; lia|done].
Qed.

(** A dictionary with four keys that starts to grow. *)
Definition growing : option (Dict nat nat) :=
  d ← insert_all Z.of_nat with_hasher [(0, 0); (1, 1); (2, 2); (3, 3)]; Some (expand_if_needed d).

Lemma dict_rehash_step_unbounded_witness :
  exists d, growing = Some d /\ is_rehashing d = true /\
    exists d', rehash_step Z.of_nat d = Some d' /\ is_rehashing d' = false.
Proof.
  unfold growing.
  destruct (insert_all_spec Z.of_nat with_hasher ∅ [(0, 0); (1, 1); (2, 2); (3, 3)]) as (d0 & Hd & HR0).
  { unfold Repr. rewrite map_to_list_empty. apply (new_Holds Z.of_nat 0). }
  pose proof (proj1 (expand_spec Z.of_nat d0 _ HR0)) as HR.
  vm_compute in Hd. injection Hd as <-.
  eexists. split; [reflexivity|]. split; [reflexivity|].
  eapply (dict_rehash_step_unbounded Z.of_nat); [exact HR|reflexivity|reflexivity].
Defined.
