(* ===== verification/SmartHash.v ===== *)
(** * SmartHash: the hash value with two representations

    Models [src/src/database/smarthash/smarthash_base.rs]: a vector of pairs up
    to a threshold, a [HashMap] above it, and a flag that postpones the way
    back to the vector to the next insertion or iteration.  [get_all], which
    only converts the pairs to text, is not modelled. *)
From S2P Require Import Prelude Interfaces.
Local Open Scope nat_scope.

Definition THRESHOLD : nat := 32.

Section SmartHash.
Context {ord : HashOrder (bytes * bytes)}.

Inductive Repr : Type :=
| Zip (v : list (bytes * bytes))
| Map (m : list (bytes * bytes)).

Record SmartHash : Type := mkSmartHash {
  repr : Repr;
  pending_downgrade : bool;
}.

Definition new : SmartHash := mkSmartHash (Zip []) false.

Definition len (h : SmartHash) : nat :=
  match repr h with
  | Zip v => length v
  | Map m => length m
  end.

Definition is_empty (h : SmartHash) : bool := len h =? 0.

(** [vec.iter().any(|(k, _)| k == key)] *)
Definition zip_any (key : bytes) (v : list (bytes * bytes)) : bool :=
  existsb (fun e => bool_decide (e.1 = key)) v.

Definition contains (h : SmartHash) (key : bytes) : bool :=
  match repr h with
  | Zip v => zip_any key v
  | Map m => match hm_get key m with Some _ => true | None => false end
  end.

(** [vec.iter().find(|(k, _)| k == key)] and the assignment through
    [iter_mut().find]. *)
Fixpoint zip_find (key : bytes) (v : list (bytes * bytes)) : option bytes :=
  match v with
  | [] => None
  | e :: v => if bool_decide (e.1 = key) then Some e.2 else zip_find key v
  end.

Fixpoint zip_assign (key value : bytes) (v : list (bytes * bytes)) : list (bytes * bytes) :=
  match v with
  | [] => []
  | e :: v => if bool_decide (e.1 = key) then (e.1, value) :: v else e :: zip_assign key value v
  end.

(** [vec.iter().position(|(k, _)| k == key)] *)
Fixpoint zip_position (key : bytes) (v : list (bytes * bytes)) : option nat :=
  match v with
  | [] => None
  | e :: v => if bool_decide (e.1 = key) then Some 0 else S <$> zip_position key v
  end.

(** [for (k, v) in vec.drain(..) { map.insert(k, v); }] *)
Fixpoint fill_map (m : list (bytes * bytes)) (v : list (bytes * bytes)) : list (bytes * bytes) :=
  match v with
  | [] => m
  | (key, value) :: v => fill_map (hm_insert key value m).2 v
  end.

(** [map.drain()] yields the pairs in the order of iteration. *)
Definition do_downgrade (h : SmartHash) : SmartHash :=
  match repr h with
  | Map m => mkSmartHash (Zip m) false
  | Zip _ => mkSmartHash (Zip []) false
  end.

Definition insert (h : SmartHash) (key value : bytes) : bool * SmartHash :=
  let h := if pending_downgrade h then do_downgrade h else h in
  match repr h with
  | Zip vec =>
      match zip_find key vec with
      | Some _ => (false, mkSmartHash (Zip (zip_assign key value vec)) (pending_downgrade h))
      | None =>
          let vec := vec ++ [(key, value)] in
          if THRESHOLD <=? length vec
          then (true, mkSmartHash (Map (fill_map [] vec)) (pending_downgrade h))
          else (true, mkSmartHash (Zip vec) (pending_downgrade h))
      end
  | Map map =>
      let '(old, map) := hm_insert key value map in
      (match old with Some _ => false | None => true end, mkSmartHash (Map map) (pending_downgrade h))
  end.

Definition get (h : SmartHash) (key : bytes) : option bytes :=
  match repr h with
  | Zip vec => zip_find key vec
  | Map map => hm_get key map
  end.

Definition remove (h : SmartHash) (key : bytes) : bool * SmartHash :=
  let '(removed, h) :=
    match repr h with
    | Zip vec =>
        match zip_position key vec with
        | Some pos => (true, mkSmartHash (Zip (vec_remove pos vec)) (pending_downgrade h))
        | None => (false, h)
        end
    | Map map =>
        let '(old, map) := hm_remove key map in
        (match old with Some _ => true | None => false end, mkSmartHash (Map map) (pending_downgrade h))
    end in
  if removed then
    match repr h with
    | Map map => if length map <? THRESHOLD / 2 then (removed, mkSmartHash (repr h) true) else (removed, h)
    | Zip _ => (removed, h)
    end
  else (removed, h).

Definition clear (h : SmartHash) : SmartHash := mkSmartHash (Zip []) false.

Definition keys (h : SmartHash) : list bytes :=
  match repr h with Zip v => map fst v | Map m => map fst m end.

Definition values (h : SmartHash) : list bytes :=
  match repr h with Zip v => map snd v | Map m => map snd m end.

Definition entries (h : SmartHash) : list (bytes * bytes) :=
  match repr h with Zip v => v | Map m => m end.

(** [iter], drained, and the state it leaves. *)
Definition iter (h : SmartHash) : list (bytes * bytes) * SmartHash :=
  let h := if pending_downgrade h then do_downgrade h else h in
  (match repr h with Zip vec => vec | Map map => map end, h).

(** [Extend::extend] and [FromIterator::from_iter]. *)
Fixpoint extend (h : SmartHash) (kvs : list (bytes * bytes)) : SmartHash :=
  match kvs with
  | [] => h
  | (k, v) :: kvs => extend (insert h k v).2 kvs
  end.

Definition from_iter (kvs : list (bytes * bytes)) : SmartHash := extend new kvs.

(** [Serialize] and [Deserialize] keep the representation and skip the flag; a
    [HashMap] is read back by insertions. *)
Definition reload (h : SmartHash) : SmartHash :=
  match repr h with
  | Zip v => mkSmartHash (Zip v) false
  | Map m => mkSmartHash (Map (fill_map [] m)) false
  end.

(** ** The map that a [SmartHash] holds *)

Implicit Types (h : SmartHash) (m : gmap bytes bytes) (v : list (bytes * bytes)).

(** The pairs are those of the map, each once; a vector is below the threshold
    unless a downgrade made it, and the flag is set for a map only. *)
Record Holds h m : Prop := {
  ho_entries : hm_repr (entries h) m;
  ho_zip : forall v, repr h = Zip v -> length v < THRESHOLD /\ pending_downgrade h = false;
  ho_map : forall v, repr h = Map v -> pending_downgrade h = true -> length v < THRESHOLD;
}.

Lemma zip_find_hm key v : zip_find key v = hm_get key v.
Proof.
  induction v as [|[k x] v IH]; simpl; [done|]. rewrite IH.
  by destruct (decide (k = key)); [rewrite bool_decide_true by done|rewrite bool_decide_false by done].
Qed.

Lemma zip_any_hm key v : zip_any key v = match hm_get key v with Some _ => true | None => false end.
Proof.
  unfold zip_any. induction v as [|[k x] v IH]; simpl; [done|]. rewrite IH.
  by destruct (decide (k = key)); [rewrite bool_decide_true by done|rewrite bool_decide_false by done].
Qed.

Lemma zip_assign_hm key value v : zip_assign key value v = hm_set key value v.
Proof.
  induction v as [|[k x] v IH]; simpl; [done|]. rewrite IH.
  by destruct (decide (k = key)); [rewrite bool_decide_true by done|rewrite bool_decide_false by done].
Qed.

Lemma zip_remove_hm key v :
  match zip_position key v with
  | Some pos => vec_remove pos v = hm_delete key v /\ hm_get key v <> None
  | None => hm_get key v = None
  end.
Proof.
  induction v as [|[k x] v IH]; simpl; [done|].
  destruct (decide (k = key)) as [E|E];
    [rewrite bool_decide_true by done|rewrite bool_decide_false by done]; [done|].
  destruct (zip_position key v) as [pos|]; simpl; [|done].
  destruct IH as [IH Hn]. split; [|done]. by rewrite <- IH.
Qed.

Lemma hm_set_length key value v : length (hm_set key value v) = length v.
Proof. induction v as [|[k x] v IH]; simpl; [done|]. case_decide; simpl; by rewrite ?IH. Qed.

Lemma hm_delete_length key v : length (hm_delete key v) <= length v.
Proof. induction v as [|[k x] v IH]; simpl; [done|]. case_decide; simpl; lia. Qed.

Lemma fill_map_spec l v m :
  hm_repr l m -> hm_repr (fill_map l v) (insert_pairs m v).
Proof.
  revert l m. induction v as [|[k x] v IH]; intros l m Hl; [done|]. simpl.
  apply IH. apply (hm_insert_spec l m k x Hl).
Qed.

Lemma do_downgrade_spec h m :
  Holds h m -> pending_downgrade h = true -> Holds (do_downgrade h) m /\ pending_downgrade (do_downgrade h) = false.
Proof.
  intros [H1 H2 H3] Hp. unfold do_downgrade, entries in *.
  destruct (repr h) as [v|v]; [by destruct (H2 v eq_refl); congruence|].
  split; [|done]. constructor; simpl; [done| |done]. intros v' [= <-]. split; [by apply H3|done].
Qed.

Lemma maybe_downgrade h m :
  Holds h m ->
  let h' := if pending_downgrade h then do_downgrade h else h in
  Holds h' m /\ pending_downgrade h' = false.
Proof.
  intros Hh. cbv zeta. destruct (pending_downgrade h) eqn:Hp; [by apply do_downgrade_spec|done].
Qed.

Lemma smarthash_insert_spec h m key value :
  Holds h m ->
  (insert h key value).1 = bool_decide (m !! key = None) /\
  Holds (insert h key value).2 (<[key := value]> m).
Proof.
  intros Hh. unfold insert. destruct (maybe_downgrade h m Hh) as [Hh' Hp]. cbv zeta in *.
  set (h' := if pending_downgrade h then do_downgrade h else h) in *. clearbody h'. clear Hh h.
  destruct Hh' as [H1 H2 H3]. unfold entries in H1.
  pose proof (hm_insert_spec _ m key value H1) as [Hins Hrep]. unfold hm_insert in *.
  destruct (repr h') as [v|v] eqn:Hr.
  - rewrite zip_find_hm. destruct (H2 v eq_refl) as [Hlen _].
    destruct (hm_get key v) as [old|] eqn:Hg; simpl in Hins, Hrep.
    + rewrite <- Hins. simpl. split; [done|]. rewrite zip_assign_hm.
      constructor; simpl; [done| |done]. intros v' [= <-]. by rewrite hm_set_length.
    + rewrite <- Hins. destruct (Nat.leb_spec THRESHOLD (length (v ++ [(key, value)]))) as [Hge|Hlt].
      * split; [done|]. constructor; simpl; [|done|by rewrite Hp].
        unfold hm_repr, entries. simpl.
        assert (v ++ [(key, value)] ≡ₚ map_to_list (<[key := value]> m)) as Hv.
        { unfold hm_repr in Hrep. by rewrite shuffle_perm in Hrep. }
        rewrite (fill_map_spec [] _ ∅ hm_repr_nil). by rewrite (insert_pairs_entries _ _ Hv).
      * split; [done|]. constructor; simpl; [|intros v' [= <-]; done|done].
        unfold hm_repr, entries. simpl. unfold hm_repr in Hrep. by rewrite shuffle_perm in Hrep.
  - destruct (hm_get key v) as [old|]; simpl in *; rewrite <- Hins;
      (split; [done|]); constructor; simpl; try done; by rewrite Hp.
Qed.

Lemma smarthash_remove_spec h m key :
  Holds h m ->
  (remove h key).1 = bool_decide (is_Some (m !! key)) /\ Holds (remove h key).2 (delete key m).
Proof.
  intros [H1 H2 H3]. unfold remove, entries in *.
  destruct (hm_remove_spec _ m key H1) as [Hrem Hrep]. unfold hm_remove in *. simpl in Hrem, Hrep.
  destruct (repr h) as [v|v] eqn:Hr.
  - pose proof (zip_remove_hm key v) as Hz. destruct (H2 v eq_refl) as [Hlen Hp].
    destruct (zip_position key v) as [pos|]; simpl.
    + destruct Hz as [-> Hz]. rewrite <- Hrem. destruct (hm_get key v); [|done].
      split; [done|]. constructor; simpl; [done| |done]. intros v' [= <-]. split; [|done].
      pose proof (hm_delete_length key v). lia.
    + rewrite <- Hrem, Hz. split; [done|]. constructor; [|by rewrite Hr|by rewrite Hr].
      unfold entries. rewrite Hr. rewrite Hz in Hrem. by rewrite delete_id.
  - rewrite <- Hrem. destruct (hm_get key v) as [old|] eqn:Hg; simpl.
    + destruct (Nat.ltb_spec (length (hm_delete key v)) (THRESHOLD / 2)) as [Hlt|Hge]; simpl; (split; [done|]);
        constructor; simpl; try done; intros v' [= <-].
      * intros _. change (THRESHOLD / 2) with 16 in Hlt. unfold THRESHOLD. lia.
      * intros Hp. pose proof (hm_delete_length key v). specialize (H3 v eq_refl Hp). lia.
    + split; [done|]. constructor; simpl; try done.
      intros v' [= <-] Hp. pose proof (hm_delete_length key v). specialize (H3 v eq_refl Hp). lia.
Qed.

Lemma smarthash_get_spec h m key : Holds h m -> get h key = m !! key.
Proof.
  intros [H1 _ _]. unfold get, entries in *.
  destruct (repr h); [rewrite zip_find_hm|]; by apply hm_repr_lookup.
Qed.

Lemma smarthash_contains_spec h m key : Holds h m -> contains h key = bool_decide (is_Some (m !! key)).
Proof.
  intros [H1 _ _]. unfold contains, entries in *.
  assert (forall o : option bytes, match o with Some _ => true | None => false end = bool_decide (is_Some o)) as E
    by (by intros []).
  destruct (repr h); [rewrite zip_any_hm|]; by rewrite E, (hm_repr_lookup _ m).
Qed.

Lemma smarthash_len_spec h m : Holds h m -> len h = size m.
Proof.
  intros [H1 _ _]. unfold len, entries in *. destruct (repr h); by apply hm_repr_length.
Qed.

Lemma smarthash_iter_spec h m : Holds h m -> hm_repr (iter h).1 m /\ Holds (iter h).2 m.
Proof.
  intros Hh. unfold iter. destruct (maybe_downgrade h m Hh) as [Hh' Hp]. split; [|done].
  apply Hh'.
Qed.

Lemma smart_new_Holds : Holds new ∅.
Proof. constructor; [apply hm_repr_nil| |done]. intros v [= <-]. split; [simpl; unfold THRESHOLD; lia|done]. Qed.

Lemma extend_spec h m v : Holds h m -> Holds (extend h v) (insert_pairs m v).
Proof.
  revert h m. induction v as [|[k x] v IH]; intros h m Hh; [done|]. simpl. apply IH.
  by apply smarthash_insert_spec.
Qed.

#[global] Instance smarthash_ops : MapOps SmartHash bytes bytes := {|
  map_new := new;
  map_insert := fun h (k x : bytes) => Some (insert h k x);
  map_entries := fun h => Some (entries h);
  map_len := len;
|}.

#[global] Instance smarthash_laws : MapLaws SmartHash bytes bytes.
Proof.
  refine {| map_repr := Holds |}.
  - apply smart_new_Holds.
  - intros h m k x Hh. destruct (smarthash_insert_spec h m k x Hh) as [H1 H2].
    exists (insert h k x).2. split; [|done]. simpl. rewrite <- H1. by destruct (insert h k x).
  - intros h m Hh. exists (entries h). split; [done|apply Hh].
  - apply smarthash_len_spec.
Defined.

(** ** Calls *)

Inductive op : Type :=
| Insert (k v : bytes) | Get (k : bytes) | Contains (k : bytes) | Remove (k : bytes)
| Len | IsEmpty | Keys | Values | Entries | Iter | Extend (kvs : list (bytes * bytes)) | Clear | Reload.

Inductive answer : Type :=
| ADone | AFlag (b : bool) | AVal (v : option bytes) | ASize (n : nat)
| AList (l : list bytes) | APairs (l : list (bytes * bytes)).

Definition exec h (o : op) : answer * SmartHash :=
  match o with
  | Insert k v => let '(b, h) := insert h k v in (AFlag b, h)
  | Get k => (AVal (get h k), h)
  | Contains k => (AFlag (contains h k), h)
  | Remove k => let '(b, h) := remove h k in (AFlag b, h)
  | Len => (ASize (len h), h)
  | IsEmpty => (AFlag (is_empty h), h)
  | Keys => (AList (keys h), h)
  | Values => (AList (values h), h)
  | Entries => (APairs (entries h), h)
  | Iter => let '(l, h) := iter h in (APairs l, h)
  | Extend kvs => (ADone, extend h kvs)
  | Clear => (ADone, clear h)
  | Reload => (ADone, reload h)
  end.

Fixpoint exec_all h (os : list op) : list answer * SmartHash :=
  match os with
  | [] => ([], h)
  | o :: os => let '(a, h) := exec h o in let '(r, h) := exec_all h os in (a :: r, h)
  end.

Definition spec_map m (o : op) : gmap bytes bytes :=
  match o with
  | Insert k v => <[k := v]> m
  | Remove k => delete k m
  | Extend kvs => insert_pairs m kvs
  | Clear => ∅
  | _ => m
  end.

Definition spec_answer m (o : op) (a : answer) : Prop :=
  match o with
  | Insert k v => a = AFlag (bool_decide (m !! k = None))
  | Get k => a = AVal (m !! k)
  | Contains k | Remove k => a = AFlag (bool_decide (is_Some (m !! k)))
  | Len => a = ASize (size m)
  | IsEmpty => a = AFlag (size m =? 0)
  | Keys => exists l, a = AList l /\ l ≡ₚ (map_to_list m).*1
  | Values => exists l, a = AList l /\ l ≡ₚ (map_to_list m).*2
  | Entries | Iter => exists l, a = APairs l /\ l ≡ₚ map_to_list m
  | Extend _ | Clear | Reload => a = ADone
  end.

Fixpoint spec_all m (os : list op) (answers : list answer) : Prop :=
  match os, answers with
  | [], [] => True
  | o :: os, a :: answers => spec_answer m o a /\ spec_all (spec_map m o) os answers
  | _, _ => False
  end.

Lemma reload_Holds h m : Holds h m -> Holds (reload h) m.
Proof.
  intros [H1 H2 H3]. unfold reload, entries in *. destruct (repr h) as [v|v].
  - constructor; simpl; [done| |done]. intros v' [= <-]. split; [|done]. by apply H2.
  - constructor; simpl; [|done|done]. unfold hm_repr, entries in *. simpl.
    rewrite (fill_map_spec [] _ ∅ hm_repr_nil).
    by rewrite (insert_pairs_entries _ _ H1).
Qed.

Lemma smarthash_exec_spec h m o :
  Holds h m -> spec_answer m o (exec h o).1 /\ Holds (exec h o).2 (spec_map m o).
Proof.
  intros Hh. pose proof (ho_entries h m Hh) as He. destruct o as [k x|k|k|k| | | | | | |kvs| |]; simpl.
  - destruct (smarthash_insert_spec h m k x Hh) as [H1 H2]. destruct (insert h k x). simpl in *. by subst.
  - by rewrite (smarthash_get_spec h m).
  - by rewrite (smarthash_contains_spec h m).
  - destruct (smarthash_remove_spec h m k Hh) as [H1 H2]. destruct (remove h k). simpl in *. by subst.
  - by rewrite (smarthash_len_spec h m).
  - unfold is_empty. by rewrite (smarthash_len_spec h m).
  - split; [|done]. exists (keys h). split; [done|]. unfold keys, entries in *.
    rewrite <- He. by destruct (repr h).
  - split; [|done]. exists (values h). split; [done|]. unfold values, entries in *.
    rewrite <- He. by destruct (repr h).
  - split; [|done]. by exists (entries h).
  - destruct (smarthash_iter_spec h m Hh) as [H1 H2].
    split; [|exact H2]. exists (iter h).1. split; [done|exact H1].
  - split; [done|]. by apply extend_spec.
  - split; [done|apply smart_new_Holds].
  - split; [done|by apply reload_Holds].
Qed.

Lemma smarthash_exec_all_spec h m os :
  Holds h m -> spec_all m os (exec_all h os).1 /\ Holds (exec_all h os).2 (foldl spec_map m os).
Proof.
  revert h m. induction os as [|o os IH]; intros h m Hh; [done|]. simpl.
  destruct (smarthash_exec_spec h m o Hh) as [H1 H2]. destruct (exec h o) as [a h1]. simpl in *.
  destruct (IH h1 _ H2) as [H3 H4]. by destruct (exec_all h1 os).
Qed.
End SmartHash.

(** C35. Any sequence of calls on a [SmartHash] answers as a finite map from
    byte strings to byte strings does, through the switch to the [HashMap] at
    32 pairs, the postponed way back and serialization, whatever order the
    [HashMap] iterates in; a vector stays below the threshold and a set flag
    means that the map fits one. *)
Theorem smarthash_refines_map {ord : HashOrder (bytes * bytes)} (os : list op) :
  let '(answers, h) := exec_all new os in
  spec_all ∅ os answers /\ Holds h (foldl spec_map ∅ os).
Proof.
  pose proof (smarthash_exec_all_spec new ∅ os smart_new_Holds) as H. by destruct (exec_all new os).
Qed.
