(* ===== verification/SkipList.v ===== *)
(** * SkipList: the ordered list with express lanes

    Models [src/src/database/skiplist/skiplist_base.rs].  The nodes live in a
    store from addresses to nodes, so that the raw pointers of the source are
    addresses and their aliasing is kept: a node is linked from one node per
    level and back from its successor.  [None] is a null or dangling pointer
    dereferenced.  The random level is computed from the numbers that the
    generator returns, which every operation takes as an argument; a walk of a
    level has the number of nodes as fuel. *)
From S2P Require Import Prelude Interfaces Ordered.
Local Open Scope nat_scope.

Definition MAX_LEVEL : nat := 16.
Definition P : Z := 0x4000.
Definition MASK : Z := 0xFFFF.

(** [validate_invariants] and its errors that can arise. *)
Inductive ValidationError : Type :=
| InvalidLevel (node_level max_level : nat)
| SortOrderViolation
| LengthMismatch (expected actual : nat).

Section SkipList.
Context {K V : Type} `{ord : Ord K} `{Inhabited K, Inhabited V}.

Record Node : Type := mkNode {
  node_key : K;
  node_value : V;
  forward : list (option nat);
  backward : option nat;
}.

Record SkipList : Type := mkSkipList {
  nodes : gmap nat Node;
  head : nat;
  level : nat;
  length_ : nat;
}.

Definition node_new (key : K) (value : V) : Node :=
  mkNode key value (replicate MAX_LEVEL None) None.

(** [Node::head], with the default key and value. *)
Definition node_head : Node := mkNode inhabitant inhabitant (replicate MAX_LEVEL None) None.

Definition new : SkipList := mkSkipList {[ 0 := node_head ]} 0 1 0.

(** [random_level], [draws] being the numbers that [fastrand::u32] returns. *)
Fixpoint random_level_loop (fuel : nat) (draws : nat -> Z) (i lvl : nat) : nat :=
  match fuel with
  | O => lvl
  | S fuel =>
      if (lvl <? MAX_LEVEL) && (Z.land (draws i) MASK <? P)%Z
      then random_level_loop fuel draws (i + 1) (lvl + 1)
      else lvl
  end.

Definition random_level (draws : nat -> Z) : nat := random_level_loop MAX_LEVEL draws 0 1.

(** ** Pointers *)

(** [( *p).forward[i]] read and assigned. *)
Definition forward_at (h : gmap nat Node) (p i : nat) : option (option nat) :=
  n ← h !! p; forward n !! i.

Definition set_forward (h : gmap nat Node) (p i : nat) (x : option nat) : option (gmap nat Node) :=
  n ← h !! p;
  _ ← forward n !! i;
  Some (<[p := mkNode (node_key n) (node_value n) (<[i := x]> (forward n)) (backward n)]> h).

Definition set_backward (h : gmap nat Node) (p : nat) (x : option nat) : option (gmap nat Node) :=
  n ← h !! p; Some (<[p := mkNode (node_key n) (node_value n) (forward n) x]> h).

Definition set_value (h : gmap nat Node) (p : nat) (v : V) : option (gmap nat Node) :=
  n ← h !! p; Some (<[p := mkNode (node_key n) v (forward n) (backward n)]> h).

(** The [while let] of a level: forward while the next key is smaller. *)
Fixpoint walk (fuel : nat) (h : gmap nat Node) (i : nat) (key : K) (current : nat) : option nat :=
  match fuel with
  | O => None
  | S fuel =>
      next ← forward_at h current i;
      match next with
      | None => Some current
      | Some next =>
          n ← h !! next;
          if key_lt (node_key n) key then walk fuel h i key next else Some current
      end
  end.

(** [for i in (0..self.level).rev()], [n] levels left. *)
Fixpoint find_update_loop (n : nat) (h : gmap nat Node) (key : K) (current : nat)
    (update : list (option nat)) : option (list (option nat)) :=
  match n with
  | O => Some update
  | S i =>
      current ← walk (S (size h)) h i key current;
      find_update_loop i h key current (<[i := Some current]> update)
  end.

Definition find_update (sl : SkipList) (key : K) : option (list (option nat)) :=
  find_update_loop (level sl) (nodes sl) key (head sl) (replicate MAX_LEVEL None).

(** [update[i]], which is dereferenced: a null pointer is [None]. *)
Definition update_at (update : list (option nat)) (i : nat) : option nat :=
  p ← update !! i; p.

(** [for i in self.level..lvl { update[i] = self.head }], [n] levels left. *)
Fixpoint raise_update (n i : nat) (head : nat) (update : list (option nat)) : list (option nat) :=
  match n with
  | O => update
  | S n => raise_update n (i + 1) head (<[i := Some head]> update)
  end.

(** [for i in 0..lvl] of [insert]: the new node linked after [update[i]]. *)
Fixpoint link_loop (n i : nat) (h : gmap nat Node) (new_ptr : nat) (update : list (option nat))
  : option (gmap nat Node) :=
  match n with
  | O => Some h
  | S n =>
      u ← update_at update i;
      f ← forward_at h u i;
      h ← set_forward h new_ptr i f;
      h ← set_forward h u i (Some new_ptr);
      link_loop n (i + 1) h new_ptr update
  end.

(** The part of [insert] for a key that is not there. *)
Definition insert_node (sl : SkipList) (update : list (option nat)) (key : K) (value : V)
    (lvl : nat) : option SkipList :=
  let update :=
    if level sl <? lvl then raise_update (lvl - level sl) (level sl) (head sl) update else update in
  let level' := if level sl <? lvl then lvl else level sl in
  let new_ptr := fresh (dom (nodes sl)) in
  h ← link_loop lvl 0 (<[new_ptr := node_new key value]> (nodes sl)) new_ptr update;
  u0 ← update !! 0;
  h ← set_backward h new_ptr u0;
  next ← forward_at h new_ptr 0;
  h ← (match next with Some next => set_backward h next (Some new_ptr) | None => Some h end);
  Some (mkSkipList h (head sl) level' (length_ sl + 1)).

(** The node after [update[0]], when it has the key. *)
Definition found_node (sl : SkipList) (update : list (option nat)) (key : K) : option (option nat) :=
  u0 ← update_at update 0;
  node ← forward_at (nodes sl) u0 0;
  match node with
  | None => Some None
  | Some p => n ← nodes sl !! p; Some (if key_eq (node_key n) key then Some p else None)
  end.

Definition insert (sl : SkipList) (key : K) (value : V) (draws : nat -> Z) : option SkipList :=
  update ← find_update sl key;
  found ← found_node sl update key;
  match found with
  | Some p =>
      h ← set_value (nodes sl) p value;
      Some (mkSkipList h (head sl) (level sl) (length_ sl))
  | None => insert_node sl update key value (random_level draws)
  end.

(** The same descent without the predecessors. *)
Fixpoint descend (n : nat) (h : gmap nat Node) (key : K) (current : nat) : option nat :=
  match n with
  | O => Some current
  | S i => current ← walk (S (size h)) h i key current; descend i h key current
  end.

Definition search (sl : SkipList) (key : K) : option (option V) :=
  current ← descend (level sl) (nodes sl) key (head sl);
  node ← forward_at (nodes sl) current 0;
  match node with
  | None => Some None
  | Some p => n ← nodes sl !! p; Some (if key_eq (node_key n) key then Some (node_value n) else None)
  end.

Definition contains (sl : SkipList) (key : K) : option bool :=
  r ← search sl key; Some (match r with Some _ => true | None => false end).

(** [*search_mut(key)? = value], as the callers use it. *)
Definition search_mut (sl : SkipList) (key : K) (value : V) : option (bool * SkipList) :=
  update ← find_update sl key;
  found ← found_node sl update key;
  match found with
  | Some p =>
      h ← set_value (nodes sl) p value;
      Some (true, mkSkipList h (head sl) (level sl) (length_ sl))
  | None => Some (false, sl)
  end.

(** [for i in 0..self.level] of [remove]. *)
Fixpoint unlink_loop (n i : nat) (h : gmap nat Node) (node : nat) (update : list (option nat))
  : option (gmap nat Node) :=
  match n with
  | O => Some h
  | S n =>
      u ← update_at update i;
      f ← forward_at h u i;
      h ← (if bool_decide (f = Some node)
           then g ← forward_at h node i; set_forward h u i g
           else Some h);
      unlink_loop n (i + 1) h node update
  end.

(** [while self.level > 1 && head.forward[self.level - 1].is_none()] *)
Fixpoint lower_level (level : nat) (h : gmap nat Node) (head : nat) : option nat :=
  match level with
  | S (S l as l1) =>
      f ← forward_at h head l1;
      match f with None => lower_level l1 h head | Some _ => Some level end
  | _ => Some level
  end.

Definition remove (sl : SkipList) (key : K) : option (option V * SkipList) :=
  update ← find_update sl key;
  found ← found_node sl update key;
  match found with
  | None => Some (None, sl)
  | Some node =>
      h ← unlink_loop (level sl) 0 (nodes sl) node update;
      n ← h !! node;
      next ← forward n !! 0;
      h ← (match next with Some next => set_backward h next (backward n) | None => Some h end);
      level' ← lower_level (level sl) h (head sl);
      len ← usize_sub (length_ sl) 1;
      n ← h !! node;
      Some (Some (node_value n), mkSkipList (delete node h) (head sl) level' len)
  end.

Definition len (sl : SkipList) : nat := length_ sl.
Definition is_empty (sl : SkipList) : bool := length_ sl =? 0.

(** ** Iterators, drained *)

(** [SkipListIter::next] from [current] to the end. *)
Fixpoint iter_loop (fuel : nat) (h : gmap nat Node) (current : option nat) : option (list (K * V)) :=
  match current with
  | None => Some []
  | Some p =>
      match fuel with
      | O => None
      | S fuel =>
          n ← h !! p;
          next ← forward n !! 0;
          r ← iter_loop fuel h next;
          Some ((node_key n, node_value n) :: r)
      end
  end.

Definition iter (sl : SkipList) : option (list (K * V)) :=
  current ← forward_at (nodes sl) (head sl) 0; iter_loop (size (nodes sl)) (nodes sl) current.

(** The walk of [last] and [last_node]: to the end of every level. *)
Fixpoint walk_end (fuel : nat) (h : gmap nat Node) (i : nat) (current : nat) : option nat :=
  match fuel with
  | O => None
  | S fuel =>
      next ← forward_at h current i;
      match next with None => Some current | Some next => walk_end fuel h i next end
  end.

Fixpoint descend_end (n : nat) (h : gmap nat Node) (current : nat) : option nat :=
  match n with
  | O => Some current
  | S i => current ← walk_end (S (size h)) h i current; descend_end i h current
  end.

Definition last_node (sl : SkipList) : option (option nat) :=
  current ← descend_end (level sl) (nodes sl) (head sl);
  Some (if current =? head sl then None else Some current).

Definition last (sl : SkipList) : option (option (K * V)) :=
  p ← last_node sl;
  match p with
  | None => Some None
  | Some p => n ← nodes sl !! p; Some (Some (node_key n, node_value n))
  end.

Definition first (sl : SkipList) : option (option (K * V)) :=
  p ← forward_at (nodes sl) (head sl) 0;
  match p with
  | None => Some None
  | Some p => n ← nodes sl !! p; Some (Some (node_key n, node_value n))
  end.

(** [ReverseIter::next] from [current] back to the head. *)
Fixpoint iter_rev_loop (fuel : nat) (h : gmap nat Node) (head : nat) (current : option nat)
  : option (list (K * V)) :=
  match current with
  | None => Some []
  | Some p =>
      match fuel with
      | O => None
      | S fuel =>
          if p =? head then Some []
          else
            n ← h !! p;
            r ← iter_rev_loop fuel h head (backward n);
            Some ((node_key n, node_value n) :: r)
      end
  end.

Definition iter_rev (sl : SkipList) : option (list (K * V)) :=
  p ← last_node sl; iter_rev_loop (size (nodes sl)) (nodes sl) (head sl) p.

(** [RangeIter::next] from [current] to the first key not below [end_key]. *)
Fixpoint range_loop (fuel : nat) (h : gmap nat Node) (end_key : K) (current : option nat)
  : option (list (K * V)) :=
  match current with
  | None => Some []
  | Some p =>
      match fuel with
      | O => None
      | S fuel =>
          n ← h !! p;
          if negb (key_lt (node_key n) end_key) then Some []
          else
            next ← forward n !! 0;
            r ← range_loop fuel h end_key next;
            Some ((node_key n, node_value n) :: r)
      end
  end.

Definition range (sl : SkipList) (start end_key : K) : option (list (K * V)) :=
  current ← descend (level sl) (nodes sl) start (head sl);
  start_ptr ← forward_at (nodes sl) current 0;
  range_loop (size (nodes sl)) (nodes sl) end_key start_ptr.

(** The [while let] of [clear]: every node freed. *)
Fixpoint free_loop (fuel : nat) (h : gmap nat Node) (current : option nat) : option (gmap nat Node) :=
  match current with
  | None => Some h
  | Some p =>
      match fuel with
      | O => None
      | S fuel => next ← forward_at h p 0; free_loop fuel (delete p h) next
      end
  end.

Definition clear (sl : SkipList) : option SkipList :=
  current ← forward_at (nodes sl) (head sl) 0;
  h ← free_loop (size (nodes sl)) (nodes sl) current;
  n ← h !! head sl;
  Some (mkSkipList
    (<[head sl := mkNode (node_key n) (node_value n) (replicate (length (forward n)) None) None]> h)
    (head sl) 1 0).

(** [validate_invariants]; an array of forward links has the length 16. *)
Fixpoint validate_loop (fuel : nat) (h : gmap nat Node) (prev_key : option K) (count : nat)
    (current : option nat) : option (result ValidationError nat) :=
  match current with
  | None => Some (Ok count)
  | Some p =>
      match fuel with
      | O => None
      | S fuel =>
          n ← h !! p;
          if negb (length (forward n) <=? MAX_LEVEL)
          then Some (Err (InvalidLevel (length (forward n)) MAX_LEVEL))
          else
            let sorted := match prev_key with None => true | Some prev => key_lt prev (node_key n) end in
            if negb sorted then Some (Err SortOrderViolation)
            else
              next ← forward n !! 0;
              validate_loop fuel h (Some (node_key n)) (count + 1) next
      end
  end.

Definition validate_invariants (sl : SkipList) : option (result ValidationError unit) :=
  current ← forward_at (nodes sl) (head sl) 0;
  r ← validate_loop (size (nodes sl)) (nodes sl) None 0 current;
  match r with
  | Err e => Some (Err e)
  | Ok count =>
      if count =? length_ sl then Some (Ok tt)
      else Some (Err (LengthMismatch (length_ sl) count))
  end.

(** [Clone] and [Deserialize]: the pairs inserted in a new list, the numbers
    of the generator being those of [draws n] at the [n]-th insertion. *)
Fixpoint insert_all (sl : SkipList) (kvs : list (K * V)) (draws : nat -> nat -> Z) (n : nat)
  : option SkipList :=
  match kvs with
  | [] => Some sl
  | (k, v) :: kvs => sl ← insert sl k v (draws n); insert_all sl kvs draws (n + 1)
  end.

Definition clone (sl : SkipList) (draws : nat -> nat -> Z) : option SkipList :=
  kvs ← iter sl; insert_all new kvs draws 0.

(** [PartialEq::eq]: the two chains side by side. *)
Fixpoint eq_loop `{EqDecision V} (fuel : nat) (h h' : gmap nat Node) (a b : option nat) : option bool :=
  match fuel with
  | O => None
  | S fuel =>
      match a, b with
      | Some a, Some b =>
          m ← h !! a;
          n ← h' !! b;
          if negb (key_eq (node_key m) (node_key n)) || bool_decide (node_value m <> node_value n)
          then Some false
          else
            a ← forward m !! 0;
            b ← forward n !! 0;
            eq_loop fuel h h' a b
      | None, None => Some true
      | _, _ => Some false
      end
  end.

Definition eq `{EqDecision V} (sl other : SkipList) : option bool :=
  if negb (len sl =? len other) then Some false
  else
    a ← forward_at (nodes sl) (head sl) 0;
    b ← forward_at (nodes other) (head other) 0;
    eq_loop (size (nodes sl)) (nodes sl) (nodes other) a b.

End SkipList.
Arguments Node : clear implicits.
Arguments SkipList : clear implicits.

(** ** Lanes

    A level links a sublist of the nodes from the head on. *)
Section Lanes.
Context {K V : Type}.
Implicit Types (h : gmap nat (Node K V)) (a b p q n i j : nat) (ls xs ys A B : list nat).

(** The last address of a path that starts at [a]. *)
Fixpoint lst a xs : nat :=
  match xs with
  | [] => a
  | x :: xs => lst x xs
  end.

Lemma lst_app a xs ys : lst a (xs ++ ys) = lst (lst a xs) ys.
Proof. revert a. induction xs as [|x xs IH]; intros a; simpl; [done|apply IH]. Qed.

Lemma lst_elem a xs : lst a xs ∈ a :: xs.
Proof.
  revert a. induction xs as [|x xs IH]; intros a; simpl; [by left|]. right. apply IH.
Qed.

Lemma lst_snoc a xs x : lst a (xs ++ [x]) = x.
Proof. by rewrite lst_app. Qed.

(** The last of a sublist cuts the list. *)
Lemma lst_sublist a xs ys :
  xs `sublist_of` ys -> exists A B, ys = A ++ B /\ lst a A = lst a xs.
Proof.
  induction xs as [|x xs _] using rev_ind; [by exists [], ys|]. intros Hs.
  assert (x ∈ ys) as Hin by (eapply elem_of_sublist; [|exact Hs]; set_solver).
  apply list_elem_of_split in Hin as (A & B & ->). exists (A ++ [x]), B.
  by rewrite !lst_snoc, <- app_assoc.
Qed.

Fixpoint linked h i a ls : Prop :=
  match ls with
  | [] => forward_at h a i = Some None
  | l :: ls => forward_at h a i = Some (Some l) /\ linked h i l ls
  end.

Lemma linked_end h i a A B : linked h i a (A ++ B) -> linked h i (lst a A) B.
Proof. revert a. induction A as [|x A IH]; intros a; simpl; [done|]. intros [_ H]. by apply IH. Qed.

Lemma linked_first h i a ls : linked h i a ls -> forward_at h a i = Some (hd_error ls).
Proof. destruct ls; simpl; [done|by intros [? _]]. Qed.

Lemma linked_ext h h' i a ls :
  (forall q, q ∈ a :: ls -> forward_at h' q i = forward_at h q i) ->
  linked h i a ls -> linked h' i a ls.
Proof.
  revert a. induction ls as [|l ls IH]; intros a Hq; simpl.
  - by rewrite (Hq a) by by left.
  - intros [H1 H2]. split; [by rewrite (Hq a) by by left|]. apply IH; [|done].
    intros q Hin. apply Hq. by right.
Qed.

(** A node linked in after [lst a A], and one unlinked. *)
Lemma linked_insert h h' i a A B n :
  NoDup (a :: A ++ B) -> linked h i a (A ++ B) ->
  (forall q, q ∈ a :: A ++ B -> q <> lst a A -> forward_at h' q i = forward_at h q i) ->
  forward_at h' (lst a A) i = Some (Some n) ->
  forward_at h' n i = forward_at h (lst a A) i ->
  n ∉ a :: A ++ B ->
  linked h' i a (A ++ n :: B).
Proof.
  revert a. induction A as [|x A IH]; intros a Hnd Hl Hq Hp Hn Hin; simpl in *.
  - split; [done|].
    apply NoDup_cons in Hnd as [Ha _].
    destruct B as [|b B]; simpl in *; [congruence|]. destruct Hl as [Hf Hl]. split; [congruence|].
    apply (linked_ext h); [|done]. intros q Hqb. apply Hq; [by right|]. intros ->. done.
  - destruct Hl as [Hf Hl]. apply NoDup_cons in Hnd as [Ha Hnd]. split.
    + rewrite (Hq a); [done|by left|]. intros ->.
      apply Ha. pose proof (lst_elem x A). set_solver.
    + apply IH; try done; [|set_solver]. intros q Hq1 Hq2. apply Hq; [by right|done].
Qed.

Lemma linked_remove h h' i a A B n :
  NoDup (a :: A ++ n :: B) -> linked h i a (A ++ n :: B) ->
  (forall q, q ∈ a :: A ++ B -> q <> lst a A -> forward_at h' q i = forward_at h q i) ->
  forward_at h' (lst a A) i = forward_at h n i ->
  linked h' i a (A ++ B).
Proof.
  revert a. induction A as [|x A IH]; intros a Hnd Hl Hq Hp; simpl in *.
  - destruct Hl as [_ Hl]. apply NoDup_cons in Hnd as [Ha Hnd].
    destruct B as [|b B]; simpl in *; [congruence|]. destruct Hl as [Hf Hl]. split; [congruence|].
    apply (linked_ext h); [|done]. intros q Hqb. apply Hq; [by right|]. intros ->. set_solver.
  - destruct Hl as [Hf Hl]. apply NoDup_cons in Hnd as [Ha Hnd]. split.
    + rewrite (Hq a); [done|by left|]. intros ->.
      apply Ha. pose proof (lst_elem x A). set_solver.
    + apply IH; try done. intros q Hq1 Hq2. apply Hq; [by right|done].
Qed.

(** The back links. *)
Definition bwd h p : option (option nat) := backward <$> h !! p.

Fixpoint backlinked h a ls : Prop :=
  match ls with
  | [] => True
  | l :: ls => bwd h l = Some (Some a) /\ backlinked h l ls
  end.

Lemma backlinked_app h a A B : backlinked h a (A ++ B) <-> backlinked h a A /\ backlinked h (lst a A) B.
Proof.
  revert a. induction A as [|x A IH]; intros a; simpl; [tauto|]. rewrite IH. tauto.
Qed.

Lemma backlinked_ext h h' a ls :
  (forall q, q ∈ ls -> bwd h' q = bwd h q) -> backlinked h a ls -> backlinked h' a ls.
Proof.
  revert a. induction ls as [|l ls IH]; intros a Hq; simpl; [done|]. intros [H1 H2].
  split; [by rewrite (Hq l) by by left|]. apply IH; [|done]. intros q Hin. apply Hq. by right.
Qed.

(** ** The store *)

Definition kv h p : option (K * V) := (fun nd => (node_key nd, node_value nd)) <$> h !! p.

Definition good_heap h : Prop := map_Forall (fun _ nd => length (forward nd) = MAX_LEVEL) h.

(** What a store shows to a client of a list: links, back links, pairs. *)
Record same_but h h' (fwd : nat -> nat -> option (option nat)) (back : nat -> option (option nat))
    (pairs : nat -> option (K * V)) : Prop := {
  sb_good : good_heap h';
  sb_dom : dom h' = dom h;
  sb_fwd : forall q j, forward_at h' q j = fwd q j;
  sb_back : forall q, bwd h' q = back q;
  sb_kv : forall q, kv h' q = pairs q;
}.

Lemma lookup_dom h p : p ∈ dom h -> exists nd, h !! p = Some nd.
Proof. intros [n Hn]%elem_of_dom. by exists n. Qed.

Lemma forward_at_dom h p i : good_heap h -> p ∈ dom h -> i < MAX_LEVEL -> is_Some (forward_at h p i).
Proof.
  intros Hg [n Hn]%lookup_dom Hi. unfold forward_at. rewrite Hn. cbn [mbind option_bind].
  apply lookup_lt_is_Some. by rewrite (Hg p n Hn).
Qed.

Lemma set_forward_spec h p i x :
  good_heap h -> p ∈ dom h -> i < MAX_LEVEL ->
  exists h', set_forward h p i x = Some h' /\
    same_but h h' (fun q j => if decide (q = p /\ j = i) then Some x else forward_at h q j)
      (bwd h) (kv h).
Proof.
  intros Hg [n Hn]%lookup_dom Hi. unfold set_forward. rewrite Hn. cbn [mbind option_bind].
  assert (i < length (forward n)) as Hl by by rewrite (Hg p n Hn).
  destruct (lookup_lt_is_Some_2 (forward n) i Hl) as [f Hf]. rewrite Hf. cbn [mbind option_bind].
  eexists. split; [done|]. constructor.
  - apply map_Forall_insert_2; [|done]. simpl. rewrite length_insert. by apply (Hg p).
  - apply dom_insert_lookup_L. by exists n.
  - intros q j. unfold forward_at. destruct (decide (q = p)) as [->|Hne].
    + rewrite lookup_insert_eq. cbn [mbind option_bind]. rewrite Hn. cbn [mbind option_bind]. simpl.
      destruct (decide (j = i)) as [->|Hj].
      * by rewrite decide_True, list_lookup_insert_eq.
      * rewrite decide_False by tauto. by rewrite list_lookup_insert_ne.
    + rewrite lookup_insert_ne by done. by rewrite decide_False by tauto.
  - intros q. unfold bwd. destruct (decide (q = p)) as [->|Hne].
    + by rewrite lookup_insert_eq, Hn.
    + by rewrite lookup_insert_ne.
  - intros q. unfold kv. destruct (decide (q = p)) as [->|Hne].
    + by rewrite lookup_insert_eq, Hn.
    + by rewrite lookup_insert_ne.
Qed.

Lemma set_backward_spec h p x :
  good_heap h -> p ∈ dom h ->
  exists h', set_backward h p x = Some h' /\
    same_but h h' (forward_at h) (fun q => if decide (q = p) then Some x else bwd h q) (kv h).
Proof.
  intros Hg [n Hn]%lookup_dom. unfold set_backward. rewrite Hn. cbn [mbind option_bind].
  eexists. split; [done|]. constructor.
  - apply map_Forall_insert_2; [|done]. simpl. by apply (Hg p).
  - apply dom_insert_lookup_L. by exists n.
  - intros q j. unfold forward_at. destruct (decide (q = p)) as [->|Hne].
    + by rewrite lookup_insert_eq, Hn.
    + by rewrite lookup_insert_ne.
  - intros q. unfold bwd. destruct (decide (q = p)) as [->|Hne].
    + by rewrite lookup_insert_eq.
    + by rewrite lookup_insert_ne.
  - intros q. unfold kv. destruct (decide (q = p)) as [->|Hne].
    + by rewrite lookup_insert_eq, Hn.
    + by rewrite lookup_insert_ne.
Qed.

Lemma set_value_spec h p v e :
  good_heap h -> kv h p = Some e ->
  exists h', set_value h p v = Some h' /\
    same_but h h' (forward_at h) (bwd h) (fun q => if decide (q = p) then Some (e.1, v) else kv h q).
Proof.
  intros Hg Hkv. unfold kv in Hkv. destruct (h !! p) as [n|] eqn:Hn; [|done].
  simpl in Hkv. injection Hkv as <-. unfold set_value. rewrite Hn. cbn [mbind option_bind].
  eexists. split; [done|]. constructor.
  - apply map_Forall_insert_2; [|done]. simpl. by apply (Hg p).
  - apply dom_insert_lookup_L. by exists n.
  - intros q j. unfold forward_at. destruct (decide (q = p)) as [->|Hne].
    + by rewrite lookup_insert_eq, Hn.
    + by rewrite lookup_insert_ne.
  - intros q. unfold bwd. destruct (decide (q = p)) as [->|Hne].
    + by rewrite lookup_insert_eq, Hn.
    + by rewrite lookup_insert_ne.
  - intros q. unfold kv. destruct (decide (q = p)) as [->|Hne].
    + by rewrite lookup_insert_eq.
    + by rewrite lookup_insert_ne.
Qed.

Lemma pairs_ext h h' xs (es : list (K * V)) :
  (forall q, q ∈ xs -> kv h' q = kv h q) ->
  Forall2 (fun p e => kv h p = Some e) xs es -> Forall2 (fun p e => kv h' p = Some e) xs es.
Proof.
  intros Hq Hf. induction Hf as [|x e xs es Hx Hf IH]; constructor.
  - by rewrite (Hq x) by by left.
  - apply IH. intros q Hin. apply Hq. by right.
Qed.
End Lanes.

(** ** Invariant *)

Section Correctness.
Context {K V : Type} `{ord : Ord K} `{Inhabited K, Inhabited V}.
Implicit Types (h : gmap nat (Node K V)) (sl : SkipList K V) (kvs : list (K * V)).
Implicit Types (a b p q n i j : nat) (ls xs ys A B : list nat) (ht : nat -> nat).

(** The nodes that level [i] links. *)
Definition lane ht i ls : list nat := filter (fun p => i < ht p) ls.

Record Inv sl ls ht kvs : Prop := {
  i_good : good_heap (nodes sl);
  i_dom : dom (nodes sl) = list_to_set (head sl :: ls);
  i_nodup : NoDup (head sl :: ls);
  i_pairs : Forall2 (fun p e => kv (nodes sl) p = Some e) ls kvs;
  i_sorted : sorted kvs;
  i_link : forall i, i < MAX_LEVEL -> linked (nodes sl) i (head sl) (lane ht i ls);
  i_ht : Forall (fun p => 1 <= ht p <= level sl) ls;
  i_level : 1 <= level sl <= MAX_LEVEL;
  i_len : length_ sl = length ls;
  i_back : backlinked (nodes sl) (head sl) ls;
}.

(** [sl] is well formed, owns exactly its nodes and holds the pairs [kvs]. *)
Definition Holds sl kvs : Prop := exists ls ht, Inv sl ls ht kvs.

Lemma lane_app ht i A B : lane ht i (A ++ B) = lane ht i A ++ lane ht i B.
Proof. apply filter_app. Qed.

Lemma lane_0 ht ls m : Forall (fun p => 1 <= ht p <= m) ls -> lane ht 0 ls = ls.
Proof.
  intros Hf. unfold lane. induction ls as [|p ls IH]; [done|].
  apply Forall_cons in Hf as [Hp Hf]. rewrite filter_cons_True by lia. by rewrite IH.
Qed.

Lemma lane_top ht i ls m : Forall (fun p => 1 <= ht p <= m) ls -> m <= i -> lane ht i ls = [].
Proof.
  intros Hf Hi. unfold lane. induction ls as [|p ls IH]; [done|].
  apply Forall_cons in Hf as [Hp Hf]. rewrite filter_cons_False by lia. by apply IH.
Qed.

Lemma lane_sublist ht i j ls : i <= j -> lane ht j ls `sublist_of` lane ht i ls.
Proof.
  intros Hij. unfold lane. induction ls as [|p ls IH]; [done|].
  destruct (decide (j < ht p)).
  - rewrite !filter_cons_True by lia. by constructor.
  - rewrite filter_cons_False by done. destruct (decide (i < ht p)).
    + rewrite filter_cons_True by done. by constructor.
    + by rewrite filter_cons_False.
Qed.

Lemma lane_subseteq ht i ls p : p ∈ lane ht i ls -> p ∈ ls.
Proof. intros [_ Hp]%list_elem_of_filter. done. Qed.

Lemma lane_NoDup ht i a ls : NoDup (a :: ls) -> NoDup (a :: lane ht i ls).
Proof.
  intros [Ha Hnd]%NoDup_cons. apply NoDup_cons. split; [|by apply NoDup_filter].
  intros Hin%lane_subseteq. done.
Qed.

(** ** The walks *)

Definition keys_below h key xs : Prop :=
  Forall (fun p => exists e, kv h p = Some e /\ key_lt e.1 key = true) xs.

Definition first_not_below h key ys : Prop :=
  match ys with
  | [] => True
  | y :: _ => exists e, kv h y = Some e /\ key_lt e.1 key = false
  end.

Lemma kv_lookup h p e : kv h p = Some e -> exists nd, h !! p = Some nd /\ node_key nd = e.1 /\ node_value nd = e.2.
Proof.
  unfold kv. destruct (h !! p) as [nd|]; [|done]. intros [= <-]. by exists nd.
Qed.

Lemma walk_spec fuel h i key c xs ys :
  linked h i c (xs ++ ys) -> keys_below h key xs -> first_not_below h key ys ->
  length xs < fuel -> walk fuel h i key c = Some (lst c xs).
Proof.
  revert c fuel. induction xs as [|x xs IH]; intros c [|fuel] Hl Hb Hn Hf; simpl in Hf; try lia; cbn [walk].
  - simpl in Hl. rewrite (linked_first _ _ _ _ Hl). cbn [mbind option_bind].
    destruct ys as [|y ys]; [done|]. simpl.
    destruct Hn as (e & He & Hlt). destruct (kv_lookup h y e He) as (nd & -> & Hk & _).
    cbn [mbind option_bind]. by rewrite Hk, Hlt.
  - destruct Hl as [-> Hl]. cbn [mbind option_bind].
    apply Forall_cons in Hb as [(e & He & Hlt) Hb].
    destruct (kv_lookup h x e He) as (nd & -> & Hk & _). cbn [mbind option_bind].
    rewrite Hk, Hlt. simpl. apply IH; [done|done|done|lia].
Qed.

(** The nodes of an invariant cut at a key. *)
Record Cut sl ht kvs key pre post : Prop := {
  cut_inv : Inv sl (pre ++ post) ht kvs;
  cut_pre : Forall2 (fun p e => kv (nodes sl) p = Some e) pre (below key kvs);
  cut_post : Forall2 (fun p e => kv (nodes sl) p = Some e) post (not_below key kvs);
}.

Lemma cut_at_key sl ls ht kvs key :
  Inv sl ls ht kvs -> exists pre post, ls = pre ++ post /\ Cut sl ht kvs key pre post.
Proof.
  intros HI. pose proof (i_pairs _ _ _ _ HI) as Hp. rewrite <- (below_app key kvs) in Hp.
  apply Forall2_app_inv_r in Hp as (pre & post & H1 & H2 & ->). by exists pre, post.
Qed.

Lemma cut_below sl ht kvs key pre post xs :
  Cut sl ht kvs key pre post -> (forall p, p ∈ xs -> p ∈ pre) -> keys_below (nodes sl) key xs.
Proof.
  intros HC Hsub. apply Forall_forall. intros p Hp%Hsub.
  apply list_elem_of_lookup in Hp as [k Hk].
  destruct (Forall2_lookup_l _ _ _ _ _ (cut_pre _ _ _ _ _ _ HC) Hk) as (e & He & Hkv).
  exists e. split; [done|]. pose proof (below_lt key kvs) as Hb. rewrite Forall_forall in Hb.
  apply Hb. by eapply list_elem_of_lookup_2.
Qed.

Lemma cut_not_below sl ht kvs key pre post ys :
  Cut sl ht kvs key pre post -> (forall p, p ∈ ys -> p ∈ post) -> first_not_below (nodes sl) key ys.
Proof.
  intros HC Hsub. destruct ys as [|y ys]; [done|]. simpl.
  assert (y ∈ post) as Hy by (apply Hsub; by left).
  apply list_elem_of_lookup in Hy as [k Hk].
  destruct (Forall2_lookup_l _ _ _ _ _ (cut_post _ _ _ _ _ _ HC) Hk) as (e & He & Hkv).
  exists e. split; [done|].
  pose proof (sorted_not_below key kvs (i_sorted _ _ _ _ (cut_inv _ _ _ _ _ _ HC))) as Hb.
  rewrite Forall_forall in Hb. apply Hb. by eapply list_elem_of_lookup_2.
Qed.

Lemma Inv_size sl ls ht kvs : Inv sl ls ht kvs -> size (nodes sl) = S (length ls).
Proof.
  intros HI. rewrite <- (size_dom (D := gset nat)), (i_dom _ _ _ _ HI).
  rewrite size_list_to_set by apply HI. done.
Qed.

(** The predecessor of the key on a level: the last node below it. *)
Definition pred_at sl ht pre i : nat := lst (head sl) (lane ht i pre).

(** One level of a descent. *)
Lemma walk_level sl ht kvs key pre post i :
  Cut sl ht kvs key pre post -> i < level sl ->
  walk (S (size (nodes sl))) (nodes sl) i key (pred_at sl ht pre (S i)) = Some (pred_at sl ht pre i).
Proof.
  intros HC Hi. pose proof (cut_inv _ _ _ _ _ _ HC) as HI.
  destruct (lst_sublist (head sl) (lane ht (S i) pre) (lane ht i pre)) as (A & B & HAB & HA).
  { apply lane_sublist. lia. }
  unfold pred_at. rewrite <- HA, HAB, lst_app.
  pose proof (i_link _ _ _ _ HI i) as Hl. rewrite lane_app, HAB, <- app_assoc in Hl.
  apply walk_spec with (ys := lane ht i post).
  - apply linked_end. apply Hl. pose proof (i_level _ _ _ _ HI). lia.
  - apply (cut_below sl ht kvs key pre post); [done|]. intros p Hp.
    apply (lane_subseteq ht i). rewrite HAB. set_solver.
  - apply (cut_not_below sl ht kvs key pre post); [done|]. intros p. apply lane_subseteq.
  - rewrite (Inv_size _ _ _ _ HI), length_app.
    assert (length B <= length pre) as Hle.
    { transitivity (length (lane ht i pre)); [rewrite HAB, length_app; lia|]. apply length_filter. }
    lia.
Qed.

Lemma pred_at_top sl ls ht kvs pre i :
  Inv sl ls ht kvs -> (forall p, p ∈ pre -> p ∈ ls) -> level sl <= i -> pred_at sl ht pre i = head sl.
Proof.
  intros HI Hsub Hi. unfold pred_at. rewrite (lane_top ht i pre (level sl)); [done| |done].
  pose proof (i_ht _ _ _ _ HI) as Hf. rewrite Forall_forall in *. intros p Hp. by apply Hf, Hsub.
Qed.

Lemma find_update_loop_spec sl ht kvs key pre post n upd :
  Cut sl ht kvs key pre post -> n <= level sl ->
  exists upd', find_update_loop n (nodes sl) key (pred_at sl ht pre n) upd = Some upd' /\
    length upd' = length upd /\
    forall i, upd' !! i = if decide (i < n /\ i < length upd) then Some (Some (pred_at sl ht pre i)) else upd !! i.
Proof.
  intros HC. revert upd. induction n as [|n IH]; intros upd Hn; cbn [find_update_loop].
  - exists upd. split_and!; [done|done|]. intros i. by rewrite decide_False by lia.
  - rewrite (walk_level sl ht kvs key pre post n HC) by lia. cbn [mbind option_bind].
    destruct (IH (<[n := Some (pred_at sl ht pre n)]> upd)) as (upd' & -> & Hl & Hu); [lia|].
    rewrite length_insert in *. exists upd'. split_and!; [done|done|]. intros i. rewrite Hu.
    destruct (decide (i < n /\ i < length upd)) as [Hi|Hi].
    + by rewrite decide_True by lia.
    + destruct (decide (i = n)) as [->|Hne].
      * destruct (decide (n < S n /\ n < length upd)) as [Hd|Hd].
        -- by rewrite list_lookup_insert_eq by lia.
        -- rewrite list_insert_ge by lia. done.
      * rewrite list_lookup_insert_ne by done. by rewrite decide_False by lia.
Qed.

Lemma find_update_spec sl ht kvs key pre post :
  Cut sl ht kvs key pre post ->
  exists upd, find_update sl key = Some upd /\ length upd = MAX_LEVEL /\
    forall i, i < level sl -> upd !! i = Some (Some (pred_at sl ht pre i)).
Proof.
  intros HC. pose proof (cut_inv _ _ _ _ _ _ HC) as HI. unfold find_update.
  rewrite <- (pred_at_top sl (pre ++ post) ht kvs pre (level sl)); [|done|set_solver|done].
  destruct (find_update_loop_spec sl ht kvs key pre post (level sl) (replicate MAX_LEVEL None))
    as (upd & Hf & Hl & Hu); [done|done|].
  rewrite length_replicate in *. exists upd. split_and!; [done|done|]. intros i Hi. rewrite Hu.
  by rewrite decide_True by (pose proof (i_level _ _ _ _ HI); lia).
Qed.

Lemma descend_spec sl ht kvs key pre post n :
  Cut sl ht kvs key pre post -> n <= level sl ->
  descend n (nodes sl) key (pred_at sl ht pre n) = Some (pred_at sl ht pre 0).
Proof.
  intros HC. induction n as [|n IH]; intros Hn; cbn [descend]; [done|].
  rewrite (walk_level sl ht kvs key pre post n HC) by lia. cbn [mbind option_bind]. apply IH. lia.
Qed.

Lemma pred_at_0 sl ht kvs key pre post :
  Cut sl ht kvs key pre post ->
  pred_at sl ht pre 0 = lst (head sl) pre /\
  forward_at (nodes sl) (lst (head sl) pre) 0 = Some (hd_error post).
Proof.
  intros HC. pose proof (cut_inv _ _ _ _ _ _ HC) as HI.
  pose proof (i_ht _ _ _ _ HI) as Hht. pose proof (i_link _ _ _ _ HI 0 ltac:(unfold MAX_LEVEL; lia)) as Hl.
  rewrite (lane_0 ht (pre ++ post) (level sl) Hht) in Hl.
  apply Forall_app in Hht as [Hpre _]. unfold pred_at. rewrite (lane_0 ht pre (level sl) Hpre).
  split; [done|]. by apply linked_first, linked_end.
Qed.

(** The node with the key, if there is one, is the first that is not below. *)
Lemma found_node_spec sl ht kvs key pre post upd :
  Cut sl ht kvs key pre post -> upd !! 0 = Some (Some (pred_at sl ht pre 0)) ->
  found_node sl upd key =
    Some (match at_head key (not_below key kvs) with Some _ => hd_error post | None => None end).
Proof.
  intros HC Hu. unfold found_node, update_at. rewrite Hu. cbn [mbind option_bind].
  destruct (pred_at_0 _ _ _ _ _ _ HC) as [-> ->]. cbn [mbind option_bind].
  pose proof (cut_post _ _ _ _ _ _ HC) as Hp.
  destruct Hp as [|p e post' kvs' Hp _]; [done|]. simpl.
  destruct (kv_lookup _ p e Hp) as (nd & -> & Hk & _). cbn [mbind option_bind]. rewrite Hk.
  by destruct (key_eq e.1 key).
Qed.

Lemma Forall2_at_head sl key post kvs e :
  Forall2 (fun p e => kv (nodes sl) p = Some e) post kvs -> at_head key kvs = Some e ->
  exists p post' kvs', post = p :: post' /\ kvs = e :: kvs' /\ kv (nodes sl) p = Some e /\
    Forall2 (fun p e => kv (nodes sl) p = Some e) post' kvs' /\ key_eq e.1 key = true.
Proof.
  intros [|p e' post' kvs' Hp Hf]; [done|]. simpl. destruct (key_eq e'.1 key) eqn:E; [|done].
  intros [= <-]. by exists p, post', kvs'.
Qed.

Lemma search_spec sl kvs key : Holds sl kvs -> search sl key = Some (spec_search kvs key).
Proof.
  intros (ls & ht & HI). destruct (cut_at_key sl ls ht kvs key HI) as (pre & post & -> & HC).
  unfold search. rewrite <- (pred_at_top sl (pre ++ post) ht kvs pre (level sl)); [|done|set_solver|done].
  rewrite (descend_spec sl ht kvs key pre post (level sl) HC) by done. cbn [mbind option_bind].
  destruct (pred_at_0 _ _ _ _ _ _ HC) as [-> ->]. cbn [mbind option_bind].
  pose proof (cut_post _ _ _ _ _ _ HC) as Hp. unfold spec_search.
  destruct Hp as [|p e post' kvs' Hp _]; [done|]. simpl.
  destruct (kv_lookup _ p e Hp) as (nd & -> & Hk & Hv). cbn [mbind option_bind]. rewrite Hk, Hv.
  by destruct (key_eq e.1 key).
Qed.
End Correctness.

(** ** Insertion *)

Section Insertion.
Context {K V : Type} `{ord : Ord K} `{Inhabited K, Inhabited V}.
Implicit Types (h : gmap nat (Node K V)) (sl : SkipList K V) (kvs : list (K * V)).
Implicit Types (a b p q n i j : nat) (ls xs ys A B pre post : list nat) (ht : nat -> nat).

Lemma random_level_bounds (draws : nat -> Z) : 1 <= random_level draws <= MAX_LEVEL.
Proof.
  unfold random_level.
  assert (forall fuel k lvl, 1 <= lvl <= MAX_LEVEL ->
            1 <= random_level_loop fuel draws k lvl <= MAX_LEVEL) as Hl.
  { induction fuel as [|fuel IH]; intros k lvl Hlvl; simpl; [done|].
    destruct (Nat.ltb_spec lvl MAX_LEVEL); [|done]. destruct (_ <? _)%Z; [|done]. apply IH. lia. }
  apply Hl. unfold MAX_LEVEL. lia.
Qed.

(** Replacing the value of a node. *)
Lemma set_value_Inv sl ht kvs key pre post p e value upd :
  Cut sl ht kvs key pre (p :: post) -> not_below key kvs = e :: upd -> kv (nodes sl) p = Some e ->
  exists h, set_value (nodes sl) p value = Some h /\
    Inv (mkSkipList h (head sl) (level sl) (length_ sl)) (pre ++ p :: post) ht
      (below key kvs ++ (e.1, value) :: upd).
Proof.
  intros HC Hnb Hp. pose proof (cut_inv _ _ _ _ _ _ HC) as HI.
  destruct (set_value_spec (nodes sl) p value e (i_good _ _ _ _ HI) Hp) as (h & Hh & [Hg Hd Hf Hb Hkv]).
  exists h. split; [done|]. pose proof (cut_pre _ _ _ _ _ _ HC) as Hpre.
  pose proof (cut_post _ _ _ _ _ _ HC) as Hpost. rewrite Hnb in Hpost.
  apply Forall2_cons in Hpost as [_ Hpost]. pose proof (i_nodup _ _ _ _ HI) as Hnd.
  apply NoDup_cons in Hnd as [_ Hnd]. apply NoDup_app in Hnd as (_ & Hdis & [Hpn _]%NoDup_cons).
  constructor; simpl; try apply HI.
  - done.
  - rewrite Hd. apply HI.
  - apply Forall2_app; [|constructor].
    + apply (pairs_ext (nodes sl)); [|done]. intros q Hq. rewrite Hkv, decide_False; [done|].
      intros ->. apply (Hdis p Hq). by left.
    + by rewrite Hkv, decide_True.
    + apply (pairs_ext (nodes sl)); [|done]. intros q Hq. rewrite Hkv, decide_False; [done|].
      by intros ->.
  - pose proof (i_sorted _ _ _ _ HI) as Hs. rewrite <- (below_app key kvs), Hnb in Hs.
    destruct e as [k v]. by apply (sorted_same_key _ k v).
  - intros i Hi. apply (linked_ext (nodes sl)); [|by apply HI]. intros q _. apply Hf.
  - apply (backlinked_ext (nodes sl)); [|apply HI]. intros q _. apply Hb.
Qed.

Lemma raise_update_spec n i a upd :
  i + n <= length upd ->
  length (raise_update n i a upd) = length upd /\
  forall j, raise_update n i a upd !! j =
    if decide (i <= j < i + n) then Some (Some a) else upd !! j.
Proof.
  revert i upd. induction n as [|n IH]; intros i upd Hn; cbn [raise_update].
  - split; [done|]. intros j. by rewrite decide_False by lia.
  - destruct (IH (i + 1) (<[i := Some a]> upd)) as [Hl Hj]; [rewrite length_insert; lia|].
    rewrite length_insert in Hl. split; [done|]. intros j. rewrite Hj.
    destruct (decide (i = j)) as [->|Hne].
    + rewrite decide_False, decide_True by lia. by rewrite list_lookup_insert_eq by lia.
    + rewrite list_lookup_insert_ne by done.
      destruct (decide (i + 1 <= j < i + 1 + n)); destruct (decide (i <= j < i + S n)); done || lia.
Qed.

(** Linking the new node after its predecessors [pd], from level [i] on. *)
Lemma link_loop_spec m i h n upd (pd : nat -> nat) :
  good_heap h -> n ∈ dom h -> i + m <= MAX_LEVEL ->
  (forall j, i <= j < i + m -> upd !! j = Some (Some (pd j)) /\ pd j ∈ dom h /\ pd j <> n) ->
  exists h', link_loop m i h n upd = Some h' /\
    same_but h h'
      (fun q j => if decide (i <= j < i + m)
                  then if decide (q = n) then forward_at h (pd j) j
                       else if decide (q = pd j) then Some (Some n) else forward_at h q j
                  else forward_at h q j)
      (bwd h) (kv h).
Proof.
  revert i h. induction m as [|m IH]; intros i h Hg Hn Hi Hpd; cbn [link_loop].
  - exists h. split; [done|]. constructor; try done. intros q j. by rewrite decide_False by lia.
  - destruct (Hpd i) as (Hu & Hd & Hne); [lia|]. unfold update_at. rewrite Hu. cbn [mbind option_bind].
    destruct (forward_at_dom h (pd i) i Hg Hd) as [f Hf]; [lia|]. rewrite Hf. cbn [mbind option_bind].
    destruct (set_forward_spec h n i f Hg Hn) as (h1 & -> & [Hg1 Hd1 Hf1 Hb1 Hk1]); [lia|].
    cbn [mbind option_bind].
    destruct (set_forward_spec h1 (pd i) i (Some n) Hg1) as (h2 & -> & [Hg2 Hd2 Hf2 Hb2 Hk2]);
      [by rewrite Hd1|lia|].
    cbn [mbind option_bind].
    destruct (IH (i + 1) h2 Hg2) as (h' & -> & [Hg' Hd' Hf' Hb' Hk']).
    { by rewrite Hd2, Hd1. }
    { lia. }
    { intros j Hj. destruct (Hpd j) as (? & ? & ?); [lia|]. split_and!; [done|by rewrite Hd2, Hd1|done]. }
    exists h'. split; [done|]. constructor.
    + done.
    + by rewrite Hd', Hd2, Hd1.
    + intros q j. rewrite Hf'.
      assert (forall q j, j <> i -> forward_at h2 q j = forward_at h q j) as Hother.
      { intros q' j' Hj'. rewrite Hf2, decide_False by tauto. by rewrite Hf1, decide_False by tauto. }
      destruct (decide (i + 1 <= j < i + 1 + m)) as [Hj|Hj].
      * rewrite (decide_True (P := i <= j < i + S m)) by lia. by rewrite !Hother by lia.
      * destruct (decide (j = i)) as [->|Hji].
        -- rewrite (decide_True (P := i <= i < i + S m)) by lia. rewrite Hf2, Hf1.
           destruct (decide (q = n)) as [->|Hqn].
           ++ rewrite decide_False by (intros [? _]; congruence). by rewrite decide_True.
           ++ destruct (decide (q = pd i)) as [->|Hqp]; [by rewrite decide_True|].
              by rewrite !decide_False by tauto.
        -- rewrite Hother by done. by rewrite (decide_False (P := i <= j < i + S m)) by lia.
    + intros q. by rewrite Hb', Hb2, Hb1.
    + intros q. by rewrite Hk', Hk2, Hk1.
Qed.

Lemma lane_insert ht n m i pre post :
  n ∉ pre ++ post ->
  lane (fun q => if decide (q = n) then m else ht q) i (pre ++ n :: post) =
  if decide (i < m) then lane ht i pre ++ n :: lane ht i post else lane ht i pre ++ lane ht i post.
Proof.
  intros Hn. rewrite lane_app.
  assert (forall ls, n ∉ ls -> lane (fun q => if decide (q = n) then m else ht q) i ls = lane ht i ls) as Hls.
  { intros ls Hin. unfold lane. induction ls as [|q ls IH]; [done|].
    apply not_elem_of_cons in Hin as [Hq Hin]. rewrite !filter_cons.
    rewrite (decide_False (P := q = n)) by congruence. by rewrite IH. }
  rewrite (Hls pre) by set_solver. unfold lane at 2. rewrite filter_cons.
  rewrite (decide_True (P := n = n)) by done. fold (lane (fun q => if decide (q = n) then m else ht q) i post).
  rewrite (Hls post) by set_solver. by destruct (decide (i < m)).
Qed.

Lemma new_node_store sl ls ht kvs key value :
  Inv sl ls ht kvs ->
  let n := fresh (dom (nodes sl)) in
  let h := <[n := node_new key value]> (nodes sl) in
  n ∉ head sl :: ls /\ good_heap h /\ dom h = list_to_set (n :: head sl :: ls) /\
  (forall q j, q <> n -> forward_at h q j = forward_at (nodes sl) q j) /\
  (forall q, q <> n -> bwd h q = bwd (nodes sl) q) /\
  (forall q, kv h q = if decide (q = n) then Some (key, value) else kv (nodes sl) q).
Proof.
  intros HI. cbv zeta. set (n := fresh (dom (nodes sl))).
  assert (n ∉ head sl :: ls) as Hn.
  { pose proof (is_fresh (dom (nodes sl))) as Hf. fold n in Hf. rewrite (i_dom _ _ _ _ HI) in Hf.
    by rewrite elem_of_list_to_set in Hf. }
  split_and!; [done| | | | |].
  - apply map_Forall_insert_2; [reflexivity|apply HI].
  - rewrite dom_insert_L, (i_dom _ _ _ _ HI). done.
  - intros q j Hq. unfold forward_at. by rewrite lookup_insert_ne.
  - intros q Hq. unfold bwd. by rewrite lookup_insert_ne.
  - intros q. unfold kv. destruct (decide (q = n)) as [->|Hq]; [by rewrite lookup_insert_eq|].
    by rewrite lookup_insert_ne.
Qed.

Lemma insert_node_spec sl ht kvs key pre post upd value lvl :
  Cut sl ht kvs key pre post -> at_head key (not_below key kvs) = None ->
  1 <= lvl <= MAX_LEVEL -> length upd = MAX_LEVEL ->
  (forall i, i < level sl -> upd !! i = Some (Some (pred_at sl ht pre i))) ->
  exists sl', insert_node sl upd key value lvl = Some sl' /\
    Holds sl' (below key kvs ++ (key, value) :: not_below key kvs).
Proof.
  intros HC Hhd Hlvl Hul Hupd. pose proof (cut_inv _ _ _ _ _ _ HC) as HI.
  pose proof (i_level _ _ _ _ HI) as Hlev. unfold insert_node.
  set (upd2 := if level sl <? lvl then _ else upd). set (lev2 := if level sl <? lvl then lvl else level sl).
  set (n := fresh (dom (nodes sl))). set (h0 := <[n := node_new key value]> (nodes sl)).
  assert (lev2 = Nat.max (level sl) lvl) as Hlev2.
  { unfold lev2. destruct (Nat.ltb_spec (level sl) lvl); lia. }
  assert (forall i, i < lvl -> upd2 !! i = Some (Some (pred_at sl ht pre i))) as Hupd2.
  { intros i Hi. unfold upd2. destruct (Nat.ltb_spec (level sl) lvl) as [Hlt|]; [|apply Hupd; lia].
    destruct (raise_update_spec (lvl - level sl) (level sl) (head sl) upd) as [_ ->]; [lia|].
    case_decide; [|apply Hupd; lia].
    rewrite (pred_at_top sl (pre ++ post) ht kvs); [done|done|set_solver|lia]. }
  destruct (new_node_store sl (pre ++ post) ht kvs key value HI) as (Hn & Hg0 & Hd0 & Hf0 & Hb0 & Hk0).
  fold n in Hn, Hg0, Hd0, Hf0, Hb0, Hk0. fold h0 in Hg0, Hd0, Hf0, Hb0, Hk0.
  assert (forall i, pred_at sl ht pre i ∈ head sl :: pre ++ post) as Hpin.
  { intros i. unfold pred_at. pose proof (lst_elem (head sl) (lane ht i pre)) as Hin.
    apply elem_of_cons in Hin as [->|Hin%lane_subseteq]; [by left|set_solver]. }
  destruct (link_loop_spec lvl 0 h0 n upd2 (pred_at sl ht pre)) as (h1 & -> & [Hg1 Hd1 Hf1 Hb1 Hk1]).
  { done. }
  { rewrite Hd0. set_solver. }
  { lia. }
  { intros j Hj. split_and!; [apply Hupd2; lia|rewrite Hd0; specialize (Hpin j); set_solver|].
    intros E. apply Hn. rewrite <- E. apply Hpin. }
  cbn [mbind option_bind]. rewrite (Hupd2 0) by lia. cbn [mbind option_bind].
  destruct (set_backward_spec h1 n (Some (pred_at sl ht pre 0)) Hg1) as (h2 & -> & [Hg2 Hd2 Hf2 Hb2 Hk2]).
  { rewrite Hd1, Hd0. set_solver. }
  cbn [mbind option_bind].
  destruct (pred_at_0 _ _ _ _ _ _ HC) as [Hp0 Hfp0].
  assert (forward_at h2 n 0 = Some (hd_error post)) as Hfn.
  { rewrite Hf2, Hf1, !decide_True by (done || lia).
    rewrite Hf0; [by rewrite Hp0|]. intros E. apply Hn. rewrite <- E. apply Hpin. }
  rewrite Hfn. cbn [mbind option_bind].
  (* the successor gets its back link *)
  assert (exists h3, match hd_error post with
                     | Some next => set_backward h2 next (Some n)
                     | None => Some h2
                     end = Some h3 /\
            same_but h2 h3 (forward_at h2)
              (fun q => if decide (Some q = hd_error post) then Some (Some n) else bwd h2 q) (kv h2))
    as (h3 & -> & [Hg3 Hd3 Hf3 Hb3 Hk3]).
  { destruct post as [|p post]; simpl.
    - exists h2. split; [done|]. constructor; try done.
    - destruct (set_backward_spec h2 p (Some n) Hg2) as (h3 & -> & [Hg3 Hd3 Hf3 Hb3 Hk3]).
      { rewrite Hd2, Hd1, Hd0. set_solver. }
      exists h3. split; [done|]. constructor; try done. intros q. rewrite Hb3.
      destruct (decide (q = p)) as [->|]; [by rewrite decide_True|]. by rewrite decide_False by congruence. }
  cbn [mbind option_bind]. eexists. split; [done|].
  exists (pre ++ n :: post), (fun q => if decide (q = n) then lvl else ht q).
  assert (n ∉ pre ++ post) as Hn' by set_solver.
  pose proof (i_nodup _ _ _ _ HI) as Hnd.
  assert (forall q j, q <> n -> forward_at h3 q j =
            if decide (j < lvl /\ q = pred_at sl ht pre j) then Some (Some n) else forward_at (nodes sl) q j) as Hfwd.
  { intros q j Hq. rewrite Hf3, Hf2, Hf1.
    destruct (decide (0 <= j < 0 + lvl)) as [Hj|Hj].
    - rewrite (decide_False (P := q = n)) by done. destruct (decide (q = pred_at sl ht pre j)) as [Hqp|Hqp].
      + by rewrite decide_True by (split; [lia|done]).
      + rewrite decide_False by tauto. by rewrite Hf0.
    - rewrite decide_False by lia. by rewrite Hf0. }
  constructor; simpl.
  - done.
  - rewrite Hd3, Hd2, Hd1, Hd0. set_solver.
  - apply NoDup_cons in Hnd as [Hh Hnd]. apply NoDup_cons. split; [set_solver|].
    apply NoDup_app in Hnd as (Hnd1 & Hdis & Hnd2). apply NoDup_app. split_and!; [done| |].
    + intros q Hq [->|Hq']%elem_of_cons; [set_solver|by apply (Hdis q)].
    + apply NoDup_cons. split; [set_solver|done].
  - assert (forall q, kv h3 q = if decide (q = n) then Some (key, value) else kv (nodes sl) q) as Hkv.
    { intros q. by rewrite Hk3, Hk2, Hk1. }
    apply Forall2_app; [|constructor].
    + apply (pairs_ext (nodes sl)); [|apply HC]. intros q Hq. rewrite Hkv, decide_False; [done|set_solver].
    + by rewrite Hkv, decide_True.
    + apply (pairs_ext (nodes sl)); [|apply HC]. intros q Hq. rewrite Hkv, decide_False; [done|set_solver].
  - apply sorted_insert_new; [apply HI|done].
  - intros i Hi. rewrite lane_insert by done.
    pose proof (i_link _ _ _ _ HI i Hi) as Hl. rewrite lane_app in Hl.
    pose proof (lane_NoDup ht i (head sl) (pre ++ post) Hnd) as Hnl. rewrite lane_app in Hnl.
    assert (forall q, q ∈ head sl :: lane ht i pre ++ lane ht i post -> q <> n) as Hne.
    { intros q Hq ->. apply Hn. apply elem_of_cons in Hq as [->|Hq]; [by left|]. right.
      rewrite <- lane_app in Hq. by apply lane_subseteq in Hq. }
    destruct (decide (i < lvl)) as [Hlt|Hge].
    + apply (linked_insert (nodes sl)); [done|done| | | |].
      * intros q Hq Hqp. rewrite Hfwd by by apply Hne. by rewrite decide_False by tauto.
      * rewrite Hfwd; [by rewrite decide_True|]. intros E. apply Hn. rewrite <- E. apply Hpin.
      * rewrite Hf3, Hf2, Hf1, !decide_True by (done || lia). rewrite Hf0; [done|].
        intros E. apply Hn. rewrite <- E. apply Hpin.
      * intros Hq. by apply Hne in Hq.
    + apply (linked_ext (nodes sl)); [|done]. intros q Hq. rewrite Hfwd by by apply Hne.
      by rewrite decide_False by lia.
  - rewrite Hlev2. pose proof (i_ht _ _ _ _ HI) as Hht. rewrite Forall_forall in *.
    intros q Hq. destruct (decide (q = n)) as [->|Hqn]; [lia|].
    assert (q ∈ pre ++ post) as Hq' by set_solver. specialize (Hht q Hq'). lia.
  - rewrite Hlev2. lia.
  - rewrite (i_len _ _ _ _ HI), !length_app. simpl. lia.
  - assert (forall q, bwd h3 q = if decide (Some q = hd_error post) then Some (Some n)
                                 else if decide (q = n) then Some (Some (lst (head sl) pre))
                                 else bwd (nodes sl) q) as Hbw.
    { intros q. rewrite Hb3. destruct (decide (Some q = hd_error post)) as [|]; [done|].
      rewrite Hb2, Hp0. destruct (decide (q = n)) as [|Hqn]; [done|]. by rewrite Hb1, Hb0. }
    pose proof (i_back _ _ _ _ HI) as Hbk. apply backlinked_app in Hbk as [Hb1' Hb2'].
    apply NoDup_cons in Hnd as [_ Hnd]. apply NoDup_app in Hnd as (_ & Hdis & Hndp).
    apply backlinked_app. split; [|split].
    + apply (backlinked_ext (nodes sl)); [|done]. intros q Hq. rewrite Hbw.
      rewrite decide_False, decide_False; [done|set_solver|]. intros E.
      destruct post as [|p post]; [done|]. injection E as ->. apply (Hdis p Hq). by left.
    + rewrite Hbw, decide_False, decide_True; [done|done|]. intros E.
      destruct post as [|p post]; [done|]. injection E as ->. set_solver.
    + destruct post as [|p post]; [done|]. destruct Hb2' as [_ Hb2']. simpl. split.
      * by rewrite Hbw, decide_True.
      * apply (backlinked_ext (nodes sl)); [|done]. intros q Hq. rewrite Hbw.
        apply NoDup_cons in Hndp as [Hpn _].
        rewrite decide_False, decide_False; [done|set_solver|]. simpl. intros E. injection E as ->. done.
Qed.

Lemma skip_insert_spec sl kvs key value (draws : nat -> Z) :
  Holds sl kvs ->
  exists sl', insert sl key value draws = Some sl' /\ Holds sl' (spec_insert kvs key value).
Proof.
  intros (ls & ht & HI). destruct (cut_at_key sl ls ht kvs key HI) as (pre & post & -> & HC).
  unfold insert. destruct (find_update_spec sl ht kvs key pre post HC) as (upd & -> & Hul & Hupd).
  cbn [mbind option_bind]. pose proof (i_level _ _ _ _ HI) as Hlev.
  rewrite (found_node_spec sl ht kvs key pre post upd HC) by (apply Hupd; lia).
  cbn [mbind option_bind]. unfold spec_insert.
  destruct (at_head key (not_below key kvs)) as [e|] eqn:Hhd.
  - destruct (Forall2_at_head sl key post _ e (cut_post _ _ _ _ _ _ HC) Hhd)
      as (p & post' & kvs' & -> & Hnb & Hp & _ & _). simpl.
    destruct (set_value_Inv sl ht kvs key pre post' p e value kvs' HC Hnb Hp) as (h & -> & HI').
    cbn [mbind option_bind]. eexists. split; [done|]. rewrite Hnb. by exists (pre ++ p :: post'), ht.
  - apply (insert_node_spec sl ht kvs key pre post); try done. apply random_level_bounds.
Qed.

Lemma new_skip_Holds : Holds (new : SkipList K V) [].
Proof.
  exists [], (fun _ => 1). unfold new. constructor; cbn [nodes head level length_]; try done.
  - intros p nd Hp. apply lookup_singleton_Some in Hp as [_ <-]. reflexivity.
  - apply NoDup_singleton.
  - constructor.
  - intros i Hi. unfold lane. simpl. unfold forward_at. rewrite lookup_singleton_eq.
    cbn [mbind option_bind]. by apply lookup_replicate_2.
  - unfold MAX_LEVEL. lia.
Qed.
End Insertion.

(** ** Removal *)

Section Removal.
Context {K V : Type} `{ord : Ord K} `{Inhabited K, Inhabited V}.
Implicit Types (h : gmap nat (Node K V)) (sl : SkipList K V) (kvs : list (K * V)).
Implicit Types (a b p q n i j : nat) (ls xs ys A B pre post : list nat) (ht : nat -> nat).

(** Unlinking node [p] from its predecessors [pd]. *)
Lemma unlink_loop_spec m i h p upd (pd : nat -> nat) :
  good_heap h -> p ∈ dom h -> i + m <= MAX_LEVEL ->
  (forall j, i <= j < i + m -> upd !! j = Some (Some (pd j)) /\ pd j ∈ dom h /\ pd j <> p) ->
  exists h', unlink_loop m i h p upd = Some h' /\
    same_but h h'
      (fun q j => if decide (i <= j < i + m /\ q = pd j /\ forward_at h q j = Some (Some p))
                  then forward_at h p j else forward_at h q j)
      (bwd h) (kv h).
Proof.
  revert i h. induction m as [|m IH]; intros i h Hg Hp Hi Hpd; cbn [unlink_loop].
  - exists h. split; [done|]. constructor; try done. intros q j. by rewrite decide_False by lia.
  - destruct (Hpd i) as (Hu & Hd & Hne); [lia|]. unfold update_at. rewrite Hu. cbn [mbind option_bind].
    destruct (forward_at_dom h (pd i) i Hg Hd) as [f Hf]; [lia|]. rewrite Hf. cbn [mbind option_bind].
    destruct (forward_at_dom h p i Hg Hp) as [g Hgp]; [lia|]. rewrite Hgp. cbn [mbind option_bind].
    assert (exists h1, (if bool_decide (f = Some p) then set_forward h (pd i) i g else Some h) = Some h1 /\
              same_but h h1
                (fun q j => if decide (q = pd i /\ j = i /\ f = Some p) then Some g else forward_at h q j)
                (bwd h) (kv h)) as (h1 & -> & [Hg1 Hd1 Hf1 Hb1 Hk1]).
    { destruct (decide (f = Some p)) as [E|E].
      - rewrite bool_decide_true by done.
        destruct (set_forward_spec h (pd i) i g Hg Hd) as (h1 & -> & [Hg1 Hd1 Hf1 Hb1 Hk1]); [lia|].
        exists h1. split; [done|]. constructor; try done. intros q j. rewrite Hf1.
        destruct (decide (q = pd i /\ j = i)) as [[-> ->]|Hn]; [by rewrite decide_True|].
        by rewrite decide_False by tauto.
      - rewrite bool_decide_false by done. exists h. split; [done|]. constructor; try done.
        intros q j. by rewrite decide_False by tauto. }
    cbn [mbind option_bind].
    destruct (IH (i + 1) h1 Hg1) as (h' & -> & [Hg' Hd' Hf' Hb' Hk']).
    { by rewrite Hd1. }
    { lia. }
    { intros j Hj. destruct (Hpd j) as (? & ? & ?); [lia|]. by rewrite Hd1. }
    exists h'. split; [done|]. constructor; [done|by rewrite Hd'| |intros q; by rewrite Hb'|intros q; by rewrite Hk'].
    intros q j. rewrite Hf', !Hf1. destruct (decide (j = i)) as [->|Hji].
    + rewrite decide_False by lia. destruct (decide (q = pd i)) as [->|Hq].
      * rewrite Hf, Hgp. destruct (decide (f = Some p)) as [->|Hfp].
        -- rewrite !decide_True by (repeat split; lia || done). done.
        -- rewrite !decide_False; [done|intros (_ & _ & [= ?]); congruence|tauto].
      * rewrite !decide_False by tauto. done.
    + assert (forall q, (if decide (q = pd i /\ j = i /\ f = Some p) then Some g else forward_at h q j) =
                forward_at h q j) as Hsame by (intros q'; by rewrite decide_False by tauto).
      rewrite !Hsame.
      destruct (decide (i + 1 <= j < i + 1 + m /\ q = pd j /\ forward_at h q j = Some (Some p))) as [Hc|Hc];
        destruct (decide (i <= j < i + S m /\ q = pd j /\ forward_at h q j = Some (Some p))) as [Hc'|Hc'];
        try done; exfalso; [apply Hc'|apply Hc]; destruct_and!; split_and!; lia || done.
Qed.

(** The level falls to the highest lane that is not empty. *)
Lemma lower_level_spec l h a (lanes : nat -> list nat) :
  1 <= l <= MAX_LEVEL -> (forall i, i < MAX_LEVEL -> linked h i a (lanes i)) ->
  exists l', lower_level l h a = Some l' /\ 1 <= l' <= l /\ forall i, l' <= i < l -> lanes i = [].
Proof.
  intros Hl Hlk. induction l as [|[|l] IH]; [lia| |].
  - exists 1. split_and!; [done|lia|lia|]. intros i Hi. lia.
  - cbn [lower_level]. pose proof (Hlk (S l) ltac:(lia)) as Hk.
    rewrite (linked_first _ _ _ _ Hk). cbn [mbind option_bind].
    destruct (lanes (S l)) as [|x xs] eqn:E; simpl.
    + destruct IH as (l' & Hlow & Hl' & He); [lia|]. exists l'. split_and!; [exact Hlow|lia|lia|].
      intros i Hi. destruct (decide (i = S l)) as [->|]; [done|]. apply He. lia.
    + exists (S (S l)). split_and!; [done|lia|lia|]. intros i Hi. lia.
Qed.

(** The node [p] with the key leaves every lane. *)
Lemma unlink_linked sl ht kvs key pre p post h2 i :
  Cut sl ht kvs key pre (p :: post) -> i < MAX_LEVEL ->
  (forall q, q <> p ->
     forward_at h2 q i = if decide (q = pred_at sl ht pre i /\ forward_at (nodes sl) q i = Some (Some p))
                         then forward_at (nodes sl) p i else forward_at (nodes sl) q i) ->
  linked h2 i (head sl) (lane ht i (pre ++ post)).
Proof.
  intros HC Hi Hfw. pose proof (cut_inv _ _ _ _ _ _ HC) as HI.
  pose proof (i_nodup _ _ _ _ HI) as Hnd. pose proof (i_link _ _ _ _ HI i Hi) as Hl.
  assert (p ∉ head sl :: pre ++ post) as Hpn.
  { pose proof Hnd as [Hh Hnd2]%NoDup_cons.
    apply NoDup_app in Hnd2 as (Hn1 & Hdis & [Hp Hn2]%NoDup_cons). set_solver. }
  pose proof (lane_NoDup ht i (head sl) _ Hnd) as Hnl. rewrite lane_app in Hl, Hnl |- *.
  assert (forall q, q ∈ head sl :: lane ht i pre ++ lane ht i post -> q <> p) as Hne.
  { intros q Hq ->. apply Hpn. apply elem_of_cons in Hq as [->|Hq]; [by left|]. right.
    rewrite <- lane_app in Hq. by apply lane_subseteq in Hq. }
  assert (pred_at sl ht pre i <> p) as Hpp.
  { unfold pred_at. pose proof (lst_elem (head sl) (lane ht i pre)). apply Hne. set_solver. }
  destruct (decide (i < ht p)) as [Hlt|Hge].
  - unfold lane in Hl at 2, Hnl at 2. rewrite filter_cons_True in Hl, Hnl by done.
    apply (linked_remove (nodes sl) _ i _ _ _ p); [done|done| |].
    + intros q Hq Hqp. rewrite Hfw by by apply Hne. by rewrite decide_False by tauto.
    + rewrite Hfw by exact Hpp. rewrite decide_True; [done|]. split; [done|].
      apply linked_end in Hl. by apply linked_first in Hl.
  - unfold lane in Hl at 2. rewrite filter_cons_False in Hl by done.
    apply (linked_ext (nodes sl)); [|done]. intros q Hq.
    rewrite Hfw by by apply Hne. rewrite decide_False; [done|]. intros [-> E].
    apply linked_end, linked_first in Hl. unfold pred_at in E. rewrite Hl in E.
    injection E as E. destruct (filter (fun q => i < ht q) post) as [|x xs] eqn:Ef; [done|].
    injection E as ->. apply Hpn. right. apply elem_of_app. right.
    apply (lane_subseteq ht i). unfold lane. rewrite Ef. by left.
Qed.

(** The node [p] with the key, taken out of every lane. *)
Lemma unlink_Inv sl ht kvs key pre p post e kvs' h h2 l' :
  Cut sl ht kvs key pre (p :: post) -> not_below key kvs = e :: kvs' ->
  good_heap h2 -> dom h2 = dom (nodes sl) ->
  (forall q, q <> p -> kv h2 q = kv (nodes sl) q) ->
  (forall i q, i < MAX_LEVEL -> q <> p ->
     forward_at h2 q i = if decide (q = pred_at sl ht pre i /\ forward_at (nodes sl) q i = Some (Some p))
                         then forward_at (nodes sl) p i else forward_at (nodes sl) q i) ->
  (forall q, bwd h2 q = if decide (Some q = hd_error post) then Some (Some (lst (head sl) pre))
                        else bwd (nodes sl) q) ->
  h = delete p h2 ->
  (1 <= l' <= level sl) -> (forall i, l' <= i < level sl -> lane ht i (pre ++ post) = []) ->
  Inv (mkSkipList h (head sl) l' (length (pre ++ post))) (pre ++ post) ht (below key kvs ++ kvs').
Proof.
  intros HC Hnb Hg2 Hd2 Hkv Hfw Hbw -> Hl' Hlow. pose proof (cut_inv _ _ _ _ _ _ HC) as HI.
  pose proof (i_nodup _ _ _ _ HI) as Hnd. pose proof Hnd as [Hh Hnd2]%NoDup_cons.
  apply NoDup_app in Hnd2 as (Hn1 & Hdis & [Hp Hn2]%NoDup_cons).
  assert (p ∉ head sl :: pre ++ post) as Hpn by set_solver.
  constructor; cbn [nodes head level length_].
  - by apply map_Forall_delete.
  - rewrite dom_delete_L, Hd2, (i_dom _ _ _ _ HI). set_solver.
  - apply NoDup_cons. split; [set_solver|]. apply NoDup_app. split_and!; [done| |done]. set_solver.
  - assert (forall q, q ∈ pre ++ post -> kv (delete p h2) q = kv (nodes sl) q) as Hk.
    { intros q Hq. rewrite <- Hkv by set_solver. unfold kv. by rewrite lookup_delete_ne by set_solver. }
    apply Forall2_app; apply (pairs_ext (nodes sl)).
    + intros q Hq. apply Hk. set_solver.
    + apply HC.
    + intros q Hq. apply Hk. set_solver.
    + pose proof (cut_post _ _ _ _ _ _ HC) as Hpost. rewrite Hnb in Hpost.
      by apply Forall2_cons in Hpost as [_ ?].
  - pose proof (i_sorted _ _ _ _ HI) as Hs. rewrite <- (below_app key kvs), Hnb in Hs.
    apply sorted_app in Hs as (H1 & [H2 _]%StronglySorted_inv & H3).
    apply sorted_app. split_and!; [done|done|]. intros x y Hx Hy. apply H3; [done|by right].
  - intros i Hi. apply (linked_ext h2).
    + intros q Hq. unfold forward_at. rewrite lookup_delete_ne; [done|]. intros <-. apply Hpn.
      apply elem_of_cons in Hq as [->|Hq%lane_subseteq]; [by left|by right].
    + apply (unlink_linked sl ht kvs key pre p post h2 i HC Hi). intros q. by apply Hfw.
  - pose proof (i_ht _ _ _ _ HI) as Hht. rewrite Forall_forall in *. intros q Hq.
    assert (q ∈ pre ++ p :: post) as Hq' by set_solver. specialize (Hht q Hq').
    split; [lia|]. destruct (decide (ht q <= l')) as [|Hgt]; [done|].
    assert (q ∈ lane ht l' (pre ++ post)) as Hin by (apply list_elem_of_filter; split; [lia|done]).
    rewrite (Hlow l') in Hin by lia. by apply elem_of_nil in Hin.
  - pose proof (i_level _ _ _ _ HI). lia.
  - done.
  - assert (forall q, q <> p -> bwd (delete p h2) q = bwd h2 q) as Hdel.
    { intros q Hq. unfold bwd. by rewrite lookup_delete_ne. }
    pose proof (i_back _ _ _ _ HI) as [Hb1 [_ Hb2]]%backlinked_app.
    apply backlinked_app. split.
    + apply (backlinked_ext (nodes sl)); [|done]. intros q Hq. rewrite Hdel, Hbw by set_solver.
      rewrite decide_False; [done|]. intros E. destruct post as [|x post]; [done|].
      injection E as ->. set_solver.
    + destruct post as [|x post]; [done|]. destruct Hb2 as [_ Hb2]. split.
      * rewrite Hdel, Hbw by set_solver. by rewrite decide_True.
      * apply (backlinked_ext (nodes sl)); [|done]. intros q Hq. rewrite Hdel, Hbw by set_solver.
        rewrite decide_False; [done|]. simpl. intros E. injection E as ->.
        by apply NoDup_cons in Hn2 as [? _].
Qed.

Lemma skip_remove_spec sl kvs key :
  Holds sl kvs ->
  exists sl', remove sl key = Some (spec_search kvs key, sl') /\ Holds sl' (spec_remove kvs key).
Proof.
  intros (ls & ht & HI). destruct (cut_at_key sl ls ht kvs key HI) as (pre & post & -> & HC).
  unfold remove. destruct (find_update_spec sl ht kvs key pre post HC) as (upd & -> & Hul & Hupd).
  cbn [mbind option_bind]. pose proof (i_level _ _ _ _ HI) as Hlev.
  rewrite (found_node_spec sl ht kvs key pre post upd HC) by (apply Hupd; lia).
  cbn [mbind option_bind]. unfold spec_remove, spec_search.
  destruct (at_head key (not_below key kvs)) as [e|] eqn:Hhd.
  2: { exists sl. split; [done|]. by exists (pre ++ post), ht. }
  destruct (Forall2_at_head sl key post _ e (cut_post _ _ _ _ _ _ HC) Hhd)
    as (p & post' & kvs' & -> & Hnb & Hp & _ & _). simpl hd_error. cbv iota.
  pose proof (i_nodup _ _ _ _ HI) as Hnd. pose proof Hnd as [Hh Hnd2]%NoDup_cons.
  apply NoDup_app in Hnd2 as (_ & Hdis & [Hpp _]%NoDup_cons).
  assert (p ∉ head sl :: pre ++ post') as Hpn by set_solver.
  assert (forall i, pred_at sl ht pre i ∈ head sl :: pre) as Hpin.
  { intros i. unfold pred_at. pose proof (lst_elem (head sl) (lane ht i pre)) as Hin.
    apply elem_of_cons in Hin as [->|Hin%lane_subseteq]; [by left|by right]. }
  assert (p ∈ dom (nodes sl)) as Hpd by (rewrite (i_dom _ _ _ _ HI); set_solver).
  destruct (unlink_loop_spec (level sl) 0 (nodes sl) p upd (pred_at sl ht pre))
    as (h1 & -> & [Hg1 Hd1 Hf1 Hb1 Hk1]); [apply HI|done|lia| |].
  { intros j Hj. split_and!; [apply Hupd; lia| |].
    - rewrite (i_dom _ _ _ _ HI). specialize (Hpin j). set_solver.
    - intros E. apply Hpn. rewrite <- E. specialize (Hpin j). set_solver. }
  cbn [mbind option_bind].
  destruct (pred_at_0 _ _ _ _ _ _ HC) as [Hp0 Hfp0].
  destruct (lookup_dom h1 p) as [nd Hnd1]; [by rewrite Hd1|]. rewrite Hnd1. cbn [mbind option_bind].
  assert (forward_at (nodes sl) p 0 = Some (hd_error post')) as Hf0.
  { pose proof (i_link _ _ _ _ HI 0 ltac:(unfold MAX_LEVEL; lia)) as Hl.
    rewrite (lane_0 ht _ (level sl)) in Hl by apply HI.
    apply linked_end in Hl. simpl in Hl. destruct Hl as [_ Hl]. by apply linked_first in Hl. }
  assert (forward nd !! 0 = Some (hd_error post')) as ->.
  { pose proof (Hf1 p 0) as E. unfold forward_at at 1 in E. rewrite Hnd1 in E. cbn [mbind option_bind] in E.
    rewrite E. rewrite decide_False; [done|]. intros (_ & -> & _). apply Hpn.
    specialize (Hpin 0). set_solver. }
  cbn [mbind option_bind].
  assert (backward nd = Some (lst (head sl) pre)) as ->.
  { pose proof (Hb1 p) as E. unfold bwd at 1 in E. rewrite Hnd1 in E. simpl in E.
    pose proof (i_back _ _ _ _ HI) as [_ [Hb _]]%backlinked_app. rewrite Hb in E. by injection E. }
  assert (exists h2, match hd_error post' with
                     | Some next => set_backward h1 next (Some (lst (head sl) pre))
                     | None => Some h1
                     end = Some h2 /\
            same_but h1 h2 (forward_at h1)
              (fun q => if decide (Some q = hd_error post') then Some (Some (lst (head sl) pre)) else bwd h1 q)
              (kv h1)) as (h2 & -> & [Hg2 Hd2 Hf2 Hb2 Hk2]).
  { destruct post' as [|x post']; simpl.
    - exists h1. split; [done|]. constructor; try done.
    - destruct (set_backward_spec h1 x (Some (lst (head sl) pre)) Hg1) as (h2 & -> & [Hg2 Hd2 Hf2 Hb2 Hk2]).
      { rewrite Hd1, (i_dom _ _ _ _ HI). set_solver. }
      exists h2. split; [done|]. constructor; try done. intros q. rewrite Hb2.
      destruct (decide (q = x)) as [->|]; [by rewrite decide_True|]. by rewrite decide_False by congruence. }
  cbn [mbind option_bind].
  assert (forall q, kv h2 q = kv (nodes sl) q) as Hkv by (intros q; by rewrite Hk2, Hk1).
  assert (dom h2 = dom (nodes sl)) as Hdom by by rewrite Hd2, Hd1.
  assert (forall i q, i < MAX_LEVEL -> q <> p ->
     forward_at h2 q i = if decide (q = pred_at sl ht pre i /\ forward_at (nodes sl) q i = Some (Some p))
                         then forward_at (nodes sl) p i else forward_at (nodes sl) q i) as Hfw.
  { intros i q Hi Hq. rewrite Hf2, Hf1.
    destruct (decide (i < level sl)) as [Hlt|Hge].
    - destruct (decide (q = pred_at sl ht pre i /\ forward_at (nodes sl) q i = Some (Some p))) as [[? ?]|Hn].
      + by rewrite decide_True by (split_and!; (lia || done)).
      + by rewrite decide_False by tauto.
    - rewrite decide_False by lia. rewrite decide_False; [done|]. intros [-> E].
      pose proof (i_link _ _ _ _ HI i Hi) as Hl.
      rewrite (lane_top ht i _ (level sl)) in Hl by (apply HI || lia). simpl in Hl.
      rewrite (pred_at_top sl (pre ++ p :: post') ht kvs) in E; [congruence|done|set_solver|lia]. }
  destruct (lower_level_spec (level sl) h2 (head sl) (fun i => lane ht i (pre ++ post')) Hlev)
    as (l' & -> & Hl' & Hlow).
  { intros i Hi. apply (unlink_linked sl ht kvs key pre p post' h2 i HC Hi). intros q. by apply Hfw. }
  cbn [mbind option_bind]. rewrite (i_len _ _ _ _ HI), length_app. simpl length.
  unfold usize_sub. rewrite (proj2 (Nat.leb_le _ _)) by lia. cbn [mbind option_bind].
  assert (kv h2 p = Some e) as Hpv by by rewrite Hkv.
  destruct (kv_lookup h2 p e Hpv) as (nd2 & -> & _ & Hv). cbn [mbind option_bind].
  rewrite Hv. eexists. split; [done|]. exists (pre ++ post'), ht. rewrite Hnb. simpl tl.
  replace (length pre + S (length post') - 1) with (length (pre ++ post')) by (rewrite length_app; lia).
  apply (unlink_Inv sl ht kvs key pre p post' e kvs' _ h2 l'); try done.
  intros q. rewrite Hb2. by rewrite Hb1.
Qed.
End Removal.

(** ** Iteration *)

Section Iteration.
Context {K V : Type} `{ord : Ord K} `{Inhabited K, Inhabited V}.
Implicit Types (h : gmap nat (Node K V)) (sl : SkipList K V) (kvs : list (K * V)).
Implicit Types (a b p q n i j : nat) (ls xs ys A B pre post : list nat) (ht : nat -> nat).
Notation pairs h := (Forall2 (fun p e => kv h p = Some e)).

Lemma linked_0 sl ls ht kvs : Inv sl ls ht kvs -> linked (nodes sl) 0 (head sl) ls.
Proof.
  intros HI. pose proof (i_link _ _ _ _ HI 0 ltac:(unfold MAX_LEVEL; lia)) as Hl.
  by rewrite (lane_0 ht ls (level sl)) in Hl by apply HI.
Qed.

(** The node after the head of a chain, read the way the iterators do. *)
Lemma chain_node h p e ls :
  kv h p = Some e -> linked h 0 p ls ->
  exists nd, h !! p = Some nd /\ node_key nd = e.1 /\ node_value nd = e.2 /\
    forward nd !! 0 = Some (hd_error ls).
Proof.
  intros He Hl. destruct (kv_lookup h p e He) as (nd & Hn & Hk & Hv). exists nd.
  split_and!; try done. apply linked_first in Hl. unfold forward_at in Hl. by rewrite Hn in Hl.
Qed.

Lemma skip_iter_loop_spec fuel h a ls kvs :
  linked h 0 a ls -> pairs h ls kvs -> length ls <= fuel -> iter_loop fuel h (hd_error ls) = Some kvs.
Proof.
  revert fuel a kvs. induction ls as [|p ls IH]; intros fuel a kvs Hl Hp Hf;
    apply Forall2_cons_inv_l in Hp || apply Forall2_nil_inv_l in Hp.
  - subst. by destruct fuel.
  - destruct Hp as (e & kvs' & He & Hp & ->). destruct Hl as [_ Hl]. simpl in Hf.
    destruct fuel as [|fuel]; [lia|]. cbn [iter_loop hd_error].
    destruct (chain_node h p e ls He Hl) as (nd & -> & Hk & Hv & Hn). cbn [mbind option_bind].
    rewrite Hn. cbn [mbind option_bind]. rewrite (IH fuel p kvs' Hl Hp) by lia.
    cbn [mbind option_bind]. rewrite Hk, Hv. by destruct e.
Qed.

Lemma skip_iter_spec sl kvs : Holds sl kvs -> iter sl = Some kvs.
Proof.
  intros (ls & ht & HI). pose proof (linked_0 _ _ _ _ HI) as Hl. unfold iter.
  rewrite (linked_first _ _ _ _ Hl). cbn [mbind option_bind].
  apply (skip_iter_loop_spec _ _ (head sl) ls); [done|apply HI|]. rewrite (Inv_size _ _ _ _ HI). lia.
Qed.

Lemma skip_first_spec sl kvs : Holds sl kvs -> first sl = Some (hd_error kvs).
Proof.
  intros (ls & ht & HI). pose proof (linked_0 _ _ _ _ HI) as Hl. unfold first.
  rewrite (linked_first _ _ _ _ Hl). cbn [mbind option_bind].
  destruct (i_pairs _ _ _ _ HI) as [|p e ls' kvs' Hp _]; [done|]. simpl.
  destruct (kv_lookup _ p e Hp) as (nd & -> & Hk & Hv). cbn [mbind option_bind]. rewrite Hk, Hv.
  by destruct e.
Qed.

Lemma walk_end_spec fuel h i c xs :
  linked h i c xs -> length xs < fuel -> walk_end fuel h i c = Some (lst c xs).
Proof.
  revert c fuel. induction xs as [|x xs IH]; intros c [|fuel] Hl Hf; simpl in Hf; try lia; cbn [walk_end].
  - by rewrite Hl.
  - destruct Hl as [-> Hl]. cbn [mbind option_bind lst]. apply IH; [done|lia].
Qed.

Lemma descend_end_spec sl ls ht kvs n :
  Inv sl ls ht kvs -> n <= level sl ->
  descend_end n (nodes sl) (pred_at sl ht ls n) = Some (pred_at sl ht ls 0).
Proof.
  intros HI. induction n as [|n IH]; intros Hn; cbn [descend_end]; [done|].
  destruct (lst_sublist (head sl) (lane ht (S n) ls) (lane ht n ls)) as (A & B & HAB & HA).
  { apply lane_sublist. lia. }
  assert (walk_end (S (size (nodes sl))) (nodes sl) n (pred_at sl ht ls (S n)) =
            Some (pred_at sl ht ls n)) as ->; [|apply IH; lia].
  unfold pred_at. rewrite <- HA, HAB, lst_app. apply walk_end_spec.
  - apply linked_end. rewrite <- HAB. apply (i_link _ _ _ _ HI). pose proof (i_level _ _ _ _ HI). lia.
  - rewrite (Inv_size _ _ _ _ HI).
    assert (length B <= length ls); [|lia].
    transitivity (length (lane ht n ls)); [rewrite HAB, length_app; lia|]. apply length_filter.
Qed.

Lemma last_node_spec sl ls ht kvs :
  Inv sl ls ht kvs ->
  last_node sl = Some (match ls with [] => None | _ => Some (lst (head sl) ls) end).
Proof.
  intros HI. unfold last_node. rewrite <- (pred_at_top sl ls ht kvs ls (level sl)) at 1; [|done|done|done].
  rewrite (descend_end_spec sl ls ht kvs (level sl) HI) by done. cbn [mbind option_bind].
  unfold pred_at. rewrite (lane_0 ht ls (level sl)) by apply HI.
  destruct ls as [|x ls]; simpl; [by rewrite Nat.eqb_refl|].
  rewrite (proj2 (Nat.eqb_neq _ _)); [done|]. intros E.
  pose proof (i_nodup _ _ _ _ HI) as [Hn _]%NoDup_cons. apply Hn. rewrite <- E. apply lst_elem.
Qed.

Lemma pairs_snoc_inv h ls x kvs :
  pairs h (ls ++ [x]) kvs -> exists kvs' e, kvs = kvs' ++ [e] /\ pairs h ls kvs' /\ kv h x = Some e.
Proof.
  intros (kvs' & r & H1 & H2 & ->)%Forall2_app_inv_l.
  apply Forall2_cons_inv_l in H2 as (e & r' & He & H2 & ->). apply Forall2_nil_inv_l in H2 as ->.
  by exists kvs', e.
Qed.

Lemma skip_last_spec sl kvs : Holds sl kvs -> last sl = Some (list.last kvs).
Proof.
  intros (ls & ht & HI). unfold last. rewrite (last_node_spec _ _ _ _ HI). cbn [mbind option_bind].
  pose proof (i_pairs _ _ _ _ HI) as Hp.
  destruct ls as [|x ls _] using rev_ind; [by apply Forall2_nil_inv_l in Hp as ->|].
  apply pairs_snoc_inv in Hp as (kvs' & e & -> & _ & He). rewrite last_snoc, lst_snoc.
  destruct (kv_lookup _ x e He) as (nd & Hn & Hk & Hv).
  destruct (ls ++ [x]) as [|] eqn:E; [by destruct ls|]. rewrite Hn. cbn [mbind option_bind].
  rewrite Hk, Hv. by destruct e.
Qed.

Lemma iter_rev_loop_spec fuel h a ls kvs :
  NoDup (a :: ls) -> backlinked h a ls -> pairs h ls kvs -> length ls < fuel ->
  iter_rev_loop fuel h a (Some (lst a ls)) = Some (reverse kvs).
Proof.
  revert fuel kvs. induction ls as [|x ls IH] using rev_ind; intros [|fuel] kvs Hnd Hb Hp Hf; try lia;
    cbn [iter_rev_loop].
  - apply Forall2_nil_inv_l in Hp as ->. simpl. by rewrite Nat.eqb_refl.
  - rewrite lst_snoc, length_app in *. simpl in Hf.
    apply pairs_snoc_inv in Hp as (kvs' & e & -> & Hp & He).
    rewrite (proj2 (Nat.eqb_neq _ _)).
    2: { intros ->. apply NoDup_cons in Hnd as [Hn _]. set_solver. }
    destruct (kv_lookup h x e He) as (nd & Hn & Hk & Hv). rewrite Hn. cbn [mbind option_bind].
    apply backlinked_app in Hb as [Hb1 [Hb2 _]]. unfold bwd in Hb2. rewrite Hn in Hb2.
    simpl in Hb2. injection Hb2 as ->.
    rewrite (IH fuel kvs'); [|rewrite app_comm_cons in Hnd; by apply NoDup_app in Hnd as [? _]|done|done|lia].
    cbn [mbind option_bind]. rewrite reverse_app, Hk, Hv. by destruct e.
Qed.

Lemma skip_iter_rev_spec sl kvs : Holds sl kvs -> iter_rev sl = Some (reverse kvs).
Proof.
  intros (ls & ht & HI). unfold iter_rev. rewrite (last_node_spec _ _ _ _ HI). cbn [mbind option_bind].
  pose proof (iter_rev_loop_spec (size (nodes sl)) (nodes sl) (head sl) ls kvs) as Hr.
  destruct ls as [|x ls].
  - pose proof (i_pairs _ _ _ _ HI) as Hp. apply Forall2_nil_inv_l in Hp as ->. by destruct (size (nodes sl)).
  - apply Hr; [apply HI|apply HI|apply HI|]. rewrite (Inv_size _ _ _ _ HI). lia.
Qed.

Lemma range_loop_spec fuel h a ls kvs end_key :
  linked h 0 a ls -> pairs h ls kvs -> length ls <= fuel ->
  range_loop fuel h end_key (hd_error ls) = Some (below end_key kvs).
Proof.
  revert fuel a kvs. induction ls as [|p ls IH]; intros fuel a kvs Hl Hp Hf;
    apply Forall2_cons_inv_l in Hp || apply Forall2_nil_inv_l in Hp.
  - subst. by destruct fuel.
  - destruct Hp as (e & kvs' & He & Hp & ->). destruct Hl as [_ Hl]. simpl in Hf.
    destruct fuel as [|fuel]; [lia|]. cbn [range_loop hd_error below].
    destruct (chain_node h p e ls He Hl) as (nd & -> & Hk & Hv & Hn). cbn [mbind option_bind].
    rewrite Hk. destruct (key_lt e.1 end_key); cbn [negb]; [|done].
    rewrite Hn. cbn [mbind option_bind]. rewrite (IH fuel p kvs' Hl Hp) by lia.
    cbn [mbind option_bind]. rewrite Hv. by destruct e.
Qed.

Lemma skip_range_spec sl kvs start end_key :
  Holds sl kvs -> range sl start end_key = Some (spec_range kvs start end_key).
Proof.
  intros (ls & ht & HI). destruct (cut_at_key sl ls ht kvs start HI) as (pre & post & -> & HC).
  unfold range. rewrite <- (pred_at_top sl (pre ++ post) ht kvs pre (level sl)); [|done|set_solver|done].
  rewrite (descend_spec sl ht kvs start pre post (level sl) HC) by done. cbn [mbind option_bind].
  destruct (pred_at_0 _ _ _ _ _ _ HC) as [-> ->]. cbn [mbind option_bind].
  apply (range_loop_spec _ _ (lst (head sl) pre)).
  - apply linked_end. by apply (linked_0 sl _ ht kvs).
  - apply HC.
  - rewrite (Inv_size _ _ _ _ HI), length_app. lia.
Qed.

Lemma free_loop_spec fuel h ls :
  NoDup ls -> match ls with [] => True | x :: ls => linked h 0 x ls end -> length ls <= fuel ->
  exists h', free_loop fuel h (hd_error ls) = Some h' /\
    forall q, h' !! q = if decide (q ∈ ls) then None else h !! q.
Proof.
  revert fuel h. induction ls as [|p ls IH]; intros fuel h Hnd Hl Hf.
  - exists h. split; [by destruct fuel|]. intros q. by rewrite decide_False by apply not_elem_of_nil.
  - destruct fuel as [|fuel]; [simpl in Hf; lia|]. cbn [free_loop hd_error].
    pose proof Hnd as [Hp Hnd']%NoDup_cons.
    rewrite (linked_first _ _ _ _ Hl). cbn [mbind option_bind].
    destruct (IH fuel (delete p h)) as (h' & -> & Hh'); [done| |simpl in Hf; lia|].
    { destruct ls as [|x ls]; [done|]. destruct Hl as [_ Hl]. apply (linked_ext h); [|done].
      intros q Hq. unfold forward_at. rewrite lookup_delete_ne; [done|]. by intros ->. }
    exists h'. split; [done|]. intros q. rewrite Hh'. destruct (decide (q = p)) as [->|Hne].
    + rewrite lookup_delete_eq. rewrite (decide_True (P := p ∈ p :: ls)) by by left.
      by destruct (decide (p ∈ ls)).
    + rewrite lookup_delete_ne by done. apply decide_ext. rewrite elem_of_cons. tauto.
Qed.

Lemma skip_clear_spec sl kvs : Holds sl kvs -> exists sl', clear sl = Some sl' /\ Holds sl' [].
Proof.
  intros (ls & ht & HI). pose proof (linked_0 _ _ _ _ HI) as Hl. unfold clear.
  rewrite (linked_first _ _ _ _ Hl). cbn [mbind option_bind].
  pose proof (i_nodup _ _ _ _ HI) as [Hh Hnd]%NoDup_cons.
  destruct (free_loop_spec (size (nodes sl)) (nodes sl) ls Hnd) as (h & -> & Hq).
  { destruct ls as [|x ls]; [done|]. by destruct Hl. }
  { rewrite (Inv_size _ _ _ _ HI). lia. }
  cbn [mbind option_bind].
  assert (forall q, h !! q = if decide (q = head sl) then nodes sl !! q else None) as Hq'.
  { intros q. rewrite Hq. destruct (decide (q ∈ ls)) as [Hin|Hout].
    - rewrite decide_False; [done|]. by intros ->.
    - destruct (decide (q = head sl)) as [|Hne]; [done|].
      apply not_elem_of_dom. rewrite (i_dom _ _ _ _ HI). set_solver. }
  destruct (lookup_dom (nodes sl) (head sl)) as [nd Hnd']; [rewrite (i_dom _ _ _ _ HI); set_solver|].
  rewrite Hq', decide_True, Hnd' by done. cbn [mbind option_bind]. eexists. split; [done|].
  assert (length (forward nd) = MAX_LEVEL) as -> by (by eapply (i_good _ _ _ _ HI)).
  exists [], (fun _ => 1). constructor; cbn [nodes head level length_]; try done.
  - intros q n Hn. apply lookup_insert_Some in Hn as [[_ <-]|[Hne Hn]]; [reflexivity|].
    rewrite Hq', decide_False in Hn by done. done.
  - apply set_eq. intros q. rewrite elem_of_dom, elem_of_list_to_set, list_elem_of_singleton. split.
    + intros [n Hn]. apply lookup_insert_Some in Hn as [[<- _]|[Hne Hn]]; [done|].
      by rewrite Hq', decide_False in Hn by done.
    + intros ->. rewrite lookup_insert_eq. by eexists.
  - apply NoDup_singleton.
  - constructor.
  - intros i Hi. unfold lane. cbn [filter list_filter linked]. unfold forward_at.
    rewrite lookup_insert_eq. cbn [mbind option_bind forward]. by apply lookup_replicate_2.
  - unfold MAX_LEVEL. lia.
Qed.

Lemma skip_search_mut_spec sl kvs key value :
  Holds sl kvs ->
  exists sl', search_mut sl key value =
      Some (match spec_search kvs key with Some _ => true | None => false end, sl') /\
    Holds sl' (match spec_search kvs key with Some _ => spec_insert kvs key value | None => kvs end).
Proof.
  intros (ls & ht & HI). destruct (cut_at_key sl ls ht kvs key HI) as (pre & post & -> & HC).
  unfold search_mut. destruct (find_update_spec sl ht kvs key pre post HC) as (upd & -> & Hul & Hupd).
  cbn [mbind option_bind]. pose proof (i_level _ _ _ _ HI) as Hlev.
  rewrite (found_node_spec sl ht kvs key pre post upd HC) by (apply Hupd; lia).
  cbn [mbind option_bind]. unfold spec_insert, spec_search.
  destruct (at_head key (not_below key kvs)) as [e|] eqn:Hhd.
  - destruct (Forall2_at_head sl key post _ e (cut_post _ _ _ _ _ _ HC) Hhd)
      as (p & post' & kvs' & -> & Hnb & Hp & _ & _). simpl.
    destruct (set_value_Inv sl ht kvs key pre post' p e value kvs' HC Hnb Hp) as (h & -> & HI').
    cbn [mbind option_bind]. eexists. split; [done|]. rewrite Hnb. by exists (pre ++ p :: post'), ht.
  - exists sl. split; [done|]. by exists (pre ++ post), ht.
Qed.

Lemma validate_loop_spec fuel h a ls kvs prev count :
  linked h 0 a ls -> pairs h ls kvs -> sorted kvs -> good_heap h -> length ls <= fuel ->
  match prev, kvs with Some k, e :: _ => key_lt k e.1 = true | _, _ => True end ->
  validate_loop fuel h prev count (hd_error ls) = Some (Ok (count + length ls)).
Proof.
  intros Hl Hp Hs Hg. revert fuel a kvs prev count Hl Hp Hs.
  induction ls as [|p ls IH]; intros fuel a kvs prev count Hl Hp Hs Hf Hprev.
  - apply Forall2_nil_inv_l in Hp as ->. rewrite Nat.add_0_r. by destruct fuel.
  - apply Forall2_cons_inv_l in Hp as (e & kvs' & He & Hp & ->). destruct Hl as [_ Hl]. simpl in Hf.
    destruct fuel as [|fuel]; [lia|]. cbn [validate_loop hd_error].
    destruct (chain_node h p e ls He Hl) as (nd & Hn & Hk & Hv & Hnx). rewrite Hn. cbn [mbind option_bind].
    rewrite (Hg p nd Hn). simpl negb. cbv iota. rewrite Hk.
    apply StronglySorted_inv in Hs as [Hs Hfa].
    assert (match prev with Some k => key_lt k e.1 | None => true end = true) as -> by by destruct prev.
    simpl negb. cbv iota. rewrite Hnx. cbn [mbind option_bind].
    rewrite (IH fuel p kvs' (Some e.1) (count + 1) Hl Hp Hs); [do 2 f_equal; simpl; lia|lia|].
    destruct kvs' as [|e' kvs']; [done|]. by apply Forall_cons in Hfa as [? _].
Qed.

Lemma skip_validate_spec sl kvs : Holds sl kvs -> validate_invariants sl = Some (Ok tt).
Proof.
  intros (ls & ht & HI). pose proof (linked_0 _ _ _ _ HI) as Hl. unfold validate_invariants.
  rewrite (linked_first _ _ _ _ Hl). cbn [mbind option_bind].
  rewrite (validate_loop_spec _ _ (head sl) ls kvs None 0); [|done|apply HI|apply HI|apply HI| |done].
  - cbn [mbind option_bind]. by rewrite (i_len _ _ _ _ HI), Nat.eqb_refl.
  - rewrite (Inv_size _ _ _ _ HI). lia.
Qed.

Lemma skip_insert_all_spec sl kvs l draws n :
  Holds sl kvs ->
  exists sl', insert_all sl l draws n = Some sl' /\
    Holds sl' (spec_insert_all kvs l).
Proof.
  revert sl kvs n. induction l as [|[k v] l IH]; intros sl kvs n Hh; simpl; [by exists sl|].
  destruct (skip_insert_spec sl kvs k v (draws n) Hh) as (sl1 & -> & Hh1). cbn [mbind option_bind].
  by apply IH.
Qed.

Lemma skip_clone_spec sl kvs draws :
  Holds sl kvs -> exists sl', clone sl draws = Some sl' /\ Holds sl' kvs.
Proof.
  intros Hh. unfold clone. rewrite (skip_iter_spec sl kvs Hh). cbn [mbind option_bind].
  destruct (skip_insert_all_spec new [] kvs draws 0 new_skip_Holds) as (sl' & -> & Hh').
  exists sl'. split; [done|]. rewrite (spec_insert_sorted_all kvs []) in Hh'; [done|].
  destruct Hh as (ls & ht & HI). apply HI.
Qed.

Lemma skip_len_spec sl kvs : Holds sl kvs -> len sl = length kvs.
Proof.
  intros (ls & ht & HI). unfold len. rewrite (i_len _ _ _ _ HI).
  by eapply Forall2_length, (i_pairs _ _ _ _ HI).
Qed.
End Iteration.

(** ** The list as a machine

    Calls on one list, each answer compared with the one of the specification. *)
Section Machine.
Context {K V : Type} `{ord : Ord K} `{Inhabited K, Inhabited V} `{EqDecision V}.
Implicit Types (sl : SkipList K V) (kvs : list (K * V)).
Notation pairs h := (Forall2 (fun p e => kv h p = Some e)).

Inductive op : Type :=
| Insert (k : K) (v : V) (draws : nat -> Z) | Search (k : K) | SearchMut (k : K) (v : V)
| Remove (k : K) | Contains (k : K) | Len | IsEmpty | First | Last | Iter | IterRev
| Range (start end_key : K) | Clear | Validate | Clone (draws : nat -> nat -> Z)
| EqTo (other : list (K * V)) (draws : nat -> nat -> Z).

Inductive answer : Type :=
| ADone | AFlag (b : bool) | ASize (n : nat) | AVal (v : option V) | APair (e : option (K * V))
| APairs (l : list (K * V)) | AValid (r : result ValidationError unit).

Definition exec sl (o : op) : option (answer * SkipList K V) :=
  match o with
  | Insert k v draws => sl ← insert sl k v draws; Some (ADone, sl)
  | Search k => r ← search sl k; Some (AVal r, sl)
  | SearchMut k v => '(b, sl) ← search_mut sl k v; Some (AFlag b, sl)
  | Remove k => '(r, sl) ← remove sl k; Some (AVal r, sl)
  | Contains k => b ← contains sl k; Some (AFlag b, sl)
  | Len => Some (ASize (len sl), sl)
  | IsEmpty => Some (AFlag (is_empty sl), sl)
  | First => r ← first sl; Some (APair r, sl)
  | Last => r ← last sl; Some (APair r, sl)
  | Iter => l ← iter sl; Some (APairs l, sl)
  | IterRev => l ← iter_rev sl; Some (APairs l, sl)
  | Range start end_key => l ← range sl start end_key; Some (APairs l, sl)
  | Clear => sl ← clear sl; Some (ADone, sl)
  | Validate => r ← validate_invariants sl; Some (AValid r, sl)
  | Clone draws => sl ← clone sl draws; Some (ADone, sl)
  | EqTo l draws => other ← insert_all new l draws 0; b ← eq sl other; Some (AFlag b, sl)
  end.


Fixpoint spec_eq kvs kvs' : bool :=
  match kvs, kvs' with
  | e :: kvs, e' :: kvs' => key_eq e.1 e'.1 && bool_decide (e.2 = e'.2) && spec_eq kvs kvs'
  | [], [] => true
  | _, _ => false
  end.

Definition is_found (r : option V) : bool := match r with Some _ => true | None => false end.

Definition spec kvs (o : op) : answer * list (K * V) :=
  match o with
  | Insert k v _ => (ADone, spec_insert kvs k v)
  | Search k => (AVal (spec_search kvs k), kvs)
  | SearchMut k v =>
      (AFlag (is_found (spec_search kvs k)),
       if is_found (spec_search kvs k) then spec_insert kvs k v else kvs)
  | Remove k => (AVal (spec_search kvs k), spec_remove kvs k)
  | Contains k => (AFlag (is_found (spec_search kvs k)), kvs)
  | Len => (ASize (length kvs), kvs)
  | IsEmpty => (AFlag (length kvs =? 0), kvs)
  | First => (APair (hd_error kvs), kvs)
  | Last => (APair (list.last kvs), kvs)
  | Iter => (APairs kvs, kvs)
  | IterRev => (APairs (reverse kvs), kvs)
  | Range start end_key => (APairs (spec_range kvs start end_key), kvs)
  | Clear => (ADone, [])
  | Validate => (AValid (Ok tt), kvs)
  | Clone _ => (ADone, kvs)
  | EqTo l _ => (AFlag (spec_eq kvs (spec_insert_all [] l)), kvs)
  end.

Fixpoint exec_all sl (os : list op) : option (list answer * SkipList K V) :=
  match os with
  | [] => Some ([], sl)
  | o :: os => '(a, sl) ← exec sl o; '(r, sl) ← exec_all sl os; Some (a :: r, sl)
  end.

Fixpoint spec_all kvs (os : list op) : list answer * list (K * V) :=
  match os with
  | [] => ([], kvs)
  | o :: os => let '(a, kvs) := spec kvs o in let '(r, kvs) := spec_all kvs os in (a :: r, kvs)
  end.

Lemma skip_eq_loop_spec fuel h h' a b ls ls' kvs kvs' :
  linked h 0 a ls -> linked h' 0 b ls' -> pairs h ls kvs -> pairs h' ls' kvs' ->
  length ls = length ls' -> length ls < fuel ->
  eq_loop fuel h h' (hd_error ls) (hd_error ls') = Some (spec_eq kvs kvs').
Proof.
  revert a b ls' kvs kvs' fuel.
  induction ls as [|p ls IH]; intros a b [|p' ls'] kvs kvs' fuel Hl Hl' Hp Hp' Hlen Hf; try done;
    (destruct fuel as [|fuel]; [simpl in Hf; lia|]).
  - apply Forall2_nil_inv_l in Hp as ->. by apply Forall2_nil_inv_l in Hp' as ->.
  - apply Forall2_cons_inv_l in Hp as (e & kvs1 & He & Hp & ->).
    apply Forall2_cons_inv_l in Hp' as (e' & kvs1' & He' & Hp' & ->).
    destruct Hl as [_ Hl], Hl' as [_ Hl']. simpl in Hf, Hlen. cbn [eq_loop hd_error spec_eq].
    destruct (chain_node h p e ls He Hl) as (nd & -> & Hk & Hv & Hx).
    destruct (chain_node h' p' e' ls' He' Hl') as (nd' & -> & Hk' & Hv' & Hx').
    cbn [mbind option_bind]. rewrite Hk, Hv, Hk', Hv', Hx, Hx'. cbn [mbind option_bind]. destruct (key_eq e.1 e'.1); [|done]. cbn [negb orb andb].
    destruct (decide (e.2 = e'.2)) as [E|E].
    + rewrite !(bool_decide_true (e.2 = e'.2)), bool_decide_false by tauto. cbn [andb].
      apply (IH p p'); (done || lia).
    + by rewrite bool_decide_true, bool_decide_false by done.
Qed.

Lemma spec_eq_length kvs kvs' : length kvs <> length kvs' -> spec_eq kvs kvs' = false.
Proof.
  revert kvs'. induction kvs as [|e kvs IH]; intros [|e' kvs'] Hl; simpl in *; try done.
  rewrite IH by lia. apply andb_false_r.
Qed.

Lemma skip_eq_spec sl sl' kvs kvs' :
  Holds sl kvs -> Holds sl' kvs' -> eq sl sl' = Some (spec_eq kvs kvs').
Proof.
  intros Hh Hh'. unfold eq. rewrite (skip_len_spec _ _ Hh), (skip_len_spec _ _ Hh').
  destruct (Nat.eqb_spec (length kvs) (length kvs')) as [E|E]; simpl negb; cbv iota.
  2: { by rewrite spec_eq_length. }
  destruct Hh as (ls & ht & HI), Hh' as (ls' & ht' & HI').
  pose proof (linked_0 _ _ _ _ HI) as Hl. pose proof (linked_0 _ _ _ _ HI') as Hl'.
  rewrite (linked_first _ _ _ _ Hl), (linked_first _ _ _ _ Hl'). cbn [mbind option_bind].
  pose proof (i_pairs _ _ _ _ HI) as Hp. pose proof (i_pairs _ _ _ _ HI') as Hp'.
  apply (skip_eq_loop_spec _ _ _ (head sl) (head sl')); try done.
  - rewrite (Forall2_length _ _ _ Hp), (Forall2_length _ _ _ Hp'). done.
  - rewrite (Inv_size _ _ _ _ HI). lia.
Qed.

Lemma skip_exec_spec sl kvs (o : op) :
  Holds sl kvs ->
  exists sl', exec sl o = Some ((spec kvs o).1, sl') /\ Holds sl' (spec kvs o).2.
Proof.
  intros Hh. destruct o as [k v draws|k|k v|k|k| | | | | | |s e| | |draws|l draws]; simpl.
  - destruct (skip_insert_spec sl kvs k v draws Hh) as (sl' & -> & ?). by exists sl'.
  - exists sl. by rewrite (search_spec sl kvs).
  - destruct (skip_search_mut_spec sl kvs k v Hh) as (sl' & -> & ?). exists sl'.
    split; [done|]. unfold is_found. by destruct (spec_search kvs k).
  - destruct (skip_remove_spec sl kvs k Hh) as (sl' & -> & ?). by exists sl'.
  - exists sl. unfold contains. by rewrite (search_spec sl kvs).
  - exists sl. by rewrite (skip_len_spec sl kvs).
  - exists sl. unfold is_empty. pose proof (skip_len_spec sl kvs Hh) as <-. done.
  - exists sl. by rewrite (skip_first_spec sl kvs).
  - exists sl. by rewrite (skip_last_spec sl kvs).
  - exists sl. by rewrite (skip_iter_spec sl kvs).
  - exists sl. by rewrite (skip_iter_rev_spec sl kvs).
  - exists sl. by rewrite (skip_range_spec sl kvs).
  - destruct (skip_clear_spec sl kvs Hh) as (sl' & -> & ?). by exists sl'.
  - exists sl. by rewrite (skip_validate_spec sl kvs).
  - destruct (skip_clone_spec sl kvs draws Hh) as (sl' & -> & ?). by exists sl'.
  - destruct (skip_insert_all_spec new [] l draws 0 new_skip_Holds) as (sl' & -> & Hh').
    cbn [mbind option_bind]. rewrite (skip_eq_spec sl sl' kvs _ Hh Hh'). by exists sl.
Qed.

Lemma skip_exec_all_spec sl kvs os :
  Holds sl kvs ->
  exists sl', exec_all sl os = Some ((spec_all kvs os).1, sl') /\ Holds sl' (spec_all kvs os).2.
Proof.
  revert sl kvs. induction os as [|o os IH]; intros sl kvs Hh; [by exists sl|]. simpl.
  destruct (skip_exec_spec sl kvs o Hh) as (sl1 & -> & Hh1). cbn [mbind option_bind].
  destruct (spec kvs o) as [a kvs1]. simpl in Hh1 |- *.
  destruct (IH sl1 kvs1 Hh1) as (sl2 & -> & Hh2). cbn [mbind option_bind].
  destruct (spec_all kvs1 os) as [r kvs2]. by exists sl2.
Qed.
End Machine.
Arguments op : clear implicits.
Arguments answer : clear implicits.

(** C8. Any sequence of calls on a skip list, whatever numbers the generator
    draws, returns (no null or dangling pointer is followed, no loop runs out)
    and answers as a list of pairs sorted by key does; in the state it reaches
    every level links, in order and both ways at the bottom, exactly the
    allocated nodes that are tall enough, so nothing leaks. *)
Theorem skiplist_refines_sorted_list {K V} `{ord : Ord K} `{Inhabited K, Inhabited V}
    `{EqDecision V} (os : list (op K V)) :
  exists sl, exec_all new os = Some ((spec_all [] os).1, sl) /\ Holds sl (spec_all [] os).2.
Proof. apply skip_exec_all_spec, new_skip_Holds. Qed.

(** A range answers with exactly the pairs from [start] on and below
    [end_key], in the order of the keys. *)
Theorem skiplist_range_filter {K V} `{ord : Ord K} `{Inhabited K, Inhabited V}
    (sl : SkipList K V) (kvs : list (K * V)) (start end_key : K) :
  Holds sl kvs ->
  range sl start end_key =
    Some (filter (fun e => key_lt e.1 start = false /\ key_lt e.1 end_key = true) kvs).
Proof.
  intros Hh. rewrite (skip_range_spec sl kvs start end_key Hh). f_equal.
  destruct Hh as (ls & ht & HI). apply spec_range_filter, (i_sorted _ _ _ _ HI).
Qed.

Definition sample_ops : list (op Z Z) :=
  [Insert 5%Z 50%Z (fun _ => 0%Z); Insert 1%Z 10%Z (fun _ => 0xFFFF%Z);
   Insert 3%Z 30%Z (fun i => Z.of_nat i * 0x3000)%Z; Remove 5%Z; Insert 9%Z 90%Z (fun _ => 7%Z)].

Definition sample_list : SkipList Z Z := default new (snd <$> exec_all new sample_ops).

Lemma skiplist_range_filter_witness :
  range sample_list 2%Z 9%Z =
    Some (filter (fun e => key_lt e.1 2%Z = false /\ key_lt e.1 9%Z = true)
      [(1, 10); (3, 30); (9, 90)]%Z).
Proof.
  apply skiplist_range_filter.
  destruct (skip_exec_all_spec (new : SkipList Z Z) [] sample_ops new_skip_Holds) as (sl & E & Hh).
  unfold sample_list. rewrite E. exact Hh.
Defined.

(** A skip list is a sorted container.  The [n]-th insertion of a new key
    draws the numbers [draws n], so every run of the generator is one [draws]. *)
Section Container.
Context {K V : Type} `{ord : Ord K} `{Inhabited K, Inhabited V} (draws : nat -> nat -> Z).

#[local] Instance skip_ops : SortedOps (SkipList K V) K V := {|
  sorted_new := new;
  sorted_insert := fun sl k v => insert sl k v (draws (len sl));
  sorted_entries := iter;
|}.

#[local] Instance skip_laws : SortedLaws (SkipList K V) K V.
Proof.
  refine {| sorted_repr := Holds |}.
  - apply new_skip_Holds.
  - intros x kvs k v Hx. by apply skip_insert_spec.
  - intros x kvs Hx. split; [by apply skip_iter_spec|].
    destruct Hx as (ls & ht & HI). apply (i_sorted _ _ _ _ HI).
Defined.
End Container.
