(* ===== verification/Hll.v ===== *)
(** * HyperLogLog registers

    Models [src/src/database/hll/hll_dense.rs] (registers of six bits packed in
    a byte vector), [hll_sparse.rs] (a [BTreeMap] of the registers that are not
    zero) and the register part of [hll_base.rs]: [add], [merge], the switch
    from the sparse to the dense form and the register counts.  The hash
    functions are third-party code, so the hash is a parameter; the estimates
    are computed with floating-point numbers and are not modelled, nor are the
    memory figures of [stats].  [None] is an index out of range. *)
From S2P Require Import Prelude Interfaces Ordered.
Local Open Scope Z_scope.

Definition DEFAULT_SPARSE_THRESHOLD : nat := 3000.
Definition REGISTER_BITS : nat := 6.
Definition SERIALIZATION_VERSION : Z := 1.

Definition num_registers (precision : nat) : nat := Nat.pow 2 precision.
Definition dense_size (precision : nat) : nat := (num_registers precision * REGISTER_BITS / 8)%nat.

#[global] Arguments num_registers : simpl never.
#[global] Arguments dense_size : simpl never.

(** ** Dense registers *)

Record HllDense : Type := mkHllDense { data : bytes }.

Definition dense_new (P : nat) : HllDense := mkHllDense (replicate (dense_size P) 0).

Definition dense_set_register (d : HllDense) (index : nat) (value : Z) : option HllDense :=
  let bit_index := (index * 6)%nat in
  let byte_index := (bit_index / 8)%nat in
  let bit_offset := Z.of_nat (bit_index mod 8) in
  byte1 ← data d !! byte_index;
  let byte2 := default 0 (data d !! (byte_index + 1)%nat) in
  let combined := Z.lor byte1 (Z.shiftl byte2 8) in
  let combined := Z.ldiff combined (Z.shiftl 0x3F bit_offset) in
  let combined := Z.lor combined (Z.shiftl (Z.land value 0x3F) bit_offset) in
  l ← vec_set (data d) byte_index (Z.land combined 0xFF);
  l ← (if (byte_index + 1 <? length l)%nat
       then vec_set l (byte_index + 1) (Z.shiftr combined 8) else Some l);
  Some (mkHllDense l).

Definition dense_get_register (d : HllDense) (index : nat) : option Z :=
  let bit_index := (index * 6)%nat in
  let byte_index := (bit_index / 8)%nat in
  let bit_offset := Z.of_nat (bit_index mod 8) in
  byte1 ← data d !! byte_index;
  let byte2 := default 0 (data d !! (byte_index + 1)%nat) in
  let combined := Z.lor byte1 (Z.shiftl byte2 8) in
  Some (Z.land (Z.shiftr combined bit_offset) 0x3F).

(** ** Sparse registers *)

Record HllSparse : Type := mkHllSparse { registers : list (nat * Z); threshold : nat }.

Definition with_threshold (threshold : nat) : HllSparse := mkHllSparse [] threshold.
Definition sparse_new : HllSparse := with_threshold DEFAULT_SPARSE_THRESHOLD.

Definition sparse_set_register (s : HllSparse) (index : nat) (value : Z) : bool * HllSparse :=
  if value =? 0 then (false, s)
  else
    let put := mkHllSparse (spec_insert (registers s) index value) (threshold s) in
    match spec_search (registers s) index with
    | Some current => if value <=? current then (false, s) else (true, put)
    | None => (true, put)
    end.

Definition sparse_get_register (s : HllSparse) (index : nat) : Z :=
  default 0 (spec_search (registers s) index).

Definition should_convert_to_dense (s : HllSparse) : bool :=
  (threshold s <? length (registers s))%nat.

Definition sparse_is_empty (s : HllSparse) : bool := (length (registers s) =? 0)%nat.
Definition sparse_len (s : HllSparse) : nat := length (registers s).
Definition sparse_iter (s : HllSparse) : list (nat * Z) := registers s.

(** The loop of [HllSparse::merge], over the pairs of the other one. *)
Fixpoint sparse_merge (s : HllSparse) (other : list (nat * Z)) : HllSparse :=
  match other with
  | [] => s
  | (index, value) :: other => sparse_merge (sparse_set_register s index value).2 other
  end.

Definition sparse_clear (s : HllSparse) : HllSparse := mkHllSparse [] (threshold s).

Definition count_zeros (s : HllSparse) (total_register : nat) : option nat :=
  usize_sub total_register (length (registers s)).

(** The loop of [HllDense::from_sparse]. *)
Fixpoint set_registers (d : HllDense) (l : list (nat * Z)) : option HllDense :=
  match l with
  | [] => Some d
  | (index, value) :: l => d ← dense_set_register d index value; set_registers d l
  end.

Definition from_sparse (P : nat) (sparse : HllSparse) : option HllDense :=
  set_registers (dense_new P) (sparse_iter sparse).

(** ** The two forms *)

Inductive HllEncoding : Type :=
| Sparse (s : HllSparse)
| Dense (d : HllDense).

Record Hll : Type := mkHll { encoding : HllEncoding; version : Z }.

(** [u64::leading_zeros] *)
Definition leading_zeros64 (w : Z) : Z := if w =? 0 then 64 else 63 - Z.log2 w.

Section Hll.
Context (P : nat) (hash_bytes : bytes -> Z).

Definition new : Hll := mkHll (Sparse sparse_new) SERIALIZATION_VERSION.

Definition hll_with_threshold (t : nat) : Hll := mkHll (Sparse (with_threshold t)) SERIALIZATION_VERSION.

Definition index_and_rho (hash : Z) : nat * Z :=
  let index := Z.to_nat (Z.shiftr hash (64 - Z.of_nat P)) in
  let w := wrapu 64 (Z.shiftl hash (Z.of_nat P)) in
  let rho := Z.min (leading_zeros64 w + 1) (64 - Z.of_nat P + 1) in
  (index, rho).

Definition convert_to_dense (h : Hll) : option Hll :=
  match encoding h with
  | Sparse s => d ← from_sparse P s; Some (mkHll (Dense d) (version h))
  | Dense _ => Some h
  end.

Definition add (h : Hll) (value : bytes) : option Hll :=
  let hash := hash_bytes value in
  let '(index, rho) := index_and_rho hash in
  match encoding h with
  | Sparse s =>
      if sparse_get_register s index <? rho then
        let s := (sparse_set_register s index rho).2 in
        let h := mkHll (Sparse s) (version h) in
        if should_convert_to_dense s then convert_to_dense h else Some h
      else Some h
  | Dense d =>
      current ← dense_get_register d index;
      if current <? rho then d ← dense_set_register d index rho; Some (mkHll (Dense d) (version h))
      else Some h
  end.

(** [for (index, value) in sparse2.iter()] of [merge]. *)
Fixpoint merge_sparse_loop (d : HllDense) (l : list (nat * Z)) : option HllDense :=
  match l with
  | [] => Some d
  | (index, value) :: l =>
      current ← dense_get_register d index;
      d ← (if current <? value then dense_set_register d index value else Some d);
      merge_sparse_loop d l
  end.

(** [for i in 0..num_registers] of [merge], [n] registers left. *)
Fixpoint merge_dense_loop (n i : nat) (d1 d2 : HllDense) : option HllDense :=
  match n with
  | O => Some d1
  | S n =>
      val1 ← dense_get_register d1 i;
      val2 ← dense_get_register d2 i;
      d1 ← (if val1 <? val2 then dense_set_register d1 i val2 else Some d1);
      merge_dense_loop n (i + 1) d1 d2
  end.

(** [merge] when [self] is dense. *)
Definition merge_into_dense (d1 : HllDense) (other : HllEncoding) : option HllDense :=
  match other with
  | Sparse sparse2 => merge_sparse_loop d1 (sparse_iter sparse2)
  | Dense dense2 => merge_dense_loop (num_registers P) 0 d1 dense2
  end.

Definition merge (h other : Hll) : option Hll :=
  match encoding h, encoding other with
  | Sparse sparse1, Sparse sparse2 =>
      let s := sparse_merge sparse1 (sparse_iter sparse2) in
      let h := mkHll (Sparse s) (version h) in
      if should_convert_to_dense s then convert_to_dense h else Some h
  | Sparse _, Dense _ =>
      h ← convert_to_dense h;
      match encoding h with
      | Dense d => d ← merge_into_dense d (encoding other); Some (mkHll (Dense d) (version h))
      | Sparse _ => None
      end
  | Dense d, e => d ← merge_into_dense d e; Some (mkHll (Dense d) (version h))
  end.

Definition is_sparse (h : Hll) : bool :=
  match encoding h with Sparse _ => true | Dense _ => false end.

Definition get_register (h : Hll) (index : nat) : option Z :=
  match encoding h with
  | Sparse s => Some (sparse_get_register s index)
  | Dense d => dense_get_register d index
  end.

Definition set_register (h : Hll) (index : nat) (value : Z) : option Hll :=
  match encoding h with
  | Sparse s =>
      let s := (sparse_set_register s index value).2 in
      let h := mkHll (Sparse s) (version h) in
      if should_convert_to_dense s then convert_to_dense h else Some h
  | Dense d => d ← dense_set_register d index value; Some (mkHll (Dense d) (version h))
  end.

(** The loops of [estimate_cardinality] and [stats] over a dense form: the
    registers from [i] on that are zero, [n] left. *)
Fixpoint count_zero_loop (n i : nat) (d : HllDense) : option nat :=
  match n with
  | O => Some 0%nat
  | S n =>
      v ← dense_get_register d i;
      z ← count_zero_loop n (i + 1) d;
      Some (if v =? 0 then S z else z)
  end.

(** [zeros] of [estimate_cardinality]. *)
Definition zeros (h : Hll) : option nat :=
  match encoding h with
  | Sparse s => count_zeros s (num_registers P)
  | Dense d => count_zero_loop (num_registers P) 0 d
  end.

(** [non_zero_registers] of [stats]. *)
Definition non_zero_registers (h : Hll) : option nat :=
  match encoding h with
  | Sparse s => Some (sparse_len s)
  | Dense d => z ← count_zero_loop (num_registers P) 0 d; usize_sub (num_registers P) z
  end.
End Hll.

(** ** Bits of a packed vector *)

Definition dbit (l : bytes) (k : nat) : bool :=
  Z.testbit (default 0 (l !! (k / 8)%nat)) (Z.of_nat (k mod 8)).

Lemma byte_high_bit b t : is_byte b -> 8 <= t -> Z.testbit b t = false.
Proof.
  intros Hb Ht. unfold is_byte in Hb. rewrite <- (Z.mod_small b (2 ^ 8)) by lia.
  apply Z.mod_pow2_bits_high. lia.
Qed.

(** Two neighbouring bytes as one word. *)
Lemma combined_bit b1 b2 t :
  is_byte b1 -> 0 <= t ->
  Z.testbit (Z.lor b1 (Z.shiftl b2 8)) t = if t <? 8 then Z.testbit b1 t else Z.testbit b2 (t - 8).
Proof.
  intros Hb Ht. rewrite Z.lor_spec, Z.shiftl_spec by done. destruct (Z.ltb_spec t 8).
  - rewrite (Z.testbit_neg_r b2) by lia. apply orb_false_r.
  - by rewrite byte_high_bit.
Qed.

Lemma mask_bit j : 0 <= j -> Z.testbit 0x3F j = (j <? 6).
Proof.
  intros Hj. change 0x3F with (Z.ones 6). destruct (Z.ltb_spec j 6).
  - apply Z.ones_spec_low. lia.
  - apply Z.ones_spec_high. lia.
Qed.

(** A bit of the register at [o] in a byte is in that byte or in the next. *)
Lemma dbit_word l i j b1 :
  Forall is_byte l -> (j < 8)%nat -> l !! (i * 6 / 8)%nat = Some b1 ->
  dbit l (i * 6 + j) =
    Z.testbit (Z.lor b1 (Z.shiftl (default 0 (l !! (i * 6 / 8 + 1)%nat)) 8))
      (Z.of_nat (i * 6 mod 8) + Z.of_nat j).
Proof.
  intros Hl Hj Hb. assert (is_byte b1) as Hb1 by (by eapply Forall_lookup_1).
  rewrite combined_bit by (done || lia). unfold dbit.
  pose proof (Nat.div_mod_eq (i * 6) 8) as E. pose proof (Nat.mod_upper_bound (i * 6) 8 ltac:(lia)).
  destruct (Z.ltb_spec (Z.of_nat (i * 6 mod 8) + Z.of_nat j) 8).
  - rewrite <- (Nat.mod_unique (i * 6 + j) 8 (i * 6 / 8) (i * 6 mod 8 + j)) by lia.
    rewrite <- (Nat.div_unique (i * 6 + j) 8 (i * 6 / 8) (i * 6 mod 8 + j)) by lia.
    rewrite Hb. simpl. f_equal. lia.
  - rewrite <- (Nat.div_unique (i * 6 + j) 8 (i * 6 / 8 + 1) (i * 6 mod 8 + j - 8)) by lia.
    rewrite <- (Nat.mod_unique (i * 6 + j) 8 (i * 6 / 8 + 1) (i * 6 mod 8 + j - 8)) by lia.
    f_equal. lia.
Qed.

(** The register [i] spans six bits that the vector holds. *)
Definition fits (l : bytes) (i : nat) : Prop := (i * 6 + 6 <= 8 * length l)%nat.

Lemma fits_byte l i :
  fits l i ->
  exists b1, l !! (i * 6 / 8)%nat = Some b1 /\
    ((i * 6 mod 8 + 6 <= 8)%nat \/ (i * 6 / 8 + 1 < length l)%nat).
Proof.
  unfold fits. intros Hf. pose proof (Nat.div_mod_eq (i * 6) 8) as E.
  pose proof (Nat.mod_upper_bound (i * 6) 8 ltac:(lia)).
  destruct (lookup_lt_is_Some_2 l (i * 6 / 8)%nat ltac:(lia)) as [b1 Hb1].
  exists b1. split; [done|]. lia.
Qed.

Lemma dense_get_bits l i :
  Forall is_byte l -> fits l i ->
  exists g, dense_get_register (mkHllDense l) i = Some g /\ 0 <= g < 64 /\
    forall j, (j < 6)%nat -> Z.testbit g (Z.of_nat j) = dbit l (i * 6 + j).
Proof.
  intros Hl (b1 & Hb1 & _)%fits_byte. unfold dense_get_register. simpl data. rewrite Hb1.
  cbn [mbind option_bind]. eexists. split; [done|]. split.
  - change 0x3F with (Z.ones 6). rewrite Z.land_ones by lia. apply Z.mod_pos_bound. lia.
  - intros j Hj. rewrite Z.land_spec, mask_bit, Z.shiftr_spec by lia.
    rewrite (dbit_word l i j b1) by (done || lia).
    rewrite (proj2 (Z.ltb_lt _ _)) by lia. rewrite andb_true_r. f_equal. lia.
Qed.

(** Two numbers of six bits with the same bits. *)
Lemma six_bits_eq a b :
  0 <= a < 64 -> 0 <= b < 64 ->
  (forall j, (j < 6)%nat -> Z.testbit a (Z.of_nat j) = Z.testbit b (Z.of_nat j)) -> a = b.
Proof.
  intros Ha Hb Hj. apply Z.bits_inj'. intros n Hn. destruct (decide (n < 6)) as [Hlt|Hge].
  - rewrite <- (Z2Nat.id n Hn). apply Hj. lia.
  - rewrite <- (Z.mod_small a (2 ^ 6)), <- (Z.mod_small b (2 ^ 6)) by lia.
    by rewrite !Z.mod_pow2_bits_high by lia.
Qed.

(** The word that [set_register] stores back. *)
Definition stored (w value off : Z) : Z :=
  Z.lor (Z.ldiff w (Z.shiftl 0x3F off)) (Z.shiftl (Z.land value 0x3F) off).

Lemma stored_bit w value off t :
  0 <= off -> 0 <= t ->
  Z.testbit (stored w value off) t =
    if (off <=? t) && (t <? off + 6) then Z.testbit value (t - off) else Z.testbit w t.
Proof.
  intros Ho Ht. unfold stored. rewrite Z.lor_spec, Z.ldiff_spec, !Z.shiftl_spec by done.
  destruct (Z.leb_spec off t); simpl.
  - rewrite Z.land_spec, mask_bit by lia.
    destruct (Z.ltb_spec t (off + 6)).
    + rewrite (proj2 (Z.ltb_lt (t - off) 6)) by lia. simpl. rewrite andb_false_r. apply andb_true_r.
    + rewrite (proj2 (Z.ltb_ge (t - off) 6)) by lia. simpl.
      by rewrite andb_true_r, andb_false_r, orb_false_r.
  - rewrite !(Z.testbit_neg_r _ (t - off)) by lia. simpl. by rewrite andb_true_r, orb_false_r.
Qed.

Lemma stored_range w value off :
  0 <= w < 2 ^ 16 -> 0 <= off <= 6 -> 0 <= stored w value off < 2 ^ 16.
Proof.
  intros Hw Ho.
  assert (forall t, 16 <= t -> Z.testbit w t = false) as Hhigh.
  { intros t Ht. rewrite <- (Z.mod_small w (2 ^ 16)) by lia. by apply Z.mod_pow2_bits_high. }
  assert (0 <= stored w value off).
  { unfold stored. apply Z.lor_nonneg. split.
    - apply Z.ldiff_nonneg. lia.
    - apply Z.shiftl_nonneg, Z.land_nonneg. lia. }
  split; [done|]. destruct (Z.eq_dec (stored w value off) 0) as [->|]; [lia|].
  apply Z.log2_lt_pow2; [lia|]. apply Z.nle_gt. intros Hge.
  pose proof (Z.bit_log2 (stored w value off) ltac:(lia)) as Hb.
  rewrite stored_bit in Hb by lia.
  rewrite (proj2 (Z.ltb_ge _ (off + 6))), andb_false_r in Hb by lia.
  by rewrite Hhigh in Hb by lia.
Qed.

Lemma low_byte_bit w t : 0 <= t -> Z.testbit (Z.land w 0xFF) t = (t <? 8) && Z.testbit w t.
Proof.
  intros Ht. change 0xFF with (Z.ones 8). rewrite Z.land_spec. destruct (Z.ltb_spec t 8).
  - rewrite Z.ones_spec_low by lia. apply andb_true_r.
  - rewrite Z.ones_spec_high by lia. apply andb_false_r.
Qed.

Lemma dbit_insert l q b k :
  (q < length l)%nat ->
  dbit (<[q := b]> l) k = if decide (k / 8 = q)%nat then Z.testbit b (Z.of_nat (k mod 8)) else dbit l k.
Proof.
  intros Hq. unfold dbit. destruct (decide (k / 8 = q)%nat) as [->|Hne].
  - by rewrite list_lookup_insert_eq.
  - by rewrite list_lookup_insert_ne.
Qed.

(** [set_register] as two byte stores. *)
Definition store_word (l : bytes) (q : nat) (w : Z) : bytes :=
  let l := <[q := Z.land w 0xFF]> l in
  if (q + 1 <? length l)%nat then <[(q + 1)%nat := Z.shiftr w 8]> l else l.

Lemma store_word_bytes l q w :
  Forall is_byte l -> 0 <= w < 2 ^ 16 -> Forall is_byte (store_word l q w).
Proof.
  intros Hl Hw. assert (is_byte (Z.land w 0xFF)).
  { change 0xFF with (Z.ones 8). rewrite Z.land_ones by lia. apply Z.mod_pos_bound. lia. }
  unfold store_word. destruct (_ <? _)%nat; repeat apply Forall_insert; try done.
  unfold is_byte. rewrite Z.shiftr_div_pow2 by lia. change (2 ^ 8) with 256.
  split; [apply Z.div_pos; lia|apply Z.div_lt_upper_bound; lia].
Qed.

Lemma store_word_length l q w : length (store_word l q w) = length l.
Proof. unfold store_word. destruct (_ <? _)%nat; by rewrite !length_insert. Qed.

Lemma store_word_dbit l q w k :
  (q < length l)%nat ->
  dbit (store_word l q w) k =
    if decide (k / 8 = q)%nat then Z.testbit w (Z.of_nat (k mod 8))
    else if decide (k / 8 = q + 1 /\ q + 1 < length l)%nat then Z.testbit w (Z.of_nat (k mod 8) + 8)
    else dbit l k.
Proof.
  intros Hq. unfold store_word. rewrite length_insert.
  pose proof (Nat.mod_upper_bound k 8 ltac:(lia)).
  destruct (Nat.ltb_spec (q + 1) (length l)) as [Hlt|Hge].
  - rewrite dbit_insert by (rewrite length_insert; lia). rewrite dbit_insert by done.
    destruct (decide (k / 8 = q + 1)%nat) as [E|E].
    + rewrite decide_False by lia. rewrite decide_True by done. rewrite Z.shiftr_spec by lia. done.
    + destruct (decide (k / 8 = q)%nat).
      * rewrite low_byte_bit by lia. by rewrite (proj2 (Z.ltb_lt _ _)) by lia.
      * by rewrite decide_False by lia.
  - rewrite dbit_insert by done. destruct (decide (k / 8 = q)%nat).
    + rewrite low_byte_bit by lia. by rewrite (proj2 (Z.ltb_lt _ _)) by lia.
    + by rewrite decide_False by lia.
Qed.

Lemma dense_set_store l i v b1 :
  l !! (i * 6 / 8)%nat = Some b1 ->
  dense_set_register (mkHllDense l) i v =
    Some (mkHllDense (store_word l (i * 6 / 8)
      (stored (Z.lor b1 (Z.shiftl (default 0 (l !! (i * 6 / 8 + 1)%nat)) 8)) v (Z.of_nat (i * 6 mod 8))))).
Proof.
  intros Hb. unfold dense_set_register. simpl data. rewrite Hb. cbn [mbind option_bind].
  fold (stored (Z.lor b1 (Z.shiftl (default 0 (l !! (i * 6 / 8 + 1)%nat)) 8)) v (Z.of_nat (i * 6 mod 8))).
  rewrite vec_set_insert by (by eapply lookup_lt_Some). cbn [mbind option_bind]. unfold store_word.
  destruct (Nat.ltb_spec (i * 6 / 8 + 1) (length (<[(i * 6 / 8)%nat :=
    Z.land (stored (Z.lor b1 (Z.shiftl (default 0 (l !! (i * 6 / 8 + 1)%nat)) 8)) v (Z.of_nat (i * 6 mod 8))) 0xFF]> l)))
    as [Hlt|Hge]; [|done].
  by rewrite vec_set_insert.
Qed.

Lemma word_range l i b1 :
  Forall is_byte l -> l !! (i * 6 / 8)%nat = Some b1 ->
  0 <= Z.lor b1 (Z.shiftl (default 0 (l !! (i * 6 / 8 + 1)%nat)) 8) < 2 ^ 16.
Proof.
  intros Hl Hb. assert (is_byte b1) as H1 by by eapply Forall_lookup_1.
  assert (is_byte (default 0 (l !! (i * 6 / 8 + 1)%nat))) as H2.
  { destruct (l !! (i * 6 / 8 + 1)%nat) eqn:E; simpl; [by eapply Forall_lookup_1|done]. }
  unfold is_byte in *. rewrite lor_shiftl_add by lia. lia.
Qed.

(** What a store does to every bit of the vector. *)
Lemma dense_set_bits l i v :
  Forall is_byte l -> fits l i ->
  exists l', dense_set_register (mkHllDense l) i v = Some (mkHllDense l') /\
    Forall is_byte l' /\ length l' = length l /\
    forall k, dbit l' k = if decide (i * 6 <= k < i * 6 + 6)%nat
                          then Z.testbit v (Z.of_nat (k - i * 6)) else dbit l k.
Proof.
  intros Hl (b1 & Hb1 & Hsp)%fits_byte. rewrite (dense_set_store l i v b1 Hb1).
  pose proof (word_range l i b1 Hl Hb1) as Hw.
  set (w := Z.lor b1 _) in *. set (o := (i * 6 mod 8)%nat) in *. set (q := (i * 6 / 8)%nat) in *.
  pose proof (Nat.div_mod_eq (i * 6) 8) as E. pose proof (Nat.mod_upper_bound (i * 6) 8 ltac:(lia)) as Ho.
  fold o q in E. fold o in Ho.
  assert (o <= 6)%nat as Ho6 by lia.
  pose proof (stored_range w v (Z.of_nat o) Hw ltac:(lia)) as Hs.
  eexists. split; [done|]. split_and!; [by apply store_word_bytes|apply store_word_length|].
  intros k. rewrite store_word_dbit by (by eapply lookup_lt_Some).
  pose proof (Nat.div_mod_eq k 8) as Ek. pose proof (Nat.mod_upper_bound k 8 ltac:(lia)) as Hk.
  assert (forall t, (t < 16)%nat -> k = (8 * q + t)%nat ->
    Z.testbit (stored w v (Z.of_nat o)) (Z.of_nat t) =
      if decide (i * 6 <= k < i * 6 + 6)%nat then Z.testbit v (Z.of_nat (k - i * 6))
      else Z.testbit w (Z.of_nat t)) as Hbit.
  { intros t Ht Hkt. rewrite stored_bit by lia.
    destruct (decide (i * 6 <= k < i * 6 + 6)%nat) as [Hin|Hout].
    - rewrite (proj2 (Z.leb_le _ _)), (proj2 (Z.ltb_lt _ _)) by lia. simpl. f_equal. lia.
    - destruct (Z.leb_spec (Z.of_nat o) (Z.of_nat t)); simpl; [|done].
      by rewrite (proj2 (Z.ltb_ge _ _)) by lia. }
  destruct (decide (k / 8 = q)%nat) as [Eq|Nq].
  - rewrite (Hbit (k mod 8)%nat) by lia. destruct (decide (i * 6 <= k < i * 6 + 6)%nat); [done|].
    unfold w. rewrite combined_bit, (proj2 (Z.ltb_lt _ _)) by (lia || by eapply Forall_lookup_1).
    unfold dbit. by rewrite Eq, Hb1.
  - destruct (decide (k / 8 = q + 1 /\ q + 1 < length l)%nat) as [[Eq Hlt]|Nq1].
    + replace (Z.of_nat (k mod 8) + 8) with (Z.of_nat (k mod 8 + 8)) by lia.
      rewrite (Hbit (k mod 8 + 8)%nat) by lia. destruct (decide (i * 6 <= k < i * 6 + 6)%nat); [done|].
      unfold w. rewrite combined_bit, (proj2 (Z.ltb_ge _ _)) by (lia || by eapply Forall_lookup_1).
      unfold dbit. rewrite Eq. f_equal. lia.
    + rewrite decide_False; [done|]. intros Hin. lia.
Qed.

(** The registers are independent: a store is read back, modulo 64, and no
    other register changes. *)
Lemma dense_set_get l i v :
  Forall is_byte l -> fits l i -> 0 <= v < 64 ->
  exists l', dense_set_register (mkHllDense l) i v = Some (mkHllDense l') /\
    Forall is_byte l' /\ length l' = length l /\
    forall i', fits l i' -> dense_get_register (mkHllDense l') i' =
      if decide (i' = i) then Some v else dense_get_register (mkHllDense l) i'.
Proof.
  intros Hl Hf Hv. destruct (dense_set_bits l i v Hl Hf) as (l' & E & Hl' & Hlen & Hbits).
  exists l'. split_and!; [done|done|done|]. intros i' Hf'.
  assert (fits l' i') as Hf2 by (unfold fits in *; lia).
  destruct (dense_get_bits l' i' Hl' Hf2) as (g' & Hg' & Hr' & Hb').
  destruct (dense_get_bits l i' Hl Hf') as (g & Hg & Hr & Hb).
  rewrite Hg'. destruct (decide (i' = i)) as [->|Hne].
  - f_equal. apply six_bits_eq; [done|done|]. intros j Hj. rewrite Hb', Hbits by done.
    rewrite decide_True by lia. f_equal. lia.
  - rewrite Hg. f_equal. apply six_bits_eq; [done|done|]. intros j Hj.
    rewrite Hb', Hbits, Hb by done. by rewrite decide_False by lia.
Qed.

(** ** Registers as a function *)

Abbreviation regs := (nat -> Z).

Definition raise (r : regs) (i : nat) (v : Z) : regs :=
  fun j => if decide (j = i) then Z.max (r j) v else r j.

Definition is_register (v : Z) : Prop := 0 <= v < 64.

Lemma lookup_eq_head_None (i : nat) (v : Z) l :
  sorted ((i, v) :: l) -> lookup_eq l i = None.
Proof.
  intros [_ Hf]%StronglySorted_inv. induction l as [|e l IH]; [done|].
  apply Forall_cons in Hf as [He Hf]. cbn [lookup_eq]. rewrite IH by done.
  assert (key_eq e.1 i = false) as -> by exact (proj2 (key_lt_not_eq _ _ He)). done.
Qed.

Lemma lookup_eq_elem (l : list (nat * Z)) i v :
  sorted l -> lookup_eq l i = Some v <-> (i, v) ∈ l.
Proof.
  induction l as [|[j w] l IH]; intros Hs; [simpl; set_solver|]. cbn [lookup_eq fst snd].
  pose proof (lookup_eq_head_None j w l Hs) as Hn. apply StronglySorted_inv in Hs as [Hs _].
  specialize (IH Hs). simpl key_eq. rewrite elem_of_cons. destruct (Nat.eqb_spec j i) as [->|Hne].
  - rewrite Hn in IH. split; [intros [= ->]; by left|].
    intros [[= ->]|Hin]; [done|]. by apply IH in Hin.
  - rewrite IH. split; [by right|]. intros [[= -> ->]|Hin]; done.
Qed.

Lemma leading_zeros64_bounds w : is_u 64 w -> 0 <= leading_zeros64 w <= 64.
Proof.
  unfold is_u, leading_zeros64. intros Hw. destruct (Z.eqb_spec w 0); [lia|].
  pose proof (Z.log2_nonneg w). assert (Z.log2 w < 64) by (apply Z.log2_lt_pow2; lia). lia.
Qed.

Section Registers.
Context (P : nat) (HP : (4 <= P <= 18)%nat).
Implicit Types (r : regs) (s : HllSparse) (d : HllDense) (h : Hll).

Notation m := (num_registers P).

(** The eight-bit cells hold exactly the registers. *)
Lemma dense_size_exact : (m * 6 = 8 * dense_size P)%nat.
Proof.
  unfold dense_size, REGISTER_BITS, num_registers.
  replace P with (2 + (P - 2))%nat by lia. rewrite Nat.pow_add_r. change (2 ^ 2)%nat with 4%nat.
  set (k := (2 ^ (P - 2))%nat). replace (4 * k * 6)%nat with (k * 3 * 8)%nat by lia.
  rewrite Nat.div_mul by lia. lia.
Qed.

Definition holds_sparse s r : Prop :=
  sorted (registers s) /\
  Forall (fun e => (e.1 < m)%nat /\ 0 < e.2 < 64) (registers s) /\
  forall i, r i = default 0 (lookup_eq (registers s) i).

Definition holds_dense d r : Prop :=
  Forall is_byte (data d) /\ (dense_size P <= length (data d))%nat /\
  (forall i, (i < m)%nat -> dense_get_register d i = Some (r i)) /\
  (forall i, (m <= i)%nat -> r i = 0).

(** [h] is well formed and holds the registers [r]. *)
Definition Holds h r : Prop :=
  match encoding h with
  | Sparse s => holds_sparse s r
  | Dense d => holds_dense d r
  end.

Lemma fits_index d r i : holds_dense d r -> (i < m)%nat -> fits (data d) i.
Proof. intros (_ & Hlen & _) Hi. unfold fits. pose proof dense_size_exact. lia. Qed.

Lemma holds_dense_ext d r r' : (forall i, r i = r' i) -> holds_dense d r -> holds_dense d r'.
Proof.
  intros E (H1 & H2 & H3 & H4). split_and!; [done|done| |]; intros i Hi; rewrite <- E; auto.
Qed.

Lemma holds_sparse_ext s r r' : (forall i, r i = r' i) -> holds_sparse s r -> holds_sparse s r'.
Proof. intros E (H1 & H2 & H3). split_and!; [done|done|]. intros i. by rewrite <- E. Qed.

Lemma Holds_ext h r r' : (forall i, r i = r' i) -> Holds h r -> Holds h r'.
Proof.
  unfold Holds. destruct (encoding h); [apply holds_sparse_ext|apply holds_dense_ext].
Qed.

Lemma holds_dense_register d r i : holds_dense d r -> (i < m)%nat -> is_register (r i).
Proof.
  intros Hd Hi. pose proof (fits_index d r i Hd Hi) as Hf. destruct Hd as (Hb & _ & Hg & _).
  destruct (dense_get_bits (data d) i Hb Hf) as (g & E & Hr & _). specialize (Hg i Hi).
  destruct d as [l]. simpl in *. by simplify_eq.
Qed.

(** *** Dense stores *)

Lemma holds_dense_set d r i v :
  holds_dense d r -> (i < m)%nat -> is_register v ->
  exists d', dense_set_register d i v = Some d' /\
    holds_dense d' (fun j => if decide (j = i) then v else r j).
Proof.
  intros Hd Hi Hv. pose proof (fits_index d r i Hd Hi) as Hf.
  destruct Hd as (Hb & Hlen & Hg & Hz) eqn:EHd. clear EHd. destruct d as [l]. simpl in *.
  destruct (dense_set_get l i v Hb Hf Hv) as (l' & -> & Hb' & Hl' & Hget). eexists. split; [done|].
  split_and!; simpl; [done|lia| |].
  - intros j Hj. rewrite Hget by (unfold fits; pose proof dense_size_exact; lia).
    destruct (decide (j = i)); [done|]. by apply Hg.
  - intros j Hj. rewrite decide_False by lia. by apply Hz.
Qed.

Lemma holds_dense_raise d r i v :
  holds_dense d r -> (i < m)%nat -> is_register v ->
  exists d', (current ← dense_get_register d i;
              if current <? v then dense_set_register d i v else Some d) = Some d' /\
    holds_dense d' (raise r i v).
Proof.
  intros Hd Hi Hv. rewrite (proj1 (proj2 (proj2 Hd)) i Hi). cbn [mbind option_bind].
  destruct (Z.ltb_spec (r i) v) as [Hlt|Hge].
  - destruct (holds_dense_set d r i v Hd Hi Hv) as (d' & -> & Hd'). exists d'. split; [done|].
    eapply holds_dense_ext; [|exact Hd']. intros j. unfold raise. simpl.
    destruct (decide (j = i)) as [->|]; [lia|done].
  - exists d. split; [done|]. eapply holds_dense_ext; [|exact Hd]. intros j. unfold raise.
    destruct (decide (j = i)) as [->|]; [lia|done].
Qed.

Lemma holds_dense_new : holds_dense (dense_new P) (fun _ => 0).
Proof.
  assert (Forall is_byte (replicate (dense_size P) 0)) as Hb by (apply Forall_replicate; unfold is_byte; lia).
  unfold dense_new. split_and!; simpl; [done|by rewrite length_replicate| |done].
  intros i Hi. assert (fits (replicate (dense_size P) 0) i) as Hf.
  { unfold fits. rewrite length_replicate. pose proof dense_size_exact. lia. }
  destruct (dense_get_bits _ i Hb Hf) as (g & -> & Hr & Hbits). f_equal.
  apply six_bits_eq; [done|lia|]. intros j Hj. rewrite Hbits, Z.bits_0 by done. unfold dbit.
  destruct (replicate (dense_size P) 0 !! ((i * 6 + j) / 8)%nat) eqn:E; simpl; [|apply Z.bits_0].
  apply lookup_replicate in E as [-> _]. apply Z.bits_0.
Qed.

(** The registers of a list of pairs written over [r], and raised in [r]. *)
Definition overlay r (l : list (nat * Z)) : regs := fun i => default (r i) (lookup_eq l i).
Definition pmax r r' : regs := fun i => Z.max (r i) (r' i).

Definition good_pairs (l : list (nat * Z)) : Prop :=
  sorted l /\ Forall (fun e => (e.1 < m)%nat /\ 0 < e.2 < 64) l.

Lemma good_pairs_cons i v l :
  good_pairs ((i, v) :: l) ->
  (i < m)%nat /\ 0 < v < 64 /\ good_pairs l /\ lookup_eq l i = None.
Proof.
  intros [Hs [[Hi Hv] Hf]%Forall_cons]. pose proof (lookup_eq_head_None i v l Hs).
  apply StronglySorted_inv in Hs as [Hs _]. done.
Qed.

Lemma set_registers_spec d r l :
  holds_dense d r -> good_pairs l ->
  exists d', set_registers d l = Some d' /\ holds_dense d' (overlay r l).
Proof.
  revert d r. induction l as [|[i v] l IH]; intros d r Hd Hl; [by exists d|].
  apply good_pairs_cons in Hl as (Hi & Hv & Hl & Hn). cbn [set_registers].
  destruct (holds_dense_set d r i v Hd Hi ltac:(unfold is_register; lia)) as (d1 & -> & Hd1).
  cbn [mbind option_bind]. destruct (IH d1 _ Hd1 Hl) as (d2 & -> & Hd2). exists d2. split; [done|].
  eapply holds_dense_ext; [|exact Hd2]. intros j. unfold overlay. cbn [lookup_eq]. simpl key_eq.
  destruct (Nat.eqb_spec i j) as [<-|Hne].
  - rewrite Hn. simpl. by rewrite decide_True.
  - by rewrite decide_False by done.
Qed.

Lemma from_sparse_spec s r :
  holds_sparse s r -> exists d, from_sparse P s = Some d /\ holds_dense d r.
Proof.
  intros (Hs & Hf & Hr). unfold from_sparse, sparse_iter.
  destruct (set_registers_spec _ _ (registers s) holds_dense_new (conj Hs Hf)) as (d & -> & Hd).
  exists d. split; [done|]. eapply holds_dense_ext; [|exact Hd]. intros i. by rewrite Hr.
Qed.

Lemma convert_spec h r : Holds h r -> exists h', convert_to_dense P h = Some h' /\
  is_sparse h' = false /\ Holds h' r.
Proof.
  unfold Holds, convert_to_dense. intros Hh. destruct (encoding h) as [s|d] eqn:E.
  - destruct (from_sparse_spec s r Hh) as (d & -> & Hd). cbn [mbind option_bind].
    eexists. split_and!; done.
  - exists h. unfold is_sparse. rewrite E. done.
Qed.

(** *** Sparse stores *)

Lemma sparse_set_spec s r i v :
  holds_sparse s r -> (i < m)%nat -> is_register v ->
  holds_sparse (sparse_set_register s i v).2 (raise r i v).
Proof.
  unfold is_register. intros (Hs & Hf & Hr) Hi Hv. unfold sparse_set_register.
  assert (forall j, 0 <= r j) as Hpos.
  { intros j. rewrite Hr. destruct (lookup_eq (registers s) j) as [w|] eqn:E; simpl; [|lia].
    apply lookup_eq_elem in E; [|done]. rewrite Forall_forall in Hf. specialize (Hf _ E). simpl in Hf. lia. }
  destruct (Z.eqb_spec v 0) as [->|Hv0].
  { eapply holds_sparse_ext; [|by split_and!]. intros j. unfold raise. specialize (Hpos j).
    destruct (decide (j = i)); [lia|done]. }
  assert (r i < v -> holds_sparse (mkHllSparse (spec_insert (registers s) i v) (threshold s)) (raise r i v)) as Hput.
  { intros Hlt. split_and!; simpl; [by apply spec_insert_sorted| |].
    - rewrite Forall_forall in Hf |- *. intros [j w] Hin.
      apply lookup_eq_elem in Hin; [|by apply spec_insert_sorted]. rewrite lookup_eq_insert in Hin.
      simpl key_eq in Hin. destruct (Nat.eqb_spec i j) as [<-|Hne]; [simplify_eq; simpl; lia|].
      apply lookup_eq_elem in Hin; [|done]. by apply Hf in Hin.
    - intros j. rewrite lookup_eq_insert. simpl key_eq. unfold raise.
      destruct (Nat.eqb_spec i j) as [<-|Hne]; [rewrite decide_True by done; simpl; lia|].
      by rewrite decide_False by done. }
  rewrite spec_search_lookup by done. specialize (Hr i) as Hri.
  destruct (lookup_eq (registers s) i) as [current|]; simpl in Hri; [|apply Hput; lia].
  destruct (Z.leb_spec v current); [|apply Hput; lia]. simpl.
  eapply holds_sparse_ext; [|by split_and!]. intros j. unfold raise.
  destruct (decide (j = i)) as [->|]; [lia|done].
Qed.

Lemma sparse_merge_spec s r l :
  holds_sparse s r -> good_pairs l -> holds_sparse (sparse_merge s l) (pmax r (overlay (fun _ => 0) l)).
Proof.
  revert s r. induction l as [|[i v] l IH]; intros s r Hs Hl.
  - eapply holds_sparse_ext; [|exact Hs]. intros i. unfold pmax, overlay. simpl.
    destruct Hs as (Hs & Hf & Hr). rewrite Hr.
    destruct (lookup_eq (registers s) i) as [w|] eqn:E; simpl; [|lia].
    apply lookup_eq_elem in E; [|done]. rewrite Forall_forall in Hf. specialize (Hf _ E). simpl in Hf. lia.
  - apply good_pairs_cons in Hl as (Hi & Hv & Hl & Hn). cbn [sparse_merge].
    pose proof (sparse_set_spec s r i v Hs Hi ltac:(unfold is_register; lia)) as H1.
    eapply holds_sparse_ext; [|exact (IH _ _ H1 Hl)]. intros j. unfold pmax, overlay, raise.
    cbn [lookup_eq]. simpl key_eq. destruct (Nat.eqb_spec i j) as [<-|Hne].
    + rewrite Hn, decide_True by done. simpl. lia.
    + by rewrite decide_False by done.
Qed.

(** *** Merges into a dense form *)

Lemma merge_sparse_loop_spec d r l :
  holds_dense d r -> good_pairs l ->
  exists d', merge_sparse_loop d l = Some d' /\ holds_dense d' (pmax r (overlay (fun _ => 0) l)).
Proof.
  revert d r. induction l as [|[i v] l IH]; intros d r Hd Hl.
  - exists d. split; [done|]. eapply holds_dense_ext; [|exact Hd]. intros i. unfold pmax, overlay. simpl.
    destruct (decide (i < m)%nat) as [Hi|Hi].
    + pose proof (holds_dense_register d r i Hd Hi). unfold is_register in *. lia.
    + rewrite (proj2 (proj2 (proj2 Hd)) i) by lia. done.
  - apply good_pairs_cons in Hl as (Hi & Hv & Hl & Hn). cbn [merge_sparse_loop].
    destruct (holds_dense_raise d r i v Hd Hi ltac:(unfold is_register; lia)) as (d1 & E & Hd1).
    rewrite (proj1 (proj2 (proj2 Hd)) i Hi) in E |- *. cbn [mbind option_bind] in E |- *. rewrite E.
    cbn [mbind option_bind]. destruct (IH d1 _ Hd1 Hl) as (d2 & -> & Hd2). exists d2. split; [done|].
    eapply holds_dense_ext; [|exact Hd2]. intros j. unfold pmax, overlay, raise.
    cbn [lookup_eq]. simpl key_eq. destruct (Nat.eqb_spec i j) as [<-|Hne].
    + rewrite Hn, decide_True by done. simpl. lia.
    + by rewrite decide_False by done.
Qed.

Lemma merge_dense_loop_spec n i d1 d2 r1 r2 :
  holds_dense d1 r1 -> holds_dense d2 r2 -> (i + n = m)%nat ->
  exists d, merge_dense_loop n i d1 d2 = Some d /\
    holds_dense d (fun j => if decide (i <= j)%nat then Z.max (r1 j) (r2 j) else r1 j).
Proof.
  revert i d1 r1. induction n as [|n IH]; intros i d1 r1 H1 H2 Hin.
  - exists d1. split; [done|]. eapply holds_dense_ext; [|exact H1]. intros j. simpl.
    destruct (decide (i <= j)%nat); [|done].
    rewrite (proj2 (proj2 (proj2 H1)) j), (proj2 (proj2 (proj2 H2)) j) by lia. done.
  - cbn [merge_dense_loop]. assert (i < m)%nat as Hi by lia.
    destruct (holds_dense_raise d1 r1 i (r2 i) H1 Hi (holds_dense_register d2 r2 i H2 Hi)) as (d & E & Hd).
    rewrite (proj1 (proj2 (proj2 H1)) i Hi), (proj1 (proj2 (proj2 H2)) i Hi) in *.
    cbn [mbind option_bind] in E |- *. rewrite E. cbn [mbind option_bind].
    destruct (IH (i + 1)%nat d _ Hd H2 ltac:(lia)) as (d' & -> & Hd'). exists d'. split; [done|].
    eapply holds_dense_ext; [|exact Hd']. intros j. unfold raise. simpl.
    destruct (decide (j = i)) as [->|Hne].
    + rewrite decide_False, decide_True by lia. done.
    + destruct (decide (i + 1 <= j)%nat), (decide (i <= j)%nat); (done || lia).
Qed.

Lemma hll_merge_spec h1 h2 r1 r2 :
  Holds h1 r1 -> Holds h2 r2 -> exists h, merge P h1 h2 = Some h /\ Holds h (pmax r1 r2).
Proof.
  assert (forall d r1 r2, holds_dense d r1 -> Holds h2 r2 ->
    exists d', merge_into_dense P d (encoding h2) = Some d' /\ holds_dense d' (pmax r1 r2)) as Hdense.
  { clear h1 r1 r2. intros d r1 r2 Hd H2. unfold Holds in H2. destruct (encoding h2) as [s2|d2].
    - destruct H2 as (Hs & Hf & Hr).
      destruct (merge_sparse_loop_spec d r1 (registers s2) Hd (conj Hs Hf)) as (d' & E & Hd').
      exists d'. split; [done|]. eapply holds_dense_ext; [|exact Hd']. intros i. unfold pmax, overlay.
      by rewrite Hr.
    - destruct (merge_dense_loop_spec m 0 d d2 r1 r2 Hd H2 ltac:(lia)) as (d' & E & Hd').
      exists d'. split; [done|]. eapply holds_dense_ext; [|exact Hd']. intros i. unfold pmax.
      cbv beta. by rewrite decide_True by lia. }
  intros H1 H2. unfold merge. unfold Holds in H1. destruct (encoding h1) as [s1|d1] eqn:E1.
  - destruct (encoding h2) as [s2|d2] eqn:E2.
    + unfold Holds in H2. rewrite E2 in H2. destruct H2 as (Hs & Hf & Hr).
      pose proof (sparse_merge_spec s1 r1 (registers s2) H1 (conj Hs Hf)) as Hm.
      assert (Holds (mkHll (Sparse (sparse_merge s1 (sparse_iter s2))) (version h1)) (pmax r1 r2)) as Hh.
      { unfold Holds. simpl. eapply holds_sparse_ext; [|exact Hm]. intros i. unfold pmax, overlay.
        by rewrite Hr. }
      destruct (should_convert_to_dense _); [|by eexists].
      destruct (convert_spec _ _ Hh) as (h & E & _ & Hh'). by exists h.
    + assert (Holds h1 r1) as Hh1 by (unfold Holds; by rewrite E1).
      destruct (convert_spec h1 r1 Hh1) as (h & -> & Hsp & Hh). cbn [mbind option_bind].
      unfold Holds in Hh. unfold is_sparse in Hsp. destruct (encoding h) as [s|d]; [done|].
      destruct (Hdense d r1 r2 Hh H2) as (d' & E' & Hd'). rewrite E'. cbn [mbind option_bind]. by eexists.
  - destruct (Hdense d1 r1 r2 H1 H2) as (d' & -> & Hd'). cbn [mbind option_bind]. by eexists.
Qed.

Lemma hll_get_spec h r i : Holds h r -> (i < m)%nat -> get_register h i = Some (r i).
Proof.
  unfold Holds, get_register. intros Hh Hi. destruct (encoding h) as [s|d].
  - destruct Hh as (Hs & _ & Hr). unfold sparse_get_register. by rewrite spec_search_lookup, Hr.
  - by apply (proj1 (proj2 (proj2 Hh))).
Qed.

(** *** Counts *)

Definition zero_count r (i n : nat) : nat := length (filter (fun j => r j = 0) (seq i n)).

Lemma count_zero_loop_spec d r n i :
  holds_dense d r -> (i + n = m)%nat -> count_zero_loop n i d = Some (zero_count r i n).
Proof.
  intros Hd. revert i. induction n as [|n IH]; intros i Hi; [done|]. cbn [count_zero_loop].
  rewrite (proj1 (proj2 (proj2 Hd)) i) by lia. cbn [mbind option_bind].
  rewrite IH by lia. cbn [mbind option_bind]. unfold zero_count. cbn [seq]. rewrite Nat.add_1_r, filter_cons.
  destruct (Z.eqb_spec (r i) 0); [by rewrite decide_True|by rewrite decide_False].
Qed.

Lemma zero_count_partition r i n :
  (zero_count r i n + length (filter (fun j => r j <> 0%Z) (seq i n)) = n)%nat.
Proof.
  unfold zero_count. revert i. induction n as [|n IH]; intros i; [done|]. cbn [seq].
  specialize (IH (S i)). rewrite !filter_cons.
  destruct (decide (r i = 0)) as [E|E].
  - rewrite (decide_False (P := r i <> 0)) by tauto. simpl. lia.
  - rewrite (decide_True (P := r i <> 0)) by tauto. simpl. lia.
Qed.

Lemma sparse_length s r :
  holds_sparse s r -> length (registers s) = length (filter (fun j => r j <> 0) (seq 0 m)).
Proof.
  intros (Hs & Hf & Hr). rewrite <- (length_fmap fst). apply Permutation_length, NoDup_Permutation.
  - clear Hf Hr. induction Hs as [|[i v] l Hs IH Hf]; simpl; constructor; [|done].
    intros ([j w] & Hj & Hin)%list_elem_of_fmap. simpl in Hj. subst j. rewrite Forall_forall in Hf.
    specialize (Hf _ Hin). apply Nat.ltb_lt in Hf. simpl in Hf. lia.
  - apply NoDup_filter, NoDup_seq.
  - rewrite Forall_forall in Hf. intros i. rewrite list_elem_of_filter, elem_of_seq, Hr. split.
    + intros ([j w] & -> & Hin)%list_elem_of_fmap. specialize (Hf _ Hin). simpl in *.
      rewrite (proj2 (lookup_eq_elem _ j w Hs) Hin). simpl. lia.
    + intros [Hne Hi]. destruct (lookup_eq (registers s) i) as [w|] eqn:E; [|done].
      apply lookup_eq_elem in E; [|done]. apply list_elem_of_fmap. by exists (i, w).
Qed.

Lemma hll_counts_spec h r :
  Holds h r ->
  zeros P h = Some (zero_count r 0 m) /\ non_zero_registers P h = Some (m - zero_count r 0 m)%nat.
Proof.
  unfold Holds, zeros, non_zero_registers. intros Hh. pose proof (zero_count_partition r 0 m) as Hp.
  destruct (encoding h) as [s|d].
  - unfold count_zeros, sparse_len. rewrite (sparse_length s r Hh). unfold usize_sub.
    rewrite (proj2 (Nat.leb_le _ _)) by lia. split; f_equal; lia.
  - rewrite (count_zero_loop_spec d r m 0 Hh) by lia. cbn [mbind option_bind]. unfold usize_sub.
    by rewrite (proj2 (Nat.leb_le _ _)) by lia.
Qed.
End Registers.

(** ** Counting a set *)
Section Counting.
Context (P : nat) (HP : (4 <= P <= 18)%nat) (hash_bytes : bytes -> Z).
Context (Hhash : forall v, is_u 64 (hash_bytes v)).
Implicit Types (r : regs) (h : Hll) (vs : list bytes).

Notation m := (num_registers P).

Definition index_of (v : bytes) : nat := (index_and_rho P (hash_bytes v)).1.
Definition rho_of (v : bytes) : Z := (index_and_rho P (hash_bytes v)).2.

(** The largest rank of the elements that fall in register [i]. *)
Definition reg_of vs : regs := fun i => foldr (fun v x => if decide (index_of v = i) then Z.max (rho_of v) x else x) 0 vs.

Lemma index_bound v : (index_of v < m)%nat.
Proof.
  unfold index_of, index_and_rho. simpl. specialize (Hhash v). unfold is_u in Hhash.
  rewrite Z.shiftr_div_pow2 by lia. unfold num_registers.
  apply Nat2Z.inj_lt. rewrite Z2Nat.id, Nat2Z.inj_pow by (apply Z.div_pos; lia).
  apply Z.div_lt_upper_bound; [apply Z.pow_pos_nonneg; lia|]. rewrite <- Z.pow_add_r by lia.
  replace (64 - Z.of_nat P + Z.of_nat P) with 64 by lia. lia.
Qed.

Lemma rho_bounds v : 1 <= rho_of v <= 64 - Z.of_nat P + 1.
Proof.
  unfold rho_of, index_and_rho. simpl.
  pose proof (leading_zeros64_bounds (wrapu 64 (Z.shiftl (hash_bytes v) (Z.of_nat P))) ltac:(apply wrapu_is_u; lia)).
  lia.
Qed.

Lemma reg_of_bounds vs i : 0 <= reg_of vs i < 64.
Proof.
  unfold reg_of. induction vs as [|v vs IH]; simpl; [lia|]. pose proof (rho_bounds v).
  destruct (decide (index_of v = i)); lia.
Qed.

Lemma reg_of_app vs vs' i : reg_of (vs ++ vs') i = Z.max (reg_of vs i) (reg_of vs' i).
Proof.
  unfold reg_of. induction vs as [|v vs IH]; simpl.
  - pose proof (reg_of_bounds vs' i). unfold reg_of in *. lia.
  - rewrite IH. destruct (decide (index_of v = i)); lia.
Qed.

(** Only the set of the elements matters. *)
Lemma reg_of_subset vs vs' i : (forall v, v ∈ vs -> v ∈ vs') -> reg_of vs i <= reg_of vs' i.
Proof.
  assert (forall v, v ∈ vs' -> index_of v = i -> rho_of v <= reg_of vs' i) as Hmem.
  { unfold reg_of. induction vs' as [|x vs' IH]; intros v Hv Hi; [set_solver|]. simpl.
    apply elem_of_cons in Hv as [->|Hv]; [rewrite decide_True by done; lia|].
    specialize (IH v Hv Hi). destruct (decide (index_of x = i)); lia. }
  pose proof (reg_of_bounds vs' i). intros Hsub. unfold reg_of at 1.
  induction vs as [|v vs IH]; simpl; [lia|]. specialize (IH ltac:(set_solver)).
  destruct (decide (index_of v = i)) as [Hi|]; [|done]. specialize (Hmem v ltac:(set_solver) Hi). lia.
Qed.

Lemma hll_add_spec h vs v :
  Holds P h (reg_of vs) -> exists h', add P hash_bytes h v = Some h' /\ Holds P h' (reg_of (vs ++ [v])).
Proof.
  intros Hh. pose proof (index_bound v) as Hi. pose proof (rho_bounds v) as Hr.
  unfold add. destruct (index_and_rho P (hash_bytes v)) as [i rho] eqn:E.
  assert (index_of v = i) as Ei by (unfold index_of; by rewrite E).
  assert (rho_of v = rho) as Er by (unfold rho_of; by rewrite E). rewrite Ei in Hi. rewrite Er in Hr.
  assert (forall j, raise (reg_of vs) i rho j = reg_of (vs ++ [v]) j) as Hraise.
  { intros j. rewrite reg_of_app. unfold raise. unfold reg_of at 4. simpl. rewrite Ei, Er.
    pose proof (reg_of_bounds vs j). destruct (decide (j = i)) as [->|].
    - rewrite decide_True by done. lia.
    - rewrite decide_False by done. lia. }
  assert (reg_of vs i >= rho -> forall j, reg_of vs j = reg_of (vs ++ [v]) j) as Hsame.
  { intros Hge j. rewrite <- Hraise. unfold raise. destruct (decide (j = i)) as [->|]; lia. }
  unfold Holds in Hh. destruct (encoding h) as [s|d] eqn:Eh.
  - unfold sparse_get_register. pose proof Hh as (Hs & _ & Hreg).
    rewrite spec_search_lookup, <- Hreg by done. destruct (Z.ltb_spec (reg_of vs i) rho) as [Hlt|Hge].
    + pose proof (sparse_set_spec P HP s _ i rho Hh Hi ltac:(unfold is_register; lia)) as Hset.
      assert (Holds P (mkHll (Sparse (sparse_set_register s i rho).2) (version h)) (reg_of (vs ++ [v]))) as Hh'
        by (by eapply holds_sparse_ext).
      destruct (should_convert_to_dense _); [|by eexists].
      destruct (convert_spec P HP _ _ Hh') as (h' & E' & _ & ?). by exists h'.
    + exists h. split; [done|]. apply (Holds_ext P h (reg_of vs)); [by apply Hsame; lia|].
      unfold Holds. by rewrite Eh.
  - destruct (holds_dense_raise P HP d _ i rho Hh Hi ltac:(unfold is_register; lia)) as (d' & Ed & Hd').
    rewrite (proj1 (proj2 (proj2 Hh)) i Hi) in Ed |- *. cbn [mbind option_bind] in Ed |- *.
    destruct (Z.ltb_spec (reg_of vs i) rho) as [Hlt|Hge].
    + rewrite Ed. cbn [mbind option_bind]. eexists. split; [done|]. by eapply holds_dense_ext.
    + exists h. split; [done|]. apply (Holds_ext P h (reg_of vs)); [by apply Hsame; lia|].
      unfold Holds. by rewrite Eh.
Qed.

Fixpoint add_all h vs : option Hll :=
  match vs with
  | [] => Some h
  | v :: vs => h ← add P hash_bytes h v; add_all h vs
  end.

Lemma hll_add_all_spec h vs vs' :
  Holds P h (reg_of vs) -> exists h', add_all h vs' = Some h' /\ Holds P h' (reg_of (vs ++ vs')).
Proof.
  revert h vs. induction vs' as [|v vs' IH]; intros h vs Hh; simpl.
  - exists h. by rewrite app_nil_r.
  - destruct (hll_add_spec h vs v Hh) as (h1 & -> & Hh1). cbn [mbind option_bind].
    destruct (IH h1 _ Hh1) as (h2 & -> & Hh2). exists h2. by rewrite <- app_assoc in Hh2.
Qed.

Lemma hll_new_Holds t : Holds P (hll_with_threshold t) (reg_of []).
Proof. unfold Holds. simpl. split_and!; [constructor|done|done]. Qed.

(** Calls on one structure; a merge takes one that has counted other elements. *)
Inductive op : Type := Add (v : bytes) | MergeWith (t : nat) (vs : list bytes) | ToDense.

Definition exec h (o : op) : option Hll :=
  match o with
  | Add v => add P hash_bytes h v
  | MergeWith t vs => other ← add_all (hll_with_threshold t) vs; merge P h other
  | ToDense => convert_to_dense P h
  end.

Fixpoint exec_all h (os : list op) : option Hll :=
  match os with
  | [] => Some h
  | o :: os => h ← exec h o; exec_all h os
  end.

(** The elements counted. *)
Definition counted (o : op) : list bytes :=
  match o with Add v => [v] | MergeWith _ vs => vs | ToDense => [] end.

Lemma hll_exec_all_spec h vs os :
  Holds P h (reg_of vs) ->
  exists h', exec_all h os = Some h' /\ Holds P h' (reg_of (vs ++ concat (counted <$> os))).
Proof.
  revert h vs. induction os as [|o os IH]; intros h vs Hh; simpl.
  { exists h. by rewrite app_nil_r. }
  assert (exists h1, exec h o = Some h1 /\ Holds P h1 (reg_of (vs ++ counted o))) as (h1 & -> & Hh1).
  { destruct o as [v|t vs'|]; simpl.
    - by apply hll_add_spec.
    - destruct (hll_add_all_spec (hll_with_threshold t) [] vs' (hll_new_Holds t)) as (other & -> & Ho).
      cbn [mbind option_bind]. destruct (hll_merge_spec P HP h other _ _ Hh Ho) as (h1 & E & Hh1).
      exists h1. split; [done|]. eapply Holds_ext; [|exact Hh1]. intros i. by rewrite reg_of_app.
    - rewrite app_nil_r. destruct (convert_spec P HP h _ Hh) as (h1 & E & _ & Hh1). by exists h1. }
  cbn [mbind option_bind]. destruct (IH h1 _ Hh1) as (h2 & -> & Hh2). exists h2.
  by rewrite app_assoc.
Qed.
End Counting.

(** C37. Any sequence of additions, merges and conversions returns, and every
    register then holds the largest rank of the elements counted so far that
    fall in it, whether they are kept sparse or packed in six-bit cells; the
    counts that the estimate starts from are those of these registers. *)
Theorem hll_registers_are_maxima (P : nat) (hash_bytes : bytes -> Z) (t : nat) (os : list op) :
  (4 <= P <= 18)%nat -> (forall v, is_u 64 (hash_bytes v)) ->
  let vs := concat (counted <$> os) in
  exists h, exec_all P hash_bytes (hll_with_threshold t) os = Some h /\
    (forall i, (i < num_registers P)%nat -> get_register h i = Some (reg_of P hash_bytes vs i)) /\
    zeros P h = Some (zero_count (reg_of P hash_bytes vs) 0 (num_registers P)).
Proof.
  intros HP Hhash vs.
  destruct (hll_exec_all_spec P HP hash_bytes Hhash (hll_with_threshold t) [] os) as (h & E & Hh);
    [apply hll_new_Holds|].
  exists h. split; [done|]. split.
  - intros i Hi. by apply (hll_get_spec P h).
  - by apply (hll_counts_spec P HP h).
Qed.

Definition sample_hash (v : bytes) : Z := wrapu 64 (foldl (fun a b => a * 1099511628211 + b) 14695981039346656037 v).

Lemma hll_registers_are_maxima_witness :
  let os := [Add [1]; MergeWith 0 [[2]; [3]]; ToDense; Add [4]] in
  exists h, exec_all 4 sample_hash (hll_with_threshold 3) os = Some h /\
    (forall i, (i < num_registers 4)%nat ->
       get_register h i = Some (reg_of 4 sample_hash (concat (counted <$> os)) i)) /\
    zeros 4 h = Some (zero_count (reg_of 4 sample_hash (concat (counted <$> os))) 0 (num_registers 4)).
Proof.
  apply (hll_registers_are_maxima 4 sample_hash 3); [lia|]. intros v. apply wrapu_is_u. lia.
Defined.

(** Counting is a function of the set of the elements: two structures
    that have counted the same set, in any order, with any repetitions, merges,
    thresholds and forms, agree on every register. *)
Theorem hll_counts_a_set (P : nat) (hash_bytes : bytes -> Z) (t t' : nat) (os os' : list op) :
  (4 <= P <= 18)%nat -> (forall v, is_u 64 (hash_bytes v)) ->
  (forall v, v ∈ concat (counted <$> os) <-> v ∈ concat (counted <$> os')) ->
  exists h h', exec_all P hash_bytes (hll_with_threshold t) os = Some h /\
    exec_all P hash_bytes (hll_with_threshold t') os' = Some h' /\
    forall i, (i < num_registers P)%nat -> get_register h i = get_register h' i.
Proof.
  intros HP Hhash Hset.
  destruct (hll_exec_all_spec P HP hash_bytes Hhash (hll_with_threshold t) [] os (hll_new_Holds _ _ _)) as (h & E & Hh).
  destruct (hll_exec_all_spec P HP hash_bytes Hhash (hll_with_threshold t') [] os' (hll_new_Holds _ _ _)) as (h' & E' & Hh').
  exists h, h'. split_and!; [done|done|]. intros i Hi.
  rewrite (hll_get_spec P h _ i Hh Hi), (hll_get_spec P h' _ i Hh' Hi). f_equal. simpl.
  apply Z.le_antisymm; apply (reg_of_subset P HP hash_bytes Hhash); intros v Hv; by apply Hset.
Qed.

Lemma hll_counts_a_set_witness :
  exists h h', exec_all 4 sample_hash (hll_with_threshold 1) [Add [1]; Add [2]; Add [1]] = Some h /\
    exec_all 4 sample_hash (hll_with_threshold 9) [MergeWith 0 [[2]; [1]]] = Some h' /\
    forall i, (i < num_registers 4)%nat -> get_register h i = get_register h' i.
Proof.
  apply (hll_counts_a_set 4 sample_hash); [lia|intros v; apply wrapu_is_u; lia|]. simpl. set_solver.
Defined.
