(* ===== verification/ZdbFormat.v ===== *)
(** * The versions of the dump format

    Models [src/src/engine/zdb/file.rs] and [tags.rs]: the four versions of the
    format, which version reads and writes which, the compatibility check that
    every reader makes and the detection of the version of a dump.  A warning
    is the case that produces it with its data; the texts are not kept. *)
From S2P Require Import Prelude Varint.
Local Open Scope Z_scope.

Definition TAG_STR : Z := 0x01.
Definition TAG_INT : Z := 0x02.
Definition TAG_FLOAT : Z := 0x03.
Definition TAG_BOOL : Z := 0x0B.
Definition TAG_NULL : Z := 0x04.
Definition TAG_LIST : Z := 0x05.
Definition TAG_HASH : Z := 0x06.
Definition TAG_ZSET : Z := 0x07.
Definition TAG_SET : Z := 0x08.
Definition TAG_HLL : Z := 0x09.
Definition TAG_SSTREAM : Z := 0x0A.
Definition TAG_COMPRESSED : Z := 0x0C.
Definition TAG_EOF : Z := 0xFF.
Definition TAG_ARRAY : Z := 0x0D.
Definition TAG_BITMAP : Z := 0x0E.

(** The letters ZDB. *)
Definition FILE_MAGIC : bytes := [0x5A; 0x44; 0x42].

Inductive FormatVersion : Type := Legacy | V1 | V2 | V3.

#[export] Instance FormatVersion_eq_dec : EqDecision FormatVersion.
Proof. solve_decision. Defined.

(** [version as u8] *)
Definition version_u8 (v : FormatVersion) : Z :=
  match v with Legacy => 0 | V1 => 1 | V2 => 2 | V3 => 3 end.

(** The derived order. *)
Definition version_le (a b : FormatVersion) : bool := version_u8 a <=? version_u8 b.
Definition version_lt (a b : FormatVersion) : bool := version_u8 a <? version_u8 b.

Definition current : FormatVersion := V3.

Definition uses_varint (v : FormatVersion) : bool :=
  match v with V3 => true | _ => false end.

Definition can_read (self target : FormatVersion) : bool :=
  match self, target with
  | Legacy, Legacy => true
  | Legacy, _ => false
  | V1, Legacy => true
  | V1, V1 => true
  | V1, (V2 | V3) => false
  | V2, Legacy => true
  | V2, V1 => true
  | V2, V2 => true
  | V2, V3 => false
  | V3, _ => true
  end.

Definition can_write (self target : FormatVersion) : bool := version_le self target.

Definition supported_versions : list FormatVersion := [Legacy; V1; V2; V3].

Definition is_deprecated (v : FormatVersion) : bool :=
  match v with Legacy | V1 => true | _ => false end.

Definition recommended_upgrade (v : FormatVersion) : option FormatVersion :=
  match v with
  | Legacy => Some V1
  | V1 => Some V2
  | V2 => Some V3
  | V3 => None
  end.

Inductive Warning : Type :=
| WDeprecated (dump upgrade : FormatVersion)
| WNewer (dump reader : FormatVersion)
| WCannotRead (reader dump : FormatVersion)
| WVarint.

Record CompatibilityInfo : Type := mkInfo {
  reader_version : FormatVersion;
  dump_version : FormatVersion;
  info_can_read : bool;
  info_can_write : bool;
  requires_migration : bool;
  warnings : list Warning;
}.

Definition check_compatibility (reader dump : FormatVersion) : CompatibilityInfo :=
  let r := can_read reader dump in
  let w := can_write reader dump in
  let m := is_deprecated dump in
  let warnings :=
    (if m then [WDeprecated dump (default current (recommended_upgrade dump))] else []) ++
    (if version_lt reader dump then [WNewer dump reader] else []) ++
    (if negb r then [WCannotRead reader dump] else []) ++
    (if bool_decide (dump = V3) && version_lt reader V3 then [WVarint] else []) in
  mkInfo reader dump r w m warnings.

(** [TryFrom<u8>] *)
Definition try_from (value : Z) : zresult FormatVersion :=
  if value =? 0 then Ok Legacy
  else if value =? 1 then Ok V1
  else if value =? 2 then Ok V2
  else if value =? 3 then Ok V3
  else Err (UnsupportedVersion value).

Definition detect_version (data : bytes) : zresult FormatVersion :=
  if (length data <? 4)%nat then Err (UnsupportedVersion 0)
  else if negb (bool_decide (take 3 data = FILE_MAGIC)) then Err (UnsupportedVersion 0)
  else match data !! 3%nat with
       | Some version_byte => try_from version_byte
       | None => Err Unreachable
       end.

Definition validate_compatibility (reader dump : FormatVersion) : zresult CompatibilityInfo :=
  let info := check_compatibility reader dump in
  if negb (info_can_read info)
  then Err (IncompatibleVersion (version_u8 reader) (version_u8 dump))
  else Ok info.

Definition version_changes (from to : FormatVersion) : list string :=
  (if version_lt from V1 && version_le V1 to
   then ["Added explicit version header"; "Improved error handling"]%string else []) ++
  (if version_lt from V2 && version_le V2 to
   then ["Enhanced compression algorithm"; "Added new data types support";
         "Improved streaming performance"]%string else []) ++
  (if version_lt from V3 && version_le V3 to
   then ["Varint encoding for all size (LEB128)"; "20-30% space saving on typical data";
         "1 byte for sizes <128 (vs 4 bytes)"; "2 bytes for sizes <16384 (vs 4 bytes)";
         "Backward compatible reader"]%string else []).

(** ** Lemmas *)

Lemma try_from_version v : try_from (version_u8 v) = Ok v.
Proof. by destruct v. Qed.

Lemma try_from_ok value v : try_from value = Ok v <-> value = version_u8 v.
Proof.
  split; [|intros ->; apply try_from_version]. unfold try_from.
  destruct (Z.eqb_spec value 0); [by intros [= <-]|]. destruct (Z.eqb_spec value 1); [by intros [= <-]|].
  destruct (Z.eqb_spec value 2); [by intros [= <-]|]. destruct (Z.eqb_spec value 3); [by intros [= <-]|done].
Qed.

Lemma can_read_le reader dump : can_read reader dump = version_le dump reader.
Proof. by destruct reader, dump. Qed.

Lemma validate_ok reader dump :
  can_read reader dump = true -> validate_compatibility reader dump = Ok (check_compatibility reader dump).
Proof. intros H. unfold validate_compatibility. simpl. by rewrite H. Qed.

(** The steps of an upgrade from a version. *)
Fixpoint upgrade_path (fuel : nat) (v : FormatVersion) : list FormatVersion :=
  match fuel with
  | O => []
  | S fuel => match recommended_upgrade v with Some v' => v' :: upgrade_path fuel v' | None => [] end
  end.

(** The compatibility check accepts a dump exactly when its version is not
    above the reader's, so the current reader accepts all of them; a refusal
    names the two versions; no warning is given exactly for a readable dump
    that is not deprecated; and following the recommended upgrades ends at the
    current version. *)
Theorem version_compatibility (reader dump : FormatVersion) :
  validate_compatibility reader dump =
    (if version_le dump reader then Ok (check_compatibility reader dump)
     else Err (IncompatibleVersion (version_u8 reader) (version_u8 dump))) /\
  can_read current dump = true /\
  (warnings (check_compatibility reader dump) = [] <->
     version_le dump reader = true /\ is_deprecated dump = false) /\
  last (dump :: upgrade_path 4 dump) = Some current.
Proof.
  split_and!.
  - unfold validate_compatibility. simpl. rewrite can_read_le. by destruct (version_le dump reader).
  - done.
  - destruct reader, dump; simpl; split; (done || intros []; done).
  - by destruct dump.
Qed.

(** The detected version is the one of the header: detection succeeds with
    a version exactly on the data that start with the magic bytes and the byte
    of that version. *)
Theorem detect_version_header (data : bytes) (v : FormatVersion) :
  detect_version data = Ok v <-> exists rest, data = FILE_MAGIC ++ version_u8 v :: rest.
Proof.
  unfold detect_version. split.
  - destruct (Nat.ltb_spec (length data) 4) as [|Hl]; [done|].
    case_bool_decide as Hm; [|done]. simpl. destruct (data !! 3%nat) as [b|] eqn:Hb; [|done].
    intros ->%try_from_ok. exists (drop 4 data).
    rewrite <- (take_drop 3 data) at 1. rewrite Hm. f_equal. by rewrite (drop_S _ _ _ Hb).
  - intros [rest ->]. simpl. apply try_from_version.
Qed.
