(* ===== verification/ZdbReader.v ===== *)
(** * Readers of the dump format

    The reader that the decoding functions of [src/src/engine/zdb/decode.rs]
    take ([R: Read]) is the list of the bytes left in it; a decoding function
    is a [reader], a state and error monad over that list.  [Deep] is the
    overflow of the call stack: the recursion of the decoders has a fuel, and
    their theorems say how much is enough.  Here are the monad, the big-endian
    primitives of [byteorder], the two encodings of a length ([write_length],
    [read_length]) and [skip_bytes]. *)
From S2P Require Import Prelude Varint ZdbFormat.
Local Open Scope Z_scope.

Inductive outcome (A : Type) : Type :=
| Ret (a : A) (rest : bytes)
| Fail (e : ZdbError)
| Deep.
Arguments Ret {A} a rest.
Arguments Fail {A} e.
Arguments Deep {A}.

Definition reader (A : Type) : Type := bytes -> outcome A.

#[export] Instance reader_ret : MRet reader := fun A a r => Ret a r.
#[export] Instance reader_bind : MBind reader := fun A B k m r =>
  match m r with
  | Ret a r => k a r
  | Fail e => Fail e
  | Deep => Deep
  end.

Definition fail {A} (e : ZdbError) : reader A := fun _ => Fail e.
Definition deep {A} : reader A := fun _ => Deep.

(** [ensure!(b, e)] *)
Definition ensure (b : bool) (e : ZdbError) : reader unit := if b then mret tt else fail e.

(** A [result] of a function that takes the rest of the reader. *)
Definition of_result {A} (f : bytes -> zresult (A * bytes)) : reader A := fun r =>
  match f r with
  | Ok (a, r) => Ret a r
  | Err e => Fail e
  end.

(** A container operation; [None] is a panic in it. *)
Definition of_option {A} (x : option A) : reader A :=
  match x with Some a => mret a | None => fail Unreachable end.

(** [map_err(|_| e)] *)
Definition map_err {A} (e : ZdbError) (m : reader A) : reader A := fun r =>
  match m r with
  | Fail _ => Fail e
  | o => o
  end.

Definition read_exact (n : Z) : reader bytes := fun r =>
  if n <=? Z.of_nat (length r)
  then Ret (take (Z.to_nat n) r) (drop (Z.to_nat n) r)
  else Fail IoEof.

Definition read_u8 : reader Z := fun r =>
  match r with
  | b :: r => Ret b r
  | [] => Fail IoEof
  end.

(** Big-endian numbers. *)
Definition be_value (bs : bytes) : Z := foldl (fun a b => a * 256 + b) 0 bs.

Fixpoint be_bytes (n : nat) (v : Z) : bytes :=
  match n with
  | O => []
  | S n => (v / 256 ^ Z.of_nat n) mod 256 :: be_bytes n v
  end.

(** [write_u32], [write_u64], [write_i64], [write_f64] of an [n]-byte word. *)
Definition write_be (n : nat) (v : Z) : bytes := be_bytes n (wrapu (8 * Z.of_nat n) v).

Definition read_be (n : nat) : reader Z := bs ← read_exact (Z.of_nat n); mret (be_value bs).

Definition read_i64 : reader Z := v ← read_be 8; mret (wraps 64 v).

(** [for _ in 0..n], with the state of the loop. *)
Fixpoint times {S : Type} (n : nat) (f : S -> reader S) (s : S) : reader S :=
  match n with
  | O => mret s
  | S n => s ← f s; times n f s
  end.

(** [len as u32], written as the version says. *)
Definition write_length (version : FormatVersion) (len : nat) : bytes :=
  let len := wrapu 32 (Z.of_nat len) in
  if uses_varint version then write_varint len else write_be 4 len.

Definition read_length (version : FormatVersion) : reader Z :=
  if uses_varint version then of_result read_varint else read_be 4.

(** [skip_bytes]: reads of at most 8192 bytes until [n] are gone; a reader over
    memory returns as many as it is asked for and has.  Each pass with
    bytes left takes at least one, so [n] passes are enough. *)
Fixpoint skip_loop (fuel : nat) (n : Z) : reader unit := fun r =>
  match fuel with
  | O => Deep
  | S fuel =>
      if 0 <? n then
        let to_read := Z.min n 8192 in
        let read := Z.min to_read (Z.of_nat (length r)) in
        if read =? 0 then Fail UnexpectedEof
        else skip_loop fuel (n - read) (drop (Z.to_nat read) r)
      else Ret tt r
  end.

(** One pass more than the bytes that there are is as good as [n] passes. *)
Definition skip_bytes (n : Z) : reader unit := fun r => skip_loop (S (S (length r))) n r.

(** ** What a reader reads back

    [reads m w a]: [m] takes exactly [w] from any reader that starts with it,
    and returns [a]. *)
Definition reads {A} (m : reader A) (w : bytes) (a : A) : Prop :=
  forall rest, m (w ++ rest) = Ret a rest.

Lemma reads_ret {A} (a : A) : reads (mret a) [] a.
Proof. by intros rest. Qed.

Lemma reads_bind {A B} (m : reader A) (k : A -> reader B) w1 w2 a b :
  reads m w1 a -> reads (k a) w2 b -> reads (m ≫= k) (w1 ++ w2) b.
Proof.
  intros H1 H2 rest. unfold mbind, reader_bind. rewrite <- app_assoc, H1. apply H2.
Qed.

(** A step that takes nothing. *)
Lemma reads_step {A B} (m : reader A) (k : A -> reader B) w a b :
  reads m [] a -> reads (k a) w b -> reads (m ≫= k) w b.
Proof. intros H1 H2. exact (reads_bind m k [] w a b H1 H2). Qed.

(** A last step that takes nothing. *)
Lemma reads_map {A B} (m : reader A) (k : A -> reader B) w a b :
  reads m w a -> reads (k a) [] b -> reads (m ≫= k) w b.
Proof. intros H1 H2. rewrite <- (app_nil_r w). by eapply reads_bind. Qed.

Lemma reads_ensure b e : b = true -> reads (ensure b e) [] tt.
Proof. by intros -> rest. Qed.

Lemma reads_option {A} (x : option A) a : x = Some a -> reads (of_option x) [] a.
Proof. by intros -> rest. Qed.

Lemma reads_map_err {A} e (m : reader A) w a : reads m w a -> reads (map_err e m) w a.
Proof. intros H rest. unfold map_err. by rewrite H. Qed.

Lemma reads_u8 b : reads read_u8 [b] b.
Proof. by intros rest. Qed.

Lemma reads_exact w n : n = Z.of_nat (length w) -> reads (read_exact n) w w.
Proof.
  intros -> rest. unfold read_exact. rewrite length_app, (proj2 (Z.leb_le _ _)) by lia.
  by rewrite Nat2Z.id, take_app_length, drop_app_length.
Qed.

Lemma be_bytes_length n v : length (be_bytes n v) = n.
Proof. induction n as [|n IH]; simpl; by rewrite ?IH. Qed.

Lemma be_value_app l1 l2 : be_value (l1 ++ l2) = be_value l1 * 256 ^ Z.of_nat (length l2) + be_value l2.
Proof.
  unfold be_value. induction l2 as [|b l2 IH] using rev_ind; [rewrite app_nil_r; simpl; lia|].
  rewrite app_assoc, (foldl_app _ (l1 ++ l2)), IH, (foldl_app _ l2), length_app, Nat2Z.inj_add. cbn [foldl length].
  rewrite Z.pow_add_r by lia. simpl Z.of_nat. lia.
Qed.

Lemma be_value_bytes n v : 0 <= v -> be_value (be_bytes n v) = v mod 256 ^ Z.of_nat n.
Proof.
  intros Hv. induction n as [|n IH]; [symmetry; apply Z.mod_1_r|]. cbn [be_bytes].
  change (?b :: ?l) with ([b] ++ l). rewrite be_value_app, IH, be_bytes_length.
  change (be_value [(v / 256 ^ Z.of_nat n) mod 256]) with (0 * 256 + (v / 256 ^ Z.of_nat n) mod 256).
  rewrite Nat2Z.inj_succ, Z.pow_succ_r, (Z.mul_comm 256) by lia.
  rewrite (Z.rem_mul_r v) by (apply Z.pow_nonzero || idtac; lia). lia.
Qed.

Lemma write_be_bytes n v : Forall is_byte (write_be n v).
Proof.
  unfold write_be. generalize (wrapu (8 * Z.of_nat n) v) as x. intros x.
  induction n as [|n IH]; simpl; constructor; [|done]. apply Z.mod_pos_bound. lia.
Qed.

Lemma write_be_length n v : length (write_be n v) = n.
Proof. apply be_bytes_length. Qed.

Lemma reads_be n v : reads (read_be n) (write_be n v) (wrapu (8 * Z.of_nat n) v).
Proof.
  unfold read_be, write_be. eapply reads_map; [apply reads_exact; by rewrite be_bytes_length|].
  rewrite be_value_bytes by (apply Z.mod_pos_bound; apply Z.pow_pos_nonneg; lia).
  unfold wrapu. rewrite (Z.pow_mul_r 2 8) by lia. change (2 ^ 8) with 256.
  rewrite Z.mod_mod by (apply Z.pow_nonzero; lia). apply reads_ret.
Qed.

Lemma reads_be_small n v : is_u (8 * Z.of_nat n) v -> reads (read_be n) (write_be n v) v.
Proof. intros H. rewrite <- (wrapu_small _ _ H) at 2. apply reads_be. Qed.

Lemma reads_i64 v : is_s 64 v -> reads read_i64 (write_be 8 v) v.
Proof.
  intros H. unfold read_i64. eapply reads_map; [apply reads_be|].
  replace (wraps 64 (wrapu (8 * Z.of_nat 8) v)) with v; [apply reads_ret|].
  rewrite <- (wraps_small 64 v) at 1 by (done || lia). unfold wraps, wrapu.
  change (8 * Z.of_nat 8) with 64. by rewrite Z.add_mod_idemp_l by lia.
Qed.

Lemma reads_length version len :
  Z.of_nat len < 2 ^ 32 -> reads (read_length version) (write_length version len) (Z.of_nat len).
Proof.
  intros Hl. assert (is_u 32 (Z.of_nat len)) as Hu by (unfold is_u; lia).
  unfold read_length, write_length. rewrite (wrapu_small 32) by done. destruct (uses_varint version).
  - intros rest. unfold of_result. by rewrite read_write_varint.
  - by apply (reads_be_small 4).
Qed.

Lemma write_length_nonempty version len : write_length version len <> [].
Proof.
  unfold write_length. assert (0 <= wrapu 32 (Z.of_nat len)) by (apply Z.mod_pos_bound; lia).
  destruct (uses_varint version).
  - rewrite write_varint_leb by done. intros E%(f_equal length).
    pose proof (leb_length 5 (wrapu 32 (Z.of_nat len)) ltac:(lia)). simpl length in E at 2. lia.
  - intros E%(f_equal length). by rewrite write_be_length in E.
Qed.

Lemma write_length_bytes version len : Forall is_byte (write_length version len).
Proof.
  unfold write_length. destruct (uses_varint version); [|apply write_be_bytes].
  apply write_varint_bytes, Z.mod_pos_bound. lia.
Qed.

(** *** Skipping *)

Lemma skip_loop_spec fuel n r :
  0 <= n -> (length r + 1 < fuel)%nat ->
  skip_loop fuel n r =
    if n <=? Z.of_nat (length r) then Ret tt (drop (Z.to_nat n) r) else Fail UnexpectedEof.
Proof.
  revert n r. induction fuel as [|fuel IH]; intros n r Hn Hf; [lia|]. cbn [skip_loop].
  destruct (Z.ltb_spec 0 n) as [Hpos|Hz].
  - destruct (Z.eqb_spec (Z.min (Z.min n 8192) (Z.of_nat (length r))) 0) as [E|E].
    + by rewrite (proj2 (Z.leb_gt _ _)) by lia.
    + set (k := Z.min _ _) in *. rewrite IH by (rewrite ?length_drop; lia).
      rewrite length_drop, drop_drop.
      destruct (Z.leb_spec n (Z.of_nat (length r))).
      * rewrite (proj2 (Z.leb_le _ _)) by lia. do 2 f_equal. lia.
      * by rewrite (proj2 (Z.leb_gt _ _)) by lia.
  - rewrite (proj2 (Z.leb_le _ _)) by lia. by replace (Z.to_nat n) with 0%nat by lia.
Qed.

Lemma skip_bytes_spec n r :
  0 <= n ->
  skip_bytes n r = if n <=? Z.of_nat (length r) then Ret tt (drop (Z.to_nat n) r) else Fail UnexpectedEof.
Proof. intros Hn. apply skip_loop_spec; [done|lia]. Qed.

Lemma reads_skip n w : n = Z.of_nat (length w) -> reads (skip_bytes n) w tt.
Proof.
  intros -> rest. rewrite skip_bytes_spec, length_app, (proj2 (Z.leb_le _ _)) by lia.
  by rewrite Nat2Z.id, drop_app_length.
Qed.

(** *** Loops *)

Lemma reads_times {S T : Type} (f : S -> reader S) (wr : T -> bytes) (step : S -> T -> S)
    (ok : S -> Prop) (l : list T) (s : S) :
  ok s ->
  (forall s x, ok s -> x ∈ l -> ok (step s x) /\ reads (f s) (wr x) (step s x)) ->
  reads (times (length l) f s) (concat (wr <$> l)) (foldl step s l).
Proof.
  revert s. induction l as [|x l IH]; intros s Hs Hstep; [apply reads_ret|]. simpl.
  destruct (Hstep s x Hs ltac:(by left)) as [Hs' Hx]. eapply reads_bind; [exact Hx|].
  apply IH; [done|]. intros s' y Hs1 Hy. apply Hstep; [done|by right].
Qed.

Lemma times_app {T} a b (f : T -> reader T) s r :
  times (a + b) f s r = (s ← times a f s; times b f s) r.
Proof.
  revert s r. induction a as [|a IH]; intros s r; [done|]. cbn [times Nat.add].
  unfold mbind, reader_bind. destruct (f s r) as [s' r'|e|]; [apply IH|done|done].
Qed.

Lemma read_length_nil version : read_length version [] = Fail IoEof.
Proof. by destruct version. Qed.

Create HintDb reads discriminated.
#[export] Hint Resolve reads_ret reads_u8 reads_length reads_map_err reads_be_small reads_i64 : reads.
#[export] Hint Extern 1 (reads (read_exact _) _ _) => apply reads_exact : reads.
#[export] Hint Extern 1 (reads (ensure _ _) _ _) => apply reads_ensure : reads.
