(* ===== verification/ZdbValue.v ===== *)
(** * The encoding of the stored values

    Models the value codec of the dump format: [write_value_inner],
    [write_value_versioned] and their wrappers of
    [src/src/engine/zdb/encode.rs], [read_value_with_version] with the reader of
    every type, and [skip_value], of [decode.rs], the compression threshold of
    [compression.rs], and the type [Value] of [src/src/database/types.rs].  The
    containers of a value (the hash, the two halves of a sorted set) are seen
    through the interfaces [MapOps] and [SortedOps]; a list is a [QuickList],
    a cardinality sketch an [Hll].  The compression library is a parameter. *)
From S2P Require Import Prelude Interfaces Ordered Varint QuickList Hll ZdbFormat ZdbReader.
Local Open Scope Z_scope.

(** An [f64], by its bits. *)
Record f64 : Type := mkF64 { f64_bits : Z }.

(** [x as f64] of an [f32], by their bits; a NaN becomes quiet. *)
Definition f32_to_f64 (x : Z) : f64 :=
  let sign := Z.shiftl (Z.shiftr x 31) 63 in
  let exponent := Z.land (Z.shiftr x 23) 0xFF in
  let mantissa := Z.land x 0x7FFFFF in
  mkF64 (Z.lor sign
    (if exponent =? 0xFF then
       Z.lor (Z.shiftl 0x7FF 52)
         (if mantissa =? 0 then 0 else Z.lor (Z.shiftl 1 51) (Z.shiftl mantissa 29))
     else if exponent =? 0 then
       if mantissa =? 0 then 0
       else
         let k := Z.log2 mantissa in
         Z.lor (Z.shiftl (k - 149 + 1023) 52) (Z.land (Z.shiftl mantissa (52 - k)) (Z.ones 52))
     else Z.lor (Z.shiftl (exponent - 127 + 1023) 52) (Z.shiftl mantissa 29))).

Record StreamId : Type := mkStreamId { ms_time : Z; sequence : Z }.

Definition MIN_COMPRESSION_SIZE : nat := 64.
Definition should_compress (size : nat) : bool := (MIN_COMPRESSION_SIZE <=? size)%nat.

Definition DENSE_SIZE : Z := 16 * 1024.
Definition MAX_COMPRESSED_SIZE : Z := 100 * 1024 * 1024.
Definition MAX_STRING_SIZE : Z := 512 * 1024 * 1024.
Definition MAX_COLLECTION_SIZE : Z := 10000000.
Definition MAX_BITMAP_SIZE : Z := 100 * 1024 * 1024.

(** The precision of the sketches of a [Value]. *)
Definition DEFAULT_PRECISION : nat := 14.

(** ** Values

    [H] is the hash container, [D] the dictionary and [S] the ordered half of
    a sorted set.  A [HashSet] or [HashMap] is the list of its items in the order
    of its iteration. *)
Inductive Value {H D S : Type} : Type :=
| VStr (s : bytes)
| VInt (i : Z)
| VFloat (f : f64)
| VBool (b : bool)
| VNull
| VList (l : QuickList.QuickList bytes)
| VArray (a : list Value)
| VHash (h : H)
| VZSet (dict : D) (sorted : S)
| VSet (s : list (bytes * unit))
| VHyperLogLog (h : Hll)
| VSStream (entries : list (StreamId * list (bytes * Value)))
| VBitmap (b : bytes).
Arguments Value : clear implicits.

Section Codec.
Context {H D S : Type} {hash_ops : MapOps H bytes bytes} {dict_ops : MapOps D bytes f64}
  {sorted_ops : SortedOps S f64 bytes} {set_order : HashOrder (bytes * unit)}.

Notation Value := (Value H D S).

(** ** Writing *)

(** A length and the bytes. *)
Definition write_blob (version : FormatVersion) (b : bytes) : bytes :=
  write_length version (length b) ++ b.

Definition write_str (version : FormatVersion) (s : bytes) : bytes :=
  TAG_STR :: write_blob version s.

(** The loop over the fields of a hash. *)
Definition write_field (version : FormatVersion) (e : bytes * bytes) : bytes :=
  write_blob version e.1 ++ write_str version e.2.

(** The loop over the members of a sorted set. *)
Definition write_member (version : FormatVersion) (e : f64 * bytes) : bytes :=
  write_blob version e.2 ++ write_be 8 (f64_bits e.1).

(** A loop that writes item after item. *)
Definition write_each {A} (f : A -> option bytes) : list A -> option bytes :=
  fix go l :=
    match l with
    | [] => Some []
    | x :: l => a ← f x; b ← go l; Some (a ++ b)
    end.

Definition write_hll (version : FormatVersion) (h : Hll) : option bytes :=
  match encoding h with
  | Dense dense => Some (TAG_HLL :: write_blob version (data dense))
  | Sparse sparse =>
      dense ← from_sparse DEFAULT_PRECISION sparse;
      Some (TAG_HLL :: write_blob version (data dense))
  end.

Fixpoint write_value_inner (version : FormatVersion) (v : Value) : option bytes :=
  match v with
  | VStr s => Some (write_str version s)
  | VInt i => Some (TAG_INT :: write_be 8 i)
  | VFloat f => Some (TAG_FLOAT :: write_be 8 (f64_bits f))
  | VBool b => Some [TAG_BOOL; if b then 1 else 0]
  | VNull => Some [TAG_NULL]
  | VList l =>
      Some (TAG_LIST :: write_length version (QuickList.len l) ++
            concat (write_str version <$> QuickList.iter l))
  | VArray a =>
      items ← write_each (write_value_inner version) a;
      Some (TAG_ARRAY :: write_length version (length a) ++ items)
  | VHash h =>
      entries ← map_entries h;
      Some (TAG_HASH :: write_length version (map_len h) ++ concat (write_field version <$> entries))
  | VZSet dict sorted =>
      entries ← sorted_entries sorted;
      Some (TAG_ZSET :: write_length version (map_len dict) ++ concat (write_member version <$> entries))
  | VSet s =>
      Some (TAG_SET :: write_length version (length s) ++ concat (write_blob version <$> s.*1))
  | VHyperLogLog h => write_hll version h
  | VSStream entries =>
      items ← write_each (fun entry =>
        fields ← write_each (fun field =>
          value ← write_value_inner version field.2;
          Some (write_blob version field.1 ++ value)) entry.2;
        Some (write_be 8 (ms_time entry.1) ++ write_be 8 (sequence entry.1) ++
              write_length version (length entry.2) ++ fields)) entries;
      Some (TAG_SSTREAM :: write_length version (length entries) ++ items)
  | VBitmap b => Some (TAG_BITMAP :: write_blob version b)
  end.

Definition write_value_no_compress (v : Value) : option bytes := write_value_inner current v.

(** ** Reading *)

(** A length, checked against a limit, and as many bytes. *)
Definition read_blob (what : string) (limit : Z) (version : FormatVersion) : reader bytes :=
  len ← read_length version;
  _ ← ensure (len <=? limit) (SizeLimit what len limit);
  read_exact len.

(** The number of items of a collection. *)
Definition read_count (what : string) (version : FormatVersion) : reader nat :=
  n ← read_length version;
  _ ← ensure (n <=? MAX_COLLECTION_SIZE) (SizeLimit what n MAX_COLLECTION_SIZE);
  mret (Z.to_nat n).

Definition read_string_value (version : FormatVersion) : reader Value :=
  buf ← read_blob "String" MAX_STRING_SIZE version; mret (VStr buf).

Definition read_int_value : reader Value := i ← read_i64; mret (VInt i).

Definition read_float_value : reader Value := f ← read_be 8; mret (VFloat (mkF64 f)).

Definition read_bool_value : reader Value := b ← read_u8; mret (VBool (negb (b =? 0))).

(** One pass of the loop of [read_hash_value]; [rec] reads a value. *)
Definition read_hash_entry (rec : reader Value) (version : FormatVersion) (map : H) : reader H :=
  kb ← read_blob "Hash key" MAX_STRING_SIZE version;
  raw ← rec;
  val ← match raw with VStr s => mret s | _ => fail (ParseError "Hash") end;
  '(_, map) ← of_option (map_insert map kb val);
  mret map.

Definition read_hash_value (rec : reader Value) (version : FormatVersion) : reader Value :=
  n ← read_count "Hash" version;
  map ← times n (read_hash_entry rec version) map_new;
  mret (VHash map).

Definition read_score (version : FormatVersion) : reader f64 :=
  match version with
  | Legacy => x ← read_be 4; mret (f32_to_f64 x)
  | V1 | V2 | V3 => x ← read_be 8; mret (mkF64 x)
  end.

Definition read_zset_entry (version : FormatVersion) (z : D * S) : reader (D * S) :=
  key ← read_blob "ZSet key" MAX_STRING_SIZE version;
  score ← read_score version;
  '(_, dict) ← of_option (map_insert z.1 key score);
  sorted ← of_option (sorted_insert z.2 score key);
  mret (dict, sorted).

Definition read_zset_value (version : FormatVersion) : reader Value :=
  n ← read_count "Zset" version;
  z ← times n (read_zset_entry version) (map_new, sorted_new);
  mret (VZSet z.1 z.2).

Definition read_set_entry (version : FormatVersion) (set : list (bytes * unit))
  : reader (list (bytes * unit)) :=
  kb ← read_blob "Set element" MAX_STRING_SIZE version; mret (hm_insert kb tt set).2.

Definition read_set_value (version : FormatVersion) : reader Value :=
  n ← read_count "Set" version;
  set ← times n (read_set_entry version) [];
  mret (VSet set).

(** A fresh array of [DENSE_SIZE] bytes with what was read at its start. *)
Definition dense_data (regs : bytes) : bytes :=
  let to_copy := Nat.min (length regs) (Z.to_nat DENSE_SIZE) in
  take to_copy regs ++ replicate (Z.to_nat DENSE_SIZE - to_copy) 0.

Definition hll_limit (version : FormatVersion) : Z :=
  match version with Legacy => DENSE_SIZE | V1 | V2 | V3 => DENSE_SIZE * 2 end.

Definition read_hll_value (version : FormatVersion) : reader Value :=
  regs ← read_blob "HLL" (hll_limit version) version;
  mret (VHyperLogLog (mkHll (Dense (mkHllDense (dense_data regs))) SERIALIZATION_VERSION)).

Definition read_array_value (rec : reader Value) (version : FormatVersion) : reader Value :=
  len ← read_count "Array" version;
  items ← times len (fun items => item ← rec; mret (items ++ [item])) [];
  mret (VArray items).

Definition bitmap_limit (version : FormatVersion) : Z :=
  match version with Legacy => 1024 * 1024 | V1 | V2 | V3 => MAX_BITMAP_SIZE end.

Definition read_bitmap_value (version : FormatVersion) : reader Value :=
  buf ← read_blob "Bitmap" (bitmap_limit version) version; mret (VBitmap buf).

(** [zstd_decode block] is what the decoder yields of a block, and whether it
    ends without an error; the block is what [take(len)] leaves of the reader.
    The value is read from what the decoder yields and the rest is drained. *)
Definition decode_block (zstd_decode : bytes -> bytes * bool) (rec : reader Value) (len : Z)
  : reader Value := fun r =>
  let '(out, complete) := zstd_decode (take (Z.to_nat len) r) in
  match rec out with
  | Ret val _ => if complete then Ret val (drop (Z.to_nat len) r) else Fail IoEof
  | Fail e => Fail e
  | Deep => Deep
  end.

Definition read_compressed_value (zstd_decode : bytes -> bytes * bool) (rec : reader Value)
    (version : FormatVersion) : reader Value :=
  len ← read_length version;
  _ ← ensure (0 <? len) (CompressionError len);
  _ ← ensure (len <=? MAX_COMPRESSED_SIZE) (SizeLimit "Compressed data" len MAX_COMPRESSED_SIZE);
  decode_block zstd_decode rec len.

(** The nesting of the values bounds the recursion; [fuel] is that bound. *)
Fixpoint read_value_with_version (zstd_decode : bytes -> bytes * bool) (fuel : nat)
    (version : FormatVersion) : reader Value :=
  match fuel with
  | O => deep
  | Datatypes.S fuel =>
      let rec := read_value_with_version zstd_decode fuel version in
      tag ← map_err UnexpectedEof read_u8;
      if tag =? TAG_STR then read_string_value version
      else if tag =? TAG_INT then read_int_value
      else if tag =? TAG_FLOAT then read_float_value
      else if tag =? TAG_BOOL then read_bool_value
      else if tag =? TAG_NULL then mret VNull
      else if tag =? TAG_COMPRESSED then read_compressed_value zstd_decode rec version
      else if tag =? TAG_HASH then read_hash_value rec version
      else if tag =? TAG_ZSET then read_zset_value version
      else if tag =? TAG_SET then read_set_value version
      else if tag =? TAG_HLL then read_hll_value version
      else if tag =? TAG_ARRAY then read_array_value rec version
      else if tag =? TAG_BITMAP then read_bitmap_value version
      else fail (InvalidTag tag)
  end.

Definition read_value (zstd_decode : bytes -> bytes * bool) (fuel : nat) : reader Value :=
  read_value_with_version zstd_decode fuel current.

(** ** Compression of a whole value *)

(** [compress_block], an error of which is [None] here. *)
Definition write_value_versioned (compress_block : bytes -> option bytes) (v : Value)
    (version : FormatVersion) : option bytes :=
  buf ← write_value_inner version v;
  if should_compress (length buf) then
    compressed ← compress_block buf;
    Some (TAG_COMPRESSED :: write_blob version compressed)
  else Some buf.

Definition write_value (compress_block : bytes -> option bytes) (v : Value) : option bytes :=
  write_value_versioned compress_block v current.

(** [Value::to_bytes] and [Value::from_bytes]. *)
Definition to_bytes (compress_block : bytes -> option bytes) (v : Value) : option bytes :=
  write_value compress_block v.

Definition from_bytes (zstd_decode : bytes -> bytes * bool) (fuel : nat) (b : bytes)
  : result ZdbError Value :=
  match read_value zstd_decode fuel b with
  | Ret v _ => Ok v
  | Fail e => Err e
  | Deep => Err Unreachable
  end.
End Codec.

(** ** Skipping a value *)

Definition skip_blob (version : FormatVersion) : reader unit :=
  len ← read_length version; skip_bytes len.

Definition skip_score (version : FormatVersion) : reader unit :=
  match version with
  | Legacy => _ ← read_be 4; mret tt
  | V1 | V2 | V3 => _ ← read_be 8; mret tt
  end.

Fixpoint skip_value (fuel : nat) (version : FormatVersion) : reader unit :=
  match fuel with
  | O => deep
  | S fuel =>
      tag ← read_u8;
      if tag =? TAG_NULL then mret tt
      else if tag =? TAG_BOOL then _ ← read_u8; mret tt
      else if tag =? TAG_INT then _ ← read_i64; mret tt
      else if tag =? TAG_FLOAT then _ ← read_be 8; mret tt
      else if tag =? TAG_STR then skip_blob version
      else if tag =? TAG_COMPRESSED then skip_blob version
      else if tag =? TAG_ARRAY then
        count ← read_length version;
        times (Z.to_nat count) (fun _ => skip_value fuel version) tt
      else if tag =? TAG_HASH then
        count ← read_length version;
        times (Z.to_nat count) (fun _ => _ ← skip_blob version; skip_value fuel version) tt
      else if tag =? TAG_SET then
        count ← read_length version;
        times (Z.to_nat count) (fun _ => skip_blob version) tt
      else if tag =? TAG_ZSET then
        count ← read_length version;
        times (Z.to_nat count) (fun _ => _ ← skip_blob version; skip_score version) tt
      else if tag =? TAG_HLL then skip_blob version
      else if tag =? TAG_BITMAP then skip_blob version
      else fail (InvalidTag tag)
  end.

(** ** Pieces of an encoding, read and skipped *)

Lemma reads_blob what limit version b :
  Z.of_nat (length b) <= limit -> limit < 2 ^ 32 ->
  reads (read_blob what limit version) (write_blob version b) b.
Proof.
  intros Hb Hl. unfold read_blob, write_blob. eapply reads_bind; [apply reads_length; lia|].
  eapply reads_step; [apply reads_ensure; by apply Z.leb_le|]. by apply reads_exact.
Qed.

Lemma reads_count what version n :
  Z.of_nat n <= MAX_COLLECTION_SIZE -> reads (read_count what version) (write_length version n) n.
Proof.
  unfold MAX_COLLECTION_SIZE. intros Hn. unfold read_count. eapply reads_map; [apply reads_length; lia|].
  eapply reads_step; [apply reads_ensure; by apply Z.leb_le|]. rewrite Nat2Z.id. apply reads_ret.
Qed.

Lemma reads_skip_blob version b :
  Z.of_nat (length b) < 2 ^ 32 -> reads (skip_blob version) (write_blob version b) tt.
Proof.
  intros Hb. unfold skip_blob, write_blob. eapply reads_bind; [by apply reads_length|]. by apply reads_skip.
Qed.

(** A loop that only skips. *)
Lemma reads_skip_times {T : Type} (f : reader unit) (wr : T -> bytes) (l : list T) :
  Forall (fun x => reads f (wr x) tt) l -> reads (times (length l) (fun _ => f) tt) (concat (wr <$> l)) tt.
Proof.
  rewrite Forall_forall. intros Hf.
  pose proof (reads_times (fun _ => f) wr (fun _ _ => tt) (fun _ => True) l tt I) as Ht.
  destruct (foldl (fun _ _ => tt) tt l). apply Ht. intros [] x _ Hx. by split; [|apply Hf].
Qed.

(** ** What can be stored *)

(** The names are short, the collections small. *)
Abbreviation short b := (Z.of_nat (length b) <= MAX_STRING_SIZE).
Abbreviation few n := (Z.of_nat n <= MAX_COLLECTION_SIZE).

Lemma dense_set_length d i v d' :
  dense_set_register d i v = Some d' -> length (data d') = length (data d).
Proof.
  unfold dense_set_register. destruct (data d !! (i * 6 / 8)%nat); cbn [mbind option_bind]; [|done].
  destruct (vec_set (data d) (i * 6 / 8) _) as [l|] eqn:E1; cbn [mbind option_bind]; [|done].
  apply slice_put_length in E1. rewrite <- E1. destruct (_ <? _)%nat.
  - destruct (vec_set l _ _) as [l'|] eqn:E2; cbn [mbind option_bind]; [|done]. intros [= <-]. by apply slice_put_length in E2.
  - by intros [= <-].
Qed.

Lemma set_registers_length l d d' : set_registers d l = Some d' -> length (data d') = length (data d).
Proof.
  revert d. induction l as [|[i v] l IH]; intros d; simpl; [by intros [= <-]|].
  destruct (dense_set_register d i v) as [d1|] eqn:E; cbn [mbind option_bind]; [|done].
  intros Hl%IH. rewrite Hl. by eapply dense_set_length.
Qed.

(** A dense vector with spare bytes holds the same registers. *)
Lemma holds_dense_padded b r n :
  holds_dense 14 (mkHllDense b) r -> holds_dense 14 (mkHllDense (b ++ replicate n 0)) r.
Proof.
  intros (Hb & Hlen & Hg & Hz). simpl in *.
  assert (Forall is_byte (b ++ replicate n 0)) as Hb'.
  { apply Forall_app. split; [done|]. apply Forall_replicate. unfold is_byte. lia. }
  split_and!; simpl; [done|rewrite length_app; lia| |done].
  intros i Hi. assert (fits b i) as Hf.
  { unfold fits. pose proof (dense_size_exact 14 ltac:(lia)). lia. }
  assert (fits (b ++ replicate n 0) i) as Hf' by (unfold fits in *; rewrite length_app; lia).
  destruct (dense_get_bits b i Hb Hf) as (g & E & Hr & Hbits). rewrite Hg in E by done. injection E as ->.
  destruct (dense_get_bits _ i Hb' Hf') as (g' & E' & Hr' & Hbits'). rewrite E'. f_equal.
  apply six_bits_eq; [done|done|]. intros j Hj. rewrite Hbits, Hbits' by done. unfold dbit.
  rewrite lookup_app_l; [done|]. apply Nat.Div0.div_lt_upper_bound. unfold fits in Hf. lia.
Qed.

Lemma dense_data_short b :
  Z.of_nat (length b) <= DENSE_SIZE ->
  dense_data b = b ++ replicate (Z.to_nat DENSE_SIZE - length b) 0.
Proof.
  intros Hb. unfold dense_data. rewrite Nat.min_l by lia. by rewrite take_ge.
Qed.

Lemma registers_14 : Z.of_nat (num_registers 14) = DENSE_SIZE.
Proof. unfold num_registers. by rewrite Nat2Z.inj_pow. Qed.

(** A dense sketch: twelve or sixteen kilobytes. *)
Definition small_hll (h : Hll) : Prop :=
  match encoding h with
  | Dense d => Z.of_nat (length (data d)) <= DENSE_SIZE
  | Sparse _ => True
  end.

Lemma write_hll_spec version h r :
  Hll.Holds 14 h r -> small_hll h ->
  exists b, write_hll version h = Some (TAG_HLL :: write_blob version b) /\
    Z.of_nat (length b) <= DENSE_SIZE /\
    Hll.Holds 14 (mkHll (Dense (mkHllDense (dense_data b))) SERIALIZATION_VERSION) r.
Proof.
  intros Hh Hs. unfold write_hll, Hll.Holds, small_hll in *.
  assert (forall b, holds_dense 14 (mkHllDense b) r -> Z.of_nat (length b) <= DENSE_SIZE ->
    holds_dense 14 (mkHllDense (dense_data b)) r) as Hpad.
  { intros b Hb Hl. rewrite dense_data_short by done. by apply holds_dense_padded. }
  destruct (encoding h) as [s|[b]]; simpl in *.
  - destruct (from_sparse_spec 14 ltac:(lia) s r Hh) as ([b] & E & Hd). unfold DEFAULT_PRECISION. rewrite E.
    cbn [mbind option_bind]. exists b. assert (Z.of_nat (length b) <= DENSE_SIZE) as Hl.
    { apply set_registers_length in E. unfold dense_new in E. cbn [data] in E. rewrite E, length_replicate.
      pose proof (dense_size_exact 14 ltac:(lia)) as Hd'. pose proof registers_14. unfold DENSE_SIZE in *. lia. }
    split_and!; [done|done|by apply Hpad].
  - exists b. split_and!; [done|done|by apply Hpad].
Qed.

Section Roundtrip.
Context {H D S : Type} {hash_ops : MapOps H bytes bytes} {dict_ops : MapOps D bytes f64}
  {sorted_ops : SortedOps S f64 bytes} {set_order : HashOrder (bytes * unit)}
  {score_ord : Ord f64} {hash_laws : MapLaws H bytes bytes} {dict_laws : MapLaws D bytes f64}
  {sorted_laws : SortedLaws S f64 bytes}.

Notation Value := (Value H D S).
Implicit Types (version : FormatVersion) (fuel : nat) (e : bytes * bytes).

(** The values that a dump of a version can hold: within the limits of the
    reader, without a list or a stream, and with sorted sets whose two halves
    agree. *)
Inductive storable (version : FormatVersion) : Value -> Prop :=
| st_str s : short s -> storable version (VStr s)
| st_int i : is_s 64 i -> storable version (VInt i)
| st_float f : is_u 64 (f64_bits f) -> storable version (VFloat f)
| st_bool b : storable version (VBool b)
| st_null : storable version VNull
| st_array a : few (length a) -> Forall (storable version) a -> storable version (VArray a)
| st_hash (h : H) (m : gmap bytes bytes) :
    map_repr h m -> few (size m) -> map_Forall (fun k x => short k /\ short x) m ->
    storable version (VHash h)
| st_zset (d : D) (s : S) (m : gmap bytes f64) (kvs : list (f64 * bytes)) :
    version <> Legacy -> map_repr d m -> sorted_repr s kvs ->
    prod_swap <$> kvs ≡ₚ map_to_list m -> few (size m) ->
    map_Forall (fun k x => short k /\ is_u 64 (f64_bits x)) m -> storable version (VZSet d s)
| st_set (s : list (bytes * unit)) (m : gmap bytes unit) :
    hm_repr s m -> few (size m) -> map_Forall (fun k _ => short k) m -> storable version (VSet s)
| st_hll h r : Hll.Holds 14 h r -> small_hll h -> storable version (VHyperLogLog h)
| st_bitmap b : Z.of_nat (length b) <= bitmap_limit version -> storable version (VBitmap b).

(** [v'] is [v] up to what the containers do not show. *)
Inductive loads_as : Value -> Value -> Prop :=
| la_str s : loads_as (VStr s) (VStr s)
| la_int i : loads_as (VInt i) (VInt i)
| la_float f : loads_as (VFloat f) (VFloat f)
| la_bool b : loads_as (VBool b) (VBool b)
| la_null : loads_as VNull VNull
| la_array a a' : Forall2 loads_as a a' -> loads_as (VArray a) (VArray a')
| la_hash (h h' : H) (m : gmap bytes bytes) : map_repr h m -> map_repr h' m -> loads_as (VHash h) (VHash h')
| la_zset (d d' : D) (s s' : S) (m : gmap bytes f64) (kvs : list (f64 * bytes)) :
    map_repr d m -> map_repr d' m -> sorted_repr s kvs -> sorted_repr s' kvs ->
    loads_as (VZSet d s) (VZSet d' s')
| la_set (s s' : list (bytes * unit)) (m : gmap bytes unit) : hm_repr s m -> hm_repr s' m -> loads_as (VSet s) (VSet s')
| la_hll h h' r : Hll.Holds 14 h r -> Hll.Holds 14 h' r -> loads_as (VHyperLogLog h) (VHyperLogLog h')
| la_bitmap b : loads_as (VBitmap b) (VBitmap b).

(** The nesting of a value; the values of a hash are one level deeper. *)
Fixpoint depth (v : Value) : nat :=
  match v with
  | VArray a => Datatypes.S (foldr (fun v n => Nat.max (depth v) n) 0%nat a)
  | VHash _ => 2
  | _ => 1
  end.

Lemma value_ind' (P : Value -> Prop) :
  (forall a, Forall P a -> P (VArray a)) -> (forall v, (forall a, v <> VArray a) -> P v) -> forall v, P v.
Proof.
  intros Ha Ho. fix IH 1. intros v. destruct v; try (apply Ho; done). apply Ha.
  induction a as [|x a IHa]; constructor; [apply IH|exact IHa].
Qed.

(** *** The containers rebuilt *)

Definition hash_step (map : H) (e : bytes * bytes) : H :=
  match map_insert map e.1 e.2 with Some (_, map) => map | None => map end.

Definition zset_step (z : D * S) (e : f64 * bytes) : D * S :=
  match map_insert z.1 e.2 e.1, sorted_insert z.2 e.1 e.2 with
  | Some (_, d), Some s => (d, s)
  | _, _ => z
  end.

Definition set_step (set : list (bytes * unit)) (k : bytes) : list (bytes * unit) := (hm_insert k tt set).2.

Lemma hash_steps (map : H) (m : gmap bytes bytes) (l : list (bytes * bytes)) :
  map_repr map m -> map_repr (foldl hash_step map l) (insert_pairs m l).
Proof.
  revert map m. induction l as [|[k x] l IH]; intros map m Hm; [done|]. simpl. apply IH.
  unfold hash_step. simpl. by destruct (map_repr_insert map m k x Hm) as (map' & -> & ?).
Qed.

Lemma zset_steps (d : D) (s : S) (m : gmap bytes f64) (kvs : list (f64 * bytes)) (l : list (f64 * bytes)) :
  map_repr d m -> sorted_repr s kvs ->
  map_repr (foldl zset_step (d, s) l).1 (insert_pairs m (prod_swap <$> l)) /\
  sorted_repr (foldl zset_step (d, s) l).2 (spec_insert_all kvs l).
Proof.
  revert d s m kvs. induction l as [|[x k] l IH]; intros d s m kvs Hd Hs; [done|]. simpl.
  unfold zset_step at 2 4. simpl.
  destruct (map_repr_insert d m k x Hd) as (d' & -> & Hd').
  destruct (sorted_repr_insert s kvs x k Hs) as (s' & -> & Hs'). by apply IH.
Qed.

Lemma set_steps (set : list (bytes * unit)) (m : gmap bytes unit) (l : list bytes) :
  hm_repr set m -> hm_repr (foldl set_step set l) (insert_pairs m ((fun k => (k, tt)) <$> l)).
Proof.
  revert set m. induction l as [|k l IH]; intros set m Hm; [done|]. simpl. apply IH.
  by apply (hm_insert_spec set m k tt).
Qed.

Lemma rebuilt_map {V} (m : gmap bytes V) (l : list (bytes * V)) : l ≡ₚ map_to_list m -> insert_pairs ∅ l = m.
Proof. apply insert_pairs_entries. Qed.

(** *** Round trips of the parts *)

Context (zstd_decode : bytes -> bytes * bool).
Notation read fuel version := (read_value_with_version zstd_decode fuel version).

(** A value read from its tag and the rest. *)
Lemma reads_tagged fuel version tag w v :
  reads (let rec := read fuel version in
         if tag =? TAG_STR then read_string_value version
         else if tag =? TAG_INT then read_int_value
         else if tag =? TAG_FLOAT then read_float_value
         else if tag =? TAG_BOOL then read_bool_value
         else if tag =? TAG_NULL then mret VNull
         else if tag =? TAG_COMPRESSED then read_compressed_value zstd_decode rec version
         else if tag =? TAG_HASH then read_hash_value rec version
         else if tag =? TAG_ZSET then read_zset_value version
         else if tag =? TAG_SET then read_set_value version
         else if tag =? TAG_HLL then read_hll_value version
         else if tag =? TAG_ARRAY then read_array_value rec version
         else if tag =? TAG_BITMAP then read_bitmap_value version
         else fail (InvalidTag tag)) w v ->
  reads (read (Datatypes.S fuel) version) (tag :: w) v.
Proof. intros Hr. exact (reads_bind _ _ [tag] w _ _ (reads_map_err _ _ _ _ (reads_u8 tag)) Hr). Qed.

Lemma reads_str fuel version s :
  short s -> reads (read (Datatypes.S fuel) version) (write_str version s) (VStr s).
Proof.
  intros Hs. apply reads_tagged. eapply reads_map; [apply reads_blob; [done|reflexivity]|]. apply reads_ret.
Qed.

Lemma reads_hash_entry fuel version (map : H) (m : gmap bytes bytes) e :
  map_repr map m -> short e.1 -> short e.2 ->
  reads (read_hash_entry (read (Datatypes.S fuel) version) version map) (write_field version e) (hash_step map e).
Proof.
  intros Hm Hk Hx. unfold read_hash_entry, write_field.
  eapply reads_bind; [apply reads_blob; [done|reflexivity]|].
  eapply reads_map; [by apply reads_str|]. eapply reads_step; [apply reads_ret|].
  destruct (map_repr_insert map m e.1 e.2 Hm) as (map' & E & _).
  eapply reads_step; [by apply reads_option|]. unfold hash_step. rewrite E. apply reads_ret.
Qed.

Lemma reads_hash version (h : H) (m : gmap bytes bytes) :
  map_repr h m -> few (size m) -> map_Forall (fun k x => short k /\ short x) m ->
  exists es h', map_entries h = Some es /\ map_repr h' m /\ map_len h = length es /\
    Forall (fun e => short e.1 /\ short e.2) es /\
    forall fuel, reads (read_hash_value (read (Datatypes.S fuel) version) version)
      (write_length version (map_len h) ++ concat (write_field version <$> es)) (VHash h' : Value).
Proof.
  intros Hh Hf Hs. destruct (map_repr_entries h m Hh) as (es & -> & Hp).
  assert (length es = size m) as Hlen by (rewrite Hp; apply length_map_to_list).
  exists es, (foldl hash_step map_new es). rewrite (map_repr_len h m Hh).
  pose proof (hash_steps map_new ∅ es map_repr_new) as Hr. rewrite (rebuilt_map m es Hp) in Hr.
  split_and!; [done|done|done| |].
  { rewrite Forall_forall. intros [k x] Hin. apply Hs, elem_of_map_to_list. by rewrite <- Hp. }
  intros fuel. unfold read_hash_value. eapply reads_bind; [by apply reads_count|].
  eapply reads_map; [|apply reads_ret]. rewrite <- Hlen.
  apply (reads_times _ _ hash_step (fun map => exists m' : gmap bytes bytes, map_repr map m')).
  { exists ∅. apply map_repr_new. }
  intros map e [m' Hm'] He. assert (m !! e.1 = Some e.2) as Hme.
  { apply elem_of_map_to_list. rewrite <- Hp. by destruct e. }
  split; [exists (insert_pairs m' [e]); by apply (hash_steps map m' [e])|].
  destruct (Hs _ _ Hme). by eapply reads_hash_entry.
Qed.

Lemma reads_zset_entry version (z : D * S) (m : gmap bytes f64) (kvs : list (f64 * bytes)) (e : f64 * bytes) :
  version <> Legacy -> map_repr z.1 m -> sorted_repr z.2 kvs -> short e.2 -> is_u 64 (f64_bits e.1) ->
  reads (read_zset_entry version z) (write_member version e) (zset_step z e).
Proof.
  intros Hv Hd Hs Hk Hx. unfold read_zset_entry, write_member.
  eapply reads_bind; [apply reads_blob; [done|reflexivity]|].
  eapply (reads_map _ _ _ e.1).
  { unfold read_score. destruct version; [done|..];
      (eapply reads_map; [by apply (reads_be_small 8)|]; destruct e as [[x] k]; apply reads_ret). }
  unfold zset_step.
  destruct (map_repr_insert z.1 m e.2 e.1 Hd) as (d & -> & _).
  destruct (sorted_repr_insert z.2 kvs e.1 e.2 Hs) as (s & -> & _). by intros rest.
Qed.

Lemma reads_zset version (d : D) (s : S) (m : gmap bytes f64) (kvs : list (f64 * bytes)) :
  version <> Legacy -> map_repr d m -> sorted_repr s kvs -> prod_swap <$> kvs ≡ₚ map_to_list m ->
  few (size m) -> map_Forall (fun k x => short k /\ is_u 64 (f64_bits x)) m ->
  exists d' s', sorted_entries s = Some kvs /\ map_repr d' m /\ sorted_repr s' kvs /\
    reads (read_zset_value version)
      (write_length version (map_len d) ++ concat (write_member version <$> kvs)) (VZSet d' s' : Value).
Proof.
  intros Hv Hd Hs Hp Hf Hall. destruct (sorted_repr_entries s kvs Hs) as [He Hsort].
  assert (length kvs = size m) as Hlen.
  { rewrite <- (length_fmap prod_swap kvs), Hp. apply length_map_to_list. }
  destruct (zset_steps map_new sorted_new ∅ [] kvs map_repr_new sorted_repr_new) as [H1 H2].
  rewrite (rebuilt_map m _ Hp) in H1. rewrite (spec_insert_sorted_all kvs []) in H2 by done.
  exists (foldl zset_step (map_new, sorted_new) kvs).1, (foldl zset_step (map_new, sorted_new) kvs).2.
  split_and!; [done|done|done|]. rewrite (map_repr_len d m Hd). unfold read_zset_value.
  eapply reads_bind; [by apply reads_count|]. eapply reads_map; [|apply reads_ret]. rewrite <- Hlen.
  apply (reads_times _ _ zset_step (fun z => exists (m' : gmap bytes f64) kvs', map_repr z.1 m' /\ sorted_repr z.2 kvs')).
  { exists ∅, []. split; [apply map_repr_new|apply sorted_repr_new]. }
  intros z e (m' & kvs' & Hd' & Hs') He'. assert (m !! e.2 = Some e.1) as Hme.
  { apply elem_of_map_to_list. rewrite <- Hp. apply list_elem_of_fmap. by exists e; destruct e. }
  destruct (Hall _ _ Hme) as [Hk Hx]. split; [|by eapply reads_zset_entry].
  destruct z as [d0 s0]. destruct (zset_steps d0 s0 m' kvs' [e] Hd' Hs'). by eexists _, _.
Qed.

Lemma reads_set version (s : list (bytes * unit)) (m : gmap bytes unit) :
  hm_repr s m -> few (size m) -> map_Forall (fun k _ => short k) m ->
  exists s', hm_repr s' m /\
    reads (read_set_value version) (write_length version (length s) ++ concat (write_blob version <$> s.*1)) (VSet s' : Value).
Proof.
  intros Hs Hf Hall. exists (foldl set_step [] s.*1).
  pose proof (set_steps [] ∅ s.*1 hm_repr_nil) as Hr.
  assert ((fun k => (k, tt)) <$> s.*1 = s) as Es.
  { clear. induction s as [|[k []] s IH]; [done|]. simpl. by f_equal. }
  rewrite Es, (rebuilt_map m s Hs) in Hr. split; [done|]. unfold read_set_value.
  eapply reads_bind; [apply reads_count; by rewrite (hm_repr_length s m Hs)|].
  eapply reads_map; [|apply reads_ret]. rewrite <- (length_fmap fst s).
  apply (reads_times _ _ set_step (fun _ => True)); [done|]. intros set k _ Hk. split; [done|].
  apply list_elem_of_fmap in Hk as ([k' []] & -> & Hin).
  assert (m !! k' = Some tt) as Hm by (apply elem_of_map_to_list; unfold hm_repr in Hs; by rewrite <- Hs).
  unfold read_set_entry. eapply reads_map; [|apply reads_ret]. apply reads_blob; [|reflexivity].
  exact (Hall _ _ Hm).
Qed.

(** *** Skips of the parts *)

Lemma skips_tagged fuel version tag w :
  reads (if tag =? TAG_NULL then mret tt
      else if tag =? TAG_BOOL then _ ← read_u8; mret tt
      else if tag =? TAG_INT then _ ← read_i64; mret tt
      else if tag =? TAG_FLOAT then _ ← read_be 8; mret tt
      else if tag =? TAG_STR then skip_blob version
      else if tag =? TAG_COMPRESSED then skip_blob version
      else if tag =? TAG_ARRAY then
        count ← read_length version;
        times (Z.to_nat count) (fun _ => skip_value fuel version) tt
      else if tag =? TAG_HASH then
        count ← read_length version;
        times (Z.to_nat count) (fun _ => _ ← skip_blob version; skip_value fuel version) tt
      else if tag =? TAG_SET then
        count ← read_length version;
        times (Z.to_nat count) (fun _ => skip_blob version) tt
      else if tag =? TAG_ZSET then
        count ← read_length version;
        times (Z.to_nat count) (fun _ => _ ← skip_blob version; skip_score version) tt
      else if tag =? TAG_HLL then skip_blob version
      else if tag =? TAG_BITMAP then skip_blob version
      else fail (InvalidTag tag)) w tt ->
  reads (skip_value (Datatypes.S fuel) version) (tag :: w) tt.
Proof. intros Hr. exact (reads_bind _ _ [tag] w _ _ (reads_u8 tag) Hr). Qed.

(** A counted loop. *)
Lemma skips_counted {T : Type} version (f : reader unit) (wr : T -> bytes) (l : list T) n :
  n = length l -> few n -> Forall (fun x => reads f (wr x) tt) l ->
  reads (count ← read_length version; times (Z.to_nat count) (fun _ => f) tt)
    (write_length version n ++ concat (wr <$> l)) tt.
Proof.
  unfold MAX_COLLECTION_SIZE. intros -> Hn Hf. eapply reads_bind; [apply reads_length; lia|].
  rewrite Nat2Z.id. by apply reads_skip_times.
Qed.

Lemma short_u32 (b : bytes) : short b -> Z.of_nat (length b) < 2 ^ 32.
Proof. unfold MAX_STRING_SIZE. lia. Qed.

Lemma skips_str fuel version (s : bytes) :
  short s -> reads (skip_value (Datatypes.S fuel) version) (write_str version s) tt.
Proof. intros Hs. apply skips_tagged, reads_skip_blob. by apply short_u32. Qed.

Lemma reads_score version x : version <> Legacy -> reads (skip_score version) (write_be 8 x) tt.
Proof.
  intros Hv. destruct version; [done|..]; (eapply reads_map; [apply reads_be|apply reads_ret]).
Qed.

(** ** The round trip *)

(** The encoding of [v] is read back as [v] up to what its containers do not
    show, and skipped, by any reader that starts with it. *)
Definition round_trips version (v : Value) : Prop :=
  exists w v', write_value_inner version v = Some w /\ loads_as v v' /\
    forall fuel, (depth v <= fuel)%nat ->
      reads (read fuel version) w v' /\ reads (skip_value fuel version) w tt.

Lemma round_trips_flat version (v v' : Value) w tag :
  write_value_inner version v = Some (tag :: w) -> loads_as v v' ->
  (forall fuel, reads (read (Datatypes.S fuel) version) (tag :: w) v' /\
     reads (skip_value (Datatypes.S fuel) version) (tag :: w) tt) ->
  round_trips version v.
Proof.
  intros Hw Hl Hr. exists (tag :: w), v'. split_and!; [done|done|]. intros fuel Hf.
  destruct fuel as [|fuel]; [destruct v; simpl in Hf; lia|]. apply Hr.
Qed.

Lemma round_trips_array version (a : list Value) :
  few (length a) -> Forall (round_trips version) a -> round_trips version (VArray a).
Proof.
  intros Hn Ha.
  assert (exists l : list (bytes * Value), write_each (write_value_inner version) a = Some (concat l.*1) /\
    length l = length a /\ Forall2 loads_as a l.*2 /\
    forall fuel, (depth (VArray a) <= Datatypes.S fuel)%nat ->
      Forall (fun x => reads (read fuel version) x.1 x.2 /\ reads (skip_value fuel version) x.1 tt) l)
    as (l & Hw & Hlen & Hl & Hr).
  { clear Hn. induction Ha as [|v a (w & v' & Hv & Hlv & Hrv) Ha IH].
    - exists []. split_and!; [done|done|constructor|]. intros. constructor.
    - destruct IH as (l & Hw & Hlen & Hl & Hr). exists ((w, v') :: l). simpl in *.
      rewrite Hv. cbn [mbind option_bind]. rewrite Hw. split_and!; [done|lia|by constructor|].
      intros fuel Hf. constructor; [apply Hrv; lia|]. apply Hr. lia. }
  exists (TAG_ARRAY :: write_length version (length a) ++ concat l.*1), (VArray l.*2).
  cbn [write_value_inner]. rewrite Hw. split_and!; [done|by constructor|].
  intros [|fuel] Hf; [simpl in Hf; lia|]. specialize (Hr fuel Hf). rewrite <- Hlen in *. split.
  - apply reads_tagged. eapply reads_bind; [by apply reads_count|].
    eapply reads_map; [|apply reads_ret].
    assert (forall acc, foldl (fun acc x => acc ++ [x.2]) acc l = acc ++ l.*2) as Hpush.
    { clear. induction l as [|x l IH]; intros acc; simpl; [by rewrite app_nil_r|].
      by rewrite IH, <- app_assoc. }
    change l.*2 with ([] ++ l.*2). rewrite <- (Hpush []).
    apply (reads_times _ fst (fun acc x => acc ++ [x.2]) (fun _ => True)); [done|].
    intros acc x _ Hx. split; [done|]. rewrite Forall_forall in Hr.
    eapply reads_map; [by apply (Hr x)|apply reads_ret].
  - apply skips_tagged. apply (skips_counted version _ fst l); [done|done|].
    eapply Forall_impl; [exact Hr|]. by intros x [_ Hx].
Qed.

Lemma storable_round_trips version v : storable version v -> round_trips version v.
Proof.
  induction v as [a IH|v Hv] using value_ind'; intros Hs.
  { inversion Hs as [| | | | |a' Hn Ha| | | | |]; subst. apply round_trips_array; [done|].
    rewrite Forall_forall in *. intros x Hx. apply IH; [done|by apply Ha]. }
  destruct Hs as [s Hs|i Hi|f Hf|b| |a Hn Ha|h m Hm Hf Hall|d s m kvs Hver Hd Hs Hp Hf Hall|s m Hs Hf Hall|h r Hh Hsm|b Hb].
  - apply (round_trips_flat version _ (VStr s) (write_blob version s) TAG_STR); [done|constructor|].
    intros fuel. split; [by apply reads_str|by apply skips_str].
  - apply (round_trips_flat version _ (VInt i) (write_be 8 i) TAG_INT); [done|constructor|].
    intros fuel. split.
    + apply reads_tagged. eapply reads_map; [by apply reads_i64|apply reads_ret].
    + apply skips_tagged. eapply reads_map; [by apply reads_i64|apply reads_ret].
  - apply (round_trips_flat version _ (VFloat f) (write_be 8 (f64_bits f)) TAG_FLOAT); [done|constructor|].
    intros fuel. split.
    + apply reads_tagged. eapply reads_map; [by apply (reads_be_small 8)|].
      destruct f. apply reads_ret.
    + apply skips_tagged. eapply reads_map; [apply reads_be|apply reads_ret].
  - apply (round_trips_flat version _ (VBool b) [if b then 1 else 0] TAG_BOOL); [done|constructor|].
    intros fuel. split; intros rest; by destruct b.
  - apply (round_trips_flat version _ VNull [] TAG_NULL); [done|constructor|].
    intros fuel. split; by intros rest.
  - by destruct (Hv a).
  - destruct (reads_hash version h m Hm Hf Hall) as (es & h' & He & Hh' & Hlen & Hes & Hr).
    exists (TAG_HASH :: write_length version (map_len h) ++ concat (write_field version <$> es)), (VHash h').
    split_and!; [simpl; by rewrite He|by econstructor|].
    intros [|[|fuel]] Hfu; [simpl in Hfu; lia..|]. split.
    + apply reads_tagged, Hr.
    + apply skips_tagged, skips_counted; [done|by rewrite (map_repr_len h m Hm)|].
      eapply Forall_impl; [exact Hes|]. intros e [H1 H2].
      eapply reads_bind; [by apply reads_skip_blob, short_u32|by apply skips_str].
  - destruct (reads_zset version d s m kvs Hver Hd Hs Hp Hf Hall) as (d' & s' & He & Hd' & Hs' & Hr).
    apply (round_trips_flat version _ (VZSet d' s')
      (write_length version (map_len d) ++ concat (write_member version <$> kvs)) TAG_ZSET);
      [simpl; by rewrite He|by econstructor|].
    intros fuel. split; [by apply reads_tagged|]. apply skips_tagged, skips_counted.
    + rewrite (map_repr_len d m Hd), <- (length_fmap prod_swap kvs), Hp. symmetry. apply length_map_to_list.
    + by rewrite (map_repr_len d m Hd).
    + rewrite Forall_forall. intros e Hin. eapply reads_bind; [|by apply reads_score].
      apply reads_skip_blob, short_u32. apply (Hall e.2 e.1), elem_of_map_to_list. rewrite <- Hp.
      apply list_elem_of_fmap. by exists e; destruct e.
  - destruct (reads_set version s m Hs Hf Hall) as (s' & Hs' & Hr).
    apply (round_trips_flat version _ (VSet s')
      (write_length version (length s) ++ concat (write_blob version <$> s.*1)) TAG_SET);
      [done|by econstructor|].
    intros fuel. split; [by apply reads_tagged|]. apply skips_tagged, skips_counted.
    + by rewrite length_fmap.
    + by rewrite (hm_repr_length s m Hs).
    + rewrite Forall_forall. intros k ([k' []] & -> & Hin)%list_elem_of_fmap.
      apply reads_skip_blob, short_u32. apply (Hall k' tt), elem_of_map_to_list.
      unfold hm_repr in Hs. by rewrite <- Hs.
  - destruct (write_hll_spec version h r Hh Hsm) as (b & Hw & Hb & Hh').
    apply (round_trips_flat version _
      (VHyperLogLog (mkHll (Dense (mkHllDense (dense_data b))) SERIALIZATION_VERSION))
      (write_blob version b) TAG_HLL); [exact Hw|by apply (la_hll _ _ r)|].
    assert (hll_limit version < 2 ^ 32 /\ DENSE_SIZE <= hll_limit version) as [? ?]
      by (by destruct version).
    intros fuel. split.
    + apply reads_tagged. eapply reads_map; [apply reads_blob; lia|apply reads_ret].
    + apply skips_tagged, reads_skip_blob. lia.
  - assert (bitmap_limit version < 2 ^ 32) by (by destruct version).
    apply (round_trips_flat version _ (VBitmap b) (write_blob version b) TAG_BITMAP); [done|constructor|].
    intros fuel. split.
    + apply reads_tagged. eapply reads_map; [apply reads_blob; lia|apply reads_ret].
    + apply skips_tagged, reads_skip_blob. lia.
Qed.

(** ** Compression *)

(** What the readers rely on: a block that the library compresses is not empty
    and is decoded, to its end, as what was compressed. *)
Definition zstd_inverse (compress_block : bytes -> option bytes) : Prop :=
  forall b c, compress_block b = Some c -> c <> [] /\ zstd_decode c = (b, true).

Lemma reads_compressed fuel version w c v' :
  reads (read fuel version) w v' -> c <> [] -> zstd_decode c = (w, true) ->
  Z.of_nat (length c) <= MAX_COMPRESSED_SIZE ->
  reads (read (Datatypes.S fuel) version) (TAG_COMPRESSED :: write_blob version c) v'.
Proof.
  intros Hr Hc Hz Hl. apply reads_tagged. assert (0 < length c)%nat by (destruct c; [done|simpl; lia]).
  assert (MAX_COMPRESSED_SIZE < 2 ^ 32) by done.
  unfold write_blob. eapply reads_bind; [apply reads_length; lia|].
  eapply reads_step; [apply reads_ensure, Z.ltb_lt; lia|].
  eapply reads_step; [by apply reads_ensure, Z.leb_le|].
  intros rest. unfold decode_block. rewrite Nat2Z.id, take_app_length, drop_app_length, Hz.
  specialize (Hr []). rewrite app_nil_r in Hr. by rewrite Hr.
Qed.

Lemma skips_compressed fuel version c :
  Z.of_nat (length c) <= MAX_COMPRESSED_SIZE ->
  reads (skip_value (Datatypes.S fuel) version) (TAG_COMPRESSED :: write_blob version c) tt.
Proof.
  intros Hl. assert (MAX_COMPRESSED_SIZE < 2 ^ 32) by done. apply skips_tagged, reads_skip_blob. lia.
Qed.

Lemma versioned_round_trips version v compress_block w :
  storable version v -> zstd_inverse compress_block ->
  write_value_versioned compress_block v version = Some w ->
  Z.of_nat (length w) <= MAX_COMPRESSED_SIZE ->
  exists v', loads_as v v' /\
    forall fuel, (depth v < fuel)%nat ->
      reads (read fuel version) w v' /\ reads (skip_value fuel version) w tt.
Proof.
  intros Hs Hz Hw Hl. destruct (storable_round_trips version v Hs) as (buf & v' & Hb & Hv & Hr).
  unfold write_value_versioned in Hw. rewrite Hb in Hw. cbn [mbind option_bind] in Hw. exists v'. split; [done|].
  intros fuel Hf. destruct (should_compress (length buf)).
  - destruct (compress_block buf) as [c|] eqn:Hc; cbn [mbind option_bind] in Hw; [|done].
    injection Hw as <-. destruct (Hz buf c Hc) as [Hne Hdec].
    simpl length in Hl. unfold write_blob in Hl. rewrite length_app in Hl.
    destruct fuel as [|fuel]; [lia|]. split; [|apply skips_compressed; lia].
    apply (reads_compressed fuel version buf); [apply Hr; lia|done|done|lia].
  - injection Hw as <-. apply Hr. lia.
Qed.
End Roundtrip.

(** ** Recursion and fuel *)

(** More fuel changes nothing once there was enough. *)
Definition extends {A} (m1 m2 : reader A) : Prop := forall r, m1 r <> Deep -> m2 r = m1 r.

Lemma extends_refl {A} (m : reader A) : extends m m.
Proof. by intros r. Qed.

Lemma extends_bind {A B} (m1 m2 : reader A) (k1 k2 : A -> reader B) :
  extends m1 m2 -> (forall a, extends (k1 a) (k2 a)) -> extends (m1 ≫= k1) (m2 ≫= k2).
Proof.
  intros Hm Hk r. unfold mbind, reader_bind. intros Hd. rewrite Hm by (intros E; by rewrite E in Hd).
  destruct (m1 r) as [a r'|e|]; [|done|done]. by apply Hk.
Qed.

Lemma extends_times {T} n (f1 f2 : T -> reader T) s :
  (forall s, extends (f1 s) (f2 s)) -> extends (times n f1 s) (times n f2 s).
Proof.
  intros Hf. revert s. induction n as [|n IH]; intros s; [apply extends_refl|]. by apply extends_bind.
Qed.

(** A reader with a bound: with less than [k] bytes left it ends, and it gives
    back no more than it got. *)
Definition ends_within {A} (k : nat) (m : reader A) : Prop :=
  forall r, (length r < k)%nat ->
    match m r with
    | Ret _ rest => (length rest <= length r)%nat
    | Fail _ => True
    | Deep => False
    end.

Lemma ends_bind {A B} k (m : reader A) (f : A -> reader B) :
  ends_within k m -> (forall a, ends_within k (f a)) -> ends_within k (m ≫= f).
Proof.
  intros Hm Hf r Hr. unfold mbind, reader_bind. specialize (Hm r Hr). destruct (m r) as [a r1|e|]; [|done|done].
  specialize (Hf a r1 ltac:(lia)). destruct (f a r1); [lia|done|done].
Qed.

Lemma ends_u8 {B} k (f : Z -> reader B) :
  (forall tag, ends_within k (f tag)) -> ends_within (S k) (read_u8 ≫= f).
Proof.
  intros Hf [|b r] Hr; [done|]. change ((read_u8 ≫= f) (b :: r)) with (f b r). simpl in Hr |- *.
  specialize (Hf b r ltac:(lia)). destruct (f b r); [lia|done|done].
Qed.

Lemma ends_ret {A} k (a : A) : ends_within k (mret a).
Proof. intros r _. simpl. lia. Qed.

Lemma ends_fail {A} k e : ends_within (A := A) k (fail e).
Proof. by intros r _. Qed.

Lemma ends_exact k n : ends_within k (read_exact n).
Proof.
  intros r _. unfold read_exact. destruct (_ <=? _); [|done]. rewrite length_drop. lia.
Qed.

Lemma ends_skip_bytes k n : ends_within k (skip_bytes n).
Proof.
  intros r _. destruct (Z.leb_spec 0 n).
  - rewrite skip_bytes_spec by done. destruct (_ <=? _); [|done]. rewrite length_drop. lia.
  - unfold skip_bytes. cbn [skip_loop]. by rewrite (proj2 (Z.ltb_ge 0 n)) by lia.
Qed.

Lemma ends_length k version : ends_within k (read_length version).
Proof.
  unfold read_length. destruct (uses_varint version).
  - intros r _. unfold of_result.
    pose proof (read_varint_sound r) as Hs. destruct (read_varint r) as [[v r']|e]; [|done].
    destruct Hs as (_ & pre & -> & _). rewrite length_app. lia.
  - apply ends_bind; [apply ends_exact|intros; apply ends_ret].
Qed.

Lemma ends_be k n : ends_within k (read_be n).
Proof. apply ends_bind; [apply ends_exact|intros; apply ends_ret]. Qed.

Lemma ends_times {T} k n (f : T -> reader T) s :
  (forall s, ends_within k (f s)) -> ends_within k (times n f s).
Proof.
  intros Hf. revert s. induction n as [|n IH]; intros s; [apply ends_ret|]. by apply ends_bind.
Qed.

Create HintDb ends discriminated.
#[export] Hint Resolve ends_ret ends_fail ends_exact ends_skip_bytes ends_length ends_be : ends.
#[export] Hint Extern 2 (ends_within _ (mbind _ _)) => apply ends_bind; [|intros] : ends.
#[export] Hint Extern 2 (ends_within _ (times _ _ _)) => apply ends_times; intros : ends.

Lemma ends_i64 k : ends_within k read_i64.
Proof. unfold read_i64. auto with ends. Qed.

Lemma ends_read_u8 k : ends_within k read_u8.
Proof. intros [|b r] _; simpl; [done|lia]. Qed.

Lemma ends_skip_blob k version : ends_within k (skip_blob version).
Proof. unfold skip_blob. auto with ends. Qed.

Lemma ends_skip_score k version : ends_within k (skip_score version).
Proof. destruct version; simpl; auto with ends. Qed.

#[export] Hint Resolve ends_i64 ends_read_u8 ends_skip_blob ends_skip_score : ends.

Lemma ends_skip_value fuel version : ends_within fuel (skip_value fuel version).
Proof.
  induction fuel as [|fuel IH]; [intros r Hr; lia|]. cbn [skip_value]. apply ends_u8. intros tag.
  repeat (destruct (tag =? _); [auto 10 with ends|]). apply ends_fail.
Qed.

Section Fuel.
Context {H D S : Type} {hash_ops : MapOps H bytes bytes} {dict_ops : MapOps D bytes f64}
  {sorted_ops : SortedOps S f64 bytes} {set_order : HashOrder (bytes * unit)}.
Context (zstd_decode : bytes -> bytes * bool).
Notation Value := (Value H D S).
Notation read fuel version := (read_value_with_version (H := H) (D := D) (S := S) zstd_decode fuel version).

Lemma extends_decode_block (m1 m2 : reader Value) len :
  extends m1 m2 -> extends (decode_block zstd_decode m1 len) (decode_block zstd_decode m2 len).
Proof.
  intros Hm r. unfold decode_block. destruct (zstd_decode _) as [out complete]. intros Hd.
  rewrite Hm; [done|]. intros E. by rewrite E in Hd.
Qed.

Lemma read_value_extends fuel version : extends (read fuel version) (read (Datatypes.S fuel) version).
Proof.
  induction fuel as [|fuel IH]; [by intros r|]. cbn [read_value_with_version].
  apply extends_bind; [apply extends_refl|]. intros tag. cbv zeta.
  repeat (destruct (tag =? _);
    [first [apply extends_refl
           |repeat (apply extends_bind; [apply extends_refl|intros ?])]|]);
    [..|apply extends_refl].
  - by apply extends_decode_block.
  - apply extends_bind; [|intros; apply extends_refl]. apply extends_times. intros map.
    apply extends_bind; [apply extends_refl|]. intros kb.
    apply extends_bind; [exact IH|]. intros raw. apply extends_refl.
  - apply extends_bind; [|intros; apply extends_refl]. apply extends_times. intros items.
    apply extends_bind; [exact IH|]. intros item. apply extends_refl.
Qed.

Lemma read_value_more_fuel fuel fuel' version r :
  (fuel <= fuel')%nat -> read fuel version r <> Deep -> read fuel' version r = read fuel version r.
Proof.
  induction 1 as [|fuel' _ IH]; [done|]. intros Hd. specialize (IH Hd). rewrite <- IH.
  apply read_value_extends. by rewrite IH.
Qed.

(** ** Reading and skipping agree *)

(** Where [m] succeeds, [s] leaves the same rest; or the reader ended inside a
    compressed block that was nevertheless complete, which only [s] notices. *)
Definition skipped_by {A} (m : reader A) (s : reader unit) : Prop :=
  forall r a rest, m r = Ret a rest ->
    (length rest <= length r)%nat /\ (s r = Ret tt rest \/ rest = [] /\ s r = Fail UnexpectedEof).

(** A step that reads nothing. *)
Definition reads_nothing {A} (m : reader A) : Prop := forall r a rest, m r = Ret a rest -> rest = r.

Lemma bind_inv {A B} (m : reader A) (k : A -> reader B) r b rest :
  (m ≫= k) r = Ret b rest -> exists a r1, m r = Ret a r1 /\ k a r1 = Ret b rest.
Proof. unfold mbind, reader_bind. destruct (m r) as [a r1|e|]; [|done|done]. intros Hk. by exists a, r1. Qed.

Lemma bind_ret {A B} (m : reader A) (k : A -> reader B) r a r1 : m r = Ret a r1 -> (m ≫= k) r = k a r1.
Proof. unfold mbind, reader_bind. by intros ->. Qed.

Lemma bind_fail {A B} (m : reader A) (k : A -> reader B) r e : m r = Fail e -> (m ≫= k) r = Fail e.
Proof. unfold mbind, reader_bind. by intros ->. Qed.

Lemma skipped_bind {A B} (m : reader A) (k : A -> reader B) s (t : unit -> reader unit) :
  skipped_by m s -> (forall a, skipped_by (k a) (t tt)) -> skipped_by (m ≫= k) (s ≫= t).
Proof.
  intros Hm Hk r b rest (a & r1 & Ha & Hb)%bind_inv.
  destruct (Hm r a r1 Ha) as [Hl1 Hs]. destruct (Hk a r1 b rest Hb) as [Hl2 Ht].
  split; [lia|]. destruct Hs as [Hs|[-> Hs]].
  - by rewrite (bind_ret _ _ _ _ _ Hs).
  - right. simpl in Hl2. destruct rest; [|simpl in Hl2; lia]. split; [done|]. by apply bind_fail.
Qed.

Lemma skipped_same {A B} (m : reader A) (k : A -> reader B) t :
  (forall n, ends_within n m) -> (forall a, skipped_by (k a) (t a)) -> skipped_by (m ≫= k) (m ≫= t).
Proof.
  intros Hm Hk r b rest (a & r1 & Ha & Hb)%bind_inv. specialize (Hm (Datatypes.S (length r)) r ltac:(lia)).
  rewrite Ha in Hm. destruct (Hk a r1 b rest Hb) as [Hl Ht]. split; [lia|].
  by rewrite (bind_ret _ _ _ _ _ Ha).
Qed.

Lemma skipped_head {A B} (m : reader A) (k : A -> reader B) s :
  reads_nothing m -> (forall a, skipped_by (k a) s) -> skipped_by (m ≫= k) s.
Proof. intros Hm Hk r b rest (a & r1 & Ha & Hb)%bind_inv. rewrite <- (Hm _ _ _ Ha). by apply (Hk a r1 b). Qed.

Lemma skipped_tail {A B} (m : reader A) (k : A -> reader B) s :
  skipped_by m s -> (forall a, reads_nothing (k a)) -> skipped_by (m ≫= k) s.
Proof. intros Hm Hk r b rest (a & r1 & Ha & Hb)%bind_inv. apply Hk in Hb as ->. by apply (Hm r a). Qed.

Lemma nothing_ret {A} (a : A) : reads_nothing (mret a).
Proof. by intros r b rest [= _ <-]. Qed.

Lemma nothing_fail {A} e : reads_nothing (A := A) (fail e).
Proof. by intros r b rest [=]. Qed.

Lemma nothing_ensure b e : reads_nothing (ensure b e).
Proof. destruct b; [apply nothing_ret|apply nothing_fail]. Qed.

Lemma nothing_option {A} (x : option A) : reads_nothing (of_option x).
Proof. destruct x; [apply nothing_ret|apply nothing_fail]. Qed.

Lemma nothing_bind {A B} (m : reader A) (k : A -> reader B) :
  reads_nothing m -> (forall a, reads_nothing (k a)) -> reads_nothing (m ≫= k).
Proof. intros Hm Hk r b rest (a & r1 & Ha & Hb)%bind_inv. apply Hm in Ha as ->. by apply (Hk a r b). Qed.

Lemma skipped_same_end {A B} (m : reader A) (k : A -> reader B) :
  (forall n, ends_within n m) -> (forall a, reads_nothing (k a)) ->
  skipped_by (m ≫= k) (_ ← m; mret tt).
Proof.
  intros Hm Hk. apply (skipped_same m k (fun _ => mret tt)); [done|]. intros a r b rest Hb.
  apply Hk in Hb as ->. split; [done|by left].
Qed.

Lemma skipped_times {T} n (f : T -> reader T) s t :
  (forall x, skipped_by (f x) s) -> skipped_by (times n f t) (times n (fun _ => s) tt).
Proof.
  intros Hf. revert t. induction n as [|n IH]; intros t.
  - intros r b rest [= -> ->]. split; [done|by left].
  - apply (skipped_bind (f t) _ s (times n (fun _ => s))); [apply Hf|]. intros x. apply IH.
Qed.

Lemma skipped_exact n : skipped_by (read_exact n) (skip_bytes n).
Proof.
  intros r b rest. unfold read_exact. destruct (Z.leb_spec n (Z.of_nat (length r))) as [Hn|]; [|done].
  intros [= _ <-]. rewrite length_drop. split; [lia|left]. destruct (Z.leb_spec 0 n).
  - rewrite skip_bytes_spec by done. by rewrite (proj2 (Z.leb_le _ _)).
  - unfold skip_bytes. cbn [skip_loop]. rewrite (proj2 (Z.ltb_ge 0 n)) by lia.
    by replace (Z.to_nat n) with 0%nat by lia.
Qed.

Lemma skipped_blob what limit version : skipped_by (read_blob what limit version) (skip_blob version).
Proof.
  apply skipped_same; [intros; apply ends_length|]. intros len.
  apply skipped_head; [apply nothing_ensure|]. intros _. apply skipped_exact.
Qed.

Lemma skipped_score version : skipped_by (read_score version) (skip_score version).
Proof. destruct version; apply skipped_same_end; intros; apply ends_be || apply nothing_ret. Qed.

Lemma skipped_count {T} what version (f : T -> reader T) s t (k : T -> reader Value) :
  (forall x, skipped_by (f x) s) -> (forall x, reads_nothing (k x)) ->
  skipped_by (n ← read_count what version; x ← times n f t; k x)
    (count ← read_length version; times (Z.to_nat count) (fun _ => s) tt).
Proof.
  intros Hf Hk r b rest (n & r1 & (len & r2 & Hlen & Hn)%bind_inv & Hb)%bind_inv.
  apply bind_inv in Hn as ([] & r3 & Hens & [= <- <-]). apply nothing_ensure in Hens as ->.
  rewrite (bind_ret _ _ _ _ _ Hlen).
  pose proof (ends_length (Datatypes.S (length r)) version r ltac:(lia)) as He. rewrite Hlen in He.
  destruct (skipped_tail _ k _ (skipped_times (Z.to_nat len) f s t Hf) Hk r2 b rest Hb) as [Hl Hs].
  split; [lia|done].
Qed.

Lemma skipped_block (rec : reader Value) len : skipped_by (decode_block zstd_decode rec len) (skip_bytes len).
Proof.
  intros r v rest. unfold decode_block. destruct (zstd_decode _) as [out complete].
  destruct (rec out) as [val rest'| |]; [|done|done]. destruct complete; [|done]. intros [= _ <-].
  rewrite length_drop. split; [lia|]. destruct (Z.leb_spec 0 len).
  - rewrite skip_bytes_spec by done. destruct (Z.leb_spec len (Z.of_nat (length r))); [by left|].
    right. split; [|done]. apply drop_ge. lia.
  - left. unfold skip_bytes. cbn [skip_loop]. rewrite (proj2 (Z.ltb_ge 0 len)) by lia.
    by replace (Z.to_nat len) with 0%nat by lia.
Qed.

Lemma skip_value_tag fuel version tag r :
  skip_value (Datatypes.S fuel) version (tag :: r) =
  (if tag =? TAG_NULL then mret tt
      else if tag =? TAG_BOOL then _ ← read_u8; mret tt
      else if tag =? TAG_INT then _ ← read_i64; mret tt
      else if tag =? TAG_FLOAT then _ ← read_be 8; mret tt
      else if tag =? TAG_STR then skip_blob version
      else if tag =? TAG_COMPRESSED then skip_blob version
      else if tag =? TAG_ARRAY then
        count ← read_length version;
        times (Z.to_nat count) (fun _ => skip_value fuel version) tt
      else if tag =? TAG_HASH then
        count ← read_length version;
        times (Z.to_nat count) (fun _ => _ ← skip_blob version; skip_value fuel version) tt
      else if tag =? TAG_SET then
        count ← read_length version;
        times (Z.to_nat count) (fun _ => skip_blob version) tt
      else if tag =? TAG_ZSET then
        count ← read_length version;
        times (Z.to_nat count) (fun _ => _ ← skip_blob version; skip_score version) tt
      else if tag =? TAG_HLL then skip_blob version
      else if tag =? TAG_BITMAP then skip_blob version
      else fail (InvalidTag tag)) r.
Proof. done. Qed.

Lemma skipped_value fuel version : skipped_by (read fuel version) (skip_value fuel version).
Proof.
  induction fuel as [|fuel IH]; [by intros r b rest [=]|].
  intros [|tag r] v rest Hr; [done|]. rewrite skip_value_tag.
  change (read (Datatypes.S fuel) version (tag :: r)) with
    ((if tag =? TAG_STR then read_string_value version
      else if tag =? TAG_INT then read_int_value
      else if tag =? TAG_FLOAT then read_float_value
      else if tag =? TAG_BOOL then read_bool_value
      else if tag =? TAG_NULL then mret VNull
      else if tag =? TAG_COMPRESSED then read_compressed_value zstd_decode (read fuel version) version
      else if tag =? TAG_HASH then read_hash_value (read fuel version) version
      else if tag =? TAG_ZSET then read_zset_value version
      else if tag =? TAG_SET then read_set_value version
      else if tag =? TAG_HLL then read_hll_value version
      else if tag =? TAG_ARRAY then read_array_value (read fuel version) version
      else if tag =? TAG_BITMAP then read_bitmap_value version
      else fail (InvalidTag tag)) r) in Hr.
  cut (forall m s, m r = Ret v rest -> skipped_by (A := Value) m s ->
    (length rest <= length (tag :: r))%nat /\ (s r = Ret tt rest \/ rest = [] /\ s r = Fail UnexpectedEof)).
  2: { intros m s Hm Hs. destruct (Hs r v rest Hm). simpl. split; [lia|done]. }
  intros Hcut.
  destruct (Z.eqb_spec tag TAG_STR) as [->|_].
  { eapply Hcut; [exact Hr|]. apply skipped_tail; [apply skipped_blob|intros; apply nothing_ret]. }
  destruct (Z.eqb_spec tag TAG_INT) as [->|_].
  { eapply Hcut; [exact Hr|]. apply skipped_same_end; intros; [apply ends_i64|apply nothing_ret]. }
  destruct (Z.eqb_spec tag TAG_FLOAT) as [->|_].
  { eapply Hcut; [exact Hr|]. apply skipped_same_end; intros; [apply ends_be|apply nothing_ret]. }
  destruct (Z.eqb_spec tag TAG_BOOL) as [->|_].
  { eapply Hcut; [exact Hr|]. apply skipped_same_end; intros; [apply ends_read_u8|apply nothing_ret]. }
  destruct (Z.eqb_spec tag TAG_NULL) as [->|_].
  { injection Hr as _ <-. split; [simpl; lia|by left]. }
  destruct (Z.eqb_spec tag TAG_COMPRESSED) as [->|_].
  { eapply Hcut; [exact Hr|]. apply skipped_same; [intros; apply ends_length|]. intros len.
    do 2 (apply skipped_head; [apply nothing_ensure|intros _]). apply skipped_block. }
  destruct (Z.eqb_spec tag TAG_HASH) as [->|_].
  { eapply Hcut; [exact Hr|]. apply skipped_count; [|intros; apply nothing_ret]. intros map.
    apply skipped_bind; [apply skipped_blob|]. intros kb. apply skipped_tail; [exact IH|]. intros raw.
    apply nothing_bind; [by destruct raw; first [apply nothing_ret|apply nothing_fail]|]. intros val.
    apply nothing_bind; [apply nothing_option|]. intros [? ?]. apply nothing_ret. }
  destruct (Z.eqb_spec tag TAG_ZSET) as [->|_].
  { eapply Hcut; [exact Hr|]. apply skipped_count; [|intros; apply nothing_ret]. intros z.
    apply skipped_bind; [apply skipped_blob|]. intros key. apply skipped_tail; [apply skipped_score|]. intros score.
    apply nothing_bind; [apply nothing_option|]. intros [? ?].
    apply nothing_bind; [apply nothing_option|]. intros ?. apply nothing_ret. }
  destruct (Z.eqb_spec tag TAG_SET) as [->|_].
  { eapply Hcut; [exact Hr|]. apply skipped_count; [|intros; apply nothing_ret]. intros set.
    apply skipped_tail; [apply skipped_blob|intros; apply nothing_ret]. }
  destruct (Z.eqb_spec tag TAG_HLL) as [->|_].
  { eapply Hcut; [exact Hr|]. apply skipped_tail; [apply skipped_blob|intros; apply nothing_ret]. }
  destruct (Z.eqb_spec tag TAG_ARRAY) as [->|_].
  { eapply Hcut; [exact Hr|]. apply skipped_count; [|intros; apply nothing_ret]. intros items.
    apply skipped_tail; [exact IH|intros; apply nothing_ret]. }
  destruct (Z.eqb_spec tag TAG_BITMAP) as [->|_].
  { eapply Hcut; [exact Hr|]. apply skipped_tail; [apply skipped_blob|intros; apply nothing_ret]. }
  done.
Qed.
End Fuel.
