(* ===== verification/ZdbStored.v ===== *)
(** * What a dump of values preserves, and what it does not

    The properties of the value codec ([ZdbValue]), and their instances over
    the program's own containers: [SmartHash], [Dict] and [SkipList] behind the
    interfaces that the codec uses. *)
From S2P Require Import Prelude Interfaces Ordered Varint QuickList Hll ZdbFormat ZdbReader ZdbValue.
From S2P Require SmartHash Dict SkipList.
Local Open Scope Z_scope.

(** The order of scores, [OrderedFloat]: a NaN equals itself and is above
    every number, and the two zeros are equal. *)
Definition f64_key (x : f64) : Z :=
  let magnitude := Z.land (f64_bits x) (Z.ones 63) in
  if Z.shiftl 0x7FF 52 <? magnitude then 2 ^ 64
  else if Z.testbit (f64_bits x) 63 then - magnitude else magnitude.

#[export] Instance f64_ord : Ord f64.
Proof.
  refine {| key_lt := fun x y => f64_key x <? f64_key y; key_eq := fun x y => f64_key x =? f64_key y |};
    intros *.
  - apply Z.ltb_irrefl.
  - rewrite !Z.ltb_lt. lia.
  - rewrite !Z.ltb_ge, Z.eqb_eq. lia.
  - intros ->%Z.eqb_eq. done.
Defined.

#[export] Instance f64_inhabited : Inhabited f64 := populate (mkF64 0).

(** ** The containers of the program *)

Definition ex_hash (k : bytes) : Z := foldl Z.add 7 k.
Definition ex_draws (n i : nat) : Z := Z.of_nat (n * 7919 + i * 104729) mod 65536.

Abbreviation ExValue := (Value SmartHash.SmartHash (Dict.Dict bytes f64) (SkipList.SkipList f64 bytes)).
#[export] Instance ex_dict_ops : MapOps (Dict.Dict bytes f64) bytes f64 := Dict.dict_ops ex_hash.
#[export] Instance ex_dict_laws : MapLaws (Dict.Dict bytes f64) bytes f64 := Dict.dict_laws ex_hash.
#[export] Instance ex_skip_ops : SortedOps (SkipList.SkipList f64 bytes) f64 bytes := SkipList.skip_ops ex_draws.
#[export] Instance ex_skip_laws : SortedLaws (SkipList.SkipList f64 bytes) f64 bytes :=
  SkipList.skip_laws ex_draws.

Definition ex_compress (b : bytes) : option bytes := Some (1 :: b).
Definition ex_decode (c : bytes) : bytes * bool := (tl c, true).

Definition ex_hash_value : SmartHash.SmartHash :=
  match map_insert map_new [102] [1; 2; 3] with Some (_, h) => h | None => map_new end.

(** An array with a string that makes the whole compressed. *)
Definition ex_value : ExValue :=
  VArray [VStr (replicate 70 65); VInt (-7); VBool true; VHash ex_hash_value; VArray [VNull]].

Lemma ex_storable :
  storable V3 ex_value.
Proof.
  assert (map_repr (MapLaws := SmartHash.smarthash_laws) ex_hash_value (<[[102] := [1; 2; 3]]> ∅ : gmap bytes bytes)) as Hh.
  { unfold ex_hash_value.
    destruct (map_repr_insert (MapLaws := SmartHash.smarthash_laws) map_new ∅ [102] [1; 2; 3] map_repr_new)
      as (h & -> & Hh). exact Hh. }
  apply st_array; [by vm_compute|]. apply Forall_cons; split; [apply st_str; by vm_compute|].
  apply Forall_cons; split; [apply st_int; split; by vm_compute|].
  apply Forall_cons; split; [apply st_bool|].
  apply Forall_cons; split.
  { apply (st_hash _ _ _ Hh); [rewrite map_size_insert_None by done; by rewrite map_size_empty|].
    apply map_Forall_insert_2; [split; by vm_compute|]. apply map_Forall_empty. }
  apply Forall_cons; split; [|by apply Forall_nil].
  apply st_array; [by vm_compute|]. apply Forall_cons; split; [apply st_null|by apply Forall_nil].
Qed.

(** ** Properties *)

Section Properties.
Context {H D S : Type} {hash_ops : MapOps H bytes bytes} {dict_ops : MapOps D bytes f64}
  {sorted_ops : SortedOps S f64 bytes} {set_order : HashOrder (bytes * unit)}
  {score_ord : Ord f64} {hash_laws : MapLaws H bytes bytes} {dict_laws : MapLaws D bytes f64}
  {sorted_laws : SortedLaws S f64 bytes}.
Context (zstd_decode : bytes -> bytes * bool).
Notation Value := (Value H D S).
Notation read fuel version := (read_value_with_version (H := H) (D := D) (S := S) zstd_decode fuel version).
Implicit Types (version : FormatVersion) (v : Value) (fuel : nat).

(** C17. Round trip of the values, with or without compression: what
    [write_value_versioned] writes of a storable value, in any version and in
    front of any bytes, is read back as the same value up to what the
    containers do not show, leaving exactly those bytes; [skip_value] leaves
    the same; and the encoder does not fail on its own. *)
Theorem value_roundtrip version v (compress_block : bytes -> option bytes) (w : bytes) :
  storable version v -> zstd_inverse zstd_decode compress_block ->
  write_value_versioned compress_block v version = Some w ->
  Z.of_nat (length w) <= MAX_COMPRESSED_SIZE ->
  is_Some (write_value_inner version v) /\
  exists v', loads_as v v' /\
    forall fuel rest, (depth v < fuel)%nat ->
      read fuel version (w ++ rest) = Ret v' rest /\
      skip_value fuel version (w ++ rest) = Ret tt rest.
Proof.
  intros Hs Hz Hw Hl. split.
  { destruct (storable_round_trips zstd_decode version v Hs) as (buf & _ & -> & _). by eexists. }
  destruct (versioned_round_trips zstd_decode version v compress_block w Hs Hz Hw Hl) as (v' & Hv & Hr).
  exists v'. split; [done|]. intros fuel rest Hf. destruct (Hr fuel Hf). auto.
Qed.

(** On any bytes at all, where a value can be read [skip_value] leaves
    the same rest; the only exception is a reader that ends inside a compressed
    block that decodes nevertheless, which [skip_value] reports. *)
Theorem skip_agrees_with_read version fuel (r rest : bytes) v :
  read fuel version r = Ret v rest ->
  skip_value fuel version r = Ret tt rest \/
  rest = [] /\ skip_value fuel version r = Fail UnexpectedEof.
Proof. intros Hr. by apply (skipped_value zstd_decode fuel version r v rest Hr). Qed.

(** The bound on the nesting is harmless: once a reading returns a value
    or an error, any larger bound returns the same. *)
Theorem read_value_fuel_stable version fuel fuel' (r : bytes) :
  (fuel <= fuel')%nat -> read fuel version r <> Deep -> read fuel' version r = read fuel version r.
Proof. apply read_value_more_fuel. Qed.

(** A list and a stream can be written but not read: their tags have no
    case in the reader, in any version. *)
Theorem list_and_stream_unreadable version fuel (rest : bytes) :
  (forall l : QuickList.QuickList bytes, exists w, write_value_inner version (VList l : Value) = Some w /\
     read (Datatypes.S fuel) version (w ++ rest) = Fail (InvalidTag TAG_LIST)) /\
  (forall entries w, write_value_inner version (VSStream entries : Value) = Some w ->
     read (Datatypes.S fuel) version (w ++ rest) = Fail (InvalidTag TAG_SSTREAM)).
Proof.
  split.
  - intros l. eexists. split; [done|]. done.
  - intros entries w. cbn [write_value_inner]. destruct (write_each _ entries) as [items|]; [|done].
    intros [= <-]. done.
Qed.

(** A sorted set keeps one member per score in its ordered half, which is
    the half that is written, under the number of members of the other half:
    with two members of equal score the encoding ends too early. *)
Theorem zset_equal_scores_unreadable version fuel (d : D) (s : S) (m : gmap bytes f64)
    (kvs : list (f64 * bytes)) :
  version <> Legacy -> map_repr d m -> sorted_repr s kvs -> (length kvs < size m)%nat ->
  few (size m) -> Forall (fun e => short e.2 /\ is_u 64 (f64_bits e.1)) kvs ->
  exists w, write_value_inner version (VZSet d s : Value) = Some w /\
    read (Datatypes.S fuel) version w = Fail IoEof.
Proof.
  intros Hver Hd Hs Hlt Hf Hall. cbn [write_value_inner].
  destruct (sorted_repr_entries s kvs Hs) as [-> _]. eexists. split; [done|].
  rewrite (map_repr_len d m Hd).
  assert (forall z : D * S, read_zset_entry version z [] = Fail IoEof) as Hnil.
  { intros z. unfold read_zset_entry. apply bind_fail. unfold read_blob. apply bind_fail, read_length_nil. }
  assert (reads (times (length kvs) (read_zset_entry version) (map_new, sorted_new))
    (concat (write_member version <$> kvs)) (foldl zset_step (map_new, sorted_new) kvs)) as Hr.
  { apply (reads_times _ _ zset_step (fun z => exists (m' : gmap bytes f64) kvs', map_repr z.1 m' /\ sorted_repr z.2 kvs')).
    { exists ∅, []. split; [apply map_repr_new|apply sorted_repr_new]. }
    intros [d0 s0] e (m' & kvs' & Hd' & Hs') He. rewrite Forall_forall in Hall. destruct (Hall e He).
    split; [|by eapply reads_zset_entry].
    destruct (zset_steps d0 s0 m' kvs' [e] Hd' Hs'). by eexists _, _. }
  change (read (Datatypes.S fuel) version (TAG_ZSET :: ?w)) with (read_zset_value (H := H) (D := D) (S := S) version w).
  unfold read_zset_value. rewrite (bind_ret _ _ _ _ _ (reads_count "Zset" version (size m) Hf _)).
  apply bind_fail. replace (size m) with (length kvs + Datatypes.S (size m - length kvs - 1))%nat by lia.
  rewrite times_app. specialize (Hr []). rewrite app_nil_r in Hr. rewrite (bind_ret _ _ _ _ _ Hr).
  apply bind_fail, Hnil.
Qed.
End Properties.

Lemma value_roundtrip_witness :
  is_Some (write_value_inner V3 ex_value) /\
  exists v', loads_as ex_value v' /\
    forall fuel rest, (depth ex_value < fuel)%nat ->
      read_value_with_version ex_decode fuel V3
        (default [] (write_value_versioned ex_compress ex_value V3) ++ rest) = Ret v' rest /\
      skip_value fuel V3 (default [] (write_value_versioned ex_compress ex_value V3) ++ rest) = Ret tt rest.
Proof.
  apply (value_roundtrip ex_decode V3 ex_value ex_compress).
  - apply ex_storable.
  - intros b c [= <-]. by split.
  - by vm_compute.
  - by vm_compute.
Defined.

Lemma skip_agrees_with_read_witness :
  let r := default [] (write_value_versioned ex_compress ex_value V3) in
  match read_value_with_version (H := SmartHash.SmartHash) (D := Dict.Dict bytes f64)
      (S := SkipList.SkipList f64 bytes) ex_decode 5 V3 r with
  | Ret v rest =>
      skip_value 5 V3 r = Ret tt rest \/ rest = [] /\ skip_value 5 V3 r = Fail UnexpectedEof
  | _ => False
  end.
Proof.
  intros r. destruct (read_value_with_version ex_decode 5 V3 r) as [v rest|e|] eqn:E.
  - exact (skip_agrees_with_read ex_decode V3 5 r rest v E).
  - exfalso. revert E. by vm_compute.
  - exfalso. revert E. by vm_compute.
Defined.

Lemma read_value_fuel_stable_witness :
  read_value_with_version (H := SmartHash.SmartHash) (D := Dict.Dict bytes f64)
    (S := SkipList.SkipList f64 bytes) ex_decode 9 V1 [TAG_ARRAY; 0; 0; 0; 1; TAG_NULL] =
  read_value_with_version ex_decode 2 V1 [TAG_ARRAY; 0; 0; 0; 1; TAG_NULL].
Proof. apply (read_value_fuel_stable ex_decode V1 2 9); [lia|by vm_compute]. Defined.

Lemma list_and_stream_unreadable_witness :
  read_value_with_version (H := SmartHash.SmartHash) (D := Dict.Dict bytes f64)
    (S := SkipList.SkipList f64 bytes) ex_decode 3 V3
    (default [] (write_value_inner V3 (VSStream [(mkStreamId 5 1, [([1], VNull)])] : ExValue)) ++ [9]) =
  Fail (InvalidTag TAG_SSTREAM).
Proof.
  apply (list_and_stream_unreadable (D := Dict.Dict bytes f64) (S := SkipList.SkipList f64 bytes) ex_decode V3 2 [9])
    with (entries := [(mkStreamId 5 1, [([1], VNull)])]). by vm_compute.
Defined.

(** Two members with the score 1.0, added to both halves. *)
Definition ex_score : f64 := mkF64 0x3FF0000000000000.

Definition ex_zset_step (z : Dict.Dict bytes f64 * SkipList.SkipList f64 bytes) (k : bytes)
  : Dict.Dict bytes f64 * SkipList.SkipList f64 bytes := zset_step z (ex_score, k).

Definition ex_zset : Dict.Dict bytes f64 * SkipList.SkipList f64 bytes :=
  ex_zset_step (ex_zset_step (map_new, sorted_new) [97]) [98].

Lemma zset_equal_scores_unreadable_witness :
  exists w, write_value_inner V3 (VZSet ex_zset.1 ex_zset.2 : ExValue) = Some w /\
    read_value_with_version (H := SmartHash.SmartHash) (D := Dict.Dict bytes f64)
      (S := SkipList.SkipList f64 bytes) ex_decode 1 V3 w = Fail IoEof.
Proof.
  pose proof (zset_steps (D := Dict.Dict bytes f64) (S := SkipList.SkipList f64 bytes) map_new sorted_new ∅ []
    [(ex_score, [97]); (ex_score, [98])] map_repr_new sorted_repr_new) as [Hd Hs].
  apply (zset_equal_scores_unreadable ex_decode V3 0 ex_zset.1 ex_zset.2
    (<[[98] := ex_score]> (<[[97] := ex_score]> ∅)) [(ex_score, [98])]); [done|exact Hd|exact Hs|..].
  - by vm_compute.
  - by vm_compute.
  - apply Forall_cons. split; [split; [by vm_compute|split; by vm_compute]|by apply Forall_nil].
Defined.

(** ** Two formats that do not match *)

(** Under the version [Legacy] the scores of a sorted set are written
    with eight bytes and read, and skipped, with four: the reader takes the upper
    half for the score and leaves the lower half in front of what follows. *)
Theorem legacy_score_misread (x : Z) (rest : bytes) :
  is_u 64 x ->
  read_score Legacy (write_be 8 x ++ rest) = Ret (f32_to_f64 (x / 2 ^ 32)) (write_be 4 (x mod 2 ^ 32) ++ rest) /\
  skip_score Legacy (write_be 8 x ++ rest) = Ret tt (write_be 4 (x mod 2 ^ 32) ++ rest).
Proof.
  intros Hx. assert (write_be 8 x = write_be 4 (x / 2 ^ 32) ++ write_be 4 (x mod 2 ^ 32)) as ->.
  { unfold write_be. rewrite (wrapu_small (8 * Z.of_nat 8)) by done.
    rewrite !wrapu_small.
    2: { unfold is_u. change (8 * Z.of_nat 4) with 32. apply Z.mod_pos_bound. lia. }
    2: { unfold is_u in *. change (8 * Z.of_nat 4) with 32. change (8 * Z.of_nat 8) with 64 in Hx.
         split; [apply Z.div_pos; lia|apply Z.div_lt_upper_bound; lia]. }
    cbn [be_bytes app].
    assert (forall k, 0 <= k -> (x / 2 ^ 32) / 256 ^ k = x / 256 ^ (k + 4)) as Hhi.
    { intros k Hk. rewrite Z.div_div, Z.mul_comm by lia. rewrite Z.pow_add_r by lia. done. }
    assert (forall k, 0 <= k <= 3 -> (x mod 2 ^ 32) / 256 ^ k mod 256 = x / 256 ^ k mod 256) as Hlo.
    { intros k Hk. change 256 with (2 ^ 8). rewrite <- Z.pow_mul_r by lia.
      rewrite <- !Z.shiftr_div_pow2 by lia. apply Z.bits_inj'. intros n Hn.
      destruct (Z.ltb_spec n 8).
      - rewrite !Z.mod_pow2_bits_low, !Z.shiftr_spec by lia. rewrite Z.mod_pow2_bits_low by lia. done.
      - by rewrite !Z.mod_pow2_bits_high by lia. }
    rewrite !Hhi, !Hlo by lia. done. }
  assert (is_u 32 (x / 2 ^ 32)) as Hu.
  { unfold is_u in *. split; [apply Z.div_pos; lia|apply Z.div_lt_upper_bound; lia]. }
  rewrite <- app_assoc. unfold read_score, skip_score.
  rewrite !(bind_ret _ _ _ _ _ (reads_be_small 4 _ Hu _)). done.
Qed.

Lemma legacy_score_misread_witness :
  read_score Legacy (write_be 8 0x3FF0000000000000 ++ [1]) =
    Ret (mkF64 0x3FFE000000000000) ([0; 0; 0; 0] ++ [1]).
Proof.
  refine (proj1 (legacy_score_misread 0x3FF0000000000000 [1] _)). split; by vm_compute.
Defined.

(** A dense sketch does not survive storing as the same value: its vector
    of twelve kilobytes comes back with four kilobytes of zeros appended, so it is
    longer in memory and in the next dump, although every register is the same. *)
Theorem hll_reload_grows {H D S : Type} {hash_ops : MapOps H bytes bytes} {dict_ops : MapOps D bytes f64}
    {sorted_ops : SortedOps S f64 bytes} {set_order : HashOrder (bytes * unit)}
    (zstd_decode : bytes -> bytes * bool) (version : FormatVersion) (fuel : nat) (b rest : bytes) :
  length b = dense_size 14 ->
  exists w, write_value_inner version (VHyperLogLog (mkHll (Dense (mkHllDense b)) 1) : Value H D S) = Some w /\
    read_value_with_version (H := H) (D := D) (S := S) zstd_decode (Datatypes.S fuel) version (w ++ rest) =
      Ret (VHyperLogLog (mkHll (Dense (mkHllDense (b ++ replicate (Z.to_nat 4096) 0))) 1)) rest.
Proof.
  intros Hb. eexists. split; [done|].
  pose proof (dense_size_exact 14 ltac:(lia)) as Hd. pose proof registers_14 as Hm. unfold DENSE_SIZE in Hm.
  assert (Z.of_nat (length b) = 12288) as Hz by lia.
  assert (12288 <= hll_limit version < 2 ^ 32) as Hl.
  { clear. destruct version; split; by vm_compute. }
  assert (dense_data b = b ++ replicate (Z.to_nat 4096) 0) as Hdata.
  { rewrite dense_data_short by (unfold DENSE_SIZE; lia). do 2 f_equal. unfold DENSE_SIZE. lia. }
  revert rest. apply reads_tagged. rewrite <- Hdata.
  eapply reads_map; [apply (reads_blob "HLL" (hll_limit version)); cbn [data]; lia|apply reads_ret].
Qed.

Lemma hll_reload_grows_witness :
  exists w, write_value_inner V3 (VHyperLogLog (mkHll (Dense (mkHllDense (replicate (dense_size 14) 0))) 1) : ExValue) = Some w /\
    read_value_with_version (H := SmartHash.SmartHash) (D := Dict.Dict bytes f64)
      (S := SkipList.SkipList f64 bytes) ex_decode 1 V3 (w ++ [1]) =
      Ret (VHyperLogLog (mkHll (Dense (mkHllDense (replicate (dense_size 14) 0 ++ replicate (Z.to_nat 4096) 0))) 1)) [1].
Proof. apply (hll_reload_grows ex_decode V3 0). apply length_replicate. Defined.

(** Skipping ends on any bytes: with more fuel than there are bytes left
    [skip_value] returns, never by an overflow of the stack, and does not give
    back more than it got. *)
Theorem skip_value_total (version : FormatVersion) (r : bytes) :
  match skip_value (S (length r)) version r with
  | Ret _ rest => (length rest <= length r)%nat
  | Fail _ => True
  | Deep => False
  end.
Proof. apply ends_skip_value. lia. Qed.
