(* ===== verification/ZdbDump.v ===== *)
(** * Dumps and streams

    Models the two file forms of the dump format: the counted dump with a
    checksum ([write_dump_versioned], [write_dump_streaming_versioned] of
    [src/src/engine/zdb/encode.rs], [read_dump_with_version] of [decode.rs]) and
    the stream with an end mark ([write_stream_versioned], [StreamReader] of
    [decode.rs], and [StreamingParser] with its handlers of [streaming.rs]).
    A reader is over memory: it returns as many bytes as it is asked for and
    has.  The checksum and the compression are third-party code, hence
    parameters.  Offsets and keys of error messages are not kept. *)
From S2P Require Import Prelude Interfaces Ordered Varint ZdbFormat ZdbReader ZdbValue.
Local Open Scope Z_scope.

(** ** Events and handlers *)

Inductive ParseEvent {V : Type} : Type :=
| Header (version : FormatVersion) (compatibility : CompatibilityInfo)
| Entry (key : bytes) (value : V)
| End
| Error (error : ZdbError) (key : option bytes) (recoverable : bool).
Arguments ParseEvent : clear implicits.

(** The trait [ParseHandler], over the state of the handler. *)
Class ParseHandler (T V : Type) := {
  handle_event : T -> ParseEvent V -> zresult T;
  should_continue_on_error : T -> bool;
  finalize : T -> zresult T;
}.

(** [ZdbError::is_recoverable] *)
Definition is_recoverable (e : ZdbError) : bool :=
  match e with UnexpectedEof | InvalidTag _ | ParseError _ => true | _ => false end.

Record ParseStats : Type := mkStats {
  bytes_read : Z;
  records_parsed : Z;
  errors_count : Z;
  skipped_records : Z;
  stats_version : option FormatVersion;
}.

Record StreamingParser : Type := mkParser {
  parser_reader : bytes;
  parser_version : option FormatVersion;
  stats : ParseStats;
  parser_reader_version : FormatVersion;
}.

(** How [parse] ends: well, with an error, or by no end within the fuel. *)
Inductive parse_outcome {T : Type} : Type :=
| PDone (handler : T) (parser : StreamingParser)
| PErr (e : ZdbError) (handler : T)
| PDeep.
Arguments parse_outcome : clear implicits.

Section Dump.
Context {H D S : Type} {hash_ops : MapOps H bytes bytes} {dict_ops : MapOps D bytes f64}
  {sorted_ops : SortedOps S f64 bytes} {set_order : HashOrder (bytes * unit)}.
Context (crc32 : bytes -> Z) (compress_block : bytes -> option bytes)
  (zstd_decode : bytes -> bytes * bool).

Notation Value := (Value H D S).
Notation read_value_at fuel version := (read_value_with_version (H := H) (D := D) (S := S) zstd_decode fuel version).

(** ** Writing *)

(** The loop of [write_dump_versioned]: what goes to the writer [w] and what
    goes to the buffer [buf]. *)
Fixpoint dump_records (version : FormatVersion) (items : list (bytes * Value)) (w buf : bytes)
  : option (bytes * bytes) :=
  match items with
  | [] => Some (w, buf)
  | (key, val) :: items =>
      let buf := buf ++ write_length version (length key) in
      let w := w ++ key in
      value ← write_value_inner version val;
      dump_records version items w (buf ++ value)
  end.

Definition write_dump_versioned (items : list (bytes * Value)) (version : FormatVersion) : option bytes :=
  let buf := FILE_MAGIC ++ [version_u8 version] ++ write_length version (length items) in
  '(w, buf) ← dump_records version items [] buf;
  Some (w ++ buf ++ write_be 4 (crc32 buf)).

Definition write_dump (items : list (bytes * Value)) : option bytes := write_dump_versioned items current.

Definition streaming_record (version : FormatVersion) (item : bytes * Value) : option bytes :=
  value ← write_value_inner version item.2; Some (write_blob version item.1 ++ value).

Definition write_dump_streaming_versioned (items : list (bytes * Value)) (version : FormatVersion)
  : option bytes :=
  records ← write_each (streaming_record version) items;
  let body := FILE_MAGIC ++ [version_u8 version] ++ write_length version (length items) ++ records in
  Some (body ++ write_be 4 (crc32 body)).

Definition write_dump_streaming (items : list (bytes * Value)) : option bytes :=
  write_dump_streaming_versioned items current.

Definition stream_record (version : FormatVersion) (item : bytes * Value) : option bytes :=
  value ← write_value_versioned compress_block item.2 version; Some (write_blob version item.1 ++ value).

Definition write_stream_versioned (items : list (bytes * Value)) (version : FormatVersion) : option bytes :=
  records ← write_each (stream_record version) items;
  Some (FILE_MAGIC ++ [version_u8 version] ++ records ++ [TAG_EOF]).

Definition write_stream (items : list (bytes * Value)) : option bytes := write_stream_versioned items current.

(** ** [StreamReader] *)

Record StreamReader : Type := mkStreamReader {
  inner : bytes;
  sr_version : FormatVersion;
  done_ : bool;
  compatibility_info : CompatibilityInfo;
}.

Definition new_with_version (r : bytes) (reader_version : FormatVersion) : zresult StreamReader :=
  match read_exact 3 r with
  | Ret magic r =>
      if negb (bool_decide (magic = FILE_MAGIC)) then Err (InvalidMagic magic)
      else
        match read_u8 r with
        | Ret version_byte r =>
            match try_from version_byte with
            | Ok dump_version =>
                match validate_compatibility reader_version dump_version with
                | Ok info => Ok (mkStreamReader r dump_version false info)
                | Err e => Err e
                end
            | Err _ => Err (UnsupportedVersion version_byte)
            end
        | _ => Err IoEof
        end
  | _ => Err IoEof
  end.

(** What [next] returns.  After an error the position of the reader is not
    specified, and no caller goes on. *)
Inductive NextResult : Type :=
| NEnd (sr : StreamReader)
| NItem (key : bytes) (value : Value) (sr : StreamReader)
| NErr (e : ZdbError)
| NDeep.

(** The size of the buffer of [BufReader::new]. *)
Definition BUF_SIZE : nat := Z.to_nat 8192.

(** The length of the key and what is left of the reader.  When the varint
    has more than one byte it is read through a [BufReader] made for it,
    which has taken up to [BUF_SIZE] bytes and is then dropped. *)
Definition stream_key_length (version : FormatVersion) (peek : Z) (inner : bytes)
  : zresult (Z * bytes) :=
  if uses_varint version then
    match read_varint [peek] with
    | Ok (len, _) => Ok (len, inner)
    | Err _ =>
        match read_varint (peek :: take BUF_SIZE inner) with
        | Ok (len, _) => Ok (len, drop BUF_SIZE inner)
        | Err e => Err e
        end
    end
  else
    match read_exact 3 inner with
    | Ret len_buf inner => Ok (be_value (peek :: len_buf), inner)
    | _ => Err UnexpectedEof
    end.

Definition next (fuel : nat) (sr : StreamReader) : NextResult :=
  if done_ sr then NEnd sr
  else
    match read_u8 (inner sr) with
    | Ret peek r =>
        if peek =? TAG_EOF then NEnd (mkStreamReader r (sr_version sr) true (compatibility_info sr))
        else
          match stream_key_length (sr_version sr) peek r with
          | Err e => NErr e
          | Ok (klen, r) =>
              if negb (klen <=? MAX_STRING_SIZE) then NErr (SizeLimit "Key" klen MAX_STRING_SIZE)
              else
                match read_exact klen r with
                | Ret key r =>
                    match read_value_at fuel (sr_version sr) r with
                    | Ret v r => NItem key v (mkStreamReader r (sr_version sr) false (compatibility_info sr))
                    | Fail e => NErr e
                    | Deep => NDeep
                    end
                | _ => NErr IoEof
                end
          end
    | _ => NErr UnexpectedEof
    end.

(** The iterator collected up to its end or its first error; every item takes
    a byte, so one more pass than bytes is enough. *)
Fixpoint collect_stream (passes fuel : nat) (sr : StreamReader) : option (list (bytes * Value) * option ZdbError) :=
  match passes with
  | O => None
  | Datatypes.S passes =>
      match next fuel sr with
      | NEnd _ => Some ([], None)
      | NItem key value sr =>
          '(items, e) ← collect_stream passes fuel sr; Some ((key, value) :: items, e)
      | NErr e => Some ([], Some e)
      | NDeep => None
      end
  end.

(** ** [StreamingParser] *)

Definition parser_new (reader : bytes) (reader_version : FormatVersion) : StreamingParser :=
  mkParser reader None (mkStats 0 0 0 0 None) reader_version.

Definition read_and_validate_header : reader FormatVersion :=
  magic ← map_err UnexpectedEof (read_exact 3);
  _ ← ensure (bool_decide (magic = FILE_MAGIC)) (InvalidMagic magic);
  version_bytes ← map_err UnexpectedEof read_u8;
  match try_from version_bytes with Ok v => mret v | Err e => fail e end.

(** The loop over the continuation bytes of a varint key length: the value,
    and the bytes of the length field. *)
Fixpoint varint_tail (fuel : nat) (shift consumed value : Z) : reader (Z * Z) :=
  match fuel with
  | O => fail Unreachable
  | Datatypes.S fuel =>
      byte ← map_err UnexpectedEof read_u8;
      let consumed := consumed + 1 in
      let value := Z.lor value (wrapu 32 (Z.shiftl (Z.land byte 0x7F) shift)) in
      if Z.land byte 0x80 =? 0 then mret (value, consumed)
      else if Z.of_nat MAX_VARINT_LEN <=? consumed then fail (ParseError "varint")
      else varint_tail fuel (shift + 7) consumed value
  end.

(** The length of the key from its first byte [peek]. *)
Definition read_key_length (version : FormatVersion) (peek : Z) : reader (Z * Z) :=
  if uses_varint version then
    let value := Z.land peek 0x7F in
    if Z.land peek 0x80 =? 0 then mret (value, 1)
    else varint_tail MAX_VARINT_LEN 7 1 value
  else
    len_buf ← map_err UnexpectedEof (read_exact 3);
    mret (be_value (peek :: len_buf), 4).

(** The entry from the byte after [peek], with the bytes that it counts: the
    length field and the key. *)
Definition read_entry (fuel : nat) (version : FormatVersion) (peek : Z) : reader (bytes * Value * Z) :=
  '(key_len, field) ← read_key_length version peek;
  _ ← ensure (key_len <=? MAX_STRING_SIZE) (SizeLimit "key" key_len MAX_STRING_SIZE);
  key ← map_err UnexpectedEof (read_exact key_len);
  value ← read_value_at fuel version;
  mret (key, value, field + key_len).

(** [read_next_entry]: [None] at the end, with the bytes counted. *)
Definition read_next_entry (fuel : nat) (version : FormatVersion) (records : Z)
  : reader (option (bytes * Value) * Z) := fun r =>
  match r with
  | [] => if records =? 0 then Ret (None, 0) [] else Fail UnexpectedEof
  | peek :: r =>
      if peek =? TAG_EOF then Ret (None, 1) r
      else
        match read_entry fuel version peek r with
        | Ret (key, value, n) r => Ret (Some (key, value), n) r
        | Fail e => Fail e
        | Deep => Deep
        end
  end.

Section Parse.
Context {T : Type} {handler_ops : ParseHandler T Value}.

(** Where a reader stands after a failed read; only a handler that continues
    on errors sees it. *)
Context (resume : bytes -> bytes).

Definition count_record (st : ParseStats) (n : Z) : ParseStats :=
  mkStats (bytes_read st + n) (records_parsed st + 1) (errors_count st) (skipped_records st) (stats_version st).
Definition count_bytes (st : ParseStats) (n : Z) : ParseStats :=
  mkStats (bytes_read st + n) (records_parsed st) (errors_count st) (skipped_records st) (stats_version st).
Definition count_error (st : ParseStats) : ParseStats :=
  mkStats (bytes_read st) (records_parsed st) (errors_count st + 1) (skipped_records st) (stats_version st).
Definition count_skipped (st : ParseStats) : ParseStats :=
  mkStats (bytes_read st) (records_parsed st) (errors_count st) (skipped_records st + 1) (stats_version st).

(** The end of [parse]: the event, and the handler's last word. *)
Definition parse_end (handler : T) (p : StreamingParser) : parse_outcome T :=
  match handle_event handler End with
  | Err e => PErr e handler
  | Ok handler => match finalize handler with Ok handler => PDone handler p | Err e => PErr e handler end
  end.

(** The [loop] of [parse]. *)
Fixpoint parse_loop (passes fuel : nat) (version : FormatVersion) (handler : T) (p : StreamingParser)
  : parse_outcome T :=
  match passes with
  | O => PDeep
  | Datatypes.S passes =>
      match read_next_entry fuel version (records_parsed (stats p)) (parser_reader p) with
      | Ret (Some (key, value), n) r =>
          let p := mkParser r (parser_version p) (count_record (stats p) n) (parser_reader_version p) in
          match handle_event handler (Entry key value) with
          | Ok handler => parse_loop passes fuel version handler p
          | Err e =>
              match handle_event handler (Error e (Some key) false) with
              | Ok handler => PErr e handler
              | Err e' => PErr e' handler
              end
          end
      | Ret (None, n) r =>
          parse_end handler (mkParser r (parser_version p) (count_bytes (stats p) n) (parser_reader_version p))
      | Fail e =>
          let st := count_error (stats p) in
          match handle_event handler (Error e None (is_recoverable e)) with
          | Err e' => PErr e' handler
          | Ok handler =>
              if negb (should_continue_on_error handler) then PErr e handler
              else
                parse_loop passes fuel version handler
                  (mkParser (resume (parser_reader p)) (parser_version p) (count_skipped st) (parser_reader_version p))
          end
      | Deep => PDeep
      end
  end.

Definition parse (passes fuel : nat) (handler : T) (p : StreamingParser) : parse_outcome T :=
  match read_and_validate_header (parser_reader p) with
  | Ret version r =>
      match validate_compatibility (parser_reader_version p) version with
      | Err e => PErr e handler
      | Ok compatibility =>
          let st := mkStats (bytes_read (stats p) + 4) (records_parsed (stats p)) (errors_count (stats p))
                      (skipped_records (stats p)) (Some version) in
          match handle_event handler (Header version compatibility) with
          | Err e => PErr e handler
          | Ok handler =>
              parse_loop passes fuel version handler (mkParser r (Some version) st (parser_reader_version p))
          end
      end
  | Fail e => PErr e handler
  | Deep => PDeep
  end.
End Parse.

(** ** Handlers *)

(** [CollectHandler]: the items in order. *)
#[local] Instance collect_handler : ParseHandler (list (bytes * Value)) Value := {|
  handle_event := fun items event =>
    match event with Entry key value => Ok (items ++ [(key, value)]) | _ => Ok items end;
  should_continue_on_error := fun _ => false;
  finalize := fun items => Ok items;
|}.

Record CountHandler : Type := mkCount {
  total_entries : Z;
  key_lengths : list nat;
  count_version : option FormatVersion;
}.

#[local] Instance count_handler : ParseHandler CountHandler Value := {|
  handle_event := fun c event =>
    match event with
    | Header version _ => Ok (mkCount (total_entries c) (key_lengths c) (Some version))
    | Entry key _ => Ok (mkCount (total_entries c + 1) (key_lengths c ++ [length key]) (count_version c))
    | _ => Ok c
    end;
  should_continue_on_error := fun _ => false;
  finalize := fun c => Ok c;
|}.

(** [FilterHandler] for a predicate. *)
Definition filter_handler (predicate : bytes -> bool) : ParseHandler (list (bytes * Value)) Value := {|
  handle_event := fun items event =>
    match event with
    | Entry key value => Ok (if predicate key then items ++ [(key, value)] else items)
    | _ => Ok items
    end;
  should_continue_on_error := fun _ => false;
  finalize := fun items => Ok items;
|}.

(** [CallbackHandler] for a callback over its own state. *)
Definition callback_handler {T} (callback : T -> bytes -> Value -> zresult T) : ParseHandler T Value := {|
  handle_event := fun s event => match event with Entry key value => callback s key value | _ => Ok s end;
  should_continue_on_error := fun _ => false;
  finalize := fun s => Ok s;
|}.

Record TransformHandler : Type := mkTransform { writer : bytes; transform_count : Z }.

(** [TransformHandler]; a failure of [write_value] is [Unreachable]. *)
Definition transform_handler (transform : bytes -> Value -> option (bytes * Value))
  : ParseHandler TransformHandler Value := {|
  handle_event := fun t event =>
    match event with
    | Header version _ =>
        Ok (mkTransform (writer t ++ FILE_MAGIC ++ [version_u8 version]) (transform_count t))
    | Entry key value =>
        match transform key value with
        | None => Ok t
        | Some (new_key, new_value) =>
            match write_value compress_block new_value with
            | None => Err Unreachable
            | Some v =>
                Ok (mkTransform (writer t ++ write_be 4 (Z.of_nat (length new_key)) ++ new_key ++ v)
                      (transform_count t + 1))
            end
        end
    | End => Ok (mkTransform (writer t ++ [TAG_EOF]) (transform_count t))
    | Error _ _ _ => Ok t
    end;
  should_continue_on_error := fun _ => false;
  finalize := fun t => Ok t;
|}.

(** ** Reading a dump *)

Definition read_item (fuel : nat) (version : FormatVersion) : reader (bytes * Value) :=
  key ← read_blob "Key length" MAX_STRING_SIZE version;
  val ← read_value_at fuel version;
  mret (key, val).

(** The counted form. *)
Definition legacy_parse (fuel : nat) (reader_version : FormatVersion) : reader (list (bytes * Value)) :=
  magic ← read_exact 3;
  _ ← ensure (bool_decide (magic = FILE_MAGIC)) (InvalidMagic magic);
  version_byte ← read_u8;
  dump_version ← match try_from version_byte with Ok v => mret v | Err e => fail e end;
  _ ← match validate_compatibility reader_version dump_version with Ok _ => mret tt | Err e => fail e end;
  count ← read_count "Dump item count" dump_version;
  times count (fun items => item ← read_item fuel dump_version; mret (items ++ [item])) [].

(** [read_dump_with_version]: the checksum, then an attempt to read the body
    as a stream, then the counted form. *)
Definition read_dump_with_version (fuel : nat) (data : bytes) (reader_version : FormatVersion)
  : outcome (list (bytes * Value)) :=
  if negb (8 <=? length data)%nat then Fail (FileTooSmall (Z.of_nat (length data)) 8)
  else
    let body := take (length data - 4) data in
    let recorded := be_value (drop (length data - 4) data) in
    let computed := crc32 body in
    if negb (computed =? recorded) then Fail (CrcMismatch computed recorded)
    else
      match parse (fun r => r) (Datatypes.S (length body)) fuel [] (parser_new body reader_version) with
      | PDone items _ => Ret items []
      | PErr _ _ => legacy_parse fuel reader_version body
      | PDeep => Deep
      end.

Definition read_dump (fuel : nat) (data : bytes) : outcome (list (bytes * Value)) :=
  read_dump_with_version fuel data current.
End Dump.

(** ** The length of a key *)

Lemma land_7F_range b : 0 <= Z.land b 0x7F < 2 ^ 7.
Proof. change 0x7F with (Z.ones 7). rewrite Z.land_ones by lia. apply Z.mod_pos_bound. lia. Qed.

(** The parser's own reading of the continuation bytes. *)
Lemma varint_tail_loop n i fuel value r :
  i = 5 - Z.of_nat n -> (0 < n)%nat -> (n <= fuel)%nat ->
  varint_tail fuel (7 * i) i value r =
    match read_varint_loop n i value (7 * i) r with
    | Ok (v, rest) => Ret (v, i + Z.of_nat (length r - length rest)) rest
    | Err IoEof => Fail UnexpectedEof
    | Err e => Fail e
    end.
Proof.
  revert i fuel value r. induction n as [|n IH]; intros i fuel value r Hi Hn Hf; [lia|].
  destruct fuel as [|fuel]; [lia|]. destruct r as [|byte r]; [done|].
  cbn [varint_tail read_varint_loop]. unfold mbind, reader_bind, map_err. cbn [read_u8].
  destruct (Z.land byte 0x80 =? 0).
  - unfold mret, reader_ret. do 2 f_equal. cbn [length]. lia.
  - unfold MAX_VARINT_LEN. destruct (Z.eqb_spec i (Z.of_nat 5 - 1)) as [E|E].
    + by rewrite (proj2 (Z.leb_le _ _)) by lia.
    + rewrite (proj2 (Z.leb_gt _ _)) by lia. replace (7 * i + 7) with (7 * (i + 1)) by lia.
      rewrite IH by lia.
      pose proof (read_varint_loop_length n (i + 1) (Z.lor value (wrapu 32 (Z.shiftl (Z.land byte 127) (7 * i)))) (7 * (i + 1)) r) as Hlen.
      destruct (read_varint_loop n _ _ _ r) as [[v rest]|e]; [|by destruct e].
      do 2 f_equal. cbn [length]. lia.
Qed.

(** Where an end mark is not taken for the length of a key. *)
Definition plain_key (version : FormatVersion) (n : nat) : Prop :=
  uses_varint version = true -> (n < 128)%nat \/ Z.of_nat n mod 128 <> 127.

Lemma write_length_head version n :
  Z.of_nat n <= MAX_STRING_SIZE -> plain_key version n ->
  exists peek w, write_length version n = peek :: w /\ peek <> TAG_EOF.
Proof.
  unfold MAX_STRING_SIZE. intros Hn Hp. unfold write_length.
  assert (is_u 32 (Z.of_nat n)) as Hu by (unfold is_u; lia). rewrite wrapu_small by done.
  destruct (uses_varint version) eqn:Hv.
  - rewrite write_varint_leb, leb_S by lia. specialize (Hp Hv). pose proof (Z.mod_pos_bound (Z.of_nat n) 128).
    destruct (Z.ltb_spec (Z.of_nat n) 128); (eexists _, _; split; [done|unfold TAG_EOF; lia]).
  - unfold write_be. rewrite wrapu_small by done. eexists _, _. split; [done|].
    unfold TAG_EOF. change (256 ^ Z.of_nat 3) with 16777216.
    assert (Z.of_nat n / 16777216 < 255) by (apply Z.div_lt_upper_bound; lia).
    assert (0 <= Z.of_nat n / 16777216) by (apply Z.div_pos; lia).
    rewrite Z.mod_small by lia. lia.
Qed.

Lemma read_key_length_varint version peek r :
  uses_varint version = true ->
  read_key_length version peek r =
    match read_varint (peek :: r) with
    | Ok (v, rest) => Ret (v, Z.of_nat (S (length r) - length rest)) rest
    | Err IoEof => Fail UnexpectedEof
    | Err e => Fail e
    end.
Proof.
  intros Hv. unfold read_key_length, read_varint. rewrite Hv.
  change MAX_VARINT_LEN with 5%nat at 2. rewrite read_varint_loop_cons. cbv zeta.
  pose proof (land_7F_range peek) as Hr.
  rewrite Z.shiftl_0_r, wrapu_small, Z.lor_0_l by (unfold is_u; lia).
  destruct (Z.land peek 0x80 =? 0).
  - unfold mret, reader_ret. do 2 f_equal. lia.
  - change (0 =? Z.of_nat MAX_VARINT_LEN - 1) with false. cbv iota. change 7 with (7 * 1) at 1.
    rewrite (varint_tail_loop 4 1) by (unfold MAX_VARINT_LEN; lia). change (0 + 7) with (7 * 1). change (0 + 1) with 1.
    pose proof (read_varint_loop_length 4 1 (Z.land peek 127) (7 * 1) r) as Hlen.
    destruct (read_varint_loop 4 1 _ _ r) as [[v rest]|e]; [|by destruct e].
    do 2 f_equal. lia.
Qed.

(** A written length, read from the byte after its first one. *)
Lemma reads_key_length version n peek w :
  Z.of_nat n <= MAX_STRING_SIZE -> write_length version n = peek :: w ->
  reads (read_key_length version peek) w (Z.of_nat n, Z.of_nat (length (write_length version n))).
Proof.
  unfold MAX_STRING_SIZE. intros Hn Hw rest. destruct (uses_varint version) eqn:Hv.
  - rewrite read_key_length_varint by done.
    pose proof (reads_length version n ltac:(lia) rest) as Hr. unfold read_length in Hr.
    rewrite Hv in Hr. unfold of_result in Hr. rewrite Hw in Hr |- *. simpl in Hr.
    destruct (read_varint (peek :: w ++ rest)) as [[v r']|e]; [|done]. injection Hr as -> ->.
    do 2 f_equal. rewrite length_app. cbn [length]. lia.
  - pose proof (reads_length version n ltac:(lia) rest) as Hr. unfold read_length in Hr. rewrite Hv in Hr.
    assert (length (write_length version n) = 4%nat) as Hlen.
    { unfold write_length. rewrite Hv. apply write_be_length. }
    rewrite Hw in Hr, Hlen |- *. unfold read_key_length. rewrite Hv.
    assert (length w = 3%nat) as Hw3 by (simpl in Hlen; lia).
    unfold mbind, reader_bind, map_err.
    rewrite (reads_exact w 3 ltac:(rewrite Hw3; done) rest).
    unfold read_be, mbind, reader_bind in Hr.
    rewrite (reads_exact (peek :: w) (Z.of_nat 4) ltac:(simpl; rewrite Hw3; done) rest) in Hr.
    injection Hr as Hr. unfold mret, reader_ret. rewrite Hr. do 2 f_equal. cbn [length]. lia.
Qed.

Lemma write_each_cons {A} (f : A -> option bytes) x l :
  write_each f (x :: l) = a ← f x; b ← write_each f l; Some (a ++ b).
Proof. done. Qed.

Lemma write_each_app {A} (f : A -> option bytes) l1 l2 w :
  write_each f (l1 ++ l2) = Some w ->
  exists a b, write_each f l1 = Some a /\ write_each f l2 = Some b /\ w = a ++ b.
Proof.
  revert w. induction l1 as [|x l1 IH]; intros w; [by exists [], w|].
  rewrite <- app_comm_cons, !write_each_cons. destruct (f x) as [a|]; cbn [mbind option_bind]; [|done].
  destruct (write_each f (l1 ++ l2)) as [b|]; cbn [mbind option_bind]; [|done]. intros [= <-].
  destruct (IH b eq_refl) as (a1 & b1 & -> & -> & ->). exists (a ++ a1), b1. by rewrite app_assoc.
Qed.

Section Streams.
Context {H D S : Type} {hash_ops : MapOps H bytes bytes} {dict_ops : MapOps D bytes f64}
  {sorted_ops : SortedOps S f64 bytes} {set_order : HashOrder (bytes * unit)}.
Context (crc32 : bytes -> Z) (compress_block : bytes -> option bytes)
  (zstd_decode : bytes -> bytes * bool).
Notation Value := (Value H D S).
Notation read_at fuel version := (read_value_with_version (H := H) (D := D) (S := S) zstd_decode fuel version).
Implicit Types (version : FormatVersion) (fuel : nat) (items : list (bytes * Value)).

(** An entry of a stream: its key, the bytes of its value and what they are
    read back as. *)
Abbreviation coded := (bytes * bytes * Value)%type.

Definition entry_bytes version (x : coded) : bytes := write_blob version x.1.1 ++ x.1.2.
Definition entry_item (x : coded) : bytes * Value := (x.1.1, x.2).
Definition entry_size version (x : coded) : Z := Z.of_nat (length (write_blob version x.1.1)).

Definition readable fuel version (x : coded) : Prop :=
  short x.1.1 /\ plain_key version (length x.1.1) /\ reads (read_at fuel version) x.1.2 x.2.

Lemma write_blob_cons version key :
  short key -> plain_key version (length key) ->
  exists peek w, write_length version (length key) = peek :: w /\ peek <> TAG_EOF /\
    write_blob version key = peek :: w ++ key.
Proof.
  intros Hs Hp. destruct (write_length_head version (length key) Hs Hp) as (peek & w & Hw & Hne).
  exists peek, w. split_and!; [done|done|]. unfold write_blob. by rewrite Hw.
Qed.

Lemma next_entry_reads fuel version x records rest :
  readable fuel version x ->
  read_next_entry zstd_decode fuel version records (entry_bytes version x ++ rest) =
    Ret (Some (entry_item x), entry_size version x) rest.
Proof.
  destruct x as [[key w] v]. intros (Hs & Hp & Hr). simpl in *.
  destruct (write_blob_cons version key Hs Hp) as (peek & lw & Hl & Hne & Hb).
  unfold entry_bytes, entry_size, entry_item. simpl. unfold write_blob at 1. rewrite Hl. simpl.
  rewrite (proj2 (Z.eqb_neq _ _)) by done.
  assert (reads (read_entry (H := H) (D := D) (S := S) zstd_decode fuel version peek) (lw ++ key ++ w)
    (key, v, Z.of_nat (length (write_length version (length key))) + Z.of_nat (length key))) as He.
  { unfold read_entry. eapply reads_bind; [by apply reads_key_length|]. simpl.
    eapply reads_step; [apply reads_ensure; by apply Z.leb_le|].
    eapply reads_bind; [apply reads_map_err, reads_exact; done|].
    eapply reads_map; [exact Hr|]. apply reads_ret. }
  rewrite <- !app_assoc. specialize (He rest). rewrite <- !app_assoc in He. rewrite He.
  do 3 f_equal. unfold write_blob. rewrite length_app. lia.
Qed.

(** *** The parser over a sequence of entries *)

Section Handler.
Context {T : Type} {handler_ops : ParseHandler T Value} (resume : bytes -> bytes).

Fixpoint feed (h : T) (l : list (bytes * Value)) : zresult T :=
  match l with
  | [] => Ok h
  | (key, value) :: l => match handle_event h (Entry key value) with Ok h => feed h l | Err e => Err e end
  end.

Definition advance (p : StreamingParser) (r : bytes) version (l : list coded) : StreamingParser :=
  mkParser r (parser_version p)
    (mkStats (bytes_read (stats p) + foldr (fun x n => entry_size version x + n) 0 l)
      (records_parsed (stats p) + Z.of_nat (length l)) (errors_count (stats p))
      (skipped_records (stats p)) (stats_version (stats p)))
    (parser_reader_version p).

(** The entries that the handler accepts are passed on, one pass each. *)
Lemma parse_entries passes fuel version h h' p l rest :
  Forall (readable fuel version) l -> feed h (entry_item <$> l) = Ok h' ->
  parser_reader p = concat (entry_bytes version <$> l) ++ rest ->
  parse_loop zstd_decode resume (length l + passes) fuel version h p =
    parse_loop zstd_decode resume passes fuel version h' (advance p rest version l).
Proof.
  revert h p. induction l as [|x l IH]; intros h p Hl Hf Hp.
  - simpl in *. injection Hf as ->. f_equal. unfold advance. destruct p as [r v [] rv]. simpl in *.
    by rewrite Hp, !Z.add_0_r.
  - apply Forall_cons in Hl as [Hx Hl]. cbn [length Nat.add parse_loop]. rewrite Hp. simpl.
    rewrite <- app_assoc, (next_entry_reads fuel version x _ _ Hx). unfold entry_item at 1.
    simpl in Hf. destruct (handle_event h (Entry x.1.1 x.2)) as [h1|e] eqn:Eh; [|done].
    erewrite IH; [|exact Hl|exact Hf|reflexivity]. f_equal. unfold advance. simpl. f_equal. f_equal; lia.
Qed.

Lemma parse_loop_end passes fuel version h p rest :
  parser_reader p = TAG_EOF :: rest ->
  parse_loop zstd_decode resume (Datatypes.S passes) fuel version h p =
    parse_end h (mkParser rest (parser_version p) (count_bytes (stats p) 1) (parser_reader_version p)).
Proof. intros Hp. cbn [parse_loop]. by rewrite Hp. Qed.

(** The header. *)
Lemma parse_header passes fuel h version reader_version r :
  can_read reader_version version = true ->
  parse zstd_decode resume passes fuel h (parser_new (FILE_MAGIC ++ [version_u8 version] ++ r) reader_version) =
    match handle_event h (Header version (check_compatibility reader_version version)) with
    | Err e => PErr e h
    | Ok h => parse_loop zstd_decode resume passes fuel version h
                (mkParser r (Some version) (mkStats 4 0 0 0 (Some version)) reader_version)
    end.
Proof.
  intros Hc. unfold parse, parser_new. cbn [parser_reader parser_reader_version stats bytes_read records_parsed errors_count skipped_records].
  assert (reads read_and_validate_header (FILE_MAGIC ++ [version_u8 version]) version) as Hh.
  { unfold read_and_validate_header. eapply reads_bind; [apply reads_map_err; by apply reads_exact|].
    eapply reads_step; [by apply reads_ensure|]. eapply reads_map; [apply reads_map_err, reads_u8|].
    rewrite try_from_version. apply reads_ret. }
  specialize (Hh r). rewrite <- app_assoc in Hh. rewrite Hh. by rewrite validate_ok.
Qed.
End Handler.

#[local] Existing Instance collect_handler.

Lemma feed_collect acc l : feed acc l = Ok (acc ++ l).
Proof.
  revert acc. induction l as [|[key v] l IH]; intros acc; simpl; [by rewrite app_nil_r|].
  by rewrite IH, <- app_assoc.
Qed.

(** *** What is written as entries *)

Context {score_ord : Ord f64} {hash_laws : MapLaws H bytes bytes} {dict_laws : MapLaws D bytes f64}
  {sorted_laws : SortedLaws S f64 bytes}.

Definition items_load items items' : Prop :=
  Forall2 (fun a b => a.1 = b.1 /\ loads_as a.2 b.2) items items'.

(** The items that a stream can hold: storable values that do not grow past
    the limit of a compressed block, short keys, and less nesting than [fuel]. *)
Definition streamable fuel version (item : bytes * Value) : Prop :=
  short item.1 /\ storable version item.2 /\ (depth item.2 < fuel)%nat /\
  exists w, write_value_versioned compress_block item.2 version = Some w /\
    Z.of_nat (length w) <= MAX_COMPRESSED_SIZE.

(** And a counted dump. *)
Definition dumpable fuel version (item : bytes * Value) : Prop :=
  short item.1 /\ storable version item.2 /\ (depth item.2 <= fuel)%nat.

Lemma write_each_records (f : bytes * Value -> option bytes) (P : bytes * Value -> Prop)
    (Q : coded -> Prop) version items :
  (forall item, P item -> exists w v', f item = Some (entry_bytes version (item.1, w, v')) /\
     loads_as item.2 v' /\ Q (item.1, w, v')) ->
  Forall P items ->
  exists l, write_each f items = Some (concat (entry_bytes version <$> l)) /\
    items_load items (entry_item <$> l) /\ length l = length items /\ Forall Q l /\
    l.*1.*1 = items.*1.
Proof.
  intros Hf. induction 1 as [|item items Hi _ IH].
  - exists []. split_and!; try done; constructor.
  - destruct (Hf item Hi) as (w & v' & Hw & Hv & HQ). destruct IH as (l & Hl & Hit & Hlen & HQl & Hk).
    exists ((item.1, w, v') :: l). rewrite write_each_cons, Hw. cbn [mbind option_bind]. rewrite Hl. split_and!; [done|by constructor|simpl; lia|by constructor|].
    simpl. by f_equal.
Qed.

Lemma stream_records fuel version items :
  zstd_inverse zstd_decode compress_block -> Forall (streamable fuel version) items ->
  exists l, write_each (stream_record compress_block version) items = Some (concat (entry_bytes version <$> l)) /\
    items_load items (entry_item <$> l) /\ length l = length items /\
    Forall (fun x => short x.1.1 /\ reads (read_at fuel version) x.1.2 x.2) l /\ l.*1.*1 = items.*1.
Proof.
  intros Hz. apply write_each_records. intros [key v] (Hk & Hs & Hd & w & Hw & Hl). simpl in *.
  destruct (versioned_round_trips zstd_decode version v compress_block w Hs Hz Hw Hl) as (v' & Hv & Hr).
  exists w, v'. unfold stream_record. simpl. rewrite Hw. split_and!; [done|done|done|]. by apply Hr.
Qed.

Lemma dump_streaming_records fuel version items :
  Forall (dumpable fuel version) items ->
  exists l, write_each (streaming_record version) items = Some (concat (entry_bytes version <$> l)) /\
    items_load items (entry_item <$> l) /\ length l = length items /\
    Forall (fun x => short x.1.1 /\ reads (read_at fuel version) x.1.2 x.2) l /\ l.*1.*1 = items.*1.
Proof.
  apply write_each_records. intros [key v] (Hk & Hs & Hd). simpl in *.
  destruct (storable_round_trips zstd_decode version v Hs) as (w & v' & Hw & Hv & Hr).
  exists w, v'. unfold streaming_record. simpl. rewrite Hw. split_and!; [done|done|done|]. by apply Hr.
Qed.

Lemma readable_of fuel version (l : list coded) items :
  Forall (fun x => short x.1.1 /\ reads (read_at fuel version) x.1.2 x.2) l -> l.*1.*1 = items.*1 ->
  Forall (fun item => plain_key version (length item.1)) items -> Forall (readable fuel version) l.
Proof.
  intros Hl Hk Hp. assert (Forall (fun k => plain_key version (length k)) l.*1.*1) as Hpk.
  { rewrite Hk. by apply Forall_fmap. }
  rewrite !Forall_fmap in Hpk. rewrite Forall_forall in *. intros x Hx.
  destruct (Hl x Hx). split_and!; [done|by apply Hpk|done].
Qed.

(** ** The stream reader *)

Lemma next_item fuel version info x rest :
  readable fuel version x -> (uses_varint version = true -> length x.1.1 < 128)%nat ->
  next zstd_decode fuel (mkStreamReader (entry_bytes version x ++ rest) version false info) =
    NItem x.1.1 x.2 (mkStreamReader rest version false info).
Proof.
  destruct x as [[key w] v]. intros (Hs & Hp & Hr) Hshort. simpl in *.
  destruct (write_blob_cons version key Hs Hp) as (peek & lw & Hl & Hne & Hb).
  unfold entry_bytes. simpl. unfold write_blob. rewrite Hl. unfold next. simpl.
  rewrite (proj2 (Z.eqb_neq _ _)) by done. rewrite <- !app_assoc.
  assert (stream_key_length version peek (lw ++ key ++ w ++ rest) =
    Ok (Z.of_nat (length key), key ++ w ++ rest)) as ->.
  { unfold stream_key_length. unfold MAX_STRING_SIZE in Hs. pose proof (reads_length version (length key) ltac:(lia)) as Hlen.
    unfold read_length in Hlen. destruct (uses_varint version) eqn:Hv.
    - assert (lw = []) as ->.
      { unfold write_length in Hl. rewrite Hv, write_varint_leb, leb_S in Hl by (apply Z.mod_pos_bound; lia).
        rewrite wrapu_small in Hl by (unfold is_u; lia). specialize (Hshort eq_refl).
        rewrite (proj2 (Z.ltb_lt _ 128)) in Hl by lia. by injection Hl. }
      specialize (Hlen []). rewrite Hl in Hlen. unfold of_result in Hlen. simpl app in Hlen.
      destruct (read_varint [peek]) as [[len r]|e]; [|done]. injection Hlen as -> _. done.
    - assert (length (write_length version (length key)) = 4%nat) as H4
        by (unfold write_length; rewrite Hv; apply write_be_length).
      rewrite Hl in H4, Hlen. simpl in H4. specialize (Hlen (key ++ w ++ rest)).
      rewrite (reads_exact lw 3 ltac:(lia) (key ++ w ++ rest)).
      unfold read_be in Hlen. rewrite (bind_ret _ _ _ _ _ (reads_exact (peek :: lw) (Z.of_nat 4) ltac:(simpl; lia) _)) in Hlen.
      injection Hlen as Hlen. by rewrite Hlen. }
  rewrite (proj2 (Z.leb_le _ _) Hs). simpl negb. cbv iota.
  rewrite (reads_exact key _ eq_refl (w ++ rest)), (Hr rest). done.
Qed.

Lemma collect_entries passes fuel version info (l : list coded) rest :
  Forall (readable fuel version) l ->
  Forall (fun x => uses_varint version = true -> length x.1.1 < 128)%nat l ->
  collect_stream zstd_decode (length l + passes) fuel
    (mkStreamReader (concat (entry_bytes version <$> l) ++ rest) version false info) =
  '(items, e) ← collect_stream zstd_decode passes fuel (mkStreamReader rest version false info);
  Some ((entry_item <$> l) ++ items, e).
Proof.
  induction l as [|x l IH]; intros Hl Hs.
  - simpl. destruct (collect_stream _ _ _ _) as [[items e]|]; done.
  - apply Forall_cons in Hl as [Hx Hl]. apply Forall_cons in Hs as [Hsx Hs].
    change (concat (entry_bytes version <$> x :: l)) with (entry_bytes version x ++ concat (entry_bytes version <$> l)).
    rewrite <- app_assoc. cbn [length Nat.add collect_stream]. rewrite next_item by done.
    rewrite IH by done. destruct (collect_stream zstd_decode passes fuel _) as [[items e]|]; simpl; done.
Qed.

(** ** The counted form *)

Lemma reads_items fuel version (l : list coded) :
  Forall (fun x => short x.1.1 /\ reads (read_at fuel version) x.1.2 x.2) l ->
  reads (times (length l) (fun items => item ← read_item zstd_decode fuel version; mret (items ++ [item])) [])
    (concat (entry_bytes version <$> l)) (entry_item <$> l).
Proof.
  intros Hl. assert (forall acc, foldl (fun acc x => acc ++ [entry_item x]) acc l = acc ++ (entry_item <$> l)) as Hpush.
  { clear. induction l as [|x l IH]; intros acc; simpl; [by rewrite app_nil_r|]. by rewrite IH, <- app_assoc. }
  change (entry_item <$> l) with ([] ++ (entry_item <$> l)). rewrite <- (Hpush []).
  apply (reads_times _ (entry_bytes version) (fun acc x => acc ++ [entry_item x]) (fun _ => True)); [done|].
  intros acc x _ Hx. split; [done|]. rewrite Forall_forall in Hl. destruct (Hl x Hx) as [Hs Hr].
  unfold entry_bytes. eapply reads_map; [|apply reads_ret]. unfold read_item.
  eapply reads_bind; [apply reads_blob; [done|reflexivity]|]. eapply reads_map; [exact Hr|apply reads_ret].
Qed.

Lemma legacy_parse_reads fuel version reader_version (l : list coded) :
  can_read reader_version version = true -> few (length l) ->
  Forall (fun x => short x.1.1 /\ reads (read_at fuel version) x.1.2 x.2) l ->
  reads (legacy_parse (H := H) (D := D) (S := S) zstd_decode fuel reader_version)
    (FILE_MAGIC ++ [version_u8 version] ++ write_length version (length l) ++ concat (entry_bytes version <$> l))
    (entry_item <$> l).
Proof.
  intros Hc Hn Hl. unfold legacy_parse. eapply reads_bind; [by apply reads_exact|].
  eapply reads_step; [by apply reads_ensure|]. eapply reads_bind; [apply reads_u8|].
  eapply reads_step; [rewrite try_from_version; apply reads_ret|].
  eapply reads_step; [rewrite validate_ok by done; apply reads_ret|].
  eapply reads_bind; [by apply reads_count|]. by apply reads_items.
Qed.
End Streams.
