(* ===== verification/ZdbFiles.v ===== *)
(** * What the files of the dump format preserve, and what they lose

    The properties of the dumps and streams of [ZdbDump]: the round trips of
    the three reader and writer pairs, and the inputs on which the formats and
    their readers do not agree. *)
From S2P Require Import Prelude Interfaces Ordered Varint QuickList Hll ZdbFormat ZdbReader ZdbValue.
From S2P Require SmartHash Dict SkipList.
From S2P Require Import ZdbStored ZdbDump.
Local Open Scope Z_scope.

#[export] Existing Instance collect_handler.

Section Files.
Context {H D S : Type} {hash_ops : MapOps H bytes bytes} {dict_ops : MapOps D bytes f64}
  {sorted_ops : SortedOps S f64 bytes} {set_order : HashOrder (bytes * unit)}
  {score_ord : Ord f64} {hash_laws : MapLaws H bytes bytes} {dict_laws : MapLaws D bytes f64}
  {sorted_laws : SortedLaws S f64 bytes}.
Context (crc32 : bytes -> Z) (compress_block : bytes -> option bytes)
  (zstd_decode : bytes -> bytes * bool).
Notation Value := (Value H D S).
Notation read_at fuel version := (read_value_with_version (H := H) (D := D) (S := S) zstd_decode fuel version).
Implicit Types (version reader_version : FormatVersion) (fuel : nat) (items : list (bytes * Value)).

Notation stays r := (fun r : bytes => r).
Notation parse_items passes fuel data reader_version :=
  (parse (T := list (bytes * Value)) zstd_decode (stays r) passes fuel [] (parser_new data reader_version)).

Lemma parse_stream passes fuel version reader_version (l : list (bytes * bytes * Value)) (rest : bytes) :
  can_read reader_version version = true -> Forall (readable zstd_decode fuel version) l ->
  parse_items (length l + passes) fuel (FILE_MAGIC ++ [version_u8 version] ++ concat (entry_bytes version <$> l) ++ rest) reader_version =
  parse_loop zstd_decode (stays r) passes fuel version (entry_item <$> l)
    (advance (mkParser (concat (entry_bytes version <$> l) ++ rest) (Some version) (mkStats 4 0 0 0 (Some version)) reader_version)
       rest version l).
Proof.
  intros Hc Hl. rewrite parse_header by done. apply parse_entries; [done|apply feed_collect|done].
Qed.

(** The lengths whose varint starts with the byte of the end mark. *)
Lemma write_length_end_mark (n : nat) :
  128 <= Z.of_nat n < 2 ^ 32 -> Z.of_nat n mod 128 = 127 -> exists t, write_length V3 n = TAG_EOF :: t.
Proof.
  intros Hn Hmod. unfold write_length. cbn [uses_varint].
  rewrite wrapu_small, write_varint_leb, leb_S by (unfold is_u; lia).
  rewrite (proj2 (Z.ltb_ge _ 128)), Hmod by lia. by eexists.
Qed.

(** C24. Round trip of a stream through [StreamingParser]: the items of a stream
    that the format can carry are collected in order and as the same values up to
    what containers do not show, and the parser stops right after the end mark.
    The conditions are that decoding inverts compression, that every item is
    [streamable] (a key within the limit of strings; a value without lists, streams
    and sorted sets with two members of one score, within the limits of the reader
    and of a compressed block, nested less than [fuel]) and that the length of no
    key looks like the end mark ([plain_key]: not 255, 383, ... where lengths are
    varints).  [stream_end_mark_clash] and [list_and_stream_unreadable] show what
    the code does otherwise. *)
Theorem stream_roundtrip items version reader_version fuel :
  can_read reader_version version = true -> zstd_inverse zstd_decode compress_block ->
  Forall (streamable compress_block fuel version) items ->
  Forall (fun item => plain_key version (length item.1)) items ->
  exists w items', write_stream_versioned compress_block items version = Some w /\
    items_load items items' /\
    forall rest passes, (length items < passes)%nat ->
      exists p, parse_items passes fuel (w ++ rest) reader_version = PDone items' p /\
        parser_reader p = rest /\ records_parsed (stats p) = Z.of_nat (length items) /\
        errors_count (stats p) = 0.
Proof.
  intros Hc Hz Hi Hp.
  destruct (stream_records compress_block zstd_decode fuel version items Hz Hi) as (l & Hw & Hit & Hlen & Hl & Hk).
  pose proof (readable_of zstd_decode fuel version l items Hl Hk Hp) as Hr.
  unfold write_stream_versioned. rewrite Hw. cbn [mbind option_bind]. eexists _, _. split_and!; [done|exact Hit|].
  intros rest passes Hpass.
  replace passes with (length l + Datatypes.S (passes - length l - 1))%nat by lia.
  rewrite <- !app_assoc, (parse_stream _ fuel version reader_version l ([TAG_EOF] ++ rest) Hc Hr).
  rewrite (parse_loop_end _ _ _ _ _ _ _ rest) by done. unfold parse_end. simpl.
  eexists. split_and!; [done|done|simpl; lia|done].
Qed.

(** Round trip of a stream through [StreamReader], for keys of less than
    128 bytes where lengths are varints: the iterator yields the items in order
    and ends without an error. *)
Theorem stream_reader_roundtrip items version reader_version fuel :
  can_read reader_version version = true -> zstd_inverse zstd_decode compress_block ->
  Forall (streamable compress_block fuel version) items ->
  Forall (fun item => uses_varint version = true -> length item.1 < 128)%nat items ->
  exists w items', write_stream_versioned compress_block items version = Some w /\
    items_load items items' /\
    forall rest passes, (length items < passes)%nat ->
      exists sr, new_with_version (w ++ rest) reader_version = Ok sr /\
        collect_stream zstd_decode passes fuel sr = Some (items', None).
Proof.
  intros Hc Hz Hi Hs.
  destruct (stream_records compress_block zstd_decode fuel version items Hz Hi) as (l & Hw & Hit & Hlen & Hl & Hk).
  assert (Forall (fun item => plain_key version (length item.1)) items) as Hp.
  { eapply Forall_impl; [exact Hs|]. intros item Hsm Hv. left. by apply Hsm. }
  assert (Forall (fun x : bytes * bytes * Value => uses_varint version = true -> length x.1.1 < 128)%nat l) as Hsl.
  { assert (Forall (fun k => uses_varint version = true -> length k < 128)%nat l.*1.*1) as H'.
    { rewrite Hk. by apply Forall_fmap. }
    by rewrite !Forall_fmap in H'. }
  pose proof (readable_of zstd_decode fuel version l items Hl Hk Hp) as Hr.
  unfold write_stream_versioned. rewrite Hw. cbn [mbind option_bind]. eexists _, _. split_and!; [done|exact Hit|].
  intros rest passes Hpass.
  exists (mkStreamReader ((concat (entry_bytes version <$> l) ++ [TAG_EOF]) ++ rest) version false
    (check_compatibility reader_version version)). split.
  - unfold new_with_version. rewrite <- !app_assoc.
    rewrite (reads_exact FILE_MAGIC 3 eq_refl _). rewrite bool_decide_true by done. cbn [negb app read_u8].
    by rewrite try_from_version, validate_ok.
  - replace passes with (length l + Datatypes.S (passes - length l - 1))%nat by lia.
    rewrite <- app_assoc, collect_entries by done. simpl. by rewrite app_nil_r.
Qed.

(** A counted dump split in its body and its checksum. *)
Lemma read_dump_body fuel reader_version (body : bytes) :
  is_u 32 (crc32 body) -> (4 <= length body)%nat ->
  read_dump_with_version (H := H) (D := D) (S := S) crc32 zstd_decode fuel (body ++ write_be 4 (crc32 body)) reader_version =
    match parse_items (Datatypes.S (length body)) fuel body reader_version with
    | PDone items _ => Ret items []
    | PErr _ _ => legacy_parse zstd_decode fuel reader_version body
    | PDeep => Deep
    end.
Proof.
  intros Hc Hb. unfold read_dump_with_version. rewrite length_app, write_be_length.
  rewrite (proj2 (Nat.leb_le _ _)) by lia. cbn [negb]. rewrite Nat.add_sub, take_app_length, drop_app_length.
  assert (be_value (write_be 4 (crc32 body)) = crc32 body) as ->.
  { unfold write_be. rewrite wrapu_small by done. rewrite be_value_bytes by (destruct Hc; done).
    change (256 ^ Z.of_nat 4) with (2 ^ 32). apply Z.mod_small. exact Hc. }
  by rewrite Z.eqb_refl.
Qed.

(** A counted dump, written record by record with its checksum, passes
    the check of the reader; if the first attempt to read it, as a stream, fails,
    the items are read in order and as the same values up to what containers do
    not show.  When that attempt succeeds its items are returned instead. *)
Theorem dump_streaming_roundtrip items version reader_version fuel :
  can_read reader_version version = true -> (forall b, is_u 32 (crc32 b)) -> few (length items) ->
  Forall (dumpable fuel version) items ->
  exists body items', write_dump_streaming_versioned crc32 items version = Some (body ++ write_be 4 (crc32 body)) /\
    items_load items items' /\
    read_dump_with_version crc32 zstd_decode fuel (body ++ write_be 4 (crc32 body)) reader_version =
      match parse_items (Datatypes.S (length body)) fuel body reader_version with
      | PDone other _ => Ret other []
      | PErr _ _ => Ret items' []
      | PDeep => Deep
      end.
Proof.
  intros Hc Hcrc Hn Hi.
  destruct (dump_streaming_records zstd_decode fuel version items Hi) as (l & Hw & Hit & Hlen & Hl & Hk).
  unfold write_dump_streaming_versioned. rewrite Hw. cbn [mbind option_bind].
  eexists _, _. split_and!; [done|exact Hit|]. rewrite read_dump_body by (done || simpl; lia).
  rewrite <- Hlen in Hn |- *.
  pose proof (legacy_parse_reads zstd_decode fuel version reader_version l Hc Hn Hl []) as Hleg.
  rewrite app_nil_r in Hleg. by rewrite Hleg.
Qed.

(** The end mark is also the first byte of some lengths (255, 383, ...):
    a stream is read, without an error, only up to the first key of such a
    length, and the items from there on are lost. *)
Theorem stream_end_mark_clash items key value rest_items reader_version fuel (w : bytes) :
  can_read reader_version V3 = true -> zstd_inverse zstd_decode compress_block ->
  Forall (streamable compress_block fuel V3) items ->
  Forall (fun item => plain_key V3 (length item.1)) items ->
  short key -> (128 <= length key)%nat -> Z.of_nat (length key) mod 128 = 127 ->
  write_stream_versioned compress_block (items ++ (key, value) :: rest_items) V3 = Some w ->
  exists items', items_load items items' /\
    forall passes, (length items < passes)%nat ->
      exists p, parse_items passes fuel w reader_version = PDone items' p.
Proof.
  intros Hc Hz Hi Hp Hs H128 Hmod Hw.
  destruct (stream_records compress_block zstd_decode fuel V3 items Hz Hi) as (l & Hwl & Hit & Hlen & Hl & Hk).
  pose proof (readable_of zstd_decode fuel V3 l items Hl Hk Hp) as Hr.
  exists (entry_item <$> l). split; [exact Hit|]. intros passes Hpass.
  unfold write_stream_versioned in Hw.
  assert (exists tail, write_each (stream_record compress_block V3) (items ++ (key, value) :: rest_items) =
    Some (concat (entry_bytes V3 <$> l) ++ TAG_EOF :: tail)) as [tail Ht].
  { destruct (write_each _ (items ++ _)) as [all|] eqn:Ha; cbn [mbind option_bind] in Hw; [|done].
    apply write_each_app in Ha as (a & b & Ha & Hb & ->). rewrite Hwl in Ha. injection Ha as <-.
    rewrite write_each_cons in Hb. change (stream_record compress_block V3 (key, value)) with
      (vw ← write_value_versioned compress_block value V3; Some (write_blob V3 key ++ vw)) in Hb. cbn [fst snd mbind option_bind] in Hb.
    destruct (write_value_versioned compress_block value V3) as [vw|]; cbn [mbind option_bind] in Hb; [|done].
    destruct (write_each _ rest_items) as [tl|]; cbn [mbind option_bind] in Hb; [|done]. apply (inj Some) in Hb as <-.
    unfold write_blob. destruct (write_length_end_mark (length key)) as [t ->]; [unfold MAX_STRING_SIZE in Hs; lia|lia|].
    eexists. simpl. by rewrite <- !app_assoc. }
  rewrite Ht in Hw. cbn [mbind option_bind] in Hw. injection Hw as <-.
  replace passes with (length l + Datatypes.S (passes - length l - 1))%nat by lia.
  rewrite <- !app_assoc. rewrite (parse_stream _ fuel V3 reader_version l (TAG_EOF :: tail ++ [TAG_EOF]) Hc Hr).
  rewrite (parse_loop_end _ _ _ _ _ _ _ (tail ++ [TAG_EOF])) by done. unfold parse_end. simpl. by eexists.
Qed.

(** A counted dump of 255 items, and of any other number whose varint
    starts with the end mark, is read as a dump of no items, without an error:
    the attempt to read it as a stream ends at the count. *)
Theorem dump_count_end_mark_clash items reader_version fuel (w : bytes) :
  can_read reader_version V3 = true -> (forall b, is_u 32 (crc32 b)) -> few (length items) ->
  (128 <= length items)%nat -> Z.of_nat (length items) mod 128 = 127 ->
  write_dump_streaming_versioned crc32 items V3 = Some w ->
  read_dump_with_version (H := H) (D := D) (S := S) crc32 zstd_decode fuel w reader_version = Ret [] [].
Proof.
  intros Hc Hcrc Hn H128 Hmod. unfold write_dump_streaming_versioned.
  destruct (write_each _ items) as [records|]; cbn [mbind option_bind]; [|done]. intros <-%(inj Some).
  destruct (write_length_end_mark (length items)) as [t ->]; [unfold MAX_COLLECTION_SIZE in Hn; lia|lia|].
  rewrite read_dump_body by (done || simpl; lia).
  change (parse_items ?n fuel _ reader_version) with
    (parse_items n fuel (FILE_MAGIC ++ [version_u8 V3] ++ (TAG_EOF :: t ++ records)) reader_version).
  rewrite parse_header by done. simpl handle_event. cbv iota.
  by rewrite (parse_loop_end _ _ _ _ _ _ _ (t ++ records)).
Qed.

(** ** What cannot be read *)

(** The bytes that [write_dump_versioned] sends ahead of its buffer. *)
Lemma dump_records_keys version items (w w' buf buf' : bytes) :
  dump_records version items w buf = Some (w', buf') -> w' = w ++ concat items.*1.
Proof.
  revert w buf. induction items as [|[key v] items IH]; intros w buf.
  - intros [= -> _]. by rewrite app_nil_r.
  - cbn [dump_records]. destruct (write_value_inner version v) as [b|]; cbn [mbind option_bind]; [|done].
    intros ->%IH. simpl. by rewrite app_assoc.
Qed.

Lemma no_magic reader_version fuel (r : bytes) :
  hd 0 r <> 0x5A ->
  (exists e, read_and_validate_header r = Fail e) /\
  (exists e, legacy_parse (H := H) (D := D) (S := S) zstd_decode fuel reader_version r = Fail e).
Proof.
  intros Hr. unfold read_and_validate_header, legacy_parse, mbind, reader_bind, map_err, read_exact.
  destruct (3 <=? _); [|split; by eexists].
  assert (take (Z.to_nat 3) r <> FILE_MAGIC) as Hm by (intros Hm; destruct r; [done|by injection Hm as -> _]).
  unfold ensure. rewrite bool_decide_false by exact Hm. split; by eexists.
Qed.

(** A dump written by [write_dump_versioned] is not a dump: the bytes of
    the keys go to the file at once and the rest after them, so that when the
    first key is not empty and does not start with the letter of the magic the
    file is rejected, whatever its checksum. *)
Theorem write_dump_unreadable items key value version reader_version fuel b (w : bytes) :
  b <> 0x5A -> write_dump_versioned crc32 ((b :: key, value) :: items) version = Some w ->
  exists e, read_dump_with_version (H := H) (D := D) (S := S) crc32 zstd_decode fuel w reader_version = Fail e.
Proof.
  intros Hb. unfold write_dump_versioned.
  destruct (dump_records version _ [] _) as [[ks buf]|] eqn:Hd; cbn [mbind option_bind]; [|done].
  apply dump_records_keys in Hd as ->. intros <-%(inj Some).
  cbn [fmap list_fmap concat app fst]. unfold read_dump_with_version.
  destruct (8 <=? _)%nat; cbn [negb]; [|by eexists].
  destruct (crc32 _ =? _); cbn [negb]; [|by eexists].
  match goal with |- context [parse _ _ _ _ _ (parser_new ?d _)] => set (body := d) end.
  assert (hd 0 body <> 0x5A) as Hh by (subst body; destruct (_ - 4)%nat; [done|exact Hb]).
  clearbody body. destruct (no_magic reader_version fuel body Hh) as [[e He] [e' ->]].
  unfold parse. cbn [parser_new parser_reader]. rewrite He. by eexists.
Qed.

(** ** A parser that does not stop *)

Section Endless.
Context {T : Type} {handler_ops : ParseHandler T Value}.

(** A handler that goes on after errors never sees the end of a stream
    that is cut off: [parse] reports the same error again and again, for any
    number of passes, once the input is used up and a record has been read. *)
Theorem parse_never_ends (resume : bytes -> bytes) fuel version handler p :
  (forall h e k recoverable, exists h', handle_event h (Error e k recoverable) = Ok h') ->
  (forall h, should_continue_on_error h = true) ->
  resume [] = [] -> parser_reader p = [] -> records_parsed (stats p) <> 0 ->
  forall passes, parse_loop zstd_decode resume passes fuel version handler p = PDeep.
Proof.
  intros He Hc Hres Hr Hn passes. revert handler p Hr Hn.
  induction passes as [|passes IH]; intros handler p Hr Hn; [done|].
  cbn [parse_loop]. rewrite Hr. cbn [read_next_entry]. rewrite (proj2 (Z.eqb_neq _ _)) by done.
  destruct (He handler UnexpectedEof None (is_recoverable UnexpectedEof)) as [h ->].
  rewrite Hc. cbn [negb]. by apply IH.
Qed.
End Endless.
End Files.

(** ** Instances *)

Definition ex_crc (b : bytes) : Z := wrapu 32 (foldl Z.add 0 b).

Lemma ex_crc_u b : is_u 32 (ex_crc b).
Proof. apply Z.mod_pos_bound. lia. Qed.

Lemma ex_inverse : zstd_inverse ex_decode ex_compress.
Proof. intros b c [= <-]. by split. Qed.

Definition ex_items : list (bytes * ExValue) := [([97], ex_value); ([98; 99], VInt (-7))].

Lemma ex_streamable : Forall (streamable ex_compress 5 V3) ex_items.
Proof.
  apply Forall_cons; split; [|apply Forall_cons; split; [|by apply Forall_nil]].
  - split_and!; [by vm_compute|apply ex_storable|simpl; lia|]. eexists. split; [by vm_compute|by vm_compute].
  - split_and!; [by vm_compute|apply st_int; split; by vm_compute|simpl; lia|].
    eexists. split; [by vm_compute|by vm_compute].
Qed.

Lemma ex_dumpable : Forall (dumpable 5 V3) ex_items.
Proof.
  eapply Forall_impl; [apply ex_streamable|]. intros item (Hs & Hst & Hd & _). split_and!; [done|done|lia].
Qed.

Lemma stream_roundtrip_witness :
  exists w items', write_stream_versioned ex_compress ex_items V3 = Some w /\ items_load ex_items items' /\
    forall rest passes, (length ex_items < passes)%nat ->
      exists p, parse ex_decode (fun r => r) passes 5 [] (parser_new (w ++ rest) V3) = PDone items' p /\
        parser_reader p = rest /\ records_parsed (stats p) = 2 /\ errors_count (stats p) = 0.
Proof.
  apply (stream_roundtrip ex_compress ex_decode ex_items V3 V3 5);
    [done|exact ex_inverse|exact ex_streamable|].
  apply Forall_cons; split; [|apply Forall_cons; split; [|by apply Forall_nil]]; intros _; left; simpl; lia.
Defined.

Lemma stream_reader_roundtrip_witness :
  exists w items', write_stream_versioned ex_compress ex_items V3 = Some w /\ items_load ex_items items' /\
    forall rest passes, (length ex_items < passes)%nat ->
      exists sr, new_with_version (w ++ rest) V3 = Ok sr /\
        collect_stream ex_decode passes 5 sr = Some (items', None).
Proof.
  apply (stream_reader_roundtrip ex_compress ex_decode ex_items V3 V3 5);
    [done|exact ex_inverse|exact ex_streamable|].
  apply Forall_cons; split; [|apply Forall_cons; split; [|by apply Forall_nil]]; intros _; simpl; lia.
Defined.

Lemma dump_streaming_roundtrip_witness :
  exists body items', write_dump_streaming_versioned ex_crc ex_items V3 = Some (body ++ write_be 4 (ex_crc body)) /\
    items_load ex_items items' /\
    read_dump_with_version ex_crc ex_decode 5 (body ++ write_be 4 (ex_crc body)) V3 =
      match parse ex_decode (fun r => r) (Datatypes.S (length body)) 5 [] (parser_new body V3) with
      | PDone other _ => Ret other []
      | PErr _ _ => Ret items' []
      | PDeep => Deep
      end.
Proof.
  apply (dump_streaming_roundtrip ex_crc ex_decode ex_items V3 V3 5);
    [done|exact ex_crc_u|by vm_compute|exact ex_dumpable].
Defined.

(** The key of 255 bytes between the two items. *)
Lemma stream_end_mark_clash_witness :
  let w := default [] (write_stream_versioned ex_compress (ex_items ++ (replicate 255 65, VNull) :: ex_items) V3) in
  exists items', items_load ex_items items' /\
    forall passes, (length ex_items < passes)%nat ->
      exists p, parse ex_decode (fun r => r) passes 5 [] (parser_new w V3) = PDone items' p.
Proof.
  intros w. apply (stream_end_mark_clash ex_compress ex_decode ex_items (replicate 255 65) VNull ex_items V3 5 w);
    [done|exact ex_inverse|exact ex_streamable| | | | |].
  - apply Forall_cons; split; [|apply Forall_cons; split; [|by apply Forall_nil]]; intros _; left; simpl; lia.
  - by vm_compute.
  - rewrite length_replicate. lia.
  - by vm_compute.
  - by vm_compute.
Defined.

Lemma dump_count_end_mark_clash_witness :
  read_dump_with_version (H := SmartHash.SmartHash) (D := Dict.Dict bytes f64) (S := SkipList.SkipList f64 bytes)
    ex_crc ex_decode 2 (default [] (write_dump_streaming_versioned ex_crc
      (replicate 255 ([97], VNull) : list (bytes * ExValue)) V3)) V3 = Ret [] [].
Proof.
  apply (dump_count_end_mark_clash ex_crc ex_decode (replicate 255 ([97], VNull) : list (bytes * ExValue)) V3 2);
    [done|exact ex_crc_u|by vm_compute|rewrite length_replicate; lia|by vm_compute|by vm_compute].
Defined.

Lemma write_dump_unreadable_witness :
  exists e, read_dump_with_version (H := SmartHash.SmartHash) (D := Dict.Dict bytes f64)
    (S := SkipList.SkipList f64 bytes) ex_crc ex_decode 2
    (default [] (write_dump_versioned ex_crc ex_items V3)) V3 = Fail e.
Proof.
  apply (write_dump_unreadable ex_crc ex_decode (tl ex_items) [] ex_value V3 V3 2 97); [done|by vm_compute].
Defined.

(** A handler that counts what it is told and goes on. *)
Definition ex_tolerant : ParseHandler nat ExValue := {|
  handle_event := fun n _ => Ok (Datatypes.S n);
  should_continue_on_error := fun _ => true;
  finalize := fun n => Ok n;
|}.

Lemma parse_never_ends_witness :
  parse_loop (handler_ops := ex_tolerant) ex_decode (fun r => r) 1000 5 V3 0%nat
    (mkParser [] (Some V3) (mkStats 9 1 0 0 (Some V3)) V3) = PDeep.
Proof.
  apply (parse_never_ends (handler_ops := ex_tolerant) ex_decode (fun r => r)); try done.
  intros h e k b. by eexists.
Defined.
