(* ===== verification/Numbers.v ===== *)
(** * Floating-point numbers and the text of numbers

    The predicates and comparisons of [f64] that the program uses, on the bits of
    a number, its arithmetic (the binary64 of [SpecFloat]), and the text forms of
    numbers.  The printing and the parsing of [f64] are the standard library's and
    open here. *)
From Stdlib Require SpecFloat.
From S2P Require Import Prelude SdsNumeric ZdbValue.
Local Open Scope Z_scope.

Definition f64_magnitude (f : f64) : Z := Z.land (f64_bits f) (Z.ones 63).
Definition f64_infinity : Z := Z.shiftl 0x7FF 52.
Definition is_nan (f : f64) : bool := f64_infinity <? f64_magnitude f.
Definition is_infinite (f : f64) : bool := f64_magnitude f =? f64_infinity.
Definition is_sign_positive (f : f64) : bool := negb (Z.testbit (f64_bits f) 63).
Definition INFINITY : f64 := mkF64 f64_infinity.
Definition NEG_INFINITY : f64 := mkF64 (2 ^ 63 + f64_infinity).

(** [==] of [f64]. *)
Definition f64_eq (a b : f64) : bool :=
  negb (is_nan a) && negb (is_nan b) &&
  ((f64_bits a =? f64_bits b) || ((f64_magnitude a =? 0) && (f64_magnitude b =? 0))).

(** ** Text of numbers *)

(** [format!("{f:.5}")], [format!("{f}")] and [str::parse::<f64>]. *)
Class FloatText := {
  fmt_precise : f64 -> bytes;
  fmt_display : f64 -> bytes;
  parse_f64 : bytes -> option f64;
}.

(** ** Arithmetic

    The number that 64 bits stand for: a sign, 11 bits of exponent and 52 of
    fraction (IEEE 754). *)
Definition spec_of (f : f64) : SpecFloat.spec_float :=
  let s := Z.testbit (f64_bits f) 63 in
  let e := Z.land (Z.shiftr (f64_bits f) 52) 0x7FF in
  let m := Z.land (f64_bits f) (Z.ones 52) in
  if e =? 0x7FF then if m =? 0 then SpecFloat.S754_infinity s else SpecFloat.S754_nan
  else if e =? 0 then if m =? 0 then SpecFloat.S754_zero s else SpecFloat.S754_finite s (Z.to_pos m) (-1074)
  else SpecFloat.S754_finite s (Z.to_pos (m + 2 ^ 52)) (e - 1075).

(** The bits of a number; [NaN] has those of [f64::NAN]. *)
Definition of_spec (x : SpecFloat.spec_float) : f64 :=
  let sign (s : bool) := if s then 2 ^ 63 else 0 in
  mkF64 match x with
  | SpecFloat.S754_zero s => sign s
  | SpecFloat.S754_infinity s => sign s + f64_infinity
  | SpecFloat.S754_nan => Z.shiftl 0x7FF8 48
  | SpecFloat.S754_finite s m e =>
      if Z.pos m <? 2 ^ 52 then sign s + Z.pos m
      else sign s + Z.shiftl (e + 1075) 52 + (Z.pos m - 2 ^ 52)
  end.

(** [+] and [-]: rounded to the nearest, ties to even. *)
Definition f64_add (a b : f64) : f64 := of_spec (SpecFloat.SFadd 53 1024 (spec_of a) (spec_of b)).
Definition f64_sub (a b : f64) : f64 := of_spec (SpecFloat.SFsub 53 1024 (spec_of a) (spec_of b)).

Definition f64_mul (a b : f64) : f64 := of_spec (SpecFloat.SFmul 53 1024 (spec_of a) (spec_of b)).
Definition f64_div (a b : f64) : f64 := of_spec (SpecFloat.SFdiv 53 1024 (spec_of a) (spec_of b)).

(** [as f64] of an unsigned integer, and [<]. *)
Definition f64_of_int (n : Z) : f64 := of_spec (SpecFloat.binary_normalize 53 1024 n 0 false).
Definition f64_ltb (a b : f64) : bool := SpecFloat.SFltb (spec_of a) (spec_of b).

Definition f64_neg (f : f64) : f64 := mkF64 (Z.lxor (f64_bits f) (2 ^ 63)).
Definition is_finite (f : f64) : bool := f64_magnitude f <? f64_infinity.
Definition f64_zero : f64 := mkF64 0.

(** [format!("{i}")] of an integer. *)
Definition fmt_int (i : Z) : bytes := if i <? 0 then 45 :: decimal (- i) else decimal i.

(** The bytes of the ASCII string literals of the source. *)
Definition ascii_bytes (s : string) : bytes :=
  (fun c => Z.of_nat (Ascii.nat_of_ascii c)) <$> String.list_ascii_of_string s.

(** 0.1 + 0.2, an overflow, a subnormal number and a signed zero. *)
Example f64_add_ex :
  f64_add (mkF64 0x3FB999999999999A) (mkF64 0x3FC999999999999A) = mkF64 0x3FD3333333333334 /\
  f64_add (mkF64 0x7FEFFFFFFFFFFFFF) (mkF64 0x7FEFFFFFFFFFFFFF) = INFINITY /\
  f64_add (mkF64 1) (mkF64 1) = mkF64 2 /\
  f64_sub (mkF64 0x3FF0000000000000) (mkF64 0x3FF0000000000000) = f64_zero /\
  f64_sub (mkF64 0x0010000000000000) (mkF64 1) = mkF64 0x000FFFFFFFFFFFFF.
Proof. by vm_compute. Qed.
