(* ===== verification/Zsp.v ===== *)
(** * Frames of the wire protocol

    Models the codec of [src/src/network/zsp/frame]: the frames of
    [zsp_types.rs], the encoder of [encoder.rs] and the resumable decoder of
    [decoder.rs].  Strings are their bytes.  The text of floating-point numbers
    is the standard library's, and open here ([FloatText]). *)
From S2P Require Import Prelude Interfaces SdsNumeric ZdbValue Numbers.
Local Open Scope Z_scope.

(** ** Frames *)

Inductive ZspFrame : Type :=
| InlineString (s : bytes)
| FrameError (s : bytes)
| Integer (i : Z)
| Float (f : f64)
| Bool (b : bool)
| BinaryString (b : option bytes)
| Array (items : list ZspFrame)
| Dictionary (items : list (bytes * ZspFrame))
| Set_ (members : list ZspFrame)
| Push (items : list ZspFrame)
| ZSet (entries : list (bytes * f64))
| Null.

Fixpoint all2 {A B} (f : A -> B -> bool) (l : list A) (k : list B) : bool :=
  match l, k with
  | [], [] => true
  | x :: l, y :: k => f x y && all2 f l k
  | _, _ => false
  end.

(** The derived [PartialEq]: maps and sets up to the order of iteration. *)
Fixpoint frame_eq (a b : ZspFrame) : bool :=
  match a, b with
  | InlineString s, InlineString t | FrameError s, FrameError t => bool_decide (s = t)
  | Integer i, Integer j => i =? j
  | Float f, Float g => f64_eq f g
  | Bool x, Bool y => eqb x y
  | BinaryString x, BinaryString y => bool_decide (x = y)
  | Array l, Array k | Push l, Push k => all2 frame_eq l k
  | Dictionary l, Dictionary k =>
      (length l =? length k)%nat &&
      forallb (fun kv => match hm_get kv.1 k with Some v => frame_eq kv.2 v | None => false end) l
  | Set_ l, Set_ k => (length l =? length k)%nat && forallb (fun x => existsb (frame_eq x) k) l
  | ZSet l, ZSet k => all2 (fun x y => bool_decide (x.1 = y.1) && f64_eq x.2 y.2) l k
  | Null, Null => true
  | _, _ => false
  end.

Definition CR : Z := 13.
Definition LF : Z := 10.
Definition CRLF : bytes := [CR; LF].

(** ** Limits *)

Definition MAX_BINARY_LENGTH : Z := 512 * 1024 * 1024.
Definition MAX_ARRAY_DEPTH : nat := 32.

(** ** Encoder *)

Inductive ZspEncodeError : Type := EncodeInvalidData (msg : string).

Definition has_crlf (s : bytes) : bool := existsb (fun b => (b =? CR) || (b =? LF)) s.

Definition validate_simple_string (s : bytes) : result ZspEncodeError unit :=
  if has_crlf s then Err (EncodeInvalidData "Simple string contains CR or LF characters") else Ok tt.

Definition validate_error_string (s : bytes) : result ZspEncodeError unit :=
  if has_crlf s then Err (EncodeInvalidData "Error message contains CR or LF characters") else Ok tt.

(** A prefix, a number and the end of the line. *)
Definition number_line (prefix : Z) (n : Z) : bytes := prefix :: fmt_int n ++ CRLF.

(** A binary string with its length. *)
Definition bulk (b : bytes) : bytes := number_line 36 (Z.of_nat (length b)) ++ b ++ CRLF.

Section Codec.
Context {text : FloatText} {dict_order : HashOrder (bytes * ZspFrame)} {set_order : HashOrder ZspFrame}.

Definition encode_float (f : f64) : bytes :=
  if is_infinite f then
    if is_sign_positive f then ascii_bytes ",inf" ++ CRLF else ascii_bytes ",-inf" ++ CRLF
  else 44 :: fmt_precise f ++ CRLF.

(** A loop that appends what [f] encodes. *)
Definition encode_each {A} (f : A -> result ZspEncodeError bytes) : list A -> result ZspEncodeError bytes :=
  fix go l :=
    match l with
    | [] => Ok []
    | x :: l => let? a := f x in let? b := go l in Ok (a ++ b)
    end.

Fixpoint encode_frame (frame : ZspFrame) (current_depth : nat) : result ZspEncodeError bytes :=
  if (MAX_ARRAY_DEPTH <? current_depth)%nat then Err (EncodeInvalidData "Max array depth exceed")
  else
    match frame with
    | InlineString s => let? _ := validate_simple_string s in Ok (43 :: s ++ CRLF)
    | FrameError s => let? _ := validate_error_string s in Ok (45 :: s ++ CRLF)
    | Integer i => Ok (number_line 58 i)
    | Float f => Ok (encode_float f)
    | Bool b => Ok (ascii_bytes (if b then "#t" else "#f") ++ CRLF)
    | BinaryString (Some b) =>
        if MAX_BINARY_LENGTH <? Z.of_nat (length b) then Err (EncodeInvalidData "Binary string too long")
        else Ok (bulk b)
    | BinaryString None => Ok (ascii_bytes "$-1" ++ CRLF)
    | Array [] => Ok (ascii_bytes "*0" ++ CRLF)
    | Array elements =>
        let? out := encode_each (fun e => encode_frame e (current_depth + 1)) elements in
        Ok (number_line 42 (Z.of_nat (length elements)) ++ out)
    | Dictionary [] => Ok (ascii_bytes "%0" ++ CRLF)
    | Dictionary items =>
        let? out := encode_each (fun kv =>
          let? v := encode_frame kv.2 (current_depth + 1) in Ok (bulk kv.1 ++ v)) items in
        Ok (number_line 37 (Z.of_nat (length items)) ++ out)
    | Set_ [] => Ok (ascii_bytes "~0" ++ CRLF)
    | Set_ members =>
        let? out := encode_each (fun e => encode_frame e (current_depth + 1)) members in
        Ok (number_line 126 (Z.of_nat (length members)) ++ out)
    | Push elements =>
        let? out := encode_each (fun e => encode_frame e (current_depth + 1)) elements in
        Ok (number_line 62 (Z.of_nat (length elements)) ++ out)
    | ZSet entries =>
        Ok (number_line 94 (Z.of_nat (length entries)) ++
            concat ((fun e => bulk e.1 ++ 44 :: fmt_display e.2 ++ CRLF) <$> entries))
    | Null => Ok (ascii_bytes "_" ++ CRLF)
    end.

Definition encode (frame : ZspFrame) : result ZspEncodeError bytes := encode_frame frame 0.

(** ** Decoder *)

Inductive ZspDecodeError : Type :=
| InvalidData (msg : string)
| UnexpectedEof (msg : string)
| InvalidUtf8 (msg : string).

Inductive ZspDecodeState : Type :=
| Initial
| PartialBinaryString (len : nat) (data : bytes)
| PartialArray (len : nat) (items : list ZspFrame) (remaining : nat)
| PartialDictionary (len : nat) (items : list (bytes * ZspFrame)) (remaining : nat) (pending_key : option bytes)
| PartialSet (len : nat) (items : list ZspFrame) (remaining : nat)
| PartialPush (len : nat) (items : list ZspFrame) (remaining : nat)
| PartialZSet (len : nat) (items : list (bytes * f64)) (pending_member : option bytes) (remaining : nat).

(** What [decode] returns, with the state of the decoder and what is left of
    the slice.  After an error the state is [Initial]; no caller looks at the
    slice then.  [DPanic] is a panic, [DDeep] an exhausted recursion. *)
Inductive decoded : Type :=
| DOk (frame : option ZspFrame) (state : ZspDecodeState) (rest : bytes)
| DErr (e : ZspDecodeError)
| DPanic
| DDeep.

(** A step that yields a value and the rest of the slice, or an error. *)
Definition line_reader (A : Type) : Type := bytes -> result ZspDecodeError (A * bytes).

(** [memchr(b'\r', slice)] *)
Fixpoint memchr_cr (slice : bytes) : option nat :=
  match slice with
  | [] => None
  | b :: slice => if b =? CR then Some 0%nat else n ← memchr_cr slice; Some (S n)
  end.

Definition read_line : line_reader bytes := fun slice =>
  match memchr_cr slice with
  | Some pos =>
      if (pos + 1 <? length slice)%nat && bool_decide (slice !! (pos + 1)%nat = Some LF) then
        let line := take pos slice in
        if is_utf8 line then Ok (line, drop (pos + 2) slice) else Err (InvalidUtf8 "Invalid UTF-8")
      else Err (UnexpectedEof "Incomplete line")
  | None => Err (UnexpectedEof "Incomplete line")
  end.

Definition expect_crlf (slice : bytes) : result ZspDecodeError bytes :=
  match slice with
  | 13 :: 10 :: rest => Ok rest
  | _ => Err (UnexpectedEof "Expected CRLF")
  end.

(** The length line of a compound frame: an [isize]. *)
Definition read_len (what : string) : line_reader Z := fun slice =>
  let? (line, rest) := read_line slice in
  match parse_int (- 2 ^ 63) (2 ^ 63 - 1) line with
  | Ok n => Ok (n, rest)
  | Err _ => Err (InvalidData what)
  end.

Definition done (frame : ZspFrame) (rest : bytes) : decoded := DOk (Some frame) Initial rest.

Definition parse_inline_string (slice : bytes) : decoded :=
  match read_line slice with Ok (line, rest) => done (InlineString line) rest | Err e => DErr e end.

Definition parse_error (slice : bytes) : decoded :=
  match read_line slice with Ok (line, rest) => done (FrameError line) rest | Err e => DErr e end.

Definition parse_integer (slice : bytes) : decoded :=
  match read_line slice with
  | Ok (line, rest) =>
      match parse_int (- 2 ^ 63) (2 ^ 63 - 1) line with
      | Ok num => done (Integer num) rest
      | Err _ => DErr (InvalidData "Invalid integer")
      end
  | Err e => DErr e
  end.

Definition parse_float (slice : bytes) : decoded :=
  match read_line slice with
  | Ok (line, rest) =>
      if bool_decide (line = ascii_bytes "inf") then done (Float INFINITY) rest
      else if bool_decide (line = ascii_bytes "-inf") then done (Float NEG_INFINITY) rest
      else
        match parse_f64 line with
        | Some num => done (Float num) rest
        | None => DErr (InvalidData "Invalid float")
        end
  | Err e => DErr e
  end.

Definition parse_bool (slice : bytes) : decoded :=
  match slice with
  | b :: c :: l :: rest =>
      if negb (c =? CR) || negb (l =? LF) then DErr (InvalidData "Invalid boolean format")
      else if b =? 116 then done (Bool true) rest
      else if b =? 102 then done (Bool false) rest
      else DErr (InvalidData "Unknown boolean value")
  | _ => DErr (UnexpectedEof "Incomplete boolean")
  end.

Definition parse_null (slice : bytes) : decoded :=
  match slice with
  | c :: l :: rest =>
      if negb (c =? CR) || negb (l =? LF) then DErr (InvalidData "Invalid null format") else done Null rest
  | _ => DErr (UnexpectedEof "Incomplete null")
  end.

(** Bytes of ASCII as a message. *)
Definition message_of (b : bytes) : string :=
  String.string_of_list_ascii ((fun c => Ascii.ascii_of_N (Z.to_N c)) <$> b).

Definition too_long (len : Z) : string :=
  message_of (ascii_bytes "Binary string too long (" ++ fmt_int len ++ ascii_bytes " > " ++
    fmt_int MAX_BINARY_LENGTH ++ ascii_bytes ")").

(** The payload read so far, with or without its end. *)
Definition finish_binary (data rest : bytes) : decoded :=
  match expect_crlf rest with
  | Ok rest => done (BinaryString (Some data)) rest
  | Err e => DErr e
  end.

Definition parse_binary_string (slice : bytes) : decoded :=
  match read_len "Invalid binary" slice with
  | Err e => DErr e
  | Ok (len, slice) =>
      if len =? -1 then done (BinaryString None) slice
      else if 0 <=? len then
        if MAX_BINARY_LENGTH <? len then DErr (InvalidData (too_long len))
        else
          let len := Z.to_nat len in
          let available := Nat.min (length slice) len in
          let data := take available slice in
          if (length data =? len)%nat then finish_binary data (drop available slice)
          else DOk None (PartialBinaryString len data) (drop available slice)
      else DErr (InvalidData "Negative binary length")
  end.

(** The state is not put back when the payload is still incomplete. *)
Definition continue_binary_string (slice : bytes) (len : nat) (data : bytes) : decoded :=
  let remaining_bytes := (len - length data)%nat in
  let available := Nat.min (length slice) remaining_bytes in
  let data := data ++ take available slice in
  if (length data =? len)%nat then finish_binary data (drop available slice)
  else DOk None Initial (drop available slice).

(** The capacity that [with_capacity] of the container of a kind of frame can be
    asked for; a larger one is a panic. *)
Context (max_items : ZspFrame -> Z).

Section Loops.
(** [dec] decodes one frame: [self.decode(slice)], in the state [Initial]. *)
Context (dec : bytes -> decoded).

(** How the loop over the items of a compound frame ends: with all items, or
    with no more input. *)
Inductive looped (A : Type) : Type :=
| LDone (items : A) (rest : bytes)
| LMore (items : A) (remaining : nat) (rest : bytes)
| LErr (e : ZspDecodeError)
| LPanic
| LDeep.
Arguments LDone {A} _ _.
Arguments LMore {A} _ _ _.
Arguments LErr {A} _.
Arguments LPanic {A}.
Arguments LDeep {A}.

(** The [while *remaining > 0] of arrays, sets and pushes.  A state that the
    inner call leaves behind is about to be overwritten. *)
Fixpoint items_loop (add : list ZspFrame -> ZspFrame -> list ZspFrame) (remaining : nat)
    (items : list ZspFrame) (slice : bytes) : looped (list ZspFrame) :=
  match remaining with
  | O => LDone items slice
  | S r =>
      match dec slice with
      | DOk (Some frame) _ rest => items_loop add r (add items frame) rest
      | DOk None _ rest => LMore items remaining rest
      | DErr e => LErr e
      | DPanic => LPanic
      | DDeep => LDeep
      end
  end.

(** The key of a dictionary and the member of a sorted set. *)
Definition string_of_frame (not_utf8 not_string : string) (frame : ZspFrame) : result ZspDecodeError bytes :=
  match frame with
  | BinaryString (Some bs) => if is_utf8 bs then Ok bs else Err (InvalidData not_utf8)
  | InlineString s => Ok s
  | _ => Err (InvalidData not_string)
  end.

(** The two steps of the loops over pairs: read the first half if it is not
    pending, then the second half with [half]. *)
Fixpoint pairs_loop {V} (not_utf8 not_string : string) (half : ZspFrame -> result ZspDecodeError V)
    (add : list (bytes * V) -> bytes -> V -> list (bytes * V))
    (remaining : nat) (items : list (bytes * V)) (pending : option bytes) (slice : bytes)
  : looped (list (bytes * V) * option bytes) :=
  match remaining with
  | O => LDone (items, pending) slice
  | S r =>
      let second key slice :=
        match dec slice with
        | DOk (Some frame) _ rest =>
            match half frame with
            | Ok v => pairs_loop not_utf8 not_string half add r (add items key v) None rest
            | Err e => LErr e
            end
        | DOk None _ rest => LMore (items, Some key) remaining rest
        | DErr e => LErr e
        | DPanic => LPanic
        | DDeep => LDeep
        end in
      match pending with
      | Some key => second key slice
      | None =>
          match dec slice with
          | DOk (Some frame) _ rest =>
              match string_of_frame not_utf8 not_string frame with
              | Ok key => second key rest
              | Err e => LErr e
              end
          | DOk None _ rest => LMore (items, None) remaining rest
          | DErr e => LErr e
          | DPanic => LPanic
          | DDeep => LDeep
          end
      end
  end.

Definition push_item (items : list ZspFrame) (frame : ZspFrame) : list ZspFrame := items ++ [frame].

(** [HashSet::insert] *)
Definition set_insert (items : list ZspFrame) (frame : ZspFrame) : list ZspFrame :=
  if existsb (frame_eq frame) items then items else shuffle (items ++ [frame]).

(** [i as f64] of an [i64], with the rounding of the language. *)
Context (i64_as_f64 : Z -> f64).

Definition score_of_frame (frame : ZspFrame) : result ZspDecodeError f64 :=
  match frame with
  | Float f => Ok f
  | Integer i => Ok (i64_as_f64 i)
  | _ => Err (InvalidData "Expected float/integer for zset score")
  end.

Definition continue_items (add : list ZspFrame -> ZspFrame -> list ZspFrame)
    (make : list ZspFrame -> ZspFrame) (partial : nat -> list ZspFrame -> nat -> ZspDecodeState)
    (len remaining : nat) (items : list ZspFrame) (slice : bytes) : decoded :=
  match items_loop add remaining items slice with
  | LDone items rest => done (make items) rest
  | LMore items remaining rest => DOk None (partial len items remaining) rest
  | LErr e => DErr e
  | LPanic => DPanic
  | LDeep => DDeep
  end.

Definition continue_array : nat -> nat -> list ZspFrame -> bytes -> decoded :=
  continue_items push_item Array PartialArray.
Definition continue_push : nat -> nat -> list ZspFrame -> bytes -> decoded :=
  continue_items push_item Push PartialPush.
Definition continue_set : nat -> nat -> list ZspFrame -> bytes -> decoded :=
  continue_items set_insert Set_ PartialSet.

Definition continue_dictionary (len remaining : nat) (items : list (bytes * ZspFrame))
    (pending_key : option bytes) (slice : bytes) : decoded :=
  match pairs_loop "Key not UTF-8" "Expected string key" (fun f => Ok f)
      (fun items key v => (hm_insert key v items).2) remaining items pending_key slice with
  | LDone (items, _) rest => done (Dictionary items) rest
  | LMore (items, pending_key) remaining rest => DOk None (PartialDictionary len items remaining pending_key) rest
  | LErr e => DErr e
  | LPanic => DPanic
  | LDeep => DDeep
  end.

Definition continue_zset (len remaining : nat) (items : list (bytes * f64))
    (pending_member : option bytes) (slice : bytes) : decoded :=
  match pairs_loop "Invalid UTF-8 in zset member" "Expected string for zset member" score_of_frame
      (fun items key v => items ++ [(key, v)]) remaining items pending_member slice with
  | LDone (items, _) rest => done (ZSet items) rest
  | LMore (items, pending_member) remaining rest => DOk None (PartialZSet len items pending_member remaining) rest
  | LErr e => DErr e
  | LPanic => DPanic
  | LDeep => DDeep
  end.

(** What the parsers of compound frames share: the length line, the lengths
    that stand for an empty frame, the reservation, the loop. *)
Definition parse_compound (what negative : string) (empty_lens : list Z) (empty : ZspFrame)
    (loop : nat -> bytes -> decoded) (slice : bytes) : decoded :=
  match read_len what slice with
  | Err e => DErr e
  | Ok (len, slice) =>
      if bool_decide (len ∈ empty_lens) then done empty slice
      else if 0 <? len then
        if max_items empty <? len then DPanic else loop (Z.to_nat len) slice
      else DErr (InvalidData negative)
  end.

(** The depth is checked against what the only caller passes, zero. *)
Definition parse_array (depth : nat) (slice : bytes) : decoded :=
  if (MAX_ARRAY_DEPTH <? depth)%nat then DErr (InvalidData "Max array depth exceeded")
  else
    parse_compound "Invalid array length" "Negative array length" [-1; 0] (Array [])
      (fun len slice => continue_array len len [] slice) slice.

Definition parse_dictionary (slice : bytes) : decoded :=
  parse_compound "Invalid dictionary length" "Negative dictionary length" [0] (Dictionary [])
    (fun len slice => continue_dictionary len len [] None slice) slice.

Definition parse_set (slice : bytes) : decoded :=
  parse_compound "Invalid set length" "Negative set length" [0] (Set_ [])
    (fun len slice => continue_set len len [] slice) slice.

Definition parse_push (slice : bytes) : decoded :=
  parse_compound "Invalid push length" "Negative push length" [0] (Push [])
    (fun len slice => continue_push len len [] slice) slice.

Definition parse_zset (slice : bytes) : decoded :=
  parse_compound "Invalid zset length" "Invalid zset length" [-1; 0] (ZSet [])
    (fun len slice => continue_zset len len [] None slice) slice.

Definition initial_decode (slice : bytes) : decoded :=
  match slice with
  | [] => DOk None Initial []
  | b :: slice =>
      if b =? 43 then parse_inline_string slice
      else if b =? 45 then parse_error slice
      else if b =? 58 then parse_integer slice
      else if b =? 44 then parse_float slice
      else if b =? 35 then parse_bool slice
      else if b =? 36 then parse_binary_string slice
      else if b =? 95 then parse_null slice
      else if b =? 42 then parse_array 0 slice
      else if b =? 37 then parse_dictionary slice
      else if b =? 126 then parse_set slice
      else if b =? 62 then parse_push slice
      else if b =? 94 then parse_zset slice
      else DErr (InvalidData "Unknown ZSP/RESP3 type")
  end.

Definition decode_from (state : ZspDecodeState) (slice : bytes) : decoded :=
  match state with
  | Initial => initial_decode slice
  | PartialBinaryString len data => continue_binary_string slice len data
  | PartialArray len items remaining => continue_array len remaining items slice
  | PartialDictionary len items remaining pending_key => continue_dictionary len remaining items pending_key slice
  | PartialSet len items remaining => continue_set len remaining items slice
  | PartialPush len items remaining => continue_push len remaining items slice
  | PartialZSet len items pending_member remaining => continue_zset len remaining items pending_member slice
  end.
End Loops.

(** [decode]: the state is taken out, so that the calls inside start from
    [Initial]; [fuel] bounds the nesting of the calls. *)
Fixpoint decode (i64_as_f64 : Z -> f64) (fuel : nat) (state : ZspDecodeState) (slice : bytes) : decoded :=
  match fuel with
  | O => DDeep
  | S fuel => decode_from (decode i64_as_f64 fuel Initial) i64_as_f64 state slice
  end.
End Codec.
