(* ===== verification/ZspCodec.v ===== *)
(** * What the wire protocol delivers

    The properties of the codec of [Zsp]: what is encoded is decoded, decoding
    ends on any input, and what happens to a frame that comes in parts. *)
From S2P Require Import Prelude Interfaces SdsNumeric ZdbValue Numbers Zsp.
Local Open Scope Z_scope.

(** ** The text of numbers, as its documentation has it

    The text has no line breaks.  A number printed in full is read back as
    itself, infinities have the names that the decoder knows, a NaN is read back
    as a NaN; a number printed with five digits is read back as some number. *)
Definition plain_text (s : bytes) : Prop := is_utf8 s = true /\ has_crlf s = false.

Definition infinity_text (f : f64) : bytes := ascii_bytes (if is_sign_positive f then "inf" else "-inf").

Class FloatTextLaws {text : FloatText} : Prop := {
  display_infinite f : is_infinite f = true -> fmt_display f = infinity_text f;
  display_plain f : is_infinite f = false ->
    plain_text (fmt_display f) /\ forall g, fmt_display f <> infinity_text g;
  display_parse f : is_u 64 (f64_bits f) -> is_infinite f = false -> is_nan f = false ->
    parse_f64 (fmt_display f) = Some f;
  display_nan f : is_nan f = true -> exists g, parse_f64 (fmt_display f) = Some g /\ is_nan g = true;
  precise_plain f : is_infinite f = false ->
    plain_text (fmt_precise f) /\ (forall g, fmt_precise f <> infinity_text g) /\
    is_Some (parse_f64 (fmt_precise f));
}.

(** ** Lines *)

Lemma has_crlf_cons b s : has_crlf (b :: s) = false <-> b <> CR /\ b <> LF /\ has_crlf s = false.
Proof. unfold has_crlf. simpl. rewrite orb_false_iff, orb_false_iff, !Z.eqb_neq. tauto. Qed.

Lemma memchr_cr_line s rest : has_crlf s = false -> memchr_cr (s ++ CR :: rest) = Some (length s).
Proof.
  induction s as [|b s IH]; [done|]. intros (Hb & _ & Hs)%has_crlf_cons. cbn [app memchr_cr].
  by rewrite (proj2 (Z.eqb_neq _ _)), IH.
Qed.

Lemma read_line_line s rest : plain_text s -> read_line (s ++ CRLF ++ rest) = Ok (s, rest).
Proof.
  intros [Hu Hc]. unfold read_line, CRLF. cbn [app]. rewrite memchr_cr_line by done.
  rewrite length_app. cbn [length]. rewrite (proj2 (Nat.ltb_lt _ _)) by lia.
  rewrite lookup_app_r by lia. replace (length s + 1 - length s)%nat with 1%nat by lia.
  rewrite bool_decide_true by done. cbn [andb]. rewrite take_app_length, Hu.
  replace (length s + 2)%nat with (length (s ++ [CR; LF])) by (rewrite length_app; simpl; lia).
  change (s ++ CR :: LF :: rest) with (s ++ [CR; LF] ++ rest). by rewrite app_assoc, drop_app_length.
Qed.

Lemma digits_plain s : Forall (fun b => 45 <= b <= 57) s -> plain_text s.
Proof.
  intros Hs. split.
  - apply is_utf8_ascii. eapply Forall_impl; [exact Hs|]. simpl. lia.
  - induction Hs as [|b s Hb _ IH]; [done|]. apply has_crlf_cons. unfold CR, LF. split_and!; [lia|lia|done].
Qed.

Lemma fmt_int_plain i : plain_text (fmt_int i).
Proof.
  apply digits_plain. unfold fmt_int.
  assert (forall n, Forall (fun b => 45 <= b <= 57) (decimal n)) as Hd.
  { intros n. eapply Forall_impl; [apply decimal_ascii|]. simpl. lia. }
  case_match; [constructor; [lia|]|]; apply Hd.
Qed.

Lemma parse_fmt_int i : is_s 64 i -> parse_int (- 2 ^ 63) (2 ^ 63 - 1) (fmt_int i) = Ok i.
Proof.
  unfold is_s, fmt_int. change (2 ^ (64 - 1)) with (2 ^ 63). intros Hi. destruct (Z.ltb_spec i 0).
  - rewrite parse_int_negative by lia. f_equal. lia.
  - apply parse_int_decimal; lia.
Qed.

Lemma read_len_line what i rest : is_s 64 i -> read_len what (fmt_int i ++ CRLF ++ rest) = Ok (i, rest).
Proof.
  intros Hi. unfold read_len. rewrite read_line_line by apply fmt_int_plain. cbn [rbind].
  by rewrite parse_fmt_int.
Qed.

(** ** Sending *)

Section Delivery.
Context {text : FloatText} {laws : FloatTextLaws} {dict_order : HashOrder (bytes * ZspFrame)}
  {set_order : HashOrder ZspFrame}.
Context (max_items : ZspFrame -> Z) (i64_as_f64 : Z -> f64).
Notation decode := (decode max_items i64_as_f64).

(** A byte string that [dec] takes for a frame, whatever follows. *)
Definition sends (dec : bytes -> decoded) (w : bytes) (f : ZspFrame) : Prop :=
  forall rest, dec (w ++ rest) = done f rest.

(** The frames that a [ZspFrame] can be: strings are UTF-8, integers are of 64
    bits, no key or member is there twice, and no container is larger than it
    can be.  Members of sets are strings, numbers without a point or nothing. *)
Definition set_member (f : ZspFrame) : Prop :=
  match f with
  | InlineString s => is_utf8 s = true
  | Integer i => is_s 64 i
  | BinaryString _ | Bool _ | Null => True
  | _ => False
  end.

Definition fits (kind : ZspFrame) (n : nat) : Prop := Z.of_nat n < 2 ^ 63 /\ Z.of_nat n <= max_items kind.

Inductive well_typed : ZspFrame -> Prop :=
| wt_inline s : is_utf8 s = true -> well_typed (InlineString s)
| wt_error s : is_utf8 s = true -> well_typed (FrameError s)
| wt_integer i : is_s 64 i -> well_typed (Integer i)
| wt_float f : is_u 64 (f64_bits f) -> well_typed (Float f)
| wt_bool b : well_typed (Bool b)
| wt_binary b : well_typed (BinaryString b)
| wt_array l : fits (Array []) (length l) -> Forall well_typed l -> well_typed (Array l)
| wt_dictionary l : fits (Dictionary []) (length l) -> NoDup l.*1 ->
    Forall (fun kv => is_utf8 kv.1 = true /\ Z.of_nat (length kv.1) <= MAX_BINARY_LENGTH /\ well_typed kv.2) l ->
    well_typed (Dictionary l)
| wt_set l : fits (Set_ []) (length l) -> NoDup l -> Forall set_member l -> well_typed (Set_ l)
| wt_push l : fits (Push []) (length l) -> Forall well_typed l -> well_typed (Push l)
| wt_zset l : fits (ZSet []) (length l) ->
    Forall (fun e => is_utf8 e.1 = true /\ Z.of_nat (length e.1) <= MAX_BINARY_LENGTH /\ is_u 64 (f64_bits e.2)) l ->
    well_typed (ZSet l)
| wt_null : well_typed Null.

Definition same_float (f g : f64) : Prop := f = g \/ (is_nan f = true /\ is_nan g = true).

(** What a frame arrives as: a float with five digits, maps and sets in any
    order, everything else as it was. *)
Inductive received : ZspFrame -> ZspFrame -> Prop :=
| rc_inline s : received (InlineString s) (InlineString s)
| rc_error s : received (FrameError s) (FrameError s)
| rc_integer i : received (Integer i) (Integer i)
| rc_infinite f : is_infinite f = true -> received (Float f) (Float f)
| rc_float f g : is_infinite f = false -> parse_f64 (fmt_precise f) = Some g -> received (Float f) (Float g)
| rc_bool b : received (Bool b) (Bool b)
| rc_binary b : received (BinaryString b) (BinaryString b)
| rc_array l l' : Forall2 received l l' -> received (Array l) (Array l')
| rc_dictionary l l1 l' : Forall2 (fun a b => a.1 = b.1 /\ received a.2 b.2) l l1 -> l1 ≡ₚ l' ->
    received (Dictionary l) (Dictionary l')
| rc_set l l' : l ≡ₚ l' -> received (Set_ l) (Set_ l')
| rc_push l l' : Forall2 received l l' -> received (Push l) (Push l')
| rc_zset l l' : Forall2 (fun a b => a.1 = b.1 /\ same_float a.2 b.2) l l' -> received (ZSet l) (ZSet l')
| rc_null : received Null Null.

(** The nesting of a frame. *)
Fixpoint fdepth (f : ZspFrame) : nat :=
  match f with
  | Array l | Set_ l | Push l => S (foldr (fun x n => Nat.max (fdepth x) n) 0%nat l)
  | Dictionary l => S (foldr (fun kv n => Nat.max (fdepth kv.2) n) 0%nat l)
  | ZSet _ => 1
  | _ => 0
  end.

Lemma fdepth_items {A} (g : A -> ZspFrame) l x :
  x ∈ l -> (fdepth (g x) <= foldr (fun x n => Nat.max (fdepth (g x)) n) 0%nat l)%nat.
Proof. induction l; intros H; [by apply elem_of_nil in H|]. apply elem_of_cons in H as [->|H]; simpl; [lia|]. specialize (IHl H). lia. Qed.

(** *** Scalars *)

Lemma bulk_sends fuel b rest :
  Z.of_nat (length b) <= MAX_BINARY_LENGTH -> (0 < fuel)%nat ->
  decode fuel Initial (bulk b ++ rest) = done (BinaryString (Some b)) rest.
Proof.
  intros Hl Hf. destruct fuel as [|fuel]; [lia|]. unfold bulk, number_line. rewrite <- !app_assoc. cbn [app].
  cbn [Zsp.decode decode_from initial_decode Z.eqb Pos.eqb]. rewrite <- !app_assoc. unfold parse_binary_string.
  unfold MAX_BINARY_LENGTH in *. rewrite read_len_line by (unfold is_s; lia).
  rewrite (proj2 (Z.eqb_neq _ _)), (proj2 (Z.leb_le _ _)), (proj2 (Z.ltb_ge _ _)), Nat2Z.id by lia.
  rewrite !length_app, Nat.min_r, take_app_length, drop_app_length by lia. rewrite Nat.eqb_refl. done.
Qed.

Lemma infinite_bits f : is_u 64 (f64_bits f) -> is_infinite f = true ->
  f = if is_sign_positive f then INFINITY else NEG_INFINITY.
Proof.
  destruct f as [x]. unfold is_infinite, f64_magnitude, is_sign_positive, INFINITY, NEG_INFINITY, is_u. cbn [f64_bits].
  intros Hx Hi%Z.eqb_eq. rewrite Z.land_ones in Hi by lia.
  pose proof (Z.div_mod x (2 ^ 63) ltac:(lia)) as Hd. rewrite Hi in Hd.
  rewrite Z.testbit_odd, Z.shiftr_div_pow2 by lia.
  assert (x / 2 ^ 63 = 0 \/ x / 2 ^ 63 = 1) as [E|E].
  { assert (0 <= x / 2 ^ 63 < 2); [|lia]. split; [apply Z.div_pos; lia|apply Z.div_lt_upper_bound; lia]. }
  - rewrite E in *. simpl. f_equal. lia.
  - rewrite E in *. cbn [Z.odd negb]. f_equal. lia.
Qed.

Lemma infinity_plain f : plain_text (infinity_text f).
Proof. unfold infinity_text. destruct (is_sign_positive f); by vm_compute. Qed.

(** A line of a float is read as the number that its text stands for. *)
Lemma float_line_sends fuel s g rest :
  plain_text s -> (forall f, s <> infinity_text f) -> parse_f64 s = Some g -> (0 < fuel)%nat ->
  decode fuel Initial (44 :: s ++ CRLF ++ rest) = done (Float g) rest.
Proof.
  intros Hp Hn Hg Hf. destruct fuel as [|fuel]; [lia|].
  cbn [Zsp.decode decode_from initial_decode Z.eqb Pos.eqb]. unfold parse_float. rewrite read_line_line by done.
  pose proof (Hn INFINITY) as H1. pose proof (Hn NEG_INFINITY) as H2.
  change (infinity_text INFINITY) with (ascii_bytes "inf") in H1.
  change (infinity_text NEG_INFINITY) with (ascii_bytes "-inf") in H2.
  by rewrite !bool_decide_false, Hg.
Qed.

Lemma infinity_line_sends fuel f rest :
  is_u 64 (f64_bits f) -> is_infinite f = true -> (0 < fuel)%nat ->
  decode fuel Initial (44 :: infinity_text f ++ CRLF ++ rest) = done (Float f) rest.
Proof.
  intros Hb Hi Hf. destruct fuel as [|fuel]; [lia|].
  cbn [Zsp.decode decode_from initial_decode Z.eqb Pos.eqb]. unfold parse_float.
  rewrite read_line_line by apply infinity_plain. pose proof (infinite_bits f Hb Hi) as E. unfold infinity_text.
  destruct (is_sign_positive f); by rewrite E.
Qed.

(** The text of a score. *)
Lemma score_sends f :
  is_u 64 (f64_bits f) ->
  exists g, same_float f g /\
    forall fuel, (0 < fuel)%nat -> sends (decode fuel Initial) (44 :: fmt_display f ++ CRLF) (Float g).
Proof.
  intros Hb. destruct (is_infinite f) eqn:Hi.
  - exists f. split; [by left|]. intros fuel Hf rest. rewrite display_infinite by done. cbn [app].
    rewrite <- !app_assoc. by apply infinity_line_sends.
  - destruct (display_plain f Hi) as [Hp Hne]. destruct (is_nan f) eqn:Hn.
    + destruct (display_nan f Hn) as (g & Hg & Hgn). exists g. split; [by right|]. intros fuel Hf rest. cbn [app].
      rewrite <- !app_assoc. by apply float_line_sends.
    + exists f. split; [by left|]. intros fuel Hf rest. cbn [app]. rewrite <- !app_assoc.
      apply float_line_sends; [done|done|by apply display_parse|done].
Qed.

Lemma float_sends f :
  is_u 64 (f64_bits f) ->
  exists g, received (Float f) (Float g) /\
    forall fuel, (0 < fuel)%nat -> sends (decode fuel Initial) (encode_float f) (Float g).
Proof.
  intros Hb. unfold encode_float. destruct (is_infinite f) eqn:Hi.
  - exists f. split; [by constructor|]. intros fuel Hf rest.
    pose proof (infinity_line_sends fuel f rest Hb Hi Hf) as H. unfold infinity_text in H.
    by destruct (is_sign_positive f).
  - destruct (precise_plain f Hi) as (Hp & Hne & [g Hg]). exists g. split; [by constructor|].
    intros fuel Hf rest. cbn [app]. rewrite <- !app_assoc. by apply float_line_sends.
Qed.

(** *** Loops *)

Lemma encode_each_pieces {A} (f : A -> result ZspEncodeError bytes) l out :
  encode_each f l = Ok out -> exists ws, Forall2 (fun x w => f x = Ok w) l ws /\ out = concat ws.
Proof.
  revert out. induction l as [|x l IH]; intros out; cbn [encode_each].
  - intros [= <-]. by exists [].
  - intros (a & Ha & (b & Hb & [= <-])%rbind_Ok)%rbind_Ok. destruct (IH b Hb) as (ws & Hws & ->).
    exists (a :: ws). split; [by constructor|done].
Qed.

Lemma items_loop_sends dec add ws l items rest :
  Forall2 (sends dec) ws l ->
  items_loop dec add (length ws) items (concat ws ++ rest) = LDone _ (foldl add items l) rest.
Proof.
  intros Hs. revert items. induction Hs as [|w x ws l Hw _ IH]; intros items; [done|].
  cbn [length items_loop concat]. rewrite <- app_assoc, Hw. unfold done. by rewrite IH.
Qed.

Lemma foldl_push items l : foldl push_item items l = items ++ l.
Proof.
  revert items. induction l as [|x l IH]; intros items; simpl; [by rewrite app_nil_r|].
  rewrite IH. unfold push_item. by rewrite <- app_assoc.
Qed.

Lemma set_member_eq x y : set_member x -> set_member y -> frame_eq x y = true <-> x = y.
Proof.
  destruct x as [s| |i| |b|o| | | | | |], y as [s'| |i'| |b'|o'| | | | | |]; try done; intros _ _; simpl;
    rewrite ?bool_decide_eq_true, ?Z.eqb_eq; try (split; congruence).
  destruct b, b'; simpl; split; congruence.
Qed.

Lemma foldl_set_insert items l :
  NoDup (items ++ l) -> Forall set_member (items ++ l) -> foldl set_insert items l ≡ₚ items ++ l.
Proof.
  revert items. induction l as [|x l IH]; intros items Hnd Hm; simpl; [by rewrite app_nil_r|].
  assert (set_insert items x = shuffle (items ++ [x])) as ->.
  { unfold set_insert. destruct (existsb (frame_eq x) items) eqn:E; [|done]. exfalso.
    apply existsb_exists in E as (y & Hy & Hxy). apply list_elem_of_In in Hy.
    apply Forall_app in Hm as [Hm1 Hm2]. rewrite Forall_forall in Hm1, Hm2.
    apply set_member_eq in Hxy as ->; [|apply Hm2; by left|by apply Hm1].
    apply NoDup_app in Hnd as (_ & Hd & _). apply (Hd y Hy). by left. }
  assert (shuffle (items ++ [x]) ++ l ≡ₚ items ++ x :: l) as Hp.
  { rewrite shuffle_perm, <- app_assoc. done. }
  rewrite IH; [done|by rewrite Hp|by rewrite Hp].
Qed.

Lemma hm_insert_new {V} {ord : HashOrder (bytes * V)} k (v : V) (m : list (bytes * V)) :
  k ∉ m.*1 -> (hm_insert k v m).2 ≡ₚ m ++ [(k, v)].
Proof.
  intros Hk. unfold hm_insert. assert (hm_get k m = None) as ->; [|simpl; apply shuffle_perm].
  induction m as [|[k' v'] m IH]; [done|]. simpl in *. apply not_elem_of_cons in Hk as [Hne Hk].
  rewrite decide_False by congruence. by apply IH.
Qed.

Lemma foldl_hm_insert {V} {ord : HashOrder (bytes * V)} (m l : list (bytes * V)) :
  NoDup (m ++ l).*1 -> foldl (fun m kv => (hm_insert kv.1 kv.2 m).2) m l ≡ₚ m ++ l.
Proof.
  revert m. induction l as [|[k v] l IH]; intros m Hnd; simpl; [by rewrite app_nil_r|].
  assert (k ∉ m.*1) as Hk.
  { rewrite fmap_app in Hnd. apply NoDup_app in Hnd as (_ & Hd & _). intros Hk. apply (Hd k Hk). by left. }
  pose proof (hm_insert_new k v m Hk) as Hp.
  assert ((hm_insert k v m).2 ++ l ≡ₚ m ++ (k, v) :: l) as Hp' by (rewrite Hp, <- app_assoc; done).
  rewrite IH; [done|by rewrite Hp'].
Qed.

(** A pair on the wire. *)
Definition pair_sends {V} (dec : bytes -> decoded) (half : ZspFrame -> result ZspDecodeError V)
    (w : bytes) (kv : bytes * V) : Prop :=
  exists w2 f, w = bulk kv.1 ++ w2 /\ sends dec (bulk kv.1) (BinaryString (Some kv.1)) /\
    is_utf8 kv.1 = true /\ sends dec w2 f /\ half f = Ok kv.2.

Lemma pairs_loop_sends {V} dec n1 n2 (half : ZspFrame -> result ZspDecodeError V) add ws l items rest :
  Forall2 (pair_sends dec half) ws l ->
  pairs_loop dec n1 n2 half add (length ws) items None (concat ws ++ rest) =
    LDone _ (foldl (fun items kv => add items kv.1 kv.2) items l, None) rest.
Proof.
  intros Hs. revert items. induction Hs as [|w [k v] ws l (w2 & f & -> & Hk & Hu & Hw & Hh) _ IH]; intros items; [done|].
  cbn [length pairs_loop concat fst snd] in *. rewrite <- !app_assoc, Hk. unfold done. cbn [string_of_frame].
  rewrite Hu, Hw. unfold done. rewrite Hh. apply IH.
Qed.

(** A compound frame whose loop gets that far. *)
Lemma compound_sends what negative empties empty n loop w f :
  fits empty n -> bool_decide (Z.of_nat n ∈ empties) = (n =? 0)%nat ->
  (n = 0%nat -> w = [] /\ f = empty) -> ((0 < n)%nat -> forall rest, loop n (w ++ rest) = done f rest) ->
  forall rest, parse_compound max_items what negative empties empty loop (fmt_int (Z.of_nat n) ++ CRLF ++ w ++ rest) = done f rest.
Proof.
  intros [H63 Hmax] He H0 Hl rest. unfold parse_compound. rewrite read_len_line by (unfold is_s; lia). rewrite He.
  destruct (Nat.eqb_spec n 0) as [->|Hn].
  - by destruct (H0 eq_refl) as [-> ->].
  - rewrite (proj2 (Z.ltb_lt _ _)), (proj2 (Z.ltb_ge _ _)), Nat2Z.id by lia. apply Hl. lia.
Qed.

(** *** All frames *)

Definition delivers (f : ZspFrame) (w : bytes) (f' : ZspFrame) : Prop :=
  received f f' /\ forall fuel, (fdepth f < fuel)%nat -> sends (decode fuel Initial) w f'.

Lemma delivered_items l ws (P : ZspFrame -> bytes -> Prop) :
  Forall2 P l ws -> (forall x w, x ∈ l -> P x w -> exists x', delivers x w x') ->
  exists l', Forall2 received l l' /\
    forall fuel, (foldr (fun x n => Nat.max (fdepth x) n) 0%nat l < fuel)%nat ->
      Forall2 (sends (decode fuel Initial)) ws l'.
Proof.
  intros HP IH. induction HP as [|x w l ws Hx HP IHl].
  - exists []. split; [constructor|]. intros. constructor.
  - destruct (IH x w ltac:(by left) Hx) as (x' & Hr & Hs).
    destruct IHl as (l' & Hl & Hsl); [intros y v Hy; apply IH; by right|].
    exists (x' :: l'). split; [by constructor|]. intros fuel Hf. simpl in Hf.
    constructor; [apply Hs; lia|apply Hsl; lia].
Qed.

(** The loops over items. *)
Lemma items_frame_sends fuel b what negative empties add make partial (l l' : list ZspFrame) ws :
  (forall fuel' slice, initial_decode max_items (decode fuel' Initial) i64_as_f64 (b :: slice) =
     parse_compound max_items what negative empties (make [])
       (fun len slice => continue_items (decode fuel' Initial) add make partial len len [] slice) slice) ->
  bool_decide (Z.of_nat (length l) ∈ empties) = (length l =? 0)%nat -> fits (make []) (length l) ->
  length l = length ws -> Forall2 (sends (decode fuel Initial)) ws l' ->
  sends (decode (S fuel) Initial) (number_line b (Z.of_nat (length l)) ++ concat ws) (make (foldl add [] l')).
Proof.
  intros Hb He Hfit Hlen Hs rest. unfold number_line. rewrite <- !app_assoc. cbn [app Zsp.decode decode_from].
  rewrite Hb, <- !app_assoc. apply compound_sends; [done|done| |].
  - intros Hl. rewrite Hlen in Hl. destruct ws; [|done]. by inversion Hs.
  - intros _ rest'. unfold continue_items. rewrite Hlen, (items_loop_sends _ _ ws l') by done. done.
Qed.

Lemma length_pieces {A} (P : A -> bytes -> Prop) l ws : Forall2 P l ws -> length l = length ws.
Proof. apply Forall2_length. Qed.


Lemma empties_len {A} (l : list A) (neg : bool) :
  bool_decide (Z.of_nat (length l) ∈ (if neg then [-1; 0] else [0])) = (length l =? 0)%nat.
Proof.
  destruct (Nat.eqb_spec (length l) 0) as [->|Hn].
  - apply bool_decide_true. destruct neg; set_solver.
  - apply bool_decide_false. destruct neg; rewrite !elem_of_cons, elem_of_nil; lia.
Qed.

(** The members of a set arrive as they are. *)
Lemma member_received x x' : set_member x -> received x x' -> x' = x.
Proof. destruct x; try done; intros _ Hr; by inversion Hr. Qed.

Lemma set_member_typed x : set_member x -> well_typed x.
Proof. destruct x; try done; by constructor. Qed.

Lemma members_received l l' : Forall set_member l -> Forall2 received l l' -> l' = l.
Proof.
  intros Hm Hr. induction Hr as [|x x' l l' Hx Hr IH]; [done|]. apply Forall_cons in Hm as [Hx' Hm].
  f_equal; [by apply member_received|by apply IH].
Qed.

Lemma delivered_pairs d (l : list (bytes * ZspFrame)) ws :
  Forall2 (fun kv w => (let? v := encode_frame kv.2 d in Ok (bulk kv.1 ++ v)) = Ok w) l ws ->
  (forall kv w, kv ∈ l -> encode_frame kv.2 d = Ok w -> exists v', delivers kv.2 w v') ->
  Forall (fun kv => is_utf8 kv.1 = true /\ Z.of_nat (length kv.1) <= MAX_BINARY_LENGTH /\ well_typed kv.2) l ->
  exists l', Forall2 (fun a b => a.1 = b.1 /\ received a.2 b.2) l l' /\
    forall fuel, (foldr (fun kv n => Nat.max (fdepth kv.2) n) 0%nat l < fuel)%nat ->
      Forall2 (pair_sends (decode fuel Initial) (fun f => Ok f)) ws l'.
Proof.
  intros HP IH Hwt. induction HP as [|[k v] w l ws Hx HP IHl].
  - exists []. split; [constructor|]. intros. constructor.
  - apply Forall_cons in Hwt as [(Hu & Hl & Hv) Hwt]. apply rbind_Ok in Hx as (vw & Hvw & [= <-]). cbn [fst snd] in *.
    destruct (IH (k, v) vw ltac:(by left) Hvw) as (v' & Hr & Hs).
    destruct IHl as (l' & Hl' & Hsl); [intros y u Hy; apply IH; by right|done|].
    exists ((k, v') :: l'). split; [by constructor|]. intros fuel Hf. simpl in Hf. constructor; [|apply Hsl; lia].
    exists vw, v'. split_and!; [done| |done|apply Hs; simpl; lia|done].
    intros rest. apply bulk_sends; [done|lia].
Qed.

Lemma delivered_scores (l : list (bytes * f64)) :
  Forall (fun e => is_utf8 e.1 = true /\ Z.of_nat (length e.1) <= MAX_BINARY_LENGTH /\ is_u 64 (f64_bits e.2)) l ->
  exists l', Forall2 (fun a b => a.1 = b.1 /\ same_float a.2 b.2) l l' /\
    forall fuel, (0 < fuel)%nat -> Forall2 (pair_sends (decode fuel Initial) (score_of_frame i64_as_f64))
      ((fun e => bulk e.1 ++ 44 :: fmt_display e.2 ++ CRLF) <$> l) l'.
Proof.
  intros Hl. induction Hl as [|[k f] l (Hu & Hk & Hb) _ IH].
  - exists []. split; [constructor|]. intros. constructor.
  - destruct IH as (l' & Hl' & Hs'). destruct (score_sends f Hb) as (g & Hg & Hsg).
    exists ((k, g) :: l'). split; [by constructor|]. intros fuel Hf. constructor; [|by apply Hs'].
    exists (44 :: fmt_display f ++ CRLF), (Float g). split_and!; [done| |done|by apply Hsg|done].
    intros rest. by apply bulk_sends.
Qed.

(** One step of the decoder on the first byte. *)
Lemma decode_first fuel b slice :
  decode (S fuel) Initial (b :: slice) = initial_decode max_items (decode fuel Initial) i64_as_f64 (b :: slice).
Proof. done. Qed.

Lemma line_sends fuel (b : Z) s (f : ZspFrame) (P : bytes -> decoded) rest :
  (forall slice, decode (S fuel) Initial (b :: slice) = P slice) -> P (s ++ CRLF ++ rest) = done f rest ->
  decode (S fuel) Initial ((b :: s ++ CRLF) ++ rest) = done f rest.
Proof. intros HP H. cbn [app]. by rewrite HP, <- app_assoc. Qed.

(** A frame without items. *)
Definition is_compound (f : ZspFrame) : bool :=
  match f with Array _ | Dictionary _ | Set_ _ | Push _ | ZSet _ => true | _ => false end.

Lemma scalar_delivers f d w :
  is_compound f = false -> encode_frame f d = Ok w -> well_typed f -> exists f', delivers f w f'.
Proof.
  intros Hc He Hwt. destruct Hwt as [s Hu|s Hu|i Hi|g Hb|b|[b|]| | | | | |]; try done;
    unfold encode_frame in He; (destruct (MAX_ARRAY_DEPTH <? d)%nat; [done|]).
  - apply rbind_Ok in He as ([] & Hv & [= <-]). exists (InlineString s). split; [by constructor|].
    intros [|fuel] Hf rest; [simpl in Hf; lia|]. unfold validate_simple_string in Hv. destruct (has_crlf s) eqn:Hl; [done|].
    apply (line_sends _ _ _ _ parse_inline_string); [done|]. unfold parse_inline_string.
    by rewrite read_line_line by done.
  - apply rbind_Ok in He as ([] & Hv & [= <-]). exists (FrameError s). split; [by constructor|].
    intros [|fuel] Hf rest; [simpl in Hf; lia|]. unfold validate_error_string in Hv. destruct (has_crlf s) eqn:Hl; [done|].
    apply (line_sends _ _ _ _ parse_error); [done|]. unfold parse_error. by rewrite read_line_line by done.
  - injection He as <-. exists (Integer i). split; [by constructor|].
    intros [|fuel] Hf rest; [simpl in Hf; lia|]. apply (line_sends _ _ _ _ parse_integer); [done|].
    unfold parse_integer. by rewrite read_line_line, parse_fmt_int by (done || apply fmt_int_plain).
  - injection He as <-. destruct (float_sends g Hb) as (g' & Hr & Hs). exists (Float g'). split; [done|].
    intros fuel Hf. apply Hs. simpl in Hf. lia.
  - injection He as <-. exists (Bool b). split; [by constructor|]. intros [|fuel] Hf rest; [simpl in Hf; lia|]. by destruct b.
  - destruct (MAX_BINARY_LENGTH <? Z.of_nat (length b)) eqn:Hl; [done|]. injection He as <-. bool_to_prop.
    exists (BinaryString (Some b)). split; [by constructor|]. intros fuel Hf rest. simpl in Hf. apply bulk_sends; [done|lia].
  - injection He as <-. exists (BinaryString None). split; [by constructor|].
    intros [|fuel] Hf rest; [simpl in Hf; lia|]. done.
  - injection He as <-. exists Null. split; [by constructor|]. intros [|fuel] Hf rest; [simpl in Hf; lia|]. done.
Qed.

(** A header, with or without a short form for no items, and the items. *)
Lemma pieces_of {A} (g : A -> result ZspEncodeError bytes) (l : list A) b short w :
  short = number_line b 0 \/ l <> [] ->
  match l with
  | [] => Ok short
  | _ => let? out := encode_each g l in Ok (number_line b (Z.of_nat (length l)) ++ out)
  end = Ok w ->
  exists ws, Forall2 (fun x w => g x = Ok w) l ws /\ w = number_line b (Z.of_nat (length l)) ++ concat ws.
Proof.
  intros Hs He. destruct l as [|x l].
  - injection He as <-. exists []. split; [constructor|]. destruct Hs as [->|]; [by rewrite app_nil_r|done].
  - apply rbind_Ok in He as (out & Hout & [= <-]). apply encode_each_pieces in Hout as (ws & Hws & ->). by exists ws.
Qed.

(** What the induction gives for the frames inside. *)
Definition below d (k : nat) : Prop :=
  forall x v, (fdepth x < k)%nat -> encode_frame x (d + 1) = Ok v -> well_typed x -> exists x', delivers x v x'.

Lemma below_items d k l ws :
  below d k -> (foldr (fun x n => Nat.max (fdepth x) n) 0%nat l < k)%nat -> Forall well_typed l ->
  Forall2 (fun x w => encode_frame x (d + 1) = Ok w) l ws ->
  exists l', Forall2 received l l' /\
    forall fuel, (foldr (fun x n => Nat.max (fdepth x) n) 0%nat l < fuel)%nat ->
      Forall2 (sends (decode fuel Initial)) ws l'.
Proof.
  intros IH Hl Hw HF. apply (delivered_items l ws _ HF). intros x v Hx Hv. rewrite Forall_forall in Hw.
  apply (IH x v); [|done|by apply Hw]. pose proof (fdepth_items (fun x => x) l x Hx). simpl in *. lia.
Qed.

(** Arrays and pushes. *)
Lemma list_delivers d make partial b what negative empties l ws :
  (forall l', fdepth (make l') = S (foldr (fun x n => Nat.max (fdepth x) n) 0%nat l')) ->
  (forall l', Forall2 received l l' -> received (make l) (make l')) ->
  (forall fuel' slice, initial_decode max_items (decode fuel' Initial) i64_as_f64 (b :: slice) =
     parse_compound max_items what negative empties (make [])
       (fun len slice => continue_items (decode fuel' Initial) push_item make partial len len [] slice) slice) ->
  bool_decide (Z.of_nat (length l) ∈ empties) = (length l =? 0)%nat -> fits (make []) (length l) ->
  Forall well_typed l -> below d (fdepth (make l)) -> Forall2 (fun x w => encode_frame x (d + 1) = Ok w) l ws ->
  exists f', delivers (make l) (number_line b (Z.of_nat (length l)) ++ concat ws) f'.
Proof.
  intros Hd Hrec Hb He Hfit Hl IH Hws.
  destruct (below_items d _ l ws IH ltac:(rewrite Hd; lia) Hl Hws) as (l' & Hr & Hs).
  exists (make l'). split; [by apply Hrec|]. intros [|fuel] Hf; [lia|]. rewrite Hd in Hf.
  replace (make l') with (make (foldl push_item [] l')) by (by rewrite foldl_push).
  eapply (items_frame_sends fuel b what negative empties push_item make partial l l' ws);
    [done|done|done|by eapply length_pieces|apply Hs; lia].
Qed.

Lemma set_delivers d l ws :
  fits (Set_ []) (length l) -> NoDup l -> Forall set_member l -> below d (fdepth (Set_ l)) ->
  Forall2 (fun x w => encode_frame x (d + 1) = Ok w) l ws ->
  exists f', delivers (Set_ l) (number_line 126 (Z.of_nat (length l)) ++ concat ws) f'.
Proof.
  intros Hfit Hnd Hl IH Hws.
  destruct (below_items d _ l ws IH ltac:(simpl; lia)) as (l' & Hr & Hs);
    [eapply Forall_impl; [exact Hl|apply set_member_typed]|done|].
  rewrite (members_received l l' Hl Hr) in Hs. exists (Set_ (foldl set_insert [] l)).
  split; [constructor; symmetry; by apply (foldl_set_insert [] l)|].
  intros [|fuel] Hf; [lia|]. specialize (Hs fuel ltac:(simpl in Hf; lia)).
  eapply (items_frame_sends fuel 126 _ _ [0] set_insert Set_ PartialSet l l ws);
    [done|apply (empties_len l false)|done|by eapply length_pieces|done].
Qed.

(** The pairs of a loop over [n] of them, after the header. *)
Lemma header_sends fuel b n rest :
  decode (S fuel) Initial (number_line b (Z.of_nat n) ++ rest) =
  initial_decode max_items (decode fuel Initial) i64_as_f64 (b :: fmt_int (Z.of_nat n) ++ CRLF ++ rest).
Proof. unfold number_line. cbn [app]. by rewrite decode_first, <- !app_assoc. Qed.

Lemma dictionary_delivers d l ws :
  fits (Dictionary []) (length l) -> NoDup l.*1 ->
  Forall (fun kv => is_utf8 kv.1 = true /\ Z.of_nat (length kv.1) <= MAX_BINARY_LENGTH /\ well_typed kv.2) l ->
  below d (fdepth (Dictionary l)) ->
  Forall2 (fun kv w => (let? v := encode_frame kv.2 (d + 1) in Ok (bulk kv.1 ++ v)) = Ok w) l ws ->
  exists f', delivers (Dictionary l) (number_line 37 (Z.of_nat (length l)) ++ concat ws) f'.
Proof.
  intros Hfit Hnd Hl IH Hws. destruct (delivered_pairs (d + 1) l ws Hws) as (l1 & Hr & Hs); [|done|].
  { intros kv v Hkv Hv. rewrite Forall_forall in Hl. apply (IH kv.2 v); [|done|by apply Hl].
    pose proof (fdepth_items snd l kv Hkv). simpl in *. lia. }
  assert (foldl (fun m kv => (hm_insert kv.1 kv.2 m).2) [] l1 ≡ₚ l1) as Hp.
  { apply (foldl_hm_insert [] l1). simpl. clear - Hr Hnd. assert (l1.*1 = l.*1) as ->; [|done].
    induction Hr as [|a b l l1 [Hab _] _ IH]; [done|]. simpl. rewrite Hab. f_equal. apply IH. by inversion Hnd. }
  eexists (Dictionary _). split; [eapply rc_dictionary; [exact Hr|symmetry; exact Hp]|].
  intros [|fuel] Hf rest; [lia|]. specialize (Hs fuel ltac:(simpl in Hf; lia)).
  rewrite <- app_assoc, header_sends. cbn [initial_decode Z.eqb Pos.eqb]. unfold parse_dictionary.
  pose proof (length_pieces _ _ _ Hws) as Hlen. apply compound_sends; [done|apply (empties_len l false)| |].
  - intros H0. rewrite Hlen in H0. destruct ws; [|done]. by inversion Hs.
  - intros _ rest'. unfold continue_dictionary. by rewrite Hlen, (pairs_loop_sends _ _ _ _ _ ws l1) by done.
Qed.

Lemma foldl_pairs {V} (acc l : list (bytes * V)) :
  foldl (fun items kv => items ++ [(kv.1, kv.2)]) acc l = acc ++ l.
Proof.
  revert acc. induction l as [|[k v] l IH]; intros acc; simpl; [by rewrite app_nil_r|]. by rewrite IH, <- app_assoc.
Qed.

Lemma zset_delivers (l : list (bytes * f64)) :
  fits (ZSet []) (length l) ->
  Forall (fun e => is_utf8 e.1 = true /\ Z.of_nat (length e.1) <= MAX_BINARY_LENGTH /\ is_u 64 (f64_bits e.2)) l ->
  exists f', delivers (ZSet l) (number_line 94 (Z.of_nat (length l)) ++
    concat ((fun e => bulk e.1 ++ 44 :: fmt_display e.2 ++ CRLF) <$> l)) f'.
Proof.
  intros Hfit Hl. destruct (delivered_scores l Hl) as (l' & Hr & Hs). exists (ZSet l'). split; [by constructor|].
  intros [|fuel] Hf rest; [lia|]. specialize (Hs fuel ltac:(simpl in Hf; lia)).
  rewrite <- app_assoc, header_sends. cbn [initial_decode Z.eqb Pos.eqb]. unfold parse_zset.
  apply compound_sends; [done|apply (empties_len l true)| |].
  - intros H0. destruct l; [|done]. by inversion Hr.
  - intros _ rest'. unfold continue_zset.
    replace (length l) with (length ((fun e => bulk e.1 ++ 44 :: fmt_display e.2 ++ CRLF) <$> l)) by apply length_fmap.
    rewrite (pairs_loop_sends _ _ _ _ _ _ l') by done. by rewrite (foldl_pairs []).
Qed.

Lemma compound_delivers f d w :
  is_compound f = true -> encode_frame f d = Ok w -> well_typed f -> below d (fdepth f) ->
  exists f', delivers f w f'.
Proof.
  intros Hc He Hwt IH.
  destruct Hwt as [| | | | | |l Hfit Hl|l Hfit Hnd Hl|l Hfit Hnd Hl|l Hfit Hl|l Hfit Hl|]; try done;
    unfold encode_frame in He; fold encode_frame in He;
    (destruct (MAX_ARRAY_DEPTH <? d)%nat; [done|]).
  - apply (pieces_of _ l 42) in He as (ws & Hws & ->); [|by left].
    by apply (list_delivers d Array PartialArray 42 _ _ [-1; 0] l ws (fun l => eq_refl) (rc_array l) (fun fuel s => eq_refl)
      (empties_len l true)).
  - apply (pieces_of _ l 37) in He as (ws & Hws & ->); [|by left]. by apply (dictionary_delivers d).
  - apply (pieces_of _ l 126) in He as (ws & Hws & ->); [|by left]. by apply (set_delivers d).
  - apply rbind_Ok in He as (out & Hout & [= <-]). apply encode_each_pieces in Hout as (ws & Hws & ->).
    by apply (list_delivers d Push PartialPush 62 _ _ [0] l ws (fun l => eq_refl) (rc_push l) (fun fuel s => eq_refl)
      (empties_len l false)).
  - injection He as <-. by apply zset_delivers.
Qed.

Lemma frame_delivers f d w :
  encode_frame f d = Ok w -> well_typed f -> exists f', delivers f w f'.
Proof.
  remember (fdepth f) as n eqn:Hn. revert f d w Hn. induction n as [n IH] using lt_wf_ind. intros f d w -> He Hwt.
  destruct (is_compound f) eqn:Hc; [|by eapply scalar_delivers].
  apply (compound_delivers f d); [done|done|done|]. intros x v Hx Hv Hw. by apply (IH (fdepth x) Hx x (d + 1)%nat v).
Qed.

(** ** Round trip *)

(** C16. What is encoded is delivered: the bytes of any frame that the encoder
    accepts, in front of any others, are decoded from the initial state into that
    frame, up to the order of maps and sets and the five digits of a float, in
    one call that leaves exactly the other bytes and the initial state. *)
Theorem zsp_roundtrip (frame : ZspFrame) (w : bytes) :
  well_typed frame -> encode frame = Ok w ->
  exists frame', received frame frame' /\
    forall fuel rest, (fdepth frame < fuel)%nat ->
      decode fuel Initial (w ++ rest) = DOk (Some frame') Initial rest.
Proof.
  intros Hwt He. destruct (frame_delivers frame 0 w He Hwt) as (frame' & Hr & Hs). exists frame'.
  split; [done|]. intros fuel rest Hf. by apply Hs.
Qed.

(** ** Decoding ends *)

(** A decoder that ends on slices of up to [n] bytes and gives none back. *)
Definition ends_on (n : nat) (dec : bytes -> decoded) : Prop :=
  forall slice, (length slice <= n)%nat ->
    match dec slice with DDeep => False | DOk _ _ rest => (length rest <= length slice)%nat | _ => True end.

Definition loop_ends {A} (n : nat) (r : looped A) : Prop :=
  match r with
  | LDeep _ => False
  | LDone _ _ rest => (length rest <= n)%nat
  | LMore _ _ _ rest => (length rest <= n)%nat
  | _ => True
  end.

Lemma loop_ends_le {A} m n (r : looped A) : (m <= n)%nat -> loop_ends m r -> loop_ends n r.
Proof. destruct r; simpl; try done; lia. Qed.

Lemma items_loop_ends n dec add remaining items slice :
  ends_on n dec -> (length slice <= n)%nat -> loop_ends (length slice) (items_loop dec add remaining items slice).
Proof.
  intros He. revert items slice. induction remaining as [|r IH]; intros items slice Hn; simpl; [done|].
  pose proof (He slice Hn) as Hd. destruct (dec slice) as [[f|] st rest|e| |]; simpl; try done.
  eapply loop_ends_le; [exact Hd|]. apply IH. lia.
Qed.

Lemma pairs_loop_ends {V} n dec n1 n2 (half : ZspFrame -> result ZspDecodeError V) add remaining items pending slice :
  ends_on n dec -> (length slice <= n)%nat ->
  loop_ends (length slice) (pairs_loop dec n1 n2 half add remaining items pending slice).
Proof.
  intros He. revert items pending slice. induction remaining as [|r IH]; intros items pending slice Hn; simpl; [done|].
  assert (forall key s, (length s <= length slice)%nat -> loop_ends (length slice)
    match dec s with
    | DOk (Some frame) _ rest =>
        match half frame with
        | Ok v => pairs_loop dec n1 n2 half add r (add items key v) None rest
        | Err e => LErr _ e
        end
    | DOk None _ rest => LMore _ (items, Some key) (S r) rest
    | DErr e => LErr _ e
    | DPanic => LPanic _
    | DDeep => LDeep _
    end) as H2.
  { intros key s Hs. pose proof (He s ltac:(lia)) as Hd. destruct (dec s) as [[f|] st rest|e| |]; simpl; try done; [|lia].
    destruct (half f); [|done]. eapply (loop_ends_le (length rest)); [lia|]. apply IH. lia. }
  destruct pending as [key|]; [by apply H2|].
  pose proof (He slice Hn) as Hd. destruct (dec slice) as [[f|] st rest|e| |]; simpl; try done.
  destruct (string_of_frame n1 n2 f); [by apply H2|done].
Qed.

Lemma memchr_cr_lt slice pos : memchr_cr slice = Some pos -> (pos < length slice)%nat.
Proof.
  revert pos. induction slice as [|b slice IH]; intros pos; cbn [memchr_cr]; [done|]. case_match.
  - intros [= <-]. simpl. lia.
  - destruct (memchr_cr slice) as [p|] eqn:E; cbn [mbind option_bind]; [|done]. intros [= <-]. simpl.
    specialize (IH p eq_refl). lia.
Qed.

Lemma read_line_shorter slice line rest : read_line slice = Ok (line, rest) -> (length rest < length slice)%nat.
Proof.
  unfold read_line. destruct (memchr_cr slice) as [pos|] eqn:E; [|done]. apply memchr_cr_lt in E.
  repeat (case_match; [|done]). intros [= <- <-]. rewrite length_drop. lia.
Qed.

Lemma read_len_shorter what slice n rest : read_len what slice = Ok (n, rest) -> (length rest < length slice)%nat.
Proof.
  unfold read_len. intros ([line r] & Hl & Hp)%rbind_Ok. destruct (parse_int _ _ line); [|done].
  injection Hp as _ <-. by eapply read_line_shorter.
Qed.

Definition shrinks (n : nat) (d : decoded) : Prop :=
  match d with DDeep => False | DOk _ _ rest => (length rest <= n)%nat | _ => True end.

Lemma finish_shrinks n data rest : (length rest <= n)%nat -> shrinks n (finish_binary data rest).
Proof.
  intros Hn. unfold finish_binary, expect_crlf. repeat (case_match; simplify_eq; try done). simpl in *. lia.
Qed.

(** The parsers of frames without items. *)
Lemma scalar_shrinks slice :
  shrinks (length slice) (parse_inline_string slice) /\ shrinks (length slice) (parse_error slice) /\
  shrinks (length slice) (parse_integer slice) /\ shrinks (length slice) (parse_float slice) /\
  shrinks (length slice) (parse_bool slice) /\ shrinks (length slice) (parse_null slice) /\
  shrinks (length slice) (parse_binary_string slice).
Proof.
  split_and!.
  - unfold parse_inline_string. destruct (read_line slice) as [[l r]|] eqn:E; [apply read_line_shorter in E; simpl; lia|done].
  - unfold parse_error. destruct (read_line slice) as [[l r]|] eqn:E; [apply read_line_shorter in E; simpl; lia|done].
  - unfold parse_integer. destruct (read_line slice) as [[l r]|] eqn:E; [|done]. apply read_line_shorter in E.
    case_match; simpl; [lia|done].
  - unfold parse_float. destruct (read_line slice) as [[l r]|] eqn:E; [|done]. apply read_line_shorter in E.
    repeat case_match; simpl; done || lia.
  - unfold parse_bool. repeat (case_match; try done); simpl; lia.
  - unfold parse_null. repeat (case_match; try done); simpl; lia.
  - unfold parse_binary_string. destruct (read_len _ slice) as [[n r]|] eqn:E; [|done]. apply read_len_shorter in E.
    repeat (case_match; try done); try (simpl; rewrite ?length_drop; lia).
    apply finish_shrinks. rewrite length_drop. lia.
Qed.

Lemma compound_shrinks n what negative empties empty loop slice :
  (length slice <= n)%nat ->
  (forall len rest, (length rest <= n)%nat -> shrinks (length rest) (loop len rest)) ->
  shrinks (length slice) (parse_compound max_items what negative empties empty loop slice).
Proof.
  intros Hn Hl. unfold parse_compound. destruct (read_len what slice) as [[m r]|] eqn:E; [|done].
  apply read_len_shorter in E. repeat (case_match; try done); [simpl; lia|].
  specialize (Hl (Z.to_nat m) r ltac:(lia)). destruct (loop _ r); simpl in *; try done. lia.
Qed.

Lemma loops_shrink n dec slice :
  ends_on n dec -> (length slice <= n)%nat -> forall state, state <> Initial ->
  shrinks (length slice) (decode_from max_items dec i64_as_f64 state slice).
Proof.
  intros He Hn state Hs. destruct state as [|len data|len items rem|len items rem key|len items rem|len items rem|len items member rem]; [done|..]; simpl.
  - unfold continue_binary_string. case_match; [apply finish_shrinks|simpl]; rewrite length_drop; lia.
  - unfold continue_array, continue_items. pose proof (items_loop_ends n dec push_item rem items slice He Hn). by destruct (items_loop _ _ _ _ _).
  - unfold continue_dictionary.
    pose proof (pairs_loop_ends n dec "Key not UTF-8" "Expected string key" (fun f => Ok f)
      (fun items key v => (hm_insert key v items).2) rem items key slice He Hn) as H.
    by destruct (pairs_loop _ _ _ _ _ _ _ _ _) as [[] |[] | | |].
  - unfold continue_set, continue_items. pose proof (items_loop_ends n dec set_insert rem items slice He Hn). by destruct (items_loop _ _ _ _ _).
  - unfold continue_push, continue_items. pose proof (items_loop_ends n dec push_item rem items slice He Hn). by destruct (items_loop _ _ _ _ _).
  - unfold continue_zset.
    pose proof (pairs_loop_ends n dec "Invalid UTF-8 in zset member" "Expected string for zset member"
      (score_of_frame i64_as_f64) (fun items key v => items ++ [(key, v)]) rem items member slice He Hn) as H.
    by destruct (pairs_loop _ _ _ _ _ _ _ _ _) as [[] |[] | | |].
Qed.

Lemma initial_shrinks n dec slice :
  ends_on n dec -> (length slice <= S n)%nat -> shrinks (length slice) (initial_decode max_items dec i64_as_f64 slice).
Proof.
  intros He Hn. destruct slice as [|b slice]; [simpl; lia|]. simpl in Hn.
  destruct (scalar_shrinks slice) as (H1 & H2 & H3 & H4 & H5 & H6 & H7).
  assert (forall d, shrinks (length slice) d -> shrinks (length (b :: slice)) d) as Hup.
  { intros d. destruct d; simpl; try done. lia. }
  assert (forall what negative empties empty state,
    (forall len, state len <> Initial) ->
    shrinks (length slice) (parse_compound max_items what negative empties empty
      (fun len slice => decode_from max_items dec i64_as_f64 (state len) slice) slice)) as Hc.
  { intros. apply (compound_shrinks n); [lia|]. intros len rest Hr. by apply (loops_shrink n). }
  apply Hup. unfold initial_decode. repeat (case_match; [try done|]); [..|done].
  - exact (Hc _ _ _ _ (fun len => PartialArray len [] len) ltac:(done)).
  - exact (Hc _ _ _ _ (fun len => PartialDictionary len [] len None) ltac:(done)).
  - exact (Hc _ _ _ _ (fun len => PartialSet len [] len) ltac:(done)).
  - exact (Hc _ _ _ _ (fun len => PartialPush len [] len) ltac:(done)).
  - exact (Hc _ _ _ _ (fun len => PartialZSet len [] None len) ltac:(done)).
Qed.

Lemma decode_ends fuel : forall n, (n < fuel)%nat -> ends_on n (decode fuel Initial).
Proof.
  induction fuel as [|fuel IH]; intros n Hn slice Hs; [lia|].
  change (shrinks (length slice) (decode (S fuel) Initial slice)). cbn [Zsp.decode decode_from].
  destruct n as [|n].
  - destruct slice; [done|simpl in Hs; lia].
  - apply (initial_shrinks n); [apply IH; lia|lia].
Qed.

(** Decoding ends: in any state and on any bytes a call returns a frame,
    the wish for more, an error or a panic, with a recursion no deeper than the
    bytes that are there, and without giving back more than it got. *)
Theorem zsp_decode_total (state : ZspDecodeState) (slice : bytes) :
  match decode (length slice + 2) state slice with
  | DOk _ _ rest => (length rest <= length slice)%nat
  | DErr _ | DPanic => True
  | DDeep => False
  end.
Proof.
  change (shrinks (length slice) (decode (length slice + 2) state slice)).
  replace (length slice + 2)%nat with (S (S (length slice))) by lia. cbn [Zsp.decode]. fold Zsp.decode.
  pose proof (decode_ends (S (length slice)) (length slice) ltac:(lia)) as He.
  assert (state = Initial \/ state <> Initial) as [->|Hne] by (destruct state; auto; by right).
  - apply (initial_shrinks (length slice)); [exact He|lia].
  - by apply (loops_shrink (length slice)).
Qed.

(** ** Frames in parts *)

Lemma items_loop_more dec add ws l remaining items :
  Forall2 (sends dec) ws l -> dec [] = DOk None Initial [] ->
  (length ws < remaining)%nat ->
  items_loop dec add remaining items (concat ws) = LMore _ (foldl add items l) (remaining - length ws) [].
Proof.
  intros Hs He. revert remaining items. induction Hs as [|w x ws l Hw _ IH]; intros remaining items Hr.
  - destruct remaining as [|r]; [simpl in Hr; lia|]. simpl. by rewrite He.
  - destruct remaining as [|r]; [simpl in Hr; lia|]. cbn [length items_loop concat] in *. rewrite Hw. unfold done.
    rewrite IH by lia. f_equal.
Qed.

(** The header of an array that is not empty. *)
Lemma array_header fuel n slice :
  fits (Array []) n -> (0 < n)%nat ->
  decode (S fuel) Initial (number_line 42 (Z.of_nat n) ++ slice) =
    continue_array (decode fuel Initial) n n [] slice.
Proof.
  intros [H63 Hmax] Hn. rewrite header_sends.
  change (parse_compound max_items "Invalid array length" "Negative array length" [-1; 0] (Array [])
    (fun len slice => continue_array (decode fuel Initial) len len [] slice) (fmt_int (Z.of_nat n) ++ CRLF ++ slice) =
    continue_array (decode fuel Initial) n n [] slice).
  unfold parse_compound. rewrite read_len_line by (unfold is_s; lia).
  rewrite bool_decide_false by (rewrite !elem_of_cons, elem_of_nil; lia).
  by rewrite (proj2 (Z.ltb_lt _ _)), (proj2 (Z.ltb_ge _ _)), Nat2Z.id by lia.
Qed.

(** What is left of a payload of which [p1] has come. *)
Lemma binary_part fuel b p1 p2 :
  b = p1 ++ p2 -> p2 <> [] -> Z.of_nat (length b) <= MAX_BINARY_LENGTH ->
  decode (S fuel) Initial (number_line 36 (Z.of_nat (length b)) ++ p1) =
    DOk None (PartialBinaryString (length b) p1) [].
Proof.
  intros Hb Hp Hl. rewrite header_sends. cbn [initial_decode Z.eqb Pos.eqb]. unfold parse_binary_string.
  unfold MAX_BINARY_LENGTH in *. rewrite read_len_line by (unfold is_s; lia).
  assert (length p1 < length b)%nat as Hlt by (subst b; rewrite length_app; destruct p2; [done|simpl; lia]).
  rewrite (proj2 (Z.eqb_neq _ _)), (proj2 (Z.leb_le _ _)), (proj2 (Z.ltb_ge _ _)), Nat2Z.id by lia.
  rewrite Nat.min_l, firstn_all, drop_all by lia. by rewrite (proj2 (Nat.eqb_neq _ _)) by lia.
Qed.

(** A frame that comes in two parts is put together where the state can
    say where it stopped: a binary string stopped once inside its bytes, and an
    array, a set or a push stopped between two of its items. *)
Theorem zsp_resumes (fuel : nat) (b p1 p2 rest : bytes) (l1 l2 : list ZspFrame) (ws1 ws2 : list bytes) :
  b = p1 ++ p2 -> p2 <> [] -> Z.of_nat (length b) <= MAX_BINARY_LENGTH ->
  fits (Array []) (length (l1 ++ l2)) -> l2 <> [] ->
  Forall2 (sends (decode (S fuel) Initial)) ws1 l1 -> Forall2 (sends (decode (S fuel) Initial)) ws2 l2 ->
  (exists st, decode (S fuel) Initial (number_line 36 (Z.of_nat (length b)) ++ p1) = DOk None st [] /\
     decode (S fuel) st (p2 ++ CRLF ++ rest) = DOk (Some (BinaryString (Some b))) Initial rest) /\
  (exists st, decode (S (S fuel)) Initial (number_line 42 (Z.of_nat (length (l1 ++ l2))) ++ concat ws1) = DOk None st [] /\
     decode (S (S fuel)) st (concat ws2 ++ rest) = DOk (Some (Array (l1 ++ l2))) Initial rest).
Proof.
  intros Hb Hp Hl Hfit Hl2 Hs1 Hs2. split.
  - eexists. split; [by eapply binary_part|]. cbn [Zsp.decode decode_from]. unfold continue_binary_string.
    assert (length b - length p1 = length p2)%nat as -> by (subst b; rewrite length_app; lia).
    rewrite (length_app p2 (CRLF ++ rest)), Nat.min_r, take_app_length, drop_app_length by lia. subst b. by rewrite Nat.eqb_refl.
  - assert (0 < length (l1 ++ l2))%nat as Hpos by (rewrite length_app; destruct l2; [done|simpl; lia]).
    pose proof (Forall2_length _ _ _ Hs1) as E1. pose proof (Forall2_length _ _ _ Hs2) as E2.
    eexists. split.
    + rewrite array_header by (done || lia).
      unfold continue_array, continue_items. rewrite (items_loop_more _ _ ws1 l1); [done|done|done|].
      rewrite length_app. destruct l2; [done|simpl; lia].
    + rewrite foldl_push. cbn [Zsp.decode decode_from]. unfold continue_array, continue_items.
      replace (length (l1 ++ l2) - length ws1)%nat with (length ws2) by (rewrite length_app; lia).
      change (Zsp.decode _ _ (S fuel) Initial) with (decode (S fuel) Initial).
      rewrite (items_loop_sends _ _ ws2 l2) by done. by rewrite foldl_push.
Qed.

(** It is not put together elsewhere.  A binary string that stops twice
    is forgotten; and when an array stops inside a binary string, the state of the
    string is overwritten by the state of the array, so that the rest of the
    bytes is taken for the next item: unless it happens to start like a frame, the
    answer is an error. *)
Theorem zsp_parts_lost (fuel : nat) (b p1 p2 p3 : bytes) (x : Z) (rest : bytes) :
  b = p1 ++ p2 ++ p3 -> p3 <> [] -> Z.of_nat (length b) <= MAX_BINARY_LENGTH -> fits (Array []) 1 ->
  x ∉ [43; 45; 58; 44; 35; 36; 95; 42; 37; 126; 62; 94] ->
  (exists st, decode (S fuel) Initial (number_line 36 (Z.of_nat (length b)) ++ p1) = DOk None st [] /\
     decode (S fuel) st p2 = DOk None Initial []) /\
  (exists st, decode (S (S fuel)) Initial (number_line 42 1 ++ number_line 36 (Z.of_nat (length b)) ++ p1) = DOk None st [] /\
     decode (S (S fuel)) st (x :: rest) = DErr (InvalidData "Unknown ZSP/RESP3 type")).
Proof.
  intros Hb Hp Hl Hmax Hx. assert (p2 ++ p3 <> []) as Hp23 by (destruct p2; done). split.
  - eexists. split; [by eapply binary_part|]. cbn [Zsp.decode decode_from]. unfold continue_binary_string.
    assert (length p2 < length b - length p1)%nat as Hlt.
    { subst b. rewrite !length_app. destruct p3; [done|simpl; lia]. }
    rewrite Nat.min_l, firstn_all, drop_all by lia. rewrite length_app, (proj2 (Nat.eqb_neq _ _)) by lia. done.
  - eexists. split.
    + change 1 with (Z.of_nat 1). rewrite array_header by (done || lia). unfold continue_array, continue_items.
      cbn [items_loop]. rewrite (binary_part fuel b p1 (p2 ++ p3)) by done. done.
    + cbn [Zsp.decode decode_from]. unfold continue_array, continue_items. cbn [items_loop Zsp.decode decode_from initial_decode].
      rewrite !not_elem_of_cons in Hx. destruct Hx as (H1 & H2 & H3 & H4 & H5 & H6 & H7 & H8 & H9 & H10 & H11 & H12 & _).
      by rewrite !(proj2 (Z.eqb_neq x _)) by done.
Qed.

(** ** Limits that are not there *)

(** An empty value inside [n] arrays, and its bytes. *)
Fixpoint nest (n : nat) : ZspFrame := match n with O => Null | S n => Array [nest n] end.
Definition nest_bytes (n : nat) : bytes := concat (replicate n (number_line 42 (Z.of_nat 1))) ++ [95; CR; LF].

(** The limit on the nesting of arrays is not one for the decoder, whose
    depth is always passed as zero: nested arrays of any depth are decoded, to
    frames that the encoder refuses. *)
Theorem zsp_depth_not_limited (n : nat) (rest : bytes) :
  fits (Array []) 1 ->
  decode (S (S n)) Initial (nest_bytes n ++ rest) = DOk (Some (nest n)) Initial rest /\
  ((MAX_ARRAY_DEPTH < n)%nat -> exists e, encode (nest n) = Err e).
Proof.
  intros Hmax. split.
  - induction n as [|n IH]; [done|]. unfold nest_bytes. cbn [replicate concat nest]. rewrite <- !app_assoc.
    rewrite array_header by (done || lia). unfold continue_array, continue_items.
    cbn [items_loop]. unfold nest_bytes in IH. rewrite <- app_assoc in IH. by rewrite IH.
  - intros Hn. unfold encode. assert (forall k d, (MAX_ARRAY_DEPTH < k + d)%nat -> exists e, encode_frame (nest k) d = Err e) as H.
    { induction k as [|k IH]; intros d Hd.
      - unfold encode_frame, nest. rewrite (proj2 (Nat.ltb_lt _ _)) by lia. by eexists.
      - cbn [nest]. unfold encode_frame; fold encode_frame. case_match; [by eexists|]. cbn [encode_each].
        destruct (IH (d + 1)%nat ltac:(lia)) as [e ->]. by eexists. }
    apply (H n 0%nat). lia.
Qed.

(** A count beyond what a container can hold is reserved for before any
    item is looked at, and the reservation is a panic. *)
Theorem zsp_count_panics (fuel : nat) (n : Z) (rest : bytes) (b : Z) (kind : ZspFrame) :
  (b, kind) ∈ [(42, Array []); (37, Dictionary []); (126, Set_ []); (62, Push []); (94, ZSet [])] ->
  0 <= max_items kind < n -> n < 2 ^ 63 ->
  decode (S fuel) Initial (number_line b n ++ rest) = DPanic.
Proof.
  intros Hk Hmax Hn. rewrite <- (Z2Nat.id n) by lia. rewrite header_sends, Z2Nat.id by lia.
  assert (forall what negative empties loop,
    bool_decide (n ∈ empties) = false ->
    parse_compound max_items what negative empties kind loop (fmt_int n ++ CRLF ++ rest) = DPanic) as Hc.
  { intros what negative empties loop He. unfold parse_compound. rewrite read_len_line by (unfold is_s; lia).
    by rewrite He, !(proj2 (Z.ltb_lt _ _)) by lia. }
  assert (bool_decide (n ∈ [-1; 0]) = false /\ bool_decide (n ∈ [0]) = false) as [H1 H2].
  { split; apply bool_decide_false; rewrite !elem_of_cons, elem_of_nil; lia. }
  rewrite !elem_of_cons, elem_of_nil in Hk.
  destruct Hk as [[= -> ->]|[[= -> ->]|[[= -> ->]|[[= -> ->]|[[= -> ->]|[]]]]]]; by apply Hc.
Qed.
End Delivery.

(** ** Instances *)

(** Numbers written as their bits. *)
Definition ex_fmt (f : f64) : bytes :=
  if is_infinite f then infinity_text f
  else if is_nan f then ascii_bytes "NaN" else decimal (f64_bits f mod 2 ^ 64).

Definition ex_parse (s : bytes) : option f64 :=
  if bool_decide (s = ascii_bytes "NaN") then Some (mkF64 (f64_infinity + 1))
  else match parse_int 0 (2 ^ 64 - 1) s with Ok n => Some (mkF64 n) | Err _ => None end.

#[export] Instance ex_text : FloatText :=
  {| fmt_precise := ex_fmt; fmt_display := ex_fmt; parse_f64 := ex_parse |}.

Lemma ex_decimal_text n : 0 <= n < 2 ^ 64 ->
  plain_text (decimal n) /\ (forall g, decimal n <> infinity_text g) /\ ex_parse (decimal n) = Some (mkF64 n).
Proof.
  intros Hn. destruct (decimal_cons n ltac:(lia)) as (d & ds & Hd & Hr). split_and!.
  - apply digits_plain. eapply Forall_impl; [apply decimal_ascii|]. simpl. lia.
  - intros g Hg. rewrite Hd in Hg. apply (f_equal (hd 0)) in Hg. unfold infinity_text in Hg.
    clear Hd. destruct (is_sign_positive g); vm_compute in Hg; lia.
  - unfold ex_parse. rewrite parse_int_decimal by lia. rewrite bool_decide_false; [done|].
    rewrite Hd. intros Hg. apply (f_equal (hd 0)) in Hg. clear Hd. vm_compute in Hg. lia.
Qed.

#[export] Instance ex_text_laws : FloatTextLaws.
Proof.
  assert (forall f, is_infinite f = false ->
    plain_text (ex_fmt f) /\ (forall g, ex_fmt f <> infinity_text g) /\ is_Some (ex_parse (ex_fmt f)) /\
    (is_u 64 (f64_bits f) -> is_nan f = false -> ex_parse (ex_fmt f) = Some f)) as H.
  { intros f Hf. unfold ex_fmt. rewrite Hf. destruct (is_nan f).
    - split_and!; [by vm_compute| |by eexists|done]. intros g. unfold infinity_text. by destruct (is_sign_positive g).
    - destruct (ex_decimal_text (f64_bits f mod 2 ^ 64)) as (H1 & H2 & H3); [apply Z.mod_pos_bound; lia|].
      split_and!; [done|done|by eexists|]. intros Hu _. rewrite H3, Z.mod_small by exact Hu. by destruct f. }
  split; cbn [fmt_display fmt_precise parse_f64 ex_text].
  - intros f Hf. unfold ex_fmt. by rewrite Hf.
  - intros f Hf. by destruct (H f Hf) as (? & ? & _).
  - intros f Hu Hf Hn. by apply H.
  - intros f Hn. exists (mkF64 (f64_infinity + 1)). split; [|by vm_compute].
    unfold ex_fmt. assert (is_infinite f = false) as ->.
    { unfold is_nan, is_infinite in *. bool_to_prop. apply Z.eqb_neq. lia. }
    rewrite Hn. by vm_compute.
  - intros f Hf. destruct (H f Hf) as (? & ? & ? & _). auto.
Qed.

Definition ex_max_items (kind : ZspFrame) : Z := 2 ^ 57.
Definition ex_as_f64 (i : Z) : f64 := mkF64 0.

Definition ex_frame : ZspFrame :=
  Array [InlineString (ascii_bytes "OK"); Dictionary [(ascii_bytes "k", Integer (-5)); (ascii_bytes "l", Null)];
         Set_ [InlineString [97]; BinaryString (Some [13; 10])]; ZSet [([109], mkF64 0x3FF0000000000000)];
         Float NEG_INFINITY; Push [Bool true; BinaryString None]].

Lemma zsp_roundtrip_witness :
  exists w, encode ex_frame = Ok w /\ exists frame', received ex_frame frame' /\
    forall fuel rest, (2 < fuel)%nat ->
      decode ex_max_items ex_as_f64 fuel Initial (w ++ rest) = DOk (Some frame') Initial rest.
Proof.
  eexists. split; [by vm_compute|].
  apply (zsp_roundtrip ex_max_items ex_as_f64 ex_frame); [|by vm_compute].
  assert (forall kind n, (n < 10)%nat -> fits ex_max_items kind n) as Hfit.
  { intros kind n Hn. unfold fits, ex_max_items. lia. }
  apply wt_array; [apply Hfit; simpl; lia|]. repeat (apply Forall_cons; split); [..|by apply Forall_nil].
  - by apply wt_inline.
  - apply wt_dictionary; [apply Hfit; simpl; lia|apply (bool_decide_unpack _); by vm_compute|].
    repeat (apply Forall_cons; split); [..|by apply Forall_nil].
    + split_and!; [done|by vm_compute|apply wt_integer; split; by vm_compute].
    + split_and!; [done|by vm_compute|apply wt_null].
  - apply wt_set; [apply Hfit; simpl; lia| |].
    + apply NoDup_cons. split; [by rewrite list_elem_of_singleton|apply NoDup_singleton].
    + repeat (apply Forall_cons; split); [..|by apply Forall_nil]; done.
  - apply wt_zset; [apply Hfit; simpl; lia|]. apply Forall_cons. split; [|by apply Forall_nil].
    split_and!; [done|by vm_compute|split; by vm_compute].
  - apply wt_float. split; by vm_compute.
  - apply wt_push; [apply Hfit; simpl; lia|]. repeat (apply Forall_cons; split); [..|by apply Forall_nil].
    + apply wt_bool.
    + apply wt_binary.
Defined.

Lemma zsp_resumes_witness :
  (exists st, decode ex_max_items ex_as_f64 1 Initial (ascii_bytes "$5" ++ CRLF ++ ascii_bytes "he") = DOk None st [] /\
     decode ex_max_items ex_as_f64 1 st (ascii_bytes "llo" ++ CRLF ++ [1]) =
       DOk (Some (BinaryString (Some (ascii_bytes "hello")))) Initial [1]) /\
  (exists st, decode ex_max_items ex_as_f64 2 Initial (ascii_bytes "*2" ++ CRLF ++ ascii_bytes "_" ++ CRLF) = DOk None st [] /\
     decode ex_max_items ex_as_f64 2 st (ascii_bytes "#t" ++ CRLF ++ [1]) =
       DOk (Some (Array [Null; Bool true])) Initial [1]).
Proof.
  apply (zsp_resumes ex_max_items ex_as_f64 0 (ascii_bytes "hello") (ascii_bytes "he") (ascii_bytes "llo") [1]
    [Null] [Bool true] [ascii_bytes "_" ++ CRLF] [ascii_bytes "#t" ++ CRLF]); try done.
  - constructor; [|constructor]. intros rest. done.
  - constructor; [|constructor]. intros rest. done.
Defined.

Lemma zsp_parts_lost_witness :
  (exists st, decode ex_max_items ex_as_f64 1 Initial (ascii_bytes "$5" ++ CRLF ++ ascii_bytes "h") = DOk None st [] /\
     decode ex_max_items ex_as_f64 1 st (ascii_bytes "e") = DOk None Initial []) /\
  (exists st, decode ex_max_items ex_as_f64 2 Initial
       (ascii_bytes "*1" ++ CRLF ++ ascii_bytes "$5" ++ CRLF ++ ascii_bytes "h") = DOk None st [] /\
     decode ex_max_items ex_as_f64 2 st (ascii_bytes "ello" ++ CRLF) = DErr (InvalidData "Unknown ZSP/RESP3 type")).
Proof.
  apply (zsp_parts_lost ex_max_items ex_as_f64 0 (ascii_bytes "hello") (ascii_bytes "h") (ascii_bytes "e")
    (ascii_bytes "llo") 101 (ascii_bytes "llo" ++ CRLF)); try done.
  apply (bool_decide_unpack _). by vm_compute.
Defined.

Lemma zsp_depth_not_limited_witness :
  decode ex_max_items ex_as_f64 42 Initial (nest_bytes 40 ++ []) = DOk (Some (nest 40)) Initial [] /\
  ((MAX_ARRAY_DEPTH < 40)%nat -> exists e, encode (nest 40) = Err e).
Proof. apply (zsp_depth_not_limited ex_max_items ex_as_f64 40 []). done. Defined.

Lemma zsp_count_panics_witness :
  decode ex_max_items ex_as_f64 1 Initial (number_line 42 (2 ^ 62) ++ []) = DPanic.
Proof.
  apply (zsp_count_panics ex_max_items ex_as_f64 0 (2 ^ 62) [] 42 (Array [])); [by left|..].
  - unfold ex_max_items. lia.
  - lia.
Defined.
