(* ===== verification/Storage.v ===== *)
(** * The storage interface

    Models [src/src/engine/storage.rs], the trait [Storage] that the three
    engines implement and that the commands call, with the errors of
    [src/src/error/system.rs].  An operation takes the engine's state and gives
    a result and the state after it; [None] is a panic.  [StorageOps] is the
    trait; [StorageLaws] is what an engine promises: that it holds a finite map
    from keys to abstract values. *)
From S2P Require Import Prelude Interfaces QuickList Hll ZdbValue.
From S2P Require SmartHash Dict SkipList.
Local Open Scope Z_scope.

(** ** Errors *)

(** The errors that wrap one of a library carry no payload. *)
Inductive StoreError : Type :=
| Io | Utf8 | Serde | Lua
| InvalidCommand (msg : string) | InvalidData (msg : string) | InvalidOperation (msg : string)
| WrongType (msg : string) | KeyNotFound | IndexOutOfBounds | Parse (msg : string)
| InvalidType | InvalidValue | Overflow | NotImplemented (msg : string)
| Connection (msg : string) | Cluster (msg : string)
| ChannelNotFound (msg : string) | Subscriber (msg : string)
| Internal (msg : string) | LockError (msg : string) | InvalidKey | FileError | WrongShard
| SerdeError (msg : string) | Syntax (msg : string) | InvalidArgument (msg : string)
| ServerShutdown | UnsupportedOperation (msg : string).

(** ** Operations on a state *)

Definition action (M A : Type) : Type := M -> option (result StoreError A * M).

Definition aret {M A} (x : A) : action M A := fun s => Some (Ok x, s).
Definition araise {M A} (e : StoreError) : action M A := fun s => Some (Err e, s).
Definition apanic {M A} : action M A := fun _ => None.
Definition abind {M A B} (c : action M A) (f : A -> action M B) : action M B := fun s =>
  match c s with
  | Some (Ok x, s) => f x s
  | Some (Err e, s) => Some (Err e, s)
  | None => None
  end.

(** A computation that may panic, or fail, and has no state. *)
Definition apure {M A} (o : option A) : action M A := fun s => x ← o; Some (Ok x, s).
Definition atry {M A} (r : result StoreError A) : action M A := fun s => Some (r, s).

Notation "'let!' x ':=' c 'in' k" := (abind c (fun x => k))
  (at level 10, x pattern, c at level 100, k at level 200) : zumic_scope.

(** What holds of the result and of the state after it. *)
Definition wp {M A} (c : action M A) (s : M) (Q : result StoreError A -> M -> Prop) : Prop :=
  match c s with Some (r, s) => Q r s | None => False end.

Section Wp.
Context {M A B : Type}.
Implicit Types (s : M).

Lemma wp_ret (x : A) s (Q : result StoreError A -> M -> Prop) : Q (Ok x) s -> wp (aret x) s Q.
Proof. done. Qed.

Lemma wp_raise e s (Q : result StoreError A -> M -> Prop) : Q (Err e) s -> wp (araise e) s Q.
Proof. done. Qed.

Lemma wp_pure (x : A) s (Q : result StoreError A -> M -> Prop) : Q (Ok x) s -> wp (apure (Some x)) s Q.
Proof. done. Qed.

Lemma wp_bind (c : action M A) (f : A -> action M B) s (Q : result StoreError B -> M -> Prop) :
  wp c s (fun r s' => match r with Ok x => wp (f x) s' Q | Err e => Q (Err e) s' end) ->
  wp (abind c f) s Q.
Proof. unfold wp, abind. by destruct (c s) as [[[x|e] s']|]. Qed.

Lemma wp_mono (c : action M A) s (P Q : result StoreError A -> M -> Prop) :
  wp c s P -> (forall r s', P r s' -> Q r s') -> wp c s Q.
Proof. unfold wp. destruct (c s) as [[r s']|]; auto. Qed.

(** The rule for a call whose result is known to be a success. *)
Lemma wp_call (c : action M A) (f : A -> action M B) s (P : A -> M -> Prop)
    (Q : result StoreError B -> M -> Prop) :
  wp c s (fun r s' => exists x, r = Ok x /\ P x s') ->
  (forall x s', P x s' -> wp (f x) s' Q) -> wp (abind c f) s Q.
Proof. intros Hc Hf. apply wp_bind. eapply wp_mono; [exact Hc|]. intros r s' (x & -> & HP). auto. Qed.

Lemma wp_elim (c : action M A) s (Q : result StoreError A -> M -> Prop) :
  wp c s Q -> exists r s', c s = Some (r, s') /\ Q r s'.
Proof. unfold wp. destruct (c s) as [[r s']|]; [by exists r, s'|done]. Qed.
End Wp.

(** ** Values *)

Abbreviation Value :=
  (ZdbValue.Value SmartHash.SmartHash (Dict.Dict bytes f64) (SkipList.SkipList f64 bytes)).

(** What a value is, whatever structure holds it: a list, a finite map, a set. *)
Inductive AVal : Type :=
| AStr (s : bytes)
| AInt (i : Z)
| AFloat (f : f64)
| ABool (b : bool)
| ANull
| AList (l : list bytes)
| AArray (l : list AVal)
| AHash (m : gmap bytes bytes)
| ASet (x : gset bytes)
| ABitmap (b : bytes)
| AOther (v : Value).

Definition members_of (x : gset bytes) : gmap bytes unit := gset_to_gmap tt x.

Inductive denotes : Value -> AVal -> Prop :=
| DStr s : denotes (VStr s) (AStr s)
| DInt i : denotes (VInt i) (AInt i)
| DFloat f : denotes (VFloat f) (AFloat f)
| DBool b : denotes (VBool b) (ABool b)
| DNull : denotes VNull ANull
| DList q l : QuickList.Repr q l -> denotes (VList q) (AList l)
| DArray vs xs : Forall2 denotes vs xs -> denotes (VArray vs) (AArray xs)
| DHash h m : SmartHash.Holds h m -> denotes (VHash h) (AHash m)
| DSet l x : hm_repr l (members_of x) -> denotes (VSet l) (ASet x)
| DBitmap b : Forall is_byte b -> denotes (VBitmap b) (ABitmap b)
| DZSet d o : denotes (VZSet d o) (AOther (VZSet d o))
| DHll h : denotes (VHyperLogLog h) (AOther (VHyperLogLog h))
| DStream e : denotes (VSStream e) (AOther (VSStream e)).

Definition denotes_opt (v : option Value) (a : option AVal) : Prop :=
  match v, a with Some v, Some a => denotes v a | None, None => True | _, _ => False end.

(** ** The trait *)

Class StorageOps (M : Type) := {
  st_set : bytes -> Value -> action M unit;
  st_get : bytes -> action M (option Value);
  st_del : bytes -> action M bool;
  st_mset : list (bytes * Value) -> action M unit;
  st_mget : list bytes -> action M (list (option Value));
  st_rename : bytes -> bytes -> action M unit;
  st_renamenx : bytes -> bytes -> action M bool;
  st_flushdb : action M unit;
  st_dbsize : action M nat;
  st_save : action M unit;
  st_sadd : bytes -> list bytes -> action M nat;
  st_smembers : bytes -> action M (list bytes);
  st_scard : bytes -> action M nat;
  st_sismember : bytes -> bytes -> action M bool;
  st_srem : bytes -> list bytes -> action M nat;
  st_srandmember : nat -> bytes -> Z -> action M (list bytes);
  st_spop : nat -> bytes -> Z -> action M (list bytes);
}.

(** The geographic methods of the trait [Storage]: a point is its longitude and
    its latitude. *)
Class GeoOps (M : Type) := {
  st_geo_add : bytes -> f64 -> f64 -> bytes -> action M bool;
  st_geo_pos : bytes -> bytes -> action M (option (f64 * f64));
  st_geo_dist : bytes -> bytes -> bytes -> bytes -> action M (option f64);
  st_geo_radius : bytes -> f64 -> f64 -> f64 -> bytes -> action M (list (bytes * f64 * (f64 * f64)));
  st_geo_radius_by_member : bytes -> bytes -> f64 -> bytes -> action M (list (bytes * f64 * (f64 * f64)));
}.

(** The set at a key: none, a set, or another type. *)
Definition set_at (m : gmap bytes AVal) (k : bytes) : option (gset bytes) :=
  match m !! k with Some (ASet x) => Some x | _ => None end.

Definition not_set (m : gmap bytes AVal) (k : bytes) : bool :=
  match m !! k with Some (ASet _) => false | Some _ => true | None => false end.

(** The set at a key, empty when there is no key. *)
Definition set_of (m : gmap bytes AVal) (k : bytes) : gset bytes := default ∅ (set_at m k).

(** The keyspace after a set became [x]: an empty set is removed with its key. *)
Definition put_set (k : bytes) (x : gset bytes) (m : gmap bytes AVal) : gmap bytes AVal :=
  if decide (x = ∅) then delete k m else <[k := ASet x]> m.

(** A random choice of [count] members. *)
Definition sample (x : gset bytes) (count : Z) (l : list bytes) : Prop :=
  NoDup l /\ (forall e, e ∈ l -> e ∈ x) /\ length l = Nat.min (Z.to_nat count) (size x).

Definition type_error (e : StoreError) : Prop := exists msg, e = WrongType msg.

Class StorageLaws (M : Type) {ops : StorageOps M} := {
  store_repr : M -> gmap bytes AVal -> Prop;
  (** [rename] can reach the key [to] from [from]. *)
  same_shard : M -> bytes -> bytes -> bool;
  law_set s m k v a : store_repr s m -> denotes v a ->
    wp (st_set k v) s (fun r s' => r = Ok tt /\ store_repr s' (<[k := a]> m));
  law_get s m k : store_repr s m ->
    wp (st_get k) s (fun r s' => exists v, r = Ok v /\ denotes_opt v (m !! k) /\ store_repr s' m);
  law_del s m k : store_repr s m ->
    wp (st_del k) s (fun r s' => r = Ok (bool_decide (is_Some (m !! k))) /\ store_repr s' (delete k m));
  law_mset s m kvs kas : store_repr s m ->
    Forall2 (fun kv ka => kv.1 = ka.1 /\ denotes kv.2 ka.2) kvs kas ->
    wp (st_mset kvs) s (fun r s' => r = Ok tt /\
      store_repr s' (foldl (fun m (ka : bytes * AVal) => <[ka.1 := ka.2]> m) m kas));
  law_mget s m ks : store_repr s m ->
    wp (st_mget ks) s (fun r s' => exists vs, r = Ok vs /\
      Forall2 denotes_opt vs ((fun k => m !! k) <$> ks) /\ store_repr s' m);
  law_rename s m from to : store_repr s m ->
    wp (st_rename from to) s (fun r s' =>
      if same_shard s from to then
        match m !! from with
        | Some a => r = Ok tt /\ store_repr s' (<[to := a]> (delete from m))
        | None => r = Err KeyNotFound /\ store_repr s' m
        end
      else r = Err WrongShard /\ store_repr s' m);
  law_renamenx s m from to : store_repr s m ->
    wp (st_renamenx from to) s (fun r s' =>
      if same_shard s from to then
        match m !! to, m !! from with
        | Some _, _ => r = Ok false /\ store_repr s' m
        | None, Some a => r = Ok true /\ store_repr s' (<[to := a]> (delete from m))
        | None, None => r = Err KeyNotFound /\ store_repr s' m
        end
      else r = Err WrongShard /\ store_repr s' m);
  law_flushdb s m : store_repr s m ->
    wp st_flushdb s (fun r s' => r = Ok tt /\ store_repr s' ∅);
  law_dbsize s m : store_repr s m ->
    wp st_dbsize s (fun r s' => r = Ok (size m) /\ store_repr s' m);
  law_save s m : store_repr s m -> wp st_save s (fun r s' => store_repr s' m);
  law_sadd s m k ms : store_repr s m ->
    wp (st_sadd k ms) s (fun r s' =>
      if not_set m k then exists e, r = Err e /\ type_error e /\ store_repr s' m
      else r = Ok (size (list_to_set ms ∖ set_of m k)) /\
           store_repr s' (<[k := ASet (set_of m k ∪ list_to_set ms)]> m));
  law_smembers s m k : store_repr s m ->
    wp (st_smembers k) s (fun r s' => store_repr s' m /\
      if not_set m k then exists e, r = Err e /\ type_error e
      else exists l, r = Ok l /\ l ≡ₚ elements (set_of m k));
  law_scard s m k : store_repr s m ->
    wp (st_scard k) s (fun r s' => store_repr s' m /\
      if not_set m k then exists e, r = Err e /\ type_error e else r = Ok (size (set_of m k)));
  law_sismember s m k e : store_repr s m ->
    wp (st_sismember k e) s (fun r s' => store_repr s' m /\
      if not_set m k then exists e, r = Err e /\ type_error e
      else r = Ok (bool_decide (e ∈ set_of m k)));
  law_srem s m k ms : store_repr s m ->
    wp (st_srem k ms) s (fun r s' =>
      if not_set m k then exists e, r = Err e /\ type_error e /\ store_repr s' m
      else r = Ok (size (set_of m k ∩ list_to_set ms)) /\
           store_repr s' (if set_at m k then put_set k (set_of m k ∖ list_to_set ms) m else m));
  law_srandmember s m seed k count : store_repr s m ->
    wp (st_srandmember seed k count) s (fun r s' => store_repr s' m /\
      if not_set m k then exists e, r = Err e /\ type_error e
      else exists l, r = Ok l /\ sample (set_of m k) count l);
  law_spop s m seed k count : store_repr s m ->
    wp (st_spop seed k count) s (fun r s' =>
      if not_set m k then exists e, r = Err e /\ type_error e /\ store_repr s' m
      else exists l, r = Ok l /\ sample (set_of m k) (if count <=? 0 then 1 else count) l /\
           store_repr s' (if set_at m k then put_set k (set_of m k ∖ list_to_set l) m else m));
}.
