(* ===== verification/Memory.v ===== *)
(** * The in-memory engine

    Models [InMemoryStore] of [src/src/engine/memory.rs], an instance of the
    trait [Storage]: the keyspace is a [DashMap] (a finite map; each operation
    holds the lock of its entry), a set is a [HashSet] in its order of
    iteration, and the generator of random numbers is open ([Rand]).  The
    geographic index is a second map that only [flushdb] and [dbsize] see here;
    its operations are in [GeoSet], the storage of sessions in [Sessions]. *)
From S2P Require Import Prelude Interfaces ZdbValue Storage.
Local Open Scope Z_scope.

(** [IteratorRandom] of the [rand] crate: an element of a non-empty sequence,
    and as many different positions of it as there are, up to a number.  The
    first argument is the state of the generator. *)
Class Rand (A : Type) := {
  choose : nat -> list A -> option A;
  choose_multiple : nat -> nat -> list A -> list A;
  choose_spec (seed : nat) (l : list A) :
    match choose seed l with Some x => x ∈ l | None => l = [] end;
  choose_multiple_spec (seed n : nat) (l : list A) :
    exists rest, choose_multiple seed n l ++ rest ≡ₚ l /\
      length (choose_multiple seed n l) = Nat.min n (length l);
}.

Section HashSet.
Context {set_order : HashOrder (bytes * unit)}.

Definition hs_insert (m : bytes) (set : list (bytes * unit)) : bool * list (bytes * unit) :=
  let '(old, set) := hm_insert m tt set in (bool_decide (old = None), set).

Definition hs_remove (m : bytes) (set : list (bytes * unit)) : bool * list (bytes * unit) :=
  let '(old, set) := hm_remove m set in (bool_decide (is_Some old), set).

Definition hs_contains (m : bytes) (set : list (bytes * unit)) : bool :=
  bool_decide (is_Some (hm_get m set)).

(** [for m in members { if set.insert(m.clone()) { added += 1; } }] *)
Fixpoint insert_members (members : list bytes) (set : list (bytes * unit)) (added : nat)
  : nat * list (bytes * unit) :=
  match members with
  | [] => (added, set)
  | m :: members =>
      let '(new, set) := hs_insert m set in
      insert_members members set (if new then (added + 1)%nat else added)
  end.

Fixpoint remove_members (members : list bytes) (set : list (bytes * unit)) (removed : nat)
  : nat * list (bytes * unit) :=
  match members with
  | [] => (removed, set)
  | m :: members =>
      let '(had, set) := hs_remove m set in
      remove_members members set (if had then (removed + 1)%nat else removed)
  end.

(** The loop of [spop], [cnt] rounds left. *)
Fixpoint pop_members {rand : Rand bytes} (cnt seed : nat) (set : list (bytes * unit)) (out : list bytes)
  : list bytes * list (bytes * unit) :=
  match cnt with
  | O => (out, set)
  | Datatypes.S cnt =>
      match choose seed set.*1 with
      | Some item => pop_members cnt (seed + 1) (hs_remove item set).2 (out ++ [item])
      | None => (out, set)
      end
  end.
End HashSet.

Record InMemoryStore {G : Type} : Type := mkStore {
  data : gmap bytes Value;
  geo : gmap bytes G;
}.
Arguments InMemoryStore : clear implicits.

Section Memory.
Context {G : Type} {set_order : HashOrder (bytes * unit)} {rand : Rand bytes}.
Notation Store := (InMemoryStore G).
Implicit Types (s : Store).

Definition new : Store := mkStore _ ∅ ∅.
Definition set_data (d : gmap bytes Value) s : Store := mkStore _ d (geo s).

Definition set (key : bytes) (value : Value) : action Store unit := fun s =>
  Some (Ok tt, set_data (<[key := value]> (data s)) s).

Definition get (key : bytes) : action Store (option Value) := fun s => Some (Ok (data s !! key), s).

Definition del (key : bytes) : action Store bool := fun s =>
  Some (Ok (bool_decide (is_Some (data s !! key))), set_data (delete key (data s)) s).

Definition mset (entries : list (bytes * Value)) : action Store unit := fun s =>
  Some (Ok tt, set_data (foldl (fun d e => <[e.1 := e.2]> d) (data s) entries) s).

Definition mget (keys : list bytes) : action Store (list (option Value)) := fun s =>
  Some (Ok ((fun key => data s !! key) <$> keys), s).

Definition rename (from to : bytes) : action Store unit := fun s =>
  match data s !! from with
  | Some value => Some (Ok tt, set_data (<[to := value]> (delete from (data s))) s)
  | None => Some (Err KeyNotFound, s)
  end.

Definition renamenx (from to : bytes) : action Store bool := fun s =>
  if bool_decide (is_Some (data s !! to)) then Some (Ok false, s)
  else
    match data s !! from with
    | Some value => Some (Ok true, set_data (<[to := value]> (delete from (data s))) s)
    | None => Some (Err KeyNotFound, s)
    end.

Definition flushdb : action Store unit := fun s => Some (Ok tt, set_data ∅ s).

Definition dbsize : action Store nat := fun s => Some (Ok (size (data s)), s).

Definition save : action Store unit :=
  araise (UnsupportedOperation "SAVE not supported for in-memory storage").

Definition sadd (key : bytes) (members : list bytes) : action Store nat := fun s =>
  match data s !! key with
  | Some (VSet set) =>
      let '(added, set) := insert_members members set 0 in
      Some (Ok added, set_data (<[key := VSet set]> (data s)) s)
  | Some _ => Some (Err (WrongType "SADD: key is not a set"), s)
  | None =>
      let '(added, set) := insert_members members [] 0 in
      Some (Ok added, set_data (<[key := VSet set]> (data s)) s)
  end.

Definition smembers (key : bytes) : action Store (list bytes) := fun s =>
  match data s !! key with
  | Some (VSet set) => Some (Ok set.*1, s)
  | Some _ => Some (Err (WrongType "SMEMBERS: key is not a set"), s)
  | None => Some (Ok [], s)
  end.

Definition scard (key : bytes) : action Store nat := fun s =>
  match data s !! key with
  | Some (VSet set) => Some (Ok (length set), s)
  | Some _ => Some (Err (WrongType "SCARD: key is not a set"), s)
  | None => Some (Ok 0%nat, s)
  end.

Definition sismember (key member : bytes) : action Store bool := fun s =>
  match data s !! key with
  | Some (VSet set) => Some (Ok (hs_contains member set), s)
  | Some _ => Some (Err (WrongType "SISMEMBER: key is not a set"), s)
  | None => Some (Ok false, s)
  end.

(** The set without the members, and the key without it when it is empty. *)
Definition store_set (key : bytes) (set : list (bytes * unit)) s : Store :=
  let s := set_data (<[key := VSet set]> (data s)) s in
  if bool_decide (set = []) then set_data (delete key (data s)) s else s.

Definition srem (key : bytes) (members : list bytes) : action Store nat := fun s =>
  match data s !! key with
  | Some (VSet set) =>
      let '(removed, set) := remove_members members set 0 in
      Some (Ok removed, store_set key set s)
  | Some _ => Some (Err (WrongType "SREM: key is not a set"), s)
  | None => Some (Ok 0%nat, s)
  end.

Definition srandmember (seed : nat) (key : bytes) (count : Z) : action Store (list bytes) := fun s =>
  match data s !! key with
  | Some (VSet set) =>
      if count =? 1 then Some (Ok (option_list (choose seed set.*1)), s)
      else if 1 <? count then Some (Ok (choose_multiple seed (Z.to_nat count) set.*1), s)
      else Some (Ok [], s)
  | Some _ => Some (Err (WrongType "SRANDMEMBER: key is not a set"), s)
  | None => Some (Ok [], s)
  end.

Definition spop (seed : nat) (key : bytes) (count : Z) : action Store (list bytes) := fun s =>
  match data s !! key with
  | Some (VSet set) =>
      let cnt := if count <=? 0 then 1%nat else Z.to_nat count in
      let '(out, set) := pop_members cnt seed set [] in
      Some (Ok out, store_set key set s)
  | Some _ => Some (Err (WrongType "SPOP: key is not a set"), s)
  | None => Some (Ok [], s)
  end.

#[export] Instance memory_ops : StorageOps Store := {|
  st_set := set; st_get := get; st_del := del; st_mset := mset; st_mget := mget;
  st_rename := rename; st_renamenx := renamenx; st_flushdb := flushdb; st_dbsize := dbsize;
  st_save := save; st_sadd := sadd; st_smembers := smembers; st_scard := scard;
  st_sismember := sismember; st_srem := srem; st_srandmember := srandmember; st_spop := spop;
|}.
End Memory.

(** ** A hash set holds a set *)

Section HashSetLaws.
Context {set_order : HashOrder (bytes * unit)}.
Implicit Types (l : list (bytes * unit)) (x : gset bytes).

Lemma members_lookup x e : members_of x !! e = if decide (e ∈ x) then Some tt else None.
Proof.
  unfold members_of. case_decide as He; [by apply lookup_gset_to_gmap_Some|].
  by apply lookup_gset_to_gmap_None.
Qed.

Lemma members_elements l x : hm_repr l (members_of x) -> l.*1 ≡ₚ elements x.
Proof.
  intros Hr. unfold hm_repr in Hr. rewrite Hr. apply NoDup_Permutation.
  - apply NoDup_fst_map_to_list.
  - apply NoDup_elements.
  - intros e. rewrite elem_of_elements, list_elem_of_fmap. split.
    + intros ([e' []] & -> & H%elem_of_map_to_list). by apply lookup_gset_to_gmap_Some in H as [? ?].
    + intros He. exists (e, tt). split; [done|]. apply elem_of_map_to_list.
      by apply lookup_gset_to_gmap_Some.
Qed.

Lemma members_length l x : hm_repr l (members_of x) -> length l = size x.
Proof. intros Hr. rewrite <- (length_fmap fst l), (members_elements l x Hr). done. Qed.

Lemma difference_cons x (e : bytes) (y : gset bytes) : x ∖ ({[e]} ∪ y) = x ∖ {[e]} ∖ y.
Proof. set_solver. Qed.

Lemma members_nil : hm_repr (V := unit) [] (members_of ∅).
Proof. unfold members_of. rewrite gset_to_gmap_empty. apply hm_repr_nil. Qed.

Lemma hs_contains_spec l x e : hm_repr l (members_of x) -> hs_contains e l = bool_decide (e ∈ x).
Proof.
  intros Hr. unfold hs_contains. rewrite (hm_repr_lookup l _ e Hr), members_lookup.
  apply bool_decide_ext. case_decide; naive_solver.
Qed.

Lemma hs_insert_spec l x e :
  hm_repr l (members_of x) ->
  (hs_insert e l).1 = bool_decide (e ∉ x) /\ hm_repr (hs_insert e l).2 (members_of ({[e]} ∪ x)).
Proof.
  intros Hr. destruct (hm_insert_spec l _ e tt Hr) as [H1 H2]. unfold hs_insert.
  destruct (hm_insert e tt l) as [old l']. simpl in *. subst old. rewrite members_lookup. split.
  - apply bool_decide_ext. case_decide; naive_solver.
  - unfold members_of. by rewrite gset_to_gmap_union_singleton.
Qed.

Lemma hs_remove_spec l x e :
  hm_repr l (members_of x) ->
  (hs_remove e l).1 = bool_decide (e ∈ x) /\ hm_repr (hs_remove e l).2 (members_of (x ∖ {[e]})).
Proof.
  intros Hr. destruct (hm_remove_spec l _ e Hr) as [H1 H2]. unfold hs_remove.
  destruct (hm_remove e l) as [old l']. simpl in *. subst old. rewrite members_lookup. split.
  - apply bool_decide_ext. case_decide; naive_solver.
  - unfold members_of. by rewrite gset_to_gmap_difference_singleton.
Qed.

Lemma insert_members_spec ms l x n :
  hm_repr l (members_of x) ->
  (insert_members ms l n).1 = (n + size (list_to_set ms ∖ x))%nat /\
  hm_repr (insert_members ms l n).2 (members_of (x ∪ list_to_set ms)).
Proof.
  revert l x n. induction ms as [|e ms IH]; intros l x n Hr; simpl.
  - replace (∅ ∖ x) with (∅ : gset bytes) by set_solver. rewrite size_empty, Nat.add_0_r.
    split; [done|]. by replace (x ∪ ∅) with x by set_solver.
  - destruct (hs_insert_spec l x e Hr) as [H1 H2]. destruct (hs_insert e l) as [new l1]. simpl in *.
    destruct (IH l1 ({[e]} ∪ x) (if new then n + 1 else n)%nat H2) as [-> H4].
    replace (x ∪ ({[e]} ∪ list_to_set ms)) with ({[e]} ∪ x ∪ list_to_set ms) by set_solver.
    split; [|done]. subst new. case_bool_decide as He.
    + replace (({[e]} ∪ list_to_set ms) ∖ x) with ({[e]} ∪ list_to_set ms ∖ ({[e]} ∪ x)) by
        (apply set_eq; intros y; destruct (decide (y = e)); set_solver).
      rewrite (size_union {[e]}), size_singleton by set_solver. lia.
    + f_equal. f_equal. apply set_eq. intros y. destruct (decide (y = e)); set_solver.
Qed.

Lemma remove_members_spec ms l x n :
  hm_repr l (members_of x) ->
  (remove_members ms l n).1 = (n + size (x ∩ list_to_set ms))%nat /\
  hm_repr (remove_members ms l n).2 (members_of (x ∖ list_to_set ms)).
Proof.
  revert l x n. induction ms as [|e ms IH]; intros l x n Hr; cbn [remove_members].
  - simpl. replace (x ∩ ∅) with (∅ : gset bytes) by set_solver. rewrite size_empty, Nat.add_0_r.
    split; [done|]. by replace (x ∖ ∅) with x by set_solver.
  - rewrite list_to_set_cons. destruct (hs_remove_spec l x e Hr) as [H1 H2].
    destruct (hs_remove e l) as [had l1]. cbn [fst snd] in *.
    destruct (IH l1 (x ∖ {[e]}) (if had then n + 1 else n)%nat H2) as [-> H4].
    rewrite difference_cons.
    split; [|done]. subst had. case_bool_decide as He.
    + replace (x ∩ ({[e]} ∪ list_to_set ms)) with ({[e]} ∪ (x ∖ {[e]}) ∩ list_to_set ms) by
        (apply set_eq; intros y; destruct (decide (y = e)); set_solver).
      rewrite (size_union {[e]}), size_singleton by set_solver. lia.
    + f_equal. f_equal. apply set_eq. intros y. destruct (decide (y = e)); set_solver.
Qed.

Lemma pop_members_spec {rand : Rand bytes} cnt seed l x out :
  hm_repr l (members_of x) ->
  exists popped, (pop_members cnt seed l out).1 = out ++ popped /\
    NoDup popped /\ (forall e, e ∈ popped -> e ∈ x) /\ length popped = Nat.min cnt (size x) /\
    hm_repr (pop_members cnt seed l out).2 (members_of (x ∖ list_to_set popped)).
Proof.
  revert seed l x out. induction cnt as [|cnt IH]; intros seed l x out Hr; cbn [pop_members].
  { exists []. rewrite app_nil_r. simpl. replace (x ∖ ∅) with x by set_solver.
    split_and!; [done|constructor|by intros ? ?%not_elem_of_nil|done|done]. }
  pose proof (members_elements l x Hr) as Hm. pose proof (choose_spec seed l.*1) as Hc.
  destruct (choose seed l.*1) as [e|].
  - rewrite Hm, elem_of_elements in Hc. destruct (hs_remove_spec l x e Hr) as [_ H2].
    destruct (IH (seed + 1)%nat (hs_remove e l).2 (x ∖ {[e]}) (out ++ [e]) H2) as (popped & -> & Hnd & Hin & Hlen & Hrep).
    exists (e :: popped). split_and!.
    + by rewrite <- app_assoc.
    + constructor; [|done]. intros He%Hin. set_solver.
    + intros y [->|Hy]%elem_of_cons; [done|]. apply Hin in Hy. set_solver.
    + simpl. rewrite Hlen. pose proof (union_difference_singleton_L e x Hc) as E.
      apply (f_equal size) in E. rewrite (size_union {[e]}), size_singleton in E by set_solver. by rewrite E.
    + by rewrite list_to_set_cons, difference_cons.
  - rewrite Hc in Hm. symmetry in Hm. apply Permutation_nil_r, elements_empty_iff in Hm.
    exists []. simpl. rewrite app_nil_r. replace (x ∖ ∅) with x by set_solver.
    apply leibniz_equiv in Hm. subst x.
    split_and!; try done; [apply NoDup_nil_2|by intros ? ?%not_elem_of_nil].
Qed.
End HashSetLaws.

(** ** The engine holds a finite map of abstract values *)

Section MemoryLaws.
Context {G : Type} {set_order : HashOrder (bytes * unit)} {rand : Rand bytes}.
Notation Store := (InMemoryStore G).
Implicit Types (s : Store) (d : gmap bytes Value) (m : gmap bytes AVal).

Definition keyspace d m : Prop := forall k, denotes_opt (d !! k) (m !! k).
Definition memory_repr s m : Prop := keyspace (data s) m.

Lemma keyspace_insert d m k v a : keyspace d m -> denotes v a -> keyspace (<[k := v]> d) (<[k := a]> m).
Proof.
  intros Hk Hv k'. destruct (decide (k' = k)) as [->|Hne]; [by rewrite !lookup_insert_eq|].
  rewrite !lookup_insert_ne by done. apply Hk.
Qed.

Lemma keyspace_delete d m k : keyspace d m -> keyspace (delete k d) (delete k m).
Proof.
  intros Hk k'. destruct (decide (k' = k)) as [->|Hne]; [by rewrite !lookup_delete_eq|].
  rewrite !lookup_delete_ne by done. apply Hk.
Qed.

Lemma keyspace_empty : keyspace ∅ ∅.
Proof. intros k. by rewrite !lookup_empty. Qed.

Lemma keyspace_is_Some d m k : keyspace d m -> (is_Some (d !! k) <-> is_Some (m !! k)).
Proof.
  intros Hk. specialize (Hk k). unfold denotes_opt in Hk.
  destruct (d !! k), (m !! k); by rewrite ?is_Some_alt.
Qed.

Lemma keyspace_size d m : keyspace d m -> size d = size m.
Proof.
  intros Hk. rewrite <- !(size_dom (D := gset bytes)). f_equal. apply set_eq. intros k.
  rewrite !elem_of_dom. by apply keyspace_is_Some.
Qed.

(** The set found at a key, as the operations on sets see it. *)
Lemma keyspace_set d m k :
  keyspace d m ->
  match d !! k with
  | Some (VSet l) => exists x, m !! k = Some (ASet x) /\ hm_repr l (members_of x)
  | Some _ => not_set m k = true
  | None => m !! k = None
  end.
Proof.
  intros Hk. specialize (Hk k). unfold not_set, denotes_opt in *.
  destruct (d !! k) as [v|], (m !! k) as [a|]; try done. inversion Hk; subst; eauto.
Qed.

(** Case analysis on what is stored at the key of an operation on sets. *)
Ltac set_cases s m k x Hx :=
  let Hc := fresh "Hc" in
  match goal with H : memory_repr s m |- _ => pose proof (keyspace_set (data s) m k H) as Hc end;
  destruct (data s !! k) as [[]|];
  try (rewrite Hc; eexists; split_and!; [reflexivity|by eexists|done]);
  try (rewrite Hc; split; [done|]; eexists; split; [reflexivity|by eexists]);
  [destruct Hc as (x & Hc & Hx)|];
  unfold not_set, set_of, set_at; rewrite Hc; cbn [default from_option id].

Lemma memory_sadd s m k ms :
  memory_repr s m ->
  wp (sadd k ms) s (fun r s' =>
    if not_set m k then exists e, r = Err e /\ type_error e /\ memory_repr s' m
    else r = Ok (size (list_to_set ms ∖ set_of m k)) /\
         memory_repr s' (<[k := ASet (set_of m k ∪ list_to_set ms)]> m)).
Proof.
  intros Hs. unfold wp, sadd. set_cases s m k x Hx.
  - destruct (insert_members_spec ms s0 x 0 Hx) as [H1 H2]. destruct (insert_members ms s0 0) as [n l].
    simpl in *. subst n. split; [done|]. apply keyspace_insert; [done|]. by constructor.
  - destruct (insert_members_spec ms [] ∅ 0 members_nil) as [H1 H2].
    destruct (insert_members ms [] 0) as [n l]. simpl in *. subst n. split; [done|].
    apply keyspace_insert; [done|]. by constructor.
Qed.

Lemma store_set_repr s m k l x :
  memory_repr s m -> hm_repr l (members_of x) -> memory_repr (store_set k l s) (put_set k x m).
Proof.
  intros Hs Hl. pose proof (members_length l x Hl) as Hlen. unfold store_set, put_set.
  destruct (decide (x = ∅)) as [->|Hne].
  - rewrite size_empty in Hlen. apply nil_length_inv in Hlen as ->. cbn.
    unfold memory_repr. cbn. rewrite delete_insert_eq. by apply keyspace_delete.
  - rewrite bool_decide_false by (intros ->; symmetry in Hlen; by apply size_empty_inv, leibniz_equiv in Hlen).
    apply keyspace_insert; [done|]. by constructor.
Qed.

Lemma memory_srem s m k ms :
  memory_repr s m ->
  wp (srem k ms) s (fun r s' =>
    if not_set m k then exists e, r = Err e /\ type_error e /\ memory_repr s' m
    else r = Ok (size (set_of m k ∩ list_to_set ms)) /\
         memory_repr s' (if set_at m k then put_set k (set_of m k ∖ list_to_set ms) m else m)).
Proof.
  intros Hs. unfold wp, srem. set_cases s m k x Hx.
  - destruct (remove_members_spec ms s0 x 0 Hx) as [H1 H2]. destruct (remove_members ms s0 0) as [n l].
    simpl in *. subst n. split; [done|]. by apply store_set_repr.
  - split; [|done]. replace (∅ ∩ list_to_set ms) with (∅ : gset bytes) by set_solver. by rewrite size_empty.
Qed.

Lemma memory_spop s m seed k count :
  memory_repr s m ->
  wp (spop seed k count) s (fun r s' =>
    if not_set m k then exists e, r = Err e /\ type_error e /\ memory_repr s' m
    else exists l, r = Ok l /\ sample (set_of m k) (if count <=? 0 then 1 else count) l /\
         memory_repr s' (if set_at m k then put_set k (set_of m k ∖ list_to_set l) m else m)).
Proof.
  intros Hs. unfold wp, spop. set_cases s m k x Hx.
  - destruct (pop_members_spec (if count <=? 0 then 1 else Z.to_nat count) seed s0 x [] Hx)
      as (l & H1 & Hnd & Hin & Hlen & H2).
    destruct (pop_members _ seed s0 []) as [out l1]. simpl in *. subst out. exists l. split; [done|].
    split; [|by apply store_set_repr]. split_and!; [done|done|]. rewrite Hlen. by destruct (count <=? 0).
  - exists []. split; [done|]. split; [|done]. split_and!; [apply NoDup_nil_2|by intros ? ?%not_elem_of_nil|].
    by rewrite size_empty, Nat.min_0_r.
Qed.

Lemma memory_srandmember s m seed k count :
  memory_repr s m ->
  wp (srandmember seed k count) s (fun r s' => memory_repr s' m /\
    if not_set m k then exists e, r = Err e /\ type_error e
    else exists l, r = Ok l /\ sample (set_of m k) count l).
Proof.
  intros Hs. unfold wp, srandmember. set_cases s m k x Hx.
  - pose proof (members_elements s0 x Hx) as Hm.
    destruct (Z.eqb_spec count 1) as [->|H1]; [|destruct (Z.ltb_spec 1 count)]; (split; [done|]); eexists; (split; [done|]).
    + pose proof (choose_spec seed s0.*1) as Hc1. destruct (choose seed s0.*1) as [e|].
      * rewrite Hm, elem_of_elements in Hc1. split_and!; [apply NoDup_singleton| |].
        -- by intros y ->%list_elem_of_singleton.
        -- simpl. destruct (size x) eqn:E; [|lia].
           apply size_empty_inv in E. set_solver.
      * rewrite Hc1 in Hm. symmetry in Hm. apply Permutation_nil_r, elements_empty_iff, leibniz_equiv in Hm as ->.
        split_and!; [apply NoDup_nil_2|by intros ? ?%not_elem_of_nil|done].
    + destruct (choose_multiple_spec seed (Z.to_nat count) s0.*1) as (rest & Hp & Hlen).
      pose proof (Permutation_trans Hp Hm) as Hp'. clear Hp. rename Hp' into Hp.
      assert (NoDup (choose_multiple seed (Z.to_nat count) s0.*1 ++ rest)) as Hnd by (rewrite Hp; apply NoDup_elements).
      split_and!; [by apply NoDup_app in Hnd as [? _]| |].
      * intros e He. apply elem_of_elements. rewrite <- Hp. apply elem_of_app. by left.
      * rewrite Hlen, length_fmap. by rewrite (members_length s0 x Hx).
    + split_and!; [apply NoDup_nil_2|by intros ? ?%not_elem_of_nil|]. by replace (Z.to_nat count) with 0%nat by lia.
  - split; [done|]. exists []. split; [done|].
    split_and!; [apply NoDup_nil_2|by intros ? ?%not_elem_of_nil|]. by rewrite size_empty, Nat.min_0_r.
Qed.
#[export] Instance memory_laws : StorageLaws Store.
Proof.
  refine {| store_repr := memory_repr; same_shard := fun _ _ _ => true |}; unfold wp; cbn.
  - intros s m k v a Hs Hv. split; [done|]. by apply keyspace_insert.
  - intros s m k Hs. eexists. split; [done|]. split; [apply Hs|done].
  - intros s m k Hs. split; [f_equal; apply bool_decide_ext; by apply keyspace_is_Some|].
    by apply keyspace_delete.
  - intros s m kvs kas Hs Hall. split; [done|]. unfold memory_repr in *. cbn. revert Hs.
    generalize (data s) as d. revert m.
    induction Hall as [|[k v] [k' a] kvs kas [Hk Hv] _ IH]; intros m d Hd; [done|].
    cbn in *. subst k'. apply IH. by apply keyspace_insert.
  - intros s m ks Hs. eexists. split; [done|]. split; [|done].
    induction ks as [|k ks IH]; constructor; [apply Hs|done].
  - intros s m from to Hs. unfold rename. pose proof (Hs from) as Hf. unfold denotes_opt in Hf.
    destruct (data s !! from) as [v|], (m !! from) as [a|]; try done. split; [done|].
    apply keyspace_insert; [by apply keyspace_delete|done].
  - intros s m from to Hs. unfold renamenx. pose proof (Hs to) as Ht. pose proof (Hs from) as Hf.
    unfold denotes_opt in *. destruct (data s !! to) as [w|], (m !! to) as [b|]; try done; cbn.
    destruct (data s !! from) as [v|], (m !! from) as [a|]; try done. split; [done|].
    apply keyspace_insert; [by apply keyspace_delete|done].
  - intros s m Hs. split; [done|]. apply keyspace_empty.
  - intros s m Hs. by rewrite (keyspace_size _ m Hs).
  - done.
  - intros s m k ms. apply memory_sadd.
  - intros s m k Hs. unfold smembers. set_cases s m k x Hx; (split; [done|]); eexists; (split; [done|]).
    + by apply members_elements.
    + by rewrite elements_empty.
  - intros s m k Hs. unfold scard. set_cases s m k x Hx; (split; [done|]).
    + by rewrite (members_length _ x Hx).
    + by rewrite size_empty.
  - intros s m k e Hs. unfold sismember. set_cases s m k x Hx; (split; [done|]).
    + by rewrite (hs_contains_spec _ x e Hx).
    + by rewrite bool_decide_false by set_solver.
  - intros s m k ms. apply memory_srem.
  - intros s m seed k count. apply memory_srandmember.
  - intros s m seed k count. apply memory_spop.
Defined.
End MemoryLaws.
