(* ===== verification/Commands.v ===== *)
(** * The commands

    Models the [execute] methods of [src/src/command]: strings ([string.rs]),
    integers ([int.rs]), floats ([float.rs]), keys ([keys.rs]), hashes
    ([hash.rs]), sets ([set.rs]), lists ([list.rs]), bit arrays ([bitmap.rs]) and
    the ones of [server.rs] that read the store, over any engine
    ([StorageOps]), and the dispatch of [execute.rs].  A definition is named
    after the struct of its command.  Keys and arguments are their bytes, an
    [Sds] is its bytes ([Sds.v] shows that it is), a bit array is its bytes.  The
    length of a container is taken below 2^63. *)
From S2P Require Import Prelude Interfaces SdsNumeric ZdbValue Numbers Storage Memory.
From S2P Require QuickList SmartHash Bitmap Dict SkipList.
Local Open Scope Z_scope.

Definition MAX_SEGMENT : nat := 64.

Section Commands.
Context {M : Type} {ops : StorageOps M}.
Context {hash_order : HashOrder (bytes * bytes)} {pair_rand : Rand (bytes * bytes)}.
Context {text : FloatText} (cpu : Bitmap.CpuFeatures).

Definition execution : Type := action M Value.
Definition int (n : nat) : Value := VInt (Z.of_nat n).
Definition str (s : string) : Value := VStr (ascii_bytes s).

(** ** Strings *)

Definition SetCommand (key : bytes) (value : Value) : execution :=
  let! _ := st_set key value in aret VNull.

Definition GetCommand (key : bytes) : execution :=
  let! result := st_get key in aret (default VNull result).

Definition SetNxCommand (key : bytes) (value : Value) : execution :=
  let! old := st_get key in
  if bool_decide (old = None) then let! _ := st_set key value in aret (VInt 1) else aret (VInt 0).

Definition MSetCommand (entries : list (bytes * Value)) : execution :=
  let! _ := st_mset entries in aret VNull.

(** The conversion of one value; a key that is missing is an empty string. *)
Fixpoint mget_strings (values : list (option Value)) : result StoreError (list bytes) :=
  match values with
  | [] => Ok []
  | Some (VStr s) :: values => let? l := mget_strings values in Ok (s :: l)
  | Some _ :: _ => Err (WrongType "Неверный тип")
  | None :: values => let? l := mget_strings values in Ok ([] :: l)
  end.

Definition MGetCommand (keys : list bytes) : execution :=
  let! values := st_mget keys in
  let! l := atry (mget_strings values) in
  let! q := apure (QuickList.push_back_all (QuickList.new MAX_SEGMENT) l) in
  aret (VList q).

Definition StrLenCommand (key : bytes) : execution :=
  let! value := st_get key in
  match value with
  | Some (VStr s) => aret (int (length s))
  | Some _ => araise InvalidType
  | None => aret (VInt 0)
  end.

Definition AppendCommand (key value : bytes) : execution :=
  let! old := st_get key in
  match old with
  | Some (VStr s) =>
      let result := s ++ value in
      let! _ := st_set key (VStr result) in aret (int (length result))
  | Some _ => araise InvalidType
  | None => let! _ := st_set key (VStr value) in aret (int (length value))
  end.

(** [str::is_char_boundary]: slicing a [str] elsewhere panics. *)
Definition is_char_boundary (s : bytes) (i : nat) : bool :=
  (i =? 0)%nat || match s !! i with Some b => (b <? 128) || (192 <=? b) | None => (i =? length s)%nat end.

Definition range_start (len start : Z) : Z :=
  let start := if start <? 0 then len + start else start in Z.min (Z.max start 0) len.
Definition range_end (len start stop : Z) : Z :=
  let stop := if stop <? 0 then len + stop else stop in Z.min (Z.max stop start) len.

Definition GetRangeCommand (key : bytes) (start stop : Z) : execution :=
  let! value := st_get key in
  match value with
  | Some (VStr s) =>
      if negb (is_utf8 s) then araise InvalidType
      else
        let len := Z.of_nat (length s) in
        let i := range_start len start in
        let j := range_end len i stop in
        if is_char_boundary s (Z.to_nat i) && is_char_boundary s (Z.to_nat j)
        then aret (VStr (take (Z.to_nat (j - i)) (drop (Z.to_nat i) s)))
        else apanic
  | Some _ => araise InvalidType
  | None => aret VNull
  end.

(** ** Keys *)

Definition DelCommand (key : bytes) : execution := let! deleted := st_del key in aret (VBool deleted).

(** [filter_map(|key| store.get(&key).ok())]: an error counts as no key. *)
Fixpoint count_existing (keys : list bytes) (count : nat) : action M nat :=
  match keys with
  | [] => aret count
  | key :: keys => fun s =>
      match st_get key s with
      | Some (Ok (Some _), s) => count_existing keys (count + 1) s
      | Some (_, s) => count_existing keys count s
      | None => None
      end
  end.

Definition ExistsCommand (keys : list bytes) : execution :=
  let! count := count_existing keys 0 in aret (int count).

Definition RenameCommand (from to : bytes) : execution :=
  let! _ := st_rename from to in aret (VStr []).

Definition RenameNxCommand (from to : bytes) : execution :=
  let! success := st_renamenx from to in aret (VInt (if success then 1 else 0)).

Definition FlushDbCommand : execution := let! _ := st_flushdb in aret (str "OK").
Definition DbSizeCommand : execution := let! size := st_dbsize in aret (int size).
Definition SaveCommand : execution := let! _ := st_save in aret (str "OK").
Definition PingCommand (message : option bytes) : execution :=
  aret (VStr (default (ascii_bytes "PONG") message)).
Definition EchoCommand (message : bytes) : execution := aret (VStr message).

(** ** Integers *)

Definition value_to_i64 (value : Value) : result StoreError Z :=
  match value with
  | VInt n => Ok n
  | VStr sds => match i64_of_bytes sds with Ok n => Ok n | Err _ => Err InvalidType end
  | _ => Err InvalidType
  end.

(** [checked_add] of [i64]. *)
Definition checked_i64 (n : Z) : option Z :=
  if (- 2 ^ 63 <=? n) && (n <? 2 ^ 63) then Some n else None.

(** The body of the four commands, which differ in the amount. *)
Definition add_to_key (key : bytes) (amount : Z) : execution :=
  let! old := st_get key in
  let! current := atry (match old with Some v => value_to_i64 v | None => Ok 0 end) in
  match checked_i64 (current + amount) with
  | Some new_val => let! _ := st_set key (VInt new_val) in aret (VInt new_val)
  | None => araise InvalidType
  end.

Definition IncrCommand (key : bytes) : execution := add_to_key key 1.
Definition IncrByCommand (key : bytes) (increment : Z) : execution := add_to_key key increment.
Definition DecrCommand (key : bytes) : execution := add_to_key key (-1).
Definition DecrByCommand (key : bytes) (decrement : Z) : execution := add_to_key key (- decrement).

(** ** Floats *)

Definition IncrByFloatCommand (key : bytes) (increment : f64) : execution :=
  let! old := st_get key in
  match old with
  | Some (VFloat current) =>
      let new_value := f64_add current increment in
      let! _ := st_set key (VFloat new_value) in aret (VFloat new_value)
  | Some _ => araise InvalidType
  | None => let! _ := st_set key (VFloat increment) in aret (VFloat increment)
  end.

Definition DecrByFloatCommand (key : bytes) (decrement : f64) : execution :=
  let! old := st_get key in
  match old with
  | Some (VFloat current) =>
      let new_value := f64_sub current decrement in
      let! _ := st_set key (VFloat new_value) in aret (VFloat new_value)
  | Some _ => araise InvalidType
  | None => let! _ := st_set key (VFloat (f64_neg decrement)) in aret (VFloat (f64_neg decrement))
  end.

Definition SetFloatCommand (key : bytes) (value : f64) : execution :=
  let! _ := st_set key (VFloat value) in aret (VFloat value).

(** ** Hashes *)

(** The hash at a key, [None] when there is no key. *)
Definition get_hash (key : bytes) : action M (option SmartHash.SmartHash) :=
  let! value := st_get key in
  match value with
  | Some (VHash sh) => aret (Some sh)
  | Some _ => araise InvalidType
  | None => aret None
  end.

Fixpoint insert_fields (sh : SmartHash.SmartHash) (entries : list (bytes * bytes)) (added : nat)
  : nat * SmartHash.SmartHash :=
  match entries with
  | [] => (added, sh)
  | (f, v) :: entries =>
      let '(new, sh) := SmartHash.insert sh f v in
      insert_fields sh entries (if new then (added + 1)%nat else added)
  end.

Definition HSetCommand (key : bytes) (entries : list (bytes * bytes)) : execution :=
  let! hash := get_hash key in
  let '(added, sh) := insert_fields (default SmartHash.new hash) entries 0 in
  let! _ := st_set key (VHash sh) in aret (int added).

Definition field_value (sh : SmartHash.SmartHash) (field : bytes) : Value :=
  match SmartHash.get sh field with Some v => VStr v | None => VNull end.

Definition HGetCommand (key field : bytes) : execution :=
  let! hash := get_hash key in
  aret (match hash with Some sh => field_value sh field | None => VNull end).

Definition HmGetCommand (key : bytes) (fields : list bytes) : execution :=
  let! hash := get_hash key in
  aret (VArray (match hash with
                | Some sh => field_value sh <$> fields
                | None => replicate (length fields) VNull
                end)).

Fixpoint remove_fields (sh : SmartHash.SmartHash) (fields : list bytes) (removed : nat)
  : nat * SmartHash.SmartHash :=
  match fields with
  | [] => (removed, sh)
  | f :: fields =>
      let '(had, sh) := SmartHash.remove sh f in
      remove_fields sh fields (if had then (removed + 1)%nat else removed)
  end.

Definition HDelCommand (key : bytes) (fields : list bytes) : execution :=
  let! hash := get_hash key in
  match hash with
  | Some sh =>
      let '(removed, sh) := remove_fields sh fields 0 in
      if SmartHash.is_empty sh then let! _ := st_del key in aret (int removed)
      else let! _ := st_set key (VHash sh) in aret (int removed)
  | None => aret (VInt 0)
  end.

Definition HExistsCommand (key field : bytes) : execution :=
  let! hash := get_hash key in
  aret (VInt (match hash with
              | Some sh => if SmartHash.contains sh field then 1 else 0
              | None => 0
              end)).

Definition HLenCommand (key : bytes) : execution :=
  let! hash := get_hash key in
  aret (match hash with Some sh => int (SmartHash.len sh) | None => VInt 0 end).

Definition list_value (items : list bytes) : execution :=
  let! q := apure (QuickList.from_iter items MAX_SEGMENT) in aret (VList q).

Definition HKeysCommand (key : bytes) : execution :=
  let! hash := get_hash key in
  list_value (match hash with Some sh => SmartHash.keys sh | None => [] end).

Definition HValsCommand (key : bytes) : execution :=
  let! hash := get_hash key in
  list_value (match hash with Some sh => SmartHash.values sh | None => [] end).

(** [entries.sort_by_key(|(k1, _)| *k1)] *)
Definition key_le (a b : bytes * bytes) : Prop := slice_cmp a.1 b.1 <> Gt.
#[export] Instance key_le_dec : RelDecision key_le.
Proof. intros a b. unfold key_le. destruct (slice_cmp a.1 b.1); [by left|by left|by right; intros []]. Defined.

Definition flat (entries : list (bytes * bytes)) : list bytes :=
  concat ((fun e => [e.1; e.2]) <$> entries).

Definition HGetAllCommand (key : bytes) : execution :=
  let! hash := get_hash key in
  match hash with
  | Some sh => list_value (flat (merge_sort key_le (SmartHash.iter sh).1))
  | None => aret VNull
  end.

(** [count < 0] draws with repetition, [seed] being the state of the generator
    at the first draw. *)
Definition draw (seed n : nat) (entries : list (bytes * bytes)) : list (bytes * bytes) :=
  concat ((fun i => option_list (choose (seed + i) entries)) <$> seq 0 n).

Definition HRandFieldCommand (seed : nat) (key : bytes) (count : option Z) (with_values : bool) : execution :=
  let! hash := get_hash key in
  let items (l : list (bytes * bytes)) : execution := list_value (if with_values then flat l else l.*1) in
  match hash, count with
  | Some sh, Some count =>
      let entries := SmartHash.entries sh in
      if count <? 0 then items (draw seed (Z.to_nat (- count)) entries)
      else items (choose_multiple seed (Nat.min (Z.to_nat count) (length entries)) entries)
  | Some sh, None =>
      aret (match choose seed (SmartHash.entries sh) with Some (field, _) => VStr field | None => VNull end)
  | None, Some _ => list_value []
  | None, None => aret VNull
  end.

(** The text of a field as an [i64]. *)
Definition field_i64 (field : option bytes) : result StoreError Z :=
  match field with
  | Some v =>
      if negb (is_utf8 v) then Err InvalidValue
      else match parse_int (- 2 ^ 63) (2 ^ 63 - 1) v with Ok n => Ok n | Err _ => Err InvalidValue end
  | None => Ok 0
  end.

Definition HIncrByCommand (key field : bytes) (increment : Z) : execution :=
  let! hash := get_hash key in
  let hash := default SmartHash.new hash in
  let! current := atry (field_i64 (SmartHash.get hash field)) in
  match checked_i64 (current + increment) with
  | Some new_value =>
      let hash := (SmartHash.insert hash field (fmt_int new_value)).2 in
      let! _ := st_set key (VHash hash) in aret (VInt new_value)
  | None => araise Overflow
  end.

Definition field_f64 (field : option bytes) : result StoreError f64 :=
  match field with
  | Some v =>
      if negb (is_utf8 v) then Err InvalidValue
      else match parse_f64 v with Some f => Ok f | None => Err InvalidValue end
  | None => Ok f64_zero
  end.

Definition HIncrByFloatCommand (key field : bytes) (increment : f64) : execution :=
  let! hash := get_hash key in
  let hash := default SmartHash.new hash in
  let! current := atry (field_f64 (SmartHash.get hash field)) in
  if is_nan increment then araise InvalidValue
  else
    let new_value := f64_add current increment in
    if negb (is_finite new_value) then araise InvalidValue
    else
      let hash := (SmartHash.insert hash field (fmt_display new_value)).2 in
      let! _ := st_set key (VHash hash) in aret (VFloat new_value).

(** ** Sets *)

Definition SAddCommand (key member : bytes) : execution :=
  let! added := st_sadd key [member] in aret (int added).
Definition SRemCommand (key member : bytes) : execution :=
  let! removed := st_srem key [member] in aret (int removed).
Definition SCardCommand (key : bytes) : execution := let! count := st_scard key in aret (int count).

Definition SMembersCommand (key : bytes) : execution :=
  let! value := st_get key in
  match value with
  | Some (VSet _) => let! members := st_smembers key in list_value members
  | Some VNull | None => aret VNull
  | Some _ => araise (WrongType "SMEMBERS on non-set key")
  end.

Definition SIsMemberCommand (key member : bytes) : execution :=
  let! exists_ := st_sismember key member in aret (VInt (if exists_ then 1 else 0)).

Definition SRandMemberCommand (seed : nat) (key : bytes) (count : Z) : execution :=
  let! value := st_get key in
  match value with
  | Some VNull | None => aret VNull
  | _ =>
      let! members := st_srandmember seed key count in
      if bool_decide (members = []) then aret VNull else list_value members
  end.

Definition SPopCommand (seed : nat) (key : bytes) (count : Z) : execution :=
  let! value := st_get key in
  match value with
  | Some VNull | None => aret VNull
  | _ =>
      let! removed := st_spop seed key count in
      if bool_decide (removed = []) then aret VNull else list_value removed
  end.

(** ** Lists *)

Definition get_list (key : bytes) : action M (option (QuickList.QuickList bytes)) :=
  let! value := st_get key in
  match value with
  | Some (VList l) => aret (Some l)
  | Some _ => araise InvalidType
  | None => aret None
  end.

(** [LPUSH] and [RPUSH], which differ in the end. *)
Definition push_element
    (push : QuickList.QuickList bytes -> bytes -> option (QuickList.QuickList bytes))
    (key value : bytes) : execution :=
  let! found := get_list key in
  let! l := apure (push (default (QuickList.new MAX_SEGMENT) found) value) in
  let len := QuickList.len l in
  let! _ := st_set key (VList l) in aret (int len).

Definition LPushCommand : bytes -> bytes -> execution := push_element QuickList.push_front.
Definition RPushCommand : bytes -> bytes -> execution := push_element QuickList.push_back.

Definition pop_element
    (pop : QuickList.QuickList bytes -> option (option bytes * QuickList.QuickList bytes))
    (key : bytes) : execution :=
  let! found := get_list key in
  match found with
  | Some l =>
      let! popped := apure (pop l) in
      match popped.1 with
      | Some elem => let! _ := st_set key (VList popped.2) in aret (VStr elem)
      | None => aret VNull
      end
  | None => aret VNull
  end.

Definition LPopCommand : bytes -> execution := pop_element QuickList.pop_front.
Definition RPopCommand : bytes -> execution := pop_element QuickList.pop_back.

Definition LLenCommand (key : bytes) : execution :=
  let! found := get_list key in
  aret (match found with Some l => int (QuickList.len l) | None => VInt 0 end).

(** [for idx in s..=e { if let Some(elem) = list.get(idx) { vec.push(..) } }],
    [n] indexes left. *)
Fixpoint collect_range (n idx : nat) (l : QuickList.QuickList bytes) (vec : list bytes)
  : option (list bytes) :=
  match n with
  | O => Some vec
  | Datatypes.S n =>
      '(elem, l) ← QuickList.get l idx;
      collect_range n (idx + 1) l (vec ++ option_list elem)
  end.

(** The bounds as [usize]: [-1] wraps to the largest index. *)
Definition lrange_start (len start : Z) : Z :=
  if start <? 0 then Z.max (len + start) 0 else Z.min start len.
Definition lrange_stop (len stop : Z) : Z :=
  wrapu 64 (if stop <? 0 then Z.max (len + stop) 0 else Z.min stop (len - 1)).

Definition LRangeCommand (key : bytes) (start stop : Z) : execution :=
  let! found := get_list key in
  match found with
  | Some l =>
      let len := Z.of_nat (QuickList.len l) in
      let s := lrange_start len start in
      let e := Z.min (lrange_stop len stop) (Z.max (len - 1) 0) in
      let! vec := apure (collect_range (Z.to_nat (e + 1 - s)) (Z.to_nat s) l []) in
      list_value vec
  | None => aret VNull
  end.

(** ** Bit arrays *)

(** The bit array at a key; any other value counts as an empty one. *)
Definition get_bitmap (key : bytes) : action M (option Bitmap.Bitmap) :=
  let! value := st_get key in
  aret (match value with Some (VBitmap b) => Some (Bitmap.mkBitmap b) | _ => None end).

Definition SetBitCommand (key : bytes) (offset : nat) (value : bool) : execution :=
  let! found := get_bitmap key in
  let! set := apure (Bitmap.set_bit (default Bitmap.new found) offset value) in
  let! _ := st_set key (VBitmap (Bitmap.bm_bytes set.2)) in
  aret (VInt (if set.1 then 1 else 0)).

Definition GetBitCommand (key : bytes) (offset : nat) : execution :=
  let! found := get_bitmap key in
  match found with
  | Some bm => let! bit := apure (Bitmap.get_bit bm offset) in aret (VInt (if bit then 1 else 0))
  | None => aret (VInt 0)
  end.

Definition BitCountCommand (key : bytes) (start stop : nat) : execution :=
  let! found := get_bitmap key in
  match found with
  | Some bm => let! cnt := apure (Bitmap.bitcount cpu bm start stop) in aret (VInt cnt)
  | None => aret (VInt 0)
  end.

Fixpoint get_bitmaps (keys : list bytes) : action M (list Bitmap.Bitmap) :=
  match keys with
  | [] => aret []
  | k :: keys =>
      let! found := get_bitmap k in
      let! bitmaps := get_bitmaps keys in
      aret (option_list found ++ bitmaps)
  end.

(** The operator by its name; another name is an error. *)
Definition bit_operation (op : string) (bitmaps : list Bitmap.Bitmap) : result StoreError Bitmap.Bitmap :=
  let fold f :=
    match bitmaps with
    | [] => Ok Bitmap.new
    | first :: rest => Ok (foldl f first rest)
    end in
  if String.eqb op "NOT" then Ok (Bitmap.bitnot (default Bitmap.new (head bitmaps)))
  else if String.eqb op "AND" then fold Bitmap.bitand
  else if String.eqb op "OR" then fold Bitmap.bitor
  else if String.eqb op "XOR" then fold Bitmap.bitxor
  else Err (Syntax ("Unknown BITOP `" ++ op ++ "`")).

Definition BitOpCommand (op : string) (dest : bytes) (keys : list bytes) : execution :=
  let! bitmaps := get_bitmaps keys in
  let! result := atry (bit_operation op bitmaps) in
  let! _ := st_set dest (VBitmap (Bitmap.bm_bytes result)) in
  aret (int (Bitmap.bit_len result)).

(** ** Dispatch *)

(** The commands whose body is [unimplemented!]. *)
Inductive Unimplemented : Type :=
| SInter | SUnion | SDiff | LSet | LRem | BitPos
| ZAdd | ZRem | ZRange | ZScore | ZCard | ZRevrange | ZRank | ZRevRank | ZCount | ZIncrBy
| PfAdd | PfCount | PfMerge.

(** The commands on the keyspace; those on places, users, channels and the server
    are the other variants, in [Administration.AnyCommand].  [seed] is the state of
    the generator of random numbers when the command starts. *)
Inductive Command : Type :=
| Set_ (key : bytes) (value : Value) | Get (key : bytes) | SetNx (key : bytes) (value : Value)
| MSet (entries : list (bytes * Value)) | MGet (keys : list bytes)
| Strlen (key : bytes) | Append (key value : bytes) | GetRange (key : bytes) (start stop : Z)
| Del (key : bytes) | Exists_ (keys : list bytes) | Rename (from to : bytes) | Renamenx (from to : bytes)
| Flushdb | DbSize | Save | Ping (message : option bytes) | Echo (message : bytes)
| Incr (key : bytes) | Incrby (key : bytes) (increment : Z)
| Decr (key : bytes) | Decrby (key : bytes) (decrement : Z)
| Incrbyfloat (key : bytes) (increment : f64) | Decrbyfloat (key : bytes) (decrement : Z)
| Setfloat (key : bytes) (value : f64)
| HSet (key : bytes) (entries : list (bytes * bytes)) | HGet (key field : bytes)
| HmGet (key : bytes) (fields : list bytes) | HDel (key : bytes) (fields : list bytes)
| HExists (key field : bytes) | HLen (key : bytes) | HKeys (key : bytes) | HVals (key : bytes)
| HGetall (key : bytes) | HRandField (seed : nat) (key : bytes) (count : option Z) (with_values : bool)
| HIncrBy (key field : bytes) (increment : Z) | HIncrByFloat (key field : bytes) (increment : f64)
| SAdd (key member : bytes) | SRem (key member : bytes) | SCard (key : bytes) | SMembers (key : bytes)
| SIsmember (key member : bytes) | SRandMember (seed : nat) (key : bytes) (count : Z)
| SPop (seed : nat) (key : bytes) (count : Z)
| LPush (key value : bytes) | RPush (key value : bytes) | LPop (key : bytes) | RPop (key : bytes)
| LLen (key : bytes) | LRange (key : bytes) (start stop : Z)
| SetBit (key : bytes) (offset : nat) (value : bool) | GetBit (key : bytes) (offset : nat)
| BitCount (key : bytes) (start stop : nat) | BitOp (op : string) (dest : bytes) (keys : list bytes)
| NotImplementedYet (u : Unimplemented).

(** [Decrbyfloat] carries a [DecrByCommand]: it decrements an integer. *)
Definition execute (command : Command) : execution :=
  match command with
  | Set_ key value => SetCommand key value
  | Get key => GetCommand key
  | SetNx key value => SetNxCommand key value
  | MSet entries => MSetCommand entries
  | MGet keys => MGetCommand keys
  | Strlen key => StrLenCommand key
  | Append key value => AppendCommand key value
  | GetRange key start stop => GetRangeCommand key start stop
  | Del key => DelCommand key
  | Exists_ keys => ExistsCommand keys
  | Rename from to => RenameCommand from to
  | Renamenx from to => RenameNxCommand from to
  | Flushdb => FlushDbCommand
  | DbSize => DbSizeCommand
  | Save => SaveCommand
  | Ping message => PingCommand message
  | Echo message => EchoCommand message
  | Incr key => IncrCommand key
  | Incrby key increment => IncrByCommand key increment
  | Decr key => DecrCommand key
  | Decrby key decrement | Decrbyfloat key decrement => DecrByCommand key decrement
  | Incrbyfloat key increment => IncrByFloatCommand key increment
  | Setfloat key value => SetFloatCommand key value
  | HSet key entries => HSetCommand key entries
  | HGet key field => HGetCommand key field
  | HmGet key fields => HmGetCommand key fields
  | HDel key fields => HDelCommand key fields
  | HExists key field => HExistsCommand key field
  | HLen key => HLenCommand key
  | HKeys key => HKeysCommand key
  | HVals key => HValsCommand key
  | HGetall key => HGetAllCommand key
  | HRandField seed key count with_values => HRandFieldCommand seed key count with_values
  | HIncrBy key field increment => HIncrByCommand key field increment
  | HIncrByFloat key field increment => HIncrByFloatCommand key field increment
  | SAdd key member => SAddCommand key member
  | SRem key member => SRemCommand key member
  | SCard key => SCardCommand key
  | SMembers key => SMembersCommand key
  | SIsmember key member => SIsMemberCommand key member
  | SRandMember seed key count => SRandMemberCommand seed key count
  | SPop seed key count => SPopCommand seed key count
  | LPush key value => LPushCommand key value
  | RPush key value => RPushCommand key value
  | LPop key => LPopCommand key
  | RPop key => RPopCommand key
  | LLen key => LLenCommand key
  | LRange key start stop => LRangeCommand key start stop
  | SetBit key offset value => SetBitCommand key offset value
  | GetBit key offset => GetBitCommand key offset
  | BitCount key start stop => BitCountCommand key start stop
  | BitOp op dest keys => BitOpCommand op dest keys
  | NotImplementedYet _ => apanic
  end.
End Commands.
