(* ===== verification/CommandSpec.v ===== *)
(** * What the commands mean

    The specification of [Commands] over a keyspace of abstract values (byte
    strings, integers, lists, finite maps, sets, rows of bits), and the theorem
    that the commands, run on any engine that keeps the laws of the storage
    interface, do what the specification says. *)
From S2P Require Import Prelude Interfaces SdsNumeric ZdbValue Numbers Storage Memory Commands.
From S2P Require QuickList SmartHash Bitmap.
Local Open Scope Z_scope.

Notation keyspace_map := (gmap bytes AVal).

(** ** The specification *)

Definition answer : Type := result StoreError AVal.
Definition outcome : Type := answer -> keyspace_map -> Prop.

(** The only outcome is this answer with this keyspace. *)
Definition gives (r : answer) (m : keyspace_map) : outcome := fun r' m' => r' = r /\ m' = m.

Definition aint (n : nat) : AVal := AInt (Z.of_nat n).
Definition astr (s : string) : AVal := AStr (ascii_bytes s).

Section Spec.
Context {text : FloatText}.
Implicit Types (m : keyspace_map) (k : bytes).

(** *** Strings and keys *)

Fixpoint strings_of (l : list (option AVal)) : result StoreError (list bytes) :=
  match l with
  | [] => Ok []
  | Some (AStr s) :: l => let? r := strings_of l in Ok (s :: r)
  | Some _ :: _ => Err (WrongType "Неверный тип")
  | None :: l => let? r := strings_of l in Ok ([] :: r)
  end.

(** The bytes of a string from position [i] up to position [j], both counted
    from the end when negative. *)
Definition substring (s : bytes) (i j : Z) : bytes :=
  let len := Z.of_nat (length s) in
  take (Z.to_nat (range_end len (range_start len i) j - range_start len i))
       (drop (Z.to_nat (range_start len i)) s).

Definition on_string m k (f : bytes -> outcome) (none : outcome) : outcome :=
  match m !! k with
  | Some (AStr s) => f s
  | Some _ => gives (Err InvalidType) m
  | None => none
  end.

(** *** Numbers *)

Definition int_at m k : result StoreError Z :=
  match m !! k with
  | None => Ok 0
  | Some (AInt n) => Ok n
  | Some (AStr s) => match i64_of_bytes s with Ok n => Ok n | Err _ => Err InvalidType end
  | Some _ => Err InvalidType
  end.

Definition adds m k (amount : Z) : outcome :=
  match int_at m k with
  | Ok n =>
      match checked_i64 (n + amount) with
      | Some n => gives (Ok (AInt n)) (<[k := AInt n]> m)
      | None => gives (Err InvalidType) m
      end
  | Err e => gives (Err e) m
  end.

(** *** Hashes *)

Definition on_hash m k (f : gmap bytes bytes -> outcome) (none : outcome) : outcome :=
  match m !! k with
  | Some (AHash h) => f h
  | Some _ => gives (Err InvalidType) m
  | None => none
  end.

(** A key that is missing counts as an empty hash. *)
Definition in_hash m k (f : gmap bytes bytes -> outcome) : outcome := on_hash m k f (f ∅).

Definition without_fields (h : gmap bytes bytes) (fields : list bytes) : gmap bytes bytes :=
  foldl (fun h f => delete f h) h fields.

Definition afield (h : gmap bytes bytes) (f : bytes) : AVal :=
  match h !! f with Some v => AStr v | None => ANull end.

(** A list of pairs drawn from a hash. *)
Definition drawn (h : gmap bytes bytes) (count : Z) (kvs : list (bytes * bytes)) : Prop :=
  (forall kv, kv ∈ kvs -> h !! kv.1 = Some kv.2) /\
  if count <? 0 then length kvs = if decide (h = ∅) then 0%nat else Z.to_nat (- count)
  else NoDup kvs.*1 /\ length kvs = Nat.min (Z.to_nat count) (size h).

(** *** Lists *)

Definition on_list m k (f : list bytes -> outcome) (none : outcome) : outcome :=
  match m !! k with
  | Some (AList l) => f l
  | Some _ => gives (Err InvalidType) m
  | None => none
  end.

(** The elements from [start] to [stop], both included. *)
Definition sublist (l : list bytes) (start stop : Z) : list bytes :=
  let len := Z.of_nat (length l) in
  let s := lrange_start len start in
  let e := Z.min (lrange_stop len stop) (len - 1) in
  take (Z.to_nat (e + 1 - s)) (drop (Z.to_nat s) l).

(** *** Sets *)

Definition on_set m k (f : gset bytes -> outcome) : outcome :=
  if not_set m k then fun r m' => (exists msg, r = Err (WrongType msg)) /\ m' = m else f (set_of m k).

(** The members that a random command reports. *)
Definition some_members (l : list bytes) : AVal := if decide (l = []) then ANull else AList l.

(** *** Bit arrays *)

(** The bits at a key: all of them 0 for another type of value. *)
Definition bits_at m k : option bytes := match m !! k with Some (ABitmap b) => Some b | _ => None end.
Definition bits_of m k : bytes := default [] (bits_at m k).
Definition bits_len (b : bytes) : nat := (length b * 8)%nat.

Definition has_bits (b : bytes) (len : nat) (f : nat -> bool) : Prop :=
  Forall is_byte b /\ bits_len b = len /\ forall i, (i < len)%nat -> Bitmap.bit b i = f i.

Definition bits_operation (op : string) (bs : list bytes) (b : bytes) : Prop :=
  let fold len f := match bs with [] => b = [] | b0 :: bs => has_bits b (foldl len (bits_len b0) (bits_len <$> bs))
      (fun i => foldl f (Bitmap.bit b0 i) ((fun c => Bitmap.bit c i) <$> bs)) end in
  if String.eqb op "NOT" then
    has_bits b (bits_len (default [] (head bs))) (fun i => negb (Bitmap.bit (default [] (head bs)) i))
  else if String.eqb op "AND" then fold Nat.min andb
  else if String.eqb op "OR" then fold Nat.max orb
  else fold Nat.max xorb.

Definition is_bit_operation (op : string) : bool :=
  String.eqb op "NOT" || String.eqb op "AND" || String.eqb op "OR" || String.eqb op "XOR".

(** *** The commands

    [shard] tells which keys a rename can reach. *)
Definition spec (shard : bytes -> bytes -> bool) m (c : Command) : outcome :=
  match c with
  | Set_ k v => fun r m' => exists a, denotes v a /\ gives (Ok ANull) (<[k := a]> m) r m'
  | Get k => gives (Ok (default ANull (m !! k))) m
  | SetNx k v =>
      match m !! k with
      | Some _ => gives (Ok (AInt 0)) m
      | None => fun r m' => exists a, denotes v a /\ gives (Ok (AInt 1)) (<[k := a]> m) r m'
      end
  | MSet entries => fun r m' => exists kas,
      Forall2 (fun kv ka => kv.1 = ka.1 /\ denotes kv.2 ka.2) entries kas /\
      gives (Ok ANull) (foldl (fun m (ka : bytes * AVal) => <[ka.1 := ka.2]> m) m kas) r m'
  | MGet ks =>
      match strings_of ((fun k => m !! k) <$> ks) with
      | Ok l => gives (Ok (AList l)) m
      | Err e => gives (Err e) m
      end
  | Strlen k => on_string m k (fun s => gives (Ok (aint (length s))) m) (gives (Ok (AInt 0)) m)
  | Append k x =>
      on_string m k (fun s => gives (Ok (aint (length (s ++ x)))) (<[k := AStr (s ++ x)]> m))
        (gives (Ok (aint (length x))) (<[k := AStr x]> m))
  | GetRange k i j =>
      on_string m k (fun s => if is_utf8 s then gives (Ok (AStr (substring s i j))) m
                              else gives (Err InvalidType) m)
        (gives (Ok ANull) m)
  | Del k => gives (Ok (ABool (bool_decide (is_Some (m !! k))))) (delete k m)
  | Exists_ ks => gives (Ok (aint (length (filter (fun k => is_Some (m !! k)) ks)))) m
  | Rename from to =>
      if shard from to then
        match m !! from with
        | Some a => gives (Ok (AStr [])) (<[to := a]> (delete from m))
        | None => gives (Err KeyNotFound) m
        end
      else gives (Err WrongShard) m
  | Renamenx from to =>
      if shard from to then
        match m !! to, m !! from with
        | Some _, _ => gives (Ok (AInt 0)) m
        | None, Some a => gives (Ok (AInt 1)) (<[to := a]> (delete from m))
        | None, None => gives (Err KeyNotFound) m
        end
      else gives (Err WrongShard) m
  | Flushdb => gives (Ok (astr "OK")) ∅
  | DbSize => gives (Ok (aint (size m))) m
  | Save => fun r m' => m' = m /\ (r = Ok (astr "OK") \/ exists e, r = Err e)
  | Ping message => gives (Ok (AStr (default (ascii_bytes "PONG") message))) m
  | Echo message => gives (Ok (AStr message)) m
  | Incr k => adds m k 1
  | Incrby k n => adds m k n
  | Decr k => adds m k (-1)
  | Decrby k n | Decrbyfloat k n => adds m k (- n)
  | Incrbyfloat k x =>
      match m !! k with
      | Some (AFloat f) => gives (Ok (AFloat (f64_add f x))) (<[k := AFloat (f64_add f x)]> m)
      | Some _ => gives (Err InvalidType) m
      | None => gives (Ok (AFloat x)) (<[k := AFloat x]> m)
      end
  | Setfloat k x => gives (Ok (AFloat x)) (<[k := AFloat x]> m)
  | HSet k kvs => in_hash m k (fun h =>
      gives (Ok (aint (size (insert_pairs h kvs) - size h))) (<[k := AHash (insert_pairs h kvs)]> m))
  | HGet k f => in_hash m k (fun h => gives (Ok (afield h f)) m)
  | HmGet k fs => in_hash m k (fun h => gives (Ok (AArray (afield h <$> fs))) m)
  | HDel k fs => on_hash m k (fun h =>
      gives (Ok (aint (size h - size (without_fields h fs))))
        (if decide (without_fields h fs = ∅) then delete k m else <[k := AHash (without_fields h fs)]> m))
      (gives (Ok (AInt 0)) m)
  | HExists k f => in_hash m k (fun h => gives (Ok (AInt (if decide (is_Some (h !! f)) then 1 else 0))) m)
  | HLen k => in_hash m k (fun h => gives (Ok (aint (size h))) m)
  | HKeys k => in_hash m k (fun h r m' => exists l, l ≡ₚ (map_to_list h).*1 /\ gives (Ok (AList l)) m r m')
  | HVals k => in_hash m k (fun h r m' => exists l, l ≡ₚ (map_to_list h).*2 /\ gives (Ok (AList l)) m r m')
  | HGetall k => on_hash m k (fun h r m' => exists kvs,
      kvs ≡ₚ map_to_list h /\ StronglySorted key_le kvs /\ gives (Ok (AList (flat kvs))) m r m')
      (gives (Ok ANull) m)
  | HRandField _ k (Some count) with_values => in_hash m k (fun h r m' => exists kvs,
      drawn h count kvs /\ gives (Ok (AList (if with_values then flat kvs else kvs.*1))) m r m')
  | HRandField _ k None _ => in_hash m k (fun h r m' =>
      if decide (h = ∅) then gives (Ok ANull) m r m'
      else exists f, is_Some (h !! f) /\ gives (Ok (AStr f)) m r m')
  | HIncrBy k f n => in_hash m k (fun h =>
      match field_i64 (h !! f) with
      | Ok x =>
          match checked_i64 (x + n) with
          | Some x => gives (Ok (AInt x)) (<[k := AHash (<[f := fmt_int x]> h)]> m)
          | None => gives (Err Overflow) m
          end
      | Err e => gives (Err e) m
      end)
  | HIncrByFloat k f y => in_hash m k (fun h =>
      match field_f64 (h !! f) with
      | Ok x =>
          if negb (is_nan y) && is_finite (f64_add x y)
          then gives (Ok (AFloat (f64_add x y))) (<[k := AHash (<[f := fmt_display (f64_add x y)]> h)]> m)
          else gives (Err InvalidValue) m
      | Err e => gives (Err e) m
      end)
  | SAdd k e => on_set m k (fun x =>
      gives (Ok (AInt (if decide (e ∈ x) then 0 else 1))) (<[k := ASet (x ∪ {[e]})]> m))
  | SRem k e => on_set m k (fun x =>
      gives (Ok (AInt (if decide (e ∈ x) then 1 else 0)))
        (if set_at m k then put_set k (x ∖ {[e]}) m else m))
  | SCard k => on_set m k (fun x => gives (Ok (aint (size x))) m)
  | SMembers k =>
      match m !! k with
      | Some (ASet x) => fun r m' => exists l, l ≡ₚ elements x /\ gives (Ok (AList l)) m r m'
      | Some ANull | None => gives (Ok ANull) m
      | Some _ => gives (Err (WrongType "SMEMBERS on non-set key")) m
      end
  | SIsmember k e => on_set m k (fun x => gives (Ok (AInt (if decide (e ∈ x) then 1 else 0))) m)
  | SRandMember _ k count =>
      match m !! k with
      | Some ANull | None => gives (Ok ANull) m
      | _ => on_set m k (fun x r m' => exists l, sample x count l /\ gives (Ok (some_members l)) m r m')
      end
  | SPop _ k count =>
      match m !! k with
      | Some ANull | None => gives (Ok ANull) m
      | _ => on_set m k (fun x r m' => exists l, sample x (if count <=? 0 then 1 else count) l /\
          gives (Ok (some_members l)) (put_set k (x ∖ list_to_set l) m) r m')
      end
  | LPush k e => on_list m k (fun l => gives (Ok (aint (length (e :: l)))) (<[k := AList (e :: l)]> m))
      (gives (Ok (AInt 1)) (<[k := AList [e]]> m))
  | RPush k e => on_list m k (fun l => gives (Ok (aint (length (l ++ [e])))) (<[k := AList (l ++ [e])]> m))
      (gives (Ok (AInt 1)) (<[k := AList [e]]> m))
  | LPop k => on_list m k (fun l =>
      match l with
      | [] => gives (Ok ANull) m
      | e :: l => gives (Ok (AStr e)) (<[k := AList l]> m)
      end) (gives (Ok ANull) m)
  | RPop k => on_list m k (fun l =>
      match last l with
      | None => gives (Ok ANull) m
      | Some e => gives (Ok (AStr e)) (<[k := AList (removelast l)]> m)
      end) (gives (Ok ANull) m)
  | LLen k => on_list m k (fun l => gives (Ok (aint (length l))) m) (gives (Ok (AInt 0)) m)
  | LRange k i j => on_list m k (fun l => gives (Ok (AList (sublist l i j))) m) (gives (Ok ANull) m)
  | SetBit k i x => fun r m' => exists b,
      has_bits b (Nat.max (bits_len (bits_of m k)) (8 * (i / 8 + 1)))
        (fun j => if (j =? i)%nat then x else Bitmap.bit (bits_of m k) j) /\
      gives (Ok (AInt (if Bitmap.bit (bits_of m k) i then 1 else 0))) (<[k := ABitmap b]> m) r m'
  | GetBit k i => gives (Ok (AInt (if Bitmap.bit (bits_of m k) i then 1 else 0))) m
  | BitCount k i j =>
      gives (Ok (AInt (Bitmap.count_bits (bits_of m k) i (Nat.min j (bits_len (bits_of m k)) - i)))) m
  | BitOp op dest ks =>
      if is_bit_operation op then fun r m' => exists b,
        bits_operation op (omap (bits_at m) ks) b /\
        gives (Ok (aint (bits_len b))) (<[dest := ABitmap b]> m) r m'
      else gives (Err (Syntax ("Unknown BITOP `" ++ op ++ "`"))) m
  | NotImplementedYet _ => fun _ _ => False
  end.

(** The commands that panic: the ones not written yet, and [GETRANGE] with a
    bound inside a character. *)
Definition panics m (c : Command) : bool :=
  match c with
  | NotImplementedYet _ => true
  | GetRange k i j =>
      match m !! k with
      | Some (AStr s) =>
          let len := Z.of_nat (length s) in
          is_utf8 s &&
          negb (is_char_boundary s (Z.to_nat (range_start len i)) &&
                is_char_boundary s (Z.to_nat (range_end len (range_start len i) j)))
      | _ => false
      end
  | _ => false
  end.

(** The values that a command carries are well formed. *)
Definition carries (c : Command) : Prop :=
  match c with
  | Set_ _ v | SetNx _ v => exists a, denotes v a
  | MSet entries => Forall (fun kv => exists a, denotes kv.2 a) entries
  | _ => True
  end.

Definition denotes_answer (r : result StoreError Value) (a : answer) : Prop :=
  match r, a with Ok v, Ok a => denotes v a | Err e, Err e' => e = e' | _, _ => False end.
End Spec.
