(* ===== verification/CommandRefinement.v ===== *)
(** * The commands keep their specification

    Over any engine that keeps the laws of the storage interface, every command
    of [Commands] does what [CommandSpec] says of it. *)
From S2P Require Import Prelude Interfaces SdsNumeric ZdbValue Numbers Storage Memory Commands CommandSpec.
From S2P Require QuickList SmartHash Bitmap.
Local Open Scope Z_scope.

Create HintDb denotation.
#[export] Hint Constructors denotes : denotation.

Section Calls.
Context {M : Type} {ops : StorageOps M} {laws : StorageLaws M} {hash_order : HashOrder (bytes * bytes)}.
Implicit Types (s : M) (m : keyspace_map) (k : bytes).

(** *** Rules for the calls of the interface *)

Lemma get_then {B} k (f : option Value -> action M B) s m (Q : result StoreError B -> M -> Prop) :
  store_repr s m ->
  (forall v s', store_repr s' m -> denotes_opt v (m !! k) -> wp (f v) s' Q) ->
  wp (let! v := st_get k in f v) s Q.
Proof.
  intros Hs Hf. eapply wp_call; [by eapply law_get|]. intros v s' [Hv Hs']. by apply Hf.
Qed.

Lemma set_then {B} k v a (f : unit -> action M B) s m (Q : result StoreError B -> M -> Prop) :
  store_repr s m -> denotes v a ->
  (forall s', store_repr s' (<[k := a]> m) -> wp (f tt) s' Q) ->
  wp (let! x := st_set k v in f x) s Q.
Proof.
  intros Hs Hv Hf. apply wp_bind. eapply wp_mono; [by eapply law_set|]. intros r s' [-> Hs']. by apply Hf.
Qed.

(** A value of one kind at a key: what the reading functions of the commands
    distinguish. *)
Lemma hash_then {B} k (f : option SmartHash.SmartHash -> action M B) s m
    (Q : result StoreError B -> M -> Prop) :
  store_repr s m ->
  (forall s', store_repr s' m ->
    match m !! k with
    | Some (AHash h) => forall sh, SmartHash.Holds sh h -> wp (f (Some sh)) s' Q
    | Some _ => Q (Err InvalidType) s'
    | None => wp (f None) s' Q
    end) ->
  wp (let! x := get_hash k in f x) s Q.
Proof.
  intros Hs Hf. apply wp_bind. unfold get_hash. eapply get_then; [done|]. intros v s' Hs' Hv.
  specialize (Hf s' Hs'). destruct (m !! k) as [a|], v as [v|]; try done. destruct Hv; try exact Hf. by apply Hf.
Qed.

Lemma list_then {B} k (f : option (QuickList.QuickList bytes) -> action M B) s m
    (Q : result StoreError B -> M -> Prop) :
  store_repr s m ->
  (forall s', store_repr s' m ->
    match m !! k with
    | Some (AList l) => forall q, QuickList.Repr q l -> wp (f (Some q)) s' Q
    | Some _ => Q (Err InvalidType) s'
    | None => wp (f None) s' Q
    end) ->
  wp (let! x := get_list k in f x) s Q.
Proof.
  intros Hs Hf. apply wp_bind. unfold get_list. eapply get_then; [done|]. intros v s' Hs' Hv.
  specialize (Hf s' Hs'). destruct (m !! k) as [a|], v as [v|]; try done. destruct Hv; try exact Hf. by apply Hf.
Qed.

Lemma bitmap_then {B} k (f : option Bitmap.Bitmap -> action M B) s m (Q : result StoreError B -> M -> Prop) :
  store_repr s m ->
  (forall s' o, store_repr s' m -> bits_at m k = Bitmap.bm_bytes <$> o ->
    match o with Some bm => Bitmap.wf bm | None => True end -> wp (f o) s' Q) ->
  wp (let! x := get_bitmap k in f x) s Q.
Proof.
  intros Hs Hf. apply wp_bind. unfold get_bitmap. eapply get_then; [done|]. intros v s' Hs' Hv.
  apply wp_ret. apply Hf; [done|..]; unfold bits_at; destruct (m !! k) as [a|], v as [v|]; try done; by destruct Hv.
Qed.

Lemma list_value_spec (l : list bytes) s (Q : result StoreError Value -> M -> Prop) :
  (forall q, QuickList.Repr q l -> Q (Ok (VList q)) s) -> wp (list_value l) s Q.
Proof.
  intros HQ. unfold list_value, QuickList.from_iter.
  destruct (QuickList.push_back_all_spec (QuickList.new MAX_SEGMENT) [] l) as (q & -> & Hq);
    [apply QuickList.new_spec; unfold MAX_SEGMENT; lia|]. by apply HQ.
Qed.
End Calls.

Section Refinement.
Context {M : Type} {ops : StorageOps M} {laws : StorageLaws M}.
Context {hash_order : HashOrder (bytes * bytes)} {pair_rand : Rand (bytes * bytes)}.
Context {text : FloatText} (cpu : Bitmap.CpuFeatures).
Implicit Types (s : M) (m : keyspace_map) (k : bytes) (c : Command).

Definition post shard m c : result StoreError Value -> M -> Prop := fun r s' =>
  exists a m', denotes_answer r a /\ spec shard m c a m' /\ store_repr s' m'.

Definition refines c : Prop := forall s m,
  store_repr s m -> carries c -> panics m c = false ->
  wp (execute cpu c) s (post (same_shard s) m c).

(** The end of a command whose outcome is the one of [gives]. *)
Ltac answers := do 2 eexists; split; [|split; [by split|]]; [cbn [denotes_answer default from_option id]; unfold int, aint, str, astr; first [done|by auto with denotation]|try done].

Tactic Notation "start" reference(c) :=
  intros s m Hs Hc Hp; unfold post; cbn [execute spec carries panics] in *; unfold c.

(** *** Strings *)

Lemma set_refines k v : refines (Set_ k v).
Proof.
  start SetCommand. destruct Hc as [a Ha]. eapply set_then; [done..|]. intros s' Hs'. apply wp_ret.
  exists (Ok ANull), (<[k := a]> m). split; [constructor|]. split; [|done]. exists a. by split.
Qed.

Lemma get_refines k : refines (Get k).
Proof.
  start GetCommand. eapply get_then; [done|]. intros v s' Hs' Hv. apply wp_ret.
  destruct v as [v|], (m !! k) as [a|]; try done; by answers.
Qed.

Lemma setnx_refines k v : refines (SetNx k v).
Proof.
  start SetNxCommand. destruct Hc as [a Ha]. eapply get_then; [done|]. intros o s' Hs' Ho.
  destruct o as [w|], (m !! k) as [b|]; try done; simpl.
  - apply wp_ret. by answers.
  - eapply set_then; [done..|]. intros s'' Hs''. apply wp_ret.
    exists (Ok (AInt 1)), (<[k := a]> m). split; [constructor|]. split; [|done]. exists a. by split.
Qed.

Lemma mset_refines entries : refines (MSet entries).
Proof.
  start MSetCommand.
  assert (exists kas, Forall2 (fun kv (ka : bytes * AVal) => kv.1 = ka.1 /\ denotes kv.2 ka.2) entries kas) as [kas Hk].
  { induction Hc as [|[k v] entries [a Ha] _ IH]; [by exists []|]. destruct IH as [kas IH].
    exists ((k, a) :: kas). by constructor. }
  apply wp_bind. eapply wp_mono; [by eapply law_mset|]. intros r s' [-> Hs']. apply wp_ret.
  do 2 eexists. split; [|split; [exists kas; split; [exact Hk|by split]|done]]. constructor.
Qed.

Lemma mget_strings_spec vs (as_ : list (option AVal)) :
  Forall2 denotes_opt vs as_ -> mget_strings vs = strings_of as_.
Proof.
  induction 1 as [|v a vs as_ Hv _ IH]; [done|].
  destruct v as [v|], a as [a|]; try done; simpl; [destruct Hv|]; by rewrite ?IH.
Qed.

Lemma mget_refines ks : refines (MGet ks).
Proof.
  start MGetCommand. eapply wp_call; [by eapply law_mget|]. intros vs s' [Hvs Hs'].
  rewrite (mget_strings_spec _ _ Hvs). apply wp_bind. unfold atry, wp at 1. destruct (strings_of _) as [l|e].
  - apply list_value_spec. intros q Hq. by answers.
  - by answers.
Qed.

Lemma strlen_refines k : refines (Strlen k).
Proof.
  start StrLenCommand. eapply get_then; [done|]. intros v s' Hs' Hv. unfold on_string.
  destruct v as [v|], (m !! k) as [a|]; try done; [destruct Hv|]; by (apply wp_ret || apply wp_raise); answers.
Qed.

Lemma append_refines k x : refines (Append k x).
Proof.
  start AppendCommand. eapply get_then; [done|]. intros v s' Hs' Hv. unfold on_string.
  destruct v as [v|], (m !! k) as [a|]; try done; [destruct Hv; try (apply wp_raise; by answers)|];
    (eapply set_then; [done|constructor|]; intros s'' Hs''; apply wp_ret; by answers).
Qed.

Lemma getrange_refines k i j : refines (GetRange k i j).
Proof.
  start GetRangeCommand. eapply get_then; [done|]. intros v s' Hs' Hv. unfold on_string.
  destruct v as [v|], (m !! k) as [a|]; try done; [|apply wp_ret; by answers].
  destruct Hv; try (apply wp_raise; by answers). destruct (is_utf8 s0); simpl negb; cbv iota; [|apply wp_raise; by answers].
  cbn [andb] in Hp. apply negb_false_iff in Hp. rewrite Hp. apply wp_ret. by answers.
Qed.

Lemma getrange_panics k i j s m :
  store_repr s m -> panics m (GetRange k i j) = true -> execute cpu (GetRange k i j) s = None.
Proof.
  intros Hs Hp. cbn [execute panics] in *. unfold GetRangeCommand, abind.
  destruct (wp_elim _ _ _ (law_get s m k Hs)) as (r & s' & -> & v & -> & Hv & _).
  destruct v as [v|], (m !! k) as [a|]; try done. destruct Hv; try done.
  apply andb_true_iff in Hp as [-> Hp]. apply negb_true_iff in Hp. simpl negb. cbv iota. by rewrite Hp.
Qed.

(** *** Keys *)

Lemma del_refines k : refines (Del k).
Proof.
  start DelCommand. apply wp_bind. eapply wp_mono; [by eapply law_del|]. intros r s' [-> Hs']. apply wp_ret. by answers.
Qed.

Lemma count_existing_spec ks n s m (Q : result StoreError nat -> M -> Prop) :
  store_repr s m ->
  (forall s', store_repr s' m -> Q (Ok (n + length (filter (fun k => is_Some (m !! k)) ks))%nat) s') ->
  wp (count_existing ks n) s Q.
Proof.
  revert n s. induction ks as [|k ks IH]; intros n s Hs HQ; cbn [count_existing].
  { apply wp_ret. specialize (HQ s Hs). by rewrite Nat.add_0_r in HQ. }
  unfold wp. destruct (wp_elim _ _ _ (law_get s m k Hs)) as (r & s' & -> & v & -> & Hv & Hs').
  rewrite filter_cons in HQ. destruct v as [v|], (m !! k) as [a|] eqn:E; try done.
  - rewrite decide_True in HQ by (by eexists). apply (IH (n + 1)%nat); [done|]. intros s'' Hs''.
    simpl in HQ. replace (n + 1 + _)%nat with (n + S (length (filter (fun k => is_Some (m !! k)) ks)))%nat by lia.
    by apply HQ.
  - rewrite decide_False in HQ by (by intros [? ?]). by apply IH.
Qed.

Lemma exists_refines ks : refines (Exists_ ks).
Proof.
  start ExistsCommand. apply wp_bind. eapply count_existing_spec; [done|]. intros s' Hs'. apply wp_ret. by answers.
Qed.

Lemma rename_refines from to : refines (Rename from to).
Proof.
  start RenameCommand. apply wp_bind. eapply wp_mono; [by eapply law_rename|]. intros r s' Hr.
  destruct (same_shard s from to); [destruct (m !! from)|]; destruct Hr as [-> Hs']; try apply wp_ret; by answers.
Qed.

Lemma renamenx_refines from to : refines (Renamenx from to).
Proof.
  start RenameNxCommand. apply wp_bind. eapply wp_mono; [by eapply law_renamenx|]. intros r s' Hr.
  destruct (same_shard s from to); [destruct (m !! to); [|destruct (m !! from)]|];
    destruct Hr as [-> Hs']; try apply wp_ret; by answers.
Qed.

Lemma flushdb_refines : refines Flushdb.
Proof.
  start FlushDbCommand. apply wp_bind. eapply wp_mono; [by eapply law_flushdb|]. intros r s' [-> Hs'].
  apply wp_ret. by answers.
Qed.

Lemma dbsize_refines : refines DbSize.
Proof.
  start DbSizeCommand. apply wp_bind. eapply wp_mono; [by eapply law_dbsize|]. intros r s' [-> Hs'].
  apply wp_ret. by answers.
Qed.

Lemma save_refines : refines Save.
Proof.
  start SaveCommand. apply wp_bind. eapply wp_mono; [by eapply law_save|]. intros r s' Hs'.
  destruct r as [[]|e]; [apply wp_ret; exists (Ok (astr "OK")), m|exists (Err e), m].
  - split; [apply DStr|]. split; [|done]. split; [done|by left].
  - split; [done|]. split; [|done]. split; [done|]. right. by exists e.
Qed.

Lemma ping_refines message : refines (Ping message).
Proof. start PingCommand. apply wp_ret. by answers. Qed.

Lemma echo_refines message : refines (Echo message).
Proof. start EchoCommand. apply wp_ret. by answers. Qed.

(** *** Numbers *)

Lemma int_at_spec m k v :
  denotes_opt v (m !! k) -> match v with Some v => value_to_i64 v | None => Ok 0 end = int_at m k.
Proof. unfold int_at. intros Hv. destruct v as [v|], (m !! k) as [a|]; try done. by destruct Hv. Qed.

Lemma add_to_key_spec k n shard s m c :
  store_repr s m -> spec shard m c = adds m k n -> wp (add_to_key k n) s (post shard m c).
Proof.
  intros Hs Hspec. unfold post, add_to_key. rewrite Hspec. clear Hspec. eapply get_then; [done|]. intros v s' Hs' Hv.
  rewrite (int_at_spec m k v Hv). unfold adds. apply wp_bind. unfold atry, wp at 1.
  destruct (int_at m k) as [x|e]; [|by answers]. destruct (checked_i64 (x + n)) as [y|]; [|by answers].
  eapply set_then; [done|constructor|]. intros s'' Hs''. apply wp_ret. by answers.
Qed.

Lemma incr_refines k : refines (Incr k).
Proof. intros s m Hs _ _. by apply (add_to_key_spec k 1). Qed.

Lemma incrby_refines k n : refines (Incrby k n).
Proof. intros s m Hs _ _. by apply (add_to_key_spec k n). Qed.

Lemma decr_refines k : refines (Decr k).
Proof. intros s m Hs _ _. by apply (add_to_key_spec k (-1)). Qed.

Lemma decrby_refines k n : refines (Decrby k n).
Proof. intros s m Hs _ _. by apply (add_to_key_spec k (- n)). Qed.

Lemma decrbyfloat_refines k n : refines (Decrbyfloat k n).
Proof. intros s m Hs _ _. by apply (add_to_key_spec k (- n)). Qed.

Lemma incrbyfloat_refines k x : refines (Incrbyfloat k x).
Proof.
  start IncrByFloatCommand. eapply get_then; [done|]. intros v s' Hs' Hv.
  destruct v as [v|], (m !! k) as [a|]; try done; [destruct Hv; try (apply wp_raise; by answers)|];
    (eapply set_then; [done|constructor|]; intros s'' Hs''; apply wp_ret; by answers).
Qed.

Lemma setfloat_refines k x : refines (Setfloat k x).
Proof.
  start SetFloatCommand. eapply set_then; [done|constructor|]. intros s' Hs'. apply wp_ret. by answers.
Qed.

(** *** Hashes *)

Implicit Types (h : gmap bytes bytes) (sh : SmartHash.SmartHash).

Lemma insert_pairs_size h kvs : (size h <= size (insert_pairs h kvs))%nat.
Proof.
  revert h. induction kvs as [|[f v] kvs IH]; intros h; [done|]. rewrite insert_pairs_cons.
  specialize (IH (<[f := v]> h)). rewrite map_size_insert in IH. destruct (h !! f); simpl in IH; lia.
Qed.

Lemma insert_fields_spec kvs sh h n :
  SmartHash.Holds sh h ->
  (insert_fields sh kvs n).1 = (n + (size (insert_pairs h kvs) - size h))%nat /\
  SmartHash.Holds (insert_fields sh kvs n).2 (insert_pairs h kvs).
Proof.
  revert sh h n. induction kvs as [|[f v] kvs IH]; intros sh h n Hh; [split; [simpl; lia|done]|].
  cbn [insert_fields]. rewrite insert_pairs_cons. destruct (SmartHash.smarthash_insert_spec sh h f v Hh) as [H1 H2].
  destruct (SmartHash.insert sh f v) as [new sh1]. cbn [fst snd] in *.
  destruct (IH sh1 _ (if new then n + 1 else n)%nat H2) as [-> H4]. split; [|done]. subst new.
  pose proof (insert_pairs_size (<[f := v]> h) kvs) as Hle. rewrite map_size_insert in *.
  destruct (h !! f); simpl in *; lia.
Qed.

Lemma without_fields_size h fs : (size (without_fields h fs) <= size h)%nat.
Proof.
  revert h. induction fs as [|f fs IH]; intros h; [done|]. simpl.
  specialize (IH (delete f h)). rewrite map_size_delete in IH. destruct (h !! f); simpl in IH; lia.
Qed.

Lemma remove_fields_spec fs sh h n :
  SmartHash.Holds sh h ->
  (remove_fields sh fs n).1 = (n + (size h - size (without_fields h fs)))%nat /\
  SmartHash.Holds (remove_fields sh fs n).2 (without_fields h fs).
Proof.
  revert sh h n. induction fs as [|f fs IH]; intros sh h n Hh; [split; [simpl; lia|done]|].
  cbn [remove_fields]. destruct (SmartHash.smarthash_remove_spec sh h f Hh) as [H1 H2].
  destruct (SmartHash.remove sh f) as [had sh1]. cbn [fst snd] in *.
  destruct (IH sh1 _ (if had then n + 1 else n)%nat H2) as [-> H4]. split; [|done]. subst had. simpl.
  pose proof (without_fields_size (delete f h) fs) as Hle. rewrite map_size_delete in *.
  destruct (h !! f) eqn:E; simpl in *; [|lia].
  assert (0 < size h)%nat by (destruct (size h) eqn:Es; [apply map_size_empty_inv in Es; subst; by rewrite lookup_empty in E|lia]).
  lia.
Qed.

(** The two cases of a command on a hash: a hash, or no key. *)
Ltac with_hash Hs := eapply hash_then; [exact Hs|];
  let s' := fresh "s'" in let Hs' := fresh "Hs'" in
  intros s' Hs'; unfold in_hash, on_hash;
  match goal with |- context [match ?o with _ => _ end] => destruct o as [[]|] end; try (by answers).

Lemma hset_refines k kvs : refines (HSet k kvs).
Proof.
  start HSetCommand. with_hash Hs.
  - intros sh Hh. cbn [default from_option id]. destruct (insert_fields_spec kvs sh m0 0 Hh) as [H1 H2].
    destruct (insert_fields sh kvs 0) as [n sh1]. cbn [fst snd] in *. subst n.
    eapply set_then; [done|by constructor|]. intros s'' Hs''. apply wp_ret. by answers.
  - cbn [default from_option id].
    destruct (insert_fields_spec kvs SmartHash.new ∅ 0 SmartHash.smart_new_Holds) as [H1 H2].
    destruct (insert_fields SmartHash.new kvs 0) as [n sh1]. cbn [fst snd] in *. subst n.
    eapply set_then; [done|by constructor|]. intros s'' Hs''. apply wp_ret. by answers.
Qed.

Lemma field_value_spec sh h f : SmartHash.Holds sh h -> denotes (field_value sh f) (afield h f).
Proof.
  intros Hh. unfold field_value, afield. rewrite (SmartHash.smarthash_get_spec sh h f Hh).
  destruct (h !! f); constructor.
Qed.

Lemma hget_refines k f : refines (HGet k f).
Proof.
  start HGetCommand. with_hash Hs.
  intros sh Hh. apply wp_ret. do 2 eexists. split; [|split; [by split|done]]. by apply field_value_spec.
Qed.

Lemma hmget_refines k fs : refines (HmGet k fs).
Proof.
  start HmGetCommand. with_hash Hs.
  - intros sh Hh. apply wp_ret. do 2 eexists. split; [|split; [by split|done]]. simpl. constructor.
    induction fs; constructor; [by apply field_value_spec|done].
  - apply wp_ret. do 2 eexists. split; [|split; [by split|done]]. simpl. constructor.
    induction fs; constructor; [constructor|done].
Qed.

Lemma hdel_refines k fs : refines (HDel k fs).
Proof.
  start HDelCommand. with_hash Hs. intros sh Hh.
  destruct (remove_fields_spec fs sh m0 0 Hh) as [H1 H2].
  destruct (remove_fields sh fs 0) as [n sh1]. cbn [fst snd] in *. subst n.
  unfold SmartHash.is_empty. rewrite (SmartHash.smarthash_len_spec _ _ H2).
  destruct (decide (without_fields m0 fs = ∅)) as [E|E].
  - rewrite E, map_size_empty. cbn [Nat.eqb]. apply wp_bind. eapply wp_mono; [by eapply law_del|].
    intros r s'' [-> Hs'']. apply wp_ret. by answers.
  - rewrite (proj2 (Nat.eqb_neq _ _)) by (by intros ?%map_size_empty_inv).
    eapply set_then; [done|by constructor|]. intros s'' Hs''. apply wp_ret. by answers.
Qed.

Lemma hexists_refines k f : refines (HExists k f).
Proof.
  start HExistsCommand. with_hash Hs.
  intros sh Hh. apply wp_ret. rewrite (SmartHash.smarthash_contains_spec _ _ f Hh).
  rewrite bool_decide_decide. destruct (decide (is_Some (m0 !! f))); cbn; by answers.
Qed.

Lemma hlen_refines k : refines (HLen k).
Proof.
  start HLenCommand. with_hash Hs.
  intros sh Hh. apply wp_ret. rewrite (SmartHash.smarthash_len_spec _ _ Hh). by answers.
Qed.

(** The end of a command that reports a list made from a hash. *)
Ltac lists := apply list_value_spec; let q := fresh "q" in let Hq := fresh "Hq" in intros q Hq;
  eexists (Ok (AList _)), _; (split; [by constructor|]).

Lemma smarthash_keys_spec sh h : SmartHash.Holds sh h -> SmartHash.keys sh ≡ₚ (map_to_list h).*1.
Proof.
  intros Hh. pose proof (SmartHash.ho_entries sh h Hh) as He. unfold hm_repr, SmartHash.entries in He.
  unfold SmartHash.keys. rewrite <- He. by destruct (SmartHash.repr sh).
Qed.

Lemma smarthash_values_spec sh h : SmartHash.Holds sh h -> SmartHash.values sh ≡ₚ (map_to_list h).*2.
Proof.
  intros Hh. pose proof (SmartHash.ho_entries sh h Hh) as He. unfold hm_repr, SmartHash.entries in He.
  unfold SmartHash.values. rewrite <- He. by destruct (SmartHash.repr sh).
Qed.

Lemma hkeys_refines k : refines (HKeys k).
Proof.
  start HKeysCommand. with_hash Hs.
  - intros sh Hh. lists. split; [|done]. eexists. split; [|by split].
    by apply smarthash_keys_spec.
  - lists. split; [|done]. exists []. split; [by rewrite map_to_list_empty|by split].
Qed.

Lemma hvals_refines k : refines (HVals k).
Proof.
  start HValsCommand. with_hash Hs.
  - intros sh Hh. lists. split; [|done]. eexists. split; [|by split].
    by apply smarthash_values_spec.
  - lists. split; [|done]. exists []. split; [by rewrite map_to_list_empty|by split].
Qed.

#[export] Instance key_le_total : Total key_le.
Proof.
  intros x y. unfold key_le. rewrite (slice_cmp_antisym x.1 y.1). destruct (slice_cmp x.1 y.1); simpl; auto.
Qed.

#[export] Instance key_le_trans : Transitive key_le.
Proof. intros x y z. unfold key_le. apply slice_cmp_le_trans. Qed.

Lemma hgetall_refines k : refines (HGetall k).
Proof.
  start HGetAllCommand. with_hash Hs. intros sh Hh.
  destruct (SmartHash.smarthash_iter_spec sh m0 Hh) as [Hl _]. lists. split; [|done].
  exists (merge_sort key_le (SmartHash.iter sh).1). split_and!.
  - by rewrite merge_sort_Permutation.
  - apply StronglySorted_merge_sort; apply _.
  - by split.
Qed.

Lemma drawn_in_hash sh h kv : SmartHash.Holds sh h -> kv ∈ SmartHash.entries sh -> h !! kv.1 = Some kv.2.
Proof.
  intros Hh Hin. pose proof (SmartHash.ho_entries sh h Hh) as He. unfold hm_repr in He. rewrite He in Hin.
  destruct kv as [f v]. by apply elem_of_map_to_list.
Qed.

Lemma entries_nil sh h : SmartHash.Holds sh h -> SmartHash.entries sh = [] <-> h = ∅.
Proof.
  intros Hh. pose proof (SmartHash.ho_entries sh h Hh) as He. unfold hm_repr in He. split.
  - intros E. rewrite E in He. symmetry in He. by apply Permutation_nil_r, map_to_list_empty_iff in He.
  - intros ->. rewrite map_to_list_empty in He. by apply Permutation_nil_r in He.
Qed.

Lemma draw_spec seed n i sh h :
  SmartHash.Holds sh h ->
  let l := concat ((fun i => option_list (choose (seed + i) (SmartHash.entries sh))) <$> seq i n) in
  (forall kv, kv ∈ l -> h !! kv.1 = Some kv.2) /\ length l = if decide (h = ∅) then 0%nat else n.
Proof.
  intros Hh. revert i. induction n as [|n IH]; intros i; cbv zeta; cbn [seq].
  { split; [by intros ? ?%not_elem_of_nil|by case_decide]. }
  rewrite fmap_cons. cbn [concat].
  destruct (IH (S i)) as [H1 H2]. pose proof (choose_spec (seed + i) (SmartHash.entries sh)) as Hc.
  rewrite length_app, H2. destruct (choose _ _) as [kv0|].
  - split.
    + intros kv [->%list_elem_of_singleton|Hin]%elem_of_app; [by eapply drawn_in_hash|by apply H1].
    + destruct (decide (h = ∅)) as [->|]; [|done]. clear H1 H2 IH.
      pose proof (proj2 (entries_nil sh _ Hh) eq_refl) as E. rewrite E in Hc. by apply not_elem_of_nil in Hc.
  - apply (entries_nil sh h Hh) in Hc as ->. rewrite decide_True in * by done. split; [|done].
    intros kv Hin. by apply H1.
Qed.

Lemma choose_many_spec seed n sh h :
  SmartHash.Holds sh h ->
  let l := choose_multiple seed (Nat.min n (length (SmartHash.entries sh))) (SmartHash.entries sh) in
  (forall kv, kv ∈ l -> h !! kv.1 = Some kv.2) /\ NoDup l.*1 /\ length l = Nat.min n (size h).
Proof.
  intros Hh l. pose proof (SmartHash.ho_entries sh h Hh) as He.
  destruct (choose_multiple_spec seed (Nat.min n (length (SmartHash.entries sh))) (SmartHash.entries sh))
    as (rest & Hp & Hlen). fold l in Hp, Hlen. split_and!.
  - intros kv Hin. eapply drawn_in_hash; [done|]. rewrite <- Hp. apply elem_of_app. by left.
  - pose proof (hm_repr_NoDup _ _ He) as Hnd. rewrite <- Hp, fmap_app in Hnd.
    by apply NoDup_app in Hnd as [? _].
  - rewrite Hlen, (hm_repr_length _ _ He). lia.
Qed.

Lemma hrandfield_refines seed k count b : refines (HRandField seed k count b).
Proof.
  start HRandFieldCommand. destruct count as [count|]; with_hash Hs.
  - intros sh Hh. cbv zeta. unfold drawn. destruct (Z.ltb_spec count 0).
    + destruct (draw_spec seed (Z.to_nat (- count)) 0 sh m0 Hh) as [H1 H2]. lists. split; [|done].
      eexists. split; [split; [exact H1|exact H2]|by split].
    + destruct (choose_many_spec seed (Z.to_nat count) sh m0 Hh) as (H1 & H2 & H3). lists. split; [|done].
      eexists. split; [split; [exact H1|by split]|by split].
  - lists. split; [|done]. exists []. split.
    + unfold drawn. split; [by intros ? ?%not_elem_of_nil|]. destruct (count <? 0); [done|]. 
      rewrite map_size_empty, Nat.min_0_r. split; [apply NoDup_nil_2|done].
    + split; [|done]. by destruct b.
  - intros sh Hh. apply wp_ret. pose proof (choose_spec seed (SmartHash.entries sh)) as Hch.
    destruct (choose seed (SmartHash.entries sh)) as [[f v]|].
    + pose proof (drawn_in_hash sh m0 _ Hh Hch) as Hf. simpl in Hf.
      exists (Ok (AStr f)), m. split; [constructor|]. split; [|done].
      rewrite decide_False by (intros ->; by rewrite lookup_empty in Hf). exists f. split; [by eexists|by split].
    + apply (entries_nil sh m0 Hh) in Hch as ->. by answers.
Qed.

Lemma hincrby_refines k f n : refines (HIncrBy k f n).
Proof.
  start HIncrByCommand. with_hash Hs.
  1: intros sh Hh. 2: pose proof SmartHash.smart_new_Holds as Hh.
  all: cbn [default from_option id]; rewrite (SmartHash.smarthash_get_spec _ _ f Hh);
    apply wp_bind; unfold atry, wp at 1; destruct (field_i64 _) as [x|e]; [|by answers];
    destruct (checked_i64 (x + n)) as [y|]; [|apply wp_raise; by answers];
    (eapply set_then; [done|constructor; by apply SmartHash.smarthash_insert_spec|]);
    intros s'' Hs''; apply wp_ret; by answers.
Qed.

Lemma hincrbyfloat_refines k f y : refines (HIncrByFloat k f y).
Proof.
  start HIncrByFloatCommand. with_hash Hs.
  1: intros sh Hh. 2: pose proof SmartHash.smart_new_Holds as Hh.
  all: cbn [default from_option id]; rewrite (SmartHash.smarthash_get_spec _ _ f Hh);
    apply wp_bind; unfold atry, wp at 1; destruct (field_f64 _) as [x|e]; [|by answers];
    destruct (is_nan y); cbn [negb andb]; [apply wp_raise; by answers|];
    destruct (is_finite (f64_add x y)); cbn [negb]; [|apply wp_raise; by answers];
    (eapply set_then; [done|constructor; by apply SmartHash.smarthash_insert_spec|]);
    intros s'' Hs''; apply wp_ret; by answers.
Qed.

(** *** Sets *)

(** The end of a command on a key that is not a set. *)
Lemma type_error_post (e : StoreError) s' m :
  type_error e -> store_repr s' m ->
  exists a m', denotes_answer (Err e) a /\ ((exists msg, a = Err (WrongType msg)) /\ m' = m) /\ store_repr s' m'.
Proof. intros [msg ->] Hs'. exists (Err (WrongType msg)), m. split; [done|]. split; [|done]. by split; [eexists|]. Qed.

(** A call of the interface on a set: the error, or the answer. *)
Ltac with_set law := apply wp_bind; eapply wp_mono; [by eapply law|];
  let r := fresh "r" in let s' := fresh "s'" in let Hr := fresh "Hr" in intros r s' Hr; cbv beta in Hr;
  unfold on_set;
  let En := fresh "En" in
  match goal with |- context [not_set ?m ?k] => destruct (not_set m k) eqn:En end;
  [let e := fresh "e" in let He := fresh "He" in let Hs' := fresh "Hs'" in
   first [destruct Hr as (e & -> & He & Hs')|destruct Hr as (Hs' & e & -> & He)]; by apply type_error_post|].

Lemma sadd_refines k (e : bytes) : refines (SAdd k e).
Proof.
  start SAddCommand. with_set law_sadd. destruct Hr as [-> Hs']. apply wp_ret. cbn [list_to_set] in *.
  exists (Ok (AInt (if decide (e ∈ set_of m k) then 0 else 1))), (<[k := ASet (set_of m k ∪ {[e]})]> m).
  rewrite (right_id_L ∅ (∪)) in *. split; [|by split].
  unfold int. destruct (decide (e ∈ set_of m k)).
  - replace ({[e]} ∖ set_of m k) with (∅ : gset bytes) by set_solver. rewrite size_empty. constructor.
  - replace ({[e]} ∖ set_of m k) with ({[e]} : gset bytes) by set_solver. rewrite size_singleton. constructor.
Qed.

Lemma srem_refines k (e : bytes) : refines (SRem k e).
Proof.
  start SRemCommand. with_set law_srem. destruct Hr as [-> Hs']. apply wp_ret. cbn [list_to_set] in *.
  rewrite (right_id_L ∅ (∪)) in *. do 2 eexists. split; [|split; [by split|done]].
  unfold int. destruct (decide (e ∈ set_of m k)).
  - replace (set_of m k ∩ {[e]}) with ({[e]} : gset bytes) by set_solver. rewrite size_singleton. constructor.
  - replace (set_of m k ∩ {[e]}) with (∅ : gset bytes) by set_solver. rewrite size_empty. constructor.
Qed.

Lemma scard_refines k : refines (SCard k).
Proof. start SCardCommand. with_set law_scard. destruct Hr as [Hs' ->]. apply wp_ret. by answers. Qed.

Lemma sismember_refines k e : refines (SIsmember k e).
Proof.
  start SIsMemberCommand. with_set law_sismember. destruct Hr as [Hs' ->]. apply wp_ret.
  rewrite bool_decide_decide. destruct (decide (e ∈ set_of m k)); by answers.
Qed.

Lemma smembers_refines k : refines (SMembers k).
Proof.
  start SMembersCommand. eapply get_then; [done|]. intros v s' Hs' Hv.
  destruct (m !! k) as [a|] eqn:E, v as [v|]; try done; [|apply wp_ret; by answers].
  destruct Hv; try (apply wp_raise || apply wp_ret; by answers).
  apply wp_bind. eapply wp_mono; [by eapply law_smembers|]. intros r s'' [Hs'' Hr].
  unfold not_set, set_of, set_at in Hr. rewrite E in Hr. destruct Hr as (ms & -> & Hms).
  lists. split; [|done]. exists ms. by split.
Qed.

(** The list of random members that a command reports. *)
Lemma some_members_spec (ms : list bytes) s (Q : result StoreError Value -> M -> Prop) :
  (forall v, denotes v (some_members ms) -> Q (Ok v) s) ->
  wp (if bool_decide (ms = []) then aret VNull else list_value ms) s Q.
Proof.
  intros HQ. unfold some_members in HQ. case_bool_decide as E.
  - apply wp_ret, HQ. rewrite decide_True by done. constructor.
  - apply list_value_spec. intros q Hq. apply HQ. rewrite decide_False by done. by constructor.
Qed.

(** A random command: nothing where there is no key, else the call. *)
Lemma random_then k (f : execution (M := M)) s m (Q : result StoreError Value -> M -> Prop) :
  store_repr s m ->
  (forall s', store_repr s' m ->
    match m !! k with Some ANull | None => Q (Ok VNull) s' | _ => wp f s' Q end) ->
  wp (let! value := st_get k in match value with Some VNull | None => aret VNull | _ => f end) s Q.
Proof.
  intros Hs Hf. eapply get_then; [done|]. intros v s' Hs' Hv. specialize (Hf s' Hs').
  destruct (m !! k) as [a|], v as [v|]; try done. by destruct Hv.
Qed.

Lemma srandmember_refines seed k count : refines (SRandMember seed k count).
Proof.
  start SRandMemberCommand. eapply random_then; [done|]. intros s' Hs'.
  destruct (m !! k) as [[]|] eqn:E; try (by answers); with_set law_srandmember;
    destruct Hr as (Hs'' & ms & -> & Hms); apply some_members_spec; intros w Hw;
    (exists (Ok (some_members ms)), m; split; [done|]; split; [|done]; exists ms; by split).
Qed.

Lemma spop_refines seed k count : refines (SPop seed k count).
Proof.
  start SPopCommand. eapply random_then; [done|]. intros s' Hs'.
  destruct (m !! k) as [[]|] eqn:E; try (by answers); with_set law_spop;
    destruct Hr as (ms & -> & Hms & Hs''); apply some_members_spec; intros w Hw;
    unfold not_set in En; rewrite E in En; try done; unfold set_at at 1 in Hs''; rewrite E in Hs'';
    (eexists (Ok (some_members ms)), _; split; [done|]; split; [exists ms; split; [done|by split]|done]).
Qed.

(** *** Lists *)

Lemma quicklist_new_spec : QuickList.Repr (QuickList.new (T := bytes) MAX_SEGMENT) [].
Proof. apply QuickList.new_spec. unfold MAX_SEGMENT. lia. Qed.

Lemma quicklist_len (q : QuickList.QuickList bytes) l : QuickList.Repr q l -> QuickList.len q = length l.
Proof. intros [HI <-]. apply (QuickList.inv_len q HI). Qed.

(** The two cases of a command on a list: a list, or no key. *)
Ltac with_list Hs := eapply list_then; [exact Hs|];
  let s' := fresh "s'" in let Hs' := fresh "Hs'" in
  intros s' Hs'; unfold on_list;
  match goal with |- context [match ?o with _ => _ end] => destruct o as [[]|] end; try (by answers).

Lemma push_element_spec push (f : list bytes -> list bytes) k x shard s m c :
  (forall q l, QuickList.Repr q l -> exists q', push q x = Some q' /\ QuickList.Repr q' (f l)) ->
  (forall l, length (f l) = S (length l)) ->
  spec shard m c = on_list m k (fun l => gives (Ok (aint (length (f l)))) (<[k := AList (f l)]> m))
      (gives (Ok (AInt 1)) (<[k := AList (f [])]> m)) ->
  store_repr s m -> wp (push_element push k x) s (post shard m c).
Proof.
  intros Hpush Hlen Hspec Hs. unfold post, push_element. rewrite Hspec. clear Hspec. with_list Hs.
  - intros q Hq. cbn [default from_option id]. destruct (Hpush q l Hq) as (q' & -> & Hq'). apply wp_bind, wp_pure.
    cbn zeta. rewrite (quicklist_len q' _ Hq'). eapply set_then; [done|by constructor|]. intros s'' Hs''.
    apply wp_ret. by answers.
  - cbn [default from_option id]. destruct (Hpush _ _ quicklist_new_spec) as (q' & -> & Hq'). apply wp_bind, wp_pure.
    cbn zeta. rewrite (quicklist_len q' _ Hq'), Hlen. eapply set_then; [done|by constructor|]. intros s'' Hs''.
    apply wp_ret. by answers.
Qed.

Lemma lpush_refines k x : refines (LPush k x).
Proof.
  intros s m Hs _ _. apply (push_element_spec _ (fun l => x :: l) k x); try done.
  intros q l. apply QuickList.ql_push_front_spec.
Qed.

Lemma rpush_refines k x : refines (RPush k x).
Proof.
  intros s m Hs _ _. apply (push_element_spec _ (fun l => l ++ [x]) k x); try done.
  - intros q l. apply QuickList.ql_push_back_spec.
  - intros l. rewrite length_app. simpl. lia.
Qed.

Lemma lpop_refines k : refines (LPop k).
Proof.
  start LPopCommand. unfold pop_element. with_list Hs.
  - intros q Hq. destruct (QuickList.ql_pop_front_spec q l Hq) as (q' & -> & Hq'). apply wp_bind, wp_pure.
    destruct l as [|e l]; cbn [fst snd hd_error tl] in *; [apply wp_ret; by answers|].
    eapply set_then; [done|by constructor|]. intros s'' Hs''. apply wp_ret. by answers.
Qed.

Lemma rpop_refines k : refines (RPop k).
Proof.
  start RPopCommand. unfold pop_element. with_list Hs.
  - intros q Hq. destruct (QuickList.ql_pop_back_spec q l Hq) as (q' & -> & Hq'). apply wp_bind, wp_pure.
    cbn [fst snd]. destruct (last l) as [e|]; [|apply wp_ret; by answers].
    eapply set_then; [done|by constructor|]. intros s'' Hs''. apply wp_ret. by answers.
Qed.

Lemma llen_refines k : refines (LLen k).
Proof.
  start LLenCommand. with_list Hs. intros q Hq. rewrite (quicklist_len q l Hq). apply wp_ret. by answers.
Qed.

Lemma collect_range_spec n i q l vec :
  QuickList.Repr q l -> collect_range n i q vec = Some (vec ++ take n (drop i l)).
Proof.
  revert i q vec. induction n as [|n IH]; intros i q vec Hq; cbn [collect_range]; [by rewrite app_nil_r|].
  destruct (QuickList.ql_get_spec q l i Hq) as (q' & -> & Hq'). cbn [mbind option_bind].
  rewrite (IH _ _ _ Hq'), <- app_assoc. f_equal. f_equal. rewrite Nat.add_1_r.
  destruct (l !! i) as [x|] eqn:E.
  - by rewrite (drop_S _ _ _ E).
  - apply lookup_ge_None in E. rewrite !drop_ge by lia. by rewrite !take_nil.
Qed.

Lemma lrange_refines k i j : refines (LRange k i j).
Proof.
  start LRangeCommand. with_list Hs. intros q Hq.
  pose proof (quicklist_len q l Hq) as Hlen. rewrite Hlen. cbn zeta.
  rewrite (collect_range_spec _ _ q l [] Hq). apply wp_bind, wp_pure. lists. split; [|done]. split; [|done].
  unfold sublist. cbn zeta. destruct l as [|x l]; [by rewrite !drop_nil, !take_nil|].
  by rewrite (Z.max_l (_ - 1)) by (simpl; lia).
Qed.

(** *** Bit arrays *)

Lemma bits_of_found m k (o : option Bitmap.Bitmap) :
  bits_at m k = Bitmap.bm_bytes <$> o -> bits_of m k = Bitmap.bm_bytes (default Bitmap.new o).
Proof. unfold bits_of. intros ->. by destruct o. Qed.

Lemma setbit_refines k i x : refines (SetBit k i x).
Proof.
  start SetBitCommand. eapply bitmap_then; [done|]. intros s' o Hs' Ho Hw.
  assert (Bitmap.wf (default Bitmap.new o)) as Hd by (destruct o; [done|apply Forall_nil_2]).
  destruct (Bitmap.set_bit_spec _ i x Hd) as (bm' & -> & Hw' & Hlen & Hbits).
  rewrite (bits_of_found m k o Ho). apply wp_bind, wp_pure. cbn [fst snd].
  eapply set_then; [done|by constructor|]. intros s'' Hs''. apply wp_ret.
  eexists (Ok (AInt _)), _. split; [constructor|]. split; [|exact Hs'']. eexists. split; [|by split].
  split_and!; [done|exact Hlen|]. intros j _. apply Hbits.
Qed.

Lemma getbit_refines k i : refines (GetBit k i).
Proof.
  start GetBitCommand. eapply bitmap_then; [done|]. intros s' o Hs' Ho Hw.
  rewrite (bits_of_found m k o Ho). destruct o as [bm|].
  - rewrite (Bitmap.get_bit_spec bm i Hw). apply wp_bind, wp_pure, wp_ret. by answers.
  - apply wp_ret. rewrite Bitmap.bit_past by (simpl; lia). by answers.
Qed.

Lemma bitcount_refines k i j : refines (BitCount k i j).
Proof.
  start BitCountCommand. eapply bitmap_then; [done|]. intros s' o Hs' Ho Hw.
  rewrite (bits_of_found m k o Ho). destruct o as [bm|]; cbn [default from_option id].
  - unfold Bitmap.bitcount. rewrite Bitmap.bitcount_in_spec; [|done|].
    + apply wp_bind, wp_pure, wp_ret. by answers.
    + intros l Hl. by apply (Bitmap.strategies_agree cpu l Bitmap.LookupTable).
  - apply wp_ret. replace (Nat.min j (bits_len (Bitmap.bm_bytes Bitmap.new)) - i)%nat with 0%nat
      by (unfold bits_len, Bitmap.new; simpl; lia). by answers.
Qed.

Lemma get_bitmaps_spec ks s m (Q : result StoreError (list Bitmap.Bitmap) -> M -> Prop) :
  store_repr s m ->
  (forall bs s', store_repr s' m -> omap (bits_at m) ks = Bitmap.bm_bytes <$> bs -> Forall Bitmap.wf bs ->
    Q (Ok bs) s') ->
  wp (get_bitmaps ks) s Q.
Proof.
  revert s Q. induction ks as [|k ks IH]; intros s Q Hs HQ; cbn [get_bitmaps]; [by apply wp_ret, HQ|].
  eapply bitmap_then; [done|]. intros s' o Hs' Ho Hw. apply wp_bind, IH; [done|]. intros bs s'' Hs'' Hbs Hall.
  apply wp_ret, HQ; [done|..].
  - change (omap (bits_at m) (k :: ks)) with (match bits_at m k with Some y => y :: omap (bits_at m) ks | None => omap (bits_at m) ks end).
    rewrite Ho, Hbs. by destruct o.
  - apply Forall_app. split; [|done]. destruct o; by repeat constructor.
Qed.

Lemma bitand_len a b : bits_len (Bitmap.bm_bytes (Bitmap.bitand a b)) = Nat.min (bits_len (Bitmap.bm_bytes a)) (bits_len (Bitmap.bm_bytes b)).
Proof. unfold bits_len, Bitmap.bitand. cbn [Bitmap.bm_bytes]. rewrite length_zip_with. lia. Qed.

Lemma combine_len f a b : bits_len (Bitmap.combine_bytes f a b) = Nat.max (bits_len a) (bits_len b).
Proof. unfold bits_len, Bitmap.combine_bytes. rewrite length_fmap, length_seq. lia. Qed.

(** A fold of an operation on two arrays is the fold on each bit. *)
Lemma bits_fold f (len : nat -> nat -> nat) (g : bool -> bool -> bool) bs b0 :
  (forall a b, Bitmap.wf a -> Bitmap.wf b -> Bitmap.wf (f a b) /\
     forall i, Bitmap.bit (Bitmap.bm_bytes (f a b)) i = g (Bitmap.bit (Bitmap.bm_bytes a) i) (Bitmap.bit (Bitmap.bm_bytes b) i)) ->
  (forall a b, bits_len (Bitmap.bm_bytes (f a b)) = len (bits_len (Bitmap.bm_bytes a)) (bits_len (Bitmap.bm_bytes b))) ->
  Bitmap.wf b0 -> Forall Bitmap.wf bs ->
  has_bits (Bitmap.bm_bytes (foldl f b0 bs))
    (foldl len (bits_len (Bitmap.bm_bytes b0)) (bits_len <$> (Bitmap.bm_bytes <$> bs)))
    (fun i => foldl g (Bitmap.bit (Bitmap.bm_bytes b0) i) ((fun b => Bitmap.bit b i) <$> (Bitmap.bm_bytes <$> bs))).
Proof.
  intros Hf Hlen H0 Hall. revert b0 H0. induction Hall as [|b bs Hb Hbs IH]; intros b0 H0; [by split_and!|].
  destruct (Hf b0 b H0 Hb) as [Hw Hbit]. destruct (IH (f b0 b) Hw) as (H1 & H2 & H3).
  split_and!; [done|..]; cbn [foldl fmap list_fmap].
  - by rewrite H2, Hlen.
  - rewrite <- Hlen. intros i Hi. by rewrite (H3 i Hi), Hbit.
Qed.

Lemma bit_operation_spec op bs :
  Forall Bitmap.wf bs ->
  match bit_operation op bs with
  | Ok b => is_bit_operation op = true /\ Bitmap.wf b /\
            bits_operation op (Bitmap.bm_bytes <$> bs) (Bitmap.bm_bytes b)
  | Err e => is_bit_operation op = false /\ e = Syntax ("Unknown BITOP `" ++ op ++ "`")
  end.
Proof.
  intros Hall. unfold bit_operation, bits_operation, is_bit_operation.
  destruct (String.eqb op "NOT"); cbn [orb].
  { assert (Bitmap.wf (default Bitmap.new (head bs))) as Hd
      by (destruct Hall; [apply Forall_nil_2|done]).
    destruct (Bitmap.bitnot_spec _ Hd) as (H1 & H2 & H3). split; [done|]. split; [done|].
    replace (default [] (head (Bitmap.bm_bytes <$> bs))) with (Bitmap.bm_bytes (default Bitmap.new (head bs)))
      by (by destruct bs).
    split_and!; [exact H1|exact H2|exact H3]. }
  destruct (String.eqb op "AND"); cbn [orb]; [|destruct (String.eqb op "OR"); cbn [orb];
    [|destruct (String.eqb op "XOR"); cbn [orb]; [|done]]];
    (destruct Hall as [|b0 bs H0 Hall]; [split; [done|]; split; [apply Forall_nil_2|done]|]).
  - pose proof (bits_fold Bitmap.bitand Nat.min andb bs b0 Bitmap.bitand_spec bitand_len H0 Hall) as H.
    split; [done|]. split; [apply H|exact H].
  - pose proof (bits_fold Bitmap.bitor Nat.max orb bs b0 Bitmap.bitor_spec (fun a b => combine_len _ _ _) H0 Hall) as H.
    split; [done|]. split; [apply H|exact H].
  - pose proof (bits_fold Bitmap.bitxor Nat.max xorb bs b0 Bitmap.bitxor_spec (fun a b => combine_len _ _ _) H0 Hall) as H.
    split; [done|]. split; [apply H|exact H].
Qed.

Lemma bitop_refines op dest ks : refines (BitOp op dest ks).
Proof.
  start BitOpCommand. apply wp_bind. eapply get_bitmaps_spec; [done|]. intros bs s' Hs' Hbs Hall.
  rewrite Hbs. pose proof (bit_operation_spec op bs Hall) as Hop. apply wp_bind. unfold atry, wp at 1.
  destruct (bit_operation op bs) as [b|e].
  - destruct Hop as (-> & Hw & Hop). eapply set_then; [done|by constructor|]. intros s'' Hs''. apply wp_ret.
    eexists (Ok (AInt _)), _. split; [constructor|]. split; [|exact Hs'']. eexists. split; [exact Hop|by split].
  - destruct Hop as [-> ->]. by answers.
Qed.

#[local] Hint Resolve set_refines get_refines setnx_refines mset_refines mget_refines strlen_refines
  append_refines getrange_refines del_refines exists_refines rename_refines renamenx_refines
  flushdb_refines dbsize_refines save_refines ping_refines echo_refines incr_refines incrby_refines
  decr_refines decrby_refines decrbyfloat_refines incrbyfloat_refines setfloat_refines hset_refines
  hget_refines hmget_refines hdel_refines hexists_refines hlen_refines hkeys_refines hvals_refines
  hgetall_refines hrandfield_refines hincrby_refines hincrbyfloat_refines sadd_refines srem_refines
  scard_refines smembers_refines sismember_refines srandmember_refines spop_refines lpush_refines
  rpush_refines lpop_refines rpop_refines llen_refines lrange_refines setbit_refines getbit_refines
  bitcount_refines bitop_refines : denotation.

Lemma execute_refines c : refines c.
Proof. destruct c; auto with denotation. intros s m Hs Hc Hp. done. Qed.

(** ** Sequences of commands *)

(** The answers of the commands in order, until one panics. *)
Fixpoint execute_all (cs : list Command) : M -> list (result StoreError Value) * option M := fun s =>
  match cs with
  | [] => ([], Some s)
  | c :: cs =>
      match execute cpu c s with
      | Some (r, s) => let '(rs, o) := execute_all cs s in (r :: rs, o)
      | None => ([], None)
      end
  end.
End Refinement.

(** What a sequence of commands may answer from a keyspace, and how it ends. *)
Inductive spec_run {text : FloatText} (shard : bytes -> bytes -> bool)
  : keyspace_map -> list Command -> list (result StoreError Value) -> option keyspace_map -> Prop :=
| run_nil m : spec_run shard m [] [] (Some m)
| run_panic m c cs : panics m c = true -> spec_run shard m (c :: cs) [] None
| run_cons m c cs r a m' rs o :
    panics m c = false -> spec shard m c a m' -> denotes_answer r a ->
    spec_run shard m' cs rs o -> spec_run shard m (c :: cs) (r :: rs) o.

Lemma execute_all_spec {text : FloatText} {G : Type} {set_order : HashOrder (bytes * unit)} {rand : Rand bytes}
    {hash_order : HashOrder (bytes * bytes)} {pair_rand : Rand (bytes * bytes)}
    (cpu : Bitmap.CpuFeatures) (cs : list Command) (s : InMemoryStore G) (m : keyspace_map) :
  memory_repr s m -> Forall carries cs ->
  exists o, spec_run (fun _ _ => true) m cs (execute_all cpu cs s).1 o /\
    match (execute_all cpu cs s).2, o with Some s, Some m => memory_repr s m | None, None => True | _, _ => False end.
Proof.
  revert s m. induction cs as [|c cs IH]; intros s m Hs Hc; [exists (Some m); by split; [constructor|]|].
  apply Forall_cons in Hc as [Hc Hcs]. cbn [execute_all]. destruct (panics m c) eqn:Hp.
  - exists None. assert (execute cpu c s = None) as ->; [|by split; [constructor|]].
    destruct c; try done. by apply (getrange_panics (laws := memory_laws) cpu key start stop s m).
  - destruct (wp_elim _ _ _ (execute_refines (laws := memory_laws) cpu c s m Hs Hc Hp)) as (r & s' & -> & a & m' & Ha & Hspec & Hs').
    destruct (IH s' m' Hs' Hcs) as (o & Hrun & Ho). destruct (execute_all cpu cs s') as [rs o'].
    exists o. split; [|done]. by econstructor.
Qed.

(** C1. Every command, run on any engine that keeps the laws of the storage
    interface, answers and changes the keyspace as its specification over a
    finite map of abstract values says (strings, integers with their overflow,
    hashes, sets, lists, bit arrays, and the errors of each), and it panics
    exactly when it is one that is not written yet or a [GETRANGE] with a bound
    inside a character. *)
Theorem commands_refine_keyspace {text : FloatText} {M : Type} {ops : StorageOps M} {laws : StorageLaws M}
    {hash_order : HashOrder (bytes * bytes)} {pair_rand : Rand (bytes * bytes)}
    (cpu : Bitmap.CpuFeatures) (s : M) (m : keyspace_map) (c : Command) :
  store_repr s m -> carries c ->
  if panics m c then execute cpu c s = None
  else exists r s' a m', execute cpu c s = Some (r, s') /\ denotes_answer r a /\
    spec (same_shard s) m c a m' /\ store_repr s' m'.
Proof.
  intros Hs Hc. destruct (panics m c) eqn:Hp.
  - destruct c; try done. by apply (getrange_panics cpu key start stop s m).
  - destruct (wp_elim _ _ _ (execute_refines cpu c s m Hs Hc Hp)) as (r & s' & He & a & m' & H).
    by exists r, s', a, m'.
Qed.

(** C2. Any sequence of commands on the in-memory engine, from an empty store,
    gives the answers of a run of the specification from the empty keyspace, ends
    with a panic exactly when the run does, and leaves the store holding the
    keyspace that the run ends with. *)
Theorem memory_runs_commands {text : FloatText} {G : Type} {set_order : HashOrder (bytes * unit)}
    {rand : Rand bytes} {hash_order : HashOrder (bytes * bytes)} {pair_rand : Rand (bytes * bytes)}
    (cpu : Bitmap.CpuFeatures) (cs : list Command) :
  Forall carries cs ->
  exists o, spec_run (fun _ _ => true) ∅ cs (execute_all cpu cs (Memory.new (G := G))).1 o /\
    match (execute_all cpu cs (Memory.new (G := G))).2, o with
    | Some s, Some m => memory_repr s m
    | None, None => True
    | _, _ => False
    end.
Proof. intros Hc. apply execute_all_spec; [apply keyspace_empty|done]. Qed.

(** ** Instances *)

(** A generator that draws the first elements. *)
#[local] Instance first_rand (A : Type) : Rand A.
Proof.
  refine {| choose := fun _ l => head l; choose_multiple := fun _ n l => take n l |}.
  - intros _ [|x l]; [done|]. simpl. by left.
  - intros _ n l. exists (drop n l). by rewrite take_drop, length_take.
Defined.

#[local] Instance no_text : FloatText :=
  {| fmt_precise := fun _ => []; fmt_display := fun _ => []; parse_f64 := fun _ => None |}.

Definition ex_cpu : Bitmap.CpuFeatures := Bitmap.mkCpu true true.
Definition ex_commands : list Command :=
  [RPush [108] [97]; RPush [108] [98]; LPush [108] [99]; LRange [108] 0 (-1); SAdd [115] [97]; SAdd [115] [98];
   SPop 0 [115] 5; SCard [115]; HSet [104] [([102], [49])]; HIncrBy [104] [102] 41; HGet [104] [102];
   Incr [108]; Append [115] [208; 144]; DbSize; GetRange [115] 0 1].

Definition ex_show (r : result StoreError Value) : option (bytes + Z) :=
  match r with
  | Ok (VStr s) => Some (inl s) | Ok (VInt n) => Some (inr n)
  | Ok (VList q) => Some (inl (concat (QuickList.iter q)))
  | _ => None
  end.

Lemma commands_refine_keyspace_witness :
  execute ex_cpu (Incr [110]) (Memory.set_data {[ [110] := VStr [52; 49] ]} (Memory.new (G := unit))) =
    Some (Ok (VInt 42), Memory.set_data {[ [110] := VInt 42 ]} Memory.new) /\
  exists r s' a m', execute ex_cpu (Incr [110])
      (Memory.set_data {[ [110] := VStr [52; 49] ]} (Memory.new (G := unit))) = Some (r, s') /\
    denotes_answer r a /\ spec (fun _ _ => true) {[ [110] := AStr [52; 49] ]} (Incr [110]) a m' /\
    memory_repr s' m'.
Proof.
  split; [by vm_compute|].
  apply (commands_refine_keyspace (laws := memory_laws) ex_cpu _ {[ [110] := AStr [52; 49] ]} (Incr [110])); [|done].
  apply (keyspace_insert ∅ ∅); [apply keyspace_empty|constructor].
Defined.

Lemma memory_runs_commands_witness :
  ex_show <$> (execute_all ex_cpu ex_commands (Memory.new (G := unit))).1 =
    [Some (inr 1); Some (inr 2); Some (inr 3); Some (inl [99; 97; 98]); Some (inr 1); Some (inr 1);
     Some (inl [97; 98]); Some (inr 0); Some (inr 1); Some (inr 42); Some (inl [52; 50]); None; Some (inr 2);
     Some (inr 3)] /\
  exists o, spec_run (fun _ _ => true) ∅ ex_commands (execute_all ex_cpu ex_commands (Memory.new (G := unit))).1 o /\
    match (execute_all ex_cpu ex_commands (Memory.new (G := unit))).2, o with
    | Some s, Some m => memory_repr s m
    | None, None => True
    | _, _ => False
    end.
Proof.
  split; [by vm_compute|]. apply (memory_runs_commands ex_cpu). by repeat constructor.
Defined.
