(* ===== verification/Crc32.v ===== *)
(** * The checksum of the append-only file

    Models [Crc32] of [src/src/engine/aof_integrity.rs]: the table of 256 words
    and the loop over the bytes.  The theorems: the table gives the same as eight
    steps of the shift register per byte, and a change of up to four neighbouring
    bytes always changes the checksum. *)
From S2P Require Import Prelude.
Local Open Scope Z_scope.

Definition POLYNOMIAL : Z := 0xEDB88320.

(** The body of the inner loop of [Crc32::new], and [n] rounds of it. *)
Definition crc_step (crc : Z) : Z :=
  if Z.land crc 1 =? 0 then Z.shiftr crc 1 else Z.lxor (Z.shiftr crc 1) POLYNOMIAL.

Fixpoint crc_steps (n : nat) (crc : Z) : Z :=
  match n with O => crc | S n => crc_steps n (crc_step crc) end.

(** [Crc32::new] *)
Definition crc_table : list Z := (fun i => crc_steps 8 (Z.of_nat i)) <$> seq 0 256.

Definition table_index (crc byte : Z) : nat := Z.to_nat (Z.land (Z.lxor crc byte) 0xFF).

Definition crc_update (table : list Z) (crc byte : Z) : Z :=
  Z.lxor (Z.shiftr crc 8) (default 0 (table !! table_index crc byte)).

Definition checksum (data : bytes) : Z :=
  Z.lxor (foldl (crc_update crc_table) 0xFFFFFFFF data) 0xFFFFFFFF.

Definition verify (data : bytes) (expected : Z) : bool := checksum data =? expected.

(** ** The reference: a shift register *)

Definition crc_bitwise (data : bytes) : Z :=
  Z.lxor (foldl (fun crc b => crc_steps 8 (Z.lxor crc b)) 0xFFFFFFFF data) 0xFFFFFFFF.

(** The bytes as one word, the first one lowest. *)
Fixpoint le_word (l : bytes) : Z :=
  match l with [] => 0 | b :: l => Z.lxor b (Z.shiftl (le_word l) 8) end.

(** ** The step is linear *)

Lemma crc_step_odd x : crc_step x = Z.lxor (Z.shiftr x 1) (if Z.odd x then POLYNOMIAL else 0).
Proof.
  unfold crc_step. change 1 with (Z.ones 1) at 1. rewrite Z.land_ones, Z.pow_1_r, Zmod_odd by lia.
  destruct (Z.odd x); simpl (_ =? _); cbv iota; by rewrite ?Z.lxor_0_r.
Qed.

Lemma crc_step_lxor a b : crc_step (Z.lxor a b) = Z.lxor (crc_step a) (crc_step b).
Proof.
  rewrite !crc_step_odd, Z.shiftr_lxor. assert (Z.odd (Z.lxor a b) = xorb (Z.odd a) (Z.odd b)) as ->.
  { rewrite <- !Z.bit0_odd. apply Z.lxor_spec. }
  set (x := Z.shiftr a 1). set (y := Z.shiftr b 1). destruct (Z.odd a), (Z.odd b); cbn [xorb];
    rewrite ?Z.lxor_0_r, ?Z.lxor_assoc; f_equal.
  - rewrite (Z.lxor_comm POLYNOMIAL), Z.lxor_assoc, Z.lxor_nilpotent. by rewrite Z.lxor_0_r.
  - apply Z.lxor_comm.
Qed.

Lemma crc_steps_lxor n a b : crc_steps n (Z.lxor a b) = Z.lxor (crc_steps n a) (crc_steps n b).
Proof. revert a b. induction n as [|n IH]; intros a b; [done|]. simpl. by rewrite crc_step_lxor, IH. Qed.

Lemma crc_steps_add m n x : crc_steps (m + n) x = crc_steps n (crc_steps m x).
Proof. revert x. induction m as [|m IH]; intros x; [done|]. simpl. apply IH. Qed.

Lemma crc_steps_shiftl n x : crc_steps n (Z.shiftl x (Z.of_nat n)) = x.
Proof.
  induction n as [|n IH]; [apply Z.shiftl_0_r|]. cbn [crc_steps]. rewrite crc_step_odd.
  replace (Z.odd (Z.shiftl x (Z.of_nat (S n)))) with false.
  - rewrite Z.lxor_0_r, Z.shiftr_shiftl_l by lia. replace (Z.of_nat (S n) - 1) with (Z.of_nat n) by lia. apply IH.
  - rewrite <- Z.bit0_odd, Z.shiftl_spec_low; [done|lia].
Qed.

Lemma split_low n x : 0 <= n -> x = Z.lxor (Z.shiftl (Z.shiftr x n) n) (Z.land x (Z.ones n)).
Proof.
  intros Hn. apply Z.bits_inj'. intros i Hi. rewrite Z.lxor_spec, Z.land_spec.
  destruct (Z.lt_ge_cases i n).
  - by rewrite Z.shiftl_spec_low, Z.ones_spec_low, andb_true_r by lia.
  - rewrite Z.shiftl_spec_high, Z.shiftr_spec, Z.ones_spec_high, andb_false_r, xorb_false_r by lia.
    f_equal. lia.
Qed.

(** Eight steps take the low byte out. *)
Lemma crc_steps_byte x : crc_steps 8 x = Z.lxor (Z.shiftr x 8) (crc_steps 8 (Z.land x (Z.ones 8))).
Proof.
  rewrite (split_low 8 x) at 1 by lia. rewrite crc_steps_lxor. f_equal. exact (crc_steps_shiftl 8 _).
Qed.

Lemma land_FF x : 0 <= Z.land x 0xFF < 256.
Proof. change 0xFF with (Z.ones 8). rewrite Z.land_ones by lia. apply Z.mod_pos_bound. lia. Qed.

Lemma crc_update_steps crc b : is_byte b -> crc_update crc_table crc b = crc_steps 8 (Z.lxor crc b).
Proof.
  intros Hb. rewrite crc_steps_byte. unfold crc_update, table_index, crc_table.
  pose proof (land_FF (Z.lxor crc b)) as Hi.
  rewrite list_lookup_fmap, lookup_seq_lt by lia. simpl. rewrite Z2Nat.id by lia. change (Z.ones 8) with 0xFF.
  f_equal. rewrite Z.shiftr_lxor. rewrite (Z.shiftr_div_pow2 b) by lia. change (2 ^ 8) with 256.
  rewrite (Z.div_small b) by exact Hb. by rewrite Z.lxor_0_r.
Qed.

Lemma crc_loop_steps crc l :
  Forall is_byte l -> foldl (crc_update crc_table) crc l = crc_steps (8 * length l) (Z.lxor crc (le_word l)).
Proof.
  revert crc. induction l as [|b l IH]; intros crc Hl; [simpl; by rewrite Z.lxor_0_r|].
  apply Forall_cons in Hl as [Hb Hl]. cbn [foldl le_word length]. rewrite IH, crc_update_steps by done.
  replace (8 * S (length l))%nat with (8 + 8 * length l)%nat by lia. rewrite crc_steps_add. f_equal.
  rewrite <- Z.lxor_assoc, (crc_steps_lxor 8 (Z.lxor crc b)). f_equal. symmetry. exact (crc_steps_shiftl 8 _).
Qed.

(** ** The step is one to one on words *)

Lemma lxor_is_u w a b : 0 <= w -> is_u w a -> is_u w b -> is_u w (Z.lxor a b).
Proof.
  intros Hw Ha Hb. rewrite <- (wrapu_small w a Ha), <- (wrapu_small w b Hb). unfold wrapu.
  rewrite <- !Z.land_ones by done.
  replace (Z.lxor _ _) with (Z.land (Z.lxor a b) (Z.ones w)).
  - rewrite Z.land_ones by done. by apply wrapu_is_u.
  - apply Z.bits_inj'. intros i Hi. rewrite Z.land_spec, !Z.lxor_spec, !Z.land_spec.
    by destruct (Z.testbit a i), (Z.testbit b i), (Z.testbit (Z.ones w) i).
Qed.

Lemma shiftr_is_u w x n : 0 <= n -> is_u w x -> is_u w (Z.shiftr x n).
Proof.
  unfold is_u. intros Hn Hx. rewrite Z.shiftr_div_pow2 by done.
  assert (0 < 2 ^ n) by (by apply Z.pow_pos_nonneg). split; [apply Z.div_pos; lia|].
  apply Z.le_lt_trans with x; [|lia]. apply Z.div_le_upper_bound; nia.
Qed.

Lemma polynomial_is_u : is_u 32 POLYNOMIAL. Proof. by vm_compute. Qed.

Lemma crc_step_is_u x : is_u 32 x -> is_u 32 (crc_step x).
Proof.
  intros Hx. unfold crc_step. destruct (_ =? _); [by apply shiftr_is_u|].
  apply lxor_is_u; [lia|by apply shiftr_is_u|apply polynomial_is_u].
Qed.

Lemma crc_steps_is_u n x : is_u 32 x -> is_u 32 (crc_steps n x).
Proof. revert x. induction n as [|n IH]; intros x Hx; [done|]. by apply IH, crc_step_is_u. Qed.

Lemma crc_step_zero x : is_u 32 x -> crc_step x = 0 -> x = 0.
Proof.
  unfold is_u. rewrite crc_step_odd. intros Hx Hz. apply Z.lxor_eq in Hz. rewrite Z.shiftr_div_pow2 in Hz by lia.
  pose proof (Z.div_mod x 2 ltac:(lia)) as Hd. rewrite Zmod_odd in Hd. change (2 ^ 1) with 2 in *.
  unfold POLYNOMIAL in Hz. destruct (Z.odd x); lia.
Qed.

Lemma crc_steps_zero n x : is_u 32 x -> crc_steps n x = 0 -> x = 0.
Proof.
  revert x. induction n as [|n IH]; intros x Hx Hz; [done|].
  apply crc_step_zero; [done|]. by apply IH; [apply crc_step_is_u|].
Qed.

Lemma crc_steps_inj n a b : is_u 32 a -> is_u 32 b -> crc_steps n a = crc_steps n b -> a = b.
Proof.
  intros Ha Hb E. apply Z.lxor_eq. apply (crc_steps_zero n); [by apply lxor_is_u|].
  rewrite crc_steps_lxor, E. apply Z.lxor_nilpotent.
Qed.

Lemma byte_is_u n b : is_byte b -> is_u (8 * Z.of_nat (S n)) b.
Proof.
  unfold is_byte, is_u. intros Hb. split; [lia|]. apply Z.lt_le_trans with (2 ^ 8); [lia|].
  apply Z.pow_le_mono_r; lia.
Qed.

Lemma le_word_is_u l : Forall is_byte l -> is_u (8 * Z.of_nat (length l)) (le_word l).
Proof.
  induction 1 as [|b l Hb Hl IH]; [by vm_compute|]. cbn [le_word length].
  apply lxor_is_u; [lia|by apply byte_is_u|]. unfold is_u in *. rewrite Z.shiftl_mul_pow2 by lia.
  replace (8 * Z.of_nat (S (length l))) with (8 * Z.of_nat (length l) + 8) by lia. rewrite Z.pow_add_r by lia. lia.
Qed.

Lemma le_word_inj l l' : Forall is_byte l -> Forall is_byte l' -> length l = length l' -> le_word l = le_word l' -> l = l'.
Proof.
  intros Hl. revert l'. induction Hl as [|b l Hb _ IH]; intros [|b' l'] Hl' Hlen E; try done.
  apply Forall_cons in Hl' as [Hb' Hl']. cbn [le_word] in E.
  assert (forall b l, is_byte b -> Z.land (Z.lxor b (Z.shiftl (le_word l) 8)) (Z.ones 8) = b /\
    Z.shiftr (Z.lxor b (Z.shiftl (le_word l) 8)) 8 = le_word l) as Hsplit.
  { intros c r Hc. split.
    - apply Z.bits_inj'. intros i Hi. rewrite Z.land_spec, Z.lxor_spec.
      destruct (Z.lt_ge_cases i 8).
      + by rewrite Z.shiftl_spec_low, Z.ones_spec_low, andb_true_r, xorb_false_r by lia.
      + rewrite (Z.ones_spec_high 8), andb_false_r by lia. symmetry.
        rewrite <- (Z.mod_small c (2 ^ 8)) by exact Hc. apply Z.mod_pow2_bits_high. lia.
    - rewrite Z.shiftr_lxor, Z.shiftr_shiftl_l by lia. rewrite Z.shiftl_0_r, Z.shiftr_div_pow2 by lia.
      rewrite (Z.div_small c) by exact Hc. apply Z.lxor_0_l. }
  destruct (Hsplit b l Hb) as [E1 E2], (Hsplit b' l' Hb') as [E1' E2'].
  f_equal; [by rewrite <- E1, <- E1', E|]. apply IH; [done|by simpl in Hlen; lia|]. by rewrite <- E2, <- E2', E.
Qed.

Lemma crc_loop_is_u crc l : is_u 32 crc -> Forall is_byte l -> is_u 32 (foldl (crc_update crc_table) crc l).
Proof.
  intros Hc Hl. revert crc Hc. induction Hl as [|b l Hb _ IH]; intros crc Hc; [done|]. cbn [foldl]. apply IH.
  rewrite crc_update_steps by done. apply crc_steps_is_u, lxor_is_u; [lia|done|]. unfold is_u, is_byte in *. lia.
Qed.

Lemma crc_loop_inj c c' l :
  is_u 32 c -> is_u 32 c' -> Forall is_byte l ->
  foldl (crc_update crc_table) c l = foldl (crc_update crc_table) c' l -> c = c'.
Proof.
  intros Hc Hc' Hl. revert c c' Hc Hc'. induction Hl as [|b l Hb Hl IH]; intros c c' Hc Hc' E; [done|].
  cbn [foldl] in E. apply IH in E; [|by apply (crc_loop_is_u _ [b]); [|constructor]..].
  rewrite !crc_update_steps in E by done. assert (is_u 32 b) by (unfold is_u, is_byte in *; lia).
  apply crc_steps_inj in E; [|by apply lxor_is_u..].
  apply (f_equal (fun x => Z.lxor x b)) in E. by rewrite !Z.lxor_assoc, Z.lxor_nilpotent, !Z.lxor_0_r in E.
Qed.

Lemma checksum_is_u l : Forall is_byte l -> is_u 32 (checksum l).
Proof. intros Hl. apply lxor_is_u; [lia|apply crc_loop_is_u; [by vm_compute|done]|by vm_compute]. Qed.

(** ** The two claims *)

Lemma checksum_bitwise l : Forall is_byte l -> checksum l = crc_bitwise l.
Proof.
  intros Hl. unfold checksum, crc_bitwise. f_equal. generalize 0xFFFFFFFF as crc.
  induction Hl as [|b l Hb _ IH]; intros crc; [done|]. cbn [foldl]. by rewrite crc_update_steps, IH.
Qed.

Lemma checksum_burst l1 m m' l2 :
  Forall is_byte (l1 ++ m ++ l2) -> Forall is_byte m' -> length m = length m' -> (length m <= 4)%nat ->
  checksum (l1 ++ m ++ l2) = checksum (l1 ++ m' ++ l2) -> m = m'.
Proof.
  intros Hall Hm' Hlen Hle E. apply Forall_app in Hall as [H1 [Hm H2]%Forall_app].
  assert (is_u 32 0xFFFFFFFF) as Hff by (by vm_compute).
  unfold checksum in E. apply (f_equal (fun x => Z.lxor x 0xFFFFFFFF)) in E.
  rewrite !Z.lxor_assoc, Z.lxor_nilpotent, !Z.lxor_0_r, !foldl_app in E.
  set (c := foldl _ 0xFFFFFFFF l1) in E. assert (is_u 32 c) as Hc by (by apply crc_loop_is_u).
  apply crc_loop_inj in E; [|by apply crc_loop_is_u..|done].
  rewrite !crc_loop_steps in E by done. rewrite <- Hlen in E.
  assert (forall l, Forall is_byte l -> (length l <= 4)%nat -> is_u 32 (le_word l)) as Hw.
  { intros l Hl Hl4. pose proof (le_word_is_u l Hl) as H. unfold is_u in *. split; [lia|].
    apply Z.lt_le_trans with (2 ^ (8 * Z.of_nat (length l))); [lia|]. apply Z.pow_le_mono_r; lia. }
  apply crc_steps_inj in E; [|apply lxor_is_u; [lia|done|apply Hw; (done || lia)]..].
  apply le_word_inj; try done. apply (f_equal (Z.lxor c)) in E.
  by rewrite <- !Z.lxor_assoc, Z.lxor_nilpotent, !Z.lxor_0_l in E.
Qed.

(** C38. The table of [Crc32] computes the CRC of a shift register, eight steps for
    each byte, and two byte strings of the same length that differ within four
    neighbouring bytes never have the same checksum. *)
Theorem crc32_detects_bursts (l1 m m' l2 : bytes) :
  Forall is_byte (l1 ++ m ++ l2) -> Forall is_byte m' -> length m = length m' -> (length m <= 4)%nat ->
  checksum (l1 ++ m ++ l2) = crc_bitwise (l1 ++ m ++ l2) /\
  (m <> m' -> checksum (l1 ++ m ++ l2) <> checksum (l1 ++ m' ++ l2)).
Proof.
  intros Hall Hm' Hlen Hle. split; [by apply checksum_bitwise|]. intros Hne E. apply Hne.
  by apply (checksum_burst l1 m m' l2).
Qed.

Lemma crc32_detects_bursts_witness :
  checksum [97; 98; 99] = 0x352441c2 /\
  checksum ([97] ++ [98; 99] ++ [100]) = crc_bitwise ([97] ++ [98; 99] ++ [100]) /\
  ([98; 99] <> [0; 255] -> checksum ([97] ++ [98; 99] ++ [100]) <> checksum ([97] ++ [0; 255] ++ [100])).
Proof.
  split; [by vm_compute|]. apply crc32_detects_bursts.
  - repeat constructor; by vm_compute.
  - repeat constructor; by vm_compute.
  - done.
  - simpl. lia.
Defined.
