(* ===== verification/Aof.v ===== *)
(** * The append-only file

    Models [src/src/engine/aof.rs] ([AofLog]) and the validator and statistics of
    [src/src/engine/aof_integrity.rs]: the records with their checksums, the
    buffered writer and the policies of synchronization, the replay of both
    formats under the policies of corruption, the rewrite, the check and the
    repair.  The file is its bytes; writing to it does not fail; a clock reading
    is an argument; the durations of flushes and the texts of messages are left
    out.  Positions in a file are below 2^63, so that their checked additions do
    not fail. *)
From S2P Require Import Prelude Interfaces ZdbFormat ZdbReader Crc32.
Local Open Scope Z_scope.

(** ** Operations and errors *)

Inductive AofOp : Type := OpSet | OpDel.
#[export] Instance AofOp_eq_dec : EqDecision AofOp.
Proof. solve_decision. Defined.

Inductive SyncPolicy : Type := Always | EverySec | No.
Inductive CorruptionPolicy : Type := Strict | Skip | Log.
Inductive RepairMode : Type := RepairSkip | RepairStrict | RepairRecover.

(** The errors, told apart by their texts. *)
Inductive AofError : Type :=
| InvalidMagic (header : bytes) | PartialHeader (header : bytes) | BadHeader (header : bytes)
| ShortRead | ShortU32 | TruncatedKeyData | TruncatedValueData | EmptyRecord
| TruncatedChecksum | TruncatedKey | TruncatedValue
| ChecksumMismatch (expected actual : Z) | TruncatedRecord | UnknownOp (op : Z) | RecordEof.

Definition op_code (op : AofOp) : Z := match op with OpSet => 1 | OpDel => 2 end.

Definition op_of (v : Z) : result AofError AofOp :=
  if v =? 1 then Ok OpSet else if v =? 2 then Ok OpDel else Err (UnknownOp v).

(** What the callback of a replay receives. *)
Definition event : Type := AofOp * bytes * option bytes.

Definition MAGIC : bytes := [65; 79; 70; 50].
Definition AOF1 : bytes := [65; 79; 70; 49].

(** ** Integrity *)

Inductive ValidationResult : Type :=
| Valid | Corrupted (expected actual : Z) | Truncated | UnknownOperation (op : Z) | UnexpectedEof.

Record IntegrityStats : Type := mkStats {
  records_checked : nat; records_valid : nat; records_corrupted : nat;
  records_truncated : nat; records_unknown_op : nat; records_skipped : nat;
}.

Definition no_stats : IntegrityStats := mkStats 0 0 0 0 0 0.

Definition update_stats (result : ValidationResult) (s : IntegrityStats) : IntegrityStats :=
  let s := mkStats (records_checked s + 1) (records_valid s) (records_corrupted s)
    (records_truncated s) (records_unknown_op s) (records_skipped s) in
  match result with
  | Valid => mkStats (records_checked s) (records_valid s + 1) (records_corrupted s)
      (records_truncated s) (records_unknown_op s) (records_skipped s)
  | Corrupted _ _ => mkStats (records_checked s) (records_valid s) (records_corrupted s + 1)
      (records_truncated s) (records_unknown_op s) (records_skipped s)
  | Truncated | UnexpectedEof => mkStats (records_checked s) (records_valid s) (records_corrupted s)
      (records_truncated s + 1) (records_unknown_op s) (records_skipped s)
  | UnknownOperation _ => mkStats (records_checked s) (records_valid s) (records_corrupted s)
      (records_truncated s) (records_unknown_op s + 1) (records_skipped s)
  end.

Definition skip_record (s : IntegrityStats) : IntegrityStats :=
  mkStats (records_checked s) (records_valid s) (records_corrupted s)
    (records_truncated s) (records_unknown_op s) (records_skipped s + 1).

(** [u32::from_be_bytes] of four bytes at a position. *)
Definition u32_at (buf : bytes) (pos : nat) : Z := be_value (take 4 (drop pos buf)).
Definition len (l : bytes) : Z := Z.of_nat (length l).

Definition validate_record_internal (data : bytes) : ValidationResult :=
  if len data <? 9 then Truncated
  else
    let op := default 0 (data !! 0%nat) in
    if negb (op =? 1) && negb (op =? 2) then UnknownOperation op
    else
      let expected := u32_at data 1 in
      let payload := drop 5 data in
      if len payload <? 4 then Truncated
      else
        let after_key := 4 + u32_at payload 0 in
        if len payload <? after_key then Truncated
        else
          let short :=
            if op =? 1 then
              if len payload <? after_key + 4 then true
              else len payload <? after_key + 4 + u32_at payload (Z.to_nat after_key)
            else false in
          if short then Truncated
          else
            let actual := checksum payload in
            if negb (actual =? expected) then Corrupted expected actual else Valid.

Definition validate_record (data : bytes) (s : IntegrityStats) : ValidationResult * IntegrityStats :=
  let result := validate_record_internal data in (result, update_stats result s).

(** ** Records *)

Definition payload_of (op : AofOp) (key : bytes) (value : option bytes) : bytes :=
  write_be 4 (len key) ++ key ++
  match value with Some value => write_be 4 (len value) ++ value | None => [] end.

(** Where the record that starts at [start] ends: at the end of the buffer when
    it does not fit. *)
Definition find_record_end (buf : bytes) (start : nat) : nat :=
  if (length buf <=? start)%nat then length buf
  else if len buf <? Z.of_nat start + 9 then length buf
  else
    let pos := (start + 5)%nat in
    let key_len := u32_at buf pos in
    let pos := Z.of_nat pos + 4 + key_len in
    if len buf <? pos then length buf
    else if default 0 (buf !! start) =? 1 then
      if len buf <? pos + 4 then length buf
      else
        let val_len := u32_at buf (Z.to_nat pos) in
        let pos := pos + 4 + val_len in
        if len buf <? pos then length buf else Z.to_nat pos
    else Z.to_nat pos.

Definition read_u32 (buf : bytes) (pos : nat) : result AofError (Z * nat) :=
  if len buf <? Z.of_nat pos + 4 then Err ShortU32 else Ok (u32_at buf pos, (pos + 4)%nat).

(** [n] bytes at a position. *)
Definition read_bytes (buf : bytes) (pos : nat) (n : Z) (e : AofError) : result AofError (bytes * nat) :=
  if len buf <? Z.of_nat pos + n then Err e
  else Ok (take (Z.to_nat n) (drop pos buf), (pos + Z.to_nat n)%nat).

Definition parse_valid_aof2_record (record : bytes) : result AofError event :=
  match record !! 0%nat with
  | None => Err EmptyRecord
  | Some b =>
      let? op := op_of b in
      if len record <? 5 then Err TruncatedChecksum
      else
        let? (klen, pos) := read_u32 record 5 in
        let? (key, pos) := read_bytes record pos klen TruncatedKey in
        if decide (op = OpSet) then
          let? (vlen, pos) := read_u32 record pos in
          let? (v, _) := read_bytes record pos vlen TruncatedValue in
          Ok (op, key, Some v)
        else Ok (op, key, None)
  end.

(** The next byte after [start_pos] that may be an operation with nine bytes. *)
Definition find_next_valid_record (buf : bytes) (start_pos : nat) : option nat :=
  head (filter (fun pos => (let b := default 0 (buf !! pos) in (b =? 1) || (b =? 2)) &&
                           (pos + 9 <=? length buf)%nat = true)
          (seq (start_pos + 1) (length buf - (start_pos + 1)))).

(** ** Replay *)

Record Replay : Type := mkReplay {
  rp_events : list event;
  rp_stats : IntegrityStats;
  rp_skipped : nat;
}.

Definition emit (e : event) (r : Replay) : Replay := mkReplay (rp_events r ++ [e]) (rp_stats r) (rp_skipped r).
Definition with_stats (s : IntegrityStats) (r : Replay) : Replay := mkReplay (rp_events r) s (rp_skipped r).
Definition count_skipped (r : Replay) : Replay := mkReplay (rp_events r) (rp_stats r) (rp_skipped r + 1).

(** The position after the record. *)
Definition replay_aof2_record (buf : bytes) (pos : nat) (r : Replay) : result AofError nat * Replay :=
  if (length buf <=? pos)%nat then (Ok pos, r)
  else
    let record_end := find_record_end buf pos in
    let record := take (record_end - pos) (drop pos buf) in
    let '(validation, stats) := validate_record record (rp_stats r) in
    let r := with_stats stats r in
    match validation with
    | Valid =>
        match parse_valid_aof2_record record with
        | Ok e => (Ok record_end, emit e r)
        | Err e => (Err e, r)
        end
    | Corrupted expected actual => (Err (ChecksumMismatch expected actual), r)
    | Truncated => (Err TruncatedRecord, r)
    | UnknownOperation op => (Err (UnknownOp op), r)
    | UnexpectedEof => (Err RecordEof, r)
    end.

Fixpoint replay_aof2_loop (fuel : nat) (policy : CorruptionPolicy) (buf : bytes) (pos : nat) (r : Replay)
  : option (result AofError unit * Replay) :=
  match fuel with
  | O => None
  | S fuel =>
      if (length buf <=? pos)%nat then Some (Ok tt, r)
      else
        match replay_aof2_record buf pos r with
        | (Ok pos, r) => replay_aof2_loop fuel policy buf pos r
        | (Err e, r) =>
            match policy with
            | Strict => Some (Err e, r)
            | Skip | Log =>
                let r := count_skipped (with_stats (skip_record (rp_stats r)) r) in
                match find_next_valid_record buf pos with
                | Some next_pos => replay_aof2_loop fuel policy buf next_pos r
                | None => Some (Ok tt, r)
                end
            end
        end
  end.

(** The result, the position where it stopped, and the event. *)
Definition replay_aof1_record (buf : bytes) (pos : nat) : result AofError event * nat :=
  match op_of (default 0 (buf !! pos)) with
  | Err e => (Err e, pos)
  | Ok op =>
      let pos := (pos + 1)%nat in
      match read_u32 buf pos with
      | Err e => (Err e, pos)
      | Ok (key_len, pos) =>
          match read_bytes buf pos key_len TruncatedKeyData with
          | Err e => (Err e, pos)
          | Ok (key, pos) =>
              if decide (op = OpSet) then
                match read_u32 buf pos with
                | Err e => (Err e, pos)
                | Ok (vlen, pos) =>
                    match read_bytes buf pos vlen TruncatedValueData with
                    | Err e => (Err e, pos)
                    | Ok (v, pos) => (Ok (op, key, Some v), pos)
                    end
                end
              else (Ok (op, key, None), pos)
          end
      end
  end.

Fixpoint replay_aof1_loop (fuel : nat) (policy : CorruptionPolicy) (buf : bytes) (pos : nat) (r : Replay)
  : option (result AofError unit * Replay) :=
  match fuel with
  | O => None
  | S fuel =>
      if (length buf <=? pos)%nat then Some (Ok tt, r)
      else
        match replay_aof1_record buf pos with
        | (Ok e, pos) => replay_aof1_loop fuel policy buf pos (emit e r)
        | (Err e, pos) =>
            match policy with
            | Strict => Some (Err e, r)
            | Skip | Log =>
                let r := count_skipped r in
                match find_next_valid_record buf pos with
                | Some next_pos => replay_aof1_loop fuel policy buf next_pos r
                | None => Some (Ok tt, r)
                end
            end
        end
  end.

(** A loop takes a byte a round, see [aof_replay_ends]. *)
Definition replay_file (policy : CorruptionPolicy) (file : bytes) (r : Replay)
  : option (result AofError unit * Replay) :=
  if (length file <? 4)%nat then Some (Err ShortRead, r)
  else
    let header := take 4 file in
    let buf := drop 4 file in
    if bool_decide (header = AOF1) then replay_aof1_loop (S (length buf)) policy buf 0 r
    else if bool_decide (header = MAGIC) then replay_aof2_loop (S (length buf)) policy buf 0 r
    else Some (Err (BadHeader header), r).

(** ** The log *)

Definition INITIAL_BATCH : nat := 32.
(** The capacity of a [BufWriter]. *)
Definition BUF_CAPACITY : nat := 8192.

Record AofLog : Type := mkLog {
  disk : bytes;
  wbuf : bytes;
  policy : SyncPolicy;
  corruption_policy : CorruptionPolicy;
  stats : IntegrityStats;
  pending_ops : nat;
  batch_size : nat;
  last_activity : Z;
  ops_total : nat; ops_set : nat; ops_del : nat;
  flush_count : nat;
  replay_skipped : nat;
}.

Definition set_file (disk wbuf : bytes) (l : AofLog) : AofLog :=
  mkLog disk wbuf (policy l) (corruption_policy l) (stats l) (pending_ops l) (batch_size l)
    (last_activity l) (ops_total l) (ops_set l) (ops_del l) (flush_count l) (replay_skipped l).
Definition set_batch (pending batch : nat) (flushes : nat) (l : AofLog) : AofLog :=
  mkLog (disk l) (wbuf l) (policy l) (corruption_policy l) (stats l) pending batch
    (last_activity l) (ops_total l) (ops_set l) (ops_del l) flushes (replay_skipped l).
Definition set_activity (now : Z) (l : AofLog) : AofLog :=
  mkLog (disk l) (wbuf l) (policy l) (corruption_policy l) (stats l) (pending_ops l) (batch_size l)
    now (ops_total l) (ops_set l) (ops_del l) (flush_count l) (replay_skipped l).
Definition set_corruption (p : CorruptionPolicy) (l : AofLog) : AofLog :=
  mkLog (disk l) (wbuf l) (policy l) p (stats l) (pending_ops l) (batch_size l)
    (last_activity l) (ops_total l) (ops_set l) (ops_del l) (flush_count l) (replay_skipped l).
Definition set_stats (s : IntegrityStats) (skipped : nat) (l : AofLog) : AofLog :=
  mkLog (disk l) (wbuf l) (policy l) (corruption_policy l) s (pending_ops l) (batch_size l)
    (last_activity l) (ops_total l) (ops_set l) (ops_del l) (flush_count l) skipped.
Definition count_op (op : AofOp) (l : AofLog) : AofLog :=
  mkLog (disk l) (wbuf l) (policy l) (corruption_policy l) (stats l) (pending_ops l) (batch_size l)
    (last_activity l) (ops_total l + 1)
    (match op with OpSet => ops_set l + 1 | OpDel => ops_set l end)
    (match op with OpSet => ops_del l | OpDel => ops_del l + 1 end)
    (flush_count l) (replay_skipped l).

(** [AofLog::open] on a file; a file that is missing is created empty. *)
Definition open (file : bytes) (policy : SyncPolicy) (corruption : CorruptionPolicy) (now : Z)
  : result AofError AofLog :=
  let header := take 4 file in
  let new disk := mkLog disk [] policy corruption no_stats 0 INITIAL_BATCH now 0 0 0 0 0 in
  match length header with
  | 4%nat =>
      if bool_decide (header = MAGIC) || bool_decide (header = AOF1) then Ok (new file)
      else Err (InvalidMagic header)
  | O => Ok (new MAGIC)
  | _ => Err (PartialHeader header)
  end.

(** [flush] of the [BufWriter], also what the background thread calls. *)
Definition flush (l : AofLog) : AofLog := set_file (disk l ++ wbuf l) [] l.

(** [write_all] of the [BufWriter]. *)
Definition write_all (data : bytes) (l : AofLog) : AofLog :=
  if (length data <? BUF_CAPACITY - length (wbuf l))%nat then set_file (disk l) (wbuf l ++ data) l
  else
    let l := if (BUF_CAPACITY - length (wbuf l) <? length data)%nat then flush l else l in
    if (BUF_CAPACITY <=? length data)%nat then set_file (disk l ++ data) (wbuf l) l
    else set_file (disk l) (wbuf l ++ data) l.

Definition flush_immediate (l : AofLog) : AofLog :=
  let l := flush l in set_batch (pending_ops l) (batch_size l) (flush_count l + 1) l.

Definition maybe_flush (l : AofLog) : AofLog :=
  match policy l with Always => flush_immediate l | EverySec | No => l end.

Definition adjust_batch_size (now : Z) (l : AofLog) : AofLog :=
  let cur := batch_size l in
  if (5 <? Z.max (now - last_activity l) 0) && (4 <? cur)%nat
  then set_batch (pending_ops l) (Nat.max (cur / 2) 4) (flush_count l) l
  else l.

(** The operation, the checksum and the payload. *)
Definition write_record (op : AofOp) (payload : bytes) (l : AofLog) : AofLog :=
  let checksum := checksum payload in
  let l := write_all [op_code op] l in
  let l := write_all (write_be 4 checksum) l in
  write_all payload l.

(** What follows the writes; [now] and [later] are the two readings of the clock. *)
Definition after_append (now later : Z) (l : AofLog) : AofLog :=
  let l := set_activity now l in
  match policy l with
  | Always =>
      let count := (pending_ops l + 1)%nat in
      let l := set_batch count (batch_size l) (flush_count l) l in
      let l :=
        if (batch_size l <=? count)%nat
        then let l := flush_immediate l in set_batch 0 (batch_size l) (flush_count l) l
        else l in
      adjust_batch_size later l
  | EverySec | No => maybe_flush l
  end.

(** The part that [append_set] and [append_del] share. *)
Definition append (op : AofOp) (key : bytes) (value : option bytes) (now later : Z) (l : AofLog) : AofLog :=
  after_append now later (write_record op (payload_of op key value) (count_op op l)).

Definition append_set (key value : bytes) : Z -> Z -> AofLog -> AofLog := append OpSet key (Some value).
Definition append_del (key : bytes) : Z -> Z -> AofLog -> AofLog := append OpDel key None.

(** The append of an operation as a replay reports it. *)
Definition append_event (e : event) (now later : Z) (l : AofLog) : AofLog := append e.1.1 e.1.2 e.2 now later l.

Definition replay (l : AofLog) : option (result AofError unit * list event * AofLog) :=
  match replay_file (corruption_policy l) (disk l) (mkReplay [] (stats l) (replay_skipped l)) with
  | Some (res, r) => Some (res, rp_events r, set_stats (rp_stats r) (rp_skipped r) l)
  | None => None
  end.

(** The record of a live key in a rewritten file. *)
Definition live_record (kv : bytes * bytes) : bytes :=
  let payload := payload_of OpSet kv.1 (Some kv.2) in
  op_code OpSet :: write_be 4 (checksum payload) ++ payload.

(** The buffer of the old writer goes to the file that is replaced. *)
Definition rewrite (live : list (bytes * bytes)) (l : AofLog) : AofLog :=
  set_file (MAGIC ++ concat (live_record <$> live)) [] l.

Definition verify_integrity (l : AofLog) : option (result AofError IntegrityStats * AofLog) :=
  '(res, _, l) ← replay (set_stats no_stats (replay_skipped l) l);
  Some (let? _ := res in Ok (stats l), l).

(** The closure of [repair], on a [HashMap]. *)
Definition recover {order : HashOrder (bytes * bytes)} (data : list (bytes * bytes)) (e : event)
  : list (bytes * bytes) :=
  match e with
  | (OpSet, key, Some value) => (hm_insert key value data).2
  | (OpSet, _, None) => data
  | (OpDel, key, _) => (hm_remove key data).2
  end.

Record RepairResult : Type := mkRepair { repair_stats : IntegrityStats; modified : bool }.

Definition repair {order : HashOrder (bytes * bytes)} (mode : RepairMode) (l : AofLog)
  : option (result AofError RepairResult * AofLog) :=
  let original := corruption_policy l in
  let l := set_corruption (match mode with RepairSkip => Skip | RepairStrict => Strict | RepairRecover => Log end) l in
  '(res, events, l) ← replay l;
  let recovered := foldl recover [] events in
  let modified := (0 <? records_corrupted (stats l))%nat || (0 <? records_truncated (stats l))%nat in
  let strict := match mode with RepairStrict => true | _ => false end in
  let l := if modified && negb strict then rewrite recovered l else l in
  let done := mkRepair (stats l) modified in
  let l := set_corruption original l in
  Some (match res with
        | Ok _ => Ok done
        | Err e => if strict then Err e else Ok done
        end, l).

(** What is left of a file when the process ends: all of it after [drop], which
    flushes the writer, and the file without the buffer after a crash. *)
Definition close (l : AofLog) : bytes := disk (flush l).
Definition crash (l : AofLog) : bytes := disk l.
