(* ===== verification/AofReplay.v ===== *)
(** * What a replay of the append-only file gives

    Theorems about [Aof]: what was appended is replayed, after a crash a prefix of
    it; a changed byte is found; every replay ends; and three ways in which the
    formats fail. *)
From S2P Require Import Prelude Interfaces ZdbFormat ZdbReader Crc32 Aof.
Local Open Scope Z_scope.

(** ** Records *)

Definition payload (e : event) : bytes := payload_of e.1.1 e.1.2 e.2.

(** The record of an operation with the checksum [c], and with the right one. *)
Definition raw_record (e : event) (c : Z) : bytes := op_code e.1.1 :: write_be 4 c ++ payload e.
Definition record_of (e : event) : bytes := raw_record e (checksum (payload e)).

Definition records (es : list event) : bytes := concat (record_of <$> es).

Definition field_ok (l : bytes) : Prop := Forall is_byte l /\ is_u 32 (len l).

(** The operations that can be written: a value for [SET] only, and lengths that
    fit four bytes. *)
Definition event_ok (e : event) : Prop :=
  field_ok e.1.2 /\
  match e.1.1, e.2 with OpSet, Some v => field_ok v | OpDel, None => True | _, _ => False end.

Lemma u32_at_mid buf pos l1 v l2 :
  buf = l1 ++ write_be 4 v ++ l2 -> length l1 = pos -> is_u 32 v -> u32_at buf pos = v.
Proof.
  intros -> <- Hv. unfold u32_at. rewrite drop_app_length, take_app_length' by (by rewrite write_be_length).
  unfold write_be. change (8 * Z.of_nat 4) with 32. rewrite (wrapu_small 32 v Hv), be_value_bytes by (unfold is_u in Hv; lia).
  by apply Z.mod_small.
Qed.

Lemma u32_at_take n buf pos : (pos + 4 <= n)%nat -> u32_at (take n buf) pos = u32_at buf pos.
Proof.
  intros Hn. unfold u32_at. rewrite !take_drop_commute, take_take. do 3 f_equal. lia.
Qed.

Lemma u32_at_app l1 l2 i : u32_at (l1 ++ l2) (length l1 + i) = u32_at l2 i.
Proof. unfold u32_at. by rewrite <- drop_drop, drop_app_length. Qed.

Lemma u32_at_app_l l1 l2 i : (i + 4 <= length l1)%nat -> u32_at (l1 ++ l2) i = u32_at l1 i.
Proof. intros Hi. rewrite <- (u32_at_take (length l1)) by done. by rewrite take_app_length. Qed.

Lemma payload_bytes e : event_ok e -> Forall is_byte (payload e).
Proof.
  intros [[Hk _] Hv]. unfold payload, payload_of. apply Forall_app; split; [apply write_be_bytes|]. apply Forall_app; split; [done|].
  destruct e as [[[] k] [v|]]; cbn [fst snd] in *; try done.
  apply Forall_app. split; [apply write_be_bytes|apply Hv].
Qed.

(** What the fields of a record are. *)
Record Fields (r : bytes) (e : event) (c : Z) : Prop := {
  fd_op : r !! 0%nat = Some (op_code e.1.1);
  fd_sum : u32_at r 1 = c;
  fd_payload : drop 5 r = payload e;
  fd_klen : u32_at r 5 = len e.1.2;
  fd_key : take (length e.1.2) (drop 9 r) = e.1.2;
  fd_val : match e.2 with
           | Some v => u32_at r (9 + length e.1.2) = len v /\
               take (length v) (drop (13 + length e.1.2) r) = v /\ length r = (13 + length e.1.2 + length v)%nat
           | None => length r = (9 + length e.1.2)%nat
           end;
}.

Lemma raw_fields e c : event_ok e -> is_u 32 c -> Fields (raw_record e c) e c.
Proof.
  intros [[Hkb Hkl] Hv] Hc. unfold raw_record. destruct e as [[op k] v]. cbn [fst snd] in *.
  assert (is_u 32 (len k)) as Hk by done. unfold payload, payload_of. cbn [fst snd].
  set (tail := match v with Some v => write_be 4 (len v) ++ v | None => [] end).
  assert (forall x, length (write_be 4 x) = 4%nat) as Hl by (intros; apply write_be_length).
  constructor; cbn [fst snd].
  - done.
  - apply (u32_at_mid _ _ [op_code op] c (write_be 4 (len k) ++ k ++ tail)); done.
  - change (op_code op :: write_be 4 c ++ ?x) with ((op_code op :: write_be 4 c) ++ x).
    rewrite drop_app_length'; [done|]. cbn [length]. by rewrite Hl.
  - apply (u32_at_mid _ _ (op_code op :: write_be 4 c) (len k) (k ++ tail)); [done| |done]. cbn [length]. by rewrite Hl.
  - replace (op_code op :: _) with ((op_code op :: write_be 4 c ++ write_be 4 (len k)) ++ k ++ tail)
      by (cbn [app]; by rewrite <- !app_assoc).
    rewrite drop_app_length' by (cbn [length]; rewrite length_app, !Hl; lia). by rewrite take_app_length.
  - destruct v as [v|]; cbn [length]; rewrite !length_app, !Hl; [|unfold tail; cbn [length]; lia].
    assert (is_u 32 (len v)) by (destruct op; [apply Hv|done]). split_and!; [| |unfold tail; rewrite length_app, Hl; lia].
    + apply (u32_at_mid _ _ (op_code op :: write_be 4 c ++ write_be 4 (len k) ++ k) (len v) v); [|cbn [length]; rewrite !length_app, !Hl; lia|done].
      cbn [app]. by rewrite <- !app_assoc.
    + replace (op_code op :: _) with ((op_code op :: write_be 4 c ++ write_be 4 (len k) ++ k ++ write_be 4 (len v)) ++ v)
        by (cbn [app]; unfold tail; by rewrite <- !app_assoc).
      rewrite drop_app_length' by (cbn [length]; rewrite !length_app, !Hl; lia). by rewrite take_ge.
Qed.

Lemma raw_length e c : event_ok e -> is_u 32 c -> (9 <= length (raw_record e c))%nat.
Proof. intros He Hc. pose proof (fd_val _ _ _ (raw_fields e c He Hc)) as H. destruct (e.2); lia. Qed.

Lemma payload_sum e : event_ok e -> is_u 32 (checksum (payload e)).
Proof. intros He. by apply checksum_is_u, payload_bytes. Qed.

Lemma record_length e : event_ok e -> (9 <= length (record_of e))%nat.
Proof. intros He. by apply raw_length, payload_sum. Qed.

(** ** Where a record ends *)

Lemma be_value_nonneg l : Forall is_byte l -> 0 <= be_value l.
Proof.
  induction l as [|b l IH] using rev_ind; [done|]. intros [Hl [Hb _]%Forall_cons]%Forall_app.
  rewrite be_value_app. change (be_value [b]) with (0 * 256 + b). specialize (IH Hl).
  unfold is_byte in Hb. change (256 ^ Z.of_nat (length [b])) with 256. lia.
Qed.

Lemma u32_at_nonneg buf pos : Forall is_byte buf -> 0 <= u32_at buf pos.
Proof. intros Hb. apply be_value_nonneg. by apply Forall_take, Forall_drop. Qed.

Lemma find_record_end_app pre q :
  Forall is_byte q -> find_record_end (pre ++ q) (length pre) = (length pre + find_record_end q 0)%nat.
Proof.
  intros Hq. unfold find_record_end, len. rewrite length_app.
  replace ((pre ++ q) !! length pre) with (q !! 0%nat) by (rewrite lookup_app_r by lia; by rewrite Nat.sub_diag).
  rewrite (u32_at_app pre q 5). change (0 + 5)%nat with 5%nat.
  pose proof (u32_at_nonneg q 5 Hq) as Hk. generalize dependent (u32_at q 5). intros klen Hk.
  assert (forall a b, a = Z.of_nat (length pre) + b ->
    (Z.of_nat (length pre + length q) <? a) = (Z.of_nat (length q) <? b)) as Hcmp.
  { intros a b ->. destruct (Z.ltb_spec (Z.of_nat (length q)) b), (Z.ltb_spec (Z.of_nat (length pre + length q)) (Z.of_nat (length pre) + b)); lia. }
  rewrite (Hcmp _ 9) by lia. rewrite (Hcmp (_ + klen) (9 + klen)) by lia.
  rewrite (Hcmp (_ + klen + 4) (9 + klen + 4)) by lia.
  change (Z.of_nat 0 + 9) with 9. change (Z.of_nat 5 + 4) with 9.
  replace (Z.to_nat (Z.of_nat (length pre + 5) + 4 + klen)) with (length pre + Z.to_nat (9 + klen))%nat by lia.
  rewrite u32_at_app. pose proof (u32_at_nonneg q (Z.to_nat (9 + klen)) Hq) as Hv.
  generalize dependent (u32_at q (Z.to_nat (9 + klen))). intros vlen Hv.
  rewrite (Hcmp (_ + vlen) (9 + klen + 4 + vlen)) by lia.
  destruct (Nat.leb_spec (length pre + length q) (length pre)), (Nat.leb_spec (length q) 0); try lia.
  destruct (Z.ltb_spec (Z.of_nat (length q)) 9); [lia|]. destruct (Z.ltb_spec (Z.of_nat (length q)) (9 + klen)); [lia|].
  destruct (_ =? 1); [|lia]. destruct (Z.ltb_spec (Z.of_nat (length q)) (9 + klen + 4)); [lia|].
  destruct (Z.ltb_spec (Z.of_nat (length q)) (9 + klen + 4 + vlen)); lia.
Qed.

(** The next comparison of the goal. *)
Ltac ltb_case := match goal with |- context [Z.ltb ?a ?b] => destruct (Z.ltb_spec a b) end.

Lemma op_code_eqb op : (op_code op =? 1) = bool_decide (op = OpSet).
Proof. by destruct op. Qed.

(** A record, or the part of it that is there: where it ends, what the validator
    says and what it is parsed into. *)
Lemma record_end e c rest n :
  event_ok e -> is_u 32 c -> (0 < n <= length (raw_record e c ++ rest))%nat ->
  find_record_end (take n (raw_record e c ++ rest)) 0 = Nat.min n (length (raw_record e c)).
Proof.
  intros He Hc Hn. destruct (raw_fields e c He Hc) as [H0 _ _ Hk _ Hv]. pose proof (raw_length e c He Hc) as H9.
  unfold find_record_end, len. rewrite length_take_le by lia. change (0 + 5)%nat with 5%nat.
  destruct (Nat.leb_spec n 0); [lia|]. change (Z.of_nat 0 + 9) with 9.
  ltb_case; [lia|].
  rewrite lookup_take_lt, lookup_app_l, H0 by lia. cbn [default from_option id].
  rewrite u32_at_take, u32_at_app_l, Hk by lia. unfold len in *. rewrite op_code_eqb.
  ltb_case; [destruct (e.2); lia|].
  destruct He as [_ He]. destruct (e.1.1), (e.2) as [v|]; try done; case_bool_decide; try done; [|lia].
  destruct Hv as (Hv & _ & Hl). ltb_case; [lia|].
  replace (Z.to_nat (Z.of_nat 5 + 4 + Z.of_nat (length e.1.2))) with (9 + length e.1.2)%nat by lia.
  rewrite u32_at_take, u32_at_app_l, Hv by lia. ltb_case; lia.
Qed.

Lemma record_end_whole e c rest :
  event_ok e -> is_u 32 c -> find_record_end (raw_record e c ++ rest) 0 = length (raw_record e c).
Proof.
  intros He Hc. pose proof (raw_length e c He Hc) as H9.
  pose proof (record_end e c rest (length (raw_record e c ++ rest)) He Hc) as H. rewrite firstn_all, length_app in H.
  rewrite H by lia. lia.
Qed.

Lemma record_cut e c n :
  event_ok e -> is_u 32 c -> (n < length (raw_record e c))%nat ->
  validate_record_internal (take n (raw_record e c)) = Truncated.
Proof.
  intros He Hc Hn. destruct (raw_fields e c He Hc) as [H0 _ _ Hk _ Hv].
  unfold validate_record_internal, len. rewrite length_take_le by lia.
  ltb_case; [done|]. rewrite lookup_take_lt, H0 by lia. cbn [default from_option id].
  assert (negb (op_code e.1.1 =? 1) && negb (op_code e.1.1 =? 2) = false) as -> by (by destruct (e.1.1)).
  assert (forall i, u32_at (drop 5 (take n (raw_record e c))) i = u32_at (take n (raw_record e c)) (5 + i)) as Hd
    by (intros; unfold u32_at; by rewrite drop_drop).
  rewrite length_drop, length_take_le by lia. ltb_case; [done|].
  rewrite Hd, Nat.add_0_r, u32_at_take, Hk by lia. unfold len in *. rewrite op_code_eqb.
  ltb_case; [done|].
  destruct He as [_ He]. destruct (e.1.1), (e.2) as [v|]; try done; case_bool_decide; try done; [|lia].
  destruct Hv as (Hv & _ & Hl). ltb_case; [done|].
  replace (Z.to_nat (4 + Z.of_nat (length e.1.2))) with (4 + length e.1.2)%nat by lia.
  rewrite Hd, u32_at_take by lia. change (5 + (4 + length e.1.2))%nat with (9 + length e.1.2)%nat.
  rewrite Hv. ltb_case; [done|lia].
Qed.

Lemma record_checked e c :
  event_ok e -> is_u 32 c ->
  validate_record_internal (raw_record e c) =
    if checksum (payload e) =? c then Valid else Corrupted c (checksum (payload e)).
Proof.
  intros He Hc. destruct (raw_fields e c He Hc) as [H0 Hs Hp Hk _ Hv]. pose proof (raw_length e c He Hc) as H9.
  unfold validate_record_internal, len. ltb_case; [lia|].
  rewrite H0. cbn [default from_option id].
  assert (negb (op_code e.1.1 =? 1) && negb (op_code e.1.1 =? 2) = false) as -> by (by destruct (e.1.1)).
  assert (forall i, u32_at (drop 5 (raw_record e c)) i = u32_at (raw_record e c) (5 + i)) as Hd
    by (intros; unfold u32_at; by rewrite drop_drop).
  rewrite !length_drop, Hd, Nat.add_0_r, Hk, Hs. rewrite (f_equal checksum Hp). unfold len in *. rewrite op_code_eqb.
  ltb_case; [lia|].
  ltb_case; [destruct (e.2); lia|].
  destruct He as [_ He]. destruct (e.1.1), (e.2) as [v|]; try done; case_bool_decide; try done; [|by destruct (_ =? c)].
  destruct Hv as (Hv & _ & Hl). ltb_case; [lia|].
  replace (Z.to_nat (4 + Z.of_nat (length e.1.2))) with (4 + length e.1.2)%nat by lia.
  rewrite Hd. change (5 + (4 + length e.1.2))%nat with (9 + length e.1.2)%nat.
  rewrite Hv. ltb_case; [lia|]. by destruct (_ =? c).
Qed.

Lemma record_valid e : event_ok e -> validate_record_internal (record_of e) = Valid.
Proof. intros He. unfold record_of. by rewrite record_checked, Z.eqb_refl by (done || by apply payload_sum). Qed.

Lemma record_parse e : event_ok e -> parse_valid_aof2_record (record_of e) = Ok e.
Proof.
  intros He. destruct (raw_fields e _ He (payload_sum e He)) as [H0 _ _ Hk Hkey Hv]. pose proof (record_length e He) as H9.
  change (raw_record e (checksum (payload e))) with (record_of e) in *.
  unfold parse_valid_aof2_record, read_u32, read_bytes, len. rewrite H0.
  assert (op_of (op_code e.1.1) = Ok e.1.1) as -> by (by destruct (e.1.1)). cbn [rbind].
  ltb_case; [lia|].
  ltb_case; [lia|]. cbn [rbind].
  rewrite Hk. unfold len in *. change (5 + 4)%nat with 9%nat. rewrite Nat2Z.id, Hkey.
  ltb_case; [destruct (e.2); lia|].
  cbn [rbind]. destruct He as [_ He]. destruct e as [[op k] v]. cbn [fst snd] in *.
  destruct op, v as [v|]; try done; case_decide; try done.
  destruct Hv as (Hv & Hval & Hl).
  ltb_case; [lia|].
  cbn [rbind]. rewrite Hv. unfold len. ltb_case; [lia|]. cbn [rbind].
  rewrite Nat2Z.id. replace (9 + length k + 4)%nat with (13 + length k)%nat by lia. by rewrite Hval.
Qed.

(** ** The replay of a log that was cut *)

(** The operations whose records lie within the first [n] bytes, and whether the
    cut falls between two records. *)
Fixpoint complete (n : nat) (es : list event) : list event :=
  match es with
  | [] => []
  | e :: es =>
      if (length (record_of e) <=? n)%nat then e :: complete (n - length (record_of e)) es else []
  end.

Fixpoint between (n : nat) (es : list event) : bool :=
  match es with
  | [] => true
  | e :: es =>
      if (length (record_of e) <=? n)%nat then between (n - length (record_of e)) es else (n =? 0)%nat
  end.

Lemma records_cons e es : records (e :: es) = record_of e ++ records es.
Proof. done. Qed.

Lemma record_bytes e : event_ok e -> Forall is_byte (record_of e).
Proof.
  intros He. unfold record_of, raw_record. apply Forall_cons. split; [by destruct (e.1.1)|].
  apply Forall_app. split; [apply write_be_bytes|by apply payload_bytes].
Qed.

Lemma records_bytes es : Forall event_ok es -> Forall is_byte (records es).
Proof.
  induction 1 as [|e es He _ IH]; [constructor|]. rewrite records_cons. apply Forall_app.
  split; [by apply record_bytes|done].
Qed.

Lemma record_at pre q : Forall is_byte q ->
  take (find_record_end (pre ++ q) (length pre) - length pre) (drop (length pre) (pre ++ q)) =
  take (find_record_end q 0) q.
Proof. intros Hq. rewrite find_record_end_app by done. rewrite drop_app_length. f_equal. lia. Qed.

Lemma replay_whole pre e rest n r :
  event_ok e -> Forall is_byte rest -> (length (record_of e) <= n <= length (record_of e ++ rest))%nat ->
  exists stats, replay_aof2_record (pre ++ take n (record_of e ++ rest)) (length pre) r =
    (Ok (length pre + length (record_of e))%nat, emit e (with_stats stats r)).
Proof.
  intros He Hrest Hn. pose proof (record_length e He) as H9.
  assert (Forall is_byte (take n (record_of e ++ rest))) as Hq
    by (apply Forall_take, Forall_app; split; [by apply record_bytes|done]).
  unfold replay_aof2_record. rewrite length_app, length_take_le by lia.
  destruct (Nat.leb_spec (length pre + n) (length pre)); [lia|].
  unfold record_of in *. rewrite record_at, record_end by (done || lia || by apply payload_sum). rewrite find_record_end_app, record_end by (done || lia || by apply payload_sum).
  rewrite Nat.min_r by lia. rewrite take_take, Nat.min_l, take_app_length by lia.
  change (raw_record e (checksum (payload e))) with (record_of e).
  unfold validate_record. rewrite record_valid, record_parse by done. by eexists.
Qed.

Lemma replay_partial pre e rest n r :
  event_ok e -> Forall is_byte rest -> (0 < n < length (record_of e))%nat ->
  exists stats, replay_aof2_record (pre ++ take n (record_of e ++ rest)) (length pre) r =
    (Err TruncatedRecord, with_stats stats r).
Proof.
  intros He Hrest Hn. assert (n <= length (record_of e ++ rest))%nat by (rewrite length_app; lia).
  assert (Forall is_byte (take n (record_of e ++ rest))) as Hq
    by (apply Forall_take, Forall_app; split; [by apply record_bytes|done]).
  unfold replay_aof2_record. rewrite length_app, length_take_le by lia.
  destruct (Nat.leb_spec (length pre + n) (length pre)); [lia|].
  unfold record_of in *. rewrite record_at, record_end by (done || lia || by apply payload_sum). rewrite Nat.min_l by lia.
  rewrite take_take, Nat.min_id, take_app_le by lia.
  unfold validate_record. rewrite record_cut by (done || lia || by apply payload_sum). by eexists.
Qed.

(** ** Every replay ends *)

Lemma next_record_after buf pos next :
  find_next_valid_record buf pos = Some next -> (pos < next < length buf)%nat.
Proof.
  unfold find_next_valid_record. intros H. apply head_Some_elem_of in H.
  apply list_elem_of_filter in H as [_ H]. apply elem_of_seq in H. lia.
Qed.

Lemma aof2_record_progress buf pos r pos' r' :
  (pos < length buf)%nat -> replay_aof2_record buf pos r = (Ok pos', r') ->
  (pos < pos')%nat /\ rp_events r `prefix_of` rp_events r'.
Proof.
  intros Hpos. unfold replay_aof2_record. destruct (Nat.leb_spec (length buf) pos); [lia|].
  unfold validate_record.
  destruct (validate_record_internal (take (find_record_end buf pos - pos) (drop pos buf))) eqn:Hv; try done.
  destruct (parse_valid_aof2_record _); [|done]. intros [= <- <-]. split.
  - unfold validate_record_internal, len in Hv. rewrite length_take in Hv.
    destruct (Z.ltb_spec (Z.of_nat (Nat.min (find_record_end buf pos - pos) (length (drop pos buf)))) 9); [done|lia].
  - simpl. by eexists.
Qed.

Lemma aof2_record_events buf pos r e r' :
  replay_aof2_record buf pos r = (Err e, r') -> rp_events r = rp_events r'.
Proof.
  unfold replay_aof2_record. destruct (_ <=? _)%nat; [done|]. unfold validate_record.
  destruct (validate_record_internal _); try (by intros [= _ <-]). by destruct (parse_valid_aof2_record _); intros [= _ <-].
Qed.

Lemma replay_aof2_total fuel policy buf pos r :
  (length buf <= fuel + pos)%nat ->
  exists res r', replay_aof2_loop (S fuel) policy buf pos r = Some (res, r') /\
    rp_events r `prefix_of` rp_events r' /\ (policy <> Strict -> res = Ok tt).
Proof.
  revert pos r. induction fuel as [|fuel IH]; intros pos r Hf; cbn [replay_aof2_loop].
  { destruct (Nat.leb_spec (length buf) pos); [|lia]. by exists (Ok tt), r. }
  destruct (Nat.leb_spec (length buf) pos); [by exists (Ok tt), r|].
  destruct (replay_aof2_record buf pos r) as [[pos'|e] r1] eqn:E.
  - destruct (aof2_record_progress _ _ _ _ _ ltac:(done) E) as [Hp Hev].
    destruct (IH pos' r1 ltac:(lia)) as (res & r' & Hl & Hev' & Hres). exists res, r'.
    split; [exact Hl|]. split; [by etrans|done].
  - apply aof2_record_events in E as ->. destruct policy; [by exists (Err e), r1|..];
      (destruct (find_next_valid_record buf pos) as [next|] eqn:En; [|by eexists (Ok tt), _]);
      apply next_record_after in En;
      (destruct (IH next (count_skipped (with_stats (skip_record (rp_stats r1)) r1)) ltac:(lia)) as (res & r' & H1 & H2));
      exists res, r'; (split; [exact H1|exact H2]).
Qed.

Lemma read_u32_after buf pos x p : read_u32 buf pos = Ok (x, p) -> p = (pos + 4)%nat.
Proof. unfold read_u32. by destruct (_ <? _); intros [= <- <-]. Qed.

Lemma read_bytes_after buf pos n e x p : read_bytes buf pos n e = Ok (x, p) -> (pos <= p)%nat.
Proof. unfold read_bytes. destruct (_ <? _); [done|]. intros [= <- <-]. lia. Qed.

Lemma aof1_record_progress buf pos res pos' :
  replay_aof1_record buf pos = (res, pos') -> (pos <= pos')%nat /\ (is_ok res = true -> pos < pos')%nat.
Proof.
  unfold replay_aof1_record. destruct (op_of _) as [op|]; [|by intros [= <- <-]].
  destruct (read_u32 _ _) as [[klen p1]|] eqn:E1; [|intros [= <- <-]; split; [lia|done]].
  apply read_u32_after in E1. destruct (read_bytes _ _ _ _) as [[key p2]|] eqn:E2; [|intros [= <- <-]; split; [lia|done]].
  apply read_bytes_after in E2. case_decide; [|intros [= <- <-]; lia].
  destruct (read_u32 buf p2) as [[vlen p3]|] eqn:E3; [|intros [= <- <-]; split; [lia|done]].
  apply read_u32_after in E3. destruct (read_bytes buf p3 _ _) as [[v p4]|] eqn:E4; [|intros [= <- <-]; split; [lia|done]].
  apply read_bytes_after in E4. intros [= <- <-]. lia.
Qed.

Lemma replay_aof1_total fuel policy buf pos r :
  (length buf <= fuel + pos)%nat ->
  exists res r', replay_aof1_loop (S fuel) policy buf pos r = Some (res, r') /\
    rp_events r `prefix_of` rp_events r' /\ (policy <> Strict -> res = Ok tt).
Proof.
  revert pos r. induction fuel as [|fuel IH]; intros pos r Hf; cbn [replay_aof1_loop].
  { destruct (Nat.leb_spec (length buf) pos); [|lia]. by exists (Ok tt), r. }
  destruct (Nat.leb_spec (length buf) pos); [by exists (Ok tt), r|].
  destruct (replay_aof1_record buf pos) as [[e|e] pos'] eqn:E; apply aof1_record_progress in E as [Hp Hok].
  - specialize (Hok eq_refl). destruct (IH pos' (emit e r) ltac:(lia)) as (res & r' & Hl & Hev' & Hres). exists res, r'.
    split; [exact Hl|]. split; [|done]. etrans; [|exact Hev']. by eexists.
  - destruct policy; [by exists (Err e), r|..];
      (destruct (find_next_valid_record buf pos') as [next|] eqn:En; [|by eexists (Ok tt), _]);
      apply next_record_after in En;
      (destruct (IH next (count_skipped r) ltac:(lia)) as (res & r' & H1 & H2));
      exists res, r'; (split; [exact H1|exact H2]).
Qed.


(** ** The replay of a log that was cut *)

Lemma replay_cut fuel policy pre es n r :
  Forall event_ok es -> (n <= length (records es))%nat -> (n < fuel)%nat ->
  exists res r', replay_aof2_loop fuel policy (pre ++ take n (records es)) (length pre) r = Some (res, r') /\
    rp_events r ++ complete n es `prefix_of` rp_events r' /\
    (policy = Strict \/ between n es = true ->
     res = (if between n es then Ok tt else Err TruncatedRecord) /\ rp_events r' = rp_events r ++ complete n es).
Proof.
  intros Hes. revert fuel pre n r. induction Hes as [|e es He Hes IH]; intros fuel pre n r Hn Hf.
  { destruct fuel; [lia|]. cbn [replay_aof2_loop]. change (records []) with (@nil Z). rewrite take_nil, app_nil_r, Nat.leb_refl.
    exists (Ok tt), r. cbn [between complete]. rewrite app_nil_r. by split. }
  destruct fuel as [|fuel]; [lia|]. cbn [replay_aof2_loop between complete] in *.
  rewrite records_cons in *. rewrite length_app, length_take_le by lia.
  pose proof (records_bytes es Hes) as Hb. pose proof (record_length e He) as H9.
  destruct (Nat.leb_spec (length (record_of e)) n) as [Hle|Hlt].
  - destruct (Nat.leb_spec (length pre + n) (length pre)); [lia|].
    destruct (replay_whole pre e (records es) n r He Hb ltac:(lia)) as [st ->].
    rewrite length_app in Hn.
    destruct (IH fuel (pre ++ record_of e) (n - length (record_of e))%nat (emit e (with_stats st r)))
      as (res & r' & Hl & Hev & Heq); [lia|lia|].
    rewrite length_app, <- app_assoc in Hl. cbn [rp_events emit with_stats] in Hev, Heq. rewrite <- app_assoc in Hev, Heq.
    replace (take n (record_of e ++ records es)) with (record_of e ++ take (n - length (record_of e)) (records es))
      by (rewrite take_app; by rewrite (take_ge (record_of e)) by lia).
    exists res, r'. by split.
  - destruct (Nat.eqb_spec n 0) as [->|Hne].
    { rewrite Nat.add_0_r, Nat.leb_refl. exists (Ok tt), r. rewrite app_nil_r. by split. }
    destruct (Nat.leb_spec (length pre + n) (length pre)); [lia|].
    destruct (replay_partial pre e (records es) n r He Hb ltac:(lia)) as [st ->]. rewrite app_nil_r.
    destruct policy; [by eexists _, _|..];
      (destruct (find_next_valid_record _ _) as [next|] eqn:En; [|eexists _, _; split; [done|]; split; [done|]; by intros []]);
      apply next_record_after in En; rewrite length_app, length_take_le in En by lia; destruct fuel as [|fuel]; [lia| |lia|];
      (match goal with |- context [replay_aof2_loop (S fuel) ?p ?b next ?r0] =>
         destruct (replay_aof2_total fuel p b next r0) as (res & r' & H1 & H2 & _);
         [rewrite length_app, length_take_le by lia; lia|] end);
      exists res, r'; (split; [exact H1|]); (split; [exact H2|]); by intros [].
Qed.

Lemma replay_file_cut policy es n r :
  Forall event_ok es -> (n <= length (records es))%nat ->
  exists res r', replay_file policy (MAGIC ++ take n (records es)) r = Some (res, r') /\
    rp_events r ++ complete n es `prefix_of` rp_events r' /\
    (policy = Strict \/ between n es = true ->
     res = (if between n es then Ok tt else Err TruncatedRecord) /\ rp_events r' = rp_events r ++ complete n es).
Proof.
  intros Hes Hn. unfold replay_file. rewrite length_app. destruct (Nat.ltb_spec (length MAGIC + length (take n (records es))) 4) as [H4|H4].
  { simpl in H4. lia. }
  rewrite (take_app_length' MAGIC), (drop_app_length' MAGIC) by done. rewrite bool_decide_false, bool_decide_true by done.
  apply (replay_cut _ policy [] es n r Hes Hn). rewrite length_take_le by lia. lia.
Qed.

Lemma complete_all es : complete (length (records es)) es = es /\ between (length (records es)) es = true.
Proof.
  induction es as [|e es [IH1 IH2]]; [done|]. cbn [complete between]. rewrite records_cons, length_app.
  rewrite (proj2 (Nat.leb_le _ _)) by lia.
  replace (length (record_of e) + length (records es) - length (record_of e))%nat with (length (records es)) by lia.
  by rewrite IH1.
Qed.

Lemma complete_prefix n es1 es2 :
  (length (records es1) <= n)%nat -> complete n (es1 ++ es2) = es1 ++ complete (n - length (records es1)) es2.
Proof.
  revert n. induction es1 as [|e es1 IH]; intros n Hn; [by rewrite Nat.sub_0_r|].
  rewrite records_cons, length_app in *. cbn [app complete]. rewrite (proj2 (Nat.leb_le _ _)) by lia.
  rewrite IH by lia. do 3 f_equal. lia.
Qed.

Lemma complete_take n es : exists k, complete n es = take k es.
Proof.
  revert n. induction es as [|e es IH]; intros n; [by exists 0%nat|]. cbn [complete].
  destruct (_ <=? _)%nat; [|by exists 0%nat]. destruct (IH (n - length (record_of e))%nat) as [k ->]. by exists (S k).
Qed.

Lemma complete_length n es : complete n es = take (length (complete n es)) es.
Proof. destruct (complete_take n es) as [k ->]. rewrite length_take. by rewrite <- take_take, firstn_all. Qed.

(** ** Appending *)

(** The bytes of the file and of the buffer are the records in order; with
    [Always] the buffer holds records of the pending operations only. *)
Record Logged (l : AofLog) (es : list event) : Prop := {
  lg_bytes : disk l ++ wbuf l = MAGIC ++ records es;
  lg_magic : (4 <= length (disk l))%nat;
  lg_batch : (batch_size l <= INITIAL_BATCH)%nat;
  lg_pending : policy l = Always -> (pending_ops l < INITIAL_BATCH)%nat /\
    exists es1 es2, es = es1 ++ es2 /\ length es2 = pending_ops l /\ (length (wbuf l) <= length (records es2))%nat;
}.

Lemma write_all_bytes data l :
  disk (write_all data l) ++ wbuf (write_all data l) = (disk l ++ wbuf l) ++ data /\
  (length (disk l) <= length (disk (write_all data l)))%nat /\
  (length (wbuf (write_all data l)) <= length (wbuf l) + length data)%nat.
Proof.
  assert (0 < BUF_CAPACITY)%nat as Hcap by (by apply Nat.ltb_lt).
  unfold write_all. destruct (Nat.ltb_spec (length data) (BUF_CAPACITY - length (wbuf l))) as [|Hge].
  { cbn. rewrite app_assoc, length_app. split; [done|]. split; [done|lia]. }
  destruct (Nat.ltb_spec (BUF_CAPACITY - length (wbuf l)) (length data)) as [Hgt|Hle].
  - destruct (_ <=? _)%nat; cbn; rewrite ?app_nil_r, ?length_app; (split; [done|lia]).
  - destruct (Nat.leb_spec BUF_CAPACITY (length data)) as [Hc|]; cbn.
    + assert (wbuf l = []) as -> by (apply nil_length_inv; lia). rewrite !app_nil_r, length_app. split; [done|simpl; lia].
    + rewrite app_assoc, length_app. split; [done|lia].
Qed.

Lemma write_all_same data l :
  policy (write_all data l) = policy l /\ pending_ops (write_all data l) = pending_ops l /\
  batch_size (write_all data l) = batch_size l.
Proof. unfold write_all. by repeat (destruct (_ <? _)%nat || destruct (_ <=? _)%nat). Qed.


(** The log after the three writes of a record. *)
Definition written (e : event) (l : AofLog) : AofLog :=
  write_record e.1.1 (payload_of e.1.1 e.1.2 e.2) (count_op e.1.1 l).

Lemma written_spec e l :
  disk (written e l) ++ wbuf (written e l) = (disk l ++ wbuf l) ++ record_of e /\
  (length (disk l) <= length (disk (written e l)))%nat /\
  (length (wbuf (written e l)) <= length (wbuf l) + length (record_of e))%nat /\
  policy (written e l) = policy l /\ pending_ops (written e l) = pending_ops l /\
  batch_size (written e l) = batch_size l.
Proof.
  unfold written, write_record. cbv zeta. fold (payload e). set (p := payload e). set (l0 := count_op e.1.1 l).
  set (l1 := write_all [op_code e.1.1] l0). set (l2 := write_all (write_be 4 (checksum p)) l1).
  destruct (write_all_bytes [op_code e.1.1] l0) as (B1 & D1 & W1), (write_all_same [op_code e.1.1] l0) as (P1 & Q1 & R1).
  destruct (write_all_bytes (write_be 4 (checksum p)) l1) as (B2 & D2 & W2), (write_all_same (write_be 4 (checksum p)) l1) as (P2 & Q2 & R2).
  destruct (write_all_bytes p l2) as (B3 & D3 & W3), (write_all_same p l2) as (P3 & Q3 & R3).
  fold l1 in B1, D1, W1, P1, Q1, R1. fold l2 in B2, D2, W2, P2, Q2, R2.
  assert (record_of e = [op_code e.1.1] ++ write_be 4 (checksum p) ++ p) as Hr by done.
  rewrite B3, B2, B1, Hr, !length_app. change (disk l0) with (disk l) in *. change (wbuf l0) with (wbuf l) in *.
  split; [by rewrite <- !app_assoc|]. rewrite P3, P2, P1, Q3, Q2, Q1, R3, R2, R1. split_and!; try done; lia.
Qed.

Lemma adjust_keeps later l :
  disk (adjust_batch_size later l) = disk l /\ wbuf (adjust_batch_size later l) = wbuf l /\
  policy (adjust_batch_size later l) = policy l /\ pending_ops (adjust_batch_size later l) = pending_ops l /\
  (batch_size (adjust_batch_size later l) <= batch_size l)%nat.
Proof.
  unfold adjust_batch_size. destruct (5 <? _); cbn [andb]; [|done]. destruct (Nat.ltb_spec 4 (batch_size l)); [|done].
  cbn. split_and!; try done. pose proof (Nat.Div0.div_le_upper_bound (batch_size l) 2 (batch_size l)). lia.
Qed.

(** After the writes the buffer may be flushed. *)
Lemma after_append_spec now later l :
  let l' := after_append now later l in
  disk l' ++ wbuf l' = disk l ++ wbuf l /\ (length (disk l) <= length (disk l'))%nat /\
  policy l' = policy l /\ (batch_size l' <= batch_size l)%nat /\
  (policy l = Always ->
   (pending_ops l' = pending_ops l + 1 /\ wbuf l' = wbuf l /\ pending_ops l + 1 < batch_size l)%nat \/
   pending_ops l' = 0%nat /\ wbuf l' = []).
Proof.
  unfold after_append, maybe_flush. cbn [set_activity policy]. destruct (policy l) eqn:Hp; [|by cbn; rewrite Hp..].
  cbn [set_activity set_batch pending_ops batch_size flush_count].
  destruct (Nat.leb_spec (batch_size l) (pending_ops l + 1));
    match goal with |- context [adjust_batch_size later ?x] => destruct (adjust_keeps later x) as (-> & -> & -> & -> & A) end;
    cbn in *; rewrite ?app_nil_r, ?length_app, ?Hp; (split_and!; [done|lia|done|exact A|]); intros _; [by right|left; by split_and!].
Qed.

Lemma records_snoc es e : records (es ++ [e]) = records es ++ record_of e.
Proof. unfold records. rewrite fmap_app, concat_app. cbn [fmap list_fmap concat]. by rewrite app_nil_r. Qed.

Lemma append_logged e now later l es :
  Logged l es -> Logged (append_event e now later l) (es ++ [e]).
Proof.
  intros [Hb Hm Hbs Hp]. unfold append_event, append. fold (written e l).
  destruct (written_spec e l) as (B & D & W & P & Q & R).
  destruct (after_append_spec now later (written e l)) as (B' & D' & P' & R' & A). cbv zeta in *.
  constructor; [by rewrite B', B, Hb, records_snoc, app_assoc|lia|lia|].
  rewrite P', P. intros Hpol. destruct (Hp Hpol) as (Hlt & es1 & es2 & -> & Hl2 & Hw).
  rewrite P in A. destruct (A Hpol) as [(E1 & E2 & E3)|[E1 E2]]; rewrite E1, E2.
  - split; [lia|]. exists es1, (es2 ++ [e]). rewrite app_assoc, records_snoc, !length_app.
    split; [done|]. change (length [e]) with 1%nat. lia.
  - split; [unfold INITIAL_BATCH; lia|]. exists ((es1 ++ es2) ++ [e]), []. rewrite app_nil_r. by split_and!.
Qed.

(** A run of appends with the clock at each. *)
Definition append_all (es : list (event * Z * Z)) (l : AofLog) : AofLog :=
  foldl (fun l x => append_event x.1.1 x.1.2 x.2 l) l es.

Lemma foldl_cons {A B} (f : A -> B -> A) a x l : foldl f a (x :: l) = foldl f (f a x) l.
Proof. reflexivity. Qed.

Lemma append_all_cons x es l :
  append_all (x :: es) l = append_all es (append_event x.1.1 x.1.2 x.2 l).
Proof. exact (foldl_cons (fun l x => append_event x.1.1 x.1.2 x.2 l) l x es). Qed.

Lemma append_all_logged es l done_ :
  Logged l done_ -> Logged (append_all es l) (done_ ++ ((fun x => x.1.1) <$> es)).
Proof.
  revert l done_. induction es as [|x es IH]; intros l done_ Hl; [by rewrite app_nil_r|].
  rewrite append_all_cons, fmap_cons, cons_middle, app_assoc. apply IH. exact (append_logged x.1.1 x.1.2 x.2 l done_ Hl).
Qed.

Lemma append_event_policy e now later l : policy (append_event e now later l) = policy l.
Proof.
  unfold append_event, append. fold (written e l). destruct (written_spec e l) as (_ & _ & _ & P & _).
  destruct (after_append_spec now later (written e l)) as (_ & _ & E & _). exact (eq_trans E P).
Qed.

Lemma append_all_policy es l : policy (append_all es l) = policy l.
Proof.
  revert l. induction es as [|x es IH]; intros l; [done|]. rewrite append_all_cons, IH. apply append_event_policy.
Qed.

Lemma open_logged pol corr now : exists l, open [] pol corr now = Ok l /\ Logged l [] /\ policy l = pol.
Proof.
  exists (mkLog MAGIC [] pol corr no_stats 0 INITIAL_BATCH now 0 0 0 0 0). split; [reflexivity|].
  split; [|reflexivity]. constructor; cbn [disk wbuf batch_size pending_ops policy]; [done|simpl; lia|done|].
  intros _. split; [unfold INITIAL_BATCH; lia|]. exists [], []. split_and!; simpl; lia || done.
Qed.

Lemma open_magic file pol corr now :
  exists l, open (MAGIC ++ file) pol corr now = Ok l /\ disk l = MAGIC ++ file /\ corruption_policy l = corr.
Proof. eexists. by split. Qed.

Lemma logged_parts l es : Logged l es -> disk l = MAGIC ++ take (length (disk l) - 4) (records es) /\
  (length (disk l) - 4 = length (records es) - length (wbuf l))%nat.
Proof.
  intros [Hb Hm _ _]. pose proof (f_equal length Hb) as Hl. rewrite !length_app in Hl. change (length MAGIC) with 4%nat in Hl.
  split; [|lia]. rewrite <- (take_app_length (disk l) (wbuf l)) at 1. rewrite Hb, take_app.
  change (length MAGIC) with 4%nat. by rewrite (take_ge MAGIC) by (change (length MAGIC) with 4%nat; lia).
Qed.

(** C7. What is appended to a new log is there after a restart: when the log was
    closed, a replay under any policy of corruption gives exactly the operations,
    in order; after a crash, which loses the buffer of the writer and may cut a
    record, a strict replay gives the first of them, and with the policy [Always]
    fewer than 32 of the last ones are lost. *)
Theorem aof_recovers (es : list (event * Z * Z)) (pol : SyncPolicy) (corr corr' : CorruptionPolicy) (t t' : Z) :
  Forall event_ok ((fun x => x.1.1) <$> es) ->
  exists l0, open [] pol corr t = Ok l0 /\
  (exists l1 l2, open (close (append_all es l0)) pol corr' t' = Ok l1 /\
     replay l1 = Some (Ok tt, (fun x => x.1.1) <$> es, l2)) /\
  (exists l1 l2 res k, open (crash (append_all es l0)) pol Strict t' = Ok l1 /\
     replay l1 = Some (res, take k ((fun x => x.1.1) <$> es), l2) /\
     (res = Ok tt \/ res = Err TruncatedRecord) /\
     (pol = Always -> (length es - k < 32)%nat)).
Proof.
  intros Hok. destruct (open_logged pol corr t) as (l0 & -> & Hl0 & Hpol). exists l0. split; [done|].
  pose proof (append_all_logged es l0 [] Hl0) as Hl. cbn [app] in Hl. set (evs := _ <$> es) in *.
  destruct (append_all_logged es l0 [] Hl0) as [Hb Hm _ Hp]. cbn [app] in Hb, Hp. fold evs in Hb, Hp. split.
  - unfold close. cbn [flush disk set_file]. rewrite Hb.
    destruct (open_magic (records evs) pol corr' t') as (l1 & -> & Hd & Hc). exists l1.
    unfold replay. rewrite Hd, Hc.
    destruct (replay_file_cut corr' evs (length (records evs)) (mkReplay [] (stats l1) (replay_skipped l1)) Hok ltac:(lia))
      as (res & r' & Hr & _ & Heq). destruct (complete_all evs) as [Hca Hbt].
    destruct Heq as [-> Hev]; [by right|]. rewrite firstn_all in Hr. rewrite Hr, Hev, Hca, Hbt. by eexists.
  - unfold crash. destruct (logged_parts _ _ Hl) as [Hd Hlen].
    set (n := (length (disk (append_all es l0)) - 4)%nat) in *. rewrite Hd.
    destruct (open_magic (take n (records evs)) pol Strict t') as (l1 & -> & Hd1 & Hc). exists l1.
    unfold replay. rewrite Hd1, Hc.
    destruct (replay_file_cut Strict evs n (mkReplay [] (stats l1) (replay_skipped l1)) Hok ltac:(lia)) as (res & r' & Hr & _ & Heq).
    destruct Heq as [-> Hev]; [by left|]. rewrite Hr, Hev. cbn [rp_events app].
    eexists _, _, (length (complete n evs)). split; [done|]. split.
    + do 4 f_equal. apply complete_length.
    + split; [destruct (between n evs); auto|]. intros ->.
      destruct Hp as (Hlt & es1 & es2 & Hes & Hl2 & Hw); [by rewrite append_all_policy|].
      rewrite Hes, complete_prefix, length_app.
      * apply (f_equal length) in Hes. unfold evs in Hes. rewrite length_fmap, length_app in Hes.
        unfold INITIAL_BATCH in Hlt. lia.
      * rewrite Hlen. rewrite Hes in *. unfold records in *. rewrite fmap_app, concat_app, length_app. lia.
Qed.

Lemma aof_recovers_witness :
  let es := [((OpSet, [107], Some [118; 119]), 5, 5); ((OpDel, [107], None), 6, 6)] in
  close (append_all es (mkLog MAGIC [] Always Log no_stats 0 32 0 0 0 0 0 0)) = MAGIC ++ records ((fun x => x.1.1) <$> es) /\
  crash (append_all es (mkLog MAGIC [] Always Log no_stats 0 32 0 0 0 0 0 0)) = MAGIC /\
  exists l0, open [] Always Log 0 = Ok l0 /\
  (exists l1 l2, open (close (append_all es l0)) Always Skip 9 = Ok l1 /\
     replay l1 = Some (Ok tt, (fun x => x.1.1) <$> es, l2)) /\
  (exists l1 l2 res k, open (crash (append_all es l0)) Always Strict 9 = Ok l1 /\
     replay l1 = Some (res, take k ((fun x => x.1.1) <$> es), l2) /\
     (res = Ok tt \/ res = Err TruncatedRecord) /\
     (Always = Always -> (length es - k < 32)%nat)).
Proof.
  split; [by vm_compute|]. split; [by vm_compute|]. apply aof_recovers.
  repeat constructor; by vm_compute.
Defined.

(** ** A damaged record *)

Lemma replay_damaged pre e c rest r :
  event_ok e -> is_u 32 c -> c <> checksum (payload e) -> Forall is_byte rest ->
  exists stats, replay_aof2_record (pre ++ raw_record e c ++ rest) (length pre) r =
    (Err (ChecksumMismatch c (checksum (payload e))), with_stats stats r).
Proof.
  intros He Hc Hne Hrest. pose proof (raw_length e c He Hc) as H9.
  assert (Forall is_byte (raw_record e c ++ rest)) as Hq.
  { apply Forall_app. split; [|done]. apply Forall_cons. split; [by destruct (e.1.1)|].
    apply Forall_app. split; [apply write_be_bytes|by apply payload_bytes]. }
  unfold replay_aof2_record. rewrite !length_app. destruct (Nat.leb_spec (length pre + (length (raw_record e c) + length rest)) (length pre)); [lia|].
  rewrite record_at, record_end_whole, take_app_length by done.
  unfold validate_record. rewrite record_checked by done.
  destruct (Z.eqb_spec (checksum (payload e)) c); [by subst|]. by eexists.
Qed.

Lemma strict_prefix fuel pre es rest r :
  Forall event_ok es -> Forall is_byte rest -> (length (records es ++ rest) < fuel)%nat ->
  exists fuel' r', replay_aof2_loop fuel Strict (pre ++ records es ++ rest) (length pre) r =
      replay_aof2_loop fuel' Strict ((pre ++ records es) ++ rest) (length (pre ++ records es)) r' /\
    rp_events r' = rp_events r ++ es /\ (length rest < fuel')%nat.
Proof.
  intros Hes Hrest. revert fuel pre r. induction Hes as [|e es He Hes IH]; intros fuel pre r Hf.
  { change (records []) with (@nil Z). rewrite !app_nil_r. by exists fuel, r. }
  rewrite records_cons, <- (app_assoc (record_of e)) in *. rewrite length_app in Hf. pose proof (record_length e He) as H9.
  assert (Forall is_byte (records es ++ rest)) as Hb by (apply Forall_app; split; [by apply records_bytes|done]).
  destruct fuel as [|fuel]; [lia|]. cbn [replay_aof2_loop].
  destruct (Nat.leb_spec (length (pre ++ record_of e ++ records es ++ rest)) (length pre)) as [Hle|_];
    [rewrite !length_app in Hle; lia|].
  destruct (replay_whole pre e (records es ++ rest) (length (record_of e ++ records es ++ rest)) r He Hb) as [st Hr];
    [rewrite length_app; lia|]. rewrite firstn_all in Hr. rewrite Hr.
  destruct (IH fuel (pre ++ record_of e) (emit e (with_stats st r)) ltac:(lia)) as (fuel' & r' & Hl & Hev & Hf').
  rewrite length_app, <- !app_assoc in Hl. rewrite length_app, <- !app_assoc in *. exists fuel', r'.
  split; [exact Hl|]. split; [|done]. rewrite Hev. cbn [rp_events emit with_stats]. by rewrite <- app_assoc.
Qed.

(** A strict replay finds a record whose key or value was damaged within four
    neighbouring bytes: it gives the operations before that record and fails with
    the two checksums. *)
Theorem aof_finds_damage (es : list event) (e e' : event) (a m m' b rest : bytes) (r : Replay) :
  Forall event_ok es -> event_ok e -> event_ok e' -> e'.1.1 = e.1.1 -> Forall is_byte rest ->
  payload e = a ++ m ++ b -> payload e' = a ++ m' ++ b -> length m = length m' -> (length m <= 4)%nat -> m <> m' ->
  exists r', replay_file Strict (MAGIC ++ records es ++ raw_record e' (checksum (payload e)) ++ rest) r =
      Some (Err (ChecksumMismatch (checksum (payload e)) (checksum (payload e'))), r') /\
    rp_events r' = rp_events r ++ es.
Proof.
  intros Hes He He' Hop Hrest Hp Hp' Hlen Hle Hne. pose proof (payload_bytes e He) as Hb. pose proof (payload_bytes e' He') as Hb'.
  assert (checksum (payload e) <> checksum (payload e')) as Hsum.
  { rewrite Hp in *. rewrite Hp' in *. intros E. apply Hne.
    apply Forall_app in Hb' as [_ [Hm' _]%Forall_app]. by apply (checksum_burst a m m' b). }
  pose proof (payload_sum e He) as Hc. set (c := checksum (payload e)) in *. clearbody c.
  assert (Forall is_byte (raw_record e' c ++ rest)) as Hq.
  { apply Forall_app. split; [|done]. apply Forall_cons. split; [by destruct (e'.1.1)|].
    apply Forall_app. split; [apply write_be_bytes|done]. }
  unfold replay_file. rewrite length_app. destruct (Nat.ltb_spec (length MAGIC + length (records es ++ raw_record e' c ++ rest)) 4) as [H4|_];
    [simpl in H4; lia|].
  rewrite (take_app_length' MAGIC), (drop_app_length' MAGIC) by done. rewrite bool_decide_false, bool_decide_true by done.
  destruct (strict_prefix (S (length (records es ++ raw_record e' c ++ rest))) [] es (raw_record e' c ++ rest) r Hes Hq ltac:(lia))
    as (fuel & r1 & Hl & Hev & Hf). cbn [app length] in Hl. rewrite Hl.
  pose proof (raw_length e' c He' Hc) as H9. destruct fuel as [|fuel]; [lia|]. cbn [replay_aof2_loop].
  destruct (Nat.leb_spec (length (records es ++ raw_record e' c ++ rest)) (length (records es))) as [H'|_];
    [rewrite !length_app in H'; lia|].
  destruct (replay_damaged (records es) e' c rest r1 He' Hc Hsum Hrest) as [st ->]. eexists. split; [done|exact Hev].
Qed.

Lemma aof_finds_damage_witness :
  exists r', replay_file Strict (MAGIC ++ records [(OpDel, [7], None)] ++
        raw_record (OpSet, [1; 2], Some [9]) (checksum (payload (OpSet, [1; 2], Some [3]))) ++ [5]) (mkReplay [] no_stats 0) =
      Some (Err (ChecksumMismatch (checksum (payload (OpSet, [1; 2], Some [3])))
                                  (checksum (payload (OpSet, [1; 2], Some [9])))), r') /\
    rp_events r' = [] ++ [(OpDel, [7], None)].
Proof.
  apply (aof_finds_damage _ (OpSet, [1; 2], Some [3]) _ (write_be 4 2 ++ [1; 2] ++ write_be 4 1) [3] [9] [] [5]);
    [repeat constructor; by vm_compute|repeat constructor; by vm_compute|repeat constructor; by vm_compute
    |done|repeat constructor; by vm_compute|done|done|done|simpl; lia|done].
Defined.

(** ** What goes wrong *)

(** The bytes of a record as the value of another. *)
Definition inner : event := (OpSet, [120], Some [121]).
Definition outer : event := (OpSet, [107], Some (record_of inner ++ [0; 0])).

(** A replay that skips damage resumes at the first byte that looks like an
    operation: a log that was cut within a value that contains the bytes of a
    record replays that record, though it was never appended. *)
Theorem aof_replays_value :
  event_ok outer /\
  exists r, replay_file Log (MAGIC ++ take (length (record_of outer) - 1) (records [outer])) (mkReplay [] no_stats 0) =
    Some (Ok tt, r) /\ rp_events r = [inner].
Proof. split; [repeat constructor; by vm_compute|]. eexists. split; [vm_compute; reflexivity|done]. Qed.

(** *** The old format *)

(** The length of an operation in the first format. *)
Definition size1 (e : event) : nat :=
  (5 + length e.1.2 + match e.2 with Some v => 4 + length v | None => 0 end)%nat.
Definition sizes1 (es : list event) : nat := sum_list (size1 <$> es).

Lemma sizes1_cons e es : sizes1 (e :: es) = (size1 e + sizes1 es)%nat.
Proof. done. Qed.

Lemma sizes1_app l l' : sizes1 (l ++ l') = (sizes1 l + sizes1 l')%nat.
Proof. induction l as [|e l IH]; [done|]. cbn [app]. rewrite !sizes1_cons, IH. lia. Qed.

Lemma read_bytes_size buf pos n e x p :
  Forall is_byte buf -> 0 <= n -> (pos <= length buf)%nat -> read_bytes buf pos n e = Ok (x, p) ->
  p = (pos + length x)%nat /\ (p <= length buf)%nat.
Proof.
  unfold read_bytes, len. intros Hb Hn Hp. ltb_case; [done|]. intros [= <- <-].
  rewrite length_take, length_drop. lia.
Qed.

Lemma read_u32_size buf pos x p :
  Forall is_byte buf -> read_u32 buf pos = Ok (x, p) -> 0 <= x /\ p = (pos + 4)%nat /\ (p <= length buf)%nat.
Proof.
  unfold read_u32, len. intros Hb. ltb_case; [done|]. intros [= <- <-]. split; [by apply u32_at_nonneg|lia].
Qed.

Lemma aof1_record_size buf pos e pos' :
  Forall is_byte buf -> (pos < length buf)%nat -> replay_aof1_record buf pos = (Ok e, pos') ->
  pos' = (pos + size1 e)%nat /\ (pos' <= length buf)%nat.
Proof.
  intros Hb Hpos. unfold replay_aof1_record. destruct (op_of _) as [op|]; [|done].
  destruct (read_u32 _ _) as [[klen p1]|] eqn:E1; [|done]. apply read_u32_size in E1 as (Hk & -> & H1); [|done].
  destruct (read_bytes _ _ _ _) as [[key p2]|] eqn:E2; [|done]. apply read_bytes_size in E2 as [-> H2]; [|done..].
  unfold size1. case_decide; [|intros [= <- <-]; cbn [fst snd]; lia].
  destruct (read_u32 buf _) as [[vlen p3]|] eqn:E3; [|done]. apply read_u32_size in E3 as (Hv & -> & H3); [|done].
  destruct (read_bytes buf (_ + 4) _ _) as [[v p4]|] eqn:E4; [|done]. apply read_bytes_size in E4 as [-> H4]; [|done..].
  intros [= <- <-]. cbn [fst snd]. lia.
Qed.

Lemma aof1_strict_size fuel buf pos r r' :
  Forall is_byte buf -> (pos <= length buf)%nat -> replay_aof1_loop fuel Strict buf pos r = Some (Ok tt, r') ->
  exists es, rp_events r' = rp_events r ++ es /\ (pos + sizes1 es)%nat = length buf.
Proof.
  intros Hb. revert pos r. induction fuel as [|fuel IH]; intros pos r Hpos H; [done|]. cbn [replay_aof1_loop] in H.
  destruct (Nat.leb_spec (length buf) pos).
  { injection H as <-. exists []. rewrite app_nil_r. split; [done|]. unfold sizes1. simpl. lia. }
  destruct (replay_aof1_record buf pos) as [[e|e] pos'] eqn:E; [|done].
  apply aof1_record_size in E as [-> Hle]; [|done..]. apply IH in H as (es & Hev & Hs); [|done].
  exists (e :: es). rewrite Hev. cbn [rp_events emit]. rewrite <- app_assoc. split; [done|].
  rewrite sizes1_cons. lia.
Qed.

Lemma append_bytes e now later l : close (append_event e now later l) = close l ++ record_of e.
Proof.
  unfold close, append_event, append. fold (written e l). cbn [flush disk set_file].
  destruct (after_append_spec now later (written e l)) as (-> & _). by destruct (written_spec e l) as (-> & _).
Qed.

Lemma record_size1 e : event_ok e -> length (record_of e) = (size1 e + 4)%nat.
Proof.
  intros He. pose proof (fd_val _ _ _ (raw_fields e _ He (payload_sum e He))) as H.
  change (raw_record e (checksum (payload e))) with (record_of e) in H. unfold size1. destruct (e.2); lia.
Qed.

(** A log in the first format is opened and appended to in the second: a
    strict replay of it after one append never succeeds with the operations that
    were there and the new one. *)
Theorem aof1_append_lost (old : bytes) (es : list event) (e : event) (pol : SyncPolicy) (now later : Z) r0 :
  Forall is_byte old -> event_ok e ->
  replay_file Strict (AOF1 ++ old) (mkReplay [] no_stats 0) = Some (Ok tt, r0) -> rp_events r0 = es ->
  exists l, open (AOF1 ++ old) pol Strict now = Ok l /\
  forall r, replay_file Strict (close (append_event e now later l)) (mkReplay [] no_stats 0) = Some (Ok tt, r) ->
    rp_events r <> es ++ [e].
Proof.
  intros Hold He H0 Hes. eexists. split; [done|]. intros r Hr Hev. rewrite append_bytes in Hr.
  change (close _) with ((AOF1 ++ old) ++ []) in Hr. rewrite app_nil_r, <- app_assoc in Hr.
  assert (forall b x, Forall is_byte b -> replay_file Strict (AOF1 ++ b) (mkReplay [] no_stats 0) = Some (Ok tt, x) ->
    sizes1 (rp_events x) = length b) as Hsize.
  { intros b x Hb. unfold replay_file. rewrite length_app.
    destruct (Nat.ltb_spec (length AOF1 + length b) 4) as [H4|_]; [simpl in H4; lia|].
    rewrite (take_app_length' AOF1), (drop_app_length' AOF1), bool_decide_true by done. intros H.
    apply aof1_strict_size in H as (l & -> & H); [|done|lia]. exact H. }
  apply Hsize in H0; [|done]. apply Hsize in Hr; [|apply Forall_app; split; [done|by apply record_bytes]].
  rewrite Hev, sizes1_app, sizes1_cons in Hr. subst es. change (sizes1 []) with 0%nat in Hr.
  rewrite length_app, record_size1 in Hr by done. lia.
Qed.

Lemma aof1_append_lost_witness :
  exists l, open (AOF1 ++ [2; 0; 0; 0; 1; 107]) No Strict 3 = Ok l /\
  forall r, replay_file Strict (close (append_event (OpDel, [107], None) 3 3 l)) (mkReplay [] no_stats 0) = Some (Ok tt, r) ->
    rp_events r <> [(OpDel, [107], None)] ++ [(OpDel, [107], None)].
Proof.
  apply (aof1_append_lost [2; 0; 0; 0; 1; 107] _ _ No 3 3 (mkReplay [(OpDel, [107], None)] no_stats 0)).
  - repeat constructor; by vm_compute.
  - repeat constructor; by vm_compute.
  - by vm_compute.
  - done.
Defined.

(** The replay of any file ends, under any policy of corruption: each round
    of its loop moves on, also over damage, and unless the policy is strict a file
    with a header of either format is replayed without an error. *)
Theorem aof_replay_ends (pol : CorruptionPolicy) (file : bytes) (r : Replay) :
  exists res r', replay_file pol file r = Some (res, r') /\ rp_events r `prefix_of` rp_events r' /\
    (pol <> Strict -> take 4 file = MAGIC \/ take 4 file = AOF1 -> res = Ok tt).
Proof.
  unfold replay_file. destruct (Nat.ltb_spec (length file) 4) as [H4|H4].
  { eexists _, _. split; [done|]. split; [done|]. intros _ Hh. rewrite take_ge in Hh by lia.
    destruct Hh as [-> | ->]; simpl in H4; lia. }
  case_bool_decide as E1; [|case_bool_decide as E2].
  - destruct (replay_aof1_total (length (drop 4 file)) pol (drop 4 file) 0 r ltac:(lia)) as (res & r' & -> & Hp & Ho).
    exists res, r'. split; [done|]. split; [done|]. auto.
  - destruct (replay_aof2_total (length (drop 4 file)) pol (drop 4 file) 0 r ltac:(lia)) as (res & r' & -> & Hp & Ho).
    exists res, r'. split; [done|]. split; [done|]. auto.
  - eexists _, _. split; [done|]. split; [done|]. intros _ [|]; done.
Qed.
