(* ===== verification/Sharding.v ===== *)
(** * The sharded index

    Models [ShardedIndex] of [src/src/engine/sharding.rs]: the shards, each a map
    with its counters, the choice of the shard of a key, and the operations, with
    the counts of keys that [global_stats] adds up.  A shard is behind a lock, so
    an operation on one is a step.  [SipHasher] is open; the times spent waiting
    and the averages are left out. *)
From S2P Require Import Prelude Interfaces.
Local Open Scope Z_scope.

(** The [siphasher] crate with its two keys, on the bytes of a key. *)
Class Sip := {
  sip : Z * Z -> bytes -> Z;
  sip_u64 seed key : is_u 64 (sip seed key);
}.

Record ShardMetrics : Type := mkMetrics { key_count : Z; read_ops : Z; write_ops : Z }.

Definition record_read_op (m : ShardMetrics) : ShardMetrics :=
  mkMetrics (key_count m) (wrapu 64 (read_ops m + 1)) (write_ops m).
Definition record_write_op (m : ShardMetrics) : ShardMetrics :=
  mkMetrics (key_count m) (read_ops m) (wrapu 64 (write_ops m + 1)).
(** [fetch_add] and [fetch_sub] of the count of keys. *)
Definition add_key_count (n : Z) (m : ShardMetrics) : ShardMetrics :=
  mkMetrics (wrapu 64 (key_count m + n)) (read_ops m) (write_ops m).
Definition increment_key_count : ShardMetrics -> ShardMetrics := add_key_count 1.
Definition decrement_key_count : ShardMetrics -> ShardMetrics := add_key_count (-1).

Record Shard {V : Type} : Type := mkShard { sdata : gmap bytes V; metrics : option ShardMetrics }.
Arguments Shard : clear implicits.

Record ShardedIndex {V : Type} : Type := mkIndex { shards : list (Shard V); hasher_seed : Z * Z }.
Arguments ShardedIndex : clear implicits.

Section Index.
Context {V : Type} {siphash : Sip}.
Notation Shard := (Shard V).
Notation ShardedIndex := (ShardedIndex V).
Implicit Types (sh : Shard) (ix : ShardedIndex) (key : bytes).

Definition shard_new (enable_metrics : bool) : Shard :=
  mkShard _ ∅ (if enable_metrics then Some (mkMetrics 0 0 0) else None).

(** [Shard::read] and [Shard::write]: the closure and the count of operations;
    the closure gives the map and the change of the count of keys. *)
Definition shard_read {R} (f : gmap bytes V -> R) sh : R * Shard :=
  (f (sdata sh), mkShard _ (sdata sh) (record_read_op <$> metrics sh)).
Definition shard_write {R} (f : gmap bytes V -> R * gmap bytes V * Z) sh : R * Shard :=
  let '(r, data, delta) := f (sdata sh) in
  (r, mkShard _ data (record_write_op <$> (add_key_count delta <$> metrics sh))).

Definition new (num_shards : nat) (enable_metrics : bool) (seed : Z * Z) : ShardedIndex :=
  mkIndex _ (replicate num_shards (shard_new enable_metrics)) seed.

Definition is_power_of_two (n : Z) : bool := (0 <? n) && (Z.land n (n - 1) =? 0).

(** [None] is the division by zero of an index without shards. *)
Definition shard_for_key ix key : option nat :=
  let hash := sip (hasher_seed ix) key in
  let n := Z.of_nat (length (shards ix)) in
  if is_power_of_two n then Some (Z.to_nat (Z.land hash (n - 1)))
  else if n =? 0 then None
  else Some (Z.to_nat (hash mod n)).

(** An operation on the shard with a number; [None] is an index out of range. *)
Definition on_shard {R} (id : nat) (f : Shard -> R * Shard) ix : option (R * ShardedIndex) :=
  sh ← shards ix !! id;
  let '(r, sh) := f sh in
  Some (r, mkIndex _ (<[id := sh]> (shards ix)) (hasher_seed ix)).

(** ... and on the shard of a key. *)
Definition on_key {R} key (f : Shard -> R * Shard) ix : option (R * ShardedIndex) :=
  id ← shard_for_key ix key; on_shard id f ix.

(** The closures of the operations. *)
Definition put key (value : V) (data : gmap bytes V) : option V * gmap bytes V * Z :=
  let prev := data !! key in
  (prev, <[key := value]> data, if prev then 0 else 1).
Definition take_out key (data : gmap bytes V) : option V * gmap bytes V * Z :=
  let prev := data !! key in
  (prev, delete key data, if prev then -1 else 0).

Definition insert ix key (value : V) : option (option V * ShardedIndex) :=
  on_key key (shard_write (put key value)) ix.
Definition remove ix key : option (bool * ShardedIndex) :=
  '(prev, ix) ← on_key key (shard_write (take_out key)) ix;
  Some (bool_decide (is_Some prev), ix).
Definition get ix key : option (option V * ShardedIndex) :=
  on_key key (shard_read (fun data => data !! key)) ix.

(** [groups.entry(sid).or_default().push(x)] *)
Definition push_group {A} {order : HashOrder (nat * list A)} (sid : nat) (x : A) (groups : list (nat * list A))
  : list (nat * list A) :=
  (hm_insert sid (default [] (hm_get sid groups) ++ [x]) groups).2.

Fixpoint group_keys_by_shard {A} {order : HashOrder (nat * list A)} ix (key_of : A -> bytes) (items : list A)
    (groups : list (nat * list A)) : option (list (nat * list A)) :=
  match items with
  | [] => Some groups
  | x :: items =>
      sid ← shard_for_key ix (key_of x);
      group_keys_by_shard ix key_of items (push_group sid x groups)
  end.

(** The body of [mset] for a shard. *)
Definition put_all (kvs : list (bytes * V)) (data : gmap bytes V) : unit * gmap bytes V * Z :=
  foldl (fun acc kv => let '(_, data, delta) := put kv.1 kv.2 acc.1.2 in (tt, data, acc.2 + delta)) (tt, data, 0) kvs.

(** The shards in the order of their numbers. *)
Definition group_le {A} (a b : nat * list A) : Prop := (a.1 <= b.1)%nat.
#[export] Instance group_le_dec {A} : RelDecision (group_le (A := A)).
Proof. intros a b. unfold group_le. apply _. Defined.

Definition sorted_groups {A} (groups : list (nat * list A)) : list (nat * list A) := merge_sort group_le groups.

Fixpoint mset_groups (groups : list (nat * list (bytes * V))) ix : option ShardedIndex :=
  match groups with
  | [] => Some ix
  | (sid, kvs) :: groups =>
      '(_, ix) ← on_shard sid (shard_write (put_all kvs)) ix;
      mset_groups groups ix
  end.

Definition mset {order : HashOrder (nat * list (bytes * V))} ix (entries : list (bytes * V))
  : option ShardedIndex :=
  groups ← group_keys_by_shard ix fst entries [];
  mset_groups (sorted_groups groups) ix.

(** The values of a group go to the positions that its keys have. *)
Definition place {A} (results : list (option A)) (found : list (nat * option A)) : list (option A) :=
  foldl (fun results f => <[f.1 := f.2]> results) results found.

Fixpoint mget_groups (groups : list (nat * list (nat * bytes))) (results : list (option V)) ix
  : option (list (option V) * ShardedIndex) :=
  match groups with
  | [] => Some (results, ix)
  | (sid, items) :: groups =>
      '(found, ix) ← on_shard sid (shard_read (fun data => (fun it => (it.1, data !! it.2)) <$> items)) ix;
      mget_groups groups (place results found) ix
  end.

Definition mget {order : HashOrder (nat * list (nat * bytes))} ix (keys : list bytes)
  : option (list (option V) * ShardedIndex) :=
  groups ← group_keys_by_shard ix snd (zip (seq 0 (length keys)) keys) [];
  mget_groups (sorted_groups groups) (replicate (length keys) None) ix.

Definition collect_metrics ix : list ShardMetrics := omap metrics (shards ix).

Record GlobalShardStats : Type := mkGlobal {
  total_shards : nat; total_keys : Z; total_read_ops : Z; total_write_ops : Z;
  max_shard_keys : Z; min_shard_keys : Z;
}.

(** The sums are [u64]. *)
Definition sum_u64 (l : list Z) : Z := foldl (fun a x => wrapu 64 (a + x)) 0 l.
Definition max_of (l : list Z) : Z := foldr Z.max 0 l.
Definition min_of (l : list Z) : Z := match l with [] => 0 | x :: l => foldr Z.min x l end.

Definition global_stats ix : GlobalShardStats :=
  let snapshots := collect_metrics ix in
  mkGlobal (length (shards ix)) (sum_u64 (key_count <$> snapshots)) (sum_u64 (read_ops <$> snapshots))
    (sum_u64 (write_ops <$> snapshots)) (max_of (key_count <$> snapshots)) (min_of (key_count <$> snapshots)).

Definition num_shards ix : nat := length (shards ix).
End Index.
