(* ===== verification/ShardingLaws.v ===== *)
(** * The sharded index is one map

    Theorems about [Sharding]: the keys are partitioned by the hash of the seed, so
    that the shards together are one finite map, the operations on many keys are
    the operations on that map in spite of their grouping by shard, and the counts
    of keys add up to its size. *)
From S2P Require Import Prelude Interfaces Sharding.
Local Open Scope Z_scope.

Lemma land_le_r a b : 0 <= a -> 0 <= b -> 0 <= Z.land a b <= b.
Proof.
  intros Ha Hb. assert (Z.ldiff (Z.land a b) b = 0) as H0.
  { apply Z.bits_inj'. intros n Hn. rewrite Z.ldiff_spec, Z.land_spec, Z.bits_0. by destruct (Z.testbit a n), (Z.testbit b n). }
  pose proof (Z.sub_nocarry_ldiff b (Z.land a b) H0) as Hs.
  assert (0 <= Z.ldiff b (Z.land a b)) by (apply Z.ldiff_nonneg; by left).
  split; [apply Z.land_nonneg; by left|lia].
Qed.

Section Pairs.
Context {V : Type}.
Implicit Types (m : gmap bytes V) (kvs : list (bytes * V)).

(** What the insertion of pairs leaves at a key depends on the pairs at the key. *)
Lemma insert_pairs_filter (p : bytes -> bool) m m' kvs k :
  p k = true -> m !! k = m' !! k ->
  insert_pairs m (filter (fun kv => p kv.1) kvs) !! k = insert_pairs m' kvs !! k.
Proof.
  intros Hp. revert m m'. induction kvs as [|[k' v] kvs IH]; intros m m' Hm; [done|].
  rewrite filter_cons, (insert_pairs_cons m'). cbn [fst]. case_decide as Hk.
  - rewrite insert_pairs_cons. apply IH.
    destruct (decide (k' = k)) as [->|]; [by rewrite !lookup_insert_eq|by rewrite !lookup_insert_ne].
  - apply IH. rewrite lookup_insert_ne; [done|]. intros ->. by rewrite Hp in Hk.
Qed.

Lemma insert_pairs_ext m m' kvs k : m !! k = m' !! k -> insert_pairs m kvs !! k = insert_pairs m' kvs !! k.
Proof.
  revert m m'. induction kvs as [|[k' v] kvs IH]; intros m m' Hm; [done|]. rewrite !insert_pairs_cons. apply IH.
  destruct (decide (k' = k)) as [->|]; [by rewrite !lookup_insert_eq|by rewrite !lookup_insert_ne].
Qed.

Lemma insert_pairs_other m kvs k : k ∉ kvs.*1 -> insert_pairs m kvs !! k = m !! k.
Proof.
  revert m. induction kvs as [|[k' v] kvs IH]; intros m Hk; [done|]. cbn in Hk.
  rewrite insert_pairs_cons, IH by set_solver. rewrite lookup_insert_ne; set_solver.
Qed.
End Pairs.

Section Laws.
Context {V : Type} {siphash : Sip}.
Notation Shard := (Shard V).
Notation ShardedIndex := (ShardedIndex V).
Implicit Types (sh : Shard) (ix : ShardedIndex) (key : bytes) (m : gmap bytes V).

(** The shard of a key. *)
Definition home ix key : nat := default 0%nat (shard_for_key ix key).

Lemma shard_for_key_home ix key :
  shards ix <> [] -> shard_for_key ix key = Some (home ix key) /\ (home ix key < length (shards ix))%nat.
Proof.
  intros Hne. unfold home, shard_for_key. pose proof (sip_u64 (hasher_seed ix) key) as Hu.
  set (h := sip _ _) in *. unfold is_u in Hu.
  assert (0 < Z.of_nat (length (shards ix))) as Hn by (destruct (shards ix); [done|cbn [length]; lia]).
  destruct (is_power_of_two _); [|destruct (Z.eqb_spec (Z.of_nat (length (shards ix))) 0); [lia|]]; cbn [default from_option]; unfold id;
    (split; [done|]).
  - pose proof (land_le_r h (Z.of_nat (length (shards ix)) - 1) ltac:(lia) ltac:(lia)). lia.
  - pose proof (Z.mod_pos_bound h (Z.of_nat (length (shards ix))) Hn). lia.
Qed.

Lemma home_ext ix ix' key :
  hasher_seed ix' = hasher_seed ix -> length (shards ix') = length (shards ix) -> home ix' key = home ix key.
Proof. intros Hs Hl. unfold home, shard_for_key. by rewrite Hs, Hl. Qed.

Definition total (shs : list Shard) : nat := sum_list_with (fun sh => size (sdata sh)) shs.

Definition counted sh : Prop :=
  match metrics sh with Some ms => key_count ms = wrapu 64 (Z.of_nat (size (sdata sh))) | None => True end.

(** An index that holds a map. *)
Record Represents ix m : Prop := {
  rep_shards : shards ix <> [];
  rep_lookup i sh key : shards ix !! i = Some sh -> home ix key = i -> sdata sh !! key = m !! key;
  rep_home i sh key : shards ix !! i = Some sh -> is_Some (sdata sh !! key) -> home ix key = i;
  rep_size : total (shards ix) = size m;
  rep_counted : Forall counted (shards ix);
}.

(** Nothing but the content of the index has changed. *)
Definition same_shape ix ix' : Prop :=
  hasher_seed ix' = hasher_seed ix /\ length (shards ix') = length (shards ix) /\
  ((fun sh => bool_decide (is_Some (metrics sh))) <$> shards ix') = ((fun sh => bool_decide (is_Some (metrics sh))) <$> shards ix).

#[export] Instance same_shape_preorder : PreOrder same_shape.
Proof. unfold same_shape. split; [by intros ix|intros x y z (? & ? & ?) (? & ? & ?); split_and!; congruence]. Qed.

(** A change of one shard and of the map that it implies. *)
Record Step (at_home : bytes -> Prop) (data data' : gmap bytes V) (m m' : gmap bytes V) (delta : Z) : Prop := {
  st_in key : at_home key -> data !! key = m !! key -> data' !! key = m' !! key;
  st_out key : ~ at_home key -> m' !! key = m !! key;
  st_home : (forall key, is_Some (data !! key) -> at_home key) -> forall key, is_Some (data' !! key) -> at_home key;
  st_data : Z.of_nat (size data') = Z.of_nat (size data) + delta;
  st_map : Z.of_nat (size m') = Z.of_nat (size m) + delta;
}.

Lemma step_refl at_home data m : Step at_home data data m m 0.
Proof. constructor; auto; lia. Qed.

Lemma step_trans at_home d1 d2 d3 m1 m2 m3 a b :
  Step at_home d1 d2 m1 m2 a -> Step at_home d2 d3 m2 m3 b -> Step at_home d1 d3 m1 m3 (a + b).
Proof.
  intros [A1 A2 A3 A4 A5] [B1 B2 B3 B4 B5]. constructor; [eauto| |eauto|lia|lia].
  intros key Hk. by rewrite B2, A2.
Qed.

Lemma step_put (at_home : bytes -> Prop) key v data m :
  at_home key -> data !! key = m !! key ->
  let '(prev, data', delta) := put key v data in
  prev = m !! key /\ Step at_home data data' m (<[key := v]> m) delta.
Proof.
  intros Hk Hd. unfold put. cbv zeta. split; [done|]. constructor.
  - intros k Hh E. destruct (decide (key = k)) as [->|]; [by rewrite !lookup_insert_eq|by rewrite !lookup_insert_ne].
  - intros k Hh. rewrite lookup_insert_ne; [done|]. by intros ->.
  - intros Hall k [x Hx]. destruct (decide (key = k)) as [->|]; [done|]. apply Hall. rewrite lookup_insert_ne in Hx by done. by exists x.
  - rewrite map_size_insert. destruct (data !! key); unfold id; lia.
  - rewrite map_size_insert, Hd. destruct (m !! key); unfold id; lia.
Qed.

Lemma step_take_out (at_home : bytes -> Prop) key data m :
  at_home key -> data !! key = m !! key ->
  let '(prev, data', delta) := take_out key data in
  prev = m !! key /\ Step at_home data data' m (delete key m) delta.
Proof.
  intros Hk Hd. unfold take_out. cbv zeta. split; [done|]. constructor.
  - intros k Hh E. destruct (decide (key = k)) as [->|]; [by rewrite !lookup_delete_eq|by rewrite !lookup_delete_ne].
  - intros k Hh. rewrite lookup_delete_ne; [done|]. by intros ->.
  - intros Hall k [x Hx]. destruct (decide (key = k)) as [->|]; [done|]. apply Hall. rewrite lookup_delete_ne in Hx by done. by exists x.
  - rewrite map_size_delete. destruct (data !! key) eqn:E; [|unfold id; lia].
    pose proof (map_size_ne_0_lookup_2 data key) as Hz. rewrite E in Hz. specialize (Hz (mk_is_Some _ _ eq_refl)). lia.
  - rewrite map_size_delete, Hd. destruct (m !! key) eqn:E; [|unfold id; lia].
    pose proof (map_size_ne_0_lookup_2 m key) as Hz. rewrite E in Hz. specialize (Hz (mk_is_Some _ _ eq_refl)). lia.
Qed.

Lemma step_put_all (at_home : bytes -> Prop) kvs data m :
  Forall (fun kv => at_home kv.1) kvs -> (forall k, at_home k -> data !! k = m !! k) ->
  exists data' delta, put_all kvs data = (tt, data', delta) /\ Step at_home data data' m (insert_pairs m kvs) delta.
Proof.
  intros Hall Hd. unfold put_all.
  enough (forall d0 m0 z, Step at_home data d0 m m0 z -> exists data' delta,
    foldl (fun (acc : unit * gmap bytes V * Z) kv => let '(_, data, delta) := put kv.1 kv.2 acc.1.2 in (tt, data, acc.2 + delta)) (tt, d0, z) kvs
      = (tt, data', delta) /\ Step at_home data data' m (insert_pairs m0 kvs) delta) as H.
  { apply H, step_refl. }
  induction Hall as [|[k v] kvs Hk Hall IH]; intros d0 m0 z Hs; [by eexists _, _|].
  cbn [foldl fst snd]. rewrite insert_pairs_cons.
  pose proof (step_put at_home k v d0 m0 Hk (st_in _ _ _ _ _ _ Hs k Hk (Hd k Hk))) as Hp.
  destruct (put k v d0) as [[prev d1] delta]. apply IH. by eapply step_trans; [|apply Hp].
Qed.

Lemma total_insert i sh sh' (shs : list Shard) :
  shs !! i = Some sh -> (total (<[i := sh']> shs) + size (sdata sh) = total shs + size (sdata sh'))%nat.
Proof.
  unfold total. revert i. induction shs as [|a shs IH]; intros [|i]; try done; cbn [lookup list_lookup]; [intros [= ->]|intros H].
  - change (<[0%nat := sh']> (sh :: shs)) with (sh' :: shs). cbn [sum_list_with]. lia.
  - specialize (IH i H). change (<[Datatypes.S i := sh']> (a :: shs)) with (a :: <[i := sh']> shs). cbn [sum_list_with]. lia.
Qed.

Lemma key_count_add z n d : wrapu 64 (wrapu 64 z + d) = wrapu 64 n <-> wrapu 64 (z + d) = wrapu 64 n.
Proof. unfold wrapu. by rewrite Zplus_mod_idemp_l. Qed.

(** A step on a shard is a step of the index. *)
Lemma shard_step {R} ix m (i : nat) sh (f : Shard -> R * Shard) m' r sh' delta :
  Represents ix m -> shards ix !! i = Some sh -> f sh = (r, sh') ->
  (counted sh -> Z.of_nat (size (sdata sh')) = Z.of_nat (size (sdata sh)) + delta -> counted sh') ->
  (is_Some (metrics sh') <-> is_Some (metrics sh)) ->
  Step (fun k => home ix k = i) (sdata sh) (sdata sh') m m' delta ->
  exists ix', on_shard i f ix = Some (r, ix') /\ Represents ix' m' /\ same_shape ix ix'.
Proof.
  intros [R1 R2 R3 R4 R5] Hi Hf Hc Hm [S1 S2 S3 S4 S5]. unfold on_shard. rewrite Hi. cbn [mbind option_bind]. rewrite Hf.
  eexists. split; [done|].
  assert (length (<[i := sh']> (shards ix)) = length (shards ix)) as Hlen by apply length_insert.
  assert (i < length (shards ix))%nat as Hlt by (by eapply lookup_lt_Some).
  assert (forall k, home (mkIndex _ (<[i := sh']> (shards ix)) (hasher_seed ix)) k = home ix k) as Hh by (intros; by apply home_ext).
  split.
  - constructor; cbn [shards].
    + intros E. rewrite E in Hlen. by destruct (shards ix).
    + intros j x k Hj. rewrite Hh. intros Hk. destruct (decide (i = j)) as [<-|Hne].
      * rewrite list_lookup_insert_eq in Hj by done. injection Hj as <-. apply S1; [done|]. by eapply R2.
      * rewrite list_lookup_insert_ne in Hj by done. rewrite S2 by congruence. by eapply R2.
    + intros j x k Hj. rewrite Hh. destruct (decide (i = j)) as [<-|Hne].
      * rewrite list_lookup_insert_eq in Hj by done. injection Hj as <-. apply S3. intros ?. by eapply R3.
      * rewrite list_lookup_insert_ne in Hj by done. by eapply R3.
    + pose proof (total_insert i sh sh' (shards ix) Hi) as Ht. lia.
    + apply Forall_insert; [done|]. apply Hc; [|done]. by eapply Forall_lookup_1.
  - split_and!; [done|done|]. cbn [shards]. rewrite list_fmap_insert.
    apply list_insert_id. rewrite list_lookup_fmap, Hi. cbn. f_equal. by apply bool_decide_ext.
Qed.

Lemma write_step {R} ix m (i : nat) sh (f : gmap bytes V -> R * gmap bytes V * Z) m' (r : R) (data' : gmap bytes V) (delta : Z) :
  Represents ix m -> shards ix !! i = Some sh -> f (sdata sh) = (r, data', delta) ->
  Step (fun k => home ix k = i) (sdata sh) data' m m' delta ->
  exists ix', on_shard i (shard_write f) ix = Some (r, ix') /\ Represents ix' m' /\ same_shape ix ix'.
Proof.
  intros Hr Hi Hf Hs. apply (shard_step ix m i sh (shard_write f) m' r
    (mkShard _ data' (record_write_op <$> (add_key_count delta <$> metrics sh))) delta Hr Hi); [|..|exact Hs].
  - unfold shard_write. by rewrite Hf.
  - unfold counted. cbn [metrics sdata]. intros Hc ->. destruct (metrics sh) as [ms|]; [|done]. cbn. rewrite Hc. by apply key_count_add.
  - cbn [metrics]. by rewrite !fmap_is_Some.
Qed.

Lemma read_step {R} ix m (i : nat) sh (f : gmap bytes V -> R) :
  Represents ix m -> shards ix !! i = Some sh ->
  exists ix', on_shard i (shard_read f) ix = Some (f (sdata sh), ix') /\ Represents ix' m /\ same_shape ix ix'.
Proof.
  intros Hr Hi. apply (shard_step ix m i sh (shard_read f) m (f (sdata sh))
    (mkShard _ (sdata sh) (record_read_op <$> metrics sh)) 0 Hr Hi); [done|..|apply step_refl].
  - unfold counted. cbn [metrics sdata]. intros Hc _. by destruct (metrics sh).
  - cbn [metrics]. by rewrite !fmap_is_Some.
Qed.

(** The shard of a key, and what it holds. *)
Lemma home_shard ix m key : Represents ix m ->
  exists sh, shard_for_key ix key = Some (home ix key) /\ shards ix !! home ix key = Some sh /\ sdata sh !! key = m !! key.
Proof.
  intros Hr. destruct (shard_for_key_home ix key (rep_shards _ _ Hr)) as [E Hlt].
  destruct (lookup_lt_is_Some_2 _ _ Hlt) as [sh Hsh]. exists sh. split_and!; [done|done|by eapply rep_lookup].
Qed.

Lemma insert_rep ix m key v : Represents ix m ->
  exists ix', insert ix key v = Some (m !! key, ix') /\ Represents ix' (<[key := v]> m) /\ same_shape ix ix'.
Proof.
  intros Hr. destruct (home_shard ix m key Hr) as (sh & E & Hsh & Hk). unfold insert, on_key. rewrite E. cbn [mbind option_bind].
  pose proof (step_put (fun k => home ix k = home ix key) key v (sdata sh) m eq_refl Hk) as Hp.
  destruct (put key v (sdata sh)) as [[prev d] delta] eqn:Hput. destruct Hp as [<- Hs]. by eapply write_step.
Qed.

Lemma remove_rep ix m key : Represents ix m ->
  exists ix', remove ix key = Some (bool_decide (is_Some (m !! key)), ix') /\ Represents ix' (delete key m) /\ same_shape ix ix'.
Proof.
  intros Hr. destruct (home_shard ix m key Hr) as (sh & E & Hsh & Hk). unfold remove, on_key. rewrite E. cbn [mbind option_bind].
  pose proof (step_take_out (fun k => home ix k = home ix key) key (sdata sh) m eq_refl Hk) as Hp.
  destruct (take_out key (sdata sh)) as [[prev d] delta] eqn:Htake. destruct Hp as [<- Hs].
  destruct (write_step ix m (home ix key) sh (take_out key) _ _ _ _ Hr Hsh Htake Hs) as (ix' & -> & Hr' & Hsame). by exists ix'.
Qed.

Lemma get_rep ix m key : Represents ix m ->
  exists ix', get ix key = Some (m !! key, ix') /\ Represents ix' m /\ same_shape ix ix'.
Proof.
  intros Hr. destruct (home_shard ix m key Hr) as (sh & E & Hsh & Hk). unfold get, on_key. rewrite E. cbn [mbind option_bind].
  destruct (read_step ix m (home ix key) sh (fun d => d !! key) Hr Hsh) as (ix' & -> & Hr' & Hsame). exists ix'. by rewrite Hk.
Qed.

(** ** Grouping by shard *)

Lemma same_home ix ix' key : same_shape ix ix' -> home ix' key = home ix key.
Proof. intros (Hs & Hl & _). by apply home_ext. Qed.

Definition at_shard ix (s : nat) key : bool := bool_decide (home ix key = s).

Lemma group_spec {A} {order : HashOrder (nat * list A)} ix (key_of : A -> bytes) items groups gm :
  shards ix <> [] -> hm_repr groups gm -> (forall s, is_Some (gm !! s) -> (s < length (shards ix))%nat) ->
  exists groups' gm', group_keys_by_shard ix key_of items groups = Some groups' /\ hm_repr groups' gm' /\
    (forall s, is_Some (gm' !! s) -> (s < length (shards ix))%nat) /\
    forall s, default [] (gm' !! s) = default [] (gm !! s) ++ filter (fun x => at_shard ix s (key_of x)) items.
Proof.
  intros Hne. revert groups gm. induction items as [|x items IH]; intros groups gm Hg Hv; cbn [group_keys_by_shard].
  { exists groups, gm. split_and!; [done|done|done|]. intros s. by rewrite app_nil_r. }
  destruct (shard_for_key_home ix (key_of x) Hne) as [-> Hlt]. cbn [mbind option_bind]. unfold push_group.
  destruct (hm_insert_spec groups gm (home ix (key_of x)) (default [] (hm_get (home ix (key_of x)) groups) ++ [x]) Hg) as [_ Hg'].
  destruct (IH _ _ Hg') as (groups' & gm' & -> & Hr & Hv' & Hs).
  { intros s. destruct (decide (home ix (key_of x) = s)) as [<-|]; [done|]. rewrite lookup_insert_ne by done. apply Hv. }
  exists groups', gm'. split_and!; [done|done|done|].
  intros s. rewrite Hs, filter_cons. destruct (decide (home ix (key_of x) = s)) as [E|E].
  - rewrite decide_True by (by apply bool_decide_pack). rewrite <- E, lookup_insert_eq.
    rewrite (hm_repr_lookup _ _ _ Hg). cbn [from_option]. unfold id. by rewrite <- app_assoc.
  - rewrite decide_False by (unfold at_shard; intros Hb; by apply bool_decide_unpack in Hb). by rewrite lookup_insert_ne.
Qed.

(** What the groups hold, in whatever order they are taken. *)
Lemma sorted_groups_spec {A} {order : HashOrder (nat * list A)} ix (key_of : A -> bytes) items :
  shards ix <> [] ->
  exists groups, group_keys_by_shard ix key_of items [] = Some groups /\ NoDup (sorted_groups groups).*1 /\
    (forall s xs, (s, xs) ∈ sorted_groups groups -> (s < length (shards ix))%nat /\ xs = filter (fun x => at_shard ix s (key_of x)) items) /\
    (forall x, x ∈ items -> exists xs, (home ix (key_of x), xs) ∈ sorted_groups groups).
Proof.
  intros Hne. destruct (group_spec ix key_of items [] ∅ Hne hm_repr_nil) as (groups & gm & E & Hr & Hv & Hs).
  { intros s. rewrite lookup_empty. by intros []. }
  assert (sorted_groups groups ≡ₚ map_to_list gm) as Hp by (unfold sorted_groups; by rewrite merge_sort_Permutation).
  exists groups. split_and!; [done|rewrite Hp; apply NoDup_fst_map_to_list|..].
  - intros s xs Hin. rewrite Hp, elem_of_map_to_list in Hin. split; [apply Hv; by rewrite Hin|]. specialize (Hs s). rewrite Hin, lookup_empty in Hs. exact Hs.
  - intros x Hx. specialize (Hs (home ix (key_of x))). rewrite lookup_empty in Hs.
    destruct (gm !! home ix (key_of x)) as [xs|] eqn:Eg; [exists xs; by rewrite Hp, elem_of_map_to_list|].
    exfalso. apply (not_elem_of_nil x). change (x ∈ default [] (@None (list A))). rewrite Hs. cbn [from_option app].
    apply list_elem_of_filter. split; [by apply bool_decide_pack|done].
Qed.

Lemma mset_groups_rep groups ix m :
  Represents ix m ->
  Forall (fun g => (g.1 < length (shards ix))%nat /\ Forall (fun kv => home ix kv.1 = g.1) g.2) groups ->
  exists ix', mset_groups groups ix = Some ix' /\ same_shape ix ix' /\
    Represents ix' (foldl (fun m g => insert_pairs m g.2) m groups).
Proof.
  revert ix m. induction groups as [|[s kvs] groups IH]; intros ix m Hr Hall; [by exists ix|].
  apply Forall_cons in Hall as [[Hlt Hk] Hall]. cbn [fst snd] in *. cbn [mset_groups].
  destruct (lookup_lt_is_Some_2 _ _ Hlt) as [sh Hsh].
  destruct (step_put_all (fun k => home ix k = s) kvs (sdata sh) m Hk) as (d & z & Hput & Hstep); [by intros; eapply rep_lookup|].
  destruct (write_step ix m s sh (put_all kvs) _ _ _ _ Hr Hsh Hput Hstep) as (ix1 & -> & Hr1 & Hs1). cbn [mbind option_bind].
  destruct (IH ix1 _ Hr1) as (ix' & -> & Hs' & Hr').
  - eapply Forall_impl; [exact Hall|]. intros [s' kvs'] [H1 H2]. cbn [fst snd] in *. destruct Hs1 as (Hseed & Hlen & _).
    split; [by rewrite Hlen|]. eapply Forall_impl; [exact H2|]. intros kv <-. by apply home_ext.
  - exists ix'. split_and!; [done|by etrans|done].
Qed.

(** Groups with different shards do not meet. *)
Lemma groups_other (groups : list (nat * list (bytes * V))) m k (at_ : bytes -> nat) :
  Forall (fun g => Forall (fun kv => at_ kv.1 = g.1) g.2) groups -> at_ k ∉ groups.*1 ->
  foldl (fun m g => insert_pairs m g.2) m groups !! k = m !! k.
Proof.
  intros Hall. revert m. induction Hall as [|g groups Hg Hall IH]; intros m Hk; [done|]. cbn [foldl].
  rewrite fmap_cons, not_elem_of_cons in Hk. destruct Hk as [Hk Hk']. rewrite IH by done. apply insert_pairs_other.
  intros ([k' v] & -> & Hin)%list_elem_of_fmap. apply Hk. by apply (proj1 (Forall_forall _ _) Hg (k', v) Hin).
Qed.

Lemma groups_lookup (groups : list (nat * list (bytes * V))) m k (at_ : bytes -> nat) xs :
  NoDup groups.*1 -> Forall (fun g => Forall (fun kv => at_ kv.1 = g.1) g.2) groups -> (at_ k, xs) ∈ groups ->
  foldl (fun m g => insert_pairs m g.2) m groups !! k = insert_pairs m xs !! k.
Proof.
  intros Hnd Hall. revert m Hnd. induction Hall as [|g groups Hg Hall IH]; intros m Hnd Hk; [by apply not_elem_of_nil in Hk|].
  rewrite fmap_cons in Hnd. apply NoDup_cons in Hnd as [Hni Hnd]. cbn [foldl]. apply elem_of_cons in Hk as [<-|Hk].
  - by rewrite (groups_other groups _ k at_).
  - rewrite (IH _ Hnd Hk). apply insert_pairs_ext, insert_pairs_other.
    intros ([k' v] & -> & Hin)%list_elem_of_fmap. apply Hni. pose proof (proj1 (Forall_forall _ _) Hg (k', v) Hin) as E.
    cbn [fst] in *. rewrite <- E. by apply (list_elem_of_fmap_2 fst) in Hk.
Qed.

Lemma mset_rep {order : HashOrder (nat * list (bytes * V))} ix m entries : Represents ix m ->
  exists ix', mset ix entries = Some ix' /\ Represents ix' (insert_pairs m entries) /\ same_shape ix ix'.
Proof.
  intros Hr. destruct (sorted_groups_spec ix fst entries (rep_shards _ _ Hr)) as (groups & E & Hnd & Hfil & Hin).
  unfold mset. rewrite E. cbn [mbind option_bind].
  assert (Forall (fun g => Forall (fun kv => home ix kv.1 = g.1) g.2) (sorted_groups groups)) as Hall.
  { apply Forall_forall. intros [s xs] Hg. cbn [fst snd]. rewrite (proj2 (Hfil s xs Hg)). apply Forall_forall.
    intros kv [Hb _]%list_elem_of_filter. by apply bool_decide_unpack in Hb. }
  destruct (mset_groups_rep (sorted_groups groups) ix m Hr) as (ix' & -> & Hs & Hr').
  { apply Forall_forall. intros g Hg. split; [|by apply (proj1 (Forall_forall _ _) Hall)].
    destruct g as [s xs]. by apply (Hfil s xs). }
  exists ix'. split_and!; [done| |done].
  replace (insert_pairs m entries) with (foldl (fun m g => insert_pairs m g.2) m (sorted_groups groups)); [done|].
  apply map_eq. intros k. destruct (decide (home ix k ∈ (sorted_groups groups).*1)) as [Hk|Hk].
  - apply list_elem_of_fmap in Hk as ([s xs] & Es & Hg). cbn [fst] in Es. subst s.
    rewrite (groups_lookup _ m k (home ix) xs Hnd Hall Hg), (proj2 (Hfil _ _ Hg)).
    apply (insert_pairs_filter (at_shard ix (home ix k))); [by apply bool_decide_eq_true|done].
  - rewrite (groups_other _ m k (home ix) Hall Hk). symmetry. apply insert_pairs_other.
    intros ([k' v] & -> & Hx)%list_elem_of_fmap. destruct (Hin _ Hx) as [xs Hxs]. apply Hk. by apply (list_elem_of_fmap_2 fst) in Hxs.
Qed.

Lemma place_length {A} (results : list (option A)) found : length (place results found) = length results.
Proof. unfold place. revert results. induction found as [|f found IH]; intros; [done|]. cbn [foldl]. by rewrite IH, length_insert. Qed.

(** The positions that are filled hold the values of their keys. *)
Definition filled (keys : list bytes) m (results : list (option V)) (done_ : nat -> Prop) : Prop :=
  length results = length keys /\ forall i key, keys !! i = Some key -> done_ i -> results !! i = Some (m !! key).

Lemma place_filled keys m (items : list (nat * bytes)) results done_ :
  filled keys m results done_ -> Forall (fun it => keys !! it.1 = Some it.2) items ->
  filled keys m (place results ((fun it => (it.1, m !! it.2)) <$> items)) (fun i => i ∈ items.*1 \/ done_ i).
Proof.
  intros Hf Hall. revert results done_ Hf. induction Hall as [|[j k] items Hj Hall IH]; intros results done_ [Hl Hf].
  { split; [done|]. intros i key Hi [Hn|Hd]; [by apply not_elem_of_nil in Hn|by apply Hf]. }
  cbn [fst snd] in Hj. rewrite fmap_cons. unfold place. cbn [foldl fst snd].
  destruct (IH (<[j := m !! k]> results) (fun i => i = j \/ done_ i)) as [Hl' Hf'].
  - split; [by rewrite length_insert|]. intros i key Hi Hd. destruct (decide (j = i)) as [->|Hne].
    + rewrite list_lookup_insert_eq; [congruence|]. rewrite Hl. by eapply lookup_lt_Some.
    + rewrite list_lookup_insert_ne by done. apply Hf; [done|]. destruct Hd; congruence.
  - split; [exact Hl'|]. intros i key Hi Hd. apply (Hf' i key Hi). rewrite fmap_cons, elem_of_cons in Hd. cbn [fst] in Hd. tauto.
Qed.

Lemma mget_groups_rep keys groups ix m results done_ :
  Represents ix m -> filled keys m results done_ ->
  Forall (fun g => (g.1 < length (shards ix))%nat /\ Forall (fun it => home ix it.2 = g.1 /\ keys !! it.1 = Some it.2) g.2) groups ->
  exists results' ix', mget_groups groups results ix = Some (results', ix') /\ Represents ix' m /\ same_shape ix ix' /\
    filled keys m results' (fun i => (exists g, g ∈ groups /\ i ∈ g.2.*1) \/ done_ i).
Proof.
  revert ix results done_. induction groups as [|[s items] groups IH]; intros ix results done_ Hr Hf Hall.
  { exists results, ix. split_and!; [done|done|done|]. split; [apply Hf|]. intros i key Hi [(g & Hg & _)|Hd]; [by apply not_elem_of_nil in Hg|by apply Hf]. }
  apply Forall_cons in Hall as [[Hlt Hk] Hall]. cbn [fst snd] in *. cbn [mget_groups].
  destruct (lookup_lt_is_Some_2 _ _ Hlt) as [sh Hsh].
  destruct (read_step ix m s sh (fun data => (fun it => (it.1, data !! it.2)) <$> items) Hr Hsh) as (ix1 & -> & Hr1 & Hs1).
  cbn [mbind option_bind].
  assert (((fun it => (it.1, sdata sh !! it.2)) <$> items) = ((fun it => (it.1, m !! it.2)) <$> items)) as ->.
  { apply list_fmap_ext. intros j [i k] Hj. cbn [fst snd]. f_equal. apply (rep_lookup ix m Hr s sh k Hsh).
    exact (proj1 (proj1 (Forall_lookup _ _) Hk j (i, k) Hj)). }
  assert (Forall (fun it : nat * bytes => keys !! it.1 = Some it.2) items) as Hk' by (by eapply Forall_impl; [exact Hk|intros ? []]).
  destruct (IH ix1 _ _ Hr1 (place_filled keys m items results done_ Hf Hk')) as (results' & ix' & -> & Hr' & Hs' & Hl & Hf').
  - eapply Forall_impl; [exact Hall|]. intros [s' xs] [H1 H2]. cbn [fst snd] in *.
    split; [destruct Hs1 as (_ & Hlen & _); by rewrite Hlen|]. eapply Forall_impl; [exact H2|]. intros it [<- ?].
    split; [by apply same_home|done].
  - exists results', ix'. split_and!; [done|done|by etrans|]. split; [exact Hl|]. intros i key Hi Hd. apply (Hf' i key Hi).
    destruct Hd as [(g & Hg & Hin)|Hd]; [|tauto]. apply elem_of_cons in Hg as [->|Hg]; [right; by left|left; by exists g].
Qed.

Lemma mget_rep {order : HashOrder (nat * list (nat * bytes))} ix m keys : Represents ix m ->
  exists ix', mget ix keys = Some ((fun key => m !! key) <$> keys, ix') /\ Represents ix' m /\ same_shape ix ix'.
Proof.
  intros Hr. set (items := zip (seq 0 (length keys)) keys).
  assert (forall it, it ∈ items -> keys !! it.1 = Some it.2) as Hit.
  { intros it (j & Hj)%list_elem_of_lookup. unfold items in Hj. rewrite lookup_zip_with in Hj.
    destruct (seq 0 (length keys) !! j) as [n|] eqn:En; [|done]. cbn in Hj. destruct (keys !! j) as [k|] eqn:Ek; [|done].
    injection Hj as <-. apply lookup_seq in En as [-> _]. done. }
  destruct (sorted_groups_spec ix snd items (rep_shards _ _ Hr)) as (groups & E & Hnd & Hfil & Hin).
  unfold mget. fold items. rewrite E. cbn [mbind option_bind].
  destruct (mget_groups_rep keys (sorted_groups groups) ix m (replicate (length keys) None) (fun _ => False) Hr) as (res & ix' & -> & Hr' & Hs & Hl & Hf).
  - split; [apply length_replicate|done].
  - apply Forall_forall. intros [s xs] Hg. destruct (Hfil s xs Hg) as [Hlt ->]. split; [done|]. cbn [fst snd].
    apply Forall_forall. intros it [Hb Hi]%list_elem_of_filter. split; [by apply bool_decide_unpack in Hb|by apply Hit].
  - exists ix'. split_and!; [|done|done]. do 2 f_equal. apply list_eq_same_length with (n := length keys); [by rewrite length_fmap|done|].
    intros i x y Hi Hx Hy. destruct (lookup_lt_is_Some_2 keys i Hi) as [key Hk].
    assert ((i, key) ∈ items) as Hitem.
    { apply list_elem_of_lookup. exists i. unfold items. rewrite lookup_zip_with, lookup_seq_lt by done. cbn. by rewrite Hk. }
    rewrite (Hf i key Hk) in Hx.
    + rewrite list_lookup_fmap, Hk in Hy. cbn in Hy. congruence.
    + left. destruct (Hin _ Hitem) as [xs Hxs]. eexists. split; [exact Hxs|]. destruct (Hfil _ _ Hxs) as [_ ->]. cbn [snd].
      apply list_elem_of_fmap. exists (i, key). split; [done|]. apply list_elem_of_filter. split; [by apply bool_decide_pack|done].
Qed.

(** ** The counts of keys *)

Lemma new_rep n b seed : (0 < n)%nat -> Represents (new n b seed) ∅.
Proof.
  intros Hn. unfold new. assert (forall i sh, replicate n (shard_new (V := V) b) !! i = Some sh -> sh = shard_new b) as Hi.
  { intros i sh. rewrite lookup_replicate. tauto. }
  constructor; cbn [shards].
  - destruct n; [lia|done].
  - intros i sh key Hsh _. by rewrite (Hi i sh Hsh).
  - intros i sh key Hsh [x Hx]. rewrite (Hi i sh Hsh) in Hx. cbn [shard_new sdata] in Hx. by rewrite lookup_empty in Hx.
  - rewrite map_size_empty. clear. unfold total. induction n as [|n IH]; [done|]. cbn [replicate sum_list_with]. rewrite IH.
    cbn [shard_new sdata]. by rewrite map_size_empty.
  - apply Forall_forall. intros sh (i & Hsh)%list_elem_of_lookup. rewrite (Hi i sh Hsh). unfold counted, shard_new. by destruct b.
Qed.

Lemma sum_wrapu (l : list Z) a : foldl (fun a x => wrapu 64 (a + x)) (wrapu 64 a) l = wrapu 64 (a + foldr Z.add 0 l).
Proof.
  revert a. induction l as [|x l IH]; intros a; cbn [foldl foldr]; [f_equal; lia|].
  replace (wrapu 64 (wrapu 64 a + x)) with (wrapu 64 (a + x)); [rewrite IH; f_equal; lia|].
  unfold wrapu. by rewrite Zplus_mod_idemp_l.
Qed.

Definition metered ix : Prop := Forall (fun sh => is_Some (metrics sh)) (shards ix).

Lemma metered_same ix ix' : same_shape ix ix' -> metered ix -> metered ix'.
Proof.
  intros (_ & _ & E). unfold metered. revert E. generalize (shards ix') (shards ix). clear.
  intros l l'. revert l. induction l' as [|a l' IH]; intros [|b l] E H; try done.
  rewrite !fmap_cons in E. injection E as Eb E. apply Forall_cons in H as [Ha H].
  apply Forall_cons. split; [|by apply IH]. apply (bool_decide_eq_true (is_Some (metrics b))). rewrite Eb. by apply bool_decide_eq_true.
Qed.

Lemma total_keys_size ix m : Represents ix m -> metered ix -> total_keys (global_stats ix) = wrapu 64 (Z.of_nat (size m)).
Proof.
  intros [_ _ _ <- Hc] Hm. unfold global_stats, total_keys, collect_metrics, sum_u64, total, metered in *.
  change 0 with (wrapu 64 0). rewrite sum_wrapu. cbv zeta. rewrite Z.add_0_l.
  induction (shards ix) as [|sh shs IH]; [done|]. apply Forall_cons in Hc as [Hc Hcs], Hm as [[ms Hms] Hm].
  specialize (IH Hcs Hm). cbn [omap list_omap]. rewrite Hms. rewrite fmap_cons. cbn [foldr sum_list_with].
  unfold counted in Hc. rewrite Hms in Hc. rewrite Hc. unfold wrapu in *.
  rewrite Zplus_mod_idemp_l, Nat2Z.inj_add, <- Zplus_mod_idemp_r, IH, Zplus_mod_idemp_r. done.
Qed.
End Laws.

(** ** Runs of calls *)

Inductive index_call (V : Type) : Type :=
| CInsert (key : bytes) (value : V) | CRemove (key : bytes) | CGet (key : bytes)
| CMSet (entries : list (bytes * V)) | CMGet (keys : list bytes).
Arguments CInsert {V}. Arguments CRemove {V}. Arguments CGet {V}. Arguments CMSet {V}. Arguments CMGet {V}.

Inductive index_answer (V : Type) : Type :=
| AOld (value : option V) | AFound (found : bool) | AUnit | AMany (values : list (option V)).
Arguments AOld {V}. Arguments AFound {V}. Arguments AUnit {V}. Arguments AMany {V}.

Definition map_call {V} (c : index_call V) (m : gmap bytes V) : index_answer V * gmap bytes V :=
  match c with
  | CInsert key value => (AOld (m !! key), <[key := value]> m)
  | CRemove key => (AFound (bool_decide (is_Some (m !! key))), delete key m)
  | CGet key => (AOld (m !! key), m)
  | CMSet entries => (AUnit, insert_pairs m entries)
  | CMGet keys => (AMany ((fun key => m !! key) <$> keys), m)
  end.

Section Run.
Context {V : Type} {siphash : Sip} {mset_order : HashOrder (nat * list (bytes * V))} {mget_order : HashOrder (nat * list (nat * bytes))}.

Definition do_call (c : index_call V) (ix : ShardedIndex V) : option (index_answer V * ShardedIndex V) :=
  match c with
  | CInsert key value => '(r, ix) ← insert ix key value; Some (AOld r, ix)
  | CRemove key => '(r, ix) ← remove ix key; Some (AFound r, ix)
  | CGet key => '(r, ix) ← get ix key; Some (AOld r, ix)
  | CMSet entries => ix ← mset ix entries; Some (AUnit, ix)
  | CMGet keys => '(r, ix) ← mget ix keys; Some (AMany r, ix)
  end.

Fixpoint do_calls (cs : list (index_call V)) (ix : ShardedIndex V) : option (list (index_answer V) * ShardedIndex V) :=
  match cs with
  | [] => Some ([], ix)
  | c :: cs => '(a, ix) ← do_call c ix; '(as_, ix) ← do_calls cs ix; Some (a :: as_, ix)
  end.

Fixpoint map_calls (cs : list (index_call V)) (m : gmap bytes V) : list (index_answer V) * gmap bytes V :=
  match cs with
  | [] => ([], m)
  | c :: cs => let '(a, m) := map_call c m in let '(as_, m) := map_calls cs m in (a :: as_, m)
  end.

Lemma do_call_refines c ix m : Represents ix m ->
  exists ix', do_call c ix = Some ((map_call c m).1, ix') /\ Represents ix' (map_call c m).2 /\ same_shape ix ix'.
Proof.
  intros Hr. destruct c as [key value|key|key|entries|keys]; cbn [do_call map_call fst snd].
  - destruct (insert_rep ix m key value Hr) as (ix' & -> & ?). by exists ix'.
  - destruct (remove_rep ix m key Hr) as (ix' & -> & ?). by exists ix'.
  - destruct (get_rep ix m key Hr) as (ix' & -> & ?). by exists ix'.
  - destruct (mset_rep ix m entries Hr) as (ix' & -> & ?). by exists ix'.
  - destruct (mget_rep ix m keys Hr) as (ix' & -> & ?). by exists ix'.
Qed.

Lemma do_calls_refine cs ix m : Represents ix m ->
  exists ix', do_calls cs ix = Some ((map_calls cs m).1, ix') /\ Represents ix' (map_calls cs m).2 /\ same_shape ix ix'.
Proof.
  revert ix m. induction cs as [|c cs IH]; intros ix m Hr; [by exists ix|]. cbn [do_calls map_calls].
  destruct (do_call_refines c ix m Hr) as (ix1 & -> & Hr1 & Hs1). destruct (map_call c m) as [a m1]. cbn [fst snd mbind option_bind] in *.
  destruct (IH ix1 m1 Hr1) as (ix2 & -> & Hr2 & Hs2). destruct (map_calls cs m1) as [as_ m2]. exists ix2. split_and!; [done|done|by etrans].
Qed.
End Run.

(** C21. Whatever the hash, the seed, the number of shards and the order in which a
    hash map lists its keys, an index answers a run of calls as one finite map
    does, no shard is out of range, every operation on many keys is the operation
    on the map, and the counts of keys of the shards add up to the size of the
    map modulo 2^64. *)
Theorem shards_refine_map {V} {siphash : Sip} {o1 : HashOrder (nat * list (bytes * V))} {o2 : HashOrder (nat * list (nat * bytes))}
    (num : nat) (enable_metrics : bool) (seed : Z * Z) (cs : list (index_call V)) :
  (0 < num)%nat ->
  exists ix, do_calls cs (new num enable_metrics seed) = Some ((map_calls cs ∅).1, ix) /\
    num_shards ix = num /\ Represents ix (map_calls cs ∅).2 /\
    (enable_metrics = true -> total_keys (global_stats ix) = wrapu 64 (Z.of_nat (size (map_calls cs ∅).2))).
Proof.
  intros Hn. destruct (do_calls_refine cs (new num enable_metrics seed) ∅ (new_rep num enable_metrics seed Hn)) as (ix & -> & Hr & Hs).
  exists ix. split_and!; [done| |done|].
  - destruct Hs as (_ & Hl & _). unfold num_shards. rewrite Hl. cbn [new shards]. apply length_replicate.
  - intros ->. apply total_keys_size; [done|]. eapply metered_same; [exact Hs|]. unfold metered, new. cbn [shards].
    apply Forall_replicate. by eexists.
Qed.

#[local] Instance sum_hash : Sip.
Proof. refine {| sip := fun _ key => wrapu 64 (foldr Z.add 0 key) |}. intros. by apply wrapu_is_u. Defined.

Lemma shards_refine_map_witness :
  exists ix, do_calls [CMSet [([1], 10); ([2], 20); ([1], 30)]; CMGet [[2]; [7]; [1]]; CRemove [2]; CInsert [5] 50]
      (new (V := Z) 3 true (0, 0)) = Some ([AUnit; AMany [Some 20; None; Some 30]; AFound true; AOld None], ix) /\
    total_keys (global_stats ix) = 2.
Proof.
  destruct (shards_refine_map 3 true (0, 0) [CMSet [([1], 10); ([2], 20); ([1], 30)]; CMGet [[2]; [7]; [1]]; CRemove [2]; CInsert [5] 50])
    as (ix & E & _ & _ & Ht); [lia|]. exists ix. split; [exact E|]. rewrite (Ht eq_refl). reflexivity.
Defined.
