(* ===== verification/Persistent.v ===== *)
(** * The persistent engine

    Models [InPersistentStore] of [src/src/engine/persistent.rs], an instance of the
    trait [Storage]: encoded values in the sharded index, every change appended to
    the log, and the log replayed into a new index when the store is opened.  The
    geographic operations are not modelled; the codec of values is that of
    [ZdbValue] with the block compression open, and [clock] gives the two readings
    of the clock that an append makes. *)
From S2P Require Import Prelude Interfaces Ordered Varint ZdbFormat ZdbReader ZdbValue Storage Memory Sharding Aof.
From S2P Require SmartHash Dict SkipList.
Local Open Scope Z_scope.

Class Clock := { clock : AofLog -> Z * Z }.

(** The parts of a [Value] codec that are open: the compression, the bound of the
    nesting that the stack gives, and the text of an error. *)
Class ValueCodec := {
  compress_block : bytes -> option bytes;
  zstd_decode : bytes -> bytes * bool;
  stack : nat;
  zdb_message : ZdbError -> string;
}.

Record PersistentStoreConfig : Type := mkConfig {
  cfg_shards : nat; cfg_metrics : bool; cfg_sync : SyncPolicy; cfg_corruption : CorruptionPolicy; cfg_snapshots : bool;
}.

(** The manager of the recovery never gets a manager of compaction: the method that
    would give it one is not called. *)
Record InPersistentStore : Type := mkPersistent { index : ShardedIndex bytes; aof : AofLog; config : PersistentStoreConfig }.

Definition set_index (ix : ShardedIndex bytes) (s : InPersistentStore) : InPersistentStore := mkPersistent ix (aof s) (config s).
Definition set_aof (l : AofLog) (s : InPersistentStore) : InPersistentStore := mkPersistent (index s) l (config s).

Section Persistent.
Context {siphash : Sip} {clk : Clock} {codec : ValueCodec} {set_order : HashOrder (bytes * unit)} {rand : Rand bytes}
  {kv_order : HashOrder (bytes * bytes)} {group_order : HashOrder (nat * list bytes)} {item_order : HashOrder (nat * list (nat * bytes))}
  {dict_ops : MapOps (Dict.Dict bytes f64) bytes f64} {sorted_ops : SortedOps (SkipList.SkipList f64 bytes) f64 bytes}.
Notation Store := InPersistentStore.
Notation act := (action Store).
Implicit Types (s : Store) (key : bytes) (data : gmap bytes bytes).

Definition encode (v : Value) : option bytes := to_bytes compress_block v.
Definition decode (b : bytes) : result StoreError Value :=
  match from_bytes zstd_decode stack b with Ok v => Ok v | Err e => Err (SerdeError (zdb_message e)) end.

Definition log_event (e : event) : act unit := fun s =>
  Some (Ok tt, set_aof (append_event e (clock (aof s)).1 (clock (aof s)).2 (aof s)) s).
Definition log_set key (value : bytes) : act unit := log_event (OpSet, key, Some value).
Definition log_del key : act unit := log_event (OpDel, key, None).

(** A computation on the index. *)
Definition on_index {R} (f : ShardedIndex bytes -> option (R * ShardedIndex bytes)) : act R := fun s =>
  '(r, ix) ← f (index s); Some (Ok r, set_index ix s).

(** The closures that look at one entry of a shard and may change it. *)
Inductive change : Type := Keep | Put (value : bytes) | Remove.

Definition change_data key (c : change) data : gmap bytes bytes * Z :=
  match c with
  | Keep => (data, 0)
  | Put value => (<[key := value]> data, if data !! key then 0 else 1)
  | Remove => (delete key data, if data !! key then -1 else 0)
  end.

Definition write_key {R} key (f : option bytes -> option (R * change)) : act R :=
  on_index (fun ix =>
    id ← shard_for_key ix key;
    sh ← shards ix !! id;
    '(r, c) ← f (sdata sh !! key);
    on_shard id (shard_write (fun data => let '(data, delta) := change_data key c data in (r, data, delta))) ix).

Definition read_key {R} key (f : option bytes -> R) : act R :=
  on_index (fun ix => on_key key (shard_read (fun data => f (data !! key))) ix).

(** The closure of [replay_aof] for an operation. *)
Definition replay_event (e : event) (ix : ShardedIndex bytes) : option (ShardedIndex bytes) :=
  '(_, ix) ← on_key e.1.2 (shard_write (fun data =>
    let '(data, delta) := change_data e.1.2 (match e with (OpSet, _, Some value) => Put value | (OpSet, _, None) => Keep | (OpDel, _, _) => Remove end) data
    in (tt, data, delta))) ix;
  Some ix.

Fixpoint replay_events (es : list event) (ix : ShardedIndex bytes) : option (ShardedIndex bytes) :=
  match es with
  | [] => Some ix
  | e :: es => ix ← replay_event e ix; replay_events es ix
  end.

(** [new]: the log is opened and replayed; an error of either is the result. *)
Definition new (file : bytes) (cfg : PersistentStoreConfig) (seed : Z * Z) (now : Z) : option (result AofError Store) :=
  match Aof.open file (cfg_sync cfg) (cfg_corruption cfg) now with
  | Err e => Some (Err e)
  | Ok l =>
      '(res, es, l) ← Aof.replay l;
      ix ← replay_events es (Sharding.new (cfg_shards cfg) (cfg_metrics cfg) seed);
      Some (match res with Ok _ => Ok (mkPersistent ix l cfg) | Err e => Err e end)
  end.

Definition set key (value : Value) : act unit :=
  let! val_b := apure (encode value) in
  let! _ := log_set key val_b in
  write_key key (fun _ => Some (tt, Put val_b)).

Definition get key : act (option Value) :=
  let! r := read_key key (fun raw =>
    match raw with
    | Some b => let? v := decode b in Ok (Some v)
    | None => Ok None
    end) in
  atry r.

Definition del key : act bool :=
  let! existed := write_key key (fun raw => Some (if raw then (true, Remove) else (false, Keep))) in
  if existed then let! _ := log_del key in aret true else aret false.

Fixpoint encode_all (entries : list (bytes * Value)) (lookup : list (bytes * bytes)) : option (list (bytes * bytes)) :=
  match entries with
  | [] => Some lookup
  | (k, v) :: entries => b ← encode v; encode_all entries (hm_insert k b lookup).2
  end.

Fixpoint log_sets (kvs : list (bytes * bytes)) : act unit :=
  match kvs with
  | [] => aret tt
  | (k, v) :: kvs => let! _ := log_set k v in log_sets kvs
  end.

Definition shard_pairs (lookup : list (bytes * bytes)) (keys : list bytes) : list (bytes * bytes) :=
  omap (fun key => v ← hm_get key lookup; Some (key, v)) keys.

Definition mset (entries : list (bytes * Value)) : act unit :=
  let! lookup := apure (encode_all entries []) in
  let! groups := fun s => groups ← group_keys_by_shard (index s) id entries.*1 []; Some (Ok groups, s) in
  let! _ := log_sets lookup in
  on_index (fun ix => ix ← mset_groups ((fun g => (g.1, shard_pairs lookup g.2)) <$> groups) ix; Some (tt, ix)).

(** The values of the keys of a group, unless one cannot be read. *)
Fixpoint decode_items (items : list (nat * bytes)) data : result StoreError (list (nat * option Value)) :=
  match items with
  | [] => Ok []
  | (i, key) :: items =>
      let? v := match data !! key with Some b => let? v := decode b in Ok (Some v) | None => Ok None end in
      let? vs := decode_items items data in Ok ((i, v) :: vs)
  end.

Fixpoint mget_groups (groups : list (nat * list (nat * bytes))) (result_ : list (option Value)) : act (list (option Value)) :=
  match groups with
  | [] => aret result_
  | (sid, items) :: groups =>
      let! r := on_index (on_shard sid (shard_read (decode_items items))) in
      let! found := atry r in
      mget_groups groups (place result_ found)
  end.

Definition mget (keys : list bytes) : act (list (option Value)) :=
  let! groups := fun s => groups ← group_keys_by_shard (index s) snd (zip (seq 0 (length keys)) keys) []; Some (Ok groups, s) in
  mget_groups (sorted_groups groups) (replicate (length keys) None).

(** The closure on two shards; taking one lock twice does not return. *)
Definition with_two_shards_write {R} (a b : nat)
    (f : gmap bytes bytes -> gmap bytes bytes -> R * gmap bytes bytes * gmap bytes bytes * Z * Z) : act R :=
  on_index (fun ix =>
    if (a =? b)%nat then None
    else
      sa ← shards ix !! a;
      sb ← shards ix !! b;
      let '(r, da, db, za, zb) := f (sdata sa) (sdata sb) in
      let sa := mkShard _ da (add_key_count za <$> metrics sa) in
      let sb := mkShard _ db (add_key_count zb <$> metrics sb) in
      Some (r, mkIndex _ (<[b := sb]> (<[a := sa]> (shards ix))) (hasher_seed ix))).

Definition shard_of key : act nat := fun s => id ← shard_for_key (index s) key; Some (Ok id, s).

Definition rename (from to : bytes) : act unit :=
  let! from_shard_id := shard_of from in
  let! to_shard_id := shard_of to in
  if (from_shard_id =? to_shard_id)%nat then
    let! value := on_index (on_shard from_shard_id (shard_write (fun data =>
      match data !! from with
      | Some val =>
          let data := delete from data in
          (Some val, <[to := val]> data, -1 + (if data !! to then 0 else 1))
      | None => (None, data, 0)
      end))) in
    match value with
    | Some val => let! _ := log_del from in log_set to val
    | None => araise KeyNotFound
    end
  else
    let! val_res := with_two_shards_write from_shard_id to_shard_id (fun from_map to_map =>
      match from_map !! from with
      | None => (Err KeyNotFound, from_map, to_map, 0, 0)
      | Some val => (Ok val, delete from from_map, <[to := val]> to_map, -1, if to_map !! to then 0 else 1)
      end) in
    let! value := atry val_res in
    let! _ := log_del from in log_set to value.

(** What [unwrap] finds at a key of a shard after the change. *)
Definition unwrap_key (id : nat) key : act bytes := fun s =>
  sh ← shards (index s) !! id; v ← sdata sh !! key; Some (Ok v, s).

Definition renamenx (from to : bytes) : act bool :=
  let! from_shard_id := shard_of from in
  let! to_shard_id := shard_of to in
  if (from_shard_id =? to_shard_id)%nat then
    let! r := on_index (on_shard from_shard_id (shard_write (fun data =>
      match data !! from, data !! to with
      | None, _ => (Err KeyNotFound, data, 0)
      | Some _, Some _ => (Ok false, data, 0)
      | Some val, None => (Ok true, <[to := val]> (delete from data), 0)
      end))) in
    let! performed := atry r in
    if performed then
      let! _ := log_del from in
      let! value := unwrap_key from_shard_id to in
      let! _ := log_set to value in aret true
    else aret false
  else
    let! res := with_two_shards_write from_shard_id to_shard_id (fun from_map to_map =>
      match from_map !! from, to_map !! to with
      | None, _ => (Err KeyNotFound, from_map, to_map, 0, 0)
      | Some _, Some _ => (Ok false, from_map, to_map, 0, 0)
      | Some val, None => (Ok true, delete from from_map, <[to := val]> to_map, -1, 1)
      end) in
    let! performed := atry res in
    if performed then
      let! raw := on_index (on_shard to_shard_id (shard_read (fun data => data !! to))) in
      let! value := apure raw in
      let! _ := log_del from in
      let! _ := log_set to value in aret true
    else aret false.

(** [for shard in all_shards { shard.write(clear) }] *)
Fixpoint clear_shards (n : nat) (id : nat) (ix : ShardedIndex bytes) : option (ShardedIndex bytes) :=
  match n with
  | O => Some ix
  | Datatypes.S n =>
      '(_, ix) ← on_shard id (shard_write (fun data => (tt, ∅, - Z.of_nat (size data)))) ix;
      clear_shards n (id + 1) ix
  end.

Definition flushdb : act unit :=
  on_index (fun ix => ix ← clear_shards (length (shards ix)) 0 ix; Some (tt, ix)).

Definition dbsize : act nat := fun s => Some (Ok (Z.to_nat (total_keys (global_stats (index s)))), s).

(** [create_snapshot] without a manager of compaction. *)
Definition create_snapshot : act unit := araise (InvalidOperation "Compaction manager not initialized").

Definition save : act unit := fun s => if cfg_snapshots (config s) then create_snapshot s else aret tt s.

(** The set at a key: the error of the method for another type. *)
Definition set_of_value (msg : string) (v : Value) : result StoreError (list (bytes * unit)) :=
  match v with VSet set => Ok set | _ => Err (WrongType msg) end.

(** [added], the bytes to log, under the lock of the shard. *)
Definition sadd_closure (members : list bytes) (raw : option bytes)
  : option (result StoreError (nat * option bytes) * change) :=
  let store set :=
    let '(added, set) := insert_members members set 0 in
    b ← encode (VSet set); Some (Ok (added, Some b), Put b) in
  match raw with
  | Some raw =>
      match (let? v := decode raw in set_of_value "SADD: key is not a set" v) with
      | Ok set => store set
      | Err e => Some (Err e, Keep)
      end
  | None => store []
  end.

Definition sadd key (members : list bytes) : act nat :=
  let! r := write_key key (sadd_closure members) in
  let! x := atry r in
  let '(added, buf) := x in
  match buf with
  | Some buf => let! _ := log_set key buf in aret added
  | None => aret added
  end.

(** The reading methods of a set. *)
Definition read_set {R} (msg : string) key (absent : R) (f : list (bytes * unit) -> R) : act R :=
  let! r := read_key key (fun raw =>
    match raw with
    | Some raw => let? v := decode raw in let? set := set_of_value msg v in Ok (f set)
    | None => Ok absent
    end) in
  atry r.

Definition smembers key : act (list bytes) := read_set "SMEMBERS: key is not a set" key [] (fun set => set.*1).
Definition scard key : act nat := read_set "SCARD: key is not a set" key 0%nat length.
Definition sismember key (member : bytes) : act bool :=
  read_set "SISMEMBER: key is not a set" key false (hs_contains member).
Definition srandmember (seed : nat) key (count : Z) : act (list bytes) :=
  read_set "SRANDMEMBER: key is not a set" key [] (fun set =>
    if count =? 1 then option_list (choose seed set.*1)
    else if 1 <? count then choose_multiple seed (Z.to_nat count) set.*1
    else []).

(** The closures of [srem] and [spop], given what is taken out of the set: the
    answer, the bytes to log, and whether the key goes. *)
Definition take_closure {R} (msg : string) (absent : R) (take_members : list (bytes * unit) -> R * list (bytes * unit)) (raw : option bytes)
  : option (result StoreError (R * option bytes * bool) * change) :=
  match raw with
  | Some raw =>
      match (let? v := decode raw in set_of_value msg v) with
      | Ok set =>
          let '(r, set) := take_members set in
          if bool_decide (set = []) then Some (Ok (r, None, true), Keep)
          else b ← encode (VSet set); Some (Ok (r, Some b, false), Put b)
      | Err e => Some (Err e, Keep)
      end
  | None => Some (Ok (absent, None, false), Keep)
  end.

Definition take_from_set {R} (msg : string) key (absent : R) (take_members : list (bytes * unit) -> R * list (bytes * unit)) : act R :=
  let! r := write_key key (take_closure msg absent take_members) in
  let! x := atry r in
  let '(r, buf, remove_key) := x in
  if remove_key then
    let! _ := write_key key (fun _ => Some (tt, Remove)) in
    let! _ := log_del key in aret r
  else
    match buf with
    | Some buf => let! _ := log_set key buf in aret r
    | None => aret r
    end.

Definition srem key (members : list bytes) : act nat :=
  take_from_set "SREM: key is not a set" key 0%nat (fun set => remove_members members set 0).

Definition spop (seed : nat) key (count : Z) : act (list bytes) :=
  take_from_set "SPOP: key is not a set" key [] (fun set =>
    pop_members (if count <=? 0 then 1%nat else Z.to_nat count) seed set []).

#[export] Instance persistent_ops : StorageOps Store := {|
  st_set := set; st_get := get; st_del := del; st_mset := mset; st_mget := mget;
  st_rename := rename; st_renamenx := renamenx; st_flushdb := flushdb; st_dbsize := dbsize;
  st_save := save; st_sadd := sadd; st_smembers := smembers; st_scard := scard;
  st_sismember := sismember; st_srem := srem; st_srandmember := srandmember; st_spop := spop;
|}.
End Persistent.
