(* ===== verification/PersistentLaws.v ===== *)
(** * The persistent engine keeps what its log says

    Theorems about [Persistent]: over any number of shards the store answers as one
    map of encoded values, the records it appends are the changes of that map, and a
    store that is opened on the log of another goes on where it stopped, with the
    exceptions of the code: [flushdb] is not logged, and two calls of [set] may be
    logged and applied in different orders. *)
From S2P Require Import Prelude Interfaces Ordered Varint ZdbFormat ZdbReader ZdbValue Storage Memory.
From S2P Require Import Sharding ShardingLaws Crc32 Aof AofReplay Persistent.
From S2P Require SmartHash Dict SkipList ZdbStored.
Local Open Scope Z_scope.

Opaque checksum.

(** ** The map that a log describes *)

Definition apply_event (m : gmap bytes bytes) (e : event) : gmap bytes bytes :=
  match e with
  | (OpSet, key, Some value) => <[key := value]> m
  | (OpSet, _, None) => m
  | (OpDel, key, _) => delete key m
  end.

Definition replay_map (es : list event) : gmap bytes bytes := foldl apply_event ∅ es.

Definition shaped (b : bool) (ix : ShardedIndex bytes) : Prop :=
  Forall (fun sh => bool_decide (is_Some (metrics sh)) = b) (shards ix).

Lemma shaped_same b ix ix' : same_shape ix ix' -> shaped b ix -> shaped b ix'.
Proof.
  intros (_ & _ & E) H. unfold shaped in *. 
  set (g := fun sh : Shard bytes => bool_decide (is_Some (metrics sh))) in *.
  change (Forall ((fun x => x = b) ∘ g) (shards ix')). change (Forall ((fun x => x = b) ∘ g) (shards ix)) in H.
  rewrite <- Forall_fmap in *. by rewrite E.
Qed.

Section Laws.
Context {siphash : Sip} {clk : Clock} {codec : ValueCodec} {set_order : HashOrder (bytes * unit)} {rand : Rand bytes}
  {kv_order : HashOrder (bytes * bytes)} {group_order : HashOrder (nat * list bytes)} {item_order : HashOrder (nat * list (nat * bytes))}
  {dict_ops : MapOps (Dict.Dict bytes f64) bytes f64} {sorted_ops : SortedOps (SkipList.SkipList f64 bytes) f64 bytes}.
Notation Store := InPersistentStore.
Notation act := (action Store).
Implicit Types (s : Store) (key : bytes) (m : gmap bytes bytes) (es : list event) (ix : ShardedIndex bytes).

(** A store with the map [m] in memory and the records [es] in its log. *)
Record Holds s m es : Prop := {
  ho_index : Represents (index s) m;
  ho_log : Logged (aof s) es;
  ho_policy : policy (aof s) = cfg_sync (config s);
  ho_shape : shaped (cfg_metrics (config s)) (index s);
}.

(** ** The steps of the methods *)

Lemma set_aof_holds l s m es es' : Holds s m es -> Logged l es' -> policy l = policy (aof s) -> Holds (set_aof l s) m es'.
Proof. intros [H1 H2 H3 H4] Hl Hp. constructor; cbn [set_aof index aof config]; [done|done|congruence|done]. Qed.

Lemma log_holds e s m es : Holds s m es ->
  wp (log_event e) s (fun r s' => r = Ok tt /\ Holds s' m (es ++ [e]) /\ config s' = config s /\ index s' = index s).
Proof.
  intros Hh. unfold wp, log_event. generalize (append_event_policy e (clock (aof s)).1 (clock (aof s)).2 (aof s)).
  generalize (append_logged e (clock (aof s)).1 (clock (aof s)).2 (aof s) es (ho_log _ _ _ Hh)).
  generalize (append_event e (clock (aof s)).1 (clock (aof s)).2 (aof s)). intros l Hl Hp.
  split_and!; [done|by eapply set_aof_holds|done|done].
Qed.

Lemma on_index_holds {R} (f : ShardedIndex bytes -> option (R * ShardedIndex bytes)) s m m' es r ix' :
  Holds s m es -> f (index s) = Some (r, ix') -> Represents ix' m' -> same_shape (index s) ix' ->
  wp (on_index f) s (fun r' s' => r' = Ok r /\ Holds s' m' es /\ config s' = config s).
Proof.
  intros [H1 H2 H3 H4] Hf Hr Hs. unfold wp, on_index. rewrite Hf. cbn [mbind option_bind]. split_and!; [done| |done].
  constructor; cbn [set_index index aof config]; [done|done|done|by eapply shaped_same].
Qed.

Definition change_map key (c : change) m : gmap bytes bytes := (change_data key c m).1.

Lemma change_step (at_home : bytes -> Prop) key c data m :
  at_home key -> data !! key = m !! key ->
  let '(data', delta) := change_data key c data in Step at_home data data' m (change_map key c m) delta.
Proof.
  intros Hk Hd. unfold change_map, change_data. destruct c as [|v|]; cbn [fst].
  - apply step_refl.
  - by apply (step_put at_home key v data m).
  - by apply (step_take_out at_home key data m).
Qed.

Lemma write_key_rep {R} key (f : option bytes -> option (R * change)) ix m r c :
  Represents ix m -> f (m !! key) = Some (r, c) ->
  exists ix', (id ← shard_for_key ix key; sh ← shards ix !! id; '(r, c) ← f (sdata sh !! key);
      on_shard id (shard_write (fun data => let '(data, delta) := change_data key c data in (r, data, delta))) ix) = Some (r, ix') /\
    Represents ix' (change_map key c m) /\ same_shape ix ix'.
Proof.
  intros Hr Hf. destruct (home_shard ix m key Hr) as (sh & -> & Hsh & Hk). cbn [mbind option_bind]. rewrite Hsh.
  cbn [mbind option_bind]. rewrite Hk, Hf. cbn [mbind option_bind].
  pose proof (change_step (fun k => home ix k = home ix key) key c (sdata sh) m eq_refl Hk) as Hs.
  destruct (change_data key c (sdata sh)) as [d z] eqn:E.
  apply (write_step ix m (home ix key) sh (fun data => let '(data, delta) := change_data key c data in (r, data, delta)) _ r d z Hr Hsh); [by rewrite E|done].
Qed.

Lemma write_key_holds {R} key (f : option bytes -> option (R * change)) s m es r c :
  Holds s m es -> f (m !! key) = Some (r, c) ->
  wp (write_key key f) s (fun r' s' => r' = Ok r /\ Holds s' (change_map key c m) es /\ config s' = config s).
Proof.
  intros Hh Hf. destruct (write_key_rep key f (index s) m r c (ho_index _ _ _ Hh) Hf) as (ix' & E & Hr & Hs).
  unfold write_key. by eapply on_index_holds.
Qed.

Lemma read_key_holds {R} key (f : option bytes -> R) s m es : Holds s m es ->
  wp (read_key key f) s (fun r' s' => r' = Ok (f (m !! key)) /\ Holds s' m es /\ config s' = config s).
Proof.
  intros Hh. destruct (home_shard (index s) m key (ho_index _ _ _ Hh)) as (sh & E & Hsh & Hk).
  destruct (read_step (index s) m (home (index s) key) sh (fun data => f (data !! key)) (ho_index _ _ _ Hh) Hsh) as (ix' & E' & Hr & Hs).
  unfold read_key. rewrite <- Hk. eapply on_index_holds; [exact Hh| |exact Hr|exact Hs]. unfold on_key. rewrite E. exact E'.
Qed.

Lemma replay_event_rep e ix m : Represents ix m ->
  exists ix', replay_event e ix = Some ix' /\ Represents ix' (apply_event m e) /\ same_shape ix ix'.
Proof.
  intros Hr. destruct e as [[op key] value]. cbn [fst snd] in *.
  destruct (home_shard ix m key Hr) as (sh & E & Hsh & Hk). unfold replay_event, on_key. cbn [fst snd]. rewrite E. cbn [mbind option_bind].
  set (c := match op, value with OpSet, Some v => Put v | OpSet, None => Keep | OpDel, _ => Remove end : change).
  pose proof (change_step (fun k => home ix k = home ix key) key c (sdata sh) m eq_refl Hk) as Hs.
  assert (apply_event m (op, key, value) = change_map key c m) as -> by (subst c; by destruct op, value).
  replace (match op with OpSet => match value with Some value0 => Put value0 | None => Keep end | OpDel => Remove end) with c by (subst c; by destruct op, value).
  destruct (change_data key c (sdata sh)) as [d z] eqn:Ed.
  destruct (write_step ix m (home ix key) sh (fun data => let '(data, delta) := change_data key c data in (tt, data, delta)) _ tt d z Hr Hsh ltac:(cbv beta; by rewrite Ed) Hs)
    as (ix' & -> & Hr' & Hs'). by exists ix'.
Qed.

Lemma replay_events_rep es ix m : Represents ix m ->
  exists ix', replay_events es ix = Some ix' /\ Represents ix' (foldl apply_event m es) /\ same_shape ix ix'.
Proof.
  revert ix m. induction es as [|e es IH]; intros ix m Hr; [by exists ix|]. cbn [replay_events foldl].
  destruct (replay_event_rep e ix m Hr) as (ix1 & -> & Hr1 & Hs1). cbn [mbind option_bind].
  destruct (IH ix1 _ Hr1) as (ix2 & -> & Hr2 & Hs2). exists ix2. split_and!; [done|done|by etrans].
Qed.

(** ** The methods on a map *)

Inductive call : Type :=
| PSet (key : bytes) (value : Value) | PGet (key : bytes) | PDel (key : bytes)
| PMSet (entries : list (bytes * Value)) | PMGet (keys : list bytes)
| PRename (from to : bytes) | PRenameNx (from to : bytes) | PFlushDb | PDbSize | PSave
| PSAdd (key : bytes) (members : list bytes) | PSMembers (key : bytes) | PSCard (key : bytes)
| PSIsMember (key member : bytes) | PSRem (key : bytes) (members : list bytes)
| PSRandMember (seed : nat) (key : bytes) (count : Z) | PSPop (seed : nat) (key : bytes) (count : Z).

Inductive reply : Type :=
| RUnit | RBool (b : bool) | RNat (n : nat) | RValue (v : option Value) | RValues (vs : list (option Value)) | RKeys (l : list bytes).

Definition answer {A} (f : A -> reply) (c : act A) : act reply := let! x := c in aret (f x).

Definition do_call (c : call) : act reply :=
  match c with
  | PSet key value => answer (fun _ => RUnit) (st_set key value)
  | PGet key => answer RValue (st_get key)
  | PDel key => answer RBool (st_del key)
  | PMSet entries => answer (fun _ => RUnit) (st_mset entries)
  | PMGet keys => answer RValues (st_mget keys)
  | PRename from to => answer (fun _ => RUnit) (st_rename from to)
  | PRenameNx from to => answer RBool (st_renamenx from to)
  | PFlushDb => answer (fun _ => RUnit) st_flushdb
  | PDbSize => answer RNat st_dbsize
  | PSave => answer (fun _ => RUnit) st_save
  | PSAdd key members => answer RNat (st_sadd key members)
  | PSMembers key => answer RKeys (st_smembers key)
  | PSCard key => answer RNat (st_scard key)
  | PSIsMember key member => answer RBool (st_sismember key member)
  | PSRem key members => answer RNat (st_srem key members)
  | PSRandMember seed key count => answer RKeys (st_srandmember seed key count)
  | PSPop seed key count => answer RKeys (st_spop seed key count)
  end.

Definition set_event key (b : bytes) : event := (OpSet, key, Some b).
Definition del_event key : event := (OpDel, key, None).

(** The value at a key, and the set at a key, empty when there is no key. *)
Definition value_at m key : result StoreError (option Value) :=
  match m !! key with Some b => let? v := decode b in Ok (Some v) | None => Ok None end.

Fixpoint values_at m (keys : list bytes) : result StoreError (list (option Value)) :=
  match keys with
  | [] => Ok []
  | key :: keys => let? v := value_at m key in let? vs := values_at m keys in Ok (v :: vs)
  end.

Definition stored_set (msg : string) m key : result StoreError (option (list (bytes * unit))) :=
  let? v := value_at m key in
  match v with Some (VSet set) => Ok (Some set) | Some _ => Err (WrongType msg) | None => Ok None end.

Definition set_members (set : option (list (bytes * unit))) : list (bytes * unit) := default [] set.

(** A method gives a reply and the records of its change; [None] is a panic of the
    encoder. *)
Definition outcome : Type := option (result StoreError reply * list event).

Definition reading {A} (r : result StoreError A) (f : A -> reply) : outcome :=
  Some (let? x := r in Ok (f x), []).

Definition taking {A} (msg : string) key m (take_members : list (bytes * unit) -> A * list (bytes * unit)) (absent : A) (f : A -> reply) : outcome :=
  match stored_set msg m key with
  | Err e => Some (Err e, [])
  | Ok None => Some (Ok (f absent), [])
  | Ok (Some set) =>
      let '(x, set) := take_members set in
      if bool_decide (set = []) then Some (Ok (f x), [del_event key])
      else b ← encode (VSet set); Some (Ok (f x), [set_event key b])
  end.

Definition renaming (from to : bytes) (v : bytes) : list event := [del_event from; set_event to v].

Definition map_call (cfg : PersistentStoreConfig) (c : call) m : outcome :=
  match c with
  | PSet key value => b ← encode value; Some (Ok RUnit, [set_event key b])
  | PGet key => reading (value_at m key) RValue
  | PDel key => Some (Ok (RBool (bool_decide (is_Some (m !! key)))), if m !! key then [del_event key] else [])
  | PMSet entries => kvs ← encode_all entries []; Some (Ok RUnit, (fun kv : bytes * bytes => set_event kv.1 kv.2) <$> (kvs : list (bytes * bytes)))
  | PMGet keys => reading (values_at m keys) RValues
  | PRename from to =>
      Some (match m !! from with Some v => (Ok RUnit, renaming from to v) | None => (Err KeyNotFound, []) end)
  | PRenameNx from to =>
      Some (match m !! from, m !! to with
            | None, _ => (Err KeyNotFound, [])
            | Some _, Some _ => (Ok (RBool false), [])
            | Some v, None => (Ok (RBool true), renaming from to v)
            end)
  | PFlushDb => Some (Ok RUnit, [])
  | PDbSize => Some (Ok (RNat (if cfg_metrics cfg then Z.to_nat (wrapu 64 (Z.of_nat (size m))) else 0)), [])
  | PSave => Some (if cfg_snapshots cfg then Err (InvalidOperation "Compaction manager not initialized") else Ok RUnit, [])
  | PSAdd key members =>
      match stored_set "SADD: key is not a set" m key with
      | Err e => Some (Err e, [])
      | Ok set =>
          let '(added, set) := insert_members members (set_members set) 0 in
          b ← encode (VSet set); Some (Ok (RNat added), [set_event key b])
      end
  | PSMembers key => reading (stored_set "SMEMBERS: key is not a set" m key) (fun set => RKeys (set_members set).*1)
  | PSCard key => reading (stored_set "SCARD: key is not a set" m key) (fun set => RNat (length (set_members set)))
  | PSIsMember key member =>
      reading (stored_set "SISMEMBER: key is not a set" m key) (fun set => RBool (hs_contains member (set_members set)))
  | PSRem key members => taking "SREM: key is not a set" key m (fun set => remove_members members set 0) 0%nat RNat
  | PSRandMember seed key count =>
      reading (stored_set "SRANDMEMBER: key is not a set" m key) (fun set =>
        RKeys (match set with
               | None => []
               | Some set =>
                   if count =? 1 then option_list (choose seed set.*1)
                   else if 1 <? count then choose_multiple seed (Z.to_nat count) set.*1
                   else []
               end))
  | PSPop seed key count =>
      taking "SPOP: key is not a set" key m
        (fun set => pop_members (if count <=? 0 then 1%nat else Z.to_nat count) seed set []) [] RKeys
  end.

(** The map after a method: what its records say, except that [flushdb] has none. *)
Definition map_after (c : call) (es : list event) m : gmap bytes bytes :=
  match c with PFlushDb => ∅ | _ => foldl apply_event m es end.

(** Two replies are the same, up to the text of the error of a value that cannot be
    read: [mget] meets the values in the order of the shards. *)
Definition same_reply (r r' : result StoreError reply) : Prop :=
  match r, r' with Err (SerdeError _), Err (SerdeError _) => True | _, _ => r = r' end.

Lemma same_reply_refl r : same_reply r r.
Proof. by destruct r as [|[]]. Qed.

(** What is to be shown of a method. *)
Definition refines c m es s : Prop :=
  match map_call (config s) c m with
  | Some (r, evs) => wp (do_call c) s (fun r' s' => same_reply r' r /\ Holds s' (map_after c evs m) (es ++ evs) /\ config s' = config s)
  | None => do_call c s = None
  end.

Lemma answer_wp {A} (f : A -> reply) (c : act A) s (Q : result StoreError reply -> Store -> Prop) :
  wp c s (fun r s' => Q (let? x := r in Ok (f x)) s') -> wp (answer f c) s Q.
Proof. intros H. unfold answer. apply wp_bind. eapply wp_mono; [exact H|]. by intros [x|e] s' HQ. Qed.

Lemma reading_refines {A} (c : act A) s m es (r : result StoreError A) (f : A -> reply) :
  wp c s (fun r' s' => r' = r /\ Holds s' m es /\ config s' = config s) ->
  wp (answer f c) s (fun r' s' => same_reply r' (let? x := r in Ok (f x)) /\ Holds s' m (es ++ []) /\ config s' = config s).
Proof.
  intros H. apply answer_wp. eapply wp_mono; [exact H|]. intros r' s' (-> & Hh & Hc). rewrite app_nil_r.
  split_and!; [apply same_reply_refl|done|done].
Qed.

Lemma wp_atry {A} (r : result StoreError A) s (Q : result StoreError A -> Store -> Prop) : Q r s -> wp (atry r) s Q.
Proof. done. Qed.

(** A call that returns a value and keeps a property of the state. *)
Lemma wp_step {A B} (c : act A) (f : A -> act B) s x (P : Store -> Prop) (Q : result StoreError B -> Store -> Prop) :
  wp c s (fun r s' => r = Ok x /\ P s') -> (forall s', P s' -> wp (f x) s' Q) -> wp (abind c f) s Q.
Proof. intros Hc Hf. apply wp_bind. eapply wp_mono; [exact Hc|]. intros r s' [-> HP]. by apply Hf. Qed.

Lemma get_holds key s m es : Holds s m es ->
  wp (get key) s (fun r s' => r = value_at m key /\ Holds s' m es /\ config s' = config s).
Proof.
  intros Hh. unfold get. eapply wp_step; [by apply read_key_holds|]. intros s' HP. by apply wp_atry.
Qed.

Lemma p_set_refines key value m es s : Holds s m es -> refines (PSet key value) m es s.
Proof.
  intros Hh. unfold refines. cbn [map_call do_call map_after]. destruct (encode value) as [b|] eqn:Eb; cbn [mbind option_bind].
  - apply answer_wp. change (st_set key value) with (set key value). unfold set. rewrite Eb.
    eapply (wp_step _ _ s b (fun s' => s' = s)); [by apply wp_pure|]. intros ? ->.
    eapply wp_step; [by apply log_holds|]. cbv beta. intros s1 (Hh1 & Hc1 & _).
    eapply wp_mono; [by eapply (write_key_holds key _ s1 m)|]. intros r s2 (-> & Hh2 & Hc2). split_and!; [done|done|congruence].
  - unfold answer, abind. change (st_set key value) with (set key value). unfold set. by rewrite Eb.
Qed.

Lemma p_del_refines key m es s : Holds s m es -> refines (PDel key) m es s.
Proof.
  intros Hh. unfold refines. cbn [map_call do_call map_after]. apply answer_wp.
  change (st_del key) with (del key). unfold del. destruct (m !! key) as [b|] eqn:Eb; cbn [is_Some].
  - eapply wp_step; [eapply (write_key_holds key _ s m es true Remove Hh); by rewrite Eb|]. cbv beta. intros s1 (Hh1 & Hc1). cbv iota.
    eapply wp_step; [by apply (log_holds (del_event key))|]. cbv beta. intros s2 (Hh2 & Hc2 & _). apply wp_ret.
    rewrite bool_decide_true by (by eexists). split_and!; [done|done|congruence].
  - eapply wp_step; [eapply (write_key_holds key _ s m es false Keep Hh); by rewrite Eb|]. cbv beta. intros s1 (Hh1 & Hc1). cbv iota.
    apply wp_ret. rewrite bool_decide_false by (by intros []). rewrite app_nil_r. split_and!; [done|done|congruence].
Qed.

(** The closures decode the entry as [stored_set] does. *)
Lemma stored_set_closure (msg : string) m key b : m !! key = Some b ->
  (let? v := decode b in set_of_value msg v) =
  match stored_set msg m key with Ok (Some set) => Ok set | Ok None => Ok [] | Err e => Err e end.
Proof.
  intros Hb. unfold stored_set, value_at. rewrite Hb. destruct (decode b) as [v|e]; [|done]. cbn [rbind].
  by destruct v.
Qed.

Lemma stored_set_none (msg : string) m key : m !! key = None -> stored_set msg m key = Ok None.
Proof. intros Hb. unfold stored_set, value_at. by rewrite Hb. Qed.

Lemma stored_set_some (msg : string) m key b : m !! key = Some b -> stored_set msg m key <> Ok None.
Proof. intros Hb. unfold stored_set, value_at. rewrite Hb. destruct (decode b) as [v|e]; [|done]. cbn [rbind]. by destruct v. Qed.

Lemma read_set_holds {R} (msg : string) key (absent : R) (f : list (bytes * unit) -> R) s m es : Holds s m es ->
  wp (read_set msg key absent f) s (fun r s' =>
    r = (let? set := stored_set msg m key in Ok (match set with Some set => f set | None => absent end)) /\
    Holds s' m es /\ config s' = config s).
Proof.
  intros Hh. unfold read_set. eapply wp_step; [by apply read_key_holds|]. cbv beta. intros s' HP. apply wp_atry. split; [|exact HP].
  destruct (m !! key) as [b|] eqn:Eb; [|by rewrite (stored_set_none msg m key Eb)].
  transitivity (let? set := (let? v := decode b in set_of_value msg v) in Ok (f set)); [by destruct (decode b)|].
  rewrite (stored_set_closure msg m key b Eb). pose proof (stored_set_some msg m key b Eb) as Hn.
  by destruct (stored_set msg m key) as [[set|]|e].
Qed.

Lemma read_set_refines {R} (msg : string) key (absent : R) (f : list (bytes * unit) -> R) (g : R -> reply)
    (h : option (list (bytes * unit)) -> reply) s m es :
  Holds s m es -> (forall set, h set = g (match set with Some set => f set | None => absent end)) ->
  wp (answer g (read_set msg key absent f)) s (fun r s' =>
    same_reply r (let? set := stored_set msg m key in Ok (h set)) /\ Holds s' m (es ++ []) /\ config s' = config s).
Proof.
  intros Hh He. apply answer_wp. eapply wp_mono; [by apply read_set_holds|]. cbv beta. intros r s' (-> & Hh' & Hc).
  rewrite app_nil_r. split_and!; [|done|done]. destruct (stored_set msg m key) as [set|e]; cbn [rbind]; [rewrite He|]; apply same_reply_refl.
Qed.

Lemma p_sadd_refines key members m es s : Holds s m es -> refines (PSAdd key members) m es s.
Proof.
  intros Hh. unfold refines. cbn [map_call do_call map_after]. change (st_sadd key members) with (sadd key members).
  set (st := stored_set "SADD: key is not a set" m key).
  assert (sadd_closure members (m !! key) =
    match st with
    | Err e => Some (Err e, Keep)
    | Ok set => let '(added, set) := insert_members members (set_members set) 0 in
        b ← encode (VSet set); Some (Ok (added, Some b), Put b)
    end) as Ec.
  { unfold sadd_closure, st. destruct (m !! key) as [b|] eqn:Eb; [|by rewrite (stored_set_none _ m key Eb)].
    rewrite (stored_set_closure _ m key b Eb). pose proof (stored_set_some "SADD: key is not a set" m key b Eb).
    by destruct (stored_set _ m key) as [[set|]|e]. }
  destruct st as [set|e].
  - destruct (insert_members members (set_members set) 0) as [added set'] eqn:Ei. destruct (encode (VSet set')) as [b|] eqn:Eb; cbn [mbind option_bind] in *.
    + apply answer_wp. unfold sadd. eapply wp_step; [by eapply (write_key_holds key _ s m es _ _ Hh Ec)|]. cbv beta. intros s1 (Hh1 & Hc1).
      eapply (wp_step _ _ s1 (added, Some b) (fun s' => s' = s1)); [by apply wp_atry|]. intros ? ->. cbv iota.
      eapply wp_step; [by apply log_holds|]. cbv beta. intros s2 (Hh2 & Hc2 & _). apply wp_ret. cbn [rbind].
      split_and!; [done|done|congruence].
    + unfold answer, abind, sadd, write_key, on_index, abind.
      destruct (home_shard (index s) m key (ho_index _ _ _ Hh)) as (sh & -> & Hsh & Hk). cbn [mbind option_bind]. rewrite Hsh.
      cbn [mbind option_bind]. by rewrite Hk, Ec.
  - apply answer_wp. unfold sadd. eapply wp_step; [by eapply (write_key_holds key _ s m es _ _ Hh Ec)|]. cbv beta. intros s1 (Hh1 & Hc1).
    apply wp_bind, wp_atry. cbn [rbind]. rewrite app_nil_r. split_and!; [apply same_reply_refl|done|congruence].
Qed.

Lemma take_refines {A} (msg : string) key (absent : A) (take_members : list (bytes * unit) -> A * list (bytes * unit)) (f : A -> reply) m es s :
  Holds s m es ->
  match taking msg key m take_members absent f with
  | Some (r, evs) => wp (answer f (take_from_set msg key absent take_members)) s (fun r' s' =>
      same_reply r' r /\ Holds s' (foldl apply_event m evs) (es ++ evs) /\ config s' = config s)
  | None => answer f (take_from_set msg key absent take_members) s = None
  end.
Proof.
  intros Hh. unfold taking. set (st := stored_set msg m key).
  assert (take_closure msg absent take_members (m !! key) =
    match st with
    | Err e => Some (Err e, Keep)
    | Ok None => Some (Ok (absent, None, false), Keep)
    | Ok (Some set) => let '(r, set) := take_members set in
        if bool_decide (set = []) then Some (Ok (r, None, true), Keep)
        else b ← encode (VSet set); Some (Ok (r, Some b, false), Put b)
    end) as Ec.
  { unfold take_closure, st. destruct (m !! key) as [b|] eqn:Eb; [|by rewrite (stored_set_none _ m key Eb)].
    rewrite (stored_set_closure _ m key b Eb). pose proof (stored_set_some msg m key b Eb).
    by destruct (stored_set _ m key) as [[set|]|e]. }
  destruct st as [[set|]|e].
  - destruct (take_members set) as [x set'] eqn:Et. case_bool_decide as Hnil.
    + apply answer_wp. unfold take_from_set. eapply wp_step; [by eapply (write_key_holds key _ s m es _ _ Hh Ec)|]. cbv beta. intros s1 (Hh1 & Hc1).
      eapply (wp_step _ _ s1 (x, None, true) (fun s' => s' = s1)); [by apply wp_atry|]. intros ? ->. cbv iota.
      eapply wp_step; [by eapply (write_key_holds key _ s1 _ es tt Remove Hh1)|]. cbv beta. intros s2 (Hh2 & Hc2).
      eapply wp_step; [by apply (log_holds (del_event key))|]. cbv beta. intros s3 (Hh3 & Hc3 & _). apply wp_ret.
      cbn [rbind]. split_and!; [apply same_reply_refl|done|congruence].
    + destruct (encode (VSet set')) as [b|] eqn:Eb; cbn [mbind option_bind] in *.
      * apply answer_wp. unfold take_from_set. eapply wp_step; [by eapply (write_key_holds key _ s m es _ _ Hh Ec)|]. cbv beta. intros s1 (Hh1 & Hc1).
        eapply (wp_step _ _ s1 (x, Some b, false) (fun s' => s' = s1)); [by apply wp_atry|]. intros ? ->. cbv iota.
        eapply wp_step; [by apply (log_holds (set_event key b))|]. cbv beta. intros s2 (Hh2 & Hc2 & _). apply wp_ret. cbn [rbind].
        split_and!; [apply same_reply_refl|done|congruence].
      * unfold answer, abind, take_from_set, write_key, on_index, abind.
        destruct (home_shard (index s) m key (ho_index _ _ _ Hh)) as (sh & -> & Hsh & Hk). cbn [mbind option_bind]. rewrite Hsh.
        cbn [mbind option_bind]. by rewrite Hk, Ec.
  - apply answer_wp. unfold take_from_set. eapply wp_step; [by eapply (write_key_holds key _ s m es _ _ Hh Ec)|]. cbv beta. intros s1 (Hh1 & Hc1).
    eapply (wp_step _ _ s1 (absent, None, false) (fun s' => s' = s1)); [by apply wp_atry|]. intros ? ->. cbv iota.
    apply wp_ret. cbn [rbind]. rewrite app_nil_r. split_and!; [apply same_reply_refl|done|congruence].
  - apply answer_wp. unfold take_from_set. eapply wp_step; [by eapply (write_key_holds key _ s m es _ _ Hh Ec)|]. cbv beta. intros s1 (Hh1 & Hc1).
    apply wp_bind, wp_atry. cbn [rbind]. rewrite app_nil_r. split_and!; [apply same_reply_refl|done|congruence].
Qed.

(** *** Two keys *)

Lemma shard_of_wp key s m es (f : nat -> act unit) : Holds s m es -> shard_of key s = Some (Ok (home (index s) key), s).
Proof.
  intros Hh. destruct (home_shard (index s) m key (ho_index _ _ _ Hh)) as (sh & E & _). unfold shard_of. by rewrite E.
Qed.

Lemma wp_shard_of {A} key s m es (f : nat -> act A) (Q : result StoreError A -> Store -> Prop) :
  Holds s m es -> wp (f (home (index s) key)) s Q -> wp (let! id := shard_of key in f id) s Q.
Proof.
  intros Hh H. unfold wp, abind. by rewrite (shard_of_wp key s m es (fun _ => aret tt) Hh).
Qed.

Lemma counted_add (data d : gmap bytes bytes) (z : Z) (ms : option ShardMetrics) :
  counted (mkShard _ data ms) -> Z.of_nat (size d) = Z.of_nat (size data) + z -> counted (mkShard _ d (add_key_count z <$> ms)).
Proof. unfold counted. cbn [metrics sdata]. intros Hc ->. destruct ms as [x|]; [|done]. cbn. rewrite Hc. by apply key_count_add. Qed.

Lemma two_shards_rep {R} ix m m1 m2 (a b : nat) (sa sb : Shard bytes) (f : gmap bytes bytes -> gmap bytes bytes -> R * gmap bytes bytes * gmap bytes bytes * Z * Z)
    (r : R) (da db : gmap bytes bytes) (za zb : Z) :
  Represents ix m -> shards ix !! a = Some sa -> shards ix !! b = Some sb -> a <> b ->
  f (sdata sa) (sdata sb) = (r, da, db, za, zb) ->
  Step (fun k => home ix k = a) (sdata sa) da m m1 za -> Step (fun k => home ix k = b) (sdata sb) db m1 m2 zb ->
  exists ix', (if (a =? b)%nat then None else
      sa ← shards ix !! a; sb ← shards ix !! b; let '(r, da, db, za, zb) := f (sdata sa) (sdata sb) in
      let sa := mkShard _ da (add_key_count za <$> metrics sa) in let sb := mkShard _ db (add_key_count zb <$> metrics sb) in
      Some (r, mkIndex _ (<[b := sb]> (<[a := sa]> (shards ix))) (hasher_seed ix))) = Some (r, ix') /\
    Represents ix' m2 /\ same_shape ix ix'.
Proof.
  intros Hr Ha Hb Hne Hf Hs1 Hs2. rewrite (proj2 (Nat.eqb_neq _ _) Hne), Ha, Hb. cbn [mbind option_bind]. rewrite Hf.
  set (sa' := mkShard _ da _). set (sb' := mkShard _ db _).
  destruct (shard_step ix m a sa (fun _ => (tt, sa')) m1 tt sa' za Hr Ha eq_refl) as (ix1 & E1 & Hr1 & Hsh1).
  { intros Hc Hz. destruct sa. by apply (counted_add sdata). }
  { subst sa'. cbn [metrics]. by rewrite fmap_is_Some. }
  { exact Hs1. }
  unfold on_shard in E1. rewrite Ha in E1. cbn [mbind option_bind] in E1. injection E1 as <-.
  destruct (shard_step _ m1 b sb (fun _ => (tt, sb')) m2 tt sb' zb Hr1) as (ix2 & E2 & Hr2 & Hsh2).
  { cbn [shards]. by rewrite list_lookup_insert_ne. }
  { done. }
  { intros Hc Hz. destruct sb. by apply (counted_add sdata). }
  { subst sb'. cbn [metrics]. by rewrite fmap_is_Some. }
  { destruct Hs2 as [B1 B2 B3 B4 B5]. constructor; [|intros k|..].
    - intros k. rewrite (same_home _ _ k Hsh1). apply B1.
    - rewrite (same_home _ _ k Hsh1). apply B2.
    - intros H k Hk. rewrite (same_home _ _ k Hsh1). apply B3; [|done]. intros k' Hk'. rewrite <- (same_home _ _ k' Hsh1). by apply H.
    - exact B4.
    - exact B5. }
  unfold on_shard in E2. cbn [shards] in E2. rewrite list_lookup_insert_ne, Hb in E2 by done. cbn [mbind option_bind] in E2.
  injection E2 as <-. eexists. split_and!; [done|done|by etrans].
Qed.

Lemma on_shard_holds {R} key (f : gmap bytes bytes -> R * gmap bytes bytes * Z) s m m' es r d z :
  Holds s m es ->
  (forall sh, shards (index s) !! home (index s) key = Some sh -> (forall k, home (index s) k = home (index s) key -> sdata sh !! k = m !! k) ->
    f (sdata sh) = (r, d (sdata sh), z) /\ Step (fun k => home (index s) k = home (index s) key) (sdata sh) (d (sdata sh)) m m' z) ->
  wp (on_index (on_shard (home (index s) key) (shard_write f))) s (fun r' s' => r' = Ok r /\ Holds s' m' es /\ config s' = config s).
Proof.
  intros Hh Hf. destruct (home_shard (index s) m key (ho_index _ _ _ Hh)) as (sh & _ & Hsh & _).
  destruct (Hf sh Hsh) as [E Hs]. { intros k Hk. by eapply rep_lookup; [apply Hh|..]. }
  destruct (write_step (index s) m _ sh f m' r _ z (ho_index _ _ _ Hh) Hsh E Hs) as (ix' & E' & Hr & Hs').
  by eapply on_index_holds.
Qed.

(** The records of a renaming. *)
Lemma log_renaming {A} from to v (x : A) s m es : Holds s m es ->
  wp (let! _ := log_del from in let! _ := log_set to v in aret x) s (fun r s' =>
    r = Ok x /\ Holds s' m (es ++ renaming from to v) /\ config s' = config s).
Proof.
  intros Hh. eapply wp_step; [by apply (log_holds (del_event from))|]. cbv beta. intros s1 (Hh1 & Hc1 & _).
  eapply wp_step; [by apply (log_holds (set_event to v))|]. cbv beta. intros s2 (Hh2 & Hc2 & _). apply wp_ret.
  unfold renaming. rewrite <- app_assoc in Hh2. split_and!; [done|done|congruence].
Qed.

Lemma rename_step (at_home : bytes -> Prop) from to v data m :
  at_home from -> at_home to -> (forall k, at_home k -> data !! k = m !! k) -> m !! from = Some v ->
  Step at_home data (<[to := v]> (delete from data)) m (<[to := v]> (delete from m)) (-1 + (if (delete from data : gmap bytes bytes) !! to then 0 else 1)).
Proof.
  intros Hf Ht Hd Hv. pose proof (step_take_out at_home from data m Hf (Hd from Hf)) as H1. unfold take_out in H1.
  rewrite (Hd from Hf), Hv in H1. destruct H1 as [_ H1].
  pose proof (step_put at_home to v (delete from data) (delete from m) Ht (st_in _ _ _ _ _ _ H1 to Ht (Hd to Ht))) as H2.
  destruct H2 as [_ H2]. by eapply step_trans.
Qed.

Lemma two_holds {R} (from to : bytes) (f : gmap bytes bytes -> gmap bytes bytes -> R * gmap bytes bytes * gmap bytes bytes * Z * Z) s m m' es (r : R) :
  Holds s m es -> home (index s) from <> home (index s) to ->
  (forall sa sb, (forall k, home (index s) k = home (index s) from -> sa !! k = m !! k) -> (forall k, home (index s) k = home (index s) to -> sb !! k = m !! k) ->
    exists da db za zb m1, f sa sb = (r, da, db, za, zb) /\ Step (fun k => home (index s) k = home (index s) from) sa da m m1 za /\
      Step (fun k => home (index s) k = home (index s) to) sb db m1 m' zb) ->
  wp (with_two_shards_write (home (index s) from) (home (index s) to) f) s (fun r' s' => r' = Ok r /\ Holds s' m' es /\ config s' = config s).
Proof.
  intros Hh Hne Hf. destruct (home_shard (index s) m from (ho_index _ _ _ Hh)) as (sa & _ & Ha & _).
  destruct (home_shard (index s) m to (ho_index _ _ _ Hh)) as (sb & _ & Hb & _).
  destruct (Hf (sdata sa) (sdata sb)) as (da & db & za & zb & m1 & E & H1 & H2).
  { intros k Hk. by eapply rep_lookup; [apply Hh|..]. }
  { intros k Hk. by eapply rep_lookup; [apply Hh|..]. }
  destruct (two_shards_rep (index s) m m1 m' _ _ sa sb f r da db za zb (ho_index _ _ _ Hh) Ha Hb Hne E H1 H2) as (ix' & E' & Hr & Hs).
  unfold with_two_shards_write. by eapply on_index_holds.
Qed.

Lemma rename_holds (from to : bytes) s m es : Holds s m es ->
  wp (rename from to) s (fun r s' =>
    match m !! from with
    | Some v => r = Ok tt /\ Holds s' (<[to := v]> (delete from m)) (es ++ renaming from to v)
    | None => r = Err KeyNotFound /\ Holds s' m es
    end /\ config s' = config s).
Proof.
  intros Hh. unfold rename. eapply wp_shard_of; [exact Hh|]. eapply wp_shard_of; [exact Hh|].
  destruct (Nat.eqb_spec (home (index s) from) (home (index s) to)) as [E|Hne]; destruct (m !! from) as [v|] eqn:Ev.
  - eapply wp_step.
    { apply (on_shard_holds from _ s m (<[to := v]> (delete from m)) es (Some v)
        (fun data => <[to := v]> (delete from data)) (-1 + (if (delete from m : gmap bytes bytes) !! to then 0 else 1)) Hh).
      intros sh Hsh Hd. rewrite (Hd from eq_refl), Ev. pose proof (rename_step (fun k => home (index s) k = home (index s) from) from to v (sdata sh) m eq_refl (eq_sym E) Hd Ev) as H1.
      assert ((delete from (sdata sh) : gmap bytes bytes) !! to = (delete from m : gmap bytes bytes) !! to) as Et.
      { destruct (decide (from = to)) as [->|]; [by rewrite !lookup_delete_eq|by rewrite !lookup_delete_ne, Hd]. }
      rewrite Et in *. split; [done|exact H1]. }
    cbv beta. intros s1 (Hh1 & Hc1). cbv iota.
    eapply wp_mono; [exact (log_renaming from to v tt s1 _ es Hh1)|]. cbv beta. intros r s2 (-> & Hh2 & Hc2).
    split_and!; [done|done|congruence].
  - eapply wp_step.
    { apply (on_shard_holds from _ s m m es None id 0 Hh). intros sh Hsh Hd. rewrite (Hd from eq_refl), Ev. split; [done|apply step_refl]. }
    cbv beta. intros s1 (Hh1 & Hc1). by split_and!.
  - eapply wp_step.
    { apply (two_holds from to _ s m (<[to := v]> (delete from m)) es (Ok v) Hh Hne). intros sa sb Ha Hb. rewrite (Ha from eq_refl), Ev.
      pose proof (step_take_out (fun k => home (index s) k = home (index s) from) from sa m eq_refl (Ha from eq_refl)) as H1. unfold take_out in H1.
      rewrite (Ha from eq_refl), Ev in H1. destruct H1 as [_ H1]. eexists _, _, _, _, (delete from m). split_and!; [done|exact H1|].
      assert (sb !! to = (delete from m : gmap bytes bytes) !! to) as Et by (rewrite lookup_delete_ne by congruence; by apply Hb).
      pose proof (step_put (fun k => home (index s) k = home (index s) to) to v sb (delete from m) eq_refl Et) as H2. by destruct H2. }
    cbv beta. intros s1 (Hh1 & Hc1). eapply (wp_step _ _ s1 v (fun s' => s' = s1)); [by apply wp_atry|]. intros ? ->.
    eapply wp_mono; [exact (log_renaming from to v tt s1 _ es Hh1)|]. cbv beta. intros r s2 (-> & Hh2 & Hc2).
    split_and!; [done|done|congruence].
  - eapply wp_step.
    { apply (two_holds from to _ s m m es (Err KeyNotFound) Hh Hne). intros sa sb Ha Hb. rewrite (Ha from eq_refl), Ev.
      eexists _, _, _, _, m. split_and!; [done|apply step_refl|apply step_refl]. }
    cbv beta. intros s1 (Hh1 & Hc1). apply wp_bind, wp_atry. by split_and!.
Qed.

Lemma p_rename_refines (from to : bytes) m es s : Holds s m es -> refines (PRename from to) m es s.
Proof.
  intros Hh. unfold refines. cbn [map_call do_call map_after]. pose proof (rename_holds from to s m es Hh) as Hw.
  destruct (m !! from) as [v|]; apply answer_wp; (eapply wp_mono; [exact Hw|]); cbv beta; intros r s' ([-> Hh'] & Hc); cbn [rbind].
  - split_and!; [done|done|done].
  - rewrite app_nil_r. by split_and!.
Qed.

Lemma on_shard_home {R} id (f : Shard bytes -> R * Shard bytes) s (Q : result StoreError R -> Store -> Prop) :
  wp (on_index (on_shard id f)) s Q ->
  wp (on_index (on_shard id f)) s (fun r s' => Q r s' /\ forall k, home (index s') k = home (index s) k).
Proof.
  unfold wp, on_index, on_shard. destruct (shards (index s) !! id) as [sh|]; cbn [mbind option_bind]; [|done].
  destruct (f sh) as [r sh']. cbn [mbind option_bind]. intros HQ. split; [done|]. intros k. apply home_ext; [done|apply length_insert].
Qed.

Lemma on_shard_length {R} id (f : Shard bytes -> R * Shard bytes) s (Q : result StoreError R -> Store -> Prop) :
  wp (on_index (on_shard id f)) s Q ->
  wp (on_index (on_shard id f)) s (fun r s' => Q r s' /\ length (shards (index s')) = length (shards (index s))).
Proof.
  unfold wp, on_index, on_shard. destruct (shards (index s) !! id) as [sh|]; cbn [mbind option_bind]; [|done].
  destruct (f sh) as [r sh']. cbn [mbind option_bind]. intros HQ. split; [done|]. apply length_insert.
Qed.

Lemma two_home {R} (a b : nat) (f : gmap bytes bytes -> gmap bytes bytes -> R * gmap bytes bytes * gmap bytes bytes * Z * Z) s (Q : result StoreError R -> Store -> Prop) :
  wp (with_two_shards_write a b f) s Q ->
  wp (with_two_shards_write a b f) s (fun r s' => Q r s' /\ forall k, home (index s') k = home (index s) k).
Proof.
  unfold wp, with_two_shards_write, on_index. destruct (a =? b)%nat; [done|].
  destruct (shards (index s) !! a) as [sa|]; cbn [mbind option_bind]; [|done].
  destruct (shards (index s) !! b) as [sb|]; cbn [mbind option_bind]; [|done].
  destruct (f (sdata sa) (sdata sb)) as [[[[r da] db] za] zb]. cbn [mbind option_bind]. intros HQ. split; [done|]. intros k.
  apply home_ext; [done|]. cbn [set_index index shards]. by rewrite !length_insert.
Qed.

Lemma wp_unwrap {A} id key v (f : bytes -> act A) s m es (Q : result StoreError A -> Store -> Prop) :
  Holds s m es -> home (index s) key = id -> m !! key = Some v -> wp (f v) s Q -> wp (let! value := unwrap_key id key in f value) s Q.
Proof.
  intros Hh <- Hv H. destruct (home_shard (index s) m key (ho_index _ _ _ Hh)) as (sh & _ & Hsh & Hk).
  unfold wp, abind, unwrap_key. rewrite Hsh. cbn [mbind option_bind]. by rewrite Hk, Hv.
Qed.

(** The reply of [renamenx], and the map and the records after it. *)
Definition renamed_nx (from to : bytes) m : result StoreError bool * gmap bytes bytes * list event :=
  match m !! from, m !! to with
  | None, _ => (Err KeyNotFound, m, [])
  | Some _, Some _ => (Ok false, m, [])
  | Some v, None => (Ok true, <[to := v]> (delete from m), renaming from to v)
  end.

Lemma renamenx_same (from to : bytes) s m es : Holds s m es -> home (index s) from = home (index s) to ->
  wp (renamenx from to) s (fun r s' =>
    r = (renamed_nx from to m).1.1 /\ Holds s' (renamed_nx from to m).1.2 (es ++ (renamed_nx from to m).2) /\ config s' = config s).
Proof.
  intros Hh E. unfold renamenx. eapply wp_shard_of; [exact Hh|]. eapply wp_shard_of; [exact Hh|].
  rewrite (proj2 (Nat.eqb_eq _ _) E). unfold renamed_nx.
  assert (forall r m' d, (forall data, (forall k, home (index s) k = home (index s) from -> data !! k = m !! k) ->
      match data !! from, data !! to with
      | None, _ => (Err KeyNotFound, data, 0)
      | Some _, Some _ => (Ok false, data, 0)
      | Some val, None => (Ok true, <[to := val]> (delete from data), 0)
      end = (r, d data, 0) /\ Step (fun k => home (index s) k = home (index s) from) data (d data) m m' 0) ->
    wp (on_index (on_shard (home (index s) from) (shard_write (fun data =>
      match data !! from, data !! to with
      | None, _ => (Err KeyNotFound, data, 0)
      | Some _, Some _ => (Ok false, data, 0)
      | Some val, None => (Ok true, <[to := val]> (delete from data), 0)
      end)))) s (fun r' s' => r' = Ok r /\ ((Holds s' m' es /\ config s' = config s) /\ forall k, home (index s') k = home (index s) k))) as Hcall.
  { intros r m' d Hd. eapply wp_mono; [apply on_shard_home, (on_shard_holds from _ s m m' es r d 0 Hh)|].
    - intros sh Hsh Hk. by apply Hd.
    - cbv beta. intros r' s' [[-> [? ?]] Hhome]. by split_and!. }
  destruct (m !! from) as [v|] eqn:Ev; [destruct (m !! to) as [v'|] eqn:Et|]; cbn [fst snd].
  - eapply wp_step; [apply (Hcall (Ok false) m id)|].
    { intros data Hd. rewrite (Hd from eq_refl), (Hd to (eq_sym E)), Ev, Et. split; [done|apply step_refl]. }
    cbv beta. intros s1 ((Hh1 & Hc1) & _). eapply (wp_step _ _ s1 false (fun s' => s' = s1)); [by apply wp_atry|]. intros ? ->. cbv iota.
    apply wp_ret. rewrite app_nil_r. by split_and!.
  - assert (from <> to) as Hft by congruence.
    eapply wp_step; [apply (Hcall (Ok true) (<[to := v]> (delete from m)) (fun data => <[to := v]> (delete from data)))|].
    { intros data Hd. rewrite (Hd from eq_refl), (Hd to (eq_sym E)), Ev, Et. split; [done|].
      pose proof (rename_step (fun k => home (index s) k = home (index s) from) from to v data m eq_refl (eq_sym E) Hd Ev) as H1.
      rewrite lookup_delete_ne, (Hd to (eq_sym E)), Et in H1 by done. exact H1. }
    cbv beta. intros s1 ((Hh1 & Hc1) & Hhome). eapply (wp_step _ _ s1 true (fun s' => s' = s1)); [by apply wp_atry|]. intros ? ->. cbv iota.
    eapply wp_step; [by apply (log_holds (del_event from))|]. cbv beta. intros s2 (Hh2 & Hc2 & Hi2).
    eapply (wp_unwrap _ to v _ s2 _ _ _ Hh2); [by rewrite Hi2, Hhome|by rewrite lookup_insert_eq|].
    eapply wp_step; [by apply (log_holds (set_event to v))|]. cbv beta. intros s3 (Hh3 & Hc3 & _). apply wp_ret.
    rewrite <- app_assoc in Hh3. split_and!; [done|done|congruence].
  - eapply wp_step; [apply (Hcall (Err KeyNotFound) m id)|].
    { intros data Hd. rewrite (Hd from eq_refl), Ev. split; [done|apply step_refl]. }
    cbv beta. intros s1 ((Hh1 & Hc1) & _). apply wp_bind, wp_atry. rewrite app_nil_r. by split_and!.
Qed.

Lemma renamenx_other (from to : bytes) s m es : Holds s m es -> home (index s) from <> home (index s) to ->
  wp (renamenx from to) s (fun r s' =>
    r = (renamed_nx from to m).1.1 /\ Holds s' (renamed_nx from to m).1.2 (es ++ (renamed_nx from to m).2) /\ config s' = config s).
Proof.
  intros Hh Hne. unfold renamenx. eapply wp_shard_of; [exact Hh|]. eapply wp_shard_of; [exact Hh|].
  rewrite (proj2 (Nat.eqb_neq _ _) Hne). unfold renamed_nx.
  destruct (m !! from) as [v|] eqn:Ev; [destruct (m !! to) as [v'|] eqn:Et|]; cbn [fst snd].
  - eapply wp_step.
    { apply (two_holds from to _ s m m es (Ok false) Hh Hne). intros sa sb Ha Hb. rewrite (Ha from eq_refl), (Hb to eq_refl), Ev, Et.
      eexists _, _, _, _, m. split_and!; [done|apply step_refl|apply step_refl]. }
    cbv beta. intros s1 (Hh1 & Hc1). eapply (wp_step _ _ s1 false (fun s' => s' = s1)); [by apply wp_atry|]. intros ? ->. cbv iota.
    apply wp_ret. rewrite app_nil_r. by split_and!.
  - eapply (wp_step _ _ s (Ok true) (fun s1 => (Holds s1 (<[to := v]> (delete from m)) es /\ config s1 = config s) /\ forall k, home (index s1) k = home (index s) k)).
    { eapply wp_mono; [apply two_home, (two_holds from to _ s m (<[to := v]> (delete from m)) es (Ok true) Hh Hne)|].
      - intros sa sb Ha Hb. rewrite (Ha from eq_refl), (Hb to eq_refl), Ev, Et.
        pose proof (step_take_out (fun k => home (index s) k = home (index s) from) from sa m eq_refl (Ha from eq_refl)) as H1. unfold take_out in H1.
        rewrite (Ha from eq_refl), Ev in H1. destruct H1 as [_ H1]. eexists _, _, _, _, (delete from m). split_and!; [done|exact H1|].
        assert (sb !! to = (delete from m : gmap bytes bytes) !! to) as Etd by (rewrite lookup_delete_ne by congruence; by apply Hb).
        pose proof (step_put (fun k => home (index s) k = home (index s) to) to v sb (delete from m) eq_refl Etd) as H2. unfold put in H2.
        rewrite (Hb to eq_refl), Et in H2. by destruct H2.
      - cbv beta. intros r s' [[-> [? ?]] Hhome]. by split_and!. }
    cbv beta. intros s1 ((Hh1 & Hc1) & Hhome). eapply (wp_step _ _ s1 true (fun s' => s' = s1)); [by apply wp_atry|]. intros ? ->. cbv iota.
    rewrite <- (Hhome to). destruct (home_shard (index s1) _ to (ho_index _ _ _ Hh1)) as (sh & _ & Hsh & Hk). rewrite lookup_insert_eq in Hk.
    destruct (read_step (index s1) _ (home (index s1) to) sh (fun data => data !! to) (ho_index _ _ _ Hh1) Hsh) as (ix' & E' & Hr & Hs).
    eapply wp_step; [eapply on_index_holds; [exact Hh1|exact E'|exact Hr|exact Hs]|]. cbv beta. intros s2 (Hh2 & Hc2). rewrite Hk.
    eapply (wp_step _ _ s2 v (fun s' => s' = s2)); [by apply wp_pure|]. intros ? ->.
    eapply wp_mono; [exact (log_renaming from to v true s2 _ es Hh2)|]. cbv beta. intros r s3 (-> & Hh3 & Hc3).
    split_and!; [done|done|congruence].
  - eapply wp_step.
    { apply (two_holds from to _ s m m es (Err KeyNotFound) Hh Hne). intros sa sb Ha Hb. rewrite (Ha from eq_refl), Ev.
      eexists _, _, _, _, m. split_and!; [done|apply step_refl|apply step_refl]. }
    cbv beta. intros s1 (Hh1 & Hc1). apply wp_bind, wp_atry. rewrite app_nil_r. by split_and!.
Qed.

Lemma p_renamenx_refines (from to : bytes) m es s : Holds s m es -> refines (PRenameNx from to) m es s.
Proof.
  intros Hh. unfold refines. cbn [map_call do_call map_after].
  assert (wp (renamenx from to) s (fun r s' =>
    r = (renamed_nx from to m).1.1 /\ Holds s' (renamed_nx from to m).1.2 (es ++ (renamed_nx from to m).2) /\ config s' = config s)) as Hw.
  { destruct (decide (home (index s) from = home (index s) to)); [by apply renamenx_same|by apply renamenx_other]. }
  unfold renamed_nx in Hw. destruct (m !! from) as [v|]; [destruct (m !! to)|]; apply answer_wp; (eapply wp_mono; [exact Hw|]);
    cbv beta; intros r s' (-> & Hh' & Hc); by split_and!.
Qed.

(** *** Many keys *)

Lemma encode_all_repr (entries : list (bytes * Value)) (l : list (bytes * bytes)) (lm : gmap bytes bytes) lookup :
  hm_repr l lm -> encode_all entries l = Some lookup ->
  exists lm' : gmap bytes bytes, hm_repr lookup lm' /\ forall k, is_Some (lm' !! k) <-> is_Some (lm !! k) \/ k ∈ entries.*1.
Proof.
  revert l lm. induction entries as [|[k v] entries IH]; intros l lm Hr He; cbn [encode_all] in He.
  { injection He as <-. exists lm. split; [done|]. intros k. split; [auto|]. by intros [H|H%not_elem_of_nil]. }
  destruct (encode v) as [b|]; cbn [mbind option_bind] in He; [|done].
  destruct (hm_insert_spec l lm k b Hr) as [_ Hr']. destruct (IH _ _ Hr' He) as (lm' & Hr'' & Hk). exists lm'. split; [done|].
  intros k'. rewrite Hk, fmap_cons, elem_of_cons. cbn [fst]. destruct (decide (k = k')) as [->|Hne].
  - rewrite lookup_insert_eq. split; [by auto|]. intros _. left. by eexists.
  - rewrite lookup_insert_ne by done. split; [tauto|]. intros [?|[->|?]]; [tauto|done|tauto].
Qed.

Lemma log_sets_holds (kvs : list (bytes * bytes)) s m es : Holds s m es ->
  wp (log_sets kvs) s (fun r s' => r = Ok tt /\ Holds s' m (es ++ ((fun kv => set_event kv.1 kv.2) <$> kvs)) /\ config s' = config s /\ index s' = index s).
Proof.
  revert s es. induction kvs as [|[k v] kvs IH]; intros s es Hh; cbn [log_sets].
  { apply wp_ret. rewrite app_nil_r. by split_and!. }
  eapply wp_step; [by apply (log_holds (set_event k v))|]. cbv beta. intros s1 (Hh1 & Hc1 & Hi1).
  eapply wp_mono; [by apply IH|]. cbv beta. intros r s2 (-> & Hh2 & Hc2 & Hi2). rewrite <- app_assoc in Hh2.
  split_and!; [done|done|congruence|congruence].
Qed.

Lemma apply_set_events (kvs : list (bytes * bytes)) m : foldl apply_event m ((fun kv => set_event kv.1 kv.2) <$> kvs) = insert_pairs m kvs.
Proof. revert m. induction kvs as [|[k v] kvs IH]; intros m; [done|]. rewrite fmap_cons, insert_pairs_cons. cbn [foldl]. by rewrite IH. Qed.

(** What the pairs of a group put at a key. *)
Lemma shard_pairs_lookup (lookup : list (bytes * bytes)) (lm m : gmap bytes bytes) (keys : list bytes) (k : bytes) : hm_repr lookup lm ->
  insert_pairs m (shard_pairs lookup keys) !! k = (if decide (k ∈ keys) then lm ∪ m else m) !! k.
Proof.
  intros Hr. revert m. induction keys as [|k' keys IH]; intros m; [done|]. unfold shard_pairs. cbn [omap list_omap].
  rewrite (hm_repr_lookup lookup lm k' Hr). fold (shard_pairs lookup keys).
  destruct (lm !! k') as [v|] eqn:Ev; cbn [mbind option_bind].
  - rewrite insert_pairs_cons, IH. destruct (decide (k = k')) as [->|Hne].
    + rewrite (decide_True (P := k' ∈ k' :: keys)) by (by left). rewrite (lookup_union_Some_l lm m k' v Ev).
      case_decide; [by apply lookup_union_Some_l|by rewrite lookup_insert_eq].
    + rewrite (decide_ext (k ∈ k' :: keys) (k ∈ keys)) by (rewrite elem_of_cons; tauto).
      case_decide; [rewrite !lookup_union, lookup_insert_ne by done; done|by rewrite lookup_insert_ne].
  - fold (shard_pairs lookup keys). rewrite IH. destruct (decide (k = k')) as [->|Hne].
    + rewrite (decide_True (P := k' ∈ k' :: keys)) by (by left). rewrite (lookup_union_r lm m k' Ev).
      case_decide; [by apply lookup_union_r|done].
    + by rewrite (decide_ext (k ∈ k' :: keys) (k ∈ keys)) by (rewrite elem_of_cons; tauto).
Qed.

(** The groups in the order of their map. *)
Lemma groups_unsorted {A} {order : HashOrder (nat * list A)} ix (key_of : A -> bytes) items :
  shards ix <> [] ->
  exists groups, group_keys_by_shard ix key_of items [] = Some groups /\ NoDup groups.*1 /\
    (forall (s : nat) xs, (s, xs) ∈ groups -> (s < length (shards ix))%nat /\ xs = filter (fun x => at_shard ix s (key_of x)) items) /\
    (forall x, x ∈ items -> exists xs, (home ix (key_of x), xs) ∈ groups).
Proof.
  intros Hne. destruct (sorted_groups_spec ix key_of items Hne) as (groups & E & Hnd & Hf & Hin). exists groups.
  assert (sorted_groups groups ≡ₚ groups) as Hp by apply merge_sort_Permutation.
  split_and!; [done|by rewrite <- Hp|intros s xs H; apply Hf; by rewrite Hp|].
  intros x Hx. destruct (Hin x Hx) as [xs Hxs]. exists xs. by rewrite <- Hp.
Qed.

Lemma mset_groups_holds (groups : list (nat * list bytes)) (lookup : list (bytes * bytes)) (lm : gmap bytes bytes) ix m (keys : list bytes) :
  Represents ix m -> hm_repr lookup lm -> (forall k, is_Some (lm !! k) -> k ∈ keys) ->
  NoDup groups.*1 -> (forall (s : nat) xs, (s, xs) ∈ groups -> (s < length (shards ix))%nat /\ xs = filter (fun x => at_shard ix s (id x)) keys) ->
  (forall x, x ∈ keys -> exists xs, (home ix (id x), xs) ∈ groups) ->
  exists ix', Sharding.mset_groups ((fun g => (g.1, shard_pairs lookup g.2)) <$> groups) ix = Some ix' /\
    Represents ix' (lm ∪ m) /\ same_shape ix ix'.
Proof.
  intros Hr Hl Hk Hnd Hf Hin. set (gs := _ <$> groups).
  assert (Forall (fun g => Forall (fun kv => home ix kv.1 = g.1) g.2) gs) as Hall.
  { apply Forall_fmap, Forall_forall. intros [s xs] Hg. cbn [compose fst snd]. destruct (Hf s xs Hg) as [_ ->].
    apply Forall_forall. intros [k v] H. unfold shard_pairs in H. apply list_elem_of_omap in H as (k' & [Hb _]%list_elem_of_filter & H).
    destruct (hm_get k' lookup) as [v'|]; [|done]. injection H as <- <-. by apply bool_decide_unpack in Hb. }
  destruct (mset_groups_rep gs ix m Hr) as (ix' & E & Hs & Hr').
  { apply Forall_forall. intros g Hg. split; [|by apply (proj1 (Forall_forall _ _) Hall)].
    apply list_elem_of_fmap in Hg as ([s xs] & -> & Hg). by apply (Hf s xs Hg). }
  exists ix'. split_and!; [done| |done].
  assert (gs.*1 = groups.*1) as E1 by (unfold gs; by rewrite <- list_fmap_compose).
  replace (lm ∪ m) with (foldl (fun m g => insert_pairs m g.2) m gs); [done|]. apply map_eq. intros k.
  destruct (decide (home ix k ∈ gs.*1)) as [Hg|Hg].
  - rewrite E1 in Hg. apply list_elem_of_fmap in Hg as ([s xs] & Es & Hg). cbn [fst] in Es. subst s.
    rewrite (groups_lookup gs m k (home ix) (shard_pairs lookup xs)); [|by rewrite E1|done|unfold gs; apply list_elem_of_fmap; by eexists (_, _)].
    rewrite (shard_pairs_lookup lookup lm m xs k Hl). case_decide as Hx; [done|].
    rewrite lookup_union_r; [done|]. apply eq_None_not_Some. intros H%Hk. apply Hx. destruct (Hf _ _ Hg) as [_ ->].
    apply list_elem_of_filter. split; [by apply bool_decide_pack|done].
  - rewrite (groups_other gs m k (home ix) Hall Hg). rewrite lookup_union_r; [done|]. apply eq_None_not_Some. intros H%Hk.
    apply Hg. rewrite E1. destruct (Hin k H) as [xs Hxs]. by apply (list_elem_of_fmap_2 fst) in Hxs.
Qed.

Lemma p_mset_refines (entries : list (bytes * Value)) m es s : Holds s m es -> refines (PMSet entries) m es s.
Proof.
  intros Hh. unfold refines. cbn [map_call do_call map_after]. change (st_mset entries) with (mset entries).
  destruct (encode_all entries []) as [lookup|] eqn:El; cbn [mbind option_bind];
    [|unfold answer, abind, mset; unfold apure at 1; by rewrite El].
  apply answer_wp. unfold mset. rewrite El. eapply (wp_step _ _ s lookup (fun s' => s' = s)); [by apply wp_pure|]. intros ? ->.
  destruct (encode_all_repr entries [] ∅ lookup hm_repr_nil El) as (lm & Hl & Hk).
  destruct (groups_unsorted (index s) id entries.*1 (rep_shards _ _ (ho_index _ _ _ Hh))) as (groups & Eg & Hnd & Hf & Hin).
  eapply (wp_step _ _ s groups (fun s' => s' = s)); [unfold wp; by rewrite Eg|]. intros ? ->.
  eapply wp_step; [by apply log_sets_holds|]. cbv beta. intros s1 (Hh1 & Hc1 & Hi1).
  destruct (mset_groups_holds groups lookup lm (index s1) m entries.*1 (ho_index _ _ _ Hh1) Hl) as (ix' & E' & Hr' & Hs').
  { intros k H%Hk. destruct H as [[x Hx]|H]; [by rewrite lookup_empty in Hx|done]. }
  { done. }
  { by rewrite Hi1. }
  { by rewrite Hi1. }
  rewrite apply_set_events, insert_pairs_union by (by apply (hm_repr_NoDup lookup lm)).
  rewrite (list_to_map_proper (M := gmap bytes) lookup (map_to_list lm) (hm_repr_NoDup _ _ Hl) Hl), list_to_map_to_list.
  eapply wp_mono; [eapply (on_index_holds _ s1 m (lm ∪ m) _ tt ix' Hh1); [by rewrite E'|done|done]|].
  cbv beta. intros r s2 (-> & Hh2 & Hc2). split_and!; [done|done|congruence].
Qed.

(** The values that can be read. *)
Definition readable (b : bytes) : option Value := match decode b with Ok v => Some v | Err _ => None end.
Definition readable_map m : gmap bytes Value := omap readable m.
Definition decodable m key : Prop := forall b, m !! key = Some b -> is_Some (readable b).

Lemma value_at_spec m key :
  match value_at m key with
  | Ok v => decodable m key /\ v = readable_map m !! key
  | Err e => (exists msg, e = SerdeError msg) /\ ~ decodable m key
  end.
Proof.
  unfold value_at, decodable, readable_map. rewrite lookup_omap. destruct (m !! key) as [b|]; [|done]. cbn [mbind option_bind rbind].
  unfold readable. destruct (decode b) as [v|e] eqn:Ed; cbn [rbind].
  - split; [|done]. intros b' [= <-]. rewrite Ed. by eexists.
  - split.
    + unfold decode in Ed. destruct (from_bytes zstd_decode stack b); [done|]. injection Ed as <-. by eexists.
    + intros H. destruct (H b eq_refl) as [v Hv]. by rewrite Ed in Hv.
Qed.

Lemma decode_items_spec m (items : list (nat * bytes)) (data : gmap bytes bytes) :
  Forall (fun it => data !! it.2 = m !! it.2) items ->
  match decode_items items data with
  | Ok found => Forall (fun it => decodable m it.2) items /\ found = (fun it => (it.1, readable_map m !! it.2)) <$> items
  | Err e => (exists msg, e = SerdeError msg) /\ exists it, it ∈ items /\ ~ decodable m it.2
  end.
Proof.
  intros Hall. induction Hall as [|[i key] items Hd Hall IH]; cbn [decode_items]; [done|]. cbn [fst snd] in *.
  rewrite Hd. pose proof (value_at_spec m key) as Hv. unfold value_at in Hv.
  destruct (match m !! key with Some b => _ | None => _ end) as [v|e]; cbn [rbind].
  - destruct Hv as [Hv ->]. destruct (decode_items items data) as [found|e]; cbn [rbind].
    + destruct IH as [IH ->]. split; [by constructor|done].
    + destruct IH as [IH (it & Hit & Hn)]. split; [done|]. exists it. split; [by right|done].
  - destruct Hv as [Hv Hn]. split; [done|]. exists (i, key). split; [by left|done].
Qed.

Lemma values_at_spec m (keys : list bytes) :
  match values_at m keys with
  | Ok vs => Forall (decodable m) keys /\ vs = (fun key => readable_map m !! key) <$> keys
  | Err e => (exists msg, e = SerdeError msg) /\ exists key, key ∈ keys /\ ~ decodable m key
  end.
Proof.
  induction keys as [|key keys IH]; cbn [values_at]; [done|]. pose proof (value_at_spec m key) as Hv.
  destruct (value_at m key) as [v|e]; cbn [rbind].
  - destruct Hv as [Hv ->]. destruct (values_at m keys) as [vs|e]; cbn [rbind].
    + destruct IH as [IH ->]. split; [by constructor|done].
    + destruct IH as [IH (k & Hk & Hn)]. split; [done|]. exists k. split; [by right|done].
  - destruct Hv as [Hv Hn]. split; [done|]. exists key. split; [by left|done].
Qed.

Lemma mget_groups_holds (keys : list bytes) (groups : list (nat * list (nat * bytes))) (results : list (option Value)) done_ s m es :
  Holds s m es -> filled keys (readable_map m) results done_ ->
  Forall (fun g => (g.1 < length (shards (index s)))%nat /\ Forall (fun it => home (index s) it.2 = g.1 /\ keys !! it.1 = Some it.2) g.2) groups ->
  wp (Persistent.mget_groups groups results) s (fun r s' => (Holds s' m es /\ config s' = config s) /\
    match r with
    | Ok res => filled keys (readable_map m) res (fun i => (exists g, g ∈ groups /\ i ∈ g.2.*1) \/ done_ i) /\
        Forall (fun g => Forall (fun it => decodable m it.2) g.2) groups
    | Err e => (exists msg, e = SerdeError msg) /\ exists g it, g ∈ groups /\ it ∈ g.2 /\ ~ decodable m it.2
    end).
Proof.
  revert s results done_. induction groups as [|[sid items] groups IH]; intros s results done_ Hh Hf Hall; cbn [Persistent.mget_groups].
  { apply wp_ret. split; [by split|]. split; [|done]. split; [apply Hf|].
    intros i key Hi [(g & Hg & _)|Hd]; [by apply not_elem_of_nil in Hg|by apply Hf]. }
  apply Forall_cons in Hall as [[Hlt Hk] Hall]. cbn [fst snd] in *. destruct (lookup_lt_is_Some_2 _ _ Hlt) as [sh Hsh].
  assert (Forall (fun it : nat * bytes => sdata sh !! it.2 = m !! it.2) items) as Hd.
  { eapply Forall_impl; [exact Hk|]. intros it [Hit _]. by apply (rep_lookup (index s) m (ho_index _ _ _ Hh) sid). }
  destruct (read_step (index s) m sid sh (decode_items items) (ho_index _ _ _ Hh) Hsh) as (ix1 & E1 & Hr1 & Hs1).
  eapply (wp_step _ _ s (decode_items items (sdata sh)) (fun s1 => ((Holds s1 m es /\ config s1 = config s) /\
    (forall k, home (index s1) k = home (index s) k)) /\ length (shards (index s1)) = length (shards (index s)))).
  { eapply wp_mono; [eapply on_shard_length, on_shard_home, on_index_holds; [exact Hh|exact E1|exact Hr1|exact Hs1]|].
    cbv beta. intros r s' [[[-> H1] H2] H3]. split; [done|]. by split. }
  cbv beta. intros s1 [[[Hh1 Hc1] Hhome] Hlen]. pose proof (decode_items_spec m items (sdata sh) Hd) as Hdec.
  destruct (decode_items items (sdata sh)) as [found|e]; [|apply wp_bind, wp_atry].
  - eapply (wp_step _ _ s1 found (fun s' => s' = s1)); [by apply wp_atry|]. intros ? ->. destruct Hdec as [Hdec ->].
    assert (Forall (fun it : nat * bytes => keys !! it.1 = Some it.2) items) as Hk' by (by eapply Forall_impl; [exact Hk|intros ? []]).
    eapply wp_mono; [apply (IH s1 _ _ Hh1 (place_filled keys (readable_map m) items results done_ Hf Hk'))|].
    + eapply Forall_impl; [exact Hall|]. intros [s' xs] [H1 H2]. cbn [fst snd] in *. split; [by rewrite Hlen|].
      eapply Forall_impl; [exact H2|]. intros it. by rewrite Hhome.
    + cbv beta. intros r s2 [[Hh2 Hc2] H]. split; [split; [done|congruence]|]. destruct r as [res|e].
      * destruct H as [[Hl Hf'] Hall']. split; [|by constructor]. split; [exact Hl|]. intros i key Hi Hd'. apply (Hf' i key Hi).
        destruct Hd' as [(g & Hg & Hin)|Hd']; [|tauto]. apply elem_of_cons in Hg as [->|Hg]; [right; by left|left; by exists g].
      * destruct H as [He (g & it & Hg & H)]. split; [done|]. exists g, it. split; [by right|done].
  - destruct Hdec as [He (it & Hit & Hn)]. split; [done|]. split; [done|]. exists (sid, items), it. split; [by left|done].
Qed.

Lemma p_mget_refines (keys : list bytes) m es s : Holds s m es -> refines (PMGet keys) m es s.
Proof.
  intros Hh. unfold refines. cbn [map_call do_call map_after]. change (st_mget keys) with (mget keys). unfold reading.
  apply answer_wp. rewrite app_nil_r. set (items := zip (seq 0 (length keys)) keys).
  assert (forall it, it ∈ items <-> keys !! it.1 = Some it.2) as Hit.
  { intros [i k]. cbn [fst snd]. unfold items. rewrite list_elem_of_lookup. setoid_rewrite lookup_zip_with. split.
    - intros [j Hj]. destruct (seq 0 (length keys) !! j) as [n|] eqn:En; [|done]. cbn in Hj.
      destruct (keys !! j) as [k'|] eqn:Ek; [|done]. injection Hj as <- <-. apply lookup_seq in En as [-> _]. done.
    - intros Hk. exists i. rewrite lookup_seq_lt by (by eapply lookup_lt_Some). cbn. by rewrite Hk. }
  destruct (sorted_groups_spec (index s) snd items (rep_shards _ _ (ho_index _ _ _ Hh))) as (groups & E & Hnd & Hfil & Hin).
  unfold mget. fold items. eapply (wp_step _ _ s groups (fun s' => s' = s)); [unfold wp; by rewrite E|]. intros ? ->.
  eapply wp_mono; [apply (mget_groups_holds keys (sorted_groups groups) (replicate (length keys) None) (fun _ => False) s m es Hh)|].
  - split; [apply length_replicate|done].
  - apply Forall_forall. intros [sid xs] Hg. destruct (Hfil sid xs Hg) as [Hlt ->]. split; [done|]. cbn [fst snd].
    apply Forall_forall. intros it [Hb Hi]%list_elem_of_filter. split; [by apply bool_decide_unpack in Hb|by apply Hit].
  - assert (forall i key, keys !! i = Some key -> exists g, g ∈ sorted_groups groups /\ (i, key) ∈ g.2) as Hall.
    { intros i key Hk. assert ((i, key) ∈ items) as Hi by (by apply Hit). destruct (Hin _ Hi) as [xs Hxs]. eexists. split; [exact Hxs|].
      destruct (Hfil _ _ Hxs) as [_ ->]. apply list_elem_of_filter. split; [by apply bool_decide_pack|done]. }
    cbv beta. intros r s' [[Hh' Hc'] H]. split; [|by split]. pose proof (values_at_spec m keys) as Hv. destruct r as [res|e].
    + destruct H as [[Hl Hf] Hdec]. destruct (values_at m keys) as [vs|e].
      * destruct Hv as [_ ->]. cbn [rbind same_reply]. do 2 f_equal.
        apply list_eq_same_length with (n := length keys); [by rewrite length_fmap|done|].
        intros i x y Hi Hx Hy. destruct (lookup_lt_is_Some_2 keys i Hi) as [key Hk].
        rewrite (Hf i key Hk) in Hx.
        -- rewrite list_lookup_fmap, Hk in Hy. cbn in Hy. congruence.
        -- left. destruct (Hall i key Hk) as (g & Hg & Hi'). exists g. split; [done|]. by apply (list_elem_of_fmap_2 fst) in Hi'.
      * exfalso. destruct Hv as [_ (key & Hkey & Hn)]. apply list_elem_of_lookup in Hkey as [i Hi]. destruct (Hall i key Hi) as (g & Hg & Hi').
        apply Hn. exact (proj1 (Forall_forall _ _) (proj1 (Forall_forall _ _) Hdec g Hg) _ Hi').
    + destruct H as [[msg ->] (g & it & Hg & Hi & Hn)]. destruct (values_at m keys) as [vs|e].
      * exfalso. destruct Hv as [Hv _]. apply Hn. apply (proj1 (Forall_forall _ _) Hv). apply list_elem_of_lookup. exists it.1.
        apply Hit. destruct g as [sid xs]. destruct (Hfil sid xs Hg) as [_ ->]. by apply list_elem_of_filter in Hi as [_ Hi].
      * by destruct Hv as [[msg' ->] _].
Qed.

(** *** The whole store *)

Lemma clear_counted (sh : Shard bytes) : counted sh ->
  counted (mkShard bytes ∅ (record_write_op <$> (add_key_count (- Z.of_nat (size (sdata sh))) <$> metrics sh))).
Proof.
  unfold counted. cbn [metrics sdata]. rewrite map_size_empty. destruct (metrics sh) as [ms|]; [|done]. cbn. intros ->.
  apply key_count_add. f_equal. lia.
Qed.

(** The shards from a number on are emptied. *)
Definition cleared (id : nat) ix ix' : Prop :=
  same_shape ix ix' /\ (Forall counted (shards ix) -> Forall counted (shards ix')) /\
  (forall i, (i < id)%nat -> shards ix' !! i = shards ix !! i) /\
  (forall i sh, (id <= i)%nat -> shards ix' !! i = Some sh -> sdata sh = ∅).

Lemma clear_shards_spec n id ix : (id + n)%nat = length (shards ix) ->
  exists ix', clear_shards n id ix = Some ix' /\ cleared id ix ix'.
Proof.
  revert id ix. induction n as [|n IH]; intros id ix Hl; cbn [clear_shards].
  { exists ix. split; [done|]. split_and!; [done|done|done|]. intros i sh Hi Hsh. apply lookup_lt_Some in Hsh. lia. }
  destruct (lookup_lt_is_Some_2 (shards ix) id ltac:(lia)) as [sh Hsh]. unfold on_shard. rewrite Hsh. cbn [mbind option_bind].
  unfold shard_write at 1. cbv beta iota.
  set (sh' := mkShard _ ∅ _). set (ix1 := mkIndex _ (<[id := sh']> (shards ix)) (hasher_seed ix)).
  destruct (IH (id + 1)%nat ix1) as (ix' & E & Hs & Hc & H1 & H2); [unfold ix1; cbn [shards]; rewrite length_insert; lia|].
  exists ix'. split; [exact E|].
  assert (same_shape ix ix1) as Hs1.
  { split_and!; [done|apply length_insert|]. unfold ix1. cbn [shards]. rewrite list_fmap_insert. apply list_insert_id.
    rewrite list_lookup_fmap, Hsh. cbn. f_equal. by destruct (metrics sh). }
  split_and!.
  - by etrans.
  - intros H. apply Hc. unfold ix1. cbn [shards]. apply Forall_insert; [done|]. apply clear_counted. by eapply Forall_lookup_1.
  - intros i Hi. rewrite H1 by lia. unfold ix1. cbn [shards]. apply list_lookup_insert_ne. lia.
  - intros i sh0 Hi Hsh0. destruct (decide (i = id)) as [->|Hne]; [|apply (H2 i); [lia|done]].
    rewrite H1 in Hsh0 by lia. unfold ix1 in Hsh0. cbn [shards] in Hsh0. rewrite list_lookup_insert_eq in Hsh0 by lia. by injection Hsh0 as <-.
Qed.

Lemma p_flushdb_refines m es s : Holds s m es -> refines PFlushDb m es s.
Proof.
  intros Hh. unfold refines. cbn [map_call do_call map_after]. apply answer_wp. change st_flushdb with flushdb.
  destruct (clear_shards_spec (length (shards (index s))) 0 (index s) eq_refl) as (ix' & E & Hs & Hc & _ & H2).
  eapply wp_mono; [eapply (on_index_holds _ s m ∅ es tt ix' Hh); [by rewrite E| |done]|].
  - destruct Hh as [[R1 R2 R3 R4 R5] _ _ _]. constructor.
    + intros E0. destruct Hs as (_ & Hl & _). rewrite E0 in Hl. by destruct (shards (index s)).
    + intros i sh key Hsh _. by rewrite (H2 i sh ltac:(lia) Hsh).
    + intros i sh key Hsh [x Hx]. rewrite (H2 i sh ltac:(lia) Hsh) in Hx. by rewrite lookup_empty in Hx.
    + rewrite map_size_empty. assert (Forall (fun sh : Shard bytes => sdata sh = ∅) (shards ix')) as Hall.
      { apply Forall_lookup. intros i sh Hsh. by apply (H2 i sh ltac:(lia)). }
      clear -Hall. unfold total. induction Hall as [|sh shs Hsh _ IH]; [done|]. cbn [sum_list_with]. by rewrite Hsh, map_size_empty, IH.
    + by apply Hc.
  - cbv beta. intros r s' (-> & Hh' & Hc'). rewrite app_nil_r. by split_and!.
Qed.

Lemma p_dbsize_refines m es s : Holds s m es -> refines PDbSize m es s.
Proof.
  intros Hh. unfold refines. cbn [map_call do_call map_after]. apply answer_wp. change st_dbsize with dbsize.
  unfold dbsize, wp. cbn [rbind]. rewrite app_nil_r. split_and!; [|done|done].
  assert (total_keys (global_stats (index s)) = if cfg_metrics (config s) then wrapu 64 (Z.of_nat (size m)) else 0) as ->.
  { destruct Hh as [Hr _ _ Hsh]. destruct (cfg_metrics (config s)).
    - apply total_keys_size; [done|]. unfold metered. eapply Forall_impl; [exact Hsh|]. intros sh. apply bool_decide_eq_true.
    - unfold total_keys, global_stats, collect_metrics. assert (omap metrics (shards (index s)) = []) as ->; [|done].
      unfold shaped in Hsh. induction Hsh as [|sh shs Hx _ IH]; [done|]. cbn [omap list_omap].
      apply bool_decide_eq_false in Hx. destruct (metrics sh) as [ms|]; [by exfalso; apply Hx; eexists|exact IH]. }
  by destruct (cfg_metrics (config s)).
Qed.

Lemma p_save_refines m es s : Holds s m es -> refines PSave m es s.
Proof.
  intros Hh. unfold refines. cbn [map_call do_call map_after]. apply answer_wp. change st_save with save. unfold save, wp.
  destruct (cfg_snapshots (config s)); cbn; rewrite app_nil_r; by split_and!.
Qed.

Lemma call_refines c m es s : Holds s m es -> refines c m es s.
Proof.
  intros Hh. destruct c.
  - by apply p_set_refines.
  - unfold refines. cbn [map_call do_call map_after]. change (st_get key) with (get key). unfold reading.
    eapply wp_mono; [apply (reading_refines (get key) s m es (value_at m key)), (get_holds key s m es Hh)|]. by cbv beta.
  - by apply p_del_refines.
  - by apply p_mset_refines.
  - by apply p_mget_refines.
  - by apply p_rename_refines.
  - by apply p_renamenx_refines.
  - by apply p_flushdb_refines.
  - by apply p_dbsize_refines.
  - by apply p_save_refines.
  - by apply p_sadd_refines.
  - unfold refines. cbn [map_call do_call map_after]. apply (read_set_refines _ _ [] (fun set => set.*1) RKeys _ s m es Hh). by intros [].
  - unfold refines. cbn [map_call do_call map_after]. apply (read_set_refines _ _ 0%nat length RNat _ s m es Hh). by intros [].
  - unfold refines. cbn [map_call do_call map_after]. apply (read_set_refines _ _ false (hs_contains member) RBool _ s m es Hh). by intros [].
  - unfold refines. cbn [map_call do_call map_after]. by apply take_refines.
  - unfold refines. cbn [map_call do_call map_after]. apply (read_set_refines _ _ []
      (fun set => if count =? 1 then option_list (choose seed set.*1) else if 1 <? count then choose_multiple seed (Z.to_nat count) set.*1 else []) RKeys _ s m es Hh).
    by intros [].
  - unfold refines. cbn [map_call do_call map_after]. by apply take_refines.
Qed.

(** ** Runs and restarts *)

Fixpoint run (cs : list call) s : option (list (result StoreError reply) * Store) :=
  match cs with
  | [] => Some ([], s)
  | c :: cs => '(r, s) ← do_call c s; '(rs, s) ← run cs s; Some (r :: rs, s)
  end.

(** The run on a map: the replies, the map after it and the records. *)
Fixpoint map_run (cfg : PersistentStoreConfig) (cs : list call) m : option (list (result StoreError reply) * gmap bytes bytes * list event) :=
  match cs with
  | [] => Some ([], m, [])
  | c :: cs =>
      '(r, evs) ← map_call cfg c m;
      '(rs, m, evs') ← map_run cfg cs (map_after c evs m);
      Some (r :: rs, m, evs ++ evs')
  end.

Definition run_refines_at s m es (cs : list call) : Prop :=
  match map_run (config s) cs m with
  | Some (rs, m', evs) => exists rs' s', run cs s = Some (rs', s') /\ Forall2 same_reply rs' rs /\
      Holds s' m' (es ++ evs) /\ config s' = config s
  | None => run cs s = None
  end.

Lemma run_refines cs s m es : Holds s m es -> run_refines_at s m es cs.
Proof.
  unfold run_refines_at. revert s m es. induction cs as [|c cs IH]; intros s m es Hh; cbn [map_run run].
  { exists [], s. rewrite app_nil_r. by split_and!. }
  pose proof (call_refines c m es s Hh) as Hc. unfold refines in Hc.
  destruct (map_call (config s) c m) as [[r evs]|]; cbn [mbind option_bind]; [|by rewrite Hc].
  apply wp_elim in Hc as (r' & s1 & -> & Hr & Hh1 & Hc1). cbn [mbind option_bind].
  specialize (IH s1 _ _ Hh1). rewrite Hc1 in IH.
  destruct (map_run (config s) cs (map_after c evs m)) as [[[rs m'] evs']|]; cbn [mbind option_bind].
  - destruct IH as (rs' & s2 & -> & Hrs & Hh2 & Hc2). cbn [mbind option_bind]. exists (r' :: rs'), s2.
    rewrite app_assoc. split_and!; [done|by constructor|done|done].
  - by rewrite IH.
Qed.

(** Without [flushdb] the map is what the records say. *)
Lemma map_run_replay cfg cs m rs m' evs :
  Forall (fun c => c <> PFlushDb) cs -> map_run cfg cs m = Some (rs, m', evs) -> m' = foldl apply_event m evs.
Proof.
  intros Hall. revert m rs evs. induction Hall as [|c cs Hc _ IH]; intros m rs evs H; cbn [map_run] in H; [by injection H as <- <- <-|].
  destruct (map_call cfg c m) as [[r evs1]|]; cbn [mbind option_bind] in H; [|done].
  destruct (map_run cfg cs (map_after c evs1 m)) as [[[rs1 m1] evs2]|] eqn:E; cbn [mbind option_bind] in H; [|done].
  injection H as <- <- <-. rewrite foldl_app, (IH _ _ _ E). f_equal. by destruct c.
Qed.

(** A store opened on the file of a log. *)
Lemma open_holds es cfg seed now :
  Forall event_ok es -> (0 < cfg_shards cfg)%nat ->
  exists s, Persistent.new (MAGIC ++ records es) cfg seed now = Some (Ok s) /\ Holds s (replay_map es) es /\ config s = cfg.
Proof.
  intros Hok Hn. unfold Persistent.new.
  set (l := mkLog (MAGIC ++ records es) [] (cfg_sync cfg) (cfg_corruption cfg) no_stats 0 INITIAL_BATCH now 0 0 0 0 0).
  assert (Aof.open (MAGIC ++ records es) (cfg_sync cfg) (cfg_corruption cfg) now = Ok l) as -> by done.
  destruct (replay_file_cut (cfg_corruption cfg) es (length (records es)) (mkReplay [] (stats l) (replay_skipped l)) Hok ltac:(lia))
    as (res & r' & Hr & _ & Heq). destruct (complete_all es) as [Hca Hbt]. destruct Heq as [-> Hev]; [by right|].
  rewrite firstn_all in Hr. unfold replay. change (corruption_policy l) with (cfg_corruption cfg). change (disk l) with (MAGIC ++ records es).
  rewrite Hr, Hev, Hca, Hbt. cbn [mbind option_bind rp_events app].
  destruct (replay_events_rep es (Sharding.new (cfg_shards cfg) (cfg_metrics cfg) seed) ∅ (new_rep _ _ _ Hn)) as (ix & -> & Hr' & Hs).
  cbn [mbind option_bind]. eexists. split_and!; [done| |done]. constructor; cbn [index aof config set_stats]; [done| |done|].
  - constructor; cbn [disk wbuf batch_size pending_ops policy set_stats l]; [by rewrite app_nil_r|rewrite length_app; change (length MAGIC) with 4%nat; lia|done|].
    intros _. split; [unfold INITIAL_BATCH; lia|]. exists es, []. rewrite app_nil_r. split_and!; [done|done|cbn [length]; lia].
  - eapply shaped_same; [exact Hs|]. unfold shaped, Sharding.new. cbn [shards]. apply Forall_replicate.
    unfold shard_new. cbn [metrics]. by destruct (cfg_metrics cfg).
Qed.

Lemma open_empty cfg seed now : Persistent.new [] cfg seed now = Persistent.new (MAGIC ++ records []) cfg seed now.
Proof. reflexivity. Qed.

(** What a store leaves when it is closed. *)
Lemma close_holds s m es : Holds s m es -> close (aof s) = MAGIC ++ records es.
Proof. intros [_ [Hb _ _ _] _ _]. unfold close. cbn [flush disk set_file]. exact Hb. Qed.

(** C5. A store answers any run of calls as one map of encoded values does, for any
    number of shards, hash, order of the hash maps, clock and random choices, up to
    the text of the error of a value that cannot be read, and it panics exactly when
    a value cannot be encoded; [dbsize] is 0 without metrics; and its log gets the
    records of the changes of that map. *)
Theorem persistent_refines_map cfg (seed : Z * Z) (now : Z) (cs : list call) :
  (0 < cfg_shards cfg)%nat ->
  exists s, Persistent.new [] cfg seed now = Some (Ok s) /\
  match map_run cfg cs ∅ with
  | Some (rs, m, evs) => exists rs' s', run cs s = Some (rs', s') /\ Forall2 same_reply rs' rs /\ Holds s' m evs
  | None => run cs s = None
  end.
Proof.
  intros Hn. rewrite open_empty. destruct (open_holds [] cfg seed now (Forall_nil_2 _) Hn) as (s & E & Hh & Hc). exists s. split; [exact E|].
  pose proof (run_refines cs s _ [] Hh) as H. unfold run_refines_at in H. rewrite Hc in H. cbn [replay_map foldl app] in H.
  destruct (map_run cfg cs ∅) as [[[rs m] evs]|]; [|exact H]. destruct H as (rs' & s' & H1 & H2 & H3 & _). by exists rs', s'.
Qed.

(** C6. A restart is not seen: a run of calls without [flushdb], a clean end, and a
    start on the file that was left (under any policies, with any number of shards)
    give a store that goes on as the map of the first run does.  After a [flushdb]
    the start brings back what was there before it. *)
Theorem persistent_survives_restart cfg cfg' (seed seed' : Z * Z) (now now' : Z) (cs cs' : list call) (rs : list (result StoreError reply)) m evs :
  (0 < cfg_shards cfg)%nat -> (0 < cfg_shards cfg')%nat -> Forall (fun c => c <> PFlushDb) cs ->
  map_run cfg cs ∅ = Some (rs, m, evs) -> Forall event_ok evs ->
  exists s rs' s1 s2, Persistent.new [] cfg seed now = Some (Ok s) /\ run cs s = Some (rs', s1) /\ Forall2 same_reply rs' rs /\
    Persistent.new (close (aof s1)) cfg' seed' now' = Some (Ok s2) /\ Holds s2 m evs /\ run_refines_at s2 m evs cs' /\
    exists s1', do_call PFlushDb s1 = Some (Ok RUnit, s1') /\ Holds s1' ∅ evs /\
      exists s2', Persistent.new (close (aof s1')) cfg' seed' now' = Some (Ok s2') /\ Holds s2' m evs.
Proof.
  intros Hn Hn' Hcs Hrun Hok. rewrite open_empty. destruct (open_holds [] cfg seed now (Forall_nil_2 _) Hn) as (s & E & Hh & Hc).
  pose proof (run_refines cs s _ [] Hh) as H. unfold run_refines_at in H. rewrite Hc in H. cbn [replay_map foldl app] in H. rewrite Hrun in H.
  destruct H as (rs' & s1 & H1 & H2 & Hh1 & Hc1). pose proof (map_run_replay cfg cs ∅ rs m evs Hcs Hrun) as Hm.
  destruct (open_holds evs cfg' seed' now' Hok Hn') as (s2 & E2 & Hh2 & Hc2). unfold replay_map in Hh2. rewrite <- Hm in Hh2.
  exists s, rs', s1, s2. rewrite (close_holds s1 m evs Hh1). split_and!; [exact E|done|done|exact E2|done|by apply run_refines|].
  pose proof (p_flushdb_refines m evs s1 Hh1) as Hf. unfold refines in Hf. cbn [map_call map_after] in Hf.
  apply wp_elim in Hf as (r & s1' & Ef & Hr & Hh1' & _). rewrite app_nil_r in Hh1'. exists s1'. split_and!; [|done|].
  - rewrite Ef. destruct r as [[]|[]]; done.
  - exists s2. rewrite (close_holds s1' ∅ evs Hh1'). by split.
Qed.

(** ** Values *)

Lemma encode_decode {hash_laws : MapLaws SmartHash.SmartHash bytes bytes} {dict_laws : MapLaws (Dict.Dict bytes f64) bytes f64}
    {score_ord : Ord f64} {sorted_laws : SortedLaws (SkipList.SkipList f64 bytes) f64 bytes} (v : Value) b :
  storable current v -> zstd_inverse zstd_decode compress_block -> (depth v < stack)%nat -> encode v = Some b ->
  Z.of_nat (length b) <= MAX_COMPRESSED_SIZE -> exists v', loads_as v v' /\ decode b = Ok v'.
Proof.
  intros Hs Hz Hd He Hl. destruct (versioned_round_trips zstd_decode current v compress_block b Hs Hz He Hl) as (v' & Hv & Hr).
  exists v'. split; [done|]. destruct (Hr stack Hd) as [H _]. specialize (H []). rewrite app_nil_r in H.
  unfold decode, from_bytes, read_value. by rewrite H.
Qed.

(** What is set is got back, before and after a restart: a storable value, its
    containers rebuilt with the same content.  A list is set but cannot be got: the
    reader of values does not know its tag. *)
Theorem persistent_values {hash_laws : MapLaws SmartHash.SmartHash bytes bytes} {dict_laws : MapLaws (Dict.Dict bytes f64) bytes f64}
    {score_ord : Ord f64} {sorted_laws : SortedLaws (SkipList.SkipList f64 bytes) f64 bytes}
    s m es key (v : Value) b cfg (seed : Z * Z) (now : Z) :
  Holds s m es -> encode v = Some b -> Forall event_ok (es ++ [set_event key b]) -> replay_map es = m ->
  (0 < cfg_shards cfg)%nat ->
  exists s1 s2 r1 r2, run [PSet key v; PGet key] s = Some ([Ok RUnit; r1], s1) /\
    Persistent.new (close (aof s1)) cfg seed now = Some (Ok s2) /\ do_call (PGet key) s2 = Some r2 /\ r2.1 = r1 /\
    (storable current v -> zstd_inverse zstd_decode compress_block -> (depth v < stack)%nat ->
     Z.of_nat (length b) <= MAX_COMPRESSED_SIZE -> exists v', loads_as v v' /\ r1 = Ok (RValue (Some v'))) /\
    (forall l w, v = VList l -> (0 < stack)%nat -> write_value_inner current v = Some w -> should_compress (length w) = false ->
     exists msg, r1 = Err (SerdeError msg)).
Proof.
  intros Hh He Hok Hm Hn. set (m1 := <[key := b]> m).
  pose proof (p_set_refines key v m es s Hh) as H1. unfold refines in H1. cbn [map_call] in H1. rewrite He in H1. cbn [mbind option_bind map_after foldl] in H1.
  apply wp_elim in H1 as (r & s1 & E1 & Hr & Hh1 & Hc1). change (apply_event m (set_event key b)) with m1 in Hh1.
  assert (r = Ok RUnit) as -> by (destruct r as [[]|[]]; done).
  assert (forall s0 es0, Holds s0 m1 es0 -> exists s', do_call (PGet key) s0 = Some (let? x := value_at m1 key in Ok (RValue x), s') /\ Holds s' m1 es0) as Hget.
  { intros s0 es0 Hh0. pose proof (get_holds key s0 m1 es0 Hh0) as H2. apply wp_elim in H2 as (r & s' & E & -> & Hh' & _). exists s'. split; [|done].
    cbn [do_call]. change (st_get key) with (get key). unfold answer, abind. rewrite E. by destruct (value_at m1 key). }
  destruct (Hget s1 _ Hh1) as (s1' & Eg & Hh1').
  destruct (open_holds (es ++ [set_event key b]) cfg seed now Hok Hn) as (s2 & E2 & Hh2 & _).
  assert (replay_map (es ++ [set_event key b]) = m1) as Em by (unfold replay_map; rewrite foldl_app; cbn [foldl]; fold (replay_map es); by rewrite Hm).
  rewrite Em in Hh2. destruct (Hget s2 _ Hh2) as (s2' & Eg2 & _).
  eexists s1', s2, _, _. split_and!.
  - cbn [run]. rewrite E1. cbn [mbind option_bind]. rewrite Eg. reflexivity.
  - by rewrite (close_holds s1' m1 _ Hh1').
  - exact Eg2.
  - done.
  - intros Hs Hz Hd Hl. destruct (encode_decode v b Hs Hz Hd He Hl) as (v' & Hv & Hdec). exists v'. split; [done|].
    unfold value_at, m1. by rewrite lookup_insert_eq, Hdec.
  - intros l w -> Hst Hw Hc. unfold encode, to_bytes, write_value, write_value_versioned in He.
    rewrite Hw in He. cbn [mbind option_bind] in He. rewrite Hc in He. injection He as <-.
    destruct stack as [|n] eqn:Est; [lia|].
    destruct (ZdbStored.list_and_stream_unreadable (H := SmartHash.SmartHash) (S := SkipList.SkipList f64 bytes) zstd_decode current n []) as [Hlist _].
    destruct (Hlist l) as (w' & Hw' & Hread). rewrite Hw in Hw'. injection Hw' as <-. rewrite app_nil_r in Hread.
    unfold value_at, m1. rewrite lookup_insert_eq. unfold decode, from_bytes, read_value. rewrite Est, Hread. by eexists.
Qed.

(** ** Crashes *)

Lemma cut_between n es : (n <= length (records es))%nat -> between n es = true -> take n (records es) = records (complete n es).
Proof.
  revert n. induction es as [|e es IH]; intros n Hn Hb; [by destruct n|]. cbn [between complete] in *. rewrite records_cons in *.
  destruct (Nat.leb_spec (length (record_of e)) n) as [Hle|Hlt].
  - rewrite records_cons, take_app_ge by done. f_equal. rewrite length_app in Hn. apply IH; [lia|done].
  - destruct n; [done|]. discriminate Hb.
Qed.

(** C28. A crash loses the buffer of the log and may cut a record.  A start on what is
    left, under the strict policy, either reports the cut or gives the map of the
    first records; under [Always] fewer than 32 of the last records are lost. *)
Theorem persistent_crash cfg cfg' (seed seed' : Z * Z) (now now' : Z) (cs : list call) (rs : list (result StoreError reply)) m evs :
  (0 < cfg_shards cfg)%nat -> (0 < cfg_shards cfg')%nat -> cfg_corruption cfg' = Strict ->
  map_run cfg cs ∅ = Some (rs, m, evs) -> Forall event_ok evs ->
  exists s rs' s1 k, Persistent.new [] cfg seed now = Some (Ok s) /\ run cs s = Some (rs', s1) /\
    (Persistent.new (crash (aof s1)) cfg' seed' now' = Some (Err TruncatedRecord) \/
     exists s2, Persistent.new (crash (aof s1)) cfg' seed' now' = Some (Ok s2) /\ Holds s2 (replay_map (take k evs)) (take k evs)) /\
    (cfg_sync cfg = Always -> (length evs - k < 32)%nat).
Proof.
  intros Hn Hn' Hstrict Hrun Hok. rewrite open_empty. destruct (open_holds [] cfg seed now (Forall_nil_2 _) Hn) as (s & E & Hh & Hc).
  pose proof (run_refines cs s _ [] Hh) as H. unfold run_refines_at in H. rewrite Hc in H. cbn [replay_map foldl app] in H. rewrite Hrun in H.
  destruct H as (rs' & s1 & H1 & _ & [_ Hl Hp _] & Hc1). destruct (logged_parts _ _ Hl) as [Hd Hlen].
  set (n := (length (disk (aof s1)) - 4)%nat) in *. exists s, rs', s1, (length (complete n evs)). split_and!; [exact E|done| |].
  - pose proof (complete_length n evs) as Hct. rewrite <- Hct. unfold crash. rewrite Hd. destruct (between n evs) eqn:Hb.
    + right. rewrite (cut_between n evs ltac:(lia) Hb).
      destruct (open_holds (complete n evs) cfg' seed' now') as (s2 & E2 & Hh2 & _); [rewrite Hct; by apply Forall_take|done|by exists s2].
    + left. unfold Persistent.new. set (file := MAGIC ++ take n (records evs)).
      set (l := mkLog file [] (cfg_sync cfg') (cfg_corruption cfg') no_stats 0 INITIAL_BATCH now' 0 0 0 0 0).
      assert (Aof.open file (cfg_sync cfg') (cfg_corruption cfg') now' = Ok l) as -> by done.
      destruct (replay_file_cut Strict evs n (mkReplay [] (stats l) (replay_skipped l)) Hok ltac:(lia)) as (res & r' & Hr & _ & Heq).
      destruct Heq as [-> Hev]; [by left|]. rewrite Hb in Hr. unfold replay. change (corruption_policy l) with (cfg_corruption cfg').
      change (disk l) with file. rewrite Hstrict. unfold file. rewrite Hr. cbn [mbind option_bind].
      destruct (replay_events_rep (rp_events r') (Sharding.new (cfg_shards cfg') (cfg_metrics cfg') seed') ∅ (new_rep _ _ _ Hn')) as (ix & -> & _). done.
  - intros Hpol. destruct Hl as [_ _ _ Hpend]. destruct Hpend as (Hlt & es1 & es2 & Hes & Hl2 & Hw); [by rewrite Hp, Hc1|].
    rewrite Hes, complete_prefix, !length_app.
    + unfold INITIAL_BATCH in Hlt. lia.
    + rewrite Hlen, Hes. unfold records in *. rewrite fmap_app, concat_app, length_app. lia.
Qed.

(** ** Two calls at once *)

(** A call of [set] takes the lock of the log and then that of the shard. *)
Inductive phase : Type := Begin | Written | Finished.

Inductive set_step key (b1 b2 : bytes) : Store * phase * phase -> Store * phase * phase -> Prop :=
| log_first s s' p : log_set key b1 s = Some (Ok tt, s') -> set_step key b1 b2 (s, Begin, p) (s', Written, p)
| log_second s s' p : log_set key b2 s = Some (Ok tt, s') -> set_step key b1 b2 (s, p, Begin) (s', p, Written)
| apply_first s s' p : write_key key (fun _ => Some (tt, Put b1)) s = Some (Ok tt, s') -> set_step key b1 b2 (s, Written, p) (s', Finished, p)
| apply_second s s' p : write_key key (fun _ => Some (tt, Put b2)) s = Some (Ok tt, s') -> set_step key b1 b2 (s, p, Written) (s', p, Finished).

Lemma log_set_step key b s m es : Holds s m es -> exists s', log_set key b s = Some (Ok tt, s') /\ Holds s' m (es ++ [set_event key b]).
Proof. intros Hh. pose proof (log_holds (set_event key b) s m es Hh) as H. apply wp_elim in H as (r & s' & E & -> & Hh' & _). by exists s'. Qed.

Lemma put_step key b s m es : Holds s m es ->
  exists s', write_key key (fun _ => Some (tt, Put b)) s = Some (Ok tt, s') /\ Holds s' (<[key := b]> m) es.
Proof.
  intros Hh. pose proof (write_key_holds key (fun _ => Some (tt, Put b)) s m es tt (Put b) Hh eq_refl) as H.
  apply wp_elim in H as (r & s' & E & -> & Hh' & _). by exists s'.
Qed.

(** Two calls of [set] on one key may be logged in one order and applied in the
    other: the store then holds the first value and a start on its log gives the
    second. *)
Theorem set_race key (b1 b2 : bytes) s m es cfg (seed : Z * Z) (now : Z) :
  Holds s m es -> Forall event_ok (es ++ [set_event key b1; set_event key b2]) -> (0 < cfg_shards cfg)%nat ->
  exists s' s2 m', rtc (set_step key b1 b2) (s, Begin, Begin) (s', Finished, Finished) /\
    Holds s' (<[key := b1]> m) (es ++ [set_event key b1; set_event key b2]) /\
    Persistent.new (close (aof s')) cfg seed now = Some (Ok s2) /\ Holds s2 m' (es ++ [set_event key b1; set_event key b2]) /\ m' !! key = Some b2.
Proof.
  intros Hh Hok Hn. destruct (log_set_step key b1 s m es Hh) as (sa & Ea & Ha). destruct (log_set_step key b2 sa m _ Ha) as (sb & Eb & Hb).
  destruct (put_step key b2 sb m _ Hb) as (sc & Ec & Hc). destruct (put_step key b1 sc _ _ Hc) as (sd & Ed & Hd).
  rewrite insert_insert_eq in Hd. rewrite <- app_assoc in Hd. cbn [app] in Hd.
  destruct (open_holds _ cfg seed now Hok Hn) as (s2 & E2 & Hh2 & _). eexists sd, s2, _. split_and!.
  - eapply rtc_l; [by apply log_first|]. eapply rtc_l; [by apply log_second|]. eapply rtc_l; [by apply apply_second|].
    eapply rtc_l; [by apply apply_first|]. apply rtc_refl.
  - exact Hd.
  - by rewrite (close_holds sd _ _ Hd).
  - exact Hh2.
  - unfold replay_map. rewrite foldl_app. cbn [foldl]. change (apply_event ?x (set_event key b2)) with (<[key := b2]> x). apply lookup_insert_eq.
Qed.
End Laws.

(** ** Instances *)

#[local] Existing Instance ZdbStored.ex_dict_ops.
#[local] Existing Instance ZdbStored.ex_dict_laws.
#[local] Existing Instance ZdbStored.f64_ord.
#[local] Existing Instance ZdbStored.f64_inhabited.
#[local] Existing Instance ZdbStored.ex_skip_ops.
#[local] Existing Instance ZdbStored.ex_skip_laws.

#[local] Instance ex_sip : Sip.
Proof. refine {| sip := fun _ key => wrapu 64 (foldr Z.add 0 key) |}. intros. by apply wrapu_is_u. Defined.

#[local] Instance ex_rand : Rand bytes.
Proof.
  refine {| choose := fun _ l => head l; choose_multiple := fun _ n l => take n l |}.
  - intros _ [|x l]; [done|by left].
  - intros _ n l. exists (drop n l). split; [by rewrite take_drop|apply length_take].
Defined.

#[local] Instance ex_clock : Clock := {| clock := fun _ => (5, 5) |}.
#[local] Instance ex_codec : ValueCodec :=
  {| compress_block := ZdbStored.ex_compress; zstd_decode := ZdbStored.ex_decode; stack := 10; zdb_message := fun _ => ""%string |}.

Definition ex_config : PersistentStoreConfig := mkConfig 3 true Always Strict true.
Definition ex_calls : list call :=
  [PMSet [([97], VStr [104; 105]); ([98], VInt 7)]; PSAdd [99] [[120]; [121]; [120]]; PMGet [[98]; [122]; [97]]; PRename [97] [100];
   PRenameNx [100] [98]; PSPop 0 [99] 5; PDel [98]; PDbSize; PSave].
Definition ex_replies : list (result StoreError reply) :=
  [Ok RUnit; Ok (RNat 2); Ok (RValues [Some (VInt 7); None; Some (VStr [104; 105])]); Ok RUnit; Ok (RBool false);
   Ok (RKeys [[120]; [121]]); Ok (RBool true); Ok (RNat 1); Err (InvalidOperation "Compaction manager not initialized")].
Definition ex_events : list event :=
  [(OpSet, [97], Some [1; 2; 104; 105]); (OpSet, [98], Some [2; 0; 0; 0; 0; 0; 0; 0; 7]); (OpSet, [99], Some [8; 2; 1; 120; 1; 121]);
   (OpDel, [97], None); (OpSet, [100], Some [1; 2; 104; 105]); (OpDel, [99], None); (OpDel, [98], None)].

Lemma ex_run : exists m, map_run ex_config ex_calls ∅ = Some (ex_replies, m, ex_events) /\ m !! [100] = Some [1; 2; 104; 105] /\ size m = 1%nat.
Proof. eexists. split; [vm_compute; reflexivity|]. by vm_compute. Qed.

Ltac event_ok_tac :=
  repeat (apply Forall_cons; split; [by (split; [split; [repeat constructor; by compute|by vm_compute]|cbn; try (split; [repeat constructor; by compute|by vm_compute])])|]);
  apply Forall_nil; exact I.

Lemma ex_events_ok : Forall event_ok ex_events.
Proof. unfold ex_events. event_ok_tac. Qed.

Lemma persistent_refines_map_witness :
  exists s rs' s', Persistent.new [] ex_config (1, 2) 5 = Some (Ok s) /\ run ex_calls s = Some (rs', s') /\ Forall2 same_reply rs' ex_replies.
Proof.
  destruct (persistent_refines_map ex_config (1, 2) 5 ex_calls) as (s & E & H); [unfold ex_config; cbn; lia|].
  destruct ex_run as (m & Hrun & _). rewrite Hrun in H. destruct H as (rs' & s' & H1 & H2 & _).
  exists s, rs', s'. exact (conj E (conj H1 H2)).
Defined.

Lemma persistent_survives_restart_witness :
  exists s rs' s1 s2, Persistent.new [] ex_config (1, 2) 5 = Some (Ok s) /\ run ex_calls s = Some (rs', s1) /\
    Persistent.new (close (aof s1)) (mkConfig 8 false No Log false) (3, 4) 9 = Some (Ok s2) /\
    run_refines_at s2 (replay_map ex_events) ex_events [PGet [100]].
Proof.
  destruct ex_run as (m & Hrun & _ & _).
  destruct (persistent_survives_restart ex_config (mkConfig 8 false No Log false) (1, 2) (3, 4) 5 9 ex_calls [PGet [100]] ex_replies m ex_events)
    as (s & rs' & s1 & s2 & E & H1 & _ & E2 & Hh & H3 & _).
  - unfold ex_config; cbn; lia.
  - cbn; lia.
  - unfold ex_calls. repeat (apply Forall_cons; split; [done|]). by apply Forall_nil.
  - exact Hrun.
  - apply ex_events_ok.
  - exists s, rs', s1, s2. split_and!; [exact E|exact H1|exact E2|].
    replace (replay_map ex_events) with m; [done|].
    apply (map_run_replay ex_config ex_calls ∅ ex_replies m ex_events); [|exact Hrun].
    unfold ex_calls. repeat (apply Forall_cons; split; [done|]). by apply Forall_nil.
Defined.

Lemma persistent_crash_witness :
  exists s rs' s1 k, Persistent.new [] ex_config (1, 2) 5 = Some (Ok s) /\ run ex_calls s = Some (rs', s1) /\
    (Persistent.new (crash (aof s1)) ex_config (3, 4) 9 = Some (Err TruncatedRecord) \/
     exists s2, Persistent.new (crash (aof s1)) ex_config (3, 4) 9 = Some (Ok s2) /\ Holds s2 (replay_map (take k ex_events)) (take k ex_events)).
Proof.
  destruct ex_run as (m & Hrun & _).
  destruct (persistent_crash ex_config ex_config (1, 2) (3, 4) 5 9 ex_calls ex_replies m ex_events) as (s & rs' & s1 & k & E & H1 & H2 & _);
    [unfold ex_config; cbn; lia|unfold ex_config; cbn; lia|done|exact Hrun|apply ex_events_ok|]. exists s, rs', s1, k. exact (conj E (conj H1 H2)).
Defined.

Lemma persistent_values_witness :
  exists s s1 s2 r2, Persistent.new (MAGIC ++ records []) ex_config (1, 2) 5 = Some (Ok s) /\
    run [PSet [107] (VStr [118]); PGet [107]] s = Some ([Ok RUnit; Ok (RValue (Some (VStr [118])))], s1) /\
    Persistent.new (close (aof s1)) ex_config (3, 4) 9 = Some (Ok s2) /\ do_call (PGet [107]) s2 = Some r2 /\ r2.1 = Ok (RValue (Some (VStr [118]))).
Proof.
  destruct (open_holds [] ex_config (1, 2) 5) as (s & E & Hh & _); [apply Forall_nil; exact I|unfold ex_config; cbn; lia|].
  destruct (persistent_values s _ [] [107] (VStr [118]) [1; 1; 118] ex_config (3, 4) 9 Hh) as (s1 & s2 & r1 & r2 & H1 & H2 & H3 & H4 & H5 & _).
  - by vm_compute.
  - cbn [app]. unfold set_event. event_ok_tac.
  - done.
  - unfold ex_config; cbn; lia.
  - destruct H5 as (v' & Hv & Hr1).
    + apply st_str. by vm_compute.
    + intros b c [= <-]. done.
    + cbn. lia.
    + cbn. by vm_compute.
    + inversion Hv; subst. rewrite Hr1 in H1. exists s, s1, s2, r2. split_and!; [exact E|exact H1|exact H2|exact H3|exact Hr1].
Defined.

Lemma set_race_witness :
  exists s s' s2 m', Persistent.new (MAGIC ++ records []) ex_config (1, 2) 5 = Some (Ok s) /\
    rtc (set_step [107] [1] [2]) (s, Begin, Begin) (s', Finished, Finished) /\
    Persistent.new (close (aof s')) ex_config (3, 4) 9 = Some (Ok s2) /\ Holds s2 m' [set_event [107] [1]; set_event [107] [2]] /\ m' !! [107] = Some [2].
Proof.
  destruct (open_holds [] ex_config (1, 2) 5) as (s & E & Hh & _); [apply Forall_nil; exact I|unfold ex_config; cbn; lia|].
  destruct (set_race [107] [1] [2] s _ [] ex_config (3, 4) 9 Hh) as (s' & s2 & m' & H1 & _ & H3 & H4 & H5).
  - cbn [app]. unfold set_event. event_ok_tac.
  - unfold ex_config; cbn; lia.
  - exists s, s', s2, m'. split_and!; [exact E|exact H1|exact H3|exact H4|exact H5].
Defined.
