(* ===== verification/Compaction.v ===== *)
(** * Snapshots, compaction and recovery

    Models [src/src/engine/compaction.rs] and [src/src/engine/recovery.rs]: the
    snapshot files with their directory, the compacted log, the conditions for a
    compaction, and the strategies of recovery.  Files are their bytes; a directory
    is the list of its files in the order of [read_dir].  The metrics of times, the
    background thread and failures of the file system are left out. *)
From S2P Require Import Prelude Interfaces ZdbReader SdsNumeric Numbers Storage Sharding Aof Persistent.
Local Open Scope Z_scope.

Inductive RecoveryStrategy : Type := AofOnly | SnapshotPlusIncremental | Auto.

Record CompactionConfig : Type := mkCompaction {
  min_file_size_threshold : Z; max_file_size_threshold : Z; max_time_threshold : Z;
  enable_snapshots : bool; snapshot_retention_count : nat;
}.

Definition default_config : CompactionConfig :=
  mkCompaction (64 * 1024 * 1024) (256 * 1024 * 1024) 3600 true 3.

Record SnapshotInfo : Type := mkInfo { path : bytes; timestamp : Z; key_count : Z; file_size : Z; checksum : Z }.

(** A directory: the name of each file, and its bytes. *)
Definition directory : Type := list (bytes * bytes).

(** The order in which a [HashMap] of a shard is iterated. *)
Class IterOrder := {
  iter_map : gmap bytes bytes -> list (bytes * bytes);
  iter_perm (m : gmap bytes bytes) : iter_map m ≡ₚ map_to_list m;
}.

Section Compaction.
Context {siphash : Sip} {iteration : IterOrder} {data_order : HashOrder (bytes * bytes)}.
Implicit Types (ix : ShardedIndex bytes) (dir : directory).

Definition write_u32 (v : Z) : bytes := write_be 4 v.
Definition write_u64 (v : Z) : bytes := write_be 8 v.

(** ** Snapshots *)

(** The data of the shards, one after the other, in a new [HashMap]. *)
Definition collect_data (ix : ShardedIndex bytes) : list (bytes * bytes) :=
  foldl (fun all kv => (hm_insert kv.1 kv.2 all).2) [] (concat ((fun sh => iter_map (sdata sh)) <$> shards ix)).

Definition read_all_shards ix : ShardedIndex bytes :=
  mkIndex _ ((fun sh => (shard_read (fun _ => tt) sh).2) <$> shards ix) (hasher_seed ix).

Definition SNAP : bytes := [83; 78; 65; 80].

Definition write_entry (kv : bytes * bytes) : bytes := write_u32 (len kv.1) ++ kv.1 ++ write_u32 (len kv.2) ++ kv.2.

Definition snapshot_bytes (timestamp total_keys : Z) (all_data : list (bytes * bytes)) : bytes :=
  SNAP ++ write_u64 timestamp ++ write_u64 total_keys ++ concat (write_entry <$> all_data).

Definition snapshot_checksum (all_data : list (bytes * bytes)) : Z :=
  foldl (fun c kv => wrapu 64 (wrapu 64 (c + len kv.1) + len kv.2)) 0 all_data.

Definition snapshot_prefix : bytes := ascii_bytes "snapshot_".
Definition db_suffix : bytes := ascii_bytes ".db".
Definition snapshot_name (timestamp : Z) : bytes := snapshot_prefix ++ decimal timestamp ++ db_suffix.

(** The stem of a name with the extension [db]. *)
Definition db_stem (name : bytes) : option bytes :=
  let n := (length name - 3)%nat in
  if bool_decide (drop n name = db_suffix) && (0 <? n)%nat then Some (take n name) else None.

Definition strip_prefix (prefix name : bytes) : option bytes :=
  if bool_decide (take (length prefix) name = prefix) then Some (drop (length prefix) name) else None.

Definition parse_snapshot_info (name stem content : bytes) : SnapshotInfo :=
  let timestamp :=
    match strip_prefix snapshot_prefix stem with
    | Some s => match parse_int 0 (2 ^ 64 - 1) s with Ok t => t | Err _ => 0 end
    | None => 0
    end in
  mkInfo name timestamp 0 (len content) 0.

Definition snapshots_of dir : list SnapshotInfo :=
  omap (fun f => stem ← db_stem f.1; Some (parse_snapshot_info f.1 stem f.2)) dir.

Definition older (a b : SnapshotInfo) : Prop := timestamp a <= timestamp b.
Definition newer (a b : SnapshotInfo) : Prop := timestamp b <= timestamp a.
#[export] Instance older_dec : RelDecision older.
Proof. intros a b. unfold older. apply _. Defined.
#[export] Instance newer_dec : RelDecision newer.
Proof. intros a b. unfold newer. apply _. Defined.

Definition find_latest_snapshot (config : CompactionConfig) dir : option SnapshotInfo :=
  if enable_snapshots config then last (merge_sort older (snapshots_of dir)) else None.

Definition remove_file (name : bytes) dir : directory := filter (fun f => f.1 <> name) dir.

Definition cleanup_old_snapshots (config : CompactionConfig) dir : directory :=
  if enable_snapshots config then
    foldl (fun dir info => remove_file (path info) dir) dir
      (drop (snapshot_retention_count config) (merge_sort newer (snapshots_of dir)))
  else dir.

(** [persist] replaces the file of that name, and a new file comes last. *)
Definition persist (name content : bytes) dir : directory :=
  if decide (name ∈ dir.*1) then (fun f => if decide (f.1 = name) then (name, content) else f) <$> dir
  else dir ++ [(name, content)].

Definition create_snapshot (config : CompactionConfig) (now : Z) ix dir : SnapshotInfo * ShardedIndex bytes * directory :=
  let all_data := collect_data ix in
  let total_keys := Z.of_nat (foldr (fun sh n => (size (sdata sh) + n)%nat) 0%nat (shards ix)) in
  let content := snapshot_bytes now total_keys all_data in
  let info := mkInfo (snapshot_name now) now total_keys (len content) (snapshot_checksum all_data) in
  (info, read_all_shards ix, cleanup_old_snapshots config (persist (snapshot_name now) content dir)).

(** [read_exact] of a file; too few bytes are an I/O error. *)
Definition read_file (n : nat) (r : bytes) : result StoreError (bytes * bytes) :=
  if (length r <? n)%nat then Err Io else Ok (take n r, drop n r).

Definition read_uint (n : nat) (r : bytes) : result StoreError (Z * bytes) :=
  let? (b, r) := read_file n r in Ok (be_value b, r).

(** The closure that inserts a pair and counts a new key. *)
Definition load_pair (key value : bytes) ix : option (ShardedIndex bytes) :=
  '(_, ix) ← on_key key (shard_write (fun data => let '(data, delta) := change_data key (Put value) data in (tt, data, delta))) ix;
  Some ix.

Fixpoint load_entries (n : nat) (r : bytes) (loaded : nat) ix : option (result StoreError nat * ShardedIndex bytes) :=
  match n with
  | O => Some (Ok loaded, ix)
  | Datatypes.S n =>
      match (let? (key_len, r) := read_uint 4 r in let? (key, r) := read_file (Z.to_nat key_len) r in
             let? (value_len, r) := read_uint 4 r in let? (value, r) := read_file (Z.to_nat value_len) r in Ok (key, value, r)) with
      | Err e => Some (Err e, ix)
      | Ok (key, value, r) => ix ← load_pair key value ix; load_entries n r (loaded + 1) ix
      end
  end.

Definition load_snapshot (content : bytes) ix : option (result StoreError nat * ShardedIndex bytes) :=
  match (let? (magic, r) := read_file 4 content in
         if bool_decide (magic = SNAP) then
           let? (_, r) := read_uint 8 r in let? (key_count, r) := read_uint 8 r in Ok (key_count, r)
         else Err (InvalidData "Invalid snapshot magic")) with
  | Err e => Some (Err e, ix)
  | Ok (key_count, r) => load_entries (Z.to_nat key_count) r 0 ix
  end.

(** ** Compaction *)

Definition should_compact (config : CompactionConfig) (file_size current_time last_compaction : Z) : bool :=
  if max_file_size_threshold config <=? file_size then true
  else if min_file_size_threshold config <=? file_size
  then max_time_threshold config <=? Z.max (current_time - last_compaction) 0
  else false.

(** The file that takes the place of the log. *)
Definition perform_compaction ix : bytes :=
  AOF1 ++ concat ((fun kv => op_code OpSet :: write_entry kv) <$> collect_data ix).

(** ** Recovery *)

Record RecoveryStats : Type := mkRecovery {
  snapshot_used : bool; operations_replayed : nat;
  keys_loaded : nat; keys_added : nat; keys_updated : nat; keys_deleted : nat;
}.

Definition no_recovery : RecoveryStats := mkRecovery false 0 0 0 0 0.

Definition count_event (e : event) (was_there : bool) (st : RecoveryStats) : RecoveryStats :=
  let replayed := (operations_replayed st + 1)%nat in
  match e with
  | (OpSet, _, Some _) =>
      if was_there then mkRecovery (snapshot_used st) replayed (keys_loaded st + 1) (keys_added st) (keys_updated st + 1) (keys_deleted st)
      else mkRecovery (snapshot_used st) replayed (keys_loaded st + 1) (keys_added st + 1) (keys_updated st) (keys_deleted st)
  | (OpSet, _, None) => mkRecovery (snapshot_used st) replayed (keys_loaded st) (keys_added st) (keys_updated st) (keys_deleted st)
  | (OpDel, _, _) =>
      if was_there then mkRecovery (snapshot_used st) replayed (keys_loaded st) (keys_added st) (keys_updated st) (keys_deleted st + 1)
      else mkRecovery (snapshot_used st) replayed (keys_loaded st) (keys_added st) (keys_updated st) (keys_deleted st)
  end.

(** The closure given to [replay], on a whole run of operations. *)
Fixpoint recover_events (es : list event) (st : RecoveryStats) ix : option (RecoveryStats * ShardedIndex bytes) :=
  match es with
  | [] => Some (st, ix)
  | e :: es =>
      id ← shard_for_key ix e.1.2;
      sh ← shards ix !! id;
      ix ← replay_event e ix;
      recover_events es (count_event e (bool_decide (is_Some (sdata sh !! e.1.2))) st) ix
  end.

(** [None] for a file that is missing. *)
Definition recover_from_aof_only (aof_file : option bytes) (now : Z) ix : option (result StoreError RecoveryStats * ShardedIndex bytes) :=
  match aof_file with
  | None => Some (Ok no_recovery, ix)
  | Some file =>
      match Aof.open file No Log now with
      | Err _ => Some (Err Io, ix)
      | Ok l =>
          '(res, es, _) ← Aof.replay l;
          '(st, ix) ← recover_events es no_recovery ix;
          Some (match res with Ok _ => Ok st | Err _ => Err Io end, ix)
      end
  end.

(** The manager of compaction has an index of its own: [load_snapshot] and
    [create_snapshot] are called on it, not on the index that is recovered. *)
Record CompactionManager : Type := mkCompactionManager {
  manager_config : CompactionConfig;
  manager_index : ShardedIndex bytes;
}.

(** What a recovery gives, with the manager and the index that it leaves. *)
Definition recovered : Type := result StoreError RecoveryStats * option CompactionManager * ShardedIndex bytes.

Definition recover_from_snapshot_plus_aof (manager : option CompactionManager) (aof_file : option bytes) dir (now : Z) ix
  : option recovered :=
  let latest :=
    mg ← manager; info ← find_latest_snapshot (manager_config mg) dir;
    file ← list_find (fun f => f.1 = path info) dir; Some (mg, file.2.2) in
  '(loaded, manager) ← match latest with
    | Some (mg, content) =>
        '(loaded, own) ← load_snapshot content (manager_index mg);
        Some (loaded, Some (mkCompactionManager (manager_config mg) own))
    | None => Some (Ok 0%nat, manager)
    end;
  match loaded with
  | Err e => Some (Err e, manager, ix)
  | Ok n =>
      let used := match latest with Some _ => true | None => false end in
      match aof_file with
      | None => Some (Ok (mkRecovery used 0 n n 0 0), manager, ix)
      | Some _ =>
          '(res, ix) ← recover_from_aof_only aof_file now ix;
          Some (let? st := res in
            Ok (mkRecovery used (operations_replayed st) (keys_loaded st) (keys_added st) (keys_updated st) (keys_deleted st)), manager, ix)
      end
  end.

Definition recover (strategy : RecoveryStrategy) (manager : option CompactionManager) (aof_file : option bytes) dir (now : Z) ix
  : option recovered :=
  match strategy with
  | AofOnly => '(res, ix) ← recover_from_aof_only aof_file now ix; Some (res, manager, ix)
  | SnapshotPlusIncremental => recover_from_snapshot_plus_aof manager aof_file dir now ix
  | Auto =>
      '(res, manager, ix) ← recover_from_snapshot_plus_aof manager aof_file dir now ix;
      match res with
      | Ok st => Some (Ok st, manager, ix)
      | Err _ => '(res, ix) ← recover_from_aof_only aof_file now ix; Some (res, manager, ix)
      end
  end.

(** [initialize] makes the manager with the index it gets... *)
Definition initialize (index : ShardedIndex bytes) (config : CompactionConfig) : CompactionManager :=
  mkCompactionManager config index.

(** ...and its only caller gives it a clone of the index of the store, a copy of
    the data and of the metrics, before it recovers the index itself. *)
Definition initialize_and_recover (strategy : RecoveryStrategy) (config : CompactionConfig) (aof_file : option bytes) dir (now : Z) ix
  : option recovered :=
  recover strategy (Some (initialize ix config)) aof_file dir now ix.
End Compaction.
