(* ===== verification/CompactionLaws.v ===== *)
(** * Snapshots and compacted logs hold the data

    Theorems about [Compaction]: a snapshot is loaded into any index with the data
    it was made of, the compacted log is replayed to the same map and recovered to it,
    a recovery with a snapshot ends with the map of the log alone, and what a
    compaction does to the writes after it. *)
From S2P Require Import Prelude Interfaces ZdbReader SdsNumeric Numbers Storage Memory Sharding ShardingLaws.
From S2P Require Import Crc32 Aof AofReplay ZdbValue Persistent PersistentLaws Compaction.
From S2P Require SmartHash Dict SkipList ZdbStored.
Local Open Scope Z_scope.

(** Pairs that agree with a map and list all of it. *)
Lemma insert_pairs_agree {V} (m m0 : gmap bytes V) (l : list (bytes * V)) k :
  (forall kv, kv ∈ l -> m !! kv.1 = Some kv.2) ->
  insert_pairs m0 l !! k = if decide (k ∈ l.*1) then m !! k else m0 !! k.
Proof.
  revert m0. induction l as [|[k' v] l IH]; intros m0 Hl; [done|]. rewrite insert_pairs_cons, IH by (intros kv Hkv; apply Hl; by right).
  pose proof (Hl (k', v) ltac:(by left)) as Hv. cbn [fst snd] in Hv. rewrite fmap_cons. cbn [fst].
  destruct (decide (k = k')) as [->|Hne].
  - rewrite (decide_True (P := k' ∈ k' :: l.*1)) by (by left). case_decide; [done|]. by rewrite lookup_insert_eq.
  - rewrite (decide_ext (k ∈ k' :: l.*1) (k ∈ l.*1)) by (rewrite elem_of_cons; tauto). by rewrite lookup_insert_ne.
Qed.

Section Laws.
Context {siphash : Sip} {iteration : IterOrder} {data_order : HashOrder (bytes * bytes)}.
Implicit Types (ix : ShardedIndex bytes) (m : gmap bytes bytes).

Lemma shard_pairs_of ix m kv : Represents ix m ->
  kv ∈ concat ((fun sh => iter_map (sdata sh)) <$> shards ix) <-> m !! kv.1 = Some kv.2.
Proof.
  intros Hr. destruct kv as [k v]. cbn [fst snd]. rewrite list_elem_of_In, in_concat. split.
  - intros (l & Hl & Hin). apply list_elem_of_In in Hl, Hin. apply list_elem_of_fmap in Hl as (sh & -> & Hsh).
    rewrite iter_perm, elem_of_map_to_list in Hin. apply list_elem_of_lookup in Hsh as [i Hi].
    rewrite <- (rep_lookup ix m Hr i sh k Hi); [done|]. apply (rep_home ix m Hr i sh k Hi). by eexists.
  - intros Hm. destruct (home_shard ix m k Hr) as (sh & _ & Hsh & Hk). exists (iter_map (sdata sh)).
    rewrite <- !list_elem_of_In. split; [apply list_elem_of_fmap; exists sh; split; [done|by eapply list_elem_of_lookup_2]|].
    by rewrite iter_perm, elem_of_map_to_list, Hk.
Qed.

Lemma hm_insert_all (l all : list (bytes * bytes)) (m : gmap bytes bytes) : hm_repr all m ->
  hm_repr (foldl (fun all kv => (hm_insert kv.1 kv.2 all).2) all l) (insert_pairs m l).
Proof.
  revert all m. induction l as [|[k v] l IH]; intros all m Hr; [done|]. cbn [foldl fst snd]. rewrite insert_pairs_cons.
  apply IH. by apply (hm_insert_spec all m k v).
Qed.

Lemma collect_spec ix m : Represents ix m -> hm_repr (collect_data ix) m.
Proof.
  intros Hr. unfold collect_data. pose proof (hm_insert_all (concat ((fun sh => iter_map (sdata sh)) <$> shards ix)) [] ∅ hm_repr_nil) as H.
  replace (insert_pairs ∅ (concat ((fun sh => iter_map (sdata sh)) <$> shards ix))) with m in H; [done|].
  apply map_eq. intros k. rewrite (insert_pairs_agree m) by (intros kv; by apply shard_pairs_of).
  case_decide as Hk; [done|]. rewrite lookup_empty. apply eq_None_not_Some. intros [v Hv]. apply Hk.
  apply (list_elem_of_fmap_2 fst _ (k, v)). by apply (shard_pairs_of ix m (k, v) Hr).
Qed.

(** What fits the four bytes of a length. *)
Definition pair_ok (kv : bytes * bytes) : Prop := field_ok kv.1 /\ field_ok kv.2.
Definition map_ok m : Prop := map_Forall (fun k v => pair_ok (k, v)) m.

Lemma collect_ok ix m : Represents ix m -> map_ok m -> Forall pair_ok (collect_data ix).
Proof.
  intros Hr Hm. apply Forall_forall. intros [k v] Hin. apply Hm. apply elem_of_map_to_list. by rewrite <- (collect_spec ix m Hr).
Qed.

(** ** Loading *)

Lemma read_file_app (a r : bytes) : read_file (length a) (a ++ r) = Ok (a, r).
Proof.
  unfold read_file. rewrite length_app. destruct (Nat.ltb_spec (length a + length r) (length a)); [lia|].
  by rewrite take_app_length, drop_app_length.
Qed.

Lemma read_uint_app (n : nat) v r : is_u (8 * Z.of_nat n) v -> read_uint n (write_be n v ++ r) = Ok (v, r).
Proof.
  intros Hv. unfold read_uint. pose proof (read_file_app (write_be n v) r) as H. rewrite write_be_length in H. rewrite H. cbn [rbind].
  unfold write_be. rewrite wrapu_small by done. rewrite be_value_bytes by (unfold is_u in Hv; lia). do 2 f_equal.
  apply Z.mod_small. unfold is_u in Hv. replace (256 ^ Z.of_nat n) with (2 ^ (8 * Z.of_nat n)); [done|].
  by rewrite Z.pow_mul_r by lia.
Qed.

Lemma load_pair_rep key value ix m : Represents ix m ->
  exists ix', load_pair key value ix = Some ix' /\ Represents ix' (<[key := value]> m).
Proof.
  intros Hr. destruct (replay_event_rep (OpSet, key, Some value) ix m Hr) as (ix' & E & Hr' & _).
  exists ix'. by split.
Qed.

Lemma load_entries_rep l rest c ix m : Forall pair_ok l -> Represents ix m ->
  exists ix', load_entries (length l) (concat (write_entry <$> l) ++ rest) c ix = Some (Ok (c + length l)%nat, ix') /\
    Represents ix' (insert_pairs m l).
Proof.
  intros Hl. revert c ix m. induction Hl as [|[k v] l [[Hk1 Hk2] [Hv1 Hv2]] Hl IH]; intros c ix m Hr.
  { exists ix. cbn [load_entries length]. by rewrite Nat.add_0_r. }
  cbn [length load_entries fst snd] in *. rewrite fmap_cons. cbn [concat]. unfold write_entry at 1, write_u32. cbn [fst snd].
  rewrite <- !app_assoc. rewrite read_uint_app by exact Hk2. cbn [rbind]. unfold len at 1. rewrite Nat2Z.id, read_file_app. cbn [rbind].
  rewrite read_uint_app by exact Hv2. cbn [rbind]. unfold len at 1. rewrite Nat2Z.id, read_file_app. cbn [rbind].
  destruct (load_pair_rep k v ix m Hr) as (ix1 & -> & Hr1). cbn [mbind option_bind].
  destruct (IH (c + 1)%nat ix1 _ Hr1) as (ix2 & E & Hr2). exists ix2. rewrite insert_pairs_cons. split; [|done].
  rewrite E. do 3 f_equal. lia.
Qed.

Lemma read_all_rep ix m : Represents ix m -> Represents (read_all_shards ix) m.
Proof.
  intros [R1 R2 R3 R4 R5]. unfold read_all_shards.
  assert (forall i sh, ((fun sh => (shard_read (fun _ => tt) sh).2) <$> shards ix) !! i = Some sh ->
    exists sh0, shards ix !! i = Some sh0 /\ sdata sh = sdata sh0) as Hi.
  { intros i sh H. rewrite list_lookup_fmap in H. destruct (shards ix !! i) as [sh0|]; [|done]. injection H as <-. by exists sh0. }
  assert (forall k, home (mkIndex _ ((fun sh => (shard_read (fun _ => tt) sh).2) <$> shards ix) (hasher_seed ix)) k = home ix k) as Hh.
  { intros k. apply home_ext; [done|apply length_fmap]. }
  constructor; cbn [shards].
  - intros E. apply (f_equal length) in E. rewrite length_fmap in E. by destruct (shards ix).
  - intros i sh k H. rewrite Hh. destruct (Hi i sh H) as (sh0 & H0 & ->). by eapply R2.
  - intros i sh k H. rewrite Hh. destruct (Hi i sh H) as (sh0 & H0 & ->). by eapply R3.
  - rewrite <- R4. clear. unfold total. induction (shards ix) as [|sh shs IH]; [done|]. rewrite fmap_cons. cbn [sum_list_with]. by rewrite IH.
  - apply Forall_fmap. eapply Forall_impl; [exact R5|]. intros sh. unfold counted, compose, shard_read. cbn [snd metrics sdata].
    by destruct (metrics sh).
Qed.

Lemma total_size ix m : Represents ix m -> foldr (fun sh n => (size (sdata sh) + n)%nat) 0%nat (shards ix) = size m.
Proof. intros [_ _ _ <- _]. unfold total. induction (shards ix) as [|sh shs IH]; [done|]. cbn [foldr sum_list_with]. by rewrite IH. Qed.

Lemma snapshot_loads ix m ix0 m0 (t : Z) (rest : bytes) :
  Represents ix m -> Represents ix0 m0 -> map_ok m -> is_u 64 t -> Z.of_nat (size m) < 2 ^ 64 ->
  exists ix1, load_snapshot (snapshot_bytes t (Z.of_nat (size m)) (collect_data ix) ++ rest) ix0 = Some (Ok (size m), ix1) /\
    Represents ix1 (m ∪ m0).
Proof.
  intros Hr Hr0 Hok Hnow Hsz. unfold load_snapshot, snapshot_bytes, write_u64. rewrite <- !app_assoc.
  change 4%nat with (length SNAP). rewrite read_file_app. cbn [rbind]. rewrite bool_decide_true by done.
  rewrite read_uint_app by done. cbn [rbind]. rewrite read_uint_app by (split; [lia|exact Hsz]). cbn [rbind]. rewrite Nat2Z.id.
  pose proof (collect_spec ix m Hr) as Hc. rewrite <- (hm_repr_length _ _ Hc).
  destruct (load_entries_rep (collect_data ix) rest 0 ix0 m0 (collect_ok ix m Hr Hok) Hr0) as (ix1 & E & Hr1).
  exists ix1. split; [exact E|]. rewrite insert_pairs_union in Hr1 by (by apply (hm_repr_NoDup _ m)).
  by rewrite (list_to_map_proper (M := gmap bytes) _ (map_to_list m) (hm_repr_NoDup _ _ Hc) Hc), list_to_map_to_list in Hr1.
Qed.

(** A snapshot holds the data: what [create_snapshot] writes of an index is
    loaded into any other one, over what it holds, whatever the numbers of shards,
    the hashes and the orders of the maps, with the number of its keys. *)
Theorem snapshot_roundtrip (config : CompactionConfig) (now : Z) ix ix0 (dir : directory) m m0 (rest : bytes) :
  Represents ix m -> Represents ix0 m0 -> map_ok m -> is_u 64 now -> Z.of_nat (size m) < 2 ^ 64 ->
  let '(info, ix', _) := create_snapshot config now ix dir in
  Represents ix' m /\ key_count info = Z.of_nat (size m) /\
  exists ix1, load_snapshot (snapshot_bytes now (key_count info) (collect_data ix) ++ rest) ix0 = Some (Ok (size m), ix1) /\
    Represents ix1 (m ∪ m0).
Proof.
  intros Hr Hr0 Hok Hnow Hsz. unfold create_snapshot. cbv zeta. rewrite (total_size ix m Hr). cbn [key_count].
  split; [by apply read_all_rep|]. split; [done|]. by apply snapshot_loads.
Qed.

(** ** The compacted log *)

Definition set_of_pair (kv : bytes * bytes) : event := (OpSet, kv.1, Some kv.2).

Lemma read_u32_at buf pos l1 v l2 :
  buf = l1 ++ write_be 4 v ++ l2 -> length l1 = pos -> is_u 32 v -> read_u32 buf pos = Ok (v, (pos + 4)%nat).
Proof.
  intros Hb Hp Hv. unfold read_u32. rewrite (u32_at_mid buf pos l1 v l2 Hb Hp Hv). unfold len.
  destruct (Z.ltb_spec (Z.of_nat (length buf)) (Z.of_nat pos + 4)) as [H|_]; [|done].
  rewrite Hb, !length_app, write_be_length in H. lia.
Qed.

Lemma read_bytes_at buf pos l1 l l2 e :
  buf = l1 ++ l ++ l2 -> length l1 = pos -> read_bytes buf pos (len l) e = Ok (l, (pos + length l)%nat).
Proof.
  intros -> <-. unfold read_bytes, len. rewrite Nat2Z.id, drop_app_length, take_app_length.
  destruct (Z.ltb_spec (Z.of_nat (length (l1 ++ l ++ l2))) (Z.of_nat (length l1) + Z.of_nat (length l))) as [H|_]; [|done].
  rewrite !length_app in H. lia.
Qed.

Lemma aof1_pair pre kv rest : pair_ok kv ->
  replay_aof1_record (pre ++ (op_code OpSet :: write_entry kv) ++ rest) (length pre) =
    (Ok (set_of_pair kv), (length pre + length (op_code OpSet :: write_entry kv))%nat).
Proof.
  intros [[_ Hk] [_ Hv]]. destruct kv as [k v]. cbn [fst snd] in *. unfold write_entry, write_u32. cbn [fst snd].
  set (buf := pre ++ _). unfold replay_aof1_record.
  assert (buf !! length pre = Some (op_code OpSet)) as ->.
  { unfold buf. by rewrite lookup_app_r, Nat.sub_diag by done. }
  cbn [default from_option]. unfold id. change (op_of (op_code OpSet)) with (@Ok AofError AofOp OpSet).
  assert (buf = (pre ++ [op_code OpSet]) ++ write_be 4 (len k) ++ (k ++ write_be 4 (len v) ++ v ++ rest)) as E1.
  { unfold buf. rewrite <- !app_assoc. cbn [app]. by rewrite <- !app_assoc. }
  rewrite (read_u32_at buf (length pre + 1) _ (len k) _ E1) by (rewrite ?length_app; cbn [length]; done || lia).
  assert (buf = ((pre ++ [op_code OpSet]) ++ write_be 4 (len k)) ++ k ++ (write_be 4 (len v) ++ v ++ rest)) as E2 by (by rewrite E1, <- !app_assoc).
  rewrite (read_bytes_at buf (length pre + 1 + 4) _ k _ _ E2) by (rewrite !length_app, write_be_length; cbn [length]; lia).
  rewrite decide_True by done.
  assert (buf = (((pre ++ [op_code OpSet]) ++ write_be 4 (len k)) ++ k) ++ write_be 4 (len v) ++ (v ++ rest)) as E3 by (by rewrite E2, <- !app_assoc).
  rewrite (read_u32_at buf (length pre + 1 + 4 + length k) _ (len v) _ E3) by (rewrite ?length_app, ?write_be_length; cbn [length]; done || lia).
  assert (buf = ((((pre ++ [op_code OpSet]) ++ write_be 4 (len k)) ++ k) ++ write_be 4 (len v)) ++ v ++ rest) as E4 by (by rewrite E3, <- !app_assoc).
  rewrite (read_bytes_at buf (length pre + 1 + 4 + length k + 4) _ v _ _ E4) by (rewrite !length_app, !write_be_length; cbn [length]; lia).
  unfold set_of_pair. cbn [fst snd]. f_equal. cbn [length]. rewrite !length_app, !write_be_length. lia.
Qed.

Lemma aof1_pairs fuel policy pre l r : Forall pair_ok l ->
  (length (concat ((fun kv => op_code OpSet :: write_entry kv) <$> l)) < fuel)%nat ->
  replay_aof1_loop fuel policy (pre ++ concat ((fun kv => op_code OpSet :: write_entry kv) <$> l)) (length pre) r =
    Some (Ok tt, foldl (fun r kv => emit (set_of_pair kv) r) r l).
Proof.
  intros Hl. revert fuel pre r. induction Hl as [|kv l Hkv Hl IH]; intros fuel pre r Hf; (destruct fuel as [|fuel]; [lia|]); cbn [replay_aof1_loop].
  { rewrite app_nil_r. by rewrite (proj2 (Nat.leb_le _ _)) by lia. }
  rewrite fmap_cons in *. cbn [concat foldl] in *. set (w := op_code OpSet :: write_entry kv) in *. rewrite length_app in Hf.
  assert (0 < length w)%nat as Hw by (unfold w; cbn [length]; lia).
  rewrite (proj2 (Nat.leb_gt _ _)) by (rewrite !length_app; lia). unfold w at 1. rewrite aof1_pair by done. fold w.
  rewrite app_assoc, <- length_app. apply IH. lia.
Qed.

Lemma emitted l r : rp_events (foldl (fun r kv => emit (set_of_pair kv) r) r l) = rp_events r ++ (set_of_pair <$> l).
Proof.
  revert r. induction l as [|kv l IH]; intros r; [by rewrite app_nil_r|]. cbn [foldl]. rewrite IH, fmap_cons. cbn [rp_events emit].
  by rewrite <- app_assoc.
Qed.

(** A log that [perform_compaction] wrote, opened and replayed. *)
Lemma compacted_replay ix m pol corr now : Represents ix m -> map_ok m ->
  exists l l', Aof.open (perform_compaction ix) pol corr now = Ok l /\
    Aof.replay l = Some (Ok tt, set_of_pair <$> collect_data ix, l') /\ disk l' = perform_compaction ix /\ wbuf l' = [].
Proof.
  intros Hr Hok. unfold perform_compaction. set (body := concat _). eexists. eexists. split; [done|].
  unfold replay. cbn [disk corruption_policy]. unfold replay_file. rewrite length_app.
  destruct (Nat.ltb_spec (length AOF1 + length body) 4) as [H4|_]; [simpl in H4; lia|].
  rewrite (take_app_length' AOF1), (drop_app_length' AOF1), bool_decide_true by done.
  pose proof (aof1_pairs (Datatypes.S (length body)) corr [] (collect_data ix) (mkReplay [] no_stats 0) (collect_ok ix m Hr Hok) ltac:(unfold body; lia)) as H.
  cbn [app length] in H. fold body in H. cbn [stats replay_skipped]. rewrite H, emitted. split; [reflexivity|by split].
Qed.

Lemma apply_pairs l m : foldl apply_event m (set_of_pair <$> l) = insert_pairs m l.
Proof. revert m. induction l as [|[k v] l IH]; intros m; [done|]. rewrite fmap_cons, insert_pairs_cons. cbn [foldl]. by rewrite IH. Qed.

Lemma collect_insert ix m m0 : Represents ix m -> insert_pairs m0 (collect_data ix) = m ∪ m0.
Proof.
  intros Hr. pose proof (collect_spec ix m Hr) as Hc. rewrite insert_pairs_union by (by apply (hm_repr_NoDup _ m)).
  by rewrite (list_to_map_proper (M := gmap bytes) _ (map_to_list m) (hm_repr_NoDup _ _ Hc) Hc), list_to_map_to_list.
Qed.

(** The closure of a recovery keeps the map as a replay does, and its counts add up. *)
Lemma recover_events_rep es st ix m : Represents ix m ->
  exists st' ix', recover_events es st ix = Some (st', ix') /\ Represents ix' (foldl apply_event m es) /\
    (operations_replayed st' = operations_replayed st + length es)%nat /\
    (keys_loaded st' + (keys_added st + keys_updated st) = keys_loaded st + (keys_added st' + keys_updated st'))%nat /\
    (keys_added st' + size m + keys_deleted st = keys_added st + size (foldl apply_event m es) + keys_deleted st')%nat.
Proof.
  revert st ix m. induction es as [|e es IH]; intros st ix m Hr; [exists st, ix; cbn [foldl length]; split_and!; [done|done|lia|lia|lia]|].
  cbn [recover_events foldl length]. destruct (home_shard ix m e.1.2 Hr) as (sh & -> & Hsh & Hk). cbn [mbind option_bind]. rewrite Hsh. cbn [mbind option_bind].
  destruct (replay_event_rep e ix m Hr) as (ix1 & -> & Hr1 & _). cbn [mbind option_bind]. rewrite Hk.
  destruct (IH (count_event e (bool_decide (is_Some (m !! e.1.2))) st) ix1 _ Hr1) as (st' & ix' & -> & Hr' & H1 & H2 & H3).
  exists st', ix'. split; [done|]. split; [done|].
  destruct e as [[[] k] [v|]]; cbn [fst snd apply_event count_event] in *.
  - rewrite map_size_insert in H3. destruct (m !! k) as [b|]; unfold id in H3.
    + rewrite bool_decide_true in H1, H2, H3 by (by eexists). cbn [operations_replayed keys_loaded keys_added keys_updated keys_deleted] in *. split_and!; lia.
    + rewrite bool_decide_false in H1, H2, H3 by (by intros []). cbn [operations_replayed keys_loaded keys_added keys_updated keys_deleted] in *. split_and!; lia.
  - cbn [operations_replayed keys_loaded keys_added keys_updated keys_deleted] in *. split_and!; lia.
  - rewrite map_size_delete in H3. destruct (m !! k) as [b|] eqn:Em; unfold id in H3.
    + assert (size m <> 0%nat) by (apply (map_size_ne_0_lookup_2 m k); by rewrite Em).
      rewrite bool_decide_true in H1, H2, H3 by (by eexists). cbn [operations_replayed keys_loaded keys_added keys_updated keys_deleted] in *. split_and!; lia.
    + rewrite bool_decide_false in H1, H2, H3 by (by intros []). cbn [operations_replayed keys_loaded keys_added keys_updated keys_deleted] in *. split_and!; lia.
  - rewrite map_size_delete in H3. destruct (m !! k) as [b|] eqn:Em; unfold id in H3.
    + assert (size m <> 0%nat) by (apply (map_size_ne_0_lookup_2 m k); by rewrite Em).
      rewrite bool_decide_true in H1, H2, H3 by (by eexists). cbn [operations_replayed keys_loaded keys_added keys_updated keys_deleted] in *. split_and!; lia.
    + rewrite bool_decide_false in H1, H2, H3 by (by intros []). cbn [operations_replayed keys_loaded keys_added keys_updated keys_deleted] in *. split_and!; lia.
Qed.

(** A recovery from pairs only loads. *)
Lemma recover_pairs l st ix st' ix' : recover_events (set_of_pair <$> l) st ix = Some (st', ix') ->
  (keys_loaded st' = keys_loaded st + length l)%nat /\ keys_deleted st' = keys_deleted st.
Proof.
  revert st ix. induction l as [|kv l IH]; intros st ix H; cbn [recover_events fmap list_fmap] in H.
  { injection H as <- <-. cbn [length]. by rewrite Nat.add_0_r. }
  destruct (shard_for_key ix _) as [id|]; cbn [mbind option_bind] in H; [|done].
  destruct (shards ix !! id) as [sh|]; cbn [mbind option_bind] in H; [|done].
  destruct (replay_event _ ix) as [ix1|]; cbn [mbind option_bind] in H; [|done].
  apply IH in H as [-> ->]. cbn [length]. unfold count_event, set_of_pair. case_bool_decide; cbn [keys_loaded keys_deleted]; (split; [lia|done]).
Qed.

(** C39. Compaction keeps the data: the file that takes the place of the log is
    replayed, under any policies and with any number of shards, into a store with the
    same map; a recovery from it loads and adds each key once and updates or deletes
    none, and a second recovery over its result changes nothing. *)
Theorem compaction_keeps_data {clk : Clock} ix m (cfg : PersistentStoreConfig) (seed : Z * Z) (now : Z) :
  Represents ix m -> map_ok m -> (0 < cfg_shards cfg)%nat ->
  exists s, Persistent.new (perform_compaction ix) cfg seed now = Some (Ok s) /\ Represents (index s) m /\
    exists ix', recover_from_aof_only (Some (perform_compaction ix)) now (Sharding.new (cfg_shards cfg) (cfg_metrics cfg) seed) =
        Some (Ok (mkRecovery false (size m) (size m) (size m) 0 0), ix') /\
      Represents ix' m /\
      exists st2 ix2, recover_from_aof_only (Some (perform_compaction ix)) now ix' = Some (Ok st2, ix2) /\ Represents ix2 m.
Proof.
  intros Hr Hok Hn. pose proof (new_rep (V := bytes) (cfg_shards cfg) (cfg_metrics cfg) seed Hn) as Hr0.
  destruct (compacted_replay ix m (cfg_sync cfg) (cfg_corruption cfg) now Hr Hok) as (l & l' & Eo & Er & _ & _).
  destruct (replay_events_rep (set_of_pair <$> collect_data ix) _ ∅ Hr0) as (ix1 & E1 & Hr1 & _).
  rewrite apply_pairs, (collect_insert ix m ∅ Hr), map_union_empty in Hr1.
  eexists. split; [unfold Persistent.new; rewrite Eo, Er; cbn [mbind option_bind]; rewrite E1; reflexivity|].
  split; [exact Hr1|].
  destruct (compacted_replay ix m No Log now Hr Hok) as (l2 & l2' & Eo2 & Er2 & _ & _).
  assert (forall ix0 m0, Represents ix0 m0 -> exists st ix', recover_from_aof_only (Some (perform_compaction ix)) now ix0 = Some (Ok st, ix') /\
    Represents ix' (m ∪ m0) /\ recover_events (set_of_pair <$> collect_data ix) no_recovery ix0 = Some (st, ix') /\ operations_replayed st = size m /\
    keys_loaded st = (keys_added st + keys_updated st)%nat /\ (keys_added st + size m0 = size (m ∪ m0) + keys_deleted st)%nat) as Hrec.
  { intros ix0 m0 H0. destruct (recover_events_rep (set_of_pair <$> collect_data ix) no_recovery ix0 m0 H0) as (st & ix' & E & H1 & H2 & H3 & H4).
    rewrite apply_pairs, (collect_insert ix m m0 Hr) in H1, H4. rewrite length_fmap in H2.
    rewrite (hm_repr_length _ _ (collect_spec ix m Hr)) in H2. cbn [no_recovery operations_replayed keys_loaded keys_added keys_updated keys_deleted] in *.
    exists st, ix'. split; [unfold recover_from_aof_only; rewrite Eo2, Er2; cbn [mbind option_bind]; rewrite E; reflexivity|].
    split; [exact H1|]. split; [exact E|]. split; [exact H2|]. split; lia. }
  destruct (Hrec _ ∅ Hr0) as (st & ix' & E & H1 & H0 & H2 & H3 & H4). rewrite map_union_empty, map_size_empty in *.
  destruct (recover_pairs _ _ _ _ _ H0) as [H5 H6]. rewrite (hm_repr_length _ _ (collect_spec ix m Hr)) in H5.
  cbn [no_recovery keys_loaded keys_deleted] in H5, H6. exists ix'. split.
  - rewrite E. do 2 f_equal. f_equal. assert (snapshot_used st = false) as Hs.
    { revert H0. clear. generalize (set_of_pair <$> collect_data ix). intros es. change false with (snapshot_used no_recovery) at 1.
      generalize no_recovery. revert ix'. generalize (Sharding.new (V := bytes) (cfg_shards cfg) (cfg_metrics cfg) seed).
      induction es as [|e es IH]; intros ix0 ix' r H; cbn [recover_events] in H; [by injection H as <- <-|].
      destruct (shard_for_key ix0 _) as [id|]; cbn [mbind option_bind] in H; [|done].
      destruct (shards ix0 !! id) as [sh|]; cbn [mbind option_bind] in H; [|done].
      destruct (replay_event _ ix0) as [ix1|]; cbn [mbind option_bind] in H; [|done]. apply IH in H. rewrite H.
      unfold count_event. destruct e as [[[] k] [v|]]; by case_bool_decide. }
    destruct st. cbn in *. f_equal; [exact Hs|lia..].
  - split; [exact H1|]. destruct (Hrec ix' m H1) as (st2 & ix2 & E2 & H7 & _). exists st2, ix2. split; [exact E2|].
    by rewrite map_union_idemp in H7.
Qed.

(** ** Recovery with a snapshot *)

(** A log is replayed into an index, with the number of its operations. *)
Lemma aof_only_replays {clk : Clock} ix m (es : list event) (now : Z) : Represents ix m -> Forall event_ok es ->
  exists st ix', recover_from_aof_only (Some (MAGIC ++ records es)) now ix = Some (Ok st, ix') /\
    operations_replayed st = length es /\ Represents ix' (foldl apply_event m es).
Proof.
  intros Hr Hes. unfold recover_from_aof_only. set (file := MAGIC ++ records es).
  set (l := mkLog file [] No Log no_stats 0 INITIAL_BATCH now 0 0 0 0 0).
  assert (Aof.open file No Log now = Ok l) as -> by done.
  destruct (replay_file_cut Log es (length (records es)) (mkReplay [] (stats l) (replay_skipped l)) Hes ltac:(lia)) as (res & r' & Hrep & _ & Heq).
  destruct (complete_all es) as [Hca Hbt]. destruct Heq as [-> Hev]; [by right|]. rewrite firstn_all in Hrep.
  unfold replay. change (corruption_policy l) with Log. change (disk l) with file. unfold file. rewrite Hrep, Hev, Hca, Hbt. cbn [mbind option_bind rp_events app].
  destruct (recover_events_rep es no_recovery ix _ Hr) as (st & ix' & -> & Hr' & Hops & _). cbn [mbind option_bind rbind].
  by exists st, ix'.
Qed.

(** Recovery with a snapshot does not recover the snapshot: the latest one is loaded
    into the index of the manager of compaction, which [initialize_and_recover] makes
    a copy of the index of the store, while the log is replayed into the index of the
    store.  The statistics say that the snapshot was used; the store has the
    operations of the log over what it had before, and nothing of the snapshot. *)
Theorem snapshot_not_recovered {clk : Clock} ix0 m0 ix m (es : list event) (cfg : CompactionConfig) (dir : directory) (t now : Z) name (st0 : nat) strategy :
  Represents ix0 m0 -> Represents ix m -> map_ok m -> Forall event_ok es -> is_u 64 t -> Z.of_nat (size m) < 2 ^ 64 ->
  find_latest_snapshot cfg dir = Some name ->
  list_find (fun f => f.1 = path name) dir = Some (st0, (path name, snapshot_bytes t (Z.of_nat (size m)) (collect_data ix))) ->
  strategy <> AofOnly ->
  exists st own ix', initialize_and_recover strategy cfg (Some (MAGIC ++ records es)) dir now ix0 =
      Some (Ok st, Some (mkCompactionManager cfg own), ix') /\
    snapshot_used st = true /\ operations_replayed st = length es /\
    Represents own (m ∪ m0) /\ Represents ix' (foldl apply_event m0 es).
Proof.
  intros Hr0 Hr Hok Hes Ht Hsz Hl Hf Hstr. unfold initialize_and_recover, initialize.
  set (mg := Some (mkCompactionManager cfg ix0)).
  enough (exists st own ix', recover_from_snapshot_plus_aof mg (Some (MAGIC ++ records es)) dir now ix0 = Some (Ok st, Some (mkCompactionManager cfg own), ix') /\
    snapshot_used st = true /\ operations_replayed st = length es /\ Represents own (m ∪ m0) /\
    Represents ix' (foldl apply_event m0 es)) as (st & own & ix' & E & H).
  { exists st, own, ix'. split; [|done]. unfold recover. destruct strategy; [done| |]; rewrite E; done. }
  unfold recover_from_snapshot_plus_aof, mg. cbn [mbind option_bind manager_config]. rewrite Hl. cbn [mbind option_bind].
  rewrite Hf. cbn [mbind option_bind fst snd manager_index manager_config].
  destruct (snapshot_loads ix m ix0 m0 t [] Hr Hr0 Hok Ht Hsz) as (own & E & Hown).
  rewrite app_nil_r in E. rewrite E. cbn [mbind option_bind].
  destruct (aof_only_replays ix0 m0 es now Hr0 Hes) as (st & ix' & -> & Hops & Hr'). cbn [mbind option_bind rbind].
  by eexists _, own, ix'.
Qed.
End Laws.

(** ** Instances *)

#[local] Existing Instance ZdbStored.ex_dict_ops.
#[local] Existing Instance ZdbStored.ex_skip_ops.
#[local] Existing Instance ex_sip.
#[local] Existing Instance ex_rand.
#[local] Existing Instance ex_clock.
#[local] Existing Instance ex_codec.

#[local] Instance ex_iter : IterOrder := {| iter_map := map_to_list; iter_perm := fun m => Permutation_refl _ |}.

(** An index with one key, or a map. *)
Definition ex_index (n : nat) (m : gmap bytes bytes) : ShardedIndex bytes :=
  default (Sharding.new n true (0, 0)) (Sharding.mset (Sharding.new n true (0, 0)) (map_to_list m)).
Definition ex_data : gmap bytes bytes := <[[97] := [1; 1; 65]]> (<[[98] := [2; 2]]> ∅).

Lemma ex_index_rep n m : (0 < n)%nat -> Represents (ex_index n m) m.
Proof.
  intros Hn. unfold ex_index. destruct (mset_rep _ ∅ (map_to_list m) (new_rep n true (0, 0) Hn)) as (ix & E & Hr & _).
  rewrite E. cbn [default from_option]. unfold id. by rewrite (insert_pairs_entries m (map_to_list m) (Permutation_refl _)) in Hr.
Qed.

Lemma ex_data_ok : map_ok ex_data.
Proof.
  unfold ex_data. apply map_Forall_insert_2; [|apply map_Forall_insert_2; [|apply map_Forall_empty]];
    (split; (split; [repeat constructor; by compute|by vm_compute])).
Qed.

Lemma snapshot_roundtrip_witness :
  exists ix1, load_snapshot (snapshot_bytes 9 2 (collect_data (ex_index 3 ex_data))) (ex_index 2 (<[[98] := [0]]> ∅)) = Some (Ok 2%nat, ix1) /\
    Represents ix1 (ex_data ∪ <[[98] := [0]]> ∅).
Proof.
  destruct (snapshot_roundtrip default_config 9 (ex_index 3 ex_data) (ex_index 2 (<[[98] := [0]]> ∅)) [] ex_data (<[[98] := [0]]> ∅) [])
    as (_ & Hk & ix1 & E & Hr).
  - apply ex_index_rep. lia.
  - apply ex_index_rep. lia.
  - apply ex_data_ok.
  - by vm_compute.
  - by vm_compute.
  - exists ix1. rewrite app_nil_r, Hk in E. split; [exact E|exact Hr].
Defined.

Lemma compaction_keeps_data_witness :
  exists s, Persistent.new (perform_compaction (ex_index 3 ex_data)) (mkConfig 2 false Always Strict true) (7, 8) 5 = Some (Ok s) /\
    Represents (index s) ex_data.
Proof.
  destruct (compaction_keeps_data (ex_index 3 ex_data) ex_data (mkConfig 2 false Always Strict true) (7, 8) 5) as (s & E & Hr & _).
  - apply ex_index_rep. lia.
  - apply ex_data_ok.
  - cbn. lia.
  - exists s. split; [exact E|exact Hr].
Defined.

Definition ex_latest : SnapshotInfo := mkInfo (snapshot_name 9) 9 0 (len (snapshot_bytes 9 2 (collect_data (ex_index 3 ex_data)))) 0.

(** The store recovers to the operations of the log: the keys of the snapshot are not there. *)
Lemma snapshot_not_recovered_witness :
  exists st mg ix', initialize_and_recover Auto default_config (Some (MAGIC ++ records [del_event [97]]))
      [(snapshot_name 9, snapshot_bytes 9 2 (collect_data (ex_index 3 ex_data)))] 5 (Sharding.new 4 true (1, 1)) = Some (Ok st, mg, ix') /\
    Represents ix' ∅.
Proof.
  destruct (snapshot_not_recovered (Sharding.new 4 true (1, 1)) ∅ (ex_index 3 ex_data) ex_data [del_event [97]] default_config
    [(snapshot_name 9, snapshot_bytes 9 2 (collect_data (ex_index 3 ex_data)))] 9 5 ex_latest 0 Auto) as (st & own & ix' & E & _ & _ & _ & Hr).
  - apply new_rep. lia.
  - apply ex_index_rep. lia.
  - apply ex_data_ok.
  - unfold del_event. event_ok_tac.
  - by vm_compute.
  - by vm_compute.
  - vm_compute. reflexivity.
  - vm_compute. reflexivity.
  - discriminate.
  - exists st, (Some (mkCompactionManager default_config own)), ix'. split; [exact E|exact Hr].
Defined.

(** A store on the compacted log, a write, a restart, and the key that was written. *)
Definition write_after_compaction (corruption : CorruptionPolicy) : option (result AofError (list (result StoreError reply))) :=
  let cfg := mkConfig 2 false Always corruption true in
  s ← Persistent.new (perform_compaction (ex_index 3 ex_data)) cfg (7, 8) 5;
  match s with
  | Err e => Some (Err e)
  | Ok s =>
      '(_, s) ← run [PSet [99] (VInt 7)] s;
      s ← Persistent.new (close (aof s)) cfg (7, 8) 5;
      match s with
      | Err e => Some (Err e)
      | Ok s => '(rs, _) ← run [PGet [99]] s; Some (Ok rs)
      end
  end.

(** A write after a compaction is lost: the compacted log has the header of the
    first format and the store appends records of the second, so that after a
    restart the store does not open, or opens without the key. *)
Theorem compaction_loses_writes :
  (exists e, write_after_compaction Strict = Some (Err e)) /\
  write_after_compaction Log = Some (Ok [Ok (RValue None)]) /\ write_after_compaction Skip = Some (Ok [Ok (RValue None)]).
Proof. split; [eexists; vm_compute; reflexivity|]. split; vm_compute; reflexivity. Qed.
