(* ===== verification/Text.v ===== *)
(** * Text

    The functions of [str] and [String] that the protocols use, on the bytes of a
    string: its characters, white space, case and the repair of bytes that are
    not UTF-8. *)
From S2P Require Import Prelude SdsNumeric Numbers.
Local Open Scope Z_scope.

(** ** Characters *)

(** The characters of a string, each as its bytes. *)
Fixpoint chars (s : bytes) : list bytes :=
  match s with
  | [] => []
  | b :: l =>
      if b <? 0x80 then [b] :: chars l
      else if b <? 0xE0 then match l with c1 :: l => [b; c1] :: chars l | _ => [[b]] end
      else if b <? 0xF0 then match l with c1 :: c2 :: l => [b; c1; c2] :: chars l | _ => [b :: l] end
      else match l with c1 :: c2 :: c3 :: l => [b; c1; c2; c3] :: chars l | _ => [b :: l] end
  end.

(** [char::is_whitespace]: the property White_Space of Unicode. *)
Definition is_whitespace (c : bytes) : bool :=
  match c with
  | [b] => ((9 <=? b) && (b <=? 13)) || (b =? 32)
  | [b; c1] => (b =? 0xC2) && ((c1 =? 0x85) || (c1 =? 0xA0))
  | [b; c1; c2] =>
      bool_decide (c ∈ [[0xE1; 0x9A; 0x80]; [0xE2; 0x80; 0xA8]; [0xE2; 0x80; 0xA9]; [0xE2; 0x80; 0xAF];
                        [0xE2; 0x81; 0x9F]; [0xE3; 0x80; 0x80]]) ||
      ((b =? 0xE2) && (c1 =? 0x80) && (0x80 <=? c2) && (c2 <=? 0x8A))
  | _ => false
  end.

(** A part that has been read, if there is one. *)
Definition close_part (part : bytes) : list bytes := match part with [] => [] | _ => [part] end.

Fixpoint split_chars (cs : list bytes) (part : bytes) : list bytes :=
  match cs with
  | [] => close_part part
  | c :: cs => if is_whitespace c then close_part part ++ split_chars cs [] else split_chars cs (part ++ c)
  end.

(** [split_whitespace] *)
Definition split_whitespace (s : bytes) : list bytes := split_chars (chars s) [].

Fixpoint drop_white (cs : list bytes) : list bytes :=
  match cs with
  | [] => []
  | c :: cs' => if is_whitespace c then drop_white cs' else cs
  end.

(** [trim] *)
Definition trim (s : bytes) : bytes := concat (rev (drop_white (rev (drop_white (chars s))))).

(** ** Case *)

Definition ascii_upper (b : Z) : Z := if (97 <=? b) && (b <=? 122) then b - 32 else b.
Definition ascii_lower (b : Z) : Z := if (65 <=? b) && (b <=? 90) then b + 32 else b.

Definition to_ascii_lowercase (s : bytes) : bytes := ascii_lower <$> s.

(** The upper case of a character, where that is ASCII: besides the letters of
    ASCII, of the sharp s, the dotless i, the long s and the ligatures. *)
Definition upper_char (c : bytes) : option bytes :=
  match c with
  | [b] => if b <? 0x80 then Some [ascii_upper b] else None
  | _ =>
      snd <$> find (fun p => bool_decide (fst p = c))
        [([0xC3; 0x9F], ascii_bytes "SS"); ([0xC4; 0xB1], ascii_bytes "I"); ([0xC5; 0xBF], ascii_bytes "S");
         ([0xEF; 0xAC; 0x80], ascii_bytes "FF"); ([0xEF; 0xAC; 0x81], ascii_bytes "FI");
         ([0xEF; 0xAC; 0x82], ascii_bytes "FL"); ([0xEF; 0xAC; 0x83], ascii_bytes "FFI");
         ([0xEF; 0xAC; 0x84], ascii_bytes "FFL"); ([0xEF; 0xAC; 0x85], ascii_bytes "ST");
         ([0xEF; 0xAC; 0x86], ascii_bytes "ST")]
  end.

(** [to_uppercase], where the result is ASCII: it is only compared with ASCII. *)
Definition to_uppercase (s : bytes) : option bytes := parts ← mapM upper_char (chars s); Some (concat parts).

Definition upper_is (s : bytes) (name : string) : bool := bool_decide (to_uppercase s = Some (ascii_bytes name)).
Definition lower_is (s : bytes) (name : string) : bool := bool_decide (to_ascii_lowercase s = ascii_bytes name).

(** ** Repair *)

Definition REPLACEMENT : bytes := [0xEF; 0xBF; 0xBD].

(** [String::from_utf8_lossy]: a replacement for every longest start of a
    character that is not followed by its rest. *)
Fixpoint from_utf8_lossy (l : bytes) : bytes :=
  match l with
  | [] => []
  | b :: l1 =>
      if b <? 0x80 then b :: from_utf8_lossy l1
      else if b <? 0xC2 then REPLACEMENT ++ from_utf8_lossy l1
      else if b <? 0xE0 then
        match l1 with
        | c1 :: l2 => if tail_byte 0x80 0xBF c1 then b :: c1 :: from_utf8_lossy l2 else REPLACEMENT ++ from_utf8_lossy l1
        | [] => REPLACEMENT
        end
      else if b <? 0xF0 then
        match l1 with
        | c1 :: l2 =>
            if tail_byte (if b =? 0xE0 then 0xA0 else 0x80) (if b =? 0xED then 0x9F else 0xBF) c1 then
              match l2 with
              | c2 :: l3 =>
                  if tail_byte 0x80 0xBF c2 then b :: c1 :: c2 :: from_utf8_lossy l3
                  else REPLACEMENT ++ from_utf8_lossy l2
              | [] => REPLACEMENT
              end
            else REPLACEMENT ++ from_utf8_lossy l1
        | [] => REPLACEMENT
        end
      else if b <? 0xF5 then
        match l1 with
        | c1 :: l2 =>
            if tail_byte (if b =? 0xF0 then 0x90 else 0x80) (if b =? 0xF4 then 0x8F else 0xBF) c1 then
              match l2 with
              | c2 :: l3 =>
                  if tail_byte 0x80 0xBF c2 then
                    match l3 with
                    | c3 :: l4 =>
                        if tail_byte 0x80 0xBF c3 then b :: c1 :: c2 :: c3 :: from_utf8_lossy l4
                        else REPLACEMENT ++ from_utf8_lossy l3
                    | [] => REPLACEMENT
                    end
                  else REPLACEMENT ++ from_utf8_lossy l2
              | [] => REPLACEMENT
              end
            else REPLACEMENT ++ from_utf8_lossy l1
        | [] => REPLACEMENT
        end
      else REPLACEMENT ++ from_utf8_lossy l1
  end.

(** ** Lemmas *)

(** Induction on byte strings by their length. *)
Lemma bytes_length_ind (P : bytes -> Prop) :
  (forall l, (forall k, (length k < length l)%nat -> P k) -> P l) -> forall l, P l.
Proof.
  intros H l. remember (length l) as n eqn:Hn. revert l Hn.
  induction n as [n IH] using lt_wf_ind. intros l ->. apply H. intros k Hk. by apply (IH (length k)).
Qed.

Lemma utf8_after_replacement l : is_utf8 (REPLACEMENT ++ l) = is_utf8 l.
Proof. done. Qed.

(** The repair keeps what is UTF-8. *)
Lemma from_utf8_lossy_valid l : is_utf8 l = true -> from_utf8_lossy l = l.
Proof.
  induction l as [l IH] using bytes_length_ind. destruct l as [|b l1]; [done|]. simpl. intros H.
  repeat (step_match; simpl in *; try discriminate); bool_to_prop; simplify_eq;
    repeat match goal with Ht : tail_byte _ _ _ = true |- _ => rewrite ?Ht in *; clear Ht end; simpl;
    repeat f_equal; try (apply IH; simpl; [lia|done]); done.
Qed.

(** The repair gives UTF-8. *)
Lemma from_utf8_lossy_utf8 l : is_utf8 (from_utf8_lossy l) = true.
Proof.
  induction l as [l IH] using bytes_length_ind. destruct l as [|b l1]; [done|]. simpl.
  repeat (step_match; try discriminate); try (rewrite utf8_after_replacement); try done;
    try (apply IH; simpl; lia); simpl;
    repeat match goal with
    | Ht : ?t = true |- context [?t] => rewrite Ht
    | Ht : ?t = false |- context [?t] => rewrite Ht
    end; simpl; try (apply IH; simpl; lia).
Qed.

Lemma chars_app a b : is_utf8 a = true -> chars (a ++ b) = chars a ++ chars b.
Proof.
  induction a as [a IH] using bytes_length_ind. destruct a as [|x a1]; [done|]. simpl. intros H.
  destruct (x <? 128); [simpl; f_equal; apply IH; [simpl; lia|done]|]. destruct (x <? 194); [done|].
  destruct (x <? 224).
  { destruct a1 as [|c1 a1]; [done|]. apply andb_true_iff in H as [_ H]. simpl. f_equal. apply IH; [simpl; lia|done]. }
  destruct (x <? 240).
  { destruct a1 as [|c1 [|c2 a1]]; [done|done|]. apply andb_true_iff in H as [_ H]. simpl. f_equal.
    apply IH; [simpl; lia|done]. }
  destruct (x <? 245); [|done]. destruct a1 as [|c1 [|c2 [|c3 a1]]]; [done|done|done|].
  apply andb_true_iff in H as [_ H]. simpl. f_equal. apply IH; [simpl; lia|done].
Qed.

Lemma concat_chars s : concat (chars s) = s.
Proof.
  induction s as [s IH] using bytes_length_ind. destruct s as [|x s1]; [done|]. simpl.
  destruct (x <? 128); [simpl; f_equal; apply IH; simpl; lia|].
  destruct (x <? 224); [destruct s1 as [|c1 s1]; [done|simpl; do 2 f_equal; apply IH; simpl; lia]|].
  destruct (x <? 240).
  { destruct s1 as [|c1 [|c2 s1]]; [done|done|]. simpl. do 3 f_equal. apply IH. simpl. lia. }
  destruct s1 as [|c1 [|c2 [|c3 s1]]]; [done|done|done|]. simpl. do 4 f_equal. apply IH. simpl. lia.
Qed.

(** A word: what [split_whitespace] finds. *)
Definition word (s : bytes) : Prop :=
  s <> [] /\ is_utf8 s = true /\ Forall (fun c => is_whitespace c = false) (chars s).

Lemma split_chars_word cs rest part : Forall (fun c => is_whitespace c = false) cs ->
  split_chars (cs ++ rest) part = split_chars rest (part ++ concat cs).
Proof.
  intros H. revert part. induction H as [|c cs Hc H IH]; intros part; simpl; [by rewrite app_nil_r|].
  by rewrite Hc, IH, <- app_assoc.
Qed.

Lemma split_one_word s c rest part : word s -> is_whitespace c = true ->
  split_chars (chars s ++ c :: rest) part = (part ++ s) :: split_chars rest [].
Proof.
  intros (Hn & Hu & Hw) Hc. rewrite split_chars_word by done. simpl. rewrite Hc, concat_chars.
  assert (part ++ s <> []) as Hp by (intros He; apply app_eq_nil in He as [? ?]; done).
  by destruct (part ++ s).
Qed.

(** The line of a text command: its words, spaces between them, its end. *)
Fixpoint text_line (words : list bytes) : bytes :=
  match words with
  | [] => [13; 10]
  | [w] => w ++ [13; 10]
  | w :: words => w ++ 32 :: text_line words
  end.

Lemma split_text_line words : Forall word words -> split_whitespace (text_line words) = words.
Proof.
  unfold split_whitespace. intros H. induction H as [|w words Hw H IH]; [done|].
  pose proof Hw as (_ & Hu & _). destruct words as [|w' words].
  - simpl. rewrite chars_app by done. exact (split_one_word w [13] [[10]] [] Hw eq_refl).
  - change (text_line (w :: w' :: words)) with (w ++ 32 :: text_line (w' :: words)).
    rewrite chars_app by done. change (chars (32 :: ?l)) with ([32] :: chars l).
    rewrite (split_one_word w [32]) by done. by rewrite IH.
Qed.

Lemma ascii_word s : s <> [] -> Forall (fun b => 33 <= b < 127) s -> word s.
Proof.
  intros Hn H. split; [done|]. split.
  { apply is_utf8_ascii. eapply Forall_impl; [exact H|]. simpl. lia. }
  clear Hn. induction H as [|b s Hb H IH]; simpl; [constructor|].
  rewrite (proj2 (Z.ltb_lt b 0x80)) by lia. constructor; [|done]. simpl.
  cut (is_whitespace [b] = false); [done|]. unfold is_whitespace.
  rewrite (proj2 (Z.leb_gt b 13)), (proj2 (Z.eqb_neq b 32)), andb_false_r by lia. done.
Qed.

Lemma is_utf8_app a b : is_utf8 a = true -> is_utf8 (a ++ b) = is_utf8 b.
Proof.
  induction a as [a IH] using bytes_length_ind. destruct a as [|x a1]; [done|]. simpl. intros H.
  destruct (x <? 128); [apply IH; [simpl; lia|done]|]. destruct (x <? 194); [done|].
  destruct (x <? 224).
  { destruct a1 as [|c1 a1]; [done|]. apply andb_true_iff in H as [Hc H]. simpl. rewrite Hc. apply IH; [simpl; lia|done]. }
  destruct (x <? 240).
  { destruct a1 as [|c1 [|c2 a1]]; [done|done|]. apply andb_true_iff in H as [Hc H]. simpl. rewrite Hc. apply IH; [simpl; lia|done]. }
  destruct (x <? 245); [|done]. destruct a1 as [|c1 [|c2 [|c3 a1]]]; [done|done|done|].
  apply andb_true_iff in H as [Hc H]. simpl. rewrite Hc. apply IH; [simpl; lia|done].
Qed.

Lemma text_line_utf8 words : Forall word words -> is_utf8 (text_line words) = true.
Proof.
  induction 1 as [|w words (_ & Hu & _) H IH]; [done|]. destruct words as [|w' words].
  - simpl. by rewrite is_utf8_app.
  - change (text_line (w :: w' :: words)) with (w ++ 32 :: text_line (w' :: words)). by rewrite is_utf8_app.
Qed.

(** A byte of ASCII in a string is a character. *)
Lemma ascii_char s b : is_utf8 s = true -> 0 <= b < 128 -> b ∈ s -> [b] ∈ chars s.
Proof.
  intros Hu Hb. revert Hu. induction s as [s IH] using bytes_length_ind. destruct s as [|x s1]; simpl; intros Hu Hin.
  { by apply not_elem_of_nil in Hin. }
  assert (forall lo hi c, 128 <= lo -> tail_byte lo hi c = true -> b <> c) as Ht.
  { unfold tail_byte. intros lo hi c Hlo Hc. apply andb_true_iff in Hc as [Hc _]. bool_to_prop. lia. }
  destruct (Z.ltb_spec x 128).
  { apply elem_of_cons in Hin as [->|Hin]; [by left|]. right. apply IH; [simpl; lia|done|done]. }
  apply elem_of_cons in Hin as [->|Hin]; [lia|]. destruct (x <? 194); [done|].
  destruct (x <? 224).
  { destruct s1 as [|c1 s1]; [done|]. apply andb_true_iff in Hu as [Hc Hu].
    apply elem_of_cons in Hin as [->|Hin]; [by apply Ht in Hc|]. right. apply IH; [simpl; lia|done|done]. }
  destruct (x <? 240).
  { destruct s1 as [|c1 [|c2 s1]]; [done|done|]. apply andb_true_iff in Hu as [Hc Hu]. apply andb_true_iff in Hc as [Hc1 Hc2].
    apply elem_of_cons in Hin as [->|Hin]; [apply Ht in Hc1; [done|destruct (x =? 224); lia]|].
    apply elem_of_cons in Hin as [->|Hin]; [by apply Ht in Hc2|]. right. apply IH; [simpl; lia|done|done]. }
  destruct (x <? 245); [|done]. destruct s1 as [|c1 [|c2 [|c3 s1]]]; [done|done|done|].
  apply andb_true_iff in Hu as [Hc Hu]. apply andb_true_iff in Hc as [Hc Hc3]. apply andb_true_iff in Hc as [Hc1 Hc2].
  apply elem_of_cons in Hin as [->|Hin]; [apply Ht in Hc1; [done|destruct (x =? 240); lia]|].
  apply elem_of_cons in Hin as [->|Hin]; [by apply Ht in Hc2|].
  apply elem_of_cons in Hin as [->|Hin]; [by apply Ht in Hc3|]. right. apply IH; [simpl; lia|done|done].
Qed.

Lemma word_no_lf w : word w -> 10 ∉ w.
Proof.
  intros (_ & Hu & Hw) Hin. apply (ascii_char w 10 Hu ltac:(lia)) in Hin.
  rewrite Forall_forall in Hw. by specialize (Hw _ Hin).
Qed.

(** [trim] keeps what starts with a letter of ASCII. *)
Lemma trim_head b s : b < 128 -> is_whitespace [b] = false -> exists t, trim (b :: s) = b :: t.
Proof.
  intros Hb Hw. unfold trim. assert (chars (b :: s) = [b] :: chars s) as -> by (simpl; by rewrite (proj2 (Z.ltb_lt _ _))).
  cbn [drop_white]. rewrite Hw. cbn [rev].
  assert (forall l, exists l', drop_white (l ++ [[b]]) = l' ++ [[b]]) as Hd.
  { induction l as [|c l (l' & IH)]; cbn [app drop_white]; [rewrite Hw; by exists []|].
    destruct (is_whitespace c); [by exists l'|by exists (c :: l)]. }
  destruct (Hd (rev (chars s))) as (l' & ->). rewrite rev_app_distr. cbn [rev app concat]. by eexists.
Qed.

Lemma upper_head b s name : b < 128 -> upper_is (b :: s) name = true -> hd 0 (ascii_bytes name) = ascii_upper b.
Proof.
  intros Hb Hu. unfold upper_is in Hu. apply bool_decide_eq_true in Hu. unfold to_uppercase in Hu.
  assert (chars (b :: s) = [b] :: chars s) as Hc by (simpl; by rewrite (proj2 (Z.ltb_lt _ _))). rewrite Hc in Hu.
  cbn [mapM upper_char] in Hu. rewrite (proj2 (Z.ltb_lt _ _)) in Hu by done. cbn [mbind option_bind] in Hu.
  destruct (mapM upper_char (chars s)) as [parts|]; [|done]. cbn in Hu. injection Hu as Hu. by rewrite <- Hu.
Qed.
