(* ===== verification/Protocol.v ===== *)
(** * Commands and responses on the wire

    Models [src/src/network/zsp/protocol] ([command.rs], [parser.rs],
    [serializer.rs]) and the conversions of the client
    ([src/src/client/connection.rs]): the frame of a command and the command of a
    frame, the frame of a response and the response of a frame.  JSON is of the
    library serde_json and open here ([Json]). *)
From S2P Require Import Prelude Interfaces SdsNumeric ZdbValue Numbers Storage Zsp Text.
From S2P Require Commands SmartHash Dict SkipList QuickList.
Local Open Scope Z_scope.

(** ** Commands *)

(** [serde_json::Value] with [from_str] and [to_string]. *)
Class Json := {
  json : Type;
  json_from_str : bytes -> option json;
  json_to_string : json -> bytes;
}.

Section Protocol.
Context {js : Json}.

Inductive PubSubMessage : Type :=
| MBytes (data : bytes)
| MString (s : bytes)
| MJson (value : json)
| MSerialized (data content_type : bytes).

(** The commands that a client names ([zsp::Command]). *)
Inductive Command : Type :=
| CPing
| CEcho (message : bytes)
| CSet (key : bytes) (value : Value)
| CGet (key : bytes)
| CDel (key : bytes)
| CMSet (entries : list (bytes * Value))
| CMGet (keys : list bytes)
| CSetNx (key : bytes) (value : Value)
| CRename (from to : bytes)
| CRenameNx (from to : bytes)
| CAuth (user : option bytes) (pass : bytes)
| CSubscribe (channels : list bytes)
| CUnsubscribe (channels : list bytes)
| CPublish (channel : bytes) (message : PubSubMessage).

Definition name (c : Command) : string :=
  match c with
  | CPing => "ping" | CEcho _ => "echo" | CSet _ _ => "set" | CGet _ => "get" | CDel _ => "del"
  | CMSet _ => "mset" | CMGet _ => "mget" | CSetNx _ _ => "setnx" | CRename _ _ => "rename"
  | CRenameNx _ _ => "renamenx" | CAuth _ _ => "auth" | CSubscribe _ => "subscribe"
  | CUnsubscribe _ => "unsubscribe" | CPublish _ _ => "publish"
  end.

Inductive Response : Type :=
| ROk
| RValue (value : Value)
| RError (message : bytes)
| RNotFound
| RInteger (i : Z)
| RFloat (f : f64)
| RBool (b : bool)
| RString (s : bytes)
| RMessage (channel : bytes) (message : PubSubMessage)
| RSubscribed (channel : bytes) (count : Z)
| RUnsubscribed (channel : bytes) (count : Z).

(** ** Parser *)

Inductive ParseError : Type :=
| ExpectedArray | CommandMustBeString | NotUtf8 | UnknownCommand
| InvalidKey (cmd : string) | KeyNotUtf8 (cmd : string) | InvalidValueType (cmd : string)
| WrongArgCount (cmd : string) (count : nat) | MSetWrongArgCount.

(** The commands that the parser makes: on the store, or of another kind. *)
Inductive StoreCommand : Type :=
| OnStore (c : Commands.Command)
| Auth (user pass : bytes).

(** [into_executable]; [None] is the panic of [user.unwrap()]. *)
Definition into_executable (c : Command) : option (result ParseError StoreCommand) :=
  match c with
  | CSet key value => Some (Ok (OnStore (Commands.Set_ key value)))
  | CGet key => Some (Ok (OnStore (Commands.Get key)))
  | CDel key => Some (Ok (OnStore (Commands.Del key)))
  | CMSet entries => Some (Ok (OnStore (Commands.MSet entries)))
  | CMGet keys => Some (Ok (OnStore (Commands.MGet keys)))
  | CSetNx key value => Some (Ok (OnStore (Commands.SetNx key value)))
  | CRename from to => Some (Ok (OnStore (Commands.Rename from to)))
  | CRenameNx from to => Some (Ok (OnStore (Commands.Renamenx from to)))
  | CAuth (Some user) pass => Some (Ok (Auth user pass))
  | CAuth None _ => None
  | CPublish _ _ | CSubscribe _ | CUnsubscribe _ | CPing | CEcho _ => Some (Err UnknownCommand)
  end.

Definition parse_key (cmd : string) (frame : ZspFrame) : result ParseError bytes :=
  match frame with
  | InlineString s => Ok s
  | BinaryString (Some b) => if is_utf8 b then Ok b else Err (KeyNotUtf8 cmd)
  | _ => Err (InvalidKey cmd)
  end.

Definition parse_value (cmd : string) (frame : ZspFrame) : result ParseError Value :=
  match frame with
  | InlineString s => Ok (VStr s)
  | BinaryString (Some b) => Ok (VStr b)
  | Integer n => Ok (VInt n)
  | Float f => Ok (VFloat f)
  | Bool b => Ok (VBool b)
  | Null => Ok VNull
  | _ => Err (InvalidValueType cmd)
  end.

Definition parse_string_data (cmd : string) (frame : ZspFrame) : result ParseError bytes :=
  match frame with
  | InlineString s => Ok s
  | BinaryString (Some data) => if is_utf8 data then Ok data else Err NotUtf8
  | _ => Err (InvalidValueType cmd)
  end.

Definition parse_binary_data (cmd : string) (frame : ZspFrame) : result ParseError bytes :=
  match frame with
  | BinaryString (Some data) => Ok data
  | InlineString s => Ok s
  | _ => Err (InvalidValueType cmd)
  end.

Definition parse_pubsub_message_legacy (frame : ZspFrame) : result ParseError PubSubMessage :=
  match frame with
  | BinaryString (Some data) => Ok (MBytes data)
  | InlineString s => Ok (MString s)
  | _ => Err (InvalidValueType "PUBLISH")
  end.

(** [collect] of the keys: the first error. *)
Fixpoint parse_keys (cmd : string) (frames : list ZspFrame) : result ParseError (list bytes) :=
  match frames with
  | [] => Ok []
  | f :: frames => let? key := parse_key cmd f in let? keys := parse_keys cmd frames in Ok (key :: keys)
  end.

(** The loop of MSET over the pairs; the test before it leaves no half pair. *)
Fixpoint parse_pairs (frames : list ZspFrame) : result ParseError (list (bytes * Value)) :=
  match frames with
  | k :: v :: frames =>
      let? key := parse_key "MSET" k in
      let? value := parse_value "MSET" v in
      let? parsed := parse_pairs frames in Ok ((key, value) :: parsed)
  | _ => Ok []
  end.

(** The message of PUBLISH with its type; [rest] is what follows [data]. *)
Definition parse_typed_message (message_type : bytes) (data : ZspFrame) (rest : list ZspFrame)
  : result ParseError PubSubMessage :=
  if upper_is message_type "BYTES" then let? data := parse_binary_data "PUBLISH" data in Ok (MBytes data)
  else if upper_is message_type "STRING" then let? s := parse_string_data "PUBLISH" data in Ok (MString s)
  else if upper_is message_type "JSON" then
    let? s := parse_string_data "PUBLISH" data in
    match json_from_str s with Some v => Ok (MJson v) | None => Err (InvalidValueType "PUBLISH JSON") end
  else if upper_is message_type "SERIALIZED" then
    match rest with
    | [] => Err (WrongArgCount "PUBLISH SERIALIZED" 4)
    | payload :: _ =>
        let? content_type := parse_key "PUBLISH" data in
        let? data := parse_binary_data "PUBLISH" payload in Ok (MSerialized data content_type)
    end
  else Err (InvalidValueType "PUBLISH").

Definition parse_publish (args : list ZspFrame) : result ParseError Command :=
  match args with
  | channel :: message :: rest =>
      let? channel := parse_key "PUBLISH" channel in
      let? message :=
        match rest with
        | [] => parse_pubsub_message_legacy message
        | data :: rest => let? message_type := parse_key "PUBLISH" message in parse_typed_message message_type data rest
        end in
      Ok (CPublish channel message)
  | _ => Err (WrongArgCount "PUBLISH" 2)
  end.

(** The arms with one key, with a key and a value, with two keys. *)
Definition one_key (cmd : string) (make : bytes -> Command) (args : list ZspFrame) : result ParseError Command :=
  match args with
  | [key] => let? key := parse_key cmd key in Ok (make key)
  | _ => Err (WrongArgCount cmd 1)
  end.

Definition key_value (cmd : string) (make : bytes -> Value -> Command) (args : list ZspFrame) : result ParseError Command :=
  match args with
  | [key; value] => let? key := parse_key cmd key in let? value := parse_value cmd value in Ok (make key value)
  | _ => Err (WrongArgCount cmd 2)
  end.

Definition two_keys (cmd : string) (make : bytes -> bytes -> Command) (args : list ZspFrame) : result ParseError Command :=
  match args with
  | [from; to] => let? from := parse_key cmd from in let? to := parse_key cmd to in Ok (make from to)
  | _ => Err (WrongArgCount cmd 2)
  end.

Definition some_keys (cmd : string) (make : list bytes -> Command) (args : list ZspFrame) : result ParseError Command :=
  match args with
  | [] => Err (WrongArgCount cmd 1)
  | _ => let? keys := parse_keys cmd args in Ok (make keys)
  end.

Definition parse_auth (args : list ZspFrame) : result ParseError Command :=
  match args with
  | [pass] => let? pass := parse_key "AUTH" pass in Ok (CAuth None pass)
  | [user; pass] =>
      let? user := parse_key "AUTH" user in let? pass := parse_key "AUTH" pass in Ok (CAuth (Some user) pass)
  | _ => Err (WrongArgCount "AUTH" 1)
  end.

(** [args] are [items[1..]]: [items.len()] is one more than their number. *)
Definition parse_from_str_command (cmd : bytes) (args : list ZspFrame) : result ParseError Command :=
  if lower_is cmd "ping" then Ok CPing
  else if lower_is cmd "set" then key_value "SET" CSet args
  else if lower_is cmd "get" then one_key "GET" CGet args
  else if lower_is cmd "del" then one_key "DEL" CDel args
  else if lower_is cmd "mset" then
    if (length args <? 2)%nat || Nat.odd (length args) then Err MSetWrongArgCount
    else let? parsed := parse_pairs args in Ok (CMSet parsed)
  else if lower_is cmd "mget" then some_keys "MGET" CMGet args
  else if lower_is cmd "setnx" then key_value "SETNX" CSetNx args
  else if lower_is cmd "rename" then two_keys "RENAME" CRename args
  else if lower_is cmd "renamenx" then two_keys "RENAMENX" CRenameNx args
  else if lower_is cmd "auth" then parse_auth args
  else if lower_is cmd "subscribe" then some_keys "SUBSCRIBE" CSubscribe args
  else if lower_is cmd "unsubscribe" then some_keys "UNSUBSCRIBE" CUnsubscribe args
  else if lower_is cmd "publish" then parse_publish args
  else Err UnknownCommand.

Definition parse_raw_command (frame : ZspFrame) : result ParseError Command :=
  match frame with
  | Array (first :: args) =>
      let? cmd :=
        match first with
        | InlineString cmd => Ok cmd
        | BinaryString (Some b) => if is_utf8 b then Ok b else Err NotUtf8
        | _ => Err CommandMustBeString
        end in
      parse_from_str_command cmd args
  | _ => Err ExpectedArray
  end.

Definition parse_command (frame : ZspFrame) : option (result ParseError StoreCommand) :=
  match parse_raw_command frame with
  | Ok c => into_executable c
  | Err e => Some (Err e)
  end.

(** The messages of [ParseError]. *)
Definition parse_error_text (e : ParseError) : bytes :=
  match e with
  | ExpectedArray => ascii_bytes "Expected array for command"
  | CommandMustBeString => ascii_bytes "Command must be a string"
  | NotUtf8 => ascii_bytes "Invalid UTF-8 in command"
  | UnknownCommand => ascii_bytes "Unknown command"
  | InvalidKey cmd => ascii_bytes cmd ++ ascii_bytes ": invalid key"
  | KeyNotUtf8 cmd => ascii_bytes cmd ++ ascii_bytes ": key must be valid UTF-8"
  | InvalidValueType cmd => ascii_bytes cmd ++ ascii_bytes ": unsupported value type"
  | WrongArgCount cmd n => ascii_bytes cmd ++ ascii_bytes " requires " ++ fmt_int (Z.of_nat n) ++ ascii_bytes " argument(s)"
  | MSetWrongArgCount => ascii_bytes "MSET requires even number of arguments after command"
  end.

(** ** Serializer *)

Section Serializer.
Context {hash_order : HashOrder (bytes * bytes)} {dict_order : HashOrder (bytes * ZspFrame)} {set_order : HashOrder ZspFrame}
  {dict_ops : MapOps (Dict.Dict bytes f64) bytes f64}.

(** [String::from_utf8(..).unwrap_or_else(..)] *)
Definition utf8_or_marker (b : bytes) : bytes := if is_utf8 b then b else ascii_bytes "<invalid utf8>".

Definition member_frame (b : bytes) : ZspFrame :=
  if is_utf8 b && negb (has_crlf b) then InlineString b else BinaryString (Some b).

(** The frames of a list of values, the first panic first. *)
Definition frames_of {A} (f : A -> option ZspFrame) : list A -> option (list ZspFrame) :=
  fix go l := match l with [] => Some [] | x :: l => y ← f x; k ← go l; Some (y :: k) end.

Fixpoint value_to_frame (value : Value) : option ZspFrame :=
  match value with
  | VStr s => Some (BinaryString (Some s))
  | VInt i => Some (Integer i)
  | VFloat f => Some (Float f)
  | VBool b => Some (Bool b)
  | VNull => Some Null
  | VList l => Some (Array ((fun item => BinaryString (Some item)) <$> QuickList.iter l))
  | VArray a => frames ← frames_of value_to_frame a; Some (Array frames)
  | VHash h =>
      Some (Dictionary (foldl (fun d kv => (hm_insert (utf8_or_marker kv.1) (BinaryString (Some kv.2)) d).2) []
        (SmartHash.iter h).1))
  | VZSet dict _ =>
      entries ← map_entries dict;
      Some (ZSet ((fun e => (utf8_or_marker e.1, e.2)) <$> entries))
  | VSet s => Some (Set_ (foldl set_insert [] (member_frame <$> s.*1)))
  | VBitmap b => Some (BinaryString (Some b))
  | VHyperLogLog _ => Some (InlineString (ascii_bytes "HLL(NotImplemented)"))
  | VSStream _ => Some (InlineString (ascii_bytes "SStream(NotImplemented)"))
  end.

(** The conversions of [frame/zsp_types.rs], which are strict where the serializer
    writes a marker; the texts of their errors are not modelled. *)
Inductive ConvertError : Type :=
| UnsupportedType | InvalidHashKey | ZSetKeyError | InArray (e : ConvertError).

Definition convert_sds_to_frame (sds : bytes) : ZspFrame :=
  if is_utf8 sds then if has_crlf sds then BinaryString (Some sds) else InlineString sds
  else BinaryString (Some sds).

Definition convert_quicklist (list : QuickList.QuickList bytes) : ZspFrame :=
  Array ((fun item => BinaryString (Some item)) <$> QuickList.iter list).

Definition convert_hashset_to_set (set : list (bytes * unit)) : ZspFrame :=
  Set_ (foldl set_insert [] (convert_sds_to_frame <$> set.*1)).

Definition convert_hashset (set : list (bytes * unit)) : ZspFrame := Array (convert_sds_to_frame <$> set.*1).

(** The loop over the pairs of a hash. *)
Fixpoint convert_pairs (pairs : list (bytes * bytes)) (map : list (bytes * ZspFrame))
  : result ConvertError (list (bytes * ZspFrame)) :=
  match pairs with
  | [] => Ok map
  | (k, v) :: pairs =>
      if is_utf8 k then convert_pairs pairs (hm_insert k (BinaryString (Some v)) map).2 else Err InvalidHashKey
  end.

Definition convert_smart_hash (smart : SmartHash.SmartHash) : result ConvertError ZspFrame :=
  let? map := convert_pairs (SmartHash.iter smart).1 [] in Ok (Dictionary map).

Definition convert_zset (dict : Dict.Dict bytes f64) : option (result ConvertError ZspFrame) :=
  entries ← map_entries dict;
  Some (if forallb (fun e => is_utf8 e.1) entries then Ok (ZSet entries) else Err ZSetKeyError).

Fixpoint try_from (value : Value) : option (result ConvertError ZspFrame) :=
  match value with
  | VStr s => Some (Ok (convert_sds_to_frame s))
  | VInt i => Some (Ok (Integer i))
  | VFloat f => Some (Ok (Float f))
  | VBool b => Some (Ok (Bool b))
  | VList l => Some (Ok (convert_quicklist l))
  | VSet s => Some (Ok (convert_hashset_to_set s))
  | VHash h => Some (convert_smart_hash h)
  | VZSet dict _ => convert_zset dict
  | VNull => Some (Ok Null)
  | VArray arr =>
      let fix convert_array l :=
        match l with
        | [] => Some (Ok [])
        | v :: l =>
            r ← try_from v;
            match r with
            | Ok f =>
                k ← convert_array l;
                Some (let? fs := k in Ok (f :: fs))
            | Err e => Some (Err (InArray e))
            end
        end in
      r ← convert_array arr; Some (let? frames := r in Ok (Array frames))
  | VBitmap b => Some (Ok (BinaryString (Some b)))
  | VHyperLogLog _ | VSStream _ => Some (Err UnsupportedType)
  end.

Definition inline (s : string) : ZspFrame := InlineString (ascii_bytes s).

Definition serialize_pubsub_message (channel : bytes) (message : PubSubMessage) : ZspFrame :=
  Array (inline "message" :: BinaryString (Some channel) ::
    match message with
    | MBytes data => [inline "BYTES"; BinaryString (Some data)]
    | MString s => [inline "STRING"; BinaryString (Some s)]
    | MJson v => [inline "JSON"; BinaryString (Some (json_to_string v))]
    | MSerialized data content_type => [inline "SERIALIZED"; BinaryString (Some content_type); BinaryString (Some data)]
    end).

Definition serialize_response (response : Response) : option ZspFrame :=
  match response with
  | ROk => Some (inline "OK")
  | RValue value => value_to_frame value
  | RError msg => Some (FrameError msg)
  | RNotFound => Some Null
  | RInteger n => Some (Integer n)
  | RFloat f => Some (Float f)
  | RBool b => Some (Bool b)
  | RString s => Some (InlineString s)
  | RMessage channel message => Some (serialize_pubsub_message channel message)
  | RSubscribed channel count => Some (Array [inline "subscribe"; BinaryString (Some channel); Integer count])
  | RUnsubscribed channel count => Some (Array [inline "unsubscribe"; BinaryString (Some channel); Integer count])
  end.
End Serializer.

(** ** Client *)

(** The errors of the client that its conversions give, without their texts. *)
Inductive ClientError : Type :=
| ClientUnknownCommand | Protocol | UnexpectedResponse
| EncodingError (e : ZspEncodeError) | DecodingError (e : ZspDecodeError)
| ConnectionClosed | AuthenticationFailed (reason : bytes) | ServerError (message : bytes).

Definition client_value_to_frame (value : Value) : result ClientError ZspFrame :=
  match value with
  | VStr s => Ok (BinaryString (Some s))
  | VInt i => Ok (Integer i)
  | VFloat f => Ok (Float f)
  | VBool b => Ok (Bool b)
  | VNull => Ok Null
  | _ => Err Protocol
  end.

Definition command_to_frame (command : Command) : result ClientError ZspFrame :=
  match command with
  | CPing => Ok (Array [inline "PING"])
  | CEcho msg => Ok (Array [inline "ECHO"; InlineString msg])
  | CGet key => Ok (Array [inline "GET"; InlineString key])
  | CSet key value => let? frame := client_value_to_frame value in Ok (Array [inline "SET"; InlineString key; frame])
  | CDel key => Ok (Array [inline "DEL"; InlineString key])
  | CAuth user pass =>
      Ok (Array (inline "AUTH" :: (match user with Some u => [InlineString u] | None => [] end) ++ [InlineString pass]))
  | _ => Err ClientUnknownCommand
  end.

Definition frame_to_response (frame : ZspFrame) : result ClientError Response :=
  match frame with
  | InlineString s =>
      if bool_decide (s = ascii_bytes "OK") || bool_decide (s = ascii_bytes "PONG") then Ok ROk else Ok (RString s)
  | FrameError err => Ok (RError err)
  | Integer n => Ok (RInteger n)
  | Float f => Ok (RFloat f)
  | Bool b => Ok (RBool b)
  | Null => Ok RNotFound
  | BinaryString (Some b) => Ok (RValue (VStr b))
  | BinaryString None => Ok RNotFound
  | _ => Err UnexpectedResponse
  end.
End Protocol.
