(* ===== verification/Connections.v ===== *)
(** * Connections

    Models [src/src/network/connection_state.rs] (what is recorded of a
    connection), [connection_registry.rs] (the registry of the open ones) and the
    limits of [ConnectionManager] in [connection.rs].  An instant is a number of
    nanoseconds; a method that reads the clock takes it.  An [Arc] that the
    registry and a handler share is the entry of the registry.  Counters wrap
    around as in a release build.  A connection being handled is a task, and a
    step of the manager is one access to what the tasks share. *)
From S2P Require Import Prelude Numbers Text.
Local Open Scope Z_scope.

(** ** What is recorded of a connection *)

Inductive ConnectionState : Type := New | Authenticated | Processing | Idle | Closing.

Definition state_text (s : ConnectionState) : bytes :=
  ascii_bytes match s with
  | New => "new" | Authenticated => "authenticated" | Processing => "processing" | Idle => "idle" | Closing => "closing"
  end.

(** A socket address: the address as it is printed, and the port. *)
Record SocketAddr : Type := mkAddr { addr_ip : bytes; addr_port : Z }.
Definition addr_text (a : SocketAddr) : bytes := addr_ip a ++ 58 :: fmt_int (addr_port a).

Record ConnectionMetadata : Type := mkMetadata {
  connection_id : Z;
  client_addr : SocketAddr;
  connected_at : Z;
  state : ConnectionState;
  commands_processed : Z;
  bytes_sent : Z;
  bytes_received : Z;
  last_activity : Z;
  username : option bytes;
}.

Record ConnectionStats : Type := mkStats {
  st_commands : Z;
  st_bytes_sent : Z;
  st_bytes_received : Z;
  st_errors : Z;
}.

Record ConnectionInfo : Type := mkInfo { metadata : ConnectionMetadata; stats : ConnectionStats }.

Record ConnectionSnapshot : Type := mkConnectionSnapshot {
  sn_connection_id : Z;
  sn_client_addr : bytes;
  sn_state : bytes;
  sn_uptime_secs : Z;
  sn_idle_secs : Z;
  sn_commands_processed : Z;
  sn_bytes_sent : Z;
  sn_bytes_received : Z;
  sn_username : option bytes;
}.

Definition metadata_new (id : Z) (addr : SocketAddr) (now : Z) : ConnectionMetadata :=
  mkMetadata id addr now New 0 0 0 now None.

(** Both [uptime] and [idle_time] measure from the last activity. *)
Definition uptime (now : Z) (m : ConnectionMetadata) : Z := Z.max 0 (now - last_activity m).
Definition idle_time (now : Z) (m : ConnectionMetadata) : Z := Z.max 0 (now - last_activity m).

Definition update_metadata (st : ConnectionState) (cmds sent received activity : Z) (user : option bytes)
    (m : ConnectionMetadata) : ConnectionMetadata :=
  mkMetadata (connection_id m) (client_addr m) (connected_at m) st cmds sent received activity user.

Definition meta_set_state (st : ConnectionState) (m : ConnectionMetadata) : ConnectionMetadata :=
  update_metadata st (commands_processed m) (bytes_sent m) (bytes_received m) (last_activity m) (username m) m.

Definition meta_update_activity (now : Z) (m : ConnectionMetadata) : ConnectionMetadata :=
  update_metadata (state m) (commands_processed m) (bytes_sent m) (bytes_received m) now (username m) m.

Definition meta_increment_commands (m : ConnectionMetadata) : ConnectionMetadata :=
  update_metadata (state m) (wrapu 64 (commands_processed m + 1)) (bytes_sent m) (bytes_received m) (last_activity m) (username m) m.

Definition meta_add_bytes_sent (n : Z) (m : ConnectionMetadata) : ConnectionMetadata :=
  update_metadata (state m) (commands_processed m) (wrapu 64 (bytes_sent m + n)) (bytes_received m) (last_activity m) (username m) m.

Definition meta_add_bytes_received (n : Z) (m : ConnectionMetadata) : ConnectionMetadata :=
  update_metadata (state m) (commands_processed m) (bytes_sent m) (wrapu 64 (bytes_received m + n)) (last_activity m) (username m) m.

Definition meta_set_username (user : bytes) (m : ConnectionMetadata) : ConnectionMetadata :=
  update_metadata Authenticated (commands_processed m) (bytes_sent m) (bytes_received m) (last_activity m) (Some user) m.

Definition stats_new : ConnectionStats := mkStats 0 0 0 0.
Definition stats_increment_commands (s : ConnectionStats) : ConnectionStats :=
  mkStats (wrapu 64 (st_commands s + 1)) (st_bytes_sent s) (st_bytes_received s) (st_errors s).
Definition stats_add_bytes_sent (n : Z) (s : ConnectionStats) : ConnectionStats :=
  mkStats (st_commands s) (wrapu 64 (st_bytes_sent s + n)) (st_bytes_received s) (st_errors s).
Definition stats_add_bytes_received (n : Z) (s : ConnectionStats) : ConnectionStats :=
  mkStats (st_commands s) (st_bytes_sent s) (wrapu 64 (st_bytes_received s + n)) (st_errors s).
Definition stats_increment_errors (s : ConnectionStats) : ConnectionStats :=
  mkStats (st_commands s) (st_bytes_sent s) (st_bytes_received s) (wrapu 64 (st_errors s + 1)).

Definition info_new (id : Z) (addr : SocketAddr) (now : Z) : ConnectionInfo := mkInfo (metadata_new id addr now) stats_new.

Definition update_activity (now : Z) (i : ConnectionInfo) : ConnectionInfo :=
  mkInfo (meta_update_activity now (metadata i)) (stats i).

Definition set_state (st : ConnectionState) (i : ConnectionInfo) : ConnectionInfo :=
  mkInfo (meta_set_state st (metadata i)) (stats i).

Definition record_command (received sent now : Z) (i : ConnectionInfo) : ConnectionInfo :=
  mkInfo
    (meta_update_activity now (meta_add_bytes_sent sent (meta_add_bytes_received received
      (meta_increment_commands (metadata i)))))
    (stats_add_bytes_sent sent (stats_add_bytes_received received (stats_increment_commands (stats i)))).

Definition record_error (i : ConnectionInfo) : ConnectionInfo :=
  mkInfo (metadata i) (stats_increment_errors (stats i)).

Definition NANOS : Z := 1000000000.

(** [ConnectionSnapshot::from] *)
Definition snapshot_of (now : Z) (m : ConnectionMetadata) : ConnectionSnapshot :=
  mkConnectionSnapshot (connection_id m) (addr_text (client_addr m)) (state_text (state m))
    (uptime now m / NANOS) (idle_time now m / NANOS)
    (commands_processed m) (bytes_sent m) (bytes_received m) (username m).

Definition snapshot (now : Z) (i : ConnectionInfo) : ConnectionSnapshot := snapshot_of now (metadata i).

(** ** The registry *)

Record ConnectionRegistry : Type := mkRegistry { connections : gmap Z ConnectionInfo; id_counter : Z }.

Record GlobalConnectionStats : Type := mkGlobalStats {
  active_connections : nat;
  total_commands : Z;
  total_bytes_sent : Z;
  total_bytes_received : Z;
  total_errors : Z;
}.

Definition registry_new : ConnectionRegistry := mkRegistry ∅ 0.

Definition register (addr : SocketAddr) (now : Z) (r : ConnectionRegistry) : Z * ConnectionInfo * ConnectionRegistry :=
  let id := wrapu 32 (id_counter r + 1) in
  let info := info_new id addr now in
  (id, info, mkRegistry (<[id := info]> (connections r)) id).

Definition unregister (id : Z) (r : ConnectionRegistry) : ConnectionRegistry :=
  mkRegistry (delete id (connections r)) (id_counter r).

Definition get (id : Z) (r : ConnectionRegistry) : option ConnectionInfo := connections r !! id.
Definition active_count (r : ConnectionRegistry) : nat := size (connections r).
Definition active_ids (r : ConnectionRegistry) : list Z := (map_to_list (connections r)).*1.

Definition all_snapshots (now : Z) (r : ConnectionRegistry) : list ConnectionSnapshot :=
  snapshot now <$> (map_to_list (connections r)).*2.

Definition filter_snapshots (now : Z) (predicate : ConnectionSnapshot -> bool) (r : ConnectionRegistry)
  : list ConnectionSnapshot := List.filter predicate (all_snapshots now r).

Definition get_snapshot (now id : Z) (r : ConnectionRegistry) : option ConnectionSnapshot :=
  snapshot now <$> get id r.

(** [starts_with] *)
Definition starts_with (p s : bytes) : bool := bool_decide (take (length p) s = p).

Definition snapshots_by_ip (now : Z) (ip : bytes) (r : ConnectionRegistry) : list ConnectionSnapshot :=
  filter_snapshots now (fun s => starts_with ip (sn_client_addr s)) r.

Definition add_stats (g : GlobalConnectionStats) (s : ConnectionStats) : GlobalConnectionStats :=
  mkGlobalStats (active_connections g) (wrapu 64 (total_commands g + st_commands s))
    (wrapu 64 (total_bytes_sent g + st_bytes_sent s)) (wrapu 64 (total_bytes_received g + st_bytes_received s))
    (wrapu 64 (total_errors g + st_errors s)).

Definition global_stats (r : ConnectionRegistry) : GlobalConnectionStats :=
  foldl add_stats (mkGlobalStats (active_count r) 0 0 0 0) (stats <$> (map_to_list (connections r)).*2).

(** A handler updates the record of its connection. *)
Definition on_info (id : Z) (f : ConnectionInfo -> ConnectionInfo) (r : ConnectionRegistry) : ConnectionRegistry :=
  mkRegistry (alter f id (connections r)) (id_counter r).

(** ** The manager and its limits *)

Record Limits : Type := mkLimits { max_connections : nat; max_connections_per_ip : Z }.

Record ConnectionManager : Type := mkManager {
  limits : Limits;
  permits : nat;
  ip_connections : gmap bytes Z;
  active : Z;
  registry : ConnectionRegistry;
}.

Definition manager_new (l : Limits) : ConnectionManager := mkManager l (max_connections l) ∅ 0 registry_new.

Inductive Refusal : Type := LimitReached | TooManyFromIp.

Definition can_accept_connection (addr : SocketAddr) (m : ConnectionManager) : result Refusal unit :=
  if (permits m =? 0)%nat then Err LimitReached
  else
    match ip_connections m !! addr_ip addr with
    | Some current =>
        if wrapu 32 (max_connections_per_ip (limits m)) <=? current then Err TooManyFromIp else Ok tt
    | None => Ok tt
    end.

Definition with_permits (n : nat) (m : ConnectionManager) : ConnectionManager :=
  mkManager (limits m) n (ip_connections m) (active m) (registry m).
Definition with_ips (ips : gmap bytes Z) (m : ConnectionManager) : ConnectionManager :=
  mkManager (limits m) (permits m) ips (active m) (registry m).
Definition with_active (n : Z) (m : ConnectionManager) : ConnectionManager :=
  mkManager (limits m) (permits m) (ip_connections m) n (registry m).
Definition with_registry (r : ConnectionRegistry) (m : ConnectionManager) : ConnectionManager :=
  mkManager (limits m) (permits m) (ip_connections m) (active m) r.

Definition increment_ip_connections (addr : SocketAddr) (m : ConnectionManager) : ConnectionManager :=
  let old := default 0 (ip_connections m !! addr_ip addr) in
  with_ips (<[addr_ip addr := wrapu 32 (old + 1)]> (ip_connections m)) m.

(** The new count is the saturating one; the stored one wraps. *)
Definition decrement_ip_connections (addr : SocketAddr) (m : ConnectionManager) : ConnectionManager :=
  match ip_connections m !! addr_ip addr with
  | Some counter =>
      let new_count := Z.max 0 (counter - 1) in
      if new_count =? 0 then with_ips (delete (addr_ip addr) (ip_connections m)) m
      else with_ips (<[addr_ip addr := wrapu 32 (counter - 1)]> (ip_connections m)) m
  | None => m
  end.

(** [handle_connection] is a task that goes through these points. *)
Inductive Phase : Type :=
| Arrived
| Refused (why : Refusal)
| Checked
| Permitted
| Registered (id : Z)
| Counted (id : Z)
| Running (id : Z)
| Unregistered
| Uncounted
| Stopped
| Finished
| Panicked (id : Z).

Record Task : Type := mkTask { task_addr : SocketAddr; phase : Phase }.

(** The next access of a task to the shared state; [None] when it has none or
    waits for a permit.  A running task goes on when its handler returns. *)
Definition advance (now : Z) (t : Task) (m : ConnectionManager) : option (Phase * ConnectionManager) :=
  let addr := task_addr t in
  match phase t with
  | Arrived =>
      match can_accept_connection addr m with
      | Ok _ => Some (Checked, m)
      | Err e => Some (Refused e, m)
      end
  | Checked => match permits m with O => None | S n => Some (Permitted, with_permits n m) end
  | Permitted => let '(id, _, r) := register addr now (registry m) in Some (Registered id, with_registry r m)
  | Registered id => Some (Counted id, increment_ip_connections addr m)
  | Counted id => Some (Running id, with_active (wrapu 64 (active m + 1)) m)
  | Running id => Some (Unregistered, with_registry (unregister id (registry m)) m)
  | Unregistered => Some (Uncounted, decrement_ip_connections addr m)
  | Uncounted => Some (Stopped, with_active (wrapu 64 (active m - 1)) m)
  | Stopped => Some (Finished, with_permits (S (permits m)) m)
  | Refused _ | Finished | Panicked _ => None
  end.

(** [handler.run] may panic instead of returning.  The task is unwound: [_permit]
    is dropped and gives the permit back, and nothing that follows the call is
    executed. *)
Definition unwind (t : Task) (m : ConnectionManager) : option (Phase * ConnectionManager) :=
  match phase t with
  | Running id => Some (Panicked id, with_permits (S (permits m)) m)
  | _ => None
  end.

(** What a handler records of its connection. *)
Inductive recording : (ConnectionInfo -> ConnectionInfo) -> Prop :=
| rec_activity now : recording (update_activity now)
| rec_state st : recording (set_state st)
| rec_command received sent now : recording (record_command received sent now)
| rec_error : recording record_error.

(** The manager with its tasks: a connection arrives, a task makes a step, a
    running handler panics or records something. *)
Inductive manager_step : ConnectionManager * list Task -> ConnectionManager * list Task -> Prop :=
| step_arrive m ts addr : manager_step (m, ts) (m, ts ++ [mkTask addr Arrived])
| step_advance m ts i t now ph m' :
    ts !! i = Some t -> advance now t m = Some (ph, m') ->
    manager_step (m, ts) (m', <[i := mkTask (task_addr t) ph]> ts)
| step_panic m ts i t ph m' :
    ts !! i = Some t -> unwind t m = Some (ph, m') ->
    manager_step (m, ts) (m', <[i := mkTask (task_addr t) ph]> ts)
| step_record m ts i t id f :
    ts !! i = Some t -> phase t = Running id -> recording f ->
    manager_step (m, ts) (with_registry (on_info id f (registry m)) m, ts).
