(* ===== verification/ConnectionsLaws.v ===== *)
(** * Correctness of the accounting of connections

    The counters of the manager agree with the tasks in every state that their
    interleaving can reach, what a handler that panics leaves behind, and what the
    per-address limit does not prevent. *)
From S2P Require Import Prelude Numbers Text Connections.
Local Open Scope Z_scope.

(** ** What the tasks hold *)

Definition holds_permit (t : Task) : bool :=
  match phase t with Arrived | Refused _ | Checked | Finished | Panicked _ => false | _ => true end.

Definition was_registered (t : Task) : bool :=
  match phase t with Arrived | Refused _ | Checked | Permitted => false | _ => true end.

Definition is_counted (ip : bytes) (t : Task) : bool :=
  match phase t with Counted _ | Running _ | Unregistered => bool_decide (addr_ip (task_addr t) = ip) | _ => false end.

Definition is_active (t : Task) : bool :=
  match phase t with Running _ | Unregistered | Uncounted => true | _ => false end.

(** A task whose handler panicked keeps its place in every counter. *)
Definition is_panicked (t : Task) : bool := match phase t with Panicked _ => true | _ => false end.
Definition panicked_from (ip : bytes) (t : Task) : bool := is_panicked t && bool_decide (addr_ip (task_addr t) = ip).

Definition in_active (t : Task) : bool :=
  match phase t with Running _ | Unregistered | Uncounted | Panicked _ => true | _ => false end.

Definition in_ip (ip : bytes) (t : Task) : bool :=
  match phase t with
  | Counted _ | Running _ | Unregistered | Panicked _ => bool_decide (addr_ip (task_addr t) = ip)
  | _ => false
  end.

Definition entry_of (t : Task) : option (Z * SocketAddr) :=
  match phase t with Registered id | Counted id | Running id | Panicked id => Some (id, task_addr t) | _ => None end.

Definition count (p : Task -> bool) (ts : list Task) : nat := length (filter (fun t => p t = true) ts).
Definition entries (ts : list Task) : list (Z * SocketAddr) := omap entry_of ts.

Lemma count_cons p t ts : count p (t :: ts) = ((if p t then 1 else 0) + count p ts)%nat.
Proof. unfold count. rewrite filter_cons. by destruct (p t) eqn:He; rewrite ?He. Qed.

Lemma count_le p ts : (count p ts <= length ts)%nat.
Proof. apply length_filter. Qed.

(** Tasks of two kinds that exclude each other. *)
Lemma count_sum p q r ts : (forall t, r t = p t || q t /\ p t && q t = false) ->
  count r ts = (count p ts + count q ts)%nat.
Proof.
  intros Hpq. induction ts as [|t ts IH]; [done|]. rewrite !count_cons, IH. destruct (Hpq t) as [-> Hx].
  destruct (p t), (q t); cbn in *; try done; lia.
Qed.

Lemma count_mono p q ts : (forall t, p t = true -> q t = true) -> (count p ts <= count q ts)%nat.
Proof.
  intros Hpq. induction ts as [|t ts IH]; [done|]. rewrite !count_cons. specialize (Hpq t).
  destruct (p t), (q t); naive_solver lia.
Qed.

Lemma in_active_sum ts : count in_active ts = (count is_active ts + count is_panicked ts)%nat.
Proof. apply count_sum. by intros [? []]. Qed.

Lemma in_ip_sum ip ts : count (in_ip ip) ts = (count (is_counted ip) ts + count (panicked_from ip) ts)%nat.
Proof. apply count_sum. intros [a []]; unfold in_ip, is_counted, panicked_from; cbn; by try case_bool_decide. Qed.

#[global] Instance count_Proper p : Proper (Permutation ==> eq) (count p).
Proof. intros ts ts' H. unfold count. by rewrite H. Qed.

#[global] Instance entries_Proper : Proper (Permutation ==> Permutation) entries.
Proof. intros ts ts' H. unfold entries. by rewrite H. Qed.

(** A counter of zero is removed. *)
Definition counter_of (n : nat) : option Z := match n with O => None | _ => Some (Z.of_nat n) end.

Definition ended (t : Task) : Prop := match phase t with Finished | Refused _ | Panicked _ => True | _ => False end.

(** The counters agree with the tasks. *)
Record Accounted (l : Limits) (m : ConnectionManager) (ts : list Task) : Prop := {
  ac_limits : limits m = l;
  ac_permits : (permits m + count holds_permit ts)%nat = max_connections l;
  ac_active : active m = Z.of_nat (count in_active ts);
  ac_ips : forall ip, ip_connections m !! ip = counter_of (count (in_ip ip) ts);
  ac_counter : id_counter (registry m) = Z.of_nat (count was_registered ts);
  ac_ids : NoDup (entries ts).*1;
  ac_below : Forall (fun e => 1 <= e.1 <= id_counter (registry m)) (entries ts);
  ac_entries : client_addr ∘ metadata <$> connections (registry m) = list_to_map (entries ts);
}.

#[global] Instance Accounted_Proper l m : Proper (Permutation ==> iff) (Accounted l m).
Proof.
  assert (forall ts ts', ts ≡ₚ ts' -> Accounted l m ts -> Accounted l m ts') as H.
  { intros ts ts' Hp [H1 H2 H3 H4 H5 H6 H7 H8].
    assert (NoDup (entries ts').*1) as Hn by by rewrite <- Hp.
    constructor; [done|by rewrite <- Hp|by rewrite <- Hp| |by rewrite <- Hp|done|by rewrite <- Hp|].
    - intros ip. rewrite <- Hp. apply H4.
    - rewrite H8. apply list_to_map_proper; [done|by rewrite Hp]. }
  intros ts ts' Hp. by split; apply H.
Qed.

(** Only the record of a connection changes. *)
Lemma recording_addr f i : recording f -> client_addr (metadata (f i)) = client_addr (metadata i).
Proof. by intros []. Qed.

Lemma wrap_count w p ts k : 0 <= w -> (length ts < k)%nat -> Z.of_nat k <= 2 ^ w ->
  wrapu w (Z.of_nat (count p ts)) = Z.of_nat (count p ts).
Proof. intros Hw Hl Hk. apply wrapu_small. unfold is_u. pose proof (count_le p ts). lia. Qed.

(** ** Every step keeps the accounts *)

(** A task of the list may be put first, before and after its step. *)
Lemma task_first (ts : list Task) i t t' : ts !! i = Some t ->
  exists rest, ts ≡ₚ t :: rest /\ <[i := t']> ts ≡ₚ t' :: rest.
Proof.
  intros Hi. exists (take i ts ++ drop (S i) ts). split.
  - rewrite <- (take_drop_middle ts i t) at 1 by done. by rewrite Permutation_middle.
  - rewrite insert_take_drop by (by apply lookup_lt_Some in Hi). by rewrite Permutation_middle.
Qed.

(** The counts of a list whose first task has a known phase. *)
Ltac count_first :=
  repeat match goal with H : forall ip : bytes, _ |- _ => setoid_rewrite count_cons in H end;
  intros; rewrite ?count_cons in *;
  cbn [holds_permit was_registered in_active in_ip phase task_addr Nat.add
       with_permits with_ips with_active with_registry limits permits ip_connections active registry] in *.

Lemma wrap_active p (ts : list Task) : Z.of_nat (length ts) < 2 ^ 32 ->
  wrapu 64 (Z.of_nat (count p ts) + 1) = Z.of_nat (count p ts) + 1.
Proof. intros H. pose proof (count_le p ts). apply wrapu_small. unfold is_u. lia. Qed.

Lemma entries_cons t ts : entries (t :: ts) = match entry_of t with Some e => e :: entries ts | None => entries ts end.
Proof. unfold entries. simpl. by destruct (entry_of t). Qed.

Lemma counter_of_S n : counter_of (S n) = Some (Z.of_nat n + 1).
Proof. unfold counter_of. f_equal. lia. Qed.

Lemma counter_default n : default 0 (counter_of n) = Z.of_nat n.
Proof. by destruct n. Qed.

Lemma accounted_register l now addr rest m :
  Accounted l m (mkTask addr Permitted :: rest) -> Z.of_nat (length rest) + 1 < 2 ^ 32 ->
  let '(id, _, r) := register addr now (registry m) in
  Accounted l (with_registry r m) (mkTask addr (Registered id) :: rest).
Proof.
  intros [H1 H2 H3 H4 H5 H6 H7 H8] Hlen. cbn [register]. rewrite entries_cons in *. cbn [entry_of phase] in *.
  count_first. pose proof (count_le was_registered rest) as Hle.
  assert (wrapu 32 (id_counter (registry m) + 1) = id_counter (registry m) + 1) as ->.
  { apply wrapu_small. unfold is_u. lia. }
  rewrite Forall_forall in H7.
  constructor; count_first; rewrite ?entries_cons; cbn [entry_of phase id_counter connections task_addr]; try done.
  - lia.
  - rewrite fmap_cons. constructor; [|done]. intros Hin. apply list_elem_of_fmap in Hin as (e & He & Hin).
    specialize (H7 e Hin). cbn in He. lia.
  - constructor; [cbn; lia|]. apply Forall_forall. intros e He. specialize (H7 e He). lia.
  - rewrite fmap_insert, H8. done.
Qed.

Lemma accounted_count_ip l addr id rest m :
  Accounted l m (mkTask addr (Registered id) :: rest) -> Z.of_nat (length rest) + 1 < 2 ^ 32 ->
  Accounted l (increment_ip_connections addr m) (mkTask addr (Counted id) :: rest).
Proof.
  intros [H1 H2 H3 H4 H5 H6 H7 H8] Hlen. unfold increment_ip_connections. constructor; count_first; try done.
  pose proof (count_le (in_ip ip) rest) as Hle.
  rewrite !H4, counter_default. destruct (decide (addr_ip addr = ip)) as [<-|Hne].
  - rewrite bool_decide_true, lookup_insert_eq by done. cbn [Nat.add]. rewrite counter_of_S. f_equal.
    apply wrapu_small. unfold is_u. lia.
  - rewrite bool_decide_false, lookup_insert_ne by done. apply H4.
Qed.

Lemma accounted_unregister l addr id rest m : Accounted l m (mkTask addr (Running id) :: rest) ->
  Accounted l (with_registry (unregister id (registry m)) m) (mkTask addr Unregistered :: rest).
Proof.
  intros [H1 H2 H3 H4 H5 H6 H7 H8]. rewrite entries_cons in *. cbn [entry_of phase task_addr] in *.
  rewrite fmap_cons in H6. apply NoDup_cons in H6 as [Hn H6]. apply Forall_cons in H7 as [_ H7].
  constructor; count_first; rewrite ?entries_cons; cbn [entry_of phase unregister connections id_counter]; try done.
  rewrite fmap_delete, H8. cbn [list_to_map foldr fst snd]. apply delete_insert_id.
  by apply not_elem_of_list_to_map_1.
Qed.

Lemma accounted_uncount_ip l addr rest m :
  Accounted l m (mkTask addr Unregistered :: rest) -> Z.of_nat (length rest) + 1 < 2 ^ 32 ->
  Accounted l (decrement_ip_connections addr m) (mkTask addr Uncounted :: rest).
Proof.
  intros [H1 H2 H3 H4 H5 H6 H7 H8] Hlen. unfold decrement_ip_connections. count_first.
  pose proof (H4 (addr_ip addr)) as Ha. rewrite bool_decide_true in Ha by done. cbn [Nat.add] in Ha.
  rewrite counter_of_S in Ha. rewrite Ha.
  pose proof (count_le (in_ip (addr_ip addr)) rest) as Hle.
  assert (forall ip, addr_ip addr <> ip -> ip_connections m !! ip = counter_of (count (in_ip ip) rest)) as Ho.
  { intros ip Hne. rewrite H4, bool_decide_false by done. done. }
  destruct (Z.eqb_spec (Z.max 0 (Z.of_nat (count (in_ip (addr_ip addr)) rest) + 1 - 1)) 0) as [Hz|Hz];
    constructor; count_first; try done; (destruct (decide (addr_ip addr = ip)) as [<-|Hne]).
  - rewrite lookup_delete_eq. by replace (count (in_ip (addr_ip addr)) rest) with 0%nat by lia.
  - rewrite lookup_delete_ne by done. by apply Ho.
  - rewrite lookup_insert_eq. destruct (count (in_ip (addr_ip addr)) rest) as [|n] eqn:Hc; [lia|].
    cbn [Nat.add]. rewrite counter_of_S. f_equal. rewrite wrapu_small; [lia|]. unfold is_u. lia.
  - rewrite lookup_insert_ne by done. by apply Ho.
Qed.

Lemma accounted_advance l now t rest m ph m' :
  Accounted l m (t :: rest) -> Z.of_nat (length (t :: rest)) < 2 ^ 32 -> advance now t m = Some (ph, m') ->
  Accounted l m' (mkTask (task_addr t) ph :: rest).
Proof.
  intros Hac Hlen Ha. pose proof Hac as [H1 H2 H3 H4 H5 H6 H7 H8]. destruct t as [addr p].
  unfold advance in Ha. cbn [task_addr phase] in *.
  assert (Z.of_nat (length rest) + 1 < 2 ^ 32) as Hr by (cbn [length] in Hlen; lia).
  destruct p as [| | | |id|id|id| | | | |id]; try discriminate Ha.
  - destruct (can_accept_connection addr m); injection Ha as <- <-; constructor; count_first; done.
  - destruct (permits m) as [|n] eqn:Hp; [done|]. injection Ha as <- <-. constructor; count_first; try done. lia.
  - pose proof (accounted_register l now addr rest m Hac Hr) as Hreg. cbn in Ha. by injection Ha as <- <-.
  - injection Ha as <- <-. by apply accounted_count_ip.
  - injection Ha as <- <-. constructor; count_first; try done. rewrite H3, wrap_active by lia. lia.
  - injection Ha as <- <-. by apply (accounted_unregister l addr id).
  - injection Ha as <- <-. by apply accounted_uncount_ip.
  - injection Ha as <- <-. constructor; count_first; try done. pose proof (count_le in_active rest).
    rewrite H3. rewrite wrapu_small; [lia|]. unfold is_u. lia.
  - injection Ha as <- <-. constructor; count_first; try done. lia.
Qed.

Lemma accounted_unwind l t rest m ph m' : Accounted l m (t :: rest) -> unwind t m = Some (ph, m') ->
  Accounted l m' (mkTask (task_addr t) ph :: rest).
Proof.
  intros [H1 H2 H3 H4 H5 H6 H7 H8] Ha. destruct t as [addr []]; try discriminate Ha. injection Ha as <- <-.
  rewrite entries_cons in *. cbn [entry_of phase task_addr] in *.
  constructor; count_first; rewrite ?entries_cons; cbn [entry_of phase task_addr]; try done. lia.
Qed.

Lemma accounted_record l m ts id f : recording f ->
  Accounted l m ts -> Accounted l (with_registry (on_info id f (registry m)) m) ts.
Proof.
  intros Hf [H1 H2 H3 H4 H5 H6 H7 H8]. constructor; cbn [with_registry limits permits ip_connections active registry
    on_info connections id_counter]; try done.
  rewrite <- H8. apply map_eq. intros k. rewrite !lookup_fmap.
  destruct (decide (id = k)) as [<-|Hne]; [|by rewrite lookup_alter_ne].
  rewrite lookup_alter_eq. destruct (connections (registry m) !! id) as [i|]; [|done]. simpl.
  f_equal. by apply recording_addr.
Qed.

Lemma accounted_arrive l m ts addr : Accounted l m ts -> Accounted l m (mkTask addr Arrived :: ts).
Proof.
  intros [H1 H2 H3 H4 H5 H6 H7 H8]. constructor; count_first; try done.
Qed.

Lemma accounted_new l : Accounted l (manager_new l) [].
Proof. constructor; try done; cbn; first [lia|constructor]. Qed.

Lemma tasks_grow s s' : rtc manager_step s s' -> (length s.2 <= length s'.2)%nat.
Proof.
  induction 1 as [s|s s1 s' Hst _ IH]; [done|]. etrans; [|exact IH]. destruct Hst; cbn; rewrite ?length_app, ?length_insert; lia.
Qed.

Lemma accounted_reach l m ts : rtc manager_step (manager_new l, []) (m, ts) -> Z.of_nat (length ts) < 2 ^ 32 ->
  Accounted l m ts.
Proof.
  intros Hr. enough (forall s, rtc manager_step (manager_new l, []) s -> forall m ts, s = (m, ts) ->
    Z.of_nat (length ts) < 2 ^ 32 -> Accounted l m ts) as He by (by apply (He (m, ts))).
  clear m ts Hr. apply (rtc_ind_r (fun s => forall m ts, s = (m, ts) -> Z.of_nat (length ts) < 2 ^ 32 -> Accounted l m ts)).
  { intros m ts [= <- <-] _. apply accounted_new. }
  intros s1 s2 Hr Hst IH m ts Hs Hlen.
  assert (length s1.2 <= length s2.2)%nat as Hle by (apply tasks_grow; by apply rtc_once).
  destruct Hst as [m0 ts0 addr|m0 ts0 i t now ph m1 Hi Ha|m0 ts0 i t ph m1 Hi Ha|m0 ts0 i t id f Hi Hp Hf]; injection Hs as <- <-; cbn in Hle.
  - rewrite (Permutation_app_comm ts0). apply (accounted_arrive l m0 ts0 addr). apply (IH m0 ts0 eq_refl). lia.
  - destruct (task_first ts0 i t (mkTask (task_addr t) ph) Hi) as (rest & Hp1 & Hp2). rewrite Hp2.
    apply (accounted_advance l now t rest m0 ph m1); [|rewrite <- Hp1; lia|done].
    rewrite <- Hp1. apply (IH m0 ts0 eq_refl). lia.
  - destruct (task_first ts0 i t (mkTask (task_addr t) ph) Hi) as (rest & Hp1 & Hp2). rewrite Hp2.
    apply (accounted_unwind l t rest m0 ph m1); [|done].
    rewrite <- Hp1. apply (IH m0 ts0 eq_refl). lia.
  - apply accounted_record; [done|]. by apply (IH m0 ts0 eq_refl).
Qed.

(** A task of the list is registered at its address. *)
Lemma accounted_entry l m ts id addr : Accounted l m ts -> (id, addr) ∈ entries ts ->
  exists i, get id (registry m) = Some i /\ client_addr (metadata i) = addr.
Proof.
  intros [_ _ _ _ _ H6 _ H8] Hin. pose proof (f_equal (fun mp : gmap Z SocketAddr => mp !! id) H8) as Hl. cbn beta in Hl.
  rewrite lookup_fmap, (elem_of_list_to_map_1 _ id addr H6 Hin) in Hl.
  unfold get. destruct (connections (registry m) !! id) as [i|]; [|done]. exists i. split; [done|]. by injection Hl.
Qed.

Lemma count_none p ts : Forall (fun t => p t = false) ts -> count p ts = 0%nat.
Proof. induction 1 as [|t ts Ht _ IH]; [done|]. by rewrite count_cons, Ht, IH. Qed.

Lemma count_zero p ts : count p ts = 0%nat -> Forall (fun t => p t = false) ts.
Proof.
  induction ts as [|t ts IH]; [constructor|]. rewrite count_cons. destruct (p t) eqn:Ht; [done|]. intros H.
  constructor; [done|by apply IH].
Qed.

(** Nothing but what panicked tasks leave is there when all have ended. *)
Lemma accounted_ended l m ts : Accounted l m ts -> Forall ended ts ->
  permits m = max_connections l /\ active m = Z.of_nat (count is_panicked ts) /\
  (count is_panicked ts = 0%nat -> m = with_registry (mkRegistry ∅ (id_counter (registry m))) (manager_new l)).
Proof.
  intros [H1 H2 H3 H4 H5 H6 H7 H8] Hall.
  assert (permits m = max_connections l) as Hp.
  { rewrite count_none in H2; [lia|]. eapply Forall_impl; [exact Hall|]. by intros [? []]. }
  split_and!; [done| |].
  { rewrite H3, in_active_sum, (count_none is_active); [done|]. eapply Forall_impl; [exact Hall|]. by intros [? []]. }
  intros Hz%count_zero.
  assert (Forall (fun t => ended t /\ is_panicked t = false) ts) as Hq by (by apply Forall_and).
  assert (entries ts = []) as He.
  { clear -Hq. induction Hq as [|[a []] ts [Ht Hn] Hq IH]; done. }
  rewrite (count_none in_active) in H3 by (eapply Forall_impl; [exact Hq|by intros [? []] []]).
  rewrite He in H8. destruct m as [lm p ips a [cs c]]. cbn in *. subst lm a p. unfold manager_new, with_registry. cbn. f_equal.
  - apply map_eq. intros ip. rewrite H4, lookup_empty, count_none; [done|].
    eapply Forall_impl; [exact Hq|by intros [? []] []].
  - f_equal. by apply fmap_empty_inv in H8.
Qed.

(** *** The manager *)

(** C15. In whatever order connections arrive, make their steps, end and panic, at
    every point the permits that are left and the tasks that hold one add up to
    [max_connections], so that no more than that are handled at once; the
    counters of active connections and of every address, and the registry, are
    those of the tasks that are handled and of the tasks whose handler panicked,
    which keep their permit no longer but their place in the counters and in the
    registry for ever.  When all tasks have ended and none has panicked the
    manager is as it was new, but for the number of its next connection; when
    some have, all permits are back and the active counter stays at their number. *)
Theorem manager_accounts (l : Limits) (m : ConnectionManager) (ts : list Task) :
  rtc manager_step (manager_new l, []) (m, ts) -> Z.of_nat (length ts) < 2 ^ 32 ->
  (permits m + count holds_permit ts)%nat = max_connections l /\
  (count is_active ts <= count holds_permit ts)%nat /\
  active m = Z.of_nat (count is_active ts + count is_panicked ts) /\
  (forall ip, default 0 (ip_connections m !! ip) = Z.of_nat (count (is_counted ip) ts + count (panicked_from ip) ts)) /\
  active_count (registry m) = length (entries ts) /\
  (forall id addr, (id, addr) ∈ entries ts ->
    exists i, get id (registry m) = Some i /\ client_addr (metadata i) = addr) /\
  (Forall ended ts ->
   permits m = max_connections l /\ active m = Z.of_nat (count is_panicked ts) /\
   (count is_panicked ts = 0%nat -> m = with_registry (mkRegistry ∅ (id_counter (registry m))) (manager_new l))).
Proof.
  intros Hr Hlen. pose proof (accounted_reach l m ts Hr Hlen) as Hac. pose proof Hac as [H1 H2 H3 H4 H5 H6 H7 H8].
  split_and!; [done| |by rewrite H3, in_active_sum| | | |].
  - apply count_mono. by intros [? []].
  - intros ip. by rewrite H4, counter_default, in_ip_sum.
  - unfold active_count. rewrite <- (map_size_fmap (client_addr ∘ metadata)), H8, map_size_list_to_map by done. done.
  - intros id addr. by apply (accounted_entry l).
  - intros Hall. by apply accounted_ended.
Qed.

(** *** The limit per address *)

Lemma step_task m ts i t now ph m' : ts !! i = Some t -> advance now t m = Some (ph, m') ->
  rtc manager_step (m, ts) (m', <[i := mkTask (task_addr t) ph]> ts).
Proof. intros Hi Ha. apply rtc_once. by econstructor. Qed.

(** A task that has passed the test runs once it gets a permit. *)
Lemma checked_runs m ts i addr n : ts !! i = Some (mkTask addr Checked) -> permits m = S n ->
  exists m' id, rtc manager_step (m, ts) (m', <[i := mkTask addr (Running id)]> ts) /\ permits m' = n.
Proof.
  intros Hi Hp. assert (i < length ts)%nat as Hlt by (by apply lookup_lt_Some in Hi).
  eexists _, _. split.
  - etrans; [eapply (step_task _ _ i _ 0); [done|]; unfold advance; cbn [phase]; rewrite Hp; done|].
    etrans; [eapply (step_task _ _ i _ 0); [by apply list_lookup_insert_eq|]; unfold advance; cbn; done|].
    etrans; [eapply (step_task _ _ i _ 0); [apply list_lookup_insert_eq; by rewrite ?length_insert|]; unfold advance; cbn; done|].
    etrans; [eapply (step_task _ _ i _ 0); [apply list_lookup_insert_eq; by rewrite ?length_insert|]; unfold advance; cbn; done|].
    rewrite !list_insert_insert_eq. done.
  - cbn. unfold increment_ip_connections. done.
Qed.

(** Connections that arrive together are all tested before any is counted. *)
Lemma all_checked l addr n : (0 < max_connections l)%nat ->
  rtc manager_step (manager_new l, []) (manager_new l, replicate n (mkTask addr Checked)).
Proof.
  intros Hl. induction n as [|n IH]; [done|]. etrans; [exact IH|].
  etrans; [apply rtc_once; apply step_arrive with (addr := addr)|].
  assert (replicate (S n) (mkTask addr Checked) =
    <[n := mkTask addr Checked]> (replicate n (mkTask addr Checked) ++ [mkTask addr Arrived])) as ->.
  { rewrite insert_app_r_alt by (by rewrite length_replicate). rewrite length_replicate, Nat.sub_diag. cbn.
    by rewrite <- replicate_cons_app. }
  apply (step_task _ _ n (mkTask addr Arrived) 0).
  - rewrite lookup_app_r by (by rewrite length_replicate). by rewrite length_replicate, Nat.sub_diag.
  - unfold advance, can_accept_connection. cbn. destruct (max_connections l); [lia|done].
Qed.

Lemma all_run addr k : forall n m, (k <= permits m)%nat -> (k <= n)%nat ->
  exists m' ts, rtc manager_step (m, replicate n (mkTask addr Checked)) (m', ts ++ replicate (n - k) (mkTask addr Checked)) /\
    length ts = k /\ Forall (fun t => task_addr t = addr /\ is_active t = true) ts /\ (permits m' + k)%nat = permits m.
Proof.
  induction k as [|k IH]; intros n m Hp Hn.
  { exists m, []. rewrite Nat.sub_0_r. split_and!; [done|done|done|lia]. }
  destruct (IH n m) as (m1 & ts & Hr & Hts & Hall & Hm1); [lia|lia|].
  assert ((ts ++ replicate (n - k) (mkTask addr Checked)) !! k = Some (mkTask addr Checked)) as Hk.
  { rewrite lookup_app_r by lia. apply lookup_replicate_2. lia. }
  destruct (permits m1) as [|p] eqn:Hpm; [lia|].
  destruct (checked_runs m1 _ k addr p Hk Hpm) as (m2 & id & Hr2 & Hp2).
  exists m2, (ts ++ [mkTask addr (Running id)]). split_and!.
  - etrans; [exact Hr|]. erewrite <- app_assoc.
    replace (ts ++ [mkTask addr (Running id)] ++ replicate (n - S k) (mkTask addr Checked))
      with (<[k := mkTask addr (Running id)]> (ts ++ replicate (n - k) (mkTask addr Checked))); [exact Hr2|].
    rewrite insert_app_r_alt by lia. rewrite Hts, Nat.sub_diag. replace (n - k)%nat with (S (n - S k)) by lia. done.
  - rewrite length_app, Hts. cbn. lia.
  - apply Forall_app. split; [done|]. by repeat constructor.
  - lia.
Qed.

(** The limit per address does not hold: the test and the counting are two
    accesses, and as many connections of one address as there are permits can be
    handled at once, whatever [max_connections_per_ip] is. *)
Theorem ip_limit_race (l : Limits) (addr : SocketAddr) :
  (0 < max_connections l)%nat ->
  exists m ts, rtc manager_step (manager_new l, []) (m, ts) /\
    Forall (fun t => task_addr t = addr /\ is_active t = true) ts /\ length ts = max_connections l.
Proof.
  intros Hl. destruct (all_run addr (max_connections l) (max_connections l) (manager_new l)) as (m & ts & Hr & Hlen & Hall & _);
    [done|done|]. exists m, ts. split_and!; [|done|done].
  etrans; [by apply (all_checked l addr (max_connections l))|]. by rewrite Nat.sub_diag, app_nil_r in Hr.
Qed.

(** *** What panics do to an address *)

Lemma panicked_insert ip (ts : list Task) i t t' : ts !! i = Some t -> is_panicked t = false ->
  (count (panicked_from ip) ts <= count (panicked_from ip) (<[i := t']> ts))%nat.
Proof.
  intros Hi Hp. destruct (task_first ts i t t' Hi) as (rest & Hp1 & Hp2). rewrite Hp2, Hp1, !count_cons.
  unfold panicked_from at 1. rewrite Hp. cbn [andb]. lia.
Qed.

Lemma panicked_stay m ts m' ts' ip : manager_step (m, ts) (m', ts') ->
  (count (panicked_from ip) ts <= count (panicked_from ip) ts')%nat.
Proof.
  intros Hst. inversion Hst as [? ? addr|? ? i t now ph ? Hi Ha|? ? i t ph ? Hi Ha|]; subst; [| | |done].
  - rewrite (Permutation_app_comm ts). apply (Nat.le_refl (count (panicked_from ip) ts)).
  - apply (panicked_insert ip ts i t); [done|]. by destruct t as [a []].
  - apply (panicked_insert ip ts i t); [done|]. by destruct t as [a []].
Qed.

Lemma panicked_stay_all s s' ip : rtc manager_step s s' ->
  (count (panicked_from ip) s.2 <= count (panicked_from ip) s'.2)%nat.
Proof.
  induction 1 as [s|[m ts] [m1 ts1] s' Hst _ IH]; [done|]. etrans; [|exact IH]. by eapply panicked_stay.
Qed.

(** Handlers that panicked lock their address out: when as many have panicked as
    [max_connections_per_ip] allows, every later connection of the address is
    refused, for ever, though none is handled. *)
Theorem panics_lock_out (l : Limits) (m m' : ConnectionManager) (ts ts' : list Task) (addr : SocketAddr) :
  rtc manager_step (manager_new l, []) (m, ts) -> rtc manager_step (m, ts) (m', ts') ->
  Z.of_nat (length ts') < 2 ^ 32 -> 1 <= max_connections_per_ip l <= Z.of_nat (count (panicked_from (addr_ip addr)) ts) ->
  exists e, can_accept_connection addr m' = Err e.
Proof.
  intros Hr Hr' Hlen Hmax. pose proof (panicked_stay_all _ _ (addr_ip addr) Hr') as Hle. cbn [snd] in Hle.
  assert (Accounted l m' ts') as [H1 _ _ H4 _ _ _ _] by (apply accounted_reach; [by etrans|done]).
  unfold can_accept_connection. destruct (permits m' =? 0)%nat; [by eexists|].
  rewrite H4, in_ip_sum, H1.
  pose proof (count_le (panicked_from (addr_ip addr)) ts') as Hc.
  rewrite wrapu_small by (unfold is_u; lia).
  destruct (count (is_counted (addr_ip addr)) ts' + count (panicked_from (addr_ip addr)) ts')%nat as [|n] eqn:Hn; [lia|].
  cbn [counter_of].
  destruct (Z.leb_spec (max_connections_per_ip l) (Z.of_nat (S n))); [by eexists|lia].
Qed.

(** ** Witnesses *)

Definition ex_addr : SocketAddr := mkAddr (ascii_bytes "10.0.0.1") 4000.
Definition ex_limits : Limits := mkLimits 2 1.

(** A connection whose handler panicked. *)
Lemma ex_panicked : exists m,
  rtc manager_step (manager_new ex_limits, []) (m, [mkTask ex_addr (Panicked 1)]) /\ permits m = 2%nat /\ active m = 1.
Proof.
  eexists. split.
  - etrans; [apply (all_checked ex_limits ex_addr 1); cbn; lia|].
    do 4 (etrans; [eapply (step_task _ _ 0 _ 0); [done|unfold advance; cbn; done]|]; cbn).
    change (wrapu 32 (0 + 1)) with 1.
    apply rtc_once. by apply (step_panic _ [mkTask ex_addr (Running 1)] 0 (mkTask ex_addr (Running 1)) (Panicked 1)).
  - done.
Qed.

Lemma manager_accounts_witness : exists m,
  rtc manager_step (manager_new ex_limits, []) (m, [mkTask ex_addr (Panicked 1)]) /\
  permits m = 2%nat /\ active m = 1 /\ active_count (registry m) = 1%nat /\
  default 0 (ip_connections m !! addr_ip ex_addr) = 1.
Proof.
  destruct ex_panicked as (m & Hreach & _).
  destruct (manager_accounts ex_limits m _ Hreach eq_refl) as (Hp & _ & Ha & Hi & Hc & _).
  exists m. split; [exact Hreach|]. change (permits m + 0 = 2)%nat in Hp.
  split; [lia|]. split; [exact Ha|]. split; [exact Hc|]. exact (Hi (addr_ip ex_addr)).
Defined.

Lemma panics_lock_out_witness : exists m, permits m = 2%nat /\ exists e, can_accept_connection ex_addr m = Err e.
Proof.
  destruct ex_panicked as (m & Hreach & Hp & _). exists m. split; [exact Hp|].
  apply (panics_lock_out ex_limits m m [mkTask ex_addr (Panicked 1)] [mkTask ex_addr (Panicked 1)] ex_addr);
    [exact Hreach|apply rtc_refl|reflexivity|vm_compute; split; discriminate].
Defined.

Lemma ip_limit_race_witness : exists m ts,
  rtc manager_step (manager_new ex_limits, []) (m, ts) /\ length ts = 2%nat /\ max_connections_per_ip ex_limits = 1.
Proof.
  destruct (ip_limit_race ex_limits ex_addr ltac:(cbn; lia)) as (m & ts & Hr & _ & Hl). by exists m, ts.
Defined.
