(* ===== verification/Server.v ===== *)
(** * The server and the client of a connection

    Models [ConnectionHandler] of [src/src/network/connection.rs]: the text
    protocol ([process_command]), the execution of the commands of the wire
    ([execute_store_command]), the buffer of received bytes ([process_buffer]) and
    the loop over what happens to a connection ([run]); and the client of
    [src/src/client] ([ClientConnection], [ZumicClient]).  The engine is any one
    with the operations of [Storage].  Writing to a socket always succeeds here;
    [None] is a panic. *)
From S2P Require Import Prelude Interfaces SdsNumeric ZdbValue Numbers Storage Zsp Text Protocol Connections.
From S2P Require Commands.
Local Open Scope Z_scope.

(** ** The text protocol *)

Section Server.
Context {M : Type} {ops : StorageOps M} {geo : GeoOps M} {text : FloatText} {js : Json}
  {dict_order : HashOrder (bytes * ZspFrame)} {set_order : HashOrder ZspFrame}
  (max_items : ZspFrame -> Z) (i64_as_f64 : Z -> f64).

Abbreviation decode := (Zsp.decode max_items i64_as_f64).

Definition reply : Type := M -> option (bytes * M).
Definition says (s : bytes) : reply := fun m => Some (s, m).
Definition line (s : string) : bytes := ascii_bytes s ++ CRLF.

(** A call of the engine, with its answer or the line of its failure. *)
Definition answer {A} (c : action M A) (ok : A -> bytes) (failure : string) : reply := fun m =>
  match c m with
  | Some (Ok x, m) => Some (ok x, m)
  | Some (Err _, m) => Some (line failure, m)
  | None => None
  end.

Definition zero_or_one (b : bool) : bytes := line (if b then ":1" else ":0").
Definition number (n : nat) : bytes := number_line 58 (Z.of_nat n).

(** A binary string: the length of the bytes, then the bytes repaired. *)
Definition bulk_text (b : bytes) : bytes := number_line 36 (Z.of_nat (length b)) ++ from_utf8_lossy b ++ CRLF.
Definition array_text (l : list bytes) : bytes := number_line 42 (Z.of_nat (length l)) ++ concat (bulk_text <$> l).

(** A float as a binary string. *)
Definition bulk_float (f : f64) : bytes := bulk (fmt_display f).
Definition point_text (p : f64 * f64) : bytes := line "*2" ++ bulk_float p.1 ++ bulk_float p.2.

Definition nil_text : bytes := line "$-1".
Definition unknown : bytes := line "-ERR Unknown command".

Definition text_get (value : option Value) : bytes :=
  match value with
  | Some (VStr s) => if is_utf8 s then 43 :: s ++ CRLF else line "-ERR Invalid UTF-8"
  | Some _ => line "-ERR Unsupported type"
  | None => nil_text
  end.

(** MSET sets one key after the other and stops at the first failure. *)
Fixpoint text_mset (args : list bytes) : reply := fun m =>
  match args with
  | k :: v :: args =>
      match st_set k (VStr v) m with
      | Some (Ok _, m) => text_mset args m
      | Some (Err _, m) => Some (line "-ERR MSET failed", m)
      | None => None
      end
  | _ => Some (line "+OK", m)
  end.

Definition text_mget (values : list (option Value)) : bytes :=
  number_line 42 (Z.of_nat (length values)) ++
  concat ((fun v => match v with Some (VStr s) => bulk_text s | _ => nil_text end) <$> values).

Definition float_arg (s : bytes) : f64 := default f64_zero (parse_f64 s).
Definition isize_arg (s : bytes) : Z :=
  match parse_int (- 2 ^ 63) (2 ^ 63 - 1) s with Ok n => n | Err _ => 1 end.

(** One random member, or an array of them. *)
Definition members_text (cnt : Z) (l : list bytes) : bytes :=
  if cnt =? 1 then match l with [] => nil_text | b :: _ => bulk_text b end else array_text l.

Definition radius_text (results : list (bytes * f64 * (f64 * f64))) : bytes :=
  number_line 42 (Z.of_nat (length results)) ++
  concat ((fun r => line "*3" ++ bulk r.1.1 ++ (43 :: fmt_display r.1.2 ++ CRLF) ++ point_text r.2) <$> results).

Definition process_command (seed : nat) (cmd_line : bytes) : reply :=
  match split_whitespace cmd_line with
  | [] => says []
  | cmd :: args =>
      if upper_is cmd "PING" then
        match args with [] => says (line "+PONG") | message :: _ => says (43 :: message ++ CRLF) end
      else if upper_is cmd "QUIT" then says (line "+OK")
      else if upper_is cmd "SET" then
        match args with
        | [k; v] => answer (st_set k (VStr v)) (fun _ => line "+OK") "-ERR SET failed"
        | _ => says unknown
        end
      else if upper_is cmd "GET" then
        match args with [k] => answer (st_get k) text_get "-ERR GET failed" | _ => says unknown end
      else if upper_is cmd "DEL" then
        match args with [k] => answer (st_del k) zero_or_one "-ERR DEL failed" | _ => says unknown end
      else if upper_is cmd "MSET" then
        match args with
        | [] => says unknown
        | _ => if Nat.odd (length args) then says (line "-ERR Wrong number of arguments for MSET") else text_mset args
        end
      else if upper_is cmd "MGET" then
        match args with [] => says unknown | _ => answer (st_mget args) text_mget "-ERR MGET failed" end
      else if upper_is cmd "GEOADD" then
        match args with
        | [k; lon; lat; m] => answer (st_geo_add k (float_arg lon) (float_arg lat) m) zero_or_one "-ERR GEOADD failed"
        | _ => says unknown
        end
      else if upper_is cmd "GEOPOS" then
        match args with
        | [k; m] =>
            answer (st_geo_pos k m) (fun r => match r with Some p => point_text p | None => nil_text end)
              "-ERR GEOPOS failed"
        | _ => says unknown
        end
      else if upper_is cmd "GEODIST" then
        let dist k m1 m2 unit_ :=
          answer (st_geo_dist k m1 m2 unit_)
            (fun r => match r with Some d => 43 :: fmt_display d ++ CRLF | None => nil_text end) "-ERR GEODIST failed" in
        match args with
        | [k; m1; m2] => dist k m1 m2 (ascii_bytes "m")
        | [k; m1; m2; unit_] => dist k m1 m2 unit_
        | _ => says unknown
        end
      else if upper_is cmd "GEORADIUS" then
        match args with
        | k :: lon :: lat :: radius :: rest =>
            answer (st_geo_radius k (float_arg lon) (float_arg lat) (float_arg radius) (default (ascii_bytes "km") (head rest)))
              radius_text "-ERR GEORADIUS failed"
        | _ => says unknown
        end
      else if upper_is cmd "SADD" then
        match args with
        | k :: ((_ :: _) as members) => answer (st_sadd k members) number "-ERR SADD failed"
        | _ => says unknown
        end
      else if upper_is cmd "SMEMBERS" then
        match args with [k] => answer (st_smembers k) array_text "-ERR SMEMBERS failed" | _ => says unknown end
      else if upper_is cmd "SCARD" then
        match args with [k] => answer (st_scard k) number "-ERR SCARD failed" | _ => says unknown end
      else if upper_is cmd "SISMEMBER" then
        match args with [k; m] => answer (st_sismember k m) zero_or_one "-ERR SISMEMBER failed" | _ => says unknown end
      else if upper_is cmd "SREM" then
        match args with
        | k :: ((_ :: _) as members) => answer (st_srem k members) number "-ERR SREM failed"
        | _ => says unknown
        end
      else if upper_is cmd "SRANDMEMBER" then
        match args with
        | [k] => answer (st_srandmember seed k 1) (members_text 1) "-ERR SRANDMEMBER failed"
        | [k; n] => answer (st_srandmember seed k (isize_arg n)) (members_text (isize_arg n)) "-ERR SRANDMEMBER failed"
        | _ => says unknown
        end
      else if upper_is cmd "SPOP" then
        match args with
        | [k] => answer (st_spop seed k 1) (members_text 1) "-ERR SPOP failed"
        | [k; n] => answer (st_spop seed k (isize_arg n)) (members_text (isize_arg n)) "-ERR SPOP failed"
        | _ => says unknown
        end
      else says unknown
  end.

(** ** The commands of the wire *)

(** The text of an error that wraps one of a library. *)
Context (wrapped_text : StoreError -> bytes).

(** [Display] of [StoreError] ([error/system.rs]). *)
Definition store_error_text (e : StoreError) : bytes :=
  let with_message (prefix msg : string) := ascii_bytes prefix ++ ascii_bytes msg in
  match e with
  | Io | Utf8 | Serde | Lua => wrapped_text e
  | InvalidCommand m => with_message "Invalid command: " m
  | Storage.InvalidData m => with_message "Invalid data: " m
  | InvalidOperation m => with_message "Invalid operation: " m
  | WrongType m => with_message "Wrong type for operation: " m
  | KeyNotFound => ascii_bytes "Key not found"
  | IndexOutOfBounds => ascii_bytes "Index out of bounds"
  | Parse m => with_message "Parse error: " m
  | InvalidType => ascii_bytes "Invalid type"
  | InvalidValue => ascii_bytes "Invalid value"
  | Overflow => ascii_bytes "Overflow value"
  | NotImplemented m => with_message "Operation not implemented: " m
  | Storage.Connection m => with_message "Connection error: " m
  | Cluster m => with_message "Cluster error: " m
  | ChannelNotFound m => with_message "Channel not found: " m
  | Subscriber m => with_message "Subscriber error: " m
  | Internal m => with_message "Internal error: " m
  | LockError m => with_message "Lock acquisition failed: " m
  | Storage.InvalidKey => ascii_bytes "Invalid key encoding"
  | FileError => ascii_bytes "File processing error"
  | WrongShard => ascii_bytes "Operation not allowed across shards (key slot mismatch)"
  | SerdeError m => with_message "Serialization or deserialization failed: " m
  | Syntax m => with_message "Unknown BITOP: " m
  | InvalidArgument m => with_message "Invalid argument: " m
  | ServerShutdown => ascii_bytes "Server shutdown"
  | UnsupportedOperation m => with_message "Unsupported operation: " m
  end.

Definition get_frame (value : option Value) : ZspFrame :=
  match value with
  | Some (VStr s) => BinaryString (Some s)
  | Some _ => FrameError (ascii_bytes "ERR Unsupported type")
  | None => BinaryString None
  end.

Definition mget_frame (value : option Value) : ZspFrame :=
  match value with
  | Some (VStr s) => BinaryString (Some s)
  | Some _ => FrameError (ascii_bytes "ERR unsupported type")
  | None => BinaryString None
  end.

(** MSET of the wire: the keys one after the other. *)
Fixpoint set_entries (entries : list (bytes * Value)) : action M unit :=
  match entries with
  | [] => aret tt
  | (k, v) :: entries => let! _ := st_set k v in set_entries entries
  end.

Definition execute_store_command (cmd : StoreCommand) : action M ZspFrame :=
  match cmd with
  | OnStore (Commands.Set_ key value) => let! _ := st_set key value in aret (inline "OK")
  | OnStore (Commands.Get key) => let! value := st_get key in aret (get_frame value)
  | OnStore (Commands.Del key) => let! r := st_del key in aret (Integer (if r then 1 else 0))
  | OnStore (Commands.MSet entries) => let! _ := set_entries entries in aret (inline "OK")
  | OnStore (Commands.MGet keys) => let! vals := st_mget keys in aret (Array (mget_frame <$> vals))
  | _ => aret (FrameError (ascii_bytes "ERR unsupported command"))
  end.

(** ** A connection *)

Record Connection : Type := mkConnection {
  recv_buf : bytes;
  decoder : ZspDecodeState;
  sent : bytes;
  info : ConnectionInfo;
}.

Definition with_buffer (b : bytes) (st : ZspDecodeState) (c : Connection) : Connection := mkConnection b st (sent c) (info c).
Definition write_all (b : bytes) (c : Connection) : Connection := mkConnection (recv_buf c) (decoder c) (sent c ++ b) (info c).
Definition note (f : ConnectionInfo -> ConnectionInfo) (c : Connection) : Connection :=
  mkConnection (recv_buf c) (decoder c) (sent c) (f (info c)).

Definition new_connection (i : ConnectionInfo) : Connection := mkConnection [] Initial [] (set_state Idle i).

(** The errors of [anyhow] that the handlers make. *)
Inductive HandlerError : Type := ClientQuit | EncodeFailed (e : ZspEncodeError).

Definition handled : Type := option (result HandlerError unit * Connection * M).

(** An error frame, which is encoded and sent. *)
Definition send_error (msg : bytes) (c : Connection) (m : M) : handled :=
  match encode (FrameError msg) with
  | Ok enc => Some (Ok tt, write_all enc c, m)
  | Err e => Some (Err (EncodeFailed e), c, m)
  end.

Definition handle_zsp_frame (now : Z) (frame : ZspFrame) (c : Connection) (m : M) : handled :=
  match parse_command frame with
  | None => None
  | Some (Ok store_cmd) =>
      match execute_store_command store_cmd m with
      | None => None
      | Some (Ok resp, m) =>
          match encode resp with
          | Ok encoded =>
              Some (Ok tt, note (record_command 0 (Z.of_nat (length encoded)) now) (write_all encoded c), m)
          | Err e => Some (Err (EncodeFailed e), c, m)
          end
      | Some (Err e, m) =>
          send_error (ascii_bytes "ERR exec: " ++ store_error_text e) (note record_error c) m
      end
  | Some (Err e) => send_error (ascii_bytes "ERR parse: " ++ parse_error_text e) (note record_error c) m
  end.

(** [Display] of [ZspDecodeError]. *)
Definition decode_error_text (e : ZspDecodeError) : bytes :=
  match e with
  | Zsp.InvalidData m => ascii_bytes "Invalid data: " ++ ascii_bytes m
  | UnexpectedEof m => ascii_bytes "Unexpected EOF: " ++ ascii_bytes m
  | Zsp.InvalidUtf8 m => ascii_bytes "Invalid UTF-8 encoding: " ++ ascii_bytes m
  end.

(** The bytes up to the first end of a line, and what follows. *)
Fixpoint take_line (b : bytes) : option (bytes * bytes) :=
  match b with
  | [] => None
  | x :: b => if x =? LF then Some ([x], b) else '(l, r) ← take_line b; Some (x :: l, r)
  end.

(** The first byte of a frame. *)
Definition is_zsp (first : Z) : bool := bool_decide (first ∈ [43; 45; 58; 44; 35; 36; 95; 42; 37; 126; 62; 94]).

Definition process_line (seed : nat) (received now : Z) (line_bytes : bytes) (c : Connection) (m : M) : handled :=
  let text_line := from_utf8_lossy line_bytes in
  let c := note (set_state Processing) c in
  match process_command seed text_line m with
  | None => None
  | Some (response, m) =>
      let c := note (set_state Idle) (note (record_command received (Z.of_nat (length response)) now) (write_all response c)) in
      if bool_decide (response = line "+OK") && upper_is (trim text_line) "QUIT" then
        Some (Err ClientQuit, note (set_state Closing) c, m)
      else Some (Ok tt, c, m)
  end.

(** The buffer is drained by what the decoder consumed when there is a frame,
    and left as it is otherwise; the decoder keeps its state in all cases. *)
Definition process_frame (now : Z) (c : Connection) (m : M) : handled :=
  match decode (length (recv_buf c) + 2) (decoder c) (recv_buf c) with
  | DOk (Some frame) st rest =>
      let c := note (set_state Processing) (with_buffer rest st c) in
      match handle_zsp_frame now frame c m with
      | Some (Ok _, c, m) => Some (Ok tt, note (set_state Idle) c, m)
      | Some (Err _, c, m) => Some (Ok tt, note (set_state Idle) (note record_error c), m)
      | None => None
      end
  | DOk None st _ => Some (Ok tt, with_buffer (recv_buf c) st c, m)
  | DErr e =>
      send_error (ascii_bytes "ERR zsp decode: " ++ decode_error_text e)
        (note record_error (with_buffer (recv_buf c) Initial c)) m
  | DPanic | DDeep => None
  end.

Definition process_buffer (seed : nat) (received now : Z) (c : Connection) (m : M) : handled :=
  match recv_buf c with
  | [] => Some (Ok tt, c, m)
  | first :: _ =>
      if is_zsp first then process_frame now c m
      else
        match take_line (recv_buf c) with
        | Some (line_bytes, rest) => process_line seed received now line_bytes (with_buffer rest (decoder c) c) m
        | None => Some (Ok tt, c, m)
        end
  end.

(** ** The loop *)

(** Errors of reading: the kinds that [is_recoverable_error] names, and others. *)
Inductive ErrorKind : Type :=
| InvalidDataError | UnexpectedEofError | BrokenPipe | ConnectionReset | ConnectionAborted | TimedOut | OtherError.

Definition is_recoverable_error (e : ErrorKind) : bool :=
  match e with OtherError => false | _ => true end.

(** What the [select!] of [run] can see, with the random state and the clock. *)
Inductive Event : Type :=
| Shutdown
| IdleElapsed (since_last_activity idle_timeout : Z)
| Read (data : bytes) (seed : nat) (now : Z)
| Eof
| ReadFailed (e : ErrorKind)
| ReadTimeout.

Inductive Outcome : Type := Continue | Closed | Failed.

(** One turn of the loop. *)
Definition turn (e : Event) (c : Connection) (m : M) : option (Outcome * Connection * M) :=
  let close := note (set_state Closing) in
  match e with
  | Shutdown => Some (Closed, write_all (line "-ERR Server shutting down") (close c), m)
  | IdleElapsed since_last_activity idle_timeout =>
      if idle_timeout <=? since_last_activity then
        Some (Closed, write_all (line "-ERR Connection idle timeout") (close c), m)
      else Some (Continue, c, m)
  | Eof => Some (Closed, close c, m)
  | Read data seed now =>
      let c := note (update_activity now) c in
      let c := with_buffer (recv_buf c ++ data) (decoder c) c in
      match process_buffer seed (Z.of_nat (length data)) now c m with
      | Some (Ok _, c, m) => Some (Continue, c, m)
      | Some (Err _, c, m) => Some (Closed, close (note record_error c), m)
      | None => None
      end
  | ReadFailed InvalidDataError => Some (Continue, c, m)
  | ReadFailed e =>
      if is_recoverable_error e then Some (Closed, close c, m) else Some (Failed, close (note record_error c), m)
  | ReadTimeout => Some (Closed, close (write_all (line "-ERR Read timeout") (note record_error c)), m)
  end.

Fixpoint run (events : list Event) (c : Connection) (m : M) : option (Outcome * Connection * M) :=
  match events with
  | [] => Some (Continue, c, m)
  | e :: events =>
      '(o, c, m) ← turn e c m;
      match o with Continue => run events c m | _ => Some (o, c, m) end
  end.

(** ** The client *)

(** [receive_response]: [chunks] are what the reads of the socket give, an empty
    one its end; after the last one the read times out. *)
Definition MAX_RESPONSE : Z := 10 * 1024 * 1024.

Inductive ReceiveError : Type := TimeoutError | ClientFailed (e : ClientError).

Fixpoint receive_response (chunks : list bytes) (read_buf : bytes) (st : ZspDecodeState)
  : option (result ReceiveError Response * ZspDecodeState) :=
  let more st :=
    match chunks with
    | [] => Some (Err TimeoutError, st)
    | [] :: _ => Some (Err (ClientFailed ConnectionClosed), st)
    | tmp :: chunks =>
        let read_buf := read_buf ++ tmp in
        if MAX_RESPONSE <? Z.of_nat (length read_buf) then Some (Err (ClientFailed Protocol), st)
        else receive_response chunks read_buf st
    end in
  match read_buf with
  | [] => more st
  | _ =>
      match decode (length read_buf + 2) st read_buf with
      | DOk (Some frame) st _ =>
          Some (match frame_to_response frame with Ok r => Ok r | Err e => Err (ClientFailed e) end, st)
      | DOk None st _ => more st
      | DErr e => Some (Err (ClientFailed (DecodingError e)), Initial)
      | DPanic | DDeep => None
      end
  end.

(** [send_command] *)
Definition send_command (command : Command) : result ClientError bytes :=
  let? frame := command_to_frame command in
  match encode frame with Ok encoded => Ok encoded | Err e => Err (EncodingError e) end.

(** What the methods of [ZumicClient] make of a response. *)
Definition server_error {A} (r : Response) : result ClientError A :=
  match r with RError msg => Err (ServerError msg) | _ => Err UnexpectedResponse end.

Definition client_ping (r : Response) : result ClientError bool :=
  match r with
  | ROk => Ok true
  | RString s => if bool_decide (s = ascii_bytes "PONG") then Ok true else Err UnexpectedResponse
  | _ => server_error r
  end.

Definition client_get (r : Response) : result ClientError (option Value) :=
  match r with RValue val => Ok (Some val) | RNotFound => Ok None | _ => server_error r end.

Definition client_set (r : Response) : result ClientError unit :=
  match r with ROk => Ok tt | _ => server_error r end.

Definition client_del (r : Response) : result ClientError bool :=
  match r with RInteger 1 => Ok true | RInteger 0 => Ok false | _ => server_error r end.

Definition client_authenticate (r : Response) : result ClientError unit :=
  match r with
  | ROk => Ok tt
  | RError msg => Err (AuthenticationFailed msg)
  | _ => Err UnexpectedResponse
  end.
End Server.
