(* ===== verification/ServerLaws.v ===== *)
(** * Correctness of the server and the client

    What a client's calls mean once they went over the wire to a server on any
    engine and back ([client_calls_refine_map]); what happens to a request or a
    response that arrives in parts; and the text protocol. *)
From S2P Require Import Prelude Interfaces SdsNumeric ZdbValue Numbers Storage Zsp ZspCodec Text Protocol Connections Server.
From S2P Require Commands Memory CommandRefinement.
Local Open Scope Z_scope.

(** ** Calls *)

(** The calls of a client on the keys, and their results. *)
Inductive Call : Type :=
| KSet (key : bytes) (value : Value)
| KGet (key : bytes)
| KDel (key : bytes).

Inductive Answer : Type :=
| AnsSet (r : result ClientError unit)
| AnsGet (r : result ClientError (option Value))
| AnsDel (r : result ClientError bool).

Section Server.
Context {M : Type} {ops : StorageOps M} {laws : StorageLaws M} {geo : GeoOps M} {text : FloatText} {text_laws : FloatTextLaws}
  {js : Json} {dict_order : HashOrder (bytes * ZspFrame)} {set_order : HashOrder ZspFrame}
  (max_items : ZspFrame -> Z) (i64_as_f64 : Z -> f64) (wrapped_text : StoreError -> bytes).
Hypothesis room : 3 <= max_items (Array []).

Abbreviation decode := (Zsp.decode max_items i64_as_f64).
Abbreviation turn := (Server.turn max_items i64_as_f64 wrapped_text).
Abbreviation receive_response := (Server.receive_response max_items i64_as_f64).

(** The command that a call sends. *)
Definition command_of (k : Call) : Command :=
  match k with KSet key value => CSet key value | KGet key => CGet key | KDel key => CDel key end.

Definition answer_of (k : Call) (r : Response) : Answer :=
  match k with
  | KSet _ _ => AnsSet (client_set r)
  | KGet _ => AnsGet (client_get r)
  | KDel _ => AnsDel (client_del r)
  end.

(** A call: the request arrives at the server in one read, the response at the
    client in one. *)
Definition exchange (seed : nat) (now : Z) (k : Call) (c : Connection) (m : M) : option (Answer * Connection * M) :=
  match send_command (command_of k) with
  | Err _ => None
  | Ok request =>
      '(_, c', m) ← turn (Read request seed now) c m;
      '(r, _) ← receive_response [drop (length (sent c)) (sent c')] [] Initial;
      match r with Ok r => Some (answer_of k r, c', m) | Err _ => None end
  end.

Fixpoint exchanges (seed : nat) (now : Z) (ks : list Call) (c : Connection) (m : M) : option (list Answer * Connection * M) :=
  match ks with
  | [] => Some ([], c, m)
  | k :: ks =>
      '(a, c, m) ← exchange seed now k c m;
      '(l, c, m) ← exchanges seed now ks c m;
      Some (a :: l, c, m)
  end.

(** ** What the calls mean *)

(** What a value is after the wire: a float has five digits. *)
Definition wired (v : Value) (a : AVal) : Prop :=
  match v with
  | VStr s => a = AStr s
  | VInt i => a = AInt i
  | VFloat f => if is_infinite f then a = AFloat f else exists g, parse_f64 (fmt_precise f) = Some g /\ a = AFloat g
  | VBool b => a = ABool b
  | VNull => a = ANull
  | _ => False
  end.

Inductive call_means (m : gmap bytes AVal) : Call -> Answer -> gmap bytes AVal -> Prop :=
| means_set key v a : wired v a -> call_means m (KSet key v) (AnsSet (Ok tt)) (<[key := a]> m)
| means_get_none key : m !! key = None -> call_means m (KGet key) (AnsGet (Ok None)) m
| means_get key s : m !! key = Some (AStr s) -> call_means m (KGet key) (AnsGet (Ok (Some (VStr s)))) m
| means_get_other key a : m !! key = Some a -> (forall s, a <> AStr s) ->
    call_means m (KGet key) (AnsGet (Err (ServerError (ascii_bytes "ERR Unsupported type")))) m
| means_del key : call_means m (KDel key) (AnsDel (Ok (bool_decide (is_Some (m !! key))))) (delete key m).

Inductive calls_mean : gmap bytes AVal -> list Call -> list Answer -> gmap bytes AVal -> Prop :=
| mean_nil m : calls_mean m [] [] m
| mean_cons m k a m1 ks l m2 : call_means m k a m1 -> calls_mean m1 ks l m2 -> calls_mean m (k :: ks) (a :: l) m2.

(** A string that a response can carry. *)
Definition short (s : bytes) : Prop := Z.of_nat (length (bulk s)) <= MAX_RESPONSE.
Definition short_strings (m : gmap bytes AVal) : Prop := forall k s, m !! k = Some (AStr s) -> short s.

(** A call that can be sent: its key is a line, its value a scalar. *)
Definition sendable_value (v : Value) : Prop :=
  match v with
  | VStr s => short s
  | VInt i => is_s 64 i
  | VFloat f => is_u 64 (f64_bits f)
  | VBool _ | VNull => True
  | _ => False
  end.

Definition sendable (k : Call) : Prop :=
  match k with
  | KSet key v => plain_text key /\ sendable_value v
  | KGet key | KDel key => plain_text key
  end.

(** Between two requests. *)
Definition ready (c : Connection) : Prop := recv_buf c = [] /\ decoder c = Initial.

(** ** Frames that arrive *)

Lemma delivered f w : well_typed max_items f -> encode f = Ok w -> (fdepth f <= 1)%nat ->
  exists f', received f f' /\ decode (length w + 2) Initial w = DOk (Some f') Initial [].
Proof.
  intros Hwt He Hd. destruct (frame_delivers max_items i64_as_f64 f 0 w He Hwt) as (f' & Hr & Hs). exists f'.
  split; [done|]. specialize (Hs (length w + 2)%nat ltac:(lia) []). by rewrite app_nil_r in Hs.
Qed.

Lemma decode_empty fuel : decode (S fuel) Initial [] = DOk None Initial [].
Proof. done. Qed.

Lemma encoded_not_empty f w : well_typed max_items f -> encode f = Ok w -> (fdepth f <= 1)%nat -> w <> [].
Proof.
  intros Hwt He Hd ->. destruct (delivered f [] Hwt He Hd) as (f' & _ & Hdec).
  change (length [] + 2)%nat with 2%nat in Hdec. rewrite decode_empty in Hdec. done.
Qed.

(** A response is received as the client's conversion of the frame. *)
Lemma response_received f w : well_typed max_items f -> encode f = Ok w -> (fdepth f <= 1)%nat ->
  Z.of_nat (length w) <= MAX_RESPONSE ->
  exists f', received f f' /\ receive_response [w] [] Initial =
    Some (match frame_to_response f' with Ok r => Ok r | Err e => Err (ClientFailed e) end, Initial).
Proof.
  intros Hwt He Hd Hl. destruct (delivered f w Hwt He Hd) as (f' & Hr & Hdec).
  pose proof (encoded_not_empty f w Hwt He Hd) as Hne. exists f'. split; [done|].
  destruct w as [|b w]; [done|]. cbn [Server.receive_response app].
  rewrite (proj2 (Z.ltb_ge _ _)) by done. by rewrite Hdec.
Qed.

(** A request that is a command which succeeds is answered by one frame. *)
Lemma request_answered seed now w f cmd resp enc c m m' :
  ready c -> decode (length w + 2) Initial w = DOk (Some f) Initial [] -> is_zsp (hd 0 w) = true -> w <> [] ->
  parse_command f = Some (Ok cmd) -> execute_store_command cmd m = Some (Ok resp, m') -> encode resp = Ok enc ->
  exists c', turn (Read w seed now) c m = Some (Continue, c', m') /\ sent c' = sent c ++ enc /\ ready c'.
Proof.
  destruct c as [b st sn inf]. intros [Hb Hst] Hdec Hz Hne Hp Hx He. cbn [recv_buf decoder] in Hb, Hst. subst b st.
  destruct w as [|b w]; [done|]. cbn [hd] in Hz.
  cbn [Server.turn note with_buffer recv_buf decoder sent info app process_buffer]. rewrite Hz.
  unfold process_frame. cbn [note with_buffer recv_buf decoder sent info]. rewrite Hdec. unfold handle_zsp_frame. rewrite Hp, Hx, He.
  eexists. split; [done|]. done.
Qed.

(** ** Requests *)

(** A frame that is not compound and that the encoder takes. *)
Definition small_frame (f : ZspFrame) : Prop :=
  well_typed max_items f /\ fdepth f = 0%nat /\ exists w, encode_frame f 1 = Ok w.

Lemma small_inline s : plain_text s -> small_frame (InlineString s).
Proof.
  intros [Hu Hc]. split_and!; [by constructor|done|]. eexists. cbn [encode_frame Nat.ltb Nat.leb MAX_ARRAY_DEPTH].
  unfold validate_simple_string. by rewrite Hc.
Qed.

Lemma encode_each_small l : Forall small_frame l -> exists out, encode_each (fun e => encode_frame e 1) l = Ok out.
Proof.
  induction 1 as [|f l (_ & _ & w & Hw) _ (out & IH)]; [by exists []|]. exists (w ++ out). cbn. by rewrite Hw, IH.
Qed.

Lemma array_request l : l <> [] -> (length l <= 3)%nat -> Forall small_frame l ->
  well_typed max_items (Array l) /\ (fdepth (Array l) <= 1)%nat /\ exists w, encode (Array l) = Ok (42 :: w).
Proof.
  intros Hne Hlen Hall. split_and!.
  - constructor; [split; lia|]. eapply Forall_impl; [exact Hall|]. by intros f (Hwt & _).
  - cbn [fdepth]. enough (foldr (fun x n => Nat.max (fdepth x) n) 0%nat l = 0%nat) as -> by done.
    clear -Hall. induction Hall as [|f l (_ & Hd & _) _ IH]; [done|]. cbn. by rewrite Hd, IH.
  - destruct (encode_each_small l Hall) as (out & Ho). destruct l as [|f l]; [done|].
    unfold encode. cbn [encode_frame Nat.ltb Nat.leb MAX_ARRAY_DEPTH Nat.add]. rewrite Ho. cbn [rbind]. by eexists.
Qed.

Lemma bulk_length s : (length s <= length (bulk s))%nat.
Proof. unfold bulk. rewrite !length_app. lia. Qed.

Lemma short_binary s : short s -> Z.of_nat (length s) <= MAX_BINARY_LENGTH.
Proof. unfold short, MAX_RESPONSE, MAX_BINARY_LENGTH. pose proof (bulk_length s). lia. Qed.

Lemma encode_binary s d : (d <= 32)%nat -> Z.of_nat (length s) <= MAX_BINARY_LENGTH ->
  encode_frame (BinaryString (Some s)) d = Ok (bulk s).
Proof.
  intros Hd Hl. cbn [encode_frame]. rewrite (proj2 (Nat.ltb_ge _ _)) by (unfold MAX_ARRAY_DEPTH; lia).
  by rewrite (proj2 (Z.ltb_ge _ _)).
Qed.

(** A value is sent as a frame that is parsed into what it is after the wire. *)
Lemma value_sent v : sendable_value v ->
  exists f, client_value_to_frame v = Ok f /\ small_frame f /\
    forall f', received f f' -> exists v' a, parse_value "SET" f' = Ok v' /\ denotes v' a /\ wired v a.
Proof.
  intros Hv. destruct v; try done; cbn [client_value_to_frame sendable_value] in *; eexists; (split; [done|]); split.
  - split_and!; [by constructor|done|]. rewrite encode_binary; [by eexists|lia|by apply short_binary].
  - intros f' Hf. inversion Hf; subst. eexists _, _. split; [done|]. split; [constructor|done].
  - split_and!; [by constructor|done|by eexists].
  - intros f' Hf. inversion Hf; subst. eexists _, _. split; [done|]. split; [constructor|done].
  - split_and!; [by constructor|done|by eexists].
  - intros f' Hf. inversion Hf as [| | |g Hi|g h Hi Hp| | | | | | | |]; subst; eexists _, _; (split; [done|]);
      (split; [constructor|]); cbn [wired]; rewrite Hi; [done|by eexists].
  - split_and!; [by constructor|done|by eexists].
  - intros f' Hf. inversion Hf; subst. eexists _, _. split; [done|]. split; [constructor|done].
  - split_and!; [by constructor|done|by eexists].
  - intros f' Hf. inversion Hf; subst. eexists _, _. split; [done|]. split; [constructor|done].
Qed.

(** The request of a call, and the command that the server makes of it. *)
Lemma call_sent k : sendable k ->
  exists w f', send_command (command_of k) = Ok w /\ is_zsp (hd 0 w) = true /\ w <> [] /\
    decode (length w + 2) Initial w = DOk (Some f') Initial [] /\
    match k with
    | KSet key v => exists v' a, parse_command f' = Some (Ok (OnStore (Commands.Set_ key v'))) /\ denotes v' a /\ wired v a
    | KGet key => parse_command f' = Some (Ok (OnStore (Commands.Get key)))
    | KDel key => parse_command f' = Some (Ok (OnStore (Commands.Del key)))
    end.
Proof.
  assert (forall name, plain_text (ascii_bytes name) -> small_frame (inline name)) as Hname by (intros; by apply small_inline).
  assert (forall name key, plain_text (ascii_bytes name) -> plain_text key ->
    exists w, encode (Array [inline name; InlineString key]) = Ok (42 :: w) /\
      decode (length (42 :: w) + 2) Initial (42 :: w) = DOk (Some (Array [inline name; InlineString key])) Initial []) as Hreq.
  { intros name key Hn Hk.
    destruct (array_request [inline name; InlineString key]) as (Hwt & Hd & w & He); [done|cbn; lia| |].
    { apply Forall_cons; split; [by apply small_inline|]. apply Forall_cons; split; [by apply small_inline|by apply Forall_nil]. }
    exists w. split; [done|]. destruct (delivered _ _ Hwt He Hd) as (f' & Hr & Hdec). rewrite Hdec.
    inversion Hr as [| | | | | | |l l' Hl| | | | |]; subst. inversion Hl as [|x x' ? ? Hx Hl']; subst.
    inversion Hx; subst. inversion Hl' as [|y y' ? ? Hy Hl'']; subst. inversion Hy; subst. inversion Hl''; by subst. }
  destruct k as [key v|key|key]; cbn [sendable command_of]; unfold send_command; cbn [command_to_frame rbind].
  - intros [Hk Hv]. destruct (value_sent v Hv) as (f & Hf & Hsm & Hp). rewrite Hf. cbn [rbind].
    destruct (array_request [inline "SET"; InlineString key; f]) as (Hwt & Hd & w & He); [done|cbn; lia| |].
    { apply Forall_cons; split; [apply Hname; by vm_compute|]. apply Forall_cons; split; [by apply small_inline|].
      apply Forall_cons; split; [done|by apply Forall_nil]. }
    rewrite He. destruct (delivered _ _ Hwt He Hd) as (f' & Hr & Hdec). exists (42 :: w), f'.
    split_and!; [done|done|done|done|].
    inversion Hr as [| | | | | | |l l' Hl| | | | |]; subst. inversion Hl as [|x x' ? ? Hx Hl']; subst.
    inversion Hx; subst. inversion Hl' as [|y y' ? ? Hy Hl'']; subst. inversion Hy; subst.
    inversion Hl'' as [|z z' ? ? Hz Hl3]; subst. inversion Hl3; subst.
    destruct (Hp z' Hz) as (v' & a & Hpv & Hden & Hwi). exists v', a. split; [|done].
    unfold parse_command. cbn [parse_raw_command inline rbind].
    assert (parse_from_str_command (ascii_bytes "SET") [InlineString key; z'] = Ok (CSet key v')) as ->; [|done].
    change (parse_from_str_command (ascii_bytes "SET") [InlineString key; z']) with (key_value "SET" CSet [InlineString key; z']).
    cbn [key_value parse_key rbind]. by rewrite Hpv.
  - intros Hk. destruct (Hreq "GET"%string key) as (w & He & Hdec); [by vm_compute|done|]. rewrite He.
    eexists _, _. split_and!; [done|done|done|exact Hdec|done].
  - intros Hk. destruct (Hreq "DEL"%string key) as (w & He & Hdec); [by vm_compute|done|]. rewrite He.
    eexists _, _. split_and!; [done|done|done|exact Hdec|done].
Qed.

(** ** The calls *)

Lemma drop_sent (a b : bytes) : drop (length a) (a ++ b) = b.
Proof. by rewrite drop_app_length. Qed.

(** A call whose command succeeds with a response that is no array. *)
Lemma exchange_answered seed now k c m w f cmd resp enc m' :
  ready c -> send_command (command_of k) = Ok w -> is_zsp (hd 0 w) = true -> w <> [] ->
  decode (length w + 2) Initial w = DOk (Some f) Initial [] ->
  parse_command f = Some (Ok cmd) -> execute_store_command cmd m = Some (Ok resp, m') ->
  encode resp = Ok enc -> well_typed max_items resp -> (fdepth resp <= 1)%nat -> Z.of_nat (length enc) <= MAX_RESPONSE ->
  exists resp' c', received resp resp' /\ ready c' /\
    forall r, frame_to_response resp' = Ok r -> exchange seed now k c m = Some (answer_of k r, c', m').
Proof.
  intros Hr Hs Hz Hne Hdec Hp Hx He Hwt Hd Hl.
  destruct (request_answered seed now w f cmd resp enc c m m' Hr Hdec Hz Hne Hp Hx He) as (c' & Ht & Hsent & Hr').
  destruct (response_received resp enc Hwt He Hd Hl) as (resp' & Hrec & Hrecv).
  exists resp', c'. split; [done|]. split; [done|]. intros r Hf. unfold exchange. rewrite Hs, Ht. cbn [mbind option_bind].
  rewrite Hsent, drop_sent, Hrecv. cbn [mbind option_bind]. by rewrite Hf.
Qed.

Lemma call_answered seed now k c m g :
  ready c -> store_repr m g -> short_strings g -> sendable k ->
  exists a c' m' g', exchange seed now k c m = Some (a, c', m') /\
    ready c' /\ store_repr m' g' /\ call_means g k a g' /\ short_strings g'.
Proof.
  intros Hr Hm Hsh Hk. destruct (call_sent k Hk) as (w & f & Hs & Hz & Hne & Hdec & Hp).
  destruct k as [key v|key|key].
  - destruct Hp as (v' & a & Hp & Hden & Hwi).
    destruct (wp_elim _ _ _ (law_set m g key v' a Hm Hden)) as (r & m' & Hst & -> & Hm').
    edestruct (exchange_answered seed now (KSet key v) c m w f (OnStore (Commands.Set_ key v')) (inline "OK")
      (ascii_bytes "+OK" ++ CRLF) m') as (resp' & c' & Hrec & Hr' & Hex);
      [done|done|done|done|done|exact Hp|cbn [execute_store_command]; unfold abind; rewrite Hst; done
      |by vm_compute|by constructor|cbn; lia|vm_compute; done|].
    inversion Hrec; subst. eexists _, c', m', _. split; [by apply Hex|]. split; [done|]. split; [done|].
    split; [by constructor|]. intros k s. destruct (decide (key = k)) as [<-|Hn].
    + rewrite lookup_insert_eq. intros [= ->]. destruct Hk as [_ Hv].
      destruct v; cbn [wired sendable_value] in *; try done; try congruence.
      destruct (is_infinite f0); [done|]. by destruct Hwi as (? & _ & ?).
    + rewrite lookup_insert_ne by done. apply Hsh.
  - destruct (wp_elim _ _ _ (law_get m g key Hm)) as (r & m' & Hst & v & -> & Hv & Hm').
    assert (exists enc, encode (get_frame v) = Ok enc /\ Z.of_nat (length enc) <= MAX_RESPONSE) as (enc & He & Hl).
    { destruct v as [v|]; cbn [get_frame]; [|by eexists]. destruct v; try (by eexists).
      cbn [denotes_opt] in Hv. destruct (g !! key) as [a|] eqn:Hg; [|done]. inversion Hv; subst.
      pose proof (Hsh key s Hg) as Hsm. exists (bulk s). split; [|exact Hsm]. apply encode_binary; [lia|by apply short_binary]. }
    edestruct (exchange_answered seed now (KGet key) c m w f (OnStore (Commands.Get key)) (get_frame v) enc m') as (resp' & c' & Hrec & Hr' & Hex);
      [done|done|done|done|done|exact Hp|cbn [execute_store_command]; unfold abind; rewrite Hst; done
      |done|destruct v as [[]|]; by constructor|destruct v as [[]|]; cbn; lia|done|].
    assert (exists a, exchange seed now (KGet key) c m = Some (a, c', m') /\ call_means g (KGet key) a g) as (a & Ha & Hmean).
    { destruct v as [v|]; cbn [denotes_opt] in Hv; destruct (g !! key) as [a|] eqn:Hg; try done.
      - destruct v; inversion Hv; subst; cbn [get_frame] in Hrec; inversion Hrec; subst;
          (eexists; split; [by apply Hex|]); by econstructor.
      - inversion Hrec; subst. eexists; split; [by apply Hex|]. by constructor. }
    by exists a, c', m', g.
  - destruct (wp_elim _ _ _ (law_del m g key Hm)) as (r & m' & Hst & -> & Hm').
    edestruct (exchange_answered seed now (KDel key) c m w f (OnStore (Commands.Del key))
      (Integer (if bool_decide (is_Some (g !! key)) then 1 else 0))
      (number_line 58 (if bool_decide (is_Some (g !! key)) then 1 else 0)) m') as (resp' & c' & Hrec & Hr' & Hex);
      [done|done|done|done|done|exact Hp|cbn [execute_store_command]; unfold abind; rewrite Hst; done
      |by case_bool_decide|constructor; by case_bool_decide|cbn; lia|by case_bool_decide|].
    inversion Hrec; subst. eexists _, c', m', _. split; [by apply Hex|]. split; [done|]. split; [done|].
    split; [|intros k s; rewrite lookup_delete_Some; intros [_ ?]; by eapply Hsh].
    enough (answer_of (KDel key) (RInteger (if bool_decide (is_Some (g !! key)) then 1 else 0)) =
      AnsDel (Ok (bool_decide (is_Some (g !! key))))) as -> by constructor. by case_bool_decide.
Qed.

(** C4. The whole way from a client to an engine and back: any run of the
    client's calls on keys, each sent as a frame, decoded, parsed, executed by an
    engine that keeps the laws of the storage interface, answered by a frame and
    received in one read each, is answered as by one finite map, where a float
    that was set has five digits and a value that is no string cannot be got; and
    the connection is then between two requests. *)
Theorem client_calls_refine_map (seed : nat) (now : Z) (ks : list Call) (c : Connection) (m : M) (g : gmap bytes AVal) :
  ready c -> store_repr m g -> short_strings g -> Forall sendable ks ->
  exists answers c' m' g', exchanges seed now ks c m = Some (answers, c', m') /\
    calls_mean g ks answers g' /\ store_repr m' g' /\ ready c'.
Proof.
  intros Hr Hm Hsh Hks. revert c m g Hr Hm Hsh. induction Hks as [|k ks Hk _ IH]; intros c m g Hr Hm Hsh.
  - exists [], c, m, g. split; [done|]. split; [apply mean_nil|]. done.
  - destruct (call_answered seed now k c m g Hr Hm Hsh Hk) as (a & c1 & m1 & g1 & Hx & Hr1 & Hm1 & Hc & Hsh1).
    destruct (IH c1 m1 g1 Hr1 Hm1 Hsh1) as (l & c2 & m2 & g2 & Hxs & Hcs & Hm2 & Hr2).
    exists (a :: l), c2, m2, g2. split; [cbn [exchanges]; rewrite Hx; cbn; rewrite Hxs; done|].
    split; [by eapply mean_cons|]. done.
Qed.

(** ** Requests and responses in parts *)

Lemma run_two e1 e2 c m c1 m1 o c2 m2 :
  turn e1 c m = Some (Continue, c1, m1) -> turn e2 c1 m1 = Some (o, c2, m2) ->
  Server.run max_items i64_as_f64 wrapped_text [e1; e2] c m = Some (o, c2, m2).
Proof.
  intros H1 H2. cbn [Server.run]. rewrite H1. cbn [mbind option_bind]. rewrite H2. cbn [mbind option_bind]. by destruct o.
Qed.

(** A request that arrives in two reads is not understood: the buffer keeps
    the part that the decoder has already taken into its state, so that the
    decoder reads the beginning again; GET of any key, cut after the command, is
    answered by a parse error and the engine is not asked. *)
Theorem request_in_two_reads (seed : nat) (now : Z) (key : bytes) (c : Connection) (m : M) :
  ready c -> plain_text key ->
  let request := number_line 42 2 ++ (43 :: ascii_bytes "GET" ++ CRLF) ++ 43 :: key ++ CRLF in
  send_command (CGet key) = Ok request /\
  exists c', Server.run max_items i64_as_f64 wrapped_text
      [Read (take 10 request) seed now; Read (drop 10 request) seed now] c m = Some (Continue, c', m) /\
    sent c' = sent c ++ line "-ERR parse: GET: invalid key" /\ ready c'.
Proof.
  intros [Hb Hst] Hk request. destruct c as [b st sn inf]. cbn [recv_buf decoder] in Hb, Hst. subst b st.
  assert (send_command (CGet key) = Ok request) as Hs.
  { unfold send_command. cbn [command_to_frame rbind]. unfold encode.
    assert (encode_frame (InlineString key) 1 = Ok (43 :: key ++ CRLF)) as He.
    { cbn [encode_frame Nat.ltb Nat.leb MAX_ARRAY_DEPTH]. unfold validate_simple_string. destruct Hk as [_ Hc]. by rewrite Hc. }
    cbn [encode_frame Nat.ltb Nat.leb MAX_ARRAY_DEPTH encode_each Nat.add]. cbn [encode_frame Nat.ltb Nat.leb MAX_ARRAY_DEPTH] in He.
    rewrite He. cbn [rbind]. subst request. cbn. by rewrite app_nil_r. }
  split; [done|].
  assert (decode 12 Initial (take 10 request) = DOk None (PartialArray 2 [inline "GET"] 1) []) as H1.
  { change (decode 12 Initial (take 10 request)) with
      (if max_items (Array []) <? 2 then DPanic else DOk None (PartialArray 2 [inline "GET"] 1) []).
    by rewrite (proj2 (Z.ltb_ge (max_items (Array [])) 2)) by lia. }
  destruct (array_request [inline "GET"; InlineString key]) as (Hwt & Hd & w & He); [done|cbn; lia| |].
  { apply Forall_cons; split; [apply small_inline; by vm_compute|]. apply Forall_cons; split; [by apply small_inline|by apply Forall_nil]. }
  assert (42 :: w = request) as Hw.
  { unfold send_command in Hs. cbn [command_to_frame rbind] in Hs. rewrite He in Hs.
    exact (f_equal (fun r : result ClientError bytes => match r with Ok x => x | Err _ => [] end) Hs). }
  destruct (frame_delivers max_items i64_as_f64 _ 0 _ He Hwt) as (f' & Hr & Hf). rewrite Hw in Hf.
  assert (exists l, f' = Array l) as (l & ->) by (inversion Hr; by eexists).
  assert (decode (length request + 2) (PartialArray 2 [inline "GET"] 1) request =
    DOk (Some (Array [inline "GET"; Array l])) Initial []) as H2.
  { replace (length request + 2)%nat with (S (length request + 1)) by lia. cbn [Zsp.decode decode_from].
    unfold continue_array, continue_items. cbn [items_loop].
    assert (1 < length request)%nat by (rewrite <- Hw; destruct w; [|cbn; lia]; subst request; discriminate Hw).
    specialize (Hf (length request + 1)%nat ltac:(lia) []). rewrite app_nil_r in Hf. rewrite Hf. done. }
  eexists. split.
  - eapply run_two.
    + cbn [Server.turn note with_buffer recv_buf decoder sent info app]. unfold process_buffer, process_frame.
      cbn [recv_buf decoder note with_buffer sent info].
      change (length (take 10 request) + 2)%nat with 12%nat. rewrite H1.
      change (take 10 request) with (42 :: 50 :: 13 :: 10 :: 43 :: 71 :: 69 :: 84 :: 13 :: [10]). cbn [is_zsp]. done.
    + cbn [Server.turn note with_buffer recv_buf decoder sent info].
      change ((42 :: 50 :: 13 :: 10 :: 43 :: 71 :: 69 :: 84 :: 13 :: [10]) ++ drop 10 request) with request.
      unfold process_buffer, process_frame. cbn [recv_buf decoder note with_buffer sent info]. rewrite H2.
      change request with (42 :: drop 1 request) at 1. done.
  - split; done.
Qed.

Lemma no_crlf_start b rest : 13 ∉ b -> b <> [] -> expect_crlf (b ++ rest) = Err (UnexpectedEof "Expected CRLF").
Proof.
  intros Hn Hne. destruct b as [|x b]; [done|]. assert (x <> 13) by (intros ->; apply Hn; left).
  unfold expect_crlf. cbn [app]. destruct (decide (x = 13)); [done|].
  destruct x as [|x|x]; try done. do 4 (destruct x; try done).
Qed.

(** A client reads 4096 bytes at a time and starts over with all of them
    while its decoder goes on: the response to GET of a string that takes two
    reads is refused although every byte of it arrived. *)
Theorem response_in_two_reads (b : bytes) :
  4096 <= Z.of_nat (length b) -> Z.of_nat (length (bulk b)) <= 8192 -> 13 ∉ b ->
  encode (get_frame (Some (VStr b))) = Ok (bulk b) /\
  receive_response [take (Z.to_nat 4096) (bulk b); drop (Z.to_nat 4096) (bulk b)] [] Initial =
    Some (Err (ClientFailed (DecodingError (UnexpectedEof "Expected CRLF"))), Initial).
Proof.
  intros Hn Hw Hcr. split.
  { apply encode_binary; [lia|]. pose proof (bulk_length b). unfold MAX_BINARY_LENGTH. lia. }
  remember (number_line 36 (Z.of_nat (length b))) as h eqn:Hheader.
  assert (bulk b = h ++ b ++ CRLF) as Hbulk by (by rewrite Hheader).
  assert (length (bulk b) = (length h + length b + 2)%nat) as Hl.
  { rewrite Hbulk, !length_app. cbn. lia. }
  pose (k := (Z.to_nat 4096 - length h)%nat).
  assert (0 < length h)%nat as Hh by (rewrite Hheader; unfold number_line; cbn [length]; lia).
  assert (length h <= 4094)%nat as Hh2 by lia.
  assert (k < length b)%nat as Hk by (subst k; lia).
  assert (take (Z.to_nat 4096) (bulk b) = h ++ take k b) as Ht.
  { rewrite Hbulk, take_app_ge by lia. f_equal. rewrite take_app_le by (subst k; lia). done. }
  cbn [Server.receive_response].
  assert (take (Z.to_nat 4096) (bulk b) <> []) as Hne by (rewrite Ht; destruct h; [cbn in Hh; lia|done]).
  assert (decode (length (take (Z.to_nat 4096) (bulk b)) + 2) Initial (take (Z.to_nat 4096) (bulk b)) =
    DOk None (PartialBinaryString (length b) (take k b)) []) as H1.
  { rewrite Ht. rewrite Hheader. replace (length (number_line 36 (Z.of_nat (length b)) ++ take k b) + 2)%nat with (S (length (number_line 36 (Z.of_nat (length b)) ++ take k b) + 1)) by lia.
    apply (binary_part max_items i64_as_f64 _ b (take k b) (drop k b)); [by rewrite take_drop| |].
    - intros Hd. apply (f_equal length) in Hd. rewrite length_drop in Hd. cbn in Hd. lia.
    - pose proof (bulk_length b). unfold MAX_BINARY_LENGTH. lia. }
  destruct (take (Z.to_nat 4096) (bulk b)) as [|x t] eqn:He1; [done|].
  destruct (drop (Z.to_nat 4096) (bulk b)) as [|y d] eqn:He2.
  { apply (f_equal length) in He2. rewrite length_drop, Hl in He2. cbn [length] in He2. lia. }
  assert ((x :: t) ++ y :: d = bulk b) as Hall by (rewrite <- He1, <- He2; apply take_drop).
  cbn [app]. change (x :: t ++ y :: d) with ((x :: t) ++ y :: d).
  assert (Z.of_nat (length (x :: t)) <= 4096) as Hxt by (rewrite <- He1, length_take; lia).
  rewrite (proj2 (Z.ltb_ge _ (Z.of_nat (length (x :: t))))) by (unfold MAX_RESPONSE; lia). rewrite H1.
  rewrite Hall, (proj2 (Z.ltb_ge _ _)) by (unfold MAX_RESPONSE; lia).
  assert (decode (length (bulk b) + 2) (PartialBinaryString (length b) (take k b)) (bulk b) =
    DErr (UnexpectedEof "Expected CRLF")) as H2.
  { replace (length (bulk b) + 2)%nat with (S (length (bulk b) + 1)) by lia. cbn [Zsp.decode decode_from].
    unfold continue_binary_string. rewrite length_take, (Nat.min_l k) by lia. rewrite Nat.min_r by lia.
    rewrite length_app, !length_take, Hl, (Nat.min_l k), (Nat.min_l (length b - k)) by lia.
    replace (k + (length b - k))%nat with (length b) by lia. rewrite Nat.eqb_refl. unfold finish_binary.
    rewrite Hbulk, drop_app_ge by (subst k; lia). rewrite drop_app_le by (subst k; lia).
    rewrite no_crlf_start; [done| |].
    - intros Hin. apply Hcr. by apply (subseteq_drop (length b - k - length h) b).
    - intros Hd. apply (f_equal length) in Hd. rewrite length_drop in Hd. cbn in Hd. subst k. lia. }
  rewrite <- Hall in H2 |- *. cbn [app] in H2 |- *. by rewrite H2.
Qed.

(** ** The text protocol *)

Inductive TextCall : Type :=
| TSet (key value : bytes)
| TGet (key : bytes)
| TDel (key : bytes)
| TSadd (key member : bytes) (members : list bytes)
| TSrem (key member : bytes) (members : list bytes)
| TScard (key : bytes)
| TSismember (key member : bytes).

Definition words_of (k : TextCall) : list bytes :=
  match k with
  | TSet key value => [ascii_bytes "SET"; key; value]
  | TGet key => [ascii_bytes "GET"; key]
  | TDel key => [ascii_bytes "DEL"; key]
  | TSadd key m ms => ascii_bytes "SADD" :: key :: m :: ms
  | TSrem key m ms => ascii_bytes "SREM" :: key :: m :: ms
  | TScard key => [ascii_bytes "SCARD"; key]
  | TSismember key m => [ascii_bytes "SISMEMBER"; key; m]
  end.

(** The reply to a call and the keyspace after it. *)
Definition text_spec (g : gmap bytes AVal) (k : TextCall) : bytes * gmap bytes AVal :=
  match k with
  | TSet key value => (line "+OK", <[key := AStr value]> g)
  | TGet key =>
      (match g !! key with
       | None => nil_text
       | Some (AStr s) => if is_utf8 s then 43 :: s ++ CRLF else line "-ERR Invalid UTF-8"
       | Some _ => line "-ERR Unsupported type"
       end, g)
  | TDel key => (zero_or_one (bool_decide (is_Some (g !! key))), delete key g)
  | TSadd key m ms =>
      if not_set g key then (line "-ERR SADD failed", g)
      else (number (size (list_to_set (m :: ms) ∖ set_of g key)),
            <[key := ASet (set_of g key ∪ list_to_set (m :: ms))]> g)
  | TSrem key m ms =>
      if not_set g key then (line "-ERR SREM failed", g)
      else (number (size (set_of g key ∩ list_to_set (m :: ms))),
            if set_at g key then put_set key (set_of g key ∖ list_to_set (m :: ms)) g else g)
  | TScard key => (if not_set g key then line "-ERR SCARD failed" else number (size (set_of g key)), g)
  | TSismember key m =>
      (if not_set g key then line "-ERR SISMEMBER failed" else zero_or_one (bool_decide (m ∈ set_of g key)), g)
  end.

Abbreviation process_command := (Server.process_command).

(** A line is answered and taken out of the buffer. *)
Lemma line_answered seed now words rest b w response c m m' :
  Forall word words -> head words = Some (b :: w) -> b < 128 -> is_whitespace [b] = false -> is_zsp b = false ->
  ascii_upper b <> 81 -> recv_buf c = [] ->
  process_command seed (text_line words) m = Some (response, m') ->
  exists c', turn (Read (text_line words ++ rest) seed now) c m = Some (Continue, c', m') /\
    sent c' = sent c ++ response /\ recv_buf c' = rest /\ decoder c' = decoder c.
Proof.
  intros Hw Hh Hb Hws Hz Hq Hbuf Hp. destruct c as [buf st sn inf]. cbn [recv_buf] in Hbuf. subst buf.
  assert (exists t, text_line words = b :: t) as (t & Ht).
  { destruct words as [|w0 words]; [done|]. injection Hh as ->. destruct words; by eexists. }
  assert (take_line (text_line words ++ rest) = Some (text_line words, rest)) as Htl.
  { clear -Hw. induction Hw as [|w words Hw Hws IH]; [done|].
    assert (forall l r, take_line r = Some (l, rest) -> 10 ∉ w -> take_line (w ++ r) = Some (w ++ l, rest)) as Ha.
    { clear. intros l r Hr Hn. induction w as [|x w IH]; [done|]. apply not_elem_of_cons in Hn as [Hx Hn].
      cbn [app take_line]. rewrite (proj2 (Z.eqb_neq x LF)) by (by intros ->). by rewrite (IH Hn). }
    destruct words as [|w' words].
    - cbn [text_line]. rewrite <- app_assoc. apply Ha; [done|by apply word_no_lf].
    - change (text_line (w :: w' :: words)) with (w ++ 32 :: text_line (w' :: words)). rewrite <- app_assoc.
      apply Ha; [|by apply word_no_lf]. cbn [app take_line]. change (32 =? LF) with false. cbn iota. by rewrite IH. }
  cbn [Server.turn note with_buffer recv_buf decoder sent info app]. unfold process_buffer.
  cbn [note with_buffer recv_buf decoder sent info]. rewrite Htl, Ht. cbn [app]. rewrite Hz.
  unfold process_line. rewrite <- Ht, from_utf8_lossy_valid, Hp by (by apply text_line_utf8).
  assert (upper_is (trim (text_line words)) "QUIT" = false) as ->.
  { rewrite Ht. destruct (trim_head b t Hb Hws) as (t' & ->). apply not_true_iff_false. intros Hu.
    apply upper_head in Hu; [|done]. by apply Hq. }
  rewrite andb_false_r. eexists. split; [done|]. done.
Qed.

Lemma answer_ok {A} (c : action M A) ok failure m x m' :
  c m = Some (Ok x, m') -> answer c ok failure m = Some (ok x, m').
Proof. intros H. unfold answer. by rewrite H. Qed.

Lemma answer_err {A} (c : action M A) ok failure m e m' :
  c m = Some (Err e, m') -> answer c ok failure m = Some (line failure, m').
Proof. intros H. unfold answer. by rewrite H. Qed.

(** The command of a line whose words are known. *)
Lemma text_command seed k m g : store_repr m g -> Forall word (words_of k) ->
  exists m', process_command seed (text_line (words_of k)) m = Some ((text_spec g k).1, m') /\ store_repr m' (text_spec g k).2.
Proof.
  intros Hm Hw. unfold Server.process_command. rewrite split_text_line by done.
  destruct k as [key v|key|key|key x xs|key x xs|key|key x]; cbn [words_of text_spec].
  - destruct (wp_elim _ _ _ (law_set m g key (VStr v) (AStr v) Hm (DStr v))) as (r & m' & Hst & -> & Hm').
    exists m'. split; [exact (answer_ok _ (fun _ => line "+OK") _ m _ m' Hst)|done].
  - destruct (wp_elim _ _ _ (law_get m g key Hm)) as (r & m' & Hst & v & -> & Hv & Hm').
    exists m'. split; [|done]. etrans; [exact (answer_ok _ text_get _ m _ m' Hst)|]. cbn [fst]. do 2 f_equal.
    destruct v as [v|]; cbn [denotes_opt] in Hv; destruct (g !! key) as [a|]; try done. by inversion Hv.
  - destruct (wp_elim _ _ _ (law_del m g key Hm)) as (r & m' & Hst & -> & Hm').
    exists m'. split; [exact (answer_ok _ zero_or_one _ m _ m' Hst)|done].
  - destruct (wp_elim _ _ _ (law_sadd m g key (x :: xs) Hm)) as (r & m' & Hst & Hr).
    destruct (not_set g key); [destruct Hr as (e & -> & _ & Hm')|destruct Hr as [-> Hm']]; exists m'; split; try done.
    + exact (answer_err _ number _ m e m' Hst).
    + exact (answer_ok _ number "-ERR SADD failed" m _ m' Hst).
  - destruct (wp_elim _ _ _ (law_srem m g key (x :: xs) Hm)) as (r & m' & Hst & Hr).
    destruct (not_set g key); [destruct Hr as (e & -> & _ & Hm')|destruct Hr as [-> Hm']]; exists m'; split; try done.
    + exact (answer_err _ number _ m e m' Hst).
    + exact (answer_ok _ number "-ERR SREM failed" m _ m' Hst).
  - destruct (wp_elim _ _ _ (law_scard m g key Hm)) as (r & m' & Hst & Hm' & Hr). exists m'. split; [|done].
    destruct (not_set g key); [destruct Hr as (e & -> & _)|subst r].
    + exact (answer_err _ number _ m e m' Hst).
    + exact (answer_ok _ number "-ERR SCARD failed" m _ m' Hst).
  - destruct (wp_elim _ _ _ (law_sismember m g key x Hm)) as (r & m' & Hst & Hm' & Hr). exists m'. split; [|done].
    destruct (not_set g key); [destruct Hr as (e & -> & _)|subst r].
    + exact (answer_err _ zero_or_one _ m e m' Hst).
    + exact (answer_ok _ zero_or_one "-ERR SISMEMBER failed" m _ m' Hst).
Qed.

(** C25. The text protocol: a line with a command on keys or sets is answered as
    by one finite map, over any engine that keeps the laws of the storage
    interface, and is taken out of the buffer; what arrived behind the line stays
    there, unanswered until the next read. *)
Theorem text_calls_refine_map (seed : nat) (now : Z) (k : TextCall) (rest : bytes) (c : Connection) (m : M) (g : gmap bytes AVal) :
  recv_buf c = [] -> store_repr m g -> Forall word (words_of k) ->
  exists c' m', turn (Read (text_line (words_of k) ++ rest) seed now) c m = Some (Continue, c', m') /\
    sent c' = sent c ++ (text_spec g k).1 /\ store_repr m' (text_spec g k).2 /\
    recv_buf c' = rest /\ decoder c' = decoder c.
Proof.
  intros Hb Hm Hw. destruct (text_command seed k m g Hm Hw) as (m' & Hp & Hm').
  destruct (line_answered seed now (words_of k) rest (hd 0 (hd [] (words_of k))) (tl (hd [] (words_of k)))
    (text_spec g k).1 c m m') as (c' & Ht & Hs & Hr & Hd); try done.
  1-5: by destruct k.
  by exists c', m'.
Qed.
End Server.

(** ** Witnesses *)

#[local] Existing Instance CommandRefinement.first_rand.
#[local] Existing Instance Memory.memory_ops.
#[local] Existing Instance Memory.memory_laws.

#[local] Instance ex_json : Json := {| json := unit; json_from_str := fun _ => None; json_to_string := fun _ => [] |}.

(** An engine without the geographic commands. *)
#[local] Instance ex_geo (M : Type) : GeoOps M := {|
  st_geo_add := fun _ _ _ _ => araise (NotImplemented "geo");
  st_geo_pos := fun _ _ => araise (NotImplemented "geo");
  st_geo_dist := fun _ _ _ _ => araise (NotImplemented "geo");
  st_geo_radius := fun _ _ _ _ _ => araise (NotImplemented "geo");
  st_geo_radius_by_member := fun _ _ _ _ => araise (NotImplemented "geo");
|}.

Definition ex_wrapped (e : StoreError) : bytes := ascii_bytes "error".
Definition ex_connection : Connection := new_connection (info_new 1 (mkAddr (ascii_bytes "10.0.0.1") 4000) 0).
Definition ex_store : @Memory.InMemoryStore unit := Memory.new.

Definition ex_calls : list Call :=
  [KSet (ascii_bytes "a") (VStr [0; 255]); KSet (ascii_bytes "b") (VInt (-7)); KGet (ascii_bytes "a");
   KGet (ascii_bytes "b"); KDel (ascii_bytes "a"); KGet (ascii_bytes "a")].

Lemma client_calls_refine_map_witness :
  (fst ∘ fst <$> exchanges ex_max_items ex_as_f64 ex_wrapped 0 1 ex_calls ex_connection ex_store) =
    Some [AnsSet (Ok tt); AnsSet (Ok tt); AnsGet (Ok (Some (VStr [0; 255])));
          AnsGet (Err (ServerError (ascii_bytes "ERR Unsupported type"))); AnsDel (Ok true); AnsGet (Ok None)] /\
  exists answers c' m' g', exchanges ex_max_items ex_as_f64 ex_wrapped 0 1 ex_calls ex_connection ex_store = Some (answers, c', m') /\
    calls_mean ∅ ex_calls answers g' /\ store_repr m' g' /\ ready c'.
Proof.
  split; [by vm_compute|].
  apply (client_calls_refine_map ex_max_items ex_as_f64 ex_wrapped); [by vm_compute|done|apply Memory.keyspace_empty| |].
  - intros k s. by rewrite lookup_empty.
  - unfold ex_calls. repeat (apply Forall_cons; split); [..|by apply Forall_nil]; try (by vm_compute).
    all: split; [by vm_compute|]. all: cbn [sendable_value]; [unfold short; by vm_compute|split; by vm_compute].
Defined.

Lemma request_in_two_reads_witness :
  let request := number_line 42 2 ++ (43 :: ascii_bytes "GET" ++ CRLF) ++ 43 :: ascii_bytes "a" ++ CRLF in
  send_command (CGet (ascii_bytes "a")) = Ok request /\
  exists c', Server.run ex_max_items ex_as_f64 ex_wrapped
      [Read (take 10 request) 0 1; Read (drop 10 request) 0 1] ex_connection ex_store = Some (Continue, c', ex_store) /\
    sent c' = sent ex_connection ++ line "-ERR parse: GET: invalid key" /\ ready c'.
Proof. apply (request_in_two_reads ex_max_items ex_as_f64 ex_wrapped); [by vm_compute|done|split; by vm_compute]. Defined.

Lemma response_in_two_reads_witness :
  let b := replicate (Z.to_nat 5000) 65 in
  encode (get_frame (Some (VStr b))) = Ok (bulk b) /\
  receive_response ex_max_items ex_as_f64 [take (Z.to_nat 4096) (bulk b); drop (Z.to_nat 4096) (bulk b)] [] Initial =
    Some (Err (ClientFailed (DecodingError (UnexpectedEof "Expected CRLF"))), Initial).
Proof.
  apply (response_in_two_reads ex_max_items ex_as_f64).
  - rewrite length_replicate. lia.
  - by vm_compute.
  - intros Hin. apply elem_of_replicate in Hin as [Hin _]. lia.
Defined.

Lemma text_calls_refine_map_witness :
  exists c' m', turn ex_max_items ex_as_f64 ex_wrapped
      (Read (text_line (words_of (TSadd (ascii_bytes "k") (ascii_bytes "x") [ascii_bytes "y"])) ++ ascii_bytes "GET") 0 1)
      ex_connection ex_store = Some (Continue, c', m') /\
    sent c' = line ":2" /\ recv_buf c' = ascii_bytes "GET".
Proof.
  assert (forall s, s <> EmptyString -> Forall (fun b => 33 <= b < 127) (ascii_bytes s) -> word (ascii_bytes s)) as Hw.
  { intros s Hs Ha. apply ascii_word; [by destruct s|done]. }
  destruct (text_calls_refine_map ex_max_items ex_as_f64 ex_wrapped 0 1
    (TSadd (ascii_bytes "k") (ascii_bytes "x") [ascii_bytes "y"]) (ascii_bytes "GET") ex_connection ex_store ∅)
    as (c' & m' & Ht & Hs & _ & Hr & _); [done|apply Memory.keyspace_empty| |].
  - cbn [words_of]. repeat (apply Forall_cons; split); [..|by apply Forall_nil]; (apply Hw; [done|]);
      repeat (apply Forall_cons; split); try (by apply Forall_nil); by vm_compute.
  - exists c', m'. split; [exact Ht|]. split; [|exact Hr]. rewrite Hs. by vm_compute.
Defined.
