(* ===== verification/Slots.v ===== *)
(** * Slots and their migration

    Models [src/src/engine/slot_manager.rs]: the slot of a key (CRC16 and hash
    tags), the shard of a slot, the counters of the load, the plans of rebalancing
    and the life of a migration, with the ring of consistent hashing; and the
    planning of [src/src/engine/rebalancer.rs].  The hash of [DefaultHasher] is
    open.  A lock is held by one call at a time, so a call is a step. *)
From S2P Require Import Prelude Interfaces Numbers ZdbValue.
Local Open Scope Z_scope.

Definition TOTAL_SLOTS : Z := 16384.
Definition HOT_KEY_THRESHOLD : Z := 100.
Definition MIGRATION_BATCH_SIZE : nat := 64.
(** 1.5 *)
Definition REBALANCE_THRESHOLD : f64 := mkF64 0x3FF8000000000000.

(** ** The slot of a key *)

Definition CRC16_TAB : list Z :=
  [
   0x0000; 0x1021; 0x2042; 0x3063; 0x4084; 0x50a5; 0x60c6; 0x70e7; 0x8108; 0x9129; 0xa14a; 0xb16b; 0xc18c; 0xd1ad; 0xe1ce; 0xf1ef;
   0x1231; 0x0210; 0x3273; 0x2252; 0x52b5; 0x4294; 0x72f7; 0x62d6; 0x9339; 0x8318; 0xb37b; 0xa35a; 0xd3bd; 0xc39c; 0xf3ff; 0xe3de;
   0x2462; 0x3443; 0x0420; 0x1401; 0x64e6; 0x74c7; 0x44a4; 0x5485; 0xa56a; 0xb54b; 0x8528; 0x9509; 0xe5ee; 0xf5cf; 0xc5ac; 0xd58d;
   0x3653; 0x2672; 0x1611; 0x0630; 0x76d7; 0x66f6; 0x5695; 0x46b4; 0xb75b; 0xa77a; 0x9719; 0x8738; 0xf7df; 0xe7fe; 0xd79d; 0xc7bc;
   0x48c4; 0x58e5; 0x6886; 0x78a7; 0x0840; 0x1861; 0x2802; 0x3823; 0xc9cc; 0xd9ed; 0xe98e; 0xf9af; 0x8948; 0x9969; 0xa90a; 0xb92b;
   0x5af5; 0x4ad4; 0x7ab7; 0x6a96; 0x1a71; 0x0a50; 0x3a33; 0x2a12; 0xdbfd; 0xcbdc; 0xfbbf; 0xeb9e; 0x9b79; 0x8b58; 0xbb3b; 0xab1a;
   0x6ca6; 0x7c87; 0x4ce4; 0x5cc5; 0x2c22; 0x3c03; 0x0c60; 0x1c41; 0xedae; 0xfd8f; 0xcdec; 0xddcd; 0xad2a; 0xbd0b; 0x8d68; 0x9d49;
   0x7e97; 0x6eb6; 0x5ed5; 0x4ef4; 0x3e13; 0x2e32; 0x1e51; 0x0e70; 0xff9f; 0xefbe; 0xdfdd; 0xcffc; 0xbf1b; 0xaf3a; 0x9f59; 0x8f78;
   0x9188; 0x81a9; 0xb1ca; 0xa1eb; 0xd10c; 0xc12d; 0xf14e; 0xe16f; 0x1080; 0x00a1; 0x30c2; 0x20e3; 0x5004; 0x4025; 0x7046; 0x6067;
   0x83b9; 0x9398; 0xa3fb; 0xb3da; 0xc33d; 0xd31c; 0xe37f; 0xf35e; 0x02b1; 0x1290; 0x22f3; 0x32d2; 0x4235; 0x5214; 0x6277; 0x7256;
   0xb5ea; 0xa5cb; 0x95a8; 0x8589; 0xf56e; 0xe54f; 0xd52c; 0xc50d; 0x34e2; 0x24c3; 0x14a0; 0x0481; 0x7466; 0x6447; 0x5424; 0x4405;
   0xa7db; 0xb7fa; 0x8799; 0x97b8; 0xe75f; 0xf77e; 0xc71d; 0xd73c; 0x26d3; 0x36f2; 0x0691; 0x16b0; 0x6657; 0x7676; 0x4615; 0x5634;
   0xd94c; 0xc96d; 0xf90e; 0xe92f; 0x99c8; 0x89e9; 0xb98a; 0xa9ab; 0x5844; 0x4865; 0x7806; 0x6827; 0x18c0; 0x08e1; 0x3882; 0x28a3;
   0xcb7d; 0xdb5c; 0xeb3f; 0xfb1e; 0x8bf9; 0x9bd8; 0xabbb; 0xbb9a; 0x4a75; 0x5a54; 0x6a37; 0x7a16; 0x0af1; 0x1ad0; 0x2ab3; 0x3a92;
   0xfd2e; 0xed0f; 0xdd6c; 0xcd4d; 0xbdaa; 0xad8b; 0x9de8; 0x8dc9; 0x7c26; 0x6c07; 0x5c64; 0x4c45; 0x3ca2; 0x2c83; 0x1ce0; 0x0cc1;
   0xef1f; 0xff3e; 0xcf5d; 0xdf7c; 0xaf9b; 0xbfba; 0x8fd9; 0x9ff8; 0x6e17; 0x7e36; 0x4e55; 0x5e74; 0x2e93; 0x3eb2; 0x0ed1; 0x1ef0].

(** One byte: the table has an entry for every index there is. *)
Definition crc16_step (crc byte : Z) : Z :=
  Z.lxor (wrapu 16 (Z.shiftl crc 8)) (nth (Z.to_nat (Z.lxor (Z.shiftr crc 8) byte)) CRC16_TAB 0).

Definition crc16 (data : bytes) : Z := foldl crc16_step 0 data.

(** [find] of a byte of ASCII: what is before it and what is after it. *)
Fixpoint split_at (c : Z) (s : bytes) : option (bytes * bytes) :=
  match s with
  | [] => None
  | b :: s => if b =? c then Some ([], s) else '(l, r) ← split_at c s; Some (b :: l, r)
  end.

(** The part of a key that is hashed: what the first braces hold, if anything. *)
Definition hash_key (key : bytes) : bytes :=
  match split_at 123 key with
  | Some (_, rest) =>
      match split_at 125 rest with
      | Some (tag, _) => if bool_decide (tag = []) then key else tag
      | None => key
      end
  | None => key
  end.

Definition calculate_slot (key : bytes) : Z := crc16 (hash_key key) mod TOTAL_SLOTS.

(** ** The state *)

Inductive SlotState : Type :=
| Stable (shard : nat)
| Migrating (from to : nat) (progress : f64)
| Importing (from to : nat) (progress : f64).

(** The maps in the order of their iteration. *)
Record LoadMetrics : Type := mkLoad {
  operations_per_second : list (nat * Z);
  hot_keys : list (bytes * Z);
  slot_access_count : list (Z * Z);
}.

Record MigrationTask : Type := mkTask {
  task_slot : Z; from_shard : nat; to_shard : nat; migrated_keys : Z; total_keys : Z;
}.

Record SlotManager : Type := mkSlotManager {
  slot_assignments : list SlotState;
  slot_map_version : Z;
  shard_ops : list Z;
  slot_access : list Z;
  load_metrics : LoadMetrics;
  active_migrations : gmap Z MigrationTask;
  migration_queue : list (Z * nat * nat);
  shard_count : nat;
  last_rebalance : Z;
}.

Definition REBALANCE_INTERVAL : Z := 30 * 1000000000.

Definition slots : list nat := seq 0 (Z.to_nat TOTAL_SLOTS).

(** [None] is the remainder by zero of a manager without shards. *)
Definition new (shard_count : nat) (now : Z) : option SlotManager :=
  if (shard_count =? 0)%nat then None
  else
    Some (mkSlotManager ((fun slot => Stable (slot mod shard_count)) <$> slots) 1
      (replicate shard_count 0) ((fun _ => 0) <$> slots) (mkLoad [] [] []) ∅ [] shard_count now).

Definition with_assignments (a : list SlotState) (v : Z) (t : gmap Z MigrationTask) (m : SlotManager) : SlotManager :=
  mkSlotManager a v (shard_ops m) (slot_access m) (load_metrics m) t (migration_queue m) (shard_count m) (last_rebalance m).
Definition with_counters (ops access : list Z) (m : SlotManager) : SlotManager :=
  mkSlotManager (slot_assignments m) (slot_map_version m) ops access (load_metrics m) (active_migrations m)
    (migration_queue m) (shard_count m) (last_rebalance m).
Definition with_queue (q : list (Z * nat * nat)) (now : Z) (m : SlotManager) : SlotManager :=
  mkSlotManager (slot_assignments m) (slot_map_version m) (shard_ops m) (slot_access m) (load_metrics m)
    (active_migrations m) q (shard_count m) now.

Definition shard_of_state (s : SlotState) : nat :=
  match s with Stable s => s | Migrating from _ _ => from | Importing _ to _ => to end.

Definition get_slot_shard (slot : Z) (m : SlotManager) : option nat :=
  shard_of_state <$> slot_assignments m !! Z.to_nat slot.

Definition get_key_shard (key : bytes) (m : SlotManager) : nat :=
  default 0%nat (get_slot_shard (calculate_slot key) m).

(** [fetch_add] on an element, when there is one. *)
Definition bump (i : nat) (l : list Z) : list Z := alter (fun n => wrapu 64 (n + 1)) i l.

Definition record_operation (key : bytes) (m : SlotManager) : SlotManager :=
  with_counters (bump (get_key_shard key m) (shard_ops m)) (bump (Z.to_nat (calculate_slot key)) (slot_access m)) m.

Definition reset_metrics (m : SlotManager) : SlotManager :=
  mkSlotManager (slot_assignments m) (slot_map_version m) ((fun _ => 0) <$> shard_ops m) ((fun _ => 0) <$> slot_access m)
    (mkLoad [] [] []) (active_migrations m) (migration_queue m) (shard_count m) (last_rebalance m).

(** ** Migrations *)

Inductive SlotManagerError : Type :=
| MigrationActive (slot : Z) | NoActiveMigration (slot : Z) | InvalidSlot (slot : Z).

Definition start_slot_migration (slot : Z) (from to : nat) (m : SlotManager) : result SlotManagerError unit * SlotManager :=
  match active_migrations m !! slot with
  | Some _ => (Err (MigrationActive slot), m)
  | None =>
      if (length (slot_assignments m) <=? Z.to_nat slot)%nat then (Err (InvalidSlot slot), m)
      else
        (Ok tt, with_assignments (<[Z.to_nat slot := Migrating from to (mkF64 0)]> (slot_assignments m))
           (wrapu 64 (slot_map_version m + 1))
           (<[slot := mkTask slot from to 0 0]> (active_migrations m)) m)
  end.

(** The end of a migration: the slot gets the shard that [choose] names. *)
Definition end_migration (choose : MigrationTask -> nat) (slot : Z) (m : SlotManager) : result SlotManagerError unit * SlotManager :=
  match active_migrations m !! slot with
  | None => (Err (NoActiveMigration slot), m)
  | Some migration =>
      if (length (slot_assignments m) <=? Z.to_nat slot)%nat then (Err (InvalidSlot slot), m)
      else
        (Ok tt, with_assignments (<[Z.to_nat slot := Stable (choose migration)]> (slot_assignments m))
           (wrapu 64 (slot_map_version m + 1)) (delete slot (active_migrations m)) m)
  end.

Definition complete_slot_migration : Z -> SlotManager -> result SlotManagerError unit * SlotManager := end_migration to_shard.
Definition rollback_migration : Z -> SlotManager -> result SlotManagerError unit * SlotManager := end_migration from_shard.

Definition progress_of (t : MigrationTask) : f64 :=
  if 0 <? total_keys t then f64_div (f64_of_int (migrated_keys t)) (f64_of_int (total_keys t)) else mkF64 0.

Definition get_migration_status (m : SlotManager) : list (Z * nat * nat * f64) :=
  (fun t => (task_slot t, from_shard t, to_shard t, progress_of t)) <$> (map_to_list (active_migrations m)).*2.

(** ** Load *)

Definition max_load (l : list Z) : Z := foldr Z.max 0 l.
Definition min_load (l : list Z) : Z := match l with [] => 0 | x :: l => foldr Z.min x l end.

(** The tests on the loads that both ways of [should_rebalance] end with. *)
Definition unbalanced (loads : list Z) : bool :=
  let max_load := f64_of_int (max_load loads) in
  let min_load := f64_of_int (min_load loads) in
  if f64_eq min_load (mkF64 0) then f64_ltb (mkF64 0) max_load
  else f64_ltb REBALANCE_THRESHOLD (f64_div max_load min_load).

Definition should_rebalance (now : Z) (m : SlotManager) : bool :=
  let per_second := operations_per_second (load_metrics m) in
  if (now - last_rebalance m <? REBALANCE_INTERVAL) && bool_decide (per_second = []) then false
  else if negb (bool_decide (per_second = [])) then
    if (length per_second <? 2)%nat then false else unbalanced per_second.*2
  else
    let loads := take (shard_count m) (shard_ops m) in
    if (length loads <? 2)%nat then false
    else if forallb (fun x => x =? 0) loads then false
    else unbalanced loads.

(** A stable sort by the load. *)
Fixpoint insert_by {A} (before : A -> A -> bool) (x : A) (l : list A) : list A :=
  match l with
  | [] => [x]
  | y :: l => if before y x then y :: insert_by before x l else x :: y :: l
  end.
Definition sort_by {A} (before : A -> A -> bool) (l : list A) : list A := foldl (fun l x => insert_by before x l) [] l.

Definition most_first : list (nat * Z) -> list (nat * Z) := sort_by (fun a b => b.2 <=? a.2).
Definition least_first : list (nat * Z) -> list (nat * Z) := sort_by (fun a b => a.2 <=? b.2).

Definition overloaded (avg : f64) (loads : list (nat * Z)) : list (nat * Z) :=
  List.filter (fun x => f64_ltb (f64_mul avg REBALANCE_THRESHOLD) (f64_of_int x.2)) loads.
Definition underloaded (avg : f64) (loads : list (nat * Z)) : list (nat * Z) :=
  List.filter (fun x => f64_ltb (f64_of_int x.2) (f64_div avg REBALANCE_THRESHOLD)) loads.

(** The stable slots of a shard that are accessed often. *)
Definition hot_slots (shard : nat) (access : nat -> option Z) (assignments : list SlotState) : list Z :=
  omap (fun e : nat * SlotState =>
    match e.2 with
    | Stable s =>
        if (s =? shard)%nat then
          match access e.1 with
          | Some n => if HOT_KEY_THRESHOLD <? n then Some (Z.of_nat e.1) else None
          | None => None
          end
        else None
    | _ => None
    end) (zip (seq 0 (length assignments)) assignments).

(** The loops of the plan from the aggregated metrics: a batch for every pair of
    shards, until the plan has as many. *)
Fixpoint plan_inner (ov : nat) (slots_of : list Z) (under : list (nat * Z)) (migrations : list (Z * nat * nat)) : list (Z * nat * nat) :=
  match under with
  | [] => migrations
  | (ud, _) :: under =>
      let migrations := migrations ++ ((fun slot => (slot, ov, ud)) <$> take MIGRATION_BATCH_SIZE slots_of) in
      if (MIGRATION_BATCH_SIZE <=? length migrations)%nat then migrations else plan_inner ov slots_of under migrations
  end.

Fixpoint plan_outer (slots_of : nat -> list Z) (over under : list (nat * Z)) (migrations : list (Z * nat * nat)) : list (Z * nat * nat) :=
  match over with
  | [] => migrations
  | (ov, _) :: over =>
      let migrations := plan_inner ov (slots_of ov) under migrations in
      if (MIGRATION_BATCH_SIZE <=? length migrations)%nat then migrations else plan_outer slots_of over under migrations
  end.

Definition sum_u64 (l : list Z) : Z := foldl (fun a x => wrapu 64 (a + x)) 0 l.

(** The plan from the aggregated metrics, if there are any. *)
Definition plan_from_metrics (m : SlotManager) : list (Z * nat * nat) :=
  let metrics := load_metrics m in
  let per_second := operations_per_second metrics in
  if bool_decide (per_second = []) then []
  else
    let avg := f64_div (f64_of_int (sum_u64 per_second.*2)) (f64_of_int (Z.of_nat (length per_second))) in
    plan_outer (fun ov => hot_slots ov (fun i => hm_get (Z.of_nat i) (slot_access_count metrics)) (slot_assignments m))
      (most_first (overloaded avg per_second))
      (least_first (underloaded avg (List.filter (fun x => negb (f64_ltb (f64_mul avg REBALANCE_THRESHOLD) (f64_of_int x.2))) per_second)))
      [].

(** All pairs of a hot slot and a shard with little load, the first ones. *)
Definition plan_pairs (over under : list (nat * Z)) (m : SlotManager) : list (Z * nat * nat) :=
  take MIGRATION_BATCH_SIZE
    (concat ((fun ov =>
      concat ((fun ud => (fun slot => (slot, ov.1, ud.1)) <$> hot_slots ov.1 (fun i => slot_access m !! i) (slot_assignments m)) <$> under))
      <$> over)).

(** The plan from the counters. *)
Definition plan_from_counters (m : SlotManager) : list (Z * nat * nat) :=
  let loads := zip (seq 0 (shard_count m)) (shard_ops m) in
  let total := sum_u64 loads.*2 in
  if total =? 0 then []
  else
    let avg := f64_div (f64_of_int total) (f64_of_int (Z.of_nat (shard_count m))) in
    plan_pairs (most_first (overloaded avg loads)) (least_first (underloaded avg loads)) m.

Definition queue_plan (now : Z) (migrations : list (Z * nat * nat)) (m : SlotManager) : SlotManager :=
  if bool_decide (migrations = []) then m else with_queue (migration_queue m ++ migrations) now m.

Definition trigger_rebalance (now : Z) (m : SlotManager) : list (Z * nat * nat) * SlotManager :=
  let migrations := if bool_decide (plan_from_metrics m = []) then plan_from_counters m else plan_from_metrics m in
  (migrations, queue_plan now migrations m).

Definition get_hot_keys (m : SlotManager) : list (bytes * Z) :=
  sort_by (fun a b => b.2 <=? a.2) (List.filter (fun kc => HOT_KEY_THRESHOLD <? kc.2) (hot_keys (load_metrics m))).

(** The share of every shard, in the order of the shards. *)
Definition get_load_distribution (m : SlotManager) : list (nat * f64) :=
  let loads := zip (seq 0 (shard_count m)) (shard_ops m) in
  let total := sum_u64 loads.*2 in
  if total =? 0 then [] else (fun x => (x.1, f64_div (f64_of_int x.2) (f64_of_int total))) <$> loads.

(** The background thread of a cluster: it starts what was planned. *)
Definition rebalancer_check (now : Z) (m : SlotManager) : SlotManager :=
  if should_rebalance now m then
    let '(migrations, m) := trigger_rebalance now m in
    foldl (fun m mig => (start_slot_migration mig.1.1 mig.1.2 mig.2 m).2) m migrations
  else m.

(** What the advanced rebalancer does with a plan: it starts and completes every
    migration at once, and counts the completed ones. *)
Definition execute_migrations (migrations : list (Z * nat * nat)) (m : SlotManager) : nat * SlotManager :=
  foldl (fun acc mig =>
    match start_slot_migration mig.1.1 mig.1.2 mig.2 acc.2 with
    | (Ok _, m) =>
        match complete_slot_migration mig.1.1 m with
        | (Ok _, m) => (S acc.1, m)
        | (Err _, m) => (acc.1, m)
        end
    | (Err _, m) => (acc.1, m)
    end) (0%nat, m) migrations.

(** ** The advanced rebalancer *)

Inductive RebalanceTrigger : Type :=
| LoadImbalance (max_load min_load : f64)
| HotKeyDetected (key : bytes) (ops_per_sec : Z)
| ManualTrigger
| ShardAddition
| ShardRemoval.

Record RebalancerConfig : Type := mkRebalancerConfig {
  load_threshold : f64; hot_key_threshold : Z; migration_batch_size : nat; cool_down_period : Z;
  enable_consistent_hashing : bool;
}.

(** 1.5, and 60 seconds *)
Definition default_config : RebalancerConfig := mkRebalancerConfig (mkF64 0x3FF8000000000000) 100 64 (60 * 1000000000) false.

Record RebalanceEvent : Type := mkEvent {
  trigger_reason : RebalanceTrigger; migrations_planned : nat; migrations_completed : nat;
  load_before : list (nat * f64); load_after : list (nat * f64);
}.

Record AdvancedRebalancer : Type := mkRebalancer {
  config : RebalancerConfig; last_executed : Z; rebalance_history : list RebalanceEvent;
}.

(** Whatever the load, there is no trigger. *)
Definition evaluate_rebalancing_need (now : Z) (r : AdvancedRebalancer) (m : SlotManager) : option RebalanceTrigger :=
  if now - last_executed r <? cool_down_period (config r) then None
  else if bool_decide (get_load_distribution m = []) then None
  else None.

(** A loop that stops once the plan has [batch] migrations. *)
Fixpoint until_batch {A} (batch : nat) (body : A -> list (Z * nat * nat) -> list (Z * nat * nat)) (l : list A)
    (migrations : list (Z * nat * nat)) : list (Z * nat * nat) :=
  match l with
  | [] => migrations
  | x :: l =>
      let migrations := body x migrations in
      if (batch <=? length migrations)%nat then migrations else until_batch batch body l migrations
  end.

(** The innermost loop tests the length only after it has added a slot. *)
Fixpoint take_slots (batch from to : nat) (m : SlotManager) (l : list Z) (migrations : list (Z * nat * nat)) : list (Z * nat * nat) :=
  match l with
  | [] => migrations
  | slot :: l =>
      if bool_decide (get_slot_shard slot m = Some from) then
        let migrations := migrations ++ [(slot, from, to)] in
        if (batch <=? length migrations)%nat then migrations else take_slots batch from to m l migrations
      else take_slots batch from to m l migrations
  end.

(** [loads] is the distribution in the order its map is iterated in. *)
Definition plan_load_based_rebalancing (c : RebalancerConfig) (loads : list (nat * f64)) (m : SlotManager) : list (Z * nat * nat) :=
  let total_load := foldl f64_add (mkF64 0) loads.*2 in
  let avg_load := f64_div total_load (f64_of_int (Z.of_nat (length loads))) in
  let is_over := fun x : nat * f64 => f64_ltb (f64_mul avg_load (load_threshold c)) x.2 in
  let is_under := fun x : nat * f64 => f64_ltb x.2 (f64_div avg_load (load_threshold c)) in
  let over := sort_by (fun a b : nat * f64 => negb (f64_ltb a.2 b.2)) (List.filter is_over loads) in
  let under := sort_by (fun a b : nat * f64 => negb (f64_ltb b.2 a.2)) (List.filter (fun x => negb (is_over x) && is_under x) loads) in
  let batch := migration_batch_size c in
  until_batch batch (fun ov => until_batch batch (fun ud =>
    take_slots batch ov.1 ud.1 m (Z.of_nat <$> seq 0 100)) (take 2 under)) (take (batch / 2) over) [].

(** [f64::EPSILON] is 2 to the -52; [None] is the panic of a shard that is not
    in the distribution. *)
Definition same_load (a b : f64) : bool :=
  f64_ltb (mkF64 (f64_magnitude (f64_sub a b))) (mkF64 0x3CB0000000000000).

Definition least_loaded (loads : list (nat * f64)) : nat :=
  match loads with
  | [] => 0%nat
  | x :: loads => (foldl (fun least y => if f64_ltb y.2 least.2 then y else least) x loads).1
  end.

Definition plan_hot_key_redistribution (hot_key : bytes) (loads : list (nat * f64)) (m : SlotManager) : option (list (Z * nat * nat)) :=
  let slot := calculate_slot hot_key in
  let current_shard := get_key_shard hot_key m in
  if bool_decide (loads = []) then Some []
  else
    '(_, current) ← find (fun x => (x.1 =? current_shard)%nat) loads;
    if forallb (fun x => same_load x.2 current) loads then Some []
    else if (least_loaded loads =? current_shard)%nat then Some []
    else Some [(slot, current_shard, least_loaded loads)].

Definition plan_rebalancing (trigger : RebalanceTrigger) (c : RebalancerConfig) (loads : list (nat * f64)) (m : SlotManager)
    : option (list (Z * nat * nat)) :=
  match trigger with
  | LoadImbalance _ _ | ManualTrigger => Some (plan_load_based_rebalancing c loads m)
  | HotKeyDetected key _ => plan_hot_key_redistribution key loads m
  | ShardAddition | ShardRemoval => Some []
  end.

(** [order] is the order of iteration over the map of the loads. *)
Definition execute_rebalancing (order : list (nat * f64) -> list (nat * f64)) (now : Z) (trigger : RebalanceTrigger)
    (r : AdvancedRebalancer) (m : SlotManager) : option (RebalanceEvent * AdvancedRebalancer * SlotManager) :=
  let before := get_load_distribution m in
  migrations ← plan_rebalancing trigger (config r) (order before) m;
  let '(completed, m) := execute_migrations migrations m in
  let event := mkEvent trigger (length migrations) completed before (get_load_distribution m) in
  Some (event, mkRebalancer (config r) now (rebalance_history r ++ [event]), m).

(** ** The ring *)

Section Ring.
(** [DefaultHasher] of a string. *)
Context (hasher : bytes -> Z).

Record ConsistentHashRing : Type := mkRing {
  nodes : gmap Z nat; sorted_hashes : list Z; virtual_nodes_per_shard : nat;
}.

Definition vnode_name (shard vnode : nat) : bytes :=
  ascii_bytes "shard-" ++ fmt_int (Z.of_nat shard) ++ ascii_bytes "-vnode-" ++ fmt_int (Z.of_nat vnode).

Definition sorted_keys (nodes : gmap Z nat) : list Z := merge_sort Z.le (map_to_list nodes).*1.

Definition insert_vnodes (vnodes shard : nat) (nodes : gmap Z nat) : gmap Z nat :=
  foldl (fun ns v => <[hasher (vnode_name shard v) := shard]> ns) nodes (seq 0 vnodes).

Definition ring_new (shards vnodes : nat) : ConsistentHashRing :=
  let nodes := foldl (fun ns shard => insert_vnodes vnodes shard ns) ∅ (seq 0 shards) in
  mkRing nodes (sorted_keys nodes) vnodes.

(** The first hash that is not below the key's, or the first of all; [None] is
    the panic of an empty ring. *)
Definition ring_get_shard (key : bytes) (r : ConsistentHashRing) : option nat :=
  let key_hash := hasher key in
  match find (fun h => key_hash <=? h) (sorted_hashes r) with
  | Some h => nodes r !! h
  | None => h ← head (sorted_hashes r); nodes r !! h
  end.

Definition ring_add_shard (shard : nat) (r : ConsistentHashRing) : ConsistentHashRing :=
  let nodes := insert_vnodes (virtual_nodes_per_shard r) shard (nodes r) in
  mkRing nodes (sorted_keys nodes) (virtual_nodes_per_shard r).

Definition ring_remove_shard (shard : nat) (r : ConsistentHashRing) : ConsistentHashRing :=
  let nodes := filter (fun kv => kv.2 <> shard) (nodes r) in
  mkRing nodes (sorted_keys nodes) (virtual_nodes_per_shard r).
End Ring.
