(* ===== verification/SlotsLaws.v ===== *)
(** * Correctness of slots

    The slot of a key, what a migration does to the routing, and the ring. *)
From S2P Require Import Prelude Interfaces Numbers ZdbValue Crc32 Slots.
Local Open Scope Z_scope.

(** ** CRC16 *)

(** One bit of the division by x^16 + x^12 + x^5 + 1. *)
Definition poly_bit (c : Z) : Z :=
  if Z.testbit c 15 then Z.lxor (wrapu 16 (Z.shiftl c 1)) 0x1021 else wrapu 16 (Z.shiftl c 1).
Definition poly_byte (crc byte : Z) : Z := Nat.iter 8 poly_bit (Z.lxor crc (Z.shiftl byte 8)).

Lemma wrapu_lxor w a b : 0 <= w -> wrapu w (Z.lxor a b) = Z.lxor (wrapu w a) (wrapu w b).
Proof.
  intros Hw. unfold wrapu. rewrite <- !Z.land_ones by done. apply Z.bits_inj'. intros i Hi.
  rewrite !Z.lxor_spec, !Z.land_spec, Z.lxor_spec. destruct (Z.testbit (Z.ones w) i); by rewrite ?andb_true_r, ?andb_false_r.
Qed.

Lemma poly_bit_lxor a b : poly_bit (Z.lxor a b) = Z.lxor (poly_bit a) (poly_bit b).
Proof.
  unfold poly_bit. rewrite Z.lxor_spec, Z.shiftl_lxor, wrapu_lxor by done.
  generalize (wrapu 16 (Z.shiftl a 1)) (wrapu 16 (Z.shiftl b 1)). intros x y.
  destruct (Z.testbit a 15), (Z.testbit b 15); cbn [xorb].
  - rewrite Z.lxor_assoc, (Z.lxor_comm y), <- (Z.lxor_assoc 0x1021), Z.lxor_nilpotent. cbn. by rewrite Z.lxor_0_l.
  - by rewrite !Z.lxor_assoc, (Z.lxor_comm y).
  - by rewrite Z.lxor_assoc.
  - done.
Qed.

Lemma poly_bits_lxor n a b : Nat.iter n poly_bit (Z.lxor a b) = Z.lxor (Nat.iter n poly_bit a) (Nat.iter n poly_bit b).
Proof. induction n as [|n IH]; [done|]. cbn [Nat.iter nat_rect]. unfold Nat.iter in IH. by rewrite IH, poly_bit_lxor. Qed.

(** The low byte only moves up. *)
Lemma poly_low : forallb (fun n => Nat.iter 8 poly_bit (Z.of_nat n) =? Z.shiftl (Z.of_nat n) 8) (seq 0 256) = true.
Proof. by vm_compute. Qed.

(** The table is that of the polynomial. *)
Lemma table_poly : forallb (fun n => Nat.iter 8 poly_bit (Z.shiftl (Z.of_nat n) 8) =? nth n CRC16_TAB 0) (seq 0 256) = true.
Proof. by vm_compute. Qed.

Lemma forallb_byte (f : nat -> bool) b : forallb f (seq 0 256) = true -> is_byte b -> f (Z.to_nat b) = true.
Proof. unfold is_byte. intros H Hb. apply (proj1 (forallb_forall _ _) H). apply in_seq. lia. Qed.

Lemma crc16_step_poly crc b : is_u 16 crc -> is_byte b -> crc16_step crc b = poly_byte crc b /\ is_u 16 (crc16_step crc b).
Proof.
  intros Hc Hb. unfold is_u, is_byte in *.
  assert (is_byte (Z.shiftr crc 8)) as Hhi.
  { rewrite Z.shiftr_div_pow2 by lia. unfold is_byte. split; [apply Z.div_pos; lia|apply Z.div_lt_upper_bound; lia]. }
  pose (hi := Z.lxor (Z.shiftr crc 8) b). pose (lo := crc mod 256).
  assert (is_byte hi) as Hh by (apply (lxor_is_u 8); [lia|exact Hhi|exact Hb]).
  assert (is_byte lo) as Hl by (apply Z.mod_pos_bound; lia).
  assert (Z.lxor crc (Z.shiftl b 8) = Z.lxor (Z.shiftl hi 8) lo) as E.
  { subst hi lo. rewrite Z.shiftl_lxor.
    assert (crc = Z.lxor (Z.shiftl (Z.shiftr crc 8) 8) (crc mod 256)) as Hsplit.
    { apply Z.bits_inj'. intros i Hi. rewrite Z.lxor_spec, Z.shiftl_spec by done. change 256 with (2 ^ 8).
      destruct (decide (i < 8)).
      - rewrite (Z.testbit_neg_r _ (i - 8)), Z.mod_pow2_bits_low by lia. done.
      - rewrite Z.mod_pow2_bits_high, xorb_false_r, Z.shiftr_spec by lia. f_equal. lia. }
    rewrite Hsplit at 1. rewrite !Z.lxor_assoc. f_equal. apply Z.lxor_comm. }
  unfold poly_byte. rewrite E, poly_bits_lxor.
  pose proof (forallb_byte _ hi table_poly Hh) as H1. pose proof (forallb_byte _ lo poly_low Hl) as H2.
  cbv beta in H1, H2. unfold is_byte in Hh, Hl. rewrite Z2Nat.id in H1, H2 by lia. apply Z.eqb_eq in H1, H2. rewrite H1, H2.
  assert (crc16_step crc b = Z.lxor (nth (Z.to_nat hi) CRC16_TAB 0) (Z.shiftl lo 8)) as Hstep.
  { unfold crc16_step. rewrite Z.lxor_comm. f_equal. subst lo. unfold wrapu.
    rewrite !Z.shiftl_mul_pow2 by lia. change (2 ^ 16) with (256 * 2 ^ 8). by rewrite Z.mul_mod_distr_r by lia. }
  split; [done|]. rewrite Hstep. apply (lxor_is_u 16); [lia| |].
  - pose proof (nth_in_or_default (Z.to_nat hi) CRC16_TAB 0) as Hin.
    assert (Forall (is_u 16) CRC16_TAB) as Htab.
    { apply Forall_forall. intros x Hx. assert (forallb (fun x => (0 <=? x) && (x <? 2 ^ 16)) CRC16_TAB = true) as Ht by by vm_compute.
      apply list_elem_of_In in Hx. apply (proj1 (forallb_forall _ _) Ht) in Hx. bool_to_prop. unfold is_u. lia. }
    destruct Hin as [Hin| ->]; [|unfold is_u; lia]. rewrite Forall_forall in Htab. apply Htab. by apply list_elem_of_In.
  - rewrite Z.shiftl_mul_pow2 by lia. unfold is_u. lia.
Qed.

Lemma crc16_poly data : Forall is_byte data -> crc16 data = foldl poly_byte 0 data.
Proof.
  unfold crc16. assert (is_u 16 0) as H0 by done. revert H0. generalize 0. intros c Hc H. revert c Hc.
  induction H as [|b data Hb _ IH]; intros c Hc; [done|]. cbn [foldl].
  destruct (crc16_step_poly c b Hc Hb) as [<- Hu]. by apply IH.
Qed.

(** ** Hash tags *)

Lemma split_at_first c pre rest : c ∉ pre -> split_at c (pre ++ c :: rest) = Some (pre, rest).
Proof.
  induction pre as [|b pre IH]; intros Hn; cbn [app split_at]; [by rewrite Z.eqb_refl|].
  apply not_elem_of_cons in Hn as [Hb Hn]. rewrite (proj2 (Z.eqb_neq b c)) by congruence. by rewrite IH.
Qed.

Lemma split_at_none c s : c ∉ s -> split_at c s = None.
Proof.
  induction s as [|b s IH]; intros Hn; cbn [split_at]; [done|].
  apply not_elem_of_cons in Hn as [Hb Hn]. rewrite (proj2 (Z.eqb_neq b c)) by congruence. by rewrite IH.
Qed.

(** The slot of a key is the remainder of its bytes divided by the polynomial
    of CRC16 (which the table implements), below 16384; of a key with braces only
    what the first pair holds counts, so that keys with one tag share a slot,
    unless the tag is empty or not closed. *)
Theorem slot_of_key (key : bytes) :
  Forall is_byte key ->
  0 <= calculate_slot key < TOTAL_SLOTS /\
  (123 ∉ key -> calculate_slot key = foldl poly_byte 0 key mod TOTAL_SLOTS) /\
  (forall pre tag suf, key = pre ++ 123 :: tag ++ 125 :: suf -> 123 ∉ pre -> 125 ∉ tag ->
     calculate_slot key = foldl poly_byte 0 (if decide (tag = []) then key else tag) mod TOTAL_SLOTS) /\
  (forall pre suf, key = pre ++ 123 :: suf -> 123 ∉ pre -> 125 ∉ suf ->
     calculate_slot key = foldl poly_byte 0 key mod TOTAL_SLOTS).
Proof.
  intros Hb. unfold calculate_slot, hash_key. split; [apply Z.mod_pos_bound; unfold TOTAL_SLOTS; lia|]. split_and!.
  - intros Hn. rewrite split_at_none by done. by rewrite crc16_poly.
  - intros pre tag suf -> Hpre Htag. rewrite split_at_first, split_at_first by done.
    destruct (decide (tag = [])) as [->|Hne]; [by rewrite bool_decide_true, crc16_poly|].
    rewrite bool_decide_false, crc16_poly; [done| |done].
    apply Forall_app in Hb as [_ Hb]. apply Forall_cons in Hb as [_ Hb]. by apply Forall_app in Hb as [Hb _].
  - intros pre suf -> Hpre Hsuf. rewrite split_at_first, split_at_none by done. by rewrite crc16_poly.
Qed.

(** ** Migrations *)

(** The tasks are the slots that migrate. *)
Definition tracked (m : SlotManager) : Prop :=
  forall slot, 0 <= slot -> forall from to,
    (exists t, active_migrations m !! slot = Some t /\ from_shard t = from /\ to_shard t = to) <->
    slot_assignments m !! Z.to_nat slot = Some (Migrating from to (mkF64 0)).

(** A call on a slot number, a [u16]. *)
Inductive slot_call : Type :=
| Start (slot : Z) (from to : nat)
| Complete (slot : Z)
| Rollback (slot : Z)
| Record (key : bytes)
| Rebalance (now : Z)
| ResetLoad.

Definition call_slot (c : slot_call) : option Z :=
  match c with Start slot _ _ | Complete slot | Rollback slot => Some slot | _ => None end.

Definition slot_step (c : slot_call) (m : SlotManager) : SlotManager :=
  match c with
  | Start slot from to => (start_slot_migration slot from to m).2
  | Complete slot => (complete_slot_migration slot m).2
  | Rollback slot => (rollback_migration slot m).2
  | Record key => record_operation key m
  | Rebalance now => rebalancer_check now m
  | ResetLoad => reset_metrics m
  end.

Lemma tracked_start slot from to m : 0 <= slot -> tracked m -> tracked (start_slot_migration slot from to m).2.
Proof.
  intros Hs Ht. unfold start_slot_migration. destruct (active_migrations m !! slot) eqn:Ha; [done|].
  destruct (Nat.leb_spec (length (slot_assignments m)) (Z.to_nat slot)) as [Hl|Hl]; [done|].
  intros k Hk f t. cbn [snd with_assignments active_migrations slot_assignments].
  destruct (decide (k = slot)) as [->|Hne].
  - rewrite lookup_insert_eq, list_lookup_insert_eq by done. split.
    + intros (? & [= <-] & <- & <-). done.
    + intros [= <- <-]. by eexists.
  - rewrite lookup_insert_ne, list_lookup_insert_ne by lia. by apply Ht.
Qed.

Lemma tracked_end choose slot m : 0 <= slot -> tracked m -> tracked (end_migration choose slot m).2.
Proof.
  intros Hs Ht. unfold end_migration. destruct (active_migrations m !! slot) eqn:Ha; [|done].
  destruct (Nat.leb_spec (length (slot_assignments m)) (Z.to_nat slot)) as [Hl|Hl]; [done|].
  intros k Hk f t. cbn [snd with_assignments active_migrations slot_assignments].
  destruct (decide (k = slot)) as [->|Hne].
  - rewrite lookup_delete_eq, list_lookup_insert_eq by done. split; [by intros (? & ? & _)|done].
  - rewrite lookup_delete_ne, list_lookup_insert_ne by lia. by apply Ht.
Qed.

(** ** Routing *)

(** What two managers agree on: the shard of every slot. *)
Definition routes_alike (m m' : SlotManager) : Prop :=
  (shard_of_state <$> slot_assignments m') = (shard_of_state <$> slot_assignments m).

#[global] Instance routes_alike_equiv : Equivalence routes_alike.
Proof. unfold routes_alike. split; [by intros ?|by intros ? ? ->|by intros ? ? ? -> ->]. Qed.

Lemma routes_key m m' key : routes_alike m m' -> get_key_shard key m' = get_key_shard key m.
Proof. intros H. unfold get_key_shard, get_slot_shard. by rewrite <- !list_lookup_fmap, H. Qed.

Lemma start_routes slot from to m : shard_of_state <$> slot_assignments m !! Z.to_nat slot = Some from ->
  routes_alike m (start_slot_migration slot from to m).2.
Proof.
  intros Hs. unfold start_slot_migration. destruct (active_migrations m !! slot); [done|].
  destruct (_ <=? _)%nat; [done|]. unfold routes_alike. cbn [snd with_assignments slot_assignments].
  rewrite list_fmap_insert. apply list_insert_id. by rewrite list_lookup_fmap.
Qed.

(** What is planned leaves the shard that a slot has. *)
Definition planned_well (m : SlotManager) (mig : Z * nat * nat) : Prop :=
  0 <= mig.1.1 /\ shard_of_state <$> slot_assignments m !! Z.to_nat mig.1.1 = Some mig.1.2.

Lemma hot_slots_stable shard access m : Forall (fun slot => planned_well m (slot, shard, shard)) (hot_slots shard access (slot_assignments m)).
Proof.
  apply Forall_forall. intros slot Hin. unfold hot_slots in Hin. apply list_elem_of_omap in Hin as ([i s] & Hin & Hs).
  apply list_elem_of_lookup in Hin as [j Hj]. rewrite lookup_zip_with in Hj.
  destruct (seq 0 (length (slot_assignments m)) !! j) as [i'|] eqn:E1; [|done]. cbn in Hj.
  destruct (slot_assignments m !! j) as [s'|] eqn:E2; [|done]. injection Hj as <- <-.
  apply lookup_seq in E1 as [-> _]. cbn [fst snd] in Hs. destruct s' as [s'| |]; try done.
  destruct (Nat.eqb_spec s' shard) as [->|]; [|done]. destruct (access (0 + j)%nat) as [n|]; [|done].
  destruct (HOT_KEY_THRESHOLD <? n); [|done]. injection Hs as <-. split; cbn [fst snd]; [lia|].
  rewrite Nat2Z.id. cbn [Nat.add]. by rewrite E2.
Qed.

Lemma planned_to m slot ov ud ud' : planned_well m (slot, ov, ud) -> planned_well m (slot, ov, ud').
Proof. done. Qed.

Lemma plan_inner_well m ov slots_of under migs :
  Forall (fun slot => planned_well m (slot, ov, ov)) slots_of -> Forall (planned_well m) migs ->
  Forall (planned_well m) (plan_inner ov slots_of under migs).
Proof.
  intros Hs. revert migs. induction under as [|[ud n] under IH]; intros migs Hm; [done|]. cbn [plan_inner].
  assert (Forall (planned_well m) (migs ++ ((fun slot => (slot, ov, ud)) <$> take MIGRATION_BATCH_SIZE slots_of))) as Hf.
  { apply Forall_app. split; [done|]. apply Forall_fmap. apply Forall_take. eapply Forall_impl; [exact Hs|]. done. }
  destruct (_ <=? _)%nat; [done|]. by apply IH.
Qed.

Lemma plan_outer_well m slots_of over under migs :
  (forall ov, Forall (fun slot => planned_well m (slot, ov, ov)) (slots_of ov)) -> Forall (planned_well m) migs ->
  Forall (planned_well m) (plan_outer slots_of over under migs).
Proof.
  intros Hs. revert migs. induction over as [|[ov n] over IH]; intros migs Hm; [done|]. cbn [plan_outer].
  pose proof (plan_inner_well m ov (slots_of ov) under migs (Hs ov) Hm) as Hf.
  destruct (_ <=? _)%nat; [done|]. by apply IH.
Qed.

Lemma plan_pairs_well m over under : Forall (planned_well m) (plan_pairs over under m).
Proof.
  unfold plan_pairs. apply Forall_take. apply Forall_concat. apply Forall_fmap. apply Forall_forall. intros ov _.
  apply Forall_concat. apply Forall_fmap. apply Forall_forall. intros ud _. apply Forall_fmap.
  eapply Forall_impl; [apply (hot_slots_stable ov.1 (fun i => slot_access m !! i) m)|]. done.
Qed.

Lemma trigger_well now m : Forall (planned_well m) (trigger_rebalance now m).1.
Proof.
  unfold trigger_rebalance. cbn [fst]. destruct (bool_decide (plan_from_metrics m = [])).
  - unfold plan_from_counters. destruct (_ =? 0); [done|]. apply plan_pairs_well.
  - unfold plan_from_metrics. destruct (bool_decide _); [done|]. apply plan_outer_well; [|done].
    intros ov. apply hot_slots_stable.
Qed.

Lemma trigger_same now m : slot_assignments (trigger_rebalance now m).2 = slot_assignments m /\
  active_migrations (trigger_rebalance now m).2 = active_migrations m.
Proof. unfold trigger_rebalance, queue_plan. cbn [snd]. by destruct (bool_decide (_ = [])). Qed.

Lemma start_planned m mig : planned_well m mig -> tracked m ->
  let m' := (start_slot_migration mig.1.1 mig.1.2 mig.2 m).2 in
  routes_alike m m' /\ tracked m' /\ forall mig', planned_well m mig' -> planned_well m' mig'.
Proof.
  intros [Hs Hp] Ht m'. assert (routes_alike m m') as Hr by (by apply start_routes).
  split; [done|]. split; [by apply tracked_start|]. intros mig' [Hs' Hp']. split; [done|].
  by rewrite <- list_lookup_fmap, Hr, list_lookup_fmap.
Qed.

Lemma start_all migs m : Forall (planned_well m) migs -> tracked m ->
  let m' := foldl (fun m (mig : Z * nat * nat) => (start_slot_migration mig.1.1 mig.1.2 mig.2 m).2) m migs in
  routes_alike m m' /\ tracked m'.
Proof.
  revert m. induction migs as [|mig migs IH]; intros m Hall Ht; [done|]. apply Forall_cons in Hall as [Hmig Hall].
  destruct (start_planned m mig Hmig Ht) as (Hr & Ht' & Hp). cbn [foldl].
  destruct (IH _ (Forall_impl _ _ _ Hall Hp) Ht') as [Hr' Ht'']. split; [by etrans|done].
Qed.

Lemma rebalance_spec now m : tracked m -> routes_alike m (rebalancer_check now m) /\ tracked (rebalancer_check now m).
Proof.
  intros Ht. unfold rebalancer_check. destruct (should_rebalance now m); [|done].
  pose proof (trigger_well now m) as Hw. destruct (trigger_same now m) as [Ha Hm].
  destruct (trigger_rebalance now m) as [migs m1] eqn:E. cbn [fst snd] in *.
  assert (routes_alike m m1) as Hr by (unfold routes_alike; by rewrite Ha).
  destruct (start_all migs m1) as [Hr' Ht']; [|intros slot Hs f t; rewrite Ha, Hm; by apply Ht|split; [by etrans|done]].
  eapply Forall_impl; [exact Hw|]. intros mig [Hs Hp]. split; [done|]. by rewrite Ha.
Qed.

Lemma tracked_step c m : (forall slot, call_slot c = Some slot -> 0 <= slot) -> tracked m -> tracked (slot_step c m).
Proof.
  intros Hc Ht. destruct c as [slot from to|slot|slot|key|now|]; cbn [slot_step].
  - by apply tracked_start; [apply Hc|].
  - by apply tracked_end; [apply Hc|].
  - by apply tracked_end; [apply Hc|].
  - exact Ht.
  - by apply rebalance_spec.
  - exact Ht.
Qed.

Lemma new_assignment n now m slot : new n now = Some m -> 0 <= slot < TOTAL_SLOTS ->
  slot_assignments m !! Z.to_nat slot = Some (Stable (Z.to_nat slot mod n)).
Proof.
  unfold new. destruct (n =? 0)%nat; [done|]. intros E Hs. apply (inj Some) in E. subst m. cbn [slot_assignments].
  rewrite list_lookup_fmap. unfold slots. rewrite lookup_seq_lt; [done|]. unfold TOTAL_SLOTS in *. lia.
Qed.

Lemma new_tracked n now m : new n now = Some m -> tracked m.
Proof.
  unfold new. destruct (n =? 0)%nat; [done|]. intros E slot Hs f t. apply (inj Some) in E. subst m. cbn [active_migrations slot_assignments].
  generalize slots. intros l. split; [by intros (? & ? & _)|]. rewrite list_lookup_fmap. by destruct (l !! Z.to_nat slot).
Qed.

(** A migration that starts at the shard of its slot. *)
Lemma migration_routes m slot from to :
  0 <= slot -> get_slot_shard slot m = Some from -> active_migrations m !! slot = None ->
  let started := slot_step (Start slot from to) m in
  forall key, get_key_shard key started = get_key_shard key m /\
    get_key_shard key (slot_step (Rollback slot) started) = get_key_shard key m /\
    get_key_shard key (slot_step (Complete slot) started) =
      if decide (calculate_slot key = slot) then to else get_key_shard key m.
Proof.
  intros Hs Hsh Hna started key.
  assert (routes_alike m started) as Hr by (by apply start_routes).
  assert (Z.to_nat slot < length (slot_assignments m))%nat as Hlt.
  { unfold get_slot_shard in Hsh. apply fmap_Some in Hsh as (st & Hst & _). by apply lookup_lt_Some in Hst. }
  assert (active_migrations started !! slot = Some (mkTask slot from to 0 0) /\
    slot_assignments started = <[Z.to_nat slot := Migrating from to (mkF64 0)]> (slot_assignments m)) as [Ha Hsa].
  { subst started. cbn [slot_step]. unfold start_slot_migration. rewrite Hna, (proj2 (Nat.leb_gt _ _)) by done.
    cbn [snd with_assignments active_migrations slot_assignments]. by rewrite lookup_insert_eq. }
  assert (0 <= calculate_slot key) as Hk by (apply Z.mod_pos_bound; unfold TOTAL_SLOTS; lia).
  split; [by apply routes_key|]. split.
  - apply routes_key. etrans; [exact Hr|]. unfold routes_alike. cbn [slot_step]. unfold rollback_migration, end_migration.
    rewrite Ha, Hsa, length_insert, (proj2 (Nat.leb_gt _ _)) by done. cbn [snd with_assignments slot_assignments from_shard].
    rewrite list_insert_insert_eq, !list_fmap_insert. done.
  - unfold get_key_shard at 1, get_slot_shard at 1. cbn [slot_step]. unfold complete_slot_migration, end_migration.
    rewrite Ha, Hsa, length_insert, (proj2 (Nat.leb_gt _ _)) by done. cbn [snd with_assignments slot_assignments to_shard].
    rewrite list_insert_insert_eq. destruct (decide (calculate_slot key = slot)) as [<-|Hne].
    + by rewrite list_lookup_insert_eq.
    + rewrite list_lookup_insert_ne by lia. done.
Qed.


(** ** The ring *)

Section RingLaws.
Context (hasher : bytes -> Z).

(** The hashes in their order. *)
Definition ring_ok (r : ConsistentHashRing) : Prop := sorted_hashes r = sorted_keys (nodes r).

Lemma sorted_keys_perm ns : sorted_keys ns ≡ₚ (map_to_list ns).*1.
Proof. apply merge_sort_Permutation. Qed.

Lemma elem_of_sorted_keys ns h : h ∈ sorted_keys ns <-> is_Some (ns !! h).
Proof.
  rewrite sorted_keys_perm, list_elem_of_fmap. split.
  - intros ([k v] & -> & Hin). apply elem_of_map_to_list in Hin. by exists v.
  - intros [v Hv]. exists (h, v). by rewrite elem_of_map_to_list.
Qed.

Lemma sorted_keys_sorted ns : StronglySorted Z.le (sorted_keys ns).
Proof. apply (StronglySorted_merge_sort Z.le). Qed.

Lemma sorted_filter (P : Z -> Prop) `{!forall x, Decision (P x)} l : StronglySorted Z.le l -> StronglySorted Z.le (filter P l).
Proof.
  induction 1 as [|x l Hs IH Hall]; [constructor|]. rewrite filter_cons. destruct (decide (P x)); [|done].
  constructor; [done|]. apply Forall_forall. intros y [_ Hy]%list_elem_of_filter. rewrite Forall_forall in Hall. by apply Hall.
Qed.

Lemma sorted_keys_filter (P : Z * nat -> Prop) `{!forall x, Decision (P x)} ns :
  sorted_keys (filter P ns) = filter (fun h => is_Some (filter P ns !! h)) (sorted_keys ns).
Proof.
  apply (StronglySorted_unique Z.le); [apply sorted_keys_sorted| |].
  - apply sorted_filter, sorted_keys_sorted.
  - apply NoDup_Permutation.
    + rewrite sorted_keys_perm. apply NoDup_fst_map_to_list.
    + apply NoDup_filter. rewrite sorted_keys_perm. apply NoDup_fst_map_to_list.
    + intros h. rewrite list_elem_of_filter, !elem_of_sorted_keys. split; [|by intros [? _]].
      intros [v Hv]. split; [by eexists|]. apply map_lookup_filter_Some in Hv as [Hv _]. by eexists.
Qed.

Lemma find_filter {A} (f : A -> bool) (P : A -> Prop) `{!forall x, Decision (P x)} l x :
  find f l = Some x -> P x -> find f (filter P l) = Some x.
Proof.
  intros Hf Hx. induction l as [|y l IH]; [done|]. cbn [find] in Hf. rewrite filter_cons. destruct (f y) eqn:Hy.
  - injection Hf as ->. rewrite decide_True by done. cbn [find]. by rewrite Hy.
  - destruct (decide (P y)); cbn [find]; rewrite ?Hy; by apply IH.
Qed.

Lemma find_filter_none {A} (f : A -> bool) (P : A -> Prop) `{!forall x, Decision (P x)} l :
  find f l = None -> find f (filter P l) = None.
Proof.
  induction l as [|y l IH]; [done|]. cbn [find]. rewrite filter_cons. destruct (f y) eqn:Hy; [done|]. intros Hf.
  destruct (decide (P y)); cbn [find]; rewrite ?Hy; by apply IH.
Qed.

Lemma head_filter {A} (P : A -> Prop) `{!forall x, Decision (P x)} l x : head l = Some x -> P x -> head (filter P l) = Some x.
Proof. destruct l as [|y l]; [done|]. intros [= ->] Hx. rewrite filter_cons, decide_True by done. done. Qed.

Lemma ring_new_ok n vnodes : ring_ok (ring_new hasher n vnodes).
Proof. done. Qed.

Lemma ring_add_ok shard r : ring_ok (ring_add_shard hasher shard r).
Proof. done. Qed.

(** Taking a shard out of the ring leaves every key where it is unless that
    shard had it, and then gives it to another one, if there is one; a key goes to
    the owner of the first point not below its hash, or of the first of all. *)
Theorem ring_remove_consistent (shard : nat) (r : ConsistentHashRing) (key : bytes) (owner : nat) :
  ring_ok r -> ring_get_shard hasher key r = Some owner ->
  (owner <> shard -> ring_get_shard hasher key (ring_remove_shard shard r) = Some owner) /\
  (owner = shard -> ring_get_shard hasher key (ring_remove_shard shard r) <> Some shard) /\
  exists point, nodes r !! point = Some owner /\
    forall p, is_Some (nodes r !! p) ->
      (hasher key <= point -> hasher key <= p -> point <= p) /\ (point < hasher key -> p < hasher key /\ point <= p).
Proof.
  intros Hok Hget.
  assert (forall o, ring_get_shard hasher key (ring_remove_shard shard r) = Some o -> o <> shard) as Hother.
  { intros o. unfold ring_get_shard, ring_remove_shard. cbn [sorted_hashes nodes].
    destruct (find _ _); [|destruct (head _) as [h|]; [|done]]; cbn [mbind option_bind];
      intros Ho%map_lookup_filter_Some; by destruct Ho as [_ Ho]. }
  split; [|split; [intros ->; intros Hs; by apply Hother in Hs|]].
  - intros Hne. revert Hget. unfold ring_get_shard, ring_remove_shard. cbn [sorted_hashes nodes]. rewrite Hok, sorted_keys_filter.
    destruct (find (fun h => hasher key <=? h) (sorted_keys (nodes r))) as [h|] eqn:Hf.
    + intros Hh. assert (filter (fun kv : Z * nat => kv.2 <> shard) (nodes r) !! h = Some owner) as Hfl
        by (by apply map_lookup_filter_Some).
      by rewrite (find_filter _ _ _ h Hf) by (by eexists).
    + destruct (head (sorted_keys (nodes r))) as [h|] eqn:Hh; [|done]. cbn [mbind option_bind]. intros Ho.
      assert (filter (fun kv : Z * nat => kv.2 <> shard) (nodes r) !! h = Some owner) as Hfl
        by (by apply map_lookup_filter_Some).
      rewrite find_filter_none by done. by rewrite (head_filter _ _ h Hh) by (by eexists).
  - revert Hget. unfold ring_get_shard. rewrite Hok. pose proof (sorted_keys_sorted (nodes r)) as Hs.
    assert (forall p, is_Some (nodes r !! p) <-> p ∈ sorted_keys (nodes r)) as Hin by (intros p; by rewrite elem_of_sorted_keys).
    setoid_rewrite Hin. clear Hin. destruct (find (fun h => hasher key <=? h) (sorted_keys (nodes r))) as [h|] eqn:Hf.
    + intros Hh. exists h. split; [done|]. intros p Hp. split.
      * intros _ Hk. clear Hh Hok Hother. induction Hs as [|x l Hs IH Hall]; [done|]. cbn [find] in Hf.
        rewrite Forall_forall in Hall. destruct (Z.leb_spec (hasher key) x).
        -- injection Hf as ->. apply elem_of_cons in Hp as [->|Hp]; [done|by apply Hall].
        -- apply elem_of_cons in Hp as [->|Hp]; [lia|]. by apply IH.
      * apply find_some in Hf as [_ Hle]. bool_to_prop. lia.
    + destruct (head (sorted_keys (nodes r))) as [h|] eqn:Hh; [|done]. cbn [mbind option_bind]. intros Ho.
      exists h. split; [done|]. intros p Hp.
      assert (p < hasher key) as Hlt by (apply list_elem_of_In in Hp; apply Z.leb_gt; exact (find_none _ _ Hf p Hp)).
      destruct (sorted_keys (nodes r)) as [|x l]; [done|]. injection Hh as ->. apply StronglySorted_inv in Hs as [_ Hall].
      assert (h <= p) by (apply elem_of_cons in Hp as [->|Hp]; [done|]; rewrite Forall_forall in Hall; by apply Hall).
      split; [|done]. intros Hk Hk'. lia.
Qed.
End RingLaws.

(** ** Witnesses *)

Lemma slot_of_key_witness :
  crc16 (ascii_bytes "123456789") = 0x31C3 /\
  calculate_slot (ascii_bytes "user:{123}:a") = foldl poly_byte 0 (ascii_bytes "123") mod TOTAL_SLOTS.
Proof.
  split; [by vm_compute|].
  assert (Forall is_byte (ascii_bytes "user:{123}:a")) as Hb.
  { repeat (apply Forall_cons; split); [..|by apply Forall_nil]; split; by vm_compute. }
  destruct (slot_of_key (ascii_bytes "user:{123}:a") Hb) as (_ & _ & Ht & _).
  apply (Ht (ascii_bytes "user:") (ascii_bytes "123") (ascii_bytes ":a")); [done| |];
    apply (bool_decide_unpack _); by vm_compute.
Defined.

Lemma ring_remove_consistent_witness :
  let r := mkRing {[5 := 0%nat; 9 := 1%nat]} (sorted_keys {[5 := 0%nat; 9 := 1%nat]}) 1 in
  ring_get_shard (fun _ => 7) [] r = Some 1%nat /\ ring_get_shard (fun _ => 7) [] (ring_remove_shard 0 r) = Some 1%nat.
Proof.
  split; [by vm_compute|].
  destruct (ring_remove_consistent (fun _ => 7) 0 (mkRing {[5 := 0%nat; 9 := 1%nat]} (sorted_keys {[5 := 0%nat; 9 := 1%nat]}) 1)
    [] 1 eq_refl ltac:(by vm_compute)) as [H _]. by apply H.
Defined.

