(* ===== verification/Cluster.v ===== *)
(** * The cluster and the choice of an engine

    Models [InClusterStore] of [src/src/engine/cluster.rs]: shards that are
    engines, each key routed by the slot manager, [mset] and [mget] grouped by
    shard, and the counters; and [StorageEngine] of [src/src/engine/store.rs],
    which passes every call to the engine it has.  The shards are of one type
    (which may be [StorageEngine]) and distinct; the clock and the mean response
    time, which nothing sets, are left out. *)
From S2P Require Import Prelude Interfaces Storage Text Slots.
From S2P Require Sharding.
Local Open Scope Z_scope.

Record OperationMetrics : Type := mkOperations {
  total_operations : Z; cross_shard_operations : Z; migration_operations : Z; failed_operations : Z;
}.

Record InClusterStore {M : Type} : Type := mkCluster {
  shards : list M; slot_manager : SlotManager; operation_metrics : OperationMetrics;
}.
Arguments InClusterStore : clear implicits.

Section Cluster.
Context {M : Type} {ops : StorageOps M}.
Context {set_order : HashOrder (nat * list (bytes * Value))} {get_order : HashOrder (nat * list (nat * bytes))}.
Notation Cluster := (InClusterStore M).
Implicit Types (s : Cluster) (key : bytes).

(** [None] is the panic of [SlotManager::new] without shards. *)
Definition new (shards : list M) (now : Z) : option Cluster :=
  sm ← Slots.new (length shards) now; Some (mkCluster _ shards sm (mkOperations 0 0 0 0)).

Definition with_shards (l : list M) s : Cluster := mkCluster _ l (slot_manager s) (operation_metrics s).
Definition with_manager (sm : SlotManager) s : Cluster := mkCluster _ (shards s) sm (operation_metrics s).
Definition with_metrics (f : OperationMetrics -> OperationMetrics) s : Cluster :=
  mkCluster _ (shards s) (slot_manager s) (f (operation_metrics s)).

Definition add_operation (m : OperationMetrics) : OperationMetrics :=
  mkOperations (wrapu 64 (total_operations m + 1)) (cross_shard_operations m) (migration_operations m) (failed_operations m).
Definition add_cross (m : OperationMetrics) : OperationMetrics :=
  mkOperations (total_operations m) (wrapu 64 (cross_shard_operations m + 1)) (migration_operations m) (failed_operations m).
Definition add_failed (m : OperationMetrics) : OperationMetrics :=
  mkOperations (total_operations m) (cross_shard_operations m) (migration_operations m) (wrapu 64 (failed_operations m + 1)).

Definition touch key s : Cluster := with_manager (Slots.record_operation (from_utf8_lossy key) (slot_manager s)) s.

Definition record_operation key s : Cluster := with_metrics add_operation (touch key s).
Definition record_cross_shard_operation s : Cluster := with_metrics add_cross s.
Definition record_failed_operation s : Cluster := with_metrics add_failed s.

(** The number of the shard that a key is routed to. *)
Definition home s key : nat := get_key_shard (from_utf8_lossy key) (slot_manager s).

(** [shard_by_id] and a call of the shard. *)
Definition on_shard {A} (id : nat) (c : action M A) : action Cluster A := fun s =>
  match shards s !! id with
  | Some sh => '(r, sh) ← c sh; Some (r, with_shards (<[id := sh]> (shards s)) s)
  | None => Some (Err WrongShard, record_failed_operation s)
  end.

(** What all the operations on one key do. *)
Definition on_key {A} key (c : action M A) : action Cluster A := fun s =>
  let s := record_operation key s in on_shard (home s key) c s.

Definition set key (value : Value) : action Cluster unit := on_key key (st_set key value).
Definition get key : action Cluster (option Value) := on_key key (st_get key).
Definition del key : action Cluster bool := on_key key (st_del key).
Definition sadd key (members : list bytes) : action Cluster nat := on_key key (st_sadd key members).
Definition smembers key : action Cluster (list bytes) := on_key key (st_smembers key).
Definition scard key : action Cluster nat := on_key key (st_scard key).
Definition sismember key (member : bytes) : action Cluster bool := on_key key (st_sismember key member).
Definition srem key (members : list bytes) : action Cluster nat := on_key key (st_srem key members).
Definition srandmember (seed : nat) key (count : Z) : action Cluster (list bytes) := on_key key (st_srandmember seed key count).
Definition spop (seed : nat) key (count : Z) : action Cluster (list bytes) := on_key key (st_spop seed key count).

(** The loop that groups what it is given by the shard of its key. *)
Fixpoint group_by_shard {A} {order : HashOrder (nat * list A)} (key_of : A -> bytes) (items : list A)
    (groups : list (nat * list A)) s : list (nat * list A) * Cluster :=
  match items with
  | [] => (groups, s)
  | x :: items =>
      group_by_shard key_of items (Sharding.push_group (home s (key_of x)) x groups) (touch (key_of x) s)
  end.

Definition count_groups {A} (groups : list A) : action Cluster unit := fun s =>
  Some (Ok tt, if (1 <? length groups)%nat then record_cross_shard_operation s else s).

Fixpoint mset_groups (groups : list (nat * list (bytes * Value))) : action Cluster unit :=
  match groups with
  | [] => aret tt
  | (shard_id, entries) :: groups => let! _ := on_shard shard_id (st_mset entries) in mset_groups groups
  end.

Definition mset (entries : list (bytes * Value)) : action Cluster unit := fun s =>
  if bool_decide (entries = []) then Some (Ok tt, s)
  else
    let '(groups, s) := group_by_shard fst entries [] s in
    (let! _ := mset_groups groups in count_groups groups) s.

(** [results[*idx] = res], for the positions of a group. *)
Definition place (list_ : list (nat * bytes)) (found results : list (option Value)) : list (option Value) :=
  foldl (fun results ix => <[ix.1.1 := ix.2]> results) results (zip list_ found).

Fixpoint mget_groups (groups : list (nat * list (nat * bytes))) (results : list (option Value))
  : action Cluster (list (option Value)) :=
  match groups with
  | [] => aret results
  | (shard_id, items) :: groups =>
      let! found := on_shard shard_id (st_mget items.*2) in
      mget_groups groups (place items found results)
  end.

Definition mget (keys : list bytes) : action Cluster (list (option Value)) := fun s =>
  if bool_decide (keys = []) then Some (Ok [], s)
  else
    let '(groups, s) := group_by_shard snd (zip (seq 0 (length keys)) keys) [] s in
    (let! results := mget_groups groups (replicate (length keys) None) in
     let! _ := count_groups groups in aret results) s.

(** The two keys of a renaming have to be on one shard. *)
Definition on_both {A} (from to : bytes) (c : action M A) : action Cluster A := fun s =>
  let from_shard := home s from in
  let to_shard := home s to in
  let s := touch to (touch from s) in
  if (from_shard =? to_shard)%nat then on_shard from_shard c s else Some (Err WrongShard, s).

Definition rename (from to : bytes) : action Cluster unit := on_both from to (st_rename from to).
Definition renamenx (from to : bytes) : action Cluster bool := on_both from to (st_renamenx from to).

Fixpoint flush_shards (ids : list nat) : action Cluster unit :=
  match ids with
  | [] => aret tt
  | id :: ids => let! _ := on_shard id st_flushdb in flush_shards ids
  end.

Definition flushdb : action Cluster unit := fun s =>
  (let! _ := flush_shards (seq 0 (length (shards s))) in
   fun s => Some (Ok tt, with_manager (reset_metrics (slot_manager s)) s)) s.

(** The total stays below the bound at which [saturating_add] stops, as the keys
    are in memory. *)
Fixpoint count_shards (ids : list nat) (total : nat) : action Cluster nat := fun s =>
  match ids with
  | [] => Some (Ok total, s)
  | id :: ids =>
      match on_shard id st_dbsize s with
      | Some (Ok n, s) => count_shards ids (total + n)%nat s
      | Some (Err e, s) => Some (Err e, record_failed_operation s)
      | None => None
      end
  end.

Definition dbsize : action Cluster nat := fun s => count_shards (seq 0 (length (shards s))) 0 s.

Fixpoint save_shards (ids : list nat) (any_saved : bool) : action Cluster unit := fun s =>
  match ids with
  | [] => Some (if any_saved then Ok tt else Err (UnsupportedOperation "No shard supports SAVE"), s)
  | id :: ids =>
      match on_shard id st_save s with
      | Some (Ok _, s) => save_shards ids true s
      | Some (Err (UnsupportedOperation _), s) => save_shards ids any_saved s
      | Some (Err e, s) => Some (Err e, record_failed_operation s)
      | None => None
      end
  end.

Definition save : action Cluster unit := fun s => save_shards (seq 0 (length (shards s))) false s.

#[export] Instance cluster_ops : StorageOps Cluster := {|
  st_set := set; st_get := get; st_del := del; st_mset := mset; st_mget := mget;
  st_rename := rename; st_renamenx := renamenx; st_flushdb := flushdb; st_dbsize := dbsize;
  st_save := save; st_sadd := sadd; st_smembers := smembers; st_scard := scard;
  st_sismember := sismember; st_srem := srem; st_srandmember := srandmember; st_spop := spop;
|}.

#[export] Instance cluster_geo {geo : GeoOps M} : GeoOps Cluster := {|
  st_geo_add := fun key lon lat member => on_key key (st_geo_add key lon lat member);
  st_geo_pos := fun key member => on_key key (st_geo_pos key member);
  st_geo_dist := fun key member1 member2 unit_ => on_key key (st_geo_dist key member1 member2 unit_);
  st_geo_radius := fun key lon lat radius unit_ => on_key key (st_geo_radius key lon lat radius unit_);
  st_geo_radius_by_member := fun key member radius unit_ => on_key key (st_geo_radius_by_member key member radius unit_);
|}.

(** The calls of the slot manager, which runs beside the cluster. *)
Definition with_slots (f : SlotManager -> SlotManager) s : Cluster := with_manager (f (slot_manager s)) s.
End Cluster.

(** ** The engine that a server has *)

Inductive StorageEngine (A B C : Type) : Type :=
| EMemory (store : A) | ECluster (store : B) | EPersistent (store : C).
Arguments EMemory {A B C}. Arguments ECluster {A B C}. Arguments EPersistent {A B C}.

Section Engine.
Context {A B C : Type}.
Notation Engine := (StorageEngine A B C).

(** A call goes to the engine that there is. *)
Definition dispatch {R} (a : action A R) (b : action B R) (c : action C R) : action Engine R := fun s =>
  match s with
  | EMemory store => '(r, store) ← a store; Some (r, EMemory store)
  | ECluster store => '(r, store) ← b store; Some (r, ECluster store)
  | EPersistent store => '(r, store) ← c store; Some (r, EPersistent store)
  end.

#[export] Instance engine_ops {oa : StorageOps A} {ob : StorageOps B} {oc : StorageOps C} : StorageOps Engine := {|
  st_set := fun k v => dispatch (st_set k v) (st_set k v) (st_set k v);
  st_get := fun k => dispatch (st_get k) (st_get k) (st_get k);
  st_del := fun k => dispatch (st_del k) (st_del k) (st_del k);
  st_mset := fun l => dispatch (st_mset l) (st_mset l) (st_mset l);
  st_mget := fun l => dispatch (st_mget l) (st_mget l) (st_mget l);
  st_rename := fun k k' => dispatch (st_rename k k') (st_rename k k') (st_rename k k');
  st_renamenx := fun k k' => dispatch (st_renamenx k k') (st_renamenx k k') (st_renamenx k k');
  st_flushdb := dispatch st_flushdb st_flushdb st_flushdb;
  st_dbsize := dispatch st_dbsize st_dbsize st_dbsize;
  st_save := dispatch st_save st_save st_save;
  st_sadd := fun k l => dispatch (st_sadd k l) (st_sadd k l) (st_sadd k l);
  st_smembers := fun k => dispatch (st_smembers k) (st_smembers k) (st_smembers k);
  st_scard := fun k => dispatch (st_scard k) (st_scard k) (st_scard k);
  st_sismember := fun k e => dispatch (st_sismember k e) (st_sismember k e) (st_sismember k e);
  st_srem := fun k l => dispatch (st_srem k l) (st_srem k l) (st_srem k l);
  st_srandmember := fun n k c => dispatch (st_srandmember n k c) (st_srandmember n k c) (st_srandmember n k c);
  st_spop := fun n k c => dispatch (st_spop n k c) (st_spop n k c) (st_spop n k c);
|}.

#[export] Instance engine_geo {ga : GeoOps A} {gb : GeoOps B} {gc : GeoOps C} : GeoOps Engine := {|
  st_geo_add := fun k x y e => dispatch (st_geo_add k x y e) (st_geo_add k x y e) (st_geo_add k x y e);
  st_geo_pos := fun k e => dispatch (st_geo_pos k e) (st_geo_pos k e) (st_geo_pos k e);
  st_geo_dist := fun k e e' u => dispatch (st_geo_dist k e e' u) (st_geo_dist k e e' u) (st_geo_dist k e e' u);
  st_geo_radius := fun k x y r u => dispatch (st_geo_radius k x y r u) (st_geo_radius k x y r u) (st_geo_radius k x y r u);
  st_geo_radius_by_member := fun k e r u =>
    dispatch (st_geo_radius_by_member k e r u) (st_geo_radius_by_member k e r u) (st_geo_radius_by_member k e r u);
|}.
End Engine.
