(* ===== verification/ClusterLaws.v ===== *)
(** * A cluster of engines is an engine

    Theorems about [Cluster]: as long as every key is routed to a shard that there
    is, a cluster of lawful engines keeps the laws of the storage interface, so
    that the commands refine the keyspace on it too; the engine of a server keeps
    them when the three kinds do; and what a completed migration loses. *)
From stdpp Require Import functions.
From S2P Require Import Prelude Interfaces SdsNumeric ZdbValue Numbers Storage Memory Commands CommandSpec CommandRefinement Text Slots SlotsLaws Cluster.
From S2P Require Sharding ShardingLaws.
Local Open Scope Z_scope.

Section ClusterLaws.
Context {M : Type} {ops : StorageOps M} {laws : StorageLaws M}.
Context {set_order : HashOrder (nat * list (bytes * Value))} {get_order : HashOrder (nat * list (nat * bytes))}.
Notation Cluster := (InClusterStore M).
Implicit Types (s : Cluster) (m : gmap bytes AVal) (key : bytes) (f : nat -> gmap bytes AVal).

(** The shards of the slots. *)
Context (routes : list nat).

(** The keys of a shard. *)
Definition part s (i : nat) m : gmap bytes AVal := filter (fun kv => home s kv.1 = i) m.

(** What the shards hold. *)
Definition holds s f : Prop := forall i sh, shards s !! i = Some sh -> store_repr sh (f i).

Record cluster_repr s m : Prop := {
  cr_home key : (home s key < length (shards s))%nat;
  cr_holds : holds s (fun i => part s i m);
  cr_routes : (shard_of_state <$> slot_assignments (slot_manager s)) = routes;
  cr_tracked : tracked (slot_manager s);
}.

(** Neither the routes nor the number of shards have changed. *)
Record kept s s' : Prop := {
  kept_slots : slot_assignments (slot_manager s') = slot_assignments (slot_manager s);
  kept_length : length (shards s') = length (shards s);
  kept_migrations : active_migrations (slot_manager s') = active_migrations (slot_manager s);
}.

#[export] Instance kept_preorder : PreOrder kept.
Proof. split; [by intros s|]. intros x y z [A1 A2 A3] [B1 B2 B3]. split; congruence. Qed.

Lemma home_kept s s' key : kept s s' -> home s' key = home s key.
Proof. intros [Hs _ _]. unfold home, get_key_shard, get_slot_shard. by rewrite Hs. Qed.

Lemma part_kept s s' i m : kept s s' -> part s' i m = part s i m.
Proof. intros Hk. apply map_filter_ext. intros k a _. cbn. by rewrite (home_kept s s'). Qed.

Lemma part_lookup s key m : part s (home s key) m !! key = m !! key.
Proof.
  unfold part. destruct (m !! key) as [a|] eqn:E; [by apply map_lookup_filter_Some|].
  apply map_lookup_filter_None. by left.
Qed.

Lemma part_lookup_ne s i key m : home s key <> i -> part s i m !! key = None.
Proof. intros Hne. apply map_lookup_filter_None. right. by intros a _. Qed.

Lemma part_eq s i m m' : (forall key, home s key = i -> m' !! key = m !! key) -> part s i m' = part s i m.
Proof.
  intros H. apply map_eq. intros key. destruct (decide (home s key = i)) as [<-|Hne].
  - rewrite !part_lookup. by apply H.
  - by rewrite !part_lookup_ne.
Qed.

Lemma part_insert s key a m : part s (home s key) (<[key := a]> m) = <[key := a]> (part s (home s key) m).
Proof. apply map_filter_insert_True. done. Qed.

Lemma part_delete s i key m : part s i (delete key m) = delete key (part s i m).
Proof. apply map_filter_delete. Qed.

Lemma part_put_set s key x m : part s (home s key) (put_set key x m) = put_set key x (part s (home s key) m).
Proof. unfold put_set. case_decide; [apply part_delete|apply part_insert]. Qed.

(** ** One shard *)

Lemma on_shard_law {A} (i : nat) (c : action M A) s f (P : result StoreError A -> gmap bytes AVal -> Prop) :
  holds s f -> (i < length (shards s))%nat ->
  (forall sh, shards s !! i = Some sh -> store_repr sh (f i) -> wp c sh (fun r sh' => exists m', store_repr sh' m' /\ P r m')) ->
  wp (on_shard i c) s (fun r s' => exists m', holds s' (<[i := m']> f) /\ kept s s' /\ P r m').
Proof.
  intros Hh [sh Hsh]%lookup_lt_is_Some Hc. unfold wp, on_shard. rewrite Hsh. cbn [mbind option_bind].
  destruct (wp_elim _ _ _ (Hc sh Hsh (Hh i sh Hsh))) as (r & sh' & -> & m' & Hr & HP). cbn [mbind option_bind].
  exists m'. split_and!; [|split; [done|apply length_insert|done]|done].
  intros j x. cbn [with_shards shards]. destruct (decide (i = j)) as [<-|Hne].
  - rewrite list_lookup_insert_eq by (by eapply lookup_lt_Some). intros [= <-]. by rewrite fn_lookup_insert.
  - rewrite list_lookup_insert_ne, fn_lookup_insert_ne by done. apply Hh.
Qed.

Lemma kept_state s s' m : cluster_repr s m -> kept s s' ->
  (shard_of_state <$> slot_assignments (slot_manager s')) = routes /\ tracked (slot_manager s').
Proof.
  intros [_ _ Hr Ht] [Hs _ Hm]. rewrite Hs. split; [done|]. unfold tracked. rewrite Hs, Hm. exact Ht.
Qed.

Lemma repr_step s s' i m m' :
  cluster_repr s m -> holds s' (<[i := part s i m']> (fun j => part s j m)) -> kept s s' ->
  (forall key, home s key <> i -> m' !! key = m !! key) -> cluster_repr s' m'.
Proof.
  intros Hr Hh' Hk Hloc. destruct (kept_state s s' m Hr Hk) as [Hro Htr]. destruct Hr as [Hlt Hh _ _]. split; [..|done|done].
  - intros key. rewrite (home_kept s s') by done. destruct Hk as [_ -> _]. apply Hlt.
  - intros j sh Hj. specialize (Hh' j sh Hj). rewrite (part_kept s s') by done.
    destruct (decide (i = j)) as [<-|Hne]; [by rewrite fn_lookup_insert in Hh'|]. rewrite fn_lookup_insert_ne in Hh' by done.
    rewrite (part_eq s j m m'); [done|]. intros key <-. by apply Hloc.
Qed.

Lemma repr_kept s s' m : cluster_repr s m -> kept s s' -> shards s' = shards s -> cluster_repr s' m.
Proof.
  intros Hr Hk Hs. destruct (kept_state s s' m Hr Hk) as [Hro Htr]. destruct Hr as [Hlt Hh _ _]. split; [..|done|done].
  - intros key. rewrite Hs, (home_kept s s') by done. apply Hlt.
  - intros i sh. rewrite Hs, (part_kept s s') by done. apply Hh.
Qed.

Lemma on_shard_repr {A} (i : nat) (c : action M A) s m (P : result StoreError A -> gmap bytes AVal -> Prop) :
  cluster_repr s m -> (i < length (shards s))%nat ->
  (forall sh, shards s !! i = Some sh -> store_repr sh (part s i m) -> wp c sh (fun r sh' =>
     exists m', store_repr sh' (part s i m') /\ (forall key, home s key <> i -> m' !! key = m !! key) /\ P r m')) ->
  wp (on_shard i c) s (fun r s' => exists m', cluster_repr s' m' /\ P r m').
Proof.
  intros Hr Hi Hc. eapply wp_mono.
  - apply (on_shard_law i c s _ (fun r m1 => exists m', m1 = part s i m' /\ (forall key, home s key <> i -> m' !! key = m !! key) /\ P r m')
      (cr_holds _ _ Hr) Hi).
    intros sh Hi' Hsh. eapply wp_mono; [by apply Hc|]. intros r sh' (m' & H1 & H2 & H3). eauto 8.
  - intros r s' (m1 & Hh & Hk & m' & -> & Hloc & HP). exists m'. split; [by eapply repr_step|done].
Qed.

(** A call on the shard of a key. *)
Lemma on_key_law {A} key (c : action M A) s m (P : result StoreError A -> gmap bytes AVal -> Prop) :
  cluster_repr s m ->
  (forall sh, store_repr sh (part s (home s key) m) -> wp c sh (fun r sh' =>
     exists m', store_repr sh' (part s (home s key) m') /\ (forall k, k <> key -> m' !! k = m !! k) /\ P r m')) ->
  wp (on_key key c) s (fun r s' => exists m', cluster_repr s' m' /\ P r m').
Proof.
  intros Hr Hc. unfold on_key.
  assert (cluster_repr (record_operation key s) m) as Hr' by (by apply (repr_kept s)).
  apply (on_shard_repr (home s key) c (record_operation key s) m P Hr'); [apply (cr_home _ _ Hr)|].
  intros sh _ Hsh. eapply wp_mono; [by apply Hc|]. intros r sh' (m' & H1 & H2 & H3). exists m'. split_and!; [done| |done].
  intros k Hk. apply H2. by intros ->.
Qed.

Lemma part_set_at s key m : set_at (part s (home s key) m) key = set_at m key.
Proof. unfold set_at. by rewrite part_lookup. Qed.
Lemma part_set_of s key m : set_of (part s (home s key) m) key = set_of m key.
Proof. unfold set_of. by rewrite part_set_at. Qed.
Lemma part_not_set s key m : not_set (part s (home s key) m) key = not_set m key.
Proof. unfold not_set. by rewrite part_lookup. Qed.

(** A law of a cluster from the law of the shard of the key. *)
Ltac by_key law P :=
  eapply wp_mono;
  [eapply (on_key_law _ _ _ _ P); [eassumption|]; intros sh Hsh; eapply wp_mono; [eapply law; eassumption|];
   rewrite ?part_not_set, ?part_set_of, ?part_set_at, ?part_lookup
  |cbv beta].

Lemma cluster_set s m k v a : cluster_repr s m -> denotes v a ->
  wp (set k v) s (fun r s' => r = Ok tt /\ cluster_repr s' (<[k := a]> m)).
Proof.
  intros Hs Hv. by_key law_set (fun (r : result StoreError unit) (m' : gmap bytes AVal) => r = Ok tt /\ m' = <[k := a]> m).
  - intros r sh' [-> H]. exists (<[k := a]> m). rewrite part_insert. split_and!; [done|intros; by apply lookup_insert_ne|done|done].
  - by intros r s' (m' & H & -> & ->).
Qed.

Lemma cluster_get s m k : cluster_repr s m ->
  wp (get k) s (fun r s' => exists v, r = Ok v /\ denotes_opt v (m !! k) /\ cluster_repr s' m).
Proof.
  intros Hs. by_key law_get (fun (r : result StoreError (option Value)) (m' : gmap bytes AVal) => m' = m /\ exists v, r = Ok v /\ denotes_opt v (m !! k)).
  - intros r sh' (v & -> & Hv & H). exists m. split_and!; [done|done|done|]. by exists v.
  - intros r s' (m' & H & -> & v & -> & Hv). by exists v.
Qed.

Lemma cluster_del s m k : cluster_repr s m ->
  wp (del k) s (fun r s' => r = Ok (bool_decide (is_Some (m !! k))) /\ cluster_repr s' (delete k m)).
Proof.
  intros Hs. by_key law_del (fun (r : result StoreError bool) (m' : gmap bytes AVal) => m' = delete k m /\ r = Ok (bool_decide (is_Some (m !! k)))).
  - intros r sh' [-> H]. exists (delete k m). rewrite part_delete. split_and!; [done|intros; by apply lookup_delete_ne|done|done].
  - by intros r s' (m' & H & -> & ->).
Qed.

Lemma cluster_sadd s m k ms : cluster_repr s m ->
  wp (sadd k ms) s (fun r s' =>
    if not_set m k then exists e, r = Err e /\ type_error e /\ cluster_repr s' m
    else r = Ok (size (list_to_set ms ∖ set_of m k)) /\ cluster_repr s' (<[k := ASet (set_of m k ∪ list_to_set ms)]> m)).
Proof.
  intros Hs. by_key law_sadd (fun (r : result StoreError nat) (m' : gmap bytes AVal) => if not_set m k then m' = m /\ exists e, r = Err e /\ type_error e
    else m' = <[k := ASet (set_of m k ∪ list_to_set ms)]> m /\ r = Ok (size (list_to_set ms ∖ set_of m k))).
  - intros r sh'. destruct (not_set m k).
    + intros (e & -> & He & H). exists m. split_and!; [done|done|done|]. by exists e.
    + intros [-> H]. eexists. split_and!; [|by intros; apply lookup_insert_ne|done|done]. by rewrite part_insert.
  - intros r s' (m' & H & HP). destruct (not_set m k); [destruct HP as (-> & e & -> & He); by exists e|by destruct HP as [-> ->]].
Qed.

(** The reads, whose result is a property of the map. *)
Lemma read_law {A} (k : bytes) (c : action M A) s m (P : result StoreError A -> Prop) : cluster_repr s m ->
  (forall sh, store_repr sh (part s (home s k) m) -> wp c sh (fun r sh' => store_repr sh' (part s (home s k) m) /\ P r)) ->
  wp (on_key k c) s (fun r s' => cluster_repr s' m /\ P r).
Proof.
  intros Hs Hc. eapply wp_mono; [apply (on_key_law k c s m (fun r m' => m' = m /\ P r) Hs)|].
  - intros sh Hsh. eapply wp_mono; [by apply Hc|]. intros r sh' [H HP]. by exists m.
  - by intros r s' (m' & H & -> & HP).
Qed.

Ltac by_read law := apply read_law; [assumption|]; intros sh Hsh;
  eapply wp_mono; [eapply law; eassumption|]; rewrite ?part_not_set, ?part_set_of; by intros r sh' [].

Lemma cluster_smembers s m k : cluster_repr s m ->
  wp (smembers k) s (fun r s' => cluster_repr s' m /\
    if not_set m k then exists e, r = Err e /\ type_error e else exists l, r = Ok l /\ l ≡ₚ elements (set_of m k)).
Proof. intros Hs. by_read law_smembers. Qed.

Lemma cluster_scard s m k : cluster_repr s m ->
  wp (scard k) s (fun r s' => cluster_repr s' m /\
    if not_set m k then exists e, r = Err e /\ type_error e else r = Ok (size (set_of m k))).
Proof. intros Hs. by_read law_scard. Qed.

Lemma cluster_sismember s m k e : cluster_repr s m ->
  wp (sismember k e) s (fun r s' => cluster_repr s' m /\
    if not_set m k then exists e, r = Err e /\ type_error e else r = Ok (bool_decide (e ∈ set_of m k))).
Proof. intros Hs. by_read law_sismember. Qed.

Lemma cluster_srandmember s m seed k count : cluster_repr s m ->
  wp (srandmember seed k count) s (fun r s' => cluster_repr s' m /\
    if not_set m k then exists e, r = Err e /\ type_error e else exists l, r = Ok l /\ sample (set_of m k) count l).
Proof. intros Hs. by_read law_srandmember. Qed.

(** Taking members out of a set: what is left, and what it gives back. *)
Lemma take_law {A} (k : bytes) (c : action M A) s m (P : gset bytes -> A -> Prop) : cluster_repr s m ->
  (forall sh, store_repr sh (part s (home s k) m) -> wp c sh (fun r sh' =>
     if not_set m k then exists e, r = Err e /\ type_error e /\ store_repr sh' (part s (home s k) m)
     else exists x y, r = Ok x /\ P y x /\
       store_repr sh' (if set_at m k then put_set k (set_of m k ∖ y) (part s (home s k) m) else part s (home s k) m))) ->
  wp (on_key k c) s (fun r s' =>
     if not_set m k then exists e, r = Err e /\ type_error e /\ cluster_repr s' m
     else exists x y, r = Ok x /\ P y x /\ cluster_repr s' (if set_at m k then put_set k (set_of m k ∖ y) m else m)).
Proof.
  intros Hs Hc. eapply wp_mono.
  - apply (on_key_law k c s m (fun r m' => if not_set m k then m' = m /\ exists e, r = Err e /\ type_error e
      else exists x y, r = Ok x /\ P y x /\ m' = if set_at m k then put_set k (set_of m k ∖ y) m else m) Hs).
    intros sh Hsh. eapply wp_mono; [by apply Hc|]. intros r sh'. destruct (not_set m k).
    + intros (e & -> & He & H). exists m. split_and!; [done|done|done|]. by exists e.
    + intros (x & y & -> & HP & H). destruct (set_at m k).
      * eexists. split_and!; [by rewrite part_put_set| |by exists x, y]. intros k' Hk. unfold put_set.
        case_decide; [by apply lookup_delete_ne|by apply lookup_insert_ne].
      * exists m. split_and!; [done|done|]. by exists x, y.
  - intros r s' (m' & H & HP). destruct (not_set m k).
    + destruct HP as (-> & e & -> & He). by exists e.
    + destruct HP as (x & y & -> & HP & ->). by exists x, y.
Qed.

Lemma cluster_srem s m k ms : cluster_repr s m ->
  wp (srem k ms) s (fun r s' =>
    if not_set m k then exists e, r = Err e /\ type_error e /\ cluster_repr s' m
    else r = Ok (size (set_of m k ∩ list_to_set ms)) /\
         cluster_repr s' (if set_at m k then put_set k (set_of m k ∖ list_to_set ms) m else m)).
Proof.
  intros Hs. eapply wp_mono; [apply (take_law k _ s m (fun y n => y = list_to_set ms /\ n = size (set_of m k ∩ list_to_set ms)) Hs)|].
  - intros sh Hsh. eapply wp_mono; [by apply law_srem|]. rewrite part_not_set, part_set_of, part_set_at. intros r sh'.
    destruct (not_set m k); [done|]. intros [-> H]. by eexists _, _.
  - intros r s'. destruct (not_set m k); [done|]. intros (n & y & -> & [-> ->] & H). done.
Qed.

Lemma cluster_spop s m seed k count : cluster_repr s m ->
  wp (spop seed k count) s (fun r s' =>
    if not_set m k then exists e, r = Err e /\ type_error e /\ cluster_repr s' m
    else exists l, r = Ok l /\ sample (set_of m k) (if count <=? 0 then 1 else count) l /\
         cluster_repr s' (if set_at m k then put_set k (set_of m k ∖ list_to_set l) m else m)).
Proof.
  intros Hs. eapply wp_mono; [apply (take_law k _ s m (fun y l => y = list_to_set l /\ sample (set_of m k) (if count <=? 0 then 1 else count) l) Hs)|].
  - intros sh Hsh. eapply wp_mono; [by apply law_spop|]. rewrite part_not_set, part_set_of, part_set_at. intros r sh'.
    destruct (not_set m k); [done|]. intros (l & -> & Hl & H). by exists l, (list_to_set l).
  - intros r s'. destruct (not_set m k); [done|]. intros (l & y & -> & [-> Hl] & H). by exists l.
Qed.

(** ** Two keys *)

Definition cluster_same_shard s (from to : bytes) : bool :=
  (home s from =? home s to)%nat &&
  match shards s !! home s from with Some sh => same_shard sh from to | None => true end.

Lemma on_both_law {A} (from to : bytes) (c : action M A) s m (Q : result StoreError A -> Cluster -> Prop)
    (P : bool -> result StoreError A -> gmap bytes AVal -> Prop) :
  cluster_repr s m ->
  (forall sh, home s from = home s to -> store_repr sh (part s (home s from) m) -> wp c sh (fun r sh' =>
     exists m', store_repr sh' (part s (home s from) m') /\ (forall k, k <> from -> k <> to -> m' !! k = m !! k) /\
       P (same_shard sh from to) r m')) ->
  (forall s', cluster_repr s' m -> cluster_same_shard s from to = false -> home s from <> home s to -> Q (Err WrongShard) s') ->
  (forall r s' m', home s from = home s to -> P (cluster_same_shard s from to) r m' -> cluster_repr s' m' -> Q r s') ->
  wp (on_both from to c) s Q.
Proof.
  intros Hr Hc H1 H2. unfold wp, on_both.
  assert (cluster_repr (touch to (touch from s)) m) as Hr' by (by apply (repr_kept s)).
  unfold cluster_same_shard in *. destruct (Nat.eqb_spec (home s from) (home s to)) as [E|E]; [|by apply H1].
  pose proof (lookup_lt_is_Some_2 _ _ (cr_home _ _ Hr from)) as [sh Hsh]. rewrite Hsh in H2. cbn [andb] in H2.
  apply (wp_mono _ _ (fun r s' => exists m', cluster_repr s' m' /\ P (same_shard sh from to) r m'));
    [|intros r s' (m' & Hs' & HP); eauto].
  apply (on_shard_repr _ _ _ m); [done|apply (cr_home _ _ Hr)|]. intros sh0 Hi Hsh0.
  assert (sh0 = sh) as -> by (cbn in Hi; congruence).
  eapply wp_mono; [by apply Hc|]. intros r sh' (m' & G1 & G2 & G3). exists m'. split_and!; [done| |done].
  intros k Hk. apply G2; [by intros ->|]. intros ->. apply Hk. by symmetry.
Qed.

(** The map after a renaming, and its part at the shard. *)
Lemma part_rename s from to a m : home s from = home s to ->
  part s (home s from) (<[to := a]> (delete from m)) = <[to := a]> (delete from (part s (home s from) m)).
Proof. intros E. rewrite E. by rewrite part_insert, part_delete. Qed.

Lemma rename_ne (from to k : bytes) (a : AVal) m : k <> from -> k <> to -> <[to := a]> (delete from m) !! k = m !! k.
Proof. intros H1 H2. rewrite lookup_insert_ne, lookup_delete_ne by done. done. Qed.

Lemma part_lookup_at s i key m : home s key = i -> part s i m !! key = m !! key.
Proof. intros <-. apply part_lookup. Qed.

Lemma cluster_rename s m from to : cluster_repr s m ->
  wp (rename from to) s (fun r s' =>
    if cluster_same_shard s from to then
      match m !! from with
      | Some a => r = Ok tt /\ cluster_repr s' (<[to := a]> (delete from m))
      | None => r = Err KeyNotFound /\ cluster_repr s' m
      end
    else r = Err WrongShard /\ cluster_repr s' m).
Proof.
  intros Hs. apply (on_both_law from to _ s m _ (fun b r m' =>
    if b then match m !! from with
      | Some a => r = Ok tt /\ m' = <[to := a]> (delete from m)
      | None => r = Err KeyNotFound /\ m' = m end
    else r = Err WrongShard /\ m' = m) Hs).
  - intros sh E Hsh. eapply wp_mono; [by apply law_rename|]. intros r sh'. rewrite part_lookup.
    destruct (same_shard sh from to); [destruct (m !! from) as [a|]|]; intros [-> H].
    + exists (<[to := a]> (delete from m)). rewrite part_rename by done. split_and!; [done|intros; by apply rename_ne|done|done].
    + by exists m.
    + by exists m.
  - intros s' Hs' -> _. done.
  - intros r s' m' _ HP Hs'. destruct (cluster_same_shard s from to); [destruct (m !! from)|]; by destruct HP as [-> ->].
Qed.

Lemma cluster_renamenx s m from to : cluster_repr s m ->
  wp (renamenx from to) s (fun r s' =>
    if cluster_same_shard s from to then
      match m !! to, m !! from with
      | Some _, _ => r = Ok false /\ cluster_repr s' m
      | None, Some a => r = Ok true /\ cluster_repr s' (<[to := a]> (delete from m))
      | None, None => r = Err KeyNotFound /\ cluster_repr s' m
      end
    else r = Err WrongShard /\ cluster_repr s' m).
Proof.
  intros Hs. apply (on_both_law from to _ s m _ (fun b r m' =>
    if b then match m !! to, m !! from with
      | Some _, _ => r = Ok false /\ m' = m
      | None, Some a => r = Ok true /\ m' = <[to := a]> (delete from m)
      | None, None => r = Err KeyNotFound /\ m' = m end
    else r = Err WrongShard /\ m' = m) Hs).
  - intros sh E Hsh. eapply wp_mono; [by apply law_renamenx|]. intros r sh'.
    rewrite part_lookup, (part_lookup_at s (home s from) to m) by done.
    destruct (same_shard sh from to); [destruct (m !! to); [|destruct (m !! from) as [a|]]|]; intros [-> H]; try (by exists m).
    exists (<[to := a]> (delete from m)). rewrite part_rename by done. split_and!; [done|intros; by apply rename_ne|done|done].
  - intros s' Hs' -> _. done.
  - intros r s' m' _ HP Hs'. destruct (cluster_same_shard s from to); [destruct (m !! to); [|destruct (m !! from)]|];
      by destruct HP as [-> ->].
Qed.

(** ** All the shards *)

(** The loops over the shards; [g] is what they hold after it. *)
Lemma holds_ext s f f' : holds s f -> (forall i, (i < length (shards s))%nat -> f' i = f i) -> holds s f'.
Proof. intros H E i sh Hi. rewrite E by (by eapply lookup_lt_Some). by apply H. Qed.

Lemma flush_shards_law ids s f :
  holds s f -> Forall (fun i => i < length (shards s))%nat ids ->
  wp (flush_shards ids) s (fun r s' => r = Ok tt /\ kept s s' /\ holds s' (fun i => if decide (i ∈ ids) then ∅ else f i)).
Proof.
  revert s f. induction ids as [|id ids IH]; intros s f Hh Hall.
  { apply wp_ret. split_and!; [done|done|]. eapply holds_ext; [done|]. intros i _. by rewrite decide_False by apply not_elem_of_nil. }
  apply Forall_cons in Hall as [Hi Hall]. cbn [flush_shards]. apply wp_bind. eapply wp_mono.
  - apply (on_shard_law id st_flushdb s f (fun r m' => r = Ok tt /\ m' = ∅) Hh Hi).
    intros sh _ Hsh. eapply wp_mono; [exact (law_flushdb sh _ Hsh)|]. intros r sh' [-> H]. by exists ∅.
  - intros r s1 (m' & Hh1 & Hk1 & -> & ->). eapply wp_mono; [apply (IH s1 _ Hh1)|].
    { destruct Hk1 as [_ -> _]. done. }
    intros r s2 (-> & Hk2 & Hh2). split_and!; [done|by etrans|]. eapply holds_ext; [done|]. intros i _. cbv beta.
    destruct (decide (i ∈ ids)) as [Hin|Hin]; [by rewrite decide_True by (by apply list_elem_of_further)|].
    destruct (decide (id = i)) as [<-|Hne]; [rewrite decide_True by apply list_elem_of_here|rewrite decide_False by set_solver];
      by rewrite ?fn_lookup_insert, ?fn_lookup_insert_ne.
Qed.

Lemma all_ids s : Forall (fun i => i < length (shards s))%nat (seq 0 (length (shards s))).
Proof. apply Forall_forall. intros i Hi%elem_of_seq. lia. Qed.

Lemma part_empty s i : part s i ∅ = ∅.
Proof. apply map_filter_empty. Qed.

Lemma cluster_flushdb s m : cluster_repr s m -> wp flushdb s (fun r s' => r = Ok tt /\ cluster_repr s' ∅).
Proof.
  intros Hr. pose proof (cr_home _ _ Hr) as Hlt. pose proof (cr_holds _ _ Hr) as Hh. unfold flushdb. apply wp_bind. eapply wp_mono; [apply (flush_shards_law _ s _ Hh (all_ids s))|].
  intros r s' (-> & Hk & Hh'). split; [done|].
  assert (kept s (with_manager (reset_metrics (slot_manager s')) s')) as Hk' by (destruct Hk; by split).
  destruct (kept_state s _ m Hr Hk') as [Hro Htr]. split; [..|done|done].
  - intros key. rewrite (home_kept s _ key Hk'). cbn. destruct Hk as [_ -> _]. apply Hlt.
  - intros i sh Hi. rewrite (part_kept s _ i ∅ Hk'), part_empty. specialize (Hh' i sh Hi). cbv beta in Hh'.
    rewrite decide_True in Hh'; [done|]. apply elem_of_seq. destruct Hk as [_ <- _]. cbn in Hi. apply lookup_lt_Some in Hi. lia.
Qed.

(** The keys below a shard, counted shard by shard. *)
Definition below s (n : nat) m : gmap bytes AVal := filter (fun kv => (home s kv.1 < n)%nat) m.

Ltac key_filter m k :=
  destruct (m !! k) as [a|] eqn:E; case_decide;
  [by apply map_lookup_filter_Some|apply map_lookup_filter_None; by right|apply map_lookup_filter_None; by left..].

Lemma below_lookup s n m k : below s n m !! k = if decide (home s k < n)%nat then m !! k else None.
Proof. key_filter m k. Qed.
Lemma part_lookup_if s i m k : part s i m !! k = if decide (home s k = i) then m !! k else None.
Proof. key_filter m k. Qed.

Lemma below_succ s n m : size (below s (Datatypes.S n) m) = (size (below s n m) + size (part s n m))%nat.
Proof.
  assert (below s n m ##ₘ part s n m) as Hd.
  { apply map_disjoint_spec. intros k x y [_ H1]%map_lookup_filter_Some [_ H2]%map_lookup_filter_Some. cbn in *. lia. }
  rewrite <- map_size_disj_union by done. f_equal. apply map_eq. intros k. rewrite lookup_union, !below_lookup, part_lookup_if.
  repeat case_decide; try lia; by destruct (m !! k).
Qed.

Lemma count_shards_law n a total s m :
  cluster_repr s m -> (a + n = length (shards s))%nat -> total = size (below s a m) ->
  wp (count_shards (seq a n) total) s (fun r s' => r = Ok (size (below s (a + n) m)) /\ cluster_repr s' m).
Proof.
  revert a total s. induction n as [|n IH]; intros a total s Hr Ha Ht.
  { rewrite Nat.add_0_r. by subst total. }
  cbn [seq count_shards]. unfold wp.
  pose proof (on_shard_repr a st_dbsize s m (fun r m' => r = Ok (size (part s a m)) /\ m' = m) Hr ltac:(lia)) as Hc.
  destruct (wp_elim _ _ _ (Hc ltac:(intros sh _ Hsh; eapply wp_mono; [exact (law_dbsize sh _ Hsh)|];
    intros r sh' [-> H]; by exists m))) as (r & s1 & E & m' & Hr1 & -> & ->).
  assert (kept s s1) as Hk.
  { unfold on_shard in E. destruct (shards s !! a) as [sh|]; [|done]. destruct (st_dbsize sh) as [[r sh']|]; [|done].
    injection E as _ <-. split; [done| |done]. apply length_insert. }
  rewrite E. assert (forall b, below s1 b m = below s b m) as Hb.
  { intros b. apply map_filter_ext. intros k x _. cbn. by rewrite (home_kept s). }
  specialize (IH (Datatypes.S a) (total + size (part s a m))%nat s1 Hr1). unfold wp in IH.
  rewrite Nat.add_succ_r, <- Nat.add_succ_l. rewrite <- Hb. apply IH; [destruct Hk as [_ -> _]; lia|].
  rewrite Hb, below_succ. by subst total.
Qed.

Lemma cluster_dbsize s m : cluster_repr s m -> wp dbsize s (fun r s' => r = Ok (size m) /\ cluster_repr s' m).
Proof.
  intros Hr. unfold dbsize. eapply wp_mono; [apply (count_shards_law (length (shards s)) 0 0 s m Hr); [done|]|].
  - assert (below s 0 m = ∅) as ->; [|by rewrite map_size_empty]. apply map_eq. intros k. rewrite below_lookup, lookup_empty. case_decide; [lia|done].
  - intros r s' [-> H]. split; [|done]. do 2 f_equal. apply map_eq. intros k. rewrite below_lookup, decide_True; [done|]. apply (cr_home _ _ Hr).
Qed.

Lemma save_shards_law ids b s m :
  cluster_repr s m -> Forall (fun i => i < length (shards s))%nat ids ->
  wp (save_shards ids b) s (fun r s' => cluster_repr s' m).
Proof.
  revert b s. induction ids as [|id ids IH]; intros b s Hr Hall; [done|]. apply Forall_cons in Hall as [Hi Hall].
  cbn [save_shards]. unfold wp.
  pose proof (on_shard_repr id st_save s m (fun r m' => m' = m) Hr Hi) as Hc.
  destruct (wp_elim _ _ _ (Hc ltac:(intros sh _ Hsh; eapply wp_mono; [exact (law_save sh _ Hsh)|];
    intros r sh' H; by exists m))) as (r & s1 & E & m' & Hr1 & ->).
  assert (length (shards s1) = length (shards s)) as Hl.
  { unfold on_shard in E. destruct (shards s !! id) as [sh|]; [|by injection E as _ <-].
    destruct (st_save sh) as [[r' sh']|]; [|done]. injection E as _ <-. apply length_insert. }
  rewrite E. rewrite <- Hl in Hall. pose proof (fun b => IH b s1 Hr1 Hall) as IH'. unfold wp in IH'.
  assert (cluster_repr (record_failed_operation s1) m) as Hf by (by apply (repr_kept s1)).
  destruct r as [x|[]]; try exact Hf; apply IH'.
Qed.

Lemma cluster_save s m : cluster_repr s m -> wp save s (fun r s' => cluster_repr s' m).
Proof. intros Hr. apply save_shards_law; [done|apply all_ids]. Qed.

(** ** Grouping by shard *)

Lemma group_by_shard_spec {A} {order : HashOrder (nat * list A)} (key_of : A -> bytes) items groups gm s :
  hm_repr groups gm ->
  exists groups' gm' s', group_by_shard key_of items groups s = (groups', s') /\ hm_repr groups' gm' /\ kept s s' /\
    shards s' = shards s /\
    (forall i, is_Some (gm' !! i) <-> is_Some (gm !! i) \/ exists x, x ∈ items /\ home s (key_of x) = i) /\
    forall i, default [] (gm' !! i) = default [] (gm !! i) ++ filter (fun x => home s (key_of x) = i) items.
Proof.
  revert groups gm s. induction items as [|x items IH]; intros groups gm s Hg; cbn [group_by_shard].
  { exists groups, gm, s. split_and!; [done|done|done|done| |intros i; by rewrite app_nil_r].
    intros i. split; [by left|]. intros [?|(x & Hx & _)]; [done|by apply not_elem_of_nil in Hx]. }
  unfold Sharding.push_group.
  destruct (hm_insert_spec groups gm (home s (key_of x)) (default [] (hm_get (home s (key_of x)) groups) ++ [x]) Hg) as [_ Hg'].
  assert (kept s (touch (key_of x) s)) as Hk by done.
  destruct (IH _ _ (touch (key_of x) s) Hg') as (groups' & gm' & s' & -> & Hr & Hk' & Hs' & Hdom & Hsp).
  exists groups', gm', s'. split_and!; [done|done|by etrans|done|..].
  - intros i. rewrite Hdom. rewrite lookup_insert_is_Some. split.
    + intros [[<-|[_ ?]]|(y & Hy & Hyi)]; [right; exists x; split; [by left|done]|by left|].
      right. exists y. split; [by right|]. by rewrite (home_kept s _ _ Hk) in Hyi.
    + intros [Hi|(y & [->|Hy]%elem_of_cons & Hyi)].
      * left. destruct (decide (home s (key_of x) = i)); [by left|by right].
      * left. by left.
      * right. exists y. split; [done|]. by rewrite (home_kept s _ _ Hk).
  - intros i. rewrite Hsp, filter_cons.
    rewrite (list_filter_iff (fun y => home (touch (key_of x) s) (key_of y) = i) (fun y => home s (key_of y) = i) items)
      by (intros y; by rewrite (home_kept s _ _ Hk)).
    destruct (decide (home s (key_of x) = i)) as [E|E].
    + rewrite E, lookup_insert_eq. rewrite (hm_repr_lookup _ _ _ Hg). cbn [from_option]. unfold id. by rewrite <- app_assoc.
    + by rewrite lookup_insert_ne.
Qed.

(** What the groups are. *)
Record Grouped {A} (key_of : A -> bytes) (items : list A) s (groups : list (nat * list A)) : Prop := {
  gr_nodup : NoDup groups.*1;
  gr_filter i xs : (i, xs) ∈ groups -> xs = filter (fun x => home s (key_of x) = i) items;
  gr_all x : x ∈ items -> home s (key_of x) ∈ groups.*1;
  gr_shard i : i ∈ groups.*1 -> exists x, x ∈ items /\ home s (key_of x) = i;
}.

Lemma group_by_shard_grouped {A} {order : HashOrder (nat * list A)} (key_of : A -> bytes) items s :
  exists groups s', group_by_shard key_of items [] s = (groups, s') /\ kept s s' /\ shards s' = shards s /\ Grouped key_of items s groups.
Proof.
  destruct (group_by_shard_spec key_of items [] ∅ s hm_repr_nil) as (groups & gm & s' & E & Hr & Hk & Hs & Hdom & Hsp).
  exists groups, s'. split_and!; [done|done|done|].
  assert (forall i, i ∈ groups.*1 <-> is_Some (gm !! i)) as Hin.
  { intros i. rewrite Hr. split.
    - intros ([j xs] & -> & H%elem_of_map_to_list)%list_elem_of_fmap. by exists xs.
    - intros [xs H]. apply elem_of_map_to_list in H. by apply (list_elem_of_fmap_2 fst) in H. }
  constructor.
  - by eapply hm_repr_NoDup.
  - intros i xs H. rewrite Hr in H. apply elem_of_map_to_list in H. specialize (Hsp i). by rewrite H, lookup_empty in Hsp.
  - intros x Hx. apply Hin, Hdom. right. by exists x.
  - intros i Hi. apply Hin, Hdom in Hi as [[y Hy]|Hi]; [by rewrite lookup_empty in Hy|done].
Qed.

Lemma denotes_filter s (i : nat) (kvs : list (bytes * Value)) (kas : list (bytes * AVal)) :
  Forall2 (fun kv ka => kv.1 = ka.1 /\ denotes kv.2 ka.2) kvs kas ->
  Forall2 (fun kv ka => kv.1 = ka.1 /\ denotes kv.2 ka.2) (filter (fun kv => home s kv.1 = i) kvs) (filter (fun ka => home s ka.1 = i) kas).
Proof.
  induction 1 as [|kv ka kvs kas [E Hd] Hrest IH]; [constructor|]. rewrite !filter_cons, <- E.
  case_decide; [by constructor|done].
Qed.

Lemma part_insert_pairs s i m (kas : list (bytes * AVal)) :
  part s i (insert_pairs m kas) = insert_pairs (part s i m) (filter (fun ka => home s ka.1 = i) kas).
Proof.
  apply map_eq. intros k. rewrite part_lookup_if. case_decide as Hk.
  - set (p := fun k => bool_decide (home s k = i)).
    assert (filter (fun ka => home s ka.1 = i) kas = filter (fun ka => p ka.1) kas) as ->
      by (apply list_filter_iff; intros ka; symmetry; apply bool_decide_spec).
    symmetry. apply (ShardingLaws.insert_pairs_filter p); [by apply bool_decide_eq_true|].
    by rewrite part_lookup_if, decide_True.
  - symmetry. rewrite ShardingLaws.insert_pairs_other; [by rewrite part_lookup_if, decide_False|].
    intros ([k' a] & -> & [Hne _]%list_elem_of_filter)%list_elem_of_fmap. done.
Qed.

Lemma part_insert_pairs_other s i m (kas : list (bytes * AVal)) :
  (forall ka, ka ∈ kas -> home s ka.1 <> i) -> part s i (insert_pairs m kas) = part s i m.
Proof.
  intros H. apply part_eq. intros k Hk. apply ShardingLaws.insert_pairs_other.
  intros (ka & -> & Hin)%list_elem_of_fmap. by apply (H ka Hin).
Qed.

Lemma group_ids {A} (done_ : list nat) i (xs : A) groups : done_ ++ ((i, xs) :: groups).*1 = (done_ ++ [i]) ++ groups.*1.
Proof. by rewrite <- app_assoc. Qed.

(** [s0] gives the routes; the shards in [done_] hold what they will. *)
Lemma mset_groups_law kvs kas groups s0 s m done_ :
  Forall2 (fun kv ka => kv.1 = ka.1 /\ denotes kv.2 ka.2) kvs kas ->
  kept s0 s -> holds s (fun i => part s0 i (if decide (i ∈ done_) then insert_pairs m kas else m)) ->
  NoDup (done_ ++ groups.*1) ->
  Forall (fun g => (g.1 < length (shards s0))%nat /\ g.2 = filter (fun kv => home s0 kv.1 = g.1) kvs) groups ->
  wp (mset_groups groups) s (fun r s' => r = Ok tt /\ kept s0 s' /\
    holds s' (fun i => part s0 i (if decide (i ∈ done_ ++ groups.*1) then insert_pairs m kas else m))).
Proof.
  intros Hd. revert s done_. induction groups as [|[i xs] groups IH]; intros s done_ Hk Hh Hnd Hall.
  { apply wp_ret. split_and!; [done|done|]. by rewrite app_nil_r. }
  apply Forall_cons in Hall as [[Hi Hxs] Hall]. cbn [fst snd] in *. subst xs. cbn [mset_groups]. apply wp_bind.
  assert (i ∉ done_) as Hni.
  { apply NoDup_app in Hnd as (_ & Hnd & _). intros H. apply (Hnd i H). by left. }
  eapply wp_mono.
  - apply (on_shard_law i _ s _ (fun r m' => r = Ok tt /\ m' = part s0 i (insert_pairs m kas)) Hh); [by destruct Hk as [_ -> _]|].
    intros sh _. cbv beta. rewrite decide_False by done. intros Hsh.
    eapply wp_mono; [apply (law_mset _ _ _ _ Hsh (denotes_filter s0 i kvs kas Hd))|].
    intros r sh' [-> H]. exists (part s0 i (insert_pairs m kas)). split_and!; [|done|done]. rewrite part_insert_pairs. exact H.
  - intros r s1 (m' & Hh1 & Hk1 & -> & ->). rewrite group_ids in Hnd |- *.
    apply (IH s1 (done_ ++ [i])); [by etrans| |done|done]. eapply holds_ext; [done|]. intros j _. cbv beta.
    destruct (decide (i = j)) as [<-|Hne].
    + rewrite fn_lookup_insert, decide_True; [done|]. set_solver.
    + rewrite fn_lookup_insert_ne by done. destruct (decide (j ∈ done_)); [rewrite decide_True by set_solver|rewrite decide_False by set_solver]; done.
Qed.

Lemma count_groups_law {A} (groups : list A) s m :
  cluster_repr s m -> wp (count_groups groups) s (fun r s' => r = Ok tt /\ cluster_repr s' m).
Proof.
  intros Hr. unfold wp, count_groups. split; [done|]. destruct (1 <? length groups)%nat; [|done]. by apply (repr_kept s).
Qed.

Lemma cluster_mset s m kvs kas : cluster_repr s m ->
  Forall2 (fun kv ka => kv.1 = ka.1 /\ denotes kv.2 ka.2) kvs kas ->
  wp (mset kvs) s (fun r s' => r = Ok tt /\ cluster_repr s' (insert_pairs m kas)).
Proof.
  intros Hr Hd. unfold wp, mset. destruct (bool_decide_reflect (kvs = [])) as [->|Hne].
  { by apply Forall2_nil_inv_l in Hd as ->. }
  destruct (group_by_shard_grouped fst kvs s) as (groups & s1 & -> & Hk & Hs & [G1 G2 G3 G4]).
  apply wp_bind. eapply wp_mono.
  - apply (mset_groups_law kvs kas groups s s1 m [] Hd Hk); [|done|].
    + eapply holds_ext; [intros i sh; rewrite Hs; apply (cr_holds _ _ Hr)|]. intros i _. cbv beta. by rewrite decide_False by apply not_elem_of_nil.
    + apply Forall_forall. intros [i xs] Hg. cbn [fst snd]. split; [|by apply G2].
      apply (list_elem_of_fmap_2 fst) in Hg. apply G4 in Hg as (x & _ & Hx). cbn [fst] in Hx. rewrite <- Hx. apply (cr_home _ _ Hr).
  - intros r s2 (-> & Hk2 & Hh2). apply count_groups_law. destruct (kept_state s s2 m Hr Hk2) as [Hro Htr]. split; [..|done|done].
    + intros key. rewrite (home_kept s s2 key Hk2). destruct Hk2 as [_ -> _]. apply (cr_home _ _ Hr).
    + eapply holds_ext; [done|]. intros i _. cbv beta. rewrite (part_kept s s2 i _ Hk2). cbn [app].
      case_decide as Hi; [done|]. apply part_insert_pairs_other. intros ka Hka Hh. apply Hi. rewrite <- Hh.
      assert (exists kv, kv ∈ kvs /\ kv.1 = ka.1) as (kv & Hkv & <-); [|by apply G3].
      apply list_elem_of_lookup in Hka as [j Hj]. destruct (Forall2_lookup_r _ _ _ _ _ Hd Hj) as (kv & Hkv & E & _).
      exists kv. split; [by eapply list_elem_of_lookup_2|done].
Qed.

(** The positions of [done_] have the values of their keys. *)
Definition filled (keys : list bytes) m (results : list (option Value)) (done_ : nat -> Prop) : Prop :=
  length results = length keys /\
  forall i key, keys !! i = Some key -> done_ i -> exists v, results !! i = Some v /\ denotes_opt v (m !! key).

Lemma place_values keys m (items : list (nat * bytes)) found results done_ :
  filled keys m results done_ -> Forall (fun it => keys !! it.1 = Some it.2) items ->
  Forall2 denotes_opt found ((fun k => m !! k) <$> items.*2) ->
  filled keys m (place items found results) (fun i => i ∈ items.*1 \/ done_ i).
Proof.
  intros Hf Hall. revert found results done_ Hf. induction Hall as [|[j k] items Hj Hall IH]; intros found results done_ [Hl Hf] Hd.
  { split; [done|]. intros i key Hi [Hn|Hd']; [by apply not_elem_of_nil in Hn|by apply Hf]. }
  cbn [fst snd] in Hj. rewrite !fmap_cons in Hd. destruct found as [|v found]; [by inversion Hd|].
  apply Forall2_cons in Hd as [Hv Hd]. cbn [snd] in Hv. unfold place. cbn [zip zip_with foldl fst snd].
  destruct (IH found (<[j := v]> results) (fun i => i = j \/ done_ i)) as [Hl' Hf']; [|done|].
  - split; [by rewrite length_insert|]. intros i key Hi Hdone. destruct (decide (j = i)) as [->|Hne].
    + exists v. split; [apply list_lookup_insert_eq; rewrite Hl; by eapply lookup_lt_Some|congruence].
    + rewrite list_lookup_insert_ne by done. apply Hf; [done|]. destruct Hdone; congruence.
  - split; [exact Hl'|]. intros i key Hi Hdone. apply (Hf' i key Hi). rewrite fmap_cons, elem_of_cons in Hdone. cbn [fst] in Hdone. tauto.
Qed.

Lemma mget_groups_law keys groups s m results done_ :
  cluster_repr s m -> filled keys m results done_ ->
  Forall (fun g => (g.1 < length (shards s))%nat /\ Forall (fun it => home s it.2 = g.1 /\ keys !! it.1 = Some it.2) g.2) groups ->
  wp (mget_groups groups results) s (fun r s' => exists results', r = Ok results' /\ cluster_repr s' m /\
    filled keys m results' (fun i => (exists g, g ∈ groups /\ i ∈ g.2.*1) \/ done_ i)).
Proof.
  revert s results done_. induction groups as [|[j items] groups IH]; intros s results done_ Hr Hf Hall.
  { apply wp_ret. exists results. split_and!; [done|done|]. split; [apply Hf|]. intros i key Hi [(g & Hg & _)|Hd]; [by apply not_elem_of_nil in Hg|by apply Hf]. }
  apply Forall_cons in Hall as [[Hlt Hk] Hall]. cbn [fst snd] in *. cbn [mget_groups]. apply wp_bind.
  eapply wp_mono.
  - apply (on_shard_law j _ s _ (fun r m' => m' = part s j m /\ exists found, r = Ok found /\ Forall2 denotes_opt found ((fun k => part s j m !! k) <$> items.*2))
      (cr_holds _ _ Hr) Hlt).
    intros sh _ Hsh. eapply wp_mono; [exact (law_mget sh _ items.*2 Hsh)|]. intros r sh' (vs & -> & Hvs & H).
    exists (part s j m). split_and!; [done|done|]. by exists vs.
  - intros r s1 (m' & Hh1 & Hk1 & -> & found & -> & Hfound).
    assert (cluster_repr s1 m) as Hr1 by (by apply (repr_step s s1 j m m)).
    assert (Forall2 denotes_opt found ((fun k => m !! k) <$> items.*2)) as Hfound'.
    { replace ((fun k => m !! k) <$> items.*2) with ((fun k => part s j m !! k) <$> items.*2); [done|].
      apply list_fmap_ext. intros n k Hn. apply part_lookup_at. rewrite list_lookup_fmap in Hn.
      apply fmap_Some in Hn as (it & Hit & ->). exact (proj1 (proj1 (Forall_lookup _ _) Hk n it Hit)). }
    assert (Forall (fun it : nat * bytes => keys !! it.1 = Some it.2) items) as Hk' by (by eapply Forall_impl; [exact Hk|intros ? []]).
    eapply wp_mono; [apply (IH s1 _ _ Hr1 (place_values keys m items found results done_ Hf Hk' Hfound'))|].
    + eapply Forall_impl; [exact Hall|]. intros [j' xs] [H1 H2]. cbn [fst snd] in *.
      split; [destruct Hk1 as [_ -> _]; done|]. eapply Forall_impl; [exact H2|]. intros it [<- ?].
      split; [by apply home_kept|done].
    + intros r s2 (results' & -> & Hr2 & Hl & Hf'). exists results'. split_and!; [done|done|]. split; [exact Hl|].
      intros i key Hi Hd. apply (Hf' i key Hi).
      destruct Hd as [(g & Hg & Hin)|Hd]; [|tauto]. apply elem_of_cons in Hg as [->|Hg]; [right; by left|left; by exists g].
Qed.

Lemma positions_lookup (keys : list bytes) i key : (i, key) ∈ zip (seq 0 (length keys)) keys <-> keys !! i = Some key.
Proof.
  rewrite list_elem_of_lookup. setoid_rewrite lookup_zip_with. split.
  - intros (j & Hj). destruct (seq 0 (length keys) !! j) as [n|] eqn:En; [|done]. cbn in Hj.
    destruct (keys !! j) as [k|] eqn:Ek; [|done]. injection Hj as -> ->. by apply lookup_seq in En as [-> _].
  - intros Hk. exists i. rewrite lookup_seq_lt by (by eapply lookup_lt_Some). cbn. by rewrite Hk.
Qed.

Lemma cluster_mget s m ks : cluster_repr s m ->
  wp (mget ks) s (fun r s' => exists vs, r = Ok vs /\ Forall2 denotes_opt vs ((fun k => m !! k) <$> ks) /\ cluster_repr s' m).
Proof.
  intros Hr. unfold wp, mget. destruct (bool_decide_reflect (ks = [])) as [->|Hne].
  { exists []. split_and!; [done|constructor|done]. }
  destruct (group_by_shard_grouped snd (zip (seq 0 (length ks)) ks) s) as (groups & s1 & -> & Hk & Hs & [G1 G2 G3 G4]).
  assert (cluster_repr s1 m) as Hr1 by (by apply (repr_kept s)).
  apply wp_bind. eapply wp_mono; [apply (mget_groups_law ks groups s1 m (replicate (length ks) None) (fun _ => False) Hr1)|].
  - split; [apply length_replicate|done].
  - apply Forall_forall. intros [j xs] Hg. cbn [fst snd]. split.
    + pose proof (list_elem_of_fmap_2 fst _ _ Hg) as Hj. apply G4 in Hj as (x & _ & Hx). cbn [fst] in Hx. rewrite <- Hx.
      rewrite <- (home_kept s s1 _ Hk). apply (cr_home _ _ Hr1).
    + rewrite (G2 _ _ Hg). apply Forall_forall. intros [i key] [Hh Hin]%list_elem_of_filter. cbn [fst snd] in *.
      split; [by rewrite (home_kept s s1 _ Hk)|by apply positions_lookup].
  - intros r s2 (results & -> & Hr2 & Hl & Hf). apply wp_bind. eapply wp_mono; [by apply (count_groups_law groups s2 m)|].
    intros r s3 [-> Hr3]. apply wp_ret. exists results. split_and!; [done| |done].
    apply Forall2_lookup. intros i. rewrite list_lookup_fmap. destruct (ks !! i) as [key|] eqn:Ek.
    + destruct (Hf i key Ek) as (v & -> & Hv); [|by constructor]. left.
      pose proof (proj2 (positions_lookup ks i key) Ek) as Hin. pose proof (G3 _ Hin) as ([j xs] & Ej & Hg)%list_elem_of_fmap.
      cbn [fst snd] in Ej. subst j. eexists. split; [exact Hg|]. cbn [snd]. rewrite (G2 _ _ Hg).
      apply list_elem_of_fmap. exists (i, key). split; [done|]. apply list_elem_of_filter. by split.
    + apply lookup_ge_None in Ek. rewrite (proj2 (lookup_ge_None results i)) by lia. constructor.
Qed.

Instance cluster_laws : StorageLaws Cluster := {|
  store_repr := cluster_repr; same_shard := cluster_same_shard;
  law_set := cluster_set; law_get := cluster_get; law_del := cluster_del; law_mset := cluster_mset; law_mget := cluster_mget;
  law_rename := cluster_rename; law_renamenx := cluster_renamenx; law_flushdb := cluster_flushdb; law_dbsize := cluster_dbsize;
  law_save := cluster_save; law_sadd := cluster_sadd; law_smembers := cluster_smembers; law_scard := cluster_scard;
  law_sismember := cluster_sismember; law_srem := cluster_srem; law_srandmember := cluster_srandmember; law_spop := cluster_spop;
|}.
End ClusterLaws.

(** ** The engine of a server *)

Section EngineLaws.
Context {A B C : Type} {oa : StorageOps A} {ob : StorageOps B} {oc : StorageOps C}.
Context {la : StorageLaws A} {lb : StorageLaws B} {lc : StorageLaws C}.
Notation Engine := (StorageEngine A B C).

Definition engine_repr (s : Engine) (m : gmap bytes AVal) : Prop :=
  match s with EMemory a => store_repr a m | ECluster b => store_repr b m | EPersistent c => store_repr c m end.

Definition engine_same_shard (s : Engine) (from to : bytes) : bool :=
  match s with EMemory a => same_shard a from to | ECluster b => same_shard b from to | EPersistent c => same_shard c from to end.

Lemma wp_dispatch {R} (a : action A R) (b : action B R) (c : action C R) (s : Engine) (Q : result StoreError R -> Engine -> Prop) :
  wp (dispatch a b c) s Q <->
  match s with
  | EMemory x => wp a x (fun r x => Q r (EMemory x))
  | ECluster x => wp b x (fun r x => Q r (ECluster x))
  | EPersistent x => wp c x (fun r x => Q r (EPersistent x))
  end.
Proof.
  unfold wp, dispatch. destruct s as [x|x|x].
  - by destruct (a x) as [[r y]|].
  - by destruct (b x) as [[r y]|].
  - by destruct (c x) as [[r y]|].
Qed.

#[export] Instance engine_laws : StorageLaws Engine.
Proof.
  refine {| store_repr := engine_repr; same_shard := engine_same_shard |}; intros s; intros;
    destruct s as [x|x|x]; apply wp_dispatch;
    lazymatch goal with
    | |- wp (st_set _ _) _ _ => by apply law_set
    | |- wp (st_get _) _ _ => by apply law_get
    | |- wp (st_del _) _ _ => by apply law_del
    | |- wp (st_mset _) _ _ => by apply law_mset
    | |- wp (st_mget _) _ _ => by apply law_mget
    | |- wp (st_rename _ _) _ _ => by apply law_rename
    | |- wp (st_renamenx _ _) _ _ => by apply law_renamenx
    | |- wp st_flushdb _ _ => by eapply law_flushdb
    | |- wp st_dbsize _ _ => by eapply law_dbsize
    | |- wp st_save _ _ => by eapply law_save
    | |- wp (st_sadd _ _) _ _ => by apply law_sadd
    | |- wp (st_smembers _) _ _ => by apply law_smembers
    | |- wp (st_scard _) _ _ => by apply law_scard
    | |- wp (st_sismember _ _) _ _ => by apply law_sismember
    | |- wp (st_srem _ _) _ _ => by apply law_srem
    | |- wp (st_srandmember _ _ _) _ _ => by apply law_srandmember
    | |- wp (st_spop _ _ _) _ _ => by apply law_spop
    end.
Defined.
End EngineLaws.

(** ** Runs of a cluster *)

(** What happens to a cluster: a command, or a call of its slot manager, such as
    those of the background thread. *)
Inductive cluster_event : Type :=
| OnCommand (c : Command)
| OnSlots (c : slot_call).

(** The calls that route no key elsewhere. *)
Definition keeps_routes (c : slot_call) : bool :=
  match c with Start _ _ _ | Complete _ => false | Rollback slot => 0 <=? slot | _ => true end.

Definition harmless (e : cluster_event) : Prop :=
  match e with OnCommand c => carries c | OnSlots c => keeps_routes c = true end.

Definition commands_of : list cluster_event -> list Command :=
  omap (fun e => match e with OnCommand c => Some c | OnSlots _ => None end).

Lemma rollback_routes slot sm : 0 <= slot -> tracked sm -> routes_alike sm (rollback_migration slot sm).2.
Proof.
  intros Hs Ht. unfold rollback_migration, end_migration. destruct (active_migrations sm !! slot) as [t|] eqn:Ha; [|done].
  destruct (_ <=? _)%nat; [done|]. unfold routes_alike. cbn [snd with_assignments slot_assignments]. rewrite list_fmap_insert.
  apply list_insert_id. rewrite list_lookup_fmap.
  rewrite (proj1 (Ht slot Hs (from_shard t) (to_shard t))); [done|]. by exists t.
Qed.

Lemma slots_routes c sm : keeps_routes c = true -> tracked sm -> routes_alike sm (slot_step c sm) /\ tracked (slot_step c sm).
Proof.
  intros Hc Ht. split; [|apply tracked_step; [|done]].
  - destruct c as [slot from to|slot|slot|key|now|]; try done; cbn [slot_step keeps_routes] in *.
    + apply rollback_routes; [by apply Z.leb_le|done].
    + by apply rebalance_spec.
  - intros slot. destruct c; cbn [call_slot keeps_routes] in *; intros E; try done. apply (inj Some) in E. subst. by apply Z.leb_le.
Qed.

Lemma spec_ext {text : FloatText} (f g : bytes -> bytes -> bool) m c r m' :
  (forall from to, f from to = g from to) -> spec f m c r m' -> spec g m c r m'.
Proof. intros E. destruct c; try done; cbn [spec]; by rewrite E. Qed.

Section Runs.
Context {text : FloatText} {M : Type} {ops : StorageOps M} {laws : StorageLaws M}.
Context {set_order : HashOrder (nat * list (bytes * Value))} {get_order : HashOrder (nat * list (nat * bytes))}.
Context {hash_order : HashOrder (bytes * bytes)} {pair_rand : Rand (bytes * bytes)} (cpu : Bitmap.CpuFeatures).
Notation Cluster := (InClusterStore M).
Implicit Types (s : Cluster) (m : gmap bytes AVal).

(** The answers to the commands, until one panics. *)
Fixpoint cluster_run (events : list cluster_event) s : list (result StoreError Value) * option Cluster :=
  match events with
  | [] => ([], Some s)
  | OnSlots c :: events => cluster_run events (with_slots (slot_step c) s)
  | OnCommand c :: events =>
      match execute cpu c s with
      | Some (r, s) => let '(rs, o) := cluster_run events s in (r :: rs, o)
      | None => ([], None)
      end
  end.

(** The shard that the routes give a key, and the keys on one shard. *)
Definition route (routes : list nat) (key : bytes) : nat :=
  default 0%nat (routes !! Z.to_nat (calculate_slot (from_utf8_lossy key))).
Definition one_shard (routes : list nat) (from to : bytes) : bool := (route routes from =? route routes to)%nat.

Lemma home_route routes s m key : cluster_repr routes s m -> home s key = route routes key.
Proof. intros Hr. unfold home, route, get_key_shard, get_slot_shard. by rewrite <- (cr_routes _ _ _ Hr), list_lookup_fmap. Qed.

Lemma slots_repr routes c s m : keeps_routes c = true -> cluster_repr routes s m -> cluster_repr routes (with_slots (slot_step c) s) m.
Proof.
  intros Hc Hr. pose proof Hr as [Hlt Hh Hro Htr]. destruct (slots_routes c (slot_manager s) Hc Htr) as [Hal Ht].
  assert (forall key, home (with_slots (slot_step c) s) key = home s key) as Hhome by (intros key; by apply routes_key).
  constructor; [| |by rewrite <- Hro|done].
  - intros key. rewrite Hhome. apply Hlt.
  - intros i sh Hi. replace (part (with_slots (slot_step c) s) i m) with (part s i m); [by apply Hh|].
    apply map_filter_ext. intros k a _. cbn. by rewrite Hhome.
Qed.

Lemma cluster_run_spec routes events s m :
  (forall (sh : M) from to, same_shard sh from to = true) ->
  cluster_repr routes s m -> Forall harmless events ->
  exists o, spec_run (one_shard routes) m (commands_of events) (cluster_run events s).1 o /\
    match (cluster_run events s).2, o with Some s, Some m => cluster_repr routes s m | None, None => True | _, _ => False end.
Proof.
  intros Hone. revert s m. induction events as [|e events IH]; intros s m Hs He; [exists (Some m); by split; [constructor|]|].
  apply Forall_cons in He as [He Hes]. destruct e as [c|c]; cbn [cluster_run commands_of omap list_omap].
  - destruct (panics m c) eqn:Hp.
    + exists None. assert (execute cpu c s = None) as ->; [|by split; [constructor|]].
      destruct c; try done. by apply (getrange_panics (laws := cluster_laws routes) cpu key start stop s m).
    + destruct (wp_elim _ _ _ (execute_refines (laws := cluster_laws routes) cpu c s m Hs He Hp)) as (r & s' & -> & a & m' & Ha & Hspec & Hs').
      destruct (IH s' m' Hs' Hes) as (o & Hrun & Ho). destruct (cluster_run events s') as [rs o'].
      exists o. split; [|done]. econstructor; [done| |done|exact Hrun]. eapply spec_ext; [|exact Hspec].
      intros from to. cbn [same_shard cluster_laws]. unfold cluster_same_shard, one_shard.
      rewrite !(home_route routes s m) by done. destruct (_ =? _)%nat; [|done]. cbn [andb].
      destruct (shards s !! _); [apply Hone|done].
  - apply IH; [by apply slots_repr|done].
Qed.

Lemma calculate_slot_range key : 0 <= calculate_slot key < TOTAL_SLOTS.
Proof. unfold calculate_slot, TOTAL_SLOTS. apply Z.mod_pos_bound. lia. Qed.

Lemma new_repr shs now s : Forall (fun sh => store_repr sh ∅) shs -> new shs now = Some s ->
  cluster_repr ((fun slot => slot mod length shs)%nat <$> slots) s ∅.
Proof.
  intros Hall. unfold new. destruct (Slots.new (length shs) now) as [sm|] eqn:E; [|done]. cbn [mbind option_bind].
  intros Es. apply (inj Some) in Es. subst s.
  assert (length shs <> 0)%nat as Hne by (intros H; unfold Slots.new in E; by rewrite H in E).
  constructor; cbn [shards slot_manager].
  - intros key. unfold home, get_key_shard, get_slot_shard. cbn [slot_manager].
    rewrite (new_assignment _ _ _ _ E) by (apply calculate_slot_range). cbn [shard_of_state fmap option_fmap option_map default from_option].
    by apply Nat.mod_upper_bound.
  - intros i sh Hi. rewrite part_empty. exact (Forall_lookup_1 _ _ _ _ Hall Hi).
  - unfold Slots.new in E. destruct (_ =? 0)%nat; [done|]. apply (inj Some) in E. subst sm. cbn [slot_assignments].
    generalize slots. intros l. by rewrite <- list_fmap_compose.
  - by eapply new_tracked.
Qed.
End Runs.


(** When a migration that started at the shard of its slot is completed, the
    keys of the slot are gone for the commands: nothing copies them; a key of any
    other slot is found as before. *)
Theorem migration_loses_keys {M : Type} {ops : StorageOps M} {laws : StorageLaws M}
    {o1 : HashOrder (nat * list (bytes * Value))} {o2 : HashOrder (nat * list (nat * bytes))}
    (routes : list nat) (s : InClusterStore M) (m : gmap bytes AVal) (slot : Z) (from to : nat) (key : bytes) :
  cluster_repr routes s m -> 0 <= slot -> get_slot_shard slot (slot_manager s) = Some from ->
  active_migrations (slot_manager s) !! slot = None -> to <> from -> (to < length (shards s))%nat ->
  let s' := with_slots (fun sm => slot_step (Complete slot) (slot_step (Start slot from to) sm)) s in
  wp (get key) s' (fun r _ => exists v, r = Ok v /\
    if decide (calculate_slot (from_utf8_lossy key) = slot) then v = None else denotes_opt v (m !! key)).
Proof.
  intros Hr Hs Hsh Hna Hne Hto s'.
  pose proof (proj2 (proj2 (migration_routes _ slot from to Hs Hsh Hna (from_utf8_lossy key)))) as Hhome.
  change (home s' key = if decide (calculate_slot (from_utf8_lossy key) = slot) then to else home s key) in Hhome.
  unfold wp, get, on_key, on_shard. change (home (record_operation key s') key) with (home s' key). rewrite Hhome.
  change (shards (record_operation key s')) with (shards s).
  set (i := if decide _ then to else home s key) in *.
  assert (i < length (shards s))%nat as [sh Hi]%lookup_lt_is_Some by (subst i; case_decide; [done|apply (cr_home _ _ _ Hr)]).
  rewrite Hi. cbn [mbind option_bind].
  destruct (wp_elim _ _ _ (law_get sh _ key (cr_holds _ _ _ Hr i sh Hi))) as (r & sh' & -> & v & -> & Hv & _).
  cbn [mbind option_bind]. exists v. split; [done|]. subst i. case_decide as Hk; [|by rewrite part_lookup in Hv].
  rewrite part_lookup_ne in Hv; [by destruct v|]. intros E. apply Hne. rewrite <- E. unfold home, get_key_shard. by rewrite Hk, Hsh.
Qed.

(** ** Witnesses *)

#[local] Existing Instance CommandRefinement.first_rand.
#[local] Existing Instance CommandRefinement.no_text.
#[local] Existing Instance Memory.memory_laws.

Definition ex_events : list cluster_event :=
  [OnCommand (Set_ [97] (VInt 1)); OnSlots (Rebalance 40000000000); OnCommand (Set_ [98] (VInt 2)); OnSlots (Rollback 5);
   OnCommand (Rename [97] [98]); OnCommand DbSize].


(** One slot, on the first of two shards, which has the empty key. *)
Definition ex_cluster : InClusterStore (InMemoryStore unit) :=
  mkCluster _ [Memory.set_data {[ [] := VStr [120] ]} Memory.new; Memory.new]
    (mkSlotManager [Stable 0] 1 [0; 0] [0] (mkLoad [] [] []) ∅ [] 2 0) (mkOperations 0 0 0 0).

Lemma ex_cluster_repr : cluster_repr [0%nat] ex_cluster {[ [] := AStr [120] ]}.
Proof.
  assert (forall key, home ex_cluster key = 0%nat) as Hh.
  { intros key. unfold home, get_key_shard, get_slot_shard. cbn [slot_manager ex_cluster slot_assignments]. by destruct (Z.to_nat _). }
  constructor; [intros key; rewrite Hh; cbn; lia| |done|].
  - intros [|[|i]] sh Hi; [..|done]; injection Hi as <-.
    + replace (part ex_cluster 0 {[ [] := AStr [120] ]}) with ({[ [] := AStr [120] ]} : gmap bytes AVal).
      * apply (keyspace_insert ∅ ∅); [apply keyspace_empty|constructor].
      * apply map_eq. intros k. by rewrite part_lookup_if, decide_True by apply Hh.
    + replace (part ex_cluster 1 {[ [] := AStr [120] ]}) with (∅ : gmap bytes AVal); [apply keyspace_empty|].
      apply map_eq. intros k. by rewrite part_lookup_if, decide_False by (by rewrite Hh).
  - intros slot Hs from to. cbn [slot_manager ex_cluster slot_assignments active_migrations]. split; [by intros (t & H & _)|].
    by destruct (Z.to_nat slot).
Qed.

Lemma migration_loses_keys_witness :
  let s' := with_slots (fun sm => slot_step (Complete 0) (slot_step (Start 0 0 1) sm)) ex_cluster in
  (exists s, get [] ex_cluster = Some (Ok (Some (VStr [120])), s)) /\
  wp (get []) s' (fun r _ => exists v, r = Ok v /\ v = None).
Proof.
  split; [by eexists|].
  pose proof (migration_loses_keys [0%nat] ex_cluster _ 0 0 1 [] ex_cluster_repr ltac:(done) eq_refl eq_refl ltac:(done) ltac:(cbn; lia)) as H.
  exact H.
Defined.
