(* ===== verification/Messages.v ===== *)
(** * Messages of publish and subscribe, and their wire form

    Models [src/src/pubsub/message.rs] (payloads, metadata, sizes),
    [src/src/error/pubsub.rs] and [src/src/pubsub/zsp_integration.rs] (messages
    and commands as frames).  The libraries serde_json, bincode, rmp-serde, flate2
    and globset are open ([MessageText]); an error that wraps a library's text
    keeps only the part that the source writes. *)
From S2P Require Import Prelude Interfaces SdsNumeric ZdbValue Numbers Zsp Text Protocol.
Local Open Scope Z_scope.

Inductive RecvError : Type :=
| Closed | Timeout | SerializationError (msg : string) | Lagged (count : Z) | InvalidPattern
| ChannelNotFound (msg : string) | SubscriberLimitExceeded.

Inductive TryRecvError : Type :=
| TryEmpty | TryClosed | TryLagged (count : Z).

Definition recv_error_of (e : TryRecvError) : RecvError :=
  match e with TryEmpty => Timeout | TryClosed => Closed | TryLagged n => Lagged n end.

Inductive SerializationFormat : Type := FormatJson | FormatBincode | FormatMessagePack.

Record MessageMetadata : Type := mkMetadata {
  message_id : option bytes; timestamp : option Z; headers : list (bytes * bytes);
}.

Definition default_metadata : MessageMetadata := mkMetadata None None [].

(** What the libraries do: metadata as JSON, the keys of a JSON object, values of
    a type that is serialized, gzip, and patterns. *)
Class MessageText {js : Json} := {
  metadata_to_json : MessageMetadata -> bytes;
  metadata_of_json : bytes -> option MessageMetadata;
  object_keys : json -> option (list bytes);
  gzip : bytes -> bytes;
  gunzip : bytes -> option bytes;
  globs : Type;
  globs_new : list bytes -> option globs;
  glob_is_match : globs -> bytes -> bool;
}.

Class MessageTextLaws {js : Json} {mt : MessageText} : Prop := {
  gunzip_gzip b : gunzip (gzip b) = Some b;
  metadata_text m : metadata_of_json (metadata_to_json m) = Some m;
  metadata_utf8 m : is_utf8 (metadata_to_json m) = true;
  json_text v : json_from_str (json_to_string v) = Some v;
  json_utf8 v : is_utf8 (json_to_string v) = true;
}.

Section Messages.
Context {js : Json} {mt : MessageText}.

Inductive MessagePayload : Type :=
| PBytes (b : bytes)
| PString (s : bytes)
| PJson (v : json)
| PSerialized (data content_type : bytes).

Record Message : Type := mkMessage {
  channel : bytes; payload : MessagePayload; metadata : option MessageMetadata;
}.

(** [intern_channel] gives an equal string. *)
Definition message_new (channel payload : bytes) : Message := mkMessage channel (PBytes payload) None.
Definition with_payload (channel : bytes) (payload : MessagePayload) : Message := mkMessage channel payload None.
Definition from_string (channel content : bytes) : Message := mkMessage channel (PString content) None.
Definition from_json (channel : bytes) (v : json) : Message := mkMessage channel (PJson v) None.

Definition with_metadata (md : MessageMetadata) (m : Message) : Message := mkMessage (channel m) (payload m) (Some md).

Definition on_metadata (f : MessageMetadata -> MessageMetadata) (m : Message) : Message :=
  with_metadata (f (default default_metadata (metadata m))) m.

Definition with_timestamp (now : Z) : Message -> Message :=
  on_metadata (fun md => mkMetadata (message_id md) (Some now) (headers md)).
Definition with_message_id (id : bytes) : Message -> Message :=
  on_metadata (fun md => mkMetadata (Some id) (timestamp md) (headers md)).
Definition with_header {order : HashOrder (bytes * bytes)} (key value : bytes) : Message -> Message :=
  on_metadata (fun md => mkMetadata (message_id md) (timestamp md) (hm_insert key value (headers md)).2).

Definition payload_bytes (p : MessagePayload) : bytes :=
  match p with PBytes b => b | PString s => s | PJson v => json_to_string v | PSerialized data _ => data end.

Definition payload_len (p : MessagePayload) : Z := Z.of_nat (length (payload_bytes p)).
Definition payload_is_empty (p : MessagePayload) : bool := payload_len p =? 0.

Definition message_size (m : Message) : Z :=
  payload_len (payload m) + Z.of_nat (length (channel m)) +
  match metadata m with Some md => Z.of_nat (length (metadata_to_json md)) | None => 0 end.

Definition content_type_of (p : MessagePayload) : bytes :=
  match p with
  | PBytes _ => ascii_bytes "application/octet-stream"
  | PString _ => ascii_bytes "text/plain"
  | PJson _ => ascii_bytes "application/json"
  | PSerialized _ ct =>
      if bool_decide (ct = ascii_bytes "application/json") then ascii_bytes "application/json"
      else if bool_decide (ct = ascii_bytes "application/bincode") then ascii_bytes "application/bincode"
      else if bool_decide (ct = ascii_bytes "application/msgpack") then ascii_bytes "application/msgpack"
      else ascii_bytes "application/octet-stream"
  end.

(** A type with serde's two traits, for every format. *)
Section Serialization.
Context {T : Type} (serialize : SerializationFormat -> T -> option bytes) (deserialize_bytes : SerializationFormat -> bytes -> option T).
Context (deserialize_json : json -> option T).

Definition format_content_type (f : SerializationFormat) : bytes :=
  ascii_bytes (match f with FormatJson => "application/json" | FormatBincode => "application/bincode" | FormatMessagePack => "application/msgpack" end).

Definition serialization_failed {A} (o : option A) : result RecvError A :=
  match o with Some x => Ok x | None => Err (SerializationError "") end.

Definition from_serializable (value : T) (format : SerializationFormat) : result RecvError MessagePayload :=
  let? data := serialization_failed (serialize format value) in Ok (PSerialized data (format_content_type format)).

Definition deserialize (p : MessagePayload) : result RecvError T :=
  match p with
  | PJson v => serialization_failed (deserialize_json v)
  | PString s | PBytes s => serialization_failed (deserialize_bytes FormatJson s)
  | PSerialized data ct =>
      if bool_decide (ct = ascii_bytes "application/json") then serialization_failed (deserialize_bytes FormatJson data)
      else if bool_decide (ct = ascii_bytes "application/bincode") then serialization_failed (deserialize_bytes FormatBincode data)
      else if bool_decide (ct = ascii_bytes "application/msgpack") then serialization_failed (deserialize_bytes FormatMessagePack data)
      else Err (SerializationError "Unsupported content type")
  end.
End Serialization.

(** ** The wire *)

Inductive PubSubCommand : Type :=
| Subscribe (channels : list bytes)
| Unsubscribe (channels : list bytes)
| Publish (channel : bytes) (payload : MessagePayload).

Definition payload_frames (p : MessagePayload) : list ZspFrame :=
  match p with
  | PBytes b => [inline "BYTES"; BinaryString (Some b)]
  | PString s => [inline "STRING"; BinaryString (Some s)]
  | PJson v => [inline "JSON"; BinaryString (Some (json_to_string v))]
  | PSerialized data ct => [inline "SERIALIZED"; BinaryString (Some ct); BinaryString (Some data)]
  end.

Definition message_to_zsp_frame (msg : Message) : ZspFrame :=
  Array (inline "MESSAGE" :: BinaryString (Some (channel msg)) :: payload_frames (payload msg) ++
    match metadata msg with
    | Some md => [inline "METADATA"; BinaryString (Some (metadata_to_json md))]
    | None => []
    end).

Definition extract_binary_string (frame : ZspFrame) : result RecvError bytes :=
  match frame with
  | BinaryString (Some b) => Ok b
  | InlineString s => Ok s
  | _ => Err (SerializationError "Expected binary string")
  end.

(** [String::from_utf8] *)
Definition utf8_string (b : bytes) : result RecvError bytes :=
  if is_utf8 b then Ok b else Err (SerializationError "").

Definition json_value (s : bytes) : result RecvError json := serialization_failed (json_from_str s).

(** The payload of a message by its type, which has to be spelled so. *)
Definition message_payload (payload_type : bytes) (c3 : ZspFrame) (rest : list ZspFrame) : result RecvError MessagePayload :=
  if bool_decide (payload_type = ascii_bytes "BYTES") then let? data := extract_binary_string c3 in Ok (PBytes data)
  else if bool_decide (payload_type = ascii_bytes "STRING") then
    let? data := extract_binary_string c3 in let? s := utf8_string data in Ok (PString s)
  else if bool_decide (payload_type = ascii_bytes "JSON") then
    let? data := extract_binary_string c3 in let? s := utf8_string data in let? v := json_value s in Ok (PJson v)
  else if bool_decide (payload_type = ascii_bytes "SERIALIZED") then
    match rest with
    | [] => Err (SerializationError "SERIALIZED requires content type and data")
    | c4 :: _ =>
        let? content_type := extract_binary_string c3 in
        let? data := extract_binary_string c4 in
        let? content_type := utf8_string content_type in Ok (PSerialized data content_type)
    end
  else Err (SerializationError "Unknown payload type").

(** The metadata, if the marker and one more frame are there. *)
Definition message_metadata (components : list ZspFrame) (m : Message) : result RecvError Message :=
  match components with
  | InlineString marker :: data :: _ =>
      if bool_decide (marker = ascii_bytes "METADATA") then
        let? data := extract_binary_string data in
        let? s := utf8_string data in
        let? md := serialization_failed (metadata_of_json s) in Ok (with_metadata md m)
      else Ok m
  | _ => Ok m
  end.

Definition zsp_frame_to_message (frame : ZspFrame) : result RecvError Message :=
  match frame with
  | Array (c0 :: c1 :: c2 :: c3 :: rest) =>
      let? _ :=
        match c0 with
        | InlineString msg_type =>
            if bool_decide (msg_type = ascii_bytes "MESSAGE") then Ok tt else Err (SerializationError "Expected MESSAGE marker")
        | _ => Err (SerializationError "Invalid message format")
        end in
      let? channel := extract_binary_string c1 in
      let? channel := utf8_string channel in
      let? payload_type :=
        match c2 with InlineString pt => Ok pt | _ => Err (SerializationError "Payload type must be inline string") end in
      let? payload := message_payload payload_type c3 rest in
      let tail := if bool_decide (payload_type = ascii_bytes "SERIALIZED") then drop 1 rest else rest in
      message_metadata tail (with_payload channel payload)
  | _ => Err (SerializationError "Invalid message array")
  end.

Definition message_payload_to_pubsub (p : MessagePayload) : PubSubMessage :=
  match p with PBytes b => MBytes b | PString s => MString s | PJson v => MJson v | PSerialized d ct => MSerialized d ct end.
Definition pubsub_to_message_payload (p : PubSubMessage) : MessagePayload :=
  match p with MBytes b => PBytes b | MString s => PString s | MJson v => PJson v | MSerialized d ct => PSerialized d ct end.

Section Wire.
Context {text : FloatText} {dict_order : HashOrder (bytes * ZspFrame)} {set_order : HashOrder ZspFrame}.
Context (max_items : ZspFrame -> Z) (i64_as_f64 : Z -> f64).

Definition encoded (frame : ZspFrame) : result RecvError bytes :=
  match encode frame with Ok b => Ok b | Err _ => Err (SerializationError "Encode") end.

Definition encode_message (msg : Message) : result RecvError bytes := encoded (message_to_zsp_frame msg).

Definition channels_frame (name : string) (channels : list bytes) : ZspFrame :=
  Array (inline name :: ((fun c => BinaryString (Some c)) <$> channels)).

Definition encode_subscribe (channels : list bytes) : result RecvError bytes := encoded (channels_frame "SUBSCRIBE" channels).
Definition encode_unsubscribe (channels : list bytes) : result RecvError bytes := encoded (channels_frame "UNSUBSCRIBE" channels).
Definition encode_publish (channel : bytes) (p : MessagePayload) : result RecvError bytes :=
  encoded (Array (inline "PUBLISH" :: BinaryString (Some channel) :: payload_frames p)).

(** [None] is a panic of the decoder.  What is decoded is a borrow of [slice],
    which keeps its length. *)
Definition decode_message (data : bytes) : option (result RecvError (option Message) * bytes) :=
  if bool_decide (data = []) then Some (Ok None, data)
  else
    let slice := data in
    match Zsp.decode max_items i64_as_f64 (length data + 2) Initial slice with
    | DOk (Some frame) _ _ =>
        let consumed := (length data - length slice)%nat in
        let data := drop consumed data in
        Some (match zsp_frame_to_message frame with Ok m => Ok (Some m) | Err e => Err e end, data)
    | DOk None _ _ => Some (Ok None, data)
    | DErr _ => Some (Err (SerializationError "Decode"), data)
    | DPanic | DDeep => None
    end.

(** [collect] of the channels: the first error. *)
Fixpoint channel_names (frames : list ZspFrame) : result RecvError (list bytes) :=
  match frames with
  | [] => Ok []
  | f :: frames =>
      let? b := extract_binary_string f in let? names := channel_names frames in Ok (from_utf8_lossy b :: names)
  end.

Definition typed_payload (payload_type : bytes) (c3 : ZspFrame) (rest : list ZspFrame) : result RecvError PubSubMessage :=
  if upper_is payload_type "BYTES" then let? d := extract_binary_string c3 in Ok (MBytes d)
  else if upper_is payload_type "STRING" then let? d := extract_binary_string c3 in let? s := utf8_string d in Ok (MString s)
  else if upper_is payload_type "JSON" then
    let? d := extract_binary_string c3 in let? s := utf8_string d in let? v := json_value s in Ok (MJson v)
  else if upper_is payload_type "SERIALIZED" then
    match rest with
    | [] => Err (SerializationError "SERIALIZED requires content_type and data")
    | c4 :: _ => let? ct := extract_binary_string c3 in let? d := extract_binary_string c4 in Ok (MSerialized d (from_utf8_lossy ct))
    end
  else Err (SerializationError "Unknown payload type").

Definition publish_of (args : list ZspFrame) : result RecvError PubSubCommand :=
  match args with
  | c1 :: c2 :: rest =>
      let? channel := extract_binary_string c1 in
      let? message :=
        match rest with
        | [] => let? d := extract_binary_string c2 in Ok (MBytes d)
        | c3 :: rest =>
            match c2 with
            | InlineString pt => typed_payload pt c3 rest
            | _ => Err (SerializationError "Payload type must be string")
            end
        end in
      Ok (Publish (from_utf8_lossy channel) (pubsub_to_message_payload message))
  | _ => Err (SerializationError "PUBLISH requires channel and payload")
  end.

Definition command_of_items (items : list ZspFrame) : result RecvError PubSubCommand :=
  match items with
  | [] => Err (SerializationError "Expected array command")
  | c0 :: args =>
      let? cmd :=
        match c0 with
        | InlineString s => Ok s
        | BinaryString (Some b) => Ok (from_utf8_lossy b)
        | _ => Err (SerializationError "Invalid command format")
        end in
      if upper_is cmd "SUBSCRIBE" then let? channels := channel_names args in Ok (Subscribe channels)
      else if upper_is cmd "UNSUBSCRIBE" then let? channels := channel_names args in Ok (Unsubscribe channels)
      else if upper_is cmd "PUBLISH" then publish_of args
      else Err (SerializationError "Unknown command")
  end.

Definition decode_command (data : bytes) : option (result RecvError (option PubSubCommand) * bytes) :=
  if bool_decide (data = []) then Some (Ok None, data)
  else
    match Zsp.decode max_items i64_as_f64 (length data + 2) Initial data with
    | DOk (Some (Array items)) _ slice =>
        let consumed := (length data - length slice)%nat in
        match command_of_items items with
        | Ok cmd => Some (Ok (Some cmd), drop consumed data)
        | Err e => Some (Err e, data)
        end
    | DOk (Some _) _ _ => Some (Err (SerializationError "Expected array command"), data)
    | DOk None _ _ => Some (Ok None, data)
    | DErr _ => Some (Err (SerializationError "Decode"), data)
    | DPanic | DDeep => None
    end.
End Wire.
End Messages.
