(* ===== verification/MessageLaws.v ===== *)
(** * Messages over the wire

    Commands and messages of publish and subscribe, encoded by one side and
    decoded by the other; a payload through compression. *)
From S2P Require Import Prelude Interfaces SdsNumeric ZdbValue Numbers Zsp ZspCodec Text Protocol Messages.
Local Open Scope Z_scope.

Section Wire.
Context {js : Json} {mt : MessageText} {mt_laws : MessageTextLaws}.
Context {text : FloatText} {text_laws : FloatTextLaws} {dict_order : HashOrder (bytes * ZspFrame)} {set_order : HashOrder ZspFrame}.
Context (max_items : ZspFrame -> Z) (i64_as_f64 : Z -> f64).
Implicit Types (p : MessagePayload) (msg : Message).

(** A frame of strings: a name and data. *)
Definition string_frame (f : ZspFrame) : Prop :=
  match f with InlineString s => is_utf8 s = true | BinaryString _ => True | _ => False end.

Lemma strings_arrive (l : list ZspFrame) w rest :
  Forall string_frame l -> Z.of_nat (length l) < 2 ^ 63 -> Z.of_nat (length l) <= max_items (Array []) -> encode (Array l) = Ok w ->
  w <> [] /\ Zsp.decode max_items i64_as_f64 (length (w ++ rest) + 2) Initial (w ++ rest) = DOk (Some (Array l)) Initial rest.
Proof.
  intros Hall Hlen Hmax He.
  assert (well_typed max_items (Array l)) as Hwt.
  { constructor; [by split|]. eapply Forall_impl; [exact Hall|]. intros [] Hf; try done; by constructor. }
  destruct (frame_delivers max_items i64_as_f64 (Array l) 0 w He Hwt) as (f' & Hr & Hs).
  assert (f' = Array l) as ->.
  { inversion Hr as [| | | | | | |? l' Hl| | | | |]; subst. f_equal. clear -Hall Hl.
    induction Hl as [|x y l l' Hxy Hl IH]; [done|]. apply Forall_cons in Hall as [Hx Hall]. f_equal; [|by apply IH].
    by destruct x; try done; inversion Hxy. }
  assert (fdepth (Array l) <= 1)%nat as Hd.
  { cbn [fdepth]. enough (foldr (fun x n => Nat.max (fdepth x) n) 0%nat l = 0%nat) as -> by done.
    clear -Hall. induction Hall as [|f l Hf _ IH]; [done|]. cbn [foldr]. rewrite IH. by destruct f. }
  split; [|apply Hs; lia]. intros ->. specialize (Hs 2%nat ltac:(lia) []). done.
Qed.

(** Names that are written and read again. *)
Lemma inline_string s : Forall (fun b => b < 128) (ascii_bytes s) -> string_frame (inline s).
Proof. intros H. by apply is_utf8_ascii. Qed.
#[local] Hint Extern 1 (string_frame _) => (exact I || (by vm_compute)) : core.

Definition payload_ok p : Prop :=
  match p with PString s => is_utf8 s = true | PSerialized _ ct => is_utf8 ct = true | _ => True end.

Lemma payload_strings p : Forall string_frame (payload_frames p).
Proof. destruct p; repeat (apply Forall_cons; split); try done; by apply Forall_nil. Qed.

Lemma payload_frames_length p : (length (payload_frames p) <= 3)%nat.
Proof. destruct p; cbn; lia. Qed.

Lemma encoded_ok frame w : encoded frame = Ok w -> encode frame = Ok w.
Proof. unfold encoded. destruct (encode frame); [|done]. by intros [= ->]. Qed.

Lemma typed_payload_frames p : payload_ok p ->
  exists t c3 rest, payload_frames p = InlineString t :: c3 :: rest /\ typed_payload t c3 rest = Ok (message_payload_to_pubsub p) /\
    message_payload t c3 rest = Ok p /\
    bool_decide (t = ascii_bytes "SERIALIZED") = (match p with PSerialized _ _ => true | _ => false end).
Proof.
  intros Hp. destruct p as [b|s|v|data ct]; do 3 eexists; (split; [reflexivity|]); unfold typed_payload, message_payload.
  - done.
  - cbn in Hp. cbn -[is_utf8]. unfold utf8_string. by rewrite Hp.
  - cbn -[is_utf8 json_from_str]. unfold utf8_string. rewrite json_utf8. cbn -[json_from_str]. unfold json_value. by rewrite json_text.
  - cbn in Hp. cbn -[is_utf8 from_utf8_lossy]. unfold utf8_string. rewrite Hp. by rewrite from_utf8_lossy_valid.
Qed.

Lemma drop_consumed (w rest : bytes) : drop (length (w ++ rest) - length rest) (w ++ rest) = rest.
Proof. rewrite length_app, Nat.add_sub, drop_app_length. done. Qed.

Lemma channel_names_frames (channels : list bytes) : Forall (fun c => is_utf8 c = true) channels ->
  channel_names ((fun c => BinaryString (Some c)) <$> channels) = Ok channels.
Proof.
  induction 1 as [|c cs Hc _ IH]; [done|]. cbn [fmap list_fmap channel_names extract_binary_string rbind]. rewrite from_utf8_lossy_valid by done.
  change (list_fmap _ _ _ cs) with ((fun c => BinaryString (Some c)) <$> cs). by rewrite IH.
Qed.

(** What a client encodes for a command. *)
Definition encode_command (c : PubSubCommand) : result RecvError bytes :=
  match c with
  | Subscribe channels => encode_subscribe channels
  | Unsubscribe channels => encode_unsubscribe channels
  | Publish channel p => encode_publish channel p
  end.

Definition command_ok (c : PubSubCommand) : Prop :=
  match c with
  | Subscribe channels | Unsubscribe channels =>
      Forall (fun c => is_utf8 c = true) channels /\ Z.of_nat (length channels) < 2 ^ 62 /\
      Z.of_nat (length channels) < max_items (Array [])
  | Publish channel p => is_utf8 channel = true /\ payload_ok p
  end.

Ltac by_name := unfold command_of_items, inline; cbn [rbind];
  repeat match goal with |- context[upper_is ?a ?b] =>
    let r := eval vm_compute in (upper_is a b) in change (upper_is a b) with r; cbv iota end.

Lemma items_subscribe args : command_of_items (inline "SUBSCRIBE" :: args) = let? channels := channel_names args in Ok (Subscribe channels).
Proof. by by_name. Qed.
Lemma items_unsubscribe args : command_of_items (inline "UNSUBSCRIBE" :: args) = let? channels := channel_names args in Ok (Unsubscribe channels).
Proof. by by_name. Qed.
Lemma items_publish args : command_of_items (inline "PUBLISH" :: args) = publish_of args.
Proof. by by_name. Qed.

Lemma command_frame (c : PubSubCommand) : 5 <= max_items (Array []) -> command_ok c ->
  exists l, encode_command c = encoded (Array l) /\ Forall string_frame l /\ Z.of_nat (length l) < 2 ^ 63 /\
    Z.of_nat (length l) <= max_items (Array []) /\ command_of_items l = Ok c.
Proof.
  intros Hmax Hok. destruct c as [channels|channels|channel p]; eexists; (split; [reflexivity|]).
  1-2: destruct Hok as (Hu & Hl & Hm); cbn [length]; rewrite length_fmap; split_and!; [|lia|lia|];
    [apply Forall_cons; split; [by vm_compute|]; apply Forall_fmap; by apply Forall_true
    |rewrite ?items_subscribe, ?items_unsubscribe; by rewrite channel_names_frames].
  destruct Hok as [Hu Hp]. pose proof (payload_frames_length p). cbn [length]. split_and!; [|lia|lia|].
  - apply Forall_cons; split; [by vm_compute|]. apply Forall_cons; split; [exact I|]. apply payload_strings.
  - destruct (typed_payload_frames p Hp) as (t & c3 & rest & -> & Ht & _). rewrite items_publish. cbn [publish_of extract_binary_string rbind]. rewrite Ht. cbn [rbind].
    rewrite from_utf8_lossy_valid by done. by destruct p.
Qed.

Lemma message_frame msg : payload_ok (payload msg) -> is_utf8 (channel msg) = true ->
  exists l, message_to_zsp_frame msg = Array l /\ Forall string_frame l /\ (length l <= 7)%nat /\
    zsp_frame_to_message (Array l) = Ok msg.
Proof.
  intros Hp Hu. destruct msg as [ch p md]. cbn [channel payload] in *. eexists. split; [reflexivity|]. split_and!.
  - apply Forall_cons; split; [by vm_compute|]. apply Forall_cons; split; [exact I|].
    apply Forall_app. split; [apply payload_strings|]. destruct md; [|by apply Forall_nil].
    repeat (apply Forall_cons; split); [by vm_compute|exact I|by apply Forall_nil].
  - cbn [length channel payload metadata]. rewrite length_app. pose proof (payload_frames_length p). destruct md; cbn; lia.
  - destruct (typed_payload_frames p Hp) as (t & c3 & rest & E & _ & Hm & Hs). cbn [payload channel metadata]. rewrite E. cbn [app].
    assert (forall tl, message_payload t c3 (rest ++ tl) = Ok p /\ (if bool_decide (t = ascii_bytes "SERIALIZED") then drop 1 (rest ++ tl) else rest ++ tl) = tl) as Htl.
    { intros tl. rewrite Hs. destruct p; injection E as <- <- <-; cbn [app drop]; (split; [|done]); exact Hm. }
    set (tl := match md with Some md => _ | None => [] end). destruct (Htl tl) as [Hm' Ht'].
    unfold zsp_frame_to_message. cbn [inline]. rewrite bool_decide_true by done. cbn [rbind extract_binary_string].
    unfold utf8_string. rewrite Hu. cbn [rbind]. rewrite Hm'. cbn [rbind]. cbv zeta. rewrite Ht'. subst tl.
    destruct md as [md|]; [|done]. unfold message_metadata, utf8_string. cbn [inline]. rewrite bool_decide_true by done.
    cbn [rbind extract_binary_string]. rewrite metadata_utf8. cbn [rbind]. by rewrite metadata_text.
Qed.
End Wire.

(** A command of publish and subscribe that is encoded is decoded to itself,
    whatever follows it, and exactly its bytes are taken: the payload keeps its
    kind, its content type and its data. *)
Theorem pubsub_commands_roundtrip {js : Json} {mt : MessageText} {mt_laws : MessageTextLaws}
    {text : FloatText} {text_laws : FloatTextLaws} {o1 : HashOrder (bytes * ZspFrame)} {o2 : HashOrder ZspFrame}
    (max_items : ZspFrame -> Z) (i64_as_f64 : Z -> f64) (c : PubSubCommand) (w rest : bytes) :
  5 <= max_items (Array []) -> command_ok max_items c -> encode_command c = Ok w ->
  decode_command max_items i64_as_f64 (w ++ rest) = Some (Ok (Some c), rest).
Proof.
  intros Hmax Hok He. destruct (command_frame max_items c Hmax Hok) as (l & E & Hl & H1 & H2 & Hc). rewrite E in He.
  destruct (strings_arrive max_items i64_as_f64 l w rest Hl H1 H2 (encoded_ok _ _ He)) as [Hne Hd].
  unfold decode_command. rewrite bool_decide_false by (by destruct w). rewrite Hd, Hc. by rewrite drop_consumed.
Qed.

(** A message that is encoded is decoded to itself with its metadata, but the
    buffer is given back whole: whoever decodes again gets the same message, and
    never what follows it. *)
Theorem message_decoded_forever {js : Json} {mt : MessageText} {mt_laws : MessageTextLaws}
    {text : FloatText} {text_laws : FloatTextLaws} {o1 : HashOrder (bytes * ZspFrame)} {o2 : HashOrder ZspFrame}
    (max_items : ZspFrame -> Z) (i64_as_f64 : Z -> f64) (msg : Message) (w rest : bytes) :
  7 <= max_items (Array []) -> is_utf8 (channel msg) = true -> payload_ok (payload msg) -> encode_message msg = Ok w ->
  decode_message max_items i64_as_f64 (w ++ rest) = Some (Ok (Some msg), w ++ rest).
Proof.
  intros Hmax Hu Hp He. destruct (message_frame msg Hp Hu) as (l & E & Hl & H7 & Hm).
  unfold encode_message in He. rewrite E in He.
  destruct (strings_arrive max_items i64_as_f64 l w rest Hl ltac:(lia) ltac:(lia) (encoded_ok _ _ He)) as [Hne Hd].
  unfold decode_message. rewrite bool_decide_false by (by destruct w). rewrite Hd, Hm. cbv zeta. by rewrite Nat.sub_diag.
Qed.

(** ** Compression *)

(** A library for the witnesses: metadata as the bits of a number, no JSON but one
    value, and compression that leaves the data alone. *)
Fixpoint ex_bits (p : positive) : bytes :=
  match p with xI p => 49 :: ex_bits p | xO p => 48 :: ex_bits p | xH => [] end.
Fixpoint ex_unbits (l : bytes) : positive :=
  match l with [] => xH | b :: l => if b =? 49 then xI (ex_unbits l) else xO (ex_unbits l) end.

Lemma ex_unbits_bits p : ex_unbits (ex_bits p) = p.
Proof. induction p as [p IH|p IH|]; cbn; by rewrite ?IH. Qed.
Lemma ex_bits_utf8 p : is_utf8 (ex_bits p) = true.
Proof. apply is_utf8_ascii. induction p; by repeat (apply Forall_cons; split). Qed.

Definition ex_metadata_tuple (m : MessageMetadata) : option bytes * option Z * list (bytes * bytes) :=
  (message_id m, timestamp m, headers m).

Definition ex_json : Json :=
  {| json := unit; json_from_str := fun _ => Some tt; json_to_string := fun _ => [48] |}.

Definition ex_message_text : MessageText (js := ex_json) := {|
  metadata_to_json := fun m => ex_bits (countable.encode (ex_metadata_tuple m));
  metadata_of_json := fun b => (fun t => mkMetadata t.1.1 t.1.2 t.2) <$> countable.decode (ex_unbits b);
  object_keys := fun _ => None; gzip := fun b => b; gunzip := Some;
  globs := list bytes; globs_new := Some; glob_is_match := fun l b => bool_decide (b ∈ l) |}.

Lemma ex_message_text_laws : @MessageTextLaws ex_json ex_message_text.
Proof.
  constructor.
  - done.
  - intros m. cbn. rewrite ex_unbits_bits, decode_encode. by destruct m.
  - intros m. apply ex_bits_utf8.
  - by intros [].
  - done.
Qed.

Lemma pubsub_commands_roundtrip_witness :
  let c := @Publish ex_json (ascii_bytes "news") (PString (ascii_bytes "hi")) in
  exists w, encode_command c = Ok w /\ decode_command ex_max_items ex_as_f64 (w ++ [1; 2]) = Some (Ok (Some c), [1; 2]).
Proof.
  eexists. split; [by vm_compute|].
  apply (pubsub_commands_roundtrip (mt := ex_message_text) (mt_laws := ex_message_text_laws) (text_laws := ex_text_laws) ex_max_items ex_as_f64);
    [by vm_compute|by split; vm_compute|by vm_compute].
Defined.

Lemma message_decoded_forever_witness :
  let a := @message_new ex_json (ascii_bytes "news") [1] in
  let b := @message_new ex_json (ascii_bytes "news") [2] in
  exists wa wb, encode_message (mt := ex_message_text) a = Ok wa /\ encode_message (mt := ex_message_text) b = Ok wb /\
    decode_message (mt := ex_message_text) ex_max_items ex_as_f64 (wa ++ wb) = Some (Ok (Some a), wa ++ wb).
Proof.
  do 2 eexists. split; [by vm_compute|]. split; [by vm_compute|].
  apply (message_decoded_forever (mt := ex_message_text) (mt_laws := ex_message_text_laws) (text_laws := ex_text_laws) ex_max_items ex_as_f64);
    by vm_compute.
Defined.
