(* ===== verification/PubSub.v ===== *)
(** * The broker of publish and subscribe

    Models [src/src/pubsub/broker.rs], [subscriber.rs] and [pubsub_manager.rs]:
    the channels with their statistics, publishing, subscribing and cleaning up;
    the subscriber with its filters, its buffer of messages and its statistics;
    and the subscriber of many channels.  The channel of tokio ([broadcast]) is
    open ([Broadcast]); a subscriber keeps its channel when the broker has given
    it up, so that the channels are a store of their own.  Waiting is a result
    ([Pending]); counters do not reach their bounds. *)
From S2P Require Import Prelude Interfaces SdsNumeric ZdbValue Numbers Protocol Messages.
Local Open Scope Z_scope.

(** ** [tokio::sync::broadcast] *)

Inductive BroadcastError : Type := BcEmpty | BcClosed | BcLagged (count : Z).

(** A channel: the sender side with the queues of its receivers.  [bc_channel]
    panics on a capacity of zero; [bc_send] gives the number of receivers, or
    fails when there is none; [bc_close] is the drop of the last sender. *)
Class Broadcast (Msg : Type) := {
  chan : Type;
  bc_channel : nat -> option chan;
  bc_send : Msg -> chan -> option nat * chan;
  bc_subscribe : chan -> nat * chan;
  bc_receiver_count : chan -> nat;
  bc_try_recv : nat -> chan -> result BroadcastError Msg * chan;
  bc_close : chan -> chan;
  bc_drop : nat -> chan -> chan;
}.

(** What the documentation says of it: every receiver has the messages that it
    has not read, and the number of those that it has missed. *)
Record ChannelView (Msg : Type) : Type := mkView {
  bv_capacity : nat; bv_open : bool; bv_queues : gmap nat (Z * list Msg);
}.
Arguments mkView {Msg}. Arguments bv_capacity {Msg}. Arguments bv_open {Msg}. Arguments bv_queues {Msg}.

Definition bv_push {Msg} (capacity : nat) (m : Msg) (q : Z * list Msg) : Z * list Msg :=
  let l := q.2 ++ [m] in
  if (capacity <? length l)%nat then (q.1 + 1, drop 1 l) else (q.1, l).

Definition with_queues {Msg} (qs : gmap nat (Z * list Msg)) (v : ChannelView Msg) : ChannelView Msg :=
  mkView (bv_capacity v) (bv_open v) qs.

Class BroadcastLaws (Msg : Type) {bc : Broadcast Msg} := {
  bc_view : chan -> ChannelView Msg;
  law_channel n : (0 < n)%nat -> exists c capacity, bc_channel n = Some c /\ (n <= capacity)%nat /\ bc_view c = mkView capacity true ∅;
  law_send m c : if bool_decide (bv_queues (bc_view c) = ∅) then bc_send m c = (None, c)
    else (bc_send m c).1 = Some (size (bv_queues (bc_view c))) /\
         bc_view (bc_send m c).2 = with_queues (bv_push (bv_capacity (bc_view c)) m <$> bv_queues (bc_view c)) (bc_view c);
  law_subscribe c : bv_queues (bc_view c) !! (bc_subscribe c).1 = None /\
    bc_view (bc_subscribe c).2 = with_queues (<[(bc_subscribe c).1 := (0, [])]> (bv_queues (bc_view c))) (bc_view c);
  law_receiver_count c : bc_receiver_count c = size (bv_queues (bc_view c));
  law_try_recv r c lagged l : bv_queues (bc_view c) !! r = Some (lagged, l) ->
    if 0 <? lagged then (bc_try_recv r c).1 = Err (BcLagged lagged) /\
      bc_view (bc_try_recv r c).2 = with_queues (<[r := (0, l)]> (bv_queues (bc_view c))) (bc_view c)
    else match l with
         | m :: l => (bc_try_recv r c).1 = Ok m /\
             bc_view (bc_try_recv r c).2 = with_queues (<[r := (lagged, l)]> (bv_queues (bc_view c))) (bc_view c)
         | [] => (bc_try_recv r c).1 = Err (if bv_open (bc_view c) then BcEmpty else BcClosed) /\ bc_view (bc_try_recv r c).2 = bc_view c
         end;
  law_close c : bc_view (bc_close c) = mkView (bv_capacity (bc_view c)) false (bv_queues (bc_view c));
  law_drop r c : bc_view (bc_drop r c) = with_queues (delete r (bv_queues (bc_view c))) (bc_view c);
}.

(** ** Options *)

Inductive PayloadType : Type := TBytes | TString | TJson | TSerialized (content_type : bytes).
#[export] Instance payload_type_eq_dec : EqDecision PayloadType.
Proof. solve_decision. Defined.

Inductive MessageTypeFilter : Type :=
| OfPayloadType (types : list PayloadType)
| WithMetadata
| WithoutMetadata
| Combined (f1 f2 : MessageTypeFilter).

Inductive LagHandling : Type := LagIgnore | LagError | LagLog | LagSkip.

Record SubscriptionOptions : Type := mkOptions {
  buffer_size : option nat; enable_message_buffer : bool; message_buffer_size : nat; auto_deserialize_json : bool;
  message_type_filter : option MessageTypeFilter; recv_timeout : option Z; lag_handling : LagHandling;
  options_compression : bool;
}.
Definition default_options : SubscriptionOptions := mkOptions None false 100 false None None LagIgnore true.

Record SubscriberStats : Type := mkSubStats {
  messages_received : Z; bytes_received : Z; messages_filtered : Z; lagged_messages : Z;
  sub_created_at : Z; last_message_at : option Z; deserialization_errors : Z;
}.
Definition new_stats (now : Z) : SubscriberStats := mkSubStats 0 0 0 0 now None 0.

Record BrokerConfig : Type := mkBrokerConfig {
  default_channel_capacity : nat; max_subscribers_per_channel : option Z; max_message_size : option Z;
  channel_ttl : option Z; enable_compression : bool; compression_threshold : Z;
}.
Definition default_broker_config : BrokerConfig :=
  mkBrokerConfig 1024 (Some 10000) (Some (1024 * 1024)) (Some (300 * 1000000000)) false 1024.

Record ChannelStats : Type := mkChannelStats {
  messages_sent : Z; bytes_sent : Z; subscriber_count : nat; created_at : Z; last_activity : Z; dropped_messages : Z;
}.

Record BrokerMetrics : Type := mkBrokerMetrics {
  total_channels : nat; total_messages : Z; total_bytes : Z; active_subscribers : nat;
}.

Record PublishResult : Type := mkPublished {
  subscribers_reached : nat; published_id : option bytes; message_size_ : Z; compressed : bool;
}.

Record PublishOptions : Type := mkPublishOptions {
  serialization_format : option SerializationFormat; force_compression : bool; publish_timeout : option Z;
  add_timestamp : bool; extra_headers : option (list (bytes * bytes));
}.
Definition default_publish_options : PublishOptions := mkPublishOptions None false (Some (5 * 1000000000)) false None.

Section PubSub.
Context {js : Json} {mt : MessageText} {bc : Broadcast (@Message js)} {header_order : HashOrder (bytes * bytes)}.
Notation Message := (@Message js).
Notation MessagePayload := (@MessagePayload js).

Record SizeFilter : Type := mkSizeFilter { min_size : option Z; max_size : option Z }.
Record MetadataFilter : Type := mkMetadataFilter {
  required_headers : list bytes; message_id_pattern : option globs; time_range : option (Z * Z);
}.
Record ContentFilter : Type := mkContentFilter {
  allowed_payload_types : list PayloadType; string_patterns : option globs; json_key_filter : option (list bytes);
}.
Record MessageFilters : Type := mkFilters {
  size_filter : option SizeFilter; metadata_filter : option MetadataFilter; content_filter : option ContentFilter;
  custom_filter : option (Message -> bool);
}.
Definition no_filters : MessageFilters := mkFilters None None None None.

(** ** The broker *)

Record Broker : Type := mkBroker {
  channels : gmap bytes nat; stats : gmap bytes ChannelStats; config : BrokerConfig; metrics : BrokerMetrics;
}.

(** The broker, and all the channels that there are. *)
Record World : Type := mkWorld { broker : Broker; heap : gmap nat chan; next_chan : nat }.

Definition with_config (c : BrokerConfig) : World := mkWorld (mkBroker ∅ ∅ c (mkBrokerMetrics 0 0 0 0)) ∅ 0.
Definition broker_new : World := with_config default_broker_config.

Definition with_heap (h : gmap nat chan) (w : World) : World := mkWorld (broker w) h (next_chan w).
Definition with_channels (cs : gmap bytes nat) (ss : gmap bytes ChannelStats) (w : World) : World :=
  mkWorld (mkBroker cs ss (config (broker w)) (metrics (broker w))) (heap w) (next_chan w).

(** A change of a channel that there is. *)
Definition on_chan (id : nat) (f : chan -> chan) (w : World) : World := with_heap (alter f id (heap w)) w.

Definition count_of (id : nat) (w : World) : nat := match heap w !! id with Some c => bc_receiver_count c | None => 0 end.

Definition update_channel_stats (now : Z) (channel : bytes) (message_size : Z) (delivered : bool) (w : World) : World :=
  with_channels (channels (broker w))
    (alter (fun s =>
       if delivered then mkChannelStats (messages_sent s + 1) (bytes_sent s + message_size) (subscriber_count s) (created_at s) now (dropped_messages s)
       else mkChannelStats (messages_sent s) (bytes_sent s) (subscriber_count s) (created_at s) now (dropped_messages s + 1))
       channel (stats (broker w))) w.

Definition total_subscribers (w : World) : nat :=
  sum_list_with (fun kv : bytes * nat => count_of kv.2 w) (map_to_list (channels (broker w))).

Definition update_global_metrics (message_size : Z) (w : World) : World :=
  let b := broker w in
  let m := metrics b in
  mkWorld (mkBroker (channels b) (stats b) (config b)
    (mkBrokerMetrics (size (channels b)) (wrapu 64 (total_messages m + 1)) (wrapu 64 (total_bytes m + message_size)) (total_subscribers w)))
    (heap w) (next_chan w).

(** gzip, with the type of its content. *)
Definition compress_payload (p : MessagePayload) : MessagePayload :=
  PSerialized (gzip (payload_bytes p)) (ascii_bytes "application/gzip").

Definition too_large (p : MessagePayload) (w : World) : bool :=
  match max_message_size (config (broker w)) with Some max => max <? payload_len p | None => false end.

Definition wants_compression (p : MessagePayload) (o : PublishOptions) (w : World) : bool :=
  enable_compression (config (broker w)) && (force_compression o || (compression_threshold (config (broker w)) <? payload_len p)).

Definition message_of (now : Z) (channel : bytes) (p : MessagePayload) (o : PublishOptions) : Message :=
  let m := Messages.with_payload channel p in
  let m := if add_timestamp o then with_timestamp now m else m in
  match extra_headers o with
  | Some hs => foldl (fun m kv => with_header kv.1 kv.2 m) m hs
  | None => m
  end.

(** The state after a message went out, with its size and whom it reached. *)
Definition published (now : Z) (channel : bytes) (message : Message) (comp : bool) (reached : nat) (w : World)
  : result RecvError PublishResult * World :=
  let message_size := message_size message in
  let w := update_channel_stats now channel message_size (0 <? reached)%nat w in
  let w := update_global_metrics message_size w in
  (Ok (mkPublished reached (md ← metadata message; message_id md) message_size comp), w).

(** [None] is a call that never returns: when nobody receives, the entry of the
    channel is removed while a reference into the map is held, which waits for
    the lock that the call itself has. *)
Definition publish_with_options (now : Z) (channel : bytes) (p : MessagePayload) (o : PublishOptions) (w : World)
  : option (result RecvError PublishResult * World) :=
  if too_large p w then Some (Err (SerializationError "Message size exceeds maximum"), w)
  else
    let comp := wants_compression p o w in
    let message := message_of now channel (if comp then compress_payload p else p) o in
    match channels (broker w) !! channel with
    | Some id =>
        c ← heap w !! id;
        match bc_send message c with
        | (Some count, c) => Some (published now channel message comp count (with_heap (<[id := c]> (heap w)) w))
        | (None, _) => None
        end
    | None => Some (published now channel message comp 0 w)
    end.

Definition publish (now : Z) (channel : bytes) (p : MessagePayload) : World -> option (result RecvError PublishResult * World) :=
  publish_with_options now channel p default_publish_options.

(** ** The subscriber *)

Record Subscriber : Type := mkSubscriber {
  sub_channel : bytes; chan_id : nat; receiver : nat; options : SubscriptionOptions;
  message_buffer : option (list Message); sub_stats : SubscriberStats; filters : MessageFilters;
}.

Definition subscriber_new (now : Z) (channel : bytes) (id r : nat) (o : SubscriptionOptions) : Subscriber :=
  mkSubscriber channel id r o (if enable_message_buffer o then Some [] else None) (new_stats now) no_filters.

Definition with_sub_stats (st : SubscriberStats) (s : Subscriber) : Subscriber :=
  mkSubscriber (sub_channel s) (chan_id s) (receiver s) (options s) (message_buffer s) st (filters s).
Definition with_buffer (b : option (list Message)) (s : Subscriber) : Subscriber :=
  mkSubscriber (sub_channel s) (chan_id s) (receiver s) (options s) b (sub_stats s) (filters s).
Definition with_filters (f : MessageFilters) (s : Subscriber) : Subscriber :=
  mkSubscriber (sub_channel s) (chan_id s) (receiver s) (options s) (message_buffer s) (sub_stats s) f.

(** The channel of a name: a new one when there is none, or [None], the panic of
    a channel without capacity. *)
Definition entry_channel (now : Z) (channel : bytes) (o : SubscriptionOptions) (w : World) : option (nat * World) :=
  match channels (broker w) !! channel with
  | Some id => Some (id, w)
  | None =>
      c ← bc_channel (default (default_channel_capacity (config (broker w))) (buffer_size o));
      let id := next_chan w in
      Some (id, mkWorld (mkBroker (<[channel := id]> (channels (broker w)))
        (<[channel := mkChannelStats 0 0 0 now now 0]> (stats (broker w))) (config (broker w)) (metrics (broker w)))
        (<[id := c]> (heap w)) (id + 1))
  end.

Definition subscribe_with_options (now : Z) (channel : bytes) (o : SubscriptionOptions) (w : World)
  : option (result RecvError Subscriber * World) :=
  '(id, w) ← entry_channel now channel o w;
  c ← heap w !! id;
  if match max_subscribers_per_channel (config (broker w)) with Some max => max <=? Z.of_nat (bc_receiver_count c) | None => false end
  then Some (Err SubscriberLimitExceeded, w)
  else
    let '(r, c) := bc_subscribe c in
    let w := with_heap (<[id := c]> (heap w)) w in
    let w := with_channels (channels (broker w))
      (alter (fun s => mkChannelStats (messages_sent s) (bytes_sent s) (bc_receiver_count c) (created_at s) (last_activity s) (dropped_messages s))
        channel (stats (broker w))) w in
    Some (Ok (subscriber_new now channel id r o), w).

Definition subscribe (now : Z) (channel : bytes) : World -> option (result RecvError Subscriber * World) :=
  subscribe_with_options now channel default_options.

(** The first failure drops the subscribers made so far. *)
Fixpoint subscriber_multiple (now : Z) (names : list bytes) (w : World) : option (result RecvError (list Subscriber) * World) :=
  match names with
  | [] => Some (Ok [], w)
  | channel :: names =>
      '(r, w) ← subscribe now channel w;
      match r with
      | Err e => Some (Err e, w)
      | Ok s =>
          '(r, w) ← subscriber_multiple now names w;
          match r with
          | Ok l => Some (Ok (s :: l), w)
          | Err e => Some (Err e, on_chan (chan_id s) (bc_drop (receiver s)) w)
          end
      end
  end.

(** The drop of a subscriber. *)
Definition drop_subscriber (s : Subscriber) (w : World) : World := on_chan (chan_id s) (bc_drop (receiver s)) w.

Definition unsubscribe (channel : bytes) (w : World) : bool * World :=
  match channels (broker w) !! channel with
  | Some id =>
      (true, on_chan id bc_close (with_channels (delete channel (channels (broker w))) (delete channel (stats (broker w))) w))
  | None => (false, w)
  end.

Definition subscriber_count_of (channel : bytes) (w : World) : nat :=
  match channels (broker w) !! channel with Some id => count_of id w | None => 0 end.

Definition active_channels (w : World) : list bytes := (map_to_list (channels (broker w))).*1.
Definition channel_stats (channel : bytes) (w : World) : option ChannelStats := stats (broker w) !! channel.

Definition inactive (now ttl : Z) (s : ChannelStats) : bool :=
  (subscriber_count s =? 0)%nat && (ttl <? now - last_activity s).

Definition remove_inactive (channel : bytes) (acc : nat * World) : nat * World :=
  let '(removed, w) := acc in
  match channels (broker w) !! channel with
  | Some id =>
      (S removed, on_chan id bc_close (with_channels (delete channel (channels (broker w))) (delete channel (stats (broker w))) w))
  | None => (removed, w)
  end.

Definition cleanup_inactive_channels (now : Z) (w : World) : nat * World :=
  match channel_ttl (config (broker w)) with
  | Some ttl =>
      let to_remove := omap (fun kv : bytes * ChannelStats => if inactive now ttl kv.2 then Some kv.1 else None) (map_to_list (stats (broker w))) in
      foldl (fun acc channel => remove_inactive channel acc) (0%nat, w) to_remove
  | None => (0%nat, w)
  end.

Record ChannelSnapshot : Type := mkChannelSnapshot { snap_name : bytes; snap_count : nat; snap_stats : option ChannelStats }.

(** A channel without statistics has the default ones, which are of now. *)
Definition snapshot (w : World) : list ChannelSnapshot * BrokerConfig * BrokerMetrics :=
  ((fun kv : bytes * nat => mkChannelSnapshot kv.1 (count_of kv.2 w) (stats (broker w) !! kv.1)) <$> map_to_list (channels (broker w)),
   config (broker w), metrics (broker w)).

(** *** Filters *)

Definition payload_type (p : MessagePayload) : PayloadType :=
  match p with PBytes _ => TBytes | PString _ => TString | PJson _ => TJson | PSerialized _ ct => TSerialized ct end.

Definition check_size_filter (f : SizeFilter) (m : Message) : bool :=
  match min_size f with Some min => negb (message_size m <? min) | None => true end &&
  match max_size f with Some max => negb (max <? message_size m) | None => true end.

Definition check_metadata_filter (f : MetadataFilter) (m : Message) : bool :=
  match metadata m with
  | None => false
  | Some md =>
      forallb (fun h => bool_decide (is_Some (hm_get h (headers md)))) (required_headers f) &&
      match message_id_pattern f with
      | Some ps => match message_id md with Some id => glob_is_match ps id | None => false end
      | None => true
      end &&
      match time_range f with
      | Some (from, to) => match timestamp md with Some ts => negb ((ts <? from) || (to <? ts)) | None => false end
      | None => true
      end
  end.

Definition check_content_filter (f : ContentFilter) (m : Message) : bool :=
  (bool_decide (allowed_payload_types f = []) || bool_decide (payload_type (payload m) ∈ allowed_payload_types f)) &&
  match string_patterns f with
  | Some ps =>
      match payload m with
      | PString s => glob_is_match ps s
      | PBytes b => is_utf8 b && glob_is_match ps b
      | _ => false
      end
  | None => true
  end &&
  match json_key_filter f with
  | Some keys =>
      match payload m with
      | PJson v => match object_keys v with Some ks => forallb (fun k => bool_decide (k ∈ ks)) keys | None => false end
      | _ => false
      end
  | None => true
  end.

(** Both tests of metadata ask that there is none. *)
Fixpoint check_message_type_filter (f : MessageTypeFilter) (m : Message) : bool :=
  match f with
  | OfPayloadType types => bool_decide (payload_type (payload m) ∈ types)
  | WithMetadata => bool_decide (metadata m = None)
  | WithoutMetadata => bool_decide (metadata m = None)
  | Combined f1 f2 => check_message_type_filter f1 m && check_message_type_filter f2 m
  end.

Definition passes {F} (check : F -> Message -> bool) (f : option F) (m : Message) : bool :=
  match f with Some f => check f m | None => true end.

Definition should_process_message (s : Subscriber) (m : Message) : bool :=
  passes check_size_filter (size_filter (filters s)) m && passes check_metadata_filter (metadata_filter (filters s)) m &&
  passes check_content_filter (content_filter (filters s)) m && passes (fun f m => f m) (custom_filter (filters s)) m &&
  passes check_message_type_filter (message_type_filter (options s)) m.

Definition default_content : ContentFilter := mkContentFilter [] None None.

Definition with_size_filter (mn mx : option Z) (s : Subscriber) : Subscriber :=
  with_filters (mkFilters (Some (mkSizeFilter mn mx)) (metadata_filter (filters s)) (content_filter (filters s)) (custom_filter (filters s))) s.
Definition on_content (f : ContentFilter -> ContentFilter) (s : Subscriber) : Subscriber :=
  with_filters (mkFilters (size_filter (filters s)) (metadata_filter (filters s))
    (Some (f (default default_content (content_filter (filters s))))) (custom_filter (filters s))) s.
Definition with_payload_type_filter (types : list PayloadType) : Subscriber -> Subscriber :=
  on_content (fun f => mkContentFilter types (string_patterns f) (json_key_filter f)).
Definition with_string_pattern_filter (patterns : list bytes) (s : Subscriber) : result RecvError Subscriber :=
  match globs_new patterns with
  | Some g => Ok (on_content (fun f => mkContentFilter (allowed_payload_types f) (Some g) (json_key_filter f)) s)
  | None => Err InvalidPattern
  end.
Definition with_custom_filter (f : Message -> bool) (s : Subscriber) : Subscriber :=
  with_filters (mkFilters (size_filter (filters s)) (metadata_filter (filters s)) (content_filter (filters s)) (Some f)) s.

(** *** Receiving *)

Definition decompress_if_needed (p : MessagePayload) : result TryRecvError MessagePayload :=
  match p with
  | PSerialized data ct =>
      if bool_decide (ct = ascii_bytes "application/gzip") then
        match gunzip data with Some d => Ok (PBytes d) | None => Err TryClosed end
      else Ok p
  | _ => Ok p
  end.

Definition process_message (s : Subscriber) (m : Message) : result TryRecvError Message :=
  let? p := if options_compression (options s) then decompress_if_needed (payload m) else Ok (payload m) in
  let p :=
    match p with
    | PString content =>
        if auto_deserialize_json (options s) then match json_from_str content with Some v => PJson v | None => p end else p
    | _ => p
    end in
  Ok (mkMessage (channel m) p (metadata m)).

Definition handle_lagging (count : Z) (s : Subscriber) : result TryRecvError unit * Subscriber :=
  let st := sub_stats s in
  let s := with_sub_stats (mkSubStats (messages_received st) (bytes_received st) (messages_filtered st) (lagged_messages st + count)
    (sub_created_at st) (last_message_at st) (deserialization_errors st)) s in
  (match lag_handling (options s) with LagError => Err (TryLagged count) | _ => Ok tt end, s).

Definition count_received (now : Z) (m : Message) (s : Subscriber) : Subscriber :=
  let st := sub_stats s in
  with_sub_stats (mkSubStats (messages_received st + 1) (bytes_received st + message_size m) (messages_filtered st) (lagged_messages st)
    (sub_created_at st) (Some now) (deserialization_errors st)) s.
Definition count_filtered (s : Subscriber) : Subscriber :=
  let st := sub_stats s in
  with_sub_stats (mkSubStats (messages_received st) (bytes_received st) (messages_filtered st + 1) (lagged_messages st)
    (sub_created_at st) (last_message_at st) (deserialization_errors st)) s.

(** The receiver of tokio, in the store. *)
Definition receive (s : Subscriber) (w : World) : option (result BroadcastError Message * World) :=
  c ← heap w !! chan_id s;
  let '(r, c) := bc_try_recv (receiver s) c in
  Some (r, with_heap (<[chan_id s := c]> (heap w)) w).

(** The loop of [try_recv], and of [recv] up to where it waits. *)
Fixpoint recv_loop (fuel : nat) (now : Z) (s : Subscriber) (w : World) : option (result TryRecvError Message * Subscriber * World) :=
  match fuel with
  | O => None
  | S fuel =>
      '(r, w) ← receive s w;
      match r with
      | Ok m =>
          if should_process_message s m then
            match process_message s m with
            | Ok m => Some (Ok m, count_received now m s, w)
            | Err e => Some (Err e, s, w)
            end
          else recv_loop fuel now (count_filtered s) w
      | Err (BcLagged n) =>
          let '(r, s) := handle_lagging n s in
          match r with Ok _ => recv_loop fuel now s w | Err e => Some (Err e, s, w) end
      | Err BcEmpty => Some (Err TryEmpty, s, w)
      | Err BcClosed => Some (Err TryClosed, s, w)
      end
  end.

(** A message of the buffer comes first. *)
Definition try_recv (fuel : nat) (now : Z) (s : Subscriber) (w : World) : option (result TryRecvError Message * Subscriber * World) :=
  match message_buffer s with
  | Some (m :: rest) => Some (Ok m, count_received now m (with_buffer (Some rest) s), w)
  | _ => recv_loop fuel now s w
  end.

Inductive polled (A : Type) : Type := Ready (x : A) | Pending.
Arguments Ready {A}. Arguments Pending {A}.

Definition poll_of (r : result TryRecvError Message) : polled (result RecvError Message) :=
  match r with Ok m => Ready (Ok m) | Err TryEmpty => Pending | Err e => Ready (Err (recv_error_of e)) end.

(** A wait with a timeout ends when the time is over, [late]. *)
Definition recv (fuel : nat) (now : Z) (late : bool) (s : Subscriber) (w : World)
  : option (polled (result RecvError Message) * Subscriber * World) :=
  '(r, s, w) ← try_recv fuel now s w;
  Some (match poll_of r with
        | Pending => if late && bool_decide (is_Some (recv_timeout (options s))) then Ready (Err Timeout) else Pending
        | p => p
        end, s, w).

(** The messages that are there, up to [max]; the first one is waited for. *)
Fixpoint more_messages (n fuel : nat) (now : Z) (s : Subscriber) (w : World) (messages : list Message)
  : option (result RecvError (list Message) * Subscriber * World) :=
  match n with
  | O => Some (Ok messages, s, w)
  | S n =>
      '(r, s, w) ← try_recv fuel now s w;
      match r with
      | Ok m => more_messages n fuel now s w (messages ++ [m])
      | Err TryEmpty => Some (Ok messages, s, w)
      | Err e => Some (Err (recv_error_of e), s, w)
      end
  end.

Definition recv_batch (fuel : nat) (now : Z) (max : nat) (s : Subscriber) (w : World)
  : option (polled (result RecvError (list Message)) * Subscriber * World) :=
  '(p, s, w) ← recv fuel now false s w;
  match p with
  | Pending => Some (Pending, s, w)
  | Ready (Err e) => Some (Ready (Err e), s, w)
  | Ready (Ok m) => '(r, s, w) ← more_messages (max - 1) fuel now s w [m]; Some (Ready r, s, w)
  end.

(** [None] is a loop that does not end in [rounds]. *)
Fixpoint recv_with_condition (rounds fuel : nat) (now : Z) (condition : Message -> bool) (s : Subscriber) (w : World)
  : option (polled (result RecvError Message) * Subscriber * World) :=
  match rounds with
  | O => None
  | S rounds =>
      '(p, s, w) ← recv fuel now false s w;
      match p with
      | Ready (Ok m) =>
          if condition m then Some (Ready (Ok m), s, w)
          else
            let s := match message_buffer s with
                     | Some b => if (length b <? message_buffer_size (options s))%nat then with_buffer (Some (b ++ [m])) s else s
                     | None => s
                     end in
            recv_with_condition rounds fuel now condition s w
      | p => Some (p, s, w)
      end
  end.

Definition buffered_message_count (s : Subscriber) : nat := match message_buffer s with Some b => length b | None => 0 end.
Definition clear_buffer (s : Subscriber) : Subscriber := with_buffer ((fun _ => []) <$> message_buffer s) s.

(** The new size is at most the number of messages, so that nothing is filled in. *)
Definition resize_buffer (new_size : nat) (s : Subscriber) : Subscriber :=
  let o := options s in
  mkSubscriber (sub_channel s) (chan_id s) (receiver s)
    (mkOptions (buffer_size o) (enable_message_buffer o) new_size (auto_deserialize_json o) (message_type_filter o) (recv_timeout o)
      (lag_handling o) (options_compression o))
    ((fun b => take (Nat.min new_size (length b)) b) <$> message_buffer s) (sub_stats s) (filters s).

(** ** Many channels *)

Record MultiSubscriber : Type := mkMulti { subscribers : list Subscriber; round_robin_index : nat }.

Definition set_sub (i : nat) (s : Subscriber) (ms : MultiSubscriber) : MultiSubscriber :=
  mkMulti (<[i := s]> (subscribers ms)) (round_robin_index ms).
Definition advance_index (ms : MultiSubscriber) : MultiSubscriber :=
  mkMulti (subscribers ms) (Nat.modulo (round_robin_index ms + 1) (length (subscribers ms))).

(** After a round without a message, the first one is waited for. *)
Definition wait_first (fuel : nat) (now : Z) (ms : MultiSubscriber) (w : World)
  : option (polled (result RecvError (nat * Message)) * MultiSubscriber * World) :=
  s ← subscribers ms !! 0%nat;
  '(p, s, w) ← recv fuel now false s w;
  Some (match p with Pending => Pending | Ready (Ok m) => Ready (Ok (0%nat, m)) | Ready (Err e) => Ready (Err e) end, set_sub 0 s ms, w).

Fixpoint recv_any_loop (rounds fuel : nat) (now : Z) (start : nat) (ms : MultiSubscriber) (w : World)
  : option (polled (result RecvError (nat * Message)) * MultiSubscriber * World) :=
  match rounds with
  | O => None
  | S rounds =>
      let i := round_robin_index ms in
      s ← subscribers ms !! i;
      '(r, s, w) ← try_recv fuel now s w;
      let ms := set_sub i s ms in
      match r with
      | Ok m => Some (Ready (Ok (i, m)), advance_index ms, w)
      | Err TryEmpty =>
          let ms := advance_index ms in
          if (round_robin_index ms =? start)%nat then wait_first fuel now ms w
          else recv_any_loop rounds fuel now start ms w
      | Err e => Some (Ready (Err (recv_error_of e)), ms, w)
      end
  end.

Definition recv_any (fuel : nat) (now : Z) (ms : MultiSubscriber) (w : World)
  : option (polled (result RecvError (nat * Message)) * MultiSubscriber * World) :=
  if bool_decide (subscribers ms = []) then Some (Ready (Err (ChannelNotFound "No subscribers")), ms, w)
  else recv_any_loop (length (subscribers ms)) fuel now (round_robin_index ms) ms w.
End PubSub.
Arguments Ready {A}. Arguments Pending {A}.
