(* ===== verification/PubSubLaws.v ===== *)
(** * What subscribers receive

    Theorems about [PubSub] over any channel that keeps the laws of tokio's
    [broadcast]: a subscriber receives what is published on its channel, in order
    and once; a publisher to a channel that all subscribers have left never
    returns; the channels that are cleaned up; and waiting with a condition. *)
From S2P Require Import Prelude Interfaces SdsNumeric ZdbValue Numbers Protocol Messages MessageLaws PubSub.
Local Open Scope Z_scope.

Section Laws.
Context {js : Json} {mt : MessageText} {bc : Broadcast (@Message js)} {bl : BroadcastLaws (@Message js)}.
Context {header_order : HashOrder (bytes * bytes)}.
Notation Message := (@Message js).
Implicit Types (w : World) (s : Subscriber) (m : Message).

(** ** The store of channels *)

(** Every name has a channel of its own, and new channels have new numbers. *)
Record wf w : Prop := {
  wf_heap name id : channels (broker w) !! name = Some id -> is_Some (heap w !! id);
  wf_inj name name' id : channels (broker w) !! name = Some id -> channels (broker w) !! name' = Some id -> name = name';
  wf_next id : is_Some (heap w !! id) -> (id < next_chan w)%nat;
}.

Definition queues_of w (id : nat) : gmap nat (Z * list Message) :=
  match heap w !! id with Some c => bv_queues (bc_view c) | None => ∅ end.

(** The queue of a subscriber: what it has missed and what it has not read. *)
Definition queue_of w s : option (Z * list Message) := queues_of w (chan_id s) !! receiver s.

Definition capacity_of w (id : nat) : nat := match heap w !! id with Some c => bv_capacity (bc_view c) | None => 0 end.

(** A change of the store that keeps the names. *)
Lemma wf_on_heap w h : wf w -> (forall id, is_Some (h !! id) <-> is_Some (heap w !! id)) -> wf (with_heap h w).
Proof.
  intros [H1 H2 H3] Hd. constructor; cbn [with_heap broker heap next_chan].
  - intros name id Hn. apply Hd. by eapply H1.
  - exact H2.
  - intros id Hid. by apply H3, Hd.
Qed.

Lemma is_Some_insert_same {V} (h : gmap nat V) id c c' j : h !! id = Some c -> is_Some (<[id := c']> h !! j) <-> is_Some (h !! j).
Proof.
  intros Hc. destruct (decide (id = j)) as [<-|Hne]; [rewrite lookup_insert_eq, Hc; split; by eexists|by rewrite lookup_insert_ne].
Qed.

Lemma wf_insert w id c c' : wf w -> heap w !! id = Some c -> wf (with_heap (<[id := c']> (heap w)) w).
Proof. intros Hw Hc. apply wf_on_heap; [done|]. intros j. by apply (is_Some_insert_same _ id c). Qed.

Lemma wf_on_chan w id f : wf w -> wf (on_chan id f w).
Proof. intros Hw. apply wf_on_heap; [done|]. intros j. rewrite lookup_alter. case_decide; [subst; by rewrite fmap_is_Some|done]. Qed.

Lemma wf_channels w cs ss : wf w -> (forall name id, cs !! name = Some id -> channels (broker w) !! name = Some id) ->
  wf (with_channels cs ss w).
Proof. intros [H1 H2 H3] Hs. constructor; cbn; eauto. Qed.

Lemma wf_published now channel message comp reached w : wf w -> wf (published now channel message comp reached w).2.
Proof. intros [H1 H2 H3]. by constructor. Qed.

Lemma queues_published now channel message comp reached w id :
  queues_of (published now channel message comp reached w).2 id = queues_of w id.
Proof. done. Qed.

(** ** Publishing *)

(** What goes out. *)
Definition message_out now (channel : bytes) (p : MessagePayload) (o : PublishOptions) w : Message :=
  PubSub.message_of now channel (if wants_compression p o w then compress_payload p else p) o.

Lemma queues_insert w id c j : queues_of (with_heap (<[id := c]> (heap w)) w) j =
  if decide (id = j) then bv_queues (bc_view c) else queues_of w j.
Proof.
  unfold queues_of. cbn [with_heap heap]. case_decide as H; [subst; by rewrite lookup_insert_eq|by rewrite lookup_insert_ne].
Qed.

(** A publication pushes to all the queues of the channel, or hangs. *)
Lemma publish_spec now channel p o w :
  wf w -> too_large p w = false ->
  match channels (broker w) !! channel with
  | Some id =>
      if bool_decide (queues_of w id = ∅) then publish_with_options now channel p o w = None
      else exists r w', publish_with_options now channel p o w = Some (Ok r, w') /\ wf w' /\
        subscribers_reached r = size (queues_of w id) /\ channels (broker w') = channels (broker w) /\
        config (broker w') = config (broker w) /\
        (forall j, capacity_of w' j = capacity_of w j) /\
        forall j, queues_of w' j = if decide (id = j) then bv_push (capacity_of w id) (message_out now channel p o w) <$> queues_of w id else queues_of w j
  | None => exists r w', publish_with_options now channel p o w = Some (Ok r, w') /\ wf w' /\ subscribers_reached r = 0%nat /\
      channels (broker w') = channels (broker w) /\ config (broker w') = config (broker w) /\
      (forall j, capacity_of w' j = capacity_of w j) /\ forall j, queues_of w' j = queues_of w j
  end.
Proof.
  intros Hw Hl. unfold publish_with_options. rewrite Hl. cbv zeta. fold (message_out now channel p o w). set (msg := message_out _ _ _ _ _).
  destruct (channels (broker w) !! channel) as [id|] eqn:Ec.
  - destruct (wf_heap _ Hw _ _ Ec) as [c Hc]. assert (queues_of w id = bv_queues (bc_view c)) as Hq by (unfold queues_of; by rewrite Hc).
    rewrite Hc. cbn [mbind option_bind]. rewrite !Hq.
    pose proof (law_send msg c) as Hs. case_bool_decide as He.
    + by rewrite Hs.
    + destruct (bc_send msg c) as [n c']. cbn [fst snd] in Hs. destruct Hs as [-> Hv].
      eexists _, _. split; [reflexivity|].
      split; [apply (wf_published now channel msg false (size (bv_queues (bc_view c)))); by apply (wf_insert w id c)|]. split_and!; [done|done|done|..].
      * intros j. unfold capacity_of. cbn [published update_global_metrics update_channel_stats with_channels with_heap heap snd].
        destruct (decide (id = j)) as [<-|Hne]; [|by rewrite lookup_insert_ne]. by rewrite lookup_insert_eq, Hc, Hv.
      * intros j. change (queues_of _ j) with (queues_of (with_heap (<[id := c']> (heap w)) w) j) at 1. rewrite queues_insert. case_decide; [|done]. rewrite Hv. unfold capacity_of. by rewrite Hc.
  - eexists _, _. split; [reflexivity|]. split; [by apply (wf_published now channel msg false 0)|done].
Qed.

(** ** Subscribing *)

Definition room_for (o : SubscriptionOptions) w : Prop :=
  (0 < default (default_channel_capacity (config (broker w))) (buffer_size o))%nat.

Lemma entry_channel_spec now channel o w : wf w -> room_for o w ->
  exists id w', entry_channel now channel o w = Some (id, w') /\ wf w' /\ channels (broker w') !! channel = Some id /\
    config (broker w') = config (broker w) /\
    (forall name, name <> channel -> channels (broker w') !! name = channels (broker w) !! name) /\
    (forall j, is_Some (heap w !! j) -> heap w' !! j = heap w !! j) /\
    (channels (broker w) !! channel = None -> heap w !! id = None /\ queues_of w' id = ∅ /\ (default (default_channel_capacity (config (broker w))) (buffer_size o) <= capacity_of w' id)%nat) /\
    (forall id', channels (broker w) !! channel = Some id' -> id = id').
Proof.
  intros Hw Hroom. unfold entry_channel. destruct (channels (broker w) !! channel) as [id|] eqn:Ec.
  { exists id, w. split_and!; try done. by intros id' [= ->]. }
  destruct (law_channel _ Hroom) as (c & capacity & -> & Hcap & Hv). cbn [mbind option_bind].
  assert (heap w !! next_chan w = None) as Hn.
  { destruct (heap w !! next_chan w) eqn:E; [|done]. pose proof (wf_next _ Hw (next_chan w) (mk_is_Some _ _ E)). lia. }
  eexists _, _. split; [reflexivity|]. split_and!; cbn [broker channels config heap]; [|by rewrite lookup_insert_eq|done|..].
  - destruct Hw as [H1 H2 H3]. constructor; cbn [broker channels heap next_chan].
    + intros name id. destruct (decide (channel = name)) as [<-|Hne].
      * rewrite lookup_insert_eq. intros [= <-]. by rewrite lookup_insert_eq.
      * rewrite lookup_insert_ne by done. intros Hid. destruct (H1 _ _ Hid) as [c' Hc'].
        destruct (decide (next_chan w = id)) as [<-|]; [by rewrite lookup_insert_eq|]. by rewrite lookup_insert_ne.
    + assert (forall name, channels (broker w) !! name <> Some (next_chan w)) as Hfresh.
      { intros name E. destruct (H1 _ _ E) as [c' Hc']. congruence. }
      intros name name' id. destruct (decide (channel = name)) as [<-|Hne], (decide (channel = name')) as [<-|Hne'];
        rewrite ?lookup_insert_eq, ?lookup_insert_ne by done; try done; [..|by apply H2].
      * intros [= <-] E. by apply Hfresh in E.
      * intros E [= <-]. by apply Hfresh in E.
    + intros id. destruct (decide (next_chan w = id)) as [<-|Hne]; [lia|]. rewrite lookup_insert_ne by done. intros H%H3. lia.
  - intros name Hne. by rewrite lookup_insert_ne.
  - intros j [x Hx]. rewrite lookup_insert_ne; [done|]. intros <-. congruence.
  - intros _. unfold queues_of, capacity_of. cbn [heap]. by rewrite lookup_insert_eq, Hv.
  - done.
Qed.

(** Subscribing gives a queue that is empty and changes no other. *)
Lemma subscribe_spec now channel o w : wf w -> room_for o w ->
  exists r w', subscribe_with_options now channel o w = Some (r, w') /\ wf w' /\ config (broker w') = config (broker w) /\
    (forall name, name <> channel -> channels (broker w') !! name = channels (broker w) !! name) /\
    (forall id, channels (broker w) !! channel = Some id -> channels (broker w') !! channel = Some id) /\
    (forall j, is_Some (heap w !! j) -> capacity_of w' j = capacity_of w j /\
       forall rc q, queues_of w j !! rc = Some q -> queues_of w' j !! rc = Some q) /\
    match r with
    | Ok s => sub_channel s = channel /\ channels (broker w') !! channel = Some (chan_id s) /\ queue_of w' s = Some (0, []) /\
        filters s = no_filters /\ options s = o /\
        message_buffer s = (if enable_message_buffer o then Some [] else None) /\
        (channels (broker w) !! channel = None ->
           (default (default_channel_capacity (config (broker w))) (buffer_size o) <= capacity_of w' (chan_id s))%nat) /\
        queues_of w' (chan_id s) = <[receiver s := (0, [])]> (match channels (broker w) !! channel with Some id => queues_of w id | None => ∅ end)
    | Err e => e = SubscriberLimitExceeded
    end.
Proof.
  intros Hw Hroom. unfold subscribe_with_options.
  destruct (entry_channel_spec now channel o w Hw Hroom) as (id & w1 & -> & Hw1 & Hc1 & Hcfg & Hoth & Hheap & Hnew & Hold). cbn [mbind option_bind].
  destruct (wf_heap _ Hw1 _ _ Hc1) as [c Hc]. rewrite Hc. cbn [mbind option_bind].
  assert (forall j, is_Some (heap w !! j) -> capacity_of w1 j = capacity_of w j /\ queues_of w1 j = queues_of w j) as Hkeep.
  { intros j Hj. unfold capacity_of, queues_of. by rewrite (Hheap j Hj). }
  destruct (match max_subscribers_per_channel (config (broker w1)) with Some max => _ | None => false end).
  { eexists _, w1. split; [reflexivity|]. split_and!; try done.
    - intros id' H. by rewrite (Hold id' H) in Hc1.
    - intros j Hj. destruct (Hkeep j Hj) as [-> ->]. done. }
  destruct (law_subscribe c) as [Hfresh Hv]. destruct (bc_subscribe c) as [r c'] eqn:E. cbn [fst snd] in *.
  eexists _, _. split; [reflexivity|]. split_and!; [|done|done| | |done|done| |done|done|done| |].
  - apply wf_channels; [by apply (wf_insert w1 id c)|done].
  - intros id' H. cbn. by rewrite (Hold id' H) in Hc1.
  - intros j Hj. destruct (Hkeep j Hj) as [<- <-]. unfold capacity_of, queues_of. cbn [with_channels with_heap heap].
    destruct (decide (id = j)) as [<-|Hne]; [|by rewrite lookup_insert_ne]. rewrite lookup_insert_eq, Hc, Hv. split; [done|].
    intros rc q Hq. cbn [with_queues bv_queues]. rewrite lookup_insert_ne; [done|]. intros <-. congruence.
  - unfold queue_of, queues_of. cbn [with_channels with_heap heap chan_id subscriber_new receiver]. rewrite lookup_insert_eq, Hv.
    apply lookup_insert_eq.
  - intros Hno. destruct (Hnew Hno) as (_ & _ & Hcap). unfold capacity_of in *. rewrite Hc in Hcap.
    cbn [with_channels with_heap heap chan_id subscriber_new]. by rewrite lookup_insert_eq, Hv.
  - unfold queues_of at 1. cbn [with_channels with_heap heap chan_id subscriber_new receiver]. rewrite lookup_insert_eq, Hv.
    cbn [with_queues bv_queues]. f_equal. destruct (channels (broker w) !! channel) as [id'|] eqn:Ech.
    + rewrite (Hold id' eq_refl) in *. destruct (Hkeep id' (wf_heap _ Hw _ _ Ech)) as [_ <-]. unfold queues_of. by rewrite Hc.
    + destruct (Hnew eq_refl) as (_ & Hq & _). unfold queues_of in Hq. by rewrite Hc in Hq.
Qed.

(** ** A subscriber without filters *)

Definition plain s : Prop := filters s = no_filters /\ message_type_filter (options s) = None /\ message_buffer s = None.

Lemma plain_processes s m : plain s -> should_process_message s m = true.
Proof. intros (Hf & Ht & _). unfold should_process_message. by rewrite Hf, Ht. Qed.

Lemma receive_spec w s lagged l : wf w -> queue_of w s = Some (lagged, l) ->
  exists r w', receive s w = Some (r, w') /\ wf w' /\ channels (broker w') = channels (broker w) /\ config (broker w') = config (broker w) /\
    (forall j, capacity_of w' j = capacity_of w j) /\
    (forall j rc, (j, rc) <> (chan_id s, receiver s) -> queues_of w' j !! rc = queues_of w j !! rc) /\
    if 0 <? lagged then r = Err (BcLagged lagged) /\ queue_of w' s = Some (0, l)
    else match l with
         | m :: l => r = Ok m /\ queue_of w' s = Some (lagged, l)
         | [] => (r = Err BcEmpty \/ r = Err BcClosed) /\ queue_of w' s = Some (lagged, [])
         end.
Proof.
  intros Hw Hq. unfold receive. unfold queue_of, queues_of in Hq.
  destruct (heap w !! chan_id s) as [c|] eqn:Hc; [|by rewrite lookup_empty in Hq]. cbn [mbind option_bind].
  pose proof (law_try_recv _ _ _ _ Hq) as Hl. destruct (bc_try_recv (receiver s) c) as [r c'] eqn:E. cbn [fst snd] in Hl.
  eexists _, _. split; [reflexivity|].
  assert (bv_capacity (bc_view c') = bv_capacity (bc_view c) /\
    (forall rc, rc <> receiver s -> bv_queues (bc_view c') !! rc = bv_queues (bc_view c) !! rc)) as [Hcap Hne].
  { destruct (0 <? lagged); [|destruct l as [|m l]]; destruct Hl as [_ ->]; (split; [done|]); intros rc Hrc; try done;
      by apply lookup_insert_ne. }
  split; [by apply (wf_insert w _ c)|]. split_and!; [done|done|..].
  - intros j. unfold capacity_of. cbn [with_heap heap].
    destruct (decide (chan_id s = j)) as [<-|]; [by rewrite lookup_insert_eq, Hc|by rewrite lookup_insert_ne].
  - intros j rc Hjr. rewrite queues_insert. case_decide as Hj; [|done]. subst j. unfold queues_of. rewrite Hc. apply Hne. congruence.
  - unfold queue_of. rewrite queues_insert, decide_True by done.
    destruct (0 <? lagged); [|destruct l as [|m l]]; destruct Hl as [Hr Hv]; rewrite Hv.
    + split; [done|]. apply lookup_insert_eq.
    + split; [|done]. rewrite Hr. destruct (bv_open (bc_view c)); [by left|by right].
    + split; [done|]. apply lookup_insert_eq.
Qed.

(** ** Runs *)

(** What happens in a world with the subscriber [s]. *)
Inductive pubsub_event : Type :=
| EPublish (now : Z) (channel : bytes) (p : MessagePayload) (o : PublishOptions)
| ESubscribe (now : Z) (channel : bytes) (o : SubscriptionOptions)
| EUnsubscribe (channel : bytes)
| ECleanup (now : Z)
| EOther (other : Subscriber)
| EDropOther (other : Subscriber)
| EReceive (now : Z).

(** The other subscribers are those with another channel or another receiver. *)
Definition other_than s (e : pubsub_event) : Prop :=
  match e with
  | EOther o | EDropOther o => (chan_id o, receiver o) <> (chan_id s, receiver s)
  | _ => True
  end.

(** The state of a run: the world, the subscriber, what was published to it and
    what it got. *)
Record pubsub_run : Type := mkRun { run_world : World; run_sub : Subscriber; run_sent : list Message; run_got : list Message }.

Definition in_world (f : World -> World) (r : pubsub_run) : pubsub_run := mkRun (f (run_world r)) (run_sub r) (run_sent r) (run_got r).

Definition pubsub_step (e : pubsub_event) (r : pubsub_run) : option pubsub_run :=
  let w := run_world r in
  match e with
  | EPublish now channel p o =>
      '(_, w') ← publish_with_options now channel p o w;
      let sent := if bool_decide (channels (broker w) !! channel = Some (chan_id (run_sub r))) && negb (too_large p w)
                  then [message_out now channel p o w] else [] in
      Some (mkRun w' (run_sub r) (run_sent r ++ sent) (run_got r))
  | ESubscribe now channel o => '(_, w') ← subscribe_with_options now channel o w; Some (in_world (fun _ => w') r)
  | EUnsubscribe channel => Some (in_world (fun w => (unsubscribe channel w).2) r)
  | ECleanup now => Some (in_world (fun w => (cleanup_inactive_channels now w).2) r)
  | EOther o =>
      if decide (is_Some (queue_of w o)) then '(_, w') ← receive o w; Some (in_world (fun _ => w') r) else Some r
  | EDropOther o => Some (in_world (drop_subscriber o) r)
  | EReceive now =>
      '(m, s, w') ← try_recv 2 now (run_sub r) w;
      Some (mkRun w' s (run_sent r) (run_got r ++ match m with Ok m => [m] | Err _ => [] end))
  end.

Fixpoint pubsub_steps (es : list pubsub_event) (r : pubsub_run) : option pubsub_run :=
  match es with [] => Some r | e :: es => r ← pubsub_step e r; pubsub_steps es r end.

(** ** What each event leaves of the queue *)

Record keeps s w w' : Prop := {
  keeps_wf : wf w';
  keeps_queue : queue_of w' s = queue_of w s;
  keeps_capacity : capacity_of w' (chan_id s) = capacity_of w (chan_id s);
}.

Lemma keeps_trans s w1 w2 w3 : keeps s w1 w2 -> keeps s w2 w3 -> keeps s w1 w3.
Proof. intros [A1 A2 A3] [B1 B2 B3]. split; congruence. Qed.

Lemma keeps_on_chan s w id (f : chan -> chan) : wf w ->
  (forall c, bv_capacity (bc_view (f c)) = bv_capacity (bc_view c)) ->
  (forall c, id = chan_id s -> bv_queues (bc_view (f c)) !! receiver s = bv_queues (bc_view c) !! receiver s) ->
  keeps s w (on_chan id f w).
Proof.
  intros Hw Hcap Hq. split; [by apply wf_on_chan|..].
  - unfold queue_of, queues_of, on_chan. cbn [with_heap heap]. rewrite lookup_alter. case_decide as E; [|done]. subst id.
    destruct (heap w !! chan_id s); [|done]. cbn [fmap option_fmap option_map]. by apply Hq.
  - unfold capacity_of, on_chan. cbn [with_heap heap]. rewrite lookup_alter. case_decide as E; [|done]. subst id.
    destruct (heap w !! chan_id s); [|done]. cbn [fmap option_fmap option_map]. by apply Hcap.
Qed.

Lemma keeps_give_up s w channel id : wf w ->
  keeps s w (on_chan id bc_close (with_channels (delete channel (channels (broker w))) (delete channel (stats (broker w))) w)).
Proof.
  intros Hw. eapply (keeps_trans s w (with_channels (delete channel (channels (broker w))) (delete channel (stats (broker w))) w)).
  - split; [|done|done]. apply wf_channels; [done|]. intros name id' H. by apply lookup_delete_Some in H as [_ H].
  - apply keeps_on_chan; [|intros c; by rewrite law_close|intros c _; by rewrite law_close].
    apply wf_channels; [done|]. intros name id' H. by apply lookup_delete_Some in H as [_ H].
Qed.

Lemma keeps_unsubscribe s w channel : wf w -> keeps s w (unsubscribe channel w).2.
Proof. intros Hw. unfold unsubscribe. destruct (channels (broker w) !! channel); [by apply keeps_give_up|by split]. Qed.

Lemma keeps_cleanup s w now : wf w -> keeps s w (cleanup_inactive_channels now w).2.
Proof.
  intros Hw. unfold cleanup_inactive_channels. destruct (channel_ttl _) as [ttl|]; [|by split].
  generalize (omap (fun kv : bytes * ChannelStats => if inactive now ttl kv.2 then Some kv.1 else None) (map_to_list (stats (broker w)))). intros l.
  enough (forall n w1, keeps s w w1 -> keeps s w (foldl (fun acc channel => remove_inactive channel acc) (n, w1) l).2) as H by (apply H; by split).
  induction l as [|channel l IH]; intros n w1 H1; [done|]. cbn [foldl]. unfold remove_inactive at 2.
  destruct (channels (broker w1) !! channel); [|by apply IH]. apply IH. eapply keeps_trans; [exact H1|]. apply keeps_give_up, H1.
Qed.

Lemma keeps_drop s o w : wf w -> (chan_id o, receiver o) <> (chan_id s, receiver s) -> keeps s w (drop_subscriber o w).
Proof.
  intros Hw Hne. apply keeps_on_chan; [done|intros c; by rewrite law_drop|]. intros c E. rewrite law_drop. cbn [with_queues bv_queues].
  apply lookup_delete_ne. congruence.
Qed.

Lemma keeps_subscribe s w now channel o r w' : wf w -> room_for o w -> is_Some (queue_of w s) ->
  subscribe_with_options now channel o w = Some (r, w') -> keeps s w w' /\ config (broker w') = config (broker w).
Proof.
  intros Hw Hroom [q Hq] E. destruct (subscribe_spec now channel o w Hw Hroom) as (r1 & w1 & E1 & Hw1 & Hcfg & _ & _ & Hk & _).
  rewrite E in E1. injection E1 as <- <-. split; [|done].
  assert (is_Some (heap w !! chan_id s)) as Hh.
  { unfold queue_of, queues_of in Hq. destruct (heap w !! chan_id s); [by eexists|by rewrite lookup_empty in Hq]. }
  destruct (Hk _ Hh) as [Hc Hqs]. split; [done|..|done]. unfold queue_of at 1. rewrite (Hqs _ _ Hq). by symmetry.
Qed.

(** ** Delivery *)

(** What a subscriber makes of a message that it can read. *)
Definition delivered s m : Message := match process_message s m with Ok m => m | Err _ => m end.

(** No payload that says to be gzip and is not. *)
Definition readable m : Prop :=
  forall data ct, payload m = PSerialized data ct -> ct = ascii_bytes "application/gzip" -> is_Some (gunzip data).

Definition event_ok (cfg : BrokerConfig) s (e : pubsub_event) : Prop :=
  other_than s e /\
  match e with
  | EPublish _ _ p _ => forall data ct, p = PSerialized data ct -> ct <> ascii_bytes "application/gzip"
  | ESubscribe _ _ o => (0 < default (default_channel_capacity cfg) (buffer_size o))%nat
  | _ => True
  end.

Lemma message_of_payload now channel p o : payload (PubSub.message_of now channel p o) = p.
Proof.
  unfold PubSub.message_of. destruct (extra_headers o) as [hs|]; [|by destruct (add_timestamp o)].
  set (m0 := if add_timestamp o then _ else _). assert (payload m0 = p) as H by (subst m0; by destruct (add_timestamp o)). clearbody m0.
  revert m0 H. induction hs as [|[k v] hs IH]; intros m0 H; [done|]. cbn [foldl]. by apply IH.
Qed.

Lemma readable_processed s m : readable m -> process_message s m = Ok (delivered s m).
Proof.
  intros Hr. unfold delivered. assert (exists m', process_message s m = Ok m') as [m' ->]; [|done].
  unfold process_message. assert (exists p, (if options_compression (options s) then decompress_if_needed (payload m) else Ok (payload m)) = Ok p) as [p ->];
    [|by eexists].
  destruct (options_compression (options s)); [|by eexists]. unfold decompress_if_needed.
  destruct (payload m) as [| | |data ct] eqn:E; try by eexists. case_bool_decide as Hct; [|by eexists].
  destruct (Hr data ct E Hct) as [d ->]. by eexists.
Qed.

Lemma published_readable {mt_laws : MessageTextLaws} now channel p o w :
  (forall data ct, p = PSerialized data ct -> ct <> ascii_bytes "application/gzip") -> readable (message_out now channel p o w).
Proof.
  intros Hp data ct. unfold message_out. rewrite message_of_payload. destruct (wants_compression p o w).
  - unfold compress_payload. intros [= <- <-] _. rewrite gunzip_gzip. by eexists.
  - intros E Hct. by destruct (Hp data ct E).
Qed.

(** The state of a delivery that nothing was lost of. *)
Record delivering s (cfg : BrokerConfig) (capacity : nat) (r : pubsub_run) (rest : list Message) : Prop := {
  dl_wf : wf (run_world r);
  dl_cfg : config (broker (run_world r)) = cfg;
  dl_sub : chan_id (run_sub r) = chan_id s /\ receiver (run_sub r) = receiver s /\ filters (run_sub r) = no_filters /\
    options (run_sub r) = options s /\ message_buffer (run_sub r) = None /\ message_type_filter (options s) = None;
  dl_capacity : capacity_of (run_world r) (chan_id s) = capacity;
  dl_queue : queue_of (run_world r) s = Some (0, rest);
  dl_sent : run_got r ++ (delivered s <$> rest) = delivered s <$> run_sent r;
  dl_readable : Forall readable rest;
}.

(** How many messages the subscriber has not got yet. *)
Definition behind (r : pubsub_run) : nat := length (run_sent r) - length (run_got r).

(** It is never behind by more than the capacity of its channel. *)
Fixpoint keeps_up (capacity : nat) (es : list pubsub_event) (r : pubsub_run) : bool :=
  match es with
  | [] => true
  | e :: es => match pubsub_step e r with Some r' => (behind r' <=? capacity)%nat && keeps_up capacity es r' | None => true end
  end.

(** A publication to a channel that nobody listens to. *)
Definition abandoned (r : pubsub_run) (e : pubsub_event) : Prop :=
  match e with
  | EPublish _ channel _ _ => exists id, channels (broker (run_world r)) !! channel = Some id /\ queues_of (run_world r) id = ∅
  | _ => False
  end.

Lemma too_large_stays now channel p o w : too_large p w = true -> exists e, publish_with_options now channel p o w = Some (Err e, w).
Proof. intros H. unfold publish_with_options. rewrite H. by eexists. Qed.

Lemma deliver_world s cfg capacity r rest w : delivering s cfg capacity r rest -> keeps s (run_world r) w -> config (broker w) = cfg ->
  delivering s cfg capacity (in_world (fun _ => w) r) rest.
Proof. intros [H1 H2 H3 H4 H5 H6 H7] [K1 K2 K3] Hc. constructor; cbn [in_world run_world run_sub run_sent run_got]; congruence || done. Qed.

Lemma config_give_up w channel id :
  config (broker (on_chan id bc_close (with_channels (delete channel (channels (broker w))) (delete channel (stats (broker w))) w))) = config (broker w).
Proof. done. Qed.

Lemma config_cleanup now w : config (broker (cleanup_inactive_channels now w).2) = config (broker w).
Proof.
  unfold cleanup_inactive_channels. destruct (channel_ttl _); [|done].
  generalize (omap (fun kv : bytes * ChannelStats => if inactive now z kv.2 then Some kv.1 else None) (map_to_list (stats (broker w)))). intros l.
  enough (forall n w1, config (broker w1) = config (broker w) ->
    config (broker (foldl (fun acc channel => remove_inactive channel acc) (n, w1) l).2) = config (broker w)) as H by (by apply H).
  induction l as [|channel l IH]; intros n w1 H1; [done|]. cbn [foldl]. unfold remove_inactive at 2.
  destruct (channels (broker w1) !! channel); by apply IH.
Qed.

Lemma deliver_publish {mt_laws : MessageTextLaws} s cfg capacity r rest now channel p o :
  delivering s cfg capacity r rest -> event_ok cfg s (EPublish now channel p o) ->
  match pubsub_step (EPublish now channel p o) r with
  | Some r' => (behind r' <= capacity)%nat -> exists rest', delivering s cfg capacity r' rest'
  | None => abandoned r (EPublish now channel p o)
  end.
Proof.
  intros Hd [_ Hp]. pose proof Hd as [H1 H2 H3 H4 H5 H6 H7]. cbn [pubsub_step]. destruct (too_large p (run_world r)) eqn:Hl.
  { destruct (too_large_stays now channel p o _ Hl) as [e ->]. cbn [mbind option_bind negb]. rewrite andb_false_r, app_nil_r. intros _. by exists rest. }
  pose proof (publish_spec now channel p o (run_world r) H1 Hl) as Hs. cbn [negb]. rewrite andb_true_r.
  destruct H3 as (Hid & Hrest). rewrite Hid.
  destruct (channels (broker (run_world r)) !! channel) as [id|] eqn:Ec.
  - case_bool_decide as He; [rewrite Hs; cbn [mbind option_bind]; by exists id|].
    destruct Hs as (x & w' & -> & Hw' & _ & _ & Hcfg & Hcap & Hq). cbn [mbind option_bind]. unfold behind. cbn [run_sent run_got]. intros Hlen.
    unfold queue_of in H5. pose proof (Hq (chan_id s)) as Hqs. case_bool_decide as Hsame.
    + injection Hsame as ->. rewrite decide_True in Hqs by done. exists (rest ++ [message_out now channel p o (run_world r)]).
      assert (length (run_got r) + length rest = length (run_sent r))%nat as Hle.
      { apply (f_equal length) in H6. by rewrite length_app, !length_fmap in H6. }
      constructor; cbn [run_world run_sub run_sent run_got]; [done|congruence|done|congruence|..].
      * unfold queue_of. rewrite Hqs, lookup_fmap, H5. cbn [fmap option_fmap option_map]. unfold bv_push. cbn [fst snd].
        rewrite H4, (proj2 (Nat.ltb_ge _ _)); [done|]. rewrite length_app in *. cbn [length] in *. lia.
      * rewrite !fmap_app, app_assoc. by rewrite H6.
      * apply Forall_app. split; [done|]. apply Forall_singleton. by apply published_readable.
    + rewrite decide_False in Hqs by congruence. rewrite app_nil_r in *. exists rest.
      constructor; cbn [run_world run_sub run_sent run_got]; try done; try congruence. unfold queue_of. by rewrite Hqs.
  - destruct Hs as (x & w' & -> & Hw' & _ & _ & Hcfg & Hcap & Hq). cbn [mbind option_bind]. rewrite bool_decide_false by done.
    rewrite app_nil_r. intros _. exists rest.
    constructor; cbn [run_world run_sub run_sent run_got]; try done; try congruence. unfold queue_of. by rewrite Hq.
Qed.

Lemma process_options s s' m : options s' = options s -> process_message s' m = process_message s m.
Proof. intros E. unfold process_message. by rewrite E. Qed.

Lemma deliver_receive s cfg capacity r rest now :
  delivering s cfg capacity r rest -> exists r' rest', pubsub_step (EReceive now) r = Some r' /\ delivering s cfg capacity r' rest' /\ run_sent r' = run_sent r.
Proof.
  intros [H1 H2 H3 H4 H5 H6 H7]. destruct H3 as (Hid & Hrc & Hf & Ho & Hb & Ht). cbn [pubsub_step]. unfold try_recv. rewrite Hb. cbn [recv_loop].
  assert (queue_of (run_world r) (run_sub r) = Some (0, rest)) as Hq by (unfold queue_of; by rewrite Hid, Hrc).
  destruct (receive_spec (run_world r) (run_sub r) 0 rest H1 Hq) as (x & w' & -> & Hw' & Hch & Hcfg & Hcap & _ & Hx).
  cbn [mbind option_bind]. rewrite Z.ltb_irrefl in Hx.
  assert (forall y, queue_of w' (run_sub r) = y -> queue_of w' s = y) as Hqs by (intros y; unfold queue_of; by rewrite Hid, Hrc).
  destruct rest as [|m rest].
  - destruct Hx as [[->| ->] Hx]; eexists _, []; (split; [reflexivity|]); (split; [|done]);
      (constructor; cbn [run_world run_sub run_sent run_got]; [done|congruence|by split_and!|congruence|by apply Hqs|by rewrite <- H6, !app_nil_r|done]).
  - destruct Hx as [-> Hx]. apply Forall_cons in H7 as [Hm H7].
    rewrite plain_processes by (unfold plain; split_and!; congruence).
    rewrite (process_options s (run_sub r)), (readable_processed s m Hm) by done.
    eexists _, rest. split; [reflexivity|]. split; [|done].
    constructor; cbn [run_world run_sub run_sent run_got]; [done|congruence|by split_and!|congruence|by apply Hqs| |done].
    rewrite <- H6, <- app_assoc. done.
Qed.

Lemma deliver_step {mt_laws : MessageTextLaws} s cfg capacity r rest e :
  delivering s cfg capacity r rest -> event_ok cfg s e ->
  match pubsub_step e r with
  | Some r' => (behind r' <= capacity)%nat -> exists rest', delivering s cfg capacity r' rest'
  | None => abandoned r e
  end.
Proof.
  intros Hd He. pose proof (dl_wf _ _ _ _ _ Hd) as Hw. pose proof (dl_queue _ _ _ _ _ Hd) as Hq. pose proof (dl_cfg _ _ _ _ _ Hd) as Hc.
  destruct e as [now channel p o|now channel o|channel|now|o|o|now].
  - exact (deliver_publish s cfg capacity r rest now channel p o Hd He).
  - destruct He as [_ Hroom]. rewrite <- Hc in Hroom.
    destruct (subscribe_spec now channel o (run_world r) Hw Hroom) as (x & w' & E & _). cbn [pubsub_step]. rewrite E. cbn [mbind option_bind].
    intros _. exists rest. destruct (keeps_subscribe s _ now channel o x w' Hw Hroom ltac:(by rewrite Hq) E) as [Hk Hcfg].
    apply deliver_world; [done|done|congruence].
  - intros _. exists rest. apply (deliver_world _ _ _ _ _ _ Hd); [by apply keeps_unsubscribe|].
    unfold unsubscribe. destruct (channels _ !! channel); exact Hc.
  - intros _. exists rest. apply (deliver_world _ _ _ _ _ _ Hd); [by apply keeps_cleanup|by rewrite config_cleanup].
  - cbn [pubsub_step]. destruct (decide (is_Some (queue_of (run_world r) o))) as [[[lagged l] Ho]|]; [|intros _; by exists rest].
    destruct (receive_spec (run_world r) o lagged l Hw Ho) as (x & w' & -> & Hw' & _ & Hcfg & Hcap & Hoth & _). cbn [mbind option_bind].
    intros _. exists rest. apply deliver_world; [done| |congruence]. split; [done| |by apply Hcap].
    apply (Hoth (chan_id s) (receiver s)). destruct He as [He _]. cbn in He. congruence.
  - intros _. exists rest. destruct He as [He _]. apply (deliver_world _ _ _ _ _ _ Hd); [by apply keeps_drop|exact Hc].
  - destruct (deliver_receive s cfg capacity r rest now Hd) as (r' & rest' & -> & Hd' & _). intros _. by exists rest'.
Qed.

Lemma deliver_steps {mt_laws : MessageTextLaws} s cfg capacity es r rest :
  delivering s cfg capacity r rest -> Forall (event_ok cfg s) es -> keeps_up capacity es r = true ->
  match pubsub_steps es r with
  | Some r' => exists rest', delivering s cfg capacity r' rest'
  | None => exists es1 e es2 r1, es = es1 ++ e :: es2 /\ pubsub_steps es1 r = Some r1 /\ abandoned r1 e
  end.
Proof.
  intros Hd He. revert r rest Hd. induction He as [|e es He Hes IH]; intros r rest Hd Hup; [by exists rest|].
  cbn [pubsub_steps keeps_up] in *. pose proof (deliver_step s cfg capacity r rest e Hd He) as Hs.
  destruct (pubsub_step e r) as [r1|] eqn:E; cbn [mbind option_bind]; [|exists [], e, es, r; by auto].
  apply andb_true_iff in Hup as [Hl%Nat.leb_le Hup]. destruct (Hs Hl) as [rest1 Hd1]. specialize (IH r1 rest1 Hd1 Hup).
  destruct (pubsub_steps es r1) as [r2|]; [done|].
  destruct IH as (es1 & e1 & es2 & r2 & -> & H2 & H3). exists (e :: es1), e1, es2, r2. split; [done|]. split; [|done].
  cbn [pubsub_steps]. by rewrite E.
Qed.

Lemma deliver_start w now channel o s w0 : wf w -> room_for o w -> message_type_filter o = None -> enable_message_buffer o = false ->
  subscribe_with_options now channel o w = Some (Ok s, w0) ->
  delivering s (config (broker w)) (capacity_of w0 (chan_id s)) (mkRun w0 s [] []) [].
Proof.
  intros Hw Hroom Ht Hb E. destruct (subscribe_spec now channel o w Hw Hroom) as (x & w1 & E1 & Hw1 & Hcfg & _ & _ & _ & Hx).
  rewrite E in E1. injection E1 as <- <-. destruct Hx as (_ & _ & Hq & Hf & Ho & Hbuf & _).
  constructor; cbn [run_world run_sub run_sent run_got]; try done. rewrite Hb in Hbuf. split_and!; congruence || done.
Qed.

Lemma new_wf cfg : wf (with_config cfg).
Proof. by constructor; cbn; intros *; rewrite ?lookup_empty; try done; intros []. Qed.

(** ** Waiting for a condition *)

Lemma recv_buffered fuel now late s w m rest : message_buffer s = Some (m :: rest) ->
  recv fuel now late s w = Some (Ready (Ok m), count_received now m (with_buffer (Some rest) s), w).
Proof. intros Hb. unfold recv, try_recv. rewrite Hb. done. Qed.

Lemma condition_loops rounds fuel now condition s w m : message_buffer s = Some [m] -> condition m = false ->
  (0 < message_buffer_size (options s))%nat -> recv_with_condition rounds fuel now condition s w = None.
Proof.
  intros Hb Hc Hsz. revert s Hb Hsz. induction rounds as [|rounds IH]; intros s Hb Hsz; [done|]. cbn [recv_with_condition].
  rewrite (recv_buffered fuel now false s w m [] Hb). cbn [mbind option_bind]. rewrite Hc.
  cbn [message_buffer count_received with_sub_stats with_buffer]. cbn [length]. rewrite (proj2 (Nat.ltb_lt _ _)) by done. by apply IH.
Qed.
End Laws.

(** C10. Over any channel that keeps the laws of tokio's [broadcast], a subscriber
    without filters receives exactly the messages that are published on its
    channel, decompressed, each once and in their order, and the ones it has not
    read yet wait in its queue, whatever else happens (other channels and
    subscribers, channels given up or cleaned up), however many messages there
    are, as long as it is at no time behind by more messages than the capacity;
    and the only thing that can stop it all is a publication to a channel that
    nobody listens to. *)
Theorem pubsub_delivers {js : Json} {mt : MessageText} {mt_laws : MessageTextLaws} {bc : Broadcast (@Message js)} {bl : BroadcastLaws (@Message js)}
    {order : HashOrder (bytes * bytes)} (w : World) (now : Z) (channel : bytes) (o : SubscriptionOptions) (s : Subscriber) (w0 : World)
    (es : list pubsub_event) :
  wf w -> room_for o w -> message_type_filter o = None -> enable_message_buffer o = false ->
  subscribe_with_options now channel o w = Some (Ok s, w0) -> Forall (event_ok (config (broker w)) s) es ->
  keeps_up (capacity_of w0 (chan_id s)) es (mkRun w0 s [] []) = true ->
  match pubsub_steps es (mkRun w0 s [] []) with
  | Some r => exists rest, run_got r ++ (delivered s <$> rest) = delivered s <$> run_sent r /\ queue_of (run_world r) s = Some (0, rest)
  | None => exists es1 e es2 r, es = es1 ++ e :: es2 /\ pubsub_steps es1 (mkRun w0 s [] []) = Some r /\ abandoned r e
  end.
Proof.
  intros Hw Hroom Ht Hb E He Hup.
  pose proof (deliver_steps s _ _ es _ [] (deliver_start w now channel o s w0 Hw Hroom Ht Hb E) He Hup) as H.
  destruct (pubsub_steps es (mkRun w0 s [] [])) as [r|]; [|done].
  destruct H as [rest Hd]. exists rest. by destruct Hd.
Qed.

(** C29. A channel that its last subscriber has left stays in the broker, and the
    next publication to it never returns: it removes the entry of the channel
    while it holds a reference to it. *)
Theorem publish_hangs {js : Json} {mt : MessageText} {bc : Broadcast (@Message js)} {bl : BroadcastLaws (@Message js)}
    {order : HashOrder (bytes * bytes)} (w : World) (now : Z) (channel : bytes) (o : SubscriptionOptions) (s : Subscriber) (w0 : World) :
  wf w -> room_for o w -> channels (broker w) !! channel = None -> subscribe_with_options now channel o w = Some (Ok s, w0) ->
  forall later p po, too_large p w = false -> publish_with_options later channel p po (drop_subscriber s w0) = None.
Proof.
  intros Hw Hroom Hno E later p po Hl. destruct (subscribe_spec now channel o w Hw Hroom) as (x & w1 & E1 & Hw1 & Hcfg & _ & _ & _ & Hx).
  rewrite E in E1. injection E1 as <- <-. destruct Hx as (_ & Hch & _ & _ & _ & _ & _ & Hq). rewrite Hno in Hq.
  assert (wf (drop_subscriber s w0)) as Hw' by (by apply wf_on_chan).
  assert (too_large p (drop_subscriber s w0) = false) as Hl'.
  { revert Hl. unfold too_large. cbn [drop_subscriber on_chan with_heap broker]. by rewrite Hcfg. }
  pose proof (publish_spec later channel p po _ Hw' Hl') as Hs. cbn [drop_subscriber on_chan with_heap broker] in Hs. rewrite Hch in Hs.
  rewrite bool_decide_true in Hs; [exact Hs|]. revert Hq. unfold queues_of. cbn [drop_subscriber on_chan with_heap heap]. rewrite lookup_alter_eq.
  destruct (heap w0 !! chan_id s) as [c|]; [|done]. cbn [fmap option_fmap option_map]. intros Hq. rewrite law_drop, Hq. cbn [with_queues bv_queues].
  by rewrite delete_insert_eq, delete_empty.
Qed.

(** A subscriber with a buffer that waits for a message with some condition
    and finds in its buffer one without it never returns and never looks at its
    channel: it takes the message out and puts it back, round after round. *)
Theorem condition_never_met {js : Json} {mt : MessageText} {bc : Broadcast (@Message js)} {order : HashOrder (bytes * bytes)}
    (rounds fuel : nat) (now : Z) (condition : Message -> bool) (s : Subscriber) (w : World) (m : Message) :
  message_buffer s = Some [m] -> condition m = false -> (0 < message_buffer_size (options s))%nat ->
  recv_with_condition rounds fuel now condition s w = None.
Proof. apply condition_loops. Qed.

(** ** Witnesses *)

(** The channel as its documentation has it. *)
#[local] Existing Instance ex_json.
#[local] Existing Instance ex_message_text.

Definition ex_fresh {V} (m : gmap nat V) : nat := fresh (dom m).

#[local] Instance ex_broadcast (Msg : Type) : Broadcast Msg := {|
  chan := ChannelView Msg;
  bc_channel := fun n => match n with O => None | _ => Some (mkView n true ∅) end;
  bc_send := fun m v => if bool_decide (bv_queues v = ∅) then (None, v)
    else (Some (size (bv_queues v)), with_queues (bv_push (bv_capacity v) m <$> bv_queues v) v);
  bc_subscribe := fun v => (ex_fresh (bv_queues v), with_queues (<[ex_fresh (bv_queues v) := (0, [])]> (bv_queues v)) v);
  bc_receiver_count := fun v => size (bv_queues v);
  bc_try_recv := fun r v =>
    match bv_queues v !! r with
    | Some (lagged, l) =>
        if 0 <? lagged then (Err (BcLagged lagged), with_queues (<[r := (0, l)]> (bv_queues v)) v)
        else match l with
             | m :: l => (Ok m, with_queues (<[r := (lagged, l)]> (bv_queues v)) v)
             | [] => (Err (if bv_open v then BcEmpty else BcClosed), v)
             end
    | None => (Err BcClosed, v)
    end;
  bc_close := fun v => mkView (bv_capacity v) false (bv_queues v);
  bc_drop := fun r v => with_queues (delete r (bv_queues v)) v;
|}.

#[local] Instance ex_broadcast_laws (Msg : Type) : BroadcastLaws Msg.
Proof.
  refine {| bc_view := fun v : chan => v |}.
  - intros [|n] Hn; [lia|]. by eexists _, _.
  - intros m c. cbn [bc_send ex_broadcast]. by case_bool_decide.
  - intros c. cbn [bc_subscribe ex_broadcast fst snd]. split; [|done]. apply not_elem_of_dom. apply is_fresh.
  - done.
  - intros r c lagged l H. cbn [bc_try_recv ex_broadcast]. rewrite H. destruct (0 <? lagged); [done|]. by destruct l.
  - done.
  - done.
Defined.

Definition ex_world : @World ex_json (ex_broadcast _) := with_config (mkBrokerConfig 4 (Some 10000) None None false 1024).
Definition ex_options : SubscriptionOptions := mkOptions (Some 4%nat) false 0 false None None LagIgnore true.
Definition ex_subscribed : option (result RecvError Subscriber * @World ex_json (ex_broadcast _)) :=
  subscribe_with_options 0 (ascii_bytes "news") ex_options ex_world.

(** Six messages through a channel that holds four. *)
Definition ex_pubsub_events : list pubsub_event :=
  let news b := EPublish 1 (ascii_bytes "news") (PString (ascii_bytes b)) default_publish_options in
  [news "a"%string; news "b"%string; news "c"%string;
   EPublish 2 (ascii_bytes "other") (PString (ascii_bytes "x")) default_publish_options;
   EReceive 3; EReceive 4; news "d"%string; news "e"%string; EReceive 5; news "f"%string].

Definition ex_bytes (l : list (@Message ex_json)) : list bytes := (fun m => payload_bytes (payload m)) <$> l.

Definition ex_delivers (s : Subscriber) (w0 : World) : bool :=
  keeps_up (capacity_of w0 (chan_id s)) ex_pubsub_events (mkRun w0 s [] []) &&
  match pubsub_steps ex_pubsub_events (mkRun w0 s [] []) with
  | Some r => (capacity_of w0 (chan_id s) <? length (run_sent r))%nat && bool_decide (ex_bytes (run_got r) = [ascii_bytes "a"; ascii_bytes "b"; ascii_bytes "c"])
  | None => false
  end.

Lemma pubsub_delivers_witness :
  match ex_subscribed with
  | Some (Ok s, w0) =>
      match pubsub_steps ex_pubsub_events (mkRun w0 s [] []) with
      | Some r => ex_bytes (run_got r) = [ascii_bytes "a"; ascii_bytes "b"; ascii_bytes "c"] /\ (capacity_of w0 (chan_id s) < length (run_sent r))%nat /\
          exists rest, run_got r ++ (delivered s <$> rest) = delivered s <$> run_sent r /\ queue_of (run_world r) s = Some (0, rest)
      | None => False
      end
  | _ => False
  end.
Proof.
  assert (match ex_subscribed with Some (Ok s, w0) => ex_delivers s w0 | _ => false end = true) as Hc by (by vm_compute).
  destruct ex_subscribed as [[[s|e] w0]|] eqn:E; [|done..]. apply andb_true_iff in Hc as [Hup Hc].
  assert (Forall (event_ok (config (broker ex_world)) s) ex_pubsub_events) as He.
  { unfold ex_pubsub_events. repeat (apply Forall_cons; split); [by split..|by apply Forall_nil]. }
  pose proof (pubsub_delivers (mt_laws := ex_message_text_laws) ex_world 0 (ascii_bytes "news") ex_options s w0 ex_pubsub_events
    (new_wf _) (proj1 (Nat.ltb_lt 0 4) eq_refl) eq_refl eq_refl E He Hup) as H.
  destruct (pubsub_steps ex_pubsub_events (mkRun w0 s [] [])) as [r|]; [|done].
  apply andb_true_iff in Hc as [Hl Hb]. split; [by apply bool_decide_eq_true in Hb|]. split; [by apply Nat.ltb_lt|exact H].
Defined.

Lemma publish_hangs_witness :
  match ex_subscribed with
  | Some (Ok s, w0) => publish 1 (ascii_bytes "news") (PBytes [1]) w0 <> None /\
      publish 1 (ascii_bytes "news") (PBytes [1]) (drop_subscriber s w0) = None
  | _ => False
  end.
Proof.
  assert (match ex_subscribed with Some (Ok s, w0) => match publish 1 (ascii_bytes "news") (PBytes [1]) w0 with Some _ => true | None => false end
    | _ => false end = true) as Hc by (by vm_compute).
  destruct ex_subscribed as [[[s|e] w0]|] eqn:E; [|done..]. split.
  - by destruct (publish 1 (ascii_bytes "news") (PBytes [1]) w0).
  - apply (publish_hangs ex_world 0 (ascii_bytes "news") ex_options s w0 (new_wf _) (proj1 (Nat.ltb_lt 0 4) eq_refl) eq_refl E). by vm_compute.
Defined.

Lemma condition_never_met_witness :
  let m := from_string (ascii_bytes "news") (ascii_bytes "a") in
  recv_with_condition 1000 2 0 (fun m => bool_decide (payload_len (payload m) = 2))
    (mkSubscriber (ascii_bytes "news") 0 0 (mkOptions None true 10 false None None LagIgnore true) (Some [m]) (new_stats 0) no_filters) ex_world = None.
Proof. apply (condition_never_met 1000 2 0 _ _ ex_world (from_string (ascii_bytes "news") (ascii_bytes "a"))); [done|done|cbn; lia]. Defined.
