(* ===== verification/Access.v ===== *)
(** * Access control

    Models [src/src/auth]: the rules of an ACL and the users they configure
    ([acl.rs]), the hashing of passwords ([password.rs]), the configuration
    ([config.rs]) and the manager that authenticates, counts failures and
    authorises ([manager.rs]).  The crates [globset] and [argon2] are the classes
    [GlobLib] and [Argon]; a salt and the time are arguments. *)
From S2P Require Import Prelude Numbers Text.
Local Open Scope Z_scope.

(** ** Libraries *)

(** Crate [globset]. *)
Class GlobLib := {
  Glob : Type; GlobSet : Type;
  glob_new : bytes -> option Glob;
  set_empty : GlobSet;
  set_build : list Glob -> option GlobSet;
  set_is_empty : GlobSet -> bool;
  is_match : GlobSet -> bytes -> bool;
  glob_match : Glob -> bytes -> bool;
}.

(** A set matches what one of its patterns matches. *)
Class GlobLaws `{GlobLib} := {
  build_match gs s key : set_build gs = Some s -> is_match s key = existsb (fun g => glob_match g key) gs;
  build_is_empty gs s : set_build gs = Some s -> set_is_empty s = bool_decide (length gs = 0%nat);
  build_nothing : is_Some (set_build []);
}.

Inductive PasswordError : Type := Hash | Verify.

(** Crate [argon2]: the hash of a password with a salt, and whether a hash, if
    it can be read, is one of a password. *)
Class Argon := {
  argon_hash : bytes -> bytes -> option bytes;
  argon_verify : bytes -> bytes -> option bool;
}.

Class ArgonLaws `{Argon} := {
  verify_hashed salt pwd h : argon_hash salt pwd = Some h -> argon_verify h pwd = Some true;
}.

(** ** Rules *)

Inductive AclError : Type :=
| UserExists | AclUserNotFound | PermissionDenied | AuthFailed | InvalidAclRule (rule : bytes) | ChannelDenied
| HashingFailed | Internal (text : bytes).

(** [CmdCategory]: a mask of 32 bits. *)
Definition READ : Z := 1.
Definition WRITE : Z := 2.
Definition ADMIN : Z := 4.
Definition ALL : Z := Z.lor READ (Z.lor WRITE ADMIN).

(** [self.contains(other)] *)
Definition contains (self other : Z) : bool := Z.land self other =? other.

Inductive AclRule : Type :=
| On | Off | PasswordHash (h : bytes) | AllowCategory (c : Z) | DenyCategory (c : Z)
| AllowCommand (i : nat) | DenyCommand (i : nat) | AllowKeyPattern (p : bytes) | DenyKeyPattern (p : bytes)
| AllowChannelPattern (p : bytes) | DenyChannelPattern (p : bytes) | NoPass.

Definition COMMAND_INDEX : list (bytes * nat) :=
  [(ascii_bytes "get", 0%nat); (ascii_bytes "set", 1%nat); (ascii_bytes "del", 2%nat); (ascii_bytes "flushall", 3%nat)].

Definition lookup_cmd_idx (cmd : bytes) : option nat :=
  snd <$> find (fun p => bool_decide (fst p = to_ascii_lowercase cmd)) COMMAND_INDEX.

Definition parse_category (cat : bytes) : Z :=
  if bool_decide (cat = ascii_bytes "read") then READ
  else if bool_decide (cat = ascii_bytes "write") then WRITE
  else if bool_decide (cat = ascii_bytes "admin") then ADMIN
  else 0.

(** [s.split_at(1)]; [None] is the panic at the end of the string or inside a character. *)
Definition split_first (s : bytes) : option (Z * bytes) :=
  match s with b :: rest => if b <? 0x80 then Some (b, rest) else None | [] => None end.

Definition command_rule (make : nat -> AclRule) (rest : bytes) : result AclError AclRule :=
  match lookup_cmd_idx rest with Some i => Ok (make i) | None => Err (InvalidAclRule rest) end.

(** [from_str]: ['>'] is 62, ['+'] 43, ['@'] 64, ['-'] 45, ['~'] 126 and ['&'] 38. *)
Definition parse_rule (s : bytes) : option (result AclError AclRule) :=
  if bool_decide (s = ascii_bytes "on") then Some (Ok On)
  else if bool_decide (s = ascii_bytes "off") then Some (Ok Off)
  else if bool_decide (s = ascii_bytes "nopass") then Some (Ok NoPass)
  else '(head, rest) ← split_first s;
    Some (if head =? 62 then Ok (PasswordHash rest)
          else if head =? 43 then
            match rest with
            | 64 :: cat => Ok (AllowCategory (parse_category cat))
            | _ => command_rule AllowCommand rest
            end
          else if head =? 45 then
            match rest with
            | 64 :: cat => Ok (DenyCategory (parse_category cat))
            | 126 :: pat => Ok (DenyKeyPattern pat)
            | 38 :: pat => Ok (DenyChannelPattern pat)
            | _ => command_rule DenyCommand rest
            end
          else if head =? 126 then Ok (AllowKeyPattern rest)
          else if head =? 38 then Ok (AllowChannelPattern rest)
          else Err (InvalidAclRule s)).

Fixpoint parse_rules (rules : list bytes) : option (result AclError (list AclRule)) :=
  match rules with
  | [] => Some (Ok [])
  | s :: rules =>
      r ← parse_rule s;
      match r with
      | Err e => Some (Err e)
      | Ok rule => rs ← parse_rules rules; Some (let? rs := rs in Ok (rule :: rs))
      end
  end.

(** ** Users *)

Section Acl.
Context {globs : GlobLib}.

Record AclUser : Type := mkUser {
  username : bytes; enabled : bool; password_hashes : list bytes;
  allowed_categories : Z; allowed_commands : Z; denied_commands : Z;
  raw_key_patterns : list Glob; raw_deny_key_patterns : list Glob;
  raw_channel_patterns : list Glob; raw_deny_channel_patterns : list Glob;
  key_patterns : GlobSet; deny_key_patterns : GlobSet;
  channel_patterns : GlobSet; deny_channel_patterns : GlobSet;
}.
Implicit Types (u : AclUser).

Definition with_enabled (b : bool) u := mkUser (username u) b (password_hashes u) (allowed_categories u)
  (allowed_commands u) (denied_commands u) (raw_key_patterns u) (raw_deny_key_patterns u) (raw_channel_patterns u)
  (raw_deny_channel_patterns u) (key_patterns u) (deny_key_patterns u) (channel_patterns u) (deny_channel_patterns u).
Definition with_hashes (hs : list bytes) u := mkUser (username u) (enabled u) hs (allowed_categories u)
  (allowed_commands u) (denied_commands u) (raw_key_patterns u) (raw_deny_key_patterns u) (raw_channel_patterns u)
  (raw_deny_channel_patterns u) (key_patterns u) (deny_key_patterns u) (channel_patterns u) (deny_channel_patterns u).
Definition with_commands (cats allowed denied : Z) u := mkUser (username u) (enabled u) (password_hashes u) cats
  allowed denied (raw_key_patterns u) (raw_deny_key_patterns u) (raw_channel_patterns u)
  (raw_deny_channel_patterns u) (key_patterns u) (deny_key_patterns u) (channel_patterns u) (deny_channel_patterns u).
Definition with_raw (k dk c dc : list Glob) u := mkUser (username u) (enabled u) (password_hashes u)
  (allowed_categories u) (allowed_commands u) (denied_commands u) k dk c dc
  (key_patterns u) (deny_key_patterns u) (channel_patterns u) (deny_channel_patterns u).
Definition with_sets (k dk c dc : GlobSet) u := mkUser (username u) (enabled u) (password_hashes u)
  (allowed_categories u) (allowed_commands u) (denied_commands u) (raw_key_patterns u) (raw_deny_key_patterns u)
  (raw_channel_patterns u) (raw_deny_channel_patterns u) k dk c dc.

Definition globset_error : AclError := InvalidAclRule (ascii_bytes "globset build").

(** [rebuild_globset], [build] continuing with the set. *)
Definition rebuild (gs : list Glob) u (build : GlobSet -> result AclError unit * AclUser) : result AclError unit * AclUser :=
  match set_build gs with Some s => build s | None => (Err globset_error, u) end.

Definition set_keys (s : GlobSet) u := with_sets s (deny_key_patterns u) (channel_patterns u) (deny_channel_patterns u) u.
Definition set_deny_keys (s : GlobSet) u := with_sets (key_patterns u) s (channel_patterns u) (deny_channel_patterns u) u.
Definition set_channels (s : GlobSet) u := with_sets (key_patterns u) (deny_key_patterns u) s (deny_channel_patterns u) u.
Definition set_deny_channels (s : GlobSet) u := with_sets (key_patterns u) (deny_key_patterns u) (channel_patterns u) s u.

Definition rebuild_all_patterns u : result AclError unit * AclUser :=
  rebuild (raw_key_patterns u) u (fun s =>
    let u := set_keys s u in
    rebuild (raw_channel_patterns u) u (fun s => (Ok tt, set_channels s u))).

Definition rebuild_all_deny_patterns u : result AclError unit * AclUser :=
  rebuild (raw_deny_key_patterns u) u (fun s =>
    let u := set_deny_keys s u in
    rebuild (raw_deny_channel_patterns u) u (fun s => (Ok tt, set_deny_channels s u))).

(** Sequence of two steps on a user, the second only after a success ([?]). *)
Definition and_then (r : result AclError unit * AclUser) (f : AclUser -> result AclError unit * AclUser) : result AclError unit * AclUser :=
  match r with (Ok _, u) => f u | (Err e, u) => (Err e, u) end.

(** [AclUser::new]; [None] is the panic on the pattern of all keys. *)
Definition acl_user_new (name : bytes) : option (result AclError AclUser) :=
  any ← glob_new (ascii_bytes "*");
  let u := mkUser name true [] ALL 0 0 [any] [] [any] [] set_empty set_empty set_empty set_empty in
  Some (match and_then (rebuild_all_patterns u) rebuild_all_deny_patterns with
        | (Ok _, u) => Ok u
        | (Err e, _) => Err e
        end).

Definition with_glob (pat : bytes) u (f : Glob -> result AclError unit * AclUser) : result AclError unit * AclUser :=
  match glob_new pat with Some g => f g | None => (Err (InvalidAclRule pat), u) end.

Definition allow_key_pattern (pat : bytes) u : result AclError unit * AclUser :=
  with_glob pat u (fun g =>
    let u := with_raw (raw_key_patterns u ++ [g]) (raw_deny_key_patterns u) (raw_channel_patterns u) (raw_deny_channel_patterns u) u in
    rebuild (raw_key_patterns u) u (fun s => (Ok tt, set_keys s u))).

Definition deny_key_pattern (pat : bytes) u : result AclError unit * AclUser :=
  with_glob pat u (fun g =>
    let u := with_raw (raw_key_patterns u) (raw_deny_key_patterns u ++ [g]) (raw_channel_patterns u) (raw_deny_channel_patterns u) u in
    rebuild (raw_deny_key_patterns u) u (fun s => (Ok tt, set_deny_keys s u))).

Definition allow_channel_pattern (pat : bytes) u : result AclError unit * AclUser :=
  with_glob pat u (fun g =>
    let u := with_raw (raw_key_patterns u) (raw_deny_key_patterns u) (raw_channel_patterns u ++ [g]) (raw_deny_channel_patterns u) u in
    rebuild (raw_channel_patterns u) u (fun s => (Ok tt, set_channels s u))).

Definition deny_channel_pattern (pat : bytes) u : result AclError unit * AclUser :=
  with_glob pat u (fun g =>
    let u := with_raw (raw_key_patterns u) (raw_deny_key_patterns u) (raw_channel_patterns u) (raw_deny_channel_patterns u ++ [g]) u in
    rebuild (raw_deny_channel_patterns u) u (fun s => (Ok tt, set_deny_channels s u))).

Definition check_idx u (category : Z) (cmd_idx : option nat) : bool :=
  if negb (enabled u) then false
  else match cmd_idx with
       | Some idx =>
           let bit := Z.shiftl 1 (Z.of_nat idx) in
           if negb (Z.land (denied_commands u) bit =? 0) then false
           else if contains (allowed_categories u) category then true
           else negb (Z.land (allowed_commands u) bit =? 0)
       | None => contains (allowed_categories u) category
       end.

(** The allowed patterns of a user, no pattern being all of them. *)
Definition check_patterns u (allowed denied : GlobSet) (name : bytes) : bool :=
  if negb (enabled u) then false
  else if is_match denied name then false
  else if set_is_empty allowed then true
  else is_match allowed name.

Definition check_key u (key : bytes) : bool := check_patterns u (key_patterns u) (deny_key_patterns u) key.
Definition check_channel u (channel : bytes) : bool := check_patterns u (channel_patterns u) (deny_channel_patterns u) channel.

(** The errors of the two [rebuild]s are ignored. *)
Definition reset_rules u : AclUser :=
  let u := with_raw [] [] [] [] (with_commands 0 0 0 (with_hashes [] (with_enabled false u))) in
  snd (rebuild_all_deny_patterns (snd (rebuild_all_patterns u))).

(** ** The list of users *)

(** [Acl] *)
Abbreviation Acl := (gmap bytes AclUser).
Implicit Types (acl : Acl).

Definition apply_rule (rule : AclRule) u : result AclError unit * AclUser :=
  match rule with
  | On => (Ok tt, with_enabled true u)
  | Off => (Ok tt, with_enabled false u)
  | PasswordHash h => (Ok tt, with_hashes (password_hashes u ++ [h]) u)
  | AllowCategory c => (Ok tt, with_commands (Z.lor (allowed_categories u) c) (allowed_commands u) (denied_commands u) u)
  | DenyCategory c => (Ok tt, with_commands (Z.ldiff (allowed_categories u) c) (allowed_commands u) (denied_commands u) u)
  | AllowCommand i => (Ok tt, with_commands (allowed_categories u) (Z.lor (allowed_commands u) (Z.shiftl 1 (Z.of_nat i))) (denied_commands u) u)
  | DenyCommand i => (Ok tt, with_commands (allowed_categories u) (allowed_commands u) (Z.lor (denied_commands u) (Z.shiftl 1 (Z.of_nat i))) u)
  | AllowKeyPattern p => allow_key_pattern p u
  | DenyKeyPattern p => deny_key_pattern p u
  | AllowChannelPattern p => allow_channel_pattern p u
  | DenyChannelPattern p => deny_channel_pattern p u
  | NoPass => (Ok tt, u)
  end.

Fixpoint apply_rules (rules : list AclRule) u : result AclError unit * AclUser :=
  match rules with
  | [] => (Ok tt, u)
  | rule :: rules => and_then (apply_rule rule u) (apply_rules rules)
  end.

(** What [acl_setuser] does to the user, the rules being read. *)
Definition configure (rules : list AclRule) u : result AclError unit * AclUser :=
  and_then (apply_rules rules (reset_rules u)) (fun u => and_then (rebuild_all_patterns u) rebuild_all_deny_patterns).

(** An error leaves the user with the rules applied before it. *)
Definition acl_setuser (name : bytes) (rules : list bytes) acl : option (result AclError unit * Acl) :=
  parsed ← parse_rules rules;
  match parsed with
  | Err e => Some (Err e, acl)
  | Ok rules =>
      u ← match acl !! name with
          | Some u => Some u
          | None => new ← acl_user_new name; match new with Ok u => Some u | Err _ => None end
          end;
      let '(r, u) := configure rules u in Some (r, <[name := u]> acl)
  end.

Definition acl_getuser (name : bytes) acl : option AclUser := acl !! name.

Definition acl_deluser (name : bytes) acl : result AclError unit * Acl :=
  match acl !! name with Some _ => (Ok tt, delete name acl) | None => (Err AclUserNotFound, acl) end.

(** In some order. *)
Definition acl_users acl : list bytes := elements (dom acl).

(** ** Passwords *)

Context {argon : Argon}.

Definition peppered (password : bytes) (pepper : option bytes) : bytes := password ++ default [] pepper.

Definition hash_password (salt password : bytes) (pepper : option bytes) : result PasswordError bytes :=
  match argon_hash salt (peppered password pepper) with Some h => Ok h | None => Err Hash end.

Definition verify_password (hash password : bytes) (pepper : option bytes) : result PasswordError bool :=
  match argon_verify hash (peppered password pepper) with Some b => Ok b | None => Err Verify end.

(** ** Configuration *)

Record UserConfig : Type := mkUserConfig {
  cfg_username : bytes; cfg_enabled : bool; cfg_nopass : bool; cfg_password : option bytes;
  cfg_keys : list bytes; cfg_permissions : list bytes;
}.

Record ServerConfig : Type := mkServerConfig {
  requirepass : option bytes; auth_pepper : option bytes; cfg_users : list UserConfig;
}.

(** The text of a [ConfigError::Parse]. *)
Definition ConfigError : Type := bytes.

(** One directive of a user, ['~'] being 126, ['>'] 62, ['+'] 43 and ['-'] 45. *)
Definition directive (part : bytes) (c : UserConfig) : result ConfigError UserConfig :=
  if bool_decide (part = ascii_bytes "on") then
    Ok (mkUserConfig (cfg_username c) true (cfg_nopass c) (cfg_password c) (cfg_keys c) (cfg_permissions c))
  else if bool_decide (part = ascii_bytes "off") then
    Ok (mkUserConfig (cfg_username c) false (cfg_nopass c) (cfg_password c) (cfg_keys c) (cfg_permissions c))
  else if bool_decide (part = ascii_bytes "nopass") then
    Ok (mkUserConfig (cfg_username c) (cfg_enabled c) true (cfg_password c) (cfg_keys c) (cfg_permissions c))
  else match part with
  | 126 :: _ => Ok (mkUserConfig (cfg_username c) (cfg_enabled c) (cfg_nopass c) (cfg_password c) (cfg_keys c ++ [part]) (cfg_permissions c))
  | 62 :: pass => Ok (mkUserConfig (cfg_username c) (cfg_enabled c) (cfg_nopass c) (Some pass) (cfg_keys c) (cfg_permissions c))
  | 43 :: _ | 45 :: _ => Ok (mkUserConfig (cfg_username c) (cfg_enabled c) (cfg_nopass c) (cfg_password c) (cfg_keys c) (cfg_permissions c ++ [part]))
  | _ => Err (ascii_bytes "Unknown user directive: " ++ part)
  end.

Fixpoint directives (parts : list bytes) (c : UserConfig) : result ConfigError UserConfig :=
  match parts with
  | [] => Ok c
  | part :: parts => let? c := directive part c in directives parts c
  end.

Definition parse_user (line : bytes) : result ConfigError UserConfig :=
  match split_whitespace line with
  | name :: (_ :: _ :: _) as parts => directives (tail parts) (mkUserConfig name false false None [] [])
  | _ => Err (ascii_bytes "Invalid user format")
  end.

(** [str::lines]: without the ends of line, LF or CR LF. *)
Definition end_line (line : bytes) : bytes :=
  match rev line with 13 :: r => rev r | _ => line end.

Fixpoint lines_from (s line : bytes) : list bytes :=
  match s with
  | [] => match line with [] => [] | _ => [line] end
  | b :: s => if b =? 10 then end_line line :: lines_from s [] else lines_from s (line ++ [b])
  end.

Definition lines (s : bytes) : list bytes := lines_from s [].

Definition strip_prefix (prefix s : bytes) : option bytes :=
  if bool_decide (take (length prefix) s = prefix) then Some (drop (length prefix) s) else None.

Definition config_line (line : bytes) (c : ServerConfig) : result ConfigError ServerConfig :=
  match trim line with
  | [] | 35 :: _ => Ok c
  | text =>
      match strip_prefix (ascii_bytes "requirepass ") text with
      | Some pass => Ok (mkServerConfig (Some (trim pass)) (auth_pepper c) (cfg_users c))
      | None =>
          match strip_prefix (ascii_bytes "auth-pepper ") text with
          | Some pepper => Ok (mkServerConfig (requirepass c) (Some (trim pepper)) (cfg_users c))
          | None =>
              match strip_prefix (ascii_bytes "user ") text with
              | Some user => let? user := parse_user user in Ok (mkServerConfig (requirepass c) (auth_pepper c) (cfg_users c ++ [user]))
              | None => Ok c
              end
          end
      end
  end.

Fixpoint config_lines (ls : list bytes) (c : ServerConfig) : result ConfigError ServerConfig :=
  match ls with
  | [] => Ok c
  | line :: ls => let? c := config_line line c in config_lines ls c
  end.

Definition parse_config (content : bytes) : result ConfigError ServerConfig :=
  config_lines (lines content) (mkServerConfig None None []).

(** ** The manager *)

Inductive AuthError : Type :=
| AuthenticationFailed | UserNotFound | Password (e : PasswordError) | AclRefused (e : AclError)
| UserAlreadyExists | TooManyAttempts.

Definition MAX_FAILS : Z := 5.
(** In milliseconds. *)
Definition BLOCK_DURATION : Z := 60000.

Record AuthManager : Type := mkAuth {
  acl : Acl; pepper : option bytes; failures : gmap bytes (Z * Z);
}.
Implicit Types (m : AuthManager).

Definition auth_new : AuthManager := mkAuth ∅ None ∅.
Definition with_pepper (p : bytes) : AuthManager := mkAuth ∅ (Some p) ∅.
Definition with_acl (a : Acl) m : AuthManager := mkAuth a (pepper m) (failures m).
Definition with_failures (f : gmap bytes (Z * Z)) m : AuthManager := mkAuth (acl m) (pepper m) f.

Definition of_acl {A} (r : result AclError A) : result AuthError A := match r with Ok a => Ok a | Err e => Err (AclRefused e) end.

(** The rule of a hash. *)
Definition hash_rule (h : bytes) : bytes := 62 :: h.

Definition create_user (salt name password : bytes) (permissions : list bytes) m : option (result AuthError unit * AuthManager) :=
  match hash_password salt password (pepper m) with
  | Err e => Some (Err (Password e), m)
  | Ok hash =>
      if bool_decide (is_Some (acl_getuser name (acl m))) then Some (Err UserAlreadyExists, m)
      else '(r, a) ← acl_setuser name (hash_rule hash :: ascii_bytes "on" :: permissions) (acl m);
           Some (of_acl r, with_acl a m)
  end.

(** The critical section at the start of [authenticate]: whether the user is
    blocked, and the failures without those that are too old. *)
Definition start_attempt (now : Z) (name : bytes) m : bool * AuthManager :=
  match failures m !! name with
  | Some (count, ts) =>
      if (MAX_FAILS <=? count) && (now - ts <? BLOCK_DURATION) then (true, m)
      else if BLOCK_DURATION <=? now - ts then (false, with_failures (delete name (failures m)) m)
      else (false, m)
  | None => (false, m)
  end.

(** Whether the password is one of the user's; with no hash every one is. *)
Definition password_ok (hashes : list bytes) (password : bytes) (pep : option bytes) : bool :=
  match hashes with
  | [] => true
  | _ => existsb (fun h => match verify_password h password pep with Ok b => b | Err _ => false end) hashes
  end.

(** The critical section at its end. *)
Definition finish_attempt (now : Z) (name : bytes) (ok : bool) m : result AuthError unit * AuthManager :=
  if ok then (Ok tt, with_failures (delete name (failures m)) m)
  else
    let '(count, ts) := default (0, now) (failures m !! name) in
    (Err AuthenticationFailed, with_failures (<[name := (wrapu 8 (count + 1), ts)]> (failures m)) m).

(** What is between them. *)
Definition check_password (now : Z) (name password : bytes) m : result AuthError unit * AuthManager :=
  match acl_getuser name (acl m) with
  | None => (Err UserNotFound, m)
  | Some u => finish_attempt now name (password_ok (password_hashes u) password (pepper m)) m
  end.

Definition authenticate (now : Z) (name password : bytes) m : result AuthError unit * AuthManager :=
  match start_attempt now name m with
  | (true, m) => (Err TooManyAttempts, m)
  | (false, m) => check_password now name password m
  end.

Definition authorize_command (name category command : bytes) m : result AuthError unit :=
  match acl_getuser name (acl m) with
  | None => Err UserNotFound
  | Some u => if check_idx u (parse_category category) (lookup_cmd_idx command) then Ok tt else Err (AclRefused PermissionDenied)
  end.

Definition authorize_key (name key : bytes) m : result AuthError unit :=
  match acl_getuser name (acl m) with
  | None => Err UserNotFound
  | Some u => if check_key u key then Ok tt else Err (AclRefused PermissionDenied)
  end.

(** The rules of a user of the configuration. *)
Definition user_rules (salt : bytes) (pep : option bytes) (c : UserConfig) : result AuthError (list bytes) :=
  let? hash :=
    (if cfg_nopass c then Ok []
     else match cfg_password c with
          | Some pass => match hash_password salt pass pep with Ok h => Ok [hash_rule h] | Err e => Err (Password e) end
          | None => Ok []
          end) in
  Ok (hash ++ [ascii_bytes (if cfg_enabled c then "on" else "off")] ++ (if cfg_nopass c then [ascii_bytes "nopass"] else [])
      ++ cfg_keys c ++ cfg_permissions c).

(** The users one after the other, [salts] being drawn as they come. *)
Fixpoint config_users (salts : nat -> bytes) (pep : option bytes) (cs : list UserConfig) (a : Acl) : option (result AuthError Acl) :=
  match cs with
  | [] => Some (Ok a)
  | c :: cs =>
      match user_rules (salts 0%nat) pep c with
      | Err e => Some (Err e)
      | Ok rules =>
          '(r, a) ← acl_setuser (cfg_username c) rules a;
          match r with
          | Err e => Some (Err (AclRefused e))
          | Ok _ => config_users (fun i => salts (Datatypes.S i)) pep cs a
          end
      end
  end.

Definition default_rules (hash : bytes) : list bytes :=
  [hash_rule hash; ascii_bytes "on"; ascii_bytes "~*"; ascii_bytes "+@all"].

(** Both branches on the user [default] do the same. *)
Definition from_config (salt : bytes) (salts : nat -> bytes) (c : ServerConfig) : option (result AuthError AuthManager) :=
  let pep := auth_pepper c in
  a ← match requirepass c with
      | None => Some (Ok ∅)
      | Some pass =>
          match hash_password salt pass pep with
          | Err e => Some (Err (Password e))
          | Ok hash =>
              '(r, a) ← acl_setuser (ascii_bytes "default") (default_rules hash) ∅;
              Some (match r with Ok _ => Ok a | Err e => Err (AclRefused e) end)
          end
      end;
  match a with
  | Err e => Some (Err e)
  | Ok a => users ← config_users salts pep (cfg_users c) a; Some (let? a := users in Ok (mkAuth a pep ∅))
  end.
End Acl.
