(* ===== verification/AccessLaws.v ===== *)
(** * What access control promises

    A user may do what the rules of the last [acl_setuser] say
    ([acl_setuser_decides]); a created user logs in with the password
    ([created_user_logs_in]); wrong guesses between right ones are limited when they
    come one after the other ([wrong_guesses_bounded]) and not when they run in parallel
    ([parallel_guesses]); and the rule [+@all] of the default user grants nothing
    ([default_user_denied]). *)
From S2P Require Import Prelude Numbers Text Access.
Local Open Scope Z_scope.

(** ** Rules as what they say *)

(** The answer of the last rule that has one. *)
Definition last_word {A} (f : A -> option bool) (rs : list A) : bool := default false (last (omap f rs)).

Lemma last_word_snoc {A} (f : A -> option bool) rs r :
  last_word f (rs ++ [r]) = match f r with Some b => b | None => last_word f rs end.
Proof.
  unfold last_word. rewrite omap_app. simpl. destruct (f r); [by rewrite last_snoc|by rewrite app_nil_r].
Qed.

Definition enabled_word (r : AclRule) : option bool := match r with On => Some true | Off => Some false | _ => None end.
Definition category_word (i : Z) (r : AclRule) : option bool :=
  match r with
  | AllowCategory c => if Z.testbit c i then Some true else None
  | DenyCategory c => if Z.testbit c i then Some false else None
  | _ => None
  end.
Definition hash_word (r : AclRule) : option bytes := match r with PasswordHash h => Some h | _ => None end.
Definition allow_word (r : AclRule) : option nat := match r with AllowCommand i => Some i | _ => None end.
Definition deny_word (r : AclRule) : option nat := match r with DenyCommand i => Some i | _ => None end.
Definition key_word (r : AclRule) : option bytes := match r with AllowKeyPattern p => Some p | _ => None end.
Definition no_key_word (r : AclRule) : option bytes := match r with DenyKeyPattern p => Some p | _ => None end.
Definition channel_word (r : AclRule) : option bytes := match r with AllowChannelPattern p => Some p | _ => None end.
Definition no_channel_word (r : AclRule) : option bytes := match r with DenyChannelPattern p => Some p | _ => None end.

(** Every category of the mask was allowed last. *)
Definition granted (rs : list AclRule) (category : Z) : Prop :=
  forall i, 0 <= i -> Z.testbit category i = true -> last_word (category_word i) rs = true.

Definition may_run (rs : list AclRule) (category : Z) (cmd : option nat) : Prop :=
  last_word enabled_word rs = true /\
  match cmd with
  | Some i => i ∉ omap deny_word rs /\ (granted rs category \/ i ∈ omap allow_word rs)
  | None => granted rs category
  end.

Section Laws.
Context {globs : GlobLib}.

Definition covers (p name : bytes) : Prop := exists g, glob_new p = Some g /\ glob_match g name = true.

Definition may_access (allow deny : AclRule -> option bytes) (rs : list AclRule) (name : bytes) : Prop :=
  last_word enabled_word rs = true /\
  (forall p, p ∈ omap deny rs -> ~ covers p name) /\
  (omap allow rs = [] \/ exists p, p ∈ omap allow rs /\ covers p name).

(** ** A user that the rules have configured *)

Definition mask_of (commands : list nat) (mask : Z) : Prop := forall i, Z.testbit mask (Z.of_nat i) = bool_decide (i ∈ commands).

Record configured (rs : list AclRule) (u : AclUser) : Prop := {
  conf_enabled : enabled u = last_word enabled_word rs;
  conf_hashes : password_hashes u = omap hash_word rs;
  conf_categories i : 0 <= i -> Z.testbit (allowed_categories u) i = last_word (category_word i) rs;
  conf_allowed : mask_of (omap allow_word rs) (allowed_commands u);
  conf_denied : mask_of (omap deny_word rs) (denied_commands u);
  conf_keys : mapM glob_new (omap key_word rs) = Some (raw_key_patterns u);
  conf_no_keys : mapM glob_new (omap no_key_word rs) = Some (raw_deny_key_patterns u);
  conf_channels : mapM glob_new (omap channel_word rs) = Some (raw_channel_patterns u);
  conf_no_channels : mapM glob_new (omap no_channel_word rs) = Some (raw_deny_channel_patterns u);
}.

Lemma mask_nil : mask_of [] 0.
Proof. intros i. by rewrite Z.testbit_0_l. Qed.

Lemma mask_snoc l mask i : mask_of l mask -> mask_of (l ++ [i]) (Z.lor mask (Z.shiftl 1 (Z.of_nat i))).
Proof.
  intros Hm j. rewrite Z.lor_spec, Hm, Z.shiftl_spec by lia.
  destruct (decide (j = i)) as [->|Hne].
  - rewrite Z.sub_diag, orb_true_r. symmetry. apply bool_decide_eq_true. set_solver.
  - assert (Z.testbit 1 (Z.of_nat j - Z.of_nat i) = false) as ->.
    { destruct (Z.ltb_spec (Z.of_nat j) (Z.of_nat i)); [by apply Z.testbit_neg_r; lia|].
      apply Z.bits_above_log2; [lia|]. simpl. lia. }
    rewrite orb_false_r. apply bool_decide_ext. set_solver.
Qed.

Lemma mapM_snoc p l gs g : mapM glob_new l = Some gs -> glob_new p = Some g -> mapM glob_new (l ++ [p]) = Some (gs ++ [g]).
Proof.
  revert gs. induction l as [|q l IH]; simpl; intros gs Hl Hp.
  - injection Hl as <-. by rewrite Hp.
  - destruct (glob_new q); simpl in *; [|done]. destruct (mapM glob_new l); simpl in *; [|done].
    injection Hl as <-. by rewrite (IH _ eq_refl Hp).
Qed.

Lemma rebuild_ok gs u build u' : rebuild gs u build = (Ok tt, u') -> exists s, set_build gs = Some s /\ build s = (Ok tt, u').
Proof. unfold rebuild. destruct (set_build gs) as [s|]; [|done]. eauto. Qed.

Lemma and_then_ok r f u' : and_then r f = (Ok tt, u') -> exists u, r = (Ok tt, u) /\ f u = (Ok tt, u').
Proof. destruct r as [[[]|e] u]; simpl; [eauto|done]. Qed.

Lemma with_glob_ok p u f u' : with_glob p u f = (Ok tt, u') -> exists g, glob_new p = Some g /\ f g = (Ok tt, u').
Proof. unfold with_glob. destruct (glob_new p); [eauto|done]. Qed.

(** The rules that only change fields. *)
Ltac conf_field := split; simpl; rewrite ?omap_app, ?last_word_snoc; simpl; rewrite ?app_nil_r; auto using mask_snoc, mapM_snoc.

Lemma apply_rule_configured rs r u u' : configured rs u -> apply_rule r u = (Ok tt, u') -> configured (rs ++ [r]) u'.
Proof.
  intros [] He. destruct r; simpl in He;
    try (apply with_glob_ok in He as (g & Hg & (s & _ & He)%rebuild_ok));
    injection He as <-; conf_field.
  all: try (by rewrite conf_hashes0).
  all: intros j Hj; rewrite last_word_snoc, ?Z.lor_spec, ?Z.ldiff_spec, conf_categories0 by done; simpl; try done;
    destruct (Z.testbit c j); auto using orb_true_r, orb_false_r, andb_false_r, andb_true_r.
Qed.

Lemma apply_rules_configured rs0 rs u u' : configured rs0 u -> apply_rules rs u = (Ok tt, u') -> configured (rs0 ++ rs) u'.
Proof.
  revert rs0 u. induction rs as [|r rs IH]; intros rs0 u Hu; simpl.
  - intros [= <-]. by rewrite app_nil_r.
  - intros (u1 & H1 & H2)%and_then_ok. replace (rs0 ++ r :: rs) with ((rs0 ++ [r]) ++ rs) by by rewrite <- app_assoc.
    eapply IH; [|done]. by eapply apply_rule_configured.
Qed.

Lemma set_fields_configured rs u k dk c dc : configured rs u -> configured rs (with_sets k dk c dc u).
Proof. by intros []; split. Qed.

Lemma rebuild_keeps gs u build rs :
  configured rs u -> (forall s, configured rs (build s).2) -> configured rs (rebuild gs u build).2.
Proof. unfold rebuild. destruct (set_build gs); simpl; auto. Qed.

Lemma reset_configured u : configured [] (reset_rules u).
Proof.
  unfold reset_rules, rebuild_all_deny_patterns, rebuild_all_patterns.
  assert (configured [] (with_raw [] [] [] [] (with_commands 0 0 0 (with_hashes [] (with_enabled false u))))) as H.
  { split; simpl; auto using mask_nil. intros i _. by rewrite Z.testbit_0_l. }
  repeat (apply rebuild_keeps; [|intros ?]); repeat (apply set_fields_configured || apply rebuild_keeps || intros ?); done.
Qed.

(** The compiled sets are those of the patterns. *)
Record compiled (u : AclUser) : Prop := {
  comp_keys : set_build (raw_key_patterns u) = Some (key_patterns u);
  comp_no_keys : set_build (raw_deny_key_patterns u) = Some (deny_key_patterns u);
  comp_channels : set_build (raw_channel_patterns u) = Some (channel_patterns u);
  comp_no_channels : set_build (raw_deny_channel_patterns u) = Some (deny_channel_patterns u);
}.

Lemma configure_ok rs u u' : configure rs u = (Ok tt, u') -> configured rs u' /\ compiled u'.
Proof.
  unfold configure. intros (u1 & H1 & (u2 & H2 & H3)%and_then_ok)%and_then_ok.
  apply (apply_rules_configured [] rs _ u1 (reset_configured u)) in H1. simpl in H1.
  apply rebuild_ok in H2 as (s1 & E1 & (s2 & E2 & H2)%rebuild_ok). injection H2 as <-.
  apply rebuild_ok in H3 as (s3 & E3 & (s4 & E4 & H3)%rebuild_ok). injection H3 as <-.
  split; [|by split]. by repeat apply set_fields_configured.
Qed.

(** ** What such a user may do *)

Lemma bit_clear mask l i : mask_of l mask -> negb (Z.land mask (Z.shiftl 1 (Z.of_nat i)) =? 0) = bool_decide (i ∈ l).
Proof.
  intros Hm. rewrite <- Hm, Z.shiftl_1_l.
  destruct (Z.testbit mask (Z.of_nat i)) eqn:Hb.
  - apply negb_true_iff, Z.eqb_neq. intros H0. apply (f_equal (fun z => Z.testbit z (Z.of_nat i))) in H0.
    by rewrite Z.land_spec, Hb, Z.pow2_bits_true, Z.testbit_0_l in H0 by lia.
  - apply negb_false_iff, Z.eqb_eq. apply Z.bits_inj'. intros j Hj. rewrite Z.land_spec, Z.testbit_0_l.
    destruct (decide (j = Z.of_nat i)) as [->|Hne]; [by rewrite Hb|].
    by rewrite Z.pow2_bits_false, andb_false_r by lia.
Qed.

Lemma contains_granted rs u category : configured rs u -> contains (allowed_categories u) category = true <-> granted rs category.
Proof.
  intros Hu. unfold contains, granted. rewrite Z.eqb_eq. split.
  - intros He i Hi Hb. rewrite <- (conf_categories _ _ Hu i Hi).
    apply (f_equal (fun z => Z.testbit z i)) in He. rewrite Z.land_spec, Hb in He. by apply andb_true_iff in He as [? _].
  - intros Hg. apply Z.bits_inj'. intros i Hi. rewrite Z.land_spec.
    destruct (Z.testbit category i) eqn:Hb; [|apply andb_false_r].
    by rewrite (conf_categories _ _ Hu i Hi), Hg.
Qed.

Lemma check_idx_configured rs u category cmd : configured rs u -> check_idx u category cmd = true <-> may_run rs category cmd.
Proof.
  intros Hu. unfold check_idx, may_run. rewrite <- (conf_enabled _ _ Hu).
  destruct (enabled u); simpl; [|naive_solver].
  destruct cmd as [i|]; [|pose proof (contains_granted rs u category Hu); tauto].
  rewrite (bit_clear _ _ i (conf_denied _ _ Hu)), (bit_clear _ _ i (conf_allowed _ _ Hu)).
  pose proof (contains_granted rs u category Hu) as Hc.
  repeat case_bool_decide; destruct (contains (allowed_categories u) category); naive_solver.
Qed.

Context {laws : GlobLaws}.

Lemma mapM_glob l gs name :
  mapM glob_new l = Some gs -> existsb (fun g => glob_match g name) gs = true <-> exists p, p ∈ l /\ covers p name.
Proof.
  intros Hm%mapM_Some. induction Hm as [|p g l gs Hg _ IH]; simpl; [set_solver|].
  rewrite orb_true_iff, IH. unfold covers. setoid_rewrite elem_of_cons. naive_solver.
Qed.

Lemma check_patterns_configured rs u allow deny raw_allow raw_deny sa sd name :
  configured rs u -> mapM glob_new (omap allow rs) = Some raw_allow -> mapM glob_new (omap deny rs) = Some raw_deny ->
  set_build raw_allow = Some sa -> set_build raw_deny = Some sd ->
  check_patterns u sa sd name = true <-> may_access allow deny rs name.
Proof.
  intros Hu Ha Hd Hsa Hsd. unfold check_patterns, may_access. rewrite <- (conf_enabled _ _ Hu).
  destruct (enabled u); simpl; [|naive_solver].
  rewrite (build_match _ _ _ Hsa), (build_match _ _ _ Hsd), (build_is_empty _ _ Hsa).
  pose proof (mapM_glob _ _ name Ha) as Ma. pose proof (mapM_glob _ _ name Hd) as Md.
  assert (omap allow rs = [] <-> length raw_allow = 0%nat) as Hnil.
  { rewrite <- (length_zero_iff_nil (omap allow rs)). by rewrite (length_mapM _ _ _ Ha). }
  destruct (existsb _ raw_deny).
  - split; [done|]. intros (_ & Hn & _). destruct (proj1 Md eq_refl) as (p & Hp & Hc). by destruct (Hn p Hp).
  - assert (forall p, p ∈ omap deny rs -> ~ covers p name) by (intros p Hp Hc; by discriminate (proj2 Md (ex_intro _ p (conj Hp Hc)))).
    case_bool_decide; naive_solver.
Qed.

(** ** Changing a user *)

Lemma acl_setuser_ok name rules a a' :
  acl_setuser name rules a = Some (Ok tt, a') ->
  exists rs u, parse_rules rules = Some (Ok rs) /\ a' = <[name := u]> a /\ configured rs u /\ compiled u.
Proof.
  unfold acl_setuser. intros (p & Hp & He)%bind_Some. destruct p as [rs|e]; [|done].
  apply bind_Some in He as (u0 & _ & He). destruct (configure rs u0) as [r u] eqn:Hc. injection He as -> <-.
  exists rs, u. split_and!; [done|done|apply (configure_ok _ _ _ Hc)..].
Qed.

(** C12. After [acl_setuser] has succeeded the user may do what the rules say and
    nothing else, whatever the user was before: the last [on] or [off] enables, a
    command is allowed if it is never denied and its category was allowed last or
    it is allowed itself, a name is allowed if no denied pattern and some allowed
    one covers it, or there is none. *)
Theorem acl_setuser_decides name rules a a' :
  acl_setuser name rules a = Some (Ok tt, a') ->
  exists rs u, parse_rules rules = Some (Ok rs) /\ a' = <[name := u]> a /\
    password_hashes u = omap hash_word rs /\
    (forall category cmd, check_idx u category cmd = true <-> may_run rs category cmd) /\
    (forall key, check_key u key = true <-> may_access key_word no_key_word rs key) /\
    (forall channel, check_channel u channel = true <-> may_access channel_word no_channel_word rs channel).
Proof.
  intros (rs & u & Hp & Ha & Hc & Hs)%acl_setuser_ok. exists rs, u. split_and!; [done..|apply Hc| | |].
  - intros category cmd. by apply check_idx_configured.
  - intros key. apply (check_patterns_configured rs u _ _ _ _ _ _ key Hc (conf_keys _ _ Hc) (conf_no_keys _ _ Hc)); apply Hs.
  - intros key. apply (check_patterns_configured rs u _ _ _ _ _ _ key Hc (conf_channels _ _ Hc) (conf_no_channels _ _ Hc)); apply Hs.
Qed.

(** ** Logging in *)

Context {argon : Argon} {argon_laws : ArgonLaws}.
Implicit Types (m : AuthManager).

Lemma parse_hash_rule h : parse_rule (hash_rule h) = Some (Ok (PasswordHash h)).
Proof. unfold parse_rule, hash_rule. by rewrite !bool_decide_eq_false_2. Qed.

(** Only a rule that starts with a ['>'] is a hash. *)
Lemma parse_no_hash s r : parse_rule s = Some (Ok r) -> head s <> Some 62 -> hash_word r = None.
Proof.
  unfold parse_rule. repeat (case_bool_decide; [intros [= <-]; done|]).
  intros ([c rest] & Hs & He)%bind_Some Hh. destruct s as [|b s]; [done|]. simpl in Hs, Hh.
  destruct (b <? 0x80); [|done]. injection Hs as <- <-. injection He as He.
  destruct (Z.eqb_spec b 62); [congruence|].
  repeat match type of He with
  | context [if ?b then _ else _] => destruct b
  | context [command_rule _ ?l] => unfold command_rule in He; destruct (lookup_cmd_idx l)
  | context [match ?x with _ => _ end] => destruct x
  end; simplify_eq; done.
Qed.

Lemma parse_no_hashes rules rs :
  parse_rules rules = Some (Ok rs) -> Forall (fun r => head r <> Some 62) rules -> omap hash_word rs = [].
Proof.
  revert rs. induction rules as [|s rules IH]; simpl; intros rs He Hf.
  - by injection He as <-.
  - apply bind_Some in He as ([r|e] & Hr & He); [|done]. apply bind_Some in He as ([rs'|e] & Hrs & He); [|done].
    simpl in He. injection He as <-. apply Forall_cons in Hf as [Hs Hf]. simpl.
    rewrite (parse_no_hash _ _ Hr Hs). exact (IH _ Hrs Hf).
Qed.

Lemma verify_own salt password pep h : hash_password salt password pep = Ok h -> verify_password h password pep = Ok true.
Proof.
  unfold hash_password, verify_password. destruct (argon_hash _ _) eqn:He; [|done]. intros [= ->].
  by rewrite (verify_hashed _ _ _ He).
Qed.

Lemma create_user_ok salt name password permissions m m1 :
  create_user salt name password permissions m = Some (Ok tt, m1) ->
  acl m !! name = None /\ exists h rs u, hash_password salt password (pepper m) = Ok h /\
    parse_rules (hash_rule h :: ascii_bytes "on" :: permissions) = Some (Ok rs) /\
    m1 = with_acl (<[name := u]> (acl m)) m /\ configured rs u.
Proof.
  unfold create_user. destruct (hash_password _ _ _) as [h|] eqn:Hh; [|done].
  unfold acl_getuser. destruct (acl m !! name) as [u0|] eqn:Hu; simpl; [done|].
  intros ([r a] & Ha & He)%bind_Some. injection He as Hr <-. destruct r as [[]|e]; [|done].
  apply acl_setuser_ok in Ha as (rs & u & Hp & -> & Hc & _). split; [done|]. by exists h, rs, u.
Qed.

Lemma start_keeps now n m b m1 : start_attempt now n m = (b, m1) -> acl m1 = acl m /\ pepper m1 = pepper m.
Proof.
  unfold start_attempt. destruct (failures m !! n) as [[c ts]|]; [|by intros [= <- <-]].
  repeat case_match; by intros [= <- <-].
Qed.

(** A created user logs in with the password, and with no other that the hash
    does not verify. *)
Theorem created_user_logs_in salt name password permissions m m1 :
  create_user salt name password permissions m = Some (Ok tt, m1) ->
  Forall (fun r => head r <> Some 62) permissions ->
  exists h, hash_password salt password (pepper m) = Ok h /\ verify_password h password (pepper m) = Ok true /\
    forall now guess, (start_attempt now name m1).1 = false ->
      (authenticate now name guess m1).1 =
        match verify_password h guess (pepper m) with Ok true => Ok tt | _ => Err AuthenticationFailed end.
Proof.
  intros Hcr Hf. destruct (create_user_ok _ _ _ _ _ _ Hcr) as (Hnew & h & rs & u & Hh & Hp & -> & Hc).
  exists h. split_and!; [done|by eapply verify_own|]. intros now guess Hs. unfold authenticate.
  assert (password_hashes u = [h]) as Hone.
  { rewrite (conf_hashes _ _ Hc). cbn [parse_rules] in Hp. rewrite parse_hash_rule in Hp. cbn [mbind option_bind] in Hp.
    change (parse_rule (ascii_bytes "on")) with (Some (@Ok AclError _ On)) in Hp. cbn [mbind option_bind] in Hp.
    destruct (parse_rules permissions) as [[rs'|e]|] eqn:Hperm; simpl in Hp; try done.
    injection Hp as <-. exact (f_equal (cons h) (parse_no_hashes _ _ Hperm Hf)). }
  destruct (start_attempt now name _) as [b m2] eqn:He. simpl in Hs. subst b.
  apply start_keeps in He as [Ha2 Hp2]. simpl in Ha2, Hp2.
  unfold check_password, acl_getuser. rewrite Ha2, lookup_insert_eq, Hone, Hp2. unfold finish_attempt, password_ok. simpl.
  rewrite orb_false_r. destruct (verify_password h guess (pepper m)) as [[]|] eqn:Hv; simpl;
    [done|..]; by destruct (default _ _).
Qed.

(** ** Guessing *)

Definition Attempt : Type := Z * bytes * bytes.

Definition is_wrong (r : result AuthError unit) : bool := match r with Err AuthenticationFailed => true | _ => false end.

(** How many attempts of a run on the user are compared with the password and fail. *)
Fixpoint wrong_guesses (name : bytes) (l : list Attempt) m : Z :=
  match l with
  | [] => 0
  | (now, n, p) :: l =>
      let '(r, m) := authenticate now n p m in
      (if bool_decide (n = name) && is_wrong r then 1 else 0) + wrong_guesses name l m
  end.

(** And how many of them are right. *)
Fixpoint right_guesses (name : bytes) (l : list Attempt) m : Z :=
  match l with
  | [] => 0
  | (now, n, p) :: l =>
      let '(r, m) := authenticate now n p m in
      (if bool_decide (n = name) && is_ok r then 1 else 0) + right_guesses name l m
  end.

(** The times do not decrease and lie between two bounds. *)
Fixpoint in_time (t : Z) (l : list Attempt) (t1 : Z) : Prop :=
  match l with [] => t <= t1 | (now, _, _) :: l => t <= now /\ in_time now l t1 end.

Lemma in_time_bound t l t1 : in_time t l t1 -> t <= t1.
Proof. revert t. induction l as [|[[now n] p] l IH]; simpl; [done|]. intros t [? ?%IH]. lia. Qed.

(** How many wrong guesses are left until a time, if no right one comes. *)
Definition guesses_left (t t1 : Z) (f : option (Z * Z)) : Z :=
  match f with
  | Some (count, ts) =>
      if t - ts <? BLOCK_DURATION then Z.max 0 (MAX_FAILS - count) + MAX_FAILS * ((t1 - ts) / BLOCK_DURATION)
      else MAX_FAILS * ((t1 - t) / BLOCK_DURATION + 1)
  | None => MAX_FAILS * ((t1 - t) / BLOCK_DURATION + 1)
  end.

(** The counter of a user at a time, whatever came before. *)
Definition sound_count (t : Z) (f : option (Z * Z)) : Prop :=
  match f with None => True | Some (count, ts) => 0 <= count /\ ts <= t end.

Lemma guesses_left_mono t now t1 f : t <= now -> now <= t1 -> guesses_left now t1 f <= guesses_left t t1 f.
Proof.
  intros Ht H1. unfold guesses_left, MAX_FAILS, BLOCK_DURATION.
  pose proof (Z.div_le_mono (t1 - now) (t1 - t) 60000 ltac:(lia) ltac:(lia)) as Hd.
  destruct f as [[c ts]|]; [|lia]. destruct (Z.ltb_spec (now - ts) 60000), (Z.ltb_spec (t - ts) 60000); try lia.
  pose proof (Z.div_le_mono (t1 - now + 1 * 60000) (t1 - ts) 60000 ltac:(lia) ltac:(lia)) as Hd1.
  rewrite Z.div_add in Hd1 by lia. lia.
Qed.

Lemma finish_other now n ok name m : n <> name -> failures (finish_attempt now n ok m).2 !! name = failures m !! name.
Proof.
  intros Hne. unfold finish_attempt. destruct ok; simpl; [by rewrite lookup_delete_ne|].
  destruct (default _ _). simpl. by rewrite lookup_insert_ne.
Qed.

Lemma start_other now n m b m1 name : start_attempt now n m = (b, m1) -> n <> name -> failures m1 !! name = failures m !! name.
Proof.
  unfold start_attempt. intros He Hne. destruct (failures m !! n) as [[c ts]|]; [|by injection He as <- <-].
  repeat case_match; injection He as <- <-; [done| |done]. simpl. by rewrite lookup_delete_ne.
Qed.

Lemma finish_keeps now n ok m : acl (finish_attempt now n ok m).2 = acl m /\ pepper (finish_attempt now n ok m).2 = pepper m.
Proof. unfold finish_attempt. destruct ok; [done|]. by destruct (default _ _). Qed.

Lemma authenticate_keeps now n p m : acl (authenticate now n p m).2 = acl m /\ pepper (authenticate now n p m).2 = pepper m.
Proof.
  unfold authenticate. destruct (start_attempt now n m) as [[] m1] eqn:He; apply start_keeps in He as [<- <-]; [done|].
  unfold check_password. destruct (acl_getuser n (acl m1)); [apply finish_keeps|done].
Qed.

Lemma authenticate_other now n p m name : n <> name -> failures (authenticate now n p m).2 !! name = failures m !! name.
Proof.
  intros Hne. unfold authenticate. destruct (start_attempt now n m) as [b m1] eqn:He.
  rewrite <- (start_other _ _ _ _ _ _ He Hne). destruct b; [done|].
  unfold check_password. destruct (acl_getuser n (acl m1)); [by apply finish_other|done].
Qed.

(** A wrong guess costs one of those that are left; a right one gives five more at
    the most. *)
Lemma attempt_costs name m now p t1 :
  sound_count now (failures m !! name) -> now <= t1 ->
  let '(r, m1) := authenticate now name p m in
  sound_count now (failures m1 !! name) /\
  (if is_wrong r then 1 else 0) + guesses_left now t1 (failures m1 !! name)
    <= guesses_left now t1 (failures m !! name) + MAX_FAILS * (if is_ok r then 1 else 0).
Proof.
  intros Hs H1. unfold authenticate. destruct (start_attempt now name m) as [b m1] eqn:He.
  unfold check_password, finish_attempt, acl_getuser. unfold start_attempt in He.
  unfold sound_count, guesses_left, MAX_FAILS, BLOCK_DURATION in *.
  destruct (failures m !! name) as [[c ts]|] eqn:Hf.
  - destruct Hs as [Hc Hts]. pose proof (Z.div_le_mono (t1 - now) (t1 - ts) 60000 ltac:(lia) ltac:(lia)) as Hd.
    destruct ((5 <=? c) && (now - ts <? 60000)) eqn:Hb.
    + injection He as <- <-. simpl. rewrite Hf. lia.
    + destruct (60000 <=? now - ts) eqn:Hold; injection He as <- <-; simpl.
      * bool_to_prop. rewrite (proj2 (Z.ltb_ge _ _)) by lia. destruct (acl m !! name) as [u|]; [|simpl; rewrite lookup_delete_eq; lia].
        destruct (password_ok _ _ _); simpl; rewrite ?lookup_delete_eq; simpl; [lia|].
        rewrite lookup_insert_eq. change (wrapu 8 (0 + 1)) with 1. rewrite Z.sub_diag. simpl. lia.
      * bool_to_prop. rewrite (proj2 (Z.ltb_lt _ _)) by lia. destruct (acl m !! name) as [u|]; [|simpl; rewrite Hf, (proj2 (Z.ltb_lt _ _)) by lia; lia].
        destruct (password_ok _ _ _); simpl; [rewrite lookup_delete_eq; lia|]. rewrite Hf. simpl. rewrite lookup_insert_eq.
        destruct Hb; bool_to_prop; [|lia]. rewrite wrapu_small by (unfold is_u; lia). rewrite (proj2 (Z.ltb_lt _ _)) by lia. lia.
  - injection He as <- <-. destruct (acl m !! name) as [u|]; [|simpl; rewrite Hf; lia].
    destruct (password_ok _ _ _); simpl; [rewrite lookup_delete_eq; lia|]. rewrite Hf. simpl. rewrite lookup_insert_eq.
    change (wrapu 8 (0 + 1)) with 1. rewrite Z.sub_diag. simpl. lia.
Qed.

Lemma guesses_bound name l t t1 m : in_time t l t1 -> sound_count t (failures m !! name) ->
  wrong_guesses name l m <= guesses_left t t1 (failures m !! name) + MAX_FAILS * right_guesses name l m.
Proof.
  revert t m. induction l as [|[[now n] p] l IH]; intros t m Ht Hs; cbn [wrong_guesses right_guesses].
  - simpl in Ht. unfold guesses_left, MAX_FAILS, BLOCK_DURATION. pose proof (Z.div_pos (t1 - t) 60000) as Hp.
    destruct (failures m !! name) as [[c ts]|]; [|lia]. destruct Hs as [_ Hts]. pose proof (Z.div_pos (t1 - ts) 60000).
    destruct (t - ts <? 60000); lia.
  - destruct Ht as [Ht Hl]. pose proof (in_time_bound _ _ _ Hl) as H1.
    pose proof (guesses_left_mono t now t1 (failures m !! name) Ht H1) as Hmono.
    assert (sound_count now (failures m !! name)) as Hs' by (unfold sound_count in *; destruct (failures m !! name) as [[c ts]|]; [lia|done]).
    pose proof (authenticate_other now n p m name) as Hoth. pose proof (attempt_costs name m now p t1 Hs' H1) as Hcost.
    destruct (decide (n = name)) as [->|Hne].
    + rewrite bool_decide_eq_true_2 by done. destruct (authenticate now name p m) as [r m1]. destruct Hcost as [Hs1 Hc].
      specialize (IH now m1 Hl Hs1). cbn [andb]. unfold MAX_FAILS in *. lia.
    + rewrite bool_decide_eq_false_2 by done. specialize (Hoth Hne). destruct (authenticate now n p m) as [r m1]. simpl in Hoth.
      rewrite <- Hoth in Hs'. specialize (IH now m1 Hl Hs'). rewrite Hoth in IH. cbn [andb]. unfold MAX_FAILS in *. lia.
Qed.

(** C13. Attempts one after the other, right and wrong ones and those of other users
    mixed in any way: between two times at most five wrong passwords of a user are
    compared for every minute that begins, and five more for every right one that
    comes between them, which forgets the failures, and at most five more for
    failures counted before, if there are any.  Once five are counted every
    password is refused for the rest of the minute since the first. *)
Theorem wrong_guesses_bounded name l t t1 m :
  in_time t l t1 -> sound_count t (failures m !! name) ->
  wrong_guesses name l m <= 5 * ((t1 - t) / 60000 + 1 + right_guesses name l m + (if failures m !! name then 1 else 0)) /\
  forall ts now p f, t <= ts -> ts <= now < ts + 60000 ->
    authenticate now name p (with_failures (<[name := (5, ts)]> f) m) = (Err TooManyAttempts, with_failures (<[name := (5, ts)]> f) m).
Proof.
  intros Ht Hs. split.
  - pose proof (guesses_bound name l t t1 m Ht Hs) as H. unfold guesses_left, MAX_FAILS, BLOCK_DURATION in H.
    destruct (failures m !! name) as [[c ts]|]; [|lia]. destruct Hs as [Hc Hts].
    destruct (Z.ltb_spec (t - ts) 60000); [|lia].
    pose proof (Z.div_le_mono (t1 - ts) (t1 - t + 1 * 60000) 60000 ltac:(lia) ltac:(lia)) as Hd. rewrite Z.div_add in Hd by lia. lia.
  - intros ts now p f _ Hn. unfold authenticate, start_attempt. simpl. rewrite lookup_insert_eq.
    rewrite (proj2 (Z.ltb_lt _ _)) by (unfold BLOCK_DURATION; lia). done.
Qed.

(** Requests that are handled at the same time: each checks the counter before any
    of them has counted. *)
Fixpoint check_all (now : Z) (name : bytes) (guesses : list bytes) m : list (result AuthError unit) * AuthManager :=
  match guesses with
  | [] => ([], m)
  | p :: guesses => let '(r, m) := check_password now name p m in let '(rs, m) := check_all now name guesses m in (r :: rs, m)
  end.

(** Any number of attempts that start together are all compared with the
    password. *)
Theorem parallel_guesses name u now guesses m :
  acl m !! name = Some u -> failures m !! name = None ->
  Forall (fun p => password_ok (password_hashes u) p (pepper m) = false) guesses ->
  start_attempt now name m = (false, m) /\
  (check_all now name guesses m).1 = replicate (length guesses) (Err AuthenticationFailed).
Proof.
  intros Hu Hf Hw. split; [unfold start_attempt; by rewrite Hf|]. clear Hf.
  revert m Hu Hw. induction guesses as [|p guesses IH]; intros m Hu Hw; [done|]. apply Forall_cons in Hw as [Hp Hw].
  cbn [check_all]. unfold check_password, acl_getuser. rewrite Hu, Hp.
  pose proof (finish_keeps now name false m) as [Ha Hpep]. unfold finish_attempt in *.
  destruct (default _ _) as [c ts]. simpl in Ha, Hpep.
  specialize (IH (with_failures (<[name := (wrapu 8 (c + 1), ts)]> (failures m)) m) Hu Hw).
  destruct (check_all _ _ _ _). simpl in *. by rewrite IH.
Qed.

(** ** The configuration *)

Lemma acl_setuser_other name n rules a a' r : acl_setuser n rules a = Some (r, a') -> n <> name -> a' !! name = a !! name.
Proof.
  unfold acl_setuser. intros ([rs|e] & _ & He)%bind_Some Hne; [|by injection He as _ <-].
  apply bind_Some in He as (u0 & _ & He). destruct (configure rs u0). injection He as _ <-. by rewrite lookup_insert_ne.
Qed.

Lemma config_users_other name salts pep cs a a' :
  config_users salts pep cs a = Some (Ok a') -> Forall (fun c => cfg_username c <> name) cs -> a' !! name = a !! name.
Proof.
  revert salts a. induction cs as [|c cs IH]; intros salts a; simpl; [by intros [= <-]|].
  destruct (user_rules _ _ _) as [rules|e]; [|done]. intros ([r a1] & Hs & He)%bind_Some [Hc Hcs]%Forall_cons.
  destruct r as [[]|e]; [|done]. rewrite (IH _ _ He Hcs). by apply (acl_setuser_other _ _ _ _ _ _ Hs).
Qed.

Lemma parse_default_rules h :
  parse_rules (default_rules h) = Some (Ok [PasswordHash h; On; AllowKeyPattern (ascii_bytes "*"); AllowCategory 0]).
Proof. unfold default_rules. cbn [parse_rules]. rewrite parse_hash_rule. by vm_compute. Qed.

(** With [requirepass] the default user logs in with that password and has
    all keys, but the rule [+@all] that was meant to allow every command allows
    none: every command of a known category is refused. *)
Theorem default_user_denied salt salts c pass m :
  from_config salt salts c = Some (Ok m) -> requirepass c = Some pass ->
  Forall (fun u => cfg_username u <> ascii_bytes "default") (cfg_users c) ->
  (forall now, (authenticate now (ascii_bytes "default") pass m).1 = Ok tt) /\
  forall category command, category ∈ [ascii_bytes "read"; ascii_bytes "write"; ascii_bytes "admin"] ->
    authorize_command (ascii_bytes "default") category command m = Err (AclRefused PermissionDenied).
Proof.
  unfold from_config. intros He Hpass Hothers. rewrite Hpass in He.
  destruct (hash_password salt pass (auth_pepper c)) as [h|e] eqn:Hh; [|done].
  apply bind_Some in He as (ra & Ha & He). apply bind_Some in Ha as ([r a] & Ha & Hr). injection Hr as <-.
  destruct r as [[]|e]; [|done]. apply bind_Some in He as ([a'|e] & Hus & He); [|done]. injection He as <-.
  apply acl_setuser_ok in Ha as (rs & u & Hp & -> & Hc & _). rewrite parse_default_rules in Hp. injection Hp as <-.
  apply (config_users_other (ascii_bytes "default")) in Hus; [|done]. rewrite lookup_insert_eq in Hus. split.
  - intros now. unfold authenticate, start_attempt, check_password, acl_getuser. cbn [failures acl pepper]. rewrite lookup_empty. cbn [acl pepper]. rewrite Hus.
    rewrite (conf_hashes _ _ Hc). simpl. by rewrite (verify_own _ _ _ _ Hh).
  - intros category command Hcat. unfold authorize_command, acl_getuser. cbn [acl]. rewrite Hus.
    destruct (check_idx u _ _) eqn:Hi; [|done]. exfalso.
    apply (check_idx_configured _ _ _ _ Hc) in Hi as [_ Hi].
    assert (~ granted [PasswordHash h; On; AllowKeyPattern (ascii_bytes "*"); AllowCategory 0] (parse_category category)) as Hno.
    { intros Hg. rewrite !elem_of_cons, elem_of_nil in Hcat. destruct Hcat as [->|[->|[->|[]]]];
        [specialize (Hg 0 ltac:(lia) eq_refl)|specialize (Hg 1 ltac:(lia) eq_refl)|specialize (Hg 2 ltac:(lia) eq_refl)];
        by vm_compute in Hg. }
    destruct (lookup_cmd_idx command) as [i|]; [|by apply Hno]. destruct Hi as [_ [Hi|Hi]]; [by apply Hno|].
    vm_compute in Hi. by apply elem_of_nil in Hi.
Qed.

(** A category that is not known asks for nothing: the command is allowed to
    every enabled user, unless it is denied by name. *)
Lemma unknown_category_allowed name u category command m :
  acl m !! name = Some u -> enabled u = true -> parse_category category = 0 -> lookup_cmd_idx command = None ->
  authorize_command name category command m = Ok tt.
Proof.
  intros Hu He Hc Hi. unfold authorize_command, acl_getuser, check_idx. unfold contains. by rewrite Hu, He, Hc, Hi, Z.land_0_r.
Qed.
End Laws.

(** ** A run *)

(** Patterns that are all names or one name, and a hash that is the password
    after its salt. *)
#[local] Instance ex_globs : GlobLib := {|
  Glob := bytes; GlobSet := list bytes;
  glob_new := fun p => Some p; set_empty := []; set_build := fun gs => Some gs;
  set_is_empty := fun s => bool_decide (length s = 0%nat);
  is_match := fun s k => existsb (fun p => bool_decide (p = [42]) || bool_decide (p = k)) s;
  glob_match := fun p k => bool_decide (p = [42]) || bool_decide (p = k);
|}.

#[local] Instance ex_glob_laws : GlobLaws.
Proof. split; simpl; [by intros gs s k [= ->]|by intros gs s [= ->]|by eexists]. Qed.

#[local] Instance ex_argon : Argon := {|
  argon_hash := fun salt pwd => Some (salt ++ [36] ++ pwd);
  argon_verify := fun h pwd => Some (bool_decide (drop (length h - Datatypes.S (length pwd)) h = [36] ++ pwd));
|}.

#[local] Instance ex_argon_laws : ArgonLaws.
Proof.
  split. simpl. intros salt pwd h [= <-]. f_equal. apply bool_decide_eq_true.
  rewrite length_app. simpl. replace (length salt + Datatypes.S (length pwd) - Datatypes.S (length pwd))%nat with (length salt) by lia.
  by rewrite drop_app_length.
Qed.

Definition ex_name : bytes := ascii_bytes "anton".
Definition ex_rules : list bytes := [ascii_bytes "on"; ascii_bytes "+@read"; ascii_bytes "+get"; ascii_bytes "-del"; ascii_bytes "~data"].
Definition ex_created : option AuthManager :=
  '(r, m) ← create_user [1] ex_name (ascii_bytes "secret") ex_rules auth_new; if is_ok r then Some m else None.
Definition ex_manager : AuthManager := default auth_new ex_created.

(** The categories and commands of the rules, and the denied command. *)
Example ex_permissions :
  (authorize_command ex_name (ascii_bytes "read") (ascii_bytes "mget") ex_manager,
   authorize_command ex_name (ascii_bytes "write") (ascii_bytes "GET") ex_manager,
   authorize_command ex_name (ascii_bytes "write") (ascii_bytes "set") ex_manager,
   authorize_command ex_name (ascii_bytes "read") (ascii_bytes "del") ex_manager,
   authorize_key ex_name (ascii_bytes "data") ex_manager, authorize_key ex_name (ascii_bytes "other") ex_manager)
  = (Ok tt, Ok tt, Err (AclRefused PermissionDenied), Err (AclRefused PermissionDenied), Ok tt, Err (AclRefused PermissionDenied)).
Proof. by vm_compute. Qed.

(** A user of the configuration without a password, and one that is off, log in
    with any password. *)
Example ex_passwordless :
  exists c m, parse_config (ascii_bytes "user bob off +get") = Ok c /\ from_config [] (fun _ => []) c = Some (Ok m) /\
    (authenticate 0 (ascii_bytes "bob") (ascii_bytes "anything") m).1 = Ok tt.
Proof. eexists _, _. split; [by vm_compute|]. split; by vm_compute. Qed.

(** A pattern that cannot be read leaves the user without the rules after it. *)
Lemma acl_setuser_decides_witness :
  is_Some (r ← acl_setuser (globs := ex_globs) ex_name ex_rules ∅; if is_ok r.1 then Some tt else None) /\
  (forall a', acl_setuser (globs := ex_globs) ex_name ex_rules ∅ = Some (Ok tt, a') ->
    exists rs u, parse_rules ex_rules = Some (Ok rs) /\ a' !! ex_name = Some u /\
      (check_idx u WRITE (Some 0%nat) = true <-> may_run rs WRITE (Some 0%nat))).
Proof.
  split; [by eexists; vm_compute|]. intros a' Ha.
  destruct (acl_setuser_decides ex_name ex_rules ∅ a' Ha) as (rs & u & Hp & -> & _ & Hc & _).
  exists rs, u. split; [exact Hp|]. split; [apply lookup_insert_eq|apply Hc].
Defined.

Lemma created_user_logs_in_witness :
  exists m1, create_user [1] ex_name (ascii_bytes "secret") ex_rules auth_new = Some (Ok tt, m1) /\
    (authenticate 0 ex_name (ascii_bytes "secret") m1).1 = Ok tt /\
    (authenticate 0 ex_name (ascii_bytes "guess") m1).1 = Err AuthenticationFailed.
Proof.
  eexists. split; [vm_compute; reflexivity|].
  edestruct (created_user_logs_in [1] ex_name (ascii_bytes "secret") ex_rules auth_new) as (h & Hh & Hv & Hl);
    [vm_compute; reflexivity|repeat (apply Forall_cons; split; [done|]); apply Forall_nil; exact I|].
  vm_compute in Hh. injection Hh as <-.
  split; (etransitivity; [apply Hl; by vm_compute|by vm_compute]).
Defined.

(** Five guesses are compared in a minute; the password between them is right and
    forgets the first two. *)
Definition ex_attempts : list Attempt := (fun t => (t * 1000, ex_name, ascii_bytes "guess")) <$> [0; 1; 2; 3; 4; 5].
Definition ex_mixed : list Attempt :=
  [(0, ex_name, ascii_bytes "guess"); (1000, ex_name, ascii_bytes "other"); (2000, ex_name, ascii_bytes "secret")] ++
  ((fun t => (t * 1000, ex_name, ascii_bytes "guess")) <$> [3; 4; 5; 6; 7; 8; 9]).

Example ex_lockout : wrong_guesses ex_name ex_attempts ex_manager = 5.
Proof. by vm_compute. Qed.

Lemma wrong_guesses_bounded_witness :
  wrong_guesses ex_name ex_mixed ex_manager = 7 /\ right_guesses ex_name ex_mixed ex_manager = 1 /\
  wrong_guesses ex_name ex_mixed ex_manager <= 5 * ((30000 - 0) / 60000 + 1 + right_guesses ex_name ex_mixed ex_manager + 0).
Proof.
  split; [by vm_compute|]. split; [by vm_compute|].
  exact (proj1 (wrong_guesses_bounded ex_name ex_mixed 0 30000 ex_manager ltac:(simpl; lia) I)).
Defined.

Lemma parallel_guesses_witness :
  (check_all 0 ex_name (replicate 300 (ascii_bytes "guess")) ex_manager).1 = replicate 300 (Err AuthenticationFailed).
Proof.
  destruct (acl ex_manager !! ex_name) as [u|] eqn:Hu; [|by vm_compute in Hu].
  rewrite <- (length_replicate 300 (ascii_bytes "guess")) at 2.
  refine (proj2 (parallel_guesses ex_name u 0 _ ex_manager Hu _ _)); [by vm_compute|].
  assert (password_hashes u = [[1; 36] ++ ascii_bytes "secret"]) as ->.
  { apply (f_equal (fmap password_hashes)) in Hu. by vm_compute in Hu; injection Hu. }
  apply Forall_replicate. by vm_compute.
Defined.

Definition ex_config : bytes := ascii_bytes "requirepass kinzaza".

Lemma default_user_denied_witness :
  exists c m, parse_config ex_config = Ok c /\ from_config [1] (fun _ => []) c = Some (Ok m) /\
    authorize_command (ascii_bytes "default") (ascii_bytes "read") (ascii_bytes "get") m = Err (AclRefused PermissionDenied).
Proof.
  eexists _, _. split; [vm_compute; reflexivity|]. split; [vm_compute; reflexivity|].
  eapply (default_user_denied [1] (fun _ => []) (mkServerConfig (Some (ascii_bytes "kinzaza")) None []));
    [vm_compute; reflexivity|reflexivity|apply Forall_nil; exact I|left].
Defined.
