(* ===== verification/Sessions.v ===== *)
(** * Tokens and sessions

    Models the tokens of [src/src/auth/tokens.rs], the sessions of
    [src/src/auth/session] ([config.rs], [data.rs], [manager.rs]) and their
    storage, the [SessionStorage] of [src/src/engine/memory.rs].  Signatures (crate
    [jwt]) are the class [Jwt]; new identifiers and both clocks are arguments, an
    [Instant] in milliseconds and the system time in seconds. *)
From S2P Require Import Prelude Interfaces Numbers Text.
Local Open Scope Z_scope.

(** ** Tokens *)

Record TokenClaims : Type := mkClaims {
  jti : bytes; sub : bytes; permissions : bytes; iat : Z; exp : Z; token_type : bytes;
}.

Record TokenConfig : Type := mkTokenConfig {
  access_token_ttl : Z; refresh_token_ttl : Z; secret_key : bytes; auto_cleanup : bool; token_cleanup_interval : Z;
}.

(** [Default], the generated secret being an argument. *)
Definition default_token_config (secret : bytes) : TokenConfig := mkTokenConfig (15 * 60) (7 * 24 * 3600) secret true 3600.
Definition with_secret (secret : bytes) : TokenConfig := default_token_config secret.
Definition access_ttl (ttl : Z) (c : TokenConfig) : TokenConfig :=
  mkTokenConfig ttl (refresh_token_ttl c) (secret_key c) (auto_cleanup c) (token_cleanup_interval c).
Definition refresh_ttl (ttl : Z) (c : TokenConfig) : TokenConfig :=
  mkTokenConfig (access_token_ttl c) ttl (secret_key c) (auto_cleanup c) (token_cleanup_interval c).

Record TokenPair : Type := mkPair { access_token : bytes; refresh_token : bytes; expires_in : Z }.

(** The errors of tokens among the [AuthError]s of the error crate. *)
Inductive TokenError : Type :=
| InvalidKey (reason : bytes) | SigningFailed (reason : bytes) | InvalidToken (reason : bytes) | Revoked (reason : bytes).

Class Jwt := {
  HmacKey : Type;
  hmac_key_of : bytes -> option HmacKey;
  sign_with_key : HmacKey -> TokenClaims -> option bytes;
  verify_with_key : HmacKey -> bytes -> option TokenClaims;
}.

(** What is signed is verified with the same key. *)
Class JwtLaws `{Jwt} := {
  verify_signed k c t : sign_with_key k c = Some t -> verify_with_key k t = Some c;
}.

(** [join(",")] and [split(',')] *)
Fixpoint join_commas (parts : list bytes) : bytes :=
  match parts with [] => [] | [p] => p | p :: parts => p ++ 44 :: join_commas parts end.

Fixpoint split_commas (s part : bytes) : list bytes :=
  match s with
  | [] => [part]
  | b :: s => if b =? 44 then part :: split_commas s [] else split_commas s (part ++ [b])
  end.

Section Tokens.
Context {jwt : Jwt}.

Record TokenManager : Type := mkTokens {
  token_config : TokenConfig; revoked_tokens : gmap bytes Z; hmac_key : HmacKey;
}.
Implicit Types (t : TokenManager).

Definition tokens_new (c : TokenConfig) : result TokenError TokenManager :=
  match hmac_key_of (secret_key c) with
  | Some key => Ok (mkTokens c ∅ key)
  | None => Err (InvalidKey (ascii_bytes "asd"))
  end.

Definition token_sign (c : TokenClaims) t : result TokenError bytes :=
  match sign_with_key (hmac_key t) c with Some s => Ok s | None => Err (SigningFailed (ascii_bytes "sdsd")) end.

(** [ids] are the identifiers of the two tokens. *)
Definition generate_token_pair (now : Z) (ids : bytes * bytes) (username : bytes) (perms : list bytes) t : result TokenError TokenPair :=
  let claims id ttl kind := mkClaims id username (join_commas perms) now (wrapu 64 (now + ttl)) (ascii_bytes kind) in
  let? access := token_sign (claims ids.1 (access_token_ttl (token_config t)) "access") t in
  let? refresh := token_sign (claims ids.2 (refresh_token_ttl (token_config t)) "refresh") t in
  Ok (mkPair access refresh (access_token_ttl (token_config t))).

Definition is_revoked (id : bytes) t : bool := bool_decide (is_Some (revoked_tokens t !! id)).

Definition verify_token (now : Z) (token : bytes) t : result TokenError TokenClaims :=
  match verify_with_key (hmac_key t) token with
  | None => Err (InvalidToken (ascii_bytes "sd"))
  | Some claims =>
      if exp claims <? now then Err (InvalidToken (ascii_bytes "asd"))
      else if is_revoked (jti claims) t then Err (Revoked (ascii_bytes "df"))
      else Ok claims
  end.

Definition refresh_access_token (now : Z) (ids : bytes * bytes) (token : bytes) t : result TokenError TokenPair :=
  let? claims := verify_token now token t in
  if bool_decide (token_type claims <> ascii_bytes "refresh") then Err (InvalidToken (ascii_bytes "sd"))
  else generate_token_pair now ids (sub claims) (split_commas (permissions claims) []) t.

Definition with_revoked (r : gmap bytes Z) t : TokenManager := mkTokens (token_config t) r (hmac_key t).

Definition revoke_token (id : bytes) (e : Z) t : TokenManager := with_revoked (<[id := e]> (revoked_tokens t)) t.

Definition revoke_token_claims (now : Z) (token : bytes) t : result TokenError unit * TokenManager :=
  match verify_token now token t with
  | Ok claims => (Ok tt, revoke_token (jti claims) (exp claims) t)
  | Err e => (Err e, t)
  end.

Definition revoked_count t : nat := size (revoked_tokens t).
Definition introspect (now : Z) (token : bytes) t : result TokenError TokenClaims := verify_token now token t.

(** With the number of revocations that are removed. *)
Definition cleanup_revoked (now : Z) t : nat * TokenManager :=
  let kept := filter (fun p : bytes * Z => now < p.2) (revoked_tokens t) in
  ((size (revoked_tokens t) - size kept)%nat, with_revoked kept t).

(** ** Sessions *)

Inductive SessionError : Type :=
| NotFound | Expired | IpMismatch | UserAgentMismatch | TokenExpired | TokenRevoked | InvalidSessionId | StorageFailed (text : bytes).

(** Durations in milliseconds; no limit is [None]. *)
Record SessionConfig : Type := mkSessionConfig {
  ttl : Z; max_sessions_per_user : option nat; check_ip : bool; check_user_agent : bool; cleanup_interval : Z;
}.

Definition default_session_config : SessionConfig := mkSessionConfig 3600000 (Some 5%nat) true true 300000.

Record SessionConfigBuilder : Type := mkBuilder {
  b_ttl : option Z; b_max : option (option nat); b_ip : option bool; b_user_agent : option bool; b_interval : option Z;
}.
Implicit Types (b : SessionConfigBuilder).

Definition builder : SessionConfigBuilder := mkBuilder None None None None None.
Definition b_set_ttl (d : Z) b := mkBuilder (Some d) (b_max b) (b_ip b) (b_user_agent b) (b_interval b).
Definition b_max_sessions (n : nat) b := mkBuilder (b_ttl b) (Some (Some n)) (b_ip b) (b_user_agent b) (b_interval b).
Definition b_unlimited b := mkBuilder (b_ttl b) (Some None) (b_ip b) (b_user_agent b) (b_interval b).
Definition b_validate_ip (v : bool) b := mkBuilder (b_ttl b) (b_max b) (Some v) (b_user_agent b) (b_interval b).
Definition b_validate_user_agent (v : bool) b := mkBuilder (b_ttl b) (b_max b) (b_ip b) (Some v) (b_interval b).
Definition b_cleanup_interval (d : Z) b := mkBuilder (b_ttl b) (b_max b) (b_ip b) (b_user_agent b) (Some d).
Definition build b : SessionConfig :=
  let d := default_session_config in
  mkSessionConfig (default (ttl d) (b_ttl b)) (default (max_sessions_per_user d) (b_max b)) (default (check_ip d) (b_ip b))
    (default (check_user_agent d) (b_user_agent b)) (default (cleanup_interval d) (b_interval b)).

Record SessionData : Type := mkSession {
  username : bytes; token_claims : option TokenClaims; ip_address : option bytes; user_agent : option bytes;
  created_at : Z; last_activity : Z; expires_at : Z;
}.
Implicit Types (s : SessionData).

Definition session_new (now : Z) (name : bytes) (ip : option bytes) (life : Z) : SessionData :=
  mkSession name None ip None now now (now + life).
Definition new_with_token (now : Z) (name : bytes) (claims : TokenClaims) (ip agent : option bytes) (life : Z) : SessionData :=
  mkSession name (Some claims) ip agent now now (now + life).
Definition new_full (now : Z) (name : bytes) (token_id ip agent : option bytes) (life : Z) : SessionData :=
  mkSession name ((fun id => mkClaims id name [] 0 0 (ascii_bytes "access")) <$> token_id) ip agent now now (now + life).

Definition token_id s : option bytes := jti <$> token_claims s.
Definition session_permissions s : option bytes := permissions <$> token_claims s.
Definition is_token_expired (unix : Z) s : bool :=
  match token_claims s with Some c => exp c <? unix | None => false end.
Definition is_expired (now : Z) s : bool := expires_at s <=? now.
Definition update_activity (now life : Z) s : SessionData :=
  mkSession (username s) (token_claims s) (ip_address s) (user_agent s) (created_at s) now (now + life).

(** What a session and a request both name agrees. *)
Definition agree (stored given : option bytes) : bool :=
  match stored, given with Some a, Some b => bool_decide (a = b) | _, _ => true end.
Definition validate_ip (ip : option bytes) s : bool := agree (ip_address s) ip.
Definition validate_user_agent (agent : option bytes) s : bool := agree (user_agent s) agent.
Definition validate_fingerprint (ip agent : option bytes) s : bool := validate_ip ip s && validate_user_agent agent s.
Definition time_until_expiry (now : Z) s : Z := Z.max 0 (expires_at s - now).

(** ** Storage *)

(** A [SessionId] is the 128 bits of its UUID. *)
Abbreviation Sessions := (gmap Z SessionData).
Context {order : HashOrder (Z * SessionData)}.

(** In the order of the map. *)
Definition get_user_sessions (name : bytes) (ss : Sessions) : list (Z * SessionData) :=
  filter (fun p => username p.2 = name) (shuffle (map_to_list ss)).

Definition remove_all (ids : list Z) (ss : Sessions) : Sessions := foldl (fun ss id => delete id ss) ss ids.

Definition remove_user_sessions (name : bytes) (ss : Sessions) : nat * Sessions :=
  let ids := (get_user_sessions name ss).*1 in (length ids, remove_all ids ss).

Definition cleanup_expired (now : Z) (ss : Sessions) : nat * Sessions :=
  let ids := (filter (fun p => is_expired now p.2 = true) (shuffle (map_to_list ss))).*1 in
  (length ids, remove_all ids ss).

(** ** The manager *)

Record SessionManager : Type := mkManager {
  storage : Sessions; config : SessionConfig; token_manager : option TokenManager;
}.
Implicit Types (m : SessionManager).

Definition manager_new (c : SessionConfig) : SessionManager := mkManager ∅ c None.
Definition with_token_manager (c : SessionConfig) (t : TokenManager) : SessionManager := mkManager ∅ c (Some t).
Definition with_storage (ss : Sessions) m : SessionManager := mkManager ss (config m) (token_manager m).
Definition with_tokens (t : option TokenManager) m : SessionManager := mkManager (storage m) (config m) t.

(** The first of the sessions sorted by their creation ([sort_by_key] is stable). *)
Fixpoint oldest (l : list (Z * SessionData)) : option (Z * SessionData) :=
  match l with
  | [] => None
  | p :: l =>
      match oldest l with
      | Some o => if created_at p.2 <=? created_at o.2 then Some p else Some o
      | None => Some p
      end
  end.

(** The session that has to go, if the user has all that are allowed. *)
Definition over_limit (name : bytes) m : option Z :=
  max ← max_sessions_per_user (config m);
  let l := get_user_sessions name (storage m) in
  if (max <=? length l)%nat then fst <$> oldest l else None.

Definition evict (id : option Z) m : SessionManager :=
  match id with Some id => with_storage (delete id (storage m)) m | None => m end.

Definition insert_session (id : Z) (s : SessionData) m : SessionManager := with_storage (<[id := s]> (storage m)) m.

(** All of it under one lock. *)
Definition create_session_from_token (now id : Z) (claims : TokenClaims) (ip agent : option bytes) m : Z * SessionManager :=
  let m := evict (over_limit (sub claims) m) m in
  (id, insert_session id (new_with_token now (sub claims) claims ip agent (ttl (config m))) m).

(** The three uses of the lock: [over_limit], [evict] and the insertion. *)
Definition create_session_full (now id : Z) (name : bytes) (tid ip agent : option bytes) m : Z * SessionManager :=
  let victim := over_limit name m in
  let m := evict victim m in
  (id, insert_session id (new_full now name tid ip agent (ttl (config m))) m).

Definition create_session (now id : Z) (name : bytes) (ip : option bytes) m : Z * SessionManager :=
  create_session_full now id name None ip None m.

(** [with_session]: [f] gives the result and the session as it leaves it. *)
Definition with_session {R} (id : Z) (f : SessionData -> result SessionError R * SessionData) m : result SessionError R * SessionManager :=
  match storage m !! id with
  | None => (Err NotFound, m)
  | Some s => let '(r, s) := f s in (r, insert_session id s m)
  end.

Definition validate_session (now id : Z) (ip : option bytes) m : result SessionError unit * SessionManager :=
  with_session id (fun s =>
    if is_expired now s then (Err Expired, s)
    else if check_ip (config m) && negb (validate_ip ip s) then (Err IpMismatch, s)
    else (Ok tt, update_activity now (ttl (config m)) s)) m.

Definition token_is_revoked s m : bool :=
  match token_manager m, token_id s with Some t, Some id => is_revoked id t | _, _ => false end.

Definition validate_session_full (now unix id : Z) (ip agent : option bytes) m : result SessionError unit * SessionManager :=
  with_session id (fun s =>
    if is_expired now s then (Err Expired, s)
    else if is_token_expired unix s then (Err TokenExpired, s)
    else if token_is_revoked s m then (Err TokenRevoked, s)
    else if check_ip (config m) && negb (validate_ip ip s) then (Err IpMismatch, s)
    else if check_user_agent (config m) && negb (validate_user_agent agent s) then (Err UserAgentMismatch, s)
    else (Ok tt, update_activity now (ttl (config m)) s)) m.

(** The session of an identifier; one that has expired is removed. *)
Definition get_session_info (now id : Z) m : result SessionError SessionData * SessionManager :=
  match storage m !! id with
  | None => (Err NotFound, m)
  | Some s => if is_expired now s then (Err Expired, with_storage (delete id (storage m)) m) else (Ok s, m)
  end.

Definition get_username (now id : Z) m : result SessionError bytes * SessionManager :=
  match storage m !! id with
  | None => (Err NotFound, m)
  | Some s => if is_expired now s then (Err Expired, with_storage (delete id (storage m)) m) else (Ok (username s), m)
  end.

(** The token of a session, revoked where there is a manager of tokens. *)
Definition revoke_claims (s : SessionData) m : SessionManager :=
  match token_manager m, token_claims s with
  | Some t, Some c => with_tokens (Some (revoke_token (jti c) (exp c) t)) m
  | _, _ => m
  end.

Definition revoke_session (id : Z) m : result SessionError unit * SessionManager :=
  match storage m !! id with
  | Some s => let m := revoke_claims s m in (Ok tt, with_storage (delete id (storage m)) m)
  | None => (Err NotFound, m)
  end.

Definition revoke_user_sessions (name : bytes) m : nat * SessionManager :=
  let m := foldl (fun m p => revoke_claims p.2 m) m (get_user_sessions name (storage m)) in
  let '(n, ss) := remove_user_sessions name (storage m) in (n, with_storage ss m).

Definition count_user_sessions (name : bytes) m : nat := length (get_user_sessions name (storage m)).
Definition list_user_sessions (name : bytes) m : list (Z * SessionData) := get_user_sessions name (storage m).
Definition manager_cleanup (now : Z) m : nat * SessionManager :=
  let '(n, ss) := cleanup_expired now (storage m) in (n, with_storage ss m).
Definition total_sessions m : nat := size (storage m).
End Tokens.
