(* ===== verification/SessionsLaws.v ===== *)
(** * What tokens and sessions promise

    A session is valid exactly while the rules of the manager say so
    ([session_valid_iff]); no sequence of operations leaves a user more sessions
    than allowed ([sessions_bounded]), but creations that overlap do
    ([create_race]); a revoked token is refused until the second in which it
    expires ([revoked_until_expiry], [revoked_token_accepted]); refreshing keeps
    user and permissions ([refresh_keeps_permissions]); and a session that is
    created with the identifier of a token never validates and forgets its
    revocation ([named_token_session]). *)
From S2P Require Import Prelude Interfaces Numbers Text Sessions.
Local Open Scope Z_scope.

Section Laws.
Context {jwt : Jwt} {order : HashOrder (Z * SessionData)}.
Implicit Types (m : SessionManager) (t : TokenManager) (ss : gmap Z SessionData) (name : bytes).

(** ** Validity *)

(** [validate_session_full] accepts a session exactly when it exists, has not
    expired, its token has neither expired nor been revoked, and the address and
    the agent agree where they are checked; it then lives for the whole time
    again, and nothing else changes; when it refuses nothing changes. *)
Theorem session_valid_iff now unix id ip agent m r m' :
  validate_session_full now unix id ip agent m = (r, m') ->
  (r = Ok tt <-> exists s, storage m !! id = Some s /\ now < expires_at s /\
      (forall c, token_claims s = Some c -> unix <= exp c /\ forall t, token_manager m = Some t -> revoked_tokens t !! jti c = None) /\
      (check_ip (config m) = true -> validate_ip ip s = true) /\
      (check_user_agent (config m) = true -> validate_user_agent agent s = true) /\
      m' = insert_session id (update_activity now (ttl (config m)) s) m) /\
  (r <> Ok tt -> m' = m).
Proof.
  unfold validate_session_full, with_session. destruct (storage m !! id) as [s|] eqn:Hs; cycle 1.
  { intros [= <- <-]. split; [|done]. split; [done|naive_solver]. }
  assert (insert_session id s m = m) as Hid.
  { unfold insert_session, with_storage. rewrite insert_id by done. by destruct m. }
  destruct (is_expired now s) eqn:He; unfold is_expired in He; bool_to_prop.
  { rewrite Hid. intros [= <- <-]. split; [|done]. split; [done|]. intros (s' & [= <-] & ? & _). lia. }
  destruct (is_token_expired unix s) eqn:Ht.
  { rewrite Hid. intros [= <- <-]. split; [|done]. split; [done|]. intros (s' & [= <-] & _ & Hc & _).
    unfold is_token_expired in Ht. destruct (token_claims s) as [c|]; [|done]. bool_to_prop. destruct (Hc c eq_refl). lia. }
  destruct (token_is_revoked s m) eqn:Hr.
  { rewrite Hid. intros [= <- <-]. split; [|done]. split; [done|]. intros (s' & [= <-] & _ & Hc & _).
    unfold token_is_revoked, token_id, is_revoked in Hr. destruct (token_manager m) as [t|]; [|done].
    destruct (token_claims s) as [c|]; [|done]. simpl in Hr. apply bool_decide_eq_true in Hr as [e Hr].
    destruct (Hc c eq_refl) as [_ Hn]. by rewrite (Hn t eq_refl) in Hr. }
  destruct (check_ip (config m) && negb (validate_ip ip s)) eqn:Hip.
  { rewrite Hid. intros [= <- <-]. split; [|done]. split; [done|]. intros (s' & [= <-] & _ & _ & Hc & _).
    apply andb_true_iff in Hip as [Hc1 Hc2%negb_true_iff]. specialize (Hc Hc1). congruence. }
  destruct (check_user_agent (config m) && negb (validate_user_agent agent s)) eqn:Hag.
  { rewrite Hid. intros [= <- <-]. split; [|done]. split; [done|]. intros (s' & [= <-] & _ & _ & _ & Hc & _).
    apply andb_true_iff in Hag as [Hc1 Hc2%negb_true_iff]. specialize (Hc Hc1). congruence. }
  intros [= <- <-]. split; [|done]. split; [|done]. intros _. exists s. split_and!; [done|done| | | |done].
  - intros c Hc. unfold is_token_expired, token_is_revoked, token_id in *. rewrite Hc in Ht, Hr. bool_to_prop. split; [done|].
    intros t Htm. rewrite Htm in Hr. simpl in Hr. apply bool_decide_eq_false in Hr. by apply eq_None_not_Some.
  - intros Hc. rewrite Hc in Hip. simpl in Hip. by apply negb_false_iff.
  - intros Hc. rewrite Hc in Hag. simpl in Hag. by apply negb_false_iff.
Qed.

(** ** The number of sessions *)

Definition is_of name (p : Z * SessionData) : Prop := username p.2 = name.

Lemma user_sessions_perm name ss : get_user_sessions name ss ≡ₚ filter (fun p => username p.2 = name) (map_to_list ss).
Proof. unfold get_user_sessions. by rewrite shuffle_perm. Qed.

Lemma elem_of_user_sessions name ss id s : (id, s) ∈ get_user_sessions name ss <-> ss !! id = Some s /\ username s = name.
Proof. rewrite user_sessions_perm, list_elem_of_filter, elem_of_map_to_list. simpl. tauto. Qed.

Definition count name ss : nat := length (get_user_sessions name ss).

Lemma count_insert_new name ss id s :
  ss !! id = None -> count name (<[id := s]> ss) = ((if decide (username s = name) then 1 else 0) + count name ss)%nat.
Proof.
  intros Hn. unfold count. rewrite !user_sessions_perm, map_to_list_insert by done.
  rewrite filter_cons. simpl. by case_decide.
Qed.

Lemma count_delete name ss id s :
  ss !! id = Some s -> count name ss = ((if decide (username s = name) then 1 else 0) + count name (delete id ss))%nat.
Proof. intros Hs. rewrite <- (count_insert_new name (delete id ss) id s) by apply lookup_delete_eq. by rewrite insert_delete_id. Qed.

Lemma count_delete_le name ss id : (count name (delete id ss) <= count name ss)%nat.
Proof.
  destruct (ss !! id) as [s|] eqn:Hs; [|by rewrite delete_id]. rewrite (count_delete name ss id s Hs). lia.
Qed.

Lemma count_insert_le name ss id s : (count name (<[id := s]> ss) <= Datatypes.S (count name ss))%nat.
Proof.
  rewrite <- insert_delete_eq, count_insert_new by apply lookup_delete_eq.
  pose proof (count_delete_le name ss id). case_decide; lia.
Qed.

Lemma count_insert_other name ss id s : username s <> name -> (count name (<[id := s]> ss) <= count name ss)%nat.
Proof.
  intros Hne. rewrite <- insert_delete_eq, count_insert_new by apply lookup_delete_eq.
  pose proof (count_delete_le name ss id). rewrite decide_False by done. lia.
Qed.

Lemma count_update name ss id s s' : ss !! id = Some s -> username s' = username s -> count name (<[id := s']> ss) = count name ss.
Proof.
  intros Hs Hu. rewrite (count_delete name ss id s Hs), <- insert_delete_eq, count_insert_new by apply lookup_delete_eq.
  by rewrite Hu.
Qed.

Lemma remove_all_lookup ids ss id : remove_all ids ss !! id = if bool_decide (id ∈ ids) then None else ss !! id.
Proof.
  unfold remove_all. revert ss. induction ids as [|i ids IH]; intros ss; cbn [foldl]; [by rewrite bool_decide_eq_false_2 by set_solver|].
  rewrite IH. destruct (decide (id = i)) as [->|Hne].
  - rewrite lookup_delete_eq. rewrite (bool_decide_eq_true_2 (i ∈ i :: ids)) by set_solver. by case_bool_decide.
  - rewrite lookup_delete_ne by done. by rewrite (bool_decide_ext (id ∈ i :: ids) (id ∈ ids)) by set_solver.
Qed.

Lemma count_remove_all name ids ss : (count name (remove_all ids ss) <= count name ss)%nat.
Proof.
  unfold remove_all. revert ss. induction ids as [|i ids IH]; intros ss; simpl; [done|].
  specialize (IH (delete i ss)). pose proof (count_delete_le name ss i). lia.
Qed.

(** The oldest session is one of the list and none is older. *)
Lemma oldest_spec l p : oldest l = Some p -> p ∈ l /\ forall q, q ∈ l -> created_at p.2 <= created_at q.2.
Proof.
  revert p. induction l as [|q l IH]; simpl; intros p; [done|]. destruct (oldest l) as [o|] eqn:Ho.
  - destruct (IH o eq_refl) as [Hin Hmin]. destruct (Z.leb_spec (created_at q.2) (created_at o.2)); intros [= <-].
    + split; [by left|]. intros q' [->|Hq]%elem_of_cons; [lia|]. specialize (Hmin _ Hq). lia.
    + split; [by right|]. intros q' [->|Hq]%elem_of_cons; [lia|auto].
  - intros [= <-]. destruct l as [|q' l]; [|simpl in Ho; destruct (oldest l) as [o|]; repeat case_match; done].
    split; [by left|]. intros q' [->|Hq]%elem_of_cons; [lia|by apply elem_of_nil in Hq].
Qed.

Lemma oldest_some l : l <> [] -> is_Some (oldest l).
Proof. destruct l as [|q l]; [done|]. intros _. simpl. destruct (oldest l); [case_match|]; eauto. Qed.

(** ** Operations *)

Inductive SessionOp : Type :=
| CreateFull (now id : Z) (name : bytes) (tid ip agent : option bytes)
| CreateFromToken (now id : Z) (claims : TokenClaims) (ip agent : option bytes)
| Validate (now id : Z) (ip : option bytes)
| ValidateFull (now unix id : Z) (ip agent : option bytes)
| GetUsername (now id : Z)
| GetInfo (now id : Z)
| RevokeSession (id : Z)
| RevokeUser (name : bytes)
| Cleanup (now : Z).

Definition run_op (o : SessionOp) m : SessionManager :=
  match o with
  | CreateFull now id name tid ip agent => (create_session_full now id name tid ip agent m).2
  | CreateFromToken now id claims ip agent => (create_session_from_token now id claims ip agent m).2
  | Validate now id ip => (validate_session now id ip m).2
  | ValidateFull now unix id ip agent => (validate_session_full now unix id ip agent m).2
  | GetUsername now id => (get_username now id m).2
  | GetInfo now id => (get_session_info now id m).2
  | RevokeSession id => (revoke_session id m).2
  | RevokeUser name => (revoke_user_sessions name m).2
  | Cleanup now => (manager_cleanup now m).2
  end.

Definition run_ops (ops : list SessionOp) m : SessionManager := foldl (fun m o => run_op o m) m ops.

Lemma revoke_claims_keeps s m : storage (revoke_claims s m) = storage m /\ config (revoke_claims s m) = config m.
Proof. unfold revoke_claims. by destruct (token_manager m), (token_claims s). Qed.

Lemma revoke_all_claims_keeps l m :
  storage (foldl (fun m (p : Z * SessionData) => revoke_claims p.2 m) m l) = storage m /\
  config (foldl (fun m (p : Z * SessionData) => revoke_claims p.2 m) m l) = config m.
Proof.
  revert m. induction l as [|p l IH]; intros m; simpl; [done|].
  destruct (revoke_claims_keeps p.2 m) as [<- <-]. apply IH.
Qed.

Lemma run_op_config o m : config (run_op o m) = config m.
Proof.
  destruct o; simpl; unfold with_session, evict.
  - by destruct (over_limit _ _).
  - unfold create_session_from_token, evict. simpl. by destruct (over_limit _ _).
  - unfold validate_session, with_session. destruct (storage m !! id); [|done]. by repeat case_match.
  - unfold validate_session_full, with_session. destruct (storage m !! id); [|done]. by repeat case_match.
  - unfold get_username. by repeat case_match.
  - unfold get_session_info. by repeat case_match.
  - unfold revoke_session. destruct (storage m !! id); [apply revoke_claims_keeps|done].
  - unfold revoke_user_sessions. simpl. apply revoke_all_claims_keeps.
  - done.
Qed.

(** The victim of a full user is the oldest of the user's sessions. *)
Lemma over_limit_spec name m id :
  over_limit name m = Some id ->
  exists s, storage m !! id = Some s /\ username s = name /\
    forall i s', storage m !! i = Some s' -> username s' = name -> created_at s <= created_at s'.
Proof.
  unfold over_limit. intros (max & _ & He)%bind_Some. destruct (max <=? _)%nat; [|done].
  apply fmap_Some in He as ([i s] & Ho & ->). apply oldest_spec in Ho as [Hin Hmin].
  apply elem_of_user_sessions in Hin as [Hs Hn]. exists s. split_and!; [done|done|].
  intros i' s' Hs' Hn'. apply (Hmin (i', s')). by apply elem_of_user_sessions.
Qed.

Lemma evict_makes_room name max m :
  max_sessions_per_user (config m) = Some max ->
  (Datatypes.S (count name (storage (evict (over_limit name m) m))) <= Nat.max (Nat.max 1 max) (count name (storage m)))%nat.
Proof.
  intros Hmax. destruct (over_limit name m) as [id|] eqn:Ho; simpl.
  - destruct (over_limit_spec _ _ _ Ho) as (s & Hs & Hn & _).
    rewrite (count_delete name _ id s Hs), decide_True by done. lia.
  - unfold over_limit in Ho. rewrite Hmax in Ho. simpl in Ho. fold (count name (storage m)) in Ho.
    destruct (Nat.leb_spec max (count name (storage m))); [|lia].
    destruct (get_user_sessions name (storage m)) as [|p l] eqn:Hl.
    + unfold count. rewrite Hl. simpl. lia.
    + destruct (oldest_some (p :: l)) as [o He]; [done|]. by rewrite He in Ho.
Qed.

Lemma evict_count_le name v m : (count name (storage (evict v m)) <= count name (storage m))%nat.
Proof. destruct v; simpl; [apply count_delete_le|done]. Qed.

Lemma created_count name n max m id s :
  max_sessions_per_user (config m) = Some max -> username s = n ->
  (count name (<[id := s]> (storage (evict (over_limit n m) m))) <= Nat.max (Nat.max 1 max) (count name (storage m)))%nat.
Proof.
  intros Hmax Hn. destruct (decide (n = name)) as [->|Hne].
  - pose proof (evict_makes_room name max m Hmax).
    pose proof (count_insert_le name (storage (evict (over_limit name m) m)) id s). lia.
  - assert (username s <> name) as Hu by congruence.
    pose proof (count_insert_other name (storage (evict (over_limit n m) m)) id s Hu).
    pose proof (evict_count_le name (over_limit n m) m). lia.
Qed.

Lemma run_op_count name max o m :
  max_sessions_per_user (config m) = Some max ->
  (count name (storage (run_op o m)) <= Nat.max (Nat.max 1 max) (count name (storage m)))%nat.
Proof.
  intros Hmax. destruct o; simpl.
  - by apply created_count.
  - by apply created_count.
  - unfold validate_session, with_session. destruct (storage m !! id) as [s|] eqn:Hs; [|simpl; lia].
    repeat case_match; simplify_eq; simpl; rewrite (count_update name _ _ _ _ Hs) by done; lia.
  - unfold validate_session_full, with_session. destruct (storage m !! id) as [s|] eqn:Hs; [|simpl; lia].
    repeat case_match; simplify_eq; simpl; rewrite (count_update name _ _ _ _ Hs) by done; lia.
  - unfold get_username. repeat case_match; simpl; pose proof (count_delete_le name (storage m) id); lia.
  - unfold get_session_info. repeat case_match; simpl; pose proof (count_delete_le name (storage m) id); lia.
  - unfold revoke_session. destruct (storage m !! id) as [s|]; simpl; [|lia].
    rewrite (proj1 (revoke_claims_keeps s m)). pose proof (count_delete_le name (storage m) id). lia.
  - unfold revoke_user_sessions, remove_user_sessions. simpl. rewrite (proj1 (revoke_all_claims_keeps _ m)).
    pose proof (count_remove_all name (get_user_sessions name0 (storage m)).*1 (storage m)). lia.
  - unfold cleanup_expired. simpl.
    pose proof (count_remove_all name (filter (fun p : Z * SessionData => is_expired now p.2 = true) (shuffle (map_to_list (storage m)))).*1 (storage m)). lia.
Qed.

(** C11. Operations one after the other never leave a user more sessions than the
    limit (or one); a creation for a user who has all of them removes exactly the
    oldest. *)
Theorem sessions_bounded name max ops m :
  max_sessions_per_user (config m) = Some max -> (count name (storage m) <= Nat.max 1 max)%nat ->
  (count_user_sessions name (run_ops ops m) <= Nat.max 1 max)%nat /\
  forall now id tid ip agent, (max <= count_user_sessions name (run_ops ops m))%nat -> (0 < max)%nat ->
    exists old s, storage (run_ops ops m) !! old = Some s /\ username s = name /\
      (forall i s', storage (run_ops ops m) !! i = Some s' -> username s' = name -> created_at s <= created_at s') /\
      storage (create_session_full now id name tid ip agent (run_ops ops m)).2 =
        <[id := new_full now name tid ip agent (ttl (config m))]> (delete old (storage (run_ops ops m))).
Proof.
  intros Hmax Hc.
  assert (config (run_ops ops m) = config m /\ (count name (storage (run_ops ops m)) <= Nat.max 1 max)%nat) as [Hcfg Hn].
  { unfold run_ops. revert m Hmax Hc. induction ops as [|o ops IH]; intros m Hmax Hc; simpl; [done|].
    rewrite <- (run_op_config o m) in Hmax. destruct (IH (run_op o m) Hmax) as [-> Hle].
    - rewrite run_op_config in Hmax. pose proof (run_op_count name max o m Hmax). lia.
    - split; [apply run_op_config|done]. }
  split; [done|]. intros now id tid ip agent Hfull Hpos. revert Hcfg Hn Hfull. generalize (run_ops ops m). intros m1 Hcfg Hn Hfull.
  destruct (over_limit name m1) as [old|] eqn:Ho; cycle 1.
  { exfalso. unfold over_limit in Ho. rewrite Hcfg, Hmax in Ho. simpl in Ho. unfold count_user_sessions in Hfull.
    rewrite (proj2 (Nat.leb_le _ _) Hfull) in Ho. apply fmap_None in Ho.
    destruct (oldest_some (get_user_sessions name (storage m1))) as [o He]; [|by rewrite He in Ho].
    intros H0. rewrite H0 in Hfull. simpl in Hfull. lia. }
  destruct (over_limit_spec _ _ _ Ho) as (s & Hs & Hu & Hmin). exists old, s. split_and!; [done|done|done|].
  unfold create_session_full. by rewrite Ho, <- Hcfg.
Qed.

(** Creations that overlap: each has looked at the limit before the others insert. *)
Definition insert_all (now : Z) name (ids : list Z) m : SessionManager :=
  foldl (fun m id => insert_session id (new_full now name None None None (ttl (config m))) m) m ids.

(** Overlapping creations of a user who is below the limit all insert. *)
Theorem create_race now name ids m :
  over_limit name m = None -> NoDup ids -> (forall id, id ∈ ids -> storage m !! id = None) ->
  count_user_sessions name (insert_all now name ids m) = (length ids + count_user_sessions name m)%nat.
Proof.
  intros _. unfold insert_all. revert m. induction ids as [|id ids IH]; intros m Hnd Hnew; simpl; [done|].
  apply NoDup_cons in Hnd as [Hid Hnd]. rewrite IH; [|done|].
  - unfold count_user_sessions. simpl. fold (count name (<[id := new_full now name None None None (ttl (config m))]> (storage m))).
    rewrite count_insert_new, decide_True by (done || apply Hnew; by left). unfold count. simpl. lia.
  - intros i Hi. simpl. rewrite lookup_insert_ne by (intros ->; done). apply Hnew. by right.
Qed.

(** ** Revoked tokens *)

Inductive TokenOp : Type :=
| Revoke (id : bytes) (e : Z)
| RevokeToken (now : Z) (token : bytes)
| CleanupTokens (now : Z).

Definition run_token_op (o : TokenOp) t : TokenManager :=
  match o with
  | Revoke id e => revoke_token id e t
  | RevokeToken now token => (revoke_token_claims now token t).2
  | CleanupTokens now => (cleanup_revoked now t).2
  end.

(** Revocations carry the expiry of their token, and cleanups are in the past. *)
Definition honest (c : TokenClaims) (now : Z) t (o : TokenOp) : Prop :=
  match o with
  | Revoke id e => id = jti c -> e = exp c
  | RevokeToken _ token => forall c', verify_with_key (hmac_key t) token = Some c' -> jti c' = jti c -> exp c' = exp c
  | CleanupTokens n => n <= now
  end.

Lemma run_token_op_key o t : hmac_key (run_token_op o t) = hmac_key t.
Proof. destruct o; simpl; [done| |done]. unfold revoke_token_claims. by destruct (verify_token _ _ _). Qed.

Lemma verify_ok now token t c :
  verify_token now token t = Ok c <->
  verify_with_key (hmac_key t) token = Some c /\ now <= exp c /\ revoked_tokens t !! jti c = None.
Proof.
  unfold verify_token. destruct (verify_with_key _ _) as [c'|]; [|naive_solver].
  destruct (Z.ltb_spec (exp c') now); [split; [done|]; intros ([= ->] & ? & _); lia|].
  unfold is_revoked. case_bool_decide as Hr.
  - split; [done|]. intros ([= ->] & _ & Hn). rewrite Hn in Hr. by destruct Hr.
  - rewrite <- eq_None_not_Some in Hr. split; [intros [= <-]; done|]. by intros ([= ->] & _).
Qed.

Lemma honest_keeps c now t o :
  honest c now t o -> exp c <= now \/ revoked_tokens t !! jti c = Some (exp c) ->
  exp c <= now \/ revoked_tokens (run_token_op o t) !! jti c = Some (exp c).
Proof.
  intros Ho [?|Hr]; [by left|]. destruct o as [id e|n token|n]; simpl in *.
  - right. destruct (decide (id = jti c)) as [->|Hne]; [by rewrite lookup_insert_eq, Ho|by rewrite lookup_insert_ne].
  - right. unfold revoke_token_claims. destruct (verify_token n token t) as [c'|e] eqn:Hv; simpl; [|done].
    apply verify_ok in Hv as (Hk & _ & Hn). rewrite lookup_insert_ne; [done|]. intros E. by rewrite E, Hr in Hn.
  - destruct (decide (exp c <= now)); [by left|]. right. apply map_lookup_filter_Some. split; [done|]. simpl. lia.
Qed.

(** C14. A token that has been revoked with its expiry is refused at every time
    but the second of the expiry itself, whatever is revoked and cleaned up
    afterwards, as long as every later revocation of its identifier carries that
    expiry too and no cleanup runs with a clock ahead.  The condition is needed: a
    later revocation with another expiry replaces the first (the session manager
    makes one with expiry 0 for a session named after a token), and the next
    cleanup forgets it: the token is accepted again until it expires. *)
Theorem revoked_until_expiry key token c now t :
  hmac_key t = key -> verify_with_key key token = Some c -> revoked_tokens t !! jti c = Some (exp c) ->
  (forall ops, Forall (fun o => forall t, hmac_key t = key -> honest c now t o) ops -> now <> exp c ->
    exists e, verify_token now token (foldl (fun t o => run_token_op o t) t ops) = Err e) /\
  (forall e n, e <= n -> now <= exp c -> verify_token now token (cleanup_revoked n (revoke_token (jti c) e t)).2 = Ok c).
Proof.
  intros Hk Hv Hr. split.
  2:{ intros e n He Hn. apply verify_ok. split; [simpl; by rewrite Hk|]. split; [done|]. simpl. apply map_lookup_filter_None. right.
      intros e' He'. rewrite lookup_insert_eq in He'. injection He' as <-. simpl. lia. }
  intros ops Hops Hnow.
  assert (forall t, hmac_key t = key -> exp c <= now \/ revoked_tokens t !! jti c = Some (exp c) ->
    let t' := foldl (fun t o => run_token_op o t) t ops in
    hmac_key t' = key /\ (exp c <= now \/ revoked_tokens t' !! jti c = Some (exp c))) as H.
  { clear - Hops. induction Hops as [|o ops Ho _ IH]; intros t Hk Hr; simpl; [done|].
    apply IH; [by rewrite run_token_op_key|]. by apply honest_keeps; [apply Ho|]. }
  destruct (H t Hk (or_intror Hr)) as [Hk' Hr']. clear H. revert Hk' Hr'. generalize (foldl (fun t o => run_token_op o t) t ops).
  intros t' Hk' Hr'. destruct (verify_token now token t') as [c'|e] eqn:He; [exfalso|by exists e].
  apply verify_ok in He as (Hc' & Hle & Hn). rewrite Hk', Hv in Hc'. injection Hc' as <-.
  destruct Hr' as [?|Hr']; [lia|by rewrite Hr' in Hn].
Qed.

(** In that second a cleanup has forgotten the revocation, and the token is not
    yet too old. *)
Lemma revoked_token_accepted token c t :
  verify_with_key (hmac_key t) token = Some c -> revoked_tokens t !! jti c = Some (exp c) ->
  verify_token (exp c) token (cleanup_revoked (exp c) t).2 = Ok c.
Proof.
  intros Hv Hr. apply verify_ok. split_and!; [done|done|]. simpl. apply map_lookup_filter_None. right.
  intros e He. rewrite Hr in He. injection He as <-. simpl. lia.
Qed.

(** ** Refreshing *)

Lemma join_split s part : join_commas (split_commas s part) = part ++ s.
Proof.
  revert part. induction s as [|b s IH]; intros part; simpl; [by rewrite app_nil_r|].
  destruct (Z.eqb_spec b 44) as [->|_].
  - specialize (IH []). simpl in IH. destruct (split_commas s []) as [|p ps] eqn:E; [by destruct s; simpl in E; repeat case_match|].
    by rewrite <- IH.
  - by rewrite IH, <- app_assoc.
Qed.

Context {jwt_laws : JwtLaws}.

(** A refresh token that is accepted gives an access token of the same user
    with the same permissions that is accepted until it is too old, if its new
    identifier is not revoked. *)
Theorem refresh_keeps_permissions now ids token t pair c later :
  refresh_access_token now ids token t = Ok pair -> verify_token now token t = Ok c ->
  revoked_tokens t !! ids.1 = None -> later <= wrapu 64 (now + access_token_ttl (token_config t)) ->
  exists c', verify_token later (access_token pair) t = Ok c' /\ sub c' = sub c /\ permissions c' = permissions c /\
    token_type c' = ascii_bytes "access".
Proof.
  unfold refresh_access_token. intros Hr Hv Hnew Hl. rewrite Hv in Hr. cbn [rbind] in Hr. case_bool_decide; [done|].
  apply rbind_Ok in Hr as (access & Ha & Hr). apply rbind_Ok in Hr as (refresh & _ & Hr). injection Hr as <-.
  unfold token_sign in Ha. destruct (sign_with_key _ _) as [s|] eqn:Hs; [|done]. injection Ha as <-.
  apply verify_signed in Hs. eexists. rewrite verify_ok. split; [split; [exact Hs|]|].
  - simpl. done.
  - simpl. by rewrite join_split.
Qed.

(** ** Sessions with a named token *)

(** A session that is created with the identifier of a token is refused from
    the start, since its claims say that the token expired in 1970; and a token
    that is revoked through such a session is accepted again after a cleanup. *)
Theorem named_token_session now id name tid ip agent m m1 :
  create_session_full now id name (Some tid) ip agent m = (id, m1) ->
  (forall later unix rip ragent, later < now + ttl (config m) -> 0 < unix ->
     (validate_session_full later unix id rip ragent m1).1 = Err TokenExpired) /\
  forall t unix, token_manager m = Some t -> 0 <= unix ->
    exists m2 t2, revoke_session id m1 = (Ok tt, m2) /\ token_manager m2 = Some t2 /\ is_revoked tid t2 = true /\
      is_revoked tid (cleanup_revoked unix t2).2 = false.
Proof.
  unfold create_session_full. intros [= <-].
  assert (config (evict (over_limit name m) m) = config m /\ token_manager (evict (over_limit name m) m) = token_manager m) as [Hc Ht]
    by (destruct (over_limit name m); done).
  revert Hc Ht. generalize (evict (over_limit name m) m). intros m0 Hc Ht. split.
  - intros later unix rip ragent Hl Hu. unfold validate_session_full, with_session. simpl. rewrite lookup_insert_eq.
    unfold is_expired. simpl. rewrite Hc, (proj2 (Z.leb_gt _ _)) by lia. unfold is_token_expired. simpl.
    by rewrite (proj2 (Z.ltb_lt _ _)).
  - intros t unix Htm Hu. unfold revoke_session. simpl. rewrite lookup_insert_eq. unfold revoke_claims. simpl. rewrite Ht, Htm.
    eexists _, _. split; [done|]. split; [done|]. unfold is_revoked. simpl. rewrite lookup_insert_eq. split; [done|].
    apply bool_decide_eq_false. rewrite <- eq_None_not_Some. apply map_lookup_filter_None. right.
    intros e. rewrite lookup_insert_eq. intros [= <-]. simpl. lia.
Qed.
End Laws.

(** ** A run *)

#[local] Instance claims_dec : EqDecision TokenClaims.
Proof. solve_decision. Defined.

(** Tokens that are their claims, the texts ending with a semicolon. *)
Definition ex_token (c : TokenClaims) : bytes :=
  jti c ++ 59 :: sub c ++ 59 :: permissions c ++ 59 :: iat c :: exp c :: token_type c.

Fixpoint cut (s part : bytes) : bytes * bytes :=
  match s with [] => (part, []) | b :: s => if b =? 59 then (part, s) else cut s (part ++ [b]) end.

Definition ex_claims (s : bytes) : option TokenClaims :=
  let '(j, s) := cut s [] in let '(u, s) := cut s [] in let '(p, s) := cut s [] in
  match s with i :: e :: k => Some (mkClaims j u p i e k) | _ => None end.

(** Claims that could be read in another way are not signed. *)
#[local] Instance ex_jwt : Jwt := {|
  HmacKey := unit; hmac_key_of := fun _ => Some tt;
  sign_with_key := fun _ c => if decide (ex_claims (ex_token c) = Some c) then Some (ex_token c) else None;
  verify_with_key := fun _ s => ex_claims s;
|}.

#[local] Instance ex_jwt_laws : JwtLaws.
Proof. split. simpl. intros _ c t. by case_decide; [intros [= <-]|]. Qed.

Definition ex_user : bytes := ascii_bytes "anton".
Definition ex_tokens : TokenManager := mkTokens (default_token_config []) ∅ tt.
Definition ex_refresh : TokenClaims := mkClaims (ascii_bytes "r") ex_user (ascii_bytes "+@read,+get") 0 1000 (ascii_bytes "refresh").
Definition ex_ids : bytes * bytes := (ascii_bytes "a1", ascii_bytes "r1").
Definition ex_limited : SessionManager := with_token_manager (build (b_max_sessions 2 builder)) ex_tokens.

Lemma session_valid_iff_witness :
  let m := (create_session_full 0 1 ex_user None (Some [1]) None ex_limited).2 in
  (validate_session_full 5 1 1 (Some [1]) None m).1 = Ok tt /\ (validate_session_full 5 1 1 (Some [2]) None m).2 = m.
Proof.
  split; [by vm_compute|].
  destruct (validate_session_full 5 1 1 (Some [2]) None _) as [r m'] eqn:He.
  refine (proj2 (session_valid_iff _ _ _ _ _ _ _ _ He) _).
  apply (f_equal fst) in He. vm_compute in He. by subst r.
Defined.

(** Three sessions of a user who may have two: the first one goes. *)
Definition ex_ops : list SessionOp :=
  [CreateFull 1 10 ex_user None None None; CreateFull 2 20 ex_user None None None; CreateFull 3 30 ex_user None None None].

Example ex_sessions : (fun id => created_at <$> storage (run_ops ex_ops ex_limited) !! id) <$> [10; 20; 30] = [None; Some 2; Some 3].
Proof. by vm_compute. Qed.

Lemma sessions_bounded_witness :
  (count_user_sessions ex_user (run_ops ex_ops ex_limited) <= 2)%nat /\
  exists old s, storage (run_ops ex_ops ex_limited) !! old = Some s /\
    storage (create_session_full 4 40 ex_user None None None (run_ops ex_ops ex_limited)).2 =
      <[40 := new_full 4 ex_user None None None 3600000]> (delete old (storage (run_ops ex_ops ex_limited))).
Proof.
  destruct (sessions_bounded ex_user 2 ex_ops ex_limited eq_refl) as [Hn Hc]; [by vm_compute; lia|]. split; [exact Hn|].
  destruct (Hc 4 40 None None None) as (old & s & Hs & _ & _ & He); [|lia|].
  - apply Nat.leb_le. by vm_compute.
  - exists old, s. split; [exact Hs|exact He].
Defined.

Lemma create_race_witness : count_user_sessions ex_user (insert_all 0 ex_user [1; 2; 3] ex_limited) = 3%nat.
Proof.
  etransitivity; [apply (create_race 0 ex_user [1; 2; 3] ex_limited); [by vm_compute| |]|by vm_compute].
  - by repeat (constructor; [set_solver|]); constructor.
  - intros id _. apply lookup_empty.
Defined.

(** The revocation survives another one and a cleanup, and ends with the second in
    which the token expires. *)
Definition ex_revoked : TokenManager := revoke_token (jti ex_refresh) (exp ex_refresh) ex_tokens.

Lemma revoked_until_expiry_witness :
  (exists e, verify_token 900 (ex_token ex_refresh)
    (foldl (fun t o => run_token_op o t) ex_revoked [Revoke (ascii_bytes "x") 5; Revoke (jti ex_refresh) 1000; CleanupTokens 800]) = Err e) /\
  verify_token 900 (ex_token ex_refresh) (cleanup_revoked 700 (revoke_token (jti ex_refresh) 0 ex_revoked)).2 = Ok ex_refresh.
Proof.
  destruct (revoked_until_expiry (jwt := ex_jwt) tt (ex_token ex_refresh) ex_refresh 900 ex_revoked) as [H1 H2];
    [reflexivity|by vm_compute|by vm_compute|]. split; [|apply H2; by vm_compute].
  apply H1; [|by vm_compute].
  apply Forall_cons. split; [intros t _ Hx; by vm_compute in Hx|]. apply Forall_cons. split; [done|].
  apply Forall_cons. split; [intros t _; by vm_compute|]. apply Forall_nil. exact I.
Defined.

Lemma refresh_keeps_permissions_witness :
  exists pair, refresh_access_token 100 ex_ids (ex_token ex_refresh) ex_tokens = Ok pair /\
    exists c, verify_token 200 (access_token pair) ex_tokens = Ok c /\ permissions c = ascii_bytes "+@read,+get".
Proof.
  destruct (refresh_access_token 100 ex_ids (ex_token ex_refresh) ex_tokens) as [pair|e] eqn:E; [|by vm_compute in E].
  exists pair. split; [reflexivity|].
  destruct (refresh_keeps_permissions 100 ex_ids (ex_token ex_refresh) ex_tokens pair ex_refresh 200 E) as (c & Hc & _ & Hp & _);
    [by vm_compute|by vm_compute|by vm_compute|].
  exists c. split; [exact Hc|exact Hp].
Defined.

Lemma named_token_session_witness :
  let m1 := (create_session_full 0 1 ex_user (Some (ascii_bytes "t")) None None ex_limited).2 in
  (validate_session_full 10 1700000000 1 None None m1).1 = Err TokenExpired.
Proof.
  apply (proj1 (named_token_session 0 1 ex_user (ascii_bytes "t") None None ex_limited _ eq_refl)); by vm_compute.
Defined.
