(* ===== verification/Floats.v ===== *)
(** * The order of floating-point numbers

    The comparisons of [f64] on its bits: away from NaN they are those of an
    integer, the key of the number, so that they are a total order; and
    [min], [max], [sqrt], [ceil] and the other operations that the geographic
    index uses.  The trigonometric functions are those of the platform and open
    here ([Libm]). *)
From Stdlib Require SpecFloat.
From S2P Require Import Prelude ZdbValue Numbers.
Local Open Scope Z_scope.

#[global] Arguments f64_add : simpl never.
#[global] Arguments f64_sub : simpl never.
#[global] Arguments f64_mul : simpl never.
#[global] Arguments f64_div : simpl never.
#[global] Arguments f64_of_int : simpl never.

(** ** Comparisons *)

(** An integer with the order of the number; both zeros have the same. *)
Definition f64_key (f : f64) : Z := if Z.testbit (f64_bits f) 63 then - f64_magnitude f else f64_magnitude f.

Definition f64_le (a b : f64) : bool := negb (is_nan a) && negb (is_nan b) && (f64_key a <=? f64_key b).
Definition f64_lt (a b : f64) : bool := negb (is_nan a) && negb (is_nan b) && (f64_key a <? f64_key b).

(** [partial_cmp] *)
Definition f64_partial_cmp (a b : f64) : option comparison :=
  if is_nan a || is_nan b then None else Some (f64_key a ?= f64_key b).

(** [f64::min] and [f64::max]: a NaN is ignored.  Which of two equal numbers (two
    zeros) comes out is not specified. *)
Definition f64_min (a b : f64) : f64 := if is_nan a then b else if is_nan b then a else if f64_le a b then a else b.
Definition f64_max (a b : f64) : f64 := if is_nan a then b else if is_nan b then a else if f64_le a b then b else a.

(** [clamp] *)
Definition f64_clamp (lo hi f : f64) : f64 := let f := if f64_lt f lo then lo else f in if f64_lt hi f then hi else f.

(** ** Operations *)

Definition f64_abs (f : f64) : f64 := mkF64 (f64_magnitude f).
Definition f64_sqrt (f : f64) : f64 := of_spec (SpecFloat.SFsqrt 53 1024 (spec_of f)).
(** [powi(2)] *)
Definition f64_square (f : f64) : f64 := f64_mul f f.

(** [ceil() as usize]: saturating, and 0 for NaN. *)
Definition f64_ceil_usize (f : f64) : Z :=
  match spec_of f with
  | SpecFloat.S754_finite false m e =>
      Z.min (2 ^ 64 - 1) (if 0 <=? e then Z.shiftl (Z.pos m) e else - ((- Z.pos m) / 2 ^ (- e)))
  | SpecFloat.S754_infinity false => 2 ^ 64 - 1
  | _ => 0
  end.

(** The functions that Rust takes from the platform. *)
Class Libm := {
  f64_sin : f64 -> f64; f64_cos : f64 -> f64; f64_tan : f64 -> f64;
  f64_acos : f64 -> f64; f64_atan : f64 -> f64; f64_atan2 : f64 -> f64 -> f64;
}.

(** Decimal literals of the source, correctly rounded: [n / d]. *)
Definition f64_lit (n d : Z) : f64 := f64_div (f64_of_int n) (f64_of_int d).

#[global] Arguments f64_lt : simpl never.
#[global] Arguments f64_le : simpl never.
#[global] Arguments f64_sqrt : simpl never.

(** ** The order *)

Lemma f64_le_spec a b : f64_le a b = true <-> is_nan a = false /\ is_nan b = false /\ f64_key a <= f64_key b.
Proof. unfold f64_le. rewrite !andb_true_iff, !negb_true_iff, Z.leb_le. tauto. Qed.

Lemma f64_lt_spec a b : f64_lt a b = true <-> is_nan a = false /\ is_nan b = false /\ f64_key a < f64_key b.
Proof. unfold f64_lt. rewrite !andb_true_iff, !negb_true_iff, Z.ltb_lt. tauto. Qed.

Lemma f64_le_refl a : is_nan a = false -> f64_le a a = true.
Proof. intros H. apply f64_le_spec. split_and!; [done|done|lia]. Qed.

Lemma f64_le_trans a b c : f64_le a b = true -> f64_le b c = true -> f64_le a c = true.
Proof. rewrite !f64_le_spec. intros (? & ? & ?) (? & ? & ?). split_and!; [done|done|lia]. Qed.

Lemma f64_le_total a b : is_nan a = false -> is_nan b = false -> f64_le a b = true \/ f64_le b a = true.
Proof. intros Ha Hb. rewrite !f64_le_spec, Ha, Hb. destruct (Z.le_ge_cases (f64_key a) (f64_key b)); auto. Qed.

Lemma f64_min_le a b : is_nan a = false -> is_nan b = false -> f64_le (f64_min a b) a = true /\ f64_le (f64_min a b) b = true.
Proof.
  intros Ha Hb. unfold f64_min. rewrite Ha, Hb. destruct (f64_le a b) eqn:E; (split; [|]); auto using f64_le_refl.
  destruct (f64_le_total a b Ha Hb); [congruence|done].
Qed.

Lemma f64_max_le a b : is_nan a = false -> is_nan b = false -> f64_le a (f64_max a b) = true /\ f64_le b (f64_max a b) = true.
Proof.
  intros Ha Hb. unfold f64_max. rewrite Ha, Hb. destruct (f64_le a b) eqn:E; (split; [|]); auto using f64_le_refl.
  destruct (f64_le_total a b Ha Hb); [congruence|done].
Qed.

Lemma f64_le_nan_l a b : f64_le a b = true -> is_nan a = false.
Proof. by intros (? & _)%f64_le_spec. Qed.

Lemma f64_le_nan_r a b : f64_le a b = true -> is_nan b = false.
Proof. by intros (_ & ? & _)%f64_le_spec. Qed.

(** ** The comparison of the standard library *)

(** A number away from NaN and infinity as its mantissa and exponent. *)
Lemma f64_parts f : exists e m, 0 <= e < 2 ^ 11 /\ 0 <= m < 2 ^ 52 /\
  f64_magnitude f = e * 2 ^ 52 + m /\
  spec_of f = (if e =? 0x7FF then if m =? 0 then SpecFloat.S754_infinity (Z.testbit (f64_bits f) 63) else SpecFloat.S754_nan
    else if e =? 0 then if m =? 0 then SpecFloat.S754_zero (Z.testbit (f64_bits f) 63)
                        else SpecFloat.S754_finite (Z.testbit (f64_bits f) 63) (Z.to_pos m) (-1074)
    else SpecFloat.S754_finite (Z.testbit (f64_bits f) 63) (Z.to_pos (m + 2 ^ 52)) (e - 1075)).
Proof.
  exists (Z.land (Z.shiftr (f64_bits f) 52) 0x7FF), (Z.land (f64_bits f) (Z.ones 52)).
  change 0x7FF with (Z.ones 11) at 1 2 3. split_and!.
  all: try (rewrite ?Z.land_ones by lia; apply Z.mod_pos_bound; lia).
  - unfold f64_magnitude. rewrite !Z.land_ones by lia. rewrite Z.shiftr_div_pow2 by lia.
    pose proof (Z.rem_mul_r (f64_bits f) (2 ^ 52) (2 ^ 11) ltac:(lia) ltac:(lia)) as H.
    change (2 ^ 52 * 2 ^ 11) with (2 ^ 63) in H. lia.
  - done.
Qed.


(** Mantissas and exponents compare as the bits that hold them. *)
Lemma parts_compare e1 m1 e2 m2 : 0 <= e1 -> 0 <= m1 < 2 ^ 52 -> 0 <= e2 -> 0 <= m2 < 2 ^ 52 ->
  (e1 <> 0 \/ m1 <> 0) -> (e2 <> 0 \/ m2 <> 0) ->
  match (if e1 =? 0 then -1074 else e1 - 1075) ?= (if e2 =? 0 then -1074 else e2 - 1075) with
  | Lt => Lt
  | Gt => Gt
  | Eq => Pos.compare_cont Eq (Z.to_pos (if e1 =? 0 then m1 else m1 + 2 ^ 52)) (Z.to_pos (if e2 =? 0 then m2 else m2 + 2 ^ 52))
  end = (e1 * 2 ^ 52 + m1 ?= e2 * 2 ^ 52 + m2).
Proof.
  intros H1 H2 H3 H4 H5 H6.
  assert (forall p q, 0 < p -> 0 < q -> Pos.compare_cont Eq (Z.to_pos p) (Z.to_pos q) = (p ?= q)) as Hc.
  { intros p q Hp Hq. rewrite <- (Z2Pos.id p) at 2 by done. by rewrite <- (Z2Pos.id q) at 2 by done. }
  rewrite Hc by (destruct (_ =? _) eqn:?; lia). clear Hc.
  destruct (Z.eqb_spec e1 0) as [->|N1], (Z.eqb_spec e2 0) as [->|N2].
  - rewrite Z.compare_refl. by rewrite !Z.mul_0_l, !Z.add_0_l.
  - rewrite (proj2 (Z.compare_lt_iff (0 * 2 ^ 52 + m1) (e2 * 2 ^ 52 + m2))) by lia.
    destruct (Z.compare_spec (-1074) (e2 - 1075)); [by apply Z.compare_lt_iff; lia|done|lia].
  - rewrite (proj2 (Z.compare_gt_iff (e1 * 2 ^ 52 + m1) (0 * 2 ^ 52 + m2))) by lia.
    destruct (Z.compare_spec (e1 - 1075) (-1074)); [by apply Z.compare_gt_iff; lia|lia|done].
  - destruct (Z.compare_spec (e1 - 1075) (e2 - 1075)) as [E|L|G].
    + assert (e1 = e2) as -> by lia. destruct (Z.compare_spec (m1 + 2 ^ 52) (m2 + 2 ^ 52)); symmetry;
        [apply Z.compare_eq_iff|apply Z.compare_lt_iff|apply Z.compare_gt_iff]; lia.
    + symmetry. apply Z.compare_lt_iff. lia.
    + symmetry. apply Z.compare_gt_iff. lia.
Qed.

(** The number that the bits are, with what is known of its magnitude. *)
Inductive spec_class (f : f64) : SpecFloat.spec_float -> Prop :=
| class_nan : f64_infinity < f64_magnitude f -> spec_class f SpecFloat.S754_nan
| class_infinity : f64_magnitude f = f64_infinity -> spec_class f (SpecFloat.S754_infinity (Z.testbit (f64_bits f) 63))
| class_zero : f64_magnitude f = 0 -> spec_class f (SpecFloat.S754_zero (Z.testbit (f64_bits f) 63))
| class_finite e m : 0 <= e -> 0 <= m < 2 ^ 52 -> e <> 0 \/ m <> 0 -> f64_magnitude f = e * 2 ^ 52 + m ->
    f64_magnitude f < f64_infinity ->
    spec_class f (SpecFloat.S754_finite (Z.testbit (f64_bits f) 63) (Z.to_pos (if e =? 0 then m else m + 2 ^ 52))
                    (if e =? 0 then -1074 else e - 1075)).

Lemma spec_of_class f : spec_class f (spec_of f).
Proof.
  destruct (f64_parts f) as (e & m & He & Hm & Hf & ->). change 2047 with 0x7FF.
  assert (f64_infinity = 2047 * 2 ^ 52) as Hi by done.
  destruct (Z.eqb_spec e 2047) as [->|Hne].
  - destruct (Z.eqb_spec m 0) as [->|Hm0]; [apply class_infinity|apply class_nan]; lia.
  - destruct (Z.eqb_spec e 0) as [->|He0].
    + destruct (Z.eqb_spec m 0) as [->|Hm0]; [apply class_zero; lia|].
      apply (class_finite f 0 m); lia.
    + pose proof (class_finite f e m) as H. rewrite (proj2 (Z.eqb_neq e 0) He0) in H. apply H; lia.
Qed.

(** [<] on the bits is [<] on the numbers. *)
Lemma f64_ltb_key a b : f64_ltb a b = f64_lt a b.
Proof.
  unfold f64_ltb, SpecFloat.SFltb, f64_lt, is_nan, f64_key.
  assert (f64_infinity = 2047 * 2 ^ 52) as Hi by done.
  destruct (spec_of_class a) as [Ha|Ha|Ha|e1 m1 P1 Q1 R1 Ha L1], (spec_of_class b) as [Hb|Hb|Hb|e2 m2 P2 Q2 R2 Hb L2];
    cbn [SpecFloat.SFcompare].
  1-15: repeat match goal with |- context [Z.testbit ?x ?y] => destruct (Z.testbit x y) end;
    repeat match goal with |- context [?x <? ?y] => destruct (Z.ltb_spec x y) end; (reflexivity || lia).
  rewrite (proj2 (Z.ltb_ge _ (f64_magnitude a))), (proj2 (Z.ltb_ge _ (f64_magnitude b))) by lia.
  pose proof (parts_compare e1 m1 e2 m2 P1 Q1 P2 Q2 R1 R2) as Hc. rewrite <- Ha, <- Hb in Hc.
  assert (0 <= f64_magnitude a /\ 0 <= f64_magnitude b) as [Ma Mb] by lia.
  assert (0 < f64_magnitude a /\ 0 < f64_magnitude b) as [Ma' Mb'] by lia.
  clear P1 Q1 R1 Ha L1 P2 Q2 R2 Hb L2 Hi.
  revert Hc. generalize (Pos.compare_cont Eq (Z.to_pos (if e1 =? 0 then m1 else m1 + 2 ^ 52)) (Z.to_pos (if e2 =? 0 then m2 else m2 + 2 ^ 52))).
  intros c Hc.
  destruct (Z.testbit (f64_bits a) 63), (Z.testbit (f64_bits b) 63); cbn [negb andb];
    destruct ((if e1 =? 0 then -1074 else e1 - 1075) ?= (if e2 =? 0 then -1074 else e2 - 1075)), c; cbn [CompOpp];
    symmetry in Hc;
    (rewrite Z.compare_eq_iff in Hc || rewrite Z.compare_lt_iff in Hc || rewrite Z.compare_gt_iff in Hc);
    match goal with |- context [?x <? ?y] => destruct (Z.ltb_spec x y) end; (reflexivity || lia).
Qed.

(** ** Results that are numbers

    What [of_spec] encodes without running into the bits of the infinities and
    of NaN; rounding never leaves it. *)
Definition encodable (x : SpecFloat.spec_float) : Prop :=
  match x with
  | SpecFloat.S754_nan => False
  | SpecFloat.S754_finite _ m e => Z.pos m < 2 ^ 53 /\ -1074 <= e <= 971
  | _ => True
  end.

Lemma encodable_number x : encodable x -> is_nan (of_spec x) = false.
Proof.
  unfold is_nan, f64_magnitude. rewrite Z.land_ones, Z.ltb_ge by lia. assert (f64_infinity = 2047 * 2 ^ 52) as Hi by done.
  assert (forall (s : bool) n, 0 <= n < 2 ^ 63 -> ((if s then 2 ^ 63 else 0) + n) mod 2 ^ 63 = n) as Hs.
  { intros s n Hn. destruct s; [|by apply Z.mod_small]. rewrite <- (Z.mul_1_l (2 ^ 63)) at 1.
    rewrite Z.add_comm, Z.mod_add by lia. by apply Z.mod_small. }
  destruct x as [s|s| |s m e]; cbn [of_spec f64_bits encodable]; [|intros _|done|intros [Hm He]].
  - intros _. rewrite <- (Z.add_0_r (if s then _ else _)). rewrite Hs by lia. lia.
  - rewrite Hs; lia.
  - destruct (Z.ltb_spec (Z.pos m) (2 ^ 52)); [rewrite Hs; lia|].
    rewrite Z.shiftl_mul_pow2, <- Z.add_assoc, Hs by lia. lia.
Qed.

Lemma number_encodable f : is_nan f = false -> encodable (spec_of f).
Proof.
  unfold is_nan. rewrite Z.ltb_ge. assert (f64_infinity = 2047 * 2 ^ 52) as Hi by done. intros H.
  destruct (spec_of_class f) as [Hf|Hf|Hf|e m He Hm Hne Hf Hlt]; [lia|done|done|]. cbn [encodable].
  destruct (Z.eqb_spec e 0) as [->|He0]; [rewrite Z2Pos.id by lia; lia|rewrite Z2Pos.id by lia; lia].
Qed.

(** *** Rounding *)

Lemma digits_bound p : Z.pos p < 2 ^ Z.pos (SpecFloat.digits2_pos p).
Proof.
  induction p as [p IH|p IH|]; cbn [SpecFloat.digits2_pos]; rewrite ?Pos2Z.inj_succ, ?Z.pow_succ_r by lia; lia.
Qed.

Lemma shr_1_div r : 0 <= SpecFloat.shr_m r -> SpecFloat.shr_m (SpecFloat.shr_1 r) = SpecFloat.shr_m r / 2.
Proof.
  destruct r as [[|[p|p|]|p] a b]; cbn [SpecFloat.shr_m SpecFloat.shr_1]; intros H; try done.
  - rewrite Pos2Z.inj_xI. apply Z.div_unique with 1; lia.
  - rewrite Pos2Z.inj_xO. apply Z.div_unique with 0; lia.
Qed.

Lemma shr_iter_div n r : 0 <= SpecFloat.shr_m r ->
  SpecFloat.shr_m (SpecFloat.iter_pos SpecFloat.shr_1 n r) = SpecFloat.shr_m r / 2 ^ Z.pos n.
Proof.
  revert r. induction n as [n IH|n IH|]; intros r H; cbn [SpecFloat.iter_pos].
  - pose proof (shr_1_div r H) as H1. assert (0 <= SpecFloat.shr_m r / 2) by (apply Z.div_pos; lia).
    assert (0 <= SpecFloat.shr_m r / 2 / 2 ^ Z.pos n) by (apply Z.div_pos; lia).
    rewrite IH, IH, H1 by (rewrite ?IH, H1; lia). rewrite !Z.div_div by lia. f_equal.
    replace (Z.pos n~1) with (1 + Z.pos n + Z.pos n) by lia. rewrite !Z.pow_add_r by lia. lia.
  - assert (0 <= SpecFloat.shr_m r / 2 ^ Z.pos n) by (apply Z.div_pos; lia).
    rewrite IH, IH by (rewrite ?IH; lia). rewrite Z.div_div by lia. f_equal.
    replace (Z.pos n~0) with (Z.pos n + Z.pos n) by lia. by rewrite Z.pow_add_r.
  - by apply shr_1_div.
Qed.

(** An alignment leaves 53 digits at an exponent that is not too small. *)
Lemma shr_fexp_bound m e r e' : 0 <= m -> SpecFloat.shr_fexp 53 1024 m e SpecFloat.loc_Exact = (r, e') ->
  0 <= SpecFloat.shr_m r < 2 ^ 53 /\ -1074 <= e'.
Proof.
  intros Hm. unfold SpecFloat.shr_fexp, SpecFloat.fexp, SpecFloat.emin. cbn [SpecFloat.shr_record_of_loc].
  assert (m < 2 ^ SpecFloat.Zdigits2 m /\ 0 <= SpecFloat.Zdigits2 m) as [Hd H0].
  { destruct m as [|p|p]; [done| |lia]. split; [apply digits_bound|done]. }
  set (d := SpecFloat.Zdigits2 m) in *.
  assert (forall k, 0 <= k -> d <= k + 53 -> 0 <= m / 2 ^ k < 2 ^ 53) as Hk.
  { intros k Hk Hdk. split; [apply Z.div_pos; lia|]. apply Z.div_lt_upper_bound; [lia|].
    rewrite <- Z.pow_add_r by lia. eapply Z.lt_le_trans; [exact Hd|]. apply Z.pow_le_mono_r; lia. }
  destruct (Z.max (d + e - 53) (3 - 1024 - 53) - e) as [|n|n] eqn:Hn; cbn [SpecFloat.shr]; intros [= <- <-].
  - specialize (Hk 0). rewrite Z.pow_0_r, Z.div_1_r in Hk. cbn [SpecFloat.shr_m]. lia.
  - rewrite shr_iter_div by done. cbn [SpecFloat.shr_m]. split; [apply Hk|]; lia.
  - specialize (Hk 0). rewrite Z.pow_0_r, Z.div_1_r in Hk. cbn [SpecFloat.shr_m]. lia.
Qed.

Lemma round_nonneg m l : 0 <= m -> 0 <= SpecFloat.round_nearest_even m l.
Proof. destruct l as [|[]]; cbn; [done| |done|lia]. destruct (Z.even m); lia. Qed.

Lemma round_encodable s m e : encodable (SpecFloat.binary_round_aux 53 1024 s (Z.pos m) e SpecFloat.loc_Exact).
Proof.
  unfold SpecFloat.binary_round_aux. destruct (SpecFloat.shr_fexp 53 1024 (Z.pos m) e _) as [r e1] eqn:H1.
  apply shr_fexp_bound in H1 as [Hr _]; [|done].
  destruct (SpecFloat.shr_fexp 53 1024 (SpecFloat.round_nearest_even _ _) e1 _) as [r2 e2] eqn:H2.
  apply shr_fexp_bound in H2 as [Hr2 He2]; [|apply round_nonneg; lia].
  destruct (SpecFloat.shr_m r2) as [|p|p]; [done| |lia]. destruct (Z.leb_spec e2 (1024 - 53)); [|done].
  cbn [encodable]. lia.
Qed.

Lemma normalize_encodable m e s : encodable (SpecFloat.binary_normalize 53 1024 m e s).
Proof.
  destruct m as [|m|m]; cbn [SpecFloat.binary_normalize]; [done| |]; unfold SpecFloat.binary_round;
    destruct (SpecFloat.shl_align _ _ _); apply round_encodable.
Qed.

(** Two numbers that are not opposite infinities. *)
Definition summable (a b : f64) : Prop :=
  is_nan a = false /\ is_nan b = false /\
  forall s, ~ (spec_of a = SpecFloat.S754_infinity s /\ spec_of b = SpecFloat.S754_infinity (negb s)).

Lemma add_number a b : summable a b -> is_nan (f64_add a b) = false.
Proof.
  intros (Ha%number_encodable & Hb%number_encodable & Hi). unfold f64_add. apply encodable_number.
  destruct (spec_of a) as [s|s| |s m e], (spec_of b) as [t|t| |t k x]; try done; cbn [SpecFloat.SFadd].
  - by destruct s, t.
  - destruct s, t; try done; exfalso; by eapply Hi.
  - apply normalize_encodable.
Qed.

Lemma spec_of_infinity s : spec_of (of_spec (SpecFloat.S754_infinity s)) = SpecFloat.S754_infinity s.
Proof. by destruct s; vm_compute. Qed.
