(* ===== verification/Geography.v ===== *)
(** * Points, boxes and distances

    Models the points of [src/src/database/geo/geo_base.rs], the boxes of
    [src/src/database/geo/geo_rtree.rs] and the distances of
    [src/src/database/geo/geo_distance.rs]; sine and the like are the class
    [Libm]. *)
From S2P Require Import Prelude ZdbValue Numbers Floats.
Local Open Scope Z_scope.

Declare Scope f64_scope.
Delimit Scope f64_scope with f64.
Infix "+" := f64_add : f64_scope.
Infix "-" := f64_sub : f64_scope.
Infix "*" := f64_mul : f64_scope.
Infix "/" := f64_div : f64_scope.
Infix "<" := f64_lt : f64_scope.
Infix "<=" := f64_le : f64_scope.

(** An integer literal. *)
Abbreviation num := f64_of_int.
Definition HALF : f64 := f64_lit 1 2.
Definition PI : f64 := mkF64 0x400921FB54442D18.

(** ** Points and boxes *)

Record GeoPoint : Type := mkPoint { lon : f64; lat : f64 }.

Record BoundingBox : Type := mkBox { min_lon : f64; max_lon : f64; min_lat : f64; max_lat : f64 }.
Implicit Types (p : GeoPoint) (b : BoundingBox).

Definition from_point p : BoundingBox := mkBox (lon p) (lon p) (lat p) (lat p).

Definition expand b (other : BoundingBox) : BoundingBox :=
  mkBox (f64_min (min_lon b) (min_lon other)) (f64_max (max_lon b) (max_lon other))
    (f64_min (min_lat b) (min_lat other)) (f64_max (max_lat b) (max_lat other)).

Definition area b : f64 := ((max_lon b - min_lon b) * (max_lat b - min_lat b))%f64.

Definition intersects b (other : BoundingBox) : bool :=
  (min_lon b <= max_lon other)%f64 && (min_lon other <= max_lon b)%f64 &&
  (min_lat b <= max_lat other)%f64 && (min_lat other <= max_lat b)%f64.

Definition contains_point b p : bool :=
  (min_lon b <= lon p)%f64 && (lon p <= max_lon b)%f64 && (min_lat b <= lat p)%f64 && (lat p <= max_lat b)%f64.

(** How far a coordinate is outside an interval. *)
Definition outside (v lo hi : f64) : f64 :=
  if (v < lo)%f64 then (lo - v)%f64 else if (hi < v)%f64 then (v - hi)%f64 else f64_zero.

Definition min_distance_to_point b p : f64 :=
  let dx := outside (lon p) (min_lon b) (max_lon b) in
  let dy := outside (lat p) (min_lat b) (max_lat b) in
  f64_sqrt (dx * dx + dy * dy)%f64.

Definition center b : GeoPoint :=
  mkPoint ((min_lon b + max_lon b) * HALF)%f64 ((min_lat b + max_lat b) * HALF)%f64.

(** ** Units and methods *)

Inductive DistanceUnit : Type := Meters | Kilometers | Miles | Feet | NauticalMiles.
Inductive DistanceMethod : Type := Haversine | Vincenty | GreatCircle | Manhattan | Euclidean.

Definition METERS_PER_DEGREE_LAT : f64 := num 111000.

Definition convert_from_meters (u : DistanceUnit) (meters : f64) : f64 :=
  match u with
  | Meters => meters
  | Kilometers => meters / num 1000
  | Miles => meters / f64_lit 1609344 1000
  | Feet => meters * f64_lit 328084 100000
  | NauticalMiles => meters / num 1852
  end%f64.

Definition convert_to_meters (u : DistanceUnit) (value : f64) : f64 :=
  match u with
  | Meters => value
  | Kilometers => value * num 1000
  | Miles => value * f64_lit 1609344 1000
  | Feet => value / f64_lit 328084 100000
  | NauticalMiles => value * num 1852
  end%f64.

Definition unit_name (u : DistanceUnit) : bytes :=
  ascii_bytes match u with Meters => "m" | Kilometers => "km" | Miles => "mi" | Feet => "ft" | NauticalMiles => "nmi" end.

Record Ellipsoid : Type := mkEllipsoid { axis_a : f64; axis_b : f64 }.
Definition flattening (e : Ellipsoid) : f64 := ((axis_a e - axis_b e) / axis_a e)%f64.
Definition e2 (e : Ellipsoid) : f64 := (num 1 - (axis_b e * axis_b e) / (axis_a e * axis_a e))%f64.
Definition WGS84 : Ellipsoid := mkEllipsoid (num 6378137) (f64_lit 6356752314245 1000000).
Definition GRS80 : Ellipsoid := mkEllipsoid (num 6378137) (f64_lit 6356752314140 1000000).
Definition SPHERE : Ellipsoid := mkEllipsoid (num 6371000) (num 6371000).

(** The count of iterations is 0 for Vincenty's formula and the bounds are those
    of the source. *)
Record DistanceResult : Type := mkDistance {
  distance_m : f64; method : DistanceMethod; iterations : option Z; error_bound_m : option f64;
}.

Section Distances.
Context {libm : Libm}.

Definition to_rad : f64 := (PI / num 180)%f64.

Definition haversine_distance_sphere p1 p2 (e : Ellipsoid) : f64 :=
  let r := axis_a e in
  let dlat := ((lat p2 - lat p1) * to_rad)%f64 in
  let dlon := ((lon p2 - lon p1) * to_rad)%f64 in
  let lat1 := (lat p1 * to_rad)%f64 in
  let lat2 := (lat p2 * to_rad)%f64 in
  let a := (f64_square (f64_sin (dlat * HALF)) + f64_cos lat1 * f64_cos lat2 * f64_square (f64_sin (dlon * HALF)))%f64 in
  let c := (num 2 * f64_atan2 (f64_sqrt a) (f64_sqrt (num 1 - a)))%f64 in
  (r * c)%f64.

Definition haversine_dist p1 p2 : f64 := haversine_distance_sphere p1 p2 SPHERE.

(** The angle at the centre of a sphere. *)
Definition central_angle p1 p2 : f64 :=
  let lat1 := (lat p1 * to_rad)%f64 in
  let lat2 := (lat p2 * to_rad)%f64 in
  let dlon := ((lon p2 - lon p1) * to_rad)%f64 in
  f64_acos (f64_clamp (num (-1)) (num 1) (f64_sin lat1 * f64_sin lat2 + f64_cos lat1 * f64_cos lat2 * f64_cos dlon)%f64).

(** What an iteration of Vincenty's formula leaves. *)
Record VincentyState : Type := mkVincenty {
  sin_sigma : f64; cos_sigma : f64; sigma : f64; sin_alpha : f64; cos_sq_alpha : f64; cos_2sigma_m : f64;
}.

Inductive VincentyEnd : Type := Coincident | Converged (s : VincentyState) | NoConvergence.

(** At most [fuel] iterations, 100 in the code. *)
Fixpoint vincenty_loop (fuel : nat) (f l sin_u1 cos_u1 sin_u2 cos_u2 lambda : f64) : VincentyEnd :=
  match fuel with
  | O => NoConvergence
  | S fuel =>
      let sin_lambda := f64_sin lambda in
      let cos_lambda := f64_cos lambda in
      let sin_sq_sigma := (f64_square (cos_u2 * sin_lambda) + f64_square (cos_u1 * sin_u2 - sin_u1 * cos_u2 * cos_lambda))%f64 in
      if (f64_abs sin_sq_sigma < mkF64 0x3AF357C299A88EA7)%f64 then Coincident
      else
        let ss := f64_sqrt sin_sq_sigma in
        let cs := (sin_u1 * sin_u2 + cos_u1 * cos_u2 * cos_lambda)%f64 in
        let sg := f64_atan2 ss cs in
        let sa := (cos_u1 * cos_u2 * sin_lambda / ss)%f64 in
        let csa := (num 1 - sa * sa)%f64 in
        let c2m := if f64_eq csa f64_zero then f64_zero else (cs - num 2 * sin_u1 * sin_u2 / csa)%f64 in
        let c := (f / num 16 * csa * (num 4 + f * (num 4 - num 3 * csa)))%f64 in
        let lambda' :=
          (l + (num 1 - c) * f * sa * (sg + c * ss * (c2m + c * cs * (num (-1) + num 2 * f64_square c2m))))%f64 in
        if (f64_abs (lambda' - lambda) < f64_lit 1 (10 ^ 12))%f64 then Converged (mkVincenty ss cs sg sa csa c2m)
        else vincenty_loop fuel f l sin_u1 cos_u1 sin_u2 cos_u2 lambda'
  end.

Definition vincenty_length (e : Ellipsoid) (v : VincentyState) : f64 :=
  let a := axis_a e in
  let b := axis_b e in
  let u_sq := (cos_sq_alpha v * (a * a - b * b) / (b * b))%f64 in
  let big_a := (num 1 + u_sq / num 16384 * (num 4096 + u_sq * (num (-768) + u_sq * (num 320 - num 175 * u_sq))))%f64 in
  let big_b := (u_sq / num 1024 * (num 256 + u_sq * (num (-128) + u_sq * (num 74 - num 47 * u_sq))))%f64 in
  let delta_sigma :=
    (big_b * sin_sigma v * (cos_2sigma_m v + big_b / num 4 *
      (cos_sigma v * (num (-1) + num 2 * f64_square (cos_2sigma_m v)) -
       big_b / num 6 * cos_2sigma_m v * (num (-3) + num 4 * f64_square (sin_sigma v)) * (num (-3) + num 4 * f64_square (cos_2sigma_m v)))))%f64 in
  (b * big_a * (sigma v - delta_sigma))%f64.

Definition vincenty_distance_ellipsoid p1 p2 (e : Ellipsoid) : option f64 :=
  let f := flattening e in
  if (f64_abs (axis_a e - axis_b e) < f64_lit 1 (10 ^ 9))%f64 then Some (axis_a e * central_angle p1 p2)%f64
  else
    let l := (lon p2 * to_rad - lon p1 * to_rad)%f64 in
    let u1 := f64_atan ((num 1 - f) * f64_tan (lat p1 * to_rad))%f64 in
    let u2 := f64_atan ((num 1 - f) * f64_tan (lat p2 * to_rad))%f64 in
    match vincenty_loop 100 f l (f64_sin u1) (f64_cos u1) (f64_sin u2) (f64_cos u2) l with
    | Coincident => Some f64_zero
    | Converged v => Some (vincenty_length e v)
    | NoConvergence => None
    end.

Definition vincenty_distance p1 p2 : option f64 := vincenty_distance_ellipsoid p1 p2 WGS84.

Definition great_circle_distance p1 p2 : f64 := (axis_a SPHERE * central_angle p1 p2)%f64.

Definition to_radians (f : f64) : f64 := (f * (PI / num 180))%f64.

Definition manhattan_distance p1 p2 : f64 :=
  let lat_avg := ((lat p1 + lat p2) * HALF)%f64 in
  let lat_diff := (f64_abs (lat p2 - lat p1) * METERS_PER_DEGREE_LAT)%f64 in
  let lon_diff := (f64_abs (lon p2 - lon p1) * METERS_PER_DEGREE_LAT * f64_abs (f64_cos (to_radians lat_avg)))%f64 in
  (lat_diff + lon_diff)%f64.

Definition euclidean_distance p1 p2 : f64 :=
  let lat_avg := ((lat p1 + lat p2) * HALF)%f64 in
  let dx := ((lon p2 - lon p1) * METERS_PER_DEGREE_LAT * f64_cos (to_radians lat_avg))%f64 in
  let dy := ((lat p2 - lat p1) * METERS_PER_DEGREE_LAT)%f64 in
  f64_sqrt (dx * dx + dy * dy)%f64.

Definition calculate_distance p1 p2 (m : DistanceMethod) : DistanceResult :=
  let '(d, i, e) :=
    match m with
    | Haversine => (haversine_dist p1 p2, None, Some (num 3000))
    | Vincenty =>
        match vincenty_distance p1 p2 with
        | Some d => (d, Some 0, Some (f64_lit 5 10000))
        | None => (haversine_dist p1 p2, None, Some (num 3000))
        end
    | GreatCircle => (great_circle_distance p1 p2, None, Some (num 3000))
    | Manhattan => (manhattan_distance p1 p2, None, Some (num 10000))
    | Euclidean => (euclidean_distance p1 p2, None, Some (num 50000))
    end in
  mkDistance d m i e.

Definition calculate_distance_in p1 p2 (m : DistanceMethod) (u : DistanceUnit) : f64 :=
  convert_from_meters u (distance_m (calculate_distance p1 p2 m)).
End Distances.

Definition estimate_max_error (m : DistanceMethod) (d : f64) : f64 :=
  match m with
  | Haversine | GreatCircle => (d * f64_lit 5 1000)%f64
  | Vincenty => f64_lit 5 10000
  | Manhattan => (d * f64_lit 3 10)%f64
  | Euclidean => (f64_square (d / num 1000) * num 100)%f64
  end.

Definition recommend_method (d accuracy : f64) : DistanceMethod :=
  if (accuracy < f64_lit 1 1000)%f64 then Vincenty
  else if ((d < num 100)%f64 && (num 10 < accuracy)%f64) then Euclidean
  else if (d * f64_lit 1 10 < accuracy)%f64 then Manhattan
  else Haversine.

Example ex_units : convert_from_meters Kilometers (num 1500) = f64_lit 15 10 /\ convert_to_meters NauticalMiles (num 2) = num 3704.
Proof. by vm_compute. Qed.

(** ** Boxes and the points in them *)

(** The coordinates are numbers. *)
Definition proper p : Prop := is_nan (lon p) = false /\ is_nan (lat p) = false.
Definition proper_box b : Prop :=
  is_nan (min_lon b) = false /\ is_nan (max_lon b) = false /\ is_nan (min_lat b) = false /\ is_nan (max_lat b) = false.

Lemma contains_spec b p :
  contains_point b p = true <->
  (min_lon b <= lon p)%f64 = true /\ (lon p <= max_lon b)%f64 = true /\ (min_lat b <= lat p)%f64 = true /\ (lat p <= max_lat b)%f64 = true.
Proof. unfold contains_point. rewrite !andb_true_iff. tauto. Qed.

Lemma contains_from_point p : proper p -> contains_point (from_point p) p = true.
Proof. intros [H1 H2]. apply contains_spec. simpl. auto using f64_le_refl. Qed.

Lemma proper_from_point p : proper p -> proper_box (from_point p).
Proof. intros [H1 H2]. by repeat split. Qed.

Lemma min_proper a c : is_nan a = false -> is_nan c = false -> is_nan (f64_min a c) = false.
Proof. intros Ha Hc. apply (f64_le_nan_l _ a). by apply f64_min_le. Qed.

Lemma max_proper a c : is_nan a = false -> is_nan c = false -> is_nan (f64_max a c) = false.
Proof. intros Ha Hc. apply (f64_le_nan_r a). by apply f64_max_le. Qed.

Lemma proper_expand b c : proper_box b -> proper_box c -> proper_box (expand b c).
Proof. intros (? & ? & ? & ?) (? & ? & ? & ?). split_and!; simpl; auto using min_proper, max_proper. Qed.

(** What one of the boxes contains the joined one does. *)
Lemma contains_expand b c p :
  proper_box b -> proper_box c -> contains_point b p = true \/ contains_point c p = true -> contains_point (expand b c) p = true.
Proof.
  intros (B1 & B2 & B3 & B4) (C1 & C2 & C3 & C4) H. apply contains_spec. simpl.
  destruct (f64_min_le _ _ B1 C1), (f64_max_le _ _ B2 C2), (f64_min_le _ _ B3 C3), (f64_max_le _ _ B4 C4).
  destruct H as [(? & ? & ? & ?)%contains_spec|(? & ? & ? & ?)%contains_spec]; split_and!; eauto using f64_le_trans.
Qed.

(** A box and a query that contain the same point meet. *)
Lemma contains_intersects b q p : contains_point b p = true -> contains_point q p = true -> intersects b q = true.
Proof.
  intros (? & ? & ? & ?)%contains_spec (? & ? & ? & ?)%contains_spec. unfold intersects.
  rewrite !andb_true_iff. split_and!; eauto using f64_le_trans.
Qed.
