(* ===== verification/Geohash.v ===== *)
(** * Geohashes

    Models [src/src/database/geo/geo_hash.rs]: the cells of the world as strings of
    base 32, their boxes, neighbours, prefixes and the ranges that cover a box. *)
From S2P Require Import Prelude ZdbValue Numbers Floats Geography.
Local Open Scope Z_scope.

Definition BASE32 : bytes := ascii_bytes "0123456789bcdefghjkmnpqrstuvwxyz".

(** [BASE32_REV[c]]: the index of a character, also in upper case; [None] is the
    panic outside the table. *)
Fixpoint base32_index (c : Z) (alphabet : bytes) (i : Z) : Z :=
  match alphabet with
  | [] => -1
  | b :: alphabet => if (c =? b) || (c =? Z.ldiff b 0x20) then i else base32_index c alphabet (i + 1)
  end.
Definition base32_rev (c : Z) : option Z := if c <? 128 then Some (base32_index c BASE32 0) else None.

Inductive Direction : Type := North | South | East | West.

Inductive GeohashPrecision : Type :=
| VeryLow | Low | Medium | High | VeryHigh | UltraHigh | Precise | VeryPrecise | UltraPrecise.

(** [precision as usize] *)
Definition precision_chars (p : GeohashPrecision) : nat :=
  match p with
  | VeryLow => 4 | Low => 5 | Medium => 6 | High => 7 | VeryHigh => 8 | UltraHigh => 9
  | Precise => 10 | VeryPrecise => 11 | UltraPrecise => 12
  end%nat.

Definition cell_size_meters (p : GeohashPrecision) : f64 :=
  match p with
  | VeryLow => num 20000 | Low => num 4900 | Medium => num 1200 | High => num 153 | VeryHigh => num 38
  | UltraHigh => f64_lit 48 10 | Precise => f64_lit 12 10 | VeryPrecise => f64_lit 149 1000 | UltraPrecise => f64_lit 37 1000
  end.

Definition from_radius (radius_m : f64) : GeohashPrecision :=
  if (num 10000 < radius_m)%f64 then VeryLow
  else if (num 2500 < radius_m)%f64 then Low
  else if (num 600 < radius_m)%f64 then Medium
  else if (num 80 < radius_m)%f64 then High
  else if (num 20 < radius_m)%f64 then VeryHigh
  else if (f64_lit 25 10 < radius_m)%f64 then UltraHigh
  else if (f64_lit 6 10 < radius_m)%f64 then Precise
  else if (f64_lit 75 1000 < radius_m)%f64 then VeryPrecise
  else UltraPrecise.

Record Geohash : Type := mkGeohash { hash : bytes; precision : nat }.

(** ** Bisection *)

Definition WORLD : BoundingBox := mkBox (num (-180)) (num 180) (num (-90)) (num 90).

Definition middle (lo hi : f64) : f64 := ((lo + hi) * HALF)%f64.

(** The half of a box that a bit names, alternately of the longitude and of the
    latitude. *)
Definition halve (is_lon bit : bool) (b : BoundingBox) : BoundingBox :=
  if is_lon then
    let mid := middle (min_lon b) (max_lon b) in
    if bit then mkBox mid (max_lon b) (min_lat b) (max_lat b) else mkBox (min_lon b) mid (min_lat b) (max_lat b)
  else
    let mid := middle (min_lat b) (max_lat b) in
    if bit then mkBox (min_lon b) (max_lon b) mid (max_lat b) else mkBox (min_lon b) (max_lon b) (min_lat b) mid.

(** Whether the point is in the upper half ([v >= mid]). *)
Definition upper_half (is_lon : bool) (p : GeoPoint) (b : BoundingBox) : bool :=
  if is_lon then (middle (min_lon b) (max_lon b) <= lon p)%f64 else (middle (min_lat b) (max_lat b) <= lat p)%f64.

(** The rounds of [encode_base32]: [n] are left of which [count] are done, [bits]
    collects those of a character. *)
Fixpoint encode_rounds (n count : nat) (p : GeoPoint) (b : BoundingBox) (bits : Z) (out : bytes) : bytes :=
  match n with
  | O => out
  | S n =>
      let is_lon := Nat.even count in
      let bit := upper_half is_lon p b in
      let bits := if bit then Z.lor bits (Z.shiftl 1 (4 - Z.of_nat (count mod 5))) else bits in
      let b := halve is_lon bit b in
      if ((S count) mod 5 =? 0)%nat then encode_rounds n (S count) p b 0 (out ++ [nth (Z.to_nat bits) BASE32 0])
      else encode_rounds n (S count) p b bits out
  end.

Definition encode_base32 (p : GeoPoint) (chars : nat) : bytes := encode_rounds (chars * 5) 0 p WORLD 0 [].

Definition encode_with_chars (p : GeoPoint) (chars : nat) : Geohash :=
  let chars := Nat.min 12 (Nat.max 4 chars) in mkGeohash (encode_base32 p chars) chars.

Definition encode (p : GeoPoint) (precision : GeohashPrecision) : Geohash := encode_with_chars p (precision_chars precision).

(** The five bits of a character. *)
Fixpoint decode_bits (n count : nat) (idx : Z) (b : BoundingBox) : BoundingBox :=
  match n with
  | O => b
  | S n => decode_bits n (S count) idx (halve (Nat.even count) (Z.testbit idx (Z.of_nat n)) b)
  end.

(** The loop of [decode_bbox]; it stops at a character that is not of the alphabet. *)
Fixpoint decode_chars (l : bytes) (count : nat) (b : BoundingBox) : option BoundingBox :=
  match l with
  | [] => Some b
  | c :: l =>
      idx ← base32_rev c;
      if idx <? 0 then Some b else decode_chars l (count + 5) (decode_bits 5 count idx b)
  end.

Definition decode_bbox (g : Geohash) : option BoundingBox := decode_chars (hash g) 0 WORLD.

(** [decode_base32] takes the middle of the box. *)
Definition decode (g : Geohash) : option GeoPoint := b ← decode_bbox g; Some (center b).

(** ** Cells around *)

Definition neighbor (d : Direction) (g : Geohash) : option Geohash :=
  b ← decode_bbox g;
  let w := (max_lon b - min_lon b)%f64 in
  let h := (max_lat b - min_lat b)%f64 in
  let c := center b in
  let p := match d with
           | North => mkPoint (lon c) (lat c + h)%f64
           | South => mkPoint (lon c) (lat c - h)%f64
           | East => mkPoint (lon c + w)%f64 (lat c)
           | West => mkPoint (lon c - w)%f64 (lat c)
           end in
  Some (encode_with_chars p (precision g)).

Definition all_neighbors (g : Geohash) : option (list Geohash) :=
  n ← neighbor North g; s ← neighbor South g; e ← neighbor East g; w ← neighbor West g; Some [n; s; e; w].

Definition starts_with (prefix s : bytes) : bool := bool_decide (take (length prefix) s = prefix).
Definition has_prefix (p : bytes) (g : Geohash) : bool := starts_with p (hash g).
(** On a hash of ASCII characters. *)
Definition prefix (len : nat) (g : Geohash) : bytes := take (Nat.min len (precision g)) (hash g).

Definition parent (g : Geohash) : option Geohash :=
  if (precision g <=? 1)%nat then None else Some (mkGeohash (prefix (precision g - 1) g) (precision g - 1)).

Definition children (g : Geohash) : list Geohash :=
  if (12 <=? precision g)%nat then [] else (fun c => mkGeohash (hash g ++ [c]) (precision g + 1)) <$> BASE32.

(** ** Ranges *)

(** The strings with a prefix of a given length; [fuel] is what is missing. *)
Fixpoint generate_ranges (fuel : nat) (p : bytes) : list bytes :=
  match fuel with O => [p] | S fuel => concat ((fun c => generate_ranges fuel (p ++ [c])) <$> BASE32) end.

Fixpoint common_prefix (a b : bytes) : bytes :=
  match a, b with x :: a, y :: b => if x =? y then x :: common_prefix a b else [] | _, _ => [] end.

Definition geohash_ranges_for_bbox (b : BoundingBox) (precision : GeohashPrecision) : list bytes :=
  let chars := precision_chars precision in
  let sw := encode_base32 (mkPoint (min_lon b) (min_lat b)) chars in
  let ne := encode_base32 (mkPoint (max_lon b) (max_lat b)) chars in
  if bool_decide (sw = ne) then [sw]
  else match common_prefix sw ne with
       | [] => [[]]
       | p => generate_ranges (chars - length p) p
       end.

(** ** Runs *)

(** Moscow. *)
Definition ex_moscow : GeoPoint := mkPoint (f64_lit 376173 10000) (f64_lit 557558 10000).

Example ex_encode : hash (encode ex_moscow High) = ascii_bytes "ucfv0n0".
Proof. by vm_compute. Qed.

(** At the border of the map a cell is its own eastern neighbour. *)
Example ex_antimeridian :
  let g := encode (mkPoint (f64_lit 17999999 100000) (num 10)) High in neighbor East g = Some g.
Proof. by vm_compute. Qed.

(** ** What a hash says *)

Lemma encode_rounds_length n count p b bits out :
  length (encode_rounds n count p b bits out) = (length out + ((count mod 5 + n) / 5))%nat.
Proof.
  revert count b bits out. induction n as [|n IH]; intros count b bits out; cbn [encode_rounds].
  - pose proof (Nat.mod_upper_bound count 5 ltac:(lia)). rewrite Nat.add_0_r, Nat.div_small by done. lia.
  - pose proof (Nat.div_mod_eq count 5) as H1. pose proof (Nat.div_mod_eq (Datatypes.S count) 5) as H2.
    pose proof (Nat.mod_upper_bound count 5 ltac:(lia)). pose proof (Nat.mod_upper_bound (Datatypes.S count) 5 ltac:(lia)).
    destruct (Nat.eqb_spec (Datatypes.S count mod 5) 0) as [Hz|Hz]; rewrite IH.
    + rewrite length_app, Hz. simpl. assert (count mod 5 = 4)%nat as -> by lia.
      replace (4 + Datatypes.S n)%nat with (n + 1 * 5)%nat by lia. rewrite Nat.div_add by lia. lia.
    + f_equal. f_equal. assert (Datatypes.S count mod 5 = Datatypes.S (count mod 5))%nat as -> by lia. lia.
Qed.

Lemma encode_length p chars : length (encode_base32 p chars) = chars.
Proof.
  unfold encode_base32. rewrite encode_rounds_length. change (0 mod 5)%nat with 0%nat. cbn [length Nat.add].
  by rewrite Nat.div_mul by lia.
Qed.

Lemma encode_hash_length p pr : length (hash (encode p pr)) = precision_chars pr.
Proof. unfold encode, encode_with_chars. simpl. rewrite encode_length. destruct pr; done. Qed.

(** The box of the point after some bisections. *)
Fixpoint cell (n count : nat) (p : GeoPoint) (b : BoundingBox) : BoundingBox :=
  match n with
  | O => b
  | S n => cell n (Datatypes.S count) p (halve (Nat.even count) (upper_half (Nat.even count) p b) b)
  end.

Lemma cell_add n m count p b : cell (n + m) count p b = cell m (count + n) p (cell n count p b).
Proof.
  revert count b. induction n as [|n IH]; intros count b; simpl; [by rewrite Nat.add_0_r|].
  rewrite IH. f_equal. lia.
Qed.

(** Five rounds put out a character whose bits lead to the same box. *)
Lemma encode_char n count p b out : (count mod 5 = 0)%nat ->
  exists idx, 0 <= idx < 32 /\
    encode_rounds (5 + n) count p b 0 out = encode_rounds n (5 + count) p (cell 5 count p b) 0 (out ++ [nth (Z.to_nat idx) BASE32 0]) /\
    decode_bits 5 count idx b = cell 5 count p b.
Proof.
  intros H0. pose proof (Nat.div_mod_eq count 5) as Hd. rewrite H0 in Hd.
  assert (forall i, (i < 5)%nat -> ((i + count) mod 5 = i)%nat) as Hm.
  { intros i Hi. rewrite Hd. replace (i + (5 * (count / 5) + 0))%nat with (i + (count / 5) * 5)%nat by lia.
    rewrite Nat.Div0.mod_add. by apply Nat.mod_small. }
  assert ((5 + count) mod 5 = 0)%nat as Hm5.
  { rewrite Hd. replace (5 + (5 * (count / 5) + 0))%nat with ((1 + count / 5) * 5)%nat by lia. apply Nat.Div0.mod_mul. }
  pose proof (Hm 1%nat ltac:(lia)) as M1. pose proof (Hm 2%nat ltac:(lia)) as M2.
  pose proof (Hm 3%nat ltac:(lia)) as M3. pose proof (Hm 4%nat ltac:(lia)) as M4.
  cbn [Nat.add] in M1, M2, M3, M4, Hm5. cbn [Nat.add encode_rounds cell decode_bits]. rewrite H0, M1, M2, M3, M4, Hm5.
  cbn [Nat.eqb].
  repeat match goal with
    |- context [upper_half ?e p ?x] => lazymatch x with context [upper_half] => fail | _ => destruct (upper_half e p x) end
  end;
  (eexists; split; [|split; [reflexivity|reflexivity]]; by vm_compute).
Qed.

Lemma base32_rev_nth idx : 0 <= idx < 32 -> base32_rev (nth (Z.to_nat idx) BASE32 0) = Some idx.
Proof.
  intros Hi. assert (forallb (fun i => bool_decide (base32_rev (nth i BASE32 0) = Some (Z.of_nat i))) (seq 0 32) = true) as H by by vm_compute.
  rewrite forallb_forall in H. specialize (H (Z.to_nat idx)). rewrite bool_decide_eq_true in H.
  rewrite H; [f_equal; lia|]. apply in_seq. lia.
Qed.

Lemma geohash_encode_decode n count p b out : (count mod 5 = 0)%nat ->
  exists l, encode_rounds (n * 5) count p b 0 out = out ++ l /\ decode_chars l count b = Some (cell (n * 5) count p b).
Proof.
  revert count b out. induction n as [|n IH]; intros count b out H0.
  - exists []. by rewrite app_nil_r.
  - destruct (encode_char (n * 5) count p b out H0) as (idx & Hi & He & Hd).
    change (Datatypes.S n * 5)%nat with (5 + n * 5)%nat. rewrite He.
    destruct (IH (5 + count)%nat (cell 5 count p b) (out ++ [nth (Z.to_nat idx) BASE32 0])) as (l & Hl & Hdl).
    { replace (5 + count)%nat with (count + 1 * 5)%nat by lia. by rewrite Nat.Div0.mod_add. }
    exists (nth (Z.to_nat idx) BASE32 0 :: l). rewrite Hl, <- app_assoc. split; [done|].
    cbn [decode_chars]. rewrite base32_rev_nth by done. cbn [mbind option_bind].
    rewrite (proj2 (Z.ltb_ge _ _)) by lia. rewrite Hd, (Nat.add_comm count 5), Hdl, cell_add.
    by rewrite (Nat.add_comm count 5).
Qed.

(** A bisection keeps the point, as long as the bounds are numbers: a middle that is
    none would stay. *)
Lemma halve_contains is_lon p b :
  proper_box (halve is_lon (upper_half is_lon p b) b) -> contains_point b p = true ->
  contains_point (halve is_lon (upper_half is_lon p b) b) p = true.
Proof.
  intros Hp (H1 & H2 & H3 & H4)%contains_spec. unfold halve, upper_half in *. apply contains_spec.
  destruct is_lon.
  - destruct (middle (min_lon b) (max_lon b) <= lon p)%f64 eqn:E; simpl; [done|]. destruct Hp as (_ & Hm & _). simpl in Hm.
    split_and!; [done| |done|done]. destruct (f64_le_total (lon p) (middle (min_lon b) (max_lon b))) as [?|?]; [|done|done|congruence].
    by eapply f64_le_nan_r.
  - destruct (middle (min_lat b) (max_lat b) <= lat p)%f64 eqn:E; simpl; [done|]. destruct Hp as (_ & _ & _ & Hm). simpl in Hm.
    split_and!; [done|done|done|]. destruct (f64_le_total (lat p) (middle (min_lat b) (max_lat b))) as [?|?]; [|done|done|congruence].
    by eapply f64_le_nan_r.
Qed.

Lemma half_number a : is_nan a = false -> is_nan (f64_mul a HALF) = false.
Proof.
  intros Ha%number_encodable. unfold f64_mul. apply encodable_number.
  change (spec_of HALF) with (SpecFloat.S754_finite false 4503599627370496 (-53)).
  destruct (spec_of a) as [s|s| |s m e]; try done. cbn [SpecFloat.SFmul]. apply round_encodable.
Qed.

(** An infinity stays under addition of what may be added and under halving. *)
Lemma half_sum_infinity a b s : summable a b ->
  spec_of a = SpecFloat.S754_infinity s \/ spec_of b = SpecFloat.S754_infinity s ->
  spec_of (f64_mul (f64_add a b) HALF) = SpecFloat.S754_infinity s.
Proof.
  intros (Ha%number_encodable & Hb%number_encodable & Hi) H.
  assert (SpecFloat.SFadd 53 1024 (spec_of a) (spec_of b) = SpecFloat.S754_infinity s) as Hsum.
  { destruct H as [H|H]; rewrite H in *.
    - destruct (spec_of b) as [t|t| |t k x]; try done. destruct s, t; try done; exfalso; by eapply Hi.
    - destruct (spec_of a) as [t|t| |t k x]; try done. destruct s, t; try done; exfalso; by eapply Hi. }
  unfold f64_mul, f64_add. rewrite Hsum, spec_of_infinity.
  change (spec_of HALF) with (SpecFloat.S754_finite false 4503599627370496 (-53)). cbn [SpecFloat.SFmul].
  rewrite xorb_false_r. apply spec_of_infinity.
Qed.

(** *** Bisection keeps the bounds numbers *)

Lemma middle_number lo hi : summable lo hi -> is_nan (middle lo hi) = false.
Proof. intros H. by apply half_number, add_number. Qed.

(** A middle is an infinity only where a bound is one, or by an overflow: with
    either bound it may be added again. *)
Lemma middle_summable lo hi : summable lo hi -> summable lo (middle lo hi) /\ summable (middle lo hi) hi.
Proof.
  intros H. pose proof (middle_number lo hi H) as Hm. pose proof H as (Hlo & Hhi & Hi). unfold middle in *.
  split; (split_and!; [done|done|]); intros s [H1 H2].
  - rewrite (half_sum_infinity lo hi s H (or_introl H1)) in H2. by destruct s.
  - rewrite (half_sum_infinity lo hi (negb s) H (or_intror H2)) in H1. by destruct s.
Qed.

Definition sound_box (b : BoundingBox) : Prop :=
  summable (min_lon b) (max_lon b) /\ summable (min_lat b) (max_lat b).

Lemma world_sound : sound_box WORLD.
Proof. split; (split_and!; [by vm_compute|by vm_compute|]); intros s; vm_compute; intros [[=] _]. Qed.

Lemma sound_proper b : sound_box b -> proper_box b.
Proof. intros [(? & ? & _) (? & ? & _)]. by repeat split. Qed.

Lemma halve_sound is_lon bit b : sound_box b -> sound_box (halve is_lon bit b).
Proof.
  intros [H1 H2]. destruct (middle_summable _ _ H1), (middle_summable _ _ H2).
  unfold halve. by destruct is_lon, bit.
Qed.

Lemma cell_sound n count p b : sound_box b -> sound_box (cell n count p b).
Proof. revert count b. induction n as [|n IH]; intros count b H; simpl; [done|]. by apply IH, halve_sound. Qed.

Lemma cell_contains n count p b : sound_box b -> contains_point b p = true -> contains_point (cell n count p b) p = true.
Proof.
  revert count b. induction n as [|n IH]; intros count b H Hc; simpl; [done|].
  apply IH; [by apply halve_sound|]. apply halve_contains; [by apply sound_proper, halve_sound|done].
Qed.

(** C27. The hash of a point of the world has the length of its precision and decodes
    to the cell that the bisections give for the point; the bounds of the cell are
    numbers and the cell contains the point.  (A point outside the world, as
    [neighbor] makes beyond the borders of the map, has a hash as well, whose cell is
    at the border and does not contain it.) *)
Theorem geohash_cell p pr :
  contains_point WORLD p = true ->
  length (hash (encode p pr)) = precision_chars pr /\
  exists b, decode_bbox (encode p pr) = Some b /\ b = cell (precision_chars pr * 5) 0 p WORLD /\
    proper_box b /\ contains_point b p = true.
Proof.
  intros Hw. split; [apply encode_hash_length|].
  assert (hash (encode p pr) = encode_base32 p (precision_chars pr)) as Hh by by destruct pr.
  destruct (geohash_encode_decode (precision_chars pr) 0 p WORLD [] eq_refl) as (l & Hl & Hd).
  unfold decode_bbox. rewrite Hh. unfold encode_base32. rewrite Hl. simpl app. rewrite Hd.
  eexists. split; [done|]. split; [done|]. split; [apply sound_proper, cell_sound, world_sound|].
  apply cell_contains; [apply world_sound|done].
Qed.

Lemma geohash_cell_witness :
  exists b, decode_bbox (encode ex_moscow Low) = Some b /\ contains_point b ex_moscow = true.
Proof.
  destruct (geohash_cell ex_moscow Low) as (_ & b & Hb & _ & _ & Hp); [by vm_compute|].
  exists b. split; [exact Hb|exact Hp].
Defined.

(** Beyond the border the cell does not contain the point: its longitude is 200. *)
Example ex_outside : let p := mkPoint (num 200) (num 10) in
  (fun b => contains_point b p) <$> decode_bbox (encode p Low) = Some false.
Proof. by vm_compute. Qed.

(** The hash at a lower precision is a prefix: the hash of an enclosing cell. *)
Lemma encode_rounds_out n count p b bits out : encode_rounds n count p b bits out = out ++ encode_rounds n count p b bits [].
Proof.
  revert count b bits out. induction n as [|n IH]; intros count b bits out; simpl; [by rewrite app_nil_r|].
  destruct (_ =? 0)%nat; [|apply IH]. rewrite IH. rewrite (IH _ _ _ [_]). by rewrite <- app_assoc.
Qed.

Lemma encode_rounds_prefix n m count p b bits out :
  exists l, encode_rounds (n + m) count p b bits out = encode_rounds n count p b bits out ++ l.
Proof.
  revert count b bits out. induction n as [|n IH]; intros count b bits out; simpl.
  - rewrite encode_rounds_out. eauto.
  - destruct (_ =? 0)%nat; apply IH.
Qed.

Lemma encode_prefix p n m : (n <= m)%nat -> exists l, encode_base32 p m = encode_base32 p n ++ l.
Proof.
  intros H. unfold encode_base32. replace (m * 5)%nat with (n * 5 + (m - n) * 5)%nat by lia. apply encode_rounds_prefix.
Qed.

Lemma decode_encode p chars : exists b, decode_bbox (encode_with_chars p chars) = Some b.
Proof.
  unfold decode_bbox, encode_with_chars. generalize (Nat.min 12 (Nat.max 4 chars)). intros n. cbn [hash]. unfold encode_base32.
  destruct (geohash_encode_decode n 0 p WORLD [] eq_refl) as (l & -> & Hd). simpl app. eauto.
Qed.

Lemma neighbor_some p chars d : (4 <= chars <= 12)%nat ->
  exists h, neighbor d (encode_with_chars p chars) = Some h /\ length (hash h) = chars.
Proof.
  intros Hch. destruct (decode_encode p chars) as [b Hb]. unfold neighbor. rewrite Hb. cbn [mbind option_bind].
  eexists. split; [reflexivity|]. unfold encode_with_chars. cbn [hash precision]. rewrite encode_length. lia.
Qed.
