(* ===== verification/RTree.v ===== *)
(** * The R-tree

    Models [src/src/database/geo/geo_rtree.rs]: nodes with the boxes of what is
    below them, insertion with quadratic splits, the bulk load, range queries and
    the search for nearest neighbours.  The order of equal elements in a
    [BinaryHeap] is that of a [HashOrder]. *)
From S2P Require Import Prelude Interfaces ZdbValue Numbers Floats Geography.
Local Open Scope Z_scope.

Record GeoEntry : Type := mkEntry { member : bytes; point : GeoPoint; score : Z }.

Definition MAX_ENTRIES : nat := 8.

Inductive RTreeNode : Type :=
| Leaf (entries : list GeoEntry) (bbox : BoundingBox)
| Internal (children : list RTreeNode) (bbox : BoundingBox).

Record RTree : Type := mkTree { root : option RTreeNode; tree_size : nat }.

Definition node_bbox (n : RTreeNode) : BoundingBox := match n with Leaf _ b | Internal _ b => b end.

(** ** Boxes of nodes *)

Definition EMPTY_BOX : BoundingBox := mkBox f64_zero f64_zero f64_zero f64_zero.

Definition entry_box (e : GeoEntry) : BoundingBox := from_point (point e).

(** The box around some boxes. *)
Definition boxes_bbox (bs : list BoundingBox) : BoundingBox :=
  match bs with [] => EMPTY_BOX | b :: bs => foldl expand b bs end.

(** A node with its box brought up to date ([update_bbox]). *)
Definition leaf (entries : list GeoEntry) : RTreeNode := Leaf entries (boxes_bbox (entry_box <$> entries)).
Definition internal (children : list RTreeNode) : RTreeNode := Internal children (boxes_bbox (node_bbox <$> children)).

(** ** Choices *)

Definition point_distance (p1 p2 : GeoPoint) : f64 :=
  let dx := (lon p2 - lon p1)%f64 in
  let dy := (lat p2 - lat p1)%f64 in
  f64_sqrt (dx * dx + dy * dy)%f64.

(** The pairs of indices in the order of the two loops. *)
Definition index_pairs (n : nat) : list (nat * nat) :=
  concat ((fun i => (fun j => (i, j)) <$> seq (i + 1) (n - (i + 1))) <$> seq 0 n).

(** The pair of the largest positive distance, the first one of equals. *)
Definition seed_step (points : list GeoPoint) (best : f64 * (nat * nat)) (pair : nat * nat) : f64 * (nat * nat) :=
  match points !! pair.1, points !! pair.2 with
  | Some p, Some q => let d := point_distance p q in if (best.1 < d)%f64 then (d, pair) else best
  | _, _ => best
  end.

Definition pick_seeds (points : list GeoPoint) : nat * nat :=
  snd (foldl (seed_step points) (f64_zero, (0%nat, 1%nat)) (index_pairs (length points))).

Definition enlargement (b added : BoundingBox) : f64 := (area (expand b added) - area b)%f64.

(** The child that grows least, the first one of equals. *)
Definition choose_step (e : GeoEntry) (state : f64 * nat * nat) (c : RTreeNode) : f64 * nat * nat :=
  let '(best, idx, i) := state in
  let g := enlargement (node_bbox c) (entry_box e) in
  if (g < best)%f64 then (g, i, S i) else (best, idx, S i).

Definition choose_subtree (children : list RTreeNode) (e : GeoEntry) : nat :=
  snd (fst (foldl (choose_step e) (INFINITY, 0%nat, 0%nat) children)).

(** [Vec::remove]; [None] is the panic. *)
Definition remove_at {A} (i : nat) (l : list A) : option (A * list A) := x ← l !! i; Some (x, delete i l).

(** The distribution of a split: the seeds, and every other element to the group
    whose box grows less. *)
Section Split.
Context {A : Type} (box : A -> BoundingBox).

(** The first box is joined once more with itself. *)
Definition group_box (g : list A) : BoundingBox :=
  match g with x :: _ => foldl expand (box x) (box <$> g) | [] => EMPTY_BOX end.

Definition distribute (groups : list A * list A) (x : A) : list A * list A :=
  let '(g1, g2) := groups in
  if (enlargement (group_box g1) (box x) < enlargement (group_box g2) (box x))%f64 then (g1 ++ [x], g2) else (g1, g2 ++ [x]).

Definition split_groups (points : list GeoPoint) (l : list A) : option (list A * list A) :=
  let '(seed1, seed2) := pick_seeds points in
  let '(hi, lo) := if (seed2 <? seed1)%nat then (seed1, seed2) else (seed2, seed1) in
  '(first, l) ← remove_at hi l;
  '(second, l) ← remove_at lo l;
  Some (foldl distribute ([first], [second]) l).
End Split.

(** ** Insertion *)

(** The node that an insertion leaves and its new sibling after a split. *)
Fixpoint insert_recursive (node : RTreeNode) (e : GeoEntry) : option (RTreeNode * option RTreeNode) :=
  match node with
  | Leaf entries _ =>
      let all := entries ++ [e] in
      if (length all <=? MAX_ENTRIES)%nat then Some (leaf all, None)
      else
        '(g1, g2) ← split_groups entry_box (point <$> all) all;
        Some (leaf g1, Some (leaf g2))
  | Internal children _ =>
      let best := choose_subtree children e in
      '(cs, new) ← (fix insert_at (cs : list RTreeNode) (i : nat) : option (list RTreeNode * option RTreeNode) :=
        match cs with
        | [] => None
        | c :: cs =>
            match i with
            | O => '(c, new) ← insert_recursive c e; Some (c :: cs, new)
            | S i => '(cs, new) ← insert_at cs i; Some (c :: cs, new)
            end
        end) children best;
      let cs := match new with Some n => cs ++ [n] | None => cs end in
      if (length cs <=? MAX_ENTRIES)%nat then Some (internal cs, None)
      else
        '(g1, g2) ← split_groups node_bbox ((fun c => center (node_bbox c)) <$> cs) cs;
        Some (internal g1, Some (internal g2))
  end.

Definition tree_new : RTree := mkTree None 0.

Definition tree_insert (e : GeoEntry) (t : RTree) : option RTree :=
  match root t with
  | None => Some (mkTree (Some (leaf [e])) 1)
  | Some r =>
      '(r, new) ← insert_recursive r e;
      Some (mkTree (Some match new with Some n => internal [r; n] | None => r end) (tree_size t + 1))
  end.

(** ** Bulk load *)

(** A stable sort ([sort_by]) by a coordinate; what cannot be compared is equal. *)
Section Sort.
Context (coordinate : GeoEntry -> f64).

Fixpoint sort_insert (x : GeoEntry) (l : list GeoEntry) : list GeoEntry :=
  match l with
  | [] => [x]
  | y :: l => if (coordinate y < coordinate x)%f64 then y :: sort_insert x l else x :: y :: l
  end.

Definition sort_entries (l : list GeoEntry) : list GeoEntry := foldr sort_insert [] l.
End Sort.

(** The slices of a size; the last one may be shorter. *)
Fixpoint slices_of (size : nat) (l current : list GeoEntry) : list (list GeoEntry) :=
  match l with
  | [] => match current with [] => [] | _ => [current] end
  | e :: l =>
      let current := current ++ [e] in
      if (size <=? length current)%nat then current :: slices_of size l [] else slices_of size l current
  end.

Definition slice_size_of (n : nat) : nat :=
  let count := Nat.max (Z.to_nat (f64_ceil_usize (f64_sqrt (f64_of_int (Z.of_nat n))))) 2 in
  ((n + (count - 1)) / count)%nat.

(** The fuel is the number of the entries, which is more than the levels. *)
Fixpoint build_str_tree (fuel : nat) (entries : list GeoEntry) : option RTreeNode :=
  if (length entries <=? MAX_ENTRIES)%nat then Some (leaf entries)
  else match fuel with
       | O => None
       | S fuel =>
           let slices := sort_entries (fun e => lat (point e)) <$> slices_of (slice_size_of (length entries)) entries [] in
           children ← mapM (build_str_tree fuel) slices;
           Some (internal children)
       end.

Definition bulk_load (entries : list GeoEntry) : option RTree :=
  match entries with
  | [] => Some tree_new
  | _ =>
      root ← build_str_tree (length entries) (sort_entries (fun e => lon (point e)) entries);
      Some (mkTree (Some root) (length entries))
  end.

(** ** Queries *)

Fixpoint range_query_recursive (node : RTreeNode) (query : BoundingBox) : list GeoEntry :=
  if negb (intersects (node_bbox node) query) then []
  else match node with
       | Leaf entries _ => filter (fun e => contains_point query (point e) = true) entries
       | Internal children _ => concat ((fun c => range_query_recursive c query) <$> children)
       end.

Definition range_query (query : BoundingBox) (t : RTree) : list GeoEntry :=
  match root t with Some r => range_query_recursive r query | None => [] end.

(** The search for neighbours, over the two heaps as lists of their elements. *)
Section Nearest.
Context {libm : Libm} {node_order : HashOrder (f64 * (RTreeNode + GeoEntry))} {result_order : HashOrder (f64 * GeoEntry)}.

(** [pop]: an element that none goes before, and the others. *)
Fixpoint extract {A} (before : f64 -> f64 -> bool) (l : list (f64 * A)) : option ((f64 * A) * list (f64 * A)) :=
  match l with
  | [] => None
  | x :: l =>
      match extract before l with
      | Some (y, r) => if before y.1 x.1 then Some (y, x :: r) else Some (x, l)
      | None => Some (x, [])
      end
  end.

Definition pop_nearest (pq : list (f64 * (RTreeNode + GeoEntry))) := extract f64_lt (shuffle pq).
Definition farther (a b : f64) : bool := f64_lt b a.
Definition pop_farthest (results : list (f64 * GeoEntry)) := extract farther (shuffle results).

(** [results.peek().unwrap().dist] *)
Definition farthest (results : list (f64 * GeoEntry)) : option f64 := '(x, _) ← pop_farthest results; Some x.1.

(** What is below a node, each with the distance under which it is queued: in
    degrees to a box, in metres to a point. *)
Definition node_items (p : GeoPoint) (n : RTreeNode) : list (f64 * (RTreeNode + GeoEntry)) :=
  match n with
  | Leaf entries _ => (fun e => (haversine_dist p (point e), inr e)) <$> entries
  | Internal children _ => (fun c => (min_distance_to_point (node_bbox c) p, inl c)) <$> children
  end.

(** The fuel is the number of nodes and entries. *)
Fixpoint knn_loop (fuel : nat) (p : GeoPoint) (k : nat) (pq : list (f64 * (RTreeNode + GeoEntry)))
    (results : list (f64 * GeoEntry)) : option (list (f64 * GeoEntry)) :=
  match pop_nearest pq with
  | None => Some results
  | Some (item, pq) =>
      match fuel with
      | O => None
      | S fuel =>
          far ← (if (k <=? length results)%nat then d ← farthest results; Some (d < item.1)%f64 else Some false);
          if far : bool then knn_loop fuel p k pq results
          else match item.2 with
               | inr e =>
                   let results := results ++ [(item.1, e)] in
                   let results := if (k <? length results)%nat then match pop_farthest results with Some (_, r) => r | None => [] end else results in
                   knn_loop fuel p k pq results
               | inl n => knn_loop fuel p k (pq ++ node_items p n) results
               end
      end
  end.

(** The nodes and entries of a tree. *)
Fixpoint node_weight (n : RTreeNode) : nat :=
  match n with
  | Leaf entries _ => 1 + length entries
  | Internal children _ => 1 + list_sum (node_weight <$> children)
  end.

(** The order of names. *)
Fixpoint name_ltb (a b : bytes) : bool :=
  match a, b with
  | _, [] => false
  | [], _ => true
  | x :: a, y :: b => if x <? y then true else if y <? x then false else name_ltb a b
  end.

(** By distance, then by name. *)
Definition nearer (a b : f64 * GeoEntry) : bool :=
  match f64_partial_cmp a.1 b.1 with
  | Some Lt => true
  | Some Gt => false
  | _ => name_ltb (member a.2) (member b.2)
  end.

Fixpoint result_insert (x : f64 * GeoEntry) (l : list (f64 * GeoEntry)) : list (f64 * GeoEntry) :=
  match l with [] => [x] | y :: l => if nearer y x then y :: result_insert x l else x :: y :: l end.

Definition sort_results (l : list (f64 * GeoEntry)) : list (f64 * GeoEntry) := foldr result_insert [] l.

Definition knn (p : GeoPoint) (k : nat) (t : RTree) : option (list (GeoEntry * f64)) :=
  match root t with
  | None => Some []
  | Some r =>
      if (k =? 0)%nat then Some []
      else results ← knn_loop (node_weight r) p k [(f64_zero, inl r)] [];
           Some ((fun x => (x.2, x.1)) <$> sort_results results)
  end.
End Nearest.

(** ** Statistics *)

Record TreeStats : Type := mkStats { depth : nat; node_count : nat; leaf_count : nat }.

Fixpoint compute_stats (n : RTreeNode) (level : nat) : TreeStats :=
  match n with
  | Leaf _ _ => mkStats (level + 1) 1 1
  | Internal children _ =>
      foldl (fun st c => mkStats (Nat.max (depth st) (depth c)) (node_count st + node_count c) (leaf_count st + leaf_count c))
        (mkStats (level + 1) 1 0) ((fun c => compute_stats c (level + 1)) <$> children)
  end.

Definition tree_stats (t : RTree) : TreeStats :=
  match root t with Some r => compute_stats r 0 | None => mkStats 0 0 0 end.
