(* ===== verification/RTreeLaws.v ===== *)
(** * What the R-tree promises

    A tree holds exactly the entries that were loaded and inserted, every box is
    around what is below it, and so a range query finds exactly the entries in its
    box ([rtree_refines_points]); trees that only insertions have built are
    balanced ([rtree_balanced]). *)
From S2P Require Import Prelude Interfaces ZdbValue Numbers Floats Geography RTree.
Local Open Scope Z_scope.
Implicit Types (e : GeoEntry) (n : RTreeNode) (b : BoundingBox).

(** ** Nodes *)

Section NodeInd.
Context (P : RTreeNode -> Prop) (Hleaf : forall es b, P (Leaf es b)) (Hint : forall cs b, Forall P cs -> P (Internal cs b)).

Fixpoint node_ind (n : RTreeNode) : P n :=
  match n with
  | Leaf es b => Hleaf es b
  | Internal cs b =>
      Hint cs b ((fix all (cs : list RTreeNode) : Forall P cs :=
        match cs with [] => List.Forall_nil P | c :: cs => @List.Forall_cons _ P c cs (node_ind c) (all cs) end) cs)
  end.
End NodeInd.

Fixpoint node_entries n : list GeoEntry :=
  match n with Leaf es _ => es | Internal cs _ => concat (node_entries <$> cs) end.

Definition proper_entry e : Prop := proper (point e).

(** Every box is the one around what is below, and no node is empty. *)
Fixpoint sound n : Prop :=
  match n with
  | Leaf es b => es <> [] /\ Forall proper_entry es /\ b = boxes_bbox (entry_box <$> es)
  | Internal cs b => cs <> [] /\ foldr (fun c P => sound c /\ P) True cs /\ b = boxes_bbox (node_bbox <$> cs)
  end.

Lemma sound_all cs : foldr (fun c P => sound c /\ P) True cs <-> Forall sound cs.
Proof. induction cs as [|c cs IH]; simpl; [by rewrite Forall_nil|]. by rewrite Forall_cons, IH. Qed.

Lemma sound_leaf es : es <> [] -> Forall proper_entry es -> sound (leaf es).
Proof. done. Qed.

Lemma sound_internal cs : cs <> [] -> Forall sound cs -> sound (internal cs).
Proof. intros Hn Hc. split_and!; [done|by apply sound_all|done]. Qed.

(** ** Boxes *)

Lemma foldl_expand_contains bs b0 p :
  proper_box b0 -> Forall proper_box bs -> contains_point b0 p = true \/ Exists (fun b => contains_point b p = true) bs ->
  proper_box (foldl expand b0 bs) /\ contains_point (foldl expand b0 bs) p = true.
Proof.
  revert b0. induction bs as [|b bs IH]; intros b0 H0 Hbs H; simpl.
  - split; [done|]. destruct H as [H|H]; [done|by apply Exists_nil in H].
  - apply Forall_cons in Hbs as [Hb Hbs]. apply IH; [by apply proper_expand|done|].
    rewrite Exists_cons in H. destruct H as [H|[H|H]]; [left|left|by right]; apply contains_expand; auto.
Qed.

Lemma foldl_expand_proper bs b0 : proper_box b0 -> Forall proper_box bs -> proper_box (foldl expand b0 bs).
Proof.
  revert b0. induction bs as [|b bs IH]; intros b0 H0 Hbs; simpl; [done|].
  apply Forall_cons in Hbs as [Hb Hbs]. apply IH; [by apply proper_expand|done].
Qed.

Lemma boxes_proper bs : bs <> [] -> Forall proper_box bs -> proper_box (boxes_bbox bs).
Proof. destruct bs as [|b bs]; [done|]. intros _ [Hb Hbs]%Forall_cons. by apply foldl_expand_proper. Qed.

Lemma boxes_contain bs p : Forall proper_box bs -> Exists (fun b => contains_point b p = true) bs -> contains_point (boxes_bbox bs) p = true.
Proof.
  destruct bs as [|b bs]; [by intros _ ?%Exists_nil|]. intros [Hb Hbs]%Forall_cons H%Exists_cons.
  by apply foldl_expand_contains.
Qed.

Lemma sound_box n : sound n -> proper_box (node_bbox n) /\ Forall (fun e => contains_point (node_bbox n) (point e) = true) (node_entries n).
Proof.
  induction n as [es b|cs b IH] using node_ind; cbn [sound node_bbox node_entries].
  - intros (Hne & Hp & ->).
    assert (Forall proper_box (entry_box <$> es)) as Hb by (apply Forall_fmap; eapply Forall_impl; [done|]; intros e; apply proper_from_point).
    split; [apply boxes_proper; [by destruct es|done]|].
    apply Forall_forall. intros e He. apply boxes_contain; [done|]. apply Exists_fmap, Exists_exists. exists e. split; [done|].
    apply contains_from_point. by apply (proj1 (Forall_forall _ _) Hp).
  - intros (Hne & Hs%sound_all & ->).
    assert (Forall proper_box (node_bbox <$> cs)) as Hb.
    { apply Forall_fmap, Forall_forall. intros c Hc. simpl. apply (proj1 (Forall_forall _ _) IH c Hc).
      by apply (proj1 (Forall_forall _ _) Hs). }
    split; [apply boxes_proper; [by destruct cs|done]|].
    apply Forall_concat, Forall_fmap, Forall_forall. intros c Hc. simpl.
    destruct (proj1 (Forall_forall _ _) IH c Hc (proj1 (Forall_forall _ _) Hs c Hc)) as [_ Hin].
    eapply Forall_impl; [exact Hin|]. intros e He. simpl in He. apply boxes_contain; [done|].
    apply Exists_fmap, Exists_exists. exists c. split; [done|exact He].
Qed.

(** ** Range queries *)

Definition within (q : BoundingBox) (l : list GeoEntry) : list GeoEntry := filter (fun e => contains_point q (point e) = true) l.

Lemma within_none q b l : Forall (fun e => contains_point b (point e) = true) l -> intersects b q = false -> within q l = [].
Proof.
  intros Hl Hi. unfold within. induction Hl as [|e l He _ IH]; [done|]. rewrite filter_cons, IH.
  rewrite decide_False; [done|]. intros Hq. by rewrite (contains_intersects b q (point e) He Hq) in Hi.
Qed.

Lemma within_app q l1 l2 : within q (l1 ++ l2) = within q l1 ++ within q l2.
Proof. apply filter_app. Qed.

Lemma range_query_sound q n : sound n -> range_query_recursive n q = within q (node_entries n).
Proof.
  induction n as [es b|cs b IH] using node_ind; intros Hs; pose proof (sound_box _ Hs) as [_ Hin];
    cbn [range_query_recursive node_bbox node_entries] in *.
  - destruct (intersects b q) eqn:Hi; simpl; [done|]. by rewrite (within_none q b).
  - destruct (intersects b q) eqn:Hi; simpl; [|by rewrite (within_none q b)].
    destruct Hs as (_ & Hs%sound_all & _). clear Hin. induction cs as [|c cs IHcs]; [done|].
    apply Forall_cons in IH as [Hc IH]. apply Forall_cons in Hs as [Hsc Hs]. simpl.
    rewrite within_app, Hc by done. f_equal. by apply IHcs.
Qed.

(** ** Splits *)

Lemma index_pairs_spec (count i j : nat) : (i, j) ∈ index_pairs count -> (i < j < count)%nat.
Proof.
  unfold index_pairs. rewrite list_elem_of_In, in_concat. intros (l & Hl%list_elem_of_In & Hp%list_elem_of_In). apply list_elem_of_fmap in Hl as (i' & -> & Hi).
  apply list_elem_of_fmap in Hp as (j' & [= -> ->] & Hj). apply elem_of_seq in Hi, Hj. lia.
Qed.

(** The seeds are two elements. *)
Lemma pick_seeds_spec points : (2 <= length points)%nat ->
  ((pick_seeds points).1 < (pick_seeds points).2 < length points)%nat.
Proof.
  intros Hn. unfold pick_seeds.
  assert (forall l a, Forall (fun p => p.1 < p.2 < length points)%nat l -> (a.2.1 < a.2.2 < length points)%nat ->
    ((foldl (seed_step points) a l).2.1 < (foldl (seed_step points) a l).2.2 < length points)%nat) as H.
  { induction l as [|ij l IH]; intros a Hl Ha; simpl; [done|]. apply Forall_cons in Hl as [Hij Hl].
    apply IH; [done|]. unfold seed_step. by repeat case_match. }
  apply H; [|simpl; lia]. apply Forall_forall. intros [i j] Hij. by apply index_pairs_spec.
Qed.

Lemma remove_at_spec {A} i (l : list A) : (i < length l)%nat ->
  exists x r, remove_at i l = Some (x, r) /\ l ≡ₚ x :: r /\ length l = Datatypes.S (length r).
Proof.
  intros [x Hx]%lookup_lt_is_Some. exists x, (delete i l). unfold remove_at. rewrite Hx. split; [done|].
  assert (l ≡ₚ x :: delete i l) as Hp by by apply delete_Permutation. split; [done|]. by rewrite Hp at 1.
Qed.

Lemma distribute_spec {A} (box : A -> BoundingBox) l g1 g2 :
  exists r1 r2, foldl (distribute box) (g1, g2) l = (g1 ++ r1, g2 ++ r2) /\ r1 ++ r2 ≡ₚ l.
Proof.
  revert g1 g2. induction l as [|x l IH]; intros g1 g2; cbn [foldl].
  - exists [], []. by rewrite !app_nil_r.
  - unfold distribute at 2. destruct (_ < _)%f64.
    + destruct (IH (g1 ++ [x]) g2) as (r1 & r2 & -> & Hp). exists (x :: r1), r2. rewrite <- app_assoc. split; [done|].
      simpl. by rewrite Hp.
    + destruct (IH g1 (g2 ++ [x])) as (r1 & r2 & -> & Hp). exists r1, (x :: r2). rewrite <- app_assoc. split; [done|].
      rewrite <- Permutation_middle. by rewrite Hp.
Qed.

(** A split gives two groups, neither of them empty, with the same elements. *)
Lemma split_groups_spec {A} (box : A -> BoundingBox) points (l : list A) :
  length points = length l -> (2 <= length l)%nat ->
  exists g1 g2, split_groups box points l = Some (g1, g2) /\ g1 <> [] /\ g2 <> [] /\ g1 ++ g2 ≡ₚ l.
Proof.
  intros Hlen Hn. unfold split_groups. pose proof (pick_seeds_spec points ltac:(lia)) as Hs.
  destruct (pick_seeds points) as [s1 s2]. simpl in Hs. rewrite (proj2 (Nat.ltb_ge s2 s1)) by lia.
  destruct (remove_at_spec s2 l ltac:(lia)) as (x & l1 & -> & Hp1 & Hl1). cbn [mbind option_bind].
  destruct (remove_at_spec s1 l1 ltac:(lia)) as (y & l2 & -> & Hp2 & _). cbn [mbind option_bind].
  destruct (distribute_spec box l2 [x] [y]) as (r1 & r2 & -> & Hp). exists ([x] ++ r1), ([y] ++ r2).
  split_and!; [done|done|done|]. rewrite Hp1, Hp2. simpl. rewrite <- Permutation_middle. by rewrite Hp.
Qed.

(** ** Insertion *)

Lemma choose_subtree_lt cs e : cs <> [] -> (choose_subtree cs e < length cs)%nat.
Proof.
  intros Hne. unfold choose_subtree.
  assert (forall l (b : f64) i0 i, (i0 < length l + i)%nat -> (0 < length l + i)%nat -> ((foldl (choose_step e) (b, i0, i) l).1.2 < length l + i)%nat) as H.
  { induction l as [|c l IH]; intros b i0 i Hi Hl; cbn [foldl length Nat.add fst snd] in *; [lia|]. unfold choose_step at 2.
    destruct (_ < _)%f64; (replace (Datatypes.S (length l + i)) with (length l + Datatypes.S i)%nat by lia); apply IH; lia. }
  specialize (H cs INFINITY 0%nat 0%nat). rewrite Nat.add_0_r in H. apply H; destruct cs; simpl; (done || lia).
Qed.

Fixpoint insert_at (cs : list RTreeNode) (i : nat) e : option (list RTreeNode * option RTreeNode) :=
  match cs with
  | [] => None
  | c :: cs =>
      match i with
      | O => '(c, new) ← insert_recursive c e; Some (c :: cs, new)
      | Datatypes.S i => '(cs, new) ← insert_at cs i e; Some (c :: cs, new)
      end
  end.

Definition close_node (cs : list RTreeNode) (new : option RTreeNode) : option (RTreeNode * option RTreeNode) :=
  let cs := match new with Some n => cs ++ [n] | None => cs end in
  if (length cs <=? MAX_ENTRIES)%nat then Some (internal cs, None)
  else
    '(g1, g2) ← split_groups node_bbox ((fun c => center (node_bbox c)) <$> cs) cs;
    Some (internal g1, Some (internal g2)).

Lemma insert_internal cs b e :
  insert_recursive (Internal cs b) e = '(cs, new) ← insert_at cs (choose_subtree cs e) e; close_node cs new.
Proof.
  cbn [insert_recursive]. f_equal. generalize (choose_subtree cs e). induction cs as [|c cs IH]; intros i; [done|].
  cbn [insert_at]. destruct i as [|i]; [done|]. by rewrite IH.
Qed.

Definition sibling_entries (new : option RTreeNode) : list GeoEntry := match new with Some n => node_entries n | None => [] end.
Definition sibling_all (P : RTreeNode -> Prop) (new : option RTreeNode) : Prop := match new with Some n => P n | None => True end.

Lemma concat_entries_app cs1 cs2 : concat (node_entries <$> cs1 ++ cs2) = concat (node_entries <$> cs1) ++ concat (node_entries <$> cs2).
Proof. by rewrite fmap_app, concat_app. Qed.

Lemma concat_entries_perm cs1 cs2 : cs1 ≡ₚ cs2 -> concat (node_entries <$> cs1) ≡ₚ concat (node_entries <$> cs2).
Proof. intros H. by rewrite H. Qed.

Lemma close_node_spec cs new : cs <> [] -> Forall sound cs -> sibling_all sound new ->
  exists n new', close_node cs new = Some (n, new') /\ sound n /\ sibling_all sound new' /\
    node_entries n ++ sibling_entries new' ≡ₚ concat (node_entries <$> cs) ++ sibling_entries new.
Proof.
  intros Hne Hs Hnew. unfold close_node. set (l := match new with Some n => cs ++ [n] | None => cs end).
  assert (l <> [] /\ Forall sound l /\ concat (node_entries <$> l) = concat (node_entries <$> cs) ++ sibling_entries new) as (Hl & Hsl & He).
  { destruct new as [n|]; simpl; subst l.
    - split; [by destruct cs|]. split; [apply Forall_app; split; [done|by apply Forall_singleton]|].
      rewrite concat_entries_app. simpl. by rewrite app_nil_r.
    - by rewrite app_nil_r. }
  destruct (Nat.leb_spec (length l) MAX_ENTRIES) as [Hle|Hgt].
  - exists (internal l), None. split_and!; [done|by apply sound_internal|done|]. simpl. by rewrite app_nil_r, He.
  - destruct (split_groups_spec node_bbox ((fun c => center (node_bbox c)) <$> l) l) as (g1 & g2 & -> & H1 & H2 & Hp);
      [by rewrite length_fmap|unfold MAX_ENTRIES in Hgt; lia|].
    cbn [mbind option_bind]. exists (internal g1), (Some (internal g2)).
    rewrite <- Hp in Hsl. apply Forall_app in Hsl as [Hs1 Hs2].
    split_and!; [done|by apply sound_internal|by apply sound_internal|]. simpl.
    rewrite <- concat_entries_app, <- He. by apply concat_entries_perm.
Qed.

Lemma insert_at_spec cs i e : Forall sound cs -> (i < length cs)%nat ->
  Forall (fun c => sound c -> exists c' new, insert_recursive c e = Some (c', new) /\ sound c' /\ sibling_all sound new /\
    node_entries c' ++ sibling_entries new ≡ₚ e :: node_entries c) cs ->
  exists cs' new, insert_at cs i e = Some (cs', new) /\ length cs' = length cs /\ Forall sound cs' /\ sibling_all sound new /\
    concat (node_entries <$> cs') ++ sibling_entries new ≡ₚ e :: concat (node_entries <$> cs).
Proof.
  revert i. induction cs as [|c cs IH]; intros i Hs Hi Hall; [simpl in Hi; lia|].
  apply Forall_cons in Hs as [Hc Hs]. apply Forall_cons in Hall as [Hrec Hall]. cbn [insert_at]. destruct i as [|i].
  - destruct (Hrec Hc) as (c' & new & -> & Hc' & Hnew & Hp). cbn [mbind option_bind]. exists (c' :: cs), new.
    split_and!; [done|done|by apply Forall_cons|done|]. simpl.
    rewrite <- app_assoc, (Permutation_app_comm (concat _)), app_assoc, Hp. done.
  - destruct (IH i Hs ltac:(simpl in Hi; lia) Hall) as (cs' & new & -> & Hlen & Hs' & Hnew & Hp). cbn [mbind option_bind].
    exists (c :: cs'), new. split_and!; [done|simpl; lia|by apply Forall_cons|done|]. simpl.
    rewrite <- app_assoc, Hp. by rewrite Permutation_middle.
Qed.

Lemma insert_spec n e : sound n -> proper_entry e ->
  exists n' new, insert_recursive n e = Some (n', new) /\ sound n' /\ sibling_all sound new /\
    node_entries n' ++ sibling_entries new ≡ₚ e :: node_entries n.
Proof.
  intros Hs He. induction n as [es b|cs b IH] using node_ind.
  - cbn [insert_recursive]. destruct Hs as (Hne & Hp & _).
    assert (Forall proper_entry (es ++ [e])) as Hall by (apply Forall_app; split; [done|by apply Forall_singleton]).
    destruct (Nat.leb_spec (length (es ++ [e])) MAX_ENTRIES) as [Hle|Hgt].
    + exists (leaf (es ++ [e])), None. split_and!; [done|apply sound_leaf; [by destruct es|done]|done|].
      simpl. rewrite app_nil_r. symmetry. apply Permutation_cons_append.
    + destruct (split_groups_spec entry_box (point <$> es ++ [e]) (es ++ [e])) as (g1 & g2 & -> & H1 & H2 & Hg);
        [by rewrite length_fmap|unfold MAX_ENTRIES in Hgt; lia|].
      cbn [mbind option_bind]. exists (leaf g1), (Some (leaf g2)). rewrite <- Hg in Hall. apply Forall_app in Hall as [Ha1 Ha2].
      split_and!; [done|by apply sound_leaf|by apply sound_leaf|]. simpl. rewrite Hg. symmetry. apply Permutation_cons_append.
  - rewrite insert_internal. destruct Hs as (Hne & Hs%sound_all & _).
    destruct (insert_at_spec cs (choose_subtree cs e) e Hs) as (cs' & new & -> & Hlen & Hs' & Hnew & Hp).
    { by apply choose_subtree_lt. }
    { eapply Forall_impl; [exact IH|]. auto. }
    cbn [mbind option_bind]. destruct (close_node_spec cs' new) as (n & new' & -> & Hn & Hn' & Hpn);
      [by destruct cs, cs'|done|done|]. exists n, new'. split_and!; [done|done|done|]. by rewrite Hpn, Hp.
Qed.

(** ** Bulk load *)

Lemma sort_insert_perm f x l : sort_insert f x l ≡ₚ x :: l.
Proof.
  induction l as [|y l IH]; simpl; [done|]. destruct (_ < _)%f64; [|done]. rewrite IH. apply Permutation_swap.
Qed.

Lemma sort_entries_perm f l : sort_entries f l ≡ₚ l.
Proof. induction l as [|x l IH]; simpl; [done|]. by rewrite sort_insert_perm, IH. Qed.

(** The slices hold the entries, none is empty and none is longer than the size. *)
Lemma slices_spec size l cur : (0 < size)%nat -> (length cur < size)%nat ->
  concat (slices_of size l cur) = cur ++ l /\ Forall (fun s => s <> [] /\ (length s <= size)%nat) (slices_of size l cur).
Proof.
  intros Hs. revert cur. induction l as [|e l IH]; intros cur Hc; cbn [slices_of].
  - destruct cur as [|c cur]; [done|]. cbn [concat]. split; [done|]. apply Forall_singleton. split; [done|lia].
  - destruct (Nat.leb_spec size (length (cur ++ [e]))) as [Hle|Hlt].
    + destruct (IH [] ltac:(simpl; lia)) as [Hcat Hall]. cbn [concat]. rewrite Hcat, <- app_assoc. split; [done|].
      apply Forall_cons. split; [|done]. split; [by destruct cur|]. rewrite length_app in *. simpl in *. lia.
    + destruct (IH (cur ++ [e]) Hlt) as [Hcat Hall]. rewrite Hcat, <- app_assoc. done.
Qed.

Lemma slice_size_bounds count : (MAX_ENTRIES < count)%nat -> (0 < slice_size_of count < count)%nat.
Proof.
  unfold slice_size_of, MAX_ENTRIES. generalize (Z.to_nat (f64_ceil_usize (f64_sqrt (f64_of_int (Z.of_nat count))))). intros k Hn.
  assert (2 <= Nat.max k 2)%nat as Hk by lia. revert Hk. generalize (Nat.max k 2). intros c Hc. split.
  - apply Nat.div_str_pos. lia.
  - apply Nat.Div0.div_lt_upper_bound. nia.
Qed.

Lemma mapM_all {A B} (f : A -> option B) (R : A -> B -> Prop) l :
  Forall (fun x => exists y, f x = Some y /\ R x y) l -> exists ys, mapM f l = Some ys /\ Forall2 R l ys.
Proof.
  induction 1 as [|x l (y & Hy & HR) _ (ys & Hys & H2)]; [by exists []|].
  exists (y :: ys). simpl. rewrite Hy. simpl. rewrite Hys. split; [done|by constructor].
Qed.

(** The recursion ends, and the tree holds the entries. *)
Lemma build_spec fuel l : (length l <= fuel)%nat -> l <> [] -> Forall proper_entry l ->
  exists n, build_str_tree fuel l = Some n /\ sound n /\ node_entries n ≡ₚ l.
Proof.
  revert l. induction fuel as [|fuel IH]; intros l Hf Hne Hp; [destruct l; [done|simpl in Hf; lia]|].
  cbn [build_str_tree]. destruct (Nat.leb_spec (length l) MAX_ENTRIES) as [Hle|Hgt].
  - exists (leaf l). split_and!; [done|by apply sound_leaf|done].
  - destruct (slice_size_bounds _ Hgt) as [Hpos Hlt].
    destruct (slices_spec (slice_size_of (length l)) l [] Hpos Hpos) as [Hcat Hall]. simpl in Hcat.
    revert Hcat Hall. generalize (slices_of (slice_size_of (length l)) l []). intros slices Hcat Hall.
    rewrite <- Hcat in Hp. apply Forall_concat in Hp.
    destruct (mapM_all (build_str_tree fuel) (fun s n => sound n /\ node_entries n ≡ₚ s) (sort_entries (fun e => lat (point e)) <$> slices))
      as (cs & -> & H2).
    { apply Forall_fmap, Forall_forall. intros s Hs. simpl.
      pose proof (proj1 (Forall_forall _ _) Hall s Hs) as [Hsne Hslen]. pose proof (proj1 (Forall_forall _ _) Hp s Hs) as Hsp.
      pose proof (sort_entries_perm (fun e => lat (point e)) s) as Hperm.
      apply IH; [rewrite Hperm; lia| |by rewrite Hperm].
      intros H0. rewrite H0 in Hperm. by apply Permutation_nil in Hperm. }
    cbn [mbind option_bind]. exists (internal cs). split; [done|]. split.
    + apply sound_internal.
      * intros ->. apply Forall2_nil_inv_r in H2. apply fmap_nil_inv in H2. rewrite H2 in Hcat. simpl in Hcat. by rewrite <- Hcat in Hne.
      * clear - H2. remember (sort_entries _ <$> slices) as ss. clear Heqss. induction H2 as [|s n ss cs [Hs _] _ IH]; [by apply Forall_nil|].
        apply Forall_cons. split; [done|exact IH].
    + change (concat (node_entries <$> cs) ≡ₚ l). rewrite <- Hcat. clear - H2.
      remember (sort_entries (fun e => lat (point e)) <$> slices) as ss. revert slices Heqss.
      induction H2 as [|s n ss cs [_ Hn] _ IH]; intros slices Hss; destruct slices as [|s0 slices]; simplify_eq/=; [done|].
      rewrite Hn, sort_entries_perm. by rewrite (IH slices).
Qed.

(** ** The tree as its points *)

Definition tree_holds (t : RTree) (l : list GeoEntry) : Prop :=
  match root t with None => l = [] | Some r => sound r /\ node_entries r ≡ₚ l end /\ tree_size t = length l.

Lemma bulk_load_spec l : Forall proper_entry l -> exists t, bulk_load l = Some t /\ tree_holds t l.
Proof.
  intros Hp. destruct l as [|e l]; [by exists tree_new|]. unfold bulk_load.
  pose proof (sort_entries_perm (fun e => lon (point e)) (e :: l)) as Hperm.
  destruct (build_spec (length (e :: l)) (sort_entries (fun e => lon (point e)) (e :: l))) as (n & -> & Hn & He);
    [by rewrite Hperm| |by rewrite Hperm|].
  { intros H0. rewrite H0 in Hperm. by apply Permutation_nil in Hperm. }
  cbn [mbind option_bind]. eexists. split; [done|]. split; [|done]. simpl. split; [done|]. by rewrite He.
Qed.

Lemma tree_insert_spec t l e : tree_holds t l -> proper_entry e -> exists t', tree_insert e t = Some t' /\ tree_holds t' (l ++ [e]).
Proof.
  intros [Hr Hs] He. unfold tree_insert. destruct (root t) as [r|] eqn:Ht.
  - destruct Hr as [Hr Hp]. destruct (insert_spec r e Hr He) as (r' & new & -> & Hr' & Hnew & Hpn). cbn [mbind option_bind].
    eexists. split; [done|]. split; [|simpl; rewrite length_app, Hs; simpl; lia]. simpl.
    rewrite Hp in Hpn. rewrite <- Permutation_cons_append. destruct new as [n|]; simpl in *.
    + split; [apply sound_internal; [done|by repeat (apply Forall_cons; split; [done|]); apply Forall_nil]|].
      by rewrite app_nil_r.
    + split; [done|]. by rewrite app_nil_r in Hpn.
  - subst l. eexists. split; [done|]. split; [|done]. simpl. split; [|done]. by apply sound_leaf, Forall_singleton.
Qed.

Lemma range_query_holds t l q : tree_holds t l -> range_query q t ≡ₚ within q l.
Proof.
  intros [Hr _]. unfold range_query. destruct (root t) as [r|]; [|by subst l].
  destruct Hr as [Hs Hp]. rewrite range_query_sound by done. unfold within. by rewrite Hp.
Qed.

Definition insert_all (l : list GeoEntry) (t : RTree) : option RTree := foldl (fun t e => t ← t; tree_insert e t) (Some t) l.

Lemma tree_insert_all_spec l2 t l1 : tree_holds t l1 -> Forall proper_entry l2 -> exists t', insert_all l2 t = Some t' /\ tree_holds t' (l1 ++ l2).
Proof.
  unfold insert_all. revert t l1. induction l2 as [|e l2 IH]; intros t l1 Ht Hp; simpl.
  - exists t. by rewrite app_nil_r.
  - apply Forall_cons in Hp as [He Hp]. destruct (tree_insert_spec t l1 e Ht He) as (t' & -> & Ht').
    destruct (IH t' (l1 ++ [e]) Ht' Hp) as (t2 & -> & Ht2). exists t2. by rewrite <- app_assoc in Ht2.
Qed.

(** C19. A tree that is loaded with some entries and into which others are inserted
    exists (no panic, no endless recursion), counts all of them, and answers every
    range query with exactly the entries in the box, each as often as it was put
    in, in some order. *)
Theorem rtree_refines_points loaded inserted :
  Forall proper_entry loaded -> Forall proper_entry inserted ->
  exists t0 t, bulk_load loaded = Some t0 /\ insert_all inserted t0 = Some t /\
    tree_size t = length (loaded ++ inserted) /\
    forall q, range_query q t ≡ₚ filter (fun e => contains_point q (point e) = true) (loaded ++ inserted).
Proof.
  intros Hl Hi. destruct (bulk_load_spec loaded Hl) as (t0 & Ht0 & H0).
  destruct (tree_insert_all_spec inserted t0 loaded H0 Hi) as (t & Ht & H). exists t0, t.
  split_and!; [done|done|apply H|]. intros q. by apply range_query_holds.
Qed.

(** ** Balance *)

(** All leaves at one depth, and at most [MAX_ENTRIES] elements in a node. *)
Fixpoint balanced (h : nat) n : Prop :=
  match n, h with
  | Leaf es _, O => (length es <= MAX_ENTRIES)%nat
  | Internal cs _, Datatypes.S h => (length cs <= MAX_ENTRIES)%nat /\ foldr (fun c P => balanced h c /\ P) True cs
  | _, _ => False
  end.

Lemma balanced_all h cs : foldr (fun c P => balanced h c /\ P) True cs <-> Forall (balanced h) cs.
Proof. induction cs as [|c cs IH]; simpl; [by rewrite Forall_nil|]. by rewrite Forall_cons, IH. Qed.

(** The halves of a node with one element too many have room. *)
Lemma split_room {A} (box : A -> BoundingBox) points (l : list A) g1 g2 :
  split_groups box points l = Some (g1, g2) -> length points = length l -> length l = Datatypes.S MAX_ENTRIES ->
  (length g1 <= MAX_ENTRIES)%nat /\ (length g2 <= MAX_ENTRIES)%nat /\ g1 ++ g2 ≡ₚ l.
Proof.
  intros He Hp Hl. destruct (split_groups_spec box points l Hp) as (h1 & h2 & He' & H1 & H2 & Hperm); [unfold MAX_ENTRIES in Hl; lia|].
  rewrite He in He'. injection He' as <- <-. pose proof (Permutation_length Hperm) as Hlen. rewrite length_app, Hl in Hlen.
  destruct g1, g2; simpl in *; try done. split_and!; [lia|lia|done].
Qed.

Lemma close_balanced h cs new n new' :
  close_node cs new = Some (n, new') -> (length cs <= MAX_ENTRIES)%nat -> Forall (balanced h) cs -> sibling_all (balanced h) new ->
  balanced (Datatypes.S h) n /\ sibling_all (balanced (Datatypes.S h)) new'.
Proof.
  unfold close_node. intros He Hlen Hs Hnew.
  assert (Forall (balanced h) match new with Some n => cs ++ [n] | None => cs end /\
    (length match new with Some n => cs ++ [n] | None => cs end <= Datatypes.S MAX_ENTRIES)%nat) as [Hall Hle].
  { destruct new as [m|]; [|split; [done|lia]]. rewrite length_app. simpl.
    split; [apply Forall_app; split; [done|by apply Forall_singleton]|lia]. }
  revert He Hall Hle. generalize (match new with Some n => cs ++ [n] | None => cs end). intros l He Hall Hle.
  destruct (Nat.leb_spec (length l) MAX_ENTRIES) as [Hl|Hl].
  - injection He as <- <-. split; [|done]. simpl. split; [done|]. by apply balanced_all.
  - apply bind_Some in He as ([g1 g2] & Hg & He). injection He as <- <-.
    destruct (split_room _ _ _ _ _ Hg) as (H1 & H2 & Hp); [by rewrite length_fmap|lia|].
    rewrite <- Hp in Hall. apply Forall_app in Hall as [Ha1 Ha2]. simpl. rewrite !balanced_all. done.
Qed.

Lemma insert_at_balanced h cs i e cs' new :
  Forall (fun c => forall h c' new, balanced h c -> insert_recursive c e = Some (c', new) -> balanced h c' /\ sibling_all (balanced h) new) cs ->
  Forall (balanced h) cs -> insert_at cs i e = Some (cs', new) ->
  length cs' = length cs /\ Forall (balanced h) cs' /\ sibling_all (balanced h) new.
Proof.
  revert i cs'. induction cs as [|c cs IH]; intros i cs' Hall Hb He; [done|].
  apply Forall_cons in Hall as [Hc Hall]. apply Forall_cons in Hb as [Hbc Hb]. cbn [insert_at] in He. destruct i as [|i].
  - apply bind_Some in He as ([c' n] & Hi & He). injection He as <- <-. destruct (Hc _ _ _ Hbc Hi). split_and!; [done|by apply Forall_cons|done].
  - apply bind_Some in He as ([cs1 n] & Hi & He). injection He as <- <-. destruct (IH i cs1 Hall Hb Hi) as (Hlen & Hcs & Hn).
    split_and!; [simpl; lia|by apply Forall_cons|done].
Qed.

Lemma insert_balanced h n e n' new :
  balanced h n -> insert_recursive n e = Some (n', new) -> balanced h n' /\ sibling_all (balanced h) new.
Proof.
  revert h n' new. induction n as [es b|cs b IH] using node_ind; intros h n' new Hb.
  - cbn [insert_recursive]. destruct h as [|h]; [|done]. simpl in Hb.
    destruct (Nat.leb_spec (length (es ++ [e])) MAX_ENTRIES) as [Hle|Hgt]; [by intros [= <- <-]|].
    intros ([g1 g2] & Hg & He)%bind_Some. injection He as <- <-.
    destruct (split_room _ _ _ _ _ Hg) as (H1 & H2 & _); [by rewrite length_fmap| |done].
    rewrite length_app in *. simpl in *. lia.
  - destruct h as [|h]; [done|]. destruct Hb as [Hlen Hb%balanced_all]. rewrite insert_internal.
    intros ([cs' m] & Hi & He)%bind_Some. destruct (insert_at_balanced h _ _ _ _ _ IH Hb Hi) as (Hlen' & Hcs' & Hm).
    eapply close_balanced; [exact He|lia|done|done].
Qed.

Definition tall (t : RTree) : Prop := exists r h, root t = Some r /\ balanced h r.

Lemma insert_tall e t t' : root t = None \/ tall t -> tree_insert e t = Some t' -> tall t'.
Proof.
  unfold tree_insert. intros [->|(r & h & -> & Hh)].
  - intros [= <-]. exists (leaf [e]), 0%nat. split; [done|]. simpl. unfold MAX_ENTRIES. lia.
  - intros ([r' new] & Hi & E)%bind_Some. injection E as <-. destruct (insert_balanced h _ _ _ _ Hh Hi) as [Hr' Hn].
    destruct new as [m|]; [|by exists r', h].
    exists (internal [r'; m]), (Datatypes.S h). split; [done|]. simpl. unfold MAX_ENTRIES. split; [lia|done].
Qed.

Lemma insert_none l : foldl (fun t e => t ← t; tree_insert e t) None l = None.
Proof. by induction l. Qed.

Lemma insert_all_tall l t t' : tall t -> insert_all l t = Some t' -> tall t'.
Proof.
  unfold insert_all. revert t. induction l as [|e l IH]; intros t Ht; simpl; [by intros [= <-]|].
  destruct (tree_insert e t) as [t1|] eqn:E; [|by rewrite insert_none]. apply IH. apply (insert_tall e t); [by right|done].
Qed.

(** A tree that insertions have built has all its leaves at one depth and at
    most eight elements in every node. *)
Theorem rtree_balanced e l t : insert_all (e :: l) tree_new = Some t -> exists r h, root t = Some r /\ balanced h r.
Proof.
  change (insert_all (e :: l) tree_new) with (insert_all l (mkTree (Some (leaf [e])) 1)). apply insert_all_tall.
  apply (insert_tall e tree_new); [by left|done].
Qed.

(** ** A run *)

Definition ex_entry (i : Z) : GeoEntry := mkEntry [i] (mkPoint (num ((i * 37) mod 60)) (num ((i * 17) mod 40))) 0.
Definition ex_entries (from count : nat) : list GeoEntry := (fun i => ex_entry (Z.of_nat i)) <$> seq from count.
Definition ex_box : BoundingBox := mkBox (num 10) (num 30) (num 5) (num 20).

Definition entry_ok e : bool := negb (is_nan (lon (point e))) && negb (is_nan (lat (point e))).

Lemma entries_ok l : forallb entry_ok l = true -> Forall proper_entry l.
Proof.
  induction l as [|e l IH]; simpl; [intros _; apply Forall_nil; done|]. rewrite andb_true_iff. intros [He Hl].
  apply Forall_cons. split; [|by apply IH]. unfold entry_ok in He. apply andb_true_iff in He as [H1%negb_true_iff H2%negb_true_iff]. by split.
Qed.

Lemma rtree_balanced_witness :
  exists t r h, insert_all (ex_entries 0 40) tree_new = Some t /\ root t = Some r /\ balanced h r.
Proof.
  destruct (insert_all (ex_entries 0 40) tree_new) as [t|] eqn:E; [|by vm_compute in E].
  destruct (rtree_balanced _ _ _ E) as (r & h & Hr & Hh). exists t, r, h. split; [reflexivity|]. split; [exact Hr|exact Hh].
Defined.

Lemma rtree_refines_points_witness :
  exists t0 t, bulk_load (ex_entries 0 20) = Some t0 /\ insert_all (ex_entries 20 20) t0 = Some t /\
    range_query ex_box t ≡ₚ filter (fun e => contains_point ex_box (point e) = true) (ex_entries 0 20 ++ ex_entries 20 20).
Proof.
  destruct (rtree_refines_points (ex_entries 0 20) (ex_entries 20 20)) as (t0 & t & H0 & Ht & _ & Hq);
    [apply entries_ok; by vm_compute|apply entries_ok; by vm_compute|].
  exists t0, t. split; [exact H0|]. split; [exact Ht|]. apply Hq.
Defined.

(** The bulk load makes nodes of more than [MAX_ENTRIES] children. *)
Example ex_wide_node :
  match t ← bulk_load (ex_entries 0 65); root t with Some (Internal cs _) => length cs | _ => 0%nat end = 9%nat.
Proof. by vm_compute. Qed.
