(* ===== verification/GeoSet.v ===== *)
(** * Geographic sets

    Models [GeoSet] of [src/src/database/geo/geo_base.rs], a map from names to
    points with an R-tree and an index by geohash beside it, and the geographic
    operations of [InMemoryStore] in [src/src/engine/memory.rs].  [None] is a
    panic, or a call that never returns. *)
From S2P Require Import Prelude Interfaces SdsNumeric ZdbValue Numbers Floats Storage Memory Geography Geohash RTree.
Local Open Scope Z_scope.

Record RadiusOptions : Type := mkOptions {
  use_geohash : bool; geohash_precision : option GeohashPrecision; include_neighbors : bool;
}.
Definition default_radius_options : RadiusOptions := mkOptions true None true.

Record GeoSet : Type := mkGeo {
  rtree : RTree; member_index : gmap bytes GeoPoint; geohash_index : gmap bytes (list bytes); needs_rebuild : bool;
}.
Implicit Types (g : GeoSet) (p : GeoPoint) (name : bytes).

Definition geo_new : GeoSet := mkGeo tree_new ∅ ∅ false.

(** [PartialEq] *)
Definition point_eq (a b : GeoPoint) : bool := f64_eq (lon a) (lon b) && f64_eq (lat a) (lat b).

(** [refine_bit] for the longitude and the latitude of a round. *)
Fixpoint interleave (n : nat) p (b : BoundingBox) (h : Z) : Z :=
  match n with
  | O => h
  | S n =>
      let x := upper_half true p b in
      let b := halve true x b in
      let h := Z.lor (Z.shiftl h 1) (Z.b2z x) in
      let y := upper_half false p b in
      let b := halve false y b in
      interleave n p b (Z.lor (Z.shiftl h 1) (Z.b2z y))
  end.
Definition encode_geohash_bits p : Z := interleave 26 p WORLD 0.

(** A member under the cell of its point. *)
Definition index_member name p (ix : gmap bytes (list bytes)) : gmap bytes (list bytes) :=
  let cell := hash (encode p High) in <[cell := default [] (ix !! cell) ++ [name]]> ix.

Definition index_entries (es : list GeoEntry) (ix : gmap bytes (list bytes)) : gmap bytes (list bytes) :=
  foldl (fun ix e => index_member (member e) (point e) ix) ix es.

Definition from_entries (es : list GeoEntry) : option GeoSet :=
  t ← bulk_load es;
  Some (mkGeo t (foldl (fun m e => <[member e := point e]> m) ∅ es) (index_entries es ∅) false).

Definition validate_coords p : bool := contains_point WORLD p.

(** Coordinates out of range are ignored. *)
Definition add name p g : option GeoSet :=
  if negb (validate_coords p) then Some g
  else
    let old := member_index g !! name in
    t ← tree_insert (mkEntry name p (encode_geohash_bits p)) (rtree g);
    Some (mkGeo t (<[name := p]> (member_index g))
      match old with None => index_member name p (geohash_index g) | Some _ => geohash_index g end
      match old with Some q => if point_eq q p then needs_rebuild g else true | None => needs_rebuild g end).

Definition geo_get name g : option GeoPoint := member_index g !! name.
Definition get_geohash name (pr : GeohashPrecision) g : option Geohash := (fun p => encode p pr) <$> geo_get name g.

Section GeoSet.
Context {libm : Libm} {point_order : HashOrder (bytes * GeoPoint)} {cell_order : HashOrder (bytes * list bytes)}
  {node_order : HashOrder (f64 * (RTreeNode + GeoEntry))} {result_order : HashOrder (f64 * GeoEntry)}.

Definition dist_with_method (m1 m2 : bytes) (how : DistanceMethod) g : option f64 :=
  p1 ← geo_get m1 g; p2 ← geo_get m2 g; Some (distance_m (calculate_distance p1 p2 how)).
Definition dist (m1 m2 : bytes) g : option f64 := dist_with_method m1 m2 Haversine g.
Definition dist_in_units (m1 m2 : bytes) (how : DistanceMethod) (u : DistanceUnit) g : option f64 :=
  d ← dist_with_method m1 m2 how g; Some (convert_from_meters u d).

Definition rebuild_index g : option GeoSet :=
  if negb (needs_rebuild g) then Some g
  else
    let es := (fun x => mkEntry x.1 x.2 (encode_geohash_bits x.2)) <$> shuffle (map_to_list (member_index g)) in
    t ← bulk_load es;
    Some (mkGeo t (member_index g) (index_entries es ∅) false).

Definition radius_to_bbox p (radius_m : f64) : BoundingBox :=
  let lat_delta := (radius_m / num 111000)%f64 in
  let lon_delta := (radius_m / (num 111000 * f64_max (f64_abs (f64_cos (to_radians (lat p)))) (f64_lit 1 100)))%f64 in
  mkBox (f64_max (lon p - lon_delta) (num (-180)))%f64 (f64_min (lon p + lon_delta) (num 180))%f64
    (f64_max (lat p - lat_delta) (num (-90)))%f64 (f64_min (lat p + lat_delta) (num 90))%f64.

(** The members of the cell of the centre and, if asked for, of its four
    neighbours, at the given precision. *)
Definition cell_members p (pr : GeohashPrecision) (neighbors : bool) g : option (list bytes) :=
  let c := encode p pr in
  let of_cell (h : Geohash) := default [] (geohash_index g !! hash h) in
  ns ← (if neighbors then all_neighbors c else Some []);
  Some (of_cell c ++ concat (of_cell <$> ns)).

Definition precision_of (o : RadiusOptions) (radius_m : f64) : GeohashPrecision :=
  default (from_radius radius_m) (geohash_precision o).

(** Names with their distance, of those that are near enough. *)
Definition near_points (distance : GeoPoint -> f64) (radius_m : f64) (l : list (bytes * GeoPoint)) : list (bytes * f64) :=
  omap (fun x => let d := distance x.2 in if (d <= radius_m)%f64 then Some (x.1, d) else None) l.

(** The indexed point of every name. *)
Definition with_points (names : list bytes) g : list (bytes * GeoPoint) :=
  omap (fun n => q ← member_index g !! n; Some (n, q)) names.

Definition radius_with_geohash p (radius_m : f64) (o : RadiusOptions) g : option (list (bytes * f64)) :=
  names ← cell_members p (precision_of o radius_m) (include_neighbors o) g;
  Some (near_points (haversine_dist p) radius_m (with_points names g)).

Definition radius_with_options p (radius_m : f64) (o : RadiusOptions) g : option (list (bytes * f64) * GeoSet) :=
  if negb (validate_coords p) then Some ([], g)
  else
    g ← rebuild_index g;
    if use_geohash o then r ← radius_with_geohash p radius_m o g; Some (r, g)
    else Some (near_points (haversine_dist p) radius_m ((fun e => (member e, point e)) <$> range_query (radius_to_bbox p radius_m) (rtree g)), g).

Definition radius p (radius_m : f64) g : option (list (bytes * f64) * GeoSet) :=
  radius_with_options p radius_m default_radius_options g.

(** What the tree or the cells find before the exact distances. *)
Definition candidates p (radius_m : f64) (o : RadiusOptions) g : option (list (bytes * GeoPoint)) :=
  if use_geohash o then
    names ← cell_members p (precision_of o radius_m) (include_neighbors o) g; Some (with_points names g)
  else Some ((fun e => (member e, point e)) <$> range_query (radius_to_bbox p radius_m) (rtree g)).

Definition radius_with_method p (r : f64) (u : DistanceUnit) (o : RadiusOptions) (how : DistanceMethod) g
  : option (list (bytes * f64) * GeoSet) :=
  if negb (validate_coords p) then Some ([], g)
  else
    g ← rebuild_index g;
    let radius_m := convert_to_meters u r in
    points ← candidates p radius_m o g;
    Some (near_points (fun q => distance_m (calculate_distance p q how)) radius_m points, g).

Definition bbox_query (b : BoundingBox) g : list bytes :=
  concat ((fun prefix =>
    concat ((fun x : bytes * list bytes => omap (fun n => q ← member_index g !! n; if contains_point b q then Some n else None) x.2)
      <$> filter (fun x => starts_with prefix x.1 = true) (shuffle (map_to_list (geohash_index g)))))
    <$> geohash_ranges_for_bbox b Medium).

Definition nearest p (k : nat) g : option (list (bytes * f64)) :=
  if negb (validate_coords p) || (k =? 0)%nat then Some []
  else match knn p k (rtree g) with Some r => Some ((fun x => (member x.1, x.2)) <$> r) | None => None end.

Definition nearest_by_member name (k : nat) g : option (option (list (bytes * f64))) :=
  match geo_get name g with
  | None => Some None
  | Some p => r ← nearest p (k + 1) g; Some (Some (take k (filter (fun x => x.1 <> name) r)))
  end.

Definition geo_len g : nat := size (member_index g).
Definition index_stats g : TreeStats := tree_stats (rtree g).

(** ** The operations of the store *)

Notation Store := (InMemoryStore GeoSet).
Implicit Types (s : Store).

Definition with_geo (m : gmap bytes GeoSet) s : Store := mkStore GeoSet (Memory.data s) m.

Definition unit_is (u : bytes) (name : string) : bool := bool_decide (u = ascii_bytes name).

(** [{:?}] of a slice of bytes, and [to_string] of an [Sds]. *)
Fixpoint debug_elements (l : bytes) : bytes :=
  match l with [] => [] | [b] => fmt_int b | b :: l => fmt_int b ++ ascii_bytes ", " ++ debug_elements l end.
Definition sds_to_string (b : bytes) : bytes := if is_utf8 b then b else 91 :: debug_elements b ++ [93].

(** The set is created before the member is looked at. *)
Definition geo_add (key : bytes) p (name : bytes) : action Store bool := fun s =>
  let g := default geo_new (geo s !! key) in
  let s := with_geo (<[key := g]> (geo s)) s in
  if negb (is_utf8 name) then Some (Err Utf8, s)
  else
    let existed := bool_decide (is_Some (geo_get name g)) in
    g ← add name p g;
    Some (Ok (negb existed), with_geo (<[key := g]> (geo s)) s).

Definition geo_pos (key name : bytes) : action Store (option GeoPoint) := fun s =>
  match geo s !! key with
  | None => Some (Ok None, s)
  | Some g => if is_utf8 name then Some (Ok (geo_get name g), s) else Some (Err Utf8, s)
  end.

Definition geo_dist (key m1 m2 unit_ : bytes) : action Store (option f64) := fun s =>
  match geo s !! key with
  | None => Some (Ok None, s)
  | Some g =>
      let convert (d : f64) :=
        if unit_is unit_ "km" then (d / num 1000)%f64
        else if unit_is unit_ "mi" then (d / f64_lit 1609344 1000)%f64
        else if unit_is unit_ "ft" then (d / f64_lit 328084 100000)%f64
        else d in
      Some (Ok (convert <$> dist (sds_to_string m1) (sds_to_string m2) g), s)
  end.

Definition geo_radius (key : bytes) p (r : f64) (unit_ : bytes) : action Store (list (bytes * f64 * GeoPoint)) := fun s =>
  match geo s !! key with
  | None => Some (Ok [], s)
  | Some g =>
      let radius_m :=
        if unit_is unit_ "km" then (r * num 1000)%f64
        else if unit_is unit_ "mi" then (r * f64_lit 1609344 1000)%f64
        else if unit_is unit_ "ft" then (r / f64_lit 328084 100000)%f64
        else r in
      let back (d : f64) :=
        if unit_is unit_ "km" then (d / num 1000)%f64
        else if unit_is unit_ "mi" then (d / f64_lit 1609344 1000)%f64
        else if unit_is unit_ "ft" then (d * f64_lit 328084 100000)%f64
        else d in
      '(raw, g) ← radius p radius_m g;
      out ← mapM (fun x : bytes * f64 => q ← geo_get x.1 g; Some (x.1, back x.2, q)) raw;
      Some (Ok out, with_geo (<[key := g]> (geo s)) s)
  end.

(** When the member is found, [geo_radius] asks for the set to write while the
    reference from the lookup is held: the map never gives it. *)
Definition geo_radius_by_member (key name : bytes) (r : f64) (unit_ : bytes) : action Store (list (bytes * f64 * GeoPoint)) := fun s =>
  match geo s !! key with
  | None => Some (Ok [], s)
  | Some g =>
      if negb (is_utf8 name) then Some (Err Utf8, s)
      else match geo_get name g with
           | None => Some (Ok [], s)
           | Some p => None
           end
  end.
End GeoSet.
