(* ===== verification/GeoSetLaws.v ===== *)
(** * What a geographic set promises

    The map of names and the R-tree agree through all additions and rebuilds, so
    that a search through the tree finds exactly the members that are in the box
    and near enough ([radius_exact]); the search through the cells, which is the
    default, finds nobody unless the radius asks for the precision of the index
    ([radius_default_misses]). *)
From S2P Require Import Prelude Interfaces SdsNumeric ZdbValue Numbers Floats Storage Memory Geography Geohash RTree RTreeLaws GeoSet.
Local Open Scope Z_scope.

Section Laws.
Context {libm : Libm} {point_order : HashOrder (bytes * GeoPoint)}.
Implicit Types (g : GeoSet) (p : GeoPoint) (name : bytes).

(** ** Points *)

(** Coordinates of 64 bits that are not the negative zero: equal ones are the same. *)
Definition plain_coordinate (f : f64) : Prop := is_u 64 (f64_bits f) /\ f64_bits f <> 2 ^ 63.
Definition plain p : Prop := plain_coordinate (lon p) /\ plain_coordinate (lat p).

Lemma plain_eq a b : plain_coordinate a -> plain_coordinate b -> f64_eq a b = true -> a = b.
Proof.
  assert (forall f, plain_coordinate f -> f64_magnitude f = 0 -> f64_bits f = 0) as Hz.
  { intros f [Hu Hn]. unfold f64_magnitude. rewrite Z.land_ones by lia. unfold is_u in Hu.
    change (2 ^ 64) with (2 * 2 ^ 63) in Hu. pose proof (Z.div_mod (f64_bits f) (2 ^ 63) ltac:(lia)) as Hd.
    assert (0 <= f64_bits f / 2 ^ 63 < 2) by (split; [apply Z.div_pos; lia|apply Z.div_lt_upper_bound; lia]). intros H0. nia. }
  intros Ha Hb. unfold f64_eq. rewrite !andb_true_iff, orb_true_iff, andb_true_iff, !Z.eqb_eq. intros [_ H].
  destruct a as [x], b as [y]. simpl in *. f_equal. destruct H as [H|[H1 H2]]; [done|].
  pose proof (Hz _ Ha H1). pose proof (Hz _ Hb H2). simpl in *. congruence.
Qed.

Lemma plain_point_eq p q : plain p -> plain q -> point_eq p q = true -> p = q.
Proof.
  intros [H1 H2] [H3 H4]. unfold point_eq. rewrite andb_true_iff. intros [Ha Hb].
  destruct p, q. simpl in *. f_equal; by apply plain_eq.
Qed.

Lemma valid_proper p : validate_coords p = true -> proper p.
Proof.
  intros (H1 & _ & H3 & _)%contains_spec. split; by eapply f64_le_nan_r.
Qed.

(** ** The set and its tree *)

(** The points of some additions: the last valid one of every name. *)
Definition points_of (l : list (bytes * GeoPoint)) : gmap bytes GeoPoint :=
  foldl (fun m x => if validate_coords x.2 then <[x.1 := x.2]> m else m) ∅ l.

Definition add_all (l : list (bytes * GeoPoint)) g : option GeoSet := foldl (fun acc x => acc ← acc; add x.1 x.2 acc) (Some g) l.

(** The entries of the tree are the members with their points. *)
Definition same_points (es : list GeoEntry) (m : gmap bytes GeoPoint) : Prop :=
  forall name p, m !! name = Some p <-> exists e, e ∈ es /\ member e = name /\ point e = p.

Record consistent g : Prop := {
  cons_valid : map_Forall (fun _ p => validate_coords p = true /\ plain p) (member_index g);
  cons_tree : exists es, tree_holds (rtree g) es /\ (needs_rebuild g = true \/ same_points es (member_index g));
  cons_cells : forall cell l, geohash_index g !! cell = Some l -> length cell = 7%nat;
}.

Lemma new_consistent : consistent geo_new.
Proof.
  split; [done| |done]. exists []. split; [done|]. right. intros name p. simpl. rewrite lookup_empty. set_solver.
Qed.

Lemma index_member_cells name p ix :
  (forall cell l, ix !! cell = Some l -> length cell = 7%nat) ->
  forall cell l, index_member name p ix !! cell = Some l -> length cell = 7%nat.
Proof.
  intros Hix cell l. unfold index_member. destruct (decide (hash (encode p High) = cell)) as [<-|Hne].
  - intros _. apply encode_hash_length.
  - rewrite lookup_insert_ne by done. apply Hix.
Qed.

Lemma index_entries_cells es ix :
  (forall cell l, ix !! cell = Some l -> length cell = 7%nat) ->
  forall cell l, index_entries es ix !! cell = Some l -> length cell = 7%nat.
Proof.
  unfold index_entries. revert ix. induction es as [|e es IH]; intros ix Hix; simpl; [done|].
  apply IH. by apply index_member_cells.
Qed.

Lemma add_consistent name p g :
  consistent g -> plain p ->
  exists g', add name p g = Some g' /\ consistent g' /\
    member_index g' = (if validate_coords p then <[name := p]> (member_index g) else member_index g).
Proof.
  intros [Hv (es & Ht & Hr) Hc] Hp. unfold add. destruct (validate_coords p) eqn:Hval; simpl; [|by exists g; split_and!; [|split; eauto|]].
  destruct (tree_insert_spec _ _ (mkEntry name p (encode_geohash_bits p)) Ht (valid_proper p Hval)) as (t & -> & Ht').
  cbn [mbind option_bind]. eexists. split; [done|]. split; [|done]. split; simpl.
  - by apply map_Forall_insert_2.
  - exists (es ++ [mkEntry name p (encode_geohash_bits p)]). split; [done|].
    destruct Hr as [Hr|Hs]; [left; rewrite Hr; destruct (member_index g !! name); [by case_match|done]|].
    destruct (member_index g !! name) as [q|] eqn:Hq; [destruct (point_eq q p) eqn:Heq; [|by left]|]; right; intros n q'.
    + assert (q = p) as -> by (apply plain_point_eq; [by apply (Hv _ _ Hq)|done|done]).
      rewrite insert_id by done. rewrite (Hs n q'). setoid_rewrite elem_of_app. setoid_rewrite list_elem_of_singleton. split.
      * intros (e & He & H1 & H2). exists e. auto.
      * intros (e & [He| ->] & H1 & H2); [by exists e|]. simpl in *. subst. by apply Hs.
    + setoid_rewrite elem_of_app. setoid_rewrite list_elem_of_singleton. rewrite lookup_insert_Some. split.
      * intros [[<- <-]|[Hne Hl]]; [eexists; split; [by right|done]|]. apply Hs in Hl as (e & He & H1 & H2). exists e. auto.
      * intros (e & [He| ->] & <- & <-); [right|by left]. assert (member_index g !! member e = Some (point e)) as Hl by (apply Hs; eauto).
        split; [congruence|done].
  - destruct (member_index g !! name); [done|]. by apply index_member_cells.
Qed.

Lemma add_all_spec l g : consistent g -> Forall (fun x => plain x.2) l ->
  exists g', add_all l g = Some g' /\ consistent g' /\
    member_index g' = foldl (fun m x => if validate_coords x.2 then <[x.1 := x.2]> m else m) (member_index g) l.
Proof.
  unfold add_all. revert g. induction l as [|[n p] l IH]; intros g Hg Hl; simpl; [by exists g|].
  apply Forall_cons in Hl as [Hp Hl]. destruct (add_consistent n p g Hg Hp) as (g1 & -> & Hg1 & Hm).
  destruct (IH g1 Hg1 Hl) as (g' & -> & Hg' & Hm'). exists g'. by rewrite <- Hm.
Qed.

Lemma geo_rebuild_spec g : consistent g ->
  exists g' es, rebuild_index g = Some g' /\ consistent g' /\ member_index g' = member_index g /\
    tree_holds (rtree g') es /\ same_points es (member_index g).
Proof.
  intros [Hv (es & Ht & Hr) Hc]. unfold rebuild_index. generalize encode_geohash_bits. intros score_of.
  destruct (needs_rebuild g) eqn:Hn; simpl.
  - set (l := (fun x => mkEntry x.1 x.2 (score_of x.2)) <$> shuffle (map_to_list (member_index g))).
    assert (same_points l (member_index g)) as Hsame.
    { intros n p. subst l. setoid_rewrite list_elem_of_fmap. setoid_rewrite shuffle_perm. split.
      - intros Hm. eexists. split; [exists (n, p); split; [done|by apply elem_of_map_to_list]|done].
      - intros (e & ([n' p'] & -> & Hin) & <- & <-). by apply elem_of_map_to_list in Hin. }
    assert (Forall proper_entry l) as Hp.
    { apply Forall_forall. intros e He. apply valid_proper. assert (member_index g !! member e = Some (point e)) as Hm by (apply Hsame; eauto).
      by apply (Hv _ _ Hm). }
    destruct (bulk_load_spec l Hp) as (t & -> & Htl). cbn [mbind option_bind]. eexists _, l. split; [done|].
    split_and!; [|done|done|done]. split; simpl; [done|exists l; auto|]. by apply index_entries_cells.
  - destruct Hr as [Hr|Hs]; [done|]. exists g, es. split_and!; [done| |done|done|done]. split; [done|exists es; auto|done].
Qed.

(** C18. After any additions a search that goes through the tree finds exactly the
    members whose last point is in the box of the circle and not farther than the
    radius, with their distances; nothing panics.  The members found are compared as
    a set: one that was added again may be listed more than once. *)
Theorem radius_exact l centre radius_m pr neighbors :
  Forall (fun x => plain x.2) l -> validate_coords centre = true ->
  exists g found g', add_all l geo_new = Some g /\
    radius_with_options centre radius_m (mkOptions false pr neighbors) g = Some (found, g') /\
    member_index g' = points_of l /\
    forall name d, (name, d) ∈ found <->
      exists p, points_of l !! name = Some p /\ contains_point (radius_to_bbox centre radius_m) p = true /\
        d = haversine_dist centre p /\ (d <= radius_m)%f64 = true.
Proof.
  intros Hl Hc. destruct (add_all_spec l geo_new new_consistent Hl) as (g & Hg & Hcons & Hm).
  destruct (geo_rebuild_spec g Hcons) as (g' & es & Hr & _ & Hm' & Ht & Hs).
  unfold radius_with_options. exists g. rewrite Hc, Hr. cbn [negb mbind option_bind use_geohash].
  eexists _, g'. split; [exact Hg|]. split; [reflexivity|]. split; [by rewrite Hm', Hm|].
  clear Hg Hr. revert Ht. generalize (radius_to_bbox centre radius_m) (haversine_dist centre). intros box distance Ht.
  intros name d. unfold near_points. rewrite list_elem_of_omap. 
  assert (points_of l = member_index g) as -> by by rewrite Hm.
  setoid_rewrite list_elem_of_fmap. setoid_rewrite (range_query_holds _ _ _ Ht).
  unfold within. setoid_rewrite list_elem_of_filter. split.
  - intros ([n p] & (e & He & Hin & Hes) & Hd). simplify_eq/=. destruct (_ <= _)%f64 eqn:Hle; [|done]. injection Hd as <- <-.
    exists (point e). split_and!; [apply Hs; eauto|done|done|done].
  - intros (p & Hp & Hin & -> & Hle). apply Hs in Hp as (e & He & <- & <-).
    exists (member e, point e). split; [by exists e|]. simpl. by rewrite Hle.
Qed.

(** ** The default search *)

Lemma precision_range pr : (4 <= precision_chars pr <= 12)%nat.
Proof. destruct pr; simpl; lia. Qed.

(** No cell of another precision is in the index. *)
Lemma other_cells_empty centre pr g :
  (forall cell l, geohash_index g !! cell = Some l -> length cell = 7%nat) -> precision_chars pr <> 7%nat ->
  cell_members centre pr true g = Some [].
Proof.
  intros Hcells H7.
  assert (forall h : Geohash, length (hash h) = precision_chars pr -> default [] (geohash_index g !! hash h) = []) as Hno.
  { intros h Hh. destruct (geohash_index g !! hash h) as [ns|] eqn:E; [|done]. by rewrite (Hcells _ _ E) in Hh. }
  pose proof (encode_hash_length centre pr) as L0. unfold cell_members, all_neighbors, encode in *.
  pose proof (precision_range pr) as Hran.
  destruct (neighbor_some centre _ North Hran) as (h1 & -> & L1). destruct (neighbor_some centre _ South Hran) as (h2 & -> & L2).
  destruct (neighbor_some centre _ East Hran) as (h3 & -> & L3). destruct (neighbor_some centre _ West Hran) as (h4 & -> & L4).
  cbn [mbind option_bind fmap list_fmap concat]. by rewrite (Hno _ L0), (Hno _ L1), (Hno _ L2), (Hno _ L3), (Hno _ L4).
Qed.

(** C26. The index by cells has the precision [High] alone, and the default search
    looks up the cells of the precision that fits the radius: for every other
    precision it finds nobody, whoever is in the set. *)
Theorem radius_default_misses l centre radius_m :
  Forall (fun x => plain x.2) l -> from_radius radius_m <> High ->
  exists g g', add_all l geo_new = Some g /\ radius centre radius_m g = Some ([], g') /\ member_index g' = points_of l.
Proof.
  intros Hl Hpr. destruct (add_all_spec l geo_new new_consistent Hl) as (g & Hg & Hcons & Hm).
  exists g. unfold radius, radius_with_options. destruct (validate_coords centre) eqn:Hc; cbn [negb]; [|by exists g].
  destruct (geo_rebuild_spec g Hcons) as (g' & es & -> & [_ _ Hcells] & Hm' & _). cbn [mbind option_bind].
  exists g'. split; [exact Hg|]. split; [|by rewrite Hm', Hm].
  unfold radius_with_geohash, precision_of. cbn [geohash_precision include_neighbors default_radius_options default use_geohash].
  rewrite (other_cells_empty centre _ g' Hcells); [reflexivity|]. by destruct (from_radius radius_m).
Qed.
End Laws.

(** ** Runs *)

(** Functions that stand for the platform's in the runs: an angle is its sine. *)
#[local] Instance ex_libm : Libm := {|
  f64_sin := fun x => x; f64_cos := fun _ => num 1; f64_tan := fun x => x; f64_acos := fun x => x; f64_atan := fun x => x;
  f64_atan2 := fun y _ => y;
|}.

Definition ex_near : GeoPoint := mkPoint (f64_lit 1 1000) (f64_lit 1 1000).
Definition ex_far : GeoPoint := mkPoint (num 10) (num 10).
Definition ex_points : list (bytes * GeoPoint) := [([1], ex_far); ([2], ex_near); ([1], ex_near)].
Definition ex_centre : GeoPoint := mkPoint (f64_lit 2 1000) (f64_lit 2 1000).

Definition plain_ok p : bool :=
  (0 <=? f64_bits (lon p)) && (f64_bits (lon p) <? 2 ^ 63) && (0 <=? f64_bits (lat p)) && (f64_bits (lat p) <? 2 ^ 63).

Lemma plain_ok_spec p : plain_ok p = true -> plain p.
Proof.
  unfold plain_ok. rewrite !andb_true_iff, !Z.leb_le, !Z.ltb_lt. intros [[[H1 H2] H3] H4].
  unfold plain, plain_coordinate, is_u. change (2 ^ 64) with (2 * 2 ^ 63). lia.
Qed.

Lemma ex_points_plain : Forall (fun x => plain x.2) ex_points.
Proof. repeat (apply Forall_cons; split; [apply plain_ok_spec; by vm_compute|]). apply Forall_nil. exact I. Qed.

Lemma radius_exact_witness :
  exists g found g', add_all ex_points geo_new = Some g /\
    radius_with_options ex_centre (num 1000) (mkOptions false None true) g = Some (found, g') /\
    exists d, ([1], d) ∈ found.
Proof.
  destruct (radius_exact ex_points ex_centre (num 1000) None true ex_points_plain) as (g & found & g' & Hg & Hr & _ & Hf); [by vm_compute|].
  exists g, found, g'. split; [exact Hg|]. split; [exact Hr|]. exists (haversine_dist ex_centre ex_near). apply Hf.
  exists ex_near. split; [by vm_compute|]. split; [by vm_compute|]. split; [reflexivity|]. by vm_compute.
Defined.

Lemma radius_default_misses_witness :
  exists g g', add_all ex_points geo_new = Some g /\ radius ex_centre (num 1000) g = Some ([], g').
Proof.
  destruct (radius_default_misses ex_points ex_centre (num 1000) ex_points_plain) as (g & g' & Hg & Hr & _); [by vm_compute|].
  exists g, g'. split; [exact Hg|exact Hr].
Defined.

(** Nearest neighbours are looked for without a rebuild: a member that has moved is
    found at both places. *)
Example ex_stale :
  (g ← add_all ex_points geo_new; r ← nearest ex_centre 3 g; Some (r.*1)) = Some [[1]; [2]; [1]].
Proof. by vm_compute. Qed.

