(* ===== verification/Administration.v ===== *)
(** * The other commands with a body

    Models the commands of [src/src/command] that answer about the server
    ([server.rs]), the geographic ones ([geo.rs]), [AUTH] ([auth.rs]) and the
    answers to those of publish and subscribe ([pubsub.rs]), over any engine; the
    whole enum [Command] with its dispatch; and the geographic operations of the
    store as such an engine's. *)
From S2P Require Import Prelude Interfaces SdsNumeric ZdbValue Numbers Floats Storage Commands.
From S2P Require Memory Bitmap Geography Geohash RTree GeoSet.
Local Open Scope Z_scope.

(** The text of a message. *)
Definition text_of (b : bytes) : string := String.string_of_list_ascii ((fun c => Ascii.ascii_of_nat (Z.to_nat c)) <$> b).

Section Administration.
Context {M : Type} {ops : StorageOps M} {geo : GeoOps M}.
Notation execution := (action M Value).

(** ** The server *)

Definition info_line (s : string) : bytes := ascii_bytes s ++ [13; 10].

(** The answer to a section; the number of keys is 0 when it is not to be had. *)
Definition InfoCommand (section : option bytes) : execution :=
  match section with
  | None => aret (VStr (concat (info_line <$>
      ["# Server"; "zumic_version:0.4.0"; "zumic_mode:standalone"; "os:Linux"; "arch_bits:64"]%string)))
  | Some s =>
      if bool_decide (s = ascii_bytes "server") then aret (VStr (concat (info_line <$>
        ["# Server"; "zumic_version:0.4.0"; "zumic_mode:standalone"; "os:Linux"; "arch_bits:64"]%string)))
      else if bool_decide (s = ascii_bytes "memory") then
        aret (VStr (concat (info_line <$> ["# Memory"; "used_memory:0"; "used_memory_human:0B"]%string)))
      else if bool_decide (s = ascii_bytes "stats") then fun m =>
        '(r, m) ← st_dbsize m;
        let n := match r with Ok n => n | Err _ => 0%nat end in
        aret (VStr (info_line "# Stats" ++ ascii_bytes "total_keys:" ++ fmt_int (Z.of_nat n) ++ [13; 10]
                    ++ info_line "total_commands_processed:0")) m
      else araise (InvalidArgument (String.append "Unknown section: " (text_of s)))
  end.

(** The clock gives seconds and microseconds since 1970; before it is an error. *)
Definition TimeCommand (now : option (Z * Z)) : execution :=
  match now with
  | Some (seconds, micros) => aret (VArray [VInt (wraps 64 seconds); VInt micros])
  | None => araise (InvalidArgument "Time error: second time provided was later than self")
  end.

Definition SelectCommand (db : Z) : execution :=
  if db =? 0 then aret (str "OK")
  else araise (InvalidArgument (String.append "DB index is out of range. Zumic supports only DB 0, got " (text_of (fmt_int db)))).

Definition BgSaveCommand : execution := let! _ := st_save in aret (str "Background saving started").

Definition ShutdownCommand (save : bool) : execution :=
  let! _ := (if save then st_save else aret tt) in araise ServerShutdown.

(** ** Authentication and channels *)

(** The password is compared with the text at the key of the user. *)
Definition AuthCommand (user pass : bytes) : execution :=
  let! stored := st_get (ascii_bytes "user:" ++ user) in
  match stored with
  | Some (VStr s) =>
      if negb (is_utf8 s) then araise InvalidType
      else aret (str (if bool_decide (s = pass) then "AUTH_OK" else "AUTH_FAILED"))
  | Some _ => araise InvalidType
  | None => aret (str "USER_NOT_FOUND")
  end.

Definition SubscribeCommand (channels : list bytes) : execution := aret VNull.
Definition UnsubscribeCommand (channels : list bytes) : execution := aret VNull.
Definition PublishCommand (channel : bytes) (message : Value) : execution := aret (VInt 1).

(** ** Geography *)

(** The points one after the other: those before an error stay. *)
Fixpoint geo_add_all (key : bytes) (points : list (f64 * f64 * bytes)) (added : Z) : action M Z :=
  match points with
  | [] => aret added
  | (lon, lat, m) :: points =>
      let! new := st_geo_add key lon lat m in
      geo_add_all key points (if new : bool then added + 1 else added)
  end.

Definition GeoAddCommand (key : bytes) (points : list (f64 * f64 * bytes)) : execution :=
  let! added := geo_add_all key points 0 in aret (VInt added).

Definition unit_or_m (u : option bytes) : bytes := default (ascii_bytes "m") u.

Definition GetDistCommand (key m1 m2 : bytes) (u : option bytes) : execution :=
  let! d := st_geo_dist key m1 m2 (unit_or_m u) in
  aret (match d with Some d => VFloat d | None => VNull end).

Fixpoint positions (key : bytes) (members : list bytes) (out : list Value) : action M (list Value) :=
  match members with
  | [] => aret out
  | m :: members =>
      let! p := st_geo_pos key m in
      positions key members (out ++ [match p with Some (lon, lat) => VArray [VFloat lon; VFloat lat] | None => VNull end])
  end.

Definition GeoPosCommand (key : bytes) (members : list bytes) : execution :=
  let! l := positions key members [] in aret (VArray l).

Definition found_value (x : bytes * f64 * (f64 * f64)) : Value :=
  VArray [VStr x.1.1; VFloat x.1.2; VFloat x.2.1; VFloat x.2.2].

Definition GeoRadiusCommand (key : bytes) (lon lat radius : f64) (u : option bytes) : execution :=
  let! l := st_geo_radius key lon lat radius (unit_or_m u) in aret (VArray (found_value <$> l)).

(** The command looks the member up itself. *)
Definition GeoRadiusByMemberCommand (key member : bytes) (radius : f64) (u : option bytes) : execution :=
  let! p := st_geo_pos key member in
  match p with
  | None => aret (VArray [])
  | Some (lon, lat) => let! l := st_geo_radius key lon lat radius (unit_or_m u) in aret (VArray (found_value <$> l))
  end.

(** ** The whole dispatch *)

(** The commands of channels, streams and time series whose body is [unimplemented!]. *)
Inductive Unfinished : Type :=
| PSubscribe | PUnsubscribe | PubSub
| XAdd | XRead | XRange | XRevRange | XLen | XDel | XTrim | XGroupCreate | XAck
| TsCreate | TsAdd | TsGet | TsRange | TsDel.

(** The enum [Command]: the variants of [Commands.Command], and the others.  [TIME]
    takes what the clock says when it is executed. *)
Inductive AnyCommand : Type :=
| OnKeyspace (command : Command)
| Auth (user pass : bytes)
| GeoAdd (key : bytes) (points : list (f64 * f64 * bytes))
| GeoDist (key member1 member2 : bytes) (unit : option bytes)
| GeoPos (key : bytes) (members : list bytes)
| GeoRadius (key : bytes) (lon lat radius : f64) (unit : option bytes)
| GeoRadiusByMember (key member : bytes) (radius : f64) (unit : option bytes)
| Subscribe (channels : list bytes) | Unsubscribe (channels : list bytes) | Publish (channel : bytes) (message : Value)
| Info (section : option bytes) | Time (now : option (Z * Z)) | Select (db : Z) | BgSave | Shutdown (save : bool)
| UnfinishedYet (command : Unfinished).

Section Dispatch.
Context {hash_order : HashOrder (bytes * bytes)} {pair_rand : Memory.Rand (bytes * bytes)}.
Context {text : FloatText} (cpu : Bitmap.CpuFeatures).

Definition execute_any (command : AnyCommand) : execution :=
  match command with
  | OnKeyspace command => execute cpu command
  | Auth user pass => AuthCommand user pass
  | GeoAdd key points => GeoAddCommand key points
  | GeoDist key m1 m2 u => GetDistCommand key m1 m2 u
  | GeoPos key members => GeoPosCommand key members
  | GeoRadius key lon lat radius u => GeoRadiusCommand key lon lat radius u
  | GeoRadiusByMember key member radius u => GeoRadiusByMemberCommand key member radius u
  | Subscribe channels => SubscribeCommand channels
  | Unsubscribe channels => UnsubscribeCommand channels
  | Publish channel message => PublishCommand channel message
  | Info section => InfoCommand section
  | Time now => TimeCommand now
  | Select db => SelectCommand db
  | BgSave => BgSaveCommand
  | Shutdown save => ShutdownCommand save
  | UnfinishedYet _ => apanic
  end.
End Dispatch.
End Administration.

(** ** The store in memory *)

Section Store.
Context {libm : Libm} {point_order : HashOrder (bytes * Geography.GeoPoint)}.

Definition pair_of (p : Geography.GeoPoint) : f64 * f64 := (Geography.lon p, Geography.lat p).

(** The result of an operation changed. *)
Definition amap {S A B} (f : A -> B) (c : action S A) : action S B := let! x := c in aret (f x).

#[export] Instance memory_geo : GeoOps (Memory.InMemoryStore GeoSet.GeoSet) := {|
  st_geo_add key lon lat m := GeoSet.geo_add key (Geography.mkPoint lon lat) m;
  st_geo_pos key m := amap (fmap pair_of) (GeoSet.geo_pos key m);
  st_geo_dist key m1 m2 u := GeoSet.geo_dist key m1 m2 u;
  st_geo_radius key lon lat r u :=
    amap (fmap (fun x => (x.1, pair_of x.2))) (GeoSet.geo_radius key (Geography.mkPoint lon lat) r u);
  st_geo_radius_by_member key m r u :=
    amap (fmap (fun x => (x.1, pair_of x.2))) (GeoSet.geo_radius_by_member key m r u);
|}.

(** What [GEOADD] has put into a key [GEOPOS] gives back; a point that is not on
    the map is counted as added and not to be found. *)
Lemma geo_add_pos key p name (s s' : Memory.InMemoryStore GeoSet.GeoSet) b :
  is_utf8 name = true -> GeoSet.geo_add key p name s = Some (Ok b, s') ->
  GeoSet.geo_pos key name s' =
    Some (Ok (if GeoSet.validate_coords p then Some p
              else g ← Memory.geo s !! key; GeoSet.geo_get name g), s') /\
  b = bool_decide ((g ← Memory.geo s !! key; GeoSet.geo_get name g) = None).
Proof.
  intros Hu. unfold GeoSet.geo_add. rewrite Hu. cbn [negb].
  set (g := default GeoSet.geo_new (Memory.geo s !! key)).
  assert ((g ← Memory.geo s !! key; GeoSet.geo_get name g) = GeoSet.geo_get name g) as ->.
  { subst g. destruct (Memory.geo s !! key) as [g|]; [done|]. symmetry. apply lookup_empty. }
  generalize g. clear g. intros g (g' & Hg & He)%bind_Some. injection He as <- <-.
  assert (GeoSet.geo_get name g' = if GeoSet.validate_coords p then Some p else GeoSet.geo_get name g) as Hget.
  { unfold GeoSet.add in Hg. destruct (GeoSet.validate_coords p); cbn [negb] in Hg; [|by injection Hg as <-].
    apply bind_Some in Hg as (t & _ & Hg). injection Hg as <-. apply lookup_insert_eq. }
  unfold GeoSet.geo_pos. cbn [GeoSet.with_geo Memory.geo]. rewrite lookup_insert_eq, Hu, Hget. split; [reflexivity|].
  destruct (GeoSet.geo_get name g); done.
Qed.
End Store.
