(* ===== verification/ConcurrentList.v ===== *)
(** * The skip list behind one lock

    Models [src/src/database/skiplist/concurrent.rs]: a skip list with a cache of
    its length and counters of its lock.  Every method but the readers of atomics
    holds the lock from its first access to its last, so a call is a step; [wait]
    is the time that the lock took, in nanoseconds, and a lock that is not given in
    time is [None].  The theorem: from any number of threads, whose calls are any
    sequence here, the list answers as the sorted list does, the cache is its
    length, and every attempt at the lock is counted once. *)
From S2P Require Import Prelude Interfaces Ordered ZdbValue Numbers.
From S2P Require SkipList.
Local Open Scope Z_scope.

(** The contents of [ContentionMetrics], and its snapshots. *)
Record ContentionSnapshot : Type := mkSnapshot {
  read_locks : Z; write_locks : Z; lock_failures : Z; total_wait_time_ns : Z;
}.

(** [fetch_add] on a counter of 64 bits. *)
Definition fetch_add (n d : Z) : Z := wrapu 64 (n + d).

Definition no_locks : ContentionSnapshot := mkSnapshot 0 0 0 0.
Definition inc_read (wait : Z) (m : ContentionSnapshot) : ContentionSnapshot :=
  mkSnapshot (fetch_add (read_locks m) 1) (write_locks m) (lock_failures m) (fetch_add (total_wait_time_ns m) wait).
Definition inc_write (wait : Z) (m : ContentionSnapshot) : ContentionSnapshot :=
  mkSnapshot (read_locks m) (fetch_add (write_locks m) 1) (lock_failures m) (fetch_add (total_wait_time_ns m) wait).
Definition inc_failure (m : ContentionSnapshot) : ContentionSnapshot :=
  mkSnapshot (read_locks m) (write_locks m) (fetch_add (lock_failures m) 1) (total_wait_time_ns m).
Definition reset (m : ContentionSnapshot) : ContentionSnapshot := no_locks.

(** ** What is made of a snapshot

    The sums are taken below 2^64. *)
Section Snapshot.
Implicit Types (m : ContentionSnapshot).

Definition ratio (n d : Z) : f64 := f64_div (f64_of_int n) (f64_of_int d).

Definition total_locks m : Z := read_locks m + write_locks m.
Definition total_attempts m : Z := read_locks m + write_locks m + lock_failures m.
Definition average_wait_time_ns m : f64 :=
  if read_locks m + write_locks m =? 0 then f64_zero else ratio (total_wait_time_ns m) (read_locks m + write_locks m).
Definition read_write_ratio m : f64 := if write_locks m =? 0 then INFINITY else ratio (read_locks m) (write_locks m).
Definition failure_rate m : f64 := if total_attempts m =? 0 then f64_zero else ratio (lock_failures m) (total_attempts m).
Definition contention_rate m : f64 := if total_locks m =? 0 then f64_zero else ratio (lock_failures m) (total_locks m).
Definition avg_wait_time_us m : f64 := f64_div (average_wait_time_ns m) (f64_of_int 1000).
Definition avg_wait_time_ms m : f64 := f64_div (average_wait_time_ns m) (f64_of_int 1000000).
Definition success_rate m : f64 := if total_attempts m =? 0 then f64_of_int 1 else ratio (total_locks m) (total_attempts m).
Definition is_contended m : bool := 0 <? lock_failures m.
End Snapshot.

(** ** The list *)

Section Concurrent.
Context {K V : Type} `{ord : Ord K} `{Inhabited K, Inhabited V}.

Record ConcurrentSkipList : Type := mkConcurrent {
  inner : SkipList.SkipList K V; cached_length : nat; metrics : ContentionSnapshot;
}.
Implicit Types (c : ConcurrentSkipList) (key : K) (wait : Z).

Definition concurrent_new : ConcurrentSkipList := mkConcurrent SkipList.new 0 no_locks.

Definition insert key (value : V) (draws : nat -> Z) wait c : option ConcurrentSkipList :=
  let old_len := SkipList.len (inner c) in
  l ← SkipList.insert (inner c) key value draws;
  let new_len := SkipList.len l in
  Some (mkConcurrent l (if (new_len =? old_len)%nat then cached_length c else new_len) (inc_write wait (metrics c))).

Definition search key wait c : option (option V * ConcurrentSkipList) :=
  r ← SkipList.search (inner c) key; Some (r, mkConcurrent (inner c) (cached_length c) (inc_read wait (metrics c))).

Definition remove key wait c : option (option V * ConcurrentSkipList) :=
  '(r, l) ← SkipList.remove (inner c) key;
  Some (r, mkConcurrent l (match r with Some _ => SkipList.len l | None => cached_length c end) (inc_write wait (metrics c))).

Definition len c : nat := cached_length c.
Definition is_empty c : bool := (len c =? 0)%nat.

Definition contains key wait c : option (bool * ConcurrentSkipList) :=
  '(r, c) ← search key wait c; Some (match r with Some _ => true | None => false end, c).

Definition clear wait c : option ConcurrentSkipList :=
  l ← SkipList.clear (inner c); Some (mkConcurrent l 0 (inc_write wait (metrics c))).

(** A read lock around a function of the list. *)
Definition with_read {R} (f : SkipList.SkipList K V -> option R) wait c : option (R * ConcurrentSkipList) :=
  r ← f (inner c); Some (r, mkConcurrent (inner c) (cached_length c) (inc_read wait (metrics c))).

Definition first wait c : option (option (K * V) * ConcurrentSkipList) := with_read SkipList.first wait c.
Definition last wait c : option (option (K * V) * ConcurrentSkipList) := with_read SkipList.last wait c.
(** Not counted. *)
Definition validate_invariants c : option (result SkipList.ValidationError unit) := SkipList.validate_invariants (inner c).

Definition with_write {R} (f : SkipList.SkipList K V -> option (R * SkipList.SkipList K V)) wait c : option (R * ConcurrentSkipList) :=
  '(r, l) ← f (inner c); Some (r, mkConcurrent l (SkipList.len l) (inc_write wait (metrics c))).

Definition fail_lock c : ConcurrentSkipList := mkConcurrent (inner c) (cached_length c) (inc_failure (metrics c)).

Definition try_search key (lock : option Z) c : option (option V * ConcurrentSkipList) :=
  match lock with Some wait => search key wait c | None => Some (None, fail_lock c) end.

Definition try_insert key (value : V) (draws : nat -> Z) (lock : option Z) c : option (bool * ConcurrentSkipList) :=
  match lock with
  | Some wait => c ← insert key value draws wait c; Some (true, c)
  | None => Some (false, fail_lock c)
  end.

Definition reset_metrics c : ConcurrentSkipList := mkConcurrent (inner c) (cached_length c) (reset (metrics c)).
Definition snapshot_and_reset c : ContentionSnapshot * ConcurrentSkipList := (metrics c, reset_metrics c).
End Concurrent.
Arguments ConcurrentSkipList : clear implicits.

(** ** The calls of the threads, in the order of the lock *)

Section Calls.
Context {K V : Type} `{ord : Ord K} `{Inhabited K, Inhabited V} `{EqDecision V}.
Implicit Types (c : ConcurrentSkipList K V) (kvs : list (K * V)).

Inductive call : Type :=
| Insert (k : K) (v : V) (draws : nat -> Z) (wait : Z) | Search (k : K) (wait : Z) | Remove (k : K) (wait : Z)
| Contains (k : K) (wait : Z) | Clear (wait : Z) | First (wait : Z) | Last (wait : Z) | Validate
| TrySearch (k : K) (lock : option Z) | TryInsert (k : K) (v : V) (draws : nat -> Z) (lock : option Z)
| WithWrite (os : list (SkipList.op K V)) (wait : Z) | Len | IsEmpty | Reset.

Inductive reply : Type :=
| RDone | RValue (v : option V) | RFlag (b : bool) | RPair (e : option (K * V)) | RSize (n : nat)
| RValid (r : result SkipList.ValidationError unit) | RAnswers (l : list (SkipList.answer K V)).

Definition exec c (o : call) : option (reply * ConcurrentSkipList K V) :=
  match o with
  | Insert k v draws wait => c ← insert k v draws wait c; Some (RDone, c)
  | Search k wait => '(r, c) ← search k wait c; Some (RValue r, c)
  | Remove k wait => '(r, c) ← remove k wait c; Some (RValue r, c)
  | Contains k wait => '(b, c) ← contains k wait c; Some (RFlag b, c)
  | Clear wait => c ← clear wait c; Some (RDone, c)
  | First wait => '(r, c) ← first wait c; Some (RPair r, c)
  | Last wait => '(r, c) ← last wait c; Some (RPair r, c)
  | Validate => r ← validate_invariants c; Some (RValid r, c)
  | TrySearch k lock => '(r, c) ← try_search k lock c; Some (RValue r, c)
  | TryInsert k v draws lock => '(b, c) ← try_insert k v draws lock c; Some (RFlag b, c)
  | WithWrite os wait => '(l, c) ← with_write (fun l => SkipList.exec_all l os) wait c; Some (RAnswers l, c)
  | Len => Some (RSize (len c), c)
  | IsEmpty => Some (RFlag (is_empty c), c)
  | Reset => Some (RDone, (snapshot_and_reset c).2)
  end.

Definition found (r : option V) : bool := match r with Some _ => true | None => false end.

(** The sorted list under the same calls; a call without the lock does nothing. *)
Definition spec kvs (o : call) : reply * list (K * V) :=
  match o with
  | Insert k v _ _ => (RDone, spec_insert kvs k v)
  | Search k _ => (RValue (spec_search kvs k), kvs)
  | Remove k _ => (RValue (spec_search kvs k), spec_remove kvs k)
  | Contains k _ => (RFlag (found (spec_search kvs k)), kvs)
  | Clear _ => (RDone, [])
  | First _ => (RPair (hd_error kvs), kvs)
  | Last _ => (RPair (list.last kvs), kvs)
  | Validate => (RValid (Ok tt), kvs)
  | TrySearch k (Some _) => (RValue (spec_search kvs k), kvs)
  | TrySearch k None => (RValue None, kvs)
  | TryInsert k v _ (Some _) => (RFlag true, spec_insert kvs k v)
  | TryInsert k v _ None => (RFlag false, kvs)
  | WithWrite os _ => let '(l, kvs) := SkipList.spec_all kvs os in (RAnswers l, kvs)
  | Len => (RSize (length kvs), kvs)
  | IsEmpty => (RFlag (length kvs =? 0)%nat, kvs)
  | Reset => (RDone, kvs)
  end.

Fixpoint exec_all c (os : list call) : option (list reply * ConcurrentSkipList K V) :=
  match os with
  | [] => Some ([], c)
  | o :: os => '(a, c) ← exec c o; '(r, c) ← exec_all c os; Some (a :: r, c)
  end.

Fixpoint spec_all kvs (os : list call) : list reply * list (K * V) :=
  match os with
  | [] => ([], kvs)
  | o :: os => let '(a, kvs) := spec kvs o in let '(r, kvs) := spec_all kvs os in (a :: r, kvs)
  end.

(** Attempts at the lock since the counters were reset. *)
Definition attempts (n : Z) (o : call) : Z :=
  match o with Validate | Len | IsEmpty => n | Reset => 0 | _ => n + 1 end.
Definition attempts_all (n : Z) (os : list call) : Z := foldl attempts n os.
End Calls.
Arguments call : clear implicits.
Arguments reply : clear implicits.

(** ** Theorems *)

Section Laws.
Context {K V : Type} `{ord : Ord K} `{Inhabited K, Inhabited V} `{EqDecision V}.
Implicit Types (c : ConcurrentSkipList K V) (kvs : list (K * V)).

(** The list, the cache and the count of attempts. *)
Record agrees c kvs (n : Z) : Prop := {
  a_list : SkipList.Holds (inner c) kvs;
  a_length : cached_length c = length kvs;
  a_count : wrapu 64 (total_attempts (metrics c)) = wrapu 64 n;
}.

Lemma count_one m n wait :
  wrapu 64 (total_attempts m) = wrapu 64 n ->
  wrapu 64 (total_attempts (inc_read wait m)) = wrapu 64 (n + 1) /\
  wrapu 64 (total_attempts (inc_write wait m)) = wrapu 64 (n + 1) /\
  wrapu 64 (total_attempts (inc_failure m)) = wrapu 64 (n + 1).
Proof.
  unfold total_attempts, inc_read, inc_write, inc_failure, fetch_add, wrapu; cbn [read_locks write_locks lock_failures].
  intros Hn. split_and!; Z.div_mod_to_equations; lia.
Qed.

Lemma read_agrees {R} (f : SkipList.SkipList K V -> option R) wait c kvs n r :
  agrees c kvs n -> f (inner c) = Some r ->
  exists c', with_read f wait c = Some (r, c') /\ agrees c' kvs (n + 1).
Proof.
  intros [Hl Hc Ha] Hf. unfold with_read. rewrite Hf. eexists. split; [done|].
  split; [done|done|]. by apply (count_one _ n wait).
Qed.

Lemma write_agrees c kvs n l kvs' k wait :
  agrees c kvs n -> SkipList.Holds l kvs' -> k = length kvs' -> agrees (mkConcurrent l k (inc_write wait (metrics c))) kvs' (n + 1).
Proof. intros [_ _ Ha] Hl ->. split; [done|done|]. by apply (count_one _ n wait). Qed.

Lemma insert_agrees k v draws wait c kvs n :
  agrees c kvs n -> exists c', insert k v draws wait c = Some c' /\ agrees c' (spec_insert kvs k v) (n + 1).
Proof.
  intros Hg. pose proof (a_list _ _ _ Hg) as Hl. unfold insert.
  destruct (SkipList.skip_insert_spec _ _ k v draws Hl) as (l & -> & Hl'). eexists. split; [done|].
  apply (write_agrees c kvs); [done|done|].
  rewrite (SkipList.skip_len_spec _ _ Hl), (SkipList.skip_len_spec _ _ Hl').
  destruct (Nat.eqb_spec (length (spec_insert kvs k v)) (length kvs)) as [->|]; [by apply (a_length _ _ n)|done].
Qed.

Lemma search_agrees k wait c kvs n :
  agrees c kvs n -> exists c', search k wait c = Some (spec_search kvs k, c') /\ agrees c' kvs (n + 1).
Proof. intros Hg. apply (read_agrees (fun l => SkipList.search l k)); [done|]. apply SkipList.search_spec, Hg. Qed.

Lemma fail_agrees c kvs n : agrees c kvs n -> agrees (fail_lock c) kvs (n + 1).
Proof. intros [Hl Hc Ha]. split; [done|done|]. by apply (count_one _ n 0). Qed.

Lemma exec_agrees c kvs n o : agrees c kvs n ->
  exists c', exec c o = Some ((spec kvs o).1, c') /\ agrees c' (spec kvs o).2 (attempts n o).
Proof.
  intros Hg. pose proof Hg as [Hl Hc Ha].
  destruct o as [k v draws wait|k wait|k wait|k wait|wait|wait|wait| |k [wait|]|k v draws [wait|]|os wait| | | ];
    cbn [exec spec attempts fst snd].
  - destruct (insert_agrees k v draws wait c kvs n Hg) as (c' & -> & Hg'). by eexists.
  - destruct (search_agrees k wait c kvs n Hg) as (c' & -> & Hg'). by eexists.
  - unfold remove. destruct (SkipList.skip_remove_spec _ _ k Hl) as (l & -> & Hl'). eexists. split; [done|].
    apply (write_agrees c kvs); [done|done|]. destruct (spec_search kvs k) eqn:E; [by apply SkipList.skip_len_spec|].
    unfold spec_remove. unfold spec_search in E. by destruct (at_head _ _).
  - unfold contains. destruct (search_agrees k wait c kvs n Hg) as (c' & -> & Hg'). by eexists.
  - unfold clear. destruct (SkipList.skip_clear_spec _ _ Hl) as (l & -> & Hl'). eexists. split; [done|]. by apply (write_agrees c kvs).
  - destruct (read_agrees SkipList.first wait c kvs n _ Hg (SkipList.skip_first_spec _ _ Hl)) as (c' & E & Hg').
    unfold first. rewrite E. by eexists.
  - destruct (read_agrees SkipList.last wait c kvs n _ Hg (SkipList.skip_last_spec _ _ Hl)) as (c' & E & Hg').
    unfold last. rewrite E. by eexists.
  - unfold validate_invariants. rewrite (SkipList.skip_validate_spec _ _ Hl). by eexists.
  - destruct (search_agrees k wait c kvs n Hg) as (c' & E & Hg'). unfold try_search. rewrite E. by eexists.
  - eexists. split; [done|]. by apply fail_agrees.
  - unfold try_insert. destruct (insert_agrees k v draws wait c kvs n Hg) as (c' & -> & Hg'). by eexists.
  - eexists. split; [done|]. by apply fail_agrees.
  - unfold with_write. destruct (SkipList.skip_exec_all_spec _ _ os Hl) as (l & -> & Hl').
    destruct (SkipList.spec_all kvs os) as [r kvs']. eexists. split; [done|].
    apply (write_agrees c kvs); [done|done|by apply SkipList.skip_len_spec].
  - unfold len. rewrite Hc. by eexists.
  - unfold is_empty, len. rewrite Hc. by eexists.
  - eexists. split; [done|]. by split.
Qed.

Lemma exec_all_agrees os c kvs n : agrees c kvs n ->
  exists c', exec_all c os = Some ((spec_all kvs os).1, c') /\ agrees c' (spec_all kvs os).2 (attempts_all n os).
Proof.
  revert c kvs n. induction os as [|o os IH]; intros c kvs n Hg; [by exists c|]. simpl.
  destruct (exec_agrees c kvs n o Hg) as (c1 & -> & Hg1). cbn [mbind option_bind].
  destruct (spec kvs o) as [a kvs1]. simpl in Hg1 |- *.
  destruct (IH c1 kvs1 _ Hg1) as (c2 & -> & Hg2). cbn [mbind option_bind].
  destruct (spec_all kvs1 os) as [r kvs2]. by exists c2.
Qed.

Lemma new_agrees : agrees (concurrent_new : ConcurrentSkipList K V) [] 0.
Proof. split; [apply SkipList.new_skip_Holds|done|done]. Qed.
End Laws.

(** C23. Whatever calls the threads make, in whatever order they get the lock and
    with whichever of the attempts with a time limit fail, no call panics, every
    call answers as the sorted list does, the length kept beside the list is the
    list's, and every attempt at the lock since the last reset is counted once. *)
Theorem concurrent_list_refines {K V : Type} `{ord : Ord K} `{Inhabited K, Inhabited V} `{EqDecision V} (os : list (call K V)) :
  exists c, exec_all concurrent_new os = Some ((spec_all [] os).1, c) /\
    SkipList.Holds (inner c) (spec_all [] os).2 /\ len c = length (spec_all [] os).2 /\
    wrapu 64 (total_attempts (metrics c)) = wrapu 64 (attempts_all 0 os).
Proof. destruct (exec_all_agrees os _ [] 0 new_agrees) as (c & Hc & [? ? ?]). by exists c. Qed.

(** ** A run *)

Example ex_attempts :
  (fun x : list (reply nat Z) * ConcurrentSkipList nat Z => (x.1, metrics x.2)) <$>
    exec_all concurrent_new [Insert 2%nat 20 (fun _ => 0) 5; TryInsert 1%nat 10 (fun _ => 0) None; Search 1%nat 7; Len] =
  Some ([RDone; RFlag false; RValue None; RSize 1], mkSnapshot 1 1 1 12).
Proof. vm_compute. reflexivity. Qed.
