(* ===== verification/ShardedList.v ===== *)
(** * Skip lists in shards

    Models [src/src/database/skiplist/sharded.rs]: skip lists behind a lock each,
    the shard of a key by its hash, and one count of the elements.  [DefaultHasher]
    is open ([hash]).  A call on a key holds the lock of its shard throughout and is
    a step; [clear] takes the locks one after the other and sets the count without
    one, so that its parts are steps of their own ([clear_shard], [clear_end]); the
    other calls on all shards only read. *)
From S2P Require Import Prelude Interfaces Ordered ZdbValue Numbers Floats ConcurrentList.
From S2P Require SkipList.
Local Open Scope Z_scope.

Definition DEFAULT_SHARDS : nat := 16.
Definition MAX_SHARDS : nat := 256.

(** The contents of the atomics, and its snapshots. *)
Record ShardMetrics : Type := mkShardMetrics { inserts : Z; searches : Z; removes : Z; wait_time_ns : Z }.

Definition no_metrics : ShardMetrics := mkShardMetrics 0 0 0 0.
Definition total_operations (m : ShardMetrics) : Z := inserts m + searches m + removes m.
Definition shard_average_wait (m : ShardMetrics) : f64 :=
  if total_operations m =? 0 then f64_zero else ratio (wait_time_ns m) (total_operations m).

Section Sharded.
Context {K V : Type} `{ord : Ord K} `{Inhabited K, Inhabited V} (hash : K -> Z).

Record ShardedSkipList : Type := mkSharded {
  shards : list (SkipList.SkipList K V); num_shards : nat; total_length : Z; shard_metrics : list ShardMetrics;
}.
Implicit Types (s : ShardedSkipList) (key : K) (wait : Z).

(** [None] is the failed assertion. *)
Definition with_shards (n : nat) : option ShardedSkipList :=
  if (0 <? n)%nat && (n <=? MAX_SHARDS)%nat
  then Some (mkSharded (replicate n SkipList.new) n 0 (replicate n no_metrics)) else None.
Definition sharded_new : option ShardedSkipList := with_shards DEFAULT_SHARDS.

Definition shard_index s key : nat := Z.to_nat (hash key mod Z.of_nat (num_shards s)).

(** The metrics of a shard after a call that waited. *)
Definition count_call (f : ShardMetrics -> ShardMetrics) wait (i : nat) (l : list ShardMetrics) : list ShardMetrics :=
  alter (fun m => let m := f m in mkShardMetrics (inserts m) (searches m) (removes m) (fetch_add (wait_time_ns m) wait)) i l.
Definition one_insert (m : ShardMetrics) := mkShardMetrics (fetch_add (inserts m) 1) (searches m) (removes m) (wait_time_ns m).
Definition one_search (m : ShardMetrics) := mkShardMetrics (inserts m) (fetch_add (searches m) 1) (removes m) (wait_time_ns m).
Definition one_remove (m : ShardMetrics) := mkShardMetrics (inserts m) (searches m) (fetch_add (removes m) 1) (wait_time_ns m).

Definition insert key (value : V) (draws : nat -> Z) wait s : option ShardedSkipList :=
  let i := shard_index s key in
  l ← shards s !! i;
  l' ← SkipList.insert l key value draws;
  Some (mkSharded (<[i := l']> (shards s)) (num_shards s)
    (if (SkipList.len l <? SkipList.len l')%nat then fetch_add (total_length s) 1 else total_length s)
    (count_call one_insert wait i (shard_metrics s))).

Definition search key wait s : option (option V * ShardedSkipList) :=
  let i := shard_index s key in
  l ← shards s !! i;
  r ← SkipList.search l key;
  Some (r, mkSharded (shards s) (num_shards s) (total_length s) (count_call one_search wait i (shard_metrics s))).

(** [fetch_sub] wraps around below 0. *)
Definition remove key wait s : option (option V * ShardedSkipList) :=
  let i := shard_index s key in
  l ← shards s !! i;
  '(r, l') ← SkipList.remove l key;
  Some (r, mkSharded (<[i := l']> (shards s)) (num_shards s)
    (match r with Some _ => wrapu 64 (total_length s - 1) | None => total_length s end)
    (count_call one_remove wait i (shard_metrics s))).

Definition len s : Z := total_length s.
Definition is_empty s : bool := len s =? 0.

Definition contains key wait s : option (bool * ShardedSkipList) :=
  '(r, s) ← search key wait s; Some (match r with Some _ => true | None => false end, s).

Definition clear_shard (i : nat) s : option ShardedSkipList :=
  l ← shards s !! i; l ← SkipList.clear l; Some (mkSharded (<[i := l]> (shards s)) (num_shards s) (total_length s) (shard_metrics s)).

(** [n] shards from the one with index [i] on. *)
Fixpoint clear_shards (n i : nat) s : option ShardedSkipList :=
  match n with O => Some s | S n => s ← clear_shard i s; clear_shards n (S i) s end.

Definition clear_end s : ShardedSkipList := mkSharded (shards s) (num_shards s) 0 (shard_metrics s).

Definition clear s : option ShardedSkipList := s ← clear_shards (length (shards s)) 0 s; Some (clear_end s).

Definition first_step (min : option (K * V)) (l : SkipList.SkipList K V) : option (option (K * V)) :=
  e ← SkipList.first l;
  Some (match e, min with
        | Some e, Some m => if key_lt e.1 m.1 then Some e else min
        | Some e, None => Some e
        | None, _ => min
        end).

Definition last_step (max : option (K * V)) (l : SkipList.SkipList K V) : option (option (K * V)) :=
  e ← SkipList.last l;
  Some (match e, max with
        | Some e, Some m => if key_lt m.1 e.1 then Some e else max
        | Some e, None => Some e
        | None, _ => max
        end).

Fixpoint over_shards (step : option (K * V) -> SkipList.SkipList K V -> option (option (K * V)))
    (best : option (K * V)) (ls : list (SkipList.SkipList K V)) : option (option (K * V)) :=
  match ls with [] => Some best | l :: ls => best ← step best l; over_shards step best ls end.

Definition first s : option (option (K * V)) := over_shards first_step None (shards s).
Definition last s : option (option (K * V)) := over_shards last_step None (shards s).

(** Any error becomes a [SortOrderViolation] with a text. *)
Fixpoint validate_shards (ls : list (SkipList.SkipList K V)) : option (result SkipList.ValidationError unit) :=
  match ls with
  | [] => Some (Ok tt)
  | l :: ls =>
      r ← SkipList.validate_invariants l;
      match r with Ok _ => validate_shards ls | Err _ => Some (Err SkipList.SortOrderViolation) end
  end.
Definition validate_invariants s : option (result SkipList.ValidationError unit) := validate_shards (shards s).

Definition shard_distribution s : list nat := SkipList.len <$> shards s.

Definition load_balance_score s : f64 :=
  let distribution := shard_distribution s in
  let total := Z.of_nat (list_sum distribution) in
  if total =? 0 then f64_of_int 1
  else
    let ideal := ratio total (Z.of_nat (num_shards s)) in
    if f64_eq ideal f64_zero then f64_of_int 1
    else
      let variance := foldl (fun acc n => let d := f64_sub (f64_of_int (Z.of_nat n)) ideal in f64_add acc (f64_mul d d)) f64_zero distribution in
      let stddev := f64_sqrt (f64_div variance (f64_of_int (Z.of_nat (num_shards s)))) in
      f64_clamp f64_zero (f64_of_int 1) (f64_sub (f64_of_int 1) (f64_div stddev ideal)).
End Sharded.
Arguments ShardedSkipList : clear implicits.
