(* ===== verification/ShardedListLaws.v ===== *)
(** * Skip lists in shards are one list, except while they are cleared

    The shards hold the pairs of one sorted list apart by the hash of the key, so
    that calls that come one after the other answer as that list does
    ([sharded_list_refines]).  An insertion that happens while another thread
    clears the shards is not counted, and the count goes below zero later
    ([clear_loses_count]). *)
From S2P Require Import Prelude Interfaces Ordered ConcurrentList ShardedList.
From S2P Require SkipList.
Local Open Scope Z_scope.

(** ** Parts of a sorted list *)

Section Parts.
Context {K V : Type} `{ord : Ord K}.
Implicit Types (kvs : list (K * V)) (k : K) (keep : K -> bool).

Definition part keep kvs : list (K * V) := filter (fun e => keep e.1 = true) kvs.

(** What does not tell equal keys apart. *)
Definition closed keep : Prop := forall x y, key_eq x y = true -> keep x = keep y.

Lemma part_cons keep e kvs : part keep (e :: kvs) = if keep e.1 then e :: part keep kvs else part keep kvs.
Proof.
  unfold part. rewrite filter_cons. destruct (keep e.1); [by rewrite decide_True|by rewrite decide_False].
Qed.

Lemma part_part p q kvs : part p (part q kvs) = part (fun k => q k && p k) kvs.
Proof. induction kvs as [|e kvs IH]; [done|]. rewrite !part_cons. destruct (q e.1); simpl; rewrite ?part_cons; by destruct (p e.1); rewrite ?IH. Qed.

Lemma part_ext p q kvs : (forall e, e ∈ kvs -> p e.1 = q e.1) -> part p kvs = part q kvs.
Proof.
  induction kvs as [|e kvs IH]; intros He; [done|]. rewrite !part_cons, (He e) by set_solver. by rewrite IH by set_solver.
Qed.

Lemma part_all keep kvs : (forall k, keep k = true) -> part keep kvs = kvs.
Proof. intros Hk. induction kvs as [|e kvs IH]; [done|]. by rewrite part_cons, Hk, IH. Qed.

Lemma Forall_part (P : K * V -> Prop) keep kvs : Forall P kvs -> Forall P (part keep kvs).
Proof. rewrite !Forall_forall. intros Hf x [_ Hx]%list_elem_of_filter. by apply Hf. Qed.

Lemma sorted_part keep kvs : sorted kvs -> sorted (part keep kvs).
Proof.
  induction 1 as [|e kvs Hs IH Hf]; [constructor|]. rewrite part_cons. destruct (keep e.1); [|done].
  constructor; [done|]. by apply Forall_part.
Qed.

Lemma lookup_part keep kvs k : closed keep -> keep k = true -> lookup_eq (part keep kvs) k = lookup_eq kvs k.
Proof.
  intros Hc Hk. induction kvs as [|e kvs IH]; [done|]. rewrite part_cons. cbn [lookup_eq].
  destruct (key_eq e.1 k) eqn:E; [rewrite (Hc _ _ E), Hk; simpl; by rewrite E|].
  destruct (keep e.1); [|done]. simpl. by rewrite E.
Qed.

Lemma search_part keep kvs k : sorted kvs -> closed keep -> keep k = true -> spec_search (part keep kvs) k = spec_search kvs k.
Proof. intros Hs Hc Hk. rewrite !spec_search_lookup by (done || by apply sorted_part). by apply lookup_part. Qed.

(** Below every key of a list nothing is found. *)
Lemma insert_below l k (v : V) : Forall (fun e => key_lt k e.1 = true) l -> spec_insert l k v = (k, v) :: l.
Proof.
  destruct l as [|e l]; [done|]. intros [He _]%Forall_cons. rewrite spec_insert_cons.
  by rewrite (key_lt_asym _ _ He), (proj2 (key_lt_not_eq _ _ He)).
Qed.

Lemma remove_below (l : list (K * V)) k : Forall (fun e => key_lt k e.1 = true) l -> spec_remove l k = l.
Proof.
  destruct l as [|e l]; [done|]. intros [He _]%Forall_cons. rewrite spec_remove_cons.
  by rewrite (key_lt_asym _ _ He), (proj2 (key_lt_not_eq _ _ He)).
Qed.

Lemma above_all e kvs k : sorted (e :: kvs) -> key_lt e.1 k = false -> key_eq e.1 k = false ->
  Forall (fun x => key_lt k x.1 = true) (e :: kvs).
Proof.
  intros [_ Hf]%StronglySorted_inv Hlt He.
  assert (key_lt k e.1 = true) as Hk.
  { apply not_false_iff_true. intros E. by rewrite (key_lt_total _ _ Hlt E) in He. }
  constructor; [done|]. eapply Forall_impl; [exact Hf|]. intros x Hx. by apply (key_lt_trans _ e.1).
Qed.

Lemma part_spec_insert keep kvs k v : sorted kvs -> closed keep ->
  part keep (spec_insert kvs k v) = if keep k then spec_insert (part keep kvs) k v else part keep kvs.
Proof.
  intros Hs Hc. induction kvs as [|e kvs IH].
  { unfold spec_insert. simpl. rewrite part_cons. simpl. by destruct (keep k). }
  pose proof Hs as [Hs' _]%StronglySorted_inv. specialize (IH Hs'). rewrite spec_insert_cons.
  destruct (key_lt e.1 k) eqn:Hlt; [|destruct (key_eq e.1 k) eqn:He].
  - rewrite !part_cons, IH. destruct (keep e.1), (keep k); try done. by rewrite spec_insert_cons, Hlt.
  - rewrite !part_cons. simpl. rewrite (Hc _ _ He). destruct (keep k); [|done]. by rewrite spec_insert_cons, Hlt, He.
  - pose proof (above_all e kvs k Hs Hlt He) as Ha. rewrite part_cons. simpl. destruct (keep k); [|done].
    rewrite insert_below; [done|]. by apply Forall_part.
Qed.

Lemma part_spec_remove keep kvs k : sorted kvs -> closed keep ->
  part keep (spec_remove kvs k) = if keep k then spec_remove (part keep kvs) k else part keep kvs.
Proof.
  intros Hs Hc. induction kvs as [|e kvs IH].
  { unfold spec_remove. simpl. by destruct (keep k). }
  pose proof Hs as [Hs' _]%StronglySorted_inv. specialize (IH Hs'). rewrite spec_remove_cons.
  destruct (key_lt e.1 k) eqn:Hlt; [|destruct (key_eq e.1 k) eqn:He].
  - rewrite !part_cons, IH. destruct (keep e.1), (keep k); try done. by rewrite spec_remove_cons, Hlt.
  - rewrite !part_cons. rewrite (Hc _ _ He). destruct (keep k); [|done]. by rewrite spec_remove_cons, Hlt, He.
  - pose proof (above_all e kvs k Hs Hlt He) as Ha. destruct (keep k); [|done].
    rewrite remove_below; [done|]. by apply Forall_part.
Qed.

Lemma spec_insert_length kvs k v :
  length (spec_insert kvs k v) = match spec_search kvs k with Some _ => length kvs | None => S (length kvs) end.
Proof.
  pose proof (f_equal length (below_app k kvs)) as L. rewrite length_app in L. unfold spec_insert, spec_search.
  destruct (not_below k kvs) as [|e r]; simpl in *; [rewrite length_app; simpl; lia|].
  destruct (key_eq e.1 k); simpl; rewrite length_app; simpl; lia.
Qed.

Lemma spec_remove_length kvs k :
  length kvs = match spec_search kvs k with Some _ => S (length (spec_remove kvs k)) | None => length (spec_remove kvs k) end.
Proof.
  pose proof (f_equal length (below_app k kvs)) as L. rewrite length_app in L. unfold spec_remove, spec_search.
  destruct (not_below k kvs) as [|e r]; simpl in *; [done|].
  destruct (key_eq e.1 k); simpl; [rewrite length_app; lia|done].
Qed.

(** ** The first and the last of two parts *)

Lemma first_of_parts p q kvs : sorted kvs -> (forall k, p k && q k = false) ->
  hd_error (part (fun k => p k || q k) kvs) =
    match hd_error (part q kvs), hd_error (part p kvs) with
    | Some e, Some m => if key_lt e.1 m.1 then Some e else Some m
    | Some e, None => Some e
    | None, m => m
    end.
Proof.
  intros Hs Hd. induction Hs as [|e kvs Hs IH Hf]; [done|]. rewrite !part_cons. specialize (Hd e.1).
  assert (forall r x, hd_error (part r kvs) = Some x -> key_lt e.1 x.1 = true) as Hx.
  { intros r x Hr. rewrite Forall_forall in Hf. apply Hf. destruct (part r kvs) eqn:E; [done|]. injection Hr as ->.
    assert (x ∈ part r kvs) as Hin by (rewrite E; left). by apply list_elem_of_filter in Hin as [_ ?]. }
  destruct (p e.1), (q e.1); [done| | |by apply IH]; simpl.
  - destruct (hd_error (part q kvs)) as [x|] eqn:E; [|done]. by rewrite (key_lt_asym _ _ (Hx _ _ E)).
  - destruct (hd_error (part p kvs)) as [x|] eqn:E; [|done]. by rewrite (Hx _ _ E).
Qed.

Lemma last_of_parts p q kvs : sorted kvs -> (forall k, p k && q k = false) ->
  list.last (part (fun k => p k || q k) kvs) =
    match list.last (part q kvs), list.last (part p kvs) with
    | Some e, Some m => if key_lt m.1 e.1 then Some e else Some m
    | Some e, None => Some e
    | None, m => m
    end.
Proof.
  intros Hs Hd. induction kvs as [|e kvs IH] using rev_ind; [done|]. apply sorted_app in Hs as (Hs & _ & Hlt).
  specialize (IH Hs). specialize (Hd e.1).
  assert (forall r x, list.last (part r kvs) = Some x -> key_lt x.1 e.1 = true) as Hx.
  { intros r x Hr. apply Hlt; [|by left]. apply last_Some in Hr as [l E].
    assert (x ∈ part r kvs) as Hin by (rewrite E; set_solver). by apply list_elem_of_filter in Hin as [_ ?]. }
  assert (forall r, part r (kvs ++ [e]) = part r kvs ++ (if r e.1 then [e] else [])) as Happ.
  { intros r. unfold part. rewrite filter_app. f_equal. fold (part r [e]). by rewrite part_cons. }
  rewrite !Happ. destruct (p e.1), (q e.1); [done| | |by rewrite !app_nil_r]; simpl; rewrite ?app_nil_r, !last_snoc.
  - destruct (list.last (part q kvs)) as [x|] eqn:E; [|done]. by rewrite (key_lt_asym _ _ (Hx _ _ E)).
  - destruct (list.last (part p kvs)) as [x|] eqn:E; [|done]. by rewrite (Hx _ _ E).
Qed.
End Parts.

(** ** The shards hold the parts of one list *)

Section Shards.
Context {K V : Type} `{ord : Ord K} `{Inhabited K, Inhabited V} (hash : K -> Z).
Hypothesis hash_eq : forall x y, key_eq x y = true -> hash x = hash y.
Implicit Types (s : ShardedSkipList K V) (kvs : list (K * V)) (k : K).

Definition index_of (n : nat) k : nat := Z.to_nat (hash k mod Z.of_nat n).
Definition at_index (n i : nat) k : bool := (index_of n k =? i)%nat.

Record holds s kvs : Prop := {
  h_num : (0 < num_shards s)%nat;
  h_len : length (shards s) = num_shards s;
  h_metrics : length (shard_metrics s) = num_shards s;
  h_sorted : sorted kvs;
  h_shard (i : nat) (l : SkipList.SkipList K V) : shards s !! i = Some l -> SkipList.Holds l (part (at_index (num_shards s) i) kvs);
}.

Lemma index_of_lt n k : (0 < n)%nat -> (index_of n k < n)%nat.
Proof. intros Hn. unfold index_of. pose proof (Z.mod_pos_bound (hash k) (Z.of_nat n)). lia. Qed.

Lemma closed_index n (f : nat -> bool) : closed (fun k => f (index_of n k)).
Proof. intros x y Hxy. unfold index_of. by rewrite (hash_eq x y Hxy). Qed.

Lemma closed_at n i : closed (at_index n i).
Proof. apply (closed_index n (fun j => (j =? i)%nat)). Qed.

Lemma at_own s k : at_index (num_shards s) (shard_index hash s k) k = true.
Proof. apply Nat.eqb_refl. Qed.

Lemma own_shard s kvs k : holds s kvs ->
  exists l, shards s !! shard_index hash s k = Some l /\ SkipList.Holds l (part (at_index (num_shards s) (shard_index hash s k)) kvs).
Proof.
  intros Hh. destruct (lookup_lt_is_Some_2 (shards s) (shard_index hash s k)) as [l Hl].
  { rewrite (h_len _ _ Hh). apply index_of_lt, Hh. }
  exists l. split; [done|]. by apply (h_shard _ _ Hh).
Qed.

Lemma own_search s kvs k : holds s kvs ->
  spec_search (part (at_index (num_shards s) (shard_index hash s k)) kvs) k = spec_search kvs k.
Proof. intros Hh. apply search_part; [apply Hh|apply closed_at|apply at_own]. Qed.

Lemma count_call_length f wait i l : length (count_call f wait i l) = length l.
Proof. apply length_alter. Qed.

(** A shard is replaced by one that holds its part of another list. *)
Lemma replace_shard s kvs kvs' i l n m : holds s kvs -> sorted kvs' -> length m = num_shards s ->
  SkipList.Holds l (part (at_index (num_shards s) i) kvs') ->
  (forall j, j <> i -> part (at_index (num_shards s) j) kvs' = part (at_index (num_shards s) j) kvs) ->
  holds (mkSharded (<[i := l]> (shards s)) (num_shards s) n m) kvs'.
Proof.
  intros [Hn Hlen Hm Hs Hsh] Hs' Hm' Hl Hj. split; simpl; [done|by rewrite length_insert|done|done|].
  intros j l' Hl'. destruct (decide (j = i)) as [->|Hne].
  - apply list_lookup_insert_Some in Hl' as [(_ & <- & _)|[Hne _]]; done.
  - rewrite list_lookup_insert_ne in Hl' by done. rewrite (Hj j Hne). by apply Hsh.
Qed.

Lemma other_index s k j : j <> shard_index hash s k -> at_index (num_shards s) j k = false.
Proof. intros Hj. apply Nat.eqb_neq. unfold shard_index in Hj. unfold index_of. congruence. Qed.

Lemma insert_holds k v draws wait s kvs : holds s kvs ->
  exists s', insert hash k v draws wait s = Some s' /\ holds s' (spec_insert kvs k v) /\ num_shards s' = num_shards s /\
    total_length s' = match spec_search kvs k with Some _ => total_length s | None => wrapu 64 (total_length s + 1) end.
Proof.
  intros Hh. destruct (own_shard s kvs k Hh) as (l & Hl & Hhl). unfold insert. rewrite Hl. cbn [mbind option_bind].
  destruct (SkipList.skip_insert_spec _ _ k v draws Hhl) as (l' & -> & Hl'). eexists. split; [done|].
  split_and!; [|done|].
  - apply (replace_shard s kvs); [done|apply spec_insert_sorted, Hh|by rewrite count_call_length; apply Hh| |].
    + rewrite part_spec_insert by (apply Hh || apply closed_at). by rewrite at_own.
    + intros j Hj. rewrite part_spec_insert by (apply Hh || apply closed_at). by rewrite other_index.
  - simpl. rewrite (SkipList.skip_len_spec _ _ Hhl), (SkipList.skip_len_spec _ _ Hl'), spec_insert_length, own_search by done.
    destruct (spec_search kvs k); [by rewrite Nat.ltb_irrefl|]. by rewrite (proj2 (Nat.ltb_lt _ _)) by lia.
Qed.

Lemma search_holds k wait s kvs : holds s kvs ->
  exists s', search hash k wait s = Some (spec_search kvs k, s') /\ holds s' kvs /\ num_shards s' = num_shards s /\ total_length s' = total_length s.
Proof.
  intros Hh. destruct (own_shard s kvs k Hh) as (l & Hl & Hhl). unfold search. rewrite Hl. cbn [mbind option_bind].
  rewrite (SkipList.search_spec _ _ k Hhl), own_search by done. eexists. split; [done|]. split_and!; [|done|done].
  destruct Hh. split; simpl; try done. by rewrite count_call_length.
Qed.

Lemma remove_holds k wait s kvs : holds s kvs ->
  exists s', remove hash k wait s = Some (spec_search kvs k, s') /\ holds s' (spec_remove kvs k) /\ num_shards s' = num_shards s /\
    total_length s' = match spec_search kvs k with Some _ => wrapu 64 (total_length s - 1) | None => total_length s end.
Proof.
  intros Hh. destruct (own_shard s kvs k Hh) as (l & Hl & Hhl). unfold remove. rewrite Hl. cbn [mbind option_bind].
  destruct (SkipList.skip_remove_spec _ _ k Hhl) as (l' & -> & Hl'). rewrite own_search in * by done. eexists. split; [done|].
  split_and!; [|done|done].
  apply (replace_shard s kvs); [done|apply spec_remove_sorted, Hh|by rewrite count_call_length; apply Hh| |].
  - rewrite part_spec_remove by (apply Hh || apply closed_at). by rewrite at_own.
  - intros j Hj. rewrite part_spec_remove by (apply Hh || apply closed_at). by rewrite other_index.
Qed.

Lemma clear_shard_holds i s kvs : holds s kvs -> (i < num_shards s)%nat ->
  exists s', clear_shard i s = Some s' /\ holds s' (part (fun k => negb (at_index (num_shards s) i k)) kvs) /\
    num_shards s' = num_shards s /\ total_length s' = total_length s.
Proof.
  intros Hh Hi. destruct (lookup_lt_is_Some_2 (shards s) i) as [l Hl]; [by rewrite (h_len _ _ Hh)|].
  unfold clear_shard. rewrite Hl. cbn [mbind option_bind].
  destruct (SkipList.skip_clear_spec _ _ (h_shard _ _ Hh i l Hl)) as (l' & -> & Hl'). eexists. split; [done|].
  split_and!; [|done|done].
  apply (replace_shard s kvs); [done|apply sorted_part, Hh|apply Hh| |].
  - rewrite part_part, (part_ext _ (fun _ => false)); [|intros e _; by destruct (at_index _ i e.1)].
    replace (part (fun _ => false) kvs) with (@nil (K * V)); [done|]. clear. induction kvs; [done|]. by rewrite part_cons.
  - intros j Hj. rewrite part_part. apply part_ext. intros e _. unfold at_index.
    destruct (Nat.eqb_spec (index_of (num_shards s) e.1) j), (Nat.eqb_spec (index_of (num_shards s) e.1) i); congruence || done.
Qed.

(** The indices of the shards from [i] on that a clear goes through. *)
Lemma clear_shards_holds n i s kvs : holds s kvs -> (i + n <= num_shards s)%nat ->
  exists s', clear_shards n i s = Some s' /\ num_shards s' = num_shards s /\ total_length s' = total_length s /\
    holds s' (part (fun k => negb ((i <=? index_of (num_shards s) k)%nat && (index_of (num_shards s) k <? i + n)%nat)) kvs).
Proof.
  revert i s kvs. induction n as [|n IH]; intros i s kvs Hh Hi; simpl.
  - exists s. split_and!; [done|done|done|]. rewrite part_all; [done|]. intros k.
    destruct (Nat.leb_spec i (index_of (num_shards s) k)), (Nat.ltb_spec (index_of (num_shards s) k) (i + 0)); simpl; (done || lia).
  - destruct (clear_shard_holds i s kvs Hh) as (s1 & -> & Hh1 & Hn1 & Ht1); [lia|]. cbn [mbind option_bind].
    destruct (IH (Datatypes.S i) s1 _ Hh1) as (s2 & -> & Hn2 & Ht2 & Hh2); [lia|]. exists s2. rewrite Hn2, Ht2.
    split_and!; [done|done|done|]. rewrite part_part, Hn1 in Hh2. erewrite part_ext; [exact Hh2|].
    intros e _. unfold at_index. generalize (index_of (num_shards s) e.1). intros x.
    destruct (Nat.eqb_spec x i), (Nat.leb_spec i x), (Nat.leb_spec (S i) x), (Nat.ltb_spec x (i + S n)), (Nat.ltb_spec x (S i + n)); simpl; (done || lia).
Qed.
End Shards.

(** ** Calls one after the other *)

Section Calls.
Context {K V : Type} `{ord : Ord K} `{Inhabited K, Inhabited V} (hash : K -> Z).

Inductive shard_call : Type :=
| ShardInsert (k : K) (v : V) (draws : nat -> Z) (wait : Z) | ShardSearch (k : K) (wait : Z) | ShardRemove (k : K) (wait : Z)
| ShardContains (k : K) (wait : Z) | ShardClear | ShardFirst | ShardLast | ShardValidate | ShardLen | ShardIsEmpty.

Inductive shard_reply : Type :=
| ReplyDone | ReplyValue (v : option V) | ReplyFlag (b : bool) | ReplyPair (e : option (K * V)) | ReplySize (n : Z)
| ReplyValid (r : result SkipList.ValidationError unit).

Definition shard_exec (s : ShardedSkipList K V) (o : shard_call) : option (shard_reply * ShardedSkipList K V) :=
  match o with
  | ShardInsert k v draws wait => s ← insert hash k v draws wait s; Some (ReplyDone, s)
  | ShardSearch k wait => '(r, s) ← search hash k wait s; Some (ReplyValue r, s)
  | ShardRemove k wait => '(r, s) ← remove hash k wait s; Some (ReplyValue r, s)
  | ShardContains k wait => '(b, s) ← contains hash k wait s; Some (ReplyFlag b, s)
  | ShardClear => s ← clear s; Some (ReplyDone, s)
  | ShardFirst => r ← first s; Some (ReplyPair r, s)
  | ShardLast => r ← last s; Some (ReplyPair r, s)
  | ShardValidate => r ← validate_invariants s; Some (ReplyValid r, s)
  | ShardLen => Some (ReplySize (len s), s)
  | ShardIsEmpty => Some (ReplyFlag (is_empty s), s)
  end.

Definition shard_spec (kvs : list (K * V)) (o : shard_call) : shard_reply * list (K * V) :=
  match o with
  | ShardInsert k v _ _ => (ReplyDone, spec_insert kvs k v)
  | ShardSearch k _ => (ReplyValue (spec_search kvs k), kvs)
  | ShardRemove k _ => (ReplyValue (spec_search kvs k), spec_remove kvs k)
  | ShardContains k _ => (ReplyFlag (match spec_search kvs k with Some _ => true | None => false end), kvs)
  | ShardClear => (ReplyDone, [])
  | ShardFirst => (ReplyPair (hd_error kvs), kvs)
  | ShardLast => (ReplyPair (list.last kvs), kvs)
  | ShardValidate => (ReplyValid (Ok tt), kvs)
  | ShardLen => (ReplySize (wrapu 64 (Z.of_nat (length kvs))), kvs)
  | ShardIsEmpty => (ReplyFlag (wrapu 64 (Z.of_nat (length kvs)) =? 0), kvs)
  end.

Fixpoint shard_exec_all (s : ShardedSkipList K V) (os : list shard_call) : option (list shard_reply * ShardedSkipList K V) :=
  match os with
  | [] => Some ([], s)
  | o :: os => '(a, s) ← shard_exec s o; '(r, s) ← shard_exec_all s os; Some (a :: r, s)
  end.

Fixpoint shard_spec_all (kvs : list (K * V)) (os : list shard_call) : list shard_reply * list (K * V) :=
  match os with
  | [] => ([], kvs)
  | o :: os => let '(a, kvs) := shard_spec kvs o in let '(r, kvs) := shard_spec_all kvs os in (a :: r, kvs)
  end.

Hypothesis hash_eq : forall x y, key_eq x y = true -> hash x = hash y.
Implicit Types (s : ShardedSkipList K V) (kvs : list (K * V)).

Definition consistent s kvs : Prop := holds hash s kvs /\ total_length s = wrapu 64 (Z.of_nat (length kvs)).

(** The best of all shards, for the first and for the last pair. *)
Lemma over_shards_spec (pick : list (K * V) -> option (K * V)) (comb : option (K * V) -> option (K * V) -> option (K * V)) step n kvs ls j best :
  (forall p q, (forall k, p k && q k = false) -> pick (part (fun k => p k || q k) kvs) = comb (pick (part q kvs)) (pick (part p kvs))) ->
  (forall best l kvs, SkipList.Holds l kvs -> step best l = Some (comb (pick kvs) best)) ->
  (forall i l, ls !! i = Some l -> SkipList.Holds l (part (at_index hash n (j + i)) kvs)) ->
  best = pick (part (fun k => index_of hash n k <? j)%nat kvs) ->
  over_shards step best ls = Some (pick (part (fun k => index_of hash n k <? j + length ls)%nat kvs)).
Proof.
  intros Hpick Hstep. revert j best. induction ls as [|l ls IH]; intros j best Hls ->; simpl; [by rewrite Nat.add_0_r|].
  rewrite (Hstep _ _ _ (Hls 0%nat l eq_refl)), Nat.add_0_r. cbn [mbind option_bind].
  rewrite (IH (S j)).
  - by rewrite Nat.add_succ_r.
  - intros i l' Hl'. rewrite Nat.add_succ_comm. by apply (Hls (S i)).
  - rewrite <- Hpick.
    + f_equal. apply part_ext. intros e _. unfold at_index. generalize (index_of hash n e.1). intros x.
      destruct (Nat.ltb_spec x j), (Nat.eqb_spec x j), (Nat.ltb_spec x (S j)); simpl; (done || lia).
    + intros k. unfold at_index. generalize (index_of hash n k). intros x.
      destruct (Nat.ltb_spec x j), (Nat.eqb_spec x j); simpl; (done || lia).
Qed.

Lemma all_indices s kvs : holds hash s kvs -> part (fun k => index_of hash (num_shards s) k <? 0 + length (shards s))%nat kvs = kvs.
Proof.
  intros Hh. apply part_all. intros k. apply Nat.ltb_lt. rewrite (h_len _ _ _ Hh). apply index_of_lt, Hh.
Qed.

Lemma no_indices (n : nat) kvs : part (fun k => index_of hash n k <? 0)%nat kvs = [].
Proof. induction kvs as [|e kvs IH]; [done|]. by rewrite part_cons. Qed.

Lemma first_holds s kvs : holds hash s kvs -> first s = Some (hd_error kvs).
Proof.
  intros Hh. unfold first. rewrite (over_shards_spec hd_error
    (fun e m => match e, m with Some e, Some m => if key_lt e.1 m.1 then Some e else Some m | Some e, None => Some e | None, m => m end)
    first_step (num_shards s) kvs (shards s) 0 None).
  - by rewrite all_indices.
  - intros p q Hd. apply first_of_parts; [apply Hh|done].
  - intros best l kvs' Hl. unfold first_step. rewrite (SkipList.skip_first_spec _ _ Hl). cbn [mbind option_bind]. by destruct (hd_error kvs'), best.
  - apply Hh.
  - by rewrite no_indices.
Qed.

Lemma last_holds s kvs : holds hash s kvs -> last s = Some (list.last kvs).
Proof.
  intros Hh. unfold last. rewrite (over_shards_spec list.last
    (fun e m => match e, m with Some e, Some m => if key_lt m.1 e.1 then Some e else Some m | Some e, None => Some e | None, m => m end)
    last_step (num_shards s) kvs (shards s) 0 None).
  - by rewrite all_indices.
  - intros p q Hd. apply last_of_parts; [apply Hh|done].
  - intros best l kvs' Hl. unfold last_step. rewrite (SkipList.skip_last_spec _ _ Hl). cbn [mbind option_bind]. by destruct (list.last kvs'), best.
  - apply Hh.
  - by rewrite no_indices.
Qed.

Lemma validate_shards_ok (ls : list (SkipList.SkipList K V)) : (forall i l, ls !! i = Some l -> exists kvs, SkipList.Holds l kvs) -> validate_shards ls = Some (Ok tt).
Proof.
  induction ls as [|l ls IH]; intros Hls; simpl; [done|]. destruct (Hls 0%nat l eq_refl) as [kvs Hl].
  rewrite (SkipList.skip_validate_spec _ _ Hl). cbn [mbind option_bind]. apply IH. intros i. apply (Hls (S i)).
Qed.

Lemma clear_holds s kvs : holds hash s kvs -> exists s', clear s = Some s' /\ consistent s' [].
Proof.
  intros Hh. destruct (clear_shards_holds hash (length (shards s)) 0 s kvs Hh) as (s' & E & Hn & Ht & Hh'); [by rewrite (h_len _ _ _ Hh)|].
  unfold clear. rewrite E. eexists. split; [done|]. split; [|done].
  assert (part (fun k => negb ((0 <=? index_of hash (num_shards s) k)%nat && (index_of hash (num_shards s) k <? 0 + length (shards s))%nat)) kvs = []) as Hz.
  { pose proof (fun k => index_of_lt hash (num_shards s) k (h_num _ _ _ Hh)) as Hlt. rewrite (h_len _ _ _ Hh). clear -Hlt.
    induction kvs as [|e kvs IH]; [done|]. rewrite part_cons. simpl. by rewrite (proj2 (Nat.ltb_lt _ _) (Hlt e.1)). }
  rewrite Hz in Hh'. by destruct Hh'.
Qed.

Lemma with_shards_consistent n : (0 < n <= MAX_SHARDS)%nat ->
  exists s, with_shards n = Some (s : ShardedSkipList K V) /\ num_shards s = n /\ consistent s [].
Proof.
  intros Hn. unfold with_shards. rewrite (proj2 (Nat.ltb_lt 0 n)), (proj2 (Nat.leb_le n MAX_SHARDS)) by lia.
  eexists. split; [done|]. split; [done|]. split; [|done].
  split; simpl; [lia|by rewrite length_replicate|by rewrite length_replicate|constructor|].
  intros i l [-> _]%lookup_replicate. apply SkipList.new_skip_Holds.
Qed.

Lemma wrapu_succ n : wrapu 64 (wrapu 64 (Z.of_nat n) + 1) = wrapu 64 (Z.of_nat (S n)).
Proof. unfold wrapu. Z.div_mod_to_equations; lia. Qed.
Lemma wrapu_pred n : wrapu 64 (wrapu 64 (Z.of_nat (S n)) - 1) = wrapu 64 (Z.of_nat n).
Proof. unfold wrapu. Z.div_mod_to_equations; lia. Qed.

Lemma shard_exec_spec s kvs o : consistent s kvs ->
  exists s', shard_exec s o = Some ((shard_spec kvs o).1, s') /\ consistent s' (shard_spec kvs o).2.
Proof.
  intros [Hh Ht]. destruct o as [k v draws wait|k wait|k wait|k wait| | | | | | ]; cbn [shard_exec shard_spec fst snd].
  - destruct (insert_holds hash hash_eq k v draws wait s kvs Hh) as (s' & -> & Hh' & _ & Ht'). eexists. split; [done|]. split; [done|].
    rewrite Ht', spec_insert_length, Ht. destruct (spec_search kvs k); [done|]. apply wrapu_succ.
  - destruct (search_holds hash hash_eq k wait s kvs Hh) as (s' & -> & Hh' & _ & Ht'). eexists. split; [done|]. split; [done|congruence].
  - destruct (remove_holds hash hash_eq k wait s kvs Hh) as (s' & -> & Hh' & _ & Ht'). eexists. split; [done|]. split; [done|].
    rewrite Ht', Ht. pose proof (spec_remove_length kvs k) as L. destruct (spec_search kvs k); rewrite L; [apply wrapu_pred|done].
  - unfold contains. destruct (search_holds hash hash_eq k wait s kvs Hh) as (s' & -> & Hh' & _ & Ht'). eexists. split; [done|].
    split; [done|congruence].
  - destruct (clear_holds s kvs Hh) as (s' & -> & Hc). by exists s'.
  - rewrite (first_holds s kvs Hh). by exists s.
  - rewrite (last_holds s kvs Hh). by exists s.
  - unfold validate_invariants. rewrite validate_shards_ok; [by exists s|]. intros i l Hl. eexists. by apply Hh.
  - exists s. unfold len. by rewrite Ht.
  - exists s. unfold is_empty, len. by rewrite Ht.
Qed.

Lemma shard_exec_all_spec os s kvs : consistent s kvs ->
  exists s', shard_exec_all s os = Some ((shard_spec_all kvs os).1, s') /\ consistent s' (shard_spec_all kvs os).2.
Proof.
  revert s kvs. induction os as [|o os IH]; intros s kvs Hs; [by exists s|]. simpl.
  destruct (shard_exec_spec s kvs o Hs) as (s1 & -> & Hs1). cbn [mbind option_bind].
  destruct (shard_spec kvs o) as [a kvs1]. simpl in Hs1 |- *.
  destruct (IH s1 kvs1 Hs1) as (s2 & -> & Hs2). cbn [mbind option_bind].
  destruct (shard_spec_all kvs1 os) as [r kvs2]. by exists s2.
Qed.

(** C22. Whatever the hash, as long as equal keys have equal hashes, any calls on
    one to 256 shards, one after the other, answer as one sorted list does: the
    first and the last pair of all shards are those of the list, and the count is
    its length.  No call panics. *)
Theorem sharded_list_refines (n : nat) (os : list shard_call) : (0 < n <= MAX_SHARDS)%nat ->
  exists s s', with_shards n = Some s /\ shard_exec_all s os = Some ((shard_spec_all [] os).1, s') /\
    len s' = wrapu 64 (Z.of_nat (length (shard_spec_all [] os).2)).
Proof.
  intros Hn. destruct (with_shards_consistent n Hn) as (s & Hs & _ & Hc). destruct (shard_exec_all_spec os s [] Hc) as (s' & E & Hc').
  exists s, s'. by destruct Hc'.
Qed.

(** A pair that is inserted while another thread clears the shards, after that
    thread has gone past the shard of the key, stays in the list, but the count is
    set to zero when the clear ends; removing the pair takes the count to 2^64 - 1. *)
Theorem clear_loses_count s kvs k v draws wait w1 w2 (j : nat) :
  consistent s kvs -> (index_of hash (num_shards s) k < j <= num_shards s)%nat ->
  exists s1 s2 s3 s4 s5, clear_shards j 0 s = Some s1 /\ insert hash k v draws wait s1 = Some s2 /\
    clear_shards (num_shards s - j) j s2 = Some s3 /\
    len (clear_end s3) = 0 /\ search hash k w1 (clear_end s3) = Some (Some v, s4) /\
    remove hash k w2 s4 = Some (Some v, s5) /\ len s5 = 2 ^ 64 - 1.
Proof.
  intros [Hh _] Hj. destruct (clear_shards_holds hash j 0 s kvs Hh) as (s1 & -> & Hn1 & _ & Hh1); [lia|].
  destruct (insert_holds hash hash_eq k v draws wait s1 _ Hh1) as (s2 & E2 & Hh2 & Hn2 & _).
  destruct (clear_shards_holds hash (num_shards s - j) j s2 _ Hh2) as (s3 & E3 & Hn3 & _ & Hh3); [lia|].
  assert (holds hash (clear_end s3) _) as Hh3' by (destruct Hh3; by split).
  assert (forall kvs', sorted kvs' -> spec_search (part (fun x => negb ((j <=? index_of hash (num_shards s2) x)%nat &&
    (index_of hash (num_shards s2) x <? j + (num_shards s - j))%nat)) (spec_insert kvs' k v)) k = Some v) as Hfound.
  { intros kvs' Hs'. rewrite search_part.
    - rewrite spec_insert_lookup by done. destruct (key_eq k k) eqn:E; [done|]. by rewrite (key_lt_total k k) in E by apply key_lt_irrefl.
    - by apply spec_insert_sorted.
    - apply (closed_index hash hash_eq (num_shards s2) (fun i => negb ((j <=? i)%nat && (i <? j + (num_shards s - j))%nat))).
    - rewrite Hn2, Hn1, (proj2 (Nat.leb_gt _ _)) by lia. done. }
  destruct (search_holds hash hash_eq k w1 _ _ Hh3') as (s4 & E4 & Hh4 & _ & Ht4).
  destruct (remove_holds hash hash_eq k w2 _ _ Hh4) as (s5 & E5 & _ & _ & Ht5).
  rewrite Hfound in E4, E5, Ht5 by apply Hh1. exists s1, s2, s3, s4, s5. split_and!; try done. unfold len. rewrite Ht5, Ht4. done.
Qed.
End Calls.
Arguments shard_call : clear implicits.

(** ** Runs *)

Definition ex_hash (k : nat) : Z := Z.of_nat k * 7.
Definition ex_calls : list (shard_call nat Z) :=
  [ShardInsert 5%nat 50 (fun _ => 0) 1; ShardInsert 2%nat 20 (fun _ => 9) 1; ShardInsert 8%nat 80 (fun _ => 0) 2; ShardFirst; ShardLast; ShardRemove 2%nat 0; ShardLen].

Lemma ex_hash_eq (x y : nat) : key_eq x y = true -> ex_hash x = ex_hash y.
Proof. intros ->%Nat.eqb_eq. done. Qed.

Lemma sharded_list_refines_witness : exists s s' : ShardedSkipList nat Z, with_shards 4 = Some s /\
  shard_exec_all ex_hash s ex_calls = Some ((shard_spec_all [] ex_calls).1, s') /\ len s' = wrapu 64 (Z.of_nat (length (shard_spec_all [] ex_calls).2)).
Proof. apply (sharded_list_refines ex_hash ex_hash_eq 4 ex_calls). unfold MAX_SHARDS. lia. Defined.

Lemma clear_loses_count_witness : exists s s1 s2 s3 s4 s5 : ShardedSkipList nat Z,
  with_shards 4 = Some s /\ clear_shards 2 0 s = Some s1 /\ insert ex_hash 4%nat 40 (fun _ => 0) 1 s1 = Some s2 /\
  clear_shards (num_shards s - 2) 2 s2 = Some s3 /\ len (clear_end s3) = 0 /\
  search ex_hash 4%nat 1 (clear_end s3) = Some (Some 40, s4) /\ remove ex_hash 4%nat 1 s4 = Some (Some 40, s5) /\ len s5 = 2 ^ 64 - 1.
Proof.
  destruct (with_shards_consistent (V := Z) ex_hash 4 ltac:(unfold MAX_SHARDS; lia)) as (s & Hs & Hn & Hc). exists s.
  destruct (clear_loses_count ex_hash ex_hash_eq s [] 4%nat 40 (fun _ => 0) 1 1 1 2 Hc) as (s1 & s2 & s3 & s4 & s5 & Hrest).
  - rewrite Hn. vm_compute. lia.
  - exists s1, s2, s3, s4, s5. split; [exact Hs|exact Hrest].
Defined.
