(* ===== verification/Backup.v ===== *)
(** * Saving and loading the store

    Models [src/src/engine/zdb_protocol.rs]: the keyspace of the in-memory engine
    written as a stream, and a stream read into a store.  A file is its bytes.  The
    theorem composes the store, the codec and the parser: what is saved and loaded
    is the keyspace, over the keys that the store had before, where the format can
    carry all of its entries. *)
From S2P Require Import Prelude Interfaces Ordered Varint ZdbFormat ZdbReader ZdbValue ZdbDump Storage.
From S2P Require Memory ZdbStored ZdbFiles.
Local Open Scope Z_scope.

Section Backup.
Context {G : Type} {set_order : HashOrder (bytes * unit)} {kv_order : HashOrder (bytes * Value)}
  {dict_ops : MapOps (Dict.Dict bytes f64) bytes f64} {sorted_ops : SortedOps (SkipList.SkipList f64 bytes) f64 bytes}.
Context (compress_block : bytes -> option bytes) (zstd_decode : bytes -> bytes * bool).
Notation Store := (Memory.InMemoryStore G).
Implicit Types (s : Store).

(** [iter] goes through the map in its order. *)
Definition save_to_zdb s : option bytes := write_stream compress_block (shuffle (map_to_list (Memory.data s))).

(** [set] does not fail, so that its error is never made one of the parser. *)
Definition store_entry s (key : bytes) (value : Value) : zresult Store :=
  match Memory.set key value s with Some (Ok _, s) => Ok s | _ => Err Unreachable end.

#[local] Instance store_handler : ParseHandler Store Value := callback_handler store_entry.

(** [passes] of the loop of the parser, and [fuel] for the nesting of a value. *)
Definition load_from_zdb (passes fuel : nat) (file : bytes) s : parse_outcome Store :=
  parse zstd_decode (fun r => r) passes fuel s (parser_new file current).

(** ** Theorems *)

Context {score_ord : Ord f64} {dict_laws : MapLaws (Dict.Dict bytes f64) bytes f64}
  {sorted_laws : SortedLaws (SkipList.SkipList f64 bytes) f64 bytes}.

Lemma feed_store s (l : list (bytes * Value)) : feed s l = Ok (Memory.set_data (insert_pairs (Memory.data s) l) s).
Proof.
  revert s. induction l as [|[k v] l IH]; intros s; simpl; [by destruct s|]. unfold store_entry. simpl. by rewrite IH.
Qed.

Lemma items_lookup (items items' : list (bytes * Value)) (m : gmap bytes Value) k :
  items_load items items' -> NoDup items.*1 ->
  match (list_to_map items : gmap bytes Value) !! k, insert_pairs m items' !! k with
  | Some v, Some v' => loads_as v v'
  | None, r => r = m !! k
  | Some _, None => False
  end.
Proof.
  intros Hi Hnd. assert (items'.*1 = items.*1) as Hk.
  { clear -Hi. induction Hi as [|a b l l' [E _] _ IH]; [done|]. change (b.1 :: l'.*1 = a.1 :: l.*1). by rewrite IH, E. }
  rewrite insert_pairs_union by by rewrite Hk. clear Hk. revert Hnd. induction Hi as [|[a v] [b v'] l l' [E Hv] Hi IH]; simpl in *; subst.
  - intros _. by rewrite lookup_empty, map_empty_union.
  - intros [_ Hnd]%NoDup_cons. rewrite <- insert_union_l. destruct (decide (b = k)) as [->|Hne].
    + by rewrite !lookup_insert_eq.
    + rewrite !lookup_insert_ne by done. by apply IH.
Qed.

(** C20. A store that the format can carry is saved, and loading the file into any
    store gives every saved key a value that differs only in what containers do not
    show, leaves the other keys and the geographic sets of that store alone, and
    reads the file to its end.  The conditions are on every entry: its key is within
    the limit of strings and its length does not look like the end mark
    ([plain_key], which a key of 255 bytes is not); its value is [streamable]: no
    list and no stream, whose tags the reader does not know, no sorted set with two
    members of one score, within the limits of the reader and of a compressed block,
    and nested less than [fuel].  Decoding inverts compression. *)
Theorem backup_roundtrip s into fuel passes :
  zstd_inverse zstd_decode compress_block ->
  map_Forall (fun k v => streamable compress_block fuel current (k, v) /\ plain_key current (length k)) (Memory.data s) ->
  (size (Memory.data s) < passes)%nat ->
  exists file loaded p, save_to_zdb s = Some file /\ load_from_zdb passes fuel file into = PDone loaded p /\
    parser_reader p = [] /\ Memory.geo loaded = Memory.geo into /\
    forall k, match Memory.data s !! k, Memory.data loaded !! k with
              | Some v, Some v' => loads_as v v'
              | None, r => r = Memory.data into !! k
              | Some _, None => False
              end.
Proof.
  intros Hz Hf Hp. set (items := shuffle (map_to_list (Memory.data s))).
  assert (items ≡ₚ map_to_list (Memory.data s)) as Hperm by apply shuffle_perm.
  assert (Forall (fun x => streamable compress_block fuel current x /\ plain_key current (length x.1)) items) as Hall.
  { rewrite Hperm, Forall_forall. intros [k v] Hin%elem_of_map_to_list. by apply Hf. }
  apply Forall_and in Hall as [Hs Hk].
  destruct (stream_records compress_block zstd_decode fuel current items Hz Hs) as (l & Hw & Hit & Hlen & Hl & Hkeys).
  pose proof (readable_of zstd_decode fuel current l items Hl Hkeys Hk) as Hr.
  unfold save_to_zdb, write_stream, write_stream_versioned. fold items. rewrite Hw. cbn [mbind option_bind].
  eexists _, _, _. split; [reflexivity|]. unfold load_from_zdb.
  assert (passes = (length l + Datatypes.S (passes - length l - 1)))%nat as ->.
  { rewrite Hlen, Hperm, length_map_to_list. lia. }
  rewrite parse_header by done. cbn [handle_event store_handler callback_handler].
  erewrite (parse_entries zstd_decode _ _ _ _ _ _ _ l [TAG_EOF] Hr (feed_store into _)) by reflexivity.
  rewrite (parse_loop_end _ _ _ _ _ _ _ []) by done. split; [reflexivity|]. split_and!; [done|done|].
  intros k. cbn [Memory.data Memory.set_data].
  pose proof (items_lookup items (entry_item <$> l) (Memory.data into) k Hit) as Hlook.
  assert (NoDup items.*1) as Hnd by (rewrite Hperm; apply NoDup_fst_map_to_list).
  rewrite (list_to_map_proper items (map_to_list (Memory.data s))), list_to_map_to_list in Hlook by done. by apply Hlook.
Qed.
End Backup.

(** ** A run *)

#[local] Existing Instance ZdbStored.ex_dict_ops.
#[local] Existing Instance ZdbStored.ex_dict_laws.
#[local] Existing Instance ZdbStored.ex_skip_ops.
#[local] Existing Instance ZdbStored.f64_ord.
#[local] Existing Instance ZdbStored.ex_skip_laws.

Definition ex_store : Memory.InMemoryStore unit := Memory.mkStore unit {[ [97] := ZdbStored.ex_value; [98; 99] := VInt (-7) ]} ∅.
Definition ex_other : Memory.InMemoryStore unit := Memory.mkStore unit {[ [97] := VNull; [100] := VBool true ]} ∅.

Lemma backup_roundtrip_witness :
  exists file loaded p, save_to_zdb ZdbStored.ex_compress ex_store = Some file /\
    load_from_zdb ZdbStored.ex_decode 3 5 file ex_other = PDone loaded p /\
    parser_reader p = [] /\ Memory.geo loaded = Memory.geo ex_other /\
    forall k : bytes, match Memory.data ex_store !! k, Memory.data loaded !! k with
              | Some v, Some v' => loads_as v v'
              | None, r => r = Memory.data ex_other !! k
              | Some _, None => False
              end.
Proof.
  apply backup_roundtrip.
  - exact ZdbFiles.ex_inverse.
  - pose proof ZdbFiles.ex_streamable as [H1 [H2 _]%Forall_cons]%Forall_cons. unfold ex_store. cbn [Memory.data].
    apply map_Forall_insert; [by vm_compute|]. split; [split; [exact H1|by left; simpl; lia]|].
    apply map_Forall_singleton. split; [exact H2|by left; simpl; lia].
  - vm_compute. lia.
Defined.
